(* ===== verification/_CoqProject ===== *)
-Q . S2P
Prelude.v
CacheMetrics.v
GoStd.v
Lru.v
TokenCache.v
ExpiringCache.v
CacheJanitor.v
Utf8.v
GoPath.v
GoText.v
Sha256.v
Regexp.v
EnvScan.v
EnvParse.v
EnvParseTotal.v
Glob.v
EnvEval.v
EnvSpec.v
EnvPrint.v
Conditions.v
ConditionsMerge.v
ConditionsPatch.v
Dependency.v
Reconcile.v
ConditionsCheck.v
Untar.v
Symlinks.v
SecureFs.v
SsaObject.v
SsaSort.v
Json.v
SsaPatch.v
Interaction.v
OsProg.v
SsaIgnore.v
SsaNormalize.v
SsaDrift.v
SsaClient.v
SsaWait.v
SsaApply.v
SsaApplyAll.v
SsaDelete.v
SsaJsondiff.v
SsaDemo.v
PatchHelper.v
PatchCalls.v
ChartMerge.v
ChartSort.v
ChartValues.v
ApisMeta.v
Sourceignore.v
ArtifactStorage.v
ArtifactGC.v
ModuleBumps.v
Secrets.v
SecretsSpec.v
Auth.v
AuthKeys.v
AuthRuns.v
AuthSpec.v
AuthDemo.v
AuthAws.v
AuthGcp.v
AuthAzure.v
AuthGeneric.v
KnownHosts.v
KnownHostsSpec.v
ControllerQueue.v
Git.v
GitClient.v
GitSpec.v
GitCloneSpec.v
KustomizeVars.v
KustomizeGen.v
KustomizeGenSpec.v
HttpFetch.v
GithubApp.v
RuntimeHelpers.v
MaskToken.v
LockedFile.v
