(* ===== verification/Prelude.v ===== *)
(** * A verification library for the GitOps Toolkit Go SDK (fluxcd/pkg)

    The repository is a set of Go modules that GitOps controllers are built
    from.  This library models the modules that carry logic of their own and
    proves what their callers rely on.  A definition that translates code
    names the file, the lines and the function in the comment before it, as
    in [src/cache/lru.go:106-128 LRU.Set].

    ** The parts of the program and where they are modelled

    - Shared ground.  [Prelude] (this file): results of code that can panic
      ([res]), tactics, and lemmas on lists, sets and sorted lists.  [GoStd]:
      the parts of the Go standard library the code calls, [sort.Search] as
      its loop, [slices.SortFunc] and [sort.Slice] behind the class [SortFunc]
      (a permutation, sorted if the comparison is a total preorder; merge sort
      is an instance), 64-bit integers, [time.Time] with its wall and monotonic
      readings.  [Utf8]: Go strings as bytes, UTF-8 decoding and encoding, and
      the [strings] functions; letters, digits and case beyond ASCII are the
      class [Unicode].  [GoPath]: [path/filepath] on Unix, paths as lists of
      elements and containment.  [Json]: values of [map[string]any].
      [Interaction]: programs that call an environment, their runs and
      interleavings, properties of all their calls.  [OsProg]: the calls of
      package [os] as such programs, and the renaming of [src/oci/internal/fs].
      [GoText], [Sha256], [Regexp]: lines and base64, URLs, SHA-256,
      regular expressions.
    - [src/cache].  [CacheMetrics]: errors, options, and the log of the
      calls on Prometheus collectors.  [Lru]: the LRU cache as a heap of list
      nodes with pointers, refined to the list of its entries in order of use.
      [TokenCache]: access tokens in an LRU with expiry on two clocks.
      [ExpiringCache]: the cache with expiration, whose index and slice share
      items.  [CacheJanitor]: [Close] and the janitor goroutine as a step
      relation over program points, the mutex and an unbuffered channel.
    - [src/envsubst].  [EnvScan] and [EnvParse]: scanner and parser, in a
      state and error monad with panics; [EnvParseTotal]: they are total.
      [Glob]: shell patterns, the code and their declarative meaning.
      [EnvEval]: substitution functions, execution of templates, [Eval].
      [EnvSpec]: what the operators compute and where they panic.  [EnvPrint]:
      a printer of templates and the round trip through parser and evaluator.
    - [src/runtime/conditions].  [Conditions]: the list of conditions of an
      object, [Set], [Delete] and the marks.  [ConditionsMerge]: merging,
      summaries, mirrors and aggregates.  [ConditionsPatch]: three-way patches.
      [ConditionsCheck]: the checker of conditions.
    - [src/runtime/patch].  [PatchHelper], [PatchCalls]: the patch
      helper and the serial patcher as programs over the API, for all answers.
    - [src/runtime/controller].  [ControllerQueue]: the queue hooks and the
      interruption of reconciliations, in every interleaving.
    - [src/runtime/secrets].  [Secrets], [SecretsSpec]: factories, readers and
      the applier of secrets.
    - [src/runtime/events], [src/apis/event].  [RuntimeHelpers]: the event recorder.
    - [src/runtime/acl], [src/runtime/jitter] and other helpers.
      [RuntimeHelpers].
    - [src/runtime/dependency], [src/apis/meta], [src/version].  [Dependency]:
      references, their text, and the topological sort by depth-first search.
      [ApisMeta]: the history of snapshots, requests by annotation, versions.
    - [src/runtime/reconcile].  [Reconcile]: the final status of a
      reconciliation, a client of [Conditions] and [ConditionsMerge].
    - [src/tar].  [Untar]: extraction with its system calls.  [Symlinks]: the
      copy of a tree with its links resolved.
    - [src/ssa].  [SsaObject]: kinds, metadata, errors.  [SsaSort]: the order of
      resources, change sets, the manager.  [SsaPatch]: managed fields, masking
      of secrets.  [SsaIgnore] and [SsaDrift]: ignore rules, ownership of
      fields, drift.  [SsaNormalize]: normalization.  [SsaClient]: programs over
      the Kubernetes API.  [SsaApply], [SsaApplyAll], [SsaWait], [SsaDelete]:
      apply of one object, of all with goroutines and in stages, waiting,
      deletion and diff.  [SsaJsondiff]: diffs of lists.  [SsaDemo]: a concrete
      cluster for the witnesses.
    - [src/chartutil].  [ChartMerge]: merging of values on a heap of shared
      maps.  [ChartSort]: sorting and digests.  [ChartValues]: values from
      config maps and secrets.
    - [src/sourceignore].  [Sourceignore]: patterns, matchers, pattern files.
    - [src/kustomize/filesys].  [SecureFs]: the file system that confirms paths
      and the layer in memory, as functions from file systems to file systems.
    - [src/artifact/storage].  [ArtifactStorage]: paths, atomic writes, archives
      and removals.  [ArtifactGC]: the selection of garbage, its deletion in a
      goroutine against a timeout.
    - [src/auth].  [Auth]: options, keys and credentials over the token cache;
      [AuthKeys], [AuthRuns], [AuthSpec], [AuthDemo]: keys, runs, isolation of
      tenants; [AuthAws], [AuthGcp], [AuthAzure], [AuthGeneric]: the providers.
      [GithubApp]: the GitHub App client.
    - [src/ssh/knownhosts].  [KnownHosts], [KnownHostsSpec]: the database of host
      keys and its check.
    - [src/git].  [Git]: commits, revisions, authentication, signatures;
      [GitClient]: the client over the calls of go-git; [GitSpec], [GitCloneSpec]:
      what a clone returns and where credentials go.
    - [src/kustomize].  [KustomizeVars]: variable substitution, over [EnvEval];
      [KustomizeGen], [KustomizeGenSpec]: the generator, its filters, cleaning up.
    - [src/http].  [HttpFetch]: the archive fetcher, with [Untar], and the
      pool of transports.
    - [src/lockedfile].  [LockedFile]: files under locks of the operating system,
      and every interleaving of their operations.
    - [src/masktoken].  [MaskToken]: masking of tokens, over [Regexp].
    - [src/cmd/internal].  [ModuleBumps]: modules to release and their tags.

    ** How code is translated

    A record is a struct, an inductive type an enumeration or a tagged union.
    Methods pass the state explicitly.  Where the code shares objects (the
    nodes of the LRU list, the items of the expiring cache, the maps of chart
    values) the heap is part of the state and pointers are addresses of it.
    Time and external functions (the fetch callback of [GetIfOrSet], the
    mapping of [Eval], a token's duration, the API object behind a condition
    list) are arguments.  Code that talks to a cluster or to the file system is
    a program of [Interaction]; its theorems hold for all answers.  A method
    guarded by a mutex is one step; the interleaving of goroutines is modelled
    where the code depends on it ([CacheJanitor], [SsaApplyAll], [ArtifactGC],
    [ControllerQueue], [AuthSpec], [LockedFile]).
    Errors are values; a nil dereference or a slice out of range is a panic, a
    value of the result type of its own.

    Code of other packages is a parameter: a class or a section variable, with
    its documented behaviour as a law ([KubeObject], [Matchers], [ApplyEnv],
    [JsonDiff], [Scheme], [Strvals], [FilepathMatch], [ConfirmedDir],
    [TarGzip], [Semver], [SecureJoin_ok], ...).  Where a theorem needs such a
    law, its witness instantiates the parameter with a concrete function.

    ** Fuel

    Loops that are not structural take fuel, with a separate outcome for its
    exhaustion, and no theorem assumes that it suffices:
    - parser and scanner: one unit per byte of the template plus a constant
      ([Parse_total]); the tree is evaluated by structural recursion
      ([Eval_total]);
    - [Match]: the length of the pattern, each round consumes some of it
      ([Match_total]);
    - the depth-first search: one more than the objects and dependencies, each
      call marks a node ([Sort_spec]);
    - [sort.Search]: the length of the interval ([sort_Search_spec]);
    - the copy of a tree with links: one more than the directories of the
      source, no directory is entered twice on a path ([copyDir_spec]);
    - [MergeMaps]: the size of the second value ([MergeMaps_refines]);
    - the loop over growing bumps: one more than the modules, none is bumped
      twice ([ComputeModuleBumps_spec]);
    - [Apply] and polls: one unit per attempt, and an exhausted run has deleted
      the object as often as that ([Apply_attempts]);
    - locks of files: one unit per interruption by a signal; [replace_all]: two
      per rune, each round moves on ([MaskToken_masks]).

    ** What the theorems show

    - Refinement and meaning: an LRU behaves like the list of its entries in
      every sequence of calls ([LRU_trace_refines], [LRU_recency]); patterns
      ([Match_decides], [trim_spec], [wildcardMatch_spec]), printed templates
      ([Eval_print]), topological order ([Sort_spec], [Sort_acyclic_iff]),
      three-way merge ([Apply_three_way], [Apply_conflict_iff],
      [patchStatusConditions_merges]), merging by severity ([merge_spec],
      [SetSummary_verdict]), merged values ([MergeMaps_refines],
      [SortMapSlice_deterministic], [images_merged]), ignore rules
      ([CompileIgnoreRules_paths], [globMatch_anchored], [matcher_Match_last]),
      substitution ([SubstituteVariables_spec]), clones ([Clone_result],
      [cloneSemVer_latest]).
    - Round trips: secrets of all factories ([Make_roundtrip]),
      [revision_roundtrip], [CleanDirectory_restores].
    - Concurrency, for all interleavings: operations on locked files are
      serializable ([lockedfile_serializable]), a requeue is not lost
      ([requeue_heard]), tenants do not share credentials: each goes back to a
      creation in the log of the run for the same tenant
      ([credentials_isolated], [github_tokens_isolated]), transports are not
      shared ([pool_isolated]), the janitor ([Close_progress]).
    - Invariants over all sequences of operations: capacity and consistency of
      the expiring cache ([Cache_run_invariant]), no stale token is served
      ([TokenCache_never_serves_stale]), gauges ([LRU_gauge_tracks]), kstatus
      conventions ([Finalize_kstatus], [Marks_exclusive]), one condition per
      type in display order ([Set_spec], [Set_idempotent]), well-formed
      histories ([Upsert_ok]).
    - Containment: archives are extracted below their directory, but for entries
      named dot-dot ([Untar_contained], [Untar_bounded]), links are resolved below a root
      ([ResolveSymlinksRoot_confined]), builds read below theirs
      ([build_reads_confined], [fsSecure_confined]), storage is cleaned up
      inside itself ([RemoveAllButCurrent_confined]); secrets are masked
      ([SanitizeUnstructuredData_masks], [MaskToken_masks]).
    - Verification before use: archives have their digest ([Fetch_verified]),
      hosts their key ([KnownHosts_check_spec]), credentials go over safe
      transports ([Clone_guarded]), signatures are checked
      ([signatures_verified]), access is granted by an ACL
      ([HasAccessToRef_spec]).
    - Effects, for all answers of the environment: what is applied, in which
      order and after which checks ([Apply_writes], [ApplyAll_spec],
      [ApplyAllStaged_ordered], [DeleteAll_spec], [wait_verdict_sound],
      [Helper_Patch_scoped], [Secret_Apply_spec]), atomic writes
      ([Storage_write_atomic], [Archive_complete]), garbage collection
      ([GetGarbageFiles_exact], [GarbageCollect_returns]), release plans
      ([ComputeModuleBumps_spec]), events ([AnnotatedEventf_spec]).
    - Totality and errors: [Parse_total], [Eval_total], [toSubstr_spec].
    - Behaviour worth knowing: [Close_can_deadlock],
      [Cache_Delete_evicts_live_key], [Cache_overwrite_keeps_deadline],
      [LRU_Resize_gauge_stale], [aggregate_panics], [aggregate_wrong_source],
      [suffix_class_ignored], [localizedLess_cycle], [Untar_limit_overflow],
      [maskMap_leaks], [computeDriftedPaths_nested],
      [ChartValues_values_win], [fsSecure_new_file_escapes],
      [retains_too_many], [legacy_at_sign], [leftover_original_lost],
      [rejected_archive_kept], [full_disk_reported_as_size],
      [github_keys_ambiguous], [app_ids_not_checked], [unknown_object_panics],
      [mask_one_absent], [failed_restore], [double_release],
      [star_matches_slash], [current_is_oldest], [MakeSSH_password_rejected].

    ** What is not modelled

    Code that is a call on a third-party package and little else: the adapters
    of cloud SDKs, JWT and CI OIDC helpers of [auth], the OCI client of [oci],
    the construction of signers in [git], the build of [kustomize], the
    generation of keys in [ssh], CEL expressions and status readers, the
    configuration of Kubernetes clients, loggers, probes, metrics and flags of
    [runtime], the accessors of [runtime/object].  The YAML readers of
    [ssa/utils] and the writing of archives in [tar.go].  Test servers, test
    helpers and generated code. *)

From Stdlib Require Export ZArith Lia ZifyBool Ascii.
From stdpp Require Export base tactics list gmap strings sorting.

Set Default Goal Selector "!".

(** ** Automation shared by the component files *)

(** Reduce projections of record literals and let-bindings in the goal. *)
Ltac rsimpl := cbn in *; simplify_eq/=.

(** Case analysis on every [match] or [if] discriminee visible in the goal
    or the hypotheses. *)
Ltac split_match :=
  repeat (case_match; simplify_eq/=).

(** ** Results *)

(** The result of code that may panic. *)
Inductive res (A : Type) := Val (a : A) | Panics.
Arguments Val {A} a.
Arguments Panics {A}.

#[global] Instance res_ret : MRet res := λ A a, Val a.
#[global] Instance res_bind : MBind res := λ A B f m,
  match m with Val a => f a | Panics => Panics end.
#[global] Instance res_fmap : FMap res := λ A B f m,
  match m with Val a => Val (f a) | Panics => Panics end.

(** An index expression [l[i]]. *)
Definition index_res {A} (l : list A) (i : nat) : res A :=
  match l !! i with Some x => Val x | None => Panics end.

(** ** Lists and finite sets *)

Lemma elem_of_removelast {A} (l : list A) x : x ∈ removelast l → x ∈ l.
Proof. induction l as [|y [|z l] IH]; [done|set_solver|]. simpl in *. set_solver. Qed.

Lemma elem_of_drop {A} n (l : list A) x : x ∈ drop n l → x ∈ l.
Proof. intros Hx. rewrite <- (take_drop n l). set_solver. Qed.

Lemma size_list_to_set_le `{Countable A} (l : list A) :
  size (list_to_set l : gset A) <= length l.
Proof.
  induction l as [|x l IH]; cbn [length list_to_set]; [by apply Nat.eq_le_incl, size_empty|].
  rewrite size_union_alt, size_singleton.
  assert (size ((list_to_set l : gset A) ∖ {[x]}) <= size (list_to_set l : gset A)); [|lia].
  apply subseteq_size. set_solver.
Qed.

(** ** Sorted lists *)

Lemma StronglySorted_snoc {A} (R : A → A → Prop) l x :
  StronglySorted R l → Forall (λ y, R y x) l → StronglySorted R (l ++ [x]).
Proof.
  induction 1 as [|y l Hl IH Hy]; intros Hx; simpl; [repeat constructor|].
  apply Forall_cons in Hx as [? ?]. constructor; [auto|].
  apply Forall_app; split; [done|by constructor].
Qed.

Lemma StronglySorted_ext_in {A} (R R' : A → A → Prop) l :
  (∀ x y, x ∈ l → y ∈ l → R x y → R' x y) → StronglySorted R l → StronglySorted R' l.
Proof.
  intros HR Hl. induction Hl as [|x l Hl IH Hx]; constructor.
  - apply IH. intros; apply HR; set_solver.
  - rewrite Forall_forall in *. intros y Hy. apply HR; set_solver.
Qed.

Lemma StronglySorted_drop {A} (R : A → A → Prop) n l :
  StronglySorted R l → StronglySorted R (drop n l).
Proof.
  intros Hl. revert n. induction Hl as [|x l Hl IH Hx]; intros [|n]; simpl; auto;
    by constructor.
Qed.

Lemma StronglySorted_lookup {A} (R : A → A → Prop) l i j x y :
  StronglySorted R l → i < j → l !! i = Some x → l !! j = Some y → R x y.
Proof.
  intros Hl. revert i j. induction Hl as [|z l Hl IH Hz]; intros i j Hij Hi Hj; [done|].
  destruct j as [|j]; [lia|]. destruct i as [|i]; simplify_eq/=.
  - rewrite Forall_forall in Hz. apply Hz. by eapply list_elem_of_lookup_2.
  - eapply (IH i j); [lia|done..].
Qed.
