(* ===== verification/CacheMetrics.v ===== *)
(** * Errors, options and metrics shared by the stores of the cache package

    Models [cache/errors.go], [cache/store.go], [cache/metrics.go] and
    [cache/involved_object.go].  Prometheus collectors are third-party code:
    a collector is represented by the log of the calls the package makes on
    it, and [gauge] reads the documented value of the item gauge (one [Inc]
    adds one, one [Dec] subtracts one) off such a log. *)

From S2P Require Import Prelude.

(** ** Errors ([cache/errors.go]) *)

(** [src/cache/errors.go:24-28 CacheErrorReason] *)
Record CacheErrorReason := mkReason { reason : string; msg : string }.

#[global] Instance CacheErrorReason_eq_dec : EqDecision CacheErrorReason.
Proof. solve_decision. Defined.

(** [src/cache/errors.go:66-71 ErrNotFound] *)
Definition ErrNotFound := mkReason "NotFound" "object not found".
(** [src/cache/errors.go:66-71 ErrCacheClosed] *)
Definition ErrCacheClosed := mkReason "CacheClosed" "cache is closed".
(** [src/cache/errors.go:66-71 ErrCacheFull] *)
Definition ErrCacheFull := mkReason "CacheFull" "cache is full".
(** [src/cache/errors.go:66-71 ErrInvalidSize] *)
Definition ErrInvalidSize := mkReason "InvalidSize" "invalid size".

(** [src/cache/errors.go:35-38 CacheError]
    The values of Go's [error] interface the package handles.  A
    [CacheErrorReason] is a struct value, compared field by field; a
    [*CacheError] and any other error are pointers, compared by the address
    [id]. *)
Inductive error :=
  | EReason (r : CacheErrorReason)
  | ECacheError (id : positive) (Reason : CacheErrorReason) (Err : error)
  | EOther (id : positive) (text : string).

(** The comparison [==] of two error interface values. *)
Definition error_eqb (a b : error) : bool :=
  match a, b with
  | EReason r, EReason r' => bool_decide (r = r')
  | ECacheError i _ _, ECacheError j _ _ => bool_decide (i = j)
  | EOther i _, EOther j _ => bool_decide (i = j)
  | _, _ => false
  end.

(** [src/cache/errors.go:40-46 CacheError.Error] *)
Fixpoint CacheError_Error (e : error) : string :=
  match e with
  | EReason r => msg r
  | ECacheError _ r err =>
      if bool_decide (msg r = "") then CacheError_Error err
      else msg r +:+ ": " +:+ CacheError_Error err
  | EOther _ t => t
  end.

(** Go's [errors.Is]: compare, ask the error's own [Is] method, unwrap.  For
    a [*CacheError] the [Is] method and [Unwrap] are those of
    [cache/errors.go].
    [src/cache/errors.go:54-64 CacheError.Is] *)
Fixpoint errors_Is (e target : error) : bool :=
  error_eqb e target ||
  match e with
  | ECacheError _ r err =>
      (* CacheError.Is, then Unwrap *)
      (error_eqb (EReason r) target || errors_Is err target)
      || errors_Is err target
  | _ => false
  end.

(** ** Options ([cache/store.go]) *)

(** [src/cache/involved_object.go:21-26 InvolvedObject] *)
Record InvolvedObject := mkInvolvedObject {
  Kind : string; Name : string; Namespace : string; Operation : string }.

(** Durations are nanoseconds, as in Go. *)
Abbreviation duration := Z (only parsing).

Definition nanosecond : Z := 1.
Definition second : Z := 1000000000.
Definition minute : Z := 60 * second.
Definition hour : Z := 60 * minute.

(** [src/cache/store.go:46-55 storeOptions]
    The registerer is third-party: only whether it is nil matters here. *)
Record storeOptions := mkStoreOptions {
  interval : duration;
  registerer : bool;
  metricsPrefix : string;
  maxDuration : duration;
  involvedObject : option InvolvedObject;
  debugKey : string;
  eventNamespaceLabel : string }.

(** The zero value of the struct. *)
Definition zeroStoreOptions : storeOptions :=
  mkStoreOptions 0 false "" 0 None "" "".

(** [src/cache/store.go:66-67 Options]
    An option updates the struct in place and may report an error; what it
    wrote before failing stays. *)
Definition Options := storeOptions → storeOptions * option error.

(** [src/cache/store.go:57-64 storeOptions.apply] *)
Fixpoint storeOptions_apply (o : storeOptions) (opts : list Options)
    : storeOptions * option error :=
  match opts with
  | [] => (o, None)
  | opt :: rest =>
      match opt o with
      | (o', Some err) => (o', Some err)
      | (o', None) => storeOptions_apply o' rest
      end
  end.

(** [src/cache/store.go:69-75 WithCleanupInterval] *)
Definition WithCleanupInterval (i : duration) : Options := λ o,
  (mkStoreOptions i (registerer o) (metricsPrefix o) (maxDuration o)
     (involvedObject o) (debugKey o) (eventNamespaceLabel o), None).

(** [src/cache/store.go:77-83 WithMetricsRegisterer] *)
Definition WithMetricsRegisterer (r : bool) : Options := λ o,
  (mkStoreOptions (interval o) r (metricsPrefix o) (maxDuration o)
     (involvedObject o) (debugKey o) (eventNamespaceLabel o), None).

(** [src/cache/store.go:85-91 WithMetricsPrefix] *)
Definition WithMetricsPrefix (p : string) : Options := λ o,
  (mkStoreOptions (interval o) (registerer o) p (maxDuration o)
     (involvedObject o) (debugKey o) (eventNamespaceLabel o), None).

(** [src/cache/store.go:93-99 WithMaxDuration] *)
Definition WithMaxDuration (d : duration) : Options := λ o,
  (mkStoreOptions (interval o) (registerer o) (metricsPrefix o) d
     (involvedObject o) (debugKey o) (eventNamespaceLabel o), None).

(** [src/cache/store.go:101-112 WithInvolvedObject] *)
Definition WithInvolvedObject (kind name namespace operation : string) : Options := λ o,
  (mkStoreOptions (interval o) (registerer o) (metricsPrefix o) (maxDuration o)
     (Some (mkInvolvedObject kind name namespace operation))
     (debugKey o) (eventNamespaceLabel o), None).

(** [src/cache/store.go:114-120 WithEventNamespaceLabel] *)
Definition WithEventNamespaceLabel (l : string) : Options := λ o,
  (mkStoreOptions (interval o) (registerer o) (metricsPrefix o) (maxDuration o)
     (involvedObject o) (debugKey o) l, None).

(** [src/cache/cache.go:31-32 defaultInterval] *)
Definition defaultInterval : duration := minute.

(** [src/cache/cache.go:100-112 makeOptions] *)
Definition makeOptions (opts : list Options) : storeOptions + error :=
  match storeOptions_apply zeroStoreOptions opts with
  | (_, Some err) => inr err
  | (o, None) =>
      inl (if (interval o <=? 0)%Z
           then mkStoreOptions defaultInterval (registerer o) (metricsPrefix o)
                  (maxDuration o) (involvedObject o) (debugKey o)
                  (eventNamespaceLabel o)
           else o)
  end.

(** ** Metrics ([cache/metrics.go]) *)

(** [src/cache/metrics.go:26-35 CacheEventTypeMiss] *)
Definition CacheEventTypeMiss := "cache_miss".
(** [src/cache/metrics.go:26-35 CacheEventTypeHit] *)
Definition CacheEventTypeHit := "cache_hit".
(** [src/cache/metrics.go:26-35 StatusSuccess] *)
Definition StatusSuccess := "success".
(** [src/cache/metrics.go:26-35 StatusFailure] *)
Definition StatusFailure := "failure".

(** [src/cache/metrics.go:37-40 allEventTypes] *)
Definition allEventTypes : list string := [CacheEventTypeMiss; CacheEventTypeHit].

(** One call on a collector of [cacheMetrics]. *)
Inductive metricOp :=
  | IncCacheEvents (lvs : list string)
  | DeleteCacheEvents (lvs : list string)
  | SetCachedItems (v : Z)
  | IncCacheItems
  | DecCacheItems
  | IncCacheRequests (status : string)
  | IncCacheEvictions.

#[global] Instance metricOp_eq_dec : EqDecision metricOp.
Proof. solve_decision. Defined.

(** [src/cache/metrics.go:42-48 cacheMetrics]
    The four collectors, as the log of the calls made on them, oldest
    first. *)
Definition cacheMetrics := list metricOp.

(** [src/cache/metrics.go:95-99 cacheMetrics.incCacheEvents] *)
Definition incCacheEvents (m : cacheMetrics) (event : string) (lvs : list string)
  : cacheMetrics := m ++ [IncCacheEvents (event :: lvs)].
(** [src/cache/metrics.go:101-105 cacheMetrics.deleteCacheEvent] *)
Definition metrics_deleteCacheEvent (m : cacheMetrics) (event : string) (lvs : list string)
  : cacheMetrics := m ++ [DeleteCacheEvents (event :: lvs)].
(** [src/cache/metrics.go:112-115 cacheMetrics.incCacheItems] *)
Definition incCacheItems (m : cacheMetrics) : cacheMetrics := m ++ [IncCacheItems].
(** [src/cache/metrics.go:117-120 cacheMetrics.decCacheItems] *)
Definition decCacheItems (m : cacheMetrics) : cacheMetrics := m ++ [DecCacheItems].
(** [src/cache/metrics.go:122-125 cacheMetrics.incCacheRequests] *)
Definition incCacheRequests (m : cacheMetrics) (status : string) : cacheMetrics :=
  m ++ [IncCacheRequests status].
(** [src/cache/metrics.go:127-130 cacheMetrics.incCacheEvictions] *)
Definition incCacheEvictions (m : cacheMetrics) : cacheMetrics := m ++ [IncCacheEvictions].

(** The [metrics] field of a store is a possibly nil pointer; the [record]
    helpers do nothing on nil. *)

(** [src/cache/metrics.go:137-141 recordRequest] *)
Definition recordRequest (m : option cacheMetrics) (status : string) : option cacheMetrics :=
  (λ m, incCacheRequests m status) <$> m.
(** [src/cache/metrics.go:143-147 recordEviction] *)
Definition recordEviction (m : option cacheMetrics) : option cacheMetrics :=
  incCacheEvictions <$> m.
(** [src/cache/metrics.go:149-153 recordDecrement] *)
Definition recordDecrement (m : option cacheMetrics) : option cacheMetrics :=
  decCacheItems <$> m.
(** [src/cache/metrics.go:155-159 recordItemIncrement] *)
Definition recordItemIncrement (m : option cacheMetrics) : option cacheMetrics :=
  incCacheItems <$> m.
(** [src/cache/metrics.go:161-165 recordCacheEvent] *)
Definition recordCacheEvent (m : option cacheMetrics)
    (event kind name namespace operation : string) : option cacheMetrics :=
  (λ m, incCacheEvents m event [kind; name; namespace; operation]) <$> m.
(** [src/cache/metrics.go:167-171 deleteCacheEvent] *)
Definition deleteCacheEvent (m : option cacheMetrics)
    (event kind name namespace operation : string) : option cacheMetrics :=
  (λ m, metrics_deleteCacheEvent m event [kind; name; namespace; operation]) <$> m.

(** The value the item gauge shows after a log of calls. *)
Fixpoint gauge_from (v : Z) (m : cacheMetrics) : Z :=
  match m with
  | [] => v
  | SetCachedItems w :: m => gauge_from w m
  | IncCacheItems :: m => gauge_from (v + 1) m
  | DecCacheItems :: m => gauge_from (v - 1) m
  | _ :: m => gauge_from v m
  end.
Definition gauge (m : cacheMetrics) : Z := gauge_from 0 m.

(** The value the gauge shows when metrics are enabled. *)
Definition gauge_is (m : option cacheMetrics) (v : Z) : Prop :=
  match m with Some l => gauge l = v | None => True end.

Lemma gauge_from_app v l1 l2 : gauge_from v (l1 ++ l2) = gauge_from (gauge_from v l1) l2.
Proof. revert v; induction l1 as [|op l1 IH]; intros w; [done|destruct op; simpl; auto]. Qed.

Lemma gauge_app l1 l2 : gauge (l1 ++ l2) = gauge_from (gauge l1) l2.
Proof. apply gauge_from_app. Qed.

Lemma gauge_is_request m s v : gauge_is (recordRequest m s) v ↔ gauge_is m v.
Proof. destruct m; simpl; [|done]. unfold incCacheRequests. by rewrite gauge_app. Qed.

Lemma gauge_is_eviction m v : gauge_is (recordEviction m) v ↔ gauge_is m v.
Proof. destruct m; simpl; [|done]. unfold incCacheEvictions. by rewrite gauge_app. Qed.

Lemma gauge_is_event m e k n ns o v :
  gauge_is (recordCacheEvent m e k n ns o) v ↔ gauge_is m v.
Proof. destruct m; simpl; [|done]. unfold incCacheEvents. by rewrite gauge_app. Qed.

Lemma gauge_is_increment m v : gauge_is (recordItemIncrement m) (v + 1) ↔ gauge_is m v.
Proof. destruct m; simpl; [|done]. unfold incCacheItems. rewrite gauge_app. simpl. lia. Qed.

Lemma gauge_is_decrement m v : gauge_is (recordDecrement m) (v - 1) ↔ gauge_is m v.
Proof. destruct m; simpl; [|done]. unfold decCacheItems. rewrite gauge_app. simpl. lia. Qed.

Create Rewrite HintDb gauge.
#[export] Hint Rewrite gauge_is_request gauge_is_eviction gauge_is_event : gauge.
