(* ===== verification/GoStd.v ===== *)
(** * Parts of the Go standard library the components rely on

    [slices.SortFunc] is an interface, since its order on equal elements is
    unspecified; [sort.Search] is the binary search loop itself. *)

From S2P Require Import Prelude.

(** ** [slices.SortFunc] *)

(** The order a three-way comparison function induces. *)
Definition cmp_le {A} (cmp : A → A → comparison) (x y : A) : Prop := cmp x y ≠ Gt.

(** What [slices.SortFunc] promises: a permutation of the slice, sorted when
    the comparison is a total preorder. *)
Class SortFunc := {
  sortFunc : ∀ {A : Type}, (A → A → comparison) → list A → list A;
  sortFunc_perm : ∀ {A : Type} (cmp : A → A → comparison) (l : list A),
    sortFunc cmp l ≡ₚ l;
  sortFunc_sorted : ∀ {A : Type} (cmp : A → A → comparison) (l : list A),
    Transitive (cmp_le cmp) → Total (cmp_le cmp) →
    StronglySorted (cmp_le cmp) (sortFunc cmp l) }.

#[global] Instance cmp_le_dec {A} (cmp : A → A → comparison) : RelDecision (cmp_le cmp).
Proof.
  intros x y. unfold cmp_le. destruct (cmp x y);
    [left; discriminate|left; discriminate|right; intros Hn; apply Hn; reflexivity].
Defined.

(** Merge sort is one implementation. *)
#[global] Instance mergeSortFunc : SortFunc := {|
  sortFunc A cmp l := merge_sort (cmp_le cmp) l;
  sortFunc_perm A cmp l := merge_sort_Permutation (cmp_le cmp) l;
  sortFunc_sorted A cmp l _ _ := StronglySorted_merge_sort (cmp_le cmp) l |}.

(** A comparison by an integer key is a total preorder. *)
Definition cmp_key {A} (key : A → Z) (x y : A) : comparison := (key x ?= key y)%Z.

Lemma cmp_key_le {A} (key : A → Z) x y : cmp_le (cmp_key key) x y ↔ (key x <= key y)%Z.
Proof. unfold cmp_le, cmp_key. by rewrite Z.compare_ngt_iff, Z.nlt_ge. Qed.

Lemma cmp_key_trans {A} (key : A → Z) : Transitive (cmp_le (cmp_key key)).
Proof. intros x y z. rewrite !cmp_key_le. lia. Qed.

Lemma cmp_key_total {A} (key : A → Z) : Total (cmp_le (cmp_key key)).
Proof. intros x y. rewrite !cmp_key_le. lia. Qed.

Lemma sortFunc_key `{SortFunc} {A} (key : A → Z) (l : list A) :
  StronglySorted (λ x y, (key x <= key y)%Z) (sortFunc (cmp_key key) l).
Proof.
  pose proof (sortFunc_sorted (cmp_key key) l (cmp_key_trans key) (cmp_key_total key)) as Hs.
  eapply StronglySorted_ext_in; [|exact Hs]. intros x y _ _. apply cmp_key_le.
Qed.

(** ** [sort.Slice] *)

(** The comparison of a less function. *)
Definition less_cmp {A} (less : A → A → bool) (x y : A) : comparison :=
  if less x y then Lt else if less y x then Gt else Eq.

Definition sort_Slice `{SortFunc} {A} (less : A → A → bool) (l : list A) : list A :=
  sortFunc (less_cmp less) l.

Section sort_Slice.
Context `{SortFunc} {A : Type} (less : A → A → bool).

Lemma sort_Slice_perm l : sort_Slice less l ≡ₚ l.
Proof. apply sortFunc_perm. Qed.

(** The result is sorted by [R] when [less] is the negation of a total
    preorder [R] with its arguments swapped. *)
Context (R : A → A → Prop) `{!Transitive R, !Total R}.
Hypothesis less_R : ∀ x y, less y x = false ↔ R x y.

Lemma less_cmp_le x y : cmp_le (less_cmp less) x y ↔ R x y.
Proof.
  rewrite <- less_R. unfold cmp_le, less_cmp.
  destruct (less x y) eqn:E1, (less y x) eqn:E2; try done.
  destruct (total R x y) as [Hr|Hr]; apply less_R in Hr; congruence.
Qed.

Lemma sort_Slice_sorted l : StronglySorted R (sort_Slice less l).
Proof.
  eapply StronglySorted_ext_in; [|apply sortFunc_sorted].
  - intros x y _ _. apply less_cmp_le.
  - intros x y z. rewrite !less_cmp_le. apply transitivity.
  - intros x y. rewrite !less_cmp_le. apply (total R).
Qed.
End sort_Slice.

(** ** [sort.Search] *)

(** The loop [for i < j { h := (i+j)/2; if !f(h) { i = h+1 } else { j = h } }];
    the distance [j - i] shrinks in every round, so it bounds the fuel. *)
Fixpoint search_loop (fuel : nat) (f : nat → bool) (i j : nat) : nat :=
  match fuel with
  | O => i
  | S fuel =>
      if i <? j then
        let h := Nat.div2 (i + j) in
        if negb (f h) then search_loop fuel f (S h) j else search_loop fuel f i h
      else i
  end.

Definition sort_Search (n : nat) (f : nat → bool) : nat := search_loop n f 0 n.

Lemma div2_between i j : i < j → i <= Nat.div2 (i + j) < j.
Proof. intros Hij. rewrite Nat.div2_div. split; [apply Nat.div_le_lower_bound|apply Nat.Div0.div_lt_upper_bound]; lia. Qed.

Lemma search_loop_bounds fuel f i j : i <= j → i <= search_loop fuel f i j <= j.
Proof.
  revert i j. induction fuel as [|fuel IH]; intros i j Hij; simpl; [lia|].
  destruct (Nat.ltb_spec i j); [|lia]. pose proof (div2_between i j ltac:(done)).
  destruct (f _); simpl; [specialize (IH i (Nat.div2 (i + j)))|specialize (IH (S (Nat.div2 (i + j))) j)]; lia.
Qed.

(** On a predicate that is false up to a point and true from there on, the
    search finds that point. *)
Lemma search_loop_spec fuel f i j :
  j - i <= fuel → i <= j → (∀ x y, x <= y → f x = true → f y = true) →
  (∀ x, x < i → f x = false) →
  let r := search_loop fuel f i j in
  (∀ x, x < r → f x = false) ∧ (∀ x, r <= x < j → f x = true).
Proof.
  revert i j. induction fuel as [|fuel IH]; intros i j Hf Hij Hmono Hlow; simpl.
  { split; [done|lia]. }
  destruct (Nat.ltb_spec i j); [|split; [done|lia]].
  pose proof (div2_between i j ltac:(done)) as Hb. set (h := Nat.div2 (i + j)) in *.
  destruct (f h) eqn:Hh; simpl.
  - destruct (IH i h) as [H1 H2]; [lia..|done|done|]. split; [done|].
    intros x Hx. destruct (decide (x < h)); [apply H2; lia|].
    apply (Hmono h); [lia|done].
  - destruct (IH (S h) j) as [H1 H2]; [lia..|done| |done].
    intros x Hx. destruct (f x) eqn:Hfx; [|done].
    rewrite (Hmono x h) in Hh; [done|lia|done].
Qed.

Lemma sort_Search_spec n f :
  (∀ x y, x <= y → f x = true → f y = true) →
  sort_Search n f <= n ∧ (∀ x, x < sort_Search n f → f x = false) ∧
  (∀ x, sort_Search n f <= x < n → f x = true).
Proof.
  intros Hmono. pose proof (search_loop_bounds n f 0 n ltac:(lia)).
  split; [unfold sort_Search; lia|]. apply search_loop_spec; [lia..|done|lia].
Qed.

(** ** Machine integers *)

(** The value of a 64-bit signed integer expression: wrap-around modulo
    [2^64]. *)
Definition int64_wrap (z : Z) : Z := ((z + 2 ^ 63) mod 2 ^ 64 - 2 ^ 63)%Z.

Lemma int64_wrap_id z : (- 2 ^ 63 <= z < 2 ^ 63)%Z → int64_wrap z = z.
Proof. intros Hz. unfold int64_wrap. rewrite Z.mod_small; lia. Qed.

Lemma int64_wrap_range z : (- 2 ^ 63 <= int64_wrap z < 2 ^ 63)%Z.
Proof. unfold int64_wrap. pose proof (Z.mod_pos_bound (z + 2 ^ 63) (2 ^ 64)). lia. Qed.

(** ** [time.Time] with its two clock readings

    [wall] is in nanoseconds since the Unix epoch; [mono] is the reading of
    the process's monotonic clock, which [time.Now] attaches and
    [time.Unix] does not. *)
Record time := mkTime { wall : Z; mono : option Z }.

(** [t.Add(d)] moves both readings. *)
Definition time_Add (t : time) (d : Z) : time :=
  mkTime (wall t + d) ((λ m, (m + d)%Z) <$> mono t).

(** [t.After(u)] compares the monotonic readings when both have one. *)
Definition time_After (t u : time) : bool :=
  match mono t, mono u with
  | Some a, Some b => (b <? a)%Z
  | _, _ => (wall u <? wall t)%Z
  end.

(** [t.Unix()]: seconds since the epoch, rounded down. *)
Definition time_Unix (t : time) : Z := (wall t / 1000000000)%Z.

(** [time.Unix(sec, 0)] *)
Definition unix_time (sec : Z) : time := mkTime (sec * 1000000000) None.
