(* ===== verification/Lru.v ===== *)
(** * The LRU cache ([cache/lru.go])

    The cache is a map from keys to the nodes of a doubly linked list that
    lives in a heap of nodes: [LRU] keeps the heap explicitly, a node pointer
    is an address of it and a nil pointer is [None].  Dereferencing nil (or an
    address that is not allocated) is a panic, and an operation that can panic
    returns [None] then.

    The abstract state is the list of the entries from the least to the most
    recently used one; [lru_rep] relates the two and the refinement theorems
    show that, from every represented state, an operation does not panic,
    returns what the abstract operation returns and ends in a state that
    represents the abstract result. *)

From S2P Require Import Prelude CacheMetrics.

(** ** The code *)

(** A node pointer that is not nil. *)
Abbreviation ptr := positive (only parsing).

Section code.
Context {T : Type} `{Inhabited T}.

(** [src/cache/lru.go:29-34 node] *)
Record node := mkNode {
  nvalue : T;
  nkey : string;
  nprev : option ptr;
  nnext : option ptr }.

Definition set_next (n : node) (q : option ptr) : node :=
  mkNode (nvalue n) (nkey n) (nprev n) q.
Definition set_prev (n : node) (q : option ptr) : node :=
  mkNode (nvalue n) (nkey n) q (nnext n).

(** [src/cache/lru.go:36-38 node.addNext] *)
Definition node_addNext (h : gmap ptr node) (n q : option ptr) : option (gmap ptr node) :=
  p ← n; nd ← h !! p; Some (<[p := set_next nd q]> h).

(** [src/cache/lru.go:40-42 node.addPrev] *)
Definition node_addPrev (h : gmap ptr node) (n q : option ptr) : option (gmap ptr node) :=
  p ← n; nd ← h !! p; Some (<[p := set_prev nd q]> h).

(** [src/cache/lru.go:69-76 LRU] *)
Record LRU := mkLRU {
  heap : gmap ptr node;
  cache : gmap string ptr;
  capacity : Z;
  metrics : option cacheMetrics;
  head : ptr;
  tail : ptr }.

Definition with_heap (c : LRU) (h : gmap ptr node) : LRU :=
  mkLRU h (cache c) (capacity c) (metrics c) (head c) (tail c).
Definition with_cache (c : LRU) (m : gmap string ptr) : LRU :=
  mkLRU (heap c) m (capacity c) (metrics c) (head c) (tail c).
Definition with_metrics (c : LRU) (m : option cacheMetrics) : LRU :=
  mkLRU (heap c) (cache c) (capacity c) m (head c) (tail c).
Definition with_capacity (c : LRU) (n : Z) : LRU :=
  mkLRU (heap c) (cache c) n (metrics c) (head c) (tail c).

(** [&node[T]{...}]: allocate a node at an address that is not in use. *)
Definition alloc (c : LRU) (n : node) : ptr * LRU :=
  let p := fresh (dom (heap c)) in (p, with_heap c (<[p := n]> (heap c))).

(** [src/cache/lru.go:80-104 NewLRU] *)
Definition NewLRU (cap : Z) (opts : list Options) : option (LRU + error) :=
  match makeOptions opts with
  | inr err => Some (inr err)
  | inl opt =>
      let h0 := {[ 1%positive := mkNode inhabitant "" None None;
                   2%positive := mkNode inhabitant "" None None ]} in
      h1 ← node_addNext h0 (Some 1%positive) (Some 2%positive);
      h2 ← node_addPrev h1 (Some 2%positive) (Some 1%positive);
      Some (inl (mkLRU h2 ∅ cap (if registerer opt then Some [] else None)
                   1%positive 2%positive))
  end.

(** [src/cache/lru.go:247-251 LRU.delete] *)
Definition LRU_delete (c : LRU) (n : option ptr) : option LRU :=
  p ← n;
  nd ← heap c !! p;
  h1 ← node_addNext (heap c) (nprev nd) (nnext nd);
  h2 ← node_addPrev h1 (nnext nd) (nprev nd);
  h3 ← node_addNext h2 (Some p) None;
  h4 ← node_addPrev h3 (Some p) None;
  Some (with_cache (with_heap c h4) (base.delete (nkey nd) (cache c))).

(** The read [p.next] of a non-nil pointer. *)
Definition next_of (c : LRU) (p : ptr) : option (option ptr) :=
  nd ← heap c !! p; Some (nnext nd).

(** Link a node in front of the tail and index it.
    [src/cache/lru.go:208-214 LRU.add] *)
Definition add_link (c : LRU) (n : ptr) : option LRU :=
  tnd ← heap c !! tail c;
  let prev := nprev tnd in
  h1 ← node_addNext (heap c) prev (Some n);
  h2 ← node_addPrev h1 (Some (tail c)) (Some n);
  h3 ← node_addPrev h2 (Some n) prev;
  h4 ← node_addNext h3 (Some n) (Some (tail c));
  nd ← h4 !! n;
  Some (with_cache (with_heap c h4) (<[nkey nd := n]> (cache c))).

(** [src/cache/lru.go:207-221 LRU.add] *)
Definition LRU_add (c : LRU) (n : ptr) : option (LRU * bool) :=
  c1 ← add_link c n;
  if (capacity c1 <? Z.of_nat (size (cache c1)))%Z then
    first ← next_of c1 (head c1);
    c2 ← LRU_delete c1 first;
    Some (c2, true)
  else Some (c1, false).

(** [src/cache/lru.go:106-128 LRU.Set] *)
Definition LRU_Set (c : LRU) (key : string) (value : T) : option (LRU * option error) :=
  match cache c !! key with
  | Some newNode =>
      c1 ← LRU_delete c (Some newNode);
      let '(p, c2) := alloc c1 (mkNode value key None None) in
      '(c3, _) ← LRU_add c2 p;
      Some (with_metrics c3 (recordRequest (metrics c3) StatusSuccess), None)
  | None =>
      let '(p, c1) := alloc c (mkNode value key None None) in
      '(c2, evicted) ← LRU_add c1 p;
      let m := recordRequest (metrics c2) StatusSuccess in
      if evicted : bool then Some (with_metrics c2 (recordEviction m), None)
      else Some (with_metrics c2 (recordItemIncrement m), None)
  end.

(** The deferred function of [GetIfOrSet], run after the lock is released:
    it records the request, the cache event of the involved object and the
    change of the number of items.  Logging is not modelled.
    [src/cache/lru.go:145-181 LRU.GetIfOrSet] *)
Definition GetIfOrSet_deferred (m : option cacheMetrics) (opts : list Options)
    (ok existed evicted : bool) (err : option error) : option cacheMetrics :=
  let o := fst (storeOptions_apply zeroStoreOptions opts) in
  let status := match err with Some _ => StatusFailure | None => StatusSuccess end in
  let m1 := recordRequest m status in
  let event := if ok then CacheEventTypeHit else CacheEventTypeMiss in
  let m2 := match involvedObject o with
            | Some obj => recordCacheEvent m1 event (Kind obj) (Name obj)
                            (Namespace obj) (Operation obj)
            | None => m1
            end in
  if evicted then recordEviction m2
  else if negb existed && bool_decide (err = None)
       then recordItemIncrement m2 else m2.

(** The part of [GetIfOrSet] that calls [fetch] and stores its result;
    [fetched] is the outcome of the call. *)
Definition GetIfOrSet_fetch (c : LRU) (key : string) (fetched : T + error)
    (opts : list Options) (existed : bool)
    : option (LRU * (T * bool * option error)) :=
  match fetched with
  | inr err =>
      Some (with_metrics c
              (GetIfOrSet_deferred (metrics c) opts false existed false (Some err)),
            (inhabitant, false, Some err))
  | inl value =>
      let '(p, c1) := alloc c (mkNode value key None None) in
      '(c2, evicted) ← LRU_add c1 p;
      Some (with_metrics c2
              (GetIfOrSet_deferred (metrics c2) opts false existed evicted None),
            (value, false, None))
  end.

(** [src/cache/lru.go:135-205 LRU.GetIfOrSet] *)
Definition LRU_GetIfOrSet (c : LRU) (key : string) (condition : T → bool)
    (fetched : T + error) (opts : list Options)
    : option (LRU * (T * bool * option error)) :=
  match cache c !! key with
  | Some curNode =>
      c1 ← LRU_delete c (Some curNode);
      nd ← heap c1 !! curNode;
      if condition (nvalue nd) then
        '(c2, _) ← LRU_add c1 curNode;
        Some (with_metrics c2
                (GetIfOrSet_deferred (metrics c2) opts true true false None),
              (nvalue nd, true, None))
      else GetIfOrSet_fetch c1 key fetched opts true
  | None => GetIfOrSet_fetch c key fetched opts false
  end.

(** [src/cache/lru.go:223-245 LRU.Delete] *)
Definition LRU_Delete (c : LRU) (key : string) : option (LRU * option error) :=
  hnd ← heap c !! head c;
  tnd ← heap c !! tail c;
  if bool_decide (key = nkey hnd) || bool_decide (key = nkey tnd) then
    Some (with_metrics c (recordRequest (metrics c) StatusSuccess), None)
  else match cache c !! key with
  | None => Some (with_metrics c (recordRequest (metrics c) StatusSuccess), None)
  | Some n =>
      c1 ← LRU_delete c (Some n);
      Some (with_metrics c1
              (recordDecrement (recordRequest (metrics c1) StatusSuccess)), None)
  end.

(** [src/cache/lru.go:253-271 LRU.Get] *)
Definition LRU_Get (c : LRU) (key : string) : option (LRU * (T * option error)) :=
  match cache c !! key with
  | None => Some (with_metrics c (recordRequest (metrics c) StatusSuccess),
                  (inhabitant, Some (EReason ErrNotFound)))
  | Some n =>
      c1 ← LRU_delete c (Some n);
      '(c2, _) ← LRU_add c1 n;
      nd ← heap c2 !! n;
      Some (with_metrics c2 (recordRequest (metrics c2) StatusSuccess),
            (nvalue nd, None))
  end.

(** Go's map iteration order is unspecified; the model uses one order and the
    theorems speak of the keys up to permutation.
    [src/cache/lru.go:273-283 LRU.ListKeys] *)
Definition LRU_ListKeys (c : LRU) : LRU * list string :=
  (with_metrics c (recordRequest (metrics c) StatusSuccess),
   (map_to_list (cache c)).*1).

(** The eviction loop of [Resize].
    [src/cache/lru.go:302-305 LRU.Resize] *)
Fixpoint Resize_loop (n : nat) (c : LRU) : option LRU :=
  match n with
  | O => Some c
  | S n =>
      first ← next_of c (head c);
      c1 ← LRU_delete c first;
      Resize_loop n (with_metrics c1 (recordEviction (metrics c1)))
  end.

(** [src/cache/lru.go:285-309 LRU.Resize] *)
Definition LRU_Resize (c : LRU) (size' : Z) : option (LRU * (Z * option error)) :=
  if (size' <=? 0)%Z then
    Some (with_metrics c (recordRequest (metrics c) StatusFailure),
          (0%Z, Some (EReason ErrInvalidSize)))
  else
    let overflow := (Z.of_nat (size (cache c)) - size')%Z in
    let c1 := with_capacity c size' in
    if (overflow <=? 0)%Z then
      Some (with_metrics c1 (recordRequest (metrics c1) StatusSuccess), (0%Z, None))
    else
      c2 ← Resize_loop (Z.to_nat overflow) c1;
      Some (with_metrics c2 (recordRequest (metrics c2) StatusSuccess), (overflow, None)).

(** [src/cache/lru.go:311-315 LRU.RecordCacheEvent] *)
Definition LRU_RecordCacheEvent (c : LRU) (event kind name namespace operation : string) : LRU :=
  with_metrics c (recordCacheEvent (metrics c) event kind name namespace operation).

(** [src/cache/lru.go:317-321 LRU.DeleteCacheEvent] *)
Definition LRU_DeleteCacheEvent (c : LRU) (event kind name namespace operation : string) : LRU :=
  with_metrics c (deleteCacheEvent (metrics c) event kind name namespace operation).

End code.

Arguments node T : clear implicits.
Arguments LRU T : clear implicits.
#[global] Arguments node_addNext : simpl never.
#[global] Arguments node_addPrev : simpl never.
#[global] Arguments add_link : simpl never.
#[global] Arguments LRU_delete : simpl never.
#[global] Arguments LRU_add : simpl never.

(** ** Chains of nodes *)

Section chains.
Context {T : Type}.
Implicit Types (h : gmap ptr (node T)) (q : list ptr).

Definition nxt h (p : ptr) : option ptr := n ← h !! p; nnext n.
Definition prv h (p : ptr) : option ptr := n ← h !! p; nprev n.

(** Two neighbours that point to each other. *)
Definition link h (x y : ptr) : Prop := nxt h x = Some y ∧ prv h y = Some x.

(** Every two adjacent nodes of the list are linked. *)
Fixpoint chain h q : Prop :=
  match q with
  | x :: ((y :: _) as q') => link h x y ∧ chain h q'
  | _ => True
  end.

Lemma chain_app h q1 x q2 :
  chain h (q1 ++ x :: q2) ↔ chain h (q1 ++ [x]) ∧ chain h (x :: q2).
Proof.
  induction q1 as [|a [|b q1] IH]; simpl in *; [tauto| |].
  - destruct q2; simpl; tauto.
  - rewrite IH. tauto.
Qed.

(** A chain is unchanged by updates that keep the forward pointers of all but
    its last node and the backward pointers of all but its first node. *)
Lemma chain_frame h h' q :
  (∀ z, z ∈ removelast q → nxt h' z = nxt h z) →
  (∀ z, z ∈ drop 1 q → prv h' z = prv h z) →
  chain h q → chain h' q.
Proof.
  induction q as [|x [|y q] IH]; [done..|]. intros Hn Hp [[Hxy Hyx] Hq].
  split.
  - split; [rewrite Hn by (simpl; set_solver)|rewrite Hp by (simpl; set_solver)]; done.
  - apply IH; [|set_solver|done]. intros z Hz. apply Hn. simpl in *. set_solver.
Qed.

(** The contents of a node, which linking never changes. *)
Definition payload h (p : ptr) : option (string * T) :=
  n ← h !! p; Some (nkey n, nvalue n).

(** Reads of a heap after [addNext] and [addPrev]. *)
Lemma addNext_run h p (o : option ptr) :
  is_Some (h !! p) → ∃ h', node_addNext h (Some p) o = Some h' ∧
    (∀ z, nxt h' z = if decide (z = p) then o else nxt h z) ∧
    (∀ z, prv h' z = prv h z) ∧ (∀ z, payload h' z = payload h z) ∧
    (∀ z, is_Some (h' !! z) ↔ is_Some (h !! z)).
Proof.
  intros [nd Hnd]. unfold node_addNext. simpl. rewrite Hnd. simpl.
  eexists; split; [done|]. unfold nxt, prv, payload.
  split_and!; intros z; rewrite lookup_insert; repeat case_decide; simplify_eq/=;
    rewrite ?Hnd; done.
Qed.

Lemma addPrev_run h p (o : option ptr) :
  is_Some (h !! p) → ∃ h', node_addPrev h (Some p) o = Some h' ∧
    (∀ z, prv h' z = if decide (z = p) then o else prv h z) ∧
    (∀ z, nxt h' z = nxt h z) ∧ (∀ z, payload h' z = payload h z) ∧
    (∀ z, is_Some (h' !! z) ↔ is_Some (h !! z)).
Proof.
  intros [nd Hnd]. unfold node_addPrev. simpl. rewrite Hnd. simpl.
  eexists; split; [done|]. unfold nxt, prv, payload.
  split_and!; intros z; rewrite lookup_insert; repeat case_decide; simplify_eq/=;
    rewrite ?Hnd; done.
Qed.

Lemma nxt_is_Some h x y : nxt h x = Some y → is_Some (h !! x).
Proof. unfold nxt. destruct (h !! x); simpl; eauto; done. Qed.
Lemma prv_is_Some h x y : prv h x = Some y → is_Some (h !! x).
Proof. unfold prv. destruct (h !! x); simpl; eauto; done. Qed.
Lemma payload_is_Some h x kv : payload h x = Some kv → is_Some (h !! x).
Proof. unfold payload. destruct (h !! x); simpl; eauto; done. Qed.

(** [LRU_delete] unlinks a node between two neighbours. *)
Lemma delete_run (c : LRU T) x p y nd :
  link (heap c) x p → link (heap c) p y → heap c !! p = Some nd → x ≠ p → y ≠ p →
  ∃ h', LRU_delete c (Some p) = Some (with_cache (with_heap c h') (delete (nkey nd) (cache c))) ∧
    (∀ z, nxt h' z = if decide (z = p) then None
                     else if decide (z = x) then Some y else nxt (heap c) z) ∧
    (∀ z, prv h' z = if decide (z = p) then None
                     else if decide (z = y) then Some x else prv (heap c) z) ∧
    (∀ z, payload h' z = payload (heap c) z) ∧
    (∀ z, is_Some (h' !! z) ↔ is_Some (heap c !! z)).
Proof.
  intros [Hxp Hpx] [Hpy Hyp] Hnd Hxy Hyx. unfold LRU_delete. simpl. rewrite Hnd. simpl.
  assert (nnext nd = Some y ∧ nprev nd = Some x) as [-> ->].
  { revert Hpx Hpy. unfold prv, nxt. by rewrite Hnd. }
  destruct (addNext_run (heap c) x (Some y)) as (h1 & -> & N1 & P1 & K1 & D1).
  { eauto using nxt_is_Some. }
  destruct (addPrev_run h1 y (Some x)) as (h2 & E2 & P2 & N2 & K2 & D2).
  { rewrite D1. eauto using prv_is_Some. }
  simpl. rewrite E2. simpl.
  destruct (addNext_run h2 p None) as (h3 & E3 & N3 & P3 & K3 & D3).
  { rewrite D2, D1. eauto. }
  simpl. rewrite E3. simpl.
  destruct (addPrev_run h3 p None) as (h4 & E4 & P4 & N4 & K4 & D4).
  { rewrite D3, D2, D1. eauto. }
  simpl. rewrite E4. simpl.
  eexists; split; [done|]. split_and!; intros z.
  - rewrite N4, N3, N2, N1. repeat case_decide; congruence.
  - rewrite P4, P3, P2, P1. repeat case_decide; congruence.
  - by rewrite K4, K3, K2, K1.
  - by rewrite D4, D3, D2, D1.
Qed.

(** [add_link] puts a node between the last node [x] and the tail. *)
Lemma add_link_run (c : LRU T) x p k v :
  link (heap c) x (tail c) → payload (heap c) p = Some (k, v) →
  p ≠ x → p ≠ tail c → x ≠ tail c →
  ∃ h', add_link c p = Some (with_cache (with_heap c h') (<[k := p]> (cache c))) ∧
    (∀ z, nxt h' z = if decide (z = p) then Some (tail c)
                     else if decide (z = x) then Some p else nxt (heap c) z) ∧
    (∀ z, prv h' z = if decide (z = p) then Some x
                     else if decide (z = tail c) then Some p else prv (heap c) z) ∧
    (∀ z, payload h' z = payload (heap c) z) ∧
    (∀ z, is_Some (h' !! z) ↔ is_Some (heap c !! z)).
Proof.
  intros [Hxt Htx] Hp Hpx Hpt Hxne. unfold add_link.
  destruct (prv_is_Some _ _ _ Htx) as [tnd Ht]. rewrite Ht. simpl.
  assert (nprev tnd = Some x) as ->. { revert Htx. unfold prv. by rewrite Ht. }
  destruct (addNext_run (heap c) x (Some p)) as (h1 & -> & N1 & P1 & K1 & D1).
  { eauto using nxt_is_Some. }
  destruct (addPrev_run h1 (tail c) (Some p)) as (h2 & E2 & P2 & N2 & K2 & D2).
  { rewrite D1. eauto. }
  simpl. rewrite E2. simpl.
  destruct (addPrev_run h2 p (Some x)) as (h3 & E3 & P3 & N3 & K3 & D3).
  { rewrite D2, D1. eauto using payload_is_Some. }
  simpl. rewrite E3. simpl.
  destruct (addNext_run h3 p (Some (tail c))) as (h4 & E4 & N4 & P4 & K4 & D4).
  { rewrite D3, D2, D1. eauto using payload_is_Some. }
  simpl. rewrite E4. simpl.
  assert (payload h4 p = Some (k, v)) as Hp4 by (by rewrite K4, K3, K2, K1).
  revert Hp4. unfold payload at 1. destruct (h4 !! p) as [nd|]; [|done].
  intros [= <- <-]. eexists; split; [done|]. split_and!; intros z.
  - rewrite N4, N3, N2, N1. repeat case_decide; congruence.
  - rewrite P4, P3, P2, P1. repeat case_decide; congruence.
  - by rewrite K4, K3, K2, K1.
  - by rewrite D4, D3, D2, D1.
Qed.
End chains.

(** ** The representation invariant *)

(** Reduce the fields of an updated cache. *)
Ltac lru_cbn :=
  cbn [heap cache capacity metrics head tail with_heap with_cache with_metrics
       with_capacity alloc fst snd] in *.

Section invariant.
Context {T : Type} `{Inhabited T}.
Implicit Types (c : LRU T) (ns : list (ptr * (string * T))) (l : list (string * T)).

(** The index entries of a list of nodes. *)
Definition index_of ns : gmap string ptr := list_to_map ((λ n, (n.2.1, n.1)) <$> ns).

(** [c] holds exactly the nodes [ns], least recently used first. *)
Record lru_inv c ns : Prop := mkLruInv {
  inv_chain : chain (heap c) (head c :: ns.*1 ++ [tail c]);
  inv_nodup : NoDup (head c :: ns.*1 ++ [tail c]);
  inv_payload : Forall (λ n, payload (heap c) n.1 = Some n.2) ns;
  inv_cache : cache c = index_of ns;
  inv_keys : NoDup (ns.*2.*1);
  inv_head : fst <$> payload (heap c) (head c) = Some "";
  inv_tail : fst <$> payload (heap c) (tail c) = Some "" }.

(** [c] represents the entries [l], least recently used first, within its
    capacity. *)
Definition lru_rep c l : Prop :=
  ∃ ns, ns.*2 = l ∧ lru_inv c ns ∧ (Z.of_nat (length l) <= Z.max 0 (capacity c))%Z.

Lemma index_of_app ns1 p kv ns2 :
  NoDup ((ns1 ++ (p, kv) :: ns2).*2.*1) →
  index_of (ns1 ++ (p, kv) :: ns2) = <[kv.1 := p]> (index_of (ns1 ++ ns2)) ∧
  index_of (ns1 ++ ns2) !! kv.1 = None.
Proof.
  intros Hnd. unfold index_of. rewrite !fmap_app, fmap_cons.
  rewrite !fmap_app, !fmap_cons in Hnd.
  split.
  - rewrite <- list_to_map_cons. apply list_to_map_proper.
    + rewrite fmap_app, fmap_cons, <- !list_fmap_compose. unfold compose. simpl.
      rewrite <- !list_fmap_compose in Hnd. exact Hnd.
    + by rewrite Permutation_middle.
  - apply not_elem_of_list_to_map_1.
    rewrite fmap_app, <- !list_fmap_compose. unfold compose. simpl.
    rewrite <- !list_fmap_compose in Hnd. simpl in Hnd.
    apply NoDup_app in Hnd as (_ & Hd & [Hn _]%NoDup_cons). set_solver.
Qed.

Lemma index_of_lookup ns k p :
  NoDup (ns.*2.*1) → index_of ns !! k = Some p → ∃ ns1 v ns2, ns = ns1 ++ (p, (k, v)) :: ns2.
Proof.
  intros Hnd Hk%elem_of_list_to_map_2.
  apply list_elem_of_fmap in Hk as ([q [k' v]] & [= -> ->] & Hin).
  apply list_elem_of_split in Hin as (ns1 & ns2 & ->). eauto.
Qed.

Lemma index_of_None ns k : index_of ns !! k = None → k ∉ ns.*2.*1.
Proof.
  intros Hk%not_elem_of_list_to_map_2. contradict Hk.
  by rewrite <- !list_fmap_compose in *.
Qed.

Lemma index_of_size ns : NoDup (ns.*2.*1) → size (index_of ns) = length ns.
Proof.
  induction ns as [|[p kv] ns IH]; [done|]. intros Hnd.
  destruct (index_of_app [] p kv ns Hnd) as [E Hn]. simpl in *. rewrite E.
  rewrite map_size_insert_None by done. rewrite IH; [done|].
  by apply NoDup_cons in Hnd as [_ ?].
Qed.

(** The chain around one node. *)
Lemma chain_around (hd : ptr) q1 (p : ptr) q2 tl :
  ∃ a x y b, hd :: (q1 ++ p :: q2) ++ [tl] = a ++ x :: p :: y :: b ∧
             hd :: (q1 ++ q2) ++ [tl] = a ++ x :: y :: b.
Proof.
  assert (∃ y b, q2 ++ [tl] = y :: b) as (y & b & Hb).
  { destruct q2; simpl; eauto. }
  assert (∃ a x, hd :: q1 = a ++ [x]) as (a & x & Ha).
  { destruct (exists_last (l := hd :: q1)) as (a & x & ->); [done|eauto]. }
  exists a, x, y, b. split.
  - change (hd :: (q1 ++ p :: q2) ++ [tl]) with ((hd :: q1 ++ p :: q2) ++ [tl]).
    rewrite (app_comm_cons q1), Ha, <- !app_assoc. simpl. by rewrite Hb.
  - change (hd :: (q1 ++ q2) ++ [tl]) with ((hd :: q1 ++ q2) ++ [tl]).
    rewrite (app_comm_cons q1), Ha, <- !app_assoc. by rewrite Hb.
Qed.

(** Splicing a node out of a chain. *)
Lemma chain_unlink (h h' : gmap ptr (node T)) a x p y b :
  NoDup (a ++ x :: p :: y :: b) → chain h (a ++ x :: p :: y :: b) →
  (∀ z, nxt h' z = if decide (z = p) then None
                   else if decide (z = x) then Some y else nxt h z) →
  (∀ z, prv h' z = if decide (z = p) then None
                   else if decide (z = y) then Some x else prv h z) →
  chain h' (a ++ x :: y :: b).
Proof.
  intros Hnd (Ha & Hxp & Hpy & Hb)%chain_app Hn Hp.
  apply NoDup_app in Hnd as (_ & Hdisj & Hnd).
  rewrite !NoDup_cons, !not_elem_of_cons in Hnd.
  apply chain_app. split; [|split].
  - eapply chain_frame; [..|done].
    + rewrite removelast_last. intros z Hz. specialize (Hdisj z Hz). rewrite Hn.
      rewrite !decide_False by (intros ->; set_solver). done.
    + intros z Hz. rewrite Hp.
      assert (z ∈ a ∨ z = x) as Hz'. { destruct a; set_solver. }
      rewrite !decide_False; [done|..]; intros ->; destruct Hz'; set_solver.
  - split; [rewrite Hn|rewrite Hp]; repeat case_decide; set_solver.
  - eapply chain_frame; [..|exact Hb]; intros z Hz; [rewrite Hn|rewrite Hp].
    + assert (z ∈ y :: b).
      { by apply elem_of_removelast. }
      rewrite !decide_False; [done|..]; intros ->; set_solver.
    + simpl in Hz. rewrite drop_0 in Hz.
      rewrite !decide_False; [done|..]; intros ->; set_solver.
Qed.

(** Splicing a node in front of the last one. *)
Lemma chain_link (h h' : gmap ptr (node T)) a x p t :
  NoDup (a ++ x :: p :: [t]) → chain h (a ++ x :: [t]) →
  (∀ z, nxt h' z = if decide (z = p) then Some t
                   else if decide (z = x) then Some p else nxt h z) →
  (∀ z, prv h' z = if decide (z = p) then Some x
                   else if decide (z = t) then Some p else prv h z) →
  chain h' (a ++ x :: p :: [t]).
Proof.
  intros Hnd (Ha & Hxt & _)%chain_app Hn Hp.
  apply NoDup_app in Hnd as (_ & Hdisj & Hnd).
  rewrite !NoDup_cons, !not_elem_of_cons in Hnd.
  apply chain_app. split; [|split; [|split; [|done]]].
  - eapply chain_frame; [..|done].
    + rewrite removelast_last. intros z Hz. specialize (Hdisj z Hz). rewrite Hn.
      rewrite !decide_False by (intros ->; set_solver). done.
    + intros z Hz. rewrite Hp.
      assert (z ∈ a ∨ z = x) as Hz'. { destruct a; set_solver. }
      rewrite !decide_False; [done|..]; intros ->; destruct Hz'; set_solver.
  - split; [rewrite Hn|rewrite Hp]; repeat case_decide; set_solver.
  - split; [rewrite Hn|rewrite Hp]; repeat case_decide; set_solver.
Qed.

(** ** Operations on represented states *)

Lemma inv_with_metrics c ns m : lru_inv c ns → lru_inv (with_metrics c m) ns.
Proof. by destruct 1. Qed.

(** [p] is not one of the nodes linked in the list. *)
Definition unlinked c ns (p : ptr) : Prop := p ∉ (head c :: ns.*1 ++ [tail c]).

(** What stays the same: only the heap and the index changed. *)
Definition same_config c c' : Prop :=
  capacity c' = capacity c ∧ metrics c' = metrics c ∧ head c' = head c ∧ tail c' = tail c.

Lemma delete_inv c ns1 p kv ns2 :
  lru_inv c (ns1 ++ (p, kv) :: ns2) →
  ∃ c', LRU_delete c (Some p) = Some c' ∧ lru_inv c' (ns1 ++ ns2) ∧
        same_config c c' ∧ (∀ z, payload (heap c') z = payload (heap c) z) ∧
        payload (heap c) p = Some kv ∧ unlinked c' (ns1 ++ ns2) p.
Proof.
  intros [Hch Hnd Hpl Hca Hks Hh Ht].
  assert (payload (heap c) p = Some kv) as Hp.
  { rewrite Forall_app, Forall_cons in Hpl. tauto. }
  destruct (payload_is_Some _ _ _ Hp) as [nd Hlk].
  assert (nkey nd = kv.1) as Hk.
  { revert Hp. unfold payload. rewrite Hlk. by intros [= <-]. }
  rewrite fmap_app, fmap_cons in Hch, Hnd. cbn [fst] in Hch, Hnd.
  destruct (chain_around (head c) ns1.*1 p ns2.*1 (tail c)) as (a & x & y & b & E1 & E2).
  rewrite E1 in Hch, Hnd.
  assert (x ≠ p ∧ y ≠ p ∧ (p ∉ a ++ x :: y :: b) ∧ NoDup (a ++ x :: y :: b))
    as (Hxp & Hyp & Hout & Hnd').
  { pose proof Hnd as Hnd'. apply NoDup_app in Hnd as (? & Hd & Hnd).
    rewrite !NoDup_cons, !not_elem_of_cons in Hnd. split_and!; [set_solver..|].
    apply NoDup_app; split_and!; [done|set_solver|]. rewrite !NoDup_cons. set_solver. }
  destruct (proj1 (chain_app _ _ _ _) Hch) as (_ & Hl1 & Hl2 & _).
  destruct (delete_run c x p y nd) as (h' & E & Hn & Hpv & Hpay & _); [done..|].
  eexists; split; [exact E|]. split_and!; [|done..|].
  2:{ unfold unlinked. lru_cbn. rewrite fmap_app, E2. done. }
  destruct (index_of_app ns1 p kv ns2 Hks) as [Ei Hi].
  split; lru_cbn; rewrite ?fmap_app, ?E2, ?Hpay; try done.
  - by eapply chain_unlink.
  - eapply Forall_impl; [|intros n Hn'; rewrite Hpay; exact Hn'].
    rewrite Forall_app, Forall_cons in Hpl. apply Forall_app. tauto.
  - by rewrite Hca, Ei, Hk, delete_insert_id.
  - rewrite !fmap_app, !fmap_cons, NoDup_app, NoDup_cons in Hks.
    rewrite NoDup_app. set_solver.
Qed.

Lemma add_link_inv c ns p k v :
  lru_inv c ns → payload (heap c) p = Some (k, v) → unlinked c ns p → k ∉ ns.*2.*1 →
  ∃ c', add_link c p = Some c' ∧ lru_inv c' (ns ++ [(p, (k, v))]) ∧ same_config c c' ∧
        payload (heap c') p = Some (k, v).
Proof.
  intros [Hch Hnd Hpl Hca Hks Hh Ht] Hp Hun Hk.
  destruct (exists_last (l := head c :: ns.*1)) as (a & x & Ha); [done|].
  unfold unlinked in Hun.
  rewrite app_comm_cons, Ha, <- app_assoc in Hch, Hnd, Hun. simpl in Hch, Hnd, Hun.
  rewrite not_elem_of_app, !not_elem_of_cons in Hun. destruct Hun as (Hpa & Hpx & Hpt & _).
  pose proof (proj1 (chain_app _ _ _ _) Hch) as (_ & Hl & _).
  assert (NoDup (a ++ [x; p; tail c])) as Hnd'.
  { apply NoDup_app in Hnd as (? & Hd & Hnd). rewrite !NoDup_cons, !not_elem_of_cons in Hnd.
    apply NoDup_app; split_and!; [done|set_solver|].
    repeat (apply NoDup_cons; split); [set_solver..|apply NoDup_nil_2]. }
  assert (x ≠ tail c).
  { apply NoDup_app in Hnd as (_ & _ & Hnd). apply NoDup_cons in Hnd. set_solver. }
  destruct (add_link_run c x p k v) as (h' & E & Hn & Hpv & Hpay & _); [done..|].
  eexists; split; [exact E|]. split_and!; [|done|by simpl; rewrite Hpay].
  assert (head c :: (ns ++ [(p, (k, v))]).*1 ++ [tail c] = a ++ [x; p; tail c]) as Eq.
  { rewrite fmap_app. simpl. rewrite <- app_assoc. rewrite app_comm_cons, Ha, <- app_assoc. done. }
  assert (NoDup ((ns ++ [(p, (k, v))]).*2.*1)) as Hks'.
  { rewrite !fmap_app, NoDup_app. split_and!; [done|set_solver|]. apply NoDup_singleton. }
  split; lru_cbn; rewrite ?Eq, ?Hpay; try done.
  - by eapply chain_link.
  - apply Forall_app; split; [|by constructor; [rewrite Hpay|]].
    eapply Forall_impl; [done|intros n Hn'; by rewrite Hpay].
  - destruct (index_of_app ns p (k, v) [] Hks') as [Ei _].
    by rewrite Ei, app_nil_r, Hca.
Qed.

(** ** The abstract LRU list *)

(** Drop the least recently used entry when the list exceeds the capacity. *)
Definition lru_trim (cap : Z) l : list (string * T) :=
  if (cap <? Z.of_nat (length l))%Z then drop 1 l else l.
Definition lru_remove (k : string) l : list (string * T) := filter (λ e, e.1 ≠ k) l.
(** Make [(k, v)] the most recently used entry. *)
Definition lru_touch (cap : Z) (k : string) (v : T) l : list (string * T) :=
  lru_trim cap (lru_remove k l ++ [(k, v)]).
Definition lru_find (k : string) l : option T := (list_to_map l : gmap string T) !! k.

Lemma lru_remove_split k v l1 l2 :
  NoDup (l1 ++ (k, v) :: l2).*1 → lru_remove k (l1 ++ (k, v) :: l2) = l1 ++ l2.
Proof.
  rewrite fmap_app, fmap_cons, NoDup_app, NoDup_cons. intros (_ & Hd & Hk & _).
  unfold lru_remove. rewrite filter_app, filter_cons. simpl. rewrite decide_False by auto.
  assert (∀ m : list (string * T), k ∉ m.*1 → filter (λ e, e.1 ≠ k) m = m) as Hf.
  { intros m. induction m as [|[k' v'] m IH]; [done|]. simpl. intros Hm.
    rewrite filter_cons, decide_True by set_solver. rewrite IH; [done|set_solver]. }
  rewrite !Hf; [done|done|]. set_solver.
Qed.

Lemma lru_remove_notin k l : k ∉ l.*1 → lru_remove k l = l.
Proof.
  unfold lru_remove. induction l as [|[k' v'] l IH]; [done|]. simpl. intros Hk.
  rewrite filter_cons, decide_True by set_solver. rewrite IH; [done|set_solver].
Qed.

(** A lookup in the index of a represented state. *)
Lemma rep_lookup c l k p :
  lru_rep c l → cache c !! k = Some p →
  ∃ ns1 v ns2, lru_inv c (ns1 ++ (p, (k, v)) :: ns2) ∧ l = ns1.*2 ++ (k, v) :: ns2.*2 ∧
    lru_remove k l = (ns1 ++ ns2).*2 ∧ lru_find k l = Some v ∧
    (Z.of_nat (length l) <= capacity c)%Z.
Proof.
  intros (ns & <- & Hi & Hlen) Hk. pose proof Hi as [_ _ _ Hca Hks _ _].
  rewrite Hca in Hk. destruct (index_of_lookup _ _ _ Hks Hk) as (ns1 & v & ns2 & ->).
  exists ns1, v, ns2. rewrite fmap_app, fmap_cons in *. simpl in *.
  split_and!; [done..| | |].
  - rewrite fmap_app. apply lru_remove_split. done.
  - unfold lru_find. apply elem_of_list_to_map_1; [done|]. set_solver.
  - rewrite length_app in *. simpl in *. lia.
Qed.

Lemma rep_lookup_None c l k :
  lru_rep c l → cache c !! k = None → (k ∉ l.*1) ∧ lru_find k l = None ∧ lru_remove k l = l.
Proof.
  intros (ns & <- & [_ _ _ Hca Hks _ _] & Hlen) Hk. rewrite Hca in Hk.
  apply index_of_None in Hk. split; [done|]. split.
  - by apply not_elem_of_list_to_map_1.
  - by apply lru_remove_notin.
Qed.

(** Linking a node adds it as the most recently used entry, evicting the least
    recently used one beyond the capacity. *)
Lemma add_inv c ns p k v :
  lru_inv c ns → payload (heap c) p = Some (k, v) → unlinked c ns p → k ∉ ns.*2.*1 →
  (Z.of_nat (length ns) <= Z.max 0 (capacity c))%Z →
  ∃ c' e, LRU_add c p = Some (c', e) ∧ same_config c c' ∧
    payload (heap c') p = Some (k, v) ∧
    e = (capacity c <=? Z.of_nat (length ns))%Z ∧
    lru_rep c' (lru_trim (capacity c) (ns.*2 ++ [(k, v)])).
Proof.
  intros Hi Hp Hun Hk Hlen.
  destruct (add_link_inv c ns p k v) as (c1 & E & Hi1 & Hsame & Hp1); [done..|].
  unfold LRU_add. rewrite E. simpl.
  pose proof Hsame as (Hcap & Hm & Hhd & Htl).
  assert (size (cache c1) = S (length ns)) as Hsz.
  { destruct Hi1 as [_ _ _ -> Hks _ _]. rewrite index_of_size by done.
    rewrite length_app. simpl. lia. }
  unfold lru_trim. rewrite Hcap, Hsz, length_app, length_fmap. simpl.
  replace (length ns + 1) with (S (length ns)) by lia.
  destruct (capacity c <? Z.of_nat (S (length ns)))%Z eqn:Hov.
  2:{ exists c1, false. split_and!; [done..|lia|].
      exists (ns ++ [(p, (k, v))]). rewrite fmap_app. split_and!; [done..|].
      rewrite length_app, length_fmap, Hcap. simpl. lia. }
  change [(k, v)] with [(p, (k, v))].*2. rewrite <- fmap_app.
  assert (length (ns ++ [(p, (k, v))]) = S (length ns)) as Hl.
  { rewrite length_app. simpl. lia. }
  destruct (ns ++ [(p, (k, v))]) as [|[q kv] rest]; [done|].
  destruct (delete_inv c1 [] q kv rest Hi1) as (c2 & E2 & Hi2 & Hs2 & Hp2 & _ & _).
  assert (next_of c1 (head c1) = Some (Some q)) as ->.
  { destruct Hi1 as [[[Hn _] _] _ _ _ _ _ _]. unfold next_of, nxt in *.
    destruct (heap c1 !! head c1); simpl in *; congruence. }
  simpl. rewrite E2. simpl. exists c2, true.
  destruct Hs2 as (? & ? & ? & ?).
  split_and!; [done|unfold same_config; split_and!; congruence|by rewrite Hp2|lia|].
  exists rest. simpl in *. split_and!; [by rewrite drop_0|done|].
  rewrite drop_0, length_fmap. replace (capacity c2) with (capacity c) by congruence. lia.
Qed.

(** Allocating a node does not touch the list. *)
Lemma alloc_inv c ns k v :
  lru_inv c ns →
  let '(p, c1) := alloc c (mkNode v k None None) in
  lru_inv c1 ns ∧ payload (heap c1) p = Some (k, v) ∧ unlinked c1 ns p ∧ same_config c c1.
Proof.
  intros [Hch Hnd Hpl Hca Hks Hh Ht]. unfold alloc.
  pose proof (is_fresh (dom (heap c))) as Hf. rewrite not_elem_of_dom in Hf.
  generalize dependent (fresh (dom (heap c))). intros p Hf.
  assert (∀ z kv, payload (heap c) z = Some kv → z ≠ p) as Hne.
  { intros z kv [nd Hz]%payload_is_Some ->. congruence. }
  assert (p ∉ head c :: ns.*1 ++ [tail c]) as Hun.
  { rewrite not_elem_of_cons, not_elem_of_app, list_elem_of_singleton. split_and!.
    - intros ->. destruct (payload (heap c) (head c)) eqn:E; [|done]. by apply Hne in E.
    - intros ([q kv] & -> & Hin)%list_elem_of_fmap. rewrite Forall_forall in Hpl.
      specialize (Hpl _ Hin). by apply (Hne _ _ Hpl).
    - intros ->. destruct (payload (heap c) (tail c)) eqn:E; [|done]. by apply Hne in E. }
  assert (∀ z, z ≠ p → payload (<[p := mkNode v k None None]> (heap c)) z = payload (heap c) z) as Hpay.
  { intros z Hz. unfold payload. by rewrite lookup_insert_ne. }
  split_and!; [|by unfold payload; simpl; rewrite lookup_insert_eq|done|done].
  split; lru_cbn; [|done| |done|done| |]; try (rewrite Hpay by set_solver; done).
  - eapply chain_frame; [..|exact Hch]; intros z Hz; unfold nxt, prv;
      (rewrite lookup_insert_ne; [done|]); intros <-.
    + by apply Hun, elem_of_removelast.
    + apply Hun. by apply elem_of_drop in Hz.
  - eapply Forall_impl; [done|]. intros n Hn. by rewrite Hpay by exact (Hne _ _ Hn).
Qed.

(** The common tail of [Set] and of a refresh in [GetIfOrSet]. *)
Lemma store_inv c ns k v :
  lru_inv c ns → k ∉ ns.*2.*1 → (Z.of_nat (length ns) <= Z.max 0 (capacity c))%Z →
  let '(p, c1) := alloc c (mkNode v k None None) in
  ∃ c' e, LRU_add c1 p = Some (c', e) ∧ same_config c c' ∧
    e = (capacity c <=? Z.of_nat (length ns))%Z ∧
    lru_rep c' (lru_trim (capacity c) (ns.*2 ++ [(k, v)])).
Proof.
  intros Hi Hk Hlen. pose proof (alloc_inv c ns k v Hi) as Ha.
  destruct (alloc c (mkNode v k None None)) as [p c1].
  destruct Ha as (Hi1 & Hp & Hun & (E1 & E2 & E3 & E4)).
  destruct (add_inv c1 ns p k v) as (c' & e & E & (? & ? & ? & ?) & _ & -> & Hr);
    [done..|by rewrite E1|].
  exists c', (capacity c1 <=? Z.of_nat (length ns))%Z. rewrite E1 in *.
  split_and!; [done| |done..]. unfold same_config. split_and!; congruence.
Qed.

Lemma rep_with_metrics c l m : lru_rep c l → lru_rep (with_metrics c m) l.
Proof. intros (ns & ? & ? & ?). exists ns. split_and!; auto using inv_with_metrics. Qed.

(** The gauge shows the number of entries, when metrics are enabled. *)
Definition gauge_ok c l : Prop := gauge_is (metrics c) (Z.of_nat (length l)).

Lemma length_trim_full cap l :
  (cap <? Z.of_nat (length l))%Z = true → length (lru_trim cap l) = length l - 1.
Proof. intros E. unfold lru_trim. rewrite E. apply length_drop. Qed.

Lemma trim_fits cap l : (Z.of_nat (length l) <= cap)%Z → lru_trim cap l = l.
Proof. intros E. unfold lru_trim. by rewrite (proj2 (Z.ltb_ge _ _)) by lia. Qed.

Lemma rep_keys_nodup c l : lru_rep c l → NoDup l.*1.
Proof. by intros (ns & <- & [] & _). Qed.

(** [delete] of an indexed node removes its entry. *)
Lemma delete_refines c l k p :
  lru_rep c l → cache c !! k = Some p →
  ∃ c' ns v, LRU_delete c (Some p) = Some c' ∧ lru_inv c' ns ∧ ns.*2 = lru_remove k l ∧
    same_config c c' ∧ payload (heap c') p = Some (k, v) ∧ lru_find k l = Some v ∧
    unlinked c' ns p ∧ (k ∉ ns.*2.*1) ∧ length l = S (length ns) ∧
    (Z.of_nat (length l) <= capacity c)%Z.
Proof.
  intros Hr Hk. pose proof (rep_keys_nodup _ _ Hr) as Hnd.
  destruct (rep_lookup c l k p Hr Hk) as (ns1 & v & ns2 & Hi & Hl & Hrm & Hfd & Hlen).
  destruct (delete_inv c ns1 p (k, v) ns2 Hi) as (c' & E & Hi' & Hs & Hpay & Hp & Hun).
  exists c', (ns1 ++ ns2), v. rewrite Hpay. split_and!; try done.
  - rewrite Hl, fmap_app, fmap_cons, NoDup_app, NoDup_cons in Hnd.
    rewrite !fmap_app. set_solver.
  - rewrite Hl, !length_app. simpl. rewrite !length_fmap. lia.
Qed.

(** Putting an entry back after removing it keeps the length. *)
Lemma length_moved ns l cap k v :
  ns.*2 = lru_remove k l → length l = S (length ns) → (Z.of_nat (length l) <= cap)%Z →
  length (lru_trim cap (lru_remove k l ++ [(k, v)])) = length l.
Proof.
  intros Hns Hlen Hcap. rewrite trim_fits; rewrite length_app, <- Hns, length_fmap; simpl; lia.
Qed.

Lemma Set_refines c l k v :
  lru_rep c l →
  ∃ c', LRU_Set c k v = Some (c', None) ∧ lru_rep c' (lru_touch (capacity c) k v l) ∧
    capacity c' = capacity c ∧
    (gauge_ok c l → gauge_ok c' (lru_touch (capacity c) k v l)).
Proof.
  intros Hr. unfold LRU_Set, lru_touch, gauge_ok. destruct (cache c !! k) as [p|] eqn:Hk.
  - destruct (delete_refines c l k p Hr Hk)
      as (c1 & ns & w & E1 & Hi1 & Hns & (C1 & M1 & _) & _ & _ & _ & Hkn & Hlen & Hcap).
    rewrite E1. simpl.
    pose proof (store_inv c1 ns k v Hi1 Hkn) as Hst. unfold alloc in *.
    destruct Hst as (c2 & e & E2 & (C2 & M2 & _) & _ & Hr2); [lia|].
    rewrite E2. simpl. rewrite Hns, C1 in Hr2. eexists; split_and!; [done|..].
    + by apply rep_with_metrics.
    + simpl. congruence.
    + simpl. autorewrite with gauge. by rewrite M2, M1, (length_moved ns l).
  - destruct (rep_lookup_None c l k Hr Hk) as (Hkn & _ & ->).
    destruct Hr as (ns & <- & Hi & Hlen). rewrite length_fmap in *.
    pose proof (store_inv c ns k v Hi Hkn) as Hst. unfold alloc in *.
    destruct Hst as (c1 & e & E1 & (C1 & M1 & _) & -> & Hr1); [lia|].
    rewrite E1. simpl.
    destruct (capacity c <=? Z.of_nat (length ns))%Z eqn:He;
      (eexists; split_and!; [done|by apply rep_with_metrics|by simpl|]); simpl.
    + autorewrite with gauge. rewrite M1, length_trim_full.
      * rewrite length_app, length_fmap. simpl. by replace (length ns + 1 - 1) with (length ns) by lia.
      * rewrite length_app, length_fmap. simpl. lia.
    + rewrite trim_fits by (rewrite length_app, length_fmap; simpl; lia).
      rewrite length_app, length_fmap. simpl.
      replace (Z.of_nat (length ns + 1)) with (Z.of_nat (length ns) + 1)%Z by lia.
      rewrite gauge_is_increment. autorewrite with gauge. by rewrite M1.
Qed.

Lemma Get_refines c l k :
  lru_rep c l →
  ∃ c', lru_rep c' (match lru_find k l with
                    | Some v => lru_touch (capacity c) k v l | None => l end) ∧
    LRU_Get c k = Some (c', match lru_find k l with
                            | Some v => (v, None)
                            | None => (inhabitant, Some (EReason ErrNotFound)) end) ∧
    capacity c' = capacity c ∧
    (gauge_ok c l → gauge_ok c' (match lru_find k l with
                    | Some v => lru_touch (capacity c) k v l | None => l end)).
Proof.
  intros Hr. unfold LRU_Get, gauge_ok. destruct (cache c !! k) as [p|] eqn:Hk.
  - destruct (delete_refines c l k p Hr Hk)
      as (c1 & ns & w & E1 & Hi1 & Hns & (C1 & M1 & _) & Hp & -> & Hun & Hkn & Hlen & Hcap).
    rewrite E1. simpl.
    destruct (add_inv c1 ns p k w) as (c2 & e & E2 & (C2 & M2 & _) & Hp2 & _ & Hr2);
      [done..|lia|]. rewrite E2. simpl. unfold payload in Hp2.
    destruct (heap c2 !! p) as [nd|]; [|done]. simplify_eq/=.
    rewrite Hns, C1 in Hr2. eexists; split_and!; [by apply rep_with_metrics|done|simpl; congruence|].
    simpl. unfold lru_touch. autorewrite with gauge.
    by rewrite M2, M1, (length_moved ns l).
  - destruct (rep_lookup_None c l k Hr Hk) as (_ & -> & _).
    eexists; split_and!; [by apply rep_with_metrics|done..|].
    simpl. by autorewrite with gauge.
Qed.

Lemma Delete_refines c l k :
  lru_rep c l →
  ∃ c', LRU_Delete c k = Some (c', None) ∧
    lru_rep c' (if decide (k = "") then l else lru_remove k l) ∧ capacity c' = capacity c ∧
    (gauge_ok c l → gauge_ok c' (if decide (k = "") then l else lru_remove k l)).
Proof.
  intros Hr. unfold LRU_Delete, gauge_ok.
  assert (∃ hnd tnd, heap c !! head c = Some hnd ∧ heap c !! tail c = Some tnd ∧
    nkey hnd = "" ∧ nkey tnd = "") as (hnd & tnd & -> & -> & Kh & Kt).
  { destruct Hr as (ns & _ & [_ _ _ _ _ Hh Ht] & _). unfold payload in Hh, Ht.
    destruct (heap c !! head c), (heap c !! tail c); simplify_eq/=; eauto 10. }
  simpl. rewrite Kh, Kt. case_decide as Hk0.
  { rewrite bool_decide_true by done. simpl. eexists; split_and!; [done|by apply rep_with_metrics|done|].
    simpl. by autorewrite with gauge. }
  rewrite !bool_decide_false by done. simpl. destruct (cache c !! k) as [p|] eqn:Hk.
  - destruct (delete_refines c l k p Hr Hk)
      as (c1 & ns & w & E1 & Hi1 & Hns & (C1 & M1 & _) & _ & _ & _ & _ & Hlen & Hcap).
    rewrite E1. simpl. eexists; split_and!; [done| |done|].
    + apply rep_with_metrics. exists ns. split_and!; [done..|]. rewrite <- Hns, length_fmap. lia.
    + simpl. rewrite <- Hns, length_fmap.
      replace (Z.of_nat (length ns)) with (Z.of_nat (length l) - 1)%Z by lia.
      rewrite gauge_is_decrement. autorewrite with gauge. by rewrite M1.
  - destruct (rep_lookup_None c l k Hr Hk) as (_ & _ & ->).
    eexists; split_and!; [done|by apply rep_with_metrics|done|].
    simpl. by autorewrite with gauge.
Qed.

(** The abstract [GetIfOrSet]: keep a present entry that satisfies the
    condition, else replace it by what was fetched, or drop it when the fetch
    failed. *)
Definition spec_GetIfOrSet (cap : Z) (k : string) (condition : T → bool)
    (fetched : T + error) l : list (string * T) * (T * bool * option error) :=
  let refresh := match fetched with
                 | inl w => (lru_touch cap k w l, (w, false, None))
                 | inr err => (lru_remove k l, (inhabitant, false, Some err))
                 end in
  match lru_find k l with
  | Some v => if condition v then (lru_touch cap k v l, (v, true, None)) else refresh
  | None => refresh
  end.

(** The refresh leaves the gauge behind only when it drops a present entry. *)
Lemma deferred_gauge m opts ok existed evicted err v :
  gauge_is (GetIfOrSet_deferred m opts ok existed evicted err)
    (v + (if evicted : bool then 0 else if negb existed && bool_decide (err = None) then 1 else 0))
  ↔ gauge_is m v.
Proof.
  unfold GetIfOrSet_deferred. set (o := fst _).
  destruct (involvedObject o), evicted; simpl; try (case_match; rewrite ?gauge_is_increment);
    rewrite ?Z.add_0_r; by autorewrite with gauge.
Qed.

Lemma fetch_refines c ns k fetched opts existed :
  lru_inv c ns → k ∉ ns.*2.*1 → (Z.of_nat (length ns) <= Z.max 0 (capacity c))%Z →
  ∃ c' r, GetIfOrSet_fetch c k fetched opts existed = Some (c', r) ∧
    capacity c' = capacity c ∧
    match fetched with
    | inl w => r = (w, false, None) ∧ lru_rep c' (lru_trim (capacity c) (ns.*2 ++ [(k, w)]))
    | inr err => r = (inhabitant, false, Some err) ∧ lru_rep c' ns.*2
    end ∧
    (gauge_is (metrics c) (Z.of_nat (length ns) + if existed : bool then 1 else 0) →
     match fetched with
     | inl w => (existed → (Z.of_nat (length ns) < capacity c)%Z) →
                gauge_ok c' (lru_trim (capacity c) (ns.*2 ++ [(k, w)]))
     | inr _ => existed = false → gauge_ok c' ns.*2
     end).
Proof.
  intros Hi Hk Hlen. unfold GetIfOrSet_fetch, gauge_ok. destruct fetched as [w|err].
  - pose proof (store_inv c ns k w Hi Hk) as Hst. unfold alloc in *.
    destruct Hst as (c1 & e & E1 & (C1 & M1 & _) & -> & Hr1); [lia|].
    rewrite E1. simpl. eexists _, _; split_and!; [done..|by apply rep_with_metrics|].
    intros Hg Hex. rewrite <- M1 in Hg. rewrite <- (deferred_gauge _ opts false existed
      (capacity c <=? Z.of_nat (length ns))%Z None) in Hg. lru_cbn.
    unfold lru_trim. rewrite length_app, length_fmap. simpl.
    destruct (capacity c <=? Z.of_nat (length ns))%Z eqn:He.
    + rewrite (proj2 (Z.ltb_lt _ _)) by lia. rewrite length_drop, length_app, length_fmap.
      simpl. destruct existed; [specialize (Hex I); lia|].
      replace (Z.of_nat (length ns + 1 - 1)) with (Z.of_nat (length ns) + 0 + 0)%Z by lia.
      exact Hg.
    + rewrite (proj2 (Z.ltb_ge _ _)) by lia. rewrite length_app, length_fmap. simpl.
      replace (Z.of_nat (length ns + 1)) with (Z.of_nat (length ns) + 1)%Z by lia.
      destruct existed; simpl in Hg; rewrite ?Z.add_0_r in Hg; exact Hg.
  - eexists _, _; split_and!; [done..|apply rep_with_metrics|].
    + exists ns. rewrite length_fmap. done.
    + intros Hg ->. rewrite <- (deferred_gauge _ opts false false false (Some err)) in Hg.
      simpl in Hg. rewrite length_fmap, !Z.add_0_r in *. exact Hg.
Qed.

Lemma GetIfOrSet_refines c l k condition fetched opts :
  lru_rep c l →
  let s := spec_GetIfOrSet (capacity c) k condition fetched l in
  ∃ c', LRU_GetIfOrSet c k condition fetched opts = Some (c', s.2) ∧
    lru_rep c' s.1 ∧ capacity c' = capacity c ∧
    (gauge_ok c l → (k ∉ l.*1) ∨ s.2.2 = None → gauge_ok c' s.1).
Proof.
  intros Hr. unfold LRU_GetIfOrSet, spec_GetIfOrSet.
  destruct (cache c !! k) as [p|] eqn:Hk.
  - destruct (delete_refines c l k p Hr Hk)
      as (c1 & ns & w & E1 & Hi1 & Hns & (C1 & M1 & _) & Hp & Hf & Hun & Hkn & Hlen & Hcap).
    assert (k ∈ l.*1) as Hkin.
    { pose proof Hf as Hf'. unfold lru_find in Hf'. apply elem_of_list_to_map_2 in Hf'. by apply (list_elem_of_fmap_2 fst) in Hf'. }
    rewrite E1, Hf. simpl. unfold payload in Hp at 1.
    destruct (heap c1 !! p) as [nd|] eqn:Hnd; [|done]. simplify_eq/=.
    destruct (condition (nvalue nd)).
    + destruct (add_inv c1 ns p (nkey nd) (nvalue nd))
        as (c2 & e & E2 & (C2 & M2 & _) & Hp2 & _ & Hr2);
        [done|by unfold payload; rewrite Hnd|done|done|lia|].
      rewrite E2. simpl. rewrite Hns, C1 in Hr2.
      eexists; split_and!; [done|by apply rep_with_metrics|simpl; congruence|].
      intros Hg _. unfold gauge_ok, lru_touch in *. rewrite (length_moved ns l) by done.
      apply (deferred_gauge _ opts true true false None) in Hg.
      rewrite M2, M1. lru_cbn. simpl in Hg. by rewrite Z.add_0_r in Hg.
    + destruct (fetch_refines c1 ns (nkey nd) fetched opts true)
        as (c2 & r & E2 & C2 & Hr2 & Hg2); [done..|lia|].
      rewrite E2, Hns, C1 in *. exists c2. destruct fetched as [v|err]; destruct Hr2 as [-> Hr2].
      * split_and!; [done..|congruence|]. intros Hg _. apply Hg2; [|lia].
        unfold gauge_ok in Hg. rewrite M1. by replace (Z.of_nat (length ns) + 1)%Z with (Z.of_nat (length l)) by lia.
      * split_and!; [done..|congruence|]. intros _ [?|?]; [done|simplify_eq/=].
  - destruct (rep_lookup_None c l k Hr Hk) as (Hkn & -> & Hrm).
    destruct Hr as (ns & <- & Hi & Hlen). rewrite length_fmap in Hlen.
    destruct (fetch_refines c ns k fetched opts false) as (c2 & r & E2 & C2 & Hr2 & Hg2); [done..|].
    rewrite E2. exists c2. unfold lru_touch. rewrite Hrm. unfold gauge_ok in *.
    destruct fetched as [v|err]; destruct Hr2 as [-> Hr2]; split_and!; try done;
      intros Hg _; apply Hg2; try done; by rewrite Z.add_0_r, length_fmap in *.
Qed.

Lemma Resize_loop_refines n c ns :
  lru_inv c ns → n <= length ns →
  ∃ c', Resize_loop n c = Some c' ∧ capacity c' = capacity c ∧ lru_inv c' (drop n ns) ∧
    (∀ v, gauge_is (metrics c) v → gauge_is (metrics c') v).
Proof.
  revert c ns. induction n as [|n IH]; intros c ns Hi Hn; simpl.
  { exists c. rewrite drop_0. split_and!; eauto. }
  destruct ns as [|[q kv] ns]; [simpl in *; lia|].
  destruct (delete_inv c [] q kv ns Hi) as (c1 & E1 & Hi1 & (C1 & M1 & H1 & T1) & _).
  assert (next_of c (head c) = Some (Some q)) as ->.
  { destruct Hi as [[[Hnx _] _] _ _ _ _ _ _]. unfold next_of, nxt in *.
    destruct (heap c !! head c); simpl in *; congruence. }
  simpl. rewrite E1. simpl.
  destruct (IH (with_metrics c1 (recordEviction (metrics c1))) ns) as (c' & E & C & Hns & Hg);
    [by apply inv_with_metrics|simpl in *; lia|].
  exists c'. split_and!; [done|simpl in *; congruence|done|].
  intros v Hv. apply Hg. simpl. autorewrite with gauge. by rewrite M1.
Qed.

(** The abstract [Resize]: keep the [size'] most recently used entries. *)
Definition spec_Resize (size' : Z) l : list (string * T) * (Z * option error) :=
  if (size' <=? 0)%Z then (l, (0%Z, Some (EReason ErrInvalidSize)))
  else let n := (Z.of_nat (length l) - size')%Z in
       if (n <=? 0)%Z then (l, (0%Z, None)) else (drop (Z.to_nat n) l, (n, None)).

Lemma Resize_refines c l size' :
  lru_rep c l →
  ∃ c', LRU_Resize c size' = Some (c', (spec_Resize size' l).2) ∧
    lru_rep c' (spec_Resize size' l).1 ∧
    capacity c' = (if (size' <=? 0)%Z then capacity c else size').
Proof.
  intros Hr. unfold LRU_Resize, spec_Resize. destruct (size' <=? 0)%Z eqn:Hs.
  { eexists; split_and!; [done|by apply rep_with_metrics|done]. }
  pose proof Hr as (ns & Hns & Hi & Hlen).
  assert (size (cache c) = length l) as Hsz.
  { destruct Hi as [_ _ _ -> Hks _ _]. rewrite index_of_size by done. by rewrite <- Hns, length_fmap. }
  rewrite Hsz. destruct (Z.of_nat (length l) - size' <=? 0)%Z eqn:Hov.
  { eexists; split_and!; [done|apply rep_with_metrics|done].
    exists ns. split_and!; [done|by destruct Hi|simpl; lia]. }
  assert (length l = length ns) as Hll by (by rewrite <- Hns, length_fmap).
  destruct (Resize_loop_refines (Z.to_nat (Z.of_nat (length l) - size'))
              (with_capacity c size') ns) as (c' & E & C & Hi' & _);
    [by destruct Hi|lia|].
  rewrite E. simpl. eexists; split_and!; [done|apply rep_with_metrics|done].
  eexists. split_and!; [|exact Hi'|].
  - by rewrite fmap_drop, Hns.
  - rewrite length_drop, C. simpl. lia.
Qed.

Lemma ListKeys_refines c l :
  lru_rep c l → (LRU_ListKeys c).2 ≡ₚ l.*1 ∧ lru_rep (LRU_ListKeys c).1 l.
Proof.
  intros Hr. split; [|by apply rep_with_metrics].
  destruct Hr as (ns & <- & [_ _ _ Hca Hks _ _] & _). simpl. rewrite Hca. unfold index_of.
  rewrite map_to_list_to_map; rewrite <- !list_fmap_compose in *; done.
Qed.

Lemma NewLRU_refines cap opts opt :
  makeOptions opts = inl opt →
  ∃ c, NewLRU (T := T) cap opts = Some (inl c) ∧ lru_rep c [] ∧ capacity c = cap ∧ gauge_ok c [].
Proof.
  intros E. unfold NewLRU. rewrite E. eexists; split; [reflexivity|].
  split_and!; [|done|by unfold gauge_ok; simpl; case_match].
  exists []. split_and!; [done| |simpl; lia]. split; try done; simpl.
  - repeat (apply NoDup_cons; split); [set_solver..|apply NoDup_nil_2].
  - apply NoDup_nil_2.
Qed.
End invariant.

(** ** Sequences of calls *)

Section calls.
Context {T : Type} `{Inhabited T}.
Implicit Types (c : LRU T) (l : list (string * T)).

(** A method call on the store and what it returns. *)
Inductive lru_call :=
  | CallSet (k : string) (v : T)
  | CallGet (k : string)
  | CallDelete (k : string)
  | CallGetIfOrSet (k : string) (condition : T → bool) (fetched : T + error)
      (opts : list Options)
  | CallResize (size' : Z).

Inductive lru_ret :=
  | RetErr (e : option error)
  | RetGet (v : T) (e : option error)
  | RetGetIfOrSet (r : T * bool * option error)
  | RetResize (n : Z) (e : option error).

(** The call on the linked-list implementation; [None] is a panic. *)
Definition lru_exec c (call : lru_call) : option (LRU T * lru_ret) :=
  match call with
  | CallSet k v => '(c', e) ← LRU_Set c k v; Some (c', RetErr e)
  | CallGet k => '(c', (v, e)) ← LRU_Get c k; Some (c', RetGet v e)
  | CallDelete k => '(c', e) ← LRU_Delete c k; Some (c', RetErr e)
  | CallGetIfOrSet k cond fetched opts =>
      '(c', r) ← LRU_GetIfOrSet c k cond fetched opts; Some (c', RetGetIfOrSet r)
  | CallResize n => '(c', (m, e)) ← LRU_Resize c n; Some (c', RetResize m e)
  end.

Fixpoint lru_run c (calls : list lru_call) : option (LRU T * list lru_ret) :=
  match calls with
  | [] => Some (c, [])
  | call :: calls =>
      '(c1, r) ← lru_exec c call; '(c2, rs) ← lru_run c1 calls; Some (c2, r :: rs)
  end.

(** The same call on the abstract store: a capacity and the entries, least
    recently used first. *)
Definition spec_exec (s : Z * list (string * T)) (call : lru_call)
    : (Z * list (string * T)) * lru_ret :=
  let '(cap, l) := s in
  match call with
  | CallSet k v => (cap, lru_touch cap k v l, RetErr None)
  | CallGet k =>
      match lru_find k l with
      | Some v => (cap, lru_touch cap k v l, RetGet v None)
      | None => (cap, l, RetGet inhabitant (Some (EReason ErrNotFound)))
      end
  | CallDelete k => (cap, if decide (k = "") then l else lru_remove k l, RetErr None)
  | CallGetIfOrSet k cond fetched _ =>
      let r := spec_GetIfOrSet cap k cond fetched l in (cap, r.1, RetGetIfOrSet r.2)
  | CallResize n =>
      let r := spec_Resize n l in
      (if (n <=? 0)%Z then cap else n, r.1, RetResize r.2.1 r.2.2)
  end.

Fixpoint spec_run (s : Z * list (string * T)) (calls : list lru_call)
    : (Z * list (string * T)) * list lru_ret :=
  match calls with
  | [] => (s, [])
  | call :: calls =>
      let '(s1, r) := spec_exec s call in
      let '(s2, rs) := spec_run s1 calls in (s2, r :: rs)
  end.

Lemma exec_refines c l call :
  lru_rep c l →
  let '((cap', l'), r) := spec_exec (capacity c, l) call in
  ∃ c', lru_exec c call = Some (c', r) ∧ lru_rep c' l' ∧ capacity c' = cap'.
Proof.
  intros Hr. destruct call as [k v|k|k|k cond fetched opts|n]; simpl.
  - destruct (Set_refines c l k v Hr) as (c' & -> & ? & ? & _). simpl. eauto.
  - destruct (Get_refines c l k Hr) as (c' & Hr' & -> & ? & _).
    destruct (lru_find k l); simpl; eauto.
  - destruct (Delete_refines c l k Hr) as (c' & -> & ? & ? & _). simpl. eauto.
  - destruct (GetIfOrSet_refines c l k cond fetched opts Hr) as (c' & -> & ? & ? & _).
    simpl. eauto.
  - destruct (Resize_refines c l n Hr) as (c' & -> & ? & ?).
    destruct (spec_Resize n l) as [l' [m e]]. simpl in *. eauto.
Qed.

Lemma run_refines calls c l :
  lru_rep c l →
  let '((cap', l'), rs) := spec_run (capacity c, l) calls in
  ∃ c', lru_run c calls = Some (c', rs) ∧ lru_rep c' l' ∧ capacity c' = cap'.
Proof.
  revert c l. induction calls as [|call calls IH]; intros c l Hr;
    cbn [lru_run spec_run]; [eauto|].
  pose proof (exec_refines c l call Hr) as He.
  destruct (spec_exec (capacity c, l) call) as [[cap1 l1] r].
  destruct He as (c1 & -> & Hr1 & <-). simpl. specialize (IH c1 l1 Hr1).
  destruct (spec_run (capacity c1, l1) calls) as [[cap2 l2] rs].
  destruct IH as (c2 & -> & ? & ?). simpl. eexists; split_and!; done.
Qed.

(** C1. From a new LRU cache, every sequence of calls runs without a nil
    dereference, returns exactly what the abstract least-recently-used list
    returns, and ends in a well-linked state that holds the entries of the
    abstract list within the capacity. *)
Theorem LRU_trace_refines (cap : Z) (opts : list Options) (opt : storeOptions)
    (calls : list lru_call) :
  makeOptions opts = inl opt →
  ∃ c0 c', NewLRU cap opts = Some (inl c0) ∧
    lru_run c0 calls = Some (c', (spec_run (cap, []) calls).2) ∧
    lru_rep c' (spec_run (cap, []) calls).1.2 ∧
    capacity c' = (spec_run (cap, []) calls).1.1.
Proof.
  intros Ho. destruct (NewLRU_refines (T := T) cap opts opt Ho) as (c0 & E & Hr & <- & _).
  pose proof (run_refines calls c0 [] Hr) as Hrun.
  destruct (spec_run (capacity c0, []) calls) as [[cap' l'] rs].
  destruct Hrun as (c' & ? & ? & ?). by eexists _, _.
Qed.

(** A call that neither drops entries behind the gauge's back ([Resize], a
    failed refresh). *)
Definition gauge_safe (call : lru_call) : bool :=
  match call with
  | CallResize _ => false
  | CallGetIfOrSet _ _ (inr _) _ => false
  | _ => true
  end.

Lemma exec_gauge c l call :
  lru_rep c l → gauge_ok c l → gauge_safe call →
  ∃ c' r, lru_exec c call = Some (c', r) ∧ gauge_ok c' (spec_exec (capacity c, l) call).1.2.
Proof.
  intros Hr Hg Hs. destruct call as [k v|k|k|k cond fetched opts|n]; simpl in *; [..|done].
  - destruct (Set_refines c l k v Hr) as (c' & -> & ? & ? & ?). simpl. eauto.
  - destruct (Get_refines c l k Hr) as (c' & Hr' & -> & ? & Hg').
    destruct (lru_find k l); simpl in *; eauto.
  - destruct (Delete_refines c l k Hr) as (c' & -> & ? & ? & ?). simpl. eauto.
  - destruct (GetIfOrSet_refines c l k cond fetched opts Hr) as (c' & -> & ? & ? & Hg').
    simpl. eexists _, _. split; [done|]. apply Hg'; [done|]. right.
    destruct fetched; [|done]. unfold spec_GetIfOrSet. by repeat case_match; simplify_eq/=.
Qed.

(** As long as no [Resize] and no failing [GetIfOrSet] is called, the
    [cached_items] gauge of a cache created with metrics shows the number of
    entries the cache holds after every sequence of calls. *)
Theorem LRU_gauge_tracks (cap : Z) (opts : list Options) (opt : storeOptions)
    (calls : list lru_call) :
  makeOptions opts = inl opt → Forall (λ call, gauge_safe call = true) calls →
  ∃ c0 c' rs, NewLRU cap opts = Some (inl c0) ∧ lru_run c0 calls = Some (c', rs) ∧
    gauge_is (metrics c') (Z.of_nat (size (cache c'))).
Proof.
  intros Ho Hs. destruct (NewLRU_refines (T := T) cap opts opt Ho) as (c0 & E & Hr & _ & Hg).
  assert (∀ c l, lru_rep c l → gauge_ok c l → ∃ c' rs l', lru_run c calls = Some (c', rs) ∧
    lru_rep c' l' ∧ gauge_ok c' l') as Hall.
  { clear E Hr Hg. induction Hs as [|call calls Hc _ IH]; intros c l Hr Hg; simpl; [eauto 10|].
    destruct (exec_gauge c l call Hr Hg) as (c1 & r & E1 & Hg1); [by rewrite Hc|].
    pose proof (exec_refines c l call Hr) as He.
    destruct (spec_exec (capacity c, l) call) as [[cap1 l1] r'].
    destruct He as (c1' & E1' & Hr1 & _). simplify_eq/=. rewrite E1. simpl.
    destruct (IH _ _ Hr1 Hg1) as (c2 & rs & l2 & -> & ? & ?). simpl. eauto 10. }
  destruct (Hall c0 [] Hr Hg) as (c' & rs & l' & Erun & (ns & <- & Hi & _) & Hg').
  exists c0, c', rs. split_and!; [done..|]. destruct Hi as [_ _ _ Hca Hks _ _].
  rewrite Hca, index_of_size by done. unfold gauge_ok in Hg'. by rewrite length_fmap in Hg'.
Qed.
(** ** Recency *)

(** The key a [Set] or [Get] call accesses. *)
Definition accesses (call : lru_call) : option string :=
  match call with CallSet k _ | CallGet k => Some k | _ => None end.

(** The entry of [k] is followed only by entries with keys of [S]. *)
Definition recent (k : string) (v : T) (S : list string) l : Prop :=
  ∃ l1 l2, l = l1 ++ (k, v) :: l2 ∧ l2.*1 ⊆ S ∧ NoDup l.*1.

Lemma lru_remove_app k l1 l2 : lru_remove k (l1 ++ l2) = lru_remove k l1 ++ lru_remove k l2.
Proof. apply filter_app. Qed.

Lemma lru_remove_keys k l : k ∉ (lru_remove k l).*1.
Proof. intros ([k' v] & -> & [? _]%list_elem_of_filter)%list_elem_of_fmap. done. Qed.

Lemma lru_remove_sub k l : lru_remove k l `sublist_of` l.
Proof. apply sublist_filter. Qed.

Lemma lru_remove_key_sub k k' l : k' ∈ (lru_remove k l).*1 → k' ∈ l.*1.
Proof.
  intros (e & -> & He%list_elem_of_filter)%list_elem_of_fmap. apply list_elem_of_fmap. naive_solver.
Qed.

Lemma touch_nodup cap k v l : NoDup l.*1 → NoDup (lru_touch cap k v l).*1.
Proof.
  intros Hnd. assert (NoDup (lru_remove k l ++ [(k, v)]).*1) as Hnd'.
  { rewrite fmap_app, NoDup_app. split_and!; [| |apply NoDup_singleton].
    2:{ intros z Hz ->%list_elem_of_singleton. by apply lru_remove_keys in Hz. }
    eapply sublist_NoDup; [exact Hnd|]. apply fmap_sublist, lru_remove_sub. }
  unfold lru_touch, lru_trim. case_match; [|done].
  eapply sublist_NoDup; [exact Hnd'|]. apply fmap_sublist, sublist_drop.
Qed.

Lemma recent_touch k v k' w S l cap :
  recent k v S l → k' ≠ k → k' ∈ S → (Z.of_nat (length (remove_dups S)) < cap)%Z →
  recent k v S (lru_touch cap k' w l).
Proof.
  intros (l1 & l2 & -> & Hsub & Hnd) Hne Hin Hcap.
  pose proof (touch_nodup cap k' w _ Hnd) as Hnd'. revert Hnd'.
  unfold lru_touch. rewrite lru_remove_app.
  assert (lru_remove k' ((k, v) :: l2) = (k, v) :: lru_remove k' l2) as ->.
  { unfold lru_remove. rewrite filter_cons, decide_True; [done|simpl; auto]. }
  rewrite <- app_assoc. simpl. set (l2' := lru_remove k' l2 ++ [(k', w)]).
  assert (l2'.*1 ⊆ S) as Hsub'.
  { unfold l2'. rewrite fmap_app. intros z [Hz%lru_remove_key_sub|Hz]%elem_of_app; set_solver. }
  unfold lru_trim. case_match eqn:Hov.
  2:{ intros Hnd'. exists (lru_remove k' l1), l2'. done. }
  destruct (lru_remove k' l1) as [|e l1'] eqn:Hl1; simpl in *; intros Hnd'.
  - exfalso. rewrite drop_0 in Hnd'.
    assert (length l2'.*1 <= length (remove_dups S)) as Hle.
    { apply submseteq_length, NoDup_submseteq; [done|].
      intros z Hz. apply elem_of_remove_dups. auto. }
    rewrite length_fmap in Hle. lia.
  - rewrite drop_0 in *. by exists l1', l2'.
Qed.

Lemma spec_recent k v S cap calls l :
  recent k v S l → (Z.of_nat (length (remove_dups S)) < cap)%Z →
  Forall (λ call, ∃ k', accesses call = Some k' ∧ k' ≠ k ∧ k' ∈ S) calls →
  recent k v S (spec_run (cap, l) calls).1.2 ∧ (spec_run (cap, l) calls).1.1 = cap.
Proof.
  intros Hl Hcap Hs. revert l Hl. induction Hs as [|call calls (k' & Ha & Hne & Hin) _ IH];
    intros l Hl; cbn [spec_run]; [done|].
  assert (∃ l' r, spec_exec (cap, l) call = ((cap, l'), r) ∧ recent k v S l') as (l' & r & -> & Hl').
  { destruct call; simplify_eq/=; [|case_match]; eauto 10 using recent_touch. }
  specialize (IH l' Hl'). by destruct (spec_run (cap, l') calls).
Qed.

(** The LRU guarantee: a key that was set stays retrievable as long as
    the [Set] and [Get] calls that follow touch fewer than [capacity]
    distinct other keys. *)
Theorem LRU_recency (c : LRU T) (l : list (string * T)) (k : string) (v : T)
    (calls : list lru_call) (S : list string) :
  lru_rep c l →
  Forall (λ call, ∃ k', accesses call = Some k' ∧ k' ≠ k ∧ k' ∈ S) calls →
  (Z.of_nat (length (remove_dups S)) < capacity c)%Z →
  ∃ c1 c2 c3 rs, LRU_Set c k v = Some (c1, None) ∧ lru_run c1 calls = Some (c2, rs) ∧
    LRU_Get c2 k = Some (c3, (v, None)).
Proof.
  intros Hr Hs Hcap. pose proof (rep_keys_nodup _ _ Hr) as Hnd.
  destruct (Set_refines c l k v Hr) as (c1 & E1 & Hr1 & C1 & _).
  assert (recent k v S (lru_touch (capacity c) k v l)) as Hrec.
  { pose proof (touch_nodup (capacity c) k v l Hnd) as Hnd'. revert Hnd'.
    unfold lru_touch, lru_trim. case_match eqn:Hov; intros Hnd'; [|exists (lru_remove k l), []; set_solver].
    destruct (lru_remove k l) as [|e l1]; simpl in *; [lia|]. rewrite drop_0 in *.
    exists l1, []. set_solver. }
  pose proof (run_refines calls c1 _ Hr1) as Hrun.
  destruct (spec_recent k v S (capacity c) calls _ Hrec Hcap Hs) as [Hrec' _].
  rewrite C1 in Hrun. destruct (spec_run _ calls) as [[cap2 l2] rs].
  destruct Hrun as (c2 & E2 & Hr2 & _).
  destruct (Get_refines c2 l2 k Hr2) as (c3 & _ & E3 & _).
  destruct Hrec' as (m1 & m2 & Hl2 & _ & Hnd2). simpl in *.
  assert (lru_find k l2 = Some v) as Hf.
  { unfold lru_find. apply elem_of_list_to_map_1; [done|]. subst. set_solver. }
  rewrite Hf in E3. eauto 10.
Qed.

(** Shrinking a cache drops its least recently used entries but not from
    the [cached_items] gauge: after a [Resize] that evicts, the gauge still
    shows the old number of entries. *)
Theorem LRU_Resize_gauge_stale (c : LRU T) (l : list (string * T)) (size' : Z) :
  lru_rep c l → gauge_is (metrics c) (Z.of_nat (length l)) →
  (0 < size' < Z.of_nat (length l))%Z →
  ∃ c' n, LRU_Resize c size' = Some (c', (n, None)) ∧
    lru_rep c' (drop (Z.to_nat n) l) ∧ Z.of_nat (size (cache c')) = size' ∧
    gauge_is (metrics c') (Z.of_nat (length l)).
Proof.
  intros Hr Hg Hsz. destruct (Resize_refines c l size' Hr) as (c' & E & Hr' & C').
  revert E Hr' C'. unfold spec_Resize.
  rewrite (proj2 (Z.leb_gt size' 0)) by lia.
  rewrite (proj2 (Z.leb_gt _ 0)) by lia. simpl. intros E Hr' C'.
  exists c', (Z.of_nat (length l) - size')%Z. split_and!; [done..| |].
  - destruct Hr' as (ns & Hns & [_ _ _ -> Hks _ _] & _). rewrite index_of_size by done.
    apply (f_equal length) in Hns. rewrite length_fmap, length_drop in Hns. lia.
  - revert E. unfold LRU_Resize. rewrite (proj2 (Z.leb_gt size' 0)) by lia.
    destruct Hr as (ns & Hns & Hi & Hlen). pose proof Hi as [_ _ _ Hca Hks _ _].
    assert (length l = length ns) as Hll by (by rewrite <- Hns, length_fmap).
    rewrite Hca, index_of_size, <- Hll by done. rewrite (proj2 (Z.leb_gt _ 0)) by lia.
    destruct (Resize_loop_refines (Z.to_nat (Z.of_nat (length l) - size'))
                (with_capacity c size') ns) as (c2 & -> & _ & _ & Hgs); [by destruct Hi|lia|].
    intros [= <-]. simpl. autorewrite with gauge. by apply Hgs.
Qed.
End calls.

Arguments lru_call T : clear implicits.
Arguments lru_ret T : clear implicits.

(** ** Witnesses: a cache of two numbers *)

Definition demo_calls : list (lru_call nat) :=
  [CallSet "a" 1; CallSet "b" 2; CallGet "a"; CallSet "c" 3; CallGet "b"; CallGet "a";
   CallGetIfOrSet "c" (λ n, bool_decide (n < 3)) (inl 4) []; CallResize 1; CallDelete "c"].

Lemma LRU_trace_refines_witness : ∃ c0 c',
  NewLRU 2 [] = Some (inl c0) ∧
  lru_run c0 demo_calls = Some (c',
    [RetErr None; RetErr None; RetGet 1 None; RetErr None;
     RetGet 0 (Some (EReason ErrNotFound)); RetGet 1 None;
     RetGetIfOrSet (4, false, None); RetResize 1 None; RetErr None]) ∧
  lru_rep c' [] ∧ capacity c' = 1%Z.
Proof.
  pose proof (LRU_trace_refines 2 [] _ demo_calls eq_refl) as Hw.
  set (s := spec_run _ _) in Hw. vm_compute in s. exact Hw.
Defined.

Lemma LRU_gauge_tracks_witness : ∃ c0 c' rs,
  NewLRU 2 [WithMetricsRegisterer true] = Some (inl c0) ∧
  lru_run c0 (take 7 demo_calls) = Some (c', rs) ∧
  gauge_is (metrics c') (Z.of_nat (size (cache c'))).
Proof.
  eapply (LRU_gauge_tracks 2 [WithMetricsRegisterer true]); [reflexivity|].
  repeat constructor.
Defined.

Lemma LRU_recency_witness : ∃ c0 c1 c2 c3 rs,
  NewLRU 2 [] = Some (inl c0) ∧ LRU_Set c0 "a" 1 = Some (c1, None) ∧
  lru_run c1 [CallSet "b" 2; CallGet "b"] = Some (c2, rs) ∧
  LRU_Get c2 "a" = Some (c3, (1, None)).
Proof.
  destruct (NewLRU_refines (T := nat) 2 [] _ eq_refl) as (c0 & E & Hr & C & _).
  destruct (LRU_recency c0 [] "a" 1 [CallSet "b" 2; CallGet "b"] ["b"] Hr)
    as (c1 & c2 & c3 & rs & ? & ? & ?).
  - repeat constructor; exists "b"; split_and!; try reflexivity; (done || left).
  - rewrite C. reflexivity.
  - exists c0, c1, c2, c3, rs. split_and!; assumption.
Defined.

Lemma LRU_Resize_gauge_stale_witness : ∃ c0 c1 c2 n,
  NewLRU (T := nat) 2 [WithMetricsRegisterer true] = Some (inl c0) ∧
  lru_run c0 [CallSet "a" 1; CallSet "b" 2] = Some (c1, [RetErr None; RetErr None]) ∧
  LRU_Resize c1 1 = Some (c2, (n, None)) ∧ size (cache c2) = 1 ∧ gauge_is (metrics c2) 2.
Proof.
  destruct (NewLRU_refines (T := nat) 2 [WithMetricsRegisterer true] _ eq_refl)
    as (c0 & E & Hr & C & Hg).
  destruct (Set_refines c0 [] "a" 1 Hr) as (c1 & E1 & Hr1 & C1 & Hg1).
  destruct (Set_refines c1 _ "b" 2 Hr1) as (c2 & E2 & Hr2 & C2 & Hg2).
  specialize (Hg2 (Hg1 Hg)). rewrite C1, C in Hr2, Hg2.
  destruct (LRU_Resize_gauge_stale c2 _ 1 Hr2 Hg2) as (c3 & n & E3 & _ & Hsz & Hg3).
  - vm_compute. split; reflexivity.
  - exists c0, c2, c3, n. split_and!; [done| |done|lia|exact Hg3].
    simpl. rewrite E1. simpl. rewrite E2. reflexivity.
Defined.
