(* ===== verification/TokenCache.v ===== *)
(** * The token cache ([cache/token.go])

    A [TokenCache] stores access tokens in an LRU cache and decides by two
    clocks whether a stored token may still be handed out.  A token is
    third-party data: a type [Token] with its [GetDuration] method. *)

From S2P Require Import Prelude CacheMetrics GoStd Lru.

(** ** The code *)

Section code.
Context {Token : Type} `{Inhabited Token} (GetDuration : Token → Z).

(** [src/cache/token.go:26-29 TokenMaxDuration] *)
Definition TokenMaxDuration : Z := hour.

(** [src/cache/token.go:65-69 tokenItem] *)
Record tokenItem := mkTokenItem { token : Token; imono : time; iunix : time }.

#[global] Instance tokenItem_inhabited : Inhabited tokenItem :=
  populate (mkTokenItem inhabitant (mkTime 0 None) (mkTime 0 None)).

(** [src/cache/token.go:54-57 TokenCache] *)
Record TokenCache := mkTokenCache { tcache : LRU tokenItem; tmaxDuration : Z }.

(** [src/cache/token.go:71-86 NewTokenCache]
    An option that fails is ignored here and reported by [NewLRU]. *)
Definition NewTokenCache (cap : Z) (opts : list Options) : option (TokenCache + error) :=
  let o0 := mkStoreOptions 0 false "" TokenMaxDuration None "" "" in
  let o := fst (storeOptions_apply o0 opts) in
  let m := if (TokenMaxDuration <? maxDuration o)%Z then TokenMaxDuration else maxDuration o in
  r ← NewLRU cap opts;
  match r with
  | inl c => Some (inl (mkTokenCache c m))
  | inr err => Some (inr err)
  end.

(** [src/cache/token.go:138-157 TokenCache.newItem] *)
Definition newItem (maxDur : Z) (now : time) (tok : Token) : tokenItem :=
  let d0 := Z.quot (int64_wrap (GetDuration tok * 8)) 10 in
  let d := if (maxDur <? d0)%Z then maxDur else d0 in
  let mono := time_Add now d in
  let unix := unix_time (time_Unix mono) in
  mkTokenItem tok mono unix.

(** [src/cache/token.go:159-162 tokenItem.expired] *)
Definition expired (ti : tokenItem) (now : time) : bool :=
  negb (time_After (imono ti) now) || negb (time_After (iunix ti) now).

(** [now] is the time of the expiry check, [now'] the time at which a new
    token is stamped, [fetched] the outcome of calling [newToken]; no token
    is returned with an error.
    [src/cache/token.go:88-125 TokenCache.GetOrSet] *)
Definition TokenCache_GetOrSet (c : TokenCache) (key : string) (now now' : time)
    (fetched : Token + error) (opts : list Options)
    : option (TokenCache * (option Token * bool * option error)) :=
  let condition ti := negb (expired ti now) in
  let fetch := match fetched with
               | inr err => inr err
               | inl tok => inl (newItem (tmaxDuration c) now' tok)
               end in
  let debug : Options := λ so,
    (mkStoreOptions (interval so) (registerer so) (metricsPrefix so) (maxDuration so)
       (involvedObject so) "token" (eventNamespaceLabel so), None) in
  '(l, (item, ok, err)) ← LRU_GetIfOrSet (tcache c) key condition fetch (opts ++ [debug]);
  Some (mkTokenCache l (tmaxDuration c),
        match err with
        | Some e => (None, false, Some e)
        | None => (Some (token item), ok, None)
        end).

(** [src/cache/token.go:127-136 TokenCache.DeleteEventsForObject]
    A nil receiver does nothing. *)
Definition TokenCache_DeleteEventsForObject (c : option TokenCache)
    (kind name namespace operation : string) : option TokenCache :=
  (λ c, mkTokenCache
          (foldl (λ l event, LRU_DeleteCacheEvent l event kind name namespace operation)
             (tcache c) allEventTypes) (tmaxDuration c)) <$> c.

(** ** When an item expires *)

(** The lifetime [newItem] grants: 80% of the token's duration, at most
    [maxDur]. *)
Definition lifetime (maxDur d : Z) : Z := Z.min maxDur (d * 8 / 10).

Lemma newItem_lifetime maxDur now tok :
  (0 <= GetDuration tok)%Z → (GetDuration tok * 8 < 2 ^ 63)%Z →
  newItem maxDur now tok =
    mkTokenItem tok (time_Add now (lifetime maxDur (GetDuration tok)))
      (unix_time (time_Unix (time_Add now (lifetime maxDur (GetDuration tok))))).
Proof.
  intros H0 H1. unfold newItem, lifetime. rewrite int64_wrap_id by lia.
  rewrite Z.quot_div_nonneg by lia.
  destruct (Z.ltb_spec maxDur (GetDuration tok * 8 / 10)).
  - by rewrite Z.min_l by lia.
  - by rewrite Z.min_r by lia.
Qed.

Lemma unix_round t : (wall (unix_time (time_Unix t)) <= wall t)%Z.
Proof. unfold unix_time, time_Unix. simpl. pose proof (Z.mul_div_le (wall t) 1000000000). lia. Qed.

Lemma expired_false maxDur t0 tok now :
  (0 <= GetDuration tok)%Z → (GetDuration tok * 8 < 2 ^ 63)%Z →
  expired (newItem maxDur t0 tok) now = false →
  (wall now < wall t0 + lifetime maxDur (GetDuration tok))%Z ∧
  (∀ a b, mono t0 = Some a → mono now = Some b →
    (b < a + lifetime maxDur (GetDuration tok))%Z).
Proof.
  intros H0 H1. rewrite newItem_lifetime by done. unfold expired. simpl.
  set (t1 := time_Add t0 _). intros [Hm Hu]%orb_false_iff.
  apply negb_false_iff in Hm, Hu. split.
  - unfold time_After in Hu. simpl in Hu. pose proof (unix_round t1). simpl in *.
    destruct (mono now); lia.
  - intros a b Ha Hb. unfold time_After in Hm. simpl in Hm. rewrite Ha, Hb in Hm. simpl in Hm. lia.
Qed.

(** An item is served until its lifetime ends on either clock. *)
Lemma expired_after maxDur t0 tok now :
  (0 <= GetDuration tok)%Z → (GetDuration tok * 8 < 2 ^ 63)%Z →
  (wall t0 + lifetime maxDur (GetDuration tok) <= wall now)%Z →
  expired (newItem maxDur t0 tok) now = true.
Proof.
  intros H0 H1 Hw. destruct (expired _ now) eqn:He; [done|].
  apply expired_false in He as [He _]; [lia|done..].
Qed.

(** ** Runs of [GetOrSet] *)

(** One call: the key, the two clock readings and what [newToken] returns if
    it is called. *)
Record tcall := mkTCall {
  tkey : string; tnow : time; tnow' : time; tfetched : Token + error }.

Definition tret : Type := option Token * bool * option error.

Fixpoint token_run (c : TokenCache) (calls : list tcall) : option (TokenCache * list tret) :=
  match calls with
  | [] => Some (c, [])
  | q :: calls =>
      '(c1, r) ← TokenCache_GetOrSet c (tkey q) (tnow q) (tnow' q) (tfetched q) [];
      '(c2, rs) ← token_run c1 calls;
      Some (c2, r :: rs)
  end.

(** Every stored item was made by [newItem] for a token that an earlier call
    fetched for the same key. *)
Definition provenance (m : Z) (past : list tcall) (l : list (string * tokenItem)) : Prop :=
  ∀ k ti, (k, ti) ∈ l → ∃ q tok, q ∈ past ∧ tkey q = k ∧ tfetched q = inl tok ∧
    ti = newItem m (tnow' q) tok.

Lemma elem_of_touch cap k v (l : list (string * tokenItem)) e :
  e ∈ lru_touch cap k v l → e ∈ l ∨ e = (k, v).
Proof.
  unfold lru_touch, lru_trim, lru_remove. intros He.
  assert (e ∈ filter (λ e, e.1 ≠ k) l ++ [(k, v)]) as He'.
  { case_match; [|done]. rewrite <- (take_drop 1 (filter _ _ ++ _)). set_solver. }
  apply elem_of_app in He' as [[_ ?]%list_elem_of_filter|?]; set_solver.
Qed.

Lemma elem_of_remove k (l : list (string * tokenItem)) e : e ∈ lru_remove k l → e ∈ l.
Proof. by intros [_ ?]%list_elem_of_filter. Qed.

Lemma GetOrSet_sound c l past q :
  lru_rep (tcache c) l → provenance (tmaxDuration c) past l →
  ∃ c' r l', TokenCache_GetOrSet c (tkey q) (tnow q) (tnow' q) (tfetched q) [] = Some (c', r) ∧
    lru_rep (tcache c') l' ∧ tmaxDuration c' = tmaxDuration c ∧
    provenance (tmaxDuration c) (past ++ [q]) l' ∧
    match r with
    | (Some tok, true, None) => ∃ q0, q0 ∈ past ∧ tkey q0 = tkey q ∧ tfetched q0 = inl tok ∧
        expired (newItem (tmaxDuration c) (tnow' q0) tok) (tnow q) = false
    | (Some tok, false, None) => tfetched q = inl tok
    | (None, false, Some err) => tfetched q = inr err
    | _ => False
    end.
Proof.
  intros Hr Hp. unfold TokenCache_GetOrSet. simpl.
  match goal with |- context [LRU_GetIfOrSet _ _ ?cond ?fetch ?opts] =>
    destruct (GetIfOrSet_refines (tcache c) l (tkey q) cond fetch opts Hr)
      as (c1 & -> & Hr1 & _ & _) end.
  simpl. unfold spec_GetIfOrSet in *.
  assert (∀ l', (∀ k ti, (k, ti) ∈ l' → (k, ti) ∈ l ∨
      k = tkey q ∧ ∃ tok, tfetched q = inl tok ∧ ti = newItem (tmaxDuration c) (tnow' q) tok) →
    provenance (tmaxDuration c) (past ++ [q]) l') as Hprov.
  { intros l' Hl' k ti [Hin|(-> & tok & Hf & ->)]%Hl'.
    - destruct (Hp k ti Hin) as (q0 & tok & ? & ? & ? & ?). exists q0, tok. set_solver.
    - exists q, tok. set_solver. }
  destruct (lru_find (tkey q) l) as [ti|] eqn:Hf; [destruct (negb (expired ti (tnow q))) eqn:He|].
  - pose proof Hf as Hin. unfold lru_find in Hin. apply elem_of_list_to_map_2 in Hin.
    eexists _, _, _; split_and!; [done|exact Hr1|done|..].
    + apply Hprov. intros k ti' [?|[= -> ->]]%elem_of_touch; auto.
    + simpl. destruct (Hp _ _ Hin) as (q0 & tok & ? & ? & ? & ->). exists q0.
      apply negb_true_iff in He. auto.
  - destruct (tfetched q) as [tok|err] eqn:Hq; simpl in *;
      (eexists _, _, _; split_and!; [done|exact Hr1|done| |done]); apply Hprov.
    + intros k ti' [?|[= -> ->]]%elem_of_touch; eauto.
    + intros k ti' ?%elem_of_remove. auto.
  - destruct (tfetched q) as [tok|err] eqn:Hq; simpl in *;
      (eexists _, _, _; split_and!; [done|exact Hr1|done| |done]); apply Hprov.
    + intros k ti' [?|[= -> ->]]%elem_of_touch; eauto.
    + intros k ti' ?%elem_of_remove. auto.
Qed.

(** What a hit guarantees: the token was fetched for the same key by one of
    the [past] calls and neither clock has passed its lifetime. *)
Definition served_fresh (m : Z) (past : list tcall) (q : tcall) (tok : Token) : Prop :=
  ∃ q0, q0 ∈ past ∧ tkey q0 = tkey q ∧ tfetched q0 = inl tok ∧
    (wall (tnow q) < wall (tnow' q0) + lifetime m (GetDuration tok))%Z ∧
    (∀ a b, mono (tnow' q0) = Some a → mono (tnow q) = Some b →
       (b < a + lifetime m (GetDuration tok))%Z).

(** The durations that [GetDuration() * 8] does not overflow. *)
Definition duration_fits (q : tcall) : Prop :=
  match tfetched q with
  | inl tok => (0 <= GetDuration tok)%Z ∧ (GetDuration tok * 8 < 2 ^ 63)%Z
  | inr _ => True
  end.

Lemma token_run_fresh c l past calls :
  lru_rep (tcache c) l → provenance (tmaxDuration c) past l →
  Forall duration_fits (past ++ calls) →
  ∃ c' rs, token_run c calls = Some (c', rs) ∧ length rs = length calls ∧
    ∀ i q tok, calls !! i = Some q → rs !! i = Some (Some tok, true, None) →
      served_fresh (tmaxDuration c) (past ++ take i calls) q tok.
Proof.
  revert c l past. induction calls as [|q calls IH]; intros c l past Hr Hp Hd; simpl.
  { eexists _, _; split_and!; [done..|]. by intros i q tok Hq. }
  destruct (GetOrSet_sound c l past q Hr Hp) as (c1 & r & l1 & E & Hr1 & Hm & Hp1 & Hret).
  rewrite E. simpl. rewrite <- Hm in Hp1.
  destruct (IH c1 l1 (past ++ [q]) Hr1 Hp1) as (c2 & rs & E2 & Hlen & Hall).
  { by rewrite <- app_assoc. }
  rewrite E2. simpl. eexists _, _; split_and!; [done|simpl; congruence|].
  intros [|i] q' tok Hq' Hrs; simplify_eq/=.
  - destruct Hret as (q0 & Hq0 & Hk & Hf & He). rewrite app_nil_r. exists q0.
    rewrite Forall_app, Forall_forall in Hd. destruct Hd as [Hd _].
    specialize (Hd q0 Hq0). unfold duration_fits in Hd. rewrite Hf in Hd.
    apply expired_false in He; naive_solver.
  - specialize (Hall i q' tok Hq' Hrs). rewrite <- app_assoc, Hm in Hall. exact Hall.
Qed.

Lemma NewTokenCache_rep cap opts c :
  NewTokenCache cap opts = Some (inl c) →
  lru_rep (tcache c) [] ∧ (tmaxDuration c <= TokenMaxDuration)%Z.
Proof.
  unfold NewTokenCache. destruct (NewLRU cap opts) as [[l|err]|] eqn:E; simpl; [|done..].
  intros [= <-]. simpl. split.
  - revert E. destruct (makeOptions opts) as [opt|err] eqn:Ho.
    + destruct (NewLRU_refines (T := tokenItem) cap opts opt Ho) as (l' & -> & Hr & _).
      by intros [= <-].
    + unfold NewLRU. by rewrite Ho.
  - case_match; lia.
Qed.

(** C12. A token cache never serves a stale token: in every sequence of
    [GetOrSet] calls, a token returned from the cache was fetched for the
    same key by an earlier call of the sequence, and at the time of the hit
    neither the wall clock nor the monotonic clock has passed 80% of the
    token's duration nor the configured maximum, which is at most one hour.
    The durations of the tokens are not negative, and eight times a duration
    fits into 64 bits. *)
Theorem TokenCache_never_serves_stale (cap : Z) (opts : list Options) (c : TokenCache)
    (calls : list tcall) :
  NewTokenCache cap opts = Some (inl c) → Forall duration_fits calls →
  (tmaxDuration c <= hour)%Z ∧
  ∃ c' rs, token_run c calls = Some (c', rs) ∧ length rs = length calls ∧
    ∀ i q tok, calls !! i = Some q → rs !! i = Some (Some tok, true, None) →
      served_fresh (tmaxDuration c) (take i calls) q tok.
Proof.
  intros [Hr Hm]%NewTokenCache_rep Hd. split; [done|].
  apply (token_run_fresh c [] []); [done| |done]. intros k ti Hin. set_solver.
Qed.
End code.

(** ** Witness: tokens that are their own duration *)

Definition demo_time (t : Z) : time := mkTime (t * second) (Some (t * second)%Z).

Definition demo_tcalls : list (tcall (Token := Z)) :=
  [mkTCall "k" (demo_time 0) (demo_time 0) (inl (100 * second)%Z);
   mkTCall "k" (demo_time 79) (demo_time 79) (inl (200 * second)%Z);
   mkTCall "k" (demo_time 80) (demo_time 80) (inl (300 * second)%Z)].

Lemma TokenCache_never_serves_stale_witness : ∃ c c' rs,
  NewTokenCache 1 [] = Some (inl c) ∧
  token_run (λ d, d) c demo_tcalls = Some (c', rs) ∧
  rs = [(Some (100 * second)%Z, false, None); (Some (100 * second)%Z, true, None);
        (Some (300 * second)%Z, false, None)] ∧
  served_fresh (λ d, d) (tmaxDuration c) (take 1 demo_tcalls)
    (mkTCall "k" (demo_time 79) (demo_time 79) (inl (200 * second)%Z)) (100 * second)%Z.
Proof.
  destruct (NewTokenCache (Token := Z) 1 []) as [[c|]|] eqn:E;
    [|vm_compute in E; discriminate..].
  destruct (TokenCache_never_serves_stale (λ d, d) 1 [] c demo_tcalls E)
    as (_ & c' & rs & Hrun & _ & Hall).
  { repeat constructor; vm_compute; (reflexivity || discriminate). }
  exists c, c', rs. pose proof Hrun as Hrun'. vm_compute in E. injection E as <-.
  vm_compute in Hrun'. injection Hrun' as _ <-.
  split_and!; [reflexivity|exact Hrun|reflexivity|]. apply (Hall 1); reflexivity.
Defined.
