(* ===== verification/ExpiringCache.v ===== *)
(** * The expiring cache ([cache/cache.go])

    Items live in a heap of shared objects: the [index] map and the [items]
    slice hold pointers, so a write through one of them is seen through the
    other only when both hold the same pointer.  Times are nanoseconds on one
    clock, 0 being Go's zero [time.Time]; every method takes the time
    [time.Now()] returns.  The mutex makes each method one atomic step; the
    janitor goroutine and [Close] interleave at a finer grain in
    [CacheJanitor.v].

    The order [slices.SortFunc] gives to equal elements is left open: the
    methods work with any [SortFunc]. *)

From S2P Require Import Prelude CacheMetrics GoStd.

(** ** The code *)

Abbreviation ptr := positive (only parsing).

Section code.
Context {T : Type} `{Inhabited T} `{SortFunc}.

(** [src/cache/cache.go:27-30 noExpiration] *)
Definition noExpiration : Z := second * 86400 * 365 * 10.

(** [src/cache/cache.go:41-48 item] *)
Record item := mkItem { ikey : string; ivalue : T; expiresAt : Z }.

(** [src/cache/cache.go:50-65 cache] *)
Record cache := mkCache {
  heap : gmap ptr item;
  index : gmap string ptr;
  items : list ptr;
  sorted : bool;
  capacity : Z;
  metrics : option cacheMetrics;
  janitorInterval : Z;
  closed : bool }.

Definition with_heap (c : cache) h :=
  mkCache h (index c) (items c) (sorted c) (capacity c) (metrics c) (janitorInterval c) (closed c).
Definition with_index (c : cache) m :=
  mkCache (heap c) m (items c) (sorted c) (capacity c) (metrics c) (janitorInterval c) (closed c).
Definition with_items (c : cache) l b :=
  mkCache (heap c) (index c) l b (capacity c) (metrics c) (janitorInterval c) (closed c).
Definition with_capacity (c : cache) n :=
  mkCache (heap c) (index c) (items c) (sorted c) n (metrics c) (janitorInterval c) (closed c).
Definition with_metrics (c : cache) m :=
  mkCache (heap c) (index c) (items c) (sorted c) (capacity c) m (janitorInterval c) (closed c).
Definition with_closed (c : cache) :=
  mkCache (heap c) (index c) (items c) (sorted c) (capacity c) (metrics c) (janitorInterval c) true.

(** The fields of the item at a pointer of [items].  Every such pointer is
    allocated ([wf_items] below), so the defaults are never read. *)
Definition key_of (c : cache) (p : ptr) : string := from_option ikey "" (heap c !! p).
Definition exp_of (c : cache) (p : ptr) : Z := from_option expiresAt 0%Z (heap c !! p).

(** [src/cache/cache.go:69-98 New]
    The slice is made with the capacity, which panics if that is negative.  The
    janitor goroutine runs when the interval is positive. *)
Definition New (cap : Z) (opts : list Options) : res (cache + error) :=
  match makeOptions opts with
  | inr err => Val (inr err)
  | inl opt =>
      if (cap <? 0)%Z then Panics
      else Val (inl (mkCache ∅ ∅ [] true cap (if registerer opt then Some [] else None) (interval opt) false))
  end.

(** [src/cache/cache.go:114-124 Cache.Close]
    The hand-shake with the janitor is modelled in [CacheJanitor.v]. *)
Definition Cache_Close (c : cache) : cache * option error :=
  if closed c then (c, Some (EReason ErrCacheClosed)) else (with_closed c, None).

(** [src/cache/cache.go:155-169 cache.set] *)
Definition cache_set (c : cache) (now : Z) (key : string) (value : T) : cache :=
  let p := fresh (dom (heap c)) in
  let c1 := with_heap c (<[p := mkItem key value (now + noExpiration)]> (heap c)) in
  match index c1 !! key with
  | Some _ => with_index c1 (<[key := p]> (index c1))
  | None =>
      let c2 := with_index c1 (<[key := p]> (index c1)) in
      with_items c2 (items c2 ++ [p]) (sorted c2)
  end.

Definition record (c : cache) (status : string) : cache :=
  with_metrics c (recordRequest (metrics c) status).

(** [src/cache/cache.go:126-153 Cache.Set] *)
Definition Cache_Set (c : cache) (now : Z) (key : string) (value : T) : cache * option error :=
  if closed c then (record c StatusFailure, Some (EReason ErrCacheClosed))
  else match index c !! key with
  | Some _ => (record (cache_set c now key value) StatusSuccess, None)
  | None =>
      if (0 <? capacity c)%Z && (Z.of_nat (size (index c)) <? capacity c)%Z then
        let c1 := record (cache_set c now key value) StatusSuccess in
        (with_metrics c1 (recordItemIncrement (metrics c1)), None)
      else (record c StatusFailure, Some (EReason ErrCacheFull))
  end.

(** [src/cache/cache.go:171-199 Cache.Get] *)
Definition Cache_Get (c : cache) (now : Z) (key : string) : cache * (T * option error) :=
  if closed c then (record c StatusFailure, (inhabitant, Some (EReason ErrCacheClosed)))
  else match p ← index c !! key; heap c !! p with
  | None => (record c StatusSuccess, (inhabitant, Some (EReason ErrNotFound)))
  | Some it =>
      if negb (expiresAt it =? 0)%Z && (expiresAt it <? now)%Z
      then (record c StatusSuccess, (inhabitant, Some (EReason ErrNotFound)))
      else (record c StatusSuccess, (ivalue it, None))
  end.

(** [item.expiresAt = t] through a pointer. *)
Definition set_exp (c : cache) (p : ptr) (t : Z) : cache :=
  with_heap c (alter (λ it, mkItem (ikey it) (ivalue it) t) p (heap c)).

(** [src/cache/cache.go:201-219 Cache.Delete] *)
Definition Cache_Delete (c : cache) (now : Z) (key : string) : cache * option error :=
  if closed c then (record c StatusFailure, Some (EReason ErrCacheClosed))
  else match index c !! key with
  | Some p => (record (set_exp c p now) StatusSuccess, None)
  | None => (record c StatusSuccess, None)
  end.

(** [src/cache/cache.go:221-233 cache.Clear] *)
Definition cache_Clear (c : cache) : cache :=
  if closed c then c else with_index c ∅.

(** [src/cache/cache.go:235-250 cache.ListKeys] *)
Definition cache_ListKeys (c : cache) : cache * (list string * option error) :=
  if closed c then (record c StatusFailure, ([], Some (EReason ErrCacheClosed)))
  else (record c StatusSuccess, ((map_to_list (index c)).*1, None)).

(** The lazy sort shared by [Resize] and [deleteExpired].
    [src/cache/cache.go:277-283 cache.Resize] *)
Definition sort_items (c : cache) : cache :=
  if sorted c then c
  else with_items c (sortFunc (cmp_key (exp_of c)) (items c)) true.

(** Delete the first [n] items: [for _, v := range c.items[:n] {...}] and
    [c.items = c.items[n:]].
    [src/cache/cache.go:285-292 cache.Resize] *)
Definition evict_prefix (c : cache) (n : nat) : cache :=
  let victims := take n (items c) in
  let m := foldl (λ m _, recordDecrement (recordEviction m)) (metrics c) victims in
  let i := foldl (λ i p, delete (key_of c p) i) (index c) victims in
  with_metrics (with_items (with_index c i) (drop n (items c)) (sorted c)) m.

(** [src/cache/cache.go:252-296 cache.Resize] *)
Definition cache_Resize (c : cache) (size' : Z) : cache * (Z * option error) :=
  if (size' <=? 0)%Z then (record c StatusFailure, (0%Z, Some (EReason ErrInvalidSize)))
  else
    let overflow := (Z.of_nat (length (items c)) - size')%Z in
    if closed c then (record c StatusFailure, (0%Z, Some (EReason ErrCacheClosed)))
    else
      let c1 := with_capacity c size' in
      if (overflow <=? 0)%Z then (record c1 StatusSuccess, (0%Z, None))
      else (record (evict_prefix (sort_items c1) (Z.to_nat overflow)) StatusSuccess,
            (overflow, None)).

(** [src/cache/cache.go:298-322 Cache.HasExpired] *)
Definition Cache_HasExpired (c : cache) (now : Z) (key : string)
    : cache * (bool * option error) :=
  if closed c then (record c StatusFailure, (false, Some (EReason ErrCacheClosed)))
  else match p ← index c !! key; heap c !! p with
  | None => (record c StatusSuccess, (true, None))
  | Some it => (record c StatusSuccess, ((expiresAt it <? now)%Z, None))
  end.

(** [src/cache/cache.go:324-344 Cache.SetExpiration] *)
Definition Cache_SetExpiration (c : cache) (key : string) (expiration : Z)
    : cache * option error :=
  if closed c then (record c StatusFailure, Some (EReason ErrCacheClosed))
  else match index c !! key with
  | None => (record c StatusFailure, Some (EReason ErrNotFound))
  | Some p =>
      let c1 := set_exp c p expiration in
      (record (with_items c1 (items c1) false) StatusSuccess, None)
  end.

(** [src/cache/cache.go:346-372 Cache.GetExpiration] *)
Definition Cache_GetExpiration (c : cache) (now : Z) (key : string)
    : cache * (Z * option error) :=
  if closed c then (record c StatusFailure, (0%Z, Some (EReason ErrCacheClosed)))
  else match p ← index c !! key; heap c !! p with
  | None => (record c StatusSuccess, (0%Z, Some (EReason ErrNotFound)))
  | Some it =>
      if negb (expiresAt it =? 0)%Z && (expiresAt it <? now)%Z
      then (record c StatusSuccess, (0%Z, None))
      else (record c StatusSuccess, (expiresAt it, None))
  end.

(** [src/cache/cache.go:408-412 Cache.RecordCacheEvent] *)
Definition Cache_RecordCacheEvent (c : cache) (event kind name namespace operation : string) : cache :=
  with_metrics c (recordCacheEvent (metrics c) event kind name namespace operation).

(** [src/cache/cache.go:414-418 Cache.DeleteCacheEvent] *)
Definition Cache_DeleteCacheEvent (c : cache) (event kind name namespace operation : string) : cache :=
  with_metrics c (deleteCacheEvent (metrics c) event kind name namespace operation).

(** The predicate of the binary search: does item [i] expire after [t]? *)
Definition expires_after (c : cache) (t : Z) (i : nat) : bool :=
  from_option (λ p, (t <? exp_of c p)%Z) true (items c !! i).

(** [src/cache/cache.go:374-406 cache.deleteExpired] *)
Definition cache_deleteExpired (c : cache) (now : Z) : cache :=
  if closed c then c
  else
    let c1 := sort_items c in
    let n := sort_Search (length (items c1)) (expires_after c1 now) in
    evict_prefix c1 n.

End code.

Arguments item T : clear implicits.
Arguments cache T : clear implicits.

(** ** Calls and runs *)

Section calls.
Context {T : Type} `{Inhabited T} `{SortFunc}.

(** The atomic steps of the cache: a method call or a tick of the janitor. *)
Inductive call :=
  | CallSet (k : string) (v : T)
  | CallGet (k : string)
  | CallDelete (k : string)
  | CallClear
  | CallListKeys
  | CallResize (n : Z)
  | CallHasExpired (k : string)
  | CallSetExpiration (k : string) (t : Z)
  | CallGetExpiration (k : string)
  | CallClose
  | Janitor.

(** The state after a step taken at time [now]. *)
Definition step (c : cache T) (now : Z) (op : call) : cache T :=
  match op with
  | CallSet k v => (Cache_Set c now k v).1
  | CallGet k => (Cache_Get c now k).1
  | CallDelete k => (Cache_Delete c now k).1
  | CallClear => cache_Clear c
  | CallListKeys => (cache_ListKeys c).1
  | CallResize n => (cache_Resize c n).1
  | CallHasExpired k => (Cache_HasExpired c now k).1
  | CallSetExpiration k t => (Cache_SetExpiration c k t).1
  | CallGetExpiration k => (Cache_GetExpiration c now k).1
  | CallClose => (Cache_Close c).1
  | Janitor => cache_deleteExpired c now
  end.

Definition run (c : cache T) (ops : list (Z * call)) : cache T :=
  foldl (λ c op, step c op.1 op.2) c ops.

(** ** Well-formedness *)

Implicit Types c : cache T.

Record wf c : Prop := mkWf {
  wf_index : ∀ k p, index c !! k = Some p → ∃ it, heap c !! p = Some it ∧ ikey it = k;
  wf_items : ∀ p, p ∈ items c → is_Some (heap c !! p);
  wf_cover : ∀ k, is_Some (index c !! k) → k ∈ key_of c <$> items c;
  wf_gauge : gauge_is (metrics c) (Z.of_nat (length (items c)));
  wf_bound : (Z.of_nat (size (index c)) <= Z.max 0 (capacity c))%Z }.

(** Every indexed key has an item, so there are no more keys than items. *)
Lemma cover_size (m : gmap string ptr) (ks : list string) :
  (∀ k, is_Some (m !! k) → k ∈ ks) → size m <= length ks.
Proof.
  intros Hc. rewrite <- size_dom.
  transitivity (size (list_to_set ks : gset string)).
  - apply subseteq_size. intros k Hk%elem_of_dom. apply elem_of_list_to_set. auto.
  - clear Hc. induction ks as [|k ks IH]; simpl; [done|].
    pose proof (size_union_alt {[k]} (list_to_set ks : gset string)) as E.
    rewrite E, size_singleton.
    pose proof (subseteq_size (list_to_set ks ∖ {[k]} : gset string) (list_to_set ks)) as Hs.
    assert (list_to_set ks ∖ {[k]} ⊆ (list_to_set ks : gset string)) as Hsub by set_solver.
    specialize (Hs Hsub). simpl in *. lia.
Qed.

(** [delete] of the keys of the evicted items. *)
Lemma foldl_delete_lookup (key : ptr → string) (ps : list ptr) (m : gmap string ptr) k :
  foldl (λ i p, delete (key p) i) m ps !! k
  = if decide (k ∈ key <$> ps) then None else m !! k.
Proof.
  revert m. induction ps as [|p ps IH]; intros m; cbn [foldl].
  - rewrite decide_False; [done|set_solver].
  - rewrite IH. destruct (decide (k ∈ key <$> ps)) as [Hin|Hin].
    + rewrite decide_True; [done|set_solver].
    + destruct (decide (k = key p)) as [->|Hne].
      * rewrite lookup_delete_eq, decide_True; [done|set_solver].
      * rewrite lookup_delete_ne by done. rewrite decide_False; [done|set_solver].
Qed.

Lemma gauge_evictions (ps : list ptr) m v :
  gauge_is m v →
  gauge_is (foldl (λ m _, recordDecrement (recordEviction m)) m ps)
    (v - Z.of_nat (length ps)).
Proof.
  revert m v. induction ps as [|p ps IH]; intros m v Hg; simpl.
  { by rewrite Z.sub_0_r. }
  replace (v - Z.of_nat (S (length ps)))%Z with (v - 1 - Z.of_nat (length ps))%Z by lia.
  apply IH. rewrite gauge_is_decrement. by autorewrite with gauge.
Qed.

Lemma wf_record c s : wf c → wf (record c s).
Proof. intros []. split; simpl; try done. by autorewrite with gauge. Qed.

Lemma wf_sort_items c : wf c → wf (sort_items c).
Proof.
  intros [Hi Hp Hc Hg Hb]. unfold sort_items. destruct (sorted c); [done|].
  pose proof (sortFunc_perm (cmp_key (exp_of c)) (items c)) as Hperm.
  split; simpl; try done.
  - intros p. rewrite Hperm. auto.
  - intros k Hk. specialize (Hc k Hk).
    change (key_of (with_items c _ true)) with (key_of c). by rewrite Hperm.
  - by rewrite Hperm.
Qed.

Lemma wf_evict_prefix c n : n <= length (items c) → wf c → wf (evict_prefix c n).
Proof.
  intros Hn [Hi Hp Hc Hg Hb].
  assert (∀ k, index (evict_prefix c n) !! k
    = if decide (k ∈ key_of c <$> take n (items c)) then None else index c !! k) as Hix.
  { intros k. apply foldl_delete_lookup. }
  split.
  - intros k p. rewrite Hix. case_decide; [done|]. apply Hi.
  - intros p Hin. apply Hp. rewrite <- (take_drop n (items c)). set_solver.
  - intros k. rewrite Hix. case_decide as Hk; [by intros []|]. intros Hs.
    specialize (Hc k Hs). rewrite <- (take_drop n (items c)), fmap_app in Hc.
    change (key_of (evict_prefix c n)) with (key_of c). simpl. set_solver.
  - simpl. rewrite length_drop.
    eapply (gauge_evictions (take n (items c))) in Hg. rewrite length_take_le in Hg by done.
    by replace (Z.of_nat (length (items c) - n)) with (Z.of_nat (length (items c)) - Z.of_nat n)%Z by lia.
  - transitivity (Z.of_nat (size (index c))); [|done]. apply inj_le.
    rewrite <- !size_dom. apply subseteq_size. intros k. rewrite !elem_of_dom, Hix.
    case_decide; [by intros []|done].
Qed.

(** Writing an expiration keeps the keys. *)
Lemma set_exp_key c p t q : key_of (set_exp c p t) q = key_of c q.
Proof. unfold key_of. simpl. rewrite lookup_alter. case_decide; [subst|done]. by destruct (heap c !! q). Qed.

Lemma wf_set_exp c p t : wf c → wf (set_exp c p t).
Proof.
  intros [Hi Hp Hc Hg Hb]. split; simpl; try done.
  - intros k q Hk. destruct (Hi k q Hk) as (it & Hit & Hkey). rewrite lookup_alter.
    case_decide; simplify_eq; rewrite Hit; simpl; (eexists; split; [reflexivity|done]).
  - intros q Hq. destruct (Hp q Hq) as [it Hit]. rewrite lookup_alter.
    case_decide; simplify_eq; rewrite Hit; simpl; eauto.
  - intros k Hk. erewrite list_fmap_ext; [exact (Hc k Hk)|]. intros; apply set_exp_key.
Qed.

Lemma wf_with_items c b : wf c → wf (with_items c (items c) b).
Proof. by intros []. Qed.

(** A new item does not disturb the allocated ones. *)
Lemma fresh_key_of c p it q h :
  heap c !! p = None → is_Some (heap c !! q) →
  h = <[p := it]> (heap c) → key_of (with_heap c h) q = key_of c q.
Proof.
  intros Hp [x Hq] ->. unfold key_of. simpl. rewrite lookup_insert_ne; [done|congruence].
Qed.

Lemma wf_cache_set c now k v :
  wf c → closed c = false →
  (is_Some (index c !! k) ∨ (Z.of_nat (size (index c)) < capacity c)%Z) →
  wf (with_metrics (cache_set c now k v)
        (if index c !! k is Some _ then metrics c else recordItemIncrement (metrics c))).
Proof.
  intros [Hi Hp Hc Hg Hb] _ Hcap. unfold cache_set.
  pose proof (is_fresh (dom (heap c))) as Hf. rewrite not_elem_of_dom in Hf.
  set (p := fresh (dom (heap c))) in *. set (it := mkItem k v (now + noExpiration)).
  assert (∀ q x, heap c !! q = Some x → <[p := it]> (heap c) !! q = Some x) as Hold.
  { intros q x Hq. rewrite lookup_insert_ne; congruence. }
  assert (∀ q, q ∈ items c → from_option ikey "" (<[p := it]> (heap c) !! q) = key_of c q) as Hk'.
  { intros q [x Hx]%Hp. unfold key_of. by rewrite (Hold q x Hx), Hx. }
  assert (∀ k' q, <[k := p]> (index c) !! k' = Some q →
    ∃ x, <[p := it]> (heap c) !! q = Some x ∧ ikey x = k') as Hi'.
  { intros k' q. rewrite lookup_insert. case_decide as Hkk.
    - intros [= <-]. exists it. rewrite lookup_insert_eq. auto.
    - intros (x & Hx & ?)%Hi. eauto. }
  assert (∀ q, q ∈ items c → is_Some (<[p := it]> (heap c) !! q)) as Hp'.
  { intros q [x Hx]%Hp. eauto. }
  assert (∀ l : list ptr, (∀ q, q ∈ l → q ∈ items c) →
    (λ q, from_option ikey "" (<[p := it]> (heap c) !! q)) <$> l = key_of c <$> l) as Hmap.
  { intros l Hl. apply list_fmap_ext. intros i q Hq. apply Hk', Hl.
    by eapply list_elem_of_lookup_2. }
  simpl. destruct (index c !! k) as [q|] eqn:Hk.
  - split; simpl; [done|done| |done|].
    + intros k' Hs. unfold key_of at 1. simpl. rewrite Hmap by done. apply Hc.
      rewrite lookup_insert in Hs. case_decide; [subst; eauto|done].
    + rewrite map_size_insert_Some; eauto.
  - split; simpl; [done| | | |].
    + intros q [Hq| ->%list_elem_of_singleton]%elem_of_app; [auto|].
      rewrite lookup_insert_eq. eauto.
    + intros k' Hs. unfold key_of at 1. simpl. rewrite fmap_app, Hmap by done. simpl.
      rewrite lookup_insert_eq. simpl. rewrite lookup_insert in Hs.
      case_decide; [set_solver|]. apply elem_of_app. left. auto.
    + rewrite length_app. simpl.
      replace (Z.of_nat (length (items c) + 1)) with (Z.of_nat (length (items c)) + 1)%Z by lia.
      by rewrite gauge_is_increment.
    + rewrite map_size_insert_None by done. destruct Hcap as [[]|]; [done|lia].
Qed.

Lemma wf_clear c : wf c → wf (with_index c ∅).
Proof.
  intros [Hi Hp Hc Hg Hb]. split; simpl; try done; [intros k []; done|].
  rewrite map_size_empty. lia.
Qed.

Lemma wf_items_size c : wf c → size (index c) <= length (items c).
Proof. intros [_ _ Hc _ _]. etransitivity; [by apply cover_size|]. by rewrite length_fmap. Qed.

Lemma sort_items_length c : length (items (sort_items c)) = length (items c).
Proof.
  unfold sort_items. destruct (sorted c); [done|]. simpl.
  by rewrite (sortFunc_perm (cmp_key (exp_of c)) (items c)).
Qed.

Lemma wf_with_capacity c n :
  wf c → (Z.of_nat (size (index c)) <= n)%Z → wf (with_capacity c n).
Proof. intros [] Hn. split; simpl; try done. lia. Qed.

(** Sorting and evicting do not look at the capacity. *)
Lemma evict_with_capacity c n n' m :
  evict_prefix (sort_items (with_capacity c n)) m
  = with_capacity (evict_prefix (sort_items (with_capacity c n')) m) n.
Proof. unfold sort_items. simpl. by destruct (sorted c). Qed.

Lemma wf_Resize c n : wf c → wf (cache_Resize c n).1.
Proof.
  intros Hwf. unfold cache_Resize. destruct (n <=? 0)%Z eqn:Hn; [by apply wf_record|].
  destruct (closed c); [by apply wf_record|].
  pose proof (wf_items_size c Hwf).
  destruct (Z.of_nat (length (items c)) - n <=? 0)%Z eqn:Hov.
  { simpl. apply wf_record, wf_with_capacity; [done|lia]. }
  simpl. set (m := Z.to_nat (Z.of_nat (length (items c)) - n)).
  pose proof (wf_with_capacity c (Z.of_nat (length (items c))) Hwf ltac:(lia)) as Hwf1.
  assert (wf (evict_prefix (sort_items (with_capacity c (Z.of_nat (length (items c))))) m)) as Hwf2.
  { apply wf_evict_prefix; [|by apply wf_sort_items].
    rewrite sort_items_length. unfold m. simpl. lia. }
  pose proof (wf_items_size _ Hwf2) as Hsz.
  assert (length (items (evict_prefix (sort_items (with_capacity c (Z.of_nat (length (items c))))) m))
    = length (items c) - m) as Hlen.
  { simpl. by rewrite length_drop, sort_items_length. }
  apply wf_record.
  rewrite (evict_with_capacity c n (Z.of_nat (length (items c))) m).
  apply wf_with_capacity; [done|]. unfold m in *. lia.
Qed.

Lemma wf_step c now op : wf c → wf (step c now op).
Proof.
  intros Hwf. destruct op as [k v|k|k| | |n|k|k t|k| |]; simpl.
  - unfold Cache_Set. destruct (closed c) eqn:Hcl; [by apply wf_record|].
    pose proof (wf_cache_set c now k v Hwf Hcl) as Hset.
    destruct (index c !! k) as [p|] eqn:Hk; simpl.
    + apply wf_record. destruct Hset as [? ? ? ? ?]; [eauto|].
      unfold cache_set in *. simpl in *. rewrite Hk in *. by split.
    + destruct ((0 <? capacity c)%Z && (Z.of_nat (size (index c)) <? capacity c)%Z) eqn:Hfull;
        [|by apply wf_record].
      destruct Hset as [? ? ? Hg ?]; [right; lia|]. simpl. split; simpl in *; try done.
      unfold cache_set in *. simpl in *. rewrite Hk in *. simpl in *.
      rewrite length_app in *. simpl in *.
      replace (Z.of_nat (length (items c) + 1)) with (Z.of_nat (length (items c)) + 1)%Z in * by lia.
      rewrite gauge_is_increment in *. by autorewrite with gauge.
  - unfold Cache_Get. repeat case_match; simpl; by apply wf_record.
  - unfold Cache_Delete. repeat case_match; simpl; apply wf_record; auto using wf_set_exp.
  - unfold cache_Clear. case_match; auto using wf_clear.
  - unfold cache_ListKeys. case_match; by apply wf_record.
  - by apply wf_Resize.
  - unfold Cache_HasExpired. repeat case_match; simpl; by apply wf_record.
  - unfold Cache_SetExpiration. repeat case_match; simpl; apply wf_record; auto.
    by apply (wf_with_items (set_exp c _ _)), wf_set_exp.
  - unfold Cache_GetExpiration. repeat case_match; simpl; by apply wf_record.
  - unfold Cache_Close. case_match; simpl; [done|]. by destruct Hwf.
  - unfold cache_deleteExpired. case_match; [done|].
    apply wf_evict_prefix; [|by apply wf_sort_items].
    apply search_loop_bounds. lia.
Qed.

Lemma wf_run c ops : wf c → wf (run c ops).
Proof. revert c. induction ops as [|op ops IH]; intros c Hwf; simpl; auto using wf_step. Qed.

Lemma wf_New cap opts c : New cap opts = Val (inl c) → wf c ∧ capacity c = cap.
Proof.
  unfold New. destruct (makeOptions opts) as [opt|]; [|done]. destruct (cap <? 0)%Z; [done|]. intros [= <-].
  split; [|done]. split; simpl; try done.
  - intros p Hp. set_solver.
  - intros k []. done.
  - by destruct (registerer opt).
  - rewrite map_size_empty. lia.
Qed.

(** ** Behaviour of the methods on the stored values *)

Lemma wf_index_ptr c k k' p : wf c → index c !! k = Some p → index c !! k' = Some p → k = k'.
Proof. intros [Hi _ _ _ _] (x & Hx & <-)%Hi (y & Hy & <-)%Hi. congruence. Qed.

(** The heap cell [Get] reads after [cache_set]. *)
Lemma cache_set_read c now k v k' :
  wf c →
  (p ← index (cache_set c now k v) !! k'; heap (cache_set c now k v) !! p)
  = if decide (k' = k) then Some (mkItem k v (now + noExpiration))
    else (p ← index c !! k'; heap c !! p).
Proof.
  intros [Hi _ _ _ _]. unfold cache_set.
  pose proof (is_fresh (dom (heap c))) as Hf. rewrite not_elem_of_dom in Hf.
  set (p := fresh (dom (heap c))) in *.
  assert (index (cache_set c now k v) = <[k := p]> (index c) ∧
          heap (cache_set c now k v) = <[p := mkItem k v (now + noExpiration)]> (heap c)) as [E1 E2].
  { unfold cache_set. simpl. by destruct (index c !! k). }
  unfold cache_set in E1, E2. fold p in E1, E2. rewrite E1, E2, lookup_insert.
  destruct (decide (k' = k)) as [->|Hne].
  - rewrite decide_True by done. simpl. by rewrite lookup_insert_eq.
  - rewrite decide_False by congruence. destruct (index c !! k') as [q|] eqn:Hq; [|done].
    simpl. destruct (Hi k' q Hq) as (x & Hx & _). rewrite lookup_insert_ne; congruence.
Qed.

Lemma cache_set_closed c now k v : closed (cache_set c now k v) = closed c.
Proof. unfold cache_set. simpl. by destruct (index c !! k). Qed.

(** [Set] on every branch: a closed cache and a full cache without the
    key refuse; otherwise, for ten years, [Get] returns the value that was
    set, and what [Get] returns for any other key is unchanged. *)
Theorem Cache_Set_spec (c : cache T) (now : Z) (k : string) (v : T) (c' : cache T)
    (e : option error) :
  wf c → Cache_Set c now k v = (c', e) →
  e = (if closed c then Some (EReason ErrCacheClosed)
       else if decide (is_Some (index c !! k)) then None
       else if (Z.of_nat (size (index c)) <? capacity c)%Z && (0 <? capacity c)%Z then None
       else Some (EReason ErrCacheFull)) ∧
  (e = None → ∀ now' k', (now <= now' <= now + noExpiration)%Z →
     (Cache_Get c' now' k').2 =
       if decide (k' = k) then (v, None) else (Cache_Get c now' k').2).
Proof.
  intros Hwf. unfold Cache_Set. destruct (closed c) eqn:Hcl; [by intros [= <- <-]|].
  assert (∀ m now' k', (now <= now' <= now + noExpiration)%Z →
    (Cache_Get (with_metrics (cache_set c now k v) m) now' k').2 =
       if decide (k' = k) then (v, None) else (Cache_Get c now' k').2) as Hget.
  { intros m now' k' Hnow. unfold Cache_Get. simpl. rewrite cache_set_closed, Hcl, cache_set_read by done.
    case_decide; [|by repeat case_match]. simpl.
    rewrite (proj2 (Z.ltb_ge _ now')) by lia. by rewrite andb_false_r. }
  destruct (index c !! k) eqn:Hk.
  - intros [= <- <-]. rewrite decide_True by eauto. split; [done|]. intros _. apply Hget.
  - rewrite decide_False by (by intros []). rewrite andb_comm. case_match.
    + intros [= <- <-]. split; [done|]. intros _. apply Hget.
    + intros [= <- <-]. done.
Qed.

(** [Delete] hides the key from every later [Get] and leaves what [Get]
    returns for the other keys unchanged. *)
Theorem Cache_Delete_spec (c : cache T) (now : Z) (k : string) :
  wf c → closed c = false → (0 < now)%Z →
  (Cache_Delete c now k).2 = None ∧
  (∀ now' k', (now < now')%Z →
     (Cache_Get (Cache_Delete c now k).1 now' k').2 =
       if decide (k' = k) then (inhabitant, Some (EReason ErrNotFound))
       else (Cache_Get c now' k').2).
Proof.
  intros Hwf Hcl Hpos. unfold Cache_Delete. rewrite Hcl. split; [by case_match|].
  intros now' k' Hnow. destruct (index c !! k) as [p|] eqn:Hk; unfold Cache_Get; simpl; rewrite Hcl.
  - destruct (decide (k' = k)) as [->|Hne].
    + rewrite Hk. simpl. destruct (wf_index _ Hwf k p Hk) as (it & Hit & _).
      rewrite lookup_alter, decide_True, Hit by done. simpl.
      rewrite (proj2 (Z.eqb_neq now 0)), (proj2 (Z.ltb_lt now now')) by lia. done.
    + destruct (index c !! k') as [q|] eqn:Hq; simpl; [|done].
      rewrite lookup_alter, decide_False; [by repeat case_match|].
      intros ->. by apply Hne, (wf_index_ptr c k' k q).
  - case_decide; [subst; by rewrite Hk|by repeat case_match].
Qed.

(** [HasExpired] agrees with [Get]: on an open cache it is true for a key
    exactly when [Get] reports the key as not found, provided the stored
    expiration is not the zero time. *)
Theorem Cache_HasExpired_Get (c : cache T) (now : Z) (k : string) :
  wf c → closed c = false → (∀ p, index c !! k = Some p → exp_of c p ≠ 0%Z) →
  (Cache_HasExpired c now k).2.1 = true ↔
  (Cache_Get c now k).2.2 = Some (EReason ErrNotFound).
Proof.
  intros Hwf Hcl Hz. unfold Cache_HasExpired, Cache_Get. rewrite Hcl.
  destruct (index c !! k) as [p|] eqn:Hk; simpl; [|done].
  specialize (Hz p eq_refl). unfold exp_of in Hz. destruct (heap c !! p) as [it|]; [|done]. simpl in *.
  rewrite (proj2 (Z.eqb_neq _ 0)) by done. simpl. by destruct (expiresAt it <? now)%Z.
Qed.

(** C2. Whatever calls and janitor ticks a cache goes through, it never holds
    more keys than its capacity, every key it holds has an item the janitor
    can reach, every stored pointer is allocated, and the gauge shows the
    length of the [items] slice. *)
Theorem Cache_run_invariant (cap : Z) (opts : list Options) (c : cache T)
    (ops : list (Z * call)) :
  New cap opts = Val (inl c) →
  (Z.of_nat (size (index (run c ops))) <= Z.max 0 (capacity (run c ops)))%Z ∧
  (∀ k p, index (run c ops) !! k = Some p →
     key_of (run c ops) p = k ∧ k ∈ key_of (run c ops) <$> items (run c ops)) ∧
  (∀ p, p ∈ items (run c ops) → is_Some (heap (run c ops) !! p)) ∧
  gauge_is (metrics (run c ops)) (Z.of_nat (length (items (run c ops)))).
Proof.
  intros [Hwf _]%wf_New. destruct (wf_run c ops Hwf) as [Hi Hp Hc Hg Hb].
  split_and!; [done| |done|done]. intros k p Hk. split; [|by apply Hc].
  destruct (Hi k p Hk) as (it & Hit & <-). unfold key_of. by rewrite Hit.
Qed.

(** ** Exactness of the janitor *)

(** The slice holds exactly the indexed items, in order when it says so, and
    no item outlives the "no expiration" sentinel. *)
Record tidy (t : Z) c : Prop := mkTidy {
  tidy_wf : wf c;
  tidy_items : ∀ p, p ∈ items c ↔ ∃ k, index c !! k = Some p;
  tidy_sorted : sorted c = true →
    StronglySorted (λ p q, (exp_of c p <= exp_of c q)%Z) (items c);
  tidy_exp : ∀ p, p ∈ items c → (exp_of c p <= t + noExpiration)%Z;
  tidy_nodup : NoDup (items c) }.

(** Calls that keep the slice and the index in step. *)
Definition orderly c (now : Z) (op : call) : Prop :=
  match op with
  | CallSet k _ => index c !! k = None
  | CallSetExpiration _ t => (t <= now + noExpiration)%Z
  | CallDelete _ | CallClear => False
  | _ => True
  end.

(** States reached by orderly calls at non-decreasing times. *)
Inductive orderly_reach : Z → cache T → Prop :=
  | orderly_new cap opts c t : New cap opts = Val (inl c) → orderly_reach t c
  | orderly_step t c now op :
      orderly_reach t c → (t <= now)%Z → orderly c now op →
      orderly_reach now (step c now op).

Lemma tidy_same t now c c' :
  tidy t c → (t <= now)%Z → wf c' → heap c' = heap c → index c' = index c →
  items c' = items c → sorted c' = sorted c → tidy now c'.
Proof.
  intros [_ Hi Hs He Hnd] Hle Hwf E1 E2 E3 E4.
  split; [done|..]; unfold exp_of in *; rewrite ?E1, ?E2, ?E3, ?E4; try done.
  intros p Hp. specialize (He p Hp). lia.
Qed.

Lemma tidy_set t c now k v :
  tidy t c → (t <= now)%Z → index c !! k = None → wf (step c now (CallSet k v)) →
  tidy now (step c now (CallSet k v)).
Proof.
  intros Ht Hle Hk Hwf'. simpl in *. revert Hwf'. unfold Cache_Set.
  destruct (closed c) eqn:Hcl; simpl; [intros; by eapply tidy_same|]. rewrite Hk.
  case_match; simpl; [|intros; by eapply tidy_same]. intros Hwf'.
  destruct Ht as [[Hi Hp _ _ _] Hit Hs He Hnd]. unfold cache_set in *. simpl in *. rewrite Hk in *.
  pose proof (is_fresh (dom (heap c))) as Hf. rewrite not_elem_of_dom in Hf.
  set (p := fresh (dom (heap c))) in *.
  assert (∀ m q, q ∈ items c → from_option expiresAt 0%Z
      (<[p := mkItem k v m]> (heap c) !! q) = exp_of c q) as Hold.
  { intros m q [x Hx]%Hp. unfold exp_of. rewrite lookup_insert_ne by congruence. done. }
  split; [done|..]; unfold exp_of; simpl.
  - intros q. rewrite elem_of_app, list_elem_of_singleton, Hit. split.
    + intros [[k' Hk']| ->]; [exists k'; rewrite lookup_insert_ne; congruence|].
      exists k. by rewrite lookup_insert_eq.
    + intros [k' Hk']. rewrite lookup_insert in Hk'. case_decide; simplify_eq; eauto.
  - intros Hsrt. apply StronglySorted_snoc.
    + eapply StronglySorted_ext_in; [|by apply Hs]. intros x y Hx Hy. simpl. by rewrite !Hold.
    + apply Forall_forall. intros q Hq. rewrite Hold by done. rewrite lookup_insert_eq. simpl.
      specialize (He q Hq). lia.
  - intros q [Hq| ->%list_elem_of_singleton]%elem_of_app.
    + rewrite Hold by done. specialize (He q Hq). lia.
    + rewrite lookup_insert_eq. simpl. lia.
  - apply NoDup_app. split_and!; [done| |apply NoDup_singleton].
    intros q [x Hx]%Hp ->%list_elem_of_singleton. congruence.
Qed.

Lemma set_exp_exp c p t q :
  is_Some (heap c !! q) → exp_of (set_exp c p t) q = if decide (q = p) then t else exp_of c q.
Proof.
  intros [x Hx]. unfold exp_of. simpl. rewrite lookup_alter.
  repeat case_decide; simplify_eq; by rewrite ?Hx.
Qed.

Lemma tidy_set_expiration t c now k x :
  tidy t c → (t <= now)%Z → (x <= now + noExpiration)%Z →
  wf (step c now (CallSetExpiration k x)) → tidy now (step c now (CallSetExpiration k x)).
Proof.
  intros Ht Hle Hx Hwf'. simpl in *. revert Hwf'. unfold Cache_SetExpiration.
  case_match; simpl; [intros; by eapply tidy_same|].
  destruct (index c !! k) as [p|] eqn:Hk; simpl; [|intros; by eapply tidy_same].
  intros Hwf'. destruct Ht as [[Hi Hp _ _ _] Hit Hs He Hnd]. split; simpl; try done.
  intros q Hq. specialize (He q Hq).
  pose proof (set_exp_exp c p x q (Hp q Hq)) as E.
  unfold exp_of in *. simpl in *. rewrite E. case_decide; lia.
Qed.

Lemma tidy_sort_items t c : tidy t c → tidy t (sort_items c) ∧ sorted (sort_items c) = true.
Proof.
  intros Ht. pose proof Ht as [Hwf Hi Hs He Hnd]. pose proof (wf_sort_items c Hwf) as Hwf'.
  unfold sort_items in *. destruct (sorted c) eqn:Hsc; [done|]. split; [|done].
  pose proof (sortFunc_perm (cmp_key (exp_of c)) (items c)) as Hperm.
  split; simpl; [done|..].
  - intros p. rewrite Hperm. apply Hi.
  - intros _. apply sortFunc_key.
  - intros p Hp. rewrite Hperm in Hp. by apply He.
  - by rewrite Hperm.
Qed.

(** Evicting a prefix of the slice evicts exactly the keys of its items. *)
Lemma tidy_evict_index t c n k :
  tidy t c → index (evict_prefix c n) !! k =
    (p ← index c !! k; if decide (p ∈ take n (items c)) then None else Some p).
Proof.
  intros [[Hi _ _ _ _] Hit _ _ _].
  change (index (evict_prefix c n)) with
    (foldl (λ i p, delete (key_of c p) i) (index c) (take n (items c))).
  rewrite foldl_delete_lookup. destruct (index c !! k) as [p|] eqn:Hk; simpl; [|by case_decide].
  destruct (Hi k p Hk) as (x & Hx & Hkx).
  destruct (decide (p ∈ take n (items c))) as [Hin|Hin].
  - rewrite decide_True; [done|]. apply list_elem_of_fmap. exists p. unfold key_of. by rewrite Hx.
  - rewrite decide_False; [done|]. intros (q & Hq & Hqin)%list_elem_of_fmap.
    assert (q ∈ items c) as Hqi by (rewrite <- (take_drop n (items c)); set_solver).
    apply Hit in Hqi as [k' Hk']. destruct (Hi k' q Hk') as (y & Hy & Hky).
    unfold key_of in Hq. rewrite Hy in Hq. simpl in Hq. congruence.
Qed.

Lemma tidy_evict t c n : tidy t c → wf (evict_prefix c n) → tidy t (evict_prefix c n).
Proof.
  intros Ht Hwf'. pose proof Ht as [_ Hit Hs He Hnd]. split; [done|..].
  - intros p. simpl. assert (p ∈ drop n (items c) ↔ p ∈ items c ∧ p ∉ take n (items c)) as ->.
    { rewrite <- (take_drop n (items c)) in Hnd. rewrite <- (take_drop n (items c)) at 2.
      apply NoDup_app in Hnd as (_ & Hd & _). set_solver. }
    rewrite Hit. split.
    + intros [[k Hk] Hn]. exists k.
      pose proof (tidy_evict_index t c n k Ht) as E. simpl in E. rewrite E, Hk. simpl.
      by rewrite decide_False.
    + intros [k Hk]. pose proof (tidy_evict_index t c n k Ht) as E. simpl in E. rewrite E in Hk.
      destruct (index c !! k) as [q|] eqn:Hq; simplify_eq/=. case_decide; simplify_eq. eauto.
  - intros Hsrt. simpl in *. by apply StronglySorted_drop, Hs.
  - intros p Hp. apply (He p). simpl in Hp. rewrite <- (take_drop n (items c)). set_solver.
  - eapply sublist_NoDup; [exact Hnd|]. apply sublist_drop.
Qed.

Lemma tidy_later t now c : tidy t c → (t <= now)%Z → tidy now c.
Proof. intros Ht Hle. by eapply tidy_same; [|exact Hle|by destruct Ht|..]. Qed.

Lemma tidy_with_metrics t c m :
  tidy t c → wf (with_metrics c m) → tidy t (with_metrics c m).
Proof. intros Ht Hwf. eapply tidy_same; [done|lia|done..]. Qed.

Lemma tidy_step t c now op :
  tidy t c → (t <= now)%Z → orderly c now op → tidy now (step c now op).
Proof.
  intros Ht Hle Ho. pose proof Ht as [Hwf _ _ _ _]. pose proof (wf_step c now op Hwf) as Hwf'.
  pose proof (tidy_later t now c Ht Hle) as Hn.
  destruct op as [k v|k|k| | |n|k|x t'|k| |]; simpl in Ho.
  - by eapply tidy_set.
  - simpl in *. unfold Cache_Get in *. repeat case_match; simpl in *; by apply tidy_with_metrics.
  - done.
  - done.
  - simpl in *. unfold cache_ListKeys in *. case_match; by apply tidy_with_metrics.
  - simpl in *. unfold cache_Resize in *.
    destruct (n <=? 0)%Z eqn:Hn0; [by apply tidy_with_metrics|].
    destruct (closed c) eqn:Hcl; [by apply tidy_with_metrics|].
    destruct (Z.of_nat (length (items c)) - n <=? 0)%Z eqn:Hov; simpl in *.
    { by eapply (tidy_same now now c). }
    apply tidy_with_metrics; [|done].
    rewrite (evict_with_capacity c n (Z.of_nat (length (items c)))) in *.
    set (m := Z.to_nat _) in *.
    assert (tidy now (with_capacity c (Z.of_nat (length (items c))))) as Hc1.
    { eapply (tidy_same now now c); [done|lia| |done..]. apply wf_with_capacity; [done|].
      pose proof (wf_items_size c Hwf). lia. }
    destruct (tidy_sort_items _ _ Hc1) as [Hs1 _].
    assert (tidy now (evict_prefix (sort_items (with_capacity c (Z.of_nat (length (items c))))) m)) as He.
    { apply tidy_evict; [done|]. apply wf_evict_prefix; [|by destruct Hs1].
      rewrite sort_items_length. unfold m. simpl. lia. }
    eapply tidy_same; [exact He|lia| |done..]. destruct Hwf' as [Hi Hp Hc Hg Hb].
    split; try done. simpl. simpl in Hg. by autorewrite with gauge in Hg.
  - simpl in *. unfold Cache_HasExpired in *. repeat case_match; simpl in *; by apply tidy_with_metrics.
  - by eapply tidy_set_expiration.
  - simpl in *. unfold Cache_GetExpiration in *. repeat case_match; simpl in *; by apply tidy_with_metrics.
  - simpl in *. unfold Cache_Close in *. case_match; simpl in *; [done|]. by eapply (tidy_same now now c).
  - simpl in *. unfold cache_deleteExpired in *. case_match; [done|].
    destruct (tidy_sort_items _ _ Hn) as [Hs _]. by apply tidy_evict.
Qed.

Lemma orderly_tidy t c : orderly_reach t c → tidy t c.
Proof.
  induction 1 as [cap opts c t Hnew|t c now op _ IH Hle Ho]; [|by eapply tidy_step].
  destruct (wf_New _ _ _ Hnew) as [Hwf _]. revert Hnew. unfold New.
  destruct (makeOptions opts); [|done]. destruct (cap <? 0)%Z; [done|]. intros [= <-]. split; simpl; [done|..].
  - intros p. split; [set_solver|]. intros [k []%lookup_empty_Some].
  - intros _. constructor.
  - set_solver.
  - apply NoDup_nil_2.
Qed.

(** The binary search cuts a sorted slice at the first live item. *)
Lemma search_cut c now :
  StronglySorted (λ p q, (exp_of c p <= exp_of c q)%Z) (items c) →
  let n := sort_Search (length (items c)) (expires_after c now) in
  ∀ p, p ∈ items c → (p ∈ take n (items c) ↔ (exp_of c p <= now)%Z).
Proof.
  intros Hs n p Hp. unfold n. clear n.
  destruct (sort_Search_spec (length (items c)) (expires_after c now)) as (_ & Hlo & Hhi).
  { intros x y Hxy. unfold expires_after.
    destruct (items c !! y) as [q|] eqn:Hy; [|done]. simpl.
    destruct (decide (x = y)) as [->|]; [by rewrite Hy|].
    destruct (items c !! x) as [r|] eqn:Hx; [|apply lookup_ge_None in Hx; apply lookup_lt_Some in Hy; lia].
    simpl. pose proof (StronglySorted_lookup _ _ x y r q Hs ltac:(lia) Hx Hy). simpl in *. lia. }
  set (n := sort_Search _ _) in *. split.
  - intros (i & Hi)%list_elem_of_lookup. apply lookup_take_Some in Hi as [Hi Hlt].
    specialize (Hlo i Hlt). unfold expires_after in Hlo. rewrite Hi in Hlo. simpl in Hlo. lia.
  - intros He. apply list_elem_of_lookup in Hp as [i Hi].
    destruct (decide (i < n)) as [Hlt|Hge].
    + apply list_elem_of_lookup. exists i. apply lookup_take_Some. done.
    + pose proof (lookup_lt_Some _ _ _ Hi) as Hlen. specialize (Hhi i ltac:(lia)).
      unfold expires_after in Hhi. rewrite Hi in Hhi. simpl in Hhi. lia.
Qed.

Lemma sort_items_frame c :
  heap (sort_items c) = heap c ∧ index (sort_items c) = index c ∧ closed (sort_items c) = closed c.
Proof. unfold sort_items. by destruct (sorted c). Qed.

(** On a cache used without [Delete], [Clear] and overwriting [Set]s, and
    with expirations of at most ten years, a janitor tick removes exactly the
    keys whose expiration has passed, whatever order the items were stored
    in and however ties are sorted. *)
Theorem Cache_janitor_exact (t now : Z) (c : cache T) (k : string) :
  orderly_reach t c → (t <= now)%Z → closed c = false →
  index (cache_deleteExpired c now) !! k =
    (p ← index c !! k; if (exp_of c p <=? now)%Z then None else Some p).
Proof.
  intros Hreach%orderly_tidy Hle Hcl. unfold cache_deleteExpired. rewrite Hcl.
  destruct (tidy_sort_items t c Hreach) as [Ht Hsorted].
  destruct (sort_items_frame c) as (Eh & Ei & _). rewrite (tidy_evict_index t) by done.
  rewrite Ei. destruct (index c !! k) as [p|] eqn:Hk; simpl; [|done].
  destruct Ht as [_ Hit Hs _ _]. pose proof (search_cut (sort_items c) now (Hs Hsorted) p) as Hcut.
  simpl in Hcut. rewrite Hit, Ei in Hcut. specialize (Hcut ltac:(eauto)).
  assert (exp_of (sort_items c) p = exp_of c p) as Ee by (unfold exp_of; by rewrite Eh).
  rewrite Ee in Hcut. destruct (Z.leb_spec (exp_of c p) now).
  - rewrite decide_True; [done|]. by apply Hcut.
  - rewrite decide_False; [done|]. rewrite Hcut. lia.
Qed.

(** [Delete] moves an item's expiration to the present without marking
    the slice unsorted, so the janitor's binary search can cut a slice that is
    not sorted: after [Set a], [Set b], [Delete b] the next tick removes [a],
    which nobody deleted and which had ten years to live. *)
Theorem Cache_Delete_evicts_live_key (v w : T) :
  ∃ c : cache T, New 10 [] = Val (inl c) ∧
    let c1 := run c [(1%Z, CallSet "a" v); (2%Z, CallSet "b" w); (3%Z, CallDelete "b")] in
    (Cache_Get c1 4 "a").2 = (v, None) ∧
    (Cache_Get (step c1 4 Janitor) 5 "a").2 = (inhabitant, Some (EReason ErrNotFound)).
Proof. eexists. split; [reflexivity|]. split; vm_compute; reflexivity. Qed.
End calls.

Arguments call T : clear implicits.

(** Overwriting a key leaves the old item in the slice: the janitor
    later applies the old value's expiration to the new value, which was set
    without one. *)
Theorem Cache_overwrite_keeps_deadline {T : Type} `{Inhabited T} (v w : T) :
  ∃ c : cache T, New 10 [] = Val (inl c) ∧
    let c1 := run c [(1%Z, CallSet "a" v); (2%Z, CallSetExpiration "a" 10);
                     (3%Z, CallSet "a" w)] in
    (Cache_GetExpiration c1 4 "a").2 = ((3 + noExpiration)%Z, None) ∧
    (Cache_Get c1 11 "a").2 = (w, None) ∧
    (Cache_Get (step c1 11 Janitor) 12 "a").2 = (inhabitant, Some (EReason ErrNotFound)).
Proof. eexists. split; [reflexivity|]. split_and!; vm_compute; reflexivity. Qed.

(** ** Witnesses *)

Definition demo_ops : list (Z * call nat) :=
  [(1%Z, CallSet "a" 1); (2%Z, CallSet "b" 2); (3%Z, CallSetExpiration "a" 20);
   (4%Z, CallGet "a"); (5%Z, CallSet "c" 3)].

Definition demo_cache : cache nat := mkCache ∅ ∅ [] true 2 None defaultInterval false.

Lemma demo_wf : wf (run demo_cache demo_ops).
Proof. apply wf_run. by apply (wf_New 2 []). Qed.

Lemma Cache_run_invariant_witness :
  New 2 [] = Val (inl demo_cache) ∧
  (Z.of_nat (size (index (run demo_cache demo_ops))) <= Z.max 0 (capacity (run demo_cache demo_ops)))%Z.
Proof. split; [reflexivity|]. apply (Cache_run_invariant 2 [] demo_cache demo_ops). reflexivity. Defined.

Lemma Cache_Set_spec_witness :
  (Cache_Set (run demo_cache demo_ops) 6 "d" 4).2 = Some (EReason ErrCacheFull) ∧
  (Cache_Get (Cache_Set (run demo_cache demo_ops) 6 "b" 5).1 7 "b").2 = (5, None).
Proof.
  split.
  - destruct (Cache_Set_spec (run demo_cache demo_ops) 6 "d" 4 _ _ demo_wf (surjective_pairing _))
      as [-> _]. vm_compute. reflexivity.
  - destruct (Cache_Set_spec (run demo_cache demo_ops) 6 "b" 5 _ _ demo_wf (surjective_pairing _))
      as [_ Hg].
    rewrite Hg; [reflexivity|vm_compute; reflexivity|vm_compute; split; discriminate].
Defined.

Lemma Cache_Delete_spec_witness :
  (Cache_Get (Cache_Delete (run demo_cache demo_ops) 6 "b").1 7 "b").2
    = (0, Some (EReason ErrNotFound)) ∧
  (Cache_Get (Cache_Delete (run demo_cache demo_ops) 6 "b").1 7 "a").2 = (1, None).
Proof.
  destruct (Cache_Delete_spec (run demo_cache demo_ops) 6 "b" demo_wf eq_refl eq_refl) as [_ Hd].
  split; rewrite Hd by reflexivity; vm_compute; reflexivity.
Defined.

Lemma Cache_HasExpired_Get_witness :
  (Cache_HasExpired (run demo_cache demo_ops) 21 "a").2.1 = true ∧
  (Cache_Get (run demo_cache demo_ops) 21 "a").2.2 = Some (EReason ErrNotFound).
Proof.
  assert ((Cache_HasExpired (run demo_cache demo_ops) 21 "a").2.1 = true) as E
    by (vm_compute; reflexivity).
  split; [exact E|]. apply (Cache_HasExpired_Get (run demo_cache demo_ops) 21 "a" demo_wf eq_refl); [|exact E].
  intros p Hp. vm_compute in Hp. injection Hp as <-. vm_compute. discriminate.
Defined.

Lemma Cache_janitor_exact_witness :
  let c := step (step demo_cache 1 (CallSet "a" 1)) 3 (CallSetExpiration "a" 20) in
  index (cache_deleteExpired c 19) !! "a" = index c !! "a" ∧
  index (cache_deleteExpired c 20) !! "a" = None.
Proof.
  intros c. assert (orderly_reach 3 c) as Hr.
  { apply (orderly_step 1); [apply (orderly_step 1); [apply (orderly_new 2 [])|..]|..];
      vm_compute; (reflexivity || discriminate). }
  split; rewrite (Cache_janitor_exact 3 _ c "a" Hr) by (vm_compute; (reflexivity || discriminate));
    vm_compute; reflexivity.
Defined.
