(* ===== verification/CacheJanitor.v ===== *)
(** * The hand-shake of [Close] with the janitor ([cache/cache.go])

    [Close] sends on the janitor's unbuffered stop channel while it holds the
    cache's mutex; the janitor goroutine receives from it only in its
    [select], and takes the mutex in [deleteExpired].  The two goroutines are
    a step relation over their program points, the mutex and the [closed]
    flag: one step is one statement that other goroutines can observe. *)

From S2P Require Import Prelude.

(** Who holds [cache.mu]. *)
Inductive owner := Free | HeldByCloser | HeldByJanitor.

(** The program points of one [Close] call.
    [src/cache/cache.go:115-124 Cache.Close] *)
Inductive closer :=
  | CloseStart                  (* before [c.mu.Lock()] *)
  | CloseCheck                  (* before [if c.closed] *)
  | CloseSend                   (* blocked in [c.janitor.stop <- true] *)
  | CloseMark                   (* before [c.closed = true] *)
  | CloseReturned (ok : bool).  (* returned nil, or [ErrCacheClosed] *)

(** The program points of the janitor goroutine.
    [src/cache/cache.go:425-436 janitor.run] *)
Inductive janitor :=
  | JanitorSelect               (* in [select] *)
  | JanitorLock                 (* in [deleteExpired], before [c.mu.Lock()] *)
  | JanitorSweep                (* in [deleteExpired], holding the mutex *)
  | JanitorStopped.             (* returned *)

Record sys := mkSys { mu : owner; isClosed : bool; cpc : closer; jpc : janitor }.

(** A new cache with its janitor running and one call of [Close] to come. *)
Definition init : sys := mkSys Free false CloseStart JanitorSelect.

(** [src/cache/cache.go:114-124 Cache.Close] *)
Inductive close_step : sys → sys → Prop :=
  | close_lock b j :
      close_step (mkSys Free b CloseStart j) (mkSys HeldByCloser b CloseCheck j)
  | close_already m j :
      close_step (mkSys m true CloseCheck j) (mkSys Free true (CloseReturned false) j)
  | close_check m j :
      close_step (mkSys m false CloseCheck j) (mkSys m false CloseSend j)
  (* the rendezvous on the unbuffered channel *)
  | close_handshake m b :
      close_step (mkSys m b CloseSend JanitorSelect) (mkSys m b CloseMark JanitorStopped)
  | close_mark m b j :
      close_step (mkSys m b CloseMark j) (mkSys Free true (CloseReturned true) j)
  | janitor_tick m b c :
      close_step (mkSys m b c JanitorSelect) (mkSys m b c JanitorLock)
  | janitor_lock b c :
      close_step (mkSys Free b c JanitorLock) (mkSys HeldByJanitor b c JanitorSweep)
  | janitor_sweep m b c :
      close_step (mkSys m b c JanitorSweep) (mkSys Free b c JanitorSelect).

Definition reachable : sys → Prop := rtc close_step init.

Create HintDb janitor.
#[export] Hint Constructors close_step : janitor.

(** Who holds the mutex at which program point. *)
Definition lock_inv (s : sys) : Prop :=
  (mu s = HeldByCloser ↔ cpc s = CloseCheck ∨ cpc s = CloseSend ∨ cpc s = CloseMark) ∧
  (mu s = HeldByJanitor ↔ jpc s = JanitorSweep) ∧
  (cpc s = CloseMark ∨ isClosed s = true ↔ jpc s = JanitorStopped) ∧
  (isClosed s = true ↔ ∃ ok, cpc s = CloseReturned ok) ∧
  (cpc s ≠ CloseReturned false).

Lemma lock_inv_step s s' : close_step s s' → lock_inv s → lock_inv s'.
Proof.
  intros Hstep. unfold lock_inv.
  destruct Hstep; simpl; intros (H1 & H2 & H3 & H4 & H5); naive_solver.
Qed.

Lemma lock_inv_reachable s : reachable s → lock_inv s.
Proof.
  intros Hr. assert (∀ s0, rtc close_step s0 s → lock_inv s0 → lock_inv s) as Hall.
  { clear Hr. induction 1; auto. eauto using lock_inv_step. }
  apply (Hall init); [done|]. unfold lock_inv. simpl. naive_solver.
Qed.

(** C40. [Close] can deadlock: when the janitor's ticker fires just before
    [Close] takes the mutex, the janitor waits for the mutex in
    [deleteExpired] and [Close] waits for the janitor to receive, holding
    the mutex; no step is possible and [Close] never returns. *)
Theorem Close_can_deadlock :
  ∃ s, reachable s ∧ cpc s = CloseSend ∧ ∀ s', ¬ close_step s s'.
Proof.
  exists (mkSys HeldByCloser false CloseSend JanitorLock). split; [|split; [done|]].
  - unfold reachable, init. eapply rtc_l; [apply janitor_tick|].
    eapply rtc_l; [apply close_lock|]. apply rtc_once, close_check.
  - intros s' Hs. inversion Hs.
Qed.

(** That is the only way: in every reachable state some step is possible,
    unless [Close] has returned and the janitor is gone, or the two wait for
    each other as in [Close_can_deadlock].  Once [Close] has returned, the
    janitor has stopped and never sweeps again. *)
Theorem Close_progress (s : sys) :
  reachable s →
  ((∃ s', close_step s s') ∨
   (∃ ok, cpc s = CloseReturned ok) ∧ jpc s = JanitorStopped ∨
   cpc s = CloseSend ∧ jpc s = JanitorLock ∧ mu s = HeldByCloser) ∧
  (isClosed s = true → jpc s = JanitorStopped).
Proof.
  intros Hr%lock_inv_reachable. destruct s as [m b c j], Hr as (H1 & H2 & H3 & H4 & H5).
  simpl in *. split; [|naive_solver].
  destruct j; [left; eauto with janitor| |left; eauto with janitor|].
  - destruct m; [left; eauto with janitor| |naive_solver].
    destruct c; [naive_solver|left; destruct b; eauto with janitor|naive_solver
      |left; eauto with janitor|naive_solver].
  - destruct c; [naive_solver|naive_solver|naive_solver|left; eauto with janitor|].
    right; left. eauto.
Qed.

Lemma Close_progress_witness :
  reachable init ∧ (isClosed init = true → jpc init = JanitorStopped).
Proof. split; [apply rtc_refl|]. apply (Close_progress init). apply rtc_refl. Defined.
