(* ===== verification/Utf8.v ===== *)
(** * Go strings: bytes, UTF-8 and the string functions the code calls

    A Go string is a sequence of bytes, here [list ascii]; a rune is a code
    point in [Z].  [DecodeRune] and [EncodeRune] follow the standard library's
    tables.  Letter, digit and case tables are explicit for ASCII and left to
    the interface [Unicode] beyond it. *)

From S2P Require Import Prelude.

Abbreviation bytes := (list ascii) (only parsing).

(** The bytes of a string literal. *)
Definition str (s : string) : bytes := String.list_ascii_of_string s.

(** The numeric value of a byte and back. *)
Definition bval (c : ascii) : Z := Z.of_N (N_of_ascii c).
Definition byte_of (z : Z) : ascii := ascii_of_N (Z.to_N z).

Lemma bval_range c : (0 <= bval c < 256)%Z.
Proof. unfold bval. pose proof (N_ascii_bounded c). lia. Qed.

Lemma byte_of_bval c : byte_of (bval c) = c.
Proof. unfold byte_of, bval. by rewrite N2Z.id, ascii_N_embedding. Qed.

Lemma bval_byte_of z : (0 <= z < 256)%Z → bval (byte_of z) = z.
Proof. intros Hz. unfold byte_of, bval. rewrite N_ascii_embedding; lia. Qed.

Lemma bval_inj c d : bval c = bval d → c = d.
Proof. intros E. by rewrite <- (byte_of_bval c), E, byte_of_bval. Qed.

(** ** UTF-8 *)

Definition RuneError : Z := 65533.

(** The length of an encoding that starts with the byte [b] and the bounds of
    its second byte; [None] when no encoding starts with it. *)
Definition first_byte (b : Z) : option (nat * Z * Z) :=
  if (b <? 194)%Z then None
  else if (b <? 224)%Z then Some (2, 128%Z, 191%Z)
  else if (b =? 224)%Z then Some (3, 160%Z, 191%Z)
  else if (b =? 237)%Z then Some (3, 128%Z, 159%Z)
  else if (b <? 240)%Z then Some (3, 128%Z, 191%Z)
  else if (b =? 240)%Z then Some (4, 144%Z, 191%Z)
  else if (b <? 244)%Z then Some (4, 128%Z, 191%Z)
  else if (b =? 244)%Z then Some (4, 128%Z, 143%Z)
  else None.

Definition in_range (lo b hi : Z) : bool := (lo <=? b)%Z && (b <=? hi)%Z.
Definition cont (b : Z) : bool := in_range 128 b 191.

(** [utf8.DecodeRuneInString]: the first rune and its width in bytes. *)
Definition DecodeRune (s : bytes) : Z * nat :=
  match s with
  | [] => (RuneError, 0)
  | c :: rest =>
      let b := bval c in
      if (b <? 128)%Z then (b, 1)
      else match first_byte b, rest with
      | Some (2, lo, hi), c1 :: _ =>
          if in_range lo (bval c1) hi
          then (((b - 192) * 64 + (bval c1 - 128))%Z, 2) else (RuneError, 1)
      | Some (3, lo, hi), c1 :: c2 :: _ =>
          if in_range lo (bval c1) hi && cont (bval c2)
          then ((((b - 224) * 64 + (bval c1 - 128)) * 64 + (bval c2 - 128))%Z, 3)
          else (RuneError, 1)
      | Some (4, lo, hi), c1 :: c2 :: c3 :: _ =>
          if in_range lo (bval c1) hi && cont (bval c2) && cont (bval c3)
          then (((((b - 240) * 64 + (bval c1 - 128)) * 64 + (bval c2 - 128)) * 64
                 + (bval c3 - 128))%Z, 4)
          else (RuneError, 1)
      | _, _ => (RuneError, 1)
      end
  end.

(** A code point that has an encoding. *)
Definition valid_rune (r : Z) : bool :=
  in_range 0 r 55295 || in_range 57344 r 1114111.

(** [string(r)] *)
Definition EncodeRune (r : Z) : bytes :=
  let r := if valid_rune r then r else RuneError in
  if (r <? 128)%Z then [byte_of r]
  else if (r <? 2048)%Z then [byte_of (192 + r / 64); byte_of (128 + r mod 64)]
  else if (r <? 65536)%Z then
    [byte_of (224 + r / 4096); byte_of (128 + (r / 64) mod 64); byte_of (128 + r mod 64)]
  else
    [byte_of (240 + r / 262144); byte_of (128 + (r / 4096) mod 64);
     byte_of (128 + (r / 64) mod 64); byte_of (128 + r mod 64)].

(** [[]rune(s)]; every round consumes at least one byte. *)
Fixpoint runes_fuel (fuel : nat) (s : bytes) : list Z :=
  match fuel, s with
  | S fuel, _ :: _ => let '(r, w) := DecodeRune s in r :: runes_fuel fuel (drop w s)
  | _, _ => []
  end.
Definition runes (s : bytes) : list Z := runes_fuel (length s) s.

(** [string(rs)] *)
Definition of_runes (rs : list Z) : bytes := rs ≫= EncodeRune.

(** What the scanner relies on: a rune is at least one byte wide, fits the
    input, and only a one-byte rune is below 128. *)
Lemma DecodeRune_cases s :
  match s with
  | [] => DecodeRune s = (RuneError, 0)
  | c :: rest =>
      ((bval c < 128)%Z ∧ DecodeRune s = (bval c, 1)) ∨
      (128 <= bval c)%Z ∧ (128 <= (DecodeRune s).1)%Z ∧ 1 <= (DecodeRune s).2 <= length s ∧
      Forall (λ d, (128 <= bval d)%Z) (take (DecodeRune s).2 s)
  end.
Proof.
  destruct s as [|c rest]; [done|]. unfold DecodeRune.
  destruct (Z.ltb_spec (bval c) 128); [auto|]. right. split; [done|].
  assert (128 <= RuneError)%Z as HRE by (unfold RuneError; lia).
  assert (∀ w r, 1 <= w → (128 <= r)%Z → w <= length (c :: rest) →
    Forall (λ d, (128 <= bval d)%Z) (take w (c :: rest)) →
    (128 <= (r, w).1)%Z ∧ 1 <= (r, w).2 <= length (c :: rest) ∧
    Forall (λ d, (128 <= bval d)%Z) (take (r, w).2 (c :: rest))) as Hok.
  { intros. simpl. auto. }
  assert (Forall (λ d, (128 <= bval d)%Z) (take 1 (c :: rest))) as H1.
  { simpl. rewrite take_0. by constructor. }
  pose proof (bval_range c) as Hc. unfold first_byte.
  repeat (case_match; simplify_eq/=; try (apply Hok; simpl; auto with lia; lia)).
  all: unfold in_range, cont in *; simpl.
  all: split_and!; try lia; try (rewrite ?take_0; repeat constructor; unfold in_range in *; lia).
Qed.

Lemma DecodeRune_width s : (DecodeRune s).2 <= 4.
Proof.
  destruct s as [|c rest]; simpl; [lia|]. case_match; simpl; [lia|].
  destruct (first_byte (bval c)) as [[[[|[|[|[|[|]]]]] lo] hi]|]; simpl; repeat case_match; simpl; lia.
Qed.

(** ** Character classes and case ([unicode]) *)

(** The Unicode tables beyond ASCII. *)
Class Unicode := {
  letterU : Z → bool; digitU : Z → bool; lowerU : Z → Z; upperU : Z → Z }.

(** Tables without any letter, digit or cased character beyond ASCII. *)
Definition ascii_only : Unicode :=
  {| letterU := λ _, false; digitU := λ _, false; lowerU := λ r, r; upperU := λ r, r |}.

Section unicode.
Context `{Unicode}.

Definition IsLetter (r : Z) : bool :=
  if (r <? 128)%Z then in_range 65 r 90 || in_range 97 r 122 else letterU r.
Definition IsDigit (r : Z) : bool :=
  if (r <? 128)%Z then in_range 48 r 57 else digitU r.
Definition ToLower (r : Z) : Z :=
  if (r <? 128)%Z then (if in_range 65 r 90 then r + 32 else r)%Z else lowerU r.
Definition ToUpper (r : Z) : Z :=
  if (r <? 128)%Z then (if in_range 97 r 122 then r - 32 else r)%Z else upperU r.

(** [strings.ToLower] and [strings.ToUpper] map rune by rune. *)
Definition strings_ToLower (s : bytes) : bytes := of_runes (ToLower <$> runes s).
Definition strings_ToUpper (s : bytes) : bytes := of_runes (ToUpper <$> runes s).
End unicode.

(** ** [strings] *)

Definition HasPrefix (s p : bytes) : bool := bool_decide (p `prefix_of` s).
Definition HasSuffix (s p : bytes) : bool := bool_decide (p `suffix_of` s).
Definition TrimPrefix (s p : bytes) : bytes := if HasPrefix s p then drop (length p) s else s.
Definition TrimSuffix (s p : bytes) : bytes :=
  if HasSuffix s p then take (length s - length p) s else s.

(** The position of the first occurrence of [p]. *)
Fixpoint strings_Index (s p : bytes) : option nat :=
  if HasPrefix s p then Some 0
  else match s with [] => None | _ :: s => S <$> strings_Index s p end.

(** The replacement loop of [strings.Replace]: [n] replacements at most; an
    empty [old] matches before every rune and at the end. *)
Fixpoint replace_loop (n : nat) (first : bool) (s old new : bytes) : bytes :=
  match n with
  | O => s
  | S n =>
      match old with
      | [] => let j := if first then 0 else (DecodeRune s).2 in
              take j s ++ new ++ replace_loop n false (drop j s) old new
      | _ => match strings_Index s old with
             | Some j => take j s ++ new ++ replace_loop n false (drop (j + length old) s) old new
             | None => s
             end
      end
  end.

(** [strings.Replace]; [None] stands for a negative count. *)
Definition strings_Replace (s old new : bytes) (n : option nat) : bytes :=
  if bool_decide (old = new) then s
  else
    let m := match old with [] => S (length (runes s)) | _ => length s end in
    replace_loop (match n with Some n => Nat.min n m | None => m end) true s old new.

(** ** [strconv] *)

Definition digit (d : Z) : ascii := byte_of (48 + d).

Fixpoint itoa_fuel (fuel : nat) (n : Z) : bytes :=
  match fuel with
  | O => []
  | S fuel => if (n <? 10)%Z then [digit n]
              else itoa_fuel fuel (n / 10) ++ [digit (n mod 10)]
  end.

(** [strconv.Itoa] of a non-negative number below [10^20]. *)
Definition Itoa (n : Z) : bytes := itoa_fuel 20 n.

Fixpoint digits_value (acc : Z) (s : bytes) : option Z :=
  match s with
  | [] => Some acc
  | c :: s => if in_range 48 (bval c) 57
              then digits_value (acc * 10 + (bval c - 48)) s else None
  end.

(** [strconv.Atoi]: an optional sign and at least one digit, within the range
    of a 64-bit integer. *)
Definition Atoi (s : bytes) : option Z :=
  let '(neg, ds) := match s with
                    | c :: r => if bool_decide (c = "-"%char) then (true, r)
                                else if bool_decide (c = "+"%char) then (false, r)
                                else (false, s)
                    | [] => (false, s)
                    end in
  match ds with
  | [] => None
  | _ => v ← digits_value 0 ds;
         let v := if neg : bool then (- v)%Z else v in
         if in_range (- 2 ^ 63) v (2 ^ 63 - 1) then Some v else None
  end.

(** ** The index of one byte *)

Lemma HasPrefix_one c s : HasPrefix s [c] = match s with d :: _ => bool_decide (c = d) | [] => false end.
Proof.
  unfold HasPrefix. destruct s as [|d s].
  - apply bool_decide_eq_false. by intros ?%prefix_nil_not.
  - apply bool_decide_ext. split; [by intros ?%prefix_cons_inv_1|]. intros ->. apply prefix_cons, prefix_nil.
Qed.

Lemma Index_absent c s : c ∉ s → strings_Index s [c] = None.
Proof.
  induction s as [|d s IH]; intros Hc; cbn [strings_Index]; rewrite HasPrefix_one; [done|].
  apply not_elem_of_cons in Hc as [Hd Hc]. rewrite bool_decide_false by done. by rewrite IH.
Qed.

Lemma Index_first c s t : c ∉ s → strings_Index (s ++ c :: t) [c] = Some (length s).
Proof.
  induction s as [|d s IH]; intros Hc; cbn [strings_Index app]; rewrite HasPrefix_one.
  - by rewrite bool_decide_true.
  - apply not_elem_of_cons in Hc as [Hd Hc]. rewrite bool_decide_false by done. by rewrite IH.
Qed.
