(* ===== verification/GoPath.v ===== *)
(** * Slash-separated paths ([path/filepath] on Unix)

    [filepath.Clean] and the functions built on it work on the elements of a
    path: empty and dot elements are dropped and a dot-dot element removes the
    one before it.  An absolute path means the list [comps] of its elements
    from the root, and [within] is containment of absolute paths. *)

From S2P Require Import Prelude Utf8.

(** ** [strings.Split] and [strings.Join] with a one-byte separator *)

Fixpoint strings_Split (s : bytes) (c : ascii) : list bytes :=
  match s with
  | [] => [[]]
  | d :: s =>
      if Ascii.eqb d c then [] :: strings_Split s c
      else match strings_Split s c with x :: l => (d :: x) :: l | [] => [[d]] end
  end.

Fixpoint strings_Join (l : list bytes) (c : ascii) : bytes :=
  match l with
  | [] => []
  | [x] => x
  | x :: l => x ++ c :: strings_Join l c
  end.

Definition strings_Contains (s p : bytes) : bool :=
  match strings_Index s p with Some _ => true | None => false end.

(** ** [path/filepath] *)

Definition sep : ascii := "/".
Definition dot : bytes := str ".".
Definition dotdot : bytes := str "..".

Definition IsAbs (p : bytes) : bool := HasPrefix p [sep].

(** One element of a path against the elements collected so far, last first. *)
Definition clean_step (rooted : bool) (st : list bytes) (e : bytes) : list bytes :=
  if bool_decide (e = []) || bool_decide (e = dot) then st
  else if bool_decide (e = dotdot) then
    match st with
    | top :: st' => if bool_decide (top = dotdot) then dotdot :: st else st'
    | [] => if rooted then [] else [dotdot]
    end
  else e :: st.

Definition clean_elems (rooted : bool) (p : bytes) : list bytes :=
  reverse (foldl (clean_step rooted) [] (strings_Split p sep)).

Definition render (rooted : bool) (l : list bytes) : bytes :=
  if rooted then sep :: strings_Join l sep
  else match l with [] => dot | _ => strings_Join l sep end.

Definition Clean (p : bytes) : bytes := render (IsAbs p) (clean_elems (IsAbs p) p).

(** [filepath.Join]: empty elements are left out. *)
Definition filepath_Join (l : list bytes) : bytes :=
  match filter (λ e, e ≠ []) l with
  | [] => []
  | l => Clean (strings_Join l sep)
  end.

(** [filepath.Dir]: the path up to and including the last separator, cleaned. *)
Definition filepath_Dir (p : bytes) : bytes :=
  match removelast (strings_Split p sep) with
  | [] => Clean []
  | l => Clean (strings_Join l sep ++ [sep])
  end.

(** [filepath.Ext]: from the last dot of the last element. *)
Fixpoint from_last_dot (s : bytes) : bytes :=
  match s with
  | [] => []
  | c :: s' => match from_last_dot s' with
               | [] => if Ascii.eqb c "." then s else []
               | e => e
               end
  end.
Definition filepath_Ext (p : bytes) : bytes := from_last_dot (default [] (last (strings_Split p sep))).

(** [filepath.Base]: the last element, without trailing separators. *)
Fixpoint drop_seps (s : bytes) : bytes :=
  match s with c :: s' => if Ascii.eqb c sep then drop_seps s' else s | [] => [] end.
Definition filepath_Base (p : bytes) : bytes :=
  match p with
  | [] => dot
  | _ => match default [] (last (strings_Split (List.rev (drop_seps (List.rev p))) sep)) with
         | [] => [sep]
         | b => b
         end
  end.

(** The elements of an absolute path. *)
Definition comps (p : bytes) : list bytes := clean_elems true p.

(** What is left of two lists after their common prefix. *)
Fixpoint strip_common (b t : list bytes) : list bytes * list bytes :=
  match b, t with
  | x :: b', y :: t' => if bool_decide (x = y) then strip_common b' t' else (b, t)
  | _, _ => (b, t)
  end.

(** [filepath.Rel] of two absolute paths, where it does not fail. *)
Definition Rel (base targ : bytes) : bytes :=
  let '(b, t) := strip_common (comps base) (comps targ) in
  render false (replicate (length b) dotdot ++ t).

(** The path [p] is the directory [root] or below it. *)
Definition within (root p : bytes) : Prop := comps root `prefix_of` comps p.

#[global] Instance within_dec root p : Decision (within root p).
Proof. unfold within. apply _. Defined.

Lemma within_refl p : within p p.
Proof. unfold within. done. Qed.

(** ** Splitting and joining *)

Lemma Split_cons s c : ∃ x l, strings_Split s c = x :: l.
Proof.
  induction s as [|d s (x & l & IH)]; simpl; [eauto|].
  destruct (Ascii.eqb d c); [eauto|]. rewrite IH. eauto.
Qed.

Lemma Split_app s t c :
  strings_Split (s ++ c :: t) c = strings_Split s c ++ strings_Split t c.
Proof.
  induction s as [|d s IH]; simpl; [by rewrite Ascii.eqb_refl|].
  destruct (Ascii.eqb d c); [by rewrite IH|]. rewrite IH.
  destruct (Split_cons s c) as (x & l & ->). done.
Qed.

Lemma Split_id s c : c ∉ s → strings_Split s c = [s].
Proof.
  induction s as [|d s IH]; intros Hc; simpl; [done|]. apply not_elem_of_cons in Hc as [Hd Hc].
  destruct (Ascii.eqb_spec d c); [congruence|]. by rewrite IH.
Qed.

Lemma Split_no_sep s c : Forall (λ x, c ∉ x) (strings_Split s c).
Proof.
  induction s as [|d s IH]; simpl; [repeat constructor; apply not_elem_of_nil|].
  destruct (Ascii.eqb_spec d c); [constructor; [apply not_elem_of_nil|done]|].
  destruct (Split_cons s c) as (x & l & E). rewrite E in *.
  apply Forall_cons in IH as [Hx Hl]. constructor; [|done]. apply not_elem_of_cons. auto.
Qed.

Lemma Join_Split s c : strings_Join (strings_Split s c) c = s.
Proof.
  induction s as [|d s IH]; simpl; [done|]. destruct (Split_cons s c) as (x & l & E).
  rewrite E in *. destruct (Ascii.eqb_spec d c) as [->|]; simpl in *; [by rewrite IH|].
  by destruct l; simpl in *; rewrite <- IH.
Qed.

Lemma Split_Join l c : l ≠ [] → Forall (λ x, c ∉ x) l → strings_Split (strings_Join l c) c = l.
Proof.
  intros Hne Hl. induction Hl as [|x l Hx Hl IH]; [done|]. destruct l as [|y l].
  - by apply Split_id.
  - change (strings_Join (x :: y :: l) c) with (x ++ c :: strings_Join (y :: l) c).
    rewrite Split_app, Split_id, IH by done. done.
Qed.

Lemma Join_app l1 l2 c :
  l1 ≠ [] → l2 ≠ [] → strings_Join (l1 ++ l2) c = strings_Join l1 c ++ c :: strings_Join l2 c.
Proof.
  intros H1 H2. induction l1 as [|x [|y l1] IH]; [done| |].
  - by destruct l2.
  - cbn [app strings_Join] in *. rewrite IH by done. by rewrite <- app_assoc.
Qed.

Lemma Index_app s p t : is_Some (strings_Index (s ++ p ++ t) p).
Proof.
  induction s as [|d s IH].
  - destruct (p ++ t) eqn:E; cbn [app strings_Index]; unfold HasPrefix;
      (rewrite bool_decide_true by (rewrite <- E; by eexists)); eauto.
  - cbn [app strings_Index]. destruct (HasPrefix _ _); [eauto|]. destruct IH as [i ->]. eauto.
Qed.

Lemma Contains_app s p t : strings_Contains (s ++ p ++ t) p = true.
Proof. unfold strings_Contains. by destruct (Index_app s p t) as [i ->]. Qed.

Lemma HasPrefix_true s p : HasPrefix s p = true ↔ ∃ t, s = p ++ t.
Proof. unfold HasPrefix. rewrite bool_decide_eq_true. done. Qed.

Lemma IsAbs_cons p : IsAbs p = true ↔ ∃ q, p = sep :: q.
Proof. apply HasPrefix_true. Qed.

(** ** Cleaning *)

(** An element that names something. *)
Definition proper (e : bytes) : Prop := e ≠ [] ∧ e ≠ dot ∧ e ≠ dotdot ∧ (sep ∉ e).

#[global] Instance proper_dec e : Decision (proper e).
Proof. unfold proper. apply _. Defined.

Lemma clean_step_proper r st e : proper e → clean_step r st e = e :: st.
Proof. intros (H1 & H2 & H3 & _). unfold clean_step. by rewrite !bool_decide_false. Qed.

Lemma clean_step_nil r st : clean_step r st [] = st.
Proof. done. Qed.

Lemma clean_proper r st l : Forall proper l → foldl (clean_step r) st l = reverse l ++ st.
Proof.
  intros Hl. revert st. induction Hl as [|e l He Hl IH]; intros st; simpl; [done|].
  by rewrite clean_step_proper, IH, reverse_cons, <- app_assoc by done.
Qed.

Lemma clean_step_rooted st e :
  Forall proper st → sep ∉ e → Forall proper (clean_step true st e).
Proof.
  intros Hst He. unfold clean_step. repeat case_bool_decide; simpl; try done.
  - destruct Hst as [|top st Ht Hst]; [done|]. rewrite bool_decide_false; [done|]. apply Ht.
  - constructor; [|done]. by split_and!.
Qed.

Lemma clean_rooted st l :
  Forall proper st → Forall (λ e, sep ∉ e) l → Forall proper (foldl (clean_step true) st l).
Proof.
  intros Hst Hl. revert st Hst. induction Hl as [|e l He Hl IH]; intros st Hst; simpl; [done|].
  by apply IH, clean_step_rooted.
Qed.

Lemma comps_proper p : Forall proper (comps p).
Proof. apply Forall_reverse, clean_rooted; [done|apply Split_no_sep]. Qed.

Lemma proper_no_sep l : Forall proper l → Forall (λ e, sep ∉ e) l.
Proof. intros Hl. eapply Forall_impl; [exact Hl|]. by intros e (_ & _ & _ & ?). Qed.

Lemma comps_cons p : comps (sep :: p) = comps p.
Proof. done. Qed.

Lemma comps_Join l : Forall proper l → comps (strings_Join l sep) = l.
Proof.
  intros Hl. unfold comps, clean_elems. destruct l as [|x l]; [done|].
  rewrite Split_Join by (done || by apply proper_no_sep).
  by rewrite clean_proper, app_nil_r, reverse_involutive by done.
Qed.

Lemma comps_render l : Forall proper l → comps (render true l) = l.
Proof. intros Hl. unfold render. by rewrite comps_cons, comps_Join. Qed.

Lemma Clean_abs p : IsAbs p = true → Clean p = render true (comps p).
Proof. unfold Clean, comps. by intros ->. Qed.

Lemma comps_Clean p : IsAbs p = true → comps (Clean p) = comps p.
Proof. intros Hp. rewrite Clean_abs by done. apply comps_render, comps_proper. Qed.

Lemma IsAbs_Clean p : IsAbs p = true → IsAbs (Clean p) = true.
Proof. intros Hp. rewrite Clean_abs by done. apply IsAbs_cons. by eexists. Qed.

(** The elements of any cleaned path are not empty. *)
Lemma clean_elems_word r p : Forall (λ e, e ≠ [] ∧ (sep ∉ e)) (clean_elems r p).
Proof.
  apply Forall_reverse. assert (Forall (λ e, e ≠ [] ∧ (sep ∉ e)) ([] : list bytes)) as Hst by done.
  revert Hst. generalize ([] : list bytes) as st.
  induction (Split_no_sep p sep) as [|e l He Hl IH]; intros st Hst; simpl; [done|]. apply IH.
  assert (∀ l', Forall (λ e, e ≠ [] ∧ (sep ∉ e)) l' → Forall (λ e, e ≠ [] ∧ (sep ∉ e)) (dotdot :: l'))
    as Hdd by (constructor; [split; [done|apply (bool_decide_unpack _); by vm_compute]|done]).
  unfold clean_step. repeat case_bool_decide; simpl; try done; [|by constructor].
  destruct Hst as [|top st Ht Hst]; [destruct r; auto|].
  case_bool_decide; [apply Hdd; by constructor|done].
Qed.

Lemma Clean_IsAbs p : IsAbs (Clean p) = IsAbs p.
Proof.
  destruct (IsAbs p) eqn:E; [by apply IsAbs_Clean|]. unfold Clean, render. rewrite E.
  pose proof (clean_elems_word false p) as Hw. destruct Hw as [|x l [Hx Hs] _]; [done|].
  apply not_true_iff_false. intros [q Hq]%IsAbs_cons. destruct x as [|c x]; [done|].
  assert (c = sep) as -> by (destruct l; simpl in Hq; congruence). by apply Hs; left.
Qed.

Lemma Clean_idemp p : IsAbs p = true → Clean (Clean p) = Clean p.
Proof.
  intros Hp. rewrite (Clean_abs (Clean p)), comps_Clean by by try apply IsAbs_Clean.
  by rewrite Clean_abs.
Qed.

(** Cleaned absolute paths are determined by their elements. *)
Lemma Clean_comps_inj p q :
  IsAbs p = true → IsAbs q = true → comps p = comps q → Clean p = Clean q.
Proof. intros Hp Hq E. by rewrite !Clean_abs, E. Qed.

(** ** Joining *)

(** Walking from a directory along the elements of a path. *)
Definition walk (d : list bytes) (l : list bytes) : list bytes :=
  reverse (foldl (clean_step true) (reverse d) l).

Lemma filepath_Join_abs d n :
  IsAbs d = true → n ≠ [] →
  IsAbs (filepath_Join [d; n]) = true ∧ Clean (filepath_Join [d; n]) = filepath_Join [d; n] ∧
  comps (filepath_Join [d; n]) = walk (comps d) (strings_Split n sep).
Proof.
  intros Hd Hn. assert (IsAbs (d ++ sep :: n) = true) as Ha.
  { apply IsAbs_cons in Hd as [q ->]. apply IsAbs_cons. by eexists. }
  assert (filepath_Join [d; n] = Clean (d ++ sep :: n)) as ->.
  { unfold filepath_Join. rewrite !filter_cons_True; [done|done|].
    intros ->. apply IsAbs_cons in Hd as [? ?]. done. }
  split_and!; [by apply IsAbs_Clean|by apply Clean_idemp|]. rewrite comps_Clean by done.
  unfold comps, clean_elems, walk. by rewrite Split_app, foldl_app, reverse_involutive.
Qed.

Lemma walk_proper d l : Forall proper l → walk d l = d ++ l.
Proof.
  intros Hl. unfold walk. rewrite clean_proper by done.
  by rewrite reverse_app, !reverse_involutive.
Qed.

Lemma walk_app d l1 l2 : walk d (l1 ++ l2) = walk (walk d l1) l2.
Proof. unfold walk. by rewrite foldl_app, reverse_involutive. Qed.

(** Without dot-dot elements a walk goes down. *)
Lemma walk_down d l :
  dotdot ∉ l → Forall (λ e, sep ∉ e) l →
  ∃ m, Forall proper m ∧ (∀ r st, foldl (clean_step r) st l = reverse m ++ st) ∧ walk d l = d ++ m.
Proof.
  intros Hdd Hl. assert (∃ m, Forall proper m ∧ ∀ r st, foldl (clean_step r) st l = reverse m ++ st)
    as (m & Hm & E).
  { induction Hl as [|e l He Hl IH]; [by exists []|]. apply not_elem_of_cons in Hdd as [Hde Hdd].
    destruct (IH Hdd) as (m & Hm & E). simpl.
    destruct (decide (e = [] ∨ e = dot)) as [Hs|Hs].
    - exists m. split; [done|]. intros r st. rewrite E. f_equal. unfold clean_step.
      destruct Hs as [-> | ->]; done.
    - assert (proper e) as Hp by (split_and!; naive_solver). exists (e :: m).
      split; [by constructor|]. intros r st.
      by rewrite E, clean_step_proper, reverse_cons, <- app_assoc. }
  exists m. split_and!; [done..|]. unfold walk. rewrite E.
  by rewrite reverse_app, !reverse_involutive.
Qed.

(** ** The parent directory *)

Lemma comps_Dir p :
  IsAbs p = true → Clean p = p →
  IsAbs (filepath_Dir p) = true ∧ Clean (filepath_Dir p) = filepath_Dir p ∧
  comps (filepath_Dir p) = removelast (comps p).
Proof.
  intros Ha Hc. pose proof (comps_proper p) as Hp.
  assert (p = sep :: strings_Join (comps p) sep) as E by (rewrite Clean_abs in Hc; done).
  assert (strings_Split p sep = [] :: strings_Split (strings_Join (comps p) sep) sep) as Es
    by by rewrite E at 1.
  assert (∀ q, IsAbs (sep :: q) = true) as Hq by (intros q; apply IsAbs_cons; by eexists).
  unfold filepath_Dir. rewrite Es. destruct (decide (comps p = [])) as [El|El].
  { rewrite El. split_and!; done. }
  rewrite Split_Join by (done || by apply proper_no_sep).
  assert (removelast ([] :: comps p) = [] :: removelast (comps p)) as -> by by destruct (comps p).
  assert (Forall proper (removelast (comps p))) as Hp'.
  { rewrite Forall_forall in *. intros y Hy. by apply Hp, elem_of_removelast. }
  assert (∃ q, strings_Join ([] :: removelast (comps p)) sep ++ [sep] = sep :: q ∧
               comps q = removelast (comps p)) as (q & -> & Hcq).
  { destruct (removelast (comps p)) as [|y m] eqn:Em; [by exists []|].
    exists (strings_Join (y :: m) sep ++ [sep]). split; [done|].
    unfold comps, clean_elems. rewrite Split_app, foldl_app.
    rewrite Split_Join by (done || by apply proper_no_sep).
    rewrite (clean_proper true [] (y :: m)) by done. cbn [strings_Split foldl].
    by rewrite clean_step_nil, app_nil_r, reverse_involutive. }
  split_and!; [by apply IsAbs_Clean|by apply Clean_idemp|]. by rewrite comps_Clean, comps_cons.
Qed.

(** ** Relative paths *)

Lemma strip_common_spec b t b' t' :
  strip_common b t = (b', t') →
  ∃ c, b = c ++ b' ∧ t = c ++ t' ∧
    match b', t' with x :: _, y :: _ => x ≠ y | _, _ => True end.
Proof.
  revert t. induction b as [|x b IH]; intros t; simpl.
  { intros [= <- <-]. by exists []. }
  destruct t as [|y t]; [intros [= <- <-]; by exists []|]. case_bool_decide as Hxy.
  - intros E. destruct (IH _ E) as (c & -> & -> & Hd). exists (x :: c). by rewrite Hxy.
  - intros [= <- <-]. by exists [].
Qed.

(** [p] is within [root] exactly if no dot-dot element remains. *)
Lemma Rel_within root p :
  within root p ↔ Rel root p ≠ dotdot ∧ HasPrefix (Rel root p) (dotdot ++ [sep]) = false.
Proof.
  unfold within, Rel. destruct (strip_common _ _) as [b t] eqn:E.
  apply strip_common_spec in E as (c & Eb & Et & Hd). rewrite Eb, Et.
  assert (Forall proper t) as Ht.
  { pose proof (comps_proper p) as Hp. rewrite Et in Hp. by apply Forall_app in Hp as [_ ?]. }
  destruct b as [|x b].
  - rewrite app_nil_r. cbn [replicate length app]. split; [intros _|intros _; by apply prefix_app_r].
    destruct Ht as [|e t He Ht]; [done|].
    assert (∃ q, render false (e :: t) = e ++ q ∧ (q = [] ∨ ∃ q', q = sep :: q')) as (q & -> & Hq).
    { destruct t; [exists []; by rewrite app_nil_r; auto|]. eexists. split; [done|]. eauto. }
    destruct He as (He & _ & Hdd & Hs).
    assert (strings_Split (e ++ q) sep = e :: match q with [] => [] | _ :: q' => strings_Split q' sep end) as Esp.
    { destruct Hq as [->|[q' ->]]; [by rewrite app_nil_r, Split_id|]. by rewrite Split_app, Split_id. }
    split.
    + intros Eq. rewrite Eq in Esp. by injection Esp as <-.
    + apply not_true_iff_false. intros [u Eu]%HasPrefix_true. rewrite Eu, <- app_assoc in Esp.
      cbn [app] in Esp. change (strings_Split (dotdot ++ sep :: u) sep) with (dotdot :: strings_Split u sep) in Esp.
      by injection Esp as <-.
  - split.
    + intros [k Ek]. rewrite <- app_assoc in Ek. apply app_inv_head in Ek. subst t. by destruct Hd.
    + intros [H1 H2]. exfalso. cbn [length replicate app] in *.
      destruct (replicate (length b) dotdot ++ t) as [|y m] eqn:Em; [done|].
      apply not_true_iff_false in H2. apply H2, HasPrefix_true. by eexists.
Qed.
