(* ===== verification/GoText.v ===== *)
(** * Text of the Go standard library: spaces, lines, base64, addresses

    [bytes.TrimSpace], [bufio.Scanner] by lines, [base64.StdEncoding] and
    [net.SplitHostPort]. *)

From S2P Require Import Prelude Utf8 GoPath.

(** ** [strings.TrimSpace], [bytes.TrimSpace] *)

(** The white space of [unicode.IsSpace], in UTF-8. *)
Definition spaces : list bytes :=
  EncodeRune <$> [9; 10; 11; 12; 13; 32; 133; 160; 5760; 8192; 8193; 8194; 8195; 8196; 8197; 8198; 8199;
                  8200; 8201; 8202; 8232; 8233; 8239; 8287; 12288]%Z.

(** The width of the white space that a string begins or ends with. *)
Definition space_before (s : bytes) : option nat :=
  length <$> head (filter (λ w, HasPrefix s w = true) spaces).
Definition space_after (s : bytes) : option nat :=
  length <$> head (filter (λ w, HasSuffix s w = true) spaces).

Fixpoint trim_before (fuel : nat) (s : bytes) : bytes :=
  match fuel with
  | 0 => s
  | S fuel => match space_before s with Some n => trim_before fuel (drop n s) | None => s end
  end.
Fixpoint trim_after (fuel : nat) (s : bytes) : bytes :=
  match fuel with
  | 0 => s
  | S fuel => match space_after s with Some n => trim_after fuel (take (length s - n) s) | None => s end
  end.
Definition strings_TrimSpace (s : bytes) : bytes :=
  let s := trim_before (length s) s in trim_after (length s) s.

Lemma space_before_cons c s : space_before (c :: s) = None → c ≠ " "%char ∧ c ≠ "009"%char.
Proof.
  unfold space_before. destruct (filter _ spaces) as [|w l] eqn:E; [|done]. intros _.
  assert (∀ w, w ∈ spaces → HasPrefix (c :: s) w = false) as Hno.
  { intros w Hw. destruct (HasPrefix (c :: s) w) eqn:Hp; [|done]. exfalso.
    assert (w ∈ filter (λ w, HasPrefix (c :: s) w = true) spaces) as Hin by by apply list_elem_of_filter.
    rewrite E in Hin. by apply elem_of_nil in Hin. }
  unfold HasPrefix in Hno. split; intros ->.
  - specialize (Hno [" "%char]). rewrite bool_decide_eq_false in Hno. apply Hno; [|by exists s].
    apply (bool_decide_unpack _). by vm_compute.
  - specialize (Hno ["009"%char]). rewrite bool_decide_eq_false in Hno. apply Hno; [|by exists s].
    apply (bool_decide_unpack _). by vm_compute.
Qed.

Lemma space_before_nil : space_before [] = None.
Proof. by vm_compute. Qed.

Lemma spaces_widths w : w ∈ spaces → 0 < length w.
Proof.
  intros Hw. assert (Forall (λ w, 0 < length w) spaces) as Hf by (apply (bool_decide_unpack _); by vm_compute).
  rewrite Forall_forall in Hf. auto.
Qed.

Lemma space_before_width s n : space_before s = Some n → 0 < n <= length s.
Proof.
  unfold space_before. intros (w & Hw & ->)%fmap_Some. apply head_Some_elem_of in Hw.
  apply list_elem_of_filter in Hw as [Hp Hw]. apply bool_decide_eq_true in Hp. apply prefix_length in Hp.
  split; [by apply spaces_widths|done].
Qed.
Lemma space_after_width s n : space_after s = Some n → 0 < n <= length s.
Proof.
  unfold space_after. intros (w & Hw & ->)%fmap_Some. apply head_Some_elem_of in Hw.
  apply list_elem_of_filter in Hw as [Hp Hw]. apply bool_decide_eq_true in Hp. apply suffix_length in Hp.
  split; [by apply spaces_widths|done].
Qed.

(** The fuel suffices: no space is left at the front. *)
Lemma trim_before_none fuel s : length s <= fuel → space_before (trim_before fuel s) = None.
Proof.
  revert s. induction fuel as [|fuel IH]; intros s Hs; cbn [trim_before].
  { destruct s; [apply space_before_nil|simpl in Hs; lia]. }
  destruct (space_before s) as [n|] eqn:E; [|done]. apply space_before_width in E.
  apply IH. rewrite length_drop. lia.
Qed.

Lemma trim_after_prefix fuel s : trim_after fuel s `prefix_of` s.
Proof.
  revert s. induction fuel as [|fuel IH]; intros s; cbn [trim_after]; [done|].
  destruct (space_after s); [|done]. etrans; [apply IH|]. apply prefix_take.
Qed.

(** What is left does not begin with a blank or a tab. *)
Lemma TrimSpace_head s c r : strings_TrimSpace s = c :: r → c ≠ " "%char ∧ c ≠ "009"%char.
Proof.
  unfold strings_TrimSpace. cbv zeta. intros E.
  pose proof (trim_before_none (length s) s (le_n _)) as Hn. set (u := trim_before (length s) s) in *.
  destruct (trim_after_prefix (length u) u) as [r' Hu]. rewrite E in Hu. rewrite Hu in Hn.
  by apply space_before_cons in Hn.
Qed.

(** A string without white space at its ends is left alone. *)
Lemma TrimSpace_id s : space_before s = None → space_after s = None → strings_TrimSpace s = s.
Proof.
  intros Hb Ha. unfold strings_TrimSpace. cbv zeta.
  assert (trim_before (length s) s = s) as -> by (destruct (length s); cbn [trim_before]; [done|by rewrite Hb]).
  destruct (length s); cbn [trim_after]; [done|]. by rewrite Ha.
Qed.

(** Bytes of printable ASCII characters are not part of white space. *)
Definition graphic (c : ascii) : Prop := (33 <= bval c <= 126)%Z.

Lemma graphic_not_space c w : graphic c → w ∈ spaces → c ∉ w.
Proof.
  intros Hc Hw Hin.
  assert (Forall (λ w, Forall (λ c, ~ (33 <= bval c <= 126)%Z) w) spaces) as Hf.
  { apply (bool_decide_unpack _). by vm_compute. }
  rewrite Forall_forall in Hf. specialize (Hf w Hw). rewrite Forall_forall in Hf. by apply (Hf c).
Qed.

Lemma space_before_graphic c s : graphic c → space_before (c :: s) = None.
Proof.
  intros Hc. unfold space_before. destruct (filter _ spaces) as [|w l] eqn:E; [done|]. exfalso.
  assert (w ∈ filter (λ w, HasPrefix (c :: s) w = true) spaces) as Hin by (rewrite E; left).
  apply list_elem_of_filter in Hin as [Hp Hw]. apply bool_decide_eq_true in Hp as [r Hr].
  pose proof (spaces_widths w Hw). destruct w as [|d w]; [simpl in *; lia|]. injection Hr as -> _.
  by apply (graphic_not_space d (d :: w)); [..|left].
Qed.

Lemma space_after_graphic c s : graphic c → space_after (s ++ [c]) = None.
Proof.
  intros Hc. unfold space_after. destruct (filter _ spaces) as [|w l] eqn:E; [done|]. exfalso.
  assert (w ∈ filter (λ w, HasSuffix (s ++ [c]) w = true) spaces) as Hin by (rewrite E; left).
  apply list_elem_of_filter in Hin as [Hp Hw]. apply bool_decide_eq_true in Hp as [r Hr].
  pose proof (spaces_widths w Hw). destruct w as [|d w _] using rev_ind; [simpl in *; lia|].
  rewrite app_assoc in Hr. apply app_inj_tail in Hr as [_ ->].
  apply (graphic_not_space d (w ++ [d])); [done..|]. apply elem_of_app. right. left.
Qed.

(** ** [bufio.Scanner] by lines *)

Definition MaxScanTokenSize : Z := 65536.
Definition newline : ascii := Ascii.ascii_of_nat 10.
Definition carriage_return : ascii := Ascii.ascii_of_nat 13.
Definition drop_cr (l : bytes) : bytes := TrimSuffix l [carriage_return].

(** A line of 64 KiB or more ends the scan with an error: the lines before it,
    and whether there was such a line. *)
Fixpoint scan_parts (parts : list bytes) : list bytes * bool :=
  match parts with
  | [] => ([], false)
  | l :: parts =>
      if (MaxScanTokenSize <=? Z.of_nat (length l))%Z then ([], true)
      else match l, parts with
           | [], [] => ([], false)
           | _, _ => let '(ls, long) := scan_parts parts in (drop_cr l :: ls, long)
           end
  end.
Definition scan_lines (content : bytes) : list bytes * bool := scan_parts (strings_Split content newline).

(** ** [base64.StdEncoding] *)

Definition b64_alphabet : bytes :=
  str "ABCDEFGHIJKLMNOPQRSTUVWXYZabcdefghijklmnopqrstuvwxyz0123456789+/".
Definition b64_char (v : Z) : ascii := default "A"%char (b64_alphabet !! Z.to_nat v).
Definition b64_val (c : ascii) : option Z :=
  let b := bval c in
  if in_range 65 b 90 then Some (b - 65)%Z
  else if in_range 97 b 122 then Some (b - 71)%Z
  else if in_range 48 b 57 then Some (b + 4)%Z
  else if (b =? 43)%Z then Some 62%Z
  else if (b =? 47)%Z then Some 63%Z
  else None.
Definition b64_pad : ascii := "=".

Fixpoint EncodeToString (s : bytes) : bytes :=
  match s with
  | [] => []
  | [a] =>
      let v := (bval a * 65536)%Z in [b64_char (v / 262144); b64_char (v / 4096 mod 64); b64_pad; b64_pad]
  | [a; b] =>
      let v := (bval a * 65536 + bval b * 256)%Z in
      [b64_char (v / 262144); b64_char (v / 4096 mod 64); b64_char (v / 64 mod 64); b64_pad]
  | a :: b :: c :: s =>
      let v := (bval a * 65536 + bval b * 256 + bval c)%Z in
      b64_char (v / 262144) :: b64_char (v / 4096 mod 64) :: b64_char (v / 64 mod 64) :: b64_char (v mod 64) ::
      EncodeToString s
  end.

(** Four characters at a time; only the last group may be padded, and the bits
    beyond the last byte are not looked at. *)
Fixpoint decode_groups (s : bytes) : option bytes :=
  match s with
  | [] => Some []
  | a :: b :: c :: d :: s =>
      match b64_val a, b64_val b with
      | Some a, Some b =>
          match b64_val c, b64_val d with
          | Some c, Some d =>
              let v := (a * 262144 + b * 4096 + c * 64 + d)%Z in
              r ← decode_groups s; Some (byte_of (v / 65536) :: byte_of (v / 256 mod 256) :: byte_of (v mod 256) :: r)
          | Some c, None =>
              let v := (a * 262144 + b * 4096 + c * 64)%Z in
              if Ascii.eqb d b64_pad && (length s =? 0)
              then Some [byte_of (v / 65536); byte_of (v / 256 mod 256)] else None
          | None, _ =>
              let v := (a * 262144 + b * 4096)%Z in
              if Ascii.eqb c b64_pad && Ascii.eqb d b64_pad && (length s =? 0)
              then Some [byte_of (v / 65536)] else None
          end
      | _, _ => None
      end
  | _ => None
  end.
(** Line ends are ignored. *)
Definition DecodeString (s : bytes) : option bytes :=
  decode_groups (filter (λ c, c ≠ newline ∧ c ≠ carriage_return) s).

Lemma b64_val_char v : (0 <= v < 64)%Z → b64_val (b64_char v) = Some v.
Proof.
  intros Hv. assert (Forall (λ n : nat, b64_val (b64_char (Z.of_nat n)) = Some (Z.of_nat n)) (seq 0 64)) as Hf.
  { apply (bool_decide_unpack _). by vm_compute. }
  rewrite Forall_forall in Hf. specialize (Hf (Z.to_nat v)). rewrite Z2Nat.id in Hf by lia.
  apply Hf. apply elem_of_seq. lia.
Qed.

Lemma b64_char_graphic v : graphic (b64_char v) ∧ b64_char v ≠ "|"%char ∧ b64_char v ≠ b64_pad ∧ b64_char v ≠ ","%char.
Proof.
  unfold b64_char. destruct (b64_alphabet !! Z.to_nat v) as [c|] eqn:E; [|by vm_compute].
  assert (Forall (λ c, (33 <= bval c <= 126)%Z ∧ c ≠ "|"%char ∧ c ≠ b64_pad ∧ c ≠ ","%char) b64_alphabet) as Hf.
  { apply (bool_decide_unpack _). by vm_compute. }
  rewrite Forall_forall in Hf. apply (Hf c). by eapply list_elem_of_lookup_2.
Qed.

(** Induction by three bytes. *)
Lemma triples_ind (P : bytes → Prop) :
  P [] → (∀ a, P [a]) → (∀ a b, P [a; b]) → (∀ a b c s, P s → P (a :: b :: c :: s)) → ∀ s, P s.
Proof.
  intros H0 H1 H2 H3 s. remember (length s) as n eqn:E. revert s E.
  induction n as [n IH] using (well_founded_induction lt_wf). intros s ->.
  destruct s as [|a [|b [|c s]]]; [done..|]. apply H3. eapply IH; [|done]. simpl. lia.
Qed.

Lemma Encode_graphic s : Forall (λ c, graphic c ∧ c ≠ "|"%char ∧ c ≠ ","%char) (EncodeToString s).
Proof.
  assert (∀ v, graphic (b64_char v) ∧ b64_char v ≠ "|"%char ∧ b64_char v ≠ ","%char) as Hc.
  { intros v. destruct (b64_char_graphic v) as (? & ? & ? & ?). done. }
  assert (graphic b64_pad ∧ b64_pad ≠ "|"%char ∧ b64_pad ≠ ","%char) as Hp by by vm_compute.
  induction s as [|a|a b|a b c s IH] using triples_ind; cbn [EncodeToString]; cbv zeta; repeat (constructor; [done|]); done.
Qed.

Lemma decode_group_arith a b c : (0 <= a < 256)%Z → (0 <= b < 256)%Z → (0 <= c < 256)%Z →
  let v := (a * 65536 + b * 256 + c)%Z in
  (0 <= v / 262144 < 64)%Z ∧ (0 <= v / 4096 mod 64 < 64)%Z ∧ (0 <= v / 64 mod 64 < 64)%Z ∧ (0 <= v mod 64 < 64)%Z ∧
  (v / 262144 * 262144 + v / 4096 mod 64 * 4096 + v / 64 mod 64 * 64 + v mod 64 = v)%Z.
Proof.
  intros Ha Hb Hc v. assert (0 <= v < 16777216)%Z as Hv by (unfold v; lia). clearbody v.
  split_and!; Z.to_euclidean_division_equations; lia.
Qed.

Lemma decode_bytes a b c : (0 <= a < 256)%Z → (0 <= b < 256)%Z → (0 <= c < 256)%Z →
  let v := (a * 65536 + b * 256 + c)%Z in (v / 65536 = a ∧ v / 256 mod 256 = b ∧ v mod 256 = c)%Z.
Proof. intros Ha Hb Hc v. unfold v. split_and!; Z.to_euclidean_division_equations; lia. Qed.

Lemma decode_encode s : decode_groups (EncodeToString s) = Some s.
Proof.
  induction s as [|a|a b|a b c s IH] using triples_ind; [done|..].
  - destruct (decode_group_arith (bval a) 0 0 (bval_range a)) as (H1 & H2 & _ & _ & Hv); [lia..|].
    destruct (decode_bytes (bval a) 0 0 (bval_range a)) as (Hb & _); [lia..|].
    cbn [EncodeToString decode_groups]. cbv zeta in *. rewrite !Z.mul_0_l, !Z.add_0_r in *.
    rewrite !b64_val_char by done. cbn [b64_val]. change (b64_val b64_pad) with (@None Z). cbv iota.
    replace (bval a * 65536 / 262144 * 262144 + (bval a * 65536 / 4096) mod 64 * 4096)%Z with (bval a * 65536)%Z.
    + cbn. by rewrite Hb, byte_of_bval.
    + Z.to_euclidean_division_equations; lia.
  - destruct (decode_group_arith (bval a) (bval b) 0 (bval_range a) (bval_range b)) as (H1 & H2 & H3 & _ & Hv); [lia..|].
    destruct (decode_bytes (bval a) (bval b) 0 (bval_range a) (bval_range b)) as (Ha & Hb & _); [lia..|].
    cbn [EncodeToString decode_groups]. cbv zeta in *. rewrite !Z.add_0_r in *.
    rewrite !b64_val_char by done. change (b64_val b64_pad) with (@None Z). cbv iota.
    replace ((bval a * 65536 + bval b * 256) / 262144 * 262144 + (bval a * 65536 + bval b * 256) / 4096 mod 64 * 4096 +
      (bval a * 65536 + bval b * 256) / 64 mod 64 * 64)%Z with (bval a * 65536 + bval b * 256)%Z.
    + cbn. by rewrite Ha, Hb, !byte_of_bval.
    + Z.to_euclidean_division_equations; lia.
  - destruct (decode_group_arith (bval a) (bval b) (bval c) (bval_range a) (bval_range b) (bval_range c)) as (H1 & H2 & H3 & H4 & Hv).
    destruct (decode_bytes (bval a) (bval b) (bval c) (bval_range a) (bval_range b) (bval_range c)) as (Ha & Hb & Hc).
    cbn [EncodeToString decode_groups]. cbv zeta in *. rewrite !b64_val_char by done. rewrite Hv, IH. cbn [mbind option_bind].
    by rewrite Ha, Hb, Hc, !byte_of_bval.
Qed.

Lemma filter_all {A} (P : A → Prop) `{!∀ x, Decision (P x)} l : Forall P l → filter P l = l.
Proof. induction 1 as [|x l Hx Hl IH]; [done|]. by rewrite filter_cons_True, IH. Qed.

(** Encoding and decoding. *)
Lemma DecodeString_Encode s : DecodeString (EncodeToString s) = Some s.
Proof.
  unfold DecodeString. rewrite filter_all; [apply decode_encode|].
  eapply Forall_impl; [apply Encode_graphic|]. intros c [[Hc _] _]. split; intros ->; by vm_compute in Hc.
Qed.

(** ** [net.SplitHostPort] *)

(** [bytealg.LastIndexByteString] and [IndexByteString], as what is before and
    after the byte. *)
Fixpoint cut_first (c : ascii) (s : bytes) : option (bytes * bytes) :=
  match s with
  | [] => None
  | d :: s => if Ascii.eqb d c then Some ([], s)
              else match cut_first c s with Some (a, b) => Some (d :: a, b) | None => None end
  end.
Fixpoint cut_last (c : ascii) (s : bytes) : option (bytes * bytes) :=
  match s with
  | [] => None
  | d :: s => match cut_last c s with
              | Some (a, b) => Some (d :: a, b)
              | None => if Ascii.eqb d c then Some ([], s) else None
              end
  end.
Definition has_byte (c : ascii) (s : bytes) : bool := bool_decide (c ∈ s).

(** The host and the port; [None] is the error.  In brackets, the first closing
    one stands right before the last colon. *)
Definition SplitHostPort (hostport : bytes) : option (bytes * bytes) :=
  match cut_last ":" hostport with
  | None => None
  | Some (before, port) =>
      match before with
      | "["%char :: before =>
          match cut_first "]" before with
          | Some (host, []) =>
              if has_byte "[" host || has_byte "[" port || has_byte "]" port then None else Some (host, port)
          | _ => None
          end
      | _ =>
          if has_byte ":" before || has_byte "[" hostport || has_byte "]" hostport then None
          else Some (before, port)
      end
  end.

Lemma cut_last_none c s : c ∉ s → cut_last c s = None.
Proof.
  induction s as [|d s IH]; intros Hc; cbn [cut_last]; [done|]. apply not_elem_of_cons in Hc as [Hd Hc].
  rewrite IH by done. destruct (Ascii.eqb_spec d c); congruence.
Qed.

Lemma cut_last_app c s t : c ∉ t → cut_last c (s ++ c :: t) = Some (s, t).
Proof.
  intros Hc. induction s as [|d s IH]; cbn [cut_last app]; [by rewrite cut_last_none, Ascii.eqb_refl|]. by rewrite IH.
Qed.

(** A host and a port without the characters that have a meaning. *)
Lemma SplitHostPort_plain host port :
  (∀ c, c ∈ host ++ port → c ≠ ":"%char ∧ c ≠ "["%char ∧ c ≠ "]"%char) →
  SplitHostPort (host ++ ":"%char :: port) = Some (host, port).
Proof.
  intros Hno. unfold SplitHostPort.
  assert (∀ c, c ∈ [":"; "["; "]"]%char → (c ∉ host) ∧ (c ∉ port)) as Hn.
  { intros c Hc. split; intros Hin; (destruct (Hno c) as (? & ? & ?); [apply elem_of_app; auto|]);
      rewrite !elem_of_cons, elem_of_nil in Hc; naive_solver. }
  destruct (Hn ":"%char) as [Hch Hcp]; [by left|]. destruct (Hn "["%char) as [Hbh Hbp]; [by right; left|].
  destruct (Hn "]"%char) as [Heh Hep]; [by do 2 right; left|]. rewrite cut_last_app by done.
  assert (has_byte ":" host || has_byte "[" (host ++ ":"%char :: port) || has_byte "]" (host ++ ":"%char :: port) = false) as Hf.
  { unfold has_byte. rewrite !bool_decide_eq_false_2; [done|..|done];
      rewrite elem_of_app, elem_of_cons; intros [?|[?|?]]; done. }
  rewrite Hf. destruct host as [|c host]; [done|]. apply not_elem_of_cons in Hbh as [Hc _]. clear -Hc.
  destruct c as [[] [] [] [] [] [] [] []]; first [reflexivity|by destruct Hc].
Qed.

(** ** Words separated by blanks *)

(** Text that begins and ends with a printable character. *)
Definition tight (s : bytes) : Prop :=
  (∃ c r, s = c :: r ∧ graphic c) ∧ (∃ r c, s = r ++ [c] ∧ graphic c).

Lemma tight_graphic s : s ≠ [] → Forall graphic s → tight s.
Proof.
  intros Hne Hs. split.
  - destruct s as [|c r]; [done|]. apply Forall_cons in Hs as [Hc _]. eauto.
  - destruct s as [|c r _] using rev_ind; [done|]. apply Forall_app in Hs as [_ [Hc _]%Forall_cons]. eauto.
Qed.

Lemma tight_app s m t : tight s → tight t → tight (s ++ m ++ t).
Proof.
  intros [(c & r & -> & Hc) _] [_ (r' & c' & -> & Hc')]. split; [by exists c, (r ++ m ++ r' ++ [c'])|].
  exists ((c :: r) ++ m ++ r'), c'. by rewrite !app_assoc.
Qed.

Lemma TrimSpace_tight s : tight s → strings_TrimSpace s = s.
Proof.
  intros [(c & r & E & Hc) (r' & c' & E' & Hc')].
  apply TrimSpace_id; [rewrite E; by apply space_before_graphic|rewrite E'; by apply space_after_graphic].
Qed.

Lemma space_before_blank s : space_before (" "%char :: s) = Some 1.
Proof.
  unfold space_before.
  assert ([" "%char] ∈ filter (λ w, HasPrefix (" "%char :: s) w = true) spaces) as Hin.
  { apply list_elem_of_filter. split; [apply bool_decide_eq_true; by exists s|]. apply (bool_decide_unpack _). by vm_compute. }
  assert (Forall (λ w, head w = Some " "%char → w = [" "%char]) spaces) as Hf by (apply (bool_decide_unpack _); by vm_compute).
  destruct (filter _ spaces) as [|w l] eqn:E; [by apply elem_of_nil in Hin|].
  assert (w ∈ filter (λ w, HasPrefix (" "%char :: s) w = true) spaces) as Hw by (rewrite E; left).
  apply list_elem_of_filter in Hw as [Hp Hw]. rewrite Forall_forall in Hf. cbn. f_equal.
  rewrite (Hf w Hw); [done|]. apply bool_decide_eq_true in Hp as [r Hr].
  pose proof (spaces_widths w Hw). destruct w; [simpl in *; lia|]. by injection Hr as <- _.
Qed.

Lemma TrimSpace_blank s : tight s → strings_TrimSpace (" "%char :: s) = s.
Proof.
  intros Ht. pose proof (TrimSpace_tight s Ht) as Hs. unfold strings_TrimSpace in *. cbv zeta in *.
  cbn [length trim_before]. rewrite space_before_blank. cbn [drop]. exact Hs.
Qed.

(** * URLs ([net/url])

    Of a parsed URL the scheme, the host and the text are used.  Parsing is a
    parameter of the code that needs it; taking a host apart is modelled. *)

Record URL := mkURL { u_Scheme : bytes; u_Host : bytes; u_String : bytes }.

(** A colon and digits, or nothing. *)
Definition validOptionalPort (port : bytes) : bool :=
  match port with
  | [] => true
  | c :: ds => Ascii.eqb c ":" && forallb (λ d, in_range 48 (bval d) 57) ds
  end.

(** The host without brackets and the port. *)
Definition splitHostPort (hostPort : bytes) : bytes * bytes :=
  let '(host, port) := match cut_last ":" hostPort with
                       | Some (h, p) => if validOptionalPort (":"%char :: p) then (h, p) else (hostPort, [])
                       | None => (hostPort, [])
                       end in
  if HasPrefix host (str "[") && HasSuffix host (str "]")
  then (drop 1 (take (length host - 1) host), port) else (host, port).

Definition Hostname (u : URL) : bytes := (splitHostPort (u_Host u)).1.
Definition Port (u : URL) : bytes := (splitHostPort (u_Host u)).2.

Lemma cut_last_sub c s a b : cut_last c s = Some (a, b) → s = a ++ c :: b.
Proof.
  revert a b. induction s as [|d s IH]; intros a b; cbn [cut_last]; [done|].
  destruct (cut_last c s) as [[x y]|].
  - intros [= <- <-]. by rewrite (IH x y).
  - destruct (Ascii.eqb_spec d c) as [->|]; [|done]. by intros [= <- <-].
Qed.

Lemma elem_of_take_sub {A} (x : A) n l : x ∈ take n l → x ∈ l.
Proof. intros (i & Hi & _)%elem_of_take. by eapply list_elem_of_lookup_2. Qed.

(** The bytes of a host name are bytes of the host. *)
Lemma Hostname_sub u c : c ∈ Hostname u → c ∈ u_Host u.
Proof.
  unfold Hostname, splitHostPort. destruct (cut_last ":" (u_Host u)) as [[h p]|] eqn:E.
  - apply cut_last_sub in E. assert (∀ x, x ∈ h → x ∈ u_Host u) as Hsub by (rewrite E; set_solver).
    destruct (validOptionalPort _); destruct (_ && _); cbn [fst]; try done; try apply Hsub;
      intros Hc%elem_of_drop%elem_of_take_sub; auto.
  - destruct (_ && _); cbn [fst]; [|done]. by intros Hc%elem_of_drop%elem_of_take_sub.
Qed.
