(* ===== verification/Sha256.v ===== *)
(** * SHA-256 ([crypto/sha256]) and the [%x] verb

    The digest of the Go standard library, as FIPS 180-4 defines it on words of
    32 bits.  The round constants are computed: they are the first 32 bits of
    the fractional parts of the cube and square roots of the first primes. *)

From S2P Require Import Prelude Utf8.

Local Open Scope Z_scope.

Definition w32 (x : Z) : Z := x mod 2 ^ 32.
Definition rotr (n x : Z) : Z := Z.lor (Z.shiftr x n) (w32 (Z.shiftl x (32 - n))).

(** ** Constants *)

(** The largest root between [lo] and [lo + 2^n - 1] whose cube is at most [z]. *)
Fixpoint cbrt_from (n : nat) (lo z : Z) : Z :=
  match n with
  | O => lo
  | S n => let mid := lo + 2 ^ Z.of_nat n in
           if mid ^ 3 <=? z then cbrt_from n mid z else cbrt_from n lo z
  end.
Definition is_prime (p : Z) : bool :=
  forallb (λ d, negb (p mod (Z.of_nat d) =? 0)) (seq 2 (Z.to_nat p - 2)).
Definition primes (bound : nat) : list Z :=
  filter (λ p, is_prime p = true) (Z.of_nat <$> seq 2 (bound - 1)).

Definition sha_K : list Z := Eval vm_compute in (λ p, w32 (cbrt_from 36 0 (p * 2 ^ 96))) <$> primes 311.
Definition sha_H : list Z := Eval vm_compute in (λ p, w32 (Z.sqrt (p * 2 ^ 64))) <$> primes 19.

(** ** Padding *)

Definition be_bytes (n : nat) (x : Z) : bytes :=
  (λ i, byte_of ((x / 2 ^ (8 * Z.of_nat (n - 1 - i))) mod 256)) <$> seq 0 n.
Definition be_word (b : bytes) : Z := foldl (λ a c, a * 256 + bval c) 0 b.

Definition pad (m : bytes) : bytes :=
  m ++ [byte_of 128] ++ replicate (Z.to_nat ((55 - Z.of_nat (length m)) mod 64)) (byte_of 0)
    ++ be_bytes 8 (8 * Z.of_nat (length m)).

Fixpoint words_of (n : nat) (b : bytes) : list Z :=
  match n with O => [] | S n => be_word (take 4 b) :: words_of n (drop 4 b) end.

(** ** The compression function *)

(** The message schedule, the latest word first. *)
Fixpoint schedule (n : nat) (rev_w : list Z) : list Z :=
  match n with
  | O => rev_w
  | S n =>
      let w i := nth i rev_w 0 in
      let s0 := Z.lxor (Z.lxor (rotr 7 (w 14%nat)) (rotr 18 (w 14%nat))) (Z.shiftr (w 14%nat) 3) in
      let s1 := Z.lxor (Z.lxor (rotr 17 (w 1%nat)) (rotr 19 (w 1%nat))) (Z.shiftr (w 1%nat) 10) in
      schedule n (w32 (s1 + w 6%nat + s0 + w 15%nat) :: rev_w)
  end.

Definition state8 : Type := Z * Z * Z * Z * Z * Z * Z * Z.

Definition round (s : state8) (kw : Z * Z) : state8 :=
  let '(a, b, c, d, e, f, g, h) := s in
  let s1 := Z.lxor (Z.lxor (rotr 6 e) (rotr 11 e)) (rotr 25 e) in
  let ch := Z.lxor (Z.land e f) (Z.land (Z.lxor e (2 ^ 32 - 1)) g) in
  let t1 := h + s1 + ch + kw.1 + kw.2 in
  let s0 := Z.lxor (Z.lxor (rotr 2 a) (rotr 13 a)) (rotr 22 a) in
  let maj := Z.lxor (Z.lxor (Z.land a b) (Z.land a c)) (Z.land b c) in
  (w32 (t1 + s0 + maj), a, b, c, w32 (d + t1), e, f, g).

Definition block (s : state8) (b : bytes) : state8 :=
  let w := rev (schedule 48 (rev (words_of 16 b))) in
  let '(a, b, c, d, e, f, g, h) := s in
  let '(a', b', c', d', e', f', g', h') := foldl round s (zip sha_K w) in
  (w32 (a + a'), w32 (b + b'), w32 (c + c'), w32 (d + d'),
   w32 (e + e'), w32 (f + f'), w32 (g + g'), w32 (h + h')).

Fixpoint blocks (fuel : nat) (s : state8) (m : bytes) : state8 :=
  match fuel, m with
  | S fuel, _ :: _ => blocks fuel (block s (take 64 m)) (drop 64 m)
  | _, _ => s
  end.

Definition sha_init : state8 :=
  let h i := nth i sha_H 0 in
  (h 0%nat, h 1%nat, h 2%nat, h 3%nat, h 4%nat, h 5%nat, h 6%nat, h 7%nat).

Definition sha256_Sum256 (m : bytes) : bytes :=
  let p := pad m in
  let '(a, b, c, d, e, f, g, h) := blocks (length p) sha_init p in
  [a; b; c; d; e; f; g; h] ≫= be_bytes 4.

(** ** [%x] of bytes *)

Definition hex_digit (d : Z) : ascii := byte_of (if d <? 10 then 48 + d else 87 + d).
Definition hex (b : bytes) : bytes := b ≫= λ c, [hex_digit (bval c / 16); hex_digit (bval c mod 16)].

Example sha256_abc :
  hex (sha256_Sum256 (str "abc")) = str "ba7816bf8f01cfea414140de5dae2223b00361a396177a9cb410ff61f20015ad".
Proof. by vm_compute. Qed.

Example sha256_empty :
  hex (sha256_Sum256 []) = str "e3b0c44298fc1c149afbf4c8996fb92427ae41e4649b934ca495991b7852b855".
Proof. by vm_compute. Qed.

(** Two blocks. *)
Example sha256_two_blocks :
  hex (sha256_Sum256 (str "abcdbcdecdefdefgefghfghighijhijkijkljklmklmnlmnomnopnopq"))
  = str "248d6a61d20638b8e5c026930c3e6039a33ce45964ff2167f6ecedd419db06c1".
Proof. by vm_compute. Qed.

(** ** What the keys of a cache need *)

Lemma hex_digit_lines d : 0 <= d < 16 → hex_digit d ≠ Ascii.ascii_of_nat 10.
Proof.
  intros Hd E. apply (f_equal bval) in E. unfold hex_digit in E.
  rewrite bval_byte_of in E by (destruct (Z.ltb_spec d 10); lia).
  change (bval (Ascii.ascii_of_nat 10)) with 10 in E. destruct (Z.ltb_spec d 10); lia.
Qed.

(** A hexadecimal string has no line break. *)
Lemma hex_lines b : Ascii.ascii_of_nat 10 ∉ hex b.
Proof.
  unfold hex. intros (c & Hc & _)%list_elem_of_bind. pose proof (bval_range c).
  rewrite !elem_of_cons, elem_of_nil in Hc. destruct Hc as [Hc|[Hc|[]]];
    symmetry in Hc; apply hex_digit_lines in Hc; try done.
  - split; [apply Z.div_pos; lia|apply Z.div_lt_upper_bound; lia].
  - apply Z.mod_pos_bound. lia.
Qed.
