(* ===== verification/Regexp.v ===== *)
(** * Regular expressions ([regexp])

    The part of Go's regular expressions that the repository uses.  A text is
    matched rune by rune; an expression that can match in several ways matches
    the way a backtracking search finds first, at the leftmost place, and the
    groups are read off that match.  [rel] says which matches there are, and
    [MatchString_spec] that the search finds one if and only if there is one. *)

From S2P Require Import Prelude Utf8.

(** ** Expressions *)

Inductive re :=
  | REps
  | RClass (f : Z → bool)
  | RSeq (a b : re)
  | RAlt (a b : re)
  (** greedy *)
  | RStar (a : re)
  | RGroup (n : nat) (a : re)
  | RBegin
  | REnd.

Definition RPlus (a : re) : re := RSeq a (RStar a).
Definition ROpt (a : re) : re := RAlt a REps.
(** [a{n,n+m}]: [n] copies and up to [m] more. *)
Fixpoint ROpts (m : nat) (a : re) : re := match m with O => REps | S m => ROpt (RSeq a (ROpts m a)) end.
Fixpoint RRep (n m : nat) (a : re) : re := match n with O => ROpts m a | S n => RSeq a (RRep n m a) end.
Fixpoint RSeqs (l : list re) : re := match l with [] => REps | [a] => a | a :: l => RSeq a (RSeqs l) end.
Fixpoint RAlts (a : re) (l : list re) : re := match l with [] => a | b :: l => RAlt a (RAlts b l) end.

(** *** Classes *)

Definition is_rune (c : ascii) (r : Z) : bool := (r =? bval c)%Z.
Definition one_of (s : string) (r : Z) : bool := existsb (λ c, is_rune c r) (str s).
Definition none_of (s : string) (r : Z) : bool := negb (one_of s r).
(** the dot: any rune but the line feed *)
Definition any_rune (r : Z) : bool := negb (r =? 10)%Z.
Definition digit_class (r : Z) : bool := in_range 48 r 57.
Definition alpha_class (r : Z) : bool := in_range 65 r 90 || in_range 97 r 122.
(** [\w] *)
Definition word_class (r : Z) : bool := digit_class r || alpha_class r || is_rune "_" r.

(** A literal, and a literal under [(?i)]: the runes that fold to the same one.
    The letters k and s have a third form. *)
Definition lit (s : string) : re := RSeqs ((λ c, RClass (is_rune c)) <$> str s).
Definition fold_is (c : ascii) (r : Z) : bool :=
  let lower x := if in_range 65 x 90 then (x + 32)%Z else x in
  let k := lower (bval c) in
  (lower r =? k)%Z || ((k =? 107)%Z && (r =? 8490)%Z) || ((k =? 115)%Z && (r =? 383)%Z).
Definition lit_fold (s : string) : re := RSeqs ((λ c, RClass (fold_is c)) <$> str s).

(** ** Texts *)

(** The runes of a text with the bytes they stand for. *)
Fixpoint chunks_fuel (fuel : nat) (s : bytes) : list (Z * bytes) :=
  match fuel, s with
  | S fuel, _ :: _ => let '(r, n) := DecodeRune s in (r, take n s) :: chunks_fuel fuel (drop n s)
  | _, _ => []
  end.
Definition chunks (s : bytes) : list (Z * bytes) := chunks_fuel (length s) s.
Definition unchunk (l : list (Z * bytes)) : bytes := l ≫= snd.

(** ** The search *)

Section matching.
Context {A : Type} (total : nat).
Abbreviation text := (list (Z * bytes)).
Abbreviation groups := (gmap nat bytes).

Definition orelse (x : option A) (y : option A) : option A := match x with Some _ => x | None => y end.

(** [mtch r s gs k]: matches [r] at [s] and goes on with [k] on the rest. *)
Fixpoint mtch (r : re) (s : text) (gs : groups) (k : text → groups → option A) : option A :=
  match r with
  | REps => k s gs
  | RClass f => match s with (c, _) :: s' => if f c then k s' gs else None | [] => None end
  | RSeq a b => mtch a s gs (λ s gs, mtch b s gs k)
  | RAlt a b => orelse (mtch a s gs k) (mtch b s gs k)
  | RStar a =>
      (fix loop (n : nat) (s : text) (gs : groups) : option A :=
         match n with
         | O => k s gs
         | S n => orelse (mtch a s gs (λ s' gs', if length s' <? length s then loop n s' gs' else None)) (k s gs)
         end) (length s) s gs
  | RGroup n a => mtch a s gs (λ s' gs', k s' (<[n := unchunk (take (length s - length s') s)]> gs'))
  | RBegin => if length s =? total then k s gs else None
  | REnd => match s with [] => k s gs | _ => None end
  end.
End matching.

(** The leftmost match: the first group is the text of the match. *)
Fixpoint find_from (total : nat) (r : re) (s : list (Z * bytes)) : option (gmap nat bytes) :=
  match mtch total (RGroup 0 r) s ∅ (λ _ gs, Some gs) with
  | Some gs => Some gs
  | None => match s with [] => None | _ :: s => find_from total r s end
  end.

(** [FindStringSubmatch]: the groups of the leftmost match; a group that takes
    no part is empty. *)
Definition FindStringSubmatch (r : re) (s : bytes) : option (nat → bytes) :=
  (λ gs n, default [] (gs !! n)) <$> find_from (length (chunks s)) r (chunks s).
Definition MatchString (r : re) (s : bytes) : bool :=
  match FindStringSubmatch r s with Some _ => true | None => false end.

(** ** What a match is *)

(** [rel r s s']: at the place where the rest of the text is [s], [r] can match
    so that [s'] is left. *)
Inductive rel (total : nat) : re → list (Z * bytes) → list (Z * bytes) → Prop :=
  | rel_eps s : rel total REps s s
  | rel_class f c b s : f c = true → rel total (RClass f) ((c, b) :: s) s
  | rel_seq a b s s1 s2 : rel total a s s1 → rel total b s1 s2 → rel total (RSeq a b) s s2
  | rel_alt_l a b s s1 : rel total a s s1 → rel total (RAlt a b) s s1
  | rel_alt_r a b s s1 : rel total b s s1 → rel total (RAlt a b) s s1
  | rel_star_nil a s : rel total (RStar a) s s
  | rel_star_cons a s s1 s2 : rel total a s s1 → rel total (RStar a) s1 s2 → rel total (RStar a) s s2
  | rel_group n a s s1 : rel total a s s1 → rel total (RGroup n a) s s1
  | rel_begin s : length s = total → rel total RBegin s s
  | rel_end : rel total REnd [] [].
#[local] Hint Constructors rel : core.

Lemma rel_suffix total r s s' : rel total r s s' → s' `suffix_of` s.
Proof.
  induction 1; try done; try by etrans.
  by exists [(c, b)].
Qed.

Lemma rel_length total r s s' : rel total r s s' → length s' <= length s.
Proof. by intros ?%rel_suffix%suffix_length. Qed.

(** What the search finds is a match. *)
Lemma mtch_sound {A} total r s gs k (x : A) :
  mtch total r s gs k = Some x → ∃ s' gs', rel total r s s' ∧ k s' gs' = Some x.
Proof.
  revert s gs k. induction r as [|f|a IHa b IHb|a IHa b IHb|a IH|n a IH| |]; intros s gs k; cbn [mtch].
  - eauto.
  - destruct s as [|[c b] s]; [done|]. destruct (f c) eqn:Hf; [|done]. eauto.
  - intros (s1 & gs1 & H1 & (s2 & gs2 & H2 & Hk)%IHb)%IHa. eauto 6.
  - destruct (mtch total a s gs k) as [y|] eqn:Ea; cbn [orelse].
    + intros [= ->]. apply IHa in Ea as (s' & gs' & Hr & Hk). eauto 6.
    + intros (s' & gs' & Hr & Hk)%IHb. eauto 6.
  - generalize (length s). intros n. revert s gs.
    induction n as [|n IHn]; intros s gs; [eauto|].
    destruct (mtch total a s gs _) as [y|] eqn:Ea; cbn [orelse]; [|eauto].
    intros [= ->]. apply IH in Ea as (s1 & gs1 & H1 & Hl). destruct (length s1 <? length s); [|done].
    apply IHn in Hl as (s2 & gs2 & H2 & Hk). eauto 6.
  - intros (s' & gs' & Hr & Hk)%IH. eauto 6.
  - destruct (Nat.eqb_spec (length s) total); [|done]. eauto.
  - destruct s; [|done]. eauto.
Qed.

(** If there is a match from which [k] can go on, the search finds one. *)
Lemma mtch_complete {A} total r s s' gs (k : list (Z * bytes) → gmap nat bytes → option A) :
  rel total r s s' → (∀ gs, is_Some (k s' gs)) → is_Some (mtch total r s gs k).
Proof.
  revert s s' gs k. induction r as [|f|a IHa b IHb|a IHa b IHb|a IH|n a IH| |]; intros s s' gs k Hr Hk; cbn [mtch].
  - inversion Hr; subst; auto.
  - inversion Hr as [|? c b ? Hf| | | | | | | |]; subst. rewrite Hf. auto.
  - inversion Hr as [| |? ? ? s1 ? H1 H2| | | | | | |]; subst. eapply IHa; [exact H1|]. intros gs'. by eapply IHb.
  - inversion Hr as [| | |? ? ? ? H1|? ? ? ? H1| | | | |]; subst.
    + destruct (IHa _ _ gs k H1 Hk) as [x ->]. by eexists.
    + destruct (mtch total a s gs k); cbn [orelse]; [by eexists|]. by eapply IHb.
  - assert (∀ n s gs, length s <= n → rel total (RStar a) s s' → is_Some
      ((fix loop (n : nat) (s : list (Z * bytes)) (gs : gmap nat bytes) : option A :=
         match n with
         | O => k s gs
         | S n => orelse (mtch total a s gs (λ s' gs', if length s' <? length s then loop n s' gs' else None)) (k s gs)
         end) n s gs)) as Hloop; [|by apply Hloop].
    clear s gs Hr. intros n s gs Hn Hr. remember (RStar a) as r eqn:Er. revert n gs Hn.
    induction Hr as [| | | | |a' s|a' s s1 s2 H1 _ H2 IH2| | |]; try done; intros n gs Hn; injection Er as ->.
    + destruct n; [auto|]. destruct (mtch total a s gs _); cbn [orelse]; [by eexists|auto].
    + destruct (Nat.lt_ge_cases (length s1) (length s)) as [Hlt|Hge].
      * destruct n as [|n]; [lia|].
        match goal with |- is_Some (orelse (mtch _ _ _ _ ?k') _) => destruct (IH s s1 gs k' H1) as [x ->] end; [|by eexists].
        intros gs'. rewrite (proj2 (Nat.ltb_lt _ _) Hlt). apply IH2; [done..|lia].
      * assert (s1 = s) as ->; [|by apply IH2].
        apply rel_suffix in H1 as [l ->]. rewrite length_app in Hge. destruct l; [done|cbn in Hge; lia].
  - inversion Hr; subst. eapply IH; [done|]. intros gs'. apply Hk.
  - inversion Hr; subst. rewrite Nat.eqb_refl. auto.
  - inversion Hr; subst. auto.
Qed.

Lemma find_from_spec total r s :
  is_Some (find_from total r s) ↔ ∃ s1 s2, s1 `suffix_of` s ∧ rel total r s1 s2.
Proof.
  induction s as [|c s IH]; cbn [find_from].
  - destruct (mtch total (RGroup 0 r) [] ∅ _) as [gs|] eqn:E.
    + split; [|by eexists]. intros _. apply mtch_sound in E as (s' & gs' & Hr & _). inversion Hr; subst. by exists [], s'.
    + split; [by intros [? ?]|]. intros (s1 & s2 & Hs & Hr). apply suffix_nil_inv in Hs as ->.
      destruct (mtch_complete total (RGroup 0 r) [] s2 ∅ (λ _ gs, Some gs)) as [x Hx]; [by constructor|by eexists|congruence].
  - destruct (mtch total (RGroup 0 r) (c :: s) ∅ _) as [gs|] eqn:E.
    + split; [|by eexists]. intros _. apply mtch_sound in E as (s' & gs' & Hr & _). inversion Hr; subst. by exists (c :: s), s'.
    + rewrite IH. split; intros (s1 & s2 & Hs & Hr).
      * exists s1, s2. split; [by apply suffix_cons_r|done].
      * exists s1, s2. split; [|done]. destruct s1 as [|d s1]; [apply suffix_nil|].
        apply suffix_cons_inv in Hs as [[= -> ->]|Hs]; [|done]. exfalso.
        destruct (mtch_complete total (RGroup 0 r) (c :: s) s2 ∅ (λ _ gs, Some gs)) as [x Hx]; [by constructor|by eexists|congruence].
Qed.

(** A text matches if and only if the expression can match at some place. *)
Lemma MatchString_spec r s :
  MatchString r s = true ↔ ∃ s1 s2, s1 `suffix_of` chunks s ∧ rel (length (chunks s)) r s1 s2.
Proof.
  rewrite <-find_from_spec. unfold MatchString, FindStringSubmatch. destruct (find_from _ _ _) as [gs|]; cbn.
  - split; [by eexists|done].
  - split; [done|by intros [? ?]].
Qed.

(** ** Expressions for whole texts *)

(** An expression that begins with [^] and ends with [$] matches the whole text. *)
Definition whole (r : re) : re := RSeq RBegin (RSeq r REnd).

Lemma whole_spec r s : MatchString (whole r) s = true ↔ rel (length (chunks s)) r (chunks s) [].
Proof.
  rewrite MatchString_spec. split.
  - intros (s1 & s2 & [l Hs] & Hr). inversion Hr as [| |? ? ? s1' ? Hb He| | | | | | |]; subst.
    inversion Hb; subst. inversion He as [| |? ? ? s2' ? Hr' Hend| | | | | | |]; subst. inversion Hend; subst.
    assert (l = []) as ->; [|rewrite Hs at 2; by rewrite app_nil_l].
    apply length_zero_iff_nil. apply (f_equal length) in Hs. rewrite length_app in Hs. lia.
  - intros Hr. exists (chunks s), []. split; [done|]. repeat (econstructor; eauto).
Qed.

(** Every rune of a text that an expression matches is in one of its classes. *)
Fixpoint classes (P : Z → Prop) (r : re) : Prop :=
  match r with
  | RClass f => ∀ c, f c = true → P c
  | RSeq a b | RAlt a b => classes P a ∧ classes P b
  | RStar a | RGroup _ a => classes P a
  | REps | RBegin | REnd => True
  end.

Lemma rel_classes (P : Z → Prop) total r s s' :
  classes P r → rel total r s s' → ∃ l, s = l ++ s' ∧ Forall (λ c, P c.1) l.
Proof.
  intros Hc Hr. revert Hc. induction Hr as [s|f c b s Hf|a b s s1 s2 _ IH1 _ IH2|a b s s1 _ IH|a b s s1 _ IH|a s
    |a s s1 s2 _ IH1 _ IH2|n a s s1 _ IH|s|]; cbn [classes]; intros Hc;
    try (exists []; split; [done|constructor]).
  - exists [(c, b)]. split; [done|]. repeat constructor. by apply Hc.
  - destruct Hc as [Ha Hb]. destruct (IH1 Ha) as (l1 & -> & H1), (IH2 Hb) as (l2 & -> & H2).
    exists (l1 ++ l2). rewrite app_assoc. split; [done|]. by apply Forall_app_2.
  - by apply IH, Hc.
  - by apply IH, Hc.
  - destruct (IH1 Hc) as (l1 & -> & H1), (IH2 Hc) as (l2 & -> & H2).
    exists (l1 ++ l2). rewrite app_assoc. split; [done|]. by apply Forall_app_2.
  - by apply IH.
Qed.

(** No class of the expression has the rune [c]. *)
Fixpoint avoids (c : Z) (r : re) : bool :=
  match r with
  | RClass f => negb (f c)
  | RSeq a b | RAlt a b => avoids c a && avoids c b
  | RStar a | RGroup _ a => avoids c a
  | REps | RBegin | REnd => true
  end.

Lemma avoids_classes c r : avoids c r = true → classes (λ x, x ≠ c) r.
Proof.
  induction r; cbn [avoids classes]; try done; try (intros [? ?]%andb_true_iff; auto).
  intros Hf x Hx ->. by rewrite Hx in Hf.
Qed.

(** An ASCII byte of a text is one of its runes. *)
Lemma chunks_ascii s c : (bval c < 128)%Z → c ∈ s → (bval c, [c]) ∈ chunks s.
Proof.
  intros Hc. unfold chunks. assert (length s <= length s) as Hn by done. revert Hn.
  generalize (length s) at 2 3. intros n. revert s.
  induction n as [|n IH]; intros s Hn Hin; destruct s as [|d s]; [by apply elem_of_nil in Hin|cbn in Hn; lia|
    by apply elem_of_nil in Hin|]. cbn [chunks_fuel].
  pose proof (DecodeRune_cases (d :: s)) as Hd. destruct (DecodeRune (d :: s)) as [r w]. cbn [fst snd] in Hd.
  destruct Hd as [[Hd [= -> ->]]|(Hd & _ & Hw & Hall)].
  - apply elem_of_cons in Hin as [->|Hin]; [left|right]. cbn. rewrite drop_0. apply IH; [cbn in Hn; lia|done].
  - right. rewrite <-(take_drop w (d :: s)) in Hin. apply elem_of_app in Hin as [Hin|Hin].
    + rewrite Forall_forall in Hall. apply Hall in Hin. lia.
    + apply IH; [rewrite length_drop; cbn in *; lia|done].
Qed.

(** A whole text that matches has no byte that the expression avoids. *)
Lemma whole_avoids r s c :
  MatchString (whole r) s = true → (bval c < 128)%Z → avoids (bval c) r = true → c ∉ s.
Proof.
  intros Hr%whole_spec Hc Ha%avoids_classes Hin. apply (rel_classes _ _ _ _ _ Ha) in Hr as (l & Hl & Hall).
  rewrite app_nil_r in Hl. apply (chunks_ascii s c Hc) in Hin. rewrite Hl in Hin.
  rewrite Forall_forall in Hall. by apply (Hall _ Hin).
Qed.

(** *** Groups *)

Lemma unchunk_chunks s : unchunk (chunks s) = s.
Proof.
  unfold chunks. assert (length s <= length s) as Hn by done. revert Hn. generalize (length s) at 2 3. intros n. revert s.
  induction n as [|n IH]; intros [|d s] Hn; cbn [chunks_fuel]; try done; [cbn in Hn; lia|].
  pose proof (DecodeRune_cases (d :: s)) as Hd. destruct (DecodeRune (d :: s)) as [r w]. cbn [fst snd] in Hd.
  assert (1 <= w) as Hw by (destruct Hd as [[_ [= _ ->]]|(_ & _ & ? & _)]; lia).
  unfold unchunk in *. cbn [mbind list_bind snd]. rewrite IH; [apply take_drop|]. rewrite length_drop. cbn in *. lia.
Qed.

(** The groups of a match hold bytes of the text. *)
Definition within_text (t : bytes) (gs : gmap nat bytes) : Prop := ∀ n b c, gs !! n = Some b → c ∈ b → c ∈ t.

Lemma unchunk_take (t : bytes) n s : (∀ c, c ∈ unchunk s → c ∈ t) → ∀ c, c ∈ unchunk (take n s) → c ∈ t.
Proof.
  intros Hs c Hc. apply Hs. unfold unchunk in *. rewrite <-(take_drop n s), bind_app. apply elem_of_app. by left.
Qed.

Lemma unchunk_suffix (t : bytes) s s' : s' `suffix_of` s → (∀ c, c ∈ unchunk s → c ∈ t) → ∀ c, c ∈ unchunk s' → c ∈ t.
Proof. intros [l ->] Hs c Hc. apply Hs. unfold unchunk in *. rewrite bind_app. apply elem_of_app. by right. Qed.

Lemma mtch_groups {A} (t : bytes) total r s gs k (x : A) :
  (∀ c, c ∈ unchunk s → c ∈ t) → within_text t gs → mtch total r s gs k = Some x →
  ∃ s' gs', s' `suffix_of` s ∧ within_text t gs' ∧ k s' gs' = Some x.
Proof.
  revert s gs k. induction r as [|f|a IHa b IHb|a IHa b IHb|a IH|n a IH| |]; intros s gs k Hs Hg; cbn [mtch].
  - eauto.
  - destruct s as [|[c b] s]; [done|]. destruct (f c); [|done]. intros Hk. exists s, gs. split_and!; [by exists [(c, b)]|done..].
  - intros (s1 & gs1 & H1 & Hg1 & Hk1)%IHa; [|done..].
    apply IHb in Hk1 as (s2 & gs2 & H2 & Hg2 & Hk); [|by apply (unchunk_suffix t s)|done].
    exists s2, gs2. split; [by etrans|done].
  - destruct (mtch total a s gs k) as [y|] eqn:Ea; cbn [orelse]; [|by apply IHb].
    intros [= ->]. by apply IHa in Ea.
  - generalize (length s) at 1. intros n. revert s gs Hs Hg. induction n as [|n IHn]; intros s gs Hs Hg; [eauto|].
    destruct (mtch total a s gs _) as [y|] eqn:Ea; cbn [orelse]; [|eauto].
    intros [= ->]. apply IH in Ea as (s1 & gs1 & H1 & Hg1 & Hl); [|done..]. destruct (length s1 <? length s); [|done].
    apply IHn in Hl as (s2 & gs2 & H2 & Hg2 & Hk); [|by apply (unchunk_suffix t s)|done].
    exists s2, gs2. split; [by etrans|done].
  - intros (s' & gs' & H1 & Hg' & Hk)%IH; [|done..]. exists s'. eexists. split_and!; [done| |exact Hk].
    intros m b c [[-> <-]|[_ Hm]]%lookup_insert_Some Hc; [|by apply (Hg' m b)]. by apply (unchunk_take t _ s) in Hc.
  - destruct (_ =? _); [|done]. eauto.
  - destruct s; [|done]. eauto.
Qed.

Lemma FindStringSubmatch_sub r s m n c : FindStringSubmatch r s = Some m → c ∈ m n → c ∈ s.
Proof.
  unfold FindStringSubmatch. intros (gs & Hgs & ->)%fmap_Some.
  assert (within_text s gs) as Hw.
  { revert Hgs. assert (∀ c, c ∈ unchunk (chunks s) → c ∈ s) as Hin by (by rewrite unchunk_chunks).
    revert Hin. generalize (length (chunks s)). intros total. generalize (chunks s) as l.
    induction l as [|d l IH]; intros Hin; cbn [find_from];
      (destruct (mtch total (RGroup 0 r) _ ∅ _) as [gs'|] eqn:E;
        [intros [= ->]; apply (mtch_groups s) in E as (s' & gs' & _ & Hw & [= <-]); [done|done|];
         intros n' b' c' Hn'; by rewrite lookup_empty in Hn'|]); [done|].
    apply IH. intros c' Hc'. apply Hin. unfold unchunk in *. cbn. apply elem_of_app. by right. }
  intros Hc. destruct (gs !! n) as [b|] eqn:En; [by apply (Hw n b)|by apply elem_of_nil in Hc].
Qed.
