(* ===== verification/EnvScan.v ===== *)
(** * The envsubst scanner ([envsubst/parse/scan.go])

    The scanner works on a byte buffer with absolute positions, decodes one
    rune at a time and removes escape characters from the buffer in place.
    Slices of the buffer out of range are panics, and the token loop takes
    fuel; the parser's totality theorem shows that neither happens. *)

From S2P Require Import Prelude Utf8.

(** ** The code *)

(** The errors of the parser.
    [src/envsubst/parse/parse.go:27-45 ErrBadSubstitution] *)
Inductive parseError :=
  | ErrBadSubstitution
  | ErrMissingClosingBrace
  | ErrParseVariableName
  | ErrParseFuncSubstitution
  | ErrParseDefaultFunction.

(** How a piece of code ends: a result, an error value, a panic, or out of
    the fuel that bounds its loops. *)
Inductive outcome (A : Type) :=
  | Ok (a : A)
  | Err (e : parseError)
  | Panic
  | NoFuel.
Arguments Ok {A} a.
Arguments Err {A} e.
Arguments Panic {A}.
Arguments NoFuel {A}.

#[global] Instance outcome_ret : MRet outcome := λ A a, Ok a.
#[global] Instance outcome_bind : MBind outcome := λ A B f m,
  match m with Ok a => f a | Err e => Err e | Panic => Panic | NoFuel => NoFuel end.

(** [src/envsubst/parse/scan.go:31-47 token] *)
Inductive token := tokenIllegal | tokenEOF | tokenIdent | tokenLbrack | tokenRbrack | tokenQuote.

(** Mode bits.
    [src/envsubst/parse/scan.go:49-55 scanIdent] *)
Definition scanIdent : Z := 1.
(** [src/envsubst/parse/scan.go:49-55 scanLbrack] *)
Definition scanLbrack : Z := 2.
(** [src/envsubst/parse/scan.go:49-55 scanRbrack] *)
Definition scanRbrack : Z := 4.
(** [src/envsubst/parse/scan.go:49-55 scanEscape] *)
Definition scanEscape : Z := 8.

(** Escape bits.
    [src/envsubst/parse/scan.go:57-62 dollar] *)
Definition dollar : Z := 1.
(** [src/envsubst/parse/scan.go:57-62 backslash] *)
Definition backslash : Z := 2.
(** [src/envsubst/parse/scan.go:57-62 escapeAll] *)
Definition escapeAll : Z := Z.lor dollar backslash.

(** [src/envsubst/parse/scan.go:28-29 eof] *)
Definition eof : Z := 0.

(** [src/envsubst/parse/scan.go:64-65 acceptFunc] *)
Definition acceptFunc : Type := Z → nat → bool.

(** [src/envsubst/parse/scan.go:67-78 scanner] *)
Record scanner := mkScanner {
  buf : bytes;
  pos : nat;
  start : nat;
  width : nat;
  mode : Z;
  escapeChars : Z;
  accept : acceptFunc }.

Definition set_pos (s : scanner) (p w : nat) : scanner :=
  mkScanner (buf s) p (start s) w (mode s) (escapeChars s) (accept s).
Definition set_start (s : scanner) (i : nat) : scanner :=
  mkScanner (buf s) (pos s) i (width s) (mode s) (escapeChars s) (accept s).
Definition set_buf (s : scanner) (b : bytes) : scanner :=
  mkScanner b (pos s) (start s) (width s) (mode s) (escapeChars s) (accept s).
Definition set_mode (s : scanner) (m : Z) : scanner :=
  mkScanner (buf s) (pos s) (start s) (width s) m (escapeChars s) (accept s).
Definition set_accept (s : scanner) (f : acceptFunc) : scanner :=
  mkScanner (buf s) (pos s) (start s) (width s) (mode s) (escapeChars s) f.
Definition set_escape (s : scanner) (e : Z) : scanner :=
  mkScanner (buf s) (pos s) (start s) (width s) (mode s) e (accept s).

Definition has_bit (m b : Z) : bool := negb (Z.land m b =? 0)%Z.

(** The slice expression [b[i:j]]. *)
Definition slice (b : bytes) (i j : nat) : outcome bytes :=
  if (i <=? j) && (j <=? length b) then Ok (take (j - i) (drop i b)) else Panic.

(** [src/envsubst/parse/scan.go:80-87 scanner.init]
    The mode and the escape bits are kept. *)
Definition scanner_init (s : scanner) (b : bytes) : scanner :=
  mkScanner b 0 0 0 (mode s) (escapeChars s) (λ _ _, false).

(** [src/envsubst/parse/scan.go:89-100 scanner.read] *)
Definition scanner_read (s : scanner) : Z * scanner :=
  if length (buf s) <=? pos s then (eof, set_pos s (pos s) 0)
  else let '(r, w) := DecodeRune (drop (pos s) (buf s)) in
       (r, set_pos s (pos s + w) w).

(** The position is at least the width of the last rune whenever the code goes
    back (it has read that rune), so the difference on [nat] is that on [int].
    [src/envsubst/parse/scan.go:102-104 scanner.unread] *)
Definition scanner_unread (s : scanner) : scanner :=
  set_pos s (pos s - width s) (width s).

(** [src/envsubst/parse/scan.go:106-112 scanner.skip] *)
Definition scanner_skip (s : scanner) : outcome scanner :=
  if pos s =? 0 then Panic
  else
    l ← slice (buf s) 0 (pos s - 1);
    r ← slice (buf s) (pos s) (length (buf s));
    Ok (set_buf s (l ++ r)).

(** [src/envsubst/parse/scan.go:114-121 scanner.peek] *)
Definition scanner_peek (s : scanner) : Z * scanner :=
  let '(r, s1) := scanner_read s in (r, scanner_unread s1).

(** [src/envsubst/parse/scan.go:123-127 scanner.string] *)
Definition scanner_string (s : scanner) : outcome bytes := slice (buf s) (start s) (pos s).

(** [src/envsubst/parse/scan.go:129-132 scanner.shouldEscape] *)
Definition shouldEscape (s : scanner) (character : Z) : bool :=
  has_bit (escapeChars s) character.

(** Runes of ASCII characters. *)
Definition chr (c : ascii) : Z := bval c.

(** [src/envsubst/parse/scan.go:187-200 scanner.scanLbrack] *)
Definition scanner_scanLbrack (s : scanner) (r : Z) : bool * scanner :=
  if negb (has_bit (mode s) scanLbrack) then (false, s)
  else if (r =? chr "$")%Z then
    let '(r2, s1) := scanner_read s in
    if (r2 =? chr "{")%Z then (true, s1) else (false, scanner_unread s1)
  else (false, s).

(** [src/envsubst/parse/scan.go:202-209 scanner.scanRbrack] *)
Definition scanner_scanRbrack (s : scanner) (r : Z) : bool :=
  if negb (has_bit (mode s) scanRbrack) then false else (r =? chr "}")%Z.

(** [src/envsubst/parse/scan.go:211-232 scanner.scanEscaped] *)
Definition scanner_scanEscaped (s : scanner) (r : Z) : bool * scanner :=
  if negb (has_bit (mode s) scanEscape) then (false, s)
  else
    let '(hit, s1) :=
      if (r =? chr "$")%Z && shouldEscape s dollar then
        let '(r2, s1) := scanner_peek s in ((r2 =? chr "$")%Z, s1)
      else (false, s) in
    if hit then (true, s1)
    else if (r =? chr "\")%Z && shouldEscape s1 backslash then
      let '(r2, s2) := scanner_peek s1 in
      ((r2 =? chr "/")%Z || (r2 =? chr "\")%Z, s2)
    else (false, s1).

(** The loop of [scanIdent].
    [src/envsubst/parse/scan.go:163-183 scanner.scanIdent] *)
Fixpoint scanIdent_loop (fuel : nat) (s : scanner) : outcome scanner :=
  match fuel with
  | O => NoFuel
  | S fuel =>
      let '(r, s1) := scanner_read s in
      if (r =? eof)%Z then Ok (scanner_unread s1)
      else
        let '(lb, s2) := scanner_scanLbrack s1 r in
        if lb then Ok (scanner_unread (scanner_unread s2))
        else
          let '(esc, s3) := scanner_scanEscaped s2 r in
          if esc then s4 ← scanner_skip s3; scanIdent_loop fuel s4
          else if negb (accept s3 r (pos s3 - start s3)) then Ok (scanner_unread s3)
          else scanIdent_loop fuel s3
  end.

(** [src/envsubst/parse/scan.go:152-185 scanner.scanIdent] *)
Definition scanner_scanIdent (s : scanner) (r : Z) : outcome (bool * scanner) :=
  if negb (has_bit (mode s) scanIdent) then Ok (false, s)
  else
    let '(esc, s1) := scanner_scanEscaped s r in
    if esc then
      s2 ← scanner_skip s1;
      s3 ← scanIdent_loop (S (length (buf s2))) s2; Ok (true, s3)
    else if negb (accept s1 r (pos s1 - start s1)) then Ok (false, s1)
    else s3 ← scanIdent_loop (S (length (buf s1))) s1; Ok (true, s3).

(** [src/envsubst/parse/scan.go:134-150 scanner.scan] *)
Definition scanner_scan (s : scanner) : outcome (token * scanner) :=
  let s0 := set_start s (pos s) in
  let '(r, s1) := scanner_read s0 in
  if (r =? eof)%Z then Ok (tokenEOF, s1)
  else
    let '(lb, s2) := scanner_scanLbrack s1 r in
    if lb then Ok (tokenLbrack, s2)
    else if scanner_scanRbrack s2 r then Ok (tokenRbrack, s2)
    else
      '(id, s3) ← scanner_scanIdent s2 r;
      if id : bool then Ok (tokenIdent, s3) else Ok (tokenIllegal, s3).

(** ** The accept functions *)

Section accept.
Context `{Unicode}.

(** [src/envsubst/parse/scan.go:238-240 acceptRune] *)
Definition acceptRune : acceptFunc := λ r i, true.
(** [src/envsubst/parse/scan.go:242-244 acceptIdent] *)
Definition acceptIdent : acceptFunc := λ r i, IsLetter r || IsDigit r || (r =? chr "_")%Z.
(** [src/envsubst/parse/scan.go:246-248 acceptColon] *)
Definition acceptColon : acceptFunc := λ r i, (r =? chr ":")%Z.
(** [src/envsubst/parse/scan.go:250-252 acceptOneHash] *)
Definition acceptOneHash : acceptFunc := λ r i, (r =? chr "#")%Z && (i =? 1).
(** [src/envsubst/parse/scan.go:254-256 acceptNone] *)
Definition acceptNone : acceptFunc := λ r i, false.
(** [src/envsubst/parse/scan.go:258-260 acceptNotClosing] *)
Definition acceptNotClosing : acceptFunc := λ r i, negb (r =? chr "}")%Z.
(** [src/envsubst/parse/scan.go:262-264 acceptHashFunc] *)
Definition acceptHashFunc : acceptFunc := λ r i, (r =? chr "#")%Z && (i <? 3).
(** [src/envsubst/parse/scan.go:266-268 acceptPercentFunc] *)
Definition acceptPercentFunc : acceptFunc := λ r i, (r =? chr "%")%Z && (i <? 3).
(** [src/envsubst/parse/scan.go:270-279 acceptDefaultFunc] *)
Definition acceptDefaultFunc : acceptFunc := λ r i,
  if (i =? 1) && (r =? chr ":")%Z then true
  else (i =? 2) && ((r =? chr "=")%Z || (r =? chr "-")%Z || (r =? chr "?")%Z || (r =? chr "+")%Z).
(** [src/envsubst/parse/scan.go:281-290 acceptReplaceFunc] *)
Definition acceptReplaceFunc : acceptFunc := λ r i,
  if (i =? 1) && (r =? chr "/")%Z then true
  else (i =? 2) && ((r =? chr "/")%Z || (r =? chr "#")%Z || (r =? chr "%")%Z).
(** [src/envsubst/parse/scan.go:292-294 acceptOneEqual] *)
Definition acceptOneEqual : acceptFunc := λ r i, (i =? 1) && (r =? chr "=")%Z.
(** [src/envsubst/parse/scan.go:296-298 acceptOneColon] *)
Definition acceptOneColon : acceptFunc := λ r i, (i =? 1) && (r =? chr ":")%Z.
(** [src/envsubst/parse/scan.go:300-302 rejectColonClose] *)
Definition rejectColonClose : acceptFunc := λ r i,
  negb (r =? chr ":")%Z && negb (r =? chr "}")%Z.
(** [src/envsubst/parse/scan.go:304-306 acceptSlash] *)
Definition acceptSlash : acceptFunc := λ r i, (r =? chr "/")%Z.
(** [src/envsubst/parse/scan.go:308-310 acceptNotSlash] *)
Definition acceptNotSlash : acceptFunc := λ r i, negb (r =? chr "/")%Z.
(** [src/envsubst/parse/scan.go:312-314 acceptCasingFunc] *)
Definition acceptCasingFunc : acceptFunc := λ r i,
  ((r =? chr ",")%Z || (r =? chr "^")%Z) && (i <? 3).
End accept.

(** ** Positions stay in range *)

(** The token lies within the buffer. *)
Definition wf (s : scanner) : Prop := start s <= pos s <= length (buf s).
(** The bytes still to be scanned. *)
Definition rem (s : scanner) : nat := length (buf s) - pos s.

(** The settings of the scanner, which scanning never changes. *)
Definition same_settings (s s' : scanner) : Prop :=
  mode s' = mode s ∧ escapeChars s' = escapeChars s ∧ accept s' = accept s.

#[global] Instance same_settings_preorder : PreOrder same_settings.
Proof. split; [done|]. intros s1 s2 s3 (? & ? & ?) (? & ? & ?). split_and!; congruence. Qed.

(** When the scanner looks one rune ahead, it does so on runes that the
    accept function takes: a rejected rune is always the last one read. *)
Definition accept_ok (s : scanner) : Prop :=
  has_bit (mode s) scanLbrack || has_bit (mode s) scanEscape = true →
  ∀ i, accept s (chr "$") i = true ∧ accept s (chr "\") i = true.

Lemma accept_ok_settings s s' : same_settings s s' → accept_ok s → accept_ok s'.
Proof. intros (Em & _ & Ea). unfold accept_ok. by rewrite Em, Ea. Qed.

Lemma read_pos s r s1 :
  pos s <= length (buf s) → scanner_read s = (r, s1) →
  buf s1 = buf s ∧ start s1 = start s ∧ same_settings s s1 ∧
  pos s1 = pos s + width s1 ∧ pos s1 <= length (buf s) ∧
  (r ≠ eof → 1 <= width s1) ∧ ((0 < r < 128)%Z → width s1 = 1).
Proof.
  intros Hp. unfold scanner_read. destruct (Nat.leb_spec (length (buf s)) (pos s)).
  { intros [= <- <-]. simpl. unfold eof. split_and!; [done..|lia|lia|done|lia]. }
  pose proof (DecodeRune_cases (drop (pos s) (buf s))) as Hd.
  pose proof (length_drop (buf s) (pos s)) as Hl.
  destruct (drop (pos s) (buf s)) as [|c rest]; [simpl in Hl; lia|].
  destruct (DecodeRune (c :: rest)) as [r' w]. simpl in *.
  intros [= <- <-]. simpl. pose proof (bval_range c).
  destruct Hd as [(Hc & [= -> ->])|(Hc & Hr & Hw & _)]; split_and!; try done; try lia.
Qed.

Lemma peek_pos s r s1 :
  pos s <= length (buf s) → scanner_peek s = (r, s1) →
  buf s1 = buf s ∧ start s1 = start s ∧ same_settings s s1 ∧ pos s1 = pos s ∧
  (r ≠ eof → pos s < length (buf s)).
Proof.
  intros Hp. unfold scanner_peek. destruct (scanner_read s) as [r' s'] eqn:E.
  destruct (read_pos s r' s' Hp E) as (Hb & Hs & Hset & Hpos & Hle & Hne & _).
  intros [= <- <-]. split_and!; try done; simpl; try lia.
Qed.

Lemma scanLbrack_pos s r b s1 :
  pos s <= length (buf s) → scanner_scanLbrack s r = (b, s1) →
  buf s1 = buf s ∧ start s1 = start s ∧ same_settings s s1 ∧
  pos s1 <= length (buf s) ∧
  (if b then r = chr "$" ∧ pos s1 = pos s + 1 ∧ width s1 = 1 else pos s1 = pos s) ∧
  (has_bit (mode s) scanLbrack = false ∨ r ≠ chr "$" → width s1 = width s).
Proof.
  intros Hp. unfold scanner_scanLbrack. destruct (has_bit (mode s) scanLbrack); simpl.
  2:{ intros [= <- <-]. by split_and!. }
  destruct (Z.eqb_spec r (chr "$")); [|intros [= <- <-]; by split_and!].
  destruct (scanner_read s) as [r2 s'] eqn:E.
  destruct (read_pos s r2 s' Hp E) as (Hb & Hs & Hset & Hpos & Hle & Hne & Hw).
  destruct (Z.eqb_spec r2 (chr "{")) as [->|].
  - intros [= <- <-]. rewrite Hw in Hpos by done. split_and!; try done; naive_solver.
  - intros [= <- <-]. simpl. split_and!; try done; try lia; naive_solver.
Qed.

Lemma scanEscaped_pos s r b s1 :
  pos s <= length (buf s) → scanner_scanEscaped s r = (b, s1) →
  buf s1 = buf s ∧ start s1 = start s ∧ same_settings s s1 ∧ pos s1 = pos s ∧
  (b = true → (r = chr "$" ∨ r = chr "\") ∧ pos s < length (buf s)) ∧
  (has_bit (mode s) scanEscape = false ∨ r ≠ chr "$" ∧ r ≠ chr "\" → width s1 = width s).
Proof.
  intros Hp. unfold scanner_scanEscaped. destruct (has_bit (mode s) scanEscape); simpl.
  2:{ intros [= <- <-]. by split_and!. }
  destruct (Z.eqb_spec r (chr "$")) as [->|Hnd]; simpl.
  - destruct (shouldEscape s dollar).
    + destruct (scanner_peek s) as [r2 s'] eqn:E.
      destruct (peek_pos s r2 s' Hp E) as (Hb & Hs & Hset & Hpos & Hlt).
      destruct (Z.eqb_spec r2 (chr "$")) as [->|]; intros [= <- <-]; split_and!; try done;
        try naive_solver.
    + intros [= <- <-]. by split_and!.
  - destruct (Z.eqb_spec r (chr "\")) as [->|Hnb]; simpl; [|intros [= <- <-]; by split_and!].
    destruct (shouldEscape s backslash); [|intros [= <- <-]; by split_and!].
    destruct (scanner_peek s) as [r2 s'] eqn:E.
    destruct (peek_pos s r2 s' Hp E) as (Hb & Hs & Hset & Hpos & Hlt).
    intros [= <- <-]. split_and!; try done; try naive_solver.
Qed.

Lemma skip_pos s :
  0 < pos s <= length (buf s) →
  ∃ s1, scanner_skip s = Ok s1 ∧ buf s1 = take (pos s - 1) (buf s) ++ drop (pos s) (buf s) ∧
    length (buf s1) = length (buf s) - 1 ∧ start s1 = start s ∧ pos s1 = pos s ∧
    same_settings s s1.
Proof.
  intros [Hp Hle]. unfold scanner_skip, slice.
  destruct (Nat.eqb_spec (pos s) 0); [lia|]. simpl.
  rewrite (proj2 (Nat.leb_le (pos s - 1) _)) by lia. simpl.
  rewrite (proj2 (Nat.leb_le (pos s) _)), Nat.leb_refl by lia. simpl.
  eexists; split; [done|]. simpl. rewrite Nat.sub_0_r, drop_0.
  rewrite (take_ge (drop (pos s) (buf s))) by (rewrite length_drop; lia).
  split_and!; try done. rewrite length_app, length_take, length_drop. lia.
Qed.

(** A rejected rune is the last one read: looking ahead did not change the
    width. *)
Lemma reject_width s s1 s2 s3 r i :
  accept_ok s → same_settings s s1 → same_settings s1 s2 → same_settings s2 s3 →
  (has_bit (mode s1) scanLbrack = false ∨ r ≠ chr "$" → width s2 = width s1) →
  (has_bit (mode s2) scanEscape = false ∨ r ≠ chr "$" ∧ r ≠ chr "\" → width s3 = width s2) →
  accept s3 r i = false → width s3 = width s1.
Proof.
  intros Hok (Em1 & _ & Ea1) (Em2 & _ & Ea2) (_ & _ & Ea3) Hw2 Hw3 Ha.
  rewrite Ea3, Ea2, Ea1 in Ha.
  destruct (has_bit (mode s) scanLbrack || has_bit (mode s) scanEscape) eqn:Hbits.
  - specialize (Hok Hbits i).
    rewrite Hw3, Hw2; [done|right|right; split]; intros ->; destruct Hok; congruence.
  - apply orb_false_iff in Hbits as [Hb Hb']. rewrite Hw3, Hw2; [done|left; congruence..].
Qed.

(** The loop of [scanIdent] ends within one round per remaining byte. *)
Lemma scanIdent_loop_total fuel s :
  wf s → accept_ok s → rem s < fuel →
  ∃ s', scanIdent_loop fuel s = Ok s' ∧ wf s' ∧ rem s' <= rem s ∧ same_settings s s'.
Proof.
  revert s. induction fuel as [|fuel IH]; intros s [Hs Hp] Hok Hf; [lia|]. cbn [scanIdent_loop].
  destruct (scanner_read s) as [r s1] eqn:Er.
  destruct (read_pos s r s1 Hp Er) as (Hb1 & Hs1 & Hset1 & Hpos1 & Hle1 & Hne1 & Hw1).
  unfold wf, rem in *.
  destruct (Z.eqb_spec r eof) as [->|Hr].
  { eexists; split_and!; [done|simpl..]; rewrite ?Hb1, ?Hs1; (lia || done). }
  specialize (Hne1 Hr).
  destruct (scanner_scanLbrack s1 r) as [lb s2] eqn:El.
  destruct (scanLbrack_pos s1 r lb s2) as (Hb2 & Hs2 & Hset2 & Hle2 & Hlb & Hw2);
    [by rewrite Hb1|done|].
  destruct lb.
  { destruct Hlb as (-> & Hp2 & Hw2'). rewrite Hw1 in Hpos1 by done.
    eexists; split_and!; [done|simpl..].
    - rewrite Hs2, Hs1, Hw2'. lia.
    - rewrite Hb2, Hb1, Hw2'. lia.
    - rewrite Hb2, Hb1, Hw2'. lia.
    - by transitivity s1. }
  destruct (scanner_scanEscaped s2 r) as [esc s3] eqn:Ee.
  destruct (scanEscaped_pos s2 r esc s3) as (Hb3 & Hs3 & Hset3 & Hp3 & Hesc & Hw3);
    [by rewrite Hb2, Hlb, Hb1|done|].
  assert (same_settings s s3) as Hset by (transitivity s1; [done|by transitivity s2]).
  destruct esc.
  { destruct (Hesc eq_refl) as [Hr' Hlt].
    assert (width s1 = 1) as Hw by (apply Hw1; destruct Hr' as [-> | ->]; done).
    destruct (skip_pos s3) as (s4 & -> & _ & Hl4 & Hs4 & Hp4 & Hset4).
    { rewrite Hp3, Hb3, Hlb, Hb2, Hb1. lia. }
    simpl. destruct (IH s4) as (s' & -> & Hwf' & Hrem' & Hset').
    - rewrite Hs4, Hp4, Hl4, Hs3, Hs2, Hs1, Hp3, Hb3, Hb2, Hb1, Hlb in *. lia.
    - eapply accept_ok_settings; [|exact Hok]. by transitivity s3.
    - rewrite Hl4, Hp4, Hb3, Hp3, Hlb, Hb2, Hb1. lia.
    - exists s'. split; [done|]. split; [exact Hwf'|]. split.
      + rewrite Hl4, Hp4, Hb3, Hp3, Hlb, Hb2, Hb1 in Hrem'. lia.
      + transitivity s4; [|done]. by transitivity s3. }
  destruct (accept s3 r (pos s3 - start s3)) eqn:Ha; simpl.
  - destruct (IH s3) as (s' & -> & Hwf' & Hrem' & Hset').
    + rewrite Hs3, Hs2, Hs1, Hp3, Hlb, Hb3, Hb2, Hb1. lia.
    + by eapply accept_ok_settings.
    + rewrite Hb3, Hp3, Hlb, Hb2, Hb1. lia.
    + exists s'. split; [done|]. split; [exact Hwf'|]. split; [|by transitivity s3].
      rewrite Hb3, Hp3, Hlb, Hb2, Hb1 in Hrem'. lia.
  - pose proof (reject_width s s1 s2 s3 r _ Hok Hset1 Hset2 Hset3 Hw2 Hw3 Ha) as Hw.
    eexists; split_and!; [done|simpl..].
    + rewrite Hs3, Hs2, Hs1, Hp3, Hlb, Hw. lia.
    + rewrite Hb3, Hb2, Hb1, Hp3, Hlb, Hw. lia.
    + rewrite Hb3, Hb2, Hb1, Hp3, Hlb, Hw. lia.
    + done.
Qed.

#[global] Arguments scanIdent_loop : simpl never.
#[global] Arguments scanner_scanIdent : simpl never.
#[global] Arguments scanner_scan : simpl never.

Lemma scanIdent_total s r :
  wf s → accept_ok s → start s < pos s →
  ∃ b s', scanner_scanIdent s r = Ok (b, s') ∧ wf s' ∧ rem s' <= rem s ∧ same_settings s s'.
Proof.
  intros [Hs Hp] Hok Hlt. unfold scanner_scanIdent.
  destruct (has_bit (mode s) scanIdent); simpl; [|by eexists _, _].
  destruct (scanner_scanEscaped s r) as [esc s1] eqn:Ee.
  destruct (scanEscaped_pos s r esc s1 Hp Ee) as (Hb & Hst & Hset & Hps & Hesc & _).
  unfold wf, rem in *. destruct esc.
  - destruct (Hesc eq_refl) as [_ Hnext].
    destruct (skip_pos s1) as (s2 & -> & _ & Hl2 & Hs2 & Hp2 & Hset2); [rewrite Hps, Hb; lia|].
    simpl.
    destruct (scanIdent_loop_total (S (length (buf s2))) s2) as (s3 & -> & Hwf3 & Hrem3 & Hset3).
    { unfold wf. rewrite Hl2, Hs2, Hp2, Hst, Hps, Hb. lia. }
    { eapply accept_ok_settings; [|exact Hok]. by transitivity s1. }
    { unfold rem. lia. }
    simpl. eexists _, _; split; [done|]. split; [exact Hwf3|]. split.
    + unfold rem in Hrem3. rewrite Hl2, Hp2, Hps, Hb in Hrem3. lia.
    + transitivity s2; [|done]. by transitivity s1.
  - destruct (accept s1 r (pos s1 - start s1)); simpl.
    2:{ eexists _, _; split; [done|]. rewrite Hst, Hps, Hb. split_and!; [lia..|done|done|done]. }
    destruct (scanIdent_loop_total (S (length (buf s1))) s1) as (s3 & -> & Hwf3 & Hrem3 & Hset3).
    { unfold wf. rewrite Hst, Hps, Hb. lia. }
    { by eapply accept_ok_settings. }
    { unfold rem. lia. }
    simpl. eexists _, _; split; [done|]. split; [exact Hwf3|].
    unfold rem in Hrem3. rewrite Hps, Hb in Hrem3. split; [lia|by transitivity s1].
Qed.

(** [scan] always returns a token, keeps the token within the buffer and
    consumes at least one byte unless it is at the end. *)
Lemma scan_total s :
  pos s <= length (buf s) → accept_ok s →
  ∃ t s', scanner_scan s = Ok (t, s') ∧ wf s' ∧ same_settings s s' ∧
    rem s' <= rem s ∧ (t ≠ tokenEOF → rem s' < rem s).
Proof.
  intros Hp Hok. unfold scanner_scan.
  set (s0 := set_start s (pos s)).
  destruct (scanner_read s0) as [r s1] eqn:Er.
  destruct (read_pos s0 r s1 Hp Er) as (Hb1 & Hs1 & Hset1 & Hpos1 & Hle1 & Hne1 & Hw1).
  simpl in *. unfold wf, rem.
  destruct (Z.eqb_spec r eof) as [->|Hr].
  { eexists _, _; split; [done|]. rewrite Hb1, Hs1. split_and!; try lia; try apply Hset1. done. }
  specialize (Hne1 Hr).
  destruct (scanner_scanLbrack s1 r) as [lb s2] eqn:El.
  destruct (scanLbrack_pos s1 r lb s2) as (Hb2 & Hs2 & Hset2 & Hle2 & Hlb & Hw2);
    [by rewrite Hb1|done|].
  assert (same_settings s s2) as Hset by (by transitivity s1).
  destruct lb.
  { destruct Hlb as (-> & Hp2 & Hw2'). eexists _, _; split; [done|].
    rewrite Hb2, Hb1, Hs2, Hs1 in *. split_and!; try lia; apply Hset. }
  destruct (scanner_scanRbrack s2 r).
  { eexists _, _; split; [done|]. rewrite Hb2, Hb1, Hs2, Hs1, Hlb in *. split_and!; try lia; apply Hset. }
  destruct (scanIdent_total s2 r) as (b & s3 & -> & Hwf3 & Hrem3 & Hset3).
  { unfold wf. rewrite Hb2, Hb1, Hs2, Hs1, Hlb in *. lia. }
  { by eapply accept_ok_settings. }
  { rewrite Hs2, Hs1, Hlb. lia. }
  unfold rem in Hrem3. rewrite Hb2, Hb1, Hlb in Hrem3.
  assert (same_settings s s3) as Hset' by (by transitivity s2).
  simpl. destruct b; eexists _, _; (split; [done|]); (split; [exact Hwf3|]);
    (split; [exact Hset'|]); lia.
Qed.

Lemma string_total s : wf s → ∃ b, scanner_string s = Ok b.
Proof.
  intros [? ?]. unfold scanner_string, slice.
  rewrite (proj2 (Nat.leb_le _ _)), (proj2 (Nat.leb_le _ _)) by done. simpl. eauto.
Qed.
