(* ===== verification/EnvParse.v ===== *)
(** * The envsubst parser ([envsubst/parse/parse.go], [node.go])

    The recursive-descent parser of the shell-format templates, in a state and
    error monad over the scanner.  The mutual recursion goes through
    [parseFunc]: the functions that parse the parameters of a substitution
    take it as an argument, and [parseFunc] ties the knot with fuel.  One
    unit of fuel per byte of the template is enough ([Parse_total]). *)

From S2P Require Import Prelude Utf8 EnvScan.

(** ** The code *)

(** [src/envsubst/parse/node.go:23-49 Node]
    [EmptyText] is the package variable [empty], which the parser compares by
    address: it is different from every [TextNode] it allocates. *)
Inductive Node :=
  | EmptyText
  | TextNode (Value : bytes)
  | FuncNode (Param Name : bytes) (Args : list Node)
  | ListNode (Nodes : list Node).

(** A parsing function: it reads and writes the tree's scanner. *)
Definition P (A : Type) : Type := scanner → outcome (A * scanner).

#[global] Instance P_ret : MRet P := λ A a s, Ok (a, s).
#[global] Instance P_bind : MBind P := λ A B f m s, '(a, s1) ← m s; f a s1.

Definition fail {A} (e : parseError) : P A := λ s, Err e.
(** Assignments to the fields of [t.scanner]. *)
Definition modify (f : scanner → scanner) : P unit := λ s, Ok (tt, f s).
Definition scan : P token := scanner_scan.
Definition peek : P Z := λ s, Ok (scanner_peek s).
Definition read : P Z := λ s, Ok (scanner_read s).
Definition unread : P unit := λ s, Ok (tt, scanner_unread s).
Definition lexeme : P bytes := λ s, b ← scanner_string s; Ok (b, s).

Definition expect (f : acceptFunc) (m : Z) : P unit :=
  modify (λ s, set_mode (set_accept s f) m).

Section code.
Context `{Unicode}.

(** [src/envsubst/parse/parse.go:403-411 Tree.consumeRbrack] *)
Definition consumeRbrack : P unit :=
  modify (λ s, set_mode s scanRbrack);;
  t ← scan;
  match t with tokenRbrack => mret tt | _ => fail ErrBadSubstitution end.

(** [src/envsubst/parse/parse.go:153-171 Tree.parseParam] *)
Definition parseParam (parseFunc : P Node) (f : acceptFunc) (m : Z) : P Node :=
  expect f (Z.lor m scanLbrack);;
  t ← scan;
  match t with
  | tokenLbrack => parseFunc
  | tokenIdent => v ← lexeme; mret (TextNode v)
  | tokenRbrack => v ← lexeme; mret (TextNode v)
  | _ => fail ErrParseFuncSubstitution
  end.

(** [src/envsubst/parse/parse.go:186-234 Tree.parseSubstrFunc] *)
Definition parseSubstrFunc (parseFunc : P Node) (name : bytes) : P Node :=
  expect acceptOneColon scanIdent;;
  t ← scan;
  match t with
  | tokenIdent =>
      fname ← lexeme;
      a1 ← parseParam parseFunc rejectColonClose scanIdent;
      expect acceptColon (Z.lor scanIdent scanRbrack);;
      t ← scan;
      match t with
      | tokenRbrack => mret (FuncNode name fname [a1])
      | tokenIdent =>
          a2 ← parseParam parseFunc acceptNotClosing scanIdent;
          consumeRbrack;; mret (FuncNode name fname [a1; a2])
      | _ => fail ErrBadSubstitution
      end
  | _ => fail ErrBadSubstitution
  end.

(** [src/envsubst/parse/parse.go:236-265 Tree.parseRemoveFunc] *)
Definition parseRemoveFunc (parseFunc : P Node) (name : bytes) (f : acceptFunc) : P Node :=
  expect f scanIdent;;
  t ← scan;
  match t with
  | tokenIdent =>
      fname ← lexeme;
      a1 ← parseParam parseFunc acceptNotClosing scanIdent;
      consumeRbrack;; mret (FuncNode name fname [a1])
  | _ => fail ErrBadSubstitution
  end.

(** [src/envsubst/parse/parse.go:267-319 Tree.parseReplaceFunc] *)
Definition parseReplaceFunc (parseFunc : P Node) (name : bytes) : P Node :=
  expect acceptReplaceFunc scanIdent;;
  t ← scan;
  match t with
  | tokenIdent =>
      fname ← lexeme;
      a1 ← parseParam parseFunc acceptNotSlash (Z.lor scanIdent scanEscape);
      expect acceptSlash scanIdent;;
      t ← scan;
      match t with
      | tokenIdent =>
          r ← peek;
          if (r =? chr "}")%Z then consumeRbrack;; mret (FuncNode name fname [a1])
          else
            a2 ← parseParam parseFunc acceptNotClosing (Z.lor scanIdent scanEscape);
            consumeRbrack;; mret (FuncNode name fname [a1; a2])
      | _ => fail ErrBadSubstitution
      end
  | _ => fail ErrBadSubstitution
  end.

(** The argument loop of [parseDefaultFunc].
    [src/envsubst/parse/parse.go:342-355 Tree.parseDefaultFunc] *)
Fixpoint parseDefault_loop (fuel : nat) (parseFunc : P Node) (name fname : bytes)
    (args : list Node) : P Node :=
  match fuel with
  | O => λ _, NoFuel
  | S fuel =>
      r ← peek;
      if (r =? chr "}")%Z then consumeRbrack;; mret (FuncNode name fname args)
      else
        a ← parseParam parseFunc acceptNotClosing scanIdent;
        parseDefault_loop fuel parseFunc name fname (args ++ [a])
  end.

(** [src/envsubst/parse/parse.go:321-356 Tree.parseDefaultFunc] *)
Definition parseDefaultFunc (fuel : nat) (parseFunc : P Node) (name : bytes) : P Node :=
  modify (λ s, set_accept s acceptDefaultFunc);;
  r ← peek;
  (if (r =? chr "=")%Z then modify (λ s, set_accept s acceptOneEqual) else mret tt);;
  modify (λ s, set_mode s scanIdent);;
  t ← scan;
  match t with
  | tokenIdent => fname ← lexeme; parseDefault_loop fuel parseFunc name fname []
  | _ => fail ErrParseDefaultFunction
  end.

(** [src/envsubst/parse/parse.go:173-184 Tree.parseDefaultOrSubstr] *)
Definition parseDefaultOrSubstr (fuel : nat) (parseFunc : P Node) (name : bytes) : P Node :=
  read;;
  r ← peek;
  unread;;
  if (r =? chr "=")%Z || (r =? chr "-")%Z || (r =? chr "?")%Z || (r =? chr "+")%Z
  then parseDefaultFunc fuel parseFunc name
  else parseSubstrFunc parseFunc name.

(** [src/envsubst/parse/parse.go:358-376 Tree.parseCasingFunc] *)
Definition parseCasingFunc (name : bytes) : P Node :=
  expect acceptCasingFunc scanIdent;;
  t ← scan;
  match t with
  | tokenIdent => fname ← lexeme; consumeRbrack;; mret (FuncNode name fname [])
  | _ => fail ErrBadSubstitution
  end.

(** [src/envsubst/parse/parse.go:378-401 Tree.parseLenFunc] *)
Definition parseLenFunc : P Node :=
  expect acceptOneHash scanIdent;;
  t ← scan;
  match t with
  | tokenIdent =>
      fname ← lexeme;
      expect acceptIdent scanIdent;;
      t ← scan;
      match t with
      | tokenIdent => name ← lexeme; consumeRbrack;; mret (FuncNode name fname [])
      | _ => fail ErrBadSubstitution
      end
  | _ => fail ErrBadSubstitution
  end.

(** The dispatch on the operator that follows the variable name, and the bare
    substitution.
    [src/envsubst/parse/parse.go:128-150 Tree.parseFunc] *)
Definition parseOperator (fuel : nat) (parseFunc : P Node) (name : bytes) : P Node :=
  r ← peek;
  if (r =? chr ":")%Z then parseDefaultOrSubstr fuel parseFunc name
  else if (r =? chr "=")%Z then parseDefaultFunc fuel parseFunc name
  else if (r =? chr ",")%Z || (r =? chr "^")%Z then parseCasingFunc name
  else if (r =? chr "/")%Z then parseReplaceFunc parseFunc name
  else if (r =? chr "#")%Z then parseRemoveFunc parseFunc name acceptHashFunc
  else if (r =? chr "%")%Z then parseRemoveFunc parseFunc name acceptPercentFunc
  else
    expect acceptIdent scanRbrack;;
    t ← scan;
    match t with
    | tokenRbrack => mret (FuncNode name [] [])
    | _ => fail ErrMissingClosingBrace
    end.

(** [src/envsubst/parse/parse.go:109-151 Tree.parseFunc] *)
Fixpoint parseFunc (fuel : nat) : P Node :=
  match fuel with
  | O => λ _, NoFuel
  | S fuel =>
      modify (λ s, set_escape s escapeAll);;
      r ← peek;
      if (r =? chr "#")%Z then parseLenFunc
      else
        expect acceptIdent scanIdent;;
        t ← scan;
        match t with
        | tokenIdent => name ← lexeme; parseOperator fuel (parseFunc fuel) name
        | _ => fail ErrParseVariableName
        end
  end.

(** [left] followed by what [parseAny] returned for the rest. *)
Definition join (left right : Node) : Node :=
  match right with EmptyText => left | _ => ListNode [left; right] end.

(** [src/envsubst/parse/parse.go:70-107 Tree.parseAny] *)
Fixpoint parseAny (fuel : nat) : P Node :=
  match fuel with
  | O => λ _, NoFuel
  | S fuel =>
      modify (λ s, set_escape (set_mode (set_accept s acceptRune)
                (Z.lor (Z.lor scanIdent scanLbrack) scanEscape)) dollar);;
      t ← scan;
      match t with
      | tokenIdent =>
          left ← lexeme;
          right ← parseAny fuel;
          mret (join (TextNode left) right)
      | tokenEOF => mret EmptyText
      | tokenLbrack =>
          left ← parseFunc (S fuel);
          right ← parseAny fuel;
          mret (join left right)
      | _ => fail ErrBadSubstitution
      end
  end.

(** [src/envsubst/parse/parse.go:55-68 Parse] *)
Definition Parse (b : bytes) : outcome Node :=
  let s := scanner_init (mkScanner [] 0 0 0 0 0 (λ _ _, false)) b in
  '(root, _) ← parseAny (S (length b)) s; Ok root.
End code.
