(* ===== verification/EnvParseTotal.v ===== *)
(** * Totality of the envsubst parser

    [Parse] returns a tree or one of its errors on every input: no slice is
    out of range, and one unit of fuel per byte of the template is enough.
    The proofs run the parser with a small weakest-precondition calculus. *)

From S2P Require Import Prelude Utf8 EnvScan EnvParse.

(** ** The calculus *)

(** The code ends, and a result satisfies [Q]. *)
Definition tot {A} (Q : A → scanner → Prop) (o : outcome (A * scanner)) : Prop :=
  match o with Ok (a, s) => Q a s | Err _ => True | Panic | NoFuel => False end.

Lemma tot_mono {A} (Q Q' : A → scanner → Prop) o :
  (∀ a s, Q a s → Q' a s) → tot Q o → tot Q' o.
Proof. intros HQ. destruct o as [[a s]| | |]; simpl; auto. Qed.

Lemma tot_bind {A B} (Q : B → scanner → Prop) (m : P A) (k : A → P B) s :
  tot (λ a s1, tot Q (k a s1)) (m s) → tot Q ((m ≫= k) s).
Proof. unfold mbind, P_bind. by destruct (m s) as [[a s1]| | |]. Qed.

Definition inb (s : scanner) : Prop := pos s <= length (buf s).

(** The code moved forward and stayed within the buffer. *)
Definition adv {A} (s : scanner) : A → scanner → Prop := λ _ s', inb s' ∧ rem s' < rem s.

Lemma tot_adv_trans {A} (s s1 : scanner) (o : outcome (A * scanner)) :
  rem s1 <= rem s → tot (adv s1) o → tot (adv s) o.
Proof. intros Hr. apply tot_mono. intros a s2 [? ?]. split; [done|lia]. Qed.

Lemma tot_scan (Q : token → scanner → Prop) s :
  inb s → accept_ok s →
  (∀ t s1, scan s = Ok (t, s1) → wf s1 → inb s1 → same_settings s s1 →
    rem s1 <= rem s → (t ≠ tokenEOF → rem s1 < rem s) → Q t s1) →
  tot Q (scan s).
Proof.
  intros Hin Hok HQ. destruct (scan_total s Hin Hok) as (t & s1 & E & Hw & Hset & Hr & Hlt).
  unfold scan in *. rewrite E. simpl. apply HQ; auto. by destruct Hw.
Qed.

Lemma tot_lexeme (Q : bytes → scanner → Prop) s :
  wf s → (∀ b, Q b s) → tot Q (lexeme s).
Proof. intros Hw HQ. destruct (string_total s Hw) as [b E]. unfold lexeme. rewrite E. apply HQ. Qed.

Lemma tot_peek (Q : Z → scanner → Prop) s :
  inb s →
  (∀ r s1, peek s = Ok (r, s1) → buf s1 = buf s → pos s1 = pos s → inb s1 → rem s1 = rem s →
    same_settings s s1 → Q r s1) →
  tot Q (peek s).
Proof.
  intros Hin HQ. unfold peek in *. destruct (scanner_peek s) as [r s1] eqn:E. simpl.
  destruct (peek_pos s r s1 Hin E) as (Hb & _ & Hset & Hp & _).
  apply HQ; try done; unfold inb, rem in *; rewrite Hb, Hp; done.
Qed.

(** ** The settings the parser chooses *)

Lemma accept_ok_plain s :
  has_bit (mode s) scanLbrack = false → has_bit (mode s) scanEscape = false → accept_ok s.
Proof. intros E1 E2. unfold accept_ok. by rewrite E1, E2. Qed.

Lemma accept_ok_takes s :
  (∀ i, accept s (chr "$") i = true ∧ accept s (chr "\") i = true) → accept_ok s.
Proof. intros Hf _ i. apply Hf. Qed.

Create HintDb parse.
#[export] Hint Extern 1 (accept_ok _) =>
  (apply accept_ok_plain; reflexivity) || (apply accept_ok_takes; intros; split; reflexivity) : parse.
#[export] Hint Extern 1 (inb _) => assumption : parse.
#[export] Hint Extern 1 (wf _) => assumption : parse.
#[export] Hint Extern 2 (_ < _) => lia : parse.
#[export] Hint Extern 2 (_ <= _) => lia : parse.

(** One step of the calculus. *)
Ltac tstep :=
  lazymatch goal with
  | |- tot _ ((?m ≫= _) _) => apply tot_bind
  | |- tot ?Q (expect ?f ?m ?s) => change (Q tt (set_mode (set_accept s f) m)); cbv beta
  | |- tot ?Q (modify ?f ?s) => change (Q tt (f s)); cbv beta
  | |- tot _ (scan _) =>
      apply tot_scan; [assumption|solve [auto with parse]|];
      let t := fresh "t" in let s1 := fresh "s" in
      intros t s1 ? ? ? ? ? ?; unfold rem in *; cbn [buf pos set_mode set_accept set_escape] in *;
      destruct t; try exact I;
      repeat match goal with H : ?t1 ≠ ?t2 → _ |- _ => specialize (H ltac:(discriminate)) end
  | |- tot _ (lexeme _) => apply tot_lexeme; [assumption|intros ?]
  | |- tot _ (fail _ _) => exact I
  | |- tot _ (mret _ _) => unfold mret, P_ret; cbn [tot]
  end.

Section functions.
Context `{Unicode}.

Lemma consumeRbrack_total s : inb s → tot (adv s) (consumeRbrack s).
Proof.
  intros Hp. unfold consumeRbrack. repeat tstep.
  split; [done|]. unfold rem. auto with parse.
Qed.

(** [parseFunc] is entered right behind an opening brace. *)
Definition entry (s : scanner) : Prop :=
  2 <= pos s ∧ buf s !! (pos s - 1) ≠ Some ":"%char ∧ buf s !! (pos s - 2) ≠ Some ":"%char.

(** What the parsing functions assume of the recursive call: it ends when at
    most [n] bytes are left. *)
Definition total_upto (n : nat) (pf : P Node) : Prop :=
  ∀ s, inb s → entry s → rem s <= n → tot (adv s) (pf s).

(** A rune of ASCII value was read from the byte it stands for. *)
Lemma read_byte s r s1 :
  scanner_read s = (r, s1) → (0 < r < 128)%Z →
  buf s !! pos s = Some (byte_of r) ∧ pos s1 = S (pos s) ∧ width s1 = 1.
Proof.
  unfold scanner_read. destruct (Nat.leb_spec (length (buf s)) (pos s)).
  { intros [= <- <-] ?. unfold eof in *. lia. }
  pose proof (DecodeRune_cases (drop (pos s) (buf s))) as Hd.
  destruct (drop (pos s) (buf s)) as [|c rest] eqn:Edrop.
  { rewrite Hd. intros [= <- <-]. unfold RuneError. lia. }
  assert (buf s !! pos s = Some c) as Hc.
  { rewrite <- (Nat.add_0_r (pos s)), <- lookup_drop, Edrop. done. }
  destruct Hd as [(Hlt & ->)|(Hge & Hr' & _)].
  - intros [= <- <-] Hr. simpl. rewrite byte_of_bval, Hc. split_and!; [done|lia|done].
  - destruct (DecodeRune (c :: rest)) as [r' w]. simpl in *. intros [= <- <-]. lia.
Qed.

(** The opening brace token is really there. *)
Lemma scan_Lbrack_entry s s' :
  scanner_scan s = Ok (tokenLbrack, s') → inb s → entry s'.
Proof.
  unfold scanner_scan. set (s0 := set_start s (pos s)). intros Hscan Hp.
  assert (∀ s1 r s', ('(id, s3) ← scanner_scanIdent s1 r;
    if id : bool then Ok (tokenIdent, s3) else Ok (tokenIllegal, s3)) ≠ Ok (tokenLbrack, s')) as Hid.
  { intros s1 r s2. by destruct (scanner_scanIdent s1 r) as [[[] ?]| | |]. }
  destruct (scanner_read s0) as [r s1] eqn:Er.
  destruct (read_pos s0 r s1 Hp Er) as (Hb1 & _ & _ & Hpos1 & Hle1 & _).
  destruct (r =? eof)%Z; [done|]. unfold scanner_scanLbrack in Hscan.
  destruct (has_bit (mode s1) scanLbrack); cbn [negb] in Hscan.
  2:{ destruct (scanner_scanRbrack s1 r); [done|]. by apply Hid in Hscan. }
  destruct (Z.eqb_spec r (chr "$")) as [->|].
  2:{ destruct (scanner_scanRbrack s1 r); [done|]. by apply Hid in Hscan. }
  destruct (scanner_read s1) as [r2 s2] eqn:Er2.
  destruct (Z.eqb_spec r2 (chr "{")) as [->|].
  2:{ destruct (scanner_scanRbrack (scanner_unread s2) (chr "$")); [done|]. by apply Hid in Hscan. }
  injection Hscan as <-.
  destruct (read_byte s0 _ s1 Er ltac:(done)) as (Hc1 & Hp1 & _).
  destruct (read_byte s1 _ s2 Er2 ltac:(done)) as (Hc2 & Hp2 & _).
  destruct (read_pos s1 _ s2 ltac:(by rewrite Hb1) Er2) as (Hb2 & _).
  unfold entry. rewrite Hp2, Hb2, Hb1. simpl in Hc1, Hp1. rewrite Hb1 in Hc2.
  split_and!; [lia| |].
  - replace (S (pos s1) - 1) with (pos s1) by lia. by rewrite Hc2.
  - rewrite Hp1. replace (S (S (pos s)) - 2) with (pos s) by lia. simpl. by rewrite Hc1.
Qed.

(** [parseParam] consumes at least one byte and calls [parseFunc] only behind
    an opening brace, with fewer bytes left. *)
Lemma parseParam_total n pf f m s :
  total_upto n pf → (∀ i, f (chr "$") i = true ∧ f (chr "\") i = true) →
  inb s → rem s <= S n → tot (adv s) (parseParam pf f m s).
Proof.
  intros Hpf Hf Hp Hrem. unfold parseParam. do 3 tstep.
  apply tot_scan; [done|by apply accept_ok_takes|].
  intros t s1 Es ? ? _ Hle Hlt. unfold rem in *. cbn [buf pos set_mode set_accept] in *.
  destruct t; try exact I; repeat tstep; unfold adv, rem in *; auto with parse.
  eapply tot_mono; [|apply Hpf]; unfold adv, rem in *; auto with parse.
  - intros ? ? [? ?]. split; [done|]. specialize (Hlt ltac:(done)). lia.
  - by eapply scan_Lbrack_entry.
  - specialize (Hlt ltac:(done)). lia.
Qed.

Lemma consume_then {A} (a : A) s0 s :
  inb s → rem s <= rem s0 → tot (adv s0) ((consumeRbrack;; mret a) s).
Proof.
  intros Hp Hr. apply tot_bind. eapply tot_mono; [|by apply consumeRbrack_total].
  intros _ s1 [? ?]. split; [done|lia].
Qed.

(** A parameter, then the rest. *)
Lemma param_then {A} n pf f m (k : Node → P A) s0 s :
  total_upto n pf → (∀ i, f (chr "$") i = true ∧ f (chr "\") i = true) →
  inb s → rem s <= S n → rem s <= rem s0 →
  (∀ a s1, inb s1 → rem s1 < rem s → tot (adv s0) (k a s1)) →
  tot (adv s0) ((parseParam pf f m ≫= k) s).
Proof.
  intros Hpf Hf Hp Hn Hr Hk. apply tot_bind.
  eapply tot_mono; [|by eapply parseParam_total]. intros a s1 [? ?]. by apply Hk.
Qed.

(** Facts about [rem] of states that differ in their settings only. *)
Ltac rlia := unfold rem in *; cbn [buf pos set_mode set_accept set_escape] in *; lia.

Ltac trun Hpf :=
  repeat lazymatch goal with
  | |- tot _ ((parseParam _ _ _ ≫= _) _) =>
      eapply (param_then _ _ _ _ _ _ _ Hpf); [by split|assumption|rlia|rlia|intros ? ? ? ?]
  | |- tot _ ((consumeRbrack ≫= λ _, mret _) _) => apply consume_then; [assumption|rlia]
  | |- tot _ ((peek ≫= _) _) =>
      apply tot_bind, tot_peek; [assumption|intros ? ? ? ? ? ? ? ?]
  | |- tot _ ((if ?b then _ else _) _) => destruct b
  | |- _ => tstep
  end; try (split; [assumption|rlia]).

Section compound.
Context (n : nat) (pf : P Node) (Hpf : total_upto n pf).

Lemma parseSubstrFunc_total name s :
  inb s → rem s <= S n → tot (adv s) (parseSubstrFunc pf name s).
Proof. intros Hp Hn. unfold parseSubstrFunc. trun Hpf. Qed.

Lemma parseRemoveFunc_total name f s :
  inb s → rem s <= S n → tot (adv s) (parseRemoveFunc pf name f s).
Proof. intros Hp Hn. unfold parseRemoveFunc. trun Hpf. Qed.

Lemma parseReplaceFunc_total name s :
  inb s → rem s <= S n → tot (adv s) (parseReplaceFunc pf name s).
Proof. intros Hp Hn. unfold parseReplaceFunc. trun Hpf. Qed.

Lemma parseCasingFunc_total name s : inb s → tot (adv s) (parseCasingFunc name s).
Proof. intros Hp. unfold parseCasingFunc. trun Hpf. Qed.

Lemma parseLenFunc_total s : inb s → tot (adv s) (parseLenFunc s).
Proof. intros Hp. unfold parseLenFunc. trun Hpf. Qed.

Lemma parseDefault_loop_total fuel name fname args s :
  inb s → rem s <= S n → rem s < fuel →
  tot (adv s) (parseDefault_loop fuel pf name fname args s).
Proof.
  revert args s. induction fuel as [|fuel IH]; intros args s Hp Hn Hf; [lia|].
  cbn [parseDefault_loop]. trun Hpf. eapply tot_adv_trans; [|apply IH]; auto; rlia.
Qed.

Lemma parseDefaultFunc_total fuel name s :
  inb s → rem s <= S n → rem s <= fuel → tot (adv s) (parseDefaultFunc fuel pf name s).
Proof.
  intros Hp Hn Hf. unfold parseDefaultFunc. trun Hpf.
  all: eapply tot_adv_trans; [|apply parseDefault_loop_total]; auto; rlia.
Qed.
End compound.

(** *** The operator after the variable name *)

(** No byte of [b] in the range is a colon. *)
Definition no_colon (b : bytes) (i j : nat) : Prop :=
  ∀ k, i <= k < j → b !! k ≠ Some ":"%char.

Lemma read_no_colon s r s1 :
  scanner_read s = (r, s1) → r ≠ chr ":" → no_colon (buf s) (pos s) (pos s1).
Proof.
  unfold scanner_read. destruct (Nat.leb_spec (length (buf s)) (pos s)).
  { intros [= <- <-] _ k Hk. simpl in Hk. lia. }
  pose proof (DecodeRune_cases (drop (pos s) (buf s))) as Hd.
  destruct (DecodeRune (drop (pos s) (buf s))) as [r' w] eqn:Ed.
  intros [= <- <-] Hr k Hk Hlk. simpl in *.
  replace k with (pos s + (k - pos s)) in Hlk by lia. rewrite <- lookup_drop in Hlk.
  destruct (drop (pos s) (buf s)) as [|c rest]; [done|].
  destruct Hd as [(Hc & [= -> ->])|(_ & _ & _ & Hall)].
  - replace (k - pos s) with 0 in Hlk by lia. by simplify_eq/=.
  - rewrite Forall_lookup in Hall. specialize (Hall (k - pos s) ":"%char).
    rewrite lookup_take_lt in Hall by lia. specialize (Hall Hlk). by vm_compute in Hall.
Qed.

Lemma scanLbrack_off s r : has_bit (mode s) scanLbrack = false → scanner_scanLbrack s r = (false, s).
Proof. intros E. unfold scanner_scanLbrack. by rewrite E. Qed.

Lemma scanEscaped_off s r : has_bit (mode s) scanEscape = false → scanner_scanEscaped s r = (false, s).
Proof. intros E. unfold scanner_scanEscaped. by rewrite E. Qed.

(** In the mode that scans a name, the loop leaves the buffer alone and takes
    no colon. *)
Lemma name_loop fuel s s' :
  inb s → mode s = scanIdent → accept s = acceptIdent → scanIdent_loop fuel s = Ok s' →
  buf s' = buf s ∧ pos s <= pos s' ∧ no_colon (buf s) (pos s) (pos s').
Proof.
  revert s. induction fuel as [|fuel IH]; intros s Hp Hm Ha; [done|]. unfold scanIdent_loop; fold scanIdent_loop.
  destruct (scanner_read s) as [r s1] eqn:Er.
  destruct (read_pos s r s1 Hp Er) as (Hb1 & _ & (Hm1 & _ & Ha1) & Hpos1 & Hle1 & _ & _).
  assert (∀ s2, pos s2 = pos s1 - width s1 → buf s2 = buf s →
    buf s2 = buf s ∧ pos s <= pos s2 ∧ no_colon (buf s) (pos s) (pos s2)) as Hback.
  { intros s2 Hs2 Hb2. split_and!; [done|lia|]. intros k Hk. lia. }
  destruct (Z.eqb_spec r eof) as [->|Hr]; [intros [= <-]; by apply Hback|].
  rewrite scanLbrack_off by (by rewrite Hm1, Hm). rewrite scanEscaped_off by (by rewrite Hm1, Hm).
  rewrite Ha1, Ha. destruct (acceptIdent r (pos s1 - start s1)) eqn:Eacc; cbn [negb].
  2:{ intros [= <-]. by apply Hback. }
  intros Hloop. destruct (IH s1) as (Hb' & Hle' & Hnc); [by unfold inb; rewrite Hb1|congruence..|done|].
  rewrite Hb1 in *. split_and!; [done|lia|]. intros k Hk.
  destruct (decide (k < pos s1)); [|apply Hnc; lia].
  eapply read_no_colon; [done| |lia]. intros ->. done.
Qed.

(** The state behind a variable name: the three bytes before it are no
    colons. *)
Definition behind_name (s : scanner) : Prop :=
  3 <= pos s ∧ no_colon (buf s) (pos s - 3) (pos s).

Lemma scan_name s s1 :
  inb s → entry s → mode s = scanIdent → accept s = acceptIdent →
  scan s = Ok (tokenIdent, s1) → behind_name s1.
Proof.
  intros Hp (H2 & Hc1 & Hc2) Hm Ha. unfold scan, scanner_scan. set (s0 := set_start s (pos s)).
  destruct (scanner_read s0) as [r s2] eqn:Er.
  destruct (read_pos s0 r s2 Hp Er) as (Hb2 & _ & (Hm2 & _ & Ha2) & Hpos2 & Hle2 & Hw & _).
  destruct (Z.eqb_spec r eof) as [->|Hr]; [done|]. specialize (Hw Hr).
  rewrite scanLbrack_off by (rewrite Hm2; simpl; by rewrite Hm).
  unfold scanner_scanRbrack, scanner_scanIdent.
  rewrite scanEscaped_off by (rewrite Hm2; simpl; by rewrite Hm).
  rewrite Hm2, Ha2. cbn [mode s0 set_start accept]. rewrite Hm, Ha.
  destruct (acceptIdent r (pos s2 - start s2)) eqn:Eacc; [|done]. simpl.
  destruct (scanIdent_loop (S (length (buf s2))) s2) as [s3| | |] eqn:El; [|done..].
  intros [= <-]. destruct (name_loop (S (length (buf s2))) s2 s3) as (Hb3 & Hle3 & Hnc); [by unfold inb; rewrite Hb2| | |done|].
  { rewrite Hm2. done. } { rewrite Ha2. done. }
  simpl in *. unfold behind_name. rewrite Hb3, Hb2 in *. split; [lia|]. intros k Hk.
  destruct (decide (pos s2 <= k)); [apply Hnc; lia|].
  destruct (decide (pos s <= k)).
  { eapply (read_no_colon s0); [done| |simpl; lia]. intros ->. done. }
  by destruct (decide (k = pos s - 1)) as [->|]; [|replace k with (pos s - 2) by lia].
Qed.

(** A scan for the colon of a substring fails on anything else. *)
Lemma scan_colon s s1 :
  inb s → buf s !! pos s ≠ Some ":"%char → mode s = scanIdent → accept s = acceptOneColon →
  scan s ≠ Ok (tokenIdent, s1).
Proof.
  intros Hp Hc Hm Ha. unfold scan, scanner_scan. set (s0 := set_start s (pos s)).
  destruct (scanner_read s0) as [r s2] eqn:Er.
  destruct (read_pos s0 r s2 Hp Er) as (Hb2 & _ & (Hm2 & _ & Ha2) & _).
  destruct (Z.eqb_spec r eof) as [->|Hr]; [done|].
  rewrite scanLbrack_off by (rewrite Hm2; simpl; by rewrite Hm).
  unfold scanner_scanRbrack, scanner_scanIdent.
  rewrite scanEscaped_off by (rewrite Hm2; simpl; by rewrite Hm).
  rewrite Hm2, Ha2. cbn [mode s0 set_start accept]. rewrite Hm, Ha.
  unfold acceptOneColon. destruct (Z.eqb_spec r (chr ":")) as [->|]; [|by rewrite andb_false_r].
  destruct (read_byte s0 _ s2 Er ltac:(done)) as (Hlk & _). done.
Qed.

Lemma parseSubstrFunc_no_colon {Q} pf name s :
  inb s → buf s !! pos s ≠ Some ":"%char → tot Q (parseSubstrFunc pf name s).
Proof.
  intros Hp Hc. unfold parseSubstrFunc. do 3 tstep.
  apply tot_scan; [done|auto with parse|]. intros t s1 Hscan _ _ _ _ _.
  destruct t; try exact I. exfalso. by eapply scan_colon in Hscan.
Qed.

Lemma read_width s r s1 : scanner_read s = (r, s1) → width s1 <= 4.
Proof.
  unfold scanner_read. case_match; [intros [= <- <-]; simpl; lia|].
  pose proof (DecodeRune_width (drop (pos s) (buf s))) as Hw.
  destruct (DecodeRune (drop (pos s) (buf s))) as [r' w]. by intros [= <- <-].
Qed.

(** Looking at the rune behind the colon: the position goes back by the width
    of that rune, which is the colon's position if the rune is one byte wide
    and otherwise lies within the variable name. *)
Lemma parseDefaultOrSubstr_total n pf fuel name s :
  total_upto n pf → inb s → behind_name s → rem s <= S n → rem s <= fuel →
  buf s !! pos s = Some ":"%char →
  tot (adv s) (parseDefaultOrSubstr fuel pf name s).
Proof.
  intros Hpf Hp [H3 Hnc] Hn Hf Hcolon.
  unfold parseDefaultOrSubstr, mbind, P_bind, read, peek, unread, mbind, outcome_bind.
  assert (scanner_read s = (chr ":", set_pos s (pos s + 1) 1)) as ->.
  { unfold scanner_read. apply lookup_lt_Some in Hcolon as Hlt.
    rewrite (proj2 (Nat.leb_gt _ _)) by done. by rewrite (drop_S _ _ _ Hcolon). }
  unfold scanner_peek. set (s1 := set_pos s (pos s + 1) 1).
  assert (inb s1) as Hp1. { apply lookup_lt_Some in Hcolon. unfold inb. simpl. lia. }
  destruct (scanner_read s1) as [r s2] eqn:Er.
  destruct (read_pos s1 r s2 Hp1 Er) as (Hb2 & _ & _ & Hpos2 & Hle2 & Hne & Hw1).
  pose proof (read_width _ _ _ Er) as Hw4.
  set (s3 := scanner_unread (scanner_unread s2)).
  assert (buf s3 = buf s ∧ pos s3 = pos s + 1 - width s2) as [Hb3 Hp3].
  { split; [done|]. subst s3. simpl in *. lia. }
  clearbody s3.
  assert (width s2 <= 1 → inb s3 ∧ rem s3 <= rem s) as Hsmall.
  { intros Hw. unfold inb, rem in *. rewrite Hb3, Hp3. simpl in *. lia. }
  destruct (_ || (r =? chr "+")%Z) eqn:Eop.
  - assert (width s2 = 1) as Hw.
    { apply Hw1. revert Eop. unfold chr. rewrite !orb_true_iff, !Z.eqb_eq.
      intros [[[-> | ->]| ->]| ->]; by vm_compute. }
    destruct Hsmall as [? ?]; [lia|].
    eapply tot_adv_trans; [|eapply parseDefaultFunc_total]; eauto; lia.
  - destruct (decide (width s2 <= 1)) as [Hw|Hw].
    + destruct (Hsmall Hw). eapply tot_adv_trans; [|eapply parseSubstrFunc_total]; eauto; lia.
    + apply parseSubstrFunc_no_colon; unfold inb; rewrite Hb3, Hp3.
      * unfold inb in Hp. lia.
      * apply Hnc. lia.
Qed.

Lemma parseOperator_total n pf fuel name s :
  total_upto n pf → inb s → behind_name s → rem s <= S n → rem s <= fuel →
  tot (adv s) (parseOperator fuel pf name s).
Proof.
  intros Hpf Hp Hbn Hn Hf. unfold parseOperator. apply tot_bind, tot_peek; [done|].
  intros r s1 Epeek Hb1 Hp1 Hin1 Hr1 _.
  assert (behind_name s1) as Hbn1. { unfold behind_name. by rewrite Hb1, Hp1. }
  eapply tot_adv_trans; [by rewrite Hr1|]. rewrite <- Hr1 in Hn, Hf.
  destruct (Z.eqb_spec r (chr ":")) as [->|].
  { eapply parseDefaultOrSubstr_total; eauto. rewrite Hb1, Hp1. unfold peek, scanner_peek in Epeek.
    destruct (scanner_read s) as [r' s'] eqn:Er. simplify_eq.
    by destruct (read_byte s _ s' Er ltac:(done)). }
  repeat case_match; eauto using parseDefaultFunc_total, parseCasingFunc_total,
    parseReplaceFunc_total, parseRemoveFunc_total.
  repeat tstep. split; [done|rlia].
Qed.

Lemma parseFunc_total fuel : total_upto fuel (parseFunc (S fuel)).
Proof.
  induction fuel as [fuel IH] using lt_wf_ind. intros s Hp Hen Hn.
  unfold parseFunc; fold parseFunc.
  repeat tstep. apply tot_peek; [done|]. intros r s1 _ Hb1 Hp1 Hin1 Hr1 _.
  eapply tot_adv_trans; [by rewrite Hr1|].
  destruct (r =? chr "#")%Z; [by apply parseLenFunc_total|].
  do 3 tstep. eapply tot_scan; [done|auto with parse|].
  intros t s2 Hscan Hw2 Hin2 _ Hle Hlt. destruct t; try exact I. specialize (Hlt ltac:(done)).
  do 2 tstep. change (rem (set_mode _ _)) with (rem s1) in *.
  change (rem (set_escape _ _)) with (rem s) in *.
  destruct fuel as [|fuel]; [lia|].
  eapply tot_adv_trans; [exact Hle|eapply (parseOperator_total fuel)]; try done; try lia.
  - apply IH. lia.
  - eapply (scan_name (set_mode (set_accept s1 acceptIdent) scanIdent)); try done.
    unfold entry in *. simpl. rewrite Hb1, Hp1. done.
Qed.

Lemma parseAny_total fuel s :
  inb s → rem s < fuel → tot (λ _ _, True) (parseAny fuel s).
Proof.
  revert s. induction fuel as [|fuel IH]; intros s Hp Hn; [lia|].
  unfold parseAny; fold parseAny. do 3 tstep.
  eapply tot_scan; [done|auto with parse|].
  intros t s1 Hscan Hw1 Hin1 _ Hle Hlt. change (rem (set_escape _ _)) with (rem s) in *.
  assert (∀ left s2, inb s2 → rem s2 < rem s →
    tot (λ _ _, True) ((right ← parseAny fuel; mret (join left right)) s2)) as Hrest.
  { intros left s2 Hin2 Hr2. tstep. eapply tot_mono; [|apply IH; [done|lia]]. done. }
  destruct t; try exact I; specialize (Hlt ltac:(done)).
  - do 2 tstep. by apply Hrest.
  - tstep. eapply tot_mono; [|apply (parseFunc_total fuel); [done|by eapply scan_Lbrack_entry|lia]].
    intros left s2 [? ?]. apply Hrest; [done|lia].
Qed.
End functions.

Lemma Parse_ends `{Unicode} (b : bytes) :
  match Parse b with Ok _ | Err _ => True | Panic | NoFuel => False end.
Proof.
  unfold Parse. set (s := scanner_init _ _).
  assert (tot (λ _ _, True) (parseAny (S (length b)) s)) as Htot.
  { apply parseAny_total; [unfold inb|unfold rem]; simpl; lia. }
  by destruct (parseAny (S (length b)) s) as [[tree s']|e| |].
Qed.

(** C3. [Parse] is total: on every template, of any bytes, the parser returns
    a tree or one of its error values.  It never slices its buffer out of
    range, although it unreads by the width of the last rune looked at, and
    its loops and its recursion end within one round per byte. *)
Theorem Parse_total `{Unicode} (b : bytes) :
  (∃ tree, Parse b = Ok tree) ∨ (∃ e, Parse b = Err e).
Proof. pose proof (Parse_ends b). destruct (Parse b); [left|right|done..]; eauto. Qed.
