(* ===== verification/Glob.v ===== *)
(** * Shell patterns ([envsubst/path/match.go])

    The pattern matcher behind the prefix and suffix removal operators, and a
    declarative meaning of patterns: a sequence of stars and single-character
    elements.  [Match] decides that meaning on ASCII names although it never
    backtracks over an earlier star. *)

From S2P Require Import Prelude Utf8.

(** ** The code *)

(** Bytes of the pattern syntax. *)
Definition isc (a c : ascii) : bool := Ascii.eqb a c.

(** The results of [matchChunk]: what is left of the name, no match, a
    malformed pattern, an index out of range, or a loop that ran out of fuel. *)
Inductive chunk_result := Rest (rest : bytes) | NoMatch | BadPattern | IndexPanic | OutOfFuel.

(** [src/envsubst/path/match.go:184-206 getEsc]
    [None] is [ErrBadPattern]. *)
Definition getEsc (chunk : bytes) : option (Z * bytes) :=
  match chunk with
  | [] => None
  | c :: chunk1 =>
      if isc c "-" || isc c "]" then None
      else
        let chunk := if isc c "\" then chunk1 else chunk in
        match chunk with
        | [] => None
        | _ => let '(r, n) := DecodeRune chunk in
               if (r =? RuneError)%Z && (n =? 1) then None
               else let nchunk := drop n chunk in
                    match nchunk with [] => None | _ => Some (r, nchunk) end
        end
  end.

(** The loop over the ranges of a character class: whether [r] is in one of
    them, and the chunk behind the closing bracket.
    [src/envsubst/path/match.go:134-155 matchChunk] *)
Fixpoint class_loop (fuel : nat) (r : Z) (chunk : bytes) (matched : bool) (nrange : nat)
    : (bool * bytes) + chunk_result :=
  match fuel with
  | O => inr OutOfFuel
  | S fuel =>
      if match chunk with c :: _ => isc c "]" && (0 <? nrange) | [] => false end
      then inl (matched, drop 1 chunk)
      else
        match getEsc chunk with
        | None => inr BadPattern
        | Some (lo, []) => inr IndexPanic
        | Some (lo, (c :: chunk1) as chunk) =>
            if isc c "-" then
              match getEsc chunk1 with
              | None => inr BadPattern
              | Some (hi, chunk) =>
                  class_loop fuel r chunk (matched || in_range lo r hi) (S nrange)
              end
            else class_loop fuel r chunk (matched || in_range lo r lo) (S nrange)
        end
  end.

(** The literal case, which an escape falls through to.
    [src/envsubst/path/match.go:173-178 matchChunk] *)
Definition match_literal (chunk s : bytes) : option (bytes * bytes) :=
  match chunk, s with
  | c :: chunk, d :: s => if isc c d then Some (chunk, s) else None
  | _, _ => None
  end.

(** [src/envsubst/path/match.go:113-182 matchChunk] *)
Fixpoint matchChunk_loop (fuel : nat) (chunk s : bytes) : chunk_result :=
  match chunk with
  | [] => Rest s
  | c :: chunk1 =>
      match fuel with
      | O => OutOfFuel
      | S fuel =>
          match s with
          | [] => NoMatch
          | _ =>
              let literal (chunk : bytes) :=
                match match_literal chunk s with
                | Some (chunk, s) => matchChunk_loop fuel chunk s
                | None => NoMatch
                end in
              if isc c "[" then
                let '(r, n) := DecodeRune s in
                let s := drop n s in
                let notNegated := match chunk1 with d :: _ => negb (isc d "^") | [] => true end in
                let chunk := if notNegated then chunk1 else drop 1 chunk1 in
                match class_loop (S (length chunk)) r chunk false 0 with
                | inr e => e
                | inl (matched, chunk) =>
                    if eqb matched notNegated then matchChunk_loop fuel chunk s else NoMatch
                end
              else if isc c "?" then matchChunk_loop fuel chunk1 (drop (DecodeRune s).2 s)
              else if isc c "\" then match chunk1 with [] => BadPattern | _ => literal chunk1 end
              else literal chunk
          end
      end
  end.
(** [src/envsubst/path/match.go:113-182 matchChunk] *)
Definition matchChunk (chunk s : bytes) : chunk_result := matchChunk_loop (length chunk) chunk s.

(** [src/envsubst/path/match.go:90-109 scanChunk]
    How many bytes of the pattern come before the next star. *)
Fixpoint scan_len (pattern : bytes) (inrange : bool) : nat :=
  match pattern with
  | [] => 0
  | c :: rest =>
      if isc c "\" then match rest with [] => 1 | _ :: rest => 2 + scan_len rest inrange end
      else if isc c "[" then S (scan_len rest true)
      else if isc c "]" then S (scan_len rest false)
      else if isc c "*" && negb inrange then 0
      else S (scan_len rest inrange)
  end.

(** [src/envsubst/path/match.go:86-89 scanChunk] *)
Fixpoint skip_stars (pattern : bytes) : bool * bytes :=
  match pattern with
  | c :: rest => if isc c "*" then (true, (skip_stars rest).2) else (false, pattern)
  | [] => (false, [])
  end.

(** [src/envsubst/path/match.go:83-111 scanChunk] *)
Definition scanChunk (pattern : bytes) : bool * bytes * bytes :=
  let '(star, pattern) := skip_stars pattern in
  let i := scan_len pattern false in
  (star, take i pattern, drop i pattern).

(** The search behind a star, at the positions from [i] on.
    [src/envsubst/path/match.go:63-76 Match] *)
Fixpoint star_loop (chunk : bytes) (last : bool) (name : bytes) : chunk_result :=
  match name with
  | [] => NoMatch
  | _ :: name =>
      match matchChunk chunk name with
      | Rest t => if last && (0 <? length t) then star_loop chunk last name else Rest t
      | NoMatch => star_loop chunk last name
      | e => e
      end
  end.

Inductive match_result := Matched (b : bool) | MatchError | MatchPanic | MatchNoFuel.

(** The early exits of [Match] on a failed or malformed chunk.
    [src/envsubst/path/match.go:58-78 Match] *)
Definition chunk_exit (c : chunk_result) : match_result :=
  match c with
  | Rest _ | NoMatch => Matched false
  | BadPattern => MatchError
  | IndexPanic => MatchPanic
  | OutOfFuel => MatchNoFuel
  end.

(** [src/envsubst/path/match.go:36-81 Match] *)
Fixpoint Match_loop (fuel : nat) (pattern name : bytes) : match_result :=
  match pattern with
  | [] => Matched (length name =? 0)
  | _ =>
      match fuel with
      | O => MatchNoFuel
      | S fuel =>
          let '(star, chunk, pattern) := scanChunk pattern in
          if star && (length chunk =? 0) then Matched true
          else
            let skipping :=
              if star then
                match star_loop chunk (length pattern =? 0) name with
                | Rest t => Match_loop fuel pattern t
                | c => chunk_exit c
                end
              else Matched false in
            match matchChunk chunk name with
            | Rest t => if (length t =? 0) || (0 <? length pattern)
                        then Match_loop fuel pattern t else skipping
            | NoMatch => skipping
            | c => chunk_exit c
            end
      end
  end.
(** The fuel is enough for any pattern ([Match_total]).
    [src/envsubst/path/match.go:36-81 Match] *)
Definition Match (pattern name : bytes) : match_result := Match_loop (length pattern) pattern name.

(** ** The pattern language *)

(** The elements that match one character. *)
Inductive elem :=
  | Lit (c : ascii)
  | AnyRune
  | Class (notNegated : bool) (ranges : list (Z * Z)).

Inductive tok := Star | Elem (e : elem).

(** One character of a class: its bytes and its code point. *)
Inductive char_of : bytes → Z → Prop :=
  | char_plain c s r :
      DecodeRune (c :: s) = (r, S (length s)) → (r ≠ RuneError ∨ s ≠ []) →
      c ≠ "\"%char → c ≠ "-"%char → c ≠ "]"%char → char_of (c :: s) r
  | char_escaped s r :
      DecodeRune s = (r, length s) → (r ≠ RuneError ∨ length s ≠ 1) → s ≠ [] →
      char_of ("\"%char :: s) r.

(** The ranges of a class. *)
Inductive ranges_of : bytes → list (Z * Z) → Prop :=
  | ranges_nil : ranges_of [] []
  | ranges_one s r body rs :
      char_of s r → ranges_of body rs → ranges_of (s ++ body) ((r, r) :: rs)
  | ranges_range s lo t hi body rs :
      char_of s lo → char_of t hi → ranges_of body rs →
      ranges_of (s ++ "-"%char :: t ++ body) ((lo, hi) :: rs).

Definition special (c : ascii) : bool := isc c "*" || isc c "?" || isc c "\" || isc c "[".

(** The grammar of the documentation of [Match]. *)
Inductive pattern_of : bytes → list tok → Prop :=
  | pattern_nil : pattern_of [] []
  | pattern_star p ts : pattern_of p ts → pattern_of ("*"%char :: p) (Star :: ts)
  | pattern_any p ts : pattern_of p ts → pattern_of ("?"%char :: p) (Elem AnyRune :: ts)
  | pattern_lit c p ts :
      special c = false → pattern_of p ts → pattern_of (c :: p) (Elem (Lit c) :: ts)
  | pattern_esc c p ts :
      pattern_of p ts → pattern_of ("\"%char :: c :: p) (Elem (Lit c) :: ts)
  | pattern_class body rs p ts :
      ranges_of body rs → rs ≠ [] → head body ≠ Some "^"%char → pattern_of p ts →
      pattern_of ("["%char :: body ++ "]"%char :: p) (Elem (Class true rs) :: ts)
  | pattern_negated body rs p ts :
      ranges_of body rs → rs ≠ [] → pattern_of p ts →
      pattern_of ("["%char :: "^"%char :: body ++ "]"%char :: p) (Elem (Class false rs) :: ts).

Definition in_ranges (r : Z) (rs : list (Z * Z)) : bool :=
  existsb (λ b, in_range b.1 r b.2) rs.

(** What an element leaves of a name. *)
Definition elem_run (e : elem) (s : bytes) : option bytes :=
  match s with
  | [] => None
  | d :: s1 =>
      let '(r, n) := DecodeRune s in
      match e with
      | Lit c => if isc c d then Some s1 else None
      | AnyRune => Some (drop n s)
      | Class notNegated rs => if eqb (in_ranges r rs) notNegated then Some (drop n s) else None
      end
  end.

Fixpoint run (es : list elem) (s : bytes) : option bytes :=
  match es with
  | [] => Some s
  | e :: es => s1 ← elem_run e s; run es s1
  end.

(** A pattern matches a whole name. *)
Inductive matches : list tok → bytes → Prop :=
  | matches_nil : matches [] []
  | matches_star pre s ts : matches ts s → matches (Star :: ts) (pre ++ s)
  | matches_elem e s s' ts : elem_run e s = Some s' → matches ts s' → matches (Elem e :: ts) s.

(** ** Elements and chunks *)

(** A rune that is decoded from all of a string is decoded from every string
    it starts. *)
Lemma DecodeRune_app s t r :
  s ≠ [] → DecodeRune s = (r, length s) → (r ≠ RuneError ∨ length s ≠ 1) →
  DecodeRune (s ++ t) = (r, length s).
Proof.
  destruct s as [|c s]; [done|]. intros _. simpl. destruct (bval c <? 128)%Z eqn:Ec.
  { intros [= <- Hl] _. by rewrite Hl. }
  destruct (first_byte (bval c)) as [[[w lo] hi]|] eqn:Ef.
  2:{ intros [= <- Hl] [?|?]; by destruct s. }
  destruct w as [|[|[|[|[|]]]]], s as [|c1 [|c2 [|c3 [|]]]]; simpl;
    repeat case_match; intros Heq [?|?]; simplify_eq/=; try done.
Qed.

Lemma getEsc_char s r t : char_of s r → t ≠ [] → getEsc (s ++ t) = Some (r, t).
Proof.
  assert (∀ s r t, s ≠ [] → DecodeRune s = (r, length s) → (r ≠ RuneError ∨ length s ≠ 1) → t ≠ [] →
    (let '(r, n) := DecodeRune (s ++ t) in
     if (r =? RuneError)%Z && (n =? 1) then None
     else match drop n (s ++ t) with [] => None | _ => Some (r, drop n (s ++ t)) end)
    = Some (r, t)) as Hdec.
  { intros s0 r0 t0 Hne Hd Hv Ht. rewrite (DecodeRune_app _ _ _ Hne Hd Hv).
    replace ((r0 =? RuneError)%Z && (length s0 =? 1)) with false by
      (symmetry; apply andb_false_iff; rewrite Z.eqb_neq, Nat.eqb_neq; done).
    rewrite drop_app_length. by destruct t0. }
  destruct 1 as [c s r Hd Hv Hc1 Hc2 Hc3|s r Hd Hv Hne]; intros Ht.
  - unfold getEsc. simpl app. unfold isc.
    rewrite (proj2 (Ascii.eqb_neq c "-")), (proj2 (Ascii.eqb_neq c "]")), (proj2 (Ascii.eqb_neq c "\")) by done.
    simpl orb. cbv iota. apply (Hdec (c :: s)); auto. destruct s; [destruct Hv; [by left|done]|by right].
  - unfold getEsc. simpl app. cbv beta iota. destruct s as [|d s]; [done|].
    apply (Hdec (d :: s)); auto.
Qed.

Lemma char_of_nonempty s r : char_of s r → ∃ c s', s = c :: s' ∧ c ≠ "]"%char ∧ c ≠ "-"%char.
Proof. by destruct 1; eexists _, _. Qed.

Lemma ranges_of_head body rs :
  ranges_of body rs → match body with c :: _ => c ≠ "]"%char ∧ c ≠ "-"%char | [] => True end.
Proof.
  by destruct 1 as [|s r body rs Hc _|s lo t hi body rs Hc _ _]; [|
    destruct (char_of_nonempty _ _ Hc) as (c & s' & -> & ? & ?)..].
Qed.

(** The class loop computes membership in the ranges. *)
Lemma class_loop_ranges body rs fuel r p matched nrange :
  ranges_of body rs → length body < fuel → (0 < nrange ∨ rs ≠ []) →
  class_loop fuel r (body ++ "]"%char :: p) matched nrange = inl (matched || in_ranges r rs, p).
Proof.
  intros Hr. revert fuel matched nrange. induction Hr as
    [|s r' body rs Hs Hbody IH|s lo t hi body rs Hs Ht Hbody IH]; intros [|fuel] matched nrange Hf Hn;
    try lia; cbn [class_loop].
  - destruct Hn as [Hn|]; [|done]. simpl. rewrite (proj2 (Nat.ltb_lt 0 _) Hn). simpl.
    by rewrite orb_false_r, drop_0.
  - destruct (char_of_nonempty _ _ Hs) as (c & s' & Es & Hc & _).
    pose proof (ranges_of_head _ _ Hbody) as Hhead.
    rewrite <- app_assoc, (getEsc_char _ _ _ Hs) by (by destruct body).
    rewrite Es. cbn [app]. unfold isc at 1. rewrite (proj2 (Ascii.eqb_neq c "]")) by done.
    cbn [andb]. rewrite length_app, Es in Hf. simpl in Hf.
    assert (∀ m, class_loop fuel r (body ++ "]"%char :: p) m (S nrange)
      = inl (m || in_ranges r rs, p)) as IH'. { intros m. apply IH; [lia|left; lia]. }
    destruct body as [|d body]; cbn [app] in *.
    + rewrite IH'. simpl. by rewrite orb_assoc.
    + unfold isc. rewrite (proj2 (Ascii.eqb_neq d "-")) by tauto.
      rewrite IH'. simpl. by rewrite orb_assoc.
  - destruct (char_of_nonempty _ _ Hs) as (c & s' & Es & Hc & _).
    rewrite <- app_assoc, (getEsc_char _ _ _ Hs) by done. cbn [app].
    rewrite Es. cbn [app]. unfold isc at 1. rewrite (proj2 (Ascii.eqb_neq c "]")) by done.
    cbn [andb]. change (isc "-" "-") with true. cbv iota.
    rewrite <- app_assoc, (getEsc_char _ _ _ Ht) by (by destruct body).
    rewrite IH; [simpl; by rewrite orb_assoc| |left; lia].
    rewrite length_app in Hf. simpl in Hf. rewrite length_app in Hf. lia.
Qed.

Lemma run_cons e es s t :
  elem_run e s = Some t → run (e :: es) s = run es t.
Proof. intros E. simpl. by rewrite E. Qed.

(** The bracket case of [matchChunk]. *)
Lemma matchChunk_class fuel nn body rs p d s :
  ranges_of body rs → rs ≠ [] → (nn = true → head body ≠ Some "^"%char) →
  matchChunk_loop (S fuel)
    ("["%char :: (if nn then [] else ["^"%char]) ++ body ++ "]"%char :: p) (d :: s) =
  match elem_run (Class nn rs) (d :: s) with
  | Some t => matchChunk_loop fuel p t
  | None => NoMatch
  end.
Proof.
  intros Hr Hne Hh. cbn [matchChunk_loop]. change (isc "[" "[") with true. cbv iota.
  unfold elem_run. destruct (DecodeRune (d :: s)) as [r n].
  assert (∀ f, f = S (length (body ++ "]"%char :: p)) →
    class_loop f r (body ++ "]"%char :: p) false 0 = inl (in_ranges r rs, p)) as Hl.
  { intros f ->. apply (class_loop_ranges body rs); [done| |auto]. rewrite length_app. simpl. lia. }
  assert (nn = true → match body ++ "]"%char :: p with d :: _ => negb (isc d "^") | [] => true end = true)
    as Hhead.
  { intros Hnn. specialize (Hh Hnn). destruct body as [|b body]; [done|]. simpl in *.
    unfold isc. rewrite (proj2 (Ascii.eqb_neq b "^")); [done|congruence]. }
  destruct nn; cbn [app].
  - rewrite Hhead, Hl by done. by destruct (in_ranges r rs).
  - change (negb (isc "^" "^")) with false. cbv iota. cbn [drop]. rewrite drop_0, Hl by done.
    by destruct (in_ranges r rs).
Qed.

(** The literal case. *)
Lemma match_literal_spec c p d s :
  match_literal (c :: p) (d :: s) = (λ t, (p, t)) <$> elem_run (Lit c) (d :: s).
Proof. unfold match_literal, elem_run. destruct (DecodeRune (d :: s)). by destruct (isc c d). Qed.

(** A chunk without stars runs its elements one after the other. *)
Lemma matchChunk_run chunk ts es fuel s :
  pattern_of chunk ts → ts = Elem <$> es → length chunk <= fuel →
  matchChunk_loop fuel chunk s = match run es s with Some t => Rest t | None => NoMatch end.
Proof.
  intros Hp. revert es fuel s. induction Hp as
    [|p ts Hp IH|p ts Hp IH|c p ts Hc Hp IH|c p ts Hp IH|body rs p ts Hr Hne Hh Hp IH
    |body rs p ts Hr Hne Hp IH]; intros es fuel s Ets Hf;
    (destruct es as [|e es]; [done || by destruct fuel|]); simplify_eq/=;
    (destruct fuel as [|fuel]; [simpl in Hf; lia|]);
    (destruct s as [|d s]; [done|]).
  - change (matchChunk_loop fuel p (drop (DecodeRune (d :: s)).2 (d :: s)) =
      match (s1 ← elem_run AnyRune (d :: s); run es s1) with Some t => Rest t | None => NoMatch end).
    unfold elem_run. destruct (DecodeRune (d :: s)) as [r n]. simpl in *. apply IH; [done|lia].
  - unfold special in Hc. rewrite !orb_false_iff in Hc. destruct Hc as [[[_ H1] H2] H3].
    cbn [matchChunk_loop]. rewrite H1, H2, H3, match_literal_spec.
    destruct (elem_run (Lit c) (d :: s)) as [t|] eqn:E; simpl; [|done].
    apply IH; [done|lia].
  - cbn [matchChunk_loop]. change (isc "\" "[") with false. change (isc "\" "?") with false.
    change (isc "\" "\") with true. cbv iota. rewrite match_literal_spec.
    destruct (elem_run (Lit c) (d :: s)) as [t|] eqn:E; simpl; [|done].
    apply IH; [done|simpl in Hf; lia].
  - etrans; [by apply (matchChunk_class fuel true body rs p d s)|]. rewrite length_app in Hf. simpl in Hf.
    destruct (elem_run (Class true rs) (d :: s)) as [t|] eqn:E; simpl; [|done].
    apply IH; [done|lia].
  - etrans; [by apply (matchChunk_class fuel false body rs p d s)|]. rewrite length_app in Hf. simpl in Hf.
    destruct (elem_run (Class false rs) (d :: s)) as [t|] eqn:E; simpl; [|done].
    apply IH; [done|lia].
Qed.

(** ** Chunks of a pattern *)

(** Inside a class no byte of the ranges ends it. *)
Lemma scan_len_char s r t : char_of s r → scan_len (s ++ t) true = length s + scan_len t true.
Proof.
  assert (∀ s t, Forall (λ d, (128 <= bval d)%Z) s →
    scan_len (s ++ t) true = length s + scan_len t true) as Hhigh.
  { intros s0 t0. induction 1 as [|d s0 Hd _ IH]; [done|]. cbn [app scan_len].
    assert (∀ c, (bval c < 128)%Z → isc d c = false) as Hd'.
    { intros c Hc. unfold isc. apply Ascii.eqb_neq. intros ->. lia. }
    rewrite !Hd' by done. simpl. by rewrite IH. }
  assert (∀ c s r, DecodeRune (c :: s) = (r, S (length s)) →
    Forall (λ d, (128 <= bval d)%Z) s) as Htail.
  { intros c s0 r0 E. pose proof (DecodeRune_cases (c :: s0)) as Hd. cbv iota in Hd. rewrite E in Hd.
    destruct Hd as [(_ & Hl)|(_ & _ & _ & Hall)].
    - destruct s0; [constructor|by simplify_eq/=].
    - rewrite take_ge in Hall by (simpl; lia). by inversion Hall. }
  destruct 1 as [c s r Hd _ H1 H2 H3|[|c s] r Hd _ Hne]; [|done|].
  - cbn [app scan_len length]. unfold isc.
    rewrite (proj2 (Ascii.eqb_neq c "\")), (proj2 (Ascii.eqb_neq c "]")) by done.
    rewrite (Hhigh s t) by eauto. destruct (Ascii.eqb c "["); [done|].
    by rewrite andb_false_r.
  - cbn [app scan_len length]. change (isc "\" "\") with true. cbv iota.
    rewrite (Hhigh s t) by eauto. lia.
Qed.

Lemma scan_len_ranges body rs p :
  ranges_of body rs → scan_len (body ++ "]"%char :: p) true = S (length body + scan_len p false).
Proof.
  induction 1 as [|s r body rs Hs _ IH|s lo t hi body rs Hs Ht _ IH]; [done|..].
  - rewrite <- app_assoc, (scan_len_char _ _ _ Hs), IH, length_app. lia.
  - rewrite <- app_assoc, (scan_len_char _ _ _ Hs). cbn [app].
    change (scan_len ("-"%char :: (t ++ body) ++ "]"%char :: p) true)
      with (S (scan_len ((t ++ body) ++ "]"%char :: p) true)).
    rewrite <- app_assoc, (scan_len_char _ _ _ Ht), IH, !length_app. simpl. rewrite length_app. lia.
Qed.

(** A token list that is empty or goes on with a star. *)
Definition at_star (ts : list tok) : Prop := match ts with [] | Star :: _ => True | _ => False end.

(** [scanChunk] cuts the pattern right before the next star. *)
Lemma scan_len_chunk p ts :
  pattern_of p ts →
  ∃ es ts', ts = (Elem <$> es) ++ ts' ∧ at_star ts' ∧
    pattern_of (take (scan_len p false) p) (Elem <$> es) ∧
    pattern_of (drop (scan_len p false) p) ts'.
Proof.
  induction 1 as [|p ts Hp IH|p ts Hp IH|c p ts Hc Hp IH|c p ts Hp IH|body rs p ts Hr Hne Hh Hp IH
    |body rs p ts Hr Hne Hp IH].
  1: { exists [], []. repeat constructor. }
  1: { exists [], (Star :: ts). repeat constructor. done. }
  all: destruct IH as (es & ts' & -> & Hts' & Htake & Hdrop).
  - exists (AnyRune :: es), ts'. split_and!; [done|done|by constructor|done].
  - exists (Lit c :: es), ts'. unfold special in Hc. rewrite !orb_false_iff in Hc.
    destruct Hc as [[[H1 H2] H3] H4].
    assert (scan_len (c :: p) false = S (scan_len p false)) as ->.
    { cbn [scan_len]. rewrite H3, H4, H1. by destruct (isc c "]"). }
    split_and!; [done|done| |done]. cbn [take]. constructor; [|done]. unfold special. by rewrite H1, H2, H3, H4.
  - exists (Lit c :: es), ts'. split_and!; [done|done|by constructor|done].
  - exists (Class true rs :: es), ts'.
    assert (scan_len ("["%char :: body ++ "]"%char :: p) false =
      S (length body + S (scan_len p false))) as ->.
    { change (S (scan_len (body ++ "]"%char :: p) true) = S (length body + S (scan_len p false))).
      rewrite (scan_len_ranges _ _ _ Hr). lia. }
    cbn [take drop]. rewrite take_app_add, drop_app_add. cbn [take drop].
    split_and!; [done|done| |done]. by apply (pattern_class body rs).
  - exists (Class false rs :: es), ts'.
    assert (scan_len ("["%char :: "^"%char :: body ++ "]"%char :: p) false =
      S (S (length body + S (scan_len p false)))) as ->.
    { change (S (S (scan_len (body ++ "]"%char :: p) true)) = S (S (length body + S (scan_len p false)))).
      rewrite (scan_len_ranges _ _ _ Hr). lia. }
    cbn [take drop]. rewrite take_app_add, drop_app_add. cbn [take drop].
    split_and!; [done|done| |done]. by apply (pattern_negated body rs).
Qed.

Lemma skip_stars_spec p ts :
  pattern_of p ts →
  ∃ ts', pattern_of (skip_stars p).2 ts' ∧ (head (skip_stars p).2 ≠ Some "*"%char) ∧
    length (skip_stars p).2 <= length p ∧
    ((skip_stars p).1 = false → ts = ts' ∧ (skip_stars p).2 = p) ∧
    ((skip_stars p).1 = true → length (skip_stars p).2 < length p ∧
       ∀ s, matches ts s ↔ matches (Star :: ts') s).
Proof.
  assert (∀ c p ts, isc c "*" = false → pattern_of (c :: p) ts →
    ∃ ts', pattern_of (skip_stars (c :: p)).2 ts' ∧ (head (skip_stars (c :: p)).2 ≠ Some "*"%char) ∧
      length (skip_stars (c :: p)).2 <= length (c :: p) ∧
      ((skip_stars (c :: p)).1 = false → ts = ts' ∧ (skip_stars (c :: p)).2 = c :: p) ∧
      ((skip_stars (c :: p)).1 = true → length (skip_stars (c :: p)).2 < length (c :: p) ∧
         ∀ s, matches ts s ↔ matches (Star :: ts') s)) as Hother.
  { intros c p0 ts0 Hc Hp. exists ts0. cbn [skip_stars]. rewrite Hc. cbn [fst snd head].
    split_and!; try done. intros [= ->]. done. }
  induction 1 as [|p ts Hp IH|p ts Hp IH|c p ts Hc Hp IH|c p ts Hp IH|body rs p ts Hr Hne Hh Hp IH
    |body rs p ts Hr Hne Hp IH].
  2:{ destruct IH as (ts' & Hp' & Hh & Hlen & Hf & Ht). exists ts'. cbn [skip_stars].
      change (isc "*" "*") with true. cbv iota. cbn [fst snd length].
      split_and!; [done|done|lia|done|]. intros _. split; [lia|]. intros s.
      destruct (skip_stars p).1.
      - destruct (Ht eq_refl) as [_ Heq]. split; inversion 1; subst.
        + rewrite Heq in *. match goal with H : matches (Star :: ts') _ |- _ => inversion H; subst end.
          rewrite app_assoc. by constructor.
        + constructor. rewrite Heq. apply (matches_star []). done.
      - by destruct (Hf eq_refl) as [-> _]. }
  all: try (apply Hother; [done|by constructor]).
  - exists []. repeat split; try constructor; done.
  - apply Hother; [|by constructor]. unfold special in Hc. by destruct (isc c "*").
Qed.

(** ** Greedy search is complete *)

Definition ascii_string (s : bytes) : Prop := Forall (λ c, (bval c < 128)%Z) s.

Lemma DecodeRune_ascii c s : (bval c < 128)%Z → DecodeRune (c :: s) = (bval c, 1).
Proof. intros Hc. simpl. by rewrite (proj2 (Z.ltb_lt _ _)). Qed.

(** On ASCII names every element takes one byte. *)
Lemma run_ascii es s t : ascii_string s → run es s = Some t → t = drop (length es) s.
Proof.
  revert s. induction es as [|e es IH]; intros s Hs; [intros [= <-]; by rewrite drop_0|].
  cbn [run]. destruct s as [|d s]; [done|]. apply Forall_cons in Hs as [Hd Hs'].
  unfold elem_run. rewrite DecodeRune_ascii by done.
  change (drop 1 (d :: s)) with (drop 0 s). rewrite drop_0. cbn [length drop].
  repeat case_match; simpl; try done; by apply IH.
Qed.

Lemma matches_chunk es ts s :
  matches ((Elem <$> es) ++ ts) s ↔ ∃ t, run es s = Some t ∧ matches ts t.
Proof.
  revert s. induction es as [|e es IH]; intros s; simpl.
  { split; [by eauto|]. by intros (t & [= ->] & ?). }
  split.
  - inversion 1 as [| |? ? s' ? He Hm]; subst. rewrite He. simpl. by apply IH.
  - intros (t & Hr & Hm). destruct (elem_run e s) as [s'|] eqn:He; [|done]. simpl in Hr.
    econstructor; [done|]. apply IH. eauto.
Qed.

Lemma matches_star_drop ts s : matches (Star :: ts) s ↔ ∃ i, i <= length s ∧ matches ts (drop i s).
Proof.
  split.
  - inversion 1 as [|pre s' ? Hm|]; subst. exists (length pre). rewrite drop_app_length, length_app. split; [lia|done].
  - intros (i & _ & Hm). rewrite <- (take_drop i s). by constructor.
Qed.

Lemma matches_suffix ts pre s : at_star ts → ts ≠ [] → matches ts s → matches ts (pre ++ s).
Proof.
  intros Ha Hne. destruct ts as [|[|] ts]; [done| |done].
  inversion 1; subst. rewrite app_assoc. by constructor.
Qed.

(** The code accepts a match of the chunk, unless it is the last one and does
    not reach the end. *)
Definition good (es : list elem) (last : bool) (s t : bytes) : Prop :=
  run es s = Some t ∧ (last = true → t = []).

(** Taking the first position where the chunk matches loses nothing: what
    follows starts with a star. *)
Lemma greedy_complete es ts last name i t :
  ascii_string name → at_star ts → (last = true ↔ ts = []) → good es last (drop i name) t →
  (∀ j t', j < i → ¬ good es last (drop j name) t') →
  matches (Star :: (Elem <$> es) ++ ts) name → matches ts t.
Proof.
  intros Ha Hts Hlast [Hrun Ht] Hleast. rewrite matches_star_drop. intros (j & _ & Hm).
  apply matches_chunk in Hm as (t' & Hrun' & Hm).
  assert (last = true → t' = []) as Ht'. { rewrite Hlast. intros ->. by inversion Hm. }
  destruct (decide (j < i)) as [Hlt|Hge]; [by exfalso; eapply (Hleast j t')|].
  destruct (decide (ts = [])) as [->|Hne]; [by rewrite Ht by tauto; constructor|].
  rewrite (run_ascii es (drop i name) t), drop_drop by (done || by apply Forall_drop).
  rewrite (run_ascii es (drop j name) t'), drop_drop in Hm by (done || by apply Forall_drop).
  assert (drop (j + length es) name = drop (j - i) (drop (i + length es) name)) as E.
  { rewrite drop_drop. f_equal. lia. }
  rewrite E in Hm. rewrite <- (take_drop (j - i) (drop (i + length es) name)).
  by apply matches_suffix.
Qed.

Section correct.
Context (chunk : bytes) (es : list elem).
Context (Hchunk : pattern_of chunk (Elem <$> es)).

Lemma matchChunk_es s : matchChunk chunk s = match run es s with Some t => Rest t | None => NoMatch end.
Proof. by apply (matchChunk_run chunk (Elem <$> es)). Qed.

(** The star loop finds the first good position behind the current one. *)
Lemma star_loop_first last name :
  (∃ i t, star_loop chunk last name = Rest t ∧ 1 <= i ∧ good es last (drop i name) t ∧
     ∀ j t', 1 <= j < i → ¬ good es last (drop j name) t') ∨
  (star_loop chunk last name = NoMatch ∧
     ∀ j t', 1 <= j <= length name → ¬ good es last (drop j name) t').
Proof.
  induction name as [|c name IH]; [right; split; [done|]; simpl; intros; lia|].
  assert ((∀ t, ¬ good es last name t) →
    (star_loop chunk last (c :: name) = star_loop chunk last name) →
    (∃ i t, star_loop chunk last (c :: name) = Rest t ∧ 1 <= i ∧ good es last (drop i (c :: name)) t ∧
       ∀ j t', 1 <= j < i → ¬ good es last (drop j (c :: name)) t') ∨
    (star_loop chunk last (c :: name) = NoMatch ∧
       ∀ j t', 1 <= j <= length (c :: name) → ¬ good es last (drop j (c :: name)) t')) as Hskip.
  { intros Hbad ->. destruct IH as [(i & t & E & Hi & Hg & Hl)|(E & Hl)].
    - left. exists (S i), t. split_and!; [done|lia|done|]. intros [|[|j]] t' Hj; [lia| |].
      + simpl. rewrite drop_0. apply Hbad.
      + apply (Hl (S j)). lia.
    - right. split; [done|]. intros [|[|j]] t' Hj; [lia| |].
      + simpl. rewrite drop_0. apply Hbad.
      + apply (Hl (S j)). simpl in Hj. lia. }
  cbn [star_loop] in Hskip |- *. rewrite matchChunk_es in Hskip |- *.
  destruct (run es name) as [t|] eqn:Erun.
  - destruct (last && (0 <? length t)) eqn:El.
    + apply Hskip; [|done]. intros t' [Hr Ht']. simplify_eq. destruct last; [|done].
      rewrite Ht' in El by done. done.
    + left. exists 1, t. split_and!; [done|done| |intros; lia]. simpl. rewrite drop_0.
      split; [done|]. intros ->. destruct t; [done|by simpl in El].
  - apply Hskip; [|done]. intros t' [Hr _]. congruence.
Qed.
End correct.

Lemma pattern_of_nil ts : pattern_of [] ts → ts = [].
Proof. inversion 1; subst; try done. Qed.

Lemma pattern_of_tokens_nil p : pattern_of p [] → p = [].
Proof. by inversion 1. Qed.

Lemma pattern_of_star p ts : pattern_of p (Star :: ts) → head p = Some "*"%char.
Proof. by inversion 1. Qed.

(** One round of [scanChunk] on a pattern that is not empty. *)
Lemma scanChunk_spec p ts :
  pattern_of p ts → p ≠ [] →
  ∃ star chunk rest es ts',
    scanChunk p = (star, chunk, rest) ∧ pattern_of chunk (Elem <$> es) ∧ pattern_of rest ts' ∧
    at_star ts' ∧ (chunk = [] → star = true ∧ ts' = []) ∧ length rest < length p ∧
    ∀ s, matches ts s ↔
      matches ((if star : bool then [Star] else []) ++ (Elem <$> es) ++ ts') s.
Proof.
  intros Hp Hne. unfold scanChunk.
  destruct (skip_stars_spec p ts Hp) as (ts1 & Hq & Hhd & Hlen & Hf & Ht).
  destruct (skip_stars p) as [star q]. simpl in *.
  destruct (scan_len_chunk q ts1 Hq) as (es & ts' & -> & Hat & Hc & Hr).
  assert (take (scan_len q false) q = [] → es = [] ∧ q = []) as Hempty.
  { intros E. rewrite E in Hc. apply pattern_of_nil in Hc.
    assert (es = []) as -> by by destruct es. split; [done|]. simpl in Hq.
    destruct ts' as [|[|] ts']; [by apply pattern_of_tokens_nil| |done].
    by apply pattern_of_star in Hq. }
  eexists star, _, _, es, ts'. split_and!; try done.
  - intros E. destruct (Hempty E) as [-> ->]. apply pattern_of_nil in Hq. simpl in Hq.
    destruct star; [done|]. by destruct (Hf eq_refl) as [_ <-].
  - rewrite length_drop. destruct star.
    + destruct (Ht eq_refl). lia.
    + destruct (Hf eq_refl) as [_ <-]. destruct (scan_len q false) eqn:E; [|destruct q; [done|simpl; lia]].
      by destruct (Hempty ltac:(by rewrite take_0)).
  - destruct star; [by destruct (Ht eq_refl)|]. by destruct (Hf eq_refl) as [-> _].
Qed.

(** The result decides whether the tokens match: soundly on every name,
    completely on ASCII names. *)
Definition decides (ts : list tok) (name : bytes) (r : match_result) : Prop :=
  ∃ b, r = Matched b ∧ (b = true → matches ts name) ∧ (ascii_string name → matches ts name → b = true).

(** One round of [Match]: a chunk behind an optional star, given that the rest
    of the pattern is decided. *)
Section round.
Context (fuel : nat) (star : bool) (chunk rest : bytes) (es : list elem) (ts : list tok).
Context (Hchunk : pattern_of chunk (Elem <$> es)) (Hrest : pattern_of rest ts) (Hat : at_star ts).
Context (IH : ∀ t, decides ts t (Match_loop fuel rest t)).

Local Definition round_tokens : list tok := (if star then [Star] else []) ++ (Elem <$> es) ++ ts.
Local Definition round_last : bool := length rest =? 0.

Lemma round_last_iff : round_last = true ↔ ts = [].
Proof.
  unfold round_last. rewrite Nat.eqb_eq. split.
  - intros E%nil_length_inv. pose proof Hrest as Hr. rewrite E in Hr. by apply pattern_of_nil.
  - intros E. pose proof Hrest as Hr. rewrite E in Hr. by apply pattern_of_tokens_nil in Hr as ->.
Qed.

(** Going on behind the first good position decides the round. *)
Lemma round_go name i t :
  good es round_last (drop i name) t → (star = false → i = 0) →
  (∀ j t', j < i → ¬ good es round_last (drop j name) t') →
  decides round_tokens name (Match_loop fuel rest t).
Proof.
  intros Hg Hi Hleast. destruct (IH t) as (b & Eb & Hs & Hco). exists b. split; [done|].
  pose proof Hg as [Hrun Ht]. unfold round_tokens.
  split; [intros Hb; specialize (Hs Hb)|intros Ha Hm; apply Hco].
  - destruct star; simpl.
    + rewrite <- (take_drop i name). constructor. apply matches_chunk. eauto.
    + rewrite Hi, drop_0 in Hrun by done. apply matches_chunk. eauto.
  - rewrite (run_ascii es (drop i name) t) by (done || by apply Forall_drop). by repeat apply Forall_drop.
  - destruct star; simpl in Hm.
    + eapply greedy_complete; eauto. apply round_last_iff.
    + rewrite Hi, drop_0 in Hrun by done. apply matches_chunk in Hm as (t' & ? & ?). by simplify_eq.
Qed.

(** A match of the chunk and the rest is a good position. *)
Lemma round_good name i :
  matches ((Elem <$> es) ++ ts) (drop i name) → ∃ t, good es round_last (drop i name) t.
Proof.
  intros (t & Hrun & Hm)%matches_chunk. exists t. split; [done|].
  intros Hl%round_last_iff. rewrite Hl in Hm. by inversion Hm.
Qed.

(** Searching behind the star decides the round when the current position is
    no good. *)
Lemma round_skip name :
  (∀ t, ¬ good es round_last name t) →
  decides round_tokens name
    (if star then match star_loop chunk round_last name with
                  | Rest t => Match_loop fuel rest t | c => chunk_exit c end
     else Matched false).
Proof.
  intros Hbad. unfold round_tokens. destruct star eqn:Estar.
  - destruct (star_loop_first chunk es Hchunk round_last name) as [(i & t & -> & Hi & Hg & Hl)|(-> & Hl)].
    + change (decides ([Star] ++ (Elem <$> es) ++ ts) name (Match_loop fuel rest t)).
      pose proof (round_go name i t Hg) as Hgo. unfold round_tokens in Hgo. rewrite Estar in Hgo.
      apply Hgo; [done|]. intros [|j] t' Hj; [rewrite drop_0; apply Hbad|apply Hl; lia].
    + exists false. split_and!; [done|done|]. intros _ (i & Hi & Hm)%matches_star_drop.
      destruct (round_good name i Hm) as [t Hg]. exfalso. destruct i as [|i].
      * rewrite drop_0 in Hg. by eapply Hbad.
      * eapply Hl; [|done]. lia.
  - exists false. split_and!; [done|done|]. intros _ Hm.
    rewrite <- (drop_0 name) in Hm. destruct (round_good name 0 Hm) as [t Hg].
    exfalso. rewrite drop_0 in Hg. by eapply Hbad.
Qed.
End round.

Lemma Match_loop_correct fuel p ts name :
  pattern_of p ts → length p <= fuel → decides ts name (Match_loop fuel p name).
Proof.
  revert p ts name. induction fuel as [|fuel IH]; intros p ts name Hp Hf; destruct p as [|c p]; simpl in Hf.
  1,3: apply pattern_of_nil in Hp as ->; exists (length name =? 0); (split; [done|]); split;
    [destruct name; [constructor|done]|intros _ Hm; by inversion Hm].
  { lia. }
  destruct (scanChunk_spec _ _ Hp ltac:(done))
    as (star & chunk & rest & es & ts' & E & Hc & Hr & Hat & Hempty & Hlen & Hiff).
  unfold Match_loop; fold Match_loop. rewrite E. unfold decides. setoid_rewrite Hiff. clear Hiff Hp E.
  destruct (star && (length chunk =? 0)) eqn:Elast.
  { apply andb_true_iff in Elast as [-> Hl]. apply Nat.eqb_eq, nil_length_inv in Hl as ->.
    destruct (Hempty eq_refl) as [_ ->]. apply pattern_of_nil in Hc. destruct es; [|done].
    exists true. split_and!; try done. intros _. simpl. rewrite <- (app_nil_r name). repeat constructor. }
  assert (∀ t, decides ts' t (Match_loop fuel rest t)) as IH'.
  { intros t. apply IH; [done|]. simpl in Hlen. lia. }
  rewrite (matchChunk_es chunk es Hc).
  destruct (run es name) as [t|] eqn:Erun.
  2:{ eapply (round_skip fuel star chunk rest es ts'); eauto. intros t [? _]. congruence. }
  destruct ((length t =? 0) || (0 <? length rest)) eqn:Etaken.
  - apply (round_go fuel star rest es ts' Hr Hat IH' name 0); [rewrite drop_0; split; [done|]|done|intros; lia].
    unfold round_last. intros Hl%Nat.eqb_eq. rewrite Hl in Etaken. destruct t; [done|by simpl in Etaken].
  - eapply (round_skip fuel star chunk rest es ts'); eauto. intros t' [? Ht']. simplify_eq.
    apply orb_false_iff in Etaken as [H1 H2].
    assert (round_last rest = true) as Hl. { unfold round_last. destruct rest; done. }
    by rewrite Ht' in H1.
Qed.

(** ** Malformed patterns *)

Lemma getEsc_shrinks chunk r rest :
  getEsc chunk = Some (r, rest) → rest ≠ [] ∧ length rest < length chunk.
Proof.
  assert (∀ chunk, match chunk with [] => None | _ =>
      let '(r, n) := DecodeRune chunk in
      if (r =? RuneError)%Z && (n =? 1) then None
      else match drop n chunk with [] => None | _ => Some (r, drop n chunk) end end = Some (r, rest) →
    rest ≠ [] ∧ length rest < length chunk) as Hgo.
  { intros [|c s]; [done|]. pose proof (DecodeRune_cases (c :: s)) as Hd. cbv iota in Hd.
    destruct (DecodeRune (c :: s)) as [r' n] eqn:E. destruct (_ && _); [done|].
    assert (1 <= n) as Hn. { destruct Hd as [(_ & Hd)|(_ & _ & Hd & _)]; [by simplify_eq|simpl in Hd; lia]. }
    destruct (drop n (c :: s)) eqn:Ed; [done|]. intros [= <- <-]. split; [done|].
    rewrite <- Ed, length_drop. simpl. lia. }
  unfold getEsc. destruct chunk as [|c s]; [done|]. destruct (_ || _); [done|].
  intros E. apply Hgo in E as [? Hl]. split; [done|]. destruct (isc c "\"); simpl in *; lia.
Qed.

Lemma class_loop_total fuel r chunk m n :
  length chunk < fuel →
  match class_loop fuel r chunk m n with
  | inl (_, rest) => length rest <= length chunk
  | inr e => e = BadPattern
  end.
Proof.
  revert chunk m n. induction fuel as [|fuel IH]; intros chunk m n Hf; [lia|]. cbn [class_loop].
  destruct (match chunk with c :: _ => isc c "]" && (0 <? n) | [] => false end).
  { rewrite length_drop. lia. }
  destruct (getEsc chunk) as [[lo [|c rest]]|] eqn:E; [by apply getEsc_shrinks in E as [? _]| |done].
  apply getEsc_shrinks in E as [_ Hl]. simpl in Hl.
  destruct (isc c "-").
  - destruct (getEsc rest) as [[hi rest']|] eqn:E'; [|done].
    apply getEsc_shrinks in E' as [_ Hl'].
    specialize (IH rest' (m || in_range lo r hi) (S n) ltac:(lia)).
    destruct class_loop as [[? ?]|]; [lia|done].
  - specialize (IH (c :: rest) (m || in_range lo r lo) (S n) ltac:(simpl; lia)).
    destruct class_loop as [[? ?]|]; [simpl in IH; lia|done].
Qed.

(** A chunk matches, does not match or is malformed, whatever its bytes. *)
Lemma matchChunk_total chunk s : matchChunk chunk s ≠ IndexPanic ∧ matchChunk chunk s ≠ OutOfFuel.
Proof.
  unfold matchChunk. assert (length chunk <= length chunk) as Hf by done. revert Hf.
  generalize (length chunk) at 2 3 4 as fuel. intros fuel. revert chunk s.
  induction fuel as [|fuel IH]; intros chunk s Hf; destruct chunk as [|c chunk]; simpl in Hf; try done.
  { lia. }
  unfold matchChunk_loop; fold matchChunk_loop. destruct s as [|d s]; [done|].
  destruct (isc c "[").
  { destruct (DecodeRune (d :: s)) as [r n].
    set (nn := match chunk with d :: _ => negb (isc d "^") | [] => true end).
    set (chunk' := if nn then chunk else drop 1 chunk).
    assert (length chunk' <= length chunk) as Hl.
    { unfold chunk'. destruct nn; [done|]. rewrite length_drop. lia. }
    pose proof (class_loop_total (S (length chunk')) r chunk' false 0 ltac:(lia)) as Hc.
    destruct class_loop as [[m rest]|e]; [|by subst]. destruct (eqb m nn); [|done]. apply IH. lia. }
  destruct (isc c "?"); [apply IH; lia|].
  destruct (isc c "\"); [destruct chunk as [|c' chunk]; [done|]|]; cbn [match_literal];
    (destruct (isc _ _); [apply IH; simpl in *; lia|done]).
Qed.

Lemma star_loop_total chunk last name :
  star_loop chunk last name ≠ IndexPanic ∧ star_loop chunk last name ≠ OutOfFuel.
Proof.
  induction name as [|c name IH]; [done|]. cbn [star_loop].
  pose proof (matchChunk_total chunk name). destruct (matchChunk chunk name); try done.
  by destruct (last && _).
Qed.

Lemma scanChunk_shrinks p star chunk rest :
  p ≠ [] → scanChunk p = (star, chunk, rest) → length rest < length p.
Proof.
  assert (∀ p, length (skip_stars p).2 <= length p ∧
    ((skip_stars p).1 = true → length (skip_stars p).2 < length p) ∧
    ((skip_stars p).1 = false → p ≠ [] → 0 < scan_len (skip_stars p).2 false)) as Hs.
  { intros q. induction q as [|c q (H1 & H2 & H3)]; [done|]. cbn [skip_stars].
    destruct (isc c "*") eqn:Ec; cbn [fst snd length]; [split_and!; [lia|lia|done]|].
    split_and!; [lia|done|]. intros _ _. cbn [scan_len]. rewrite Ec. repeat case_match; simpl; lia. }
  intros Hne. unfold scanChunk. specialize (Hs p). destruct (skip_stars p) as [star' q]. simpl in Hs.
  intros [= <- <- <-]. rewrite length_drop. destruct Hs as (H1 & H2 & H3).
  destruct star'; [specialize (H2 eq_refl); lia|]. specialize (H3 eq_refl Hne).
  destruct p; [done|]. simpl in *. lia.
Qed.

(** Any pattern and name give a result or [ErrBadPattern]. *)
Lemma Match_total p name : (∃ b, Match p name = Matched b) ∨ Match p name = MatchError.
Proof.
  unfold Match. assert (length p <= length p) as Hf by done. revert Hf.
  generalize (length p) at 2 3 4 as fuel. intros fuel. revert p name.
  induction fuel as [|fuel IH]; intros p name Hf; (destruct p as [|c p]; [left; by eexists|]);
    [simpl in Hf; lia|].
  unfold Match_loop; fold Match_loop.
  destruct (scanChunk (c :: p)) as [[star chunk] rest] eqn:E.
  apply scanChunk_shrinks in E; [|done].
  destruct (star && _); [by eauto|].
  assert (∀ t, (∃ b, Match_loop fuel rest t = Matched b) ∨ Match_loop fuel rest t = MatchError) as IH'.
  { intros t. apply IH. lia. }
  pose proof (matchChunk_total chunk name). pose proof (star_loop_total chunk (length rest =? 0) name).
  destruct (matchChunk chunk name); simpl; try tauto; repeat case_match; simpl; eauto; tauto.
Qed.

Lemma Match_correct p ts name :
  pattern_of p ts →
  (Match p name = Matched true ∨ Match p name = Matched false) ∧
  (Match p name = Matched true → matches ts name) ∧
  (ascii_string name → matches ts name → Match p name = Matched true).
Proof.
  intros Hp. destruct (Match_loop_correct (length p) p ts name Hp ltac:(done)) as (b & E & Hs & Hc).
  unfold Match. rewrite E. split; [by destruct b; [left|right]|]. split.
  - intros [= ->]. by apply Hs.
  - intros Ha Hm. by rewrite (Hc Ha Hm).
Qed.

(** C9. [Match] decides the pattern language of the documentation but for slashes:
    here a star stands for any sequence of characters and a question mark for any
    character, a slash too, while the documentation excludes slashes from both
    (example [star_matches_slash]).  On a well-formed pattern [Match] never
    reports an error, whatever it accepts matches the pattern, and on ASCII
    names it accepts every name that matches, although it commits to the first
    position where a chunk fits and never goes back to an earlier star. *)
Theorem Match_decides p ts name :
  pattern_of p ts →
  (Match p name = Matched true ∨ Match p name = Matched false) ∧
  (Match p name = Matched true → matches ts name) ∧
  (ascii_string name → (Match p name = Matched true ↔ matches ts name)).
Proof.
  intros Hp. destruct (Match_correct p ts name Hp) as (Hd & Hs & Hc).
  split_and!; [done|done|]. intros Ha. split; auto.
Qed.

(** A star and a question mark match a slash. *)
Example star_matches_slash :
  Match (str "*") (str "a/b") = Matched true ∧ Match (str "a*b") (str "a/x/b") = Matched true ∧
  Match (str "a?b") (str "a/b") = Matched true.
Proof. by vm_compute. Qed.

Lemma Match_decides_witness :
  Match (str "a*[b-d]?") (str "axxbac!") = Matched true ∧
  matches [Elem (Lit "a"); Star; Elem (Class true [(98, 100)%Z]); Elem AnyRune] (str "axxbac!").
Proof.
  assert (pattern_of (str "a*[b-d]?")
    [Elem (Lit "a"); Star; Elem (Class true [(98, 100)%Z]); Elem AnyRune]) as Hp.
  { apply pattern_lit; [done|]. apply pattern_star.
    apply (pattern_class (str "b-d") [(98, 100)%Z]); [|done|done|repeat constructor].
    apply (ranges_range (str "b") 98 (str "d") 100 [] []); [apply char_plain|apply char_plain|constructor];
      try done; by left. }
  split; [by vm_compute|].
  destruct (Match_decides _ _ (str "axxbac!") Hp) as (_ & Hs & _). apply Hs. by vm_compute.
Defined.
