(* ===== verification/EnvEval.v ===== *)
(** * envsubst: substitution functions and template execution
    ([envsubst/funcs.go], [template.go], [eval.go])

    The substitution functions work on Go strings and 64-bit integers; slice
    expressions out of range are panics.  A template is executed by writing to
    the buffer at hand, with a fresh buffer per argument of a function. *)

From S2P Require Import Prelude GoStd Utf8 Glob EnvScan EnvParse.

(** [s[i:j]] on 64-bit indices. *)
Definition substring (s : bytes) (i j : Z) : res bytes :=
  if (0 <=? i)%Z && (i <=? j)%Z && (j <=? Z.of_nat (length s))%Z
  then Val (take (Z.to_nat (j - i)) (drop (Z.to_nat i) s)) else Panics.

(** ** Substitution functions *)

Section funcs.
Context `{Unicode}.

(** [src/envsubst/funcs.go:35-38 toLen] *)
Definition toLen (s : bytes) (args : list bytes) : bytes := Itoa (Z.of_nat (length s)).
(** [src/envsubst/funcs.go:40-44 toLower] *)
Definition toLower (s : bytes) (args : list bytes) : bytes := strings_ToLower s.
(** [src/envsubst/funcs.go:46-50 toUpper] *)
Definition toUpper (s : bytes) (args : list bytes) : bytes := strings_ToUpper s.
(** [src/envsubst/funcs.go:52-60 toLowerFirst] *)
Definition toLowerFirst (s : bytes) (args : list bytes) : bytes :=
  match s with [] => s | _ => let '(r, n) := DecodeRune s in EncodeRune (ToLower r) ++ drop n s end.
(** [src/envsubst/funcs.go:62-70 toUpperFirst] *)
Definition toUpperFirst (s : bytes) (args : list bytes) : bytes :=
  match s with [] => s | _ => let '(r, n) := DecodeRune s in EncodeRune (ToUpper r) ++ drop n s end.

(** [src/envsubst/funcs.go:72-80 toDefault] *)
Definition toDefault (s : bytes) (args : list bytes) : bytes :=
  if (length s =? 0) && (0 <? length args) then concat args else s.

(** The position a negative offset stands for.
    [src/envsubst/funcs.go:96-106 toSubstr] *)
Definition substr_pos (s : bytes) (pos : Z) : Z :=
  if (pos <? 0)%Z then
    let pos := (Z.of_nat (length s) + pos)%Z in if (pos <? 0)%Z then 0%Z else pos
  else pos.

(** [src/envsubst/funcs.go:82-136 toSubstr] *)
Definition toSubstr (s : bytes) (args : list bytes) : res bytes :=
  let n := Z.of_nat (length s) in
  match args with
  | [] => Val s
  | a0 :: args =>
      match Atoi a0 with
      | None => Val s
      | Some pos =>
          let pos := substr_pos s pos in
          match args with
          | [] => if (pos <? n)%Z then substring s pos n else Val []
          | a1 :: _ =>
              match Atoi a1 with
              | None => Val s
              | Some length =>
                  let end_ := int64_wrap (pos + length) in
                  if (n <=? end_)%Z then
                    if (pos <? n)%Z then substring s pos n else Val []
                  else substring s pos end_
              end
          end
      end
  end.

(** [src/envsubst/funcs.go:138-149 replaceAll] *)
Definition replaceAll (s : bytes) (args : list bytes) : bytes :=
  match args with
  | [] => s
  | [old] => strings_Replace s old [] None
  | old :: new :: _ => strings_Replace s old new None
  end.
(** [src/envsubst/funcs.go:151-162 replaceFirst] *)
Definition replaceFirst (s : bytes) (args : list bytes) : bytes :=
  match args with
  | [] => s
  | [old] => strings_Replace s old [] (Some 1)
  | old :: new :: _ => strings_Replace s old new (Some 1)
  end.
(** [src/envsubst/funcs.go:164-174 replacePrefix] *)
Definition replacePrefix (s : bytes) (args : list bytes) : bytes :=
  match args with
  | [old; new] => if HasPrefix s old then strings_Replace s old new (Some 1) else s
  | _ => s
  end.
(** [src/envsubst/funcs.go:176-187 replaceSuffix] *)
Definition replaceSuffix (s : bytes) (args : list bytes) : bytes :=
  match args with
  | [old; new] => if HasSuffix s old then TrimSuffix s old ++ new else s
  | _ => s
  end.

(** The loop of [trimShortest] over the prefixes of [s], from the longest; the
    index [i] counts the bytes dropped.
    [src/envsubst/funcs.go:224-235 trimShortest] *)
Fixpoint trimShortest_loop (s arg : bytes) (left : nat) (shortestMatch : bytes) : option bytes :=
  match left with
  | O => Some shortestMatch
  | S left' =>
      let prefix := take left s in
      match Match arg prefix with
      | Matched matched =>
          trimShortest_loop s arg left' (if matched then prefix else shortestMatch)
      | _ => None
      end
  end.

(** [src/envsubst/funcs.go:223-242 trimShortest] *)
Definition trimShortest (s arg : bytes) : bytes :=
  match trimShortest_loop s arg (length s) [] with
  | None | Some [] => s
  | Some shortestMatch => TrimPrefix s shortestMatch
  end.

(** [src/envsubst/funcs.go:245-255 trimLongest] *)
Fixpoint trimLongest_loop (s arg : bytes) (left : nat) : bytes :=
  match left with
  | O => s
  | S left' =>
      let prefix := take left s in
      match Match arg prefix with
      | Matched true => TrimPrefix s prefix
      | Matched false => trimLongest_loop s arg left'
      | _ => s
      end
  end.
(** [src/envsubst/funcs.go:244-258 trimLongest] *)
Definition trimLongest (s arg : bytes) : bytes := trimLongest_loop s arg (length s).

(** [src/envsubst/funcs.go:260-266 reverse]
    Runes are swapped in place, the first half with the last. *)
Definition reverse_runes (r : list Z) : list Z :=
  foldl (λ r i, let j := length r - 1 - i in
           match r !! i, r !! j with
           | Some a, Some b => <[j := a]> (<[i := b]> r)
           | _, _ => r
           end) r (seq 0 (length r / 2)).
(** [src/envsubst/funcs.go:260-266 reverse] *)
Definition reverse (s : bytes) : bytes := of_runes (reverse_runes (runes s)).

(** [src/envsubst/funcs.go:191-196 trimShortestPrefix] *)
Definition trimShortestPrefix (s : bytes) (args : list bytes) : bytes :=
  match args with a :: _ => trimShortest s a | [] => s end.
(** [src/envsubst/funcs.go:198-205 trimShortestSuffix] *)
Definition trimShortestSuffix (s : bytes) (args : list bytes) : bytes :=
  match args with a :: _ => reverse (trimShortest (reverse s) (reverse a)) | [] => s end.
(** [src/envsubst/funcs.go:207-212 trimLongestPrefix] *)
Definition trimLongestPrefix (s : bytes) (args : list bytes) : bytes :=
  match args with a :: _ => trimLongest s a | [] => s end.
(** [src/envsubst/funcs.go:214-221 trimLongestSuffix] *)
Definition trimLongestSuffix (s : bytes) (args : list bytes) : bytes :=
  match args with a :: _ => reverse (trimLongest (reverse s) (reverse a)) | [] => s end.

(** ** Execution *)

Definition name_in (name : bytes) (l : list string) : bool := existsb (λ x, bool_decide (name = str x)) l.

(** [src/envsubst/template.go:153-160 isDefaultOp] *)
Definition isDefaultOp (name : bytes) : bool :=
  name_in name ["-"; "+"; "="; "?"; ":-"; ":+"; ":="; ":?"]%string.

(** [src/envsubst/template.go:164-202 lookupFunc] *)
Definition lookupFunc (name : bytes) (args : nat) : bytes → list bytes → res bytes :=
  let total f := λ s l, Val (f s l) in
  if name_in name [","]%string then total toLowerFirst
  else if name_in name [",,"]%string then total toLower
  else if name_in name ["^"]%string then total toUpperFirst
  else if name_in name ["^^"]%string then total toUpper
  else if name_in name ["#"]%string then
    if args =? 0 then total toLen else total trimShortestPrefix
  else if name_in name ["##"]%string then total trimLongestPrefix
  else if name_in name ["%"]%string then total trimShortestSuffix
  else if name_in name ["%%"]%string then total trimLongestSuffix
  else if name_in name [":"]%string then toSubstr
  else if name_in name ["/#"]%string then total replacePrefix
  else if name_in name ["/%"]%string then total replaceSuffix
  else if name_in name ["/"]%string then total replaceFirst
  else if name_in name ["//"]%string then total replaceAll
  else if name_in name ["="; ":="; ":-"]%string then total toDefault
  else if name_in name [":?"; ":+"; "-"; "+"]%string then total toDefault
  else total toDefault.

(** How the execution of a template ends: the buffer, [errVarNotSet] for a
    variable, or a panic. *)
Inductive exec := Wrote (w : bytes) | VarNotSet (param : bytes) | ExecPanic.

(** The variable lookup the caller supplies. *)
Definition mapping : Type := bytes → bytes * bool.

(** The part of [evalFunc] behind the evaluation of the arguments.
    [src/envsubst/template.go:128-146 Template.evalFunc] *)
Definition apply_func (mapper : mapping) (param name : bytes) (args : list bytes) (w : bytes) : exec :=
  let '(v, exists_) := mapper param in
  if negb exists_ && negb (isDefaultOp name) then VarNotSet param
  else match lookupFunc name (length args) v args with
       | Val out => Wrote (w ++ out)
       | Panics => ExecPanic
       end.

(** [src/envsubst/template.go:83-146 Template.eval]
    [w] is the content of the current writer. *)
Fixpoint eval (mapper : mapping) (node : Node) (w : bytes) : exec :=
  match node with
  | EmptyText => Wrote w
  | TextNode v => Wrote (w ++ v)
  | FuncNode param name ns =>
      (fix evalArgs (ns : list Node) (args : list bytes) : exec :=
         match ns with
         | [] => apply_func mapper param name args w
         | n :: ns => match eval mapper n [] with
                      | Wrote buf => evalArgs ns (args ++ [buf])
                      | e => e
                      end
         end) ns []
  | ListNode ns =>
      (fix evalList (ns : list Node) (w : bytes) : exec :=
         match ns with
         | [] => Wrote w
         | n :: ns => match eval mapper n w with
                      | Wrote w => evalList ns w
                      | e => e
                      end
         end) ns w
  end.

(** [src/envsubst/template.go:69-81 Template.Execute] *)
Definition Execute (root : Node) (m : mapping) : exec := eval m root [].

(** What [Eval] returns: a string and an error, or a panic. *)
Inductive evalError := ParseError (e : parseError) | NotSet (param : bytes).
Inductive eval_result := Result (s : bytes) (err : option evalError) | EvalPanic | EvalNoFuel.

(** [src/envsubst/eval.go:25-32 Eval] *)
Definition envsubst_Eval (s : bytes) (m : mapping) : eval_result :=
  match Parse s with
  | Ok root => match Execute root m with
               | Wrote w => Result w None
               | VarNotSet p => Result [] (Some (NotSet p))
               | ExecPanic => EvalPanic
               end
  | Err e => Result s (Some (ParseError e))
  | Panic => EvalPanic
  | NoFuel => EvalNoFuel
  end.

(** The process environment. *)
Definition environ : Type := bytes → option bytes.

(** [src/envsubst/eval.go:45-47 Getenv] *)
Definition Getenv (env : environ) : mapping := λ s, (default [] (env s), true).
(** [os.LookupEnv] *)
Definition LookupEnv (env : environ) : mapping := λ s,
  match env s with Some v => (v, true) | None => ([], false) end.

(** [src/envsubst/eval.go:34-43 EvalEnv] *)
Definition EvalEnv (env : environ) (s : bytes) (strict : bool) : eval_result :=
  envsubst_Eval s (if strict then LookupEnv env else Getenv env).
End funcs.
