(* ===== verification/EnvSpec.v ===== *)
(** * envsubst: what the substitution functions and templates mean

    The removal operators against the pattern language, the substring operator
    on every pair of arguments, where a template can panic, and the meaning of
    templates made of text, variables and defaults. *)

From S2P Require Import Prelude GoStd Utf8 Glob EnvScan EnvParse EnvParseTotal EnvEval.

(** ** Prefix removal *)

(** The pattern matches the first [k] bytes of [s], at least one. *)
Definition prefix_match (ts : list tok) (s : bytes) (k : nat) : Prop :=
  1 <= k <= length s ∧ matches ts (take k s).

Section trim.
Context (arg : bytes) (ts : list tok) (s : bytes).
Context (Harg : pattern_of arg ts) (Hs : ascii_string s).

Lemma Match_prefix k : Match arg (take k s) = Matched true ∧ matches ts (take k s)
  ∨ Match arg (take k s) = Matched false ∧ ¬ matches ts (take k s).
Proof.
  destruct (Match_correct arg ts (take k s) Harg) as ([E|E] & Hsound & Hcomp).
  - left. auto.
  - right. split; [done|]. intros Hm. rewrite Hcomp in E; [done|by apply Forall_take|done].
Qed.

Lemma TrimPrefix_take k : TrimPrefix s (take k s) = drop k s.
Proof.
  unfold TrimPrefix, HasPrefix. rewrite bool_decide_true by apply prefix_take.
  destruct (decide (k <= length s)).
  - by rewrite length_take_le.
  - by rewrite take_ge, !drop_ge by lia.
Qed.

Lemma trimLongest_loop_spec left :
  left <= length s →
  (∃ k, k <= left ∧ prefix_match ts s k ∧ (∀ j, k < j <= left → ¬ prefix_match ts s j) ∧
     trimLongest_loop s arg left = drop k s) ∨
  ((∀ j, j <= left → ¬ prefix_match ts s j) ∧ trimLongest_loop s arg left = s).
Proof.
  induction left as [|left IH]; intros Hl.
  { right. split; [|done]. intros j Hj [? _]. lia. }
  cbn [trimLongest_loop]. destruct (Match_prefix (S left)) as [[-> Hm]|[-> Hm]].
  - left. exists (S left). split_and!; [done| |intros; lia|apply TrimPrefix_take]. split; [lia|done].
  - destruct IH as [(k & Hk & Hpm & Hmax & E)|(Hno & E)]; [lia|left; exists k|right]; rewrite E.
    + split_and!; [lia|done| |done]. intros j Hj.
      destruct (decide (j = S left)) as [->|]; [by intros [_ ?]|apply Hmax; lia].
    + split; [|done]. intros j Hj.
      destruct (decide (j = S left)) as [->|]; [by intros [_ ?]|apply Hno; lia].
Qed.

(** [acc] is the shortest match found so far, none above [left] if empty. *)
Definition shortest_above (left : nat) (acc : bytes) : Prop :=
  (acc = [] ∧ ∀ j, left < j → ¬ prefix_match ts s j) ∨
  ∃ k, acc = take k s ∧ left < k ∧ prefix_match ts s k ∧ ∀ j, left < j < k → ¬ prefix_match ts s j.

Lemma trimShortest_loop_spec left acc :
  left <= length s → shortest_above left acc →
  ∃ acc', trimShortest_loop s arg left acc = Some acc' ∧ shortest_above 0 acc'.
Proof.
  revert acc. induction left as [|left IH]; intros acc Hl Hacc; [by exists acc|].
  cbn [trimShortest_loop]. destruct (Match_prefix (S left)) as [[-> Hm]|[-> Hm]]; (apply IH; [lia|]).
  - right. exists (S left). split_and!; [done|lia|split; [lia|done]|intros; lia].
  - assert (¬ prefix_match ts s (S left)) as Hno by by intros [_ ?].
    destruct Hacc as [[-> Ha]|(k & -> & Hk & Hp & Ha)]; [left|right; exists k].
    + split; [done|]. intros j Hj. destruct (decide (j = S left)) as [->|]; [done|apply Ha; lia].
    + split_and!; [done|lia|done|].
      intros j Hj. destruct (decide (j = S left)) as [->|]; [done|apply Ha; lia].
Qed.
End trim.

(** The prefix removal operators cut what the shell says: on an ASCII
    value and a well-formed pattern, [##] removes the longest non-empty prefix
    that matches, [#] the shortest one, and both leave the value alone when no
    non-empty prefix matches. *)
Theorem trim_spec arg ts s :
  pattern_of arg ts → ascii_string s →
  ((∃ k, prefix_match ts s k ∧ (∀ j, prefix_match ts s j → j <= k) ∧ trimLongest s arg = drop k s) ∨
   ((∀ j, ¬ prefix_match ts s j) ∧ trimLongest s arg = s)) ∧
  ((∃ k, prefix_match ts s k ∧ (∀ j, prefix_match ts s j → k <= j) ∧ trimShortest s arg = drop k s) ∨
   ((∀ j, ¬ prefix_match ts s j) ∧ trimShortest s arg = s)).
Proof.
  intros Hp Ha. split; [unfold trimLongest|unfold trimShortest].
  - destruct (trimLongest_loop_spec arg ts s Hp Ha (length s)) as [(k & Hk & Hpm & Hmax & E)|(Hno & E)];
      [done|left; exists k|right]; rewrite E.
    + split_and!; [done| |done]. intros j Hj.
      destruct (decide (k < j)) as [Hlt|]; [|lia]. destruct (Hmax j); [|done]. destruct Hj. lia.
    + split; [|done]. intros j Hj. apply (Hno j); [|done]. destruct Hj. lia.
  - destruct (trimShortest_loop_spec arg ts s Hp Ha (length s) []) as (acc & -> & Hacc); [done| |].
    { left. split; [done|]. intros j Hj [? _]. lia. }
    destruct Hacc as [[-> Hno]|(k & -> & Hk & Hpm & Hmin)]; [right|left; exists k].
    + split; [|done]. intros j Hj. apply (Hno j); [|done]. destruct Hj. lia.
    + split_and!; [done| |].
      * intros j Hj. destruct (decide (j < k)) as [Hlt|]; [|lia]. destruct (Hmin j); [|done].
        destruct Hj. lia.
      * rewrite TrimPrefix_take. destruct (take k s) eqn:E; [|done].
        assert (length (take k s) = 0) as Hl by by rewrite E.
        destruct Hpm as [? _]. rewrite length_take in Hl. lia.
Qed.

Lemma trim_spec_witness :
  trimLongest (str "a.b.c") (str "*.") = str "c" ∧ trimShortest (str "a.b.c") (str "*.") = str "b.c" ∧
  ∃ k, prefix_match [Star; Elem (Lit ".")] (str "a.b.c") k ∧
    trimShortest (str "a.b.c") (str "*.") = drop k (str "a.b.c").
Proof.
  split; [by vm_compute|]. split; [by vm_compute|].
  destruct (trim_spec (str "*.") [Star; Elem (Lit ".")] (str "a.b.c")) as [_ [(k & ? & _ & ?)|[_ H]]].
  - apply pattern_star, pattern_lit; [done|constructor].
  - repeat constructor.
  - by exists k.
  - by vm_compute in H.
Defined.

(** ** Substrings *)

Lemma Atoi_range a z : Atoi a = Some z → (- 2 ^ 63 <= z < 2 ^ 63)%Z.
Proof.
  unfold Atoi. repeat case_match; try done; intros Hb;
    (apply bind_Some in Hb as (v & _ & Hv)); unfold in_range in Hv; case_match; simplify_eq; lia.
Qed.

Lemma substr_pos_range s pos :
  (pos < 2 ^ 63)%Z → (Z.of_nat (length s) < 2 ^ 63)%Z → (0 <= substr_pos s pos < 2 ^ 63)%Z.
Proof. unfold substr_pos. repeat case_match; lia. Qed.

Lemma substring_val s i j :
  (0 <= i <= j)%Z → (j <= Z.of_nat (length s))%Z →
  substring s i j = Val (take (Z.to_nat (j - i)) (drop (Z.to_nat i) s)).
Proof. intros. unfold substring. replace (_ && _) with true by lia. done. Qed.

Lemma substring_panics s i j : (j < i)%Z → substring s i j = Panics.
Proof. intros. unfold substring. replace (_ && _) with false by lia. done. Qed.

(** The substring operator with a position and a length: the position
    counts from the end if negative and stops at the start.  If the length is
    not negative and the end does not overflow 64 bits, the result is that
    many bytes from the position, or what is there.  A negative length, or one
    that overflows, is a slice out of range and the code panics, unless the
    end still lies behind the value. *)
Theorem toSubstr_spec s a0 a1 pos len :
  (Z.of_nat (length s) < 2 ^ 63)%Z → Atoi a0 = Some pos → Atoi a1 = Some len →
  let p := substr_pos s pos in
  toSubstr s [a0; a1] =
    if bool_decide ((0 <= len ∨ Z.of_nat (length s) <= p + len) ∧ p + len < 2 ^ 63)%Z
    then Val (take (Z.to_nat len) (drop (Z.to_nat p) s)) else Panics.
Proof.
  intros Hn E0 E1 p. unfold toSubstr. rewrite E0, E1. cbv zeta. fold p.
  apply Atoi_range in E0, E1. pose proof (substr_pos_range s pos ltac:(lia) Hn) as Hp. fold p in Hp.
  clearbody p. destruct (decide (p + len < 2 ^ 63)%Z) as [Hlt|Hge].
  - rewrite int64_wrap_id by lia.
    destruct (Z.leb_spec (Z.of_nat (length s)) (p + len)) as [Hle|Hgt].
    + rewrite bool_decide_true by lia. destruct (Z.ltb_spec p (Z.of_nat (length s))).
      * rewrite substring_val by lia. f_equal. rewrite !take_ge; [done|rewrite length_drop; lia..].
      * f_equal. rewrite drop_ge by lia. by rewrite take_nil.
    + destruct (decide (0 <= len)%Z).
      * rewrite bool_decide_true by lia. rewrite substring_val by lia. do 2 f_equal. lia.
      * rewrite bool_decide_false by lia. apply substring_panics. lia.
  - rewrite bool_decide_false by lia.
    assert (int64_wrap (p + len) = p + len - 2 ^ 64)%Z as ->.
    { unfold int64_wrap. rewrite <- (Z.mod_unique (p + len + 2 ^ 63) (2 ^ 64) 1 (p + len - 2 ^ 63)); lia. }
    rewrite (proj2 (Z.leb_gt _ _)) by lia. apply substring_panics. lia.
Qed.

Lemma toSubstr_spec_witness :
  toSubstr (str "hello") [str "-3"; str "2"] = Val (str "ll") ∧
  toSubstr (str "hello") [str "2"; str "-1"] = Panics.
Proof.
  split.
  - by rewrite (toSubstr_spec _ (str "-3") (str "2") (-3) 2).
  - by rewrite (toSubstr_spec _ (str "2") (str "-1") 2 (-1)).
Defined.

(** ** Suffix removal *)

(** The suffix operators match the reversed pattern against the reversed
    value.  Reversing a character class does not give the class back, so a
    class in a suffix pattern never matches: the shell would cut the digit. *)
Lemma suffix_class_ignored :
  trimShortestSuffix (str "v1") [str "[0-9]"] = str "v1" ∧
  matches [Elem (Class true [(48, 57)%Z])] (str "1").
Proof.
  split; [by vm_compute|]. apply (matches_elem _ _ []); [by vm_compute|constructor].
Qed.

(** ** Panics *)

(** The tree contains a substring operator with a position and a length. *)
Fixpoint has_substr (n : Node) : bool :=
  match n with
  | EmptyText | TextNode _ => false
  | FuncNode _ name args =>
      (name_in name [":"]%string && (2 <=? length args)) || existsb has_substr args
  | ListNode ns => existsb has_substr ns
  end.

Section panics.
Context `{Unicode}.

Lemma toSubstr_one s args : length args <= 1 → toSubstr s args ≠ Panics.
Proof.
  unfold toSubstr. destruct args as [|a0 [|a1 args]]; simpl; [done| |lia]. intros _.
  destruct (Atoi a0) as [pos|]; [|done]. case_match; [|done].
  rewrite substring_val; [done| |lia]. unfold substr_pos in *. repeat case_match; lia.
Qed.

Lemma lookupFunc_panics name n v args :
  lookupFunc name n v args = Panics → name_in name [":"]%string = true ∧ 2 <= length args.
Proof.
  unfold lookupFunc. repeat case_match; try done.
  intros Hp. split; [done|]. destruct (decide (length args <= 1)); [|lia].
  by apply toSubstr_one in Hp.
Qed.

Lemma apply_func_panics m param name args w :
  apply_func m param name args w = ExecPanic → name_in name [":"]%string = true ∧ 2 <= length args.
Proof.
  unfold apply_func. destruct (m param) as [v ex]. case_match; [done|].
  destruct (lookupFunc name (length args) v args) eqn:E; [done|]. intros _. by eapply lookupFunc_panics.
Qed.

(** Induction on trees with the hypothesis for all children. *)
Lemma Node_rec' (Q : Node → Prop) :
  Q EmptyText → (∀ v, Q (TextNode v)) →
  (∀ p name args, Forall Q args → Q (FuncNode p name args)) →
  (∀ ns, Forall Q ns → Q (ListNode ns)) → ∀ n, Q n.
Proof.
  intros HE HT HF HL. fix IH 1. intros [|v|p name args|ns]; [done|apply HT|apply HF|apply HL].
  - induction args as [|a args IHa]; constructor; [apply IH|apply IHa].
  - induction ns as [|a ns IHa]; constructor; [apply IH|apply IHa].
Qed.

Lemma eval_panics m n w : eval m n w = ExecPanic → has_substr n = true.
Proof.
  revert w. induction n as [|v|param name ns IH|ns IH] using Node_rec'; intros w; [done|done|..].
  - cbn [eval has_substr]. rewrite orb_true_iff, andb_true_iff, Nat.leb_le.
    match goal with |- ?evalArgs ns [] = ExecPanic → _ =>
      enough (∀ args, evalArgs ns args = ExecPanic →
        name_in name [":"]%string = true ∧ 2 <= length args + length ns ∨
        existsb has_substr ns = true) as Hgo by exact (Hgo [])
    end.
    induction ns as [|n ns IHns]; intros args.
    + intros E%apply_func_panics. left. simpl. destruct E. split; [done|lia].
    + apply Forall_cons in IH as [IHn IH]. destruct (eval m n []) as [buf| |] eqn:E; [|done|].
      * intros Hp. apply IHns in Hp; [|done]. rewrite length_app in Hp. cbn [length existsb] in *.
        rewrite orb_true_iff. destruct Hp as [[? ?]|?]; [left; split; [done|lia]|by right; right].
      * intros _. right. simpl. by rewrite (IHn _ E).
  - cbn [eval has_substr]. revert w. induction ns as [|n ns IHns]; intros w; [done|].
    apply Forall_cons in IH as [IHn IH]. simpl. rewrite orb_true_iff.
    destruct (eval m n w) as [w1| |] eqn:E; [|done|intros _; left; eauto]. eauto.
Qed.

(** C37. The evaluation of a template ends with a string or an error for
    every template and every variable lookup; it panics only if the template
    parses and uses the substring operator with a length, and the fuel of the
    parser is always enough. *)
Theorem Eval_total (s : bytes) (m : mapping) :
  (∃ out err, envsubst_Eval s m = Result out err) ∨
  (envsubst_Eval s m = EvalPanic ∧ ∃ root, Parse s = Ok root ∧ has_substr root = true).
Proof.
  unfold envsubst_Eval. pose proof (Parse_ends s) as Hp.
  destruct (Parse s) as [root|e| |]; [|by eauto|done..].
  unfold Execute. destruct (eval m root []) as [out|p|] eqn:E; [by eauto..|].
  right. split; [done|]. exists root. split; [done|]. by eapply eval_panics.
Qed.
End panics.
