(* ===== verification/EnvPrint.v ===== *)
(** * envsubst: templates and their meaning

    Templates made of text, variables and variables with a default, printed in
    the syntax of the parser, mean what they say: parsing and executing the
    printed template yields the text with the variables replaced.  A dollar in
    the text is printed twice. *)

From S2P Require Import Prelude Utf8 EnvScan EnvParse EnvParseTotal EnvEval.

(** ** Templates *)

Inductive seg :=
  | SText (s : bytes)
  | SVar (name : bytes)
  | SDefault (name dflt : bytes).

Definition escape (s : bytes) : bytes :=
  s ≫= λ c, if Ascii.eqb c "$" then ["$"%char; "$"%char] else [c].

Definition print_seg (g : seg) : bytes :=
  match g with
  | SText s => escape s
  | SVar name => str "${" ++ name ++ str "}"
  | SDefault name dflt => str "${" ++ name ++ str ":-" ++ dflt ++ str "}"
  end.
Definition print (segs : list seg) : bytes := segs ≫= print_seg.

Definition is_ident (c : ascii) : bool :=
  in_range 65 (bval c) 90 || in_range 97 (bval c) 122 || in_range 48 (bval c) 57 || Ascii.eqb c "_".

Definition no_nul (s : bytes) : Prop := Forall (λ c, bval c ≠ 0%Z) s.
Definition is_name (name : bytes) : Prop := name ≠ [] ∧ Forall (λ c, is_ident c = true) name.
Definition is_default (d : bytes) : Prop :=
  Forall (λ c, bval c ≠ 0%Z ∧ c ≠ "$"%char ∧ c ≠ "}"%char) d.

Definition valid_seg (g : seg) : Prop :=
  match g with
  | SText s => no_nul s
  | SVar name => is_name name
  | SDefault name dflt => is_name name ∧ is_default dflt
  end.

(** The meaning: the text written, or the first variable that is not set. *)
Fixpoint expand (m : mapping) (segs : list seg) (w : bytes) : exec :=
  match segs with
  | [] => Wrote w
  | SText s :: segs => expand m segs (w ++ s)
  | SVar name :: segs =>
      if (m name).2 then expand m segs (w ++ (m name).1) else VarNotSet name
  | SDefault name dflt :: segs =>
      let v := (m name).1 in expand m segs (w ++ (if length v =? 0 then dflt else v))
  end.

(** ** Reading *)

(** The scanner has read [pre] and [rest] is to come. *)
Definition at_ (s : scanner) (pre rest : bytes) : Prop := buf s = pre ++ rest ∧ pos s = length pre.

Definition low (c : ascii) : Prop := (0 < bval c < 128)%Z.

Lemma at_drop s pre rest : at_ s pre rest → drop (pos s) (buf s) = rest.
Proof. intros [-> ->]. apply drop_app_length. Qed.

Lemma at_move s pre w rest n :
  at_ s pre (w ++ rest) → n = length w → at_ (set_pos s (pos s + n) n) (pre ++ w) rest.
Proof. intros [Hb Hp] ->. split; simpl; [by rewrite Hb, app_assoc|by rewrite Hp, length_app]. Qed.

Lemma read_low s pre c rest :
  at_ s pre (c :: rest) → low c → scanner_read s = (bval c, set_pos s (pos s + 1) 1).
Proof.
  intros Hat Hc. pose proof (at_drop _ _ _ Hat) as Hd. destruct Hat as [Hb Hp].
  unfold scanner_read. rewrite Hd, (proj2 (Nat.leb_gt _ _)).
  - simpl. by rewrite (proj2 (Z.ltb_lt _ _)) by apply Hc.
  - rewrite Hb, Hp, length_app. simpl. lia.
Qed.

Lemma read_end s pre : at_ s pre [] → scanner_read s = (eof, set_pos s (pos s) 0).
Proof.
  intros [Hb Hp]. unfold scanner_read. rewrite (proj2 (Nat.leb_le _ _)); [done|].
  by rewrite Hb, Hp, app_nil_r.
Qed.

Lemma peek_low s pre c rest :
  at_ s pre (c :: rest) → low c → scanner_peek s = (bval c, set_pos s (pos s) 1).
Proof.
  intros Hat Hc. unfold scanner_peek. rewrite (read_low _ _ _ _ Hat Hc).
  unfold scanner_unread, set_pos. cbn [pos width buf start mode escapeChars accept].
  by rewrite Nat.add_sub.
Qed.

(** A rune beyond ASCII takes bytes beyond ASCII only. *)
Lemma read_high s pre c rest :
  at_ s pre (c :: rest) → (128 <= bval c)%Z →
  ∃ r w, scanner_read s = (r, set_pos s (pos s + length w) (length w)) ∧ (128 <= r)%Z ∧
    w ≠ [] ∧ Forall (λ d, (128 <= bval d)%Z) w ∧ w `prefix_of` c :: rest.
Proof.
  intros Hat Hc. pose proof (at_drop _ _ _ Hat) as Hd. destruct Hat as [Hb Hp].
  pose proof (DecodeRune_cases (c :: rest)) as Hcase. cbv iota in Hcase.
  destruct Hcase as [(? & _)|(_ & Hr & Hw & Hall)]; [lia|].
  exists (DecodeRune (c :: rest)).1, (take (DecodeRune (c :: rest)).2 (c :: rest)).
  rewrite length_take_le by lia. split_and!; [|done| |done|apply prefix_take].
  - unfold scanner_read. rewrite Hd, (proj2 (Nat.leb_gt _ _)).
    + by destruct (DecodeRune (c :: rest)).
    + rewrite Hb, Hp, length_app. simpl. lia.
  - intros E. apply (f_equal length) in E. rewrite length_take_le in E by lia. change (length (@nil ascii)) with 0 in E. lia.
Qed.

Lemma scanLbrack_other s r : r ≠ chr "$" → scanner_scanLbrack s r = (false, s).
Proof.
  intros Hr. unfold scanner_scanLbrack. rewrite (proj2 (Z.eqb_neq _ _)) by done. by destruct (negb _).
Qed.

(** A prefix of bytes beyond ASCII stays within the text before a byte that
    is not. *)
Lemma high_prefix w txt tail :
  Forall (λ d, (128 <= bval d)%Z) w → w `prefix_of` escape txt ++ tail →
  match tail with c :: _ => low c | [] => True end →
  ∃ txt', txt = w ++ txt'.
Proof.
  revert txt. induction w as [|d w IH]; intros txt Hw Hp Ht; [by exists txt|].
  apply Forall_cons in Hw as [Hd Hw]. destruct txt as [|c txt]; simpl in Hp.
  - destruct tail as [|t tail]; [by apply prefix_nil_not in Hp|].
    apply prefix_cons_inv_1 in Hp as ->. destruct Ht. lia.
  - destruct (Ascii.eqb_spec c "$") as [->|Hc]; simpl in Hp.
    + apply prefix_cons_inv_1 in Hp as ->. by vm_compute in Hd.
    + apply prefix_cons_inv_1 in Hp as Hcd. subst. apply prefix_cons_inv_2 in Hp.
      destruct (IH txt Hw Hp Ht) as [txt' ->]. by exists txt'.
Qed.

(** ** Text *)

(** The settings of the scanner between substitutions. *)
Definition text_mode (s : scanner) : Prop :=
  mode s = Z.lor (Z.lor scanIdent scanLbrack) scanEscape ∧ escapeChars s = dollar ∧ accept s = acceptRune.

(** What may follow a text: the end or a substitution. *)
Definition text_end (tail : bytes) : Prop := tail = [] ∨ ∃ t, tail = "$"%char :: "{"%char :: t.

Lemma text_end_low tail : text_end tail → match tail with c :: _ => low c | [] => True end.
Proof. by intros [->|[t ->]]. Qed.

(** One round of the scanner on a text: some of it is taken, and the first of
    two dollars is removed from the buffer. *)
Definition steps (s : scanner) (pre txt tail : bytes) : Prop :=
  ∃ r s1 s2 esc s3 s4 w txt',
    scanner_read s = (r, s1) ∧ r ≠ eof ∧ scanner_scanLbrack s1 r = (false, s2) ∧
    scanner_scanEscaped s2 r = (esc, s3) ∧
    (if esc : bool then scanner_skip s3 = Ok s4 else s4 = s3) ∧
    txt = w ++ txt' ∧ w ≠ [] ∧ at_ s4 (pre ++ w) (escape txt' ++ tail) ∧
    text_mode s2 ∧ text_mode s3 ∧ text_mode s4 ∧ start s4 = start s.

Lemma text_step_dollar s pre txt tail :
  text_mode s → at_ s pre (escape ("$"%char :: txt) ++ tail) → steps s pre ("$"%char :: txt) tail.
Proof.
  intros (Hm & He & Ha) Hat.
  change (escape ("$"%char :: txt) ++ tail) with ("$"%char :: "$"%char :: escape txt ++ tail) in Hat.
  pose proof (read_low _ _ _ _ Hat ltac:(done)) as Hr.
  pose proof (at_move _ _ ["$"%char] _ 1 Hat eq_refl) as Hat1.
  set (s1 := set_pos s (pos s + 1) 1) in *.
  pose proof (read_low _ _ _ _ Hat1 ltac:(done)) as Hr2.
  assert (scanner_scanLbrack s1 (bval "$") = (false, s1)) as Hl.
  { unfold scanner_scanLbrack. change (mode s1) with (mode s). rewrite Hm.
    change (negb (has_bit _ scanLbrack)) with false. cbv iota. rewrite Hr2.
    change (bval "$" =? chr "$")%Z with true. change (bval "$" =? chr "{")%Z with false. cbv iota.
    unfold scanner_unread, set_pos. cbn [pos width buf start mode escapeChars accept].
    by rewrite Nat.add_sub. }
  assert (scanner_scanEscaped s1 (bval "$") = (true, s1)) as Hesc.
  { unfold scanner_scanEscaped, shouldEscape. change (mode s1) with (mode s).
    change (escapeChars s1) with (escapeChars s). rewrite Hm, He.
    by rewrite (peek_low _ _ _ _ Hat1) by done. }
  destruct Hat1 as [Hb1 Hp1].
  destruct (skip_pos s1) as (s4 & Hskip & Hb4 & _ & Hs4 & Hp4 & (Hm4 & He4 & Ha4)).
  { rewrite Hb1, Hp1, !length_app. simpl. lia. }
  eexists _, s1, s1, true, s1, s4, ["$"%char], txt. split_and!; try done.
  - split; [|by rewrite Hp4, Hp1]. rewrite Hb4, Hb1, Hp1, length_app. cbn [length].
    rewrite Nat.add_sub, <- !app_assoc, take_app_length, drop_app_add. done.
  - unfold text_mode. by rewrite Hm4, He4, Ha4.
Qed.

Lemma scanEscaped_other s r :
  r ≠ chr "$" → escapeChars s = dollar → scanner_scanEscaped s r = (false, s).
Proof.
  intros Hr He. unfold scanner_scanEscaped, shouldEscape. destruct (negb _); [done|].
  rewrite (proj2 (Z.eqb_neq r (chr "$"))) by done. cbn [andb]. rewrite He.
  by rewrite andb_false_r.
Qed.

Lemma escape_app s t : escape (s ++ t) = escape s ++ escape t.
Proof. apply bind_app. Qed.

Lemma escape_cons c s : c ≠ "$"%char → escape (c :: s) = c :: escape s.
Proof. intros Hc. simpl. by rewrite (proj2 (Ascii.eqb_neq c "$")) by done. Qed.

Lemma escape_high w : Forall (λ d, (128 <= bval d)%Z) w → escape w = w.
Proof.
  induction 1 as [|d w Hd _ IH]; [done|].
  rewrite escape_cons by (intros ->; by vm_compute in Hd). by rewrite IH.
Qed.

Lemma escape_length s : length s <= length (escape s).
Proof.
  induction s as [|c s IH]; [done|]. simpl. rewrite length_app. destruct (Ascii.eqb c "$"); simpl; lia.
Qed.

Lemma text_step s pre txt tail :
  text_mode s → at_ s pre (escape txt ++ tail) → txt ≠ [] → no_nul txt → text_end tail →
  steps s pre txt tail.
Proof.
  intros Hmode Hat Hne Hnul Htail. destruct txt as [|c txt]; [done|].
  apply Forall_cons in Hnul as [Hc0 Hnul]. pose proof (bval_range c) as Hrange.
  destruct (decide (c = "$"%char)) as [->|Hc]; [by apply text_step_dollar|].
  pose proof Hmode as (_ & He & _).
  destruct (decide (bval c < 128)%Z) as [Hlow|Hhigh].
  - rewrite escape_cons in Hat by done. pose proof (read_low _ _ _ _ Hat ltac:(unfold low; lia)) as Hr.
    assert (bval c ≠ chr "$") as Hnd by (intros ?%bval_inj; done).
    eexists _, _, _, false, _, _, [c], txt. split; [exact Hr|]. split; [unfold eof; lia|].
    rewrite scanLbrack_other by done. split; [done|]. rewrite scanEscaped_other by done.
    split_and!; try done; by apply (at_move s pre [c]).
  - pose proof Hat as Hat'. rewrite escape_cons in Hat' by done.
    destruct (read_high _ _ _ _ Hat' ltac:(lia)) as (r & w & Hr & Hr128 & Hw & Hall & Hpre).
    assert (r ≠ chr "$") as Hnd by (intros ->; by vm_compute in Hr128).
    assert (w `prefix_of` escape (c :: txt) ++ tail) as Hpre' by by rewrite escape_cons.
    destruct (high_prefix _ _ _ Hall Hpre' (text_end_low _ Htail)) as [txt' Et].
    eexists _, _, _, false, _, _, w, txt'. split; [exact Hr|]. split; [unfold eof; lia|].
    rewrite scanLbrack_other by done. split; [done|]. rewrite scanEscaped_other by done.
    split_and!; try done. apply (at_move s pre w); [|done].
    by rewrite Et, escape_app, (escape_high w Hall), <- app_assoc in Hat.
Qed.

(** The loop takes the whole text and stops before a substitution. *)
Lemma text_loop fuel s pre txt tail :
  text_mode s → at_ s pre (escape txt ++ tail) → no_nul txt → text_end tail → length txt < fuel →
  ∃ s', scanIdent_loop fuel s = Ok s' ∧ at_ s' (pre ++ txt) tail ∧ start s' = start s.
Proof.
  revert s pre txt. induction fuel as [|fuel IH]; intros s pre txt Hm Hat Hn Ht Hf; [lia|].
  unfold scanIdent_loop; fold scanIdent_loop. destruct (decide (txt = [])) as [->|Hne].
  - simpl in Hat. rewrite app_nil_r. destruct Ht as [->|[t ->]].
    + rewrite (read_end _ _ Hat). eexists; split; [done|]. destruct Hat as [Hb Hp].
      split; [|done]. split; [done|]. simpl. lia.
    + pose proof (at_move _ _ ["$"%char] _ 1 Hat eq_refl) as Hat1.
      rewrite (read_low _ _ _ _ Hat) by done. change (bval "$" =? eof)%Z with false. cbv iota.
      unfold scanner_scanLbrack. destruct Hm as (Hm & _ & _). cbn [mode set_pos]. rewrite Hm.
      change (negb (has_bit _ scanLbrack)) with false. change (bval "$" =? chr "$")%Z with true. cbv iota.
      rewrite (read_low _ _ _ _ Hat1) by done. change (bval "{" =? chr "{")%Z with true. cbv iota.
      eexists; split; [done|]. destruct Hat as [Hb Hp]. split; [|done]. split; [done|]. simpl. lia.
  - destruct (text_step _ _ _ _ Hm Hat Hne Hn Ht)
      as (r & s1 & s2 & esc & s3 & s4 & w & txt' & -> & Hr & -> & -> & Hs4 & -> & Hw & Hat4 & Hm2 & Hm3 & Hm4 & Hst).
    rewrite (proj2 (Z.eqb_neq _ _)) by done. cbv iota.
    destruct (IH s4 (pre ++ w) txt' Hm4 Hat4) as (s' & El & Hat' & Hst').
    { by apply Forall_app in Hn as [_ ?]. } { done. }
    { rewrite length_app in Hf. destruct w; [done|simpl in Hf; lia]. }
    exists s'. rewrite <- app_assoc in Hat'. split; [|split; [done|congruence]].
    destruct esc; [by rewrite Hs4|]. subst s4. destruct Hm4 as (_ & _ & ->). done.
Qed.

(** The text of a token that starts where [s] was. *)
Lemma lexeme_at s pre w rest :
  at_ s (pre ++ w) rest → start s = length pre → lexeme s = Ok (w, s).
Proof.
  intros [Hb Hp] Hst. unfold lexeme, scanner_string, slice. rewrite Hb, Hp, Hst, !length_app.
  rewrite (proj2 (Nat.leb_le _ _)) by lia. rewrite (proj2 (Nat.leb_le _ _)) by lia. cbn [andb].
  rewrite <- app_assoc, drop_app_length. cbn [mbind outcome_bind].
  rewrite take_app_length'; [done|lia].
Qed.

(** A text is one token. *)
Lemma scan_text s pre txt tail :
  text_mode s → at_ s pre (escape txt ++ tail) → txt ≠ [] → no_nul txt → text_end tail →
  ∃ s', scan s = Ok (tokenIdent, s') ∧ at_ s' (pre ++ txt) tail ∧ lexeme s' = Ok (txt, s').
Proof.
  intros Hm Hat Hne Hn Ht. unfold scan, scanner_scan. set (s0 := set_start s (pos s)).
  destruct (text_step s0 _ _ _ Hm Hat Hne Hn Ht)
    as (r & s1 & s2 & esc & s3 & s4 & w & txt' & -> & Hr & El & Ee & Hs4 & -> & Hw & Hat4 & Hm2 & Hm3 & Hm4 & Hst).
  rewrite (proj2 (Z.eqb_neq _ _)) by done. cbv iota. rewrite El.
  destruct (text_loop (S (length (buf s4))) s4 (pre ++ w) txt' tail) as (s' & Eloop & Hat' & Hst'); try done.
  { by apply Forall_app in Hn as [_ ?]. }
  { destruct Hat4 as [-> _]. rewrite !length_app. pose proof (escape_length txt'). lia. }
  assert (at_ s' (pre ++ w ++ txt') tail) as Hat1 by by rewrite app_assoc.
  exists s'. split; [|split; [done|]].
  - unfold scanner_scanRbrack, scanner_scanIdent. destruct Hm2 as (-> & _). rewrite Ee.
    change (has_bit _ scanRbrack) with false. change (has_bit _ scanIdent) with true. cbn [negb].
    destruct esc; [by rewrite Hs4; cbn [mbind outcome_bind]; rewrite Eloop|]. subst s4.
    destruct Hm3 as (_ & _ & ->). cbn [acceptRune negb]. by rewrite Eloop.
  - eapply lexeme_at; [exact Hat1|]. rewrite Hst', Hst. apply Hat.
Qed.

(** ** Words: names, operators and default values *)

(** The settings that scan a word: no escapes, and no closing brace token. *)
Definition word_mode (s : scanner) : Prop :=
  has_bit (mode s) scanIdent = true ∧ has_bit (mode s) scanEscape = false ∧
  has_bit (mode s) scanRbrack = false.

(** A word the accept function takes. *)
Definition word (f : acceptFunc) (w : bytes) : Prop :=
  Forall (λ c, bval c ≠ 0%Z ∧ c ≠ "$"%char ∧ ((bval c < 128)%Z → ∀ i, f (bval c) i = true)) w ∧
  (Forall low w ∨ ∀ r i, (128 <= r)%Z → f r i = true).

(** What stops it. *)
Definition stop (f : acceptFunc) (tail : bytes) : Prop :=
  ∃ c t, tail = c :: t ∧ low c ∧ c ≠ "$"%char ∧ ∀ i, f (bval c) i = false.

Lemma word_app f w w' : word f (w ++ w') → word f w'.
Proof. intros [H1 [H2|H2]]; apply Forall_app in H1 as [_ ?]; split; auto. left. by apply Forall_app in H2 as [_ ?]. Qed.

(** One round of the scanner on a word. *)
Lemma word_step s pre w tail :
  word_mode s → at_ s pre (w ++ tail) → w ≠ [] → word (accept s) w → stop (accept s) tail →
  ∃ r w1 w2, scanner_read s = (r, set_pos s (pos s + length w1) (length w1)) ∧
    r ≠ eof ∧ r ≠ chr "$" ∧ (∀ i, accept s r i = true) ∧ w = w1 ++ w2 ∧ w1 ≠ [].
Proof.
  intros Hm Hat Hne [Hw Hhi] (c0 & t & -> & Hlow0 & _). destruct w as [|c w]; [done|].
  pose proof Hw as Hw'. apply Forall_cons in Hw' as [(H0 & Hd & Hacc) _]. pose proof (bval_range c).
  destruct (decide (bval c < 128)%Z) as [Hlow|Hhigh].
  - exists (bval c), [c], w. split_and!; try done; [|intros ?%bval_inj; done|by apply Hacc].
    eapply read_low; [exact Hat|unfold low; lia].
  - destruct (read_high _ _ _ _ Hat ltac:(lia)) as (r & w1 & Hr & Hr128 & Hw1 & Hall & Hpre).
    destruct Hhi as [Hlow|Hhi]; [apply Forall_cons in Hlow as [[? ?] _]; lia|].
    assert (∃ w2, c :: w = w1 ++ w2) as [w2 E].
    { change (w1 `prefix_of` (c :: w) ++ c0 :: t) in Hpre. destruct Hpre as [k Hk].
      destruct (decide (length w1 <= length (c :: w))) as [Hle|Hgt].
      - exists (take (length (c :: w) - length w1) k).
        apply (f_equal (take (length (c :: w)))) in Hk. rewrite take_app_length, take_app in Hk.
        by rewrite (take_ge w1) in Hk by done.
      - exfalso. assert (((c :: w) ++ c0 :: t) !! length (c :: w) = Some c0) as Hlk.
        { by rewrite lookup_app_r, Nat.sub_diag by done. }
        rewrite Hk, lookup_app_l in Hlk by lia. rewrite Forall_lookup in Hall.
        specialize (Hall _ _ Hlk). simpl in Hall. destruct Hlow0. lia. }
    exists r, w1, w2. rewrite E. split_and!; try done.
    + unfold eof. lia.
    + intros ->. by vm_compute in Hr128.
    + intros i. by apply Hhi.
Qed.

(** The loop takes the word. *)
Lemma word_loop fuel s pre w tail :
  word_mode s → at_ s pre (w ++ tail) → word (accept s) w → stop (accept s) tail → length w < fuel →
  ∃ s', scanIdent_loop fuel s = Ok s' ∧ at_ s' (pre ++ w) tail ∧ start s' = start s.
Proof.
  revert s pre w. induction fuel as [|fuel IH]; intros s pre w Hm Hat Hw Hstop Hf; [lia|].
  unfold scanIdent_loop; fold scanIdent_loop. destruct (decide (w = [])) as [->|Hne].
  - simpl in Hat. rewrite app_nil_r. destruct Hstop as (c & t & -> & Hlow & Hd & Hrej).
    rewrite (read_low _ _ _ _ Hat Hlow). rewrite (proj2 (Z.eqb_neq _ _)) by (unfold eof; destruct Hlow; lia).
    rewrite scanLbrack_other by (intros ?%bval_inj; done).
    rewrite scanEscaped_off by apply Hm. cbn [accept set_pos]. rewrite Hrej. cbn [negb].
    eexists; split; [done|]. destruct Hat as [Hb Hp]. split; [|done]. split; [done|]. simpl. lia.
  - destruct (word_step _ _ _ _ Hm Hat Hne Hw Hstop) as (r & w1 & w2 & -> & Hr & Hd & Hacc & -> & Hw1).
    rewrite (proj2 (Z.eqb_neq _ _)) by done. rewrite scanLbrack_other by done.
    rewrite scanEscaped_off by apply Hm. cbn [accept set_pos]. rewrite Hacc. cbn [negb].
    rewrite <- app_assoc in Hat.
    destruct (IH (set_pos s (pos s + length w1) (length w1)) (pre ++ w1) w2) as (s' & -> & Hat' & Hst); try done.
    + by apply (at_move s pre w1).
    + by eapply word_app.
    + rewrite length_app in Hf. destruct w1; [done|simpl in Hf; lia].
    + exists s'. by rewrite app_assoc.
Qed.

Lemma scan_word s pre w tail :
  word_mode s → at_ s pre (w ++ tail) → w ≠ [] → word (accept s) w → stop (accept s) tail →
  ∃ s', scan s = Ok (tokenIdent, s') ∧ at_ s' (pre ++ w) tail ∧ lexeme s' = Ok (w, s').
Proof.
  intros Hm Hat Hne Hw Hstop. unfold scan, scanner_scan. set (s0 := set_start s (pos s)).
  destruct (word_step s0 _ _ _ Hm Hat Hne Hw Hstop) as (r & w1 & w2 & -> & Hr & Hd & Hacc & -> & Hw1).
  rewrite (proj2 (Z.eqb_neq _ _)) by done. rewrite scanLbrack_other by done.
  set (s1 := set_pos s0 _ _). unfold scanner_scanRbrack, scanner_scanIdent.
  change (mode s1) with (mode s). pose proof Hm as (-> & He & ->). cbn [negb].
  rewrite scanEscaped_off by done. change (accept s1) with (accept s0). rewrite Hacc. cbn [negb].
  rewrite <- app_assoc in Hat.
  destruct (word_loop (S (length (buf s1))) s1 (pre ++ w1) w2 tail) as (s' & -> & Hat' & Hst); try done.
  - by apply (at_move s0 pre w1).
  - by eapply word_app.
  - change (buf s1) with (buf s). destruct Hat as [-> _]. rewrite !length_app. lia.
  - exists s'. rewrite app_assoc. split_and!; [done..|]. eapply lexeme_at; [by rewrite app_assoc|].
    rewrite Hst. apply Hat.
Qed.

Lemma consumeRbrack_at s pre rest :
  at_ s pre ("}"%char :: rest) →
  ∃ s', consumeRbrack s = Ok (tt, s') ∧ at_ s' (pre ++ ["}"%char]) rest.
Proof.
  intros Hat. pose proof (at_move _ _ ["}"%char] _ 1 Hat eq_refl) as Hat1.
  unfold consumeRbrack, modify, mbind, P_bind, mbind, outcome_bind, scan, scanner_scan.
  set (s0 := set_start (set_mode s scanRbrack) (pos (set_mode s scanRbrack))).
  assert (at_ s0 pre ("}"%char :: rest)) as Hat0 by exact Hat.
  rewrite (read_low _ _ _ _ Hat0) by done.
  change (bval "}" =? eof)%Z with false. cbv iota. rewrite scanLbrack_other by done.
  eexists; split; [done|exact Hat1].
Qed.

(** In a mode without look-ahead, the loop stops on a rejected rune. *)
Lemma stop_loop fuel s :
  inb s → has_bit (mode s) scanLbrack = false → has_bit (mode s) scanEscape = false →
  (∀ r s1, scanner_read s = (r, s1) → r ≠ eof → accept s r (pos s1 - start s) = false) →
  ∃ s', scanIdent_loop (S fuel) s = Ok s' ∧ buf s' = buf s ∧ pos s' = pos s ∧ start s' = start s.
Proof.
  intros Hin Hl He Hrej. unfold scanIdent_loop; fold scanIdent_loop.
  destruct (scanner_read s) as [r s1] eqn:Er.
  destruct (read_pos s r s1 Hin Er) as (Hb1 & Hs1 & (Hm1 & _ & Ha1) & Hpos1 & _).
  destruct (Z.eqb_spec r eof) as [->|Hr]; [eexists; split; [done|]; simpl; split_and!; try done; lia|].
  rewrite scanLbrack_off, scanEscaped_off by congruence.
  rewrite Ha1, Hs1, (Hrej r s1) by done. cbn [negb].
  eexists; split; [done|]. simpl. split_and!; try done. lia.
Qed.

(** The operator [:-]. *)
Lemma scan_default_op s pre rest :
  mode s = scanIdent → accept s = acceptDefaultFunc → at_ s pre (str ":-" ++ rest) →
  ∃ s', scan s = Ok (tokenIdent, s') ∧ at_ s' (pre ++ str ":-") rest ∧ lexeme s' = Ok (str ":-", s').
Proof.
  intros Hm Ha Hat. unfold scan, scanner_scan. set (s0 := set_start s (pos s)).
  assert (at_ s0 pre (str ":-" ++ rest)) as Hat0 by exact Hat.
  rewrite (read_low _ _ _ _ Hat0) by done. change (bval ":" =? eof)%Z with false. cbv iota.
  rewrite scanLbrack_other by done.
  pose proof (at_move _ _ [":"%char] _ 1 Hat0 eq_refl) as Hat1. set (s1 := set_pos s0 _ _) in *.
  unfold scanner_scanRbrack, scanner_scanIdent. change (mode s1) with (mode s). rewrite Hm.
  change (has_bit scanIdent scanRbrack) with false. change (has_bit scanIdent scanIdent) with true. cbn [negb].
  rewrite scanEscaped_off by (by change (mode s1) with (mode s); rewrite Hm).
  change (accept s1) with (accept s). rewrite Ha.
  assert (pos s1 - start s1 = 1) as E1 by (change (pos s + 1 - pos s = 1); lia). rewrite E1.
  change (acceptDefaultFunc (bval ":") 1) with true. cbn [negb].
  unfold scanIdent_loop at 1; fold scanIdent_loop.
  rewrite (read_low _ _ _ _ Hat1) by done. change (bval "-" =? eof)%Z with false. cbv iota.
  rewrite scanLbrack_other by done.
  pose proof (at_move _ _ ["-"%char] _ 1 Hat1 eq_refl) as Hat2. set (s2 := set_pos s1 _ _) in *.
  rewrite scanEscaped_off by (by change (mode s2) with (mode s); rewrite Hm).
  change (accept s2) with (accept s). rewrite Ha.
  assert (pos s2 - start s2 = 2) as E2 by (change (pos s + 1 + 1 - pos s = 2); lia). rewrite E2.
  change (acceptDefaultFunc (bval "-") 2) with true. cbn [negb].
  rewrite <- app_assoc in Hat2.
  destruct Hat2 as [Hb2 Hp2].
  assert (∃ n, length (buf s1) = S n) as [n ->].
  { exists (length (buf s1) - 1). rewrite (proj1 Hat1), !length_app. simpl. lia. }
  destruct (stop_loop n s2) as (s3 & -> & Hb3 & Hp3 & Hst3).
  - unfold inb. rewrite Hb2, Hp2, !length_app. lia.
  - change (mode s2) with (mode s). by rewrite Hm.
  - change (mode s2) with (mode s). by rewrite Hm.
  - intros r s3 Er Hr. change (accept s2) with (accept s). rewrite Ha.
    destruct (read_pos s2 r s3) as (_ & _ & _ & Hp3 & _ & Hw & _); [|done|].
    { unfold inb. rewrite Hb2, Hp2, !length_app. lia. }
    specialize (Hw Hr). unfold acceptDefaultFunc.
    rewrite (proj2 (Nat.eqb_neq _ _)), (proj2 (Nat.eqb_neq _ _)) by lia. done.
  - exists s3. assert (at_ s3 (pre ++ str ":-") rest) as Hat3.
    { split; [by rewrite Hb3, Hb2|by rewrite Hp3, Hp2]. }
    split_and!; [done..|]. eapply lexeme_at; [done|]. rewrite Hst3. apply Hat.
Qed.

(** ** Substitutions *)

Section subst.
Context `{Unicode}.

Lemma ident_accept c i : is_ident c = true → acceptIdent (bval c) i = true.
Proof.
  unfold is_ident, acceptIdent, IsLetter, IsDigit, in_range. intros Hc.
  destruct (Ascii.eqb_spec c "_") as [->|_]; [done|]. unfold chr. rewrite (proj2 (Z.ltb_lt _ _)) by lia.
  rewrite orb_false_r in Hc. rewrite Hc. done.
Qed.

Lemma ident_low c : is_ident c = true → low c.
Proof.
  unfold is_ident, in_range, low. intros Hc. destruct (Ascii.eqb c "_") eqn:E; [|lia].
  apply Ascii.eqb_eq in E as ->. done.
Qed.

Lemma name_word name : is_name name → word acceptIdent name ∧ Forall low name.
Proof.
  intros [_ Hn]. assert (Forall low name) as Hl by (eapply Forall_impl; eauto using ident_low).
  split; [split; [|by left]|done]. eapply Forall_impl; [exact Hn|]. intros c Hc. split_and!.
  - apply ident_low in Hc as [? _]. lia.
  - intros ->. by vm_compute in Hc.
  - intros _ i. by apply ident_accept.
Qed.

Lemma default_word d : is_default d → word acceptNotClosing d.
Proof.
  intros Hd. split; [|right].
  - eapply Forall_impl; [exact Hd|]. intros c (H0 & H1 & H2). split_and!; [done..|]. intros _ i.
    unfold acceptNotClosing. rewrite (proj2 (Z.eqb_neq _ _)); [done|]. intros ?%bval_inj. done.
  - intros r i Hr. unfold acceptNotClosing. rewrite (proj2 (Z.eqb_neq _ _)); [done|].
    intros ->. by vm_compute in Hr.
Qed.

(** The beginning of [parseFunc]: the name is read and its operator comes. *)
Lemma parseFunc_name fuel s pre name op rest :
  is_name name → at_ s pre (name ++ op :: rest) → low op → acceptIdent (bval op) 0 = false →
  op ≠ "$"%char →
  ∃ s', parseFunc (S fuel) s = parseOperator fuel (parseFunc fuel) name s' ∧
    at_ s' (pre ++ name) (op :: rest).
Proof.
  intros Hname Hat Hop Hrej Hd. destruct (name_word name Hname) as [Hw Hlow].
  destruct Hname as [Hne Hid]. destruct name as [|c w] eqn:Ename; [done|]. rewrite <- Ename in *.
  unfold parseFunc; fold parseFunc. unfold modify, mbind, P_bind, mbind, outcome_bind, peek.
  set (s0 := set_escape s escapeAll). assert (at_ s0 pre (c :: w ++ op :: rest)) as Hat0.
  { by rewrite Ename in Hat. }
  rewrite Ename in Hlow, Hid. apply Forall_cons in Hlow as [Hlc _]. apply Forall_cons in Hid as [Hic _].
  rewrite (peek_low _ _ _ _ Hat0 Hlc).
  rewrite (proj2 (Z.eqb_neq (bval c) (chr "#"))) by (intros ->%bval_inj; by vm_compute in Hic).
  unfold expect, modify.
  set (s1 := set_mode (set_accept (set_pos s0 (pos s0) 1) acceptIdent) scanIdent).
  destruct (scan_word s1 pre name (op :: rest)) as (s2 & -> & Hat2 & ->); try done.
  { exists op, rest. by split_and!. }
  by exists s2.
Qed.

Lemma parse_var fuel s pre name rest :
  is_name name → at_ s pre (name ++ str "}" ++ rest) →
  ∃ s', parseFunc (S fuel) s = Ok (FuncNode name [] [], s') ∧ at_ s' (pre ++ name ++ str "}") rest.
Proof.
  intros Hn Hat. destruct (parseFunc_name fuel s pre name "}" rest) as (s1 & -> & Hat1); try done.
  unfold parseOperator, mbind, P_bind, mbind, outcome_bind, peek.
  rewrite (peek_low _ _ _ _ Hat1) by done. set (s2 := set_pos s1 (pos s1) 1).
  repeat match goal with |- context [(bval "}" =? ?c)%Z] => change (bval "}" =? c)%Z with false end.
  cbn [orb]. unfold expect, modify, scan, scanner_scan.
  set (s3 := set_start _ _). assert (at_ s3 (pre ++ name) ("}"%char :: rest)) as Hat3 by exact Hat1.
  rewrite (read_low _ _ _ _ Hat3) by done. change (bval "}" =? eof)%Z with false. cbv iota.
  rewrite scanLbrack_other by done. eexists; split; [done|].
  rewrite app_assoc. by apply (at_move s3 (pre ++ name) ["}"%char]).
Qed.

(** The argument of the default operator. *)
Definition default_args (d : bytes) : list Node := match d with [] => [] | _ => [TextNode d] end.

Lemma parse_default_args fuel pf name fname s pre d rest :
  is_default d → at_ s pre (d ++ str "}" ++ rest) →
  ∃ s', parseDefault_loop (S (S fuel)) pf name fname [] s = Ok (FuncNode name fname (default_args d), s') ∧
    at_ s' (pre ++ d ++ str "}") rest.
Proof.
  intros Hd Hat.
  assert (∀ fuel args s pre, at_ s pre (str "}" ++ rest) →
    ∃ s', parseDefault_loop (S fuel) pf name fname args s = Ok (FuncNode name fname args, s') ∧
      at_ s' (pre ++ str "}") rest) as Hend.
  { intros f args s0 pre0 Hat0. cbn [parseDefault_loop].
    unfold mbind, P_bind, mbind, outcome_bind, peek. rewrite (peek_low _ _ _ _ Hat0) by done.
    change (bval "}" =? chr "}")%Z with true. cbv iota.
    destruct (consumeRbrack_at (set_pos s0 (pos s0) 1) pre0 rest) as (s1 & -> & Hat1); [exact Hat0|].
    by exists s1. }
  destruct (decide (d = [])) as [->|Hne]; [by apply Hend|].
  assert (default_args d = [TextNode d]) as -> by by destruct d.
  set (loop := parseDefault_loop (S fuel)).
  change (parseDefault_loop (S (S fuel)) pf name fname [] s) with
    ((r ← peek; if (r =? chr "}")%Z then consumeRbrack;; mret (FuncNode name fname [])
      else a ← parseParam pf acceptNotClosing scanIdent; loop pf name fname [a]) s).
  unfold mbind, P_bind, mbind, outcome_bind, peek. destruct (scanner_peek s) as [r s0] eqn:Ep.
  destruct (peek_pos s r s0) as (Hb0 & _ & _ & Hp0 & _); [|done|].
  { rewrite (proj1 Hat), (proj2 Hat), length_app. lia. }
  assert (at_ s0 pre (d ++ str "}" ++ rest)) as Hat0 by by destruct Hat; split; congruence.
  assert (r ≠ chr "}") as Hr.
  { intros ->. unfold scanner_peek in Ep. destruct (scanner_read s) as [r' s'] eqn:Er. simplify_eq.
    destruct (read_byte s _ s' Er ltac:(done)) as (Hlk & _). destruct Hat as [Hb Hp].
    destruct d as [|c d]; [done|]. apply Forall_cons in Hd as [(_ & _ & Hc) _].
    rewrite Hb, Hp, lookup_app_r, Nat.sub_diag in Hlk by done. injection Hlk as Hlk. by apply Hc. }
  rewrite (proj2 (Z.eqb_neq _ _)) by done. unfold parseParam, expect, modify, mbind, P_bind, mbind, outcome_bind.
  set (s1 := set_mode _ _).
  destruct (scan_word s1 pre d (str "}" ++ rest)) as (s2 & -> & Hat2 & ->); try done.
  { by apply default_word. }
  { by exists "}"%char, rest. }
  unfold mret, P_ret, loop. destruct (Hend fuel [TextNode d] s2 (pre ++ d) Hat2) as (s3 & -> & Hat3).
  exists s3. by rewrite app_assoc.
Qed.

Lemma parse_default fuel s pre name d rest :
  is_name name → is_default d → at_ s pre (name ++ str ":-" ++ d ++ str "}" ++ rest) →
  ∃ s', parseFunc (S (S (S fuel))) s = Ok (FuncNode name (str ":-") (default_args d), s') ∧
    at_ s' (pre ++ name ++ str ":-" ++ d ++ str "}") rest.
Proof.
  intros Hn Hd Hat.
  destruct (parseFunc_name (S (S fuel)) s pre name ":" ("-"%char :: d ++ str "}" ++ rest))
    as (s1 & -> & Hat1); try done.
  generalize (parseFunc (S (S fuel))) as pf. intros pf.
  unfold parseOperator, mbind at 1, P_bind, mbind at 1, outcome_bind at 1, peek.
  rewrite (peek_low _ _ _ _ Hat1) by done. change (bval ":" =? chr ":")%Z with true. cbv iota.
  set (s2 := set_pos s1 (pos s1) 1).
  assert (at_ s2 (pre ++ name) (":"%char :: "-"%char :: d ++ str "}" ++ rest)) as Hat2 by exact Hat1.
  unfold parseDefaultOrSubstr, read, unread, peek, mbind, P_bind, mbind, outcome_bind.
  pose proof (at_move _ _ [":"%char] _ 1 Hat2 eq_refl) as Hat3.
  rewrite (read_low _ _ _ _ Hat2) by done. set (s3 := set_pos s2 (pos s2 + 1) 1) in *.
  rewrite (peek_low _ _ _ _ Hat3) by done. change (bval "-" =? chr "=")%Z with false.
  change (bval "-" =? chr "-")%Z with true. cbn [orb].
  set (s4 := scanner_unread _).
  assert (at_ s4 (pre ++ name) (":"%char :: "-"%char :: d ++ str "}" ++ rest)) as Hat4.
  { destruct Hat2 as [Hb Hp]. split; [exact Hb|]. change (pos s2 + 1 - 1 = length (pre ++ name)). lia. }
  clearbody s4. unfold parseDefaultFunc, modify, peek, mbind, P_bind, mbind, outcome_bind.
  assert (at_ (set_accept s4 acceptDefaultFunc) (pre ++ name)
    (":"%char :: "-"%char :: d ++ str "}" ++ rest)) as Hat5 by exact Hat4.
  rewrite (peek_low _ _ _ _ Hat5) by done. change (bval ":" =? chr "=")%Z with false. cbv iota.
  unfold mret, P_ret. set (s6 := set_mode _ scanIdent).
  destruct (scan_default_op s6 (pre ++ name) (d ++ str "}" ++ rest)) as (s7 & -> & Hat7 & ->); try done.
  destruct (parse_default_args fuel pf name (str ":-") s7 _ d rest Hd Hat7) as (s8 & -> & Hat8).
  exists s8. split; [done|]. by rewrite <- !app_assoc in Hat8.
Qed.

(** ** Whole templates *)

Lemma eval_join m l r w :
  eval m (join l r) w = match eval m l w with Wrote w1 => eval m r w1 | e => e end.
Proof. destruct r; simpl; destruct (eval m l w); try done; by repeat case_match. Qed.

Lemma eval_var m name w :
  eval m (FuncNode name [] []) w = if (m name).2 then Wrote (w ++ (m name).1) else VarNotSet name.
Proof.
  simpl. unfold apply_func. destruct (m name) as [v []]; simpl; [|done].
  unfold toDefault. by rewrite andb_false_r.
Qed.

Lemma eval_default m name d w :
  eval m (FuncNode name (str ":-") (default_args d)) w =
  let v := (m name).1 in Wrote (w ++ (if length v =? 0 then d else v)).
Proof.
  assert (∀ args v, lookupFunc (str ":-") args v = λ l, Val (toDefault v l)) as Hf by reflexivity.
  destruct d as [|c d]; cbn [default_args eval]; unfold apply_func;
    destruct (m name) as [v ex]; change (isDefaultOp (str ":-")) with true; rewrite andb_false_r, Hf;
    unfold toDefault; simpl; destruct (length v =? 0) eqn:Ev; simpl; try done.
  - apply Nat.eqb_eq, nil_length_inv in Ev as ->. done.
  - by rewrite app_nil_r.
Qed.

(** The text a template starts with, and the rest. *)
Fixpoint leading (segs : list seg) : bytes * list seg :=
  match segs with
  | SText s :: segs => let '(t, rest) := leading segs in (s ++ t, rest)
  | _ => ([], segs)
  end.

Lemma leading_spec m segs txt rest :
  leading segs = (txt, rest) → Forall valid_seg segs →
  print segs = escape txt ++ print rest ∧ (∀ w, expand m segs w = expand m rest (w ++ txt)) ∧
  no_nul txt ∧ Forall valid_seg rest ∧ length rest <= length segs ∧
  match rest with SText _ :: _ => False | _ => True end.
Proof.
  revert txt rest. induction segs as [|g segs IH]; intros txt rest; simpl.
  { intros [= <- <-] _. split_and!; try done; [|constructor]. intros w. by rewrite app_nil_r. }
  intros El Hv. apply Forall_cons in Hv as [Hg Hv]. destruct g as [s|name|name d].
  - destruct (leading segs) as [t rest'] eqn:E. simplify_eq.
    destruct (IH t rest eq_refl Hv) as (Hp & He & Hn & Hr & Hl & Hm). split_and!; try done; [..|lia].
    + change (escape s ++ print segs = escape (s ++ t) ++ print rest). by rewrite Hp, escape_app, app_assoc.
    + intros w. by rewrite He, app_assoc.
    + by apply Forall_app.
  - simplify_eq. split_and!; try done; [intros w; by rewrite app_nil_r|constructor|by constructor].
  - simplify_eq. split_and!; try done; [intros w; by rewrite app_nil_r|constructor|by constructor].
Qed.

Lemma print_end segs : match segs with SText _ :: _ => False | _ => True end → text_end (print segs).
Proof. destruct segs as [|[| |] segs]; [by left|done|right; by eexists..]. Qed.

(** The opening brace. *)
Lemma scan_brace s pre rest :
  text_mode s → at_ s pre (str "${" ++ rest) →
  ∃ s', scan s = Ok (tokenLbrack, s') ∧ at_ s' (pre ++ str "${") rest.
Proof.
  intros (Hm & _ & _) Hat. unfold scan, scanner_scan. set (s0 := set_start s (pos s)).
  assert (at_ s0 pre (str "${" ++ rest)) as Hat0 by exact Hat.
  rewrite (read_low _ _ _ _ Hat0) by done. change (bval "$" =? eof)%Z with false. cbv iota.
  pose proof (at_move _ _ ["$"%char] _ 1 Hat0 eq_refl) as Hat1. set (s1 := set_pos s0 _ _) in *.
  unfold scanner_scanLbrack. change (mode s1) with (mode s). rewrite Hm.
  change (negb (has_bit _ scanLbrack)) with false. change (bval "$" =? chr "$")%Z with true. cbv iota.
  rewrite (read_low _ _ _ _ Hat1) by done. change (bval "{" =? chr "{")%Z with true. cbv iota.
  eexists; split; [done|]. change (str "${") with (["$"%char] ++ ["{"%char]). rewrite app_assoc.
  by apply (at_move s1 _ ["{"%char]).
Qed.

Lemma parseAny_text fuel s :
  parseAny (S fuel) s =
  (let s0 := set_escape (set_mode (set_accept s acceptRune)
               (Z.lor (Z.lor scanIdent scanLbrack) scanEscape)) dollar in
   '(t, s1) ← scan s0;
   match t with
   | tokenIdent => ((left ← lexeme; right ← parseAny fuel; mret (join (TextNode left) right)) : P Node) s1
   | tokenEOF => (mret EmptyText : P Node) s1
   | tokenLbrack => ((left ← parseFunc (S fuel); right ← parseAny fuel; mret (join left right)) : P Node) s1
   | _ => fail ErrBadSubstitution s1
   end).
Proof.
  cbv zeta. set (s0 := set_escape _ _). cbn [parseAny].
  unfold modify, mbind, P_bind, mbind, outcome_bind. fold s0.
  destruct (scan s0) as [[t s1]| | |]; [destruct t; reflexivity|done..].
Qed.

(** A parse whose tree has the meaning [n]. *)
Definition parses_to (o : outcome (Node * scanner)) (n : mapping → bytes → exec) : Prop :=
  ∃ node s', o = Ok (node, s') ∧ ∀ m w, eval m node w = n m w.

Lemma parses_join fuel left s segs n :
  parses_to (parseAny fuel s) (λ m, expand m segs) →
  (∀ m w, n m w = match eval m left w with Wrote w1 => expand m segs w1 | e => e end) →
  parses_to (((right ← parseAny fuel; mret (join left right)) : P Node) s) n.
Proof.
  intros (node & s2 & E & Hev) Hn. exists (join left node), s2. unfold mbind, P_bind. rewrite E.
  split; [done|]. intros m w. rewrite eval_join, Hn. destruct (eval m left w); [apply Hev|done..].
Qed.

(** A substitution in front of a template. *)
Lemma parses_subst fuel s s1 pre left segs n :
  (∃ s', parseFunc (S fuel) s1 = Ok (left, s') ∧ at_ s' pre (print segs)) →
  (∀ s pre, at_ s pre (print segs) → parses_to (parseAny fuel s) (λ m, expand m segs)) →
  scan s = Ok (tokenLbrack, s1) →
  (∀ m w, n m w = match eval m left w with Wrote w1 => expand m segs w1 | e => e end) →
  parses_to ('(t, s1) ← scan s;
    match t with
    | tokenIdent => ((left ← lexeme; right ← parseAny fuel; mret (join (TextNode left) right)) : P Node) s1
    | tokenEOF => (mret EmptyText : P Node) s1
    | tokenLbrack => ((left ← parseFunc (S fuel); right ← parseAny fuel; mret (join left right)) : P Node) s1
    | _ => fail ErrBadSubstitution s1
    end) n.
Proof.
  intros (s2 & E2 & Hat2) IH -> Hn. cbn [mbind outcome_bind]. unfold mbind at 1, P_bind at 1. rewrite E2.
  eapply parses_join; [by eapply IH|done].
Qed.

(** The parser's tree of a printed template has the template's meaning. *)
Lemma parseAny_print fuel segs s pre :
  Forall valid_seg segs → at_ s pre (print segs) → length (print segs) < fuel →
  parses_to (parseAny fuel s) (λ m, expand m segs).
Proof.
  revert segs s pre. induction fuel as [|fuel IH]; intros segs s pre Hv Hat Hf; [lia|].
  rewrite parseAny_text. cbv zeta.
  set (s0 := set_escape _ _). assert (text_mode s0) as Hm by done.
  assert (at_ s0 pre (print segs)) as Hat0 by exact Hat. clearbody s0. clear Hat s.
  destruct (leading segs) as [txt rest] eqn:El.
  pose proof (λ m, leading_spec m _ _ _ El Hv) as Hlead.
  destruct (Hlead (λ _, ([], true))) as (Hp & _ & Hn & Hr & _ & Hend). rewrite Hp in Hat0, Hf.
  destruct (decide (txt = [])) as [->|Hne].
  - assert (∀ m w, expand m segs w = expand m rest w) as He.
    { intros m w. destruct (Hlead m) as (_ & -> & _). by rewrite app_nil_r. }
    simpl in Hat0, Hf. destruct rest as [|g rest].
    + exists EmptyText. unfold scan, scanner_scan. rewrite (read_end (set_start s0 (pos s0)) pre) by exact Hat0.
      eexists. split; [done|]. intros m w. by rewrite He.
    + apply Forall_cons in Hr as [Hg Hr]. destruct g as [|name|name d]; [done|..];
        cbn [print mbind list_bind print_seg] in Hat0, Hf; fold (print rest) in Hat0, Hf;
        rewrite <- !app_assoc in Hat0; destruct (scan_brace _ _ _ Hm Hat0) as (s1 & E1 & Hat1);
        rewrite !length_app in Hf; simpl in Hf; (eapply parses_subst; [|intros; eapply IH; eauto; lia|done|]).
      * by eapply (parse_var fuel).
      * intros m w. rewrite eval_var, He. simpl. by destruct (m name) as [v []].
      * destruct Hg as [Hg Hd]. destruct fuel as [|[|fuel]]; [lia..|]. by eapply (parse_default fuel).
      * intros m w. by rewrite eval_default, He.
  - destruct (scan_text s0 pre txt (print rest)) as (s1 & -> & Hat1 & Elex); try done.
    { by apply print_end. }
    cbn [mbind outcome_bind]. unfold mbind at 1, P_bind at 1. rewrite Elex.
    eapply parses_join; [eapply IH; [done|exact Hat1|]|].
    + rewrite length_app in Hf. pose proof (escape_length txt). destruct txt; [done|]. simpl in *. lia.
    + intros m w. by destruct (Hlead m) as (_ & -> & _).
Qed.
End subst.

(** C5. Templates mean what they say: a template made of text, variables and
    variables with a default, printed with every dollar of the text doubled,
    evaluates to the text with the variables replaced, whatever the bytes of
    the text other than NUL.  Names are made of ASCII letters, digits and
    underscores, and a default has no NUL, dollar or closing brace.  A variable without a default that is not set
    (strict mode) is the error that names it, and the default is taken when
    the value is empty. *)
Theorem Eval_print `{Unicode} (segs : list seg) (m : mapping) :
  Forall valid_seg segs →
  envsubst_Eval (print segs) m =
    match expand m segs [] with
    | Wrote w => Result w None
    | VarNotSet p => Result [] (Some (NotSet p))
    | ExecPanic => EvalPanic
    end.
Proof.
  intros Hv. unfold envsubst_Eval, Parse. set (s := scanner_init _ _).
  destruct (parseAny_print (S (length (print segs))) segs s []) as (node & s' & -> & Hev); try done.
  { lia. }
  unfold Execute. cbn [mbind outcome_bind]. by rewrite Hev.
Qed.

(** A template with text, dollars, a variable and a default. *)
Definition sample : list seg :=
  [SText (str "cost: $5 "); SVar (str "name"); SText (str "$"); SDefault (str "region") (str "eu-west")].

Lemma Eval_print_witness :
  @envsubst_Eval ascii_only (print sample)
    (λ x, if bool_decide (x = str "name") then (str "flux", true) else ([], false))
  = Result (str "cost: $5 flux$eu-west") None.
Proof.
  rewrite (@Eval_print ascii_only sample).
  - by vm_compute.
  - repeat constructor; done.
Defined.
