(* ===== verification/Conditions.v ===== *)
(** * Conditions: reading and setting ([runtime/conditions/getter.go], [setter.go])

    A Kubernetes object carries a list of conditions, one per type, in a fixed
    display order.  [Set] replaces or adds a condition and keeps the list
    sorted; the sorting algorithm is the interface [SortFunc], and the results
    below do not depend on it. *)

From S2P Require Import Prelude GoStd.

(** ** Data *)

(** Timestamps count nanoseconds from the zero time. *)
Definition second : Z := 1000000000.
Definition Truncate (t d : Z) : Z := (t - t mod d)%Z.

(** [metav1.Condition]; the status is a string type with three values in use. *)
Record Condition := mkCondition {
  Type_ : string;
  Status : string;
  ObservedGeneration : Z;
  LastTransitionTime : Z;
  Reason : string;
  Message : string }.

Definition ConditionTrue : string := "True".
Definition ConditionFalse : string := "False".
Definition ConditionUnknown : string := "Unknown".

(** [src/apis/meta/conditions.go:40-43 ReadyCondition] *)
Definition ReadyCondition : string := "Ready".
(** [src/apis/meta/conditions.go:45-51 StalledCondition] *)
Definition StalledCondition : string := "Stalled".
(** [src/apis/meta/conditions.go:53-59 ReconcilingCondition] *)
Definition ReconcilingCondition : string := "Reconciling".

#[global] Instance Condition_eq_dec : EqDecision Condition.
Proof. solve_decision. Defined.

(** What the package uses of an object.
    [src/runtime/conditions/getter.go:33-38 Getter] *)
Record object := mkObject {
  Kind : string;
  Name : string;
  Generation : Z;
  GetConditions : list Condition }.

(** [src/runtime/conditions/setter.go:36-41 Setter] *)
Definition SetConditions (o : object) (l : list Condition) : object :=
  mkObject (Kind o) (Name o) (Generation o) l.

Definition string_eqb (a b : string) : bool := bool_decide (a = b).
(** Go's [<] on strings. *)
Definition string_ltb (a b : string) : bool := negb (String.leb b a).

(** ** Getters *)

(** The first condition of a type in a list. *)
Fixpoint find_type (l : list Condition) (t : string) : option Condition :=
  match l with
  | [] => None
  | c :: l => if string_eqb (Type_ c) t then Some c else find_type l t
  end.

(** [src/runtime/conditions/getter.go:40-53 Get] *)
Definition Get (from : object) (t : string) : option Condition := find_type (GetConditions from) t.

(** [src/runtime/conditions/getter.go:55-58 Has] *)
Definition Has (from : object) (t : string) : bool := match Get from t with Some _ => true | None => false end.

(** [src/runtime/conditions/getter.go:60-68 HasAny] *)
Fixpoint HasAny (from : object) (ts : list string) : bool :=
  match ts with
  | [] => false
  | ct :: ts => if Has from ct then true else HasAny from ts
  end.

(** [src/runtime/conditions/getter.go:125-131 GetReason] *)
Definition GetReason (from : object) (t : string) : string :=
  match Get from t with Some c => Reason c | None => "" end.

(** [src/runtime/conditions/getter.go:70-79 HasAnyReason] *)
Fixpoint HasAnyReason (from : object) (t : string) (rs : list string) : bool :=
  match rs with
  | [] => false
  | reason :: rs => if string_eqb (GetReason from t) reason then true else HasAnyReason from t rs
  end.

(** [src/runtime/conditions/getter.go:81-88 IsTrue] *)
Definition IsTrue (from : object) (t : string) : bool :=
  match Get from t with Some c => string_eqb (Status c) ConditionTrue | None => false end.
(** [src/runtime/conditions/getter.go:90-97 IsFalse] *)
Definition IsFalse (from : object) (t : string) : bool :=
  match Get from t with Some c => string_eqb (Status c) ConditionFalse | None => false end.
(** [src/runtime/conditions/getter.go:99-105 IsUnknown] *)
Definition IsUnknown (from : object) (t : string) : bool :=
  match Get from t with Some c => string_eqb (Status c) ConditionUnknown | None => true end.

(** [src/runtime/conditions/getter.go:113-117 IsStalled] *)
Definition IsStalled (from : object) : bool :=
  negb (IsTrue from ReconcilingCondition) && IsTrue from StalledCondition.
(** [src/runtime/conditions/getter.go:119-123 IsReconciling] *)
Definition IsReconciling (from : object) : bool :=
  negb (IsTrue from StalledCondition) && IsTrue from ReconcilingCondition.
(** [src/runtime/conditions/getter.go:107-111 IsReady] *)
Definition IsReady (from : object) : bool :=
  negb (IsStalled from) && negb (IsReconciling from) && IsTrue from ReadyCondition.

(** [src/runtime/conditions/getter.go:133-139 GetMessage] *)
Definition GetMessage (from : object) (t : string) : string :=
  match Get from t with Some c => Message c | None => "" end.
(** [src/runtime/conditions/getter.go:141-147 GetLastTransitionTime] *)
Definition GetLastTransitionTime (from : object) (t : string) : option Z :=
  match Get from t with Some c => Some (LastTransitionTime c) | None => None end.
(** [src/runtime/conditions/getter.go:149-155 GetObservedGeneration] *)
Definition GetObservedGeneration (from : object) (t : string) : Z :=
  match Get from t with Some c => ObservedGeneration c | None => 0%Z end.

(** ** Setters *)

(** [src/runtime/conditions/setter.go:196-201 conditionWeights] *)
Definition conditionWeights (t : string) : option Z :=
  if string_eqb t StalledCondition then Some 0%Z
  else if string_eqb t ReconcilingCondition then Some 1%Z
  else if string_eqb t ReadyCondition then Some 2%Z
  else None.

(** [src/runtime/conditions/setter.go:203-220 lexicographicLess] *)
Definition lexicographicLess (i j : Condition) : bool :=
  match conditionWeights (Type_ i), conditionWeights (Type_ j) with
  | Some w1, Some w2 => (w1 <? w2)%Z
  | Some _, None => true
  | None, Some _ => false
  | None, None =>
      if (ObservedGeneration i =? ObservedGeneration j)%Z then string_ltb (Type_ i) (Type_ j)
      else (ObservedGeneration j <? ObservedGeneration i)%Z
  end.

(** [src/runtime/conditions/setter.go:222-229 hasSameState] *)
Definition hasSameState (i j : Condition) : bool :=
  string_eqb (Type_ i) (Type_ j) && string_eqb (Status i) (Status j) &&
  string_eqb (Reason i) (Reason j) && string_eqb (Message i) (Message j).

(** [src/runtime/conditions/setter.go:231-234 maxMessageLength] *)
Definition maxMessageLength : nat := Z.to_nat 32768.
(** [src/runtime/conditions/setter.go:231-234 trimmedMessageSuffix] *)
Definition trimmedMessageSuffix : string := "...".

(** [src/runtime/conditions/setter.go:236-248 trimConditionMessage] *)
Definition trimConditionMessage (msg : string) (maxLength : nat) : string :=
  let maxLength := if maxLength <? String.length trimmedMessageSuffix
                   then String.length trimmedMessageSuffix else maxLength in
  if String.length msg <=? maxLength then msg
  else String.substring 0 (maxLength - String.length trimmedMessageSuffix) msg
       +:+ trimmedMessageSuffix.

(** Assignments to the fields of a condition. *)
Definition with_generation (c : Condition) (g : Z) : Condition :=
  mkCondition (Type_ c) (Status c) g (LastTransitionTime c) (Reason c) (Message c).
Definition with_message (c : Condition) (m : string) : Condition :=
  mkCondition (Type_ c) (Status c) (ObservedGeneration c) (LastTransitionTime c) (Reason c) m.
Definition with_time (c : Condition) (t : Z) : Condition :=
  mkCondition (Type_ c) (Status c) (ObservedGeneration c) t (Reason c) (Message c).
Definition with_type (c : Condition) (t : string) : Condition :=
  mkCondition t (Status c) (ObservedGeneration c) (LastTransitionTime c) (Reason c) (Message c).

Section setters.
Context `{SortFunc}.

(** The loop over the existing conditions: the new list, and the condition
    with its transition time if its type was found.
    [src/runtime/conditions/setter.go:60-79 Set] *)
Fixpoint Set_loop (now : Z) (conditions : list Condition) (condition : Condition)
    : list Condition * option Condition :=
  match conditions with
  | [] => ([], None)
  | existing :: rest =>
      if string_eqb (Type_ existing) (Type_ condition) then
        if negb (hasSameState existing condition) then
          let condition := with_time condition (Truncate now second) in
          (condition :: rest, Some condition)
        else
          let condition := with_time condition (LastTransitionTime existing) in
          if negb (ObservedGeneration existing =? ObservedGeneration condition)%Z
          then (condition :: rest, Some condition)
          else (existing :: rest, Some condition)
      else
        let '(rest, r) := Set_loop now rest condition in (existing :: rest, r)
  end.

(** [src/runtime/conditions/setter.go:43-95 Set]
    The condition is a pointer: a nil one is ignored, and the fields of the
    condition the caller passed are updated. *)
Definition Set_ (now : Z) (to : object) (condition : option Condition) : object * option Condition :=
  match condition with
  | None => (to, None)
  | Some condition =>
      let condition := with_generation condition (Generation to) in
      let condition := with_message condition (trimConditionMessage (Message condition) maxMessageLength) in
      let '(conditions, found) := Set_loop now (GetConditions to) condition in
      let '(conditions, condition) :=
        match found with
        | Some condition => (conditions, condition)
        | None =>
            let condition := if (LastTransitionTime condition =? 0)%Z
                             then with_time condition (Truncate now second) else condition in
            (app conditions [condition], condition)
        end in
      (SetConditions to (sort_Slice lexicographicLess conditions), Some condition)
  end.

(** The object after a call of [Set]. *)
Definition Set_obj (now : Z) (to : object) (condition : option Condition) : object := (Set_ now to condition).1.

(** [src/runtime/conditions/setter.go:97-105 TrueCondition]
    The message is the formatted text. *)
Definition TrueCondition (t reason message : string) : Condition :=
  mkCondition t ConditionTrue 0 0 reason message.
(** [src/runtime/conditions/setter.go:107-115 FalseCondition] *)
Definition FalseCondition (t reason message : string) : Condition :=
  mkCondition t ConditionFalse 0 0 reason message.
(** [src/runtime/conditions/setter.go:117-125 UnknownCondition] *)
Definition UnknownCondition (t reason message : string) : Condition :=
  mkCondition t ConditionUnknown 0 0 reason message.

(** [src/runtime/conditions/setter.go:127-130 MarkTrue] *)
Definition MarkTrue (now : Z) (to : object) (t reason message : string) : object :=
  Set_obj now to (Some (TrueCondition t reason message)).
(** [src/runtime/conditions/setter.go:132-135 MarkUnknown] *)
Definition MarkUnknown (now : Z) (to : object) (t reason message : string) : object :=
  Set_obj now to (Some (UnknownCondition t reason message)).
(** [src/runtime/conditions/setter.go:137-140 MarkFalse] *)
Definition MarkFalse (now : Z) (to : object) (t reason message : string) : object :=
  Set_obj now to (Some (FalseCondition t reason message)).

(** [src/runtime/conditions/setter.go:180-194 Delete] *)
Definition Delete (to : object) (t : string) : object :=
  SetConditions to (filter (λ c, negb (string_eqb (Type_ c) t) = true) (GetConditions to)).

(** [src/runtime/conditions/setter.go:142-149 MarkReconciling] *)
Definition MarkReconciling (now : Z) (to : object) (reason message : string) : object :=
  MarkTrue now (Delete to StalledCondition) ReconcilingCondition reason message.
(** [src/runtime/conditions/setter.go:151-159 MarkStalled] *)
Definition MarkStalled (now : Z) (to : object) (reason message : string) : object :=
  MarkTrue now (Delete to ReconcilingCondition) StalledCondition reason message.
End setters.

(** ** The display order *)

(** The order of [lexicographicLess], as a key: weighted types first, then the
    highest generation, then the type. *)
Definition key (c : Condition) : Z * Z * string :=
  match conditionWeights (Type_ c) with
  | Some w => (w, 0%Z, ""%string)
  | None => (3%Z, (- ObservedGeneration c)%Z, Type_ c)
  end.

Definition key_le (k k' : Z * Z * string) : Prop :=
  (k.1.1 < k'.1.1)%Z ∨ k.1.1 = k'.1.1 ∧
  ((k.1.2 < k'.1.2)%Z ∨ k.1.2 = k'.1.2 ∧ String.le k.2 k'.2).

Definition cond_le (c d : Condition) : Prop := key_le (key c) (key d).

#[global] Instance key_le_trans : Transitive key_le.
Proof.
  intros [[a b] s] [[a' b'] s'] [[a'' b''] s'']. unfold key_le. simpl.
  intros [H1|(H1 & [H2|(H2 & H3)])] [H4|(H4 & [H5|(H5 & H6)])];
    try (left; lia); right; (split; [lia|]); try (left; lia); right; (split; [lia|]); by transitivity s'.
Qed.

#[global] Instance key_le_total : Total key_le.
Proof.
  intros [[a b] s] [[a' b'] s']. unfold key_le. simpl.
  destruct (Z.lt_trichotomy a a') as [|[->|]]; [by left; left| |by right; left].
  destruct (Z.lt_trichotomy b b') as [|[->|]]; [left; right; by auto| |right; right; by auto].
  destruct (total String.le s s'); [left|right]; right; auto.
Qed.

Lemma key_le_antisym k k' : key_le k k' → key_le k' k → k = k'.
Proof.
  destruct k as [[a b] s], k' as [[a' b'] s']. unfold key_le. simpl.
  intros [H1|(H1 & [H2|(H2 & H3)])] [H4|(H4 & [H5|(H5 & H6)])]; try lia. subst.
  by rewrite (anti_symm String.le s s' H3 H6).
Qed.

Lemma conditionWeights_inj t t' w :
  conditionWeights t = Some w → conditionWeights t' = Some w → t = t'.
Proof. unfold conditionWeights, string_eqb. repeat case_bool_decide; naive_solver. Qed.

Lemma conditionWeights_range t w : conditionWeights t = Some w → (0 <= w < 3)%Z.
Proof. unfold conditionWeights. repeat case_match; naive_solver lia. Qed.

Lemma key_type c d : key c = key d → Type_ c = Type_ d.
Proof.
  unfold key. destruct (conditionWeights (Type_ c)) as [w|] eqn:E1,
    (conditionWeights (Type_ d)) as [w'|] eqn:E2; intros Heq; simplify_eq; [..|done].
  - by eapply conditionWeights_inj.
  - apply conditionWeights_range in E1. lia.
  - apply conditionWeights_range in E2. lia.
Qed.

Lemma string_ltb_spec s t : string_ltb s t = false ↔ String.le t s.
Proof. unfold string_ltb, String.le. destruct (String.leb t s); simpl; split; done. Qed.

(** [d] is not before [c] if and only if [c] may come first. *)
Lemma lexicographicLess_false c d : lexicographicLess d c = false ↔ cond_le c d.
Proof.
  unfold lexicographicLess, cond_le, key, key_le.
  destruct (conditionWeights (Type_ c)) as [w|] eqn:E1, (conditionWeights (Type_ d)) as [w'|] eqn:E2; simpl.
  - rewrite Z.ltb_ge. split; [|lia]. intros Hle. destruct (decide (w = w')); [right|lia].
    split; [done|]. right. done.
  - apply conditionWeights_range in E1. split; [lia|done].
  - apply conditionWeights_range in E2. split; [done|lia].
  - destruct (Z.eqb_spec (ObservedGeneration d) (ObservedGeneration c)) as [E|E].
    + rewrite string_ltb_spec, E. split; [auto|]. intros [|[_ [|[_ ?]]]]; [lia..|done].
    + rewrite Z.ltb_ge. split; [lia|]. intros [|[_ [|[? _]]]]; lia.
Qed.

Definition types (l : list Condition) : list string := Type_ <$> l.

(** Sorting conditions of distinct types has one result. *)
Lemma sorted_unique l1 l2 :
  NoDup (types l1) → l1 ≡ₚ l2 → StronglySorted cond_le l1 → StronglySorted cond_le l2 → l1 = l2.
Proof.
  intros Hnd Hp H1 H2. apply (StronglySorted_unique_strong cond_le); [|done..].
  intros c d Hc Hd Hcd Hdc. assert (key c = key d) as Hk by by apply key_le_antisym.
  apply key_type in Hk. rewrite <- Hp in Hd.
  apply list_elem_of_lookup in Hc as [i Hi], Hd as [j Hj].
  assert (i = j) as ->; [|congruence].
  eapply (NoDup_lookup (types l1) _ _ (Type_ c)); [done|..]; unfold types; rewrite list_lookup_fmap.
  - by rewrite Hi.
  - by rewrite Hj, Hk.
Qed.

Section sort.
Context `{SortFunc}.

Lemma sort_conditions_sorted l : StronglySorted cond_le (sort_Slice lexicographicLess l).
Proof.
  apply sort_Slice_sorted; [| |intros; apply lexicographicLess_false].
  - intros c d e. apply key_le_trans.
  - intros c d. apply (total key_le).
Qed.
End sort.

(** ** The lists of conditions *)

Lemma find_type_Some l t c : find_type l t = Some c → c ∈ l ∧ Type_ c = t.
Proof.
  induction l as [|d l IH]; simpl; [done|]. unfold string_eqb. case_bool_decide.
  - intros [= ->]. split; [left|done].
  - intros Hf. destruct (IH Hf). split; [by right|done].
Qed.

Lemma find_type_In l c : NoDup (types l) → c ∈ l → find_type l (Type_ c) = Some c.
Proof.
  induction l as [|d l IH]; [by intros _ ?%elem_of_nil|]. simpl. rewrite NoDup_cons, elem_of_cons.
  intros [Hd Hnd] [->|Hc]; unfold string_eqb.
  - by rewrite bool_decide_true.
  - rewrite bool_decide_false; [auto|]. intros E. apply Hd. rewrite E.
    by apply list_elem_of_fmap_2.
Qed.

Lemma find_type_None l t : find_type l t = None ↔ t ∉ types l.
Proof.
  induction l as [|d l IH]; simpl; [split; [intros _; apply not_elem_of_nil|done]|].
  rewrite elem_of_cons. unfold string_eqb. case_bool_decide; [naive_solver|]. rewrite IH. naive_solver.
Qed.

Lemma find_type_perm l l' t : NoDup (types l) → l ≡ₚ l' → find_type l t = find_type l' t.
Proof.
  intros Hnd Hp. assert (NoDup (types l')) as Hnd' by (unfold types in *; by rewrite <- Hp).
  destruct (find_type l t) as [c|] eqn:E.
  - apply find_type_Some in E as [Hc <-]. symmetry. apply find_type_In; [done|by rewrite <- Hp].
  - symmetry. rewrite find_type_None in E |- *. unfold types in *. by rewrite <- Hp.
Qed.

(** Two lists of distinct types with the same lookups have the same elements. *)
Lemma find_type_ext l l' :
  NoDup (types l) → NoDup (types l') → (∀ t, find_type l t = find_type l' t) → l ≡ₚ l'.
Proof.
  intros Hnd Hnd' Heq. apply NoDup_Permutation.
  - by eapply NoDup_fmap_1.
  - by eapply NoDup_fmap_1.
  - intros c. split; intros Hc.
    + pose proof (find_type_In l c Hnd Hc) as E. rewrite Heq in E. by apply find_type_Some in E as [? _].
    + pose proof (find_type_In l' c Hnd' Hc) as E. rewrite <- Heq in E. by apply find_type_Some in E as [? _].
Qed.

Lemma hasSameState_spec c d :
  hasSameState c d = true ↔
  Type_ c = Type_ d ∧ Status c = Status d ∧ Reason c = Reason d ∧ Message c = Message d.
Proof. unfold hasSameState, string_eqb. rewrite !andb_true_iff, !bool_decide_eq_true. tauto. Qed.

(** The well-formed objects: one condition per type, in display order. *)
Definition wf_conditions (o : object) : Prop :=
  NoDup (types (GetConditions o)) ∧ StronglySorted cond_le (GetConditions o).

(** ** [Set] *)

(** The condition [Set] stores: the object's generation, the trimmed message,
    and the transition time of the existing condition unless its state
    changed. *)
Definition stored (now : Z) (o : object) (c : Condition) : Condition :=
  let c := with_message (with_generation c (Generation o))
             (trimConditionMessage (Message c) maxMessageLength) in
  with_time c
    match Get o (Type_ c) with
    | Some e => if hasSameState e c then LastTransitionTime e else Truncate now second
    | None => if (LastTransitionTime c =? 0)%Z then Truncate now second else LastTransitionTime c
    end.

Lemma Set_loop_spec now l c :
  NoDup (types l) →
  let '(l', found) := Set_loop now l c in
  types l' = types l ∧ (∀ t, t ≠ Type_ c → find_type l' t = find_type l t) ∧
  match find_type l (Type_ c) with
  | None => l' = l ∧ found = None
  | Some e =>
      let c' := with_time c (if hasSameState e c then LastTransitionTime e else Truncate now second) in
      found = Some c' ∧ find_type l' (Type_ c) = Some c'
  end.
Proof.
  induction l as [|e l IH]; simpl; [done|]. rewrite NoDup_cons. intros [He Hnd].
  unfold string_eqb at 1 3. case_bool_decide as Hty.
  - destruct (hasSameState e c) eqn:Es; simpl.
    + apply hasSameState_spec in Es as (_ & HS & HR & HM).
      destruct (Z.eqb_spec (ObservedGeneration e) (ObservedGeneration c)) as [Eg|Eg]; simpl.
      * split_and!; [done|done|done|]. unfold string_eqb. rewrite bool_decide_true by done. f_equal.
        destruct e, c. unfold with_time. simpl in *. by simplify_eq.
      * unfold string_eqb. rewrite Hty. split_and!; [done| |done|by rewrite bool_decide_true].
        intros t Ht. by rewrite !bool_decide_false by congruence.
    + unfold string_eqb. rewrite Hty. split_and!; [done| |done|by rewrite bool_decide_true].
      intros t Ht. by rewrite !bool_decide_false by congruence.
  - specialize (IH Hnd). destruct (Set_loop now l c) as [l' found].
    destruct IH as (Ht & Ho & Hf). simpl. split_and!; [by f_equal| |].
    + intros t Hne. unfold string_eqb. case_bool_decide; [done|by apply Ho].
    + unfold string_eqb at 1. rewrite (bool_decide_false (Type_ e = Type_ c)) by done.
      destruct (find_type l (Type_ c)); [|by destruct Hf as [-> ->]]. done.
Qed.

Lemma find_type_app l c t :
  find_type (l ++ [c]) t =
  match find_type l t with Some e => Some e | None => if string_eqb (Type_ c) t then Some c else None end.
Proof. induction l as [|e l IH]; simpl; [done|]. by destruct (string_eqb (Type_ e) t). Qed.

(** The condition with the generation and the trimmed message. *)
Definition prepared (o : object) (c : Condition) : Condition :=
  with_message (with_generation c (Generation o)) (trimConditionMessage (Message c) maxMessageLength).

(** The list before it is sorted. *)
Definition set_list (now : Z) (o : object) (c : Condition) : list Condition :=
  let c := prepared o c in
  let '(l, found) := Set_loop now (GetConditions o) c in
  match found with
  | Some _ => l
  | None => l ++ [if (LastTransitionTime c =? 0)%Z then with_time c (Truncate now second) else c]
  end.

Lemma set_list_spec now o c :
  NoDup (types (GetConditions o)) →
  NoDup (types (set_list now o c)) ∧ find_type (set_list now o c) (Type_ c) = Some (stored now o c) ∧
  ∀ t, t ≠ Type_ c → find_type (set_list now o c) t = Get o t.
Proof.
  intros Hnd. unfold set_list, stored. fold (prepared o c). set (c1 := prepared o c). unfold Get at 1.
  pose proof (Set_loop_spec now (GetConditions o) c1 Hnd) as Hl.
  destruct (Set_loop now (GetConditions o) c1) as [l' found]. destruct Hl as (Ht & Hother & Hf).
  change (Type_ c1) with (Type_ c) in *.
  destruct (find_type (GetConditions o) (Type_ c)) as [e|] eqn:Ef.
  - destruct Hf as [-> Hf]. split_and!; [by rewrite Ht|done|done].
  - destruct Hf as [-> ->]. set (c2 := if (LastTransitionTime c1 =? 0)%Z then _ else c1).
    assert (c2 = with_time c1 (if (LastTransitionTime c1 =? 0)%Z
      then Truncate now second else LastTransitionTime c1)) as <-.
    { unfold c2. destruct (LastTransitionTime c1 =? 0)%Z; [done|]. by destruct c1. }
    assert (Type_ c2 = Type_ c) as Hc2 by (unfold c2; by case_match).
    split_and!.
    + unfold types. rewrite fmap_app, NoDup_app. split_and!; [done| |apply NoDup_singleton].
      intros t Hin ->%list_elem_of_singleton. rewrite Hc2 in Hin. by apply find_type_None in Ef.
    + rewrite find_type_app, Ef. unfold string_eqb. by rewrite bool_decide_true.
    + intros t Hne. rewrite find_type_app. unfold Get. destruct (find_type (GetConditions o) t); [done|].
      unfold string_eqb. by rewrite bool_decide_false by congruence.
Qed.

Section set.
Context `{SortFunc}.

Lemma Set_obj_sort now o c :
  Set_obj now o (Some c) = SetConditions o (sort_Slice lexicographicLess (set_list now o c)).
Proof.
  unfold Set_obj, Set_, set_list, prepared. cbn zeta. destruct (Set_loop _ _ _) as [l [c'|]]; done.
Qed.

Lemma Set_correct now o c :
  NoDup (types (GetConditions o)) →
  let o' := Set_obj now o (Some c) in
  wf_conditions o' ∧ Get o' (Type_ c) = Some (stored now o c) ∧
  (∀ t, t ≠ Type_ c → Get o' t = Get o t) ∧
  (Kind o', Name o', Generation o') = (Kind o, Name o, Generation o).
Proof.
  intros Hnd o'. unfold o'. rewrite Set_obj_sort.
  destruct (set_list_spec now o c Hnd) as (Hnd' & Hget & Hother).
  assert (∀ t, Get (SetConditions o (sort_Slice lexicographicLess (set_list now o c))) t =
    find_type (set_list now o c) t) as Hg.
  { intros t. symmetry. apply find_type_perm; [done|]. symmetry. apply sort_Slice_perm. }
  split_and!; [split|by rewrite Hg|intros t Hne; rewrite Hg; by apply Hother|done].
  - simpl. unfold types in *. by rewrite sort_Slice_perm.
  - apply sort_conditions_sorted.
Qed.

(** Well-formed objects with the same header and the same conditions by type
    are equal. *)
Lemma object_ext o o' :
  wf_conditions o → wf_conditions o' →
  (Kind o, Name o, Generation o) = (Kind o', Name o', Generation o') →
  (∀ t, Get o t = Get o' t) → o = o'.
Proof.
  intros [Hnd Hs] [Hnd' Hs'] Hh Hget. destruct o as [k n g l], o' as [k' n' g' l']. simpl in *. simplify_eq.
  f_equal. apply sorted_unique; try done. by apply find_type_ext.
Qed.

Lemma find_type_filter l t t' :
  find_type (filter (λ c, negb (string_eqb (Type_ c) t) = true) l) t' =
  if string_eqb t' t then None else find_type l t'.
Proof.
  unfold string_eqb. induction l as [|c l IH]; [by case_bool_decide|]. rewrite filter_cons. simpl.
  destruct (bool_decide_reflect (Type_ c = t)) as [->|Hc]; simpl; unfold string_eqb.
  - rewrite IH. repeat case_bool_decide; congruence.
  - rewrite IH. repeat case_bool_decide; congruence.
Qed.

Lemma Delete_correct o t :
  wf_conditions o →
  wf_conditions (Delete o t) ∧ Get (Delete o t) t = None ∧
  (∀ t', t' ≠ t → Get (Delete o t) t' = Get o t') ∧
  (Kind (Delete o t), Name (Delete o t), Generation (Delete o t)) = (Kind o, Name o, Generation o).
Proof.
  intros [Hnd Hs]. unfold Get, Delete. cbn [GetConditions SetConditions Kind Name Generation].
  split; [split|split_and!; [| |done]].
  - eapply sublist_NoDup; [exact Hnd|]. apply fmap_sublist, sublist_filter.
  - cbn [GetConditions SetConditions]. clear Hnd.
    induction Hs as [|c l Hs IH Hall]; [constructor|]. rewrite filter_cons.
    case_decide; [|done]. constructor; [done|].
    rewrite Forall_forall in Hall |- *. intros d [_ Hd]%list_elem_of_filter. by apply Hall.
  - rewrite find_type_filter. unfold string_eqb. by rewrite bool_decide_true.
  - intros t' Hne. rewrite find_type_filter. unfold string_eqb. by rewrite bool_decide_false.
Qed.

End set.

(** [Set] on a well-formed object: the result is well-formed again and
    does not depend on the sorting algorithm, the condition read back has
    the object's generation and the trimmed message, its transition time moves
    exactly when the status, the reason or the message changed, and every
    other condition is untouched. *)
Theorem Set_spec `{SortFunc} now o c :
  wf_conditions o →
  let o' := Set_obj now o (Some c) in
  wf_conditions o' ∧ Get o' (Type_ c) = Some (stored now o c) ∧
  (∀ t, t ≠ Type_ c → Get o' t = Get o t) ∧
  (∀ S' : SortFunc, @Set_obj S' now o (Some c) = o').
Proof.
  intros [Hnd _] o'. destruct (Set_correct now o c Hnd) as (Hwf & Hget & Hother & Hh).
  split_and!; [done..|]. intros S'.
  destruct (@Set_correct S' now o c Hnd) as (Hwf' & Hget' & Hother' & Hh').
  apply object_ext; [done|done|by etrans; [exact Hh'|symmetry]|]. intros t.
  destruct (decide (t = Type_ c)) as [->|Hne]; [by etrans; [exact Hget'|symmetry]|].
  by etrans; [apply Hother'|symmetry; apply Hother].
Qed.

Lemma stored_stored `{SortFunc} now now' o c :
  wf_conditions o → stored now' (Set_obj now o (Some c)) c = stored now o c.
Proof.
  intros [Hnd _]. destruct (Set_correct now o c Hnd) as (_ & Hget & _ & Hh).
  injection Hh as _ _ Hg. unfold stored at 1. rewrite Hg. cbn zeta.
  change (Type_ (with_message _ _)) with (Type_ c). rewrite Hget.
  rewrite (proj2 (hasSameState_spec _ _)) by done. done.
Qed.

(** Setting the same condition again changes nothing, at any later time:
    the transition time is kept and the list is the same, so that a
    reconciler that repeats itself causes no update. *)
Theorem Set_idempotent `{SortFunc} now now' o c :
  wf_conditions o →
  Set_obj now' (Set_obj now o (Some c)) (Some c) = Set_obj now o (Some c).
Proof.
  intros Hwf. pose proof (stored_stored now now' o c Hwf) as Hst.
  destruct (Set_correct now o c (proj1 Hwf)) as (Hwf1 & Hget1 & _ & _).
  destruct (Set_correct now' (Set_obj now o (Some c)) c (proj1 Hwf1)) as (Hwf2 & Hget2 & Hother & Hh).
  apply object_ext; [done..|]. intros t.
  destruct (decide (t = Type_ c)) as [->|Hne]; [congruence|]. by apply Hother.
Qed.

(** ** Reconciling and stalled *)

(** The calls a reconciler makes on the conditions of its object. *)
Inductive call :=
  | CMarkReconciling (now : Z) (reason message : string)
  | CMarkStalled (now : Z) (reason message : string)
  | CSet (now : Z) (c : Condition)
  | CDelete (t : string).

Definition run_call `{SortFunc} (o : object) (k : call) : object :=
  match k with
  | CMarkReconciling now reason message => MarkReconciling now o reason message
  | CMarkStalled now reason message => MarkStalled now o reason message
  | CSet now c => Set_obj now o (Some c)
  | CDelete t => Delete o t
  end.

(** The calls that do not set the two conditions behind the back of the
    [Mark] functions. *)
Definition plain_call (k : call) : Prop :=
  match k with
  | CSet _ c => Type_ c ≠ StalledCondition ∧ Type_ c ≠ ReconcilingCondition
  | _ => True
  end.

Definition exclusive (o : object) : Prop :=
  Has o StalledCondition = false ∨ Has o ReconcilingCondition = false.

Lemma Has_Get o t : Has o t = false ↔ Get o t = None.
Proof. unfold Has. by destruct (Get o t). Qed.

Lemma mark_spec `{SortFunc} now o gone t reason message :
  wf_conditions o → t ≠ gone →
  let o' := MarkTrue now (Delete o gone) t reason message in
  wf_conditions o' ∧ IsTrue o' t = true ∧ Has o' gone = false ∧
  ∀ t', t' ≠ gone → t' ≠ t → Get o' t' = Get o t'.
Proof.
  intros Hwf Hne o'. destruct (Delete_correct o gone Hwf) as (Hwf1 & Hgone & Hother1 & _).
  destruct (Set_correct now (Delete o gone) (TrueCondition t reason message) (proj1 Hwf1))
    as (Hwf2 & Hget & Hother2 & _). cbn [Type_ TrueCondition] in *.
  unfold o', MarkTrue. split_and!; [done| | |].
  - unfold IsTrue. by rewrite Hget.
  - apply Has_Get. by rewrite Hother2 by done.
  - intros t' H1 H2. by rewrite Hother2, Hother1.
Qed.

Lemma run_call_exclusive `{SortFunc} o k :
  wf_conditions o → exclusive o → plain_call k → wf_conditions (run_call o k) ∧ exclusive (run_call o k).
Proof.
  intros Hwf Hex Hk. destruct k as [now r m|now r m|now c|t]; simpl.
  - destruct (mark_spec now o StalledCondition ReconcilingCondition r m Hwf) as (? & _ & Hg & _); [done|].
    split; [done|by left].
  - destruct (mark_spec now o ReconcilingCondition StalledCondition r m Hwf) as (? & _ & Hg & _); [done|].
    split; [done|by right].
  - destruct (Set_correct now o c (proj1 Hwf)) as (? & _ & Hother & _). split; [done|].
    destruct Hk as [H1 H2]. unfold exclusive in *. rewrite !Has_Get in *. rewrite !Hother by congruence. done.
  - destruct (Delete_correct o t Hwf) as (? & Hg & Hother & _). split; [done|].
    unfold exclusive in *. rewrite !Has_Get in *.
    destruct (decide (StalledCondition = t)) as [->|]; [by left|].
    destruct (decide (ReconcilingCondition = t)) as [->|]; [by right|]. by rewrite !Hother.
Qed.

(** An object is never marked stalled and reconciling at once: from a
    well-formed object without the two conditions, after any sequence of
    [MarkReconciling], [MarkStalled], deletions and settings of other
    conditions, at most one of them is present, the list is well-formed, and
    the last mark is the one that is seen. *)
Theorem Marks_exclusive `{SortFunc} o calls :
  wf_conditions o → exclusive o → Forall plain_call calls →
  let o' := foldl run_call o calls in
  wf_conditions o' ∧ exclusive o' ∧
  (∀ now r m, IsReconciling (MarkReconciling now o' r m) = true ∧
     IsStalled (MarkReconciling now o' r m) = false ∧ IsReady (MarkReconciling now o' r m) = false) ∧
  (∀ now r m, IsStalled (MarkStalled now o' r m) = true ∧
     IsReconciling (MarkStalled now o' r m) = false ∧ IsReady (MarkStalled now o' r m) = false).
Proof.
  intros Hwf Hex Hc.
  assert (wf_conditions (foldl run_call o calls) ∧ exclusive (foldl run_call o calls)) as [Hwf' Hex'].
  { revert o Hwf Hex. induction Hc as [|k calls Hk _ IH]; intros o Hwf Hex; [done|]. simpl.
    destruct (run_call_exclusive o k Hwf Hex Hk). by apply IH. }
  assert (∀ o t, Has o t = false → IsTrue o t = false) as Hnot.
  { intros o1 t Hh. apply Has_Get in Hh. unfold IsTrue. by rewrite Hh. }
  split_and!; [done|done|..]; intros now r m.
  - destruct (mark_spec now (foldl run_call o calls) StalledCondition ReconcilingCondition r m Hwf')
      as (_ & Ht & Hg & _); [done|]. fold (MarkReconciling now (foldl run_call o calls) r m) in Ht, Hg.
    unfold IsReady, IsReconciling, IsStalled. by rewrite Ht, (Hnot _ _ Hg).
  - destruct (mark_spec now (foldl run_call o calls) ReconcilingCondition StalledCondition r m Hwf')
      as (_ & Ht & Hg & _); [done|]. fold (MarkStalled now (foldl run_call o calls) r m) in Ht, Hg.
    unfold IsReady, IsReconciling, IsStalled. by rewrite Ht, (Hnot _ _ Hg).
Qed.

(** An object that is not ready. *)
Definition sample_object : object :=
  mkObject "Kustomization" "app" 2 [mkCondition ReadyCondition ConditionFalse 1 7 "BuildFailed" "no such file"].

Lemma sample_object_wf : wf_conditions sample_object.
Proof. split; [apply NoDup_singleton|repeat constructor]. Qed.

Lemma Set_spec_witness :
  let o := Set_obj 5500000000 sample_object (Some (TrueCondition "Healthy" "Succeeded" "all good")) in
  wf_conditions o ∧ Get o "Healthy" = Some (mkCondition "Healthy" "True" 2 5000000000 "Succeeded" "all good") ∧
  Get o ReadyCondition = Get sample_object ReadyCondition.
Proof.
  destruct (Set_spec 5500000000 sample_object (TrueCondition "Healthy" "Succeeded" "all good") sample_object_wf)
    as (Hwf & Hget & Hother & _).
  split; [exact Hwf|]. split; [etrans; [exact Hget|by vm_compute]|]. by apply Hother.
Defined.

Lemma Set_idempotent_witness :
  let c := Some (FalseCondition ReadyCondition "BuildFailed" "timeout") in
  Set_obj 9000000000 (Set_obj 5500000000 sample_object c) c = Set_obj 5500000000 sample_object c.
Proof. apply (Set_idempotent 5500000000 9000000000 sample_object), sample_object_wf. Defined.

Lemma Marks_exclusive_witness :
  let o := foldl run_call sample_object
    [CMarkReconciling 1 "Progressing" "fetching"; CDelete "Healthy"; CMarkStalled 2 "InvalidPath" "no path"] in
  exclusive o ∧ IsStalled o = true ∧ Has o ReconcilingCondition = false.
Proof.
  split; [|split; by vm_compute].
  apply (Marks_exclusive sample_object
    [CMarkReconciling 1 "Progressing" "fetching"; CDelete "Healthy"; CMarkStalled 2 "InvalidPath" "no path"]).
  - apply sample_object_wf.
  - by left.
  - repeat constructor.
Defined.
