(* ===== verification/ConditionsMerge.v ===== *)
(** * Conditions: summaries, mirrors and aggregates
    ([runtime/conditions/merge.go], [merge_strategies.go], [getter.go])

    Many conditions are merged into one: they are grouped by status, polarity
    and, if asked for, generation, and the group with the best priority decides. *)

From S2P Require Import Prelude GoStd Conditions.
From stdpp Require Import pretty.

(** ** Options *)

(** [src/runtime/conditions/merge_strategies.go:31-47 mergeOptions]
    A nil slice is [None]. *)
Record mergeOptions := mkMergeOptions {
  conditionTypes : option (list string);
  negativePolarityConditionTypes : list string;
  addSourceRef : bool;
  addSourceRefIfConditionTypes : option (list string);
  addCounter : bool;
  addCounterOnlyIfConditionTypes : option (list string);
  addStepCounter : bool;
  addStepCounterIfOnlyConditionTypes : option (list string);
  stepCounter : nat;
  withLatestGeneration : bool }.

(** [src/runtime/conditions/merge_strategies.go:49-50 MergeOption] *)
Definition MergeOption : Type := mergeOptions → mergeOptions.

Definition noOptions : mergeOptions := mkMergeOptions None [] false None false None false None 0 false.

(** A variadic argument list without arguments is a nil slice. *)
Definition variadic (t : list string) : option (list string) := match t with [] => None | _ => Some t end.

(** [src/runtime/conditions/merge_strategies.go:52-64 WithConditions] *)
Definition WithConditions (t : list string) : MergeOption := λ c,
  mkMergeOptions (variadic t) (negativePolarityConditionTypes c) (addSourceRef c)
    (addSourceRefIfConditionTypes c) (addCounter c) (addCounterOnlyIfConditionTypes c)
    (addStepCounter c) (addStepCounterIfOnlyConditionTypes c) (stepCounter c) (withLatestGeneration c).

(** [src/runtime/conditions/merge_strategies.go:66-75 WithNegativePolarityConditions] *)
Definition WithNegativePolarityConditions (t : list string) : MergeOption := λ c,
  mkMergeOptions (conditionTypes c) t (addSourceRef c)
    (addSourceRefIfConditionTypes c) (addCounter c) (addCounterOnlyIfConditionTypes c)
    (addStepCounter c) (addStepCounterIfOnlyConditionTypes c) (stepCounter c) (withLatestGeneration c).

Definition set_addCounter (b : bool) : MergeOption := λ c,
  mkMergeOptions (conditionTypes c) (negativePolarityConditionTypes c) (addSourceRef c)
    (addSourceRefIfConditionTypes c) b (addCounterOnlyIfConditionTypes c)
    (addStepCounter c) (addStepCounterIfOnlyConditionTypes c) (stepCounter c) (withLatestGeneration c).

(** [src/runtime/conditions/merge_strategies.go:77-83 WithCounter] *)
Definition WithCounter : MergeOption := set_addCounter true.

(** [src/runtime/conditions/merge_strategies.go:85-95 WithCounterIfOnly] *)
Definition WithCounterIfOnly (t : list string) : MergeOption := λ c,
  mkMergeOptions (conditionTypes c) (negativePolarityConditionTypes c) (addSourceRef c)
    (addSourceRefIfConditionTypes c) (addCounter c) (variadic t)
    (addStepCounter c) (addStepCounterIfOnlyConditionTypes c) (stepCounter c) (withLatestGeneration c).

(** [src/runtime/conditions/merge_strategies.go:107-115 WithStepCounterIf] *)
Definition WithStepCounterIf (value : bool) : MergeOption := λ c,
  mkMergeOptions (conditionTypes c) (negativePolarityConditionTypes c) (addSourceRef c)
    (addSourceRefIfConditionTypes c) (addCounter c) (addCounterOnlyIfConditionTypes c)
    value (addStepCounterIfOnlyConditionTypes c) (stepCounter c) (withLatestGeneration c).

(** [src/runtime/conditions/merge_strategies.go:97-105 WithStepCounter] *)
Definition WithStepCounter : MergeOption := WithStepCounterIf true.

(** [src/runtime/conditions/merge_strategies.go:117-127 WithStepCounterIfOnly] *)
Definition WithStepCounterIfOnly (t : list string) : MergeOption := λ c,
  mkMergeOptions (conditionTypes c) (negativePolarityConditionTypes c) (addSourceRef c)
    (addSourceRefIfConditionTypes c) (addCounter c) (addCounterOnlyIfConditionTypes c)
    (addStepCounter c) (variadic t) (stepCounter c) (withLatestGeneration c).

Definition set_addSourceRef (b : bool) : MergeOption := λ c,
  mkMergeOptions (conditionTypes c) (negativePolarityConditionTypes c) b
    (addSourceRefIfConditionTypes c) (addCounter c) (addCounterOnlyIfConditionTypes c)
    (addStepCounter c) (addStepCounterIfOnlyConditionTypes c) (stepCounter c) (withLatestGeneration c).

(** [src/runtime/conditions/merge_strategies.go:129-135 WithSourceRef] *)
Definition WithSourceRef : MergeOption := set_addSourceRef true.

(** [src/runtime/conditions/merge_strategies.go:137-142 WithSourceRefIf] *)
Definition WithSourceRefIf (t : list string) : MergeOption := λ c,
  mkMergeOptions (conditionTypes c) (negativePolarityConditionTypes c) (addSourceRef c)
    (variadic t) (addCounter c) (addCounterOnlyIfConditionTypes c)
    (addStepCounter c) (addStepCounterIfOnlyConditionTypes c) (stepCounter c) (withLatestGeneration c).

Definition set_stepCounter (n : nat) : MergeOption := λ c,
  mkMergeOptions (conditionTypes c) (negativePolarityConditionTypes c) (addSourceRef c)
    (addSourceRefIfConditionTypes c) (addCounter c) (addCounterOnlyIfConditionTypes c)
    (addStepCounter c) (addStepCounterIfOnlyConditionTypes c) n (withLatestGeneration c).

(** [src/runtime/conditions/merge_strategies.go:237-243 WithLatestGeneration] *)
Definition WithLatestGeneration : MergeOption := λ c,
  mkMergeOptions (conditionTypes c) (negativePolarityConditionTypes c) (addSourceRef c)
    (addSourceRefIfConditionTypes c) (addCounter c) (addCounterOnlyIfConditionTypes c)
    (addStepCounter c) (addStepCounterIfOnlyConditionTypes c) (stepCounter c) true.

(** ** Groups *)

(** [src/runtime/conditions/merge.go:32-36 localizedCondition]
    The condition pointer, which [summary] and [aggregate] never leave nil,
    and the object it comes from. *)
Record localizedCondition := mkLocalized { cond : Condition; getter : object }.

(** [src/runtime/conditions/merge.go:204-211 conditionGroup] *)
Record conditionGroup := mkGroup {
  status : string;
  negativePolarity : bool;
  conditions : list localizedCondition;
  generation : Z }.

(** [src/runtime/conditions/merge.go:236-243 stringInSlice] *)
Fixpoint stringInSlice (s : list string) (val : string) : bool :=
  match s with
  | [] => false
  | x :: s => if string_eqb x val then true else stringInSlice s val
  end.

(** [src/runtime/conditions/merge.go:213-234 conditionGroup.mergePriority] *)
Definition mergePriority (g : conditionGroup) : Z :=
  if string_eqb (status g) ConditionTrue then (if negb (negativePolarity g) then 2 else 0)%Z
  else if string_eqb (status g) ConditionFalse then (if negativePolarity g then 3 else 1)%Z
  else if string_eqb (status g) ConditionUnknown then 4%Z
  else 99%Z.

(** One round of the loop that collects the groups: the condition goes into
    the first group it fits, or a new one.
    [src/runtime/conditions/merge.go:100-120 getConditionGroups] *)
Fixpoint add_to_groups (options : mergeOptions) (groups : list conditionGroup)
    (condition : localizedCondition) : list conditionGroup :=
  let np := stringInSlice (negativePolarityConditionTypes options) (Type_ (cond condition)) in
  match groups with
  | [] => [mkGroup (Status (cond condition)) np [condition] (ObservedGeneration (cond condition))]
  | g :: groups =>
      if string_eqb (status g) (Status (cond condition)) && eqb (negativePolarity g) np &&
         negb (withLatestGeneration options &&
               negb (generation g =? ObservedGeneration (cond condition))%Z)
      then mkGroup (status g) (negativePolarity g) (conditions g ++ [condition]) (generation g) :: groups
      else g :: add_to_groups options groups condition
  end.

(** [src/runtime/conditions/merge.go:193-202 conditionGroups.latestGeneration] *)
Definition latestGeneration (groups : list conditionGroup) : Z :=
  foldl (λ max g, if (max <? generation g)%Z then generation g else max) 0%Z groups.

(** The order of the conditions in the top group.
    [src/runtime/conditions/merge.go:143-150 getConditionGroups] *)
Definition localizedLess (a b : localizedCondition) : bool :=
  if negb (string_eqb (Type_ (cond a)) (Type_ (cond b))) then lexicographicLess (cond a) (cond b)
  else string_ltb (Name (getter a)) (Name (getter b)).

Section merge.
Context `{SortFunc}.

(** [src/runtime/conditions/merge.go:156-170 conditionGroups.Less] *)
Definition groupsLess (a b : conditionGroup) : bool := (mergePriority a <? mergePriority b)%Z.

(** [src/runtime/conditions/merge.go:90-154 getConditionGroups] *)
Definition getConditionGroups (l : list localizedCondition) (options : mergeOptions)
    : list conditionGroup :=
  let groups := foldl (add_to_groups options) [] l in
  let groups :=
    if withLatestGeneration options
    then filter (λ g, generation g = latestGeneration groups) groups else groups in
  match sort_Slice groupsLess groups with
  | [] => []
  | g :: groups =>
      mkGroup (status g) (negativePolarity g) (sort_Slice localizedLess (conditions g)) (generation g)
        :: groups
  end.

(** [src/runtime/conditions/merge.go:172-178 conditionGroups.TopGroup] *)
Definition TopGroup (g : list conditionGroup) : option conditionGroup := head g.

(** [src/runtime/conditions/merge.go:180-191 conditionGroups.TruePositivePolarityGroup] *)
Fixpoint TruePositivePolarityGroup (g : list conditionGroup) : option conditionGroup :=
  match g with
  | [] => None
  | group :: g =>
      if negb (negativePolarity group) && string_eqb (status group) ConditionTrue then Some group
      else TruePositivePolarityGroup g
  end.

(** The search through the priority list.
    [src/runtime/conditions/merge_strategies.go:226-232 getFirstCondition] *)
Fixpoint first_by_priority (priority : list string) (l : list localizedCondition)
    : option localizedCondition :=
  match priority with
  | [] => None
  | p :: priority =>
      match List.find (λ c, string_eqb (Type_ (cond c)) p) l with
      | Some c => Some c
      | None => first_by_priority priority l
      end
  end.

(** [src/runtime/conditions/merge_strategies.go:213-235 getFirstCondition] *)
Definition getFirstCondition (g : list conditionGroup) (priority : option (list string))
    : option localizedCondition :=
  match TopGroup g with
  | None => None
  | Some topGroup =>
      match conditions topGroup with
      | [] => None
      | [c] => Some c
      | c :: _ =>
          match first_by_priority (default [] priority) (conditions topGroup) with
          | Some c => Some c
          | None => Some c
          end
      end
  end.

Definition contains_at (s : string) : bool :=
  match String.index 0 "@" s with Some _ => true | None => false end.

(** [src/runtime/conditions/merge_strategies.go:163-169 localizeReason] *)
Definition localizeReason (reason : string) (from : object) : string :=
  if contains_at reason then reason
  else reason +:+ " @ " +:+ Kind from +:+ "/" +:+ Name from.

(** [src/runtime/conditions/merge_strategies.go:150-161 getFirstReason] *)
Definition getFirstReason (g : list conditionGroup) (order : option (list string)) (addSourceRef : bool)
    : string :=
  match getFirstCondition g order with
  | Some c => if addSourceRef then localizeReason (Reason (cond c)) (getter c) else Reason (cond c)
  | None => ""
  end.

(** [src/runtime/conditions/merge_strategies.go:144-148 getReason] *)
Definition getReason (g : list conditionGroup) (options : mergeOptions) : string :=
  getFirstReason g (conditionTypes options) (addSourceRef options).

(** [src/runtime/conditions/merge_strategies.go:184-193 getCounterMessage]
    The top group has a condition, so the index is in range. *)
Definition getCounterMessage (groups : list conditionGroup) (to : nat) : string :=
  match TopGroup groups with
  | None => pretty 0 +:+ " of " +:+ pretty to
  | Some topGroup =>
      pretty (length (conditions topGroup)) +:+ " of " +:+ pretty to +:+ " " +:+
      match conditions topGroup with c :: _ => Type_ (cond c) | [] => "" end
  end.

(** [src/runtime/conditions/merge_strategies.go:195-203 getStepCounterMessage] *)
Definition getStepCounterMessage (groups : list conditionGroup) (to : nat) : string :=
  let ct := match TruePositivePolarityGroup groups with Some g => length (conditions g) | None => 0 end in
  pretty ct +:+ " of " +:+ pretty to +:+ " completed".

(** [src/runtime/conditions/merge_strategies.go:205-211 getFirstMessage] *)
Definition getFirstMessage (groups : list conditionGroup) (order : option (list string)) : string :=
  match getFirstCondition groups order with Some c => Message (cond c) | None => "" end.

(** [src/runtime/conditions/merge_strategies.go:171-182 getMessage] *)
Definition getMessage (groups : list conditionGroup) (options : mergeOptions) : string :=
  if addStepCounter options then getStepCounterMessage groups (stepCounter options)
  else if addCounter options then getCounterMessage groups (stepCounter options)
  else getFirstMessage groups (conditionTypes options).

(** [src/runtime/conditions/merge.go:38-88 merge] *)
Definition merge (l : list localizedCondition) (targetCondition : string) (options : mergeOptions)
    : option Condition :=
  let g := getConditionGroups l options in
  match TopGroup g with
  | None => None
  | Some topGroup =>
      let targetReason := getReason g options in
      let targetMessage := getMessage g options in
      let targetNegativePolarity := stringInSlice (negativePolarityConditionTypes options) targetCondition in
      Some
        (if string_eqb (status topGroup) ConditionTrue then
           if negb (eqb (negativePolarity topGroup) targetNegativePolarity)
           then FalseCondition targetCondition targetReason targetMessage
           else TrueCondition targetCondition targetReason targetMessage
         else if string_eqb (status topGroup) ConditionFalse then
           if negb (eqb (negativePolarity topGroup) targetNegativePolarity)
           then TrueCondition targetCondition targetReason targetMessage
           else FalseCondition targetCondition targetReason targetMessage
         else UnknownCondition targetCondition targetReason targetMessage)
  end.

(** ** Summary, mirror, aggregate *)

(** Whether a type is in the list of an option, which takes everything when
    it is nil. *)
Definition in_scope (scope : option (list string)) (t : string) : bool :=
  match scope with None => true | Some ts => stringInSlice ts t end.

(** The step counter of a summary: it is dropped if a condition in scope is
    not in the list that requires it, and counts the conditions otherwise.
    [src/runtime/conditions/getter.go:195-223 summary] *)
Definition summary_counter (conditionsInScope : list localizedCondition) (mergeOpt : mergeOptions)
    : mergeOptions :=
  let mergeOpt :=
    match addStepCounterIfOnlyConditionTypes mergeOpt with
    | Some ts => if forallb (λ c, stringInSlice ts (Type_ (cond c))) conditionsInScope
                 then mergeOpt else WithStepCounterIf false mergeOpt
    | None => mergeOpt
    end in
  if addStepCounter mergeOpt then
    set_stepCounter
      (match addStepCounterIfOnlyConditionTypes mergeOpt, conditionTypes mergeOpt with
       | Some ts, _ => length ts
       | None, Some ts => length ts
       | None, None => length conditionsInScope
       end) mergeOpt
  else mergeOpt.

(** [src/runtime/conditions/getter.go:157-226 summary] *)
Definition summary (from : object) (t : string) (options : list MergeOption) : option Condition :=
  let mergeOpt := foldl (λ c o, o c) noOptions options in
  let conditionsInScope :=
    (λ c, mkLocalized c from) <$>
      filter (λ c, negb (string_eqb (Type_ c) t) && in_scope (conditionTypes mergeOpt) (Type_ c) = true)
        (GetConditions from) in
  merge conditionsInScope t (summary_counter conditionsInScope mergeOpt).

(** [src/runtime/conditions/getter.go:228-236 mirrorOptions] *)
Record mirrorOptions := mkMirrorOptions {
  fallbackTo : option bool;
  fallbackReason : string;
  fallbackMessage : string }.

(** [src/runtime/conditions/getter.go:238-246 WithFallbackValue] *)
Definition WithFallbackValue (fallbackValue : bool) (reason message : string)
    : mirrorOptions → mirrorOptions :=
  λ _, mkMirrorOptions (Some fallbackValue) reason message.

(** [src/runtime/conditions/getter.go:248-272 mirror] *)
Definition mirror (from : object) (targetCondition : string)
    (options : list (mirrorOptions → mirrorOptions)) : option Condition :=
  let mirrorOpt := foldl (λ c o, o c) (mkMirrorOptions None "" "") options in
  let condition :=
    match Get from ReadyCondition, fallbackTo mirrorOpt with
    | None, Some true =>
        Some (TrueCondition targetCondition (fallbackReason mirrorOpt) (fallbackMessage mirrorOpt))
    | None, Some false =>
        Some (FalseCondition targetCondition (fallbackReason mirrorOpt) (fallbackMessage mirrorOpt))
    | c, _ => c
    end in
  match condition with Some c => Some (with_type c targetCondition) | None => None end.

(** The loop over the conditions of one object: its index [i], which hides
    the index of the object, selects the object the condition is attributed
    to.
    [src/runtime/conditions/getter.go:288-307 aggregate] *)
Fixpoint aggregate_loop (from : list object) (scope : option (list string)) (i : nat)
    (l : list Condition) : res (list localizedCondition) :=
  match l with
  | [] => mret []
  | c :: l =>
      if in_scope scope (Type_ c) then
        o ← index_res from i;
        rest ← aggregate_loop from scope (S i) l;
        mret (mkLocalized c o :: rest)
      else aggregate_loop from scope (S i) l
  end.

(** [src/runtime/conditions/getter.go:285-308 aggregate] *)
Fixpoint aggregate_scope (from : list object) (scope : option (list string)) (objects : list object)
    : res (list localizedCondition) :=
  match objects with
  | [] => mret []
  | o :: objects =>
      l ← aggregate_loop from scope 0 (GetConditions o);
      rest ← aggregate_scope from scope objects;
      mret (l ++ rest)
  end.

(** [src/runtime/conditions/getter.go:274-347 aggregate] *)
Definition aggregate (from : list object) (targetCondition : string) (options : list MergeOption)
    : res (option Condition) :=
  let mergeOpt := foldl (λ c o, o c) (set_stepCounter (length from) noOptions) options in
  conditionsInScope ← aggregate_scope from (conditionTypes mergeOpt) from;
  let mergeOpt :=
    match addCounterOnlyIfConditionTypes mergeOpt with
    | Some ts => if forallb (λ c, stringInSlice ts (Type_ (cond c))) conditionsInScope
                 then mergeOpt else set_addCounter false mergeOpt
    | None => mergeOpt
    end in
  let mergeOpt :=
    match addSourceRefIfConditionTypes mergeOpt with
    | Some ts => if existsb (λ c, stringInSlice ts (Type_ (cond c))) conditionsInScope
                 then set_addSourceRef true mergeOpt else mergeOpt
    | None => mergeOpt
    end in
  mret (merge conditionsInScope targetCondition mergeOpt).

(** [src/runtime/conditions/setter.go:161-165 SetSummary] *)
Definition SetSummary (now : Z) (to : object) (targetCondition : string) (options : list MergeOption) : object :=
  Set_obj now to (summary to targetCondition options).
(** [src/runtime/conditions/setter.go:167-171 SetMirror] *)
Definition SetMirror (now : Z) (to : object) (targetCondition : string) (from : object)
    (options : list (mirrorOptions → mirrorOptions)) : object :=
  Set_obj now to (mirror from targetCondition options).
(** [src/runtime/conditions/setter.go:173-178 SetAggregate] *)
Definition SetAggregate (now : Z) (to : object) (targetCondition : string) (from : list object)
    (options : list MergeOption) : res object :=
  Set_obj now to <$> aggregate from targetCondition options.
End merge.

(** ** What a merge means *)

Definition polarity (o : mergeOptions) (c : localizedCondition) : bool :=
  stringInSlice (negativePolarityConditionTypes o) (Type_ (cond c)).

(** The group a condition belongs to decides its priority. *)
Definition group_of (o : mergeOptions) (c : localizedCondition) : conditionGroup :=
  mkGroup (Status (cond c)) (polarity o c) [c] (ObservedGeneration (cond c)).
Definition prio (o : mergeOptions) (c : localizedCondition) : Z := mergePriority (group_of o c).

(** The conditions a merge looks at: all of them, or those of the highest
    generation. *)
Definition max_generation (l : list localizedCondition) : Z :=
  foldr (λ c m, Z.max (ObservedGeneration (cond c)) m) 0%Z l.
Definition considered (o : mergeOptions) (l : list localizedCondition) : list localizedCondition :=
  if withLatestGeneration o
  then filter (λ c, ObservedGeneration (cond c) = max_generation l) l else l.

(** The status of the target that a condition stands for. *)
Definition verdict (o : mergeOptions) (target : string) (c : localizedCondition) : string :=
  let same := eqb (polarity o c) (stringInSlice (negativePolarityConditionTypes o) target) in
  if string_eqb (Status (cond c)) ConditionTrue then (if same then ConditionTrue else ConditionFalse)
  else if string_eqb (Status (cond c)) ConditionFalse then (if same then ConditionFalse else ConditionTrue)
  else ConditionUnknown.

(** A group holds conditions that belong to it, at least one. *)
Definition group_ok (o : mergeOptions) (g : conditionGroup) : Prop :=
  conditions g ≠ [] ∧
  Forall (λ c, Status (cond c) = status g ∧ polarity o c = negativePolarity g ∧
    (withLatestGeneration o = true → ObservedGeneration (cond c) = generation g)) (conditions g).

Definition members (groups : list conditionGroup) : list localizedCondition := groups ≫= conditions.

Lemma add_to_groups_ok o groups c :
  Forall (group_ok o) groups →
  Forall (group_ok o) (add_to_groups o groups c) ∧
  members (add_to_groups o groups c) ≡ₚ c :: members groups.
Proof.
  induction 1 as [|g groups Hg Hgs [IH1 IH2]]; cbn [add_to_groups].
  { split; [|done]. repeat constructor; done. }
  destruct (_ && _) eqn:E.
  - rewrite !andb_true_iff, negb_true_iff, andb_false_iff, negb_false_iff in E.
    destruct E as [[E1 E2] E3]. apply bool_decide_eq_true in E1. apply eqb_prop in E2.
    destruct Hg as [Hne Hall]. split.
    + constructor; [|done]. split; [by destruct (conditions g)|]. simpl. apply Forall_app. split; [done|].
      constructor; [|done]. split_and!; [done|by rewrite E2|]. intros Hl. rewrite Hl in E3. lia.
    + change (members (?g' :: groups)) with (conditions g' ++ members groups). simpl.
      rewrite <- app_assoc. simpl. by rewrite Permutation_middle.
  - split; [by constructor|].
    change (conditions g ++ members (add_to_groups o groups c) ≡ₚ c :: conditions g ++ members groups).
    rewrite IH2. by rewrite Permutation_middle.
Qed.

Lemma collect_ok o l groups :
  Forall (group_ok o) groups →
  Forall (group_ok o) (foldl (add_to_groups o) groups l) ∧
  members (foldl (add_to_groups o) groups l) ≡ₚ l ++ members groups.
Proof.
  revert groups. induction l as [|c l IH]; intros groups Hg; [done|]. simpl.
  destruct (add_to_groups_ok o groups c Hg) as [Hg' Hp]. destruct (IH _ Hg') as [H1 H2].
  split; [done|]. rewrite H2, Hp. by rewrite Permutation_middle.
Qed.

(** The largest of a set of generations and zero. *)
Definition is_max (gens : Z → Prop) (x : Z) : Prop :=
  (0 <= x)%Z ∧ (∀ g, gens g → (g <= x)%Z) ∧ (x = 0%Z ∨ gens x).

Lemma is_max_unique gens gens' x y :
  (∀ g, gens g ↔ gens' g) → is_max gens x → is_max gens' y → x = y.
Proof.
  intros Heq (H1 & H2 & H3) (H4 & H5 & H6). apply Z.le_antisymm.
  - destruct H3 as [->|?%Heq]; auto.
  - destruct H6 as [->|?%Heq]; auto.
Qed.

Lemma latest_fold gs m :
  let x := foldl (λ max g, if (max <? generation g)%Z then generation g else max) m gs in
  (m <= x)%Z ∧ (∀ g, g ∈ gs → (generation g <= x)%Z) ∧ (x = m ∨ ∃ g, g ∈ gs ∧ generation g = x).
Proof.
  revert m. induction gs as [|g gs IH]; intros m; simpl.
  - split_and!; [done|by intros g ?%elem_of_nil|by left].
  - destruct (IH (if (m <? generation g)%Z then generation g else m)) as (H1 & H2 & H3). split_and!.
    + destruct (Z.ltb_spec m (generation g)); lia.
    + intros g' [->|Hg]%elem_of_cons; [destruct (Z.ltb_spec m (generation g)); lia|auto].
    + destruct H3 as [->|(g' & ? & ?)]; [|right; exists g'; split; [by right|done]].
      destruct (Z.ltb_spec m (generation g)); [right; exists g; split; [left|done]|by left].
Qed.

Lemma latestGeneration_max groups : is_max (λ x, ∃ g, g ∈ groups ∧ generation g = x) (latestGeneration groups).
Proof.
  destruct (latest_fold groups 0) as (H1 & H2 & H3). split_and!; [done| |done].
  intros x (g & Hg & <-). by apply H2.
Qed.

Lemma max_generation_max l :
  is_max (λ x, ∃ c, c ∈ l ∧ ObservedGeneration (cond c) = x) (max_generation l).
Proof.
  induction l as [|c l (H1 & H2 & H3)]; simpl.
  - split_and!; [done|by intros g (? & ?%elem_of_nil & _)|by left].
  - split_and!; [lia| |].
    + intros x (d & [->|Hd]%elem_of_cons & <-); [lia|]. specialize (H2 _ (ex_intro _ d (conj Hd eq_refl))). lia.
    + destruct (Z.max_spec (ObservedGeneration (cond c)) (max_generation l)) as [[? ->]|[? ->]].
      * destruct H3 as [->|(d & ? & ?)]; [by left|right; exists d; split; [by right|done]].
      * right. exists c. split; [left|done].
Qed.

Lemma members_elem groups c : c ∈ members groups ↔ ∃ g, g ∈ groups ∧ c ∈ conditions g.
Proof. unfold members. rewrite list_elem_of_bind. naive_solver. Qed.

(** The groups that remain hold exactly the considered conditions. *)
Lemma kept_groups o l :
  let groups := foldl (add_to_groups o) [] l in
  let kept := if withLatestGeneration o
              then filter (λ g, generation g = latestGeneration groups) groups else groups in
  Forall (group_ok o) kept ∧ ∀ c, c ∈ members kept ↔ c ∈ considered o l.
Proof.
  intros groups kept. destruct (collect_ok o l [] ltac:(constructor)) as [Hok Hperm].
  fold groups in Hok, Hperm. simpl in Hperm. rewrite app_nil_r in Hperm.
  unfold kept, considered. destruct (withLatestGeneration o) eqn:El.
  2:{ split; [done|]. intros c. by rewrite Hperm. }
  assert (∀ g c, g ∈ groups → c ∈ conditions g → ObservedGeneration (cond c) = generation g) as Hgen.
  { intros g c Hg Hc. rewrite Forall_forall in Hok. destruct (Hok g Hg) as [_ Hall].
    rewrite Forall_forall in Hall. by apply Hall. }
  assert (∀ c, c ∈ l ↔ ∃ g, g ∈ groups ∧ c ∈ conditions g) as Hmem.
  { intros c. by rewrite <- Hperm, members_elem. }
  assert (latestGeneration groups = max_generation l) as Hmax.
  { eapply is_max_unique; [|apply latestGeneration_max|apply max_generation_max]. intros x. simpl.
    split; intros (y & Hy & <-).
    - rewrite Forall_forall in Hok. destruct (Hok y Hy) as [Hne _].
      destruct (conditions y) as [|c cs] eqn:E; [done|]. exists c.
      assert (c ∈ conditions y) as Hc by (rewrite E; left). split; [|by apply Hgen].
      apply Hmem. eauto.
    - apply Hmem in Hy as (g & Hg & Hc). exists g. split; [done|].
      symmetry. by apply Hgen. }
  split.
  - rewrite Forall_forall in Hok |- *. intros g [_ Hg]%list_elem_of_filter. by apply Hok.
  - intros c. rewrite members_elem, list_elem_of_filter, Hmem. split.
    + intros (g & [Hlat Hg]%list_elem_of_filter & Hc). split; [|eauto].
      rewrite <- Hmax, <- Hlat. by apply Hgen.
    + intros [Hc0 (g & Hg & Hc)]. exists g. split; [|done]. apply list_elem_of_filter.
      split; [|done]. rewrite Hmax, <- Hc0. symmetry. by apply Hgen.
Qed.

Section meaning.
Context `{SortFunc}.

(** Sorting by an integer key puts a smallest element first. *)
Lemma sort_groups_head gs g rest :
  sort_Slice groupsLess gs = g :: rest →
  g ∈ gs ∧ ∀ g', g' ∈ gs → (mergePriority g <= mergePriority g')%Z.
Proof.
  intros E. pose proof (sort_Slice_perm groupsLess gs) as Hp.
  assert (StronglySorted (λ a b, (mergePriority a <= mergePriority b)%Z) (sort_Slice groupsLess gs)) as Hs.
  { apply sort_Slice_sorted; [intros a b c; lia|intros a b; lia|].
    intros a b. apply Z.ltb_ge. }
  rewrite E in Hp, Hs. split; [rewrite <- Hp; left|]. intros g' Hg'. rewrite <- Hp in Hg'.
  apply elem_of_cons in Hg' as [->|Hg']; [lia|]. apply StronglySorted_inv in Hs as [_ Hall].
  rewrite Forall_forall in Hall. by apply Hall.
Qed.

(** The top group: all of its conditions are considered and none that is
    considered has a better priority. *)
Lemma top_group o l :
  match TopGroup (getConditionGroups l o) with
  | None => considered o l = []
  | Some g =>
      conditions g ≠ [] ∧
      ∀ c, c ∈ conditions g →
        c ∈ considered o l ∧ (∀ d, d ∈ considered o l → (prio o c <= prio o d)%Z) ∧
        Status (cond c) = status g ∧ polarity o c = negativePolarity g
  end.
Proof.
  unfold getConditionGroups. destruct (kept_groups o l) as [Hok Hmem].
  set (kept := if withLatestGeneration o then _ else _) in *.
  assert (∀ g c, g ∈ kept → c ∈ conditions g → prio o c = mergePriority g ∧
    Status (cond c) = status g ∧ polarity o c = negativePolarity g) as Hprio.
  { intros g c Hg Hc. rewrite Forall_forall in Hok. destruct (Hok g Hg) as [_ Hall].
    rewrite Forall_forall in Hall. destruct (Hall c Hc) as (HS & HP & _).
    unfold prio, mergePriority. simpl. by rewrite HS, HP. }
  destruct (sort_Slice groupsLess kept) as [|g rest] eqn:E; simpl.
  - pose proof (sortFunc_perm (less_cmp groupsLess) kept) as Hp.
    change (sortFunc _ kept) with (sort_Slice groupsLess kept) in Hp. rewrite E in Hp.
    apply Permutation_nil_l in Hp. destruct (considered o l) as [|c cs] eqn:Ec; [done|].
    exfalso. apply (not_elem_of_nil c). assert (c ∈ members kept) as Hc by (apply Hmem; left).
    by rewrite <- Hp in Hc.
  - destruct (sort_groups_head _ _ _ E) as [Hg Hmin].
    assert (∀ c, c ∈ sort_Slice localizedLess (conditions g) ↔ c ∈ conditions g) as Hsort.
    { intros c. unfold sort_Slice. by rewrite sortFunc_perm. }
    split.
    + rewrite Forall_forall in Hok. destruct (Hok g Hg) as [Hne _].
      destruct (conditions g) as [|c cs] eqn:Ec; [done|]. intros Hn.
      apply (not_elem_of_nil c). rewrite <- Hn. apply Hsort. left.
    + intros c Hc%Hsort. destruct (Hprio g c Hg Hc) as (HP & HS & HN). split_and!; [| |done|done].
      * apply Hmem, members_elem. eauto.
      * intros d (g' & Hg' & Hd)%Hmem%members_elem. rewrite HP, (proj1 (Hprio g' d Hg' Hd)). auto.
Qed.

Lemma first_by_priority_elem ps l c : first_by_priority ps l = Some c → c ∈ l.
Proof.
  induction ps as [|p ps IH]; simpl; [done|].
  destruct (List.find _ l) as [d|] eqn:E; [|done]. intros [= <-].
  apply find_some in E as [Hin _]. by apply list_elem_of_In.
Qed.

(** The condition that supplies the reason and the message. *)
Lemma getFirstCondition_top gs order g :
  TopGroup gs = Some g → conditions g ≠ [] →
  ∃ c, getFirstCondition gs order = Some c ∧ c ∈ conditions g.
Proof.
  intros Ht Hne. unfold getFirstCondition. rewrite Ht.
  destruct (conditions g) as [|c [|d cs]]; [done|exists c; split; [done|left]|].
  destruct (first_by_priority _ _) as [x|] eqn:E; [|exists c; split; [done|left]].
  exists x. split; [done|]. by eapply first_by_priority_elem.
Qed.

Lemma merge_correct l target o :
  match merge l target o with
  | None => considered o l = []
  | Some r =>
      ∃ m, m ∈ considered o l ∧ (∀ d, d ∈ considered o l → (prio o m <= prio o d)%Z) ∧
        Type_ r = target ∧ Status r = verdict o target m ∧
        Reason r = (if addSourceRef o then localizeReason (Reason (cond m)) (getter m)
                    else Reason (cond m)) ∧
        (addStepCounter o = false → addCounter o = false → Message r = Message (cond m))
  end.
Proof.
  unfold merge. pose proof (top_group o l) as Htop. set (gs := getConditionGroups l o) in *.
  destruct (TopGroup gs) as [g|] eqn:Eg; [|done]. destruct Htop as [Hne Hall].
  destruct (getFirstCondition_top gs (conditionTypes o) g Eg Hne) as (m & Em & Hm).
  destruct (Hall m Hm) as (Hin & Hmin & HS & HN).
  exists m. unfold verdict. rewrite HS, HN.
  assert (getReason gs o = if addSourceRef o then localizeReason (Reason (cond m)) (getter m)
    else Reason (cond m)) as Hreason by (unfold getReason, getFirstReason; by rewrite Em).
  assert (addStepCounter o = false → addCounter o = false → getMessage gs o = Message (cond m)) as Hmsg.
  { intros H1 H2. unfold getMessage, getFirstMessage. by rewrite H1, H2, Em. }
  destruct (string_eqb (status g) ConditionTrue); [|destruct (string_eqb (status g) ConditionFalse)];
    [destruct (eqb _ _)..|]; by split_and!.
Qed.

(** C8. A merge reports the most severe of the conditions it considers (all
    of them, or those of the highest generation): it yields nothing if there
    is none; otherwise some considered condition, such that no other has a
    better priority, decides the status (inverted if its polarity is not the
    target's), the reason and, without counters, the message.  This holds for
    every sorting algorithm. *)
Theorem merge_spec l target o :
  match merge l target o with
  | None => considered o l = []
  | Some r =>
      ∃ m, m ∈ considered o l ∧ (∀ d, d ∈ considered o l → (prio o m <= prio o d)%Z) ∧
        Type_ r = target ∧ Status r = verdict o target m ∧
        Reason r = (if addSourceRef o then localizeReason (Reason (cond m)) (getter m)
                    else Reason (cond m)) ∧
        (addStepCounter o = false → addCounter o = false → Message r = Message (cond m))
  end.
Proof. apply merge_correct. Qed.

(** *** Summaries *)

(** Something is wrong: an abnormal-true condition is true or a normal one is
    false. *)
Definition abnormal (o : mergeOptions) (c : localizedCondition) : bool :=
  (string_eqb (Status (cond c)) ConditionTrue && polarity o c) ||
  (string_eqb (Status (cond c)) ConditionFalse && negb (polarity o c)).
Definition normal (o : mergeOptions) (c : localizedCondition) : bool :=
  (string_eqb (Status (cond c)) ConditionTrue && negb (polarity o c)) ||
  (string_eqb (Status (cond c)) ConditionFalse && polarity o c).

Lemma statuses_distinct :
  ConditionTrue ≠ ConditionFalse ∧ ConditionTrue ≠ ConditionUnknown ∧ ConditionFalse ≠ ConditionUnknown.
Proof. done. Qed.

Lemma prio_abnormal o c : abnormal o c = true ↔ (prio o c <= 1)%Z.
Proof.
  pose proof statuses_distinct as (? & ? & ?). unfold abnormal, prio, mergePriority. simpl. unfold string_eqb.
  repeat case_bool_decide; destruct (polarity o c); simpl; split; try done; try lia; congruence.
Qed.

Lemma prio_normal o c : normal o c = true ↔ (2 <= prio o c <= 3)%Z.
Proof.
  pose proof statuses_distinct as (? & ? & ?). unfold normal, prio, mergePriority. simpl. unfold string_eqb.
  repeat case_bool_decide; destruct (polarity o c); simpl; split; try done; try lia; congruence.
Qed.

Lemma verdict_positive o target c :
  stringInSlice (negativePolarityConditionTypes o) target = false →
  (verdict o target c = ConditionFalse ↔ abnormal o c = true) ∧
  (verdict o target c = ConditionTrue ↔ normal o c = true).
Proof.
  pose proof statuses_distinct as (? & ? & ?).
  intros Ht. unfold verdict, abnormal, normal. rewrite Ht. unfold string_eqb.
  repeat case_bool_decide; destruct (polarity o c); simpl; split; split; try done; congruence.
Qed.

(** The options and the conditions a summary works on. *)
Definition summary_options (options : list MergeOption) : mergeOptions := foldl (λ c o, o c) noOptions options.
Definition summary_scope (from : object) (t : string) (options : list MergeOption) : list localizedCondition :=
  considered (summary_options options)
    ((λ c, mkLocalized c from) <$>
      filter (λ c, negb (string_eqb (Type_ c) t) &&
                   in_scope (conditionTypes (summary_options options)) (Type_ c) = true)
        (GetConditions from)).

Lemma summary_correct from t options :
  stringInSlice (negativePolarityConditionTypes (summary_options options)) t = false →
  match summary from t options with
  | None => summary_scope from t options = []
  | Some r =>
      summary_scope from t options ≠ [] ∧ Type_ r = t ∧
      (Status r = ConditionFalse ↔ ∃ c, c ∈ summary_scope from t options ∧ abnormal (summary_options options) c = true) ∧
      (Status r = ConditionTrue ↔
         (∀ c, c ∈ summary_scope from t options → abnormal (summary_options options) c = false) ∧
         ∃ c, c ∈ summary_scope from t options ∧ normal (summary_options options) c = true)
  end.
Proof.
  intros Ht. unfold summary. fold (summary_options options).
  set (l := fmap _ _). set (o2 := summary_counter l (summary_options options)).
  assert (negativePolarityConditionTypes o2 = negativePolarityConditionTypes (summary_options options) ∧
    withLatestGeneration o2 = withLatestGeneration (summary_options options)) as [Hneg Hlat].
  { unfold o2, summary_counter. repeat case_match; done. }
  assert (considered o2 l = summary_scope from t options) as Hscope.
  { unfold summary_scope, considered. by rewrite Hlat. }
  assert (∀ c, polarity o2 c = polarity (summary_options options) c) as Hpol.
  { intros c. unfold polarity. by rewrite Hneg. }
  clearbody o2 l. pose proof (merge_correct l t o2) as Hm.
  destruct (merge l t o2) as [r|]; [|congruence].
  rewrite Hscope in Hm. destruct Hm as (m & Hin & Hmin & Hty & HS & _).
  split; [intros E; rewrite E in Hin; by apply elem_of_nil in Hin|]. split; [done|].
  assert (∀ c, abnormal o2 c = abnormal (summary_options options) c) as Hab.
  { intros c. unfold abnormal. by rewrite Hpol. }
  assert (∀ c, normal o2 c = normal (summary_options options) c) as Hno.
  { intros c. unfold normal. by rewrite Hpol. }
  rewrite <- Hneg in Ht. destruct (verdict_positive o2 t m Ht) as [Hv1 Hv2].
  setoid_rewrite <- Hab. setoid_rewrite <- Hno. rewrite HS, Hv1, Hv2. split; split.
  - eauto.
  - intros (c & Hc & Hca). rewrite prio_abnormal in *. specialize (Hmin c Hc). lia.
  - intros Hn. split; [|eauto]. intros c Hc. apply not_true_is_false. rewrite prio_abnormal, prio_normal in *.
    specialize (Hmin c Hc). lia.
  - intros (Hnone & c & Hc & Hcn). rewrite prio_normal in *. specialize (Hmin c Hc).
    specialize (Hnone m Hin). apply not_true_iff_false in Hnone. rewrite prio_abnormal in Hnone. lia.
Qed.

(** [SetSummary] tells the truth: with a target of normal polarity and
    something in scope, the target condition becomes False exactly when a
    considered condition is abnormal, and True exactly when none is and some
    condition is normal; every other condition is untouched, and without
    conditions in scope the object does not change. *)
Theorem SetSummary_verdict now o t options :
  wf_conditions o →
  stringInSlice (negativePolarityConditionTypes (summary_options options)) t = false →
  let o' := SetSummary now o t options in
  let scope := summary_scope o t options in
  (scope = [] → o' = o) ∧
  (scope ≠ [] →
     (IsFalse o' t = true ↔ ∃ c, c ∈ scope ∧ abnormal (summary_options options) c = true) ∧
     (IsTrue o' t = true ↔ (∀ c, c ∈ scope → abnormal (summary_options options) c = false) ∧
        ∃ c, c ∈ scope ∧ normal (summary_options options) c = true)) ∧
  (∀ t', t' ≠ t → Get o' t' = Get o t').
Proof.
  intros Hwf Ht o' scope. pose proof (summary_correct o t options Ht) as Hs. unfold o', SetSummary, scope.
  destruct (summary o t options) as [r|].
  - destruct Hs as (Hne & Hty & HF & HT). subst t.
    destruct (Set_correct now o r (proj1 Hwf)) as (_ & Hget & Hother & _).
    split_and!; [done| |done]. intros _.
    unfold IsFalse, IsTrue. rewrite Hget.
    change (Status (stored now o r)) with (Status r). unfold string_eqb.
    rewrite !bool_decide_eq_true. done.
  - split_and!; done.
Qed.
End meaning.

(** A failed health check on an object whose artifact is available. *)
Definition summary_sample : object :=
  mkObject "Kustomization" "app" 2
    [mkCondition "ArtifactInStorage" ConditionTrue 2 7 "Succeeded" "stored artifact";
     mkCondition "FetchFailed" ConditionTrue 2 7 "AuthFailed" "bad credentials"].

Lemma SetSummary_verdict_witness :
  let opts := [WithNegativePolarityConditions ["FetchFailed"]] in
  IsFalse (SetSummary 1 summary_sample ReadyCondition opts) ReadyCondition = true ∧
  GetReason (SetSummary 1 summary_sample ReadyCondition opts) ReadyCondition = "AuthFailed".
Proof.
  split; [|by vm_compute].
  apply (SetSummary_verdict 1 summary_sample ReadyCondition [WithNegativePolarityConditions ["FetchFailed"]]).
  - split; [apply (bool_decide_unpack _); by vm_compute|].
    apply SSorted_cons; [by repeat constructor|]. apply Forall_singleton.
    right. split; [done|]. right. split; [done|by vm_compute].
  - done.
  - done.
  - eexists. split; [right; left|by vm_compute].
Defined.

(** *** Aggregates attribute conditions to the wrong object *)

(** [aggregate] panics on a single object with two conditions in scope:
    the index of the condition hides the index of the object, and the list of
    objects is indexed out of range. *)
Theorem aggregate_panics `{SortFunc} o t :
  2 <= length (GetConditions o) → aggregate [o] t [] = Panics.
Proof.
  intros Hl. unfold aggregate, aggregate_scope. cbn -[aggregate_loop].
  destruct (GetConditions o) as [|c1 [|c2 l]]; simpl in Hl; [lia..|]. done.
Qed.

Lemma aggregate_panics_witness : aggregate [summary_sample] "Ready" [] = Panics.
Proof. apply (aggregate_panics summary_sample). simpl. lia. Defined.

(** With source references, [aggregate] names an object that has no
    conditions as the source of the only condition of another one. *)
Theorem aggregate_wrong_source `{SortFunc} o1 o2 c t :
  GetConditions o1 = [] → GetConditions o2 = [c] → contains_at (Reason c) = false →
  ∃ r, aggregate [o1; o2] t [WithSourceRef] = Val (Some r) ∧
    Reason r = Reason c +:+ " @ " +:+ Kind o1 +:+ "/" +:+ Name o1.
Proof.
  intros E1 E2 Hat. unfold aggregate, aggregate_scope. cbn -[aggregate_loop merge]. rewrite E1, E2.
  cbn -[merge]. set (o := set_stepCounter _ _) in *. fold o.
  pose proof (merge_correct [mkLocalized c o1] t (WithSourceRef (set_stepCounter 2 noOptions))) as Hm.
  destruct (merge _ _ _) as [r|]; [|done].
  destruct Hm as (m & Hin & _ & _ & _ & HR & _). exists r. split; [done|].
  apply list_elem_of_singleton in Hin as ->. rewrite HR. simpl. unfold localizeReason. by rewrite Hat.
Qed.

Lemma aggregate_wrong_source_witness :
  ∃ r, aggregate [mkObject "HelmRelease" "innocent" 1 [];
                  mkObject "HelmRelease" "broken" 1 [FalseCondition "Ready" "InstallFailed" "timeout"]]
         "Ready" [WithSourceRef] = Val (Some r) ∧
    Reason r = "InstallFailed @ HelmRelease/innocent".
Proof.
  apply (aggregate_wrong_source (mkObject "HelmRelease" "innocent" 1 [])
    (mkObject "HelmRelease" "broken" 1 [FalseCondition "Ready" "InstallFailed" "timeout"])
    (FalseCondition "Ready" "InstallFailed" "timeout") "Ready"); done.
Defined.

(** The order of the conditions in the top group is not an order when two
    objects have a condition of the same type at different generations: three
    conditions can each come before the next. *)
Lemma localizedLess_cycle :
  let at_gen t g name := mkLocalized (mkCondition t ConditionTrue g 0 "" "") (mkObject "" name 0 []) in
  let a := at_gen "X" 1%Z "a" in let b := at_gen "Y" 2%Z "m" in let c := at_gen "X" 3%Z "z" in
  localizedLess a c = true ∧ localizedLess c b = true ∧ localizedLess b a = true.
Proof. by vm_compute. Qed.
