(* ===== verification/ConditionsPatch.v ===== *)
(** * Conditions: three-way patches ([runtime/conditions/patch.go])

    A patch is the difference between the conditions an object had and the
    ones a controller wants; it is applied to the latest version of the object,
    which others may have changed in the meantime. *)

From S2P Require Import Prelude GoStd Conditions.

(** ** The code *)

(** [src/runtime/conditions/patch.go:37-56 PatchOperation]
    One constructor per operation type, with the conditions it carries. *)
Inductive PatchOperation :=
  | AddConditionPatch (After : Condition)
  | ChangeConditionPatch (Before After : Condition)
  | RemoveConditionPatch (Before : Condition).

(** [src/runtime/conditions/patch.go:34-35 Patch] *)
Definition Patch : Type := list PatchOperation.

(** The operation for one condition of the target.
    [src/runtime/conditions/patch.go:62-75 NewPatch] *)
Definition target_op (before : object) (targetCondition : Condition) : list PatchOperation :=
  match Get before (Type_ targetCondition) with
  | None => [AddConditionPatch targetCondition]
  | Some currentCondition =>
      if negb (bool_decide (targetCondition = currentCondition))
      then [ChangeConditionPatch currentCondition targetCondition] else []
  end.

(** The operation for one condition of the base.
    [src/runtime/conditions/patch.go:77-85 NewPatch] *)
Definition base_op (after : object) (baseCondition : Condition) : list PatchOperation :=
  match Get after (Type_ baseCondition) with
  | None => [RemoveConditionPatch baseCondition]
  | Some _ => []
  end.

(** [src/runtime/conditions/patch.go:58-87 NewPatch] *)
Definition NewPatch (before after : object) : Patch :=
  (GetConditions after ≫= target_op before) ++ (GetConditions before ≫= base_op after).

(** [src/runtime/conditions/patch.go:89-93 applyOptions] *)
Record applyOptions := mkApplyOptions { ownedConditions : list string; forceOverwrite : bool }.

(** [src/runtime/conditions/patch.go:95-102 applyOptions.isOwnedCondition] *)
Fixpoint isOwned (owned : list string) (t : string) : bool :=
  match owned with
  | [] => false
  | i :: owned => if string_eqb i t then true else isOwned owned t
  end.
(** [src/runtime/conditions/patch.go:95-102 applyOptions.isOwnedCondition] *)
Definition isOwnedCondition (o : applyOptions) (t : string) : bool := isOwned (ownedConditions o) t.

(** [src/runtime/conditions/patch.go:104-113 WithOwnedConditions] *)
Definition WithOwnedConditions (t : list string) : applyOptions → applyOptions :=
  λ c, mkApplyOptions t (forceOverwrite c).
(** [src/runtime/conditions/patch.go:115-121 WithForceOverwrite] *)
Definition WithForceOverwrite (v : bool) : applyOptions → applyOptions :=
  λ c, mkApplyOptions (ownedConditions c) v.

(** The errors of [Apply], by the conflict they report. *)
Inductive conflict :=
  | AddConflict (t : string)
  | ChangeDeletedConflict (t : string)
  | ChangeConflict (t : string)
  | RemoveConflict (t : string).

Section apply.
Context `{SortFunc}.

(** One round of the loop of [Apply].
    [src/runtime/conditions/patch.go:135-201 Patch.Apply] *)
Definition apply_op (now : Z) (applyOpt : applyOptions) (latest : object) (op : PatchOperation)
    : conflict + object :=
  match op with
  | AddConditionPatch After =>
      if forceOverwrite applyOpt || isOwnedCondition applyOpt (Type_ After)
      then inr (Set_obj now latest (Some After))
      else match Get latest (Type_ After) with
           | Some latestCondition =>
               if negb (hasSameState latestCondition After) then inl (AddConflict (Type_ After))
               else inr latest
           | None => inr (Set_obj now latest (Some After))
           end
  | ChangeConditionPatch Before After =>
      if forceOverwrite applyOpt || isOwnedCondition applyOpt (Type_ After)
      then inr (Set_obj now latest (Some After))
      else match Get latest (Type_ After) with
           | None => inl (ChangeDeletedConflict (Type_ After))
           | Some latestCondition =>
               if negb (bool_decide (latestCondition = Before)) then
                 if negb (hasSameState latestCondition After) then inl (ChangeConflict (Type_ After))
                 else inr latest
               else inr (Set_obj now latest (Some After))
           end
  | RemoveConditionPatch Before =>
      if forceOverwrite applyOpt || isOwnedCondition applyOpt (Type_ Before)
      then inr (Delete latest (Type_ Before))
      else match Get latest (Type_ Before) with
           | Some latestCondition =>
               if negb (hasSameState latestCondition Before) then inl (RemoveConflict (Type_ Before))
               else inr (Delete latest (Type_ Before))
           | None => inr (Delete latest (Type_ Before))
           end
  end.

(** The loop of [Apply]; the clock gives the time of each round.  The object
    is changed in place: on a conflict it keeps the changes made so far.
    [src/runtime/conditions/patch.go:135-203 Patch.Apply] *)
Fixpoint apply_loop (clock : nat → Z) (i : nat) (applyOpt : applyOptions) (p : Patch)
    (latest : object) : object * option conflict :=
  match p with
  | [] => (latest, None)
  | op :: p =>
      match apply_op (clock i) applyOpt latest op with
      | inl e => (latest, Some e)
      | inr latest => apply_loop clock (S i) applyOpt p latest
      end
  end.

(** [src/runtime/conditions/patch.go:123-203 Patch.Apply] *)
Definition Apply (clock : nat → Z) (p : Patch) (latest : object)
    (options : list (applyOptions → applyOptions)) : object * option conflict :=
  apply_loop clock 0 (foldl (λ c o, o c) (mkApplyOptions [] false) options) p latest.

(** [Set] writes to the condition it is given, which is the one the patch points
    to: a patch that is applied again holds the conditions that were stored.
    Whether [Set] is called in a round.
    [src/runtime/conditions/patch.go:136-187 Patch.Apply] *)
Definition calls_Set (applyOpt : applyOptions) (latest : object) (op : PatchOperation) : bool :=
  match op with
  | AddConditionPatch After =>
      forceOverwrite applyOpt || isOwnedCondition applyOpt (Type_ After) ||
      bool_decide (Get latest (Type_ After) = None)
  | ChangeConditionPatch Before After =>
      forceOverwrite applyOpt || isOwnedCondition applyOpt (Type_ After) ||
      bool_decide (Get latest (Type_ After) = Some Before)
  | RemoveConditionPatch _ => false
  end.
Definition with_After (op : PatchOperation) (c : Condition) : PatchOperation :=
  match op with
  | AddConditionPatch _ => AddConditionPatch c
  | ChangeConditionPatch Before _ => ChangeConditionPatch Before c
  | RemoveConditionPatch Before => RemoveConditionPatch Before
  end.
Definition op_After (op : PatchOperation) : option Condition :=
  match op with
  | AddConditionPatch After | ChangeConditionPatch _ After => Some After
  | RemoveConditionPatch _ => None
  end.
Definition op_written (now : Z) (applyOpt : applyOptions) (latest : object) (op : PatchOperation) : PatchOperation :=
  if calls_Set applyOpt latest op
  then match (Set_ now latest (op_After op)).2 with Some c => with_After op c | None => op end
  else op.

(** The patch as [Apply] leaves it.
    [src/runtime/conditions/patch.go:135-203 Patch.Apply] *)
Fixpoint applied_patch (clock : nat → Z) (i : nat) (applyOpt : applyOptions) (p : Patch) (latest : object) : Patch :=
  match p with
  | [] => []
  | op :: p =>
      op_written (clock i) applyOpt latest op ::
      match apply_op (clock i) applyOpt latest op with
      | inl e => p
      | inr latest => applied_patch clock (S i) applyOpt p latest
      end
  end.
Definition Apply_patch (clock : nat → Z) (p : Patch) (latest : object)
    (options : list (applyOptions → applyOptions)) : Patch :=
  applied_patch clock 0 (foldl (λ c o, o c) (mkApplyOptions [] false) options) p latest.

(** [src/runtime/conditions/patch.go:205-208 Patch.IsZero] *)
Definition Patch_IsZero (p : Patch) : bool := length p =? 0.
End apply.

(** ** The three-way merge *)

Definition op_type (op : PatchOperation) : string :=
  match op with
  | AddConditionPatch a => Type_ a
  | ChangeConditionPatch _ a => Type_ a
  | RemoveConditionPatch b => Type_ b
  end.

(** The state that an operation is meant to reach: the condition has the
    state the controller wants, with the message that is stored. *)
Definition reached (a : Condition) (o : option Condition) : Prop :=
  ∃ c, o = Some c ∧ Status c = Status a ∧ Reason c = Reason a ∧
    (Message c = Message a ∨ Message c = trimConditionMessage (Message a) maxMessageLength).

Definition op_done (op : PatchOperation) (o : option Condition) : Prop :=
  match op with
  | AddConditionPatch a | ChangeConditionPatch _ a => reached a o
  | RemoveConditionPatch _ => o = None
  end.

Section three_way.
Context `{SortFunc}.

Lemma Set_reached now o a :
  wf_conditions o → wf_conditions (Set_obj now o (Some a)) ∧
  (∀ t, t ≠ Type_ a → Get (Set_obj now o (Some a)) t = Get o t) ∧
  reached a (Get (Set_obj now o (Some a)) (Type_ a)).
Proof.
  intros Hwf. destruct (Set_correct now o a (proj1 Hwf)) as (Hwf' & Hget & Hother & _).
  split_and!; [done..|]. rewrite Hget. eexists. split; [done|]. split_and!; [done|done|by right].
Qed.

Lemma same_state_reached c a : hasSameState c a = true → reached a (Some c).
Proof. intros (_ & HS & HR & HM)%hasSameState_spec. exists c. split_and!; auto. Qed.

(** An operation that succeeds reaches its state and leaves the other
    conditions alone. *)
Lemma apply_op_spec now opt o op o' :
  wf_conditions o → apply_op now opt o op = inr o' →
  wf_conditions o' ∧ (∀ t, t ≠ op_type op → Get o' t = Get o t) ∧ op_done op (Get o' (op_type op)).
Proof.
  intros Hwf. destruct op as [a|b a|b]; simpl.
  - destruct (_ || _); [intros [= <-]; by apply Set_reached|].
    destruct (Get o (Type_ a)) as [c|] eqn:Eg; [|intros [= <-]; by apply Set_reached].
    destruct (hasSameState c a) eqn:Es; simpl; [|done]. intros [= <-].
    split_and!; [done..|]. rewrite Eg. by apply same_state_reached.
  - destruct (_ || _); [intros [= <-]; by apply Set_reached|].
    destruct (Get o (Type_ a)) as [c|] eqn:Eg; [|done].
    case_bool_decide; simpl; [intros [= <-]; by apply Set_reached|].
    destruct (hasSameState c a) eqn:Es; simpl; [|done]. intros [= <-].
    split_and!; [done..|]. rewrite Eg. by apply same_state_reached.
  - destruct (Delete_correct o (Type_ b) Hwf) as (Hwf' & Hg & Hother & _).
    destruct (_ || _); [by intros [= <-]|].
    destruct (Get o (Type_ b)) as [c|]; [|by intros [= <-]].
    destruct (hasSameState c b); simpl; [|done]. by intros [= <-].
Qed.

Lemma apply_loop_spec clock i opt p o o' :
  wf_conditions o → NoDup (op_type <$> p) → apply_loop clock i opt p o = (o', None) →
  wf_conditions o' ∧ (∀ t, t ∉ op_type <$> p → Get o' t = Get o t) ∧
  ∀ op, op ∈ p → op_done op (Get o' (op_type op)).
Proof.
  revert i o. induction p as [|op p IH]; intros i o Hwf; simpl.
  { intros _ [= <-]. split_and!; [done|done|]. by intros op ?%elem_of_nil. }
  rewrite NoDup_cons. intros [Hop Hnd].
  destruct (apply_op (clock i) opt o op) as [e|o1] eqn:E; [done|]. intros Hl.
  destruct (apply_op_spec _ _ _ _ _ Hwf E) as (Hwf1 & Hother & Hdone).
  destruct (IH _ _ Hwf1 Hnd Hl) as (Hwf2 & Hother2 & Hdone2). split_and!; [done| |].
  - intros t Ht. apply not_elem_of_cons in Ht as [Ht1 Ht2]. rewrite Hother2 by done. by apply Hother.
  - intros op' [->|Hin]%elem_of_cons; [|by apply Hdone2]. by rewrite Hother2.
Qed.

(** When an operation applies: it is forced or owned, or nobody else made an
    incompatible change. *)
Definition op_ok (opt : applyOptions) (op : PatchOperation) (o : option Condition) : Prop :=
  forceOverwrite opt || isOwnedCondition opt (op_type op) = true ∨
  match op, o with
  | AddConditionPatch a, Some c => hasSameState c a = true
  | AddConditionPatch _, None => True
  | ChangeConditionPatch b a, Some c => c = b ∨ hasSameState c a = true
  | ChangeConditionPatch _ _, None => False
  | RemoveConditionPatch b, Some c => hasSameState c b = true
  | RemoveConditionPatch _, None => True
  end.

Lemma apply_op_ok now opt o op :
  op_ok opt op (Get o (op_type op)) ↔ ∃ o', apply_op now opt o op = inr o'.
Proof.
  unfold op_ok, apply_op. destruct op as [a|b a|b]; simpl; destruct (_ || _); simpl; try naive_solver.
  - destruct (Get o (Type_ a)) as [c|]; [|naive_solver].
    destruct (hasSameState c a); simpl; naive_solver.
  - destruct (Get o (Type_ a)) as [c|]; [|naive_solver].
    case_bool_decide; simpl; [naive_solver|]. destruct (hasSameState c a); simpl; naive_solver.
  - destruct (Get o (Type_ b)) as [c|]; [|naive_solver].
    destruct (hasSameState c b); simpl; naive_solver.
Qed.

(** The operations have distinct types, so the outcome depends on the latest
    object alone. *)
Lemma apply_loop_ok clock i opt p o :
  wf_conditions o → NoDup (op_type <$> p) →
  (apply_loop clock i opt p o).2 = None ↔ Forall (λ op, op_ok opt op (Get o (op_type op))) p.
Proof.
  revert i o. induction p as [|op p IH]; intros i o Hwf; simpl; [by intros _; split; [constructor|]|].
  rewrite NoDup_cons. intros [Hop Hnd]. rewrite Forall_cons, (apply_op_ok (clock i)).
  destruct (apply_op (clock i) opt o op) as [e|o1] eqn:E; simpl; [naive_solver|].
  destruct (apply_op_spec _ _ _ _ _ Hwf E) as (Hwf1 & Hother & _). rewrite (IH _ _ Hwf1 Hnd).
  assert (∀ op', op' ∈ p → Get o1 (op_type op') = Get o (op_type op')) as Hsame.
  { intros op' Hin. apply Hother. intros E'. apply Hop. rewrite <- E'. by apply list_elem_of_fmap_2. }
  rewrite !Forall_forall. split.
  - intros Hall. split; [by eauto|]. intros op' Hin. rewrite <- Hsame by done. auto.
  - intros [_ Hall] op' Hin. rewrite Hsame by done. auto.
Qed.
End three_way.

(** *** The operations of a patch *)

Lemma target_op_type before c op : op ∈ target_op before c → op_type op = Type_ c.
Proof.
  unfold target_op. repeat case_match; rewrite ?elem_of_nil, ?list_elem_of_singleton; naive_solver.
Qed.

Lemma base_op_type after c op : op ∈ base_op after c → op_type op = Type_ c ∧ Get after (Type_ c) = None.
Proof.
  unfold base_op. case_match; rewrite ?elem_of_nil, ?list_elem_of_singleton; naive_solver.
Qed.

(** At most one operation per condition keeps distinct types distinct. *)
Lemma NoDup_ops (f : Condition → list PatchOperation) l :
  (∀ c op, op ∈ f c → op_type op = Type_ c) → (∀ c, length (f c) <= 1) →
  NoDup (types l) → NoDup (op_type <$> (l ≫= f)).
Proof.
  intros Hf Hlen. induction l as [|c l IH]; simpl; [constructor|].
  rewrite NoDup_cons. intros [Hc Hnd]. rewrite fmap_app. apply NoDup_app. split_and!; [| |by apply IH].
  - specialize (Hlen c). destruct (f c) as [|op [|]]; simpl in *; [constructor|apply NoDup_singleton|lia].
  - intros t (op & -> & Hop)%list_elem_of_fmap (op' & E & Hin)%list_elem_of_fmap. apply Hc.
    apply list_elem_of_bind in Hin as (d & Hop' & Hd). rewrite <- (Hf c op Hop), E, (Hf d op' Hop').
    by apply list_elem_of_fmap_2.
Qed.

Lemma NewPatch_types before after :
  NoDup (types (GetConditions before)) → NoDup (types (GetConditions after)) →
  NoDup (op_type <$> NewPatch before after).
Proof.
  intros Hb Ha. unfold NewPatch. rewrite fmap_app. apply NoDup_app. split_and!.
  - apply NoDup_ops; [apply target_op_type| |done].
    intros c. unfold target_op. repeat case_match; simpl; lia.
  - intros t (op & -> & Hop)%list_elem_of_fmap (op' & E & Hop')%list_elem_of_fmap.
    apply list_elem_of_bind in Hop as (c & Hop & Hc), Hop' as (d & Hop' & Hd).
    apply target_op_type in Hop. apply base_op_type in Hop' as [Hty Hnone].
    unfold Get in Hnone. apply find_type_None in Hnone. apply Hnone.
    rewrite <- Hty, <- E, Hop. by apply list_elem_of_fmap_2.
  - apply NoDup_ops; [intros c op Hop; by apply base_op_type in Hop as [? _]| |done].
    intros c. unfold base_op. case_match; simpl; lia.
Qed.

(** What the patch contains, by the conditions of the two objects. *)
Lemma NewPatch_elem before after op :
  NoDup (types (GetConditions before)) → NoDup (types (GetConditions after)) →
  op ∈ NewPatch before after ↔
  match op with
  | AddConditionPatch a => Get after (Type_ a) = Some a ∧ Get before (Type_ a) = None
  | ChangeConditionPatch b a => Get after (Type_ a) = Some a ∧ Get before (Type_ a) = Some b ∧ a ≠ b
  | RemoveConditionPatch b => Get before (Type_ b) = Some b ∧ Get after (Type_ b) = None
  end.
Proof.
  intros Hb Ha. unfold NewPatch. rewrite elem_of_app, !list_elem_of_bind.
  assert (∀ o c, NoDup (types (GetConditions o)) → (c ∈ GetConditions o ↔ Get o (Type_ c) = Some c)) as Hget.
  { intros o c Hnd. split; [by apply find_type_In|]. by intros [? _]%find_type_Some. }
  assert (∀ c, op ∈ target_op before c ↔
    match Get before (Type_ c) with
    | None => op = AddConditionPatch c
    | Some b => c ≠ b ∧ op = ChangeConditionPatch b c
    end) as Ht.
  { intros c. unfold target_op. destruct (Get before (Type_ c)) as [b|].
    - case_bool_decide; simpl; rewrite ?elem_of_nil, ?list_elem_of_singleton; naive_solver.
    - by rewrite list_elem_of_singleton. }
  assert (∀ c, op ∈ base_op after c ↔ Get after (Type_ c) = None ∧ op = RemoveConditionPatch c) as Hr.
  { intros c. unfold base_op. destruct (Get after (Type_ c));
      rewrite ?elem_of_nil, ?list_elem_of_singleton; naive_solver. }
  setoid_rewrite Ht. setoid_rewrite Hr. split.
  - intros [(c & Hop & Hc)|(c & [Hop ->] & Hc)]; rewrite Hget in Hc by done; [|done].
    destruct (Get before (Type_ c)) as [b|] eqn:Eb; [destruct Hop as [? ->]|subst op]; done.
  - destruct op as [a|b a|b]; [intros [H1 H2]; left; exists a|intros (H1 & H2 & H3); left; exists a
      |intros [H1 H2]; right; exists b]; rewrite Hget by done; rewrite ?H2; done.
Qed.

(** *** Patches that were applied before *)

Lemma length_substring n s : n <= String.length s → String.length (String.substring 0 n s) = n.
Proof.
  revert s. induction n as [|n IH]; intros [|c s]; simpl; try lia. intros Hn. by rewrite IH by lia.
Qed.

Lemma length_append s1 s2 : String.length (s1 +:+ s2) = String.length s1 + String.length s2.
Proof. induction s1 as [|c s1 IH]; simpl; [done|]. by rewrite IH. Qed.

Lemma trim_idempotent m n :
  trimConditionMessage (trimConditionMessage m n) n = trimConditionMessage m n.
Proof.
  unfold trimConditionMessage. set (k := if n <? _ then _ else n).
  assert (3 <= k) as Hk.
  { unfold k, trimmedMessageSuffix. cbn [String.length]. destruct (Nat.ltb_spec n 3); lia. }
  destruct (Nat.leb_spec (String.length m) k) as [Hm|Hm]; [by rewrite (proj2 (Nat.leb_le _ _) Hm)|].
  rewrite (proj2 (Nat.leb_le _ k)); [done|]. rewrite length_append, length_substring; simpl; lia.
Qed.

(** The same condition, perhaps as [Set] stored it. *)
Definition sim_condition (a a' : Condition) : Prop :=
  Type_ a' = Type_ a ∧ Status a' = Status a ∧ Reason a' = Reason a ∧
  (Message a' = Message a ∨ Message a' = trimConditionMessage (Message a) maxMessageLength).
Definition sim_op (op op' : PatchOperation) : Prop :=
  match op, op' with
  | AddConditionPatch a, AddConditionPatch a' => sim_condition a a'
  | ChangeConditionPatch b a, ChangeConditionPatch b' a' => b' = b ∧ sim_condition a a'
  | RemoveConditionPatch b, RemoveConditionPatch b' => b' = b
  | _, _ => False
  end.

Lemma sim_op_refl op : sim_op op op.
Proof. unfold sim_op, sim_condition. destruct op; naive_solver. Qed.

Lemma sim_op_type op op' : sim_op op op' → op_type op' = op_type op.
Proof. unfold sim_op, sim_condition. destruct op, op'; simpl; naive_solver. Qed.

Lemma sim_op_done op op' o : sim_op op op' → op_done op' o → op_done op o.
Proof.
  assert (∀ a a', sim_condition a a' → reached a' o → reached a o) as Hr.
  { intros a a' (_ & HS & HR & HM) (c & -> & HcS & HcR & HcM). exists c.
    rewrite HS in HcS. rewrite HR in HcR. split_and!; [done..|]. destruct HM as [HM|HM]; rewrite HM in HcM; [done|]. right.
    destruct HcM as [->| ->]; [done|apply trim_idempotent]. }
  destruct op, op'; simpl; naive_solver.
Qed.

Lemma sim_ops_types p p' : Forall2 sim_op p p' → op_type <$> p' = op_type <$> p.
Proof. induction 1; simpl; [done|]. f_equal; [by apply sim_op_type|done]. Qed.

Section sim.
Context `{SortFunc}.

Lemma Set_loop_found now l c : ∀ l' c', Set_loop now l c = (l', Some c') → ∃ t, c' = with_time c t.
Proof.
  induction l as [|e l IH]; intros l' c'; simpl; [done|]. destruct (string_eqb _ _).
  - destruct (hasSameState e c); simpl; [destruct (_ =? _)%Z|]; simpl; intros [= _ <-]; eauto.
  - destruct (Set_loop now l c) as [l1 r] eqn:E. intros [= _ ->]. eauto.
Qed.

Lemma Set_written now o c : ∃ c', (Set_ now o (Some c)).2 = Some c' ∧ ∃ t, c' = with_time (prepared o c) t.
Proof.
  unfold Set_. cbv zeta. change (with_message _ _) with (prepared o c). destruct (Set_loop now (GetConditions o) (prepared o c)) as [l [c'|]] eqn:E.
  - exists c'. split; [done|]. by eapply Set_loop_found.
  - eexists. split; [done|]. destruct (_ =? _)%Z; eauto.
Qed.

Lemma sim_op_written now opt o op op' : sim_op op op' → sim_op op (op_written now opt o op').
Proof.
  assert (∀ a a' t, sim_condition a a' → sim_condition a (with_time (prepared o a') t)) as Hs.
  { intros a a' t (HT & HS & HR & HM). split_and!; [done..|]. right. simpl.
    destruct HM as [->| ->]; [done|apply trim_idempotent]. }
  intros Hsim. unfold op_written. destruct (calls_Set _ _ _); [|done].
  destruct op' as [a|b a|b]; cbn [op_After]; [| |done]; destruct (Set_written now o a) as (c' & -> & t & ->);
    destruct op; simpl in *; naive_solver.
Qed.

Lemma sim_applied clock i opt p p' o :
  Forall2 sim_op p p' → Forall2 sim_op p (applied_patch clock i opt p' o).
Proof.
  intros Hsim. revert i o. induction Hsim as [|op op' p p' Hop Hsim IH]; intros i o; cbn [applied_patch]; [done|].
  constructor; [by apply sim_op_written|]. by destruct (apply_op _ _ _ _).
Qed.
End sim.

(** *** The results *)

Section results.
Context `{SortFunc}.
Context (before after latest : object).
Context (Hbefore : NoDup (types (GetConditions before))) (Hafter : NoDup (types (GetConditions after))).
Context (Hlatest : wf_conditions latest).

(** What a three-way merge is. *)
Definition three_way (latest' : object) : Prop :=
  wf_conditions latest' ∧ ∀ t,
    (Get before t = Get after t → Get latest' t = Get latest t) ∧
    (∀ a, Get after t = Some a → Get before t ≠ Some a → reached a (Get latest' t)) ∧
    (Get after t = None → Get before t ≠ None → Get latest' t = None).

Lemma Apply_merges clock p options latest' :
  Forall2 sim_op (NewPatch before after) p →
  Apply clock p latest options = (latest', None) → three_way latest'.
Proof.
  intros Hsim E. pose proof (NewPatch_types before after Hbefore Hafter) as Hnd.
  rewrite <-(sim_ops_types _ _ Hsim) in Hnd.
  destruct (apply_loop_spec _ _ _ _ _ _ Hlatest Hnd E) as (Hwf & Hother & Hdone'). split; [done|].
  rewrite (sim_ops_types _ _ Hsim) in Hother.
  assert (∀ op, op ∈ NewPatch before after → op_done op (Get latest' (op_type op))) as Hdone.
  { intros op (k & Hk)%list_elem_of_lookup. destruct (Forall2_lookup_l _ _ _ _ _ Hsim Hk) as (op' & Hk' & Hop).
    rewrite <-(sim_op_type _ _ Hop). eapply sim_op_done, Hdone'; [done|]. by eapply list_elem_of_lookup_2. }
  clear Hdone'.
  assert (∀ o t c, Get o t = Some c → Type_ c = t) as Hty.
  { intros o t c Hg. by apply find_type_Some in Hg as [_ ?]. }
  intros t. split_and!.
  - intros Heq. apply Hother. intros (op & -> & Hop)%list_elem_of_fmap.
    apply NewPatch_elem in Hop; [|done..]. destruct op as [a|b a|b]; simpl in *; destruct Hop; naive_solver congruence.
  - intros a Ha Hne. pose proof (Hty _ _ _ Ha) as <-. destruct (Get before (Type_ a)) as [b|] eqn:Eb.
    + apply (Hdone (ChangeConditionPatch b a)), NewPatch_elem; [done..|]. split_and!; congruence.
    + apply (Hdone (AddConditionPatch a)), NewPatch_elem; done.
  - intros Ha Hne. destruct (Get before t) as [b|] eqn:Eb; [|done]. pose proof (Hty _ _ _ Eb) as <-.
    apply (Hdone (RemoveConditionPatch b)), NewPatch_elem; done.
Qed.

(** C6. [Apply] is a three-way merge: when it reports no conflict, every
    condition that the controller did not touch is the latest one, every
    condition it added or changed has the state it wants, every condition it
    removed is gone, and the list is well-formed. *)
Theorem Apply_three_way clock options latest' :
  Apply clock (NewPatch before after) latest options = (latest', None) →
  wf_conditions latest' ∧ ∀ t,
    (Get before t = Get after t → Get latest' t = Get latest t) ∧
    (∀ a, Get after t = Some a → Get before t ≠ Some a → reached a (Get latest' t)) ∧
    (Get after t = None → Get before t ≠ None → Get latest' t = None).
Proof. apply Apply_merges, Forall_Forall2_diag, Forall_true, sim_op_refl. Qed.

(** [Apply] reports a conflict exactly when some change of the controller
    is neither forced nor owned and the latest object has an incompatible
    value: in particular there is none if nobody else touched the conditions
    the controller changes, or if the patch is forced. *)
Theorem Apply_conflict_iff clock options :
  let opt := foldl (λ c o, o c) (mkApplyOptions [] false) options in
  ((Apply clock (NewPatch before after) latest options).2 = None ↔
     ∀ op, op ∈ NewPatch before after → op_ok opt op (Get latest (op_type op))) ∧
  (forceOverwrite opt = true ∨
   (∀ t, Get before t ≠ Get after t → Get latest t = Get before t) →
   (Apply clock (NewPatch before after) latest options).2 = None).
Proof.
  intros opt. pose proof (NewPatch_types before after Hbefore Hafter) as Hnd.
  assert ((Apply clock (NewPatch before after) latest options).2 = None ↔
    ∀ op, op ∈ NewPatch before after → op_ok opt op (Get latest (op_type op))) as Hiff.
  { unfold Apply. rewrite apply_loop_ok by done. apply Forall_forall. }
  split; [done|]. intros Hcase. apply Hiff. intros op Hop. destruct Hcase as [Hforce|Hsame].
  { left. by rewrite Hforce. }
  right. apply NewPatch_elem in Hop; [|done..].
  assert (∀ c, hasSameState c c = true) as Hrefl by (intros c; by apply hasSameState_spec).
  destruct op as [a|b a|b]; simpl.
  - destruct Hop as [H1 H2]. rewrite Hsame by congruence. by rewrite H2.
  - destruct Hop as (H1 & H2 & H3). rewrite Hsame by congruence. rewrite H2. by left.
  - destruct Hop as [H1 H2]. rewrite Hsame by congruence. by rewrite H1.
Qed.
End results.

(** The object a controller read, what it wants, and the latest version: the
    user's controller changed another condition meanwhile. *)
Definition patch_before : object := sample_object.
Definition patch_after : object :=
  mkObject "Kustomization" "app" 2 [mkCondition ReadyCondition ConditionTrue 2 9 "Succeeded" "applied"].
Definition patch_latest : object :=
  mkObject "Kustomization" "app" 2
    [mkCondition ReadyCondition ConditionFalse 1 7 "BuildFailed" "no such file";
     mkCondition "Healthy" ConditionTrue 2 8 "Succeeded" "all good"].

Lemma patch_latest_wf : wf_conditions patch_latest.
Proof.
  split; [apply (bool_decide_unpack _); by vm_compute|].
  apply SSorted_cons; [by repeat constructor|]. apply Forall_singleton. by left.
Qed.

Lemma Apply_three_way_witness :
  let latest' := (Apply (λ _, 5%Z) (NewPatch patch_before patch_after) patch_latest []).1 in
  Get latest' "Healthy" = Get patch_latest "Healthy" ∧
  reached (mkCondition ReadyCondition ConditionTrue 2 9 "Succeeded" "applied") (Get latest' ReadyCondition).
Proof.
  pose proof patch_latest_wf as Hwf.
  destruct (Apply_three_way patch_before patch_after patch_latest (NoDup_singleton _) (NoDup_singleton _) Hwf
    (λ _, 5%Z) [] (Apply (λ _, 5%Z) (NewPatch patch_before patch_after) patch_latest []).1) as [_ Hall].
  { by vm_compute. }
  split.
  - destruct (Hall "Healthy") as [Hsame _]. by apply Hsame.
  - destruct (Hall ReadyCondition) as (_ & Hreached & _). by apply Hreached.
Defined.

Lemma Apply_conflict_iff_witness :
  (Apply (λ _, 5%Z) (NewPatch patch_before patch_after) patch_latest []).2 = None.
Proof.
  pose proof patch_latest_wf as Hwf.
  apply (Apply_conflict_iff patch_before patch_after patch_latest (NoDup_singleton _) (NoDup_singleton _) Hwf
    (λ _, 5%Z) []).
  right. intros t Hne. unfold Get, find_type in *. simpl in *. unfold string_eqb in *.
  case_bool_decide; [done|]. by case_bool_decide.
Defined.
