(* ===== verification/Dependency.v ===== *)
(** * Dependencies between objects ([runtime/dependency/sort.go],
      [apis/meta/dependencies.go], [apis/meta/reference_types.go])

    References to dependencies and their textual form, and the topological
    sort of objects by their dependencies: a depth-first search with marks. *)

From S2P Require Import Prelude Utf8.

(** ** References *)

(** [src/apis/meta/reference_types.go:26-36 NamespacedObjectReference] *)
Record NamespacedObjectReference := mkRef { ref_Name : bytes; ref_Namespace : bytes }.

#[global] Instance ref_eq_dec : EqDecision NamespacedObjectReference.
Proof. solve_decision. Defined.
#[global] Instance ref_countable : Countable NamespacedObjectReference.
Proof.
  refine (inj_countable' (λ r, (ref_Name r, ref_Namespace r)) (λ p, mkRef p.1 p.2) _). by intros [].
Defined.

(** The name, behind the namespace if there is one. *)
Definition qualify (ns name : bytes) : bytes :=
  if length ns =? 0 then name else ns ++ str "/" ++ name.

(** [src/apis/meta/reference_types.go:38-44 NamespacedObjectReference.String] *)
Definition ref_String (r : NamespacedObjectReference) : bytes := qualify (ref_Namespace r) (ref_Name r).

(** [src/apis/meta/reference_types.go:46-65 DependencyReference] *)
Record DependencyReference := mkDep { dep_Name : bytes; dep_Namespace : bytes; dep_ReadyExpr : bytes }.

(** [src/apis/meta/reference_types.go:67-79 DependencyReference.String] *)
Definition dep_String (d : DependencyReference) : bytes :=
  let s := qualify (dep_Namespace d) (dep_Name d) in
  if length (dep_ReadyExpr d) =? 0 then s else s ++ str "@" ++ dep_ReadyExpr d.

(** [src/apis/meta/dependencies.go:42-59 MakeDependsOn] *)
Definition parse_dependency (dep : bytes) : DependencyReference :=
  let '(readyExpr, dep) :=
    match strings_Index dep (str "@") with
    | Some idx => (drop (idx + 1) dep, take idx dep)
    | None => ([], dep)
    end in
  match strings_Index dep (str "/") with
  | Some i => mkDep (drop (i + 1) dep) (take i dep) readyExpr
  | None => mkDep dep [] readyExpr
  end.

(** [src/apis/meta/dependencies.go:28-62 MakeDependsOn] *)
Definition MakeDependsOn (deps : list bytes) : list DependencyReference := parse_dependency <$> deps.

(** *** Printing and parsing *)

(** Names and namespaces as Kubernetes allows them have neither separator. *)
Definition valid_dep (d : DependencyReference) : Prop :=
  ("@"%char ∉ dep_Name d) ∧ ("/"%char ∉ dep_Name d) ∧
  ("@"%char ∉ dep_Namespace d) ∧ ("/"%char ∉ dep_Namespace d).

(** Splitting a qualified name. *)
Lemma qualify_split ns name e :
  "/"%char ∉ name → "/"%char ∉ ns →
  match strings_Index (qualify ns name) (str "/") with
  | Some i => mkDep (drop (i + 1) (qualify ns name)) (take i (qualify ns name)) e
  | None => mkDep (qualify ns name) [] e
  end = mkDep name ns e.
Proof.
  intros Hn Hns. unfold qualify. destruct ns as [|c ns]; cbn [length Nat.eqb].
  - by rewrite (Index_absent "/").
  - change (str "/" ++ name) with ("/"%char :: name). rewrite (Index_first "/") by done. f_equal.
    + rewrite drop_app_add. simpl. by rewrite drop_0.
    + by rewrite take_app_length.
Qed.

(** [MakeDependsOn] reads back what [DependencyReference.String] prints,
    for references with any CEL expression whose names contain no separator. *)
Theorem MakeDependsOn_String (ds : list DependencyReference) :
  Forall valid_dep ds → MakeDependsOn (dep_String <$> ds) = ds.
Proof.
  intros Hv. unfold MakeDependsOn. rewrite <- list_fmap_compose. rewrite <- (list_fmap_id ds) at 2.
  apply list_fmap_ext. intros i d Hd. apply (Forall_lookup_1 _ _ _ _ Hv) in Hd as (H1 & H2 & H3 & H4).
  destruct d as [name ns e]. unfold compose, parse_dependency, dep_String in *. simpl in H1, H2, H3, H4.
  cbn [dep_Name dep_Namespace dep_ReadyExpr id].
  assert ("@"%char ∉ qualify ns name) as Hat.
  { unfold qualify. case_match; [done|]. rewrite !not_elem_of_app. split_and!; [done| |done].
    by apply not_elem_of_cons; split; [|apply not_elem_of_nil]. }
  destruct e as [|c e]; cbn [length Nat.eqb].
  - rewrite (Index_absent "@") by done. by apply qualify_split.
  - change (str "@" ++ c :: e) with ("@"%char :: c :: e). rewrite (Index_first "@") by done.
    rewrite drop_app_add, take_app_length. simpl drop. by rewrite ?drop_0, qualify_split.
Qed.

Lemma MakeDependsOn_String_witness :
  MakeDependsOn (dep_String <$> [mkDep (str "app") (str "apps") (str "self.a@b/c == 1"); mkDep (str "db") [] []])
  = [mkDep (str "app") (str "apps") (str "self.a@b/c == 1"); mkDep (str "db") [] []].
Proof.
  apply MakeDependsOn_String. repeat constructor; apply (bool_decide_unpack _); by vm_compute.
Defined.

(** ** The topological sort *)

(** [src/runtime/dependency/sort.go:27-33 Dependent] *)
Record Dependent := mkDependent { GetName : bytes; GetNamespace : bytes; GetDependsOn : list DependencyReference }.

(** [src/runtime/dependency/sort.go:35-39 unmarked]
    [unmarked] is the value of a missing key. *)
Inductive Mark := permanentMark | temporaryMark.

Abbreviation ref := NamespacedObjectReference (only parsing).

(** [src/runtime/dependency/sort.go:54-57 Sort] *)
Definition vertex (obj : Dependent) : ref := mkRef (GetName obj) (GetNamespace obj).

(** A dependency without a namespace is in the namespace of its object.
    [src/runtime/dependency/sort.go:60-66 Sort] *)
Definition edge_target (obj : Dependent) (d : DependencyReference) : ref :=
  mkRef (dep_Name d) (if length (dep_Namespace d) =? 0 then GetNamespace obj else dep_Namespace d).

(** [src/runtime/dependency/sort.go:50-69 Sort] *)
Definition build_graph (objects : list Dependent) : list ref * gmap ref (list ref) :=
  foldl (λ '(vertices, edges) obj,
    let u := vertex obj in
    (vertices ++ [u],
     foldl (λ edges d, <[u := default [] (edges !! u) ++ [edge_target obj d]]> edges)
       edges (GetDependsOn obj))) ([], ∅) objects.

(** The variables the search closure shares. *)
Record search := mkSearch { mark : gmap ref Mark; sorted : list ref }.

Definition set_mark (st : search) (u : ref) (m : Mark) : search :=
  mkSearch (<[u := m]> (mark st)) (sorted st).

(** A search ends with the node sorted, with a cycle, or out of fuel. *)
Inductive search_result := Searched (st : search) | Cycle (cycle : list ref) | SearchNoFuel.

Section dfs.
Context (edges : ref → list ref).

(** The loop over the edges of [u]; [rec] is the recursive call.
    [src/runtime/dependency/sort.go:77-91 Sort] *)
Fixpoint edges_loop (rec : ref → search → search_result) (u : ref) (vs : list ref) (st : search)
    : search_result :=
  match vs with
  | [] => let st := set_mark st u permanentMark in
          Searched (mkSearch (mark st) (sorted st ++ [u]))
  | v :: vs =>
      match mark st !! v with
      | Some permanentMark => edges_loop rec u vs st
      | Some temporaryMark => Cycle [v; u]
      | None =>
          match rec v st with
          | Searched st => edges_loop rec u vs st
          | Cycle c => Cycle (c ++ [u])
          | SearchNoFuel => SearchNoFuel
          end
      end
  end.

(** [src/runtime/dependency/sort.go:75-92 Sort] *)
Fixpoint depthFirstSearch (fuel : nat) (u : ref) (st : search) : search_result :=
  match fuel with
  | O => SearchNoFuel
  | S fuel => edges_loop (depthFirstSearch fuel) u (edges u) (set_mark st u temporaryMark)
  end.

(** [src/runtime/dependency/sort.go:93-102 Sort] *)
Fixpoint vertices_loop (fuel : nat) (vertices : list ref) (st : search) : search_result :=
  match vertices with
  | [] => Searched st
  | u :: vertices =>
      match mark st !! u with
      | Some _ => vertices_loop fuel vertices st
      | None =>
          match depthFirstSearch fuel u st with
          | Searched st => vertices_loop fuel vertices st
          | Cycle c => Cycle (reverse c)
          | SearchNoFuel => SearchNoFuel
          end
      end
  end.
End dfs.

Definition edges_of (edges : gmap ref (list ref)) (u : ref) : list ref := default [] (edges !! u).

(** One more than the number of nodes and edges is enough fuel: every call
    marks a node. *)
Definition sort_fuel (objects : list Dependent) : nat :=
  S (length objects + sum_list_with (λ o, length (GetDependsOn o)) objects).

(** What [Sort] returns: the order, or the cycle the error message prints. *)
Inductive sort_result := Order (l : list ref) | CircularDependency (cycle : list ref) | SortNoFuel.

(** [src/runtime/dependency/sort.go:41-103 Sort] *)
Definition Sort (objects : list Dependent) : sort_result :=
  let '(vertices, edges) := build_graph objects in
  match vertices_loop (edges_of edges) (sort_fuel objects) vertices (mkSearch ∅ []) with
  | Searched st => Order (sorted st)
  | Cycle c => CircularDependency c
  | SearchNoFuel => SortNoFuel
  end.

(** *** The search *)

Section search.
Context (edges : ref → list ref).

(** Every dependency of a sorted node comes before it. *)
Definition topological (l : list ref) : Prop :=
  ∀ l1 u l2, l = l1 ++ u :: l2 → ∀ v, v ∈ edges u → v ∈ l1.

(** [T] holds the nodes being visited. *)
Record search_inv (T : gset ref) (st : search) : Prop := {
  inv_temp u : mark st !! u = Some temporaryMark ↔ u ∈ T;
  inv_perm u : mark st !! u = Some permanentMark ↔ u ∈ sorted st;
  inv_nodup : NoDup (sorted st);
  inv_topo : topological (sorted st) }.

(** A chain of dependencies, from the last one back to the start. *)
Fixpoint chain (l : list ref) : Prop :=
  match l with
  | v :: (u :: _) as l' => v ∈ edges u ∧ chain l'
  | _ => True
  end.

(** What a reported cycle is: a chain that starts at [u] and whose end was
    met before. *)
Definition cycle_ok (T : gset ref) (u : ref) (c : list ref) : Prop :=
  chain c ∧ last c = Some u ∧ ∃ v l, c = v :: l ∧ l ≠ [] ∧ (v ∈ l ∨ v ∈ T).

(** Reachability along dependencies. *)
Inductive reach : ref → ref → Prop :=
  | reach_refl u : reach u u
  | reach_step u v w : v ∈ edges u → reach v w → reach u w.

Context (nodes : gset ref) (Hnodes : ∀ u v, v ∈ edges u → v ∈ nodes).

Definition unmarked_nodes (st : search) : nat := size (nodes ∖ dom (mark st)).

(** What a search from [u] does. *)
Definition searched (T : gset ref) (u : ref) (st : search) (r : search_result) : Prop :=
  match r with
  | Searched st' =>
      search_inv T st' ∧ u ∈ sorted st' ∧ dom (mark st) ⊆ dom (mark st') ∧
      (∀ x, x ∈ sorted st → x ∈ sorted st') ∧ (∀ x, x ∈ sorted st' → x ∈ sorted st ∨ reach u x)
  | Cycle c => cycle_ok T u c
  | SearchNoFuel => False
  end.

Lemma topological_snoc l u : topological l → (∀ v, v ∈ edges u → v ∈ l) → topological (l ++ [u]).
Proof.
  intros Hl Hu l1 x l2 E v Hv. destruct l2 as [|y l2 _] using rev_ind.
  - apply app_inj_tail in E as [-> ->]. by apply Hu.
  - rewrite app_comm_cons, app_assoc in E. apply app_inj_tail in E as [-> _]. by eapply Hl.
Qed.

Lemma chain_snoc l u v : chain l → last l = Some v → v ∈ edges u → chain (l ++ [u]).
Proof.
  induction l as [|x [|y l] IH]; [done|..].
  - intros _ [= ->] Hv. done.
  - intros [Hx Hc] Hl Hv. split; [done|]. by apply IH.
Qed.

(** The node is finished: it leaves the nodes being visited. *)
Lemma finish_inv T u st :
  search_inv ({[u]} ∪ T) st → u ∉ T → (∀ v, v ∈ edges u → v ∈ sorted st) →
  search_inv T (mkSearch (mark (set_mark st u permanentMark)) (sorted st ++ [u])).
Proof.
  intros [Ht Hp Hn Htopo] Hu Hall. split; simpl.
  - intros x. destruct (decide (x = u)) as [->|Hne].
    + rewrite lookup_insert_eq. naive_solver.
    + rewrite lookup_insert_ne, Ht by done. set_solver.
  - intros x. rewrite elem_of_app, list_elem_of_singleton. destruct (decide (x = u)) as [->|Hne].
    + rewrite lookup_insert_eq. naive_solver.
    + rewrite lookup_insert_ne, Hp by done. naive_solver.
  - apply NoDup_app. split_and!; [done| |apply NoDup_singleton].
    intros x Hx ->%list_elem_of_singleton. apply Hp in Hx.
    assert (mark st !! u = Some temporaryMark) as Hx' by (apply Ht; set_solver). congruence.
  - by apply topological_snoc.
Qed.

Lemma edges_loop_spec rec T u vs ps st0 st :
  edges u = ps ++ vs → u ∉ T → search_inv ({[u]} ∪ T) st → Forall (λ v, v ∈ sorted st) ps →
  dom (mark st0) ⊆ dom (mark st) → (∀ x, x ∈ sorted st0 → x ∈ sorted st) →
  (∀ x, x ∈ sorted st → x ∈ sorted st0 ∨ reach u x) →
  (∀ v st1, v ∈ edges u → search_inv ({[u]} ∪ T) st1 → mark st1 !! v = None →
     dom (mark st0) ∪ {[u]} ⊆ dom (mark st1) → searched ({[u]} ∪ T) v st1 (rec v st1)) →
  searched T u st0 (edges_loop rec u vs st).
Proof.
  intros Eu HuT. revert ps st Eu. induction vs as [|v vs IH]; intros ps st Eu Hinv Hps Hdom Hmono Hreach Hrec.
  - simpl. split_and!.
    + apply finish_inv; [done..|]. rewrite Eu, app_nil_r. by apply Forall_forall.
    + simpl. set_solver.
    + simpl. set_solver.
    + intros x Hx. simpl. rewrite elem_of_app. auto.
    + intros x. simpl. rewrite elem_of_app, list_elem_of_singleton. intros [Hx| ->]; [auto|right; constructor].
  - assert (v ∈ edges u) as Hv by (rewrite Eu; set_solver).
    assert (edges u = (ps ++ [v]) ++ vs) as Eu' by by rewrite <- app_assoc.
    cbn [edges_loop]. destruct (mark st !! v) as [[]|] eqn:Em.
    + apply (IH (ps ++ [v])); try done. apply Forall_app. split; [done|]. constructor; [|done].
      by apply (inv_perm _ _ Hinv).
    + split_and!; [done|done|]. exists v, [u]. split_and!; [done|done|].
      apply (inv_temp _ _ Hinv) in Em. set_solver.
    + assert (u ∈ dom (mark st)) as Hud.
      { apply elem_of_dom. exists temporaryMark. apply (inv_temp _ _ Hinv). set_solver. }
      specialize (Hrec v st Hv Hinv Em ltac:(set_solver)) as Hr.
      destruct (rec v st) as [st1|c|]; [|..|done].
      * destruct Hr as (Hinv1 & Hv1 & Hdom1 & Hmono1 & Hreach1). apply (IH (ps ++ [v])); try done.
        -- apply Forall_app. split; [|by constructor]. eapply Forall_impl; [exact Hps|]. simpl. auto.
        -- set_solver.
        -- auto.
        -- intros x Hx. apply Hreach1 in Hx as [Hx|Hx]; [auto|right; by eapply reach_step].
      * destruct Hr as (Hc & Hl & w & l & -> & Hne & Hw). split_and!.
        -- by eapply chain_snoc.
        -- by rewrite last_snoc.
        -- exists w, (l ++ [u]). split_and!; [done|by destruct l|]. set_solver.
Qed.

Lemma dfs_spec fuel T u st :
  search_inv T st → mark st !! u = None → u ∈ nodes → unmarked_nodes st <= fuel →
  searched T u st (depthFirstSearch edges fuel u st).
Proof.
  revert T u st. induction fuel as [|fuel IH]; intros T u st Hinv Hu Hun Hf.
  - unfold unmarked_nodes in Hf. assert (size (nodes ∖ dom (mark st)) = 0) as Hs by lia.
    apply size_empty_inv in Hs. apply not_elem_of_dom in Hu. set_solver.
  - cbn [depthFirstSearch].
    assert (u ∉ T) as HuT. { intros HT. apply (inv_temp _ _ Hinv) in HT. congruence. }
    apply (edges_loop_spec _ _ _ _ []); try done; simpl.
    + destruct Hinv as [Ht Hp Hn Htopo]. split; simpl; try done.
      * intros x. destruct (decide (x = u)) as [->|Hne].
        -- rewrite lookup_insert_eq. set_solver.
        -- rewrite lookup_insert_ne, Ht by done. set_solver.
      * intros x. destruct (decide (x = u)) as [->|Hne].
        -- rewrite lookup_insert_eq. rewrite <- Hp, Hu. done.
        -- by rewrite lookup_insert_ne, Hp by done.
    + set_solver.
    + by left.
    + intros v st1 Hv Hinv1 Hv1 Hdom. apply IH; [done|done|by eapply Hnodes|].
      unfold unmarked_nodes in *. apply not_elem_of_dom in Hu.
      assert (size (nodes ∖ dom (mark st1)) < size (nodes ∖ dom (mark st))); [|lia].
      apply subset_size. set_solver.
Qed.

Lemma vertices_loop_spec fuel vs st :
  search_inv ∅ st → unmarked_nodes st <= fuel → (∀ u, u ∈ vs → u ∈ nodes) →
  match vertices_loop edges fuel vs st with
  | Searched st' =>
      search_inv ∅ st' ∧ (∀ x, x ∈ sorted st ∨ x ∈ vs → x ∈ sorted st') ∧
      (∀ x, x ∈ sorted st' → x ∈ sorted st ∨ ∃ u, u ∈ vs ∧ reach u x)
  | Cycle c => ∃ u, u ∈ vs ∧ cycle_ok ∅ u (reverse c)
  | SearchNoFuel => False
  end.
Proof.
  revert st. induction vs as [|u vs IH]; intros st Hinv Hf Hvs; cbn [vertices_loop].
  { split_and!; [done|set_solver|set_solver]. }
  destruct (mark st !! u) as [m|] eqn:Em.
  - specialize (IH st Hinv Hf ltac:(set_solver)).
    assert (u ∈ sorted st) as Hu.
    { destruct m; [by apply (inv_perm _ _ Hinv)|]. apply (inv_temp _ _ Hinv) in Em. set_solver. }
    destruct (vertices_loop edges fuel vs st) as [st'|c|]; [|set_solver|done].
    destruct IH as (? & ? & ?). split_and!; [done|set_solver|set_solver].
  - pose proof (dfs_spec fuel ∅ u st Hinv Em ltac:(set_solver) Hf) as Hd.
    destruct (depthFirstSearch edges fuel u st) as [st1|c|]; simpl in Hd; [| |done].
    + destruct Hd as (Hinv1 & Hu & Hdom & Hmono & Hreach).
      assert (unmarked_nodes st1 <= fuel) as Hf1.
      { unfold unmarked_nodes in *. etrans; [|exact Hf]. apply subseteq_size. set_solver. }
      specialize (IH st1 Hinv1 Hf1 ltac:(set_solver)).
      destruct (vertices_loop edges fuel vs st1) as [st'|c|]; [|set_solver|done].
      destruct IH as (? & Hin & Hout). split_and!; [done|set_solver|].
      intros x [Hx|Hx]%Hout; [|set_solver]. apply Hreach in Hx as [Hx|Hx]; [by left|right].
      exists u. split; [left|done].
    + exists u. split; [left|]. by rewrite reverse_involutive.
Qed.
End search.

(** *** The graph of a list of objects *)

(** An object at [u] names [v] as a dependency. *)
Definition depends (objects : list Dependent) (u v : ref) : Prop :=
  ∃ obj d, obj ∈ objects ∧ d ∈ GetDependsOn obj ∧ vertex obj = u ∧ edge_target obj d = v.

Lemma add_edges_elem (f : DependencyReference → ref) u ds edges x v :
  v ∈ edges_of (foldl (λ edges d, <[u := default [] (edges !! u) ++ [f d]]> edges) edges ds) x ↔
  v ∈ edges_of edges x ∨ x = u ∧ ∃ d, d ∈ ds ∧ f d = v.
Proof.
  revert edges. induction ds as [|d ds IH]; intros edges; simpl; [set_solver|]. rewrite IH.
  unfold edges_of at 1. destruct (decide (x = u)) as [->|Hne].
  - rewrite lookup_insert_eq. simpl. unfold edges_of. rewrite elem_of_app, list_elem_of_singleton.
    setoid_rewrite elem_of_cons. naive_solver.
  - rewrite lookup_insert_ne by done. unfold edges_of. naive_solver.
Qed.

Lemma build_graph_spec objects :
  let '(vertices, edges) := build_graph objects in
  vertices = vertex <$> objects ∧ ∀ u v, v ∈ edges_of edges u ↔ depends objects u v.
Proof.
  unfold build_graph. induction objects as [|obj objects IH] using rev_ind.
  { split; [done|]. intros u v. unfold edges_of, depends. rewrite lookup_empty. simpl.
    setoid_rewrite elem_of_nil. naive_solver. }
  rewrite foldl_app. destruct (foldl _ ([], ∅) objects) as [vertices edges]. destruct IH as [-> IH]. simpl.
  rewrite fmap_app. split; [done|]. intros u v. rewrite add_edges_elem, IH. unfold depends.
  setoid_rewrite elem_of_app. setoid_rewrite list_elem_of_singleton. split.
  - intros [(o & d & H1 & H2 & H3 & H4)|(-> & d & H1 & H2)]; [exists o, d|exists obj, d]; auto.
  - intros (o & d & [H1| ->] & H2 & <- & H4); [left; exists o, d|right; split; [done|exists d]]; auto.
Qed.

(** All nodes of the graph. *)
Definition all_nodes (objects : list Dependent) : list ref :=
  (vertex <$> objects) ++ (objects ≫= λ obj, edge_target obj <$> GetDependsOn obj).

Lemma all_nodes_size objects :
  size (list_to_set (all_nodes objects) : gset ref) < sort_fuel objects.
Proof.
  pose proof (size_list_to_set_le (all_nodes objects)) as Hs.
  assert (length (objects ≫= λ obj, edge_target obj <$> GetDependsOn obj) =
    sum_list_with (λ o, length (GetDependsOn o)) objects) as Hl.
  { clear. induction objects as [|o objects IH]; [done|].
    rewrite bind_cons, length_app, length_fmap, IH. done. }
  unfold sort_fuel. unfold all_nodes in Hs at 2. rewrite length_app, length_fmap, Hl in Hs. lia.
Qed.

Section sort.
Context (objects : list Dependent).

(** What the loop over the vertices gives for the graph of the objects. *)
Lemma Sort_run :
  let edges := edges_of (build_graph objects).2 in
  match Sort objects with
  | Order l => NoDup l ∧ topological edges l ∧
      (∀ x, x ∈ l ↔ ∃ obj, obj ∈ objects ∧ reach edges (vertex obj) x)
  | CircularDependency c => ∃ obj, obj ∈ objects ∧ cycle_ok edges ∅ (vertex obj) (reverse c)
  | SortNoFuel => False
  end.
Proof.
  unfold Sort. pose proof (build_graph_spec objects) as Hg.
  destruct (build_graph objects) as [vertices edges]. destruct Hg as [-> Hedges]. simpl.
  set (nodes := list_to_set (all_nodes objects) : gset ref).
  assert (∀ u v, v ∈ edges_of edges u → v ∈ nodes) as Hnodes.
  { intros u v (obj & d & Ho & Hd & _ & <-)%Hedges. apply elem_of_list_to_set, elem_of_app. right.
    apply list_elem_of_bind. exists obj. split; [by apply list_elem_of_fmap_2|done]. }
  assert (search_inv (edges_of edges) ∅ (mkSearch ∅ [])) as Hinit.
  { split; simpl; try (intros u; rewrite lookup_empty; set_solver); [constructor|].
    intros [|] ? ? E; discriminate E. }
  assert (unmarked_nodes nodes (mkSearch ∅ []) <= sort_fuel objects) as Hf.
  { unfold unmarked_nodes. simpl. pose proof (all_nodes_size objects) as Hs. fold nodes in Hs.
    rewrite dom_empty_L, difference_empty_L. lia. }
  pose proof (vertices_loop_spec _ nodes Hnodes (sort_fuel objects) (vertex <$> objects) _ Hinit Hf) as Hv.
  specialize (Hv ltac:(intros u Hu; apply elem_of_list_to_set, elem_of_app; by left)).
  destruct (vertices_loop _ _ _ _) as [st|c|]; [..|done].
  - destruct Hv as (Hinv & Hin & Hout). split_and!; [apply (inv_nodup _ _ _ Hinv)|apply (inv_topo _ _ _ Hinv)|]. intros x. split.
    + intros [Hx|(u & (obj & -> & Ho)%list_elem_of_fmap & Hr)]%Hout; [by apply elem_of_nil in Hx|eauto].
    + intros (obj & Ho & Hr). assert (vertex obj ∈ sorted st) as Hobj.
      { apply Hin. right. by apply list_elem_of_fmap_2. }
      clear Ho. induction Hr as [u|u v w Hv Hr IH]; [done|]. apply IH.
      apply list_elem_of_split in Hobj as (l1 & l2 & E).
      pose proof (inv_topo _ _ _ Hinv _ _ _ E v Hv) as Hl. rewrite E. set_solver.
  - destruct Hv as (u & (obj & -> & Ho)%list_elem_of_fmap & Hc). eauto.
Qed.

Lemma edges_depends u v : v ∈ edges_of (build_graph objects).2 u ↔ depends objects u v.
Proof. pose proof (build_graph_spec objects) as Hg. destruct (build_graph objects). apply Hg. Qed.

(** *** The results *)

(** The dependencies of an object, direct and indirect, and itself. *)
Definition requires : ref → ref → Prop := rtc (depends objects).

Lemma reach_rtc u v : reach (edges_of (build_graph objects).2) u v ↔ requires u v.
Proof.
  split.
  - induction 1 as [|u v w Hv _ IH]; [done|]. eapply rtc_l; [by apply edges_depends|done].
  - induction 1 as [|u v w Hv _ IH]; [constructor|]. eapply reach_step; [by apply edges_depends|done].
Qed.

(** The path an error message prints: each object depends on the next, and
    the last one was there before. *)
Definition cyclic_path (c : list ref) : Prop :=
  (∀ i u v, c !! i = Some u → c !! S i = Some v → depends objects u v) ∧
  ∃ l v, c = l ++ [v] ∧ v ∈ l.

Lemma chain_lookup edges l i v u :
  chain edges l → l !! i = Some v → l !! S i = Some u → v ∈ edges u.
Proof.
  revert i. induction l as [|x [|y l] IH]; intros [|i] Hc H1 H2; simpl in *; try done.
  - destruct Hc as [Hc _]. by simplify_eq.
  - destruct Hc as [_ Hc]. by eapply IH.
Qed.

Lemma cycle_ok_path u c : cycle_ok (edges_of (build_graph objects).2) ∅ u (reverse c) → cyclic_path c.
Proof.
  intros (Hc & _ & v & l & E & _ & Hv). split.
  - intros i x y Hx Hy. apply edges_depends.
    assert (S i < length c) as Hlt by by eapply lookup_lt_Some.
    eapply (chain_lookup _ (reverse c) (length c - S (S i))); [done|..].
    + rewrite reverse_lookup by lia. replace (length c - S (length c - S (S i))) with (S i) by lia. done.
    + rewrite reverse_lookup by lia. replace (length c - S (S (length c - S (S i)))) with i by lia. done.
  - exists (reverse l), v. split; [|set_solver]. rewrite <- (reverse_involutive c), E. apply reverse_cons.
Qed.

Lemma Sort_correct :
  match Sort objects with
  | Order l =>
      NoDup l ∧ (∀ x, x ∈ l ↔ ∃ obj, obj ∈ objects ∧ requires (vertex obj) x) ∧
      (∀ l1 u l2, l = l1 ++ u :: l2 → ∀ v, depends objects u v → v ∈ l1)
  | CircularDependency c => cyclic_path c
  | SortNoFuel => False
  end.
Proof.
  pose proof Sort_run as Hr. cbn zeta in Hr. destruct (Sort objects) as [l|c|]; [|..|done].
  - destruct Hr as (Hnd & Htopo & Hin). split_and!; [done| |].
    + intros x. rewrite Hin. by setoid_rewrite reach_rtc.
    + intros l1 u l2 E v Hd. eapply Htopo; [done|]. by apply edges_depends.
  - destruct Hr as (obj & _ & Hc). by eapply cycle_ok_path.
Qed.
End sort.

(** C4. [Sort] returns a topological order of the objects and everything they
    depend on, each once: a dependency always comes before the object that
    needs it.  Otherwise its error prints a path of dependencies that runs in
    a circle.  It always ends. *)
Theorem Sort_spec objects :
  match Sort objects with
  | Order l =>
      NoDup l ∧ (∀ x, x ∈ l ↔ ∃ obj, obj ∈ objects ∧ requires objects (vertex obj) x) ∧
      (∀ l1 u l2, l = l1 ++ u :: l2 → ∀ v, depends objects u v → v ∈ l1)
  | CircularDependency c => cyclic_path objects c
  | SortNoFuel => False
  end.
Proof. apply Sort_correct. Qed.

(** Following dependencies leads towards the front of the order. *)
Lemma tc_earlier objects l u v :
  (∀ l1 u l2, l = l1 ++ u :: l2 → ∀ v, depends objects u v → v ∈ l1) →
  tc (depends objects) u v → ∀ l1 l2, l = l1 ++ u :: l2 → v ∈ l1.
Proof.
  intros Htopo. induction 1 as [u v Hd|u w v Hd _ IH]; intros l1 l2 E; [by eapply Htopo|].
  pose proof (Htopo _ _ _ E _ Hd) as Hw. apply list_elem_of_split in Hw as (k1 & k2 & ->).
  rewrite <- app_assoc in E. specialize (IH _ _ E). set_solver.
Qed.

Lemma path_tc objects (c : list ref) i n u v :
  (∀ i u v, c !! i = Some u → c !! S i = Some v → depends objects u v) →
  c !! i = Some u → c !! (i + S n) = Some v → tc (depends objects) u v.
Proof.
  intros Hpath. revert v. induction n as [|n IH]; intros v Hu Hv.
  - apply tc_once. eapply Hpath; [done|]. by rewrite Nat.add_1_r in Hv.
  - destruct (lookup_lt_is_Some_2 c (i + S n)) as [w Hw].
    { apply lookup_lt_Some in Hv. lia. }
    eapply tc_r; [by apply IH|]. eapply Hpath; [exact Hw|]. by rewrite <- Hv; f_equal; lia.
Qed.

(** [Sort] fails exactly when the dependencies have a cycle. *)
Theorem Sort_acyclic_iff objects :
  (∃ l, Sort objects = Order l) ↔ ∀ u, ¬ tc (depends objects) u u.
Proof.
  pose proof (Sort_correct objects) as Hs. split.
  - intros [l E] u Hu. rewrite E in Hs. destruct Hs as (Hnd & Hin & Htopo).
    assert (u ∈ l) as Hul.
    { apply Hin. assert (∃ w, depends objects u w) as (w & obj & d & Ho & _ & <- & _).
      { inversion Hu; eauto. }
      exists obj. split; [done|reflexivity]. }
    apply list_elem_of_split in Hul as (l1 & l2 & ->).
    pose proof (tc_earlier _ _ _ _ Htopo Hu _ _ eq_refl) as Hl1.
    apply NoDup_app in Hnd as (_ & Hdis & _). apply (Hdis u Hl1). left.
  - intros Hac. destruct (Sort objects) as [l|c|]; [by eauto| |done].
    destruct Hs as [Hpath (l & v & -> & Hv)]. exfalso. apply list_elem_of_lookup in Hv as [i Hi].
    pose proof (lookup_lt_Some _ _ _ Hi) as Hlt. apply (Hac v).
    apply (path_tc objects (l ++ [v]) i (length l - S i)); [done| |].
    + by rewrite lookup_app_l.
    + replace (i + S (length l - S i)) with (length l) by lia. apply list_lookup_middle. done.
Qed.
