(* ===== verification/Reconcile.v ===== *)
(** * The result of a reconciliation ([runtime/reconcile/result.go])

    At the end of a reconciliation its result, its error and the conditions of
    the object are turned into a status that follows the kstatus conventions. *)

From S2P Require Import Prelude GoStd Conditions ConditionsMerge.

(** ** The code *)

(** [src/apis/meta/conditions.go:79-83 SucceededReason] *)
Definition SucceededReason : string := "Succeeded".
(** [src/apis/meta/conditions.go:85-89 FailedReason] *)
Definition FailedReason : string := "Failed".

(** [src/apis/meta/annotations.go:19-33 ReconcileRequestAnnotation] *)
Definition ReconcileRequestAnnotation : string := "reconcile.fluxcd.io/requestedAt".

(** [src/apis/meta/annotations.go:35-40 ReconcileAnnotationValue] *)
Definition ReconcileAnnotationValue (annotations : gmap string string) : option string :=
  annotations !! ReconcileRequestAnnotation.

(** [src/runtime/reconcile/result.go:30-44 Conditions]
    An empty list stands for a nil slice. *)
Record SummaryConditions := mkSummaryConditions {
  Target : string;
  Owned : list string;
  Summarize : list string;
  NegativePolarity : list string }.

(** [src/runtime/reconcile/result.go:46-57 SuccessType] *)
Inductive SuccessType := SuccessWithRequeue | SuccessNoRequeue.

#[global] Instance SuccessType_eq_dec : EqDecision SuccessType.
Proof. solve_decision. Defined.

(** The options [AddPatchOptions] makes for the patch helper. *)
Inductive patch_Option :=
  | WithOwnedConditionsOpt (Conditions : list string)
  | WithFieldOwner (owner : string)
  | WithStatusObservedGeneration.

Section reconcile.
(** The result of a reconciler, a type of the controller framework: its zero
    value requests nothing. *)
Context (Result : Type) (zero : Result) (IsZero : Result → bool).
Context `{SortFunc}.

(** An error is the text it prints. *)
Abbreviation err := (option string) (only parsing).

(** [src/runtime/reconcile/result.go:59-61 IsResultSuccess] *)
Definition IsResultSuccess : Type := Result → err → bool.

(** [src/runtime/reconcile/result.go:63-70 ResultFinalizer] *)
Record ResultFinalizer := mkResultFinalizer {
  isSuccess : IsResultSuccess;
  readySuccessMsg : string;
  rs_conditions : list SummaryConditions }.

(** [src/runtime/reconcile/result.go:72-79 NewResultFinalizer] *)
Definition NewResultFinalizer (isSuccess : IsResultSuccess) (readySuccessMsg : string)
    (conditions : list SummaryConditions) : ResultFinalizer :=
  mkResultFinalizer isSuccess readySuccessMsg conditions.

(** [src/runtime/reconcile/result.go:218-227 determineSuccessType] *)
Definition determineSuccessType (isSuccess : IsResultSuccess) : SuccessType :=
  if isSuccess zero None then SuccessNoRequeue else SuccessWithRequeue.

Definition is_some (e : err) : bool := match e with Some _ => true | None => false end.

(** The analysis of an unsuccessful result, or of any result of a reconciler
    that does not requeue.
    [src/runtime/reconcile/result.go:103-122 ResultFinalizer.Finalize] *)
Definition analyze_stalled (rs : ResultFinalizer) (now : Z) (res : Result) (obj : object) : object :=
  let obj := if negb (IsZero res) && negb (isSuccess rs res None)
             then Delete obj StalledCondition else obj in
  let overwriteReady := IsUnknown obj ReadyCondition || IsTrue obj ReadyCondition in
  match Get obj StalledCondition with
  | Some sc => if IsTrue obj StalledCondition && overwriteReady
               then MarkFalse now obj ReadyCondition (Reason sc) (Message sc) else obj
  | None => obj
  end.

(** The marks of a reconciliation error.
    [src/runtime/reconcile/result.go:130-140 ResultFinalizer.Finalize] *)
Definition mark_error (now : Z) (recErr : err) (obj : object) : object :=
  match recErr with
  | Some e => if IsUnknown obj ReadyCondition || IsTrue obj ReadyCondition
              then MarkFalse now obj ReadyCondition FailedReason e else obj
  | None => obj
  end.

(** The summaries of custom conditions.
    [src/runtime/reconcile/result.go:142-150 ResultFinalizer.Finalize] *)
Fixpoint summarize (clock : nat → Z) (i : nat) (cs : list SummaryConditions) (obj : object) : object :=
  match cs with
  | [] => obj
  | c :: cs =>
      summarize clock (S i) cs
        (SetSummary (clock i) obj (Target c)
           [WithConditions (Summarize c); WithNegativePolarityConditions (NegativePolarity c)])
  end.

(** [src/runtime/reconcile/result.go:81-183 ResultFinalizer.Finalize]
    The object, the error to return, and the annotation value to record as
    handled; the clock gives the times of the marks. *)
Definition Finalize (rs : ResultFinalizer) (clock : nat → Z) (annotations : gmap string string)
    (obj : object) (res : Result) (recErr : err) : object * err * option string :=
  let successType := determineSuccessType (isSuccess rs) in
  let successResult := isSuccess rs res recErr in
  let obj := if is_some recErr then Delete obj StalledCondition else obj in
  let obj := if negb successResult || bool_decide (successType = SuccessNoRequeue)
             then analyze_stalled rs (clock 0) res obj else obj in
  let obj := if successResult || IsTrue obj StalledCondition
             then Delete obj ReconcilingCondition else obj in
  let obj := mark_error (clock 1) recErr obj in
  let obj := summarize clock 2 (rs_conditions rs) obj in
  let recErr :=
    if successResult && bool_decide (successType ≠ SuccessNoRequeue) &&
       negb (IsUnknown obj ReadyCondition) && IsFalse obj ReadyCondition && negb (IsStalled obj)
    then Some (GetMessage obj ReadyCondition) else recErr in
  let obj :=
    if IsUnknown obj ReadyCondition && isSuccess rs res recErr && negb (IsReconciling obj) &&
       negb (IsStalled obj)
    then MarkTrue (clock (2 + length (rs_conditions rs))) obj ReadyCondition SucceededReason (readySuccessMsg rs) else obj in
  (obj, recErr, ReconcileAnnotationValue annotations).

(** [src/runtime/reconcile/result.go:185-198 ProgressiveStatus] *)
Definition ProgressiveStatus (clock : nat → Z) (drift : bool) (obj : object) (reason message : string)
    : object :=
  let obj := MarkReconciling (clock 0) obj reason message in
  if drift || negb (Has obj ReadyCondition) || IsUnknown obj ReadyCondition
  then MarkUnknown (clock 1) obj ReadyCondition reason message else obj.

(** [src/runtime/reconcile/result.go:200-216 AddPatchOptions] *)
Definition AddPatchOptions (obj : object) (opts : list patch_Option) (ownedConditions : list string)
    (fieldOwner : string) : list patch_Option :=
  let opts := opts ++ [WithOwnedConditionsOpt ownedConditions; WithFieldOwner fieldOwner] in
  if IsStalled obj || IsReady obj then opts ++ [WithStatusObservedGeneration] else opts.

(** ** What holds afterwards *)

(** The condition [t] is the same in both objects. *)
Definition same_at (t : string) (o o' : object) : Prop := Get o' t = Get o t.

Lemma Mark_correct now o (c : Condition) :
  wf_conditions o →
  wf_conditions (Set_obj now o (Some c)) ∧ Get (Set_obj now o (Some c)) (Type_ c) = Some (stored now o c) ∧
  ∀ t, t ≠ Type_ c → same_at t o (Set_obj now o (Some c)).
Proof. intros [Hnd _]. destruct (Set_correct now o c Hnd) as (? & ? & ? & _). by split_and!. Qed.

Lemma summary_type o t options r : summary o t options = Some r → Type_ r = t.
Proof.
  unfold summary. intros E. match type of E with merge ?l ?t ?o = _ => pose proof (merge_correct l t o) as Hm end.
  rewrite E in Hm. by destruct Hm as (m & _ & _ & ? & _).
Qed.

Lemma SetSummary_other now o t options :
  wf_conditions o →
  wf_conditions (SetSummary now o t options) ∧ ∀ t', t' ≠ t → same_at t' o (SetSummary now o t options).
Proof.
  intros Hwf. unfold SetSummary. destruct (summary o t options) as [r|] eqn:E; [|by split].
  destruct (Mark_correct now o r Hwf) as (? & _ & Hother). apply summary_type in E as <-. by split.
Qed.

(** No summary replaces the conditions that the finalizer manages. *)
Definition plain_targets (cs : list SummaryConditions) : Prop :=
  Forall (λ c, Target c ≠ StalledCondition ∧ Target c ≠ ReconcilingCondition) cs.

Lemma summarize_other clock i cs o :
  wf_conditions o → plain_targets cs →
  wf_conditions (summarize clock i cs o) ∧
  same_at StalledCondition o (summarize clock i cs o) ∧ same_at ReconcilingCondition o (summarize clock i cs o).
Proof.
  intros Hwf Hcs. revert i o Hwf. induction Hcs as [|c cs [H1 H2] _ IH]; intros i o Hwf; simpl; [done|].
  set (opts := [WithConditions (Summarize c); WithNegativePolarityConditions (NegativePolarity c)]).
  destruct (SetSummary_other (clock i) o (Target c) opts Hwf) as [Hwf1 Hother].
  destruct (IH (S i) _ Hwf1) as (Hwf2 & Hs & Hr). unfold same_at in *.
  split_and!; [done|by rewrite Hs, Hother|by rewrite Hr, Hother].
Qed.

Lemma Delete_same o t :
  wf_conditions o →
  wf_conditions (Delete o t) ∧ Get (Delete o t) t = None ∧ ∀ t', t' ≠ t → same_at t' o (Delete o t).
Proof. intros Hwf. destruct (Delete_correct o t Hwf) as (? & ? & ? & _). by split_and!. Qed.

Lemma analyze_stalled_spec rs now res o :
  wf_conditions o →
  wf_conditions (analyze_stalled rs now res o) ∧
  (Get (analyze_stalled rs now res o) StalledCondition = Get o StalledCondition ∨
   Get (analyze_stalled rs now res o) StalledCondition = None) ∧
  (IsTrue (analyze_stalled rs now res o) StalledCondition = true →
   IsTrue (analyze_stalled rs now res o) ReadyCondition = false).
Proof.
  intros Hwf. unfold analyze_stalled.
  set (o1 := if _ && _ then Delete o StalledCondition else o).
  assert (wf_conditions o1 ∧ (Get o1 StalledCondition = Get o StalledCondition ∨
    Get o1 StalledCondition = None)) as [Hwf1 Hst].
  { unfold o1. case_match; [|by auto]. destruct (Delete_same o StalledCondition Hwf) as (? & ? & _). auto. }
  clearbody o1. destruct (Get o1 StalledCondition) as [sc|] eqn:Esc.
  2:{ split_and!; [done|by auto|]. unfold IsTrue at 1. by rewrite Esc. }
  destruct (IsTrue o1 StalledCondition && _) eqn:Ecase.
  - destruct (Mark_correct now o1 (FalseCondition ReadyCondition (Reason sc) (Message sc)) Hwf1)
      as (Hwf2 & Hget & Hother). specialize (Hother StalledCondition ltac:(done)). unfold same_at in Hother.
    unfold MarkFalse. split_and!; [done|by rewrite Hother, Esc|]. intros _. unfold IsTrue.
    cbn [Type_ FalseCondition] in Hget. by rewrite Hget.
  - split_and!; [done|by rewrite Esc|]. intros Ht. rewrite Ht in Ecase. simpl in Ecase.
    by apply orb_false_iff in Ecase as [_ ?].
Qed.

Lemma mark_error_spec now recErr o :
  wf_conditions o →
  wf_conditions (mark_error now recErr o) ∧
  (∀ t, t ≠ ReadyCondition → same_at t o (mark_error now recErr o)) ∧
  (recErr ≠ None → IsTrue (mark_error now recErr o) ReadyCondition = false ∧
     IsUnknown (mark_error now recErr o) ReadyCondition = false).
Proof.
  intros Hwf. unfold mark_error. destruct recErr as [e|]; [|done].
  destruct (IsUnknown o ReadyCondition || IsTrue o ReadyCondition) eqn:E.
  - destruct (Mark_correct now o (FalseCondition ReadyCondition FailedReason e) Hwf) as (? & Hget & Hother).
    unfold MarkFalse. split_and!; [done|done|]. intros _. unfold IsTrue, IsUnknown.
    cbn [Type_ FalseCondition] in Hget. by rewrite Hget.
  - apply orb_false_iff in E as [? ?]. by split_and!.
Qed.

Lemma Has_same o o' t : same_at t o o' → Has o' t = Has o t.
Proof. unfold same_at, Has. by intros ->. Qed.
Lemma IsTrue_same o o' t : same_at t o o' → IsTrue o' t = IsTrue o t.
Proof. unfold same_at, IsTrue. by intros ->. Qed.

Section finalize.
Context (rs : ResultFinalizer) (clock : nat → Z) (annotations : gmap string string).
Context (obj : object) (res : Result) (recErr : err).
Context (Hwf : wf_conditions obj) (Htargets : plain_targets (rs_conditions rs)).

(** The object before the summaries. *)
Definition marked : object :=
  let successResult := isSuccess rs res recErr in
  let obj := if is_some recErr then Delete obj StalledCondition else obj in
  let obj := if negb successResult || bool_decide (determineSuccessType (isSuccess rs) = SuccessNoRequeue)
             then analyze_stalled rs (clock 0) res obj else obj in
  let obj := if successResult || IsTrue obj StalledCondition
             then Delete obj ReconcilingCondition else obj in
  mark_error (clock 1) recErr obj.

Lemma marked_spec :
  wf_conditions marked ∧
  (recErr ≠ None → Has marked StalledCondition = false ∧ IsTrue marked ReadyCondition = false ∧
     IsUnknown marked ReadyCondition = false) ∧
  (isSuccess rs res recErr = true ∨ IsTrue marked StalledCondition = true →
     Has marked ReconcilingCondition = false).
Proof.
  unfold marked. cbn zeta. set (o1 := if is_some recErr then Delete obj StalledCondition else obj).
  assert (wf_conditions o1 ∧ (recErr ≠ None → Get o1 StalledCondition = None)) as [Hwf1 Hst1].
  { unfold o1. destruct recErr; simpl; [|done].
    by destruct (Delete_same obj StalledCondition Hwf) as (? & ? & _). }
  clearbody o1. set (o2 := if negb _ || _ then analyze_stalled rs (clock 0) res o1 else o1).
  assert (wf_conditions o2 ∧ (recErr ≠ None → Get o2 StalledCondition = None)) as [Hwf2 Hst2].
  { unfold o2. case_match; [|done]. destruct (analyze_stalled_spec rs (clock 0) res o1 Hwf1) as (? & Hg & _).
    split; [done|]. intros Herr. destruct Hg as [->|?]; auto. }
  clearbody o2. set (o3 := if isSuccess rs res recErr || _ then Delete o2 ReconcilingCondition else o2).
  assert (wf_conditions o3 ∧ same_at StalledCondition o2 o3 ∧
    (isSuccess rs res recErr = true ∨ IsTrue o2 StalledCondition = true → Get o3 ReconcilingCondition = None))
    as (Hwf3 & Hst3 & Hrec3).
  { unfold o3. destruct (isSuccess rs res recErr || IsTrue o2 StalledCondition) eqn:E.
    - destruct (Delete_same o2 ReconcilingCondition Hwf2) as (? & ? & Ho). split_and!; [done|by apply Ho|done].
    - apply orb_false_iff in E as [-> ->]. split_and!; [done|done|]. by intros [?|?]. }
  clearbody o3. destruct (mark_error_spec (clock 1) recErr o3 Hwf3) as (Hwf4 & Hother & Hready).
  pose proof (Hother StalledCondition ltac:(done)) as Hst4.
  pose proof (Hother ReconcilingCondition ltac:(done)) as Hrec4.
  assert (same_at StalledCondition o2 (mark_error (clock 1) recErr o3)) as Hst by (unfold same_at in *; congruence).
  split_and!; [done| |].
  - intros Herr. destruct (Hready Herr). split_and!; [|done|done].
    rewrite (Has_same _ _ _ Hst), Has_Get. auto.
  - rewrite (IsTrue_same _ _ _ Hst), (Has_same _ _ _ Hrec4), Has_Get. auto.
Qed.

(** The object after the summaries, the error, and the object at the end. *)
Definition summarized : object := summarize clock 2 (rs_conditions rs) marked.
Definition final_err : err :=
  if isSuccess rs res recErr && bool_decide (determineSuccessType (isSuccess rs) ≠ SuccessNoRequeue) &&
     negb (IsUnknown summarized ReadyCondition) && IsFalse summarized ReadyCondition &&
     negb (IsStalled summarized)
  then Some (GetMessage summarized ReadyCondition) else recErr.
Definition final_obj : object :=
  if IsUnknown summarized ReadyCondition && isSuccess rs res final_err &&
     negb (IsReconciling summarized) && negb (IsStalled summarized)
  then MarkTrue (clock (2 + length (rs_conditions rs))) summarized ReadyCondition SucceededReason
         (readySuccessMsg rs)
  else summarized.

Lemma Finalize_eq :
  Finalize rs clock annotations obj res recErr =
  (final_obj, final_err, ReconcileAnnotationValue annotations).
Proof. reflexivity. Qed.

Lemma final_spec :
  wf_conditions final_obj ∧ same_at StalledCondition marked final_obj ∧
  same_at ReconcilingCondition marked final_obj ∧
  (final_obj = summarized ∨ IsUnknown summarized ReadyCondition = true ∧ IsTrue final_obj ReadyCondition = true).
Proof.
  destruct marked_spec as (Hwf4 & _).
  destruct (summarize_other clock 2 (rs_conditions rs) marked Hwf4 Htargets) as (Hwf5 & Hst & Hrec).
  fold summarized in Hwf5, Hst, Hrec. unfold final_obj. destruct (_ && _ && _ && _) eqn:E; [|by auto].
  rewrite !andb_true_iff in E. destruct E as [[[E _] _] _]. unfold MarkTrue.
  match goal with |- context [Set_obj ?now _ (Some ?c)] =>
    destruct (Mark_correct now summarized c Hwf5) as (Hwf6 & Hget & Hother) end.
  pose proof (Hother StalledCondition ltac:(done)). pose proof (Hother ReconcilingCondition ltac:(done)).
  unfold same_at in *. split_and!; [done|congruence|congruence|]. right. split; [done|].
  unfold IsTrue. cbn [Type_ TrueCondition] in Hget. by rewrite Hget.
Qed.
End finalize.

(** C7. [Finalize] leaves a status that follows kstatus, whatever the result,
    the error and the custom summaries (which may not replace Stalled and
    Reconciling): an error means the object is not stalled, a success that it
    is not reconciling, Stalled and Reconciling exclude each other, an error
    is never swallowed, and without custom summaries the object is not ready
    after an error. *)
Theorem Finalize_kstatus rs clock annotations obj res recErr :
  wf_conditions obj → plain_targets (rs_conditions rs) →
  let '(obj', err', handled) := Finalize rs clock annotations obj res recErr in
  wf_conditions obj' ∧ handled = ReconcileAnnotationValue annotations ∧
  (recErr ≠ None → Has obj' StalledCondition = false ∧ err' ≠ None) ∧
  (isSuccess rs res recErr = true → Has obj' ReconcilingCondition = false) ∧
  (IsTrue obj' StalledCondition = true → Has obj' ReconcilingCondition = false) ∧
  (rs_conditions rs = [] → recErr ≠ None → IsTrue obj' ReadyCondition = false ∧ IsReady obj' = false).
Proof.
  intros Hwf Ht. rewrite Finalize_eq.
  destruct (marked_spec rs clock obj res recErr Hwf) as (_ & Herr & Hrec).
  destruct (final_spec rs clock obj res recErr Hwf Ht) as (Hwf' & Hst & Hrc & Hready).
  rewrite (Has_same _ _ _ Hst), (Has_same _ _ _ Hrc), (IsTrue_same _ _ _ Hst).
  split_and!; [done|done| |auto|auto|].
  - intros Hne. split; [by apply Herr|]. unfold final_err. by case_match.
  - intros Hnil Hne. destruct (Herr Hne) as (_ & Htrue & Hunk).
    assert (summarized rs clock obj res recErr = marked rs clock obj res recErr) as Hsum.
    { unfold summarized. by rewrite Hnil. }
    rewrite Hsum in Hready. destruct Hready as [->|[? _]]; [|congruence].
    split; [done|]. unfold IsReady. by rewrite Htrue, andb_false_r.
Qed.

(** A success that is reported as such is visible on the object: if a
    reconciler that requeues succeeds and [Finalize] returns no error, the
    object is ready, unless it is stalled or its Ready condition has a status
    other than True, False and Unknown. *)
Theorem Finalize_success_ready rs clock annotations obj res recErr :
  wf_conditions obj → plain_targets (rs_conditions rs) →
  determineSuccessType (isSuccess rs) = SuccessWithRequeue → isSuccess rs res recErr = true →
  let '(obj', err', _) := Finalize rs clock annotations obj res recErr in
  err' = None →
  IsReady obj' = true ∨ IsTrue obj' StalledCondition = true ∨
  (IsTrue obj' ReadyCondition = false ∧ IsFalse obj' ReadyCondition = false ∧
   IsUnknown obj' ReadyCondition = false).
Proof.
  intros Hwf Ht Htype Hsucc. rewrite Finalize_eq. intros Hnone.
  destruct (marked_spec rs clock obj res recErr Hwf) as (Hwf4 & _ & Hrec). specialize (Hrec (or_introl Hsucc)).
  destruct (summarize_other clock 2 (rs_conditions rs) _ Hwf4 Ht) as (Hwf5 & Hst5 & Hrc5).
  destruct (final_spec rs clock obj res recErr Hwf Ht) as (_ & Hst & Hrc & _).
  fold (summarized rs clock obj res recErr) in Hwf5, Hst5, Hrc5.
  set (o' := final_obj rs clock obj res recErr) in *. set (o5 := summarized rs clock obj res recErr) in *.
  rewrite (IsTrue_same _ _ _ Hst). destruct (IsTrue (marked rs clock obj res recErr) StalledCondition) eqn:Hs; [by auto|].
  assert (IsTrue (marked rs clock obj res recErr) ReconcilingCondition = false) as Hr.
  { apply Has_Get in Hrec. unfold IsTrue. by rewrite Hrec. }
  assert (∀ o, same_at StalledCondition (marked rs clock obj res recErr) o →
    same_at ReconcilingCondition (marked rs clock obj res recErr) o →
    IsStalled o = false ∧ IsReconciling o = false) as Hkeep.
  { intros o H1 H2. unfold IsStalled, IsReconciling.
    by rewrite (IsTrue_same _ _ _ H1), (IsTrue_same _ _ _ H2), Hs, Hr. }
  destruct (Hkeep o' Hst Hrc) as [Hs' Hr'], (Hkeep o5 Hst5 Hrc5) as [Hs5 Hr5].
  destruct (IsTrue o' ReadyCondition) eqn:Hready; [left; unfold IsReady; by rewrite Hs', Hr', Hready|].
  right; right. split; [done|].
  assert (isSuccess rs res (final_err rs clock obj res recErr) = true) as Hsucc'.
  { rewrite Hnone. unfold final_err in Hnone. case_match; [done|by subst]. }
  assert (IsUnknown o5 ReadyCondition = false ∧ o' = o5) as [Hunk ->].
  { unfold o', final_obj in Hready |- *. fold o5 in Hready |- *. rewrite Hsucc', Hs5, Hr5 in Hready |- *.
    destruct (IsUnknown o5 ReadyCondition); [|done]. exfalso. revert Hready. cbn [andb negb]. unfold MarkTrue.
    match goal with |- context [Set_obj ?now _ (Some ?c)] =>
      destruct (Mark_correct now o5 c Hwf5) as (_ & Hget & _) end.
    unfold IsTrue. cbn [Type_ TrueCondition] in Hget. by rewrite Hget. }
  split; [|done]. unfold final_err in Hnone. fold o5 in Hnone.
  rewrite Hsucc, Htype, Hunk, Hs5, bool_decide_true in Hnone by done. cbn [andb negb] in Hnone.
  by destruct (IsFalse o5 ReadyCondition).
Qed.

(** [ProgressiveStatus] announces work in progress: the object is
    reconciling and not stalled, it is not ready, and the Ready condition is
    Unknown if it was missing or unknown or a drift was detected, and
    otherwise what it was. *)
Theorem ProgressiveStatus_spec clock drift obj reason message :
  wf_conditions obj →
  let obj' := ProgressiveStatus clock drift obj reason message in
  wf_conditions obj' ∧ IsReconciling obj' = true ∧ Has obj' StalledCondition = false ∧
  IsReady obj' = false ∧
  (if drift || IsUnknown obj ReadyCondition
   then Has obj' ReadyCondition = true ∧ IsUnknown obj' ReadyCondition = true
   else Get obj' ReadyCondition = Get obj ReadyCondition).
Proof.
  intros Hwf obj'. unfold obj', ProgressiveStatus.
  destruct (mark_spec (clock 0) obj StalledCondition ReconcilingCondition reason message Hwf)
    as (Hwf1 & Hrec & Hst & Hother); [done|].
  change (MarkTrue (clock 0) (Delete obj StalledCondition) ReconcilingCondition reason message)
    with (MarkReconciling (clock 0) obj reason message) in *.
  set (o1 := MarkReconciling (clock 0) obj reason message) in *. clearbody o1.
  assert (same_at ReadyCondition obj o1) as Hready by by apply Hother.
  assert (∀ o, same_at ReconcilingCondition o1 o → same_at StalledCondition o1 o →
    IsReconciling o = true ∧ Has o StalledCondition = false ∧ IsReady o = false) as Hmarks.
  { intros o H1 H2. assert (IsTrue o1 StalledCondition = false) as Hs.
    { apply Has_Get in Hst. unfold IsTrue. by rewrite Hst. }
    unfold IsReady, IsReconciling, IsStalled.
    by rewrite (Has_same _ _ _ H2), (IsTrue_same _ _ _ H1), (IsTrue_same _ _ _ H2), Hrec, Hs. }
  assert (negb (Has o1 ReadyCondition) || IsUnknown o1 ReadyCondition = IsUnknown obj ReadyCondition) as Hunk.
  { unfold same_at in Hready. unfold Has, IsUnknown. rewrite Hready. by destruct (Get obj ReadyCondition). }
  rewrite <- orb_assoc, Hunk. destruct (drift || IsUnknown obj ReadyCondition).
  - unfold MarkUnknown. match goal with |- context [Set_obj ?now _ (Some ?c)] =>
      destruct (Mark_correct now o1 c Hwf1) as (Hwf2 & Hget & Ho) end.
    destruct (Hmarks _ (Ho ReconcilingCondition ltac:(done)) (Ho StalledCondition ltac:(done))) as (? & ? & ?).
    cbn [Type_ UnknownCondition] in Hget. unfold Has, IsUnknown in *. split_and!; try done; by rewrite Hget.
  - destruct (Hmarks o1 eq_refl eq_refl) as (? & ? & ?). by split_and!.
Qed.
End reconcile.

(** A reconciler that requeues: success is a positive period without error. *)
Definition sample_finalizer : ResultFinalizer Z :=
  NewResultFinalizer Z (λ res e, (0 <? res)%Z && negb (is_some e)) "stored artifact"
    [mkSummaryConditions "Verified" ["Verified"] ["SourceVerified"] []].

Lemma sample_targets : plain_targets (rs_conditions Z sample_finalizer).
Proof. by repeat constructor. Qed.

Lemma Finalize_kstatus_witness :
  let '(obj', err', _) := Finalize Z 0%Z (Z.eqb 0) sample_finalizer (λ _, 1%Z) ∅
    sample_object 0%Z (Some "timeout") in
  Has obj' StalledCondition = false ∧ err' ≠ None.
Proof.
  pose proof (Finalize_kstatus Z 0%Z (Z.eqb 0) sample_finalizer (λ _, 1%Z) ∅ sample_object 0%Z (Some "timeout")
    sample_object_wf sample_targets) as Hk.
  destruct (Finalize _ _ _ _ _ _ _ _ _) as [[obj' err'] h]. destruct Hk as (_ & _ & Hk & _). by apply Hk.
Defined.

Lemma Finalize_success_ready_witness :
  let '(obj', err', _) := Finalize Z 0%Z (Z.eqb 0) sample_finalizer (λ _, 1%Z) ∅
    (mkObject "GitRepository" "app" 1 []) 5%Z None in
  err' = None ∧
  (IsReady obj' = true ∨ IsTrue obj' StalledCondition = true ∨
   (IsTrue obj' ReadyCondition = false ∧ IsFalse obj' ReadyCondition = false ∧
    IsUnknown obj' ReadyCondition = false)).
Proof.
  pose proof (Finalize_success_ready Z 0%Z (Z.eqb 0) sample_finalizer (λ _, 1%Z) ∅
    (mkObject "GitRepository" "app" 1 []) 5%Z None) as Hk.
  assert (wf_conditions (mkObject "GitRepository" "app" 1 [])) as Hwf by (split; constructor).
  specialize (Hk Hwf sample_targets eq_refl eq_refl).
  assert ((Finalize Z 0%Z (Z.eqb 0) sample_finalizer (λ _, 1%Z) ∅
    (mkObject "GitRepository" "app" 1 []) 5%Z None).1.2 = None) as E by by vm_compute.
  destruct (Finalize _ _ _ _ _ _ _ _ _) as [[obj' err'] h]. simpl in E. split; [done|]. by apply Hk.
Defined.

Lemma ProgressiveStatus_spec_witness :
  IsReconciling (ProgressiveStatus (λ _, 1%Z) false sample_object "Progressing" "fetching") = true ∧
  Get (ProgressiveStatus (λ _, 1%Z) false sample_object "Progressing" "fetching") ReadyCondition =
    Get sample_object ReadyCondition.
Proof.
  destruct (ProgressiveStatus_spec (λ _, 1%Z) false sample_object "Progressing" "fetching" sample_object_wf)
    as (_ & ? & _ & _ & ?). by split.
Defined.
