(* ===== verification/ConditionsCheck.v ===== *)
(** * Checks of a status ([runtime/conditions/check])

    The rules that the status of an object is checked against, as failures and
    warnings.  Parsing of the context from YAML, printing and the test helper
    are left out; the conversion that finds [status.observedGeneration] is a
    parameter of each check. *)

From S2P Require Import Prelude GoStd Conditions ConditionsMerge Reconcile.

(** [src/runtime/conditions/check/conditions.go:29-38 Conditions] *)
Record CheckConditions := mkCheckConditions { NegativePolarity : list string; PositivePolarity : list string }.

(** The errors of the checks, with what they list. *)
Inductive check_error :=
  | FAIL0001 (l : list string) | FAIL0002 | FAIL0003 | FAIL0004 | FAIL0005 | FAIL0006 | FAIL0007
  | FAIL0008 (l : list string) | FAIL0009 (l : list string) | FAIL0011
  | WARN0001 (l : list string) | WARN0002 (t : string) | WARN0003 | WARN0004 | WARN0005 (l : list string)
  | GenerationErr (check : nat) (e : string) | NoNegativePolarity | NoConditions | FetchErr (e : string).

(** What is checked: the object, and its observed generation or the error of
    finding it. *)
Record checked := mkChecked { c_obj : object; c_observed : string + Z }.

(** A check sees the context, which may be nil: reading it then panics. *)
Definition checkFunc : Type := checked → option CheckConditions → res (option check_error).

(** [src/runtime/conditions/check/conditions.go:60-66 HighestNegativePriorityCondition] *)
Fixpoint highest_loop (ncs : list string) (condns : list Condition) : option Condition :=
  match ncs with
  | [] => None
  | nc :: ncs => match find_type condns nc with Some c => Some c | None => highest_loop ncs condns end
  end.
(** [src/runtime/conditions/check/conditions.go:50-68 HighestNegativePriorityCondition] *)
Definition HighestNegativePriorityCondition (conditions : option CheckConditions) (condns : list Condition)
    : check_error + option Condition :=
  match conditions with
  | None => inl NoNegativePolarity
  | Some conditions =>
      if length (NegativePolarity conditions) =? 0 then inl NoNegativePolarity
      else inr (highest_loop (NegativePolarity conditions) condns)
  end.

(** [src/runtime/conditions/check/conditions.go:84-93 isNegativePolarityCondition] *)
Fixpoint isNegativePolarityCondition (context : list string) (condn : Condition) : bool :=
  match context with
  | [] => false
  | c :: context => if string_eqb c (Type_ condn) then true else isNegativePolarityCondition context condn
  end.

(** An error if some conditions were collected. *)
Definition report (mk : list string → check_error) (l : list string) : option check_error :=
  if 0 <? length l then Some (mk l) else None.
(** The types of the conditions that are collected, in order. *)
Definition collect (P : Condition → bool) (o : object) : list string :=
  Type_ <$> filter (λ c, P c = true) (GetConditions o).

(** ** Failures ([fail.go]) *)

(** [src/runtime/conditions/check/fail.go:29-56 check_FAIL0001] *)
Definition check_FAIL0001 : checkFunc := λ x condns,
  if negb (IsTrue (c_obj x) ReadyCondition) then Val None
  else match condns with
       | None => Panics
       | Some condns =>
           Val (if length (NegativePolarity condns) =? 0 then None
                else report FAIL0001 (collect (λ c, isNegativePolarityCondition (NegativePolarity condns) c &&
                       string_eqb (Status c) ConditionTrue) (c_obj x)))
       end.

(** [src/runtime/conditions/check/fail.go:58-64 check_FAIL0002] *)
Definition check_FAIL0002 : checkFunc := λ x _,
  Val (if negb (Has (c_obj x) ReadyCondition) then Some FAIL0002 else None).

(** Ready must be False when a condition is True. *)
Definition not_ready_when (t : string) (e : check_error) (o : object) : option check_error :=
  match Get o t with
  | None => None
  | Some c =>
      match Get o ReadyCondition with
      | None => None
      | Some ready =>
          if string_eqb (Status c) ConditionTrue && negb (string_eqb (Status ready) ConditionFalse)
          then Some e else None
      end
  end.
(** [src/runtime/conditions/check/fail.go:66-84 check_FAIL0003] *)
Definition check_FAIL0003 : checkFunc := λ x _, Val (not_ready_when ReconcilingCondition FAIL0003 (c_obj x)).
(** [src/runtime/conditions/check/fail.go:86-101 check_FAIL0004] *)
Definition check_FAIL0004 : checkFunc := λ x _, Val (not_ready_when StalledCondition FAIL0004 (c_obj x)).

(** [src/runtime/conditions/check/fail.go:103-110 check_FAIL0005] *)
Definition check_FAIL0005 : checkFunc := λ x _,
  Val (if Has (c_obj x) ReconcilingCondition && Has (c_obj x) StalledCondition then Some FAIL0005 else None).

(** [src/runtime/conditions/check/fail.go:112-122 check_FAIL0006] *)
Definition check_FAIL0006 : checkFunc := λ x _,
  Val (match c_observed x with
       | inl e => Some (GenerationErr 6 e)
       | inr og => if (Generation (c_obj x) <? og)%Z then Some FAIL0006 else None
       end).

(** [src/runtime/conditions/check/fail.go:124-139 check_FAIL0007] *)
Definition check_FAIL0007 : checkFunc := λ x _,
  Val (match c_observed x with
       | inl e => Some (GenerationErr 7 e)
       | inr og => if (og <? Generation (c_obj x))%Z && IsReady (c_obj x) then Some FAIL0007 else None
       end).

(** [src/runtime/conditions/check/fail.go:141-162 check_FAIL0008] *)
Definition check_FAIL0008 : checkFunc := λ x _,
  Val (if negb (IsReady (c_obj x)) then None
       else report FAIL0008 (collect (λ c, (ObservedGeneration c <? Generation (c_obj x))%Z) (c_obj x))).

(** [src/runtime/conditions/check/fail.go:164-188 check_FAIL0009] *)
Definition check_FAIL0009 : checkFunc := λ x _,
  Val (if negb (IsReady (c_obj x)) then None
       else match c_observed x with
            | inl e => Some (GenerationErr 9 e)
            | inr og => report FAIL0009 (collect (λ c, negb (ObservedGeneration c =? og)%Z) (c_obj x))
            end).

(** [src/runtime/conditions/check/fail.go:190-200 check_FAIL0011] *)
Definition check_FAIL0011 : checkFunc := λ x _,
  Val (if negb (IsUnknown (c_obj x) ReadyCondition) then None
       else if negb (IsTrue (c_obj x) ReconcilingCondition) then Some FAIL0011 else None).

(** ** Warnings ([warn.go]) *)

(** [src/runtime/conditions/check/warn.go:30-53 check_WARN0001] *)
Definition check_WARN0001 : checkFunc := λ x condns,
  if negb (IsTrue (c_obj x) ReadyCondition) then Val None
  else match condns with
       | None => Panics
       | Some condns =>
           Val (if length (NegativePolarity condns) =? 0 then None
                else report WARN0001 (Type_ <$> omap (Get (c_obj x)) (NegativePolarity condns)))
       end.

(** The Ready condition may be missing: its fields are read all the same.
    [src/runtime/conditions/check/warn.go:55-89 check_WARN0002] *)
Definition check_WARN0002 : checkFunc := λ x condns,
  if IsTrue (c_obj x) ReadyCondition then Val None
  else match condns with
       | None => Panics
       | Some ctx =>
           if length (NegativePolarity ctx) =? 0 then Val None
           else match HighestNegativePriorityCondition condns (GetConditions (c_obj x)) with
                | inl e => Val (Some e)
                | inr None => Val None
                | inr (Some hnpc) =>
                    if string_eqb (Type_ hnpc) ReconcilingCondition || string_eqb (Type_ hnpc) StalledCondition
                    then Val None
                    else match Get (c_obj x) ReadyCondition with
                         | None => Panics
                         | Some ready =>
                             Val (if negb (string_eqb (Message ready) (Message hnpc)) ||
                                     negb (string_eqb (Reason ready) (Reason hnpc))
                                  then Some (WARN0002 (Type_ hnpc)) else None)
                         end
                end
       end.

Definition false_when_present (t : string) (e : check_error) (o : object) : option check_error :=
  match Get o t with
  | Some c => if string_eqb (Status c) ConditionFalse then Some e else None
  | None => None
  end.
(** [src/runtime/conditions/check/warn.go:91-101 check_WARN0003] *)
Definition check_WARN0003 : checkFunc := λ x _, Val (false_when_present ReconcilingCondition WARN0003 (c_obj x)).
(** [src/runtime/conditions/check/warn.go:103-113 check_WARN0004] *)
Definition check_WARN0004 : checkFunc := λ x _, Val (false_when_present StalledCondition WARN0004 (c_obj x)).
(** [src/runtime/conditions/check/warn.go:115-127 check_WARN0005] *)
Definition check_WARN0005 : checkFunc := λ x _,
  Val (report WARN0005 (collect (λ c, (ObservedGeneration c <? 1)%Z) (c_obj x))).

(** ** The checker ([checker.go]) *)

(** [src/runtime/conditions/check/checker.go:35-63 Checker] *)
Record Checker := mkChecker {
  requireConditions : bool; ch_conditions : option CheckConditions;
  failChecks : list checkFunc; warnChecks : list checkFunc; DisableFetch : bool }.

(** [src/runtime/conditions/check/checker.go:65-95 NewChecker] *)
Definition NewChecker (condns : option CheckConditions) : Checker :=
  mkChecker true condns
    [check_FAIL0001; check_FAIL0002; check_FAIL0003; check_FAIL0004; check_FAIL0005; check_FAIL0006;
     check_FAIL0007; check_FAIL0008; check_FAIL0009]
    [check_WARN0001; check_WARN0002; check_WARN0003; check_WARN0004; check_WARN0005] false.

(** [src/runtime/conditions/check/checker.go:97-122 NewInProgressChecker] *)
Definition NewInProgressChecker : Checker :=
  mkChecker false None
    [check_FAIL0002; check_FAIL0004; check_FAIL0005; check_FAIL0006; check_FAIL0011]
    [check_WARN0003; check_WARN0004; check_WARN0005] false.

(** [src/runtime/conditions/check/checker.go:161-174 Checker.Check] *)
Fixpoint check_loop (checks : list checkFunc) (x : checked) (condns : option CheckConditions)
    (errs : list check_error) : res (list check_error) :=
  match checks with
  | [] => Val errs
  | check :: checks =>
      e ← check x condns;
      check_loop checks x condns (match e with Some e => errs ++ [e] | None => errs end)
  end.

(** The failures and the warnings, each an aggregate that is nil when it is
    empty; [fetch] is the latest object or the error of reading it.
    [src/runtime/conditions/check/checker.go:150-176 Checker.Check] *)
Definition Checker_Check (c : Checker) (fetch : string + checked) (x : checked)
    : res (list check_error * list check_error) :=
  if requireConditions c && bool_decide (ch_conditions c = None) then Val ([NoConditions], [])
  else match (if negb (DisableFetch c) then fetch else inr x) with
       | inl e => Val ([FetchErr e], [])
       | inr x =>
           warn ← check_loop (warnChecks c) x (ch_conditions c) [];
           fail ← check_loop (failChecks c) x (ch_conditions c) [];
           Val (fail, warn)
       end.

(** ** What the checks mean *)

Lemma check_loop_app checks x condns errs :
  check_loop checks x condns errs = (app errs) <$> check_loop checks x condns [].
Proof.
  revert errs. induction checks as [|f checks IH]; intros errs; cbn [check_loop].
  { cbn. by rewrite app_nil_r. }
  destruct (f x condns) as [[e|]|]; cbn [mbind res_bind]; [|by apply IH|done].
  rewrite IH, (IH ([] ++ [e])). destruct (check_loop checks x condns []); [|done].
  cbn [fmap res_fmap]. by rewrite <-app_assoc.
Qed.

(** Nothing is reported if no check reports anything. *)
Lemma check_loop_nil checks x condns :
  check_loop checks x condns [] = Val [] ↔ Forall (λ f, f x condns = Val None) checks.
Proof.
  induction checks as [|f checks IH]; cbn [check_loop]; [split; [constructor|done]|]. rewrite Forall_cons, <-IH.
  destruct (f x condns) as [[e|]|]; cbn [mbind res_bind]; [|naive_solver|naive_solver].
  rewrite check_loop_app. destruct (check_loop checks x condns []); naive_solver.
Qed.

Lemma check_loop_panics checks x condns errs :
  check_loop checks x condns errs = Panics ↔ Exists (λ f, f x condns = Panics) checks.
Proof.
  revert errs. induction checks as [|f checks IH]; intros errs; cbn [check_loop].
  { split; [done|]. by intros ?%Exists_nil. }
  rewrite Exists_cons. destruct (f x condns) as [e|]; cbn [mbind res_bind]; [|naive_solver].
  rewrite IH. naive_solver.
Qed.

Lemma report_None mk P o :
  report mk (collect P o) = None ↔ ∀ c, c ∈ GetConditions o → P c = false.
Proof.
  unfold report, collect. rewrite length_fmap.
  destruct (filter (λ c, P c = true) (GetConditions o)) as [|d l] eqn:Ef; cbn [length Nat.ltb Nat.leb].
  - split; [|done]. intros _ c Hc. destruct (P c) eqn:Ep; [|done].
    assert (c ∈ filter (λ c, P c = true) (GetConditions o)) as Hin by by apply list_elem_of_filter.
    rewrite Ef in Hin. by apply elem_of_nil in Hin.
  - split; [done|]. intros Hall. assert (d ∈ filter (λ c, P c = true) (GetConditions o)) as Hin by (rewrite Ef; left).
    apply list_elem_of_filter in Hin as [Hp Hd]. by rewrite Hall in Hp.
Qed.

Lemma isNegative_elem ctx c : isNegativePolarityCondition ctx c = true ↔ Type_ c ∈ ctx.
Proof.
  induction ctx as [|t ctx IH]; cbn [isNegativePolarityCondition]; [by rewrite elem_of_nil|].
  rewrite elem_of_cons. unfold string_eqb. case_bool_decide; [naive_solver|]. rewrite IH. naive_solver.
Qed.

Lemma not_ready_when_None t e o :
  Has o ReadyCondition = true → not_ready_when t e o = None ↔ (IsTrue o t = true → IsFalse o ReadyCondition = true).
Proof.
  unfold not_ready_when, Has, IsTrue, IsFalse. intros Hr. destruct (Get o ReadyCondition) as [r|]; [|done].
  destruct (Get o t) as [c|]; [|naive_solver].
  destruct (string_eqb (Status c) ConditionTrue), (string_eqb (Status r) ConditionFalse); naive_solver.
Qed.

(** A status that follows the rules: Ready is present; while it is True no
    condition of negative polarity is; it is False when the object is stalled or
    reconciling, which exclude each other; no generation is observed that does
    not exist, and a ready object and all its conditions have observed the
    latest. *)
Record compliant (o : object) (og : Z) (ctx : CheckConditions) : Prop := {
  cp_ready : Has o ReadyCondition = true;
  cp_negative : IsTrue o ReadyCondition = true → ∀ c, c ∈ GetConditions o → Type_ c ∈ NegativePolarity ctx → Status c ≠ ConditionTrue;
  cp_reconciling : IsTrue o ReconcilingCondition = true → IsFalse o ReadyCondition = true;
  cp_stalled : IsTrue o StalledCondition = true → IsFalse o ReadyCondition = true;
  cp_exclusive : Has o ReconcilingCondition = false ∨ Has o StalledCondition = false;
  cp_observed : (og <= Generation o)%Z;
  cp_latest : IsReady o = true → og = Generation o ∧ ∀ c, c ∈ GetConditions o → ObservedGeneration c = Generation o }.

Lemma FAIL0001_None x ctx :
  check_FAIL0001 x (Some ctx) = Val None ↔
  (IsTrue (c_obj x) ReadyCondition = true →
   ∀ c, c ∈ GetConditions (c_obj x) → Type_ c ∈ NegativePolarity ctx → Status c ≠ ConditionTrue).
Proof.
  unfold check_FAIL0001. destruct (IsTrue (c_obj x) ReadyCondition); cbn [negb]; [|naive_solver].
  destruct (Nat.eqb_spec (length (NegativePolarity ctx)) 0) as [Hl|Hl].
  - apply length_zero_iff_nil in Hl. rewrite Hl. split; [|done]. by intros _ _ c _ ?%elem_of_nil.
  - assert (∀ a : option check_error, Val a = Val None ↔ a = None) as -> by naive_solver.
    rewrite report_None. unfold string_eqb. setoid_rewrite andb_false_iff. setoid_rewrite bool_decide_eq_false.
    split; [|intros Hc c Hin; destruct (isNegativePolarityCondition _ c) eqn:En; [right|by left];
      apply Hc; [done..|by apply isNegative_elem]].
    intros Hc _ c Hin Hneg. destruct (Hc c Hin) as [Hn|]; [|done]. apply isNegative_elem in Hneg. congruence.
Qed.

Lemma compliant_iff x og ctx :
  c_observed x = inr og →
  Forall (λ f : checkFunc, f x (Some ctx) = Val None) (failChecks (NewChecker (Some ctx))) ↔ compliant (c_obj x) og ctx.
Proof.
  intros Hog. assert (∀ a : option check_error, Val a = Val None ↔ a = None) as HV by naive_solver.
  cbn [failChecks NewChecker]. rewrite !Forall_cons, FAIL0001_None.
  unfold check_FAIL0002, check_FAIL0003, check_FAIL0004, check_FAIL0005, check_FAIL0006, check_FAIL0007, check_FAIL0008, check_FAIL0009.
  rewrite !HV, Hog. destruct (Has (c_obj x) ReadyCondition) eqn:Hr; cbn [negb];
    [|split; [naive_solver|intros []; congruence]].
  rewrite !not_ready_when_None by done.
  assert (∀ b e, (if b : bool then Some e else None) = (None : option check_error) ↔ b = false) as Hif by (intros [] e; naive_solver).
  rewrite !Hif, andb_false_iff, Z.ltb_ge.
  destruct (IsReady (c_obj x)) eqn:Hrd; cbn [negb]; rewrite ?andb_true_r, ?andb_false_r, ?report_None, ?Z.ltb_ge.
  - setoid_rewrite Z.ltb_ge. setoid_rewrite negb_false_iff. setoid_rewrite Z.eqb_eq. split.
    + intros (H1 & _ & H3 & H4 & H5 & H6 & H7 & H8 & H9 & _). split; try done. intros _.
      assert (og = Generation (c_obj x)) as -> by lia. split; [done|]. intros c Hc. by apply H9.
    + intros [Ha Hb Hc Hd He Hf Hg]. destruct (Hg Hrd) as [-> Hall]. split_and!; try done; try lia.
      intros c Hin. rewrite Hall by done. lia.
  - split.
    + intros (H1 & _ & H3 & H4 & H5 & H6 & _). split; try done. intros Hr'. congruence.
    + intros [Ha Hb Hc Hd He Hf Hg]. by split_and!.
Qed.

(** Only the comparison with a missing Ready condition can panic. *)
Definition missing_ready_panics (o : object) (ctx : CheckConditions) : Prop :=
  Has o ReadyCondition = false ∧
  ∃ c, highest_loop (NegativePolarity ctx) (GetConditions o) = Some c ∧
    Type_ c ≠ ReconcilingCondition ∧ Type_ c ≠ StalledCondition.

Lemma WARN0002_panics x ctx : check_WARN0002 x (Some ctx) = Panics ↔ missing_ready_panics (c_obj x) ctx.
Proof.
  unfold check_WARN0002, missing_ready_panics, Has, IsTrue, HighestNegativePriorityCondition.
  destruct (Nat.eqb_spec (length (NegativePolarity ctx)) 0) as [Hl|Hl].
  - apply length_zero_iff_nil in Hl. rewrite Hl. cbn [highest_loop].
    destruct (Get (c_obj x) ReadyCondition) as [r|]; [destruct (string_eqb (Status r) ConditionTrue)|]; naive_solver.
  - destruct (Get (c_obj x) ReadyCondition) as [r|].
    + split; [|by intros [? _]]. destruct (string_eqb (Status r) ConditionTrue); [done|].
      destruct (highest_loop _ _); [|done]. by destruct (_ || _).
    + destruct (highest_loop _ _) as [c|]; [|naive_solver]. unfold string_eqb.
      case_bool_decide; [cbn [orb]; naive_solver|]. case_bool_decide; cbn [orb]; naive_solver.
Qed.

(** The checker reports no failure exactly for a status that follows the
    rules; it does not return for an object without the Ready condition that
    has another condition of negative polarity, which it compares with it. *)
Theorem Checker_Check_spec x x' og ctx :
  c_observed x = inr og →
  match Checker_Check (NewChecker (Some ctx)) (inr x) x' with
  | Val (fail, _) => fail = [] ↔ compliant (c_obj x) og ctx
  | Panics => missing_ready_panics (c_obj x) ctx
  end.
Proof.
  intros Hog. unfold Checker_Check. rewrite andb_false_r by done. cbn [DisableFetch NewChecker negb ch_conditions].
  destruct (check_loop (warnChecks (NewChecker (Some ctx))) x (Some ctx) []) as [warn|] eqn:Ew; cbn [mbind res_bind].
  - destruct (check_loop (failChecks (NewChecker (Some ctx))) x (Some ctx) []) as [fail|] eqn:Ef; cbn [mbind res_bind].
    + rewrite <-(compliant_iff x og ctx Hog), <-check_loop_nil, Ef. naive_solver.
    + exfalso. apply check_loop_panics in Ef. cbn [failChecks NewChecker] in Ef. rewrite !Exists_cons, Exists_nil in Ef.
      destruct_or! Ef; try done. unfold check_FAIL0001 in Ef. by destruct (negb _).
  - apply check_loop_panics in Ew. cbn [warnChecks NewChecker] in Ew. rewrite !Exists_cons, Exists_nil in Ew.
    destruct_or! Ew; try done; [|by apply WARN0002_panics]. unfold check_WARN0001 in Ew. by destruct (negb _).
Qed.

(** ** Statuses that the reconcilers write *)

Section progressive.
Context `{SortFunc}.

Lemma Set_Generation now o c : Generation (Set_obj now o c) = Generation o.
Proof. unfold Set_obj, Set_. by repeat case_match. Qed.

(** The status that announces work in progress passes the checks for an
    object in progress, whatever its status was before. *)
Theorem ProgressiveStatus_passes clock drift obj reason message og x' :
  wf_conditions obj → (og <= Generation obj)%Z →
  let x := mkChecked (ProgressiveStatus clock drift obj reason message) (inr og) in
  ∃ warn, Checker_Check NewInProgressChecker (inr x) x' = Val ([], warn).
Proof.
  intros Hwf Hog x. destruct (ProgressiveStatus_spec clock drift obj reason message Hwf) as (_ & Hrec & Hst & _ & Hready).
  unfold Checker_Check. cbn [requireConditions NewInProgressChecker andb DisableFetch negb ch_conditions].
  set (o := ProgressiveStatus clock drift obj reason message) in *.
  assert (Generation o = Generation obj) as Hgen.
  { unfold o, ProgressiveStatus, MarkReconciling, MarkTrue, MarkUnknown. cbv zeta.
    match goal with |- Generation (if ?b then _ else _) = _ => destruct b end; by rewrite !Set_Generation. }
  assert (Has o ReadyCondition = true) as Hhas.
  { destruct (drift || IsUnknown obj ReadyCondition) eqn:E.
    - by destruct Hready.
    - apply orb_false_iff in E as [_ E]. unfold Has, IsUnknown in *. rewrite Hready. by destruct (Get obj ReadyCondition). }
  destruct (check_loop (warnChecks NewInProgressChecker) x None []) as [warn|] eqn:Ew.
  2:{ apply check_loop_panics in Ew. cbn in Ew. rewrite !Exists_cons, Exists_nil in Ew. by destruct_or! Ew. }
  exists warn. cbn [mbind res_bind]. rewrite (proj2 (check_loop_nil _ _ _)); [done|].
  assert (Get o StalledCondition = None) as Hno.
  { unfold Has in Hst. by destruct (Get o StalledCondition). }
  cbn [failChecks NewInProgressChecker]. repeat (apply Forall_cons; split); [..|constructor].
  - unfold check_FAIL0002. cbn [c_obj x]. by rewrite Hhas.
  - unfold check_FAIL0004, not_ready_when. cbn [c_obj x]. by rewrite Hno.
  - unfold check_FAIL0005. cbn [c_obj x]. by rewrite Hst, andb_false_r.
  - unfold check_FAIL0006. cbn [c_obj c_observed x]. rewrite Hgen. by rewrite (proj2 (Z.ltb_ge _ _)).
  - unfold check_FAIL0011. cbn [c_obj x]. unfold IsReconciling in Hrec.
    apply andb_true_iff in Hrec as [_ Hrec]. rewrite Hrec. by destruct (negb _).
Qed.
End progressive.

Definition sample_context : CheckConditions := mkCheckConditions ["FetchFailed"; StalledCondition; ReconcilingCondition] [].

(** The object is not ready, and nothing explains it better. *)
Lemma Checker_Check_spec_witness : compliant sample_object 1 sample_context.
Proof.
  assert (Checker_Check (NewChecker (Some sample_context)) (inr (mkChecked sample_object (inr 1%Z)))
    (mkChecked sample_object (inr 1%Z)) = Val ([], [])) as Hc by by vm_compute.
  pose proof (Checker_Check_spec (mkChecked sample_object (inr 1%Z)) (mkChecked sample_object (inr 1%Z)) 1
    sample_context eq_refl) as Hs.
  rewrite Hc in Hs. by apply Hs.
Defined.

(** A failure without the Ready condition is not reported: the check panics. *)
Example missing_ready :
  Checker_Check (NewChecker (Some sample_context))
    (inr (mkChecked (mkObject "GitRepository" "app" 1 [mkCondition "FetchFailed" ConditionTrue 1 7 "AuthFailed" "denied"])
            (inr 1%Z))) (mkChecked sample_object (inr 1%Z)) = Panics.
Proof. by vm_compute. Qed.

Lemma ProgressiveStatus_passes_witness :
  ∃ warn, Checker_Check NewInProgressChecker
    (inr (mkChecked (ProgressiveStatus (λ _, 5%Z) true sample_object "Progressing" "building") (inr 1%Z)))
    (mkChecked sample_object (inr 1%Z)) = Val ([], warn).
Proof. apply (ProgressiveStatus_passes (λ _, 5%Z) true sample_object); [apply sample_object_wf|done]. Defined.
