(* ===== verification/Untar.v ===== *)
(** * Extraction of tar archives ([tar/untar.go], [tar/options.go])

    [Untar] is modelled with its calls on the operating system: the file
    system is an arbitrary function from the calls made so far to the answer
    of the next one, and a run yields the list of its calls.  What holds of the
    calls holds whatever the file system does.  Decompression and the tar
    format are library code: an input is the sequence of headers and contents
    they deliver. *)

From S2P Require Import Prelude GoStd Utf8 GoPath.

(** ** Calls on the operating system *)

(** An error is only inspected for [os.ErrNotExist]. *)
Inductive os_error := ErrNotExist | OtherError (msg : string).

Inductive call :=
  | Lstat (p : bytes)
  | MkdirAll (p : bytes) (perm : Z)
  | Remove (p : bytes)
  | OpenFile (p : bytes) (perm : Z)   (* O_WRONLY|O_CREATE|O_TRUNC *)
  | Write (p : bytes) (data : bytes)
  | CloseFile (p : bytes)
  | Chtimes (p : bytes) (modTime : Z).

(** An answer: the error, the count of [Write], the [IsDir] of [Lstat]. *)
Record answer := mkAnswer { a_err : option os_error; a_n : Z; a_isDir : bool }.

(** The operating system. *)
Definition OS : Type := list call → call → answer.

(** ** File modes ([os.FileMode]) *)

Definition ModeDir : Z := 2 ^ 31.
Definition ModeSymlink : Z := 2 ^ 27.
Definition ModeType : Z :=
  Z.lor ModeDir (Z.lor ModeSymlink (Z.lor (2 ^ 25) (Z.lor (2 ^ 24)
    (Z.lor (2 ^ 26) (Z.lor (2 ^ 21) (2 ^ 19)))))).
Definition IsRegular (mode : Z) : bool := (Z.land mode ModeType =? 0)%Z.
Definition IsDir (mode : Z) : bool := negb (Z.land mode ModeDir =? 0)%Z.
Definition Perm (mode : Z) : Z := Z.land mode 511.

(** ** Inputs *)

(** What successive reads of a stream return: chunks, and a last chunk
    together with an error, [None] for the end of the stream. *)
Record reader := mkReader { chunks : list bytes; last_chunk : bytes; last_err : option os_error }.

Record FileInfo := mkInfo { fSize : Z; fMode : Z; fModTime : Z }.
Record entry := mkEntry { fName : bytes; fInfo : FileInfo; fData : reader }.

(** The entries [tar.Reader.Next] delivers and the error it ends with, [None]
    for the end of the archive. *)
Record tarball := mkTarball { entries : list entry; next_err : option os_error }.

(** A stream read as a plain archive, and read through gzip: an error of
    [gzip.NewReader], or the archive and the error of closing it. *)
Record input := mkInput { plain : tarball; gzipped : os_error + (tarball * option os_error) }.

(** ** Options *)

(** [src/tar/options.go:25-40 tarOpts] *)
Record tarOpts := mkOpts {
  maxUntarSize : Z; skipSymlinks : bool; skipGzip : bool;
  tfilter : option (bytes → FileInfo → bool) }.

Abbreviation Option := (tarOpts → tarOpts) (only parsing).

(** [src/tar/options.go:42-48 WithMaxUntarSize] *)
Definition WithMaxUntarSize (max : Z) : Option := λ t,
  mkOpts max (skipSymlinks t) (skipGzip t) (tfilter t).
(** [src/tar/options.go:50-56 WithSkipSymlinks] *)
Definition WithSkipSymlinks : Option := λ t,
  mkOpts (maxUntarSize t) true (skipGzip t) (tfilter t).
(** [src/tar/options.go:58-64 WithSkipGzip] *)
Definition WithSkipGzip : Option := λ t,
  mkOpts (maxUntarSize t) (skipSymlinks t) true (tfilter t).
(** [src/tar/options.go:66-74 WithFilter] *)
Definition WithFilter (fn : bytes → FileInfo → bool) : Option := λ t,
  mkOpts (maxUntarSize t) (skipSymlinks t) (skipGzip t) (Some fn).
(** [src/tar/options.go:76-81 tarOpts.applyOpts] *)
Definition applyOpts (t : tarOpts) (opts : list Option) : tarOpts := foldl (λ t opt, opt t) t opts.

(** ** The code *)

(** [src/tar/untar.go:27-28 DefaultMaxUntarSize] *)
Definition DefaultMaxUntarSize : Z := Z.shiftl 100 20.
(** [src/tar/untar.go:30-31 UnlimitedUntarSize] *)
Definition UnlimitedUntarSize : Z := -1.

(** The errors of [copyBuffer]. *)
Inductive copy_error := WriteError (e : os_error) | InvalidWrite | ErrShortWrite | ReadError (e : os_error).

(** The errors of [Untar], one per return statement. *)
Inductive untar_error :=
  | GetwdError (e : os_error)
  | SecureJoinError (e : os_error)
  | LstatError (dir : bytes) (e : os_error)
  | NotADirectory (dir : bytes)
  | RequiresGzip (e : os_error)
  | TarError (e : os_error)
  | TooBig (name : bytes) (max : Z)
  | InvalidName (name : bytes)
  | MkdirError (e : os_error)
  | RemoveError (e : os_error)
  | OpenError (e : os_error)
  | CopyError (e : copy_error)
  | WritingError (abs : bytes) (e : os_error)
  | OnlyWrote (n : Z) (abs : bytes) (size : Z)
  | ChtimesError (abs : bytes) (e : os_error)
  | SymlinkNotAllowed (name : bytes)
  | UnsupportedType (name : bytes) (mode : Z).

(** Code that makes calls and can fail. *)
Definition IO (A : Type) : Type := list call → list call * (untar_error + A).
#[global] Instance IO_ret : MRet IO := λ A a h, (h, inr a).
#[global] Instance IO_bind : MBind IO := λ A B f m h,
  match m h with (h, inr a) => f a h | (h, inl e) => (h, inl e) end.
Definition throw {A} (e : untar_error) : IO A := λ h, (h, inl e).

(** [src/tar/untar.go:240-245 validRelPath] *)
Definition validRelPath (p : bytes) : bool :=
  negb (bool_decide (p = []) || strings_Contains p (str "\") || HasPrefix p (str "/")
        || strings_Contains p (str "../")).

Section code.
Context (os : OS) (cwd : os_error + bytes) (SecureJoin : bytes → bytes → os_error + bytes).
Context (darwin : bool) (t0 : Z).

Definition syscall (c : call) : IO answer := λ h, (h ++ [c], inr (os h c)).

(** A call whose error is turned into an error of [Untar]. *)
Definition checked (c : call) (wrap : os_error → untar_error) : IO unit :=
  a ← syscall c; match a_err a with Some e => throw (wrap e) | None => mret tt end.

(** The part of the round of [copyBuffer] after a read of [data]: the total
    count and the error to stop with.
    [src/tar/untar.go:210-229 copyBuffer] *)
Definition copy_chunk (p data : bytes) (written : Z) : IO (Z * option copy_error) :=
  if length data =? 0 then mret (written, None)
  else
    a ← syscall (Write p data);
    let nr := Z.of_nat (length data) in
    let broken := (a_n a <? 0)%Z || (nr <? a_n a)%Z in
    let nw := if broken then 0%Z else a_n a in
    let ew := match a_err a with
              | Some e => Some (WriteError e)
              | None => if broken then Some InvalidWrite else None
              end in
    let written := int64_wrap (written + nw) in
    match ew with
    | Some e => mret (written, Some e)
    | None => mret (written, if negb (nr =? nw)%Z then Some ErrShortWrite else None)
    end.

(** [src/tar/untar.go:204-238 copyBuffer] *)
Fixpoint copy_loop (p : bytes) (ds : list bytes) (last : bytes) (er : option os_error)
    (written : Z) : IO (Z * option copy_error) :=
  match ds with
  | d :: ds =>
      '(written, err) ← copy_chunk p d written;
      match err with
      | Some e => mret (written, Some e)
      | None => copy_loop p ds last er written
      end
  | [] =>
      '(written, err) ← copy_chunk p last written;
      match err with
      | Some e => mret (written, Some e)
      | None => mret (written, ReadError <$> er)
      end
  end.

(** [src/tar/untar.go:204-238 copyBuffer] *)
Definition copyBuffer (p : bytes) (src : reader) : IO (Z * option copy_error) :=
  copy_loop p (chunks src) (last_chunk src) (last_err src) 0%Z.

(** The case of a regular file: the directories made so far, with the new one.
    [src/tar/untar.go:122-175 Untar] *)
Definition untar_regular (abs : bytes) (f : entry) (madeDir : gset bytes) : IO (gset bytes) :=
  let mode := fMode (fInfo f) in
  let parentDir := filepath_Dir abs in
  madeDir ← (if bool_decide (parentDir ∈ madeDir) then mret madeDir
             else checked (MkdirAll parentDir 488) MkdirError;; mret ({[parentDir]} ∪ madeDir));
  (if darwin && negb (Z.land mode 73 =? 0)%Z then
     a ← syscall (Remove abs);
     match a_err a with
     | Some ErrNotExist | None => mret tt
     | Some e => throw (RemoveError e)
     end
   else mret tt);;
  checked (OpenFile abs (Perm mode)) OpenError;;
  '(n, err) ← copyBuffer abs (fData f);
  match err with
  | Some e => throw (CopyError e)
  | None =>
      checked (CloseFile abs) (WritingError abs);;
      if negb (n =? fSize (fInfo f))%Z then throw (OnlyWrote n abs (fSize (fInfo f)))
      else
        let modTime := if (t0 <? fModTime (fInfo f))%Z then t0 else fModTime (fInfo f) in
        (if negb (modTime =? 0)%Z then checked (Chtimes abs modTime) (ChtimesError abs)
         else mret tt);;
        mret madeDir
  end.

(** One round of the loop over the entries.
    [src/tar/untar.go:103-192 Untar] *)
Definition untar_entry (opts : tarOpts) (dir : bytes) (f : entry) (st : Z * gset bytes)
    : IO (Z * gset bytes) :=
  let '(processedBytes, madeDir) := st in
  let processedBytes := int64_wrap (processedBytes + fSize (fInfo f)) in
  if (UnlimitedUntarSize <? maxUntarSize opts)%Z && (maxUntarSize opts <? processedBytes)%Z
  then throw (TooBig (fName f) (maxUntarSize opts))
  else if negb (validRelPath (fName f)) then throw (InvalidName (fName f))
  else
    let abs := filepath_Join [dir; fName f] in
    let mode := fMode (fInfo f) in
    if match tfilter opts with Some flt => flt (fName f) (fInfo f) | None => false end
    then mret (processedBytes, madeDir)
    else if IsRegular mode then
      madeDir ← untar_regular abs f madeDir; mret (processedBytes, madeDir)
    else if IsDir mode then
      checked (MkdirAll abs (Z.lor (Perm mode) 448)) MkdirError;;
      mret (processedBytes, {[abs]} ∪ madeDir)
    else if (Z.land mode ModeSymlink =? ModeSymlink)%Z then
      (if negb (skipSymlinks opts) then throw (SymlinkNotAllowed (fName f))
       else mret (processedBytes, madeDir))
    else throw (UnsupportedType (fName f) mode).

(** [src/tar/untar.go:95-193 Untar] *)
Fixpoint untar_loop (opts : tarOpts) (dir : bytes) (fs : list entry) (ne : option os_error)
    (st : Z * gset bytes) : IO unit :=
  match fs with
  | [] => match ne with None => mret tt | Some e => throw (TarError e) end
  | f :: fs => st ← untar_entry opts dir f st; untar_loop opts dir fs ne st
  end.

(** The directory to extract into.
    [src/tar/untar.go:56-66 Untar] *)
Definition untar_dir (dir : bytes) : untar_error + bytes :=
  let dir := Clean dir in
  if IsAbs dir then inr dir
  else match cwd with
       | inl e => inl (GetwdError e)
       | inr cwd => match SecureJoin cwd dir with
                    | inl e => inl (SecureJoinError e)
                    | inr dir => inr dir
                    end
       end.

(** The archive the reader holds and the error of closing it.
    [src/tar/untar.go:80-88 Untar] *)
Definition open_input (opts : tarOpts) (r : input) : untar_error + (tarball * option os_error) :=
  if negb (skipGzip opts) then
    match gzipped r with inl e => inl (RequiresGzip e) | inr t => inr t end
  else inr (plain r, None).

Definition lift {A} (r : untar_error + A) : IO A := λ h, (h, r).

(** The result is the error of closing the stream.
    [src/tar/untar.go:50-195 Untar] *)
Definition Untar (r : input) (dir : bytes) (inOpts : list Option) : IO (option os_error) :=
  let opts := applyOpts (mkOpts DefaultMaxUntarSize false false None) inOpts in
  dir ← lift (untar_dir dir);
  fi ← syscall (Lstat dir);
  match a_err fi with
  | Some (OtherError e) => throw (LstatError dir (OtherError e))
  | err =>
      if match err with None => negb (a_isDir fi) | _ => false end then throw (NotADirectory dir)
      else
        '(tar, close_err) ← lift (open_input opts r);
        untar_loop opts dir (entries tar) (next_err tar) (0%Z, ∅);;
        mret close_err
  end.
End code.

(** ** The calls of a run *)

(** Every call the code makes satisfies [P]. *)
Definition calls_ok {A} (P : call → Prop) (m : IO A) : Prop :=
  ∀ h, Forall P h → Forall P (m h).1.

Section calls_ok.
Context (P : call → Prop).

Lemma ok_ret {A} (a : A) : calls_ok P (mret a).
Proof. by intros h. Qed.

Lemma ok_throw {A} e : calls_ok (A := A) P (throw e).
Proof. by intros h. Qed.

Lemma ok_lift {A} (r : untar_error + A) : calls_ok P (lift r).
Proof. by intros h. Qed.

Lemma ok_bind {A B} (m : IO A) (f : A → IO B) :
  calls_ok P m → (∀ a, calls_ok P (f a)) → calls_ok P (m ≫= f).
Proof.
  intros Hm Hf h Hh. unfold mbind, IO_bind. specialize (Hm h Hh).
  destruct (m h) as [h' [e|a]]; [done|]. by apply Hf.
Qed.

Lemma ok_syscall os c : P c → calls_ok P (syscall os c).
Proof. intros Hc h Hh. apply Forall_app; auto. Qed.

Lemma ok_checked os c w : P c → calls_ok P (checked os c w).
Proof.
  intros Hc. apply ok_bind; [by apply ok_syscall|]. intros a.
  destruct (a_err a); [apply ok_throw|apply ok_ret].
Qed.
End calls_ok.

Create HintDb io.
#[export] Hint Resolve ok_ret ok_throw ok_lift ok_syscall ok_checked ok_bind : io.

(** Follow the code down to its calls. *)
Ltac io_calls :=
  repeat (case_match || (apply ok_bind; [|intros ?]) || (simple apply ok_ret) || (simple apply ok_throw)
          || (simple apply ok_lift)); auto with io.

Lemma copy_chunk_calls P os p d w : P (Write p d) → calls_ok P (copy_chunk os p d w).
Proof. intros Hp. unfold copy_chunk. io_calls. Qed.

Lemma copyBuffer_calls P os p src :
  Forall (λ d, P (Write p d)) (chunks src ++ [last_chunk src]) → calls_ok P (copyBuffer os p src).
Proof.
  unfold copyBuffer. generalize 0%Z as w. induction (chunks src) as [|d ds IH]; intros w Hp; simpl.
  - apply ok_bind; [apply copy_chunk_calls; by apply Forall_cons in Hp as [? _]|intros [? ?]]. io_calls.
  - apply Forall_cons in Hp as [Hd Hp].
    apply ok_bind; [by apply copy_chunk_calls|intros [? ?]]. io_calls.
Qed.

(** ** Containment *)

(** What an archive may ask for when it is extracted into [d]: directories
    below or above [d], and files below it; a name that denotes the parent
    directory reaches the parent of [d]. *)
Definition contained (d : bytes) (names : list bytes) (c : call) : Prop :=
  match c with
  | Lstat p => p = d
  | MkdirAll p _ => within d p ∨ within p d
  | OpenFile p _ | Write p _ | CloseFile p | Chtimes p _ | Remove p =>
      within d p ∨ (comps p = removelast (comps d) ∧ ∃ n, n ∈ names ∧ Clean n = dotdot)
  end.

Lemma removelast_prefix {A} (l : list A) : removelast l `prefix_of` l.
Proof.
  destruct l as [|x l _] using rev_ind; [done|]. rewrite removelast_last. by eexists.
Qed.

(** A valid name has no dot-dot element but the last. *)
Lemma valid_elems n :
  validRelPath n = true →
  n ≠ [] ∧ ∃ l x, strings_Split n sep = l ++ [x] ∧ (dotdot ∉ l) ∧ IsAbs n = false.
Proof.
  unfold validRelPath. rewrite negb_true_iff, !orb_false_iff, bool_decide_eq_false.
  intros [[[Hne _] Habs] Hdd]. split; [done|].
  destruct (exists_last (l := strings_Split n sep)) as (l & x & E).
  { by destruct (Split_cons n sep) as (? & ? & ->). }
  exists l, x. split_and!; [done| |done]. intros Hin.
  apply list_elem_of_split in Hin as (l1 & l2 & ->).
  assert (n = strings_Join ((l1 ++ dotdot :: l2) ++ [x]) sep) as En by by rewrite <- E, Join_Split.
  assert (∃ s t, n = s ++ str "../" ++ t) as (s & t & ->); [|by rewrite Contains_app in Hdd].
  rewrite En, <- app_assoc. cbn [app]. set (tl := l2 ++ [x]).
  assert (tl ≠ []) by (subst tl; by destruct l2).
  assert (strings_Join (dotdot :: tl) sep = str "../" ++ strings_Join tl sep) as Et by by destruct tl.
  destruct l1 as [|y l1].
  - exists [], (strings_Join tl sep). done.
  - exists (strings_Join (y :: l1) sep ++ [sep]), (strings_Join tl sep).
    rewrite Join_app, Et by done. by rewrite <- app_assoc.
Qed.

(** Where a valid name leads from the directory. *)
Lemma valid_join d n :
  IsAbs d = true → validRelPath n = true →
  let abs := filepath_Join [d; n] in
  IsAbs abs = true ∧ Clean abs = abs ∧
  (within d abs ∨ (comps abs = removelast (comps d) ∧ Clean n = dotdot)).
Proof.
  intros Hd Hv. destruct (valid_elems n Hv) as (Hne & l & x & E & Hdd & Hrel).
  destruct (filepath_Join_abs d n Hd Hne) as (H1 & H2 & H3). cbn zeta. split_and!; [done..|].
  pose proof (Split_no_sep n sep) as Hs. rewrite E in Hs, H3. apply Forall_app in Hs as [Hs Hx].
  destruct (walk_down (comps d) l Hdd Hs) as (m & Hm & Ef & Ew). rewrite walk_app, Ew in H3.
  destruct (decide (x = dotdot)) as [->|Hxd].
  - assert (walk (comps d ++ m) [dotdot] = removelast (comps d ++ m)) as Ep.
    { unfold walk. cbn [foldl]. pose proof (Forall_app_2 _ _ _ (comps_proper d) Hm) as Hall.
      destruct (comps d ++ m) as [|y k _] using rev_ind; [done|].
      rewrite removelast_last, reverse_app. cbn [reverse rev_append app].
      apply Forall_app in Hall as [_ (? & ? & Hy & _)%Forall_singleton].
      unfold clean_step. simpl. rewrite bool_decide_false by done. apply reverse_involutive. }
    rewrite Ep in H3. destruct m as [|y m].
    + right. rewrite app_nil_r in H3. split; [done|]. unfold Clean, clean_elems.
      rewrite Hrel, E, foldl_app, Ef. done.
    + left. unfold within. rewrite H3. rewrite removelast_app by done. by apply prefix_app_r.
  - left. assert (∃ m', walk (comps d ++ m) [x] = (comps d ++ m) ++ m') as [m' Em].
    { destruct (walk_down (comps d ++ m) [x]) as (m' & _ & _ & Em); [|done|by exists m'].
      by apply not_elem_of_cons, conj, not_elem_of_nil. }
    unfold within. rewrite H3, Em, <- app_assoc. by apply prefix_app_r.
Qed.

Lemma parent_comparable d p :
  IsAbs p = true → Clean p = p →
  within d p ∨ comps p = removelast (comps d) →
  within d (filepath_Dir p) ∨ within (filepath_Dir p) d.
Proof.
  intros Ha Hc Hp. destruct (comps_Dir p Ha Hc) as (_ & _ & E). unfold within. rewrite E.
  destruct Hp as [[m Em]|Em]; rewrite Em.
  - destruct m as [|y m].
    + right. rewrite app_nil_r. apply removelast_prefix.
    + left. rewrite removelast_app by done. by apply prefix_app_r.
  - right. trans (removelast (comps d)); apply removelast_prefix.
Qed.

Section containment.
Context (os : OS) (cwd : os_error + bytes) (SecureJoin : bytes → bytes → os_error + bytes).
Context (darwin : bool) (t0 : Z).

Lemma untar_regular_calls (P : call → Prop) abs f madeDir :
  (∀ perm, P (MkdirAll (filepath_Dir abs) perm)) → P (Remove abs) → (∀ perm, P (OpenFile abs perm)) →
  Forall (λ x, P (Write abs x)) (chunks (fData f) ++ [last_chunk (fData f)]) →
  P (CloseFile abs) → (∀ t, P (Chtimes abs t)) →
  calls_ok P (untar_regular os darwin t0 abs f madeDir).
Proof.
  intros H1 H2 H3 H4 H5 H6. unfold untar_regular. apply ok_bind; [io_calls|intros md].
  apply ok_bind; [io_calls|intros []]. apply ok_bind; [by apply ok_checked|intros []].
  apply ok_bind; [by apply copyBuffer_calls|intros [n err]]. io_calls.
Qed.

Lemma untar_entry_calls opts d names f st :
  IsAbs d = true → fName f ∈ names →
  calls_ok (contained d names) (untar_entry os darwin t0 opts d f st).
Proof.
  intros Hd Hf. unfold untar_entry. destruct st as [pb md].
  destruct (_ && _); [apply ok_throw|].
  destruct (validRelPath (fName f)) eqn:Hv; cbn [negb]; [|apply ok_throw].
  destruct (valid_join d (fName f) Hd Hv) as (Ha & Hc & Hw).
  destruct (match tfilter opts with Some _ => _ | None => _ end); [apply ok_ret|].
  assert (within d (filepath_Join [d; fName f]) ∨
    (comps (filepath_Join [d; fName f]) = removelast (comps d) ∧ ∃ n, n ∈ names ∧ Clean n = dotdot))
    as Hfile by (destruct Hw as [?|[? ?]]; [by left|right; eauto]).
  destruct (IsRegular _); [|destruct (IsDir _)].
  - apply ok_bind; [|intros ?; apply ok_ret]. apply untar_regular_calls; simpl; try done.
    + intros _. apply parent_comparable; [done..|]. destruct Hw as [?|[? _]]; auto.
    + by apply Forall_true.
  - apply ok_bind; [|intros ?; apply ok_ret]. apply ok_checked. simpl.
    destruct Hw as [?|[E _]]; [by left|right]. unfold within. rewrite E. apply removelast_prefix.
  - io_calls.
Qed.

Lemma untar_loop_calls opts d names fs ne st :
  IsAbs d = true → (∀ f, f ∈ fs → fName f ∈ names) →
  calls_ok (contained d names) (untar_loop os darwin t0 opts d fs ne st).
Proof.
  intros Hd. revert st. induction fs as [|f fs IH]; intros st Hn; simpl; [io_calls|].
  apply ok_bind; [apply untar_entry_calls; [done|apply Hn; left]|].
  intros st'. apply IH. intros g Hg. apply Hn. by right.
Qed.

(** What the documentation of [SecureJoin] promises: a clean path below the
    root it is given. *)
Definition SecureJoin_ok : Prop := ∀ root p q,
  IsAbs root = true → SecureJoin root p = inr q → IsAbs q = true ∧ Clean q = q ∧ within root q.

Lemma untar_dir_abs dir d :
  SecureJoin_ok → (∀ w, cwd = inr w → IsAbs w = true) →
  untar_dir cwd SecureJoin dir = inr d → IsAbs d = true ∧ Clean d = d.
Proof.
  intros Hsj Hcwd. unfold untar_dir. destruct (IsAbs (Clean dir)) eqn:Ha.
  - intros [= <-]. split; [done|]. apply Clean_idemp. by rewrite <- Clean_IsAbs.
  - destruct cwd as [e|w]; [done|]. destruct (SecureJoin w (Clean dir)) as [e|q] eqn:Eq; [done|].
    intros [= <-]. destruct (Hsj w (Clean dir) q) as (? & ? & _); auto.
Qed.

(** The options in force and the entries that are read with them. *)
Definition options_of (inOpts : list Option) : tarOpts :=
  applyOpts (mkOpts DefaultMaxUntarSize false false None) inOpts.
Definition read_entries (inOpts : list Option) (r : input) : list entry :=
  match open_input (options_of inOpts) r with inr (t, _) => entries t | inl _ => [] end.

(** A run of [Untar] fails before anything is read, or is a check of the
    directory and the loop over the entries. *)
Lemma Untar_cases r dir inOpts :
  let run := Untar os cwd SecureJoin darwin t0 r dir inOpts [] in
  (∃ e, untar_dir cwd SecureJoin dir = inl e ∧ run = ([], inl e)) ∨
  (∃ d e, untar_dir cwd SecureJoin dir = inr d ∧ run = ([Lstat d], inl e)) ∨
  (∃ d tb ce, untar_dir cwd SecureJoin dir = inr d ∧
     open_input (options_of inOpts) r = inr (tb, ce) ∧ read_entries inOpts r = entries tb ∧
     run = match untar_loop os darwin t0 (options_of inOpts) d (entries tb) (next_err tb) (0%Z, ∅)
             [Lstat d] with (h, inl e) => (h, inl e) | (h, inr _) => (h, inr ce) end).
Proof.
  unfold Untar, read_entries. fold (options_of inOpts).
  destruct (untar_dir cwd SecureJoin dir) as [e|d]; [left; by exists e|right].
  unfold lift, syscall, mbind, IO_bind, throw. simpl.
  destruct (a_err _) as [[|]|]; [|left; by eexists _, _|destruct (a_isDir _); [|left; by eexists _, _]];
    (destruct (open_input _ r) as [e|[tb ce]]; [left; by eexists _, _|right; by eexists _, _, _]).
Qed.
End containment.

(** ** The files of a run *)

(** The effect of a call on the contents of the files written so far. *)
Definition replay (m : gmap bytes bytes) (c : call) : gmap bytes bytes :=
  match c with
  | OpenFile p _ => <[p := []]> m
  | Write p d => <[p := default [] (m !! p) ++ d]> m
  | _ => m
  end.
Definition files (h : list call) : gmap bytes bytes := foldl replay ∅ h.

Lemma files_snoc h c : files (h ++ [c]) = replay (files h) c.
Proof. apply foldl_snoc. Qed.

Definition content (src : reader) : bytes := concat (chunks src) ++ last_chunk src.

(** The entries that are extracted as files. *)
Definition is_file (opts : tarOpts) (f : entry) : bool :=
  negb (match tfilter opts with Some flt => flt (fName f) (fInfo f) | None => false end)
  && IsRegular (fMode (fInfo f)).

(** The files of an archive; a later entry replaces an earlier one. *)
Definition archive_files (opts : tarOpts) (d : bytes) (fs : list entry) (m : gmap bytes bytes)
    : gmap bytes bytes :=
  foldl (λ m f, if is_file opts f then <[filepath_Join [d; fName f] := content (fData f)]> m else m) m fs.

Lemma int64_wrap_add a b : int64_wrap (int64_wrap a + b) = int64_wrap (a + b).
Proof.
  unfold int64_wrap. f_equal.
  replace ((a + 2 ^ 63) mod 2 ^ 64 - 2 ^ 63 + b + 2 ^ 63)%Z with ((a + 2 ^ 63) mod 2 ^ 64 + b)%Z by lia.
  rewrite Z.add_mod_idemp_l by lia. f_equal. lia.
Qed.

(** A successful bind is two successful steps. *)
Lemma bind_inr {A B} (m : IO A) (f : A → IO B) h h' b :
  (m ≫= f) h = (h', inr b) → ∃ h1 a, m h = (h1, inr a) ∧ f a h1 = (h', inr b).
Proof.
  unfold mbind, IO_bind. destruct (m h) as [h1 [e|a]] eqn:E; [done|]. eauto.
Qed.

Section files.
Context (os : OS) (darwin : bool) (t0 : Z).

Lemma checked_inr c w h h' u : checked os c w h = (h', inr u) → h' = h ++ [c].
Proof.
  intros (h1 & a & E & Hr)%bind_inr. injection E as <- <-.
  destruct (a_err _); [discriminate|]. by injection Hr as <-.
Qed.

Lemma copy_chunk_inr p d w h h' n x :
  copy_chunk os p d w h = (h', inr (n, None)) → files h !! p = Some x → int64_wrap w = w →
  files h' = <[p := x ++ d]> (files h) ∧ n = int64_wrap (w + Z.of_nat (length d)).
Proof.
  unfold copy_chunk. intros E Hx Hw. destruct (Nat.eqb_spec (length d) 0) as [E0|E0].
  - injection E as <- <-. apply nil_length_inv in E0 as ->. rewrite app_nil_r, Z.add_0_r.
    by rewrite insert_id.
  - apply bind_inr in E as (h1 & a & E1 & E). injection E1 as <- <-.
    destruct (a_err _); [done|]. destruct (_ || _); [done|].
    destruct (Z.eqb_spec (Z.of_nat (length d)) (a_n (os h (Write p d)))) as [En|En]; [|done].
    injection E as <- <-. rewrite files_snoc, <- En. simpl. by rewrite Hx.
Qed.

Lemma copy_loop_inr p ds last er w h h' n x :
  copy_loop os p ds last er w h = (h', inr (n, None)) → files h !! p = Some x → int64_wrap w = w →
  files h' = <[p := x ++ concat ds ++ last]> (files h) ∧
  n = int64_wrap (w + Z.of_nat (length (concat ds ++ last))).
Proof.
  revert w h x. induction ds as [|d ds IH]; intros w h x; simpl;
    intros (h1 & [w1 err] & E1 & E)%bind_inr Hx Hw; (destruct err; [done|]).
  - injection E as <- <- _. by eapply copy_chunk_inr in E1.
  - destruct (copy_chunk_inr _ _ _ _ _ _ _ E1 Hx Hw) as [Ef En].
    destruct (IH _ _ (x ++ d) E) as [Ef2 En2].
    + by rewrite Ef, lookup_insert_eq.
    + subst w1. apply int64_wrap_id, int64_wrap_range.
    + split; [by rewrite Ef2, Ef, insert_insert_eq, <- !app_assoc|].
      rewrite En2, En, int64_wrap_add, <- app_assoc, (length_app d). f_equal. lia.
Qed.

Lemma untar_regular_inr abs f md h h' md' :
  untar_regular os darwin t0 abs f md h = (h', inr md') →
  files h' = <[abs := content (fData f)]> (files h) ∧
  int64_wrap (Z.of_nat (length (content (fData f)))) = fSize (fInfo f).
Proof.
  unfold untar_regular. intros (h1 & md1 & E1 & E)%bind_inr.
  assert (files h1 = files h) as Ef1.
  { case_bool_decide; [by injection E1 as <-|]. apply bind_inr in E1 as (? & ? & E1 & E1').
    injection E1' as <- _. apply checked_inr in E1 as ->. by rewrite files_snoc. }
  apply bind_inr in E as (h2 & [] & E2 & E). assert (files h2 = files h1) as Ef2.
  { destruct (_ && _); [|by injection E2 as <-]. apply bind_inr in E2 as (? & a & E2 & E2').
    injection E2 as <- <-. destruct (a_err _) as [[|]|]; try done; injection E2' as <-; by rewrite files_snoc. }
  apply bind_inr in E as (h3 & [] & E3 & E). apply checked_inr in E3 as ->.
  apply bind_inr in E as (h4 & [n err] & E4 & E). destruct err; [done|].
  destruct (copy_loop_inr _ _ _ _ _ _ _ _ [] E4) as [Ef4 En]; [|done|].
  { rewrite files_snoc. apply lookup_insert_eq. }
  apply bind_inr in E as (h5 & [] & E5 & E). apply checked_inr in E5 as ->.
  destruct (Z.eqb_spec n (fSize (fInfo f))) as [Hn|]; [|done]. simpl in E.
  apply bind_inr in E as (h6 & [] & E6 & E). injection E as <- _.
  assert (files h6 = files h4) as ->.
  { case_match; [apply checked_inr in E6 as ->|injection E6 as <-]; by rewrite ?files_snoc. }
  split; [|by rewrite <- Hn, En].
  by rewrite Ef4, files_snoc, Ef2, Ef1; cbn [replay]; rewrite insert_insert_eq.
Qed.

Lemma untar_entry_inr opts d f st h h' st' :
  untar_entry os darwin t0 opts d f st h = (h', inr st') →
  files h' = archive_files opts d [f] (files h) ∧
  (is_file opts f = true → int64_wrap (Z.of_nat (length (content (fData f)))) = fSize (fInfo f)).
Proof.
  unfold untar_entry, archive_files, is_file. destruct st as [pb md]. cbn [foldl].
  destruct (_ && _); [done|]. destruct (negb (validRelPath _)); [done|].
  destruct (match tfilter opts with Some _ => _ | None => _ end); simpl; [by intros [= <- _]|].
  destruct (IsRegular _).
  { intros (h1 & md' & E & E')%bind_inr. injection E' as <- _. by eapply untar_regular_inr in E as [-> ?]. }
  intros E. split; [|done]. destruct (IsDir _).
  { apply bind_inr in E as (h1 & [] & E & E'). injection E' as <- _.
    apply checked_inr in E as ->. by rewrite files_snoc. }
  destruct (_ =? _)%Z; [|done]. destruct (negb _); [done|]. by injection E as <- _.
Qed.

Lemma untar_loop_inr opts d fs ne st h h' :
  untar_loop os darwin t0 opts d fs ne st h = (h', inr tt) →
  files h' = archive_files opts d fs (files h) ∧
  ∀ f, f ∈ fs → is_file opts f = true →
    int64_wrap (Z.of_nat (length (content (fData f)))) = fSize (fInfo f).
Proof.
  revert st h. induction fs as [|f fs IH]; intros st h; simpl.
  - destruct ne; [done|]. intros [= <-]. split; [done|]. intros f Hf. by apply elem_of_nil in Hf.
  - intros (h1 & st1 & E1 & E)%bind_inr. apply untar_entry_inr in E1 as [Ef1 Hs1].
    apply IH in E as [Ef Hs]. split; [by rewrite Ef, Ef1|].
    intros g [->|Hg]%elem_of_cons; [done|by apply Hs].
Qed.
End files.

(** ** Extraction succeeds *)

(** A file system without errors, in which the directory exists. *)
Definition good_os (os : OS) : Prop := ∀ h c,
  a_err (os h c) = None ∧ a_isDir (os h c) = true ∧
  (∀ p d, c = Write p d → a_n (os h c) = Z.of_nat (length d)).

(** An entry that can be extracted: a valid name, and unless it is filtered
    out, a file with as many bytes as its header says, a directory, or a
    symbolic link that is skipped. *)
Definition good_entry (opts : tarOpts) (f : entry) : Prop :=
  validRelPath (fName f) = true ∧ (0 <= fSize (fInfo f))%Z ∧
  (is_file opts f = true →
     last_err (fData f) = None ∧ Z.of_nat (length (content (fData f))) = fSize (fInfo f)) ∧
  (match tfilter opts with Some flt => flt (fName f) (fInfo f) | None => false end = true ∨
   IsRegular (fMode (fInfo f)) = true ∨ IsDir (fMode (fInfo f)) = true ∨
   ((Z.land (fMode (fInfo f)) ModeSymlink =? ModeSymlink)%Z = true ∧ skipSymlinks opts = true)).

Definition total_size (fs : list entry) : Z := foldr (λ f n, (fSize (fInfo f) + n)%Z) 0%Z fs.

(** The sizes of the entries respect the limit. *)
Definition fits (opts : tarOpts) (n : Z) : Prop :=
  (n < 2 ^ 63)%Z ∧ ((maxUntarSize opts < 0)%Z ∨ (n <= maxUntarSize opts)%Z).

Lemma total_size_nonneg fs : Forall (λ f, (0 <= fSize (fInfo f))%Z) fs → (0 <= total_size fs)%Z.
Proof. induction 1; simpl; lia. Qed.

Section progress.
Context (os : OS) (darwin : bool) (t0 : Z).
Hypothesis Hos : good_os os.

Definition succeeds {A} (m : IO A) (Q : A → Prop) : Prop := ∀ h, ∃ h' a, m h = (h', inr a) ∧ Q a.

Lemma succeeds_bind {A B} (m : IO A) (f : A → IO B) Q R :
  succeeds m Q → (∀ a, Q a → succeeds (f a) R) → succeeds (m ≫= f) R.
Proof.
  intros Hm Hf h. destruct (Hm h) as (h1 & a & E & Ha). destruct (Hf a Ha h1) as (h2 & b & E2 & Hb).
  exists h2, b. unfold mbind, IO_bind. by rewrite E.
Qed.

Lemma succeeds_ret {A} (a : A) (Q : A → Prop) : Q a → succeeds (mret a) Q.
Proof. intros Ha h. by exists h, a. Qed.

Lemma succeeds_syscall c : succeeds (syscall os c) (λ a, ∃ h, a = os h c).
Proof. intros h. eauto 6. Qed.

Lemma succeeds_checked c w : succeeds (checked os c w) (λ _, True).
Proof.
  eapply succeeds_bind; [apply succeeds_syscall|]. intros a [h ->].
  destruct (Hos h c) as [-> _]. by apply succeeds_ret.
Qed.

Lemma succeeds_copy_chunk p d w : succeeds (copy_chunk os p d w) (λ r, r.2 = None).
Proof.
  unfold copy_chunk. destruct (_ =? _); [by apply succeeds_ret|].
  eapply succeeds_bind; [apply succeeds_syscall|]. intros a [h ->].
  destruct (Hos h (Write p d)) as (-> & _ & Hn). rewrite (Hn p d eq_refl).
  rewrite !(proj2 (Z.ltb_ge _ _)), Z.eqb_refl by lia. by apply succeeds_ret.
Qed.

Lemma succeeds_copy p ds last w : succeeds (copy_loop os p ds last None w) (λ r, r.2 = None).
Proof.
  revert w. induction ds as [|d ds IH]; intros w; simpl;
    (eapply succeeds_bind; [apply succeeds_copy_chunk|]; intros [w' err]; simpl; intros ->).
  - by apply succeeds_ret.
  - apply IH.
Qed.

(** The count [copyBuffer] returns is the length of the content. *)
Lemma copyBuffer_succeeds p f :
  last_err (fData f) = None → Z.of_nat (length (content (fData f))) = fSize (fInfo f) →
  (fSize (fInfo f) < 2 ^ 63)%Z → ∀ h, is_Some (files h !! p) →
  ∃ h', copyBuffer os p (fData f) h = (h', inr (fSize (fInfo f), None)).
Proof.
  intros He Hl Hlt h [x Hx]. destruct (succeeds_copy p (chunks (fData f)) (last_chunk (fData f)) 0 h)
    as (h' & [n err] & E & Herr). simpl in Herr. subst err. unfold copyBuffer. rewrite He.
  exists h'. rewrite E. do 3 f_equal.
  destruct (copy_loop_inr os p _ _ _ _ _ _ _ x E) as [_ ->]; [done|done|].
  fold (content (fData f)). rewrite Z.add_0_l, Hl. apply int64_wrap_id. lia.
Qed.

Lemma untar_regular_succeeds abs f md :
  last_err (fData f) = None → Z.of_nat (length (content (fData f))) = fSize (fInfo f) →
  (fSize (fInfo f) < 2 ^ 63)%Z → succeeds (untar_regular os darwin t0 abs f md) (λ _, True).
Proof.
  intros He Hl Hlt. unfold untar_regular. eapply (succeeds_bind _ _ (λ _, True)).
  { case_bool_decide; [by apply succeeds_ret|].
    eapply succeeds_bind; [apply succeeds_checked|intros _ _; by apply succeeds_ret]. }
  intros md' _. eapply (succeeds_bind _ _ (λ _, True)).
  { destruct (_ && _); [|by apply succeeds_ret]. eapply succeeds_bind; [apply succeeds_syscall|].
    intros a [h ->]. destruct (Hos h (Remove abs)) as [-> _]. by apply succeeds_ret. }
  intros _ _ h. unfold mbind at 1, IO_bind at 1.
  destruct (succeeds_checked (OpenFile abs (Perm (fMode (fInfo f)))) OpenError h) as (h1 & [] & E & _).
  rewrite E. apply checked_inr in E as ->. unfold mbind at 1, IO_bind at 1.
  destruct (copyBuffer_succeeds abs f He Hl Hlt (h ++ [OpenFile abs (Perm (fMode (fInfo f)))])) as [h2 ->].
  { rewrite files_snoc. simpl. rewrite lookup_insert_eq. eauto. }
  revert h2. change (succeeds (checked os (CloseFile abs) (WritingError abs);;
    if negb (fSize (fInfo f) =? fSize (fInfo f))%Z
    then throw (OnlyWrote (fSize (fInfo f)) abs (fSize (fInfo f)))
    else
      let modTime := if (t0 <? fModTime (fInfo f))%Z then t0 else fModTime (fInfo f) in
      (if negb (modTime =? 0)%Z then checked os (Chtimes abs modTime) (ChtimesError abs) else mret tt);;
      mret md') (λ _, True)).
  eapply succeeds_bind; [apply succeeds_checked|intros _ _]. rewrite Z.eqb_refl. cbn [negb].
  eapply (succeeds_bind _ _ (λ _, True)); [|intros _ _; by apply succeeds_ret].
  case_match; [apply succeeds_checked|by apply succeeds_ret].
Qed.

Lemma untar_entry_succeeds opts d f pb md :
  good_entry opts f → (0 <= pb)%Z → fits opts (pb + fSize (fInfo f)) →
  succeeds (untar_entry os darwin t0 opts d f (pb, md)) (λ st, st.1 = (pb + fSize (fInfo f))%Z).
Proof.
  intros (Hv & Hs & Hfile & Hkind) Hpb [Hlt Hmax]. unfold untar_entry.
  rewrite int64_wrap_id by lia.
  replace ((UnlimitedUntarSize <? maxUntarSize opts)%Z && (maxUntarSize opts <? pb + fSize (fInfo f))%Z)
    with false by (unfold UnlimitedUntarSize; lia).
  rewrite Hv. cbn [negb]. unfold is_file in Hfile.
  destruct (match tfilter opts with Some _ => _ | None => _ end); [by apply succeeds_ret|].
  destruct (IsRegular _).
  { destruct (Hfile eq_refl) as [He Hl].
    eapply succeeds_bind; [apply untar_regular_succeeds; [done..|lia]|].
    intros md' _. by apply succeeds_ret. }
  destruct (IsDir _).
  { eapply succeeds_bind; [apply succeeds_checked|]. intros _ _. by apply succeeds_ret. }
  destruct Hkind as [?|[?|[?|[-> ->]]]]; [done..|]. by apply succeeds_ret.
Qed.

Lemma untar_loop_succeeds opts d fs pb md :
  Forall (good_entry opts) fs → (0 <= pb)%Z → fits opts (pb + total_size fs) →
  succeeds (untar_loop os darwin t0 opts d fs None (pb, md)) (λ _, True).
Proof.
  intros Hfs. revert pb md. induction Hfs as [|f fs Hf Hfs IH]; intros pb md Hpb [Hlt Hmax]; simpl in *.
  { by apply succeeds_ret. }
  assert (0 <= total_size fs)%Z.
  { apply total_size_nonneg. eapply Forall_impl; [exact Hfs|]. by intros g (_ & ? & _). }
  pose proof Hf as (_ & Hs & _).
  eapply succeeds_bind; [apply untar_entry_succeeds; [done..|split; lia]|].
  intros [pb' md']. simpl. intros ->. apply IH; [lia|]. split; lia.
Qed.
End progress.

(** ** The amount of data written *)

Definition call_size (c : call) : nat := match c with Write _ d => length d | _ => 0 end.
Definition written (h : list call) : nat := sum_list_with call_size h.

Lemma written_snoc h c : written (h ++ [c]) = written h + call_size c.
Proof. unfold written. rewrite sum_list_with_app. simpl. lia. Qed.

(** The code writes at most [n] bytes, however it ends. *)
Definition writes_at_most {A} (m : IO A) (n : nat) : Prop := ∀ h, written (m h).1 <= written h + n.

Lemma writes_ret {A} (a : A) n : writes_at_most (mret a) n.
Proof. intros h. simpl. lia. Qed.

Lemma writes_throw {A} e n : writes_at_most (A := A) (throw e) n.
Proof. intros h. simpl. lia. Qed.

Lemma writes_bind {A B} (m : IO A) (f : A → IO B) n1 n2 n :
  writes_at_most m n1 → (∀ a, writes_at_most (f a) n2) → n1 + n2 <= n → writes_at_most (m ≫= f) n.
Proof.
  intros Hm Hf Hn h. unfold mbind, IO_bind. specialize (Hm h).
  destruct (m h) as [h1 [e|a]]; simpl in *; [lia|]. specialize (Hf a h1). lia.
Qed.

(** Follow the code to a call that is not a write. *)
Lemma writes_quiet_bind {A B} (m : IO A) (f : A → IO B) n :
  writes_at_most m 0 → (∀ a, writes_at_most (f a) n) → writes_at_most (m ≫= f) n.
Proof. intros Hm Hf. eapply writes_bind; [done..|lia]. Qed.

Lemma writes_syscall os c n : call_size c <= n → writes_at_most (syscall os c) n.
Proof. intros Hn h. simpl. rewrite written_snoc. lia. Qed.

Lemma writes_checked os c w n : call_size c = 0 → writes_at_most (checked os c w) n.
Proof.
  intros Hc. apply writes_quiet_bind; [apply writes_syscall; lia|]. intros a.
  destruct (a_err a); [apply writes_throw|apply writes_ret].
Qed.

Ltac quiet := repeat
  (case_match || simple apply writes_ret || simple apply writes_throw || (apply writes_checked; done) ||
   (apply writes_syscall; done) || (apply writes_quiet_bind; [|intros ?])).

Lemma writes_copy_chunk os p d w : writes_at_most (copy_chunk os p d w) (length d).
Proof.
  unfold copy_chunk. destruct (_ =? _); [apply writes_ret|].
  eapply (writes_bind _ _ (length d) 0); [by apply writes_syscall| |lia]. intros a.
  case_match; apply writes_ret.
Qed.

Lemma writes_copy os p src : writes_at_most (copyBuffer os p src) (length (content src)).
Proof.
  unfold copyBuffer, content. generalize 0%Z as w. induction (chunks src) as [|d ds IH]; intros w; simpl.
  - eapply (writes_bind _ _ _ 0); [apply writes_copy_chunk| |by rewrite Nat.add_0_r].
    intros [w' err]. case_match; apply writes_ret.
  - eapply writes_bind; [apply writes_copy_chunk| |rewrite <- app_assoc, (length_app d); done].
    intros [w' err]. case_match; [apply writes_ret|apply IH].
Qed.

Lemma writes_regular os darwin t0 abs f md :
  writes_at_most (untar_regular os darwin t0 abs f md) (length (content (fData f))).
Proof.
  unfold untar_regular. apply writes_quiet_bind; [quiet|intros md'].
  apply writes_quiet_bind; [quiet|intros []]. apply writes_quiet_bind; [by apply writes_checked|intros []].
  eapply (writes_bind _ _ _ 0); [apply writes_copy| |by rewrite Nat.add_0_r].
  intros [n err]. quiet.
Qed.

(** An entry passes the check of the size before anything is written. *)
Lemma untar_entry_writes os darwin t0 opts d f pb md h :
  (0 <= maxUntarSize opts)%Z → (0 <= fSize (fInfo f))%Z →
  (Z.of_nat (length (content (fData f))) <= fSize (fInfo f))%Z →
  (0 <= pb)%Z → (pb + fSize (fInfo f) < 2 ^ 63)%Z →
  (Z.of_nat (written h) <= pb)%Z → (pb <= maxUntarSize opts)%Z →
  match untar_entry os darwin t0 opts d f (pb, md) h with
  | (h', inl _) => (Z.of_nat (written h') <= maxUntarSize opts)%Z
  | (h', inr (pb', md')) =>
      pb' = (pb + fSize (fInfo f))%Z ∧ (Z.of_nat (written h') <= pb')%Z ∧ (pb' <= maxUntarSize opts)%Z
  end.
Proof.
  intros Hmax Hs Hc Hpb Hlt Hw Hle. unfold untar_entry. rewrite int64_wrap_id by lia.
  set (pb' := (pb + fSize (fInfo f))%Z) in *.
  destruct ((UnlimitedUntarSize <? maxUntarSize opts)%Z && (maxUntarSize opts <? pb')%Z) eqn:Hover.
  { simpl. lia. }
  assert (pb' <= maxUntarSize opts)%Z by (unfold UnlimitedUntarSize in Hover; lia).
  destruct (negb (validRelPath _)); [simpl; lia|].
  destruct (match tfilter opts with Some _ => _ | None => _ end); [simpl; lia|].
  destruct (IsRegular _).
  { unfold mbind, IO_bind. pose proof (writes_regular os darwin t0 (filepath_Join [d; fName f]) f md h) as Hr.
    destruct (untar_regular _ _ _ _ _ _ h) as [h' [e|md']]; simpl in *; lia. }
  destruct (IsDir _).
  { unfold mbind, IO_bind.
    pose proof (writes_checked os (MkdirAll (filepath_Join [d; fName f])
      (Z.lor (Perm (fMode (fInfo f))) 448)) MkdirError 0 eq_refl h) as Hr.
    destruct (checked _ _ _ h) as [h' [e|u]]; simpl in *; lia. }
  destruct (_ =? ModeSymlink)%Z; [destruct (negb _)|]; simpl; lia.
Qed.

Lemma untar_loop_writes os darwin t0 opts d fs ne pb md h :
  (0 <= maxUntarSize opts)%Z →
  Forall (λ f, (0 <= fSize (fInfo f))%Z ∧
    (Z.of_nat (length (content (fData f))) <= fSize (fInfo f))%Z) fs →
  (0 <= pb)%Z → (pb + total_size fs < 2 ^ 63)%Z →
  (Z.of_nat (written h) <= pb)%Z → (pb <= maxUntarSize opts)%Z →
  (Z.of_nat (written (untar_loop os darwin t0 opts d fs ne (pb, md) h).1) <= maxUntarSize opts)%Z.
Proof.
  intros Hmax Hfs. revert pb md h. induction Hfs as [|f fs [Hs Hc] Hfs IH]; intros pb md h Hpb Hlt Hw Hle;
    cbn [untar_loop total_size foldr] in *.
  { destruct ne; simpl; lia. }
  fold (total_size fs) in Hlt. assert (0 <= total_size fs)%Z.
  { apply total_size_nonneg. eapply Forall_impl; [exact Hfs|]. by intros g []. }
  unfold mbind, IO_bind.
  pose proof (untar_entry_writes os darwin t0 opts d f pb md h) as He.
  destruct (untar_entry _ _ _ _ _ _ _ h) as [h' [e|[pb' md']]].
  - apply He; lia.
  - destruct He as (-> & Hw' & Hle'); [lia..|]. apply IH; lia.
Qed.

Lemma Untar_calls_contained os cwd SecureJoin darwin t0 r dir inOpts :
  SecureJoin_ok SecureJoin → (∀ w, cwd = inr w → IsAbs w = true) →
  match untar_dir cwd SecureJoin dir with
  | inl _ => (Untar os cwd SecureJoin darwin t0 r dir inOpts []).1 = []
  | inr d => IsAbs d = true ∧ Clean d = d ∧
      Forall (contained d (fName <$> read_entries inOpts r))
        (Untar os cwd SecureJoin darwin t0 r dir inOpts []).1
  end.
Proof.
  intros Hsj Hcwd. destruct (untar_dir cwd SecureJoin dir) as [e|d] eqn:Ed.
  { unfold Untar. by rewrite Ed. }
  destruct (untar_dir_abs cwd SecureJoin dir d Hsj Hcwd Ed) as [Ha Hc]. split_and!; [done..|].
  destruct (Untar_cases os cwd SecureJoin darwin t0 r dir inOpts)
    as [(? & ? & _)|[(d' & e & E & ->)|(d' & tb & ce & E & _ & Er & ->)]]; [congruence|..];
    (assert (d' = d) as -> by congruence); [by repeat constructor|].
  pose proof (untar_loop_calls os darwin t0 (options_of inOpts) d (fName <$> read_entries inOpts r)
    (entries tb) (next_err tb) (0%Z, ∅) Ha) as Hl.
  destruct (untar_loop _ _ _ _ _ _ _ _ _) as [h res] eqn:El.
  assert (Forall (contained d (fName <$> read_entries inOpts r)) h); [|by destruct res].
  assert (h = (untar_loop os darwin t0 (options_of inOpts) d (entries tb) (next_err tb) (0%Z, ∅) [Lstat d]).1)
    as -> by by rewrite El.
  apply Hl; [|by repeat constructor]. intros f Hf. rewrite Er. by apply list_elem_of_fmap_2.
Qed.

(** C14. Extraction stays inside the directory, whatever the archive holds and
    however the file system answers: every file that is opened, written, closed,
    removed or touched is below the directory (or, for an entry whose name
    cleans to a bare dot-dot, is its parent), and only directories below it or
    on the way to it are made. *)
Theorem Untar_contained os cwd SecureJoin darwin t0 r dir inOpts :
  SecureJoin_ok SecureJoin → (∀ w, cwd = inr w → IsAbs w = true) →
  match untar_dir cwd SecureJoin dir with
  | inl _ => (Untar os cwd SecureJoin darwin t0 r dir inOpts []).1 = []
  | inr d => IsAbs d = true ∧ Clean d = d ∧
      Forall (contained d (fName <$> read_entries inOpts r))
        (Untar os cwd SecureJoin darwin t0 r dir inOpts []).1
  end.
Proof. apply Untar_calls_contained. Qed.

Section extraction.
Context (os : OS) (cwd : os_error + bytes) (SecureJoin : bytes → bytes → os_error + bytes).
Context (darwin : bool) (t0 : Z).

Lemma Untar_inr r dir inOpts h ce :
  Untar os cwd SecureJoin darwin t0 r dir inOpts [] = (h, inr ce) →
  ∃ d, untar_dir cwd SecureJoin dir = inr d ∧
    files h = archive_files (options_of inOpts) d (read_entries inOpts r) ∅ ∧
    ∀ f, f ∈ read_entries inOpts r → is_file (options_of inOpts) f = true →
      int64_wrap (Z.of_nat (length (content (fData f)))) = fSize (fInfo f).
Proof.
  intros Hrun. destruct (Untar_cases os cwd SecureJoin darwin t0 r dir inOpts)
    as [(? & _ & E)|[(? & ? & _ & E)|(d & tb & ce' & Ed & _ & -> & E)]]; [congruence..|].
  exists d. split; [done|]. rewrite E in Hrun.
  destruct (untar_loop _ _ _ _ _ _ _ _ _) as [h' [e|[]]] eqn:El; [done|].
  injection Hrun as <- <-. by apply untar_loop_inr in El.
Qed.

Lemma Untar_good r dir inOpts d tb ce :
  good_os os → untar_dir cwd SecureJoin dir = inr d →
  open_input (options_of inOpts) r = inr (tb, ce) → next_err tb = None →
  Forall (good_entry (options_of inOpts)) (entries tb) → fits (options_of inOpts) (total_size (entries tb)) →
  ∃ h, Untar os cwd SecureJoin darwin t0 r dir inOpts [] = (h, inr ce).
Proof.
  intros Hos Ed Eo Hne Hes Hfit. unfold Untar. fold (options_of inOpts). rewrite Ed, Eo.
  unfold lift, mbind, IO_bind, syscall. simpl.
  destruct (Hos [] (Lstat d)) as (-> & -> & _). simpl. rewrite Hne.
  destruct (untar_loop_succeeds os darwin t0 Hos (options_of inOpts) d (entries tb) 0 ∅ Hes
              ltac:(lia) Hfit [Lstat d]) as (h & [] & E & _).
  exists h. by rewrite E.
Qed.
End extraction.

(** Extraction is faithful: when [Untar] returns without an error, the
    files it has written are those of the archive that are regular and not
    filtered out, with their exact content, a later entry replacing an earlier
    one of the same path.  And it does return, for every archive of valid
    entries within the size limit on a file system without errors. *)
Theorem Untar_extracts os cwd SecureJoin darwin t0 r dir inOpts :
  (∀ h ce, Untar os cwd SecureJoin darwin t0 r dir inOpts [] = (h, inr ce) →
    ∃ d, untar_dir cwd SecureJoin dir = inr d ∧
      files h = archive_files (options_of inOpts) d (read_entries inOpts r) ∅) ∧
  (∀ d tb ce, good_os os → untar_dir cwd SecureJoin dir = inr d →
    open_input (options_of inOpts) r = inr (tb, ce) → next_err tb = None →
    Forall (good_entry (options_of inOpts)) (entries tb) →
    fits (options_of inOpts) (total_size (entries tb)) →
    ∃ h, Untar os cwd SecureJoin darwin t0 r dir inOpts [] = (h, inr ce)).
Proof.
  split.
  - intros h ce E. destruct (Untar_inr _ _ _ _ _ _ _ _ _ _ E) as (d & ? & ? & _). eauto.
  - intros d tb ce. apply Untar_good.
Qed.

(** C38. The limit on the size of an archive bounds what reaches the disk: with
    a limit in force, entries that hold no more data than their headers say and
    headers whose sizes do not overflow 64 bits, at most that many bytes are
    written, also when the extraction fails. *)
Theorem Untar_bounded os cwd SecureJoin darwin t0 r dir inOpts :
  (0 <= maxUntarSize (options_of inOpts))%Z →
  Forall (λ f, (0 <= fSize (fInfo f))%Z ∧
    (Z.of_nat (length (content (fData f))) <= fSize (fInfo f))%Z) (read_entries inOpts r) →
  (total_size (read_entries inOpts r) < 2 ^ 63)%Z →
  (Z.of_nat (written (Untar os cwd SecureJoin darwin t0 r dir inOpts []).1)
    <= maxUntarSize (options_of inOpts))%Z.
Proof.
  intros Hmax Hes Hlt. destruct (Untar_cases os cwd SecureJoin darwin t0 r dir inOpts)
    as [(? & _ & ->)|[(? & ? & _ & ->)|(d & tb & ce & _ & _ & Er & ->)]]; [done..|]. rewrite Er in *.
  pose proof (untar_loop_writes os darwin t0 (options_of inOpts) d (entries tb) (next_err tb) 0 ∅ [Lstat d]) as Hl.
  destruct (untar_loop _ _ _ _ _ _ _ _ _) as [h [e|[]]]; apply Hl; simpl; done || lia.
Qed.

(** ** Examples *)

(** A file system without errors. *)
Definition calm_os : OS := λ _ c, mkAnswer None (Z.of_nat (call_size c)) true.

Lemma calm_os_good : good_os calm_os.
Proof. intros h c. split_and!; [done..|]. by intros p d ->. Qed.

(** A join that resolves names below the root without following links. *)
Definition lexicalJoin (root p : bytes) : os_error + bytes :=
  inr (filepath_Join [root; Clean (sep :: p)]).

Lemma lexicalJoin_ok : SecureJoin_ok lexicalJoin.
Proof.
  intros root p q Hr [= <-]. assert (IsAbs (sep :: p) = true) as Hp by (apply IsAbs_cons; by eexists).
  rewrite (Clean_abs (sep :: p)) by done. pose proof (comps_proper (sep :: p)) as Hc.
  destruct (filepath_Join_abs root (render true (comps (sep :: p))) Hr ltac:(done)) as (H1 & H2 & H3).
  split_and!; [done..|]. unfold within. rewrite H3. unfold render.
  change (strings_Split (sep :: ?s) sep) with ([] :: strings_Split s sep).
  change ([] :: ?l) with ([[]] ++ l). rewrite walk_app. change (walk ?d [[]]) with (reverse (reverse d)).
  rewrite reverse_involutive. destruct (decide (comps (sep :: p) = [])) as [E|E].
  - rewrite E. change (walk ?d _) with (reverse (reverse d)). by rewrite reverse_involutive.
  - rewrite Split_Join by (done || by apply proper_no_sep). rewrite walk_proper by done. by apply prefix_app_r.
Qed.

(** A regular file, a directory, and a compressed archive. *)
Definition demo_file (name data : string) : entry :=
  mkEntry (str name) (mkInfo (Z.of_nat (String.length data)) 420 7) (mkReader [str data] [] None).
Definition demo_dir (name : string) (size : Z) : entry :=
  mkEntry (str name) (mkInfo size (ModeDir + 493) 7) (mkReader [] [] None).
Definition demo_input (fs : list entry) : input :=
  mkInput (mkTarball [] None) (inr (mkTarball fs None, None)).

Definition demo_run (fs : input) (dir : string) (opts : list Option) : list call * (untar_error + option os_error) :=
  Untar calm_os (inr (str "/work")) lexicalJoin false 9 fs (str dir) opts [].

Lemma Untar_contained_witness :
  Forall (contained (str "/work/out") (fName <$> read_entries [] (demo_input [demo_dir "app" 0; demo_file "app/a" "x"])))
    (demo_run (demo_input [demo_dir "app" 0; demo_file "app/a" "x"]) "../out" []).1 ∧
  length (demo_run (demo_input [demo_dir "app" 0; demo_file "app/a" "x"]) "../out" []).1 = 6.
Proof.
  split; [|by vm_compute].
  pose proof (Untar_contained calm_os (inr (str "/work")) lexicalJoin false 9
    (demo_input [demo_dir "app" 0; demo_file "app/a" "x"]) (str "../out") [] lexicalJoin_ok) as Hc.
  assert (untar_dir (inr (str "/work")) lexicalJoin (str "../out") = inr (str "/work/out")) as E by by vm_compute.
  rewrite E in Hc. apply Hc. intros w [= <-]. by vm_compute.
Defined.

Lemma Untar_extracts_witness :
  ∃ h, demo_run (demo_input [demo_dir "app" 0; demo_file "app/a" "x"; demo_file "app/a" "yz"]) "/out" [] = (h, inr None) ∧
    files h !! str "/out/app/a" = Some (str "yz").
Proof.
  pose proof (Untar_extracts calm_os (inr (str "/work")) lexicalJoin false 9
    (demo_input [demo_dir "app" 0; demo_file "app/a" "x"; demo_file "app/a" "yz"]) (str "/out") []) as [Hs Hg].
  destruct (Hg (str "/out") (mkTarball [demo_dir "app" 0; demo_file "app/a" "x"; demo_file "app/a" "yz"] None) None)
    as [h Hh]; [apply calm_os_good|by vm_compute|done|done| |split; [done|right; by vm_compute]|].
  { repeat constructor; try done; by vm_compute; auto. }
  exists h. split; [exact Hh|]. destruct (Hs _ _ Hh) as (d & Ed & ->).
  assert (untar_dir (inr (str "/work")) lexicalJoin (str "/out") = inr (str "/out")) as E by by vm_compute.
  rewrite E in Ed. injection Ed as <-. by vm_compute.
Defined.

Lemma Untar_bounded_witness :
  (Z.of_nat (written (demo_run (demo_input [demo_file "a" "four"; demo_file "b" "six"]) "/out"
    [WithMaxUntarSize 5]).1) <= 5)%Z ∧
  written (demo_run (demo_input [demo_file "a" "four"; demo_file "b" "six"]) "/out" [WithMaxUntarSize 5]).1 = 4.
Proof.
  split; [|by vm_compute].
  apply (Untar_bounded calm_os (inr (str "/work")) lexicalJoin false 9
    (demo_input [demo_file "a" "four"; demo_file "b" "six"]) (str "/out") [WithMaxUntarSize 5]); [done| |done].
  repeat constructor; done.
Defined.

(** The running total of the sizes is a 64-bit integer: a directory entry
    whose header claims nearly [2^63] bytes makes it negative, and the entries
    after it pass the check although the data written exceeds the limit. *)
Theorem Untar_limit_overflow :
  let fs := [demo_file "a" "x"; demo_dir "d" (2 ^ 63 - 1); demo_file "b" "more than ten bytes"] in
  let '(h, res) := demo_run (demo_input fs) "/out" [WithMaxUntarSize 10] in
  res = inr None ∧ 10 < written h.
Proof. vm_compute. split; [done|lia]. Qed.

(** A file entry whose name is a bare dot-dot is written to the parent of the
    directory. *)
Lemma Untar_dotdot :
  files (demo_run (demo_input [demo_file ".." "x"]) "/new/out" []).1 !! str "/new" = Some (str "x").
Proof. by vm_compute. Qed.
