(* ===== verification/Symlinks.v ===== *)
(** * Staging of directories with symbolic links ([tar/symlinks.go])

    [copyDir] walks a source tree, follows its symbolic links and copies the
    files they lead to.  The source tree is a parameter: what a directory holds,
    where a path leads when its links are resolved, what kind of file it is.
    Writing is a log of calls with arbitrary answers, as in [Untar].  The walk
    is bounded by fuel, since links can form cycles; the set of the directories
    on the call stack breaks them. *)

From S2P Require Import Prelude Utf8 GoPath Untar.

(** ** Calls and results *)

Inductive scall :=
  | SMkdirAll (p : bytes) (mode : Z)
  | SOpen (p : bytes)
  | SCreate (p : bytes) (mode : Z)      (* O_WRONLY|O_CREATE|O_TRUNC *)
  | SCopy (src dst : bytes)             (* io.Copy(out, in) *)
  | SClose (p : bytes).

(** An entry of a directory: its name, the symlink bit of its type and the
    mode [Info] reports. *)
Record dirent := mkDirent { eName : bytes; eLink : bool; eInfo : os_error + Z }.

Inductive symlink_error :=
  | OsError (e : os_error)
  | ResolvingError (p : bytes) (e : os_error)
  | NotWithin (src root : bytes)
  | IsNotDir (p : bytes)
  | StatDstError (e : os_error)
  | ResolvesOutside (p : bytes)
  | StatError (p : bytes) (e : os_error).

(** How a copy ends; [CopyNoFuel] is an artefact of the fuel. *)
Inductive copy_result := CopyDone | CopyFailed (e : symlink_error) | CopyNoFuel.

Section code.
(** The source tree and the current directory. *)
Context (ReadDir : bytes → os_error + list dirent).
Context (EvalSymlinks : bytes → os_error + bytes).
Context (Stat : bytes → os_error + Z).
Context (cwd : os_error + bytes).
(** The answers to the calls. *)
Context (os : list scall → scall → option os_error).

(** [src/tar/symlinks.go:202-211 isWithin] *)
Definition isWithin (root path : bytes) : bool :=
  let rel := Rel root path in
  negb (bool_decide (rel = dotdot)) && negb (HasPrefix rel (dotdot ++ [sep])).

(** The first error of two, as the deferred closes report it. *)
Definition first_err (e e' : option os_error) : option os_error :=
  match e with Some _ => e | None => e' end.

(** [src/tar/symlinks.go:213-240 copyResolvedFile] *)
Definition copyResolvedFile (src dst : bytes) (mode : Z) (h : list scall)
    : list scall * option os_error :=
  let h1 := h ++ [SOpen src] in
  match os h (SOpen src) with
  | Some e => (h1, Some e)
  | None =>
      let h2 := h1 ++ [SCreate dst mode] in
      match os h1 (SCreate dst mode) with
      | Some e => (h2 ++ [SClose src], Some e)
      | None =>
          let h3 := h2 ++ [SCopy src dst] in
          let h4 := h3 ++ [SClose dst] in
          (h4 ++ [SClose src],
           first_err (first_err (os h2 (SCopy src dst)) (os h3 (SClose dst))) (os h4 (SClose src)))
      end
  end.

(** What an entry of [srcDir] leads to: its path with links resolved and its
    mode.
    [src/tar/symlinks.go:153-179 copyDir] *)
Definition resolve_entry (confineRoot srcDir : bytes) (e : dirent) : symlink_error + (bytes * Z) :=
  let srcPath := filepath_Join [srcDir; eName e] in
  if eLink e then
    match EvalSymlinks srcPath with
    | inl err => inl (ResolvingError srcPath err)
    | inr realPath =>
        if negb (bool_decide (confineRoot = [])) && negb (isWithin confineRoot realPath)
        then inl (ResolvesOutside srcPath)
        else match Stat realPath with
             | inl err => inl (StatError realPath err)
             | inr mode => inr (realPath, mode)
             end
    end
  else match eInfo e with
       | inl err => inl (StatError srcPath err)
       | inr mode => inr (srcPath, mode)
       end.

(** The loop over the entries; [rec] copies a directory, with the map of
    visited directories that all calls share.
    [src/tar/symlinks.go:152-199 copyDir] *)
Fixpoint entries_loop
    (rec : bytes → bytes → gset bytes → list scall → list scall * gset bytes * copy_result)
    (confineRoot srcDir dstDir : bytes) (es : list dirent) (visited : gset bytes) (h : list scall)
    : list scall * gset bytes * copy_result :=
  match es with
  | [] => (h, visited, CopyDone)
  | e :: es =>
      let dstPath := filepath_Join [dstDir; eName e] in
      match resolve_entry confineRoot srcDir e with
      | inl err => (h, visited, CopyFailed err)
      | inr (realPath, mode) =>
          if IsDir mode then
            let h1 := h ++ [SMkdirAll dstPath mode] in
            match os h (SMkdirAll dstPath mode) with
            | Some err => (h1, visited, CopyFailed (OsError err))
            | None =>
                match rec realPath dstPath visited h1 with
                | (h, visited, CopyDone) =>
                    entries_loop rec confineRoot srcDir dstDir es visited h
                | r => r
                end
            end
          else if negb (IsRegular mode) then
            entries_loop rec confineRoot srcDir dstDir es visited h
          else
            match copyResolvedFile realPath dstPath mode h with
            | (h, Some err) => (h, visited, CopyFailed (OsError err))
            | (h, None) => entries_loop rec confineRoot srcDir dstDir es visited h
            end
      end
  end.

(** The deferred [delete] runs on every return once the directory is marked.
    [src/tar/symlinks.go:131-200 copyDir] *)
Fixpoint copyDir (fuel : nat) (confineRoot srcDir dstDir : bytes) (visited : gset bytes)
    (h : list scall) : list scall * gset bytes * copy_result :=
  match fuel with
  | O => (h, visited, CopyNoFuel)
  | S fuel =>
      if bool_decide (srcDir ∈ visited) then (h, visited, CopyDone)
      else
        let visited := {[srcDir]} ∪ visited in
        let '(h, visited, r) :=
          match ReadDir srcDir with
          | inl e => (h, visited, CopyFailed (OsError e))
          | inr es => entries_loop (copyDir fuel confineRoot) confineRoot srcDir dstDir es visited h
          end in
        (h, visited ∖ {[srcDir]}, r)
  end.

(** [src/tar/symlinks.go:119-129 checkDstDir] *)
Definition checkDstDir (dstDir : bytes) : option symlink_error :=
  match Stat dstDir with
  | inl e => Some (StatDstError e)
  | inr mode => if negb (IsDir mode) then Some (IsNotDir dstDir) else None
  end.

(** [filepath.Abs] *)
Definition filepath_Abs (p : bytes) : os_error + bytes :=
  if IsAbs p then inr (Clean p)
  else match cwd with inl e => inl e | inr wd => inr (filepath_Join [wd; p]) end.

(** The checks of the directories once they are resolved, and the copy.
    [src/tar/symlinks.go:104-116 ResolveSymlinksRoot] *)
Definition copy_checked (fuel : nat) (confineRoot absSrc realSrc dstDir : bytes)
    : list scall * copy_result :=
  match Stat realSrc with
  | inl e => ([], CopyFailed (OsError e))
  | inr mode =>
      if negb (IsDir mode) then ([], CopyFailed (IsNotDir absSrc))
      else match checkDstDir dstDir with
           | Some e => ([], CopyFailed e)
           | None => let '(h, _, r) := copyDir fuel confineRoot realSrc dstDir ∅ [] in (h, r)
           end
  end.

(** [src/tar/symlinks.go:27-64 ResolveSymlinks] *)
Definition ResolveSymlinks (fuel : nat) (srcDir dstDir : bytes) : list scall * copy_result :=
  match filepath_Abs srcDir with
  | inl e => ([], CopyFailed (OsError e))
  | inr absSrc =>
      match EvalSymlinks absSrc with
      | inl e => ([], CopyFailed (ResolvingError (str "srcDir") e))
      | inr realSrc => copy_checked fuel [] absSrc realSrc dstDir
      end
  end.

(** [src/tar/symlinks.go:66-117 ResolveSymlinksRoot] *)
Definition ResolveSymlinksRoot (fuel : nat) (rootDir srcDir dstDir : bytes)
    : list scall * copy_result :=
  match filepath_Abs rootDir with
  | inl e => ([], CopyFailed (OsError e))
  | inr absRoot =>
      match filepath_Abs srcDir with
      | inl e => ([], CopyFailed (OsError e))
      | inr absSrc =>
          match EvalSymlinks absRoot with
          | inl e => ([], CopyFailed (ResolvingError (str "rootDir") e))
          | inr realRoot =>
              match EvalSymlinks absSrc with
              | inl e => ([], CopyFailed (ResolvingError (str "srcDir") e))
              | inr realSrc =>
                  if negb (isWithin realRoot realSrc)
                  then ([], CopyFailed (NotWithin absSrc absRoot))
                  else copy_checked fuel realRoot absSrc realSrc dstDir
              end
          end
      end
  end.
End code.

(** ** Paths *)

Lemma isWithin_spec root p : isWithin root p = true ↔ within root p.
Proof.
  rewrite Rel_within. unfold isWithin.
  rewrite andb_true_iff, !negb_true_iff, bool_decide_eq_false. done.
Qed.

Lemma join_child d n :
  IsAbs d = true → proper n →
  IsAbs (filepath_Join [d; n]) = true ∧ comps (filepath_Join [d; n]) = comps d ++ [n].
Proof.
  intros Hd Hn. pose proof Hn as (Hne & _ & _ & Hs).
  destruct (filepath_Join_abs d n Hd Hne) as (H1 & _ & H3). split; [done|].
  rewrite H3, Split_id, walk_proper by (done || by constructor). done.
Qed.

Lemma within_child r d n : within r d → IsAbs d = true → proper n → within r (filepath_Join [d; n]).
Proof.
  unfold within. intros Hr Hd Hn. destruct (join_child d n Hd Hn) as [_ ->]. by apply prefix_app_r.
Qed.

Lemma filepath_Abs_abs cwd p q :
  (∀ w, cwd = inr w → IsAbs w = true) → filepath_Abs cwd p = inr q → IsAbs q = true.
Proof.
  intros Hcwd. unfold filepath_Abs. destruct (IsAbs p) eqn:Ep; [intros [= <-]; by rewrite Clean_IsAbs|].
  destruct cwd as [e|w]; [done|]. intros [= <-]. specialize (Hcwd w eq_refl).
  destruct p as [|c p]; [|by apply filepath_Join_abs].
  unfold filepath_Join. destruct w as [|c w]; [done|]. simpl. by rewrite Clean_IsAbs.
Qed.

(** ** The walk *)

Section walk.
Context (ReadDir : bytes → os_error + list dirent).
Context (EvalSymlinks : bytes → os_error + bytes).
Context (Stat : bytes → os_error + Z).
Context (os : list scall → scall → option os_error).
Context (root : bytes).
Implicit Types (p d src dst out : bytes) (v dirs : gset bytes) (h : list scall)
  (r : copy_result) (e : dirent) (es : list dirent)
  (rec : bytes → bytes → gset bytes → list scall → list scall * gset bytes * copy_result) (fuel : nat).
Local Abbreviation copyDir := (copyDir ReadDir EvalSymlinks Stat os).
Local Abbreviation resolve_entry := (resolve_entry EvalSymlinks Stat).
Local Abbreviation entries_loop := (entries_loop EvalSymlinks Stat os).

(** The map of visited directories is the same after a call as before. *)
Lemma entries_loop_visited rec src dst es v h h' v' r :
  (∀ p d v h h' v' r, rec p d v h = (h', v', r) → v' = v) →
  entries_loop rec root src dst es v h = (h', v', r) → v' = v.
Proof.
  intros Hrec. revert v h. induction es as [|e es IH]; intros v h; simpl; [by intros [= <- <- <-]|].
  destruct (resolve_entry root src e) as [err|[p m]]; [by intros [= <- <- <-]|].
  destruct (IsDir m).
  - destruct (os h _); [by intros [= <- <- <-]|].
    destruct (rec _ _ _ _) as [[h1 v1] r1] eqn:E. apply Hrec in E as ->.
    destruct r1; [apply IH|by intros [= <- <- <-]..].
  - destruct (negb _); [apply IH|]. destruct (copyResolvedFile _ _ _ _ _) as [h1 [err|]];
      [by intros [= <- <- <-]|apply IH].
Qed.

Lemma copyDir_visited fuel src dst v h h' v' r :
  copyDir fuel root src dst v h = (h', v', r) → v' = v.
Proof.
  revert src dst v h h' v' r. induction fuel as [|fuel IH]; intros src dst v h h' v' r; simpl;
    [by intros [= <- <- <-]|].
  case_bool_decide as Hin; [by intros [= <- <- <-]|].
  assert (({[src]} ∪ v) ∖ {[src]} = v) as Hv by set_solver.
  destruct (ReadDir src) as [e|es]; [intros [= _ <- _]; exact Hv|].
  destruct (entries_loop _ _ _ _ _ _ _) as [[h1 v1] r1] eqn:E. intros [= _ <- _].
  apply entries_loop_visited in E as ->; [exact Hv|]. apply IH.
Qed.

(** *** Termination *)

(** A set of directories that the walk does not leave. *)
Definition closed (dirs : gset bytes) : Prop := ∀ d es e p m,
  d ∈ dirs → ReadDir d = inr es → e ∈ es → resolve_entry root d e = inr (p, m) → IsDir m = true → p ∈ dirs.

Lemma entries_loop_ends rec src dst es v h (dirs : gset bytes) :
  (∀ p d v h h' v' r, rec p d v h = (h', v', r) → v' = v) →
  (∀ p d h, p ∈ dirs → (rec p d v h).2 ≠ CopyNoFuel) →
  (∀ e p m, e ∈ es → resolve_entry root src e = inr (p, m) → IsDir m = true → p ∈ dirs) →
  (entries_loop rec root src dst es v h).2 ≠ CopyNoFuel.
Proof.
  intros Hv Hrec. revert h. induction es as [|e es IH]; intros h Hes; simpl; [done|].
  assert (∀ h, (entries_loop rec root src dst es v h).2 ≠ CopyNoFuel) as IH'.
  { intros h'. apply IH. intros e' p m He'. apply Hes. by right. }
  destruct (resolve_entry root src e) as [err|[p m]] eqn:Er; [done|].
  destruct (IsDir m) eqn:Em.
  - destruct (os h _); [done|]. assert (p ∈ dirs) as Hp by (eapply Hes; [left|done..]).
    specialize (Hrec p (filepath_Join [dst; eName e]) (h ++ [SMkdirAll (filepath_Join [dst; eName e]) m]) Hp).
    destruct (rec _ _ _ _) as [[h1 v1] r1] eqn:E. apply Hv in E as ->. destruct r1; [apply IH'|done..].
  - destruct (negb _); [apply IH'|]. destruct (copyResolvedFile _ _ _ _ _) as [h1 [err|]]; [done|apply IH'].
Qed.

Lemma copyDir_ends dirs fuel src dst v h :
  closed dirs → src ∈ dirs → size (dirs ∖ v) < fuel →
  (copyDir fuel root src dst v h).2 ≠ CopyNoFuel.
Proof.
  intros Hcl. revert src dst v h. induction fuel as [|fuel IH]; intros src dst v h Hsrc Hf; [lia|]. simpl.
  case_bool_decide as Hin; [done|]. destruct (ReadDir src) as [e|es] eqn:Er; [done|].
  destruct (entries_loop _ _ _ _ _ _ _) as [[h1 v1] r1] eqn:E. simpl.
  assert (r1 = (entries_loop (copyDir fuel root) root src dst es ({[src]} ∪ v) h).2) as -> by by rewrite E.
  apply (entries_loop_ends _ _ _ _ _ _ dirs).
  - apply copyDir_visited.
  - intros p d h' Hp. apply IH; [done|].
    assert (dirs ∖ ({[src]} ∪ v) ⊂ dirs ∖ v) as Hlt.
    { split; [set_solver|]. intros Hs. assert (src ∈ dirs ∖ v) as Hd by set_solver.
      apply Hs in Hd. set_solver. }
    apply subset_size in Hlt. lia.
  - intros e p m He. by eapply Hcl.
Qed.

(** *** Confinement *)

(** Files are read below [root], and made below [out]. *)
Definition confined (out : bytes) (c : scall) : Prop :=
  match c with
  | SMkdirAll p _ | SCreate p _ => within out p
  | SOpen p => within root p
  | SCopy src dst => within root src ∧ within out dst
  | SClose p => within root p ∨ within out p
  end.

Lemma copyResolvedFile_confined out src dst mode h :
  within root src → within out dst → Forall (confined out) h →
  Forall (confined out) (copyResolvedFile os src dst mode h).1.
Proof.
  intros Hs Hd Hh. unfold copyResolvedFile. destruct (os h _); simpl.
  { apply Forall_app. split; [done|]. by repeat constructor. }
  destruct (os _ (SCreate dst mode)); simpl; rewrite !Forall_app, !Forall_singleton; simpl; auto 10.
Qed.

Hypothesis names_proper : ∀ d es e, ReadDir d = inr es → e ∈ es → proper (eName e).
Hypothesis eval_abs : ∀ p q, IsAbs p = true → EvalSymlinks p = inr q → IsAbs q = true.
Hypothesis root_abs : IsAbs root = true.

Lemma resolve_entry_confined src e p m :
  IsAbs src = true → within root src → proper (eName e) →
  resolve_entry root src e = inr (p, m) → IsAbs p = true ∧ within root p.
Proof.
  intros Ha Hw He. destruct (join_child src (eName e) Ha He) as [Hj _].
  unfold resolve_entry. destruct (eLink e).
  - destruct (EvalSymlinks _) as [err|q] eqn:Eq; [done|].
    rewrite (bool_decide_false (root = [])) by (by intros ->). simpl.
    destruct (isWithin root q) eqn:Ew; [|done]. simpl. destruct (Stat q); [done|].
    intros [= <- <-]. split; [by eapply eval_abs|by apply isWithin_spec].
  - destruct (eInfo e); [done|]. intros [= <- <-]. split; [done|by apply within_child].
Qed.

Lemma entries_loop_confined out rec src dst es v h :
  (∀ p d v h, IsAbs p = true → within root p → IsAbs d = true → within out d →
    Forall (confined out) h → Forall (confined out) (rec p d v h).1.1) →
  IsAbs src = true → within root src → IsAbs dst = true → within out dst →
  (∀ e, e ∈ es → proper (eName e)) → Forall (confined out) h →
  Forall (confined out) (entries_loop rec root src dst es v h).1.1.
Proof.
  intros Hrec Hsa Hsw Hda Hdw. revert v h. induction es as [|e es IH]; intros v h Hes Hh; simpl; [done|].
  assert (proper (eName e)) as He by (apply Hes; left).
  assert (∀ v h, Forall (confined out) h →
    Forall (confined out) (entries_loop rec root src dst es v h).1.1) as IH'.
  { intros v' h'. apply IH. intros e' He'. apply Hes. by right. }
  destruct (join_child dst (eName e) Hda He) as [Hja _]. pose proof (within_child out dst _ Hdw Hda He) as Hjw.
  destruct (resolve_entry root src e) as [err|[p m]] eqn:Er; [done|].
  destruct (resolve_entry_confined src e p m Hsa Hsw He Er) as [Hpa Hpw]. destruct (IsDir m).
  - assert (Forall (confined out) (h ++ [SMkdirAll (filepath_Join [dst; eName e]) m])) as Hh1
      by (apply Forall_app; split; [done|by repeat constructor]).
    destruct (os h _); [done|]. specialize (Hrec p (filepath_Join [dst; eName e]) v _ Hpa Hpw Hja Hjw Hh1).
    destruct (rec _ _ _ _) as [[h1 v1] r1]. destruct r1; [by apply IH'|done..].
  - destruct (negb _); [by apply IH'|].
    pose proof (copyResolvedFile_confined out p (filepath_Join [dst; eName e]) m h Hpw Hjw Hh) as Hc.
    destruct (copyResolvedFile _ _ _ _ _) as [h1 [err|]]; [done|by apply IH'].
Qed.

Lemma copyDir_confined out fuel src dst v h :
  IsAbs src = true → within root src → IsAbs dst = true → within out dst →
  Forall (confined out) h → Forall (confined out) (copyDir fuel root src dst v h).1.1.
Proof.
  revert src dst v h. induction fuel as [|fuel IH]; intros src dst v h Hsa Hsw Hda Hdw Hh; simpl; [done|].
  case_bool_decide; [done|]. destruct (ReadDir src) as [e|es] eqn:Er; [done|].
  pose proof (entries_loop_confined out (copyDir fuel root) src dst es ({[src]} ∪ v) h) as Hl.
  destruct (entries_loop _ _ _ _ _ _ _) as [[h1 v1] r1]. apply Hl; try done.
  intros e He. by eapply names_proper.
Qed.
End walk.

(** ** What is copied *)

Section leads.
Context (ReadDir : bytes → os_error + list dirent).
Context (EvalSymlinks : bytes → os_error + bytes).
Context (Stat : bytes → os_error + Z).
Context (os : list scall → scall → option os_error).
Context (root : bytes).
Implicit Types (p d src dst : bytes) (v : gset bytes) (h : list scall) (e : dirent) (es : list dirent)
  (rec : bytes → bytes → gset bytes → list scall → list scall * gset bytes * copy_result) (fuel : nat).
Local Abbreviation copyDir := (copyDir ReadDir EvalSymlinks Stat os).
Local Abbreviation resolve_entry := (resolve_entry EvalSymlinks Stat).
Local Abbreviation entries_loop := (entries_loop EvalSymlinks Stat os).

(** The names [ns] lead from the directory [d] to the regular file [f],
    through links, without entering a directory of [v] or any twice. *)
Inductive leads : gset bytes → bytes → list bytes → bytes → Prop :=
  | leads_file v d es e f m :
      d ∉ v → ReadDir d = inr es → e ∈ es → resolve_entry root d e = inr (f, m) →
      IsDir m = false → IsRegular m = true → leads v d [eName e] f
  | leads_dir v d es e p m ns f :
      d ∉ v → ReadDir d = inr es → e ∈ es → resolve_entry root d e = inr (p, m) →
      IsDir m = true → leads ({[d]} ∪ v) p ns f → leads v d (eName e :: ns) f.

(** The place of a file in the copy. *)
Definition place (dst : bytes) (ns : list bytes) : bytes := foldl (λ d n, filepath_Join [d; n]) dst ns.

(** The copies an entry of [src] calls for. *)
Definition entry_copies v src dst e (s t : bytes) : Prop :=
  ∃ p m, resolve_entry root src e = inr (p, m) ∧
    ((IsDir m = false ∧ IsRegular m = true ∧ s = p ∧ t = place dst [eName e]) ∨
     (IsDir m = true ∧ ∃ ns, leads v p ns s ∧ t = place dst (eName e :: ns))).

(** The calls are those that [Q] allows, in addition to the earlier ones. *)
Definition copies_more h h' (Q : bytes → bytes → Prop) : Prop :=
  ∀ s t, SCopy s t ∈ h' ↔ SCopy s t ∈ h ∨ Q s t.

Lemma copyResolvedFile_copies p q mode h h' :
  copyResolvedFile os p q mode h = (h', None) → copies_more h h' (λ s t, s = p ∧ t = q).
Proof.
  unfold copyResolvedFile. destruct (os h _); [done|]. destruct (os _ (SCreate q mode)); [done|].
  intros [= <- _] s t. rewrite !elem_of_app, !list_elem_of_singleton. naive_solver.
Qed.

Lemma entries_loop_copies rec src dst es v h h' v' :
  (∀ p d h h' v', rec p d v h = (h', v', CopyDone) →
     v' = v ∧ copies_more h h' (λ s t, ∃ ns, leads v p ns s ∧ t = place d ns)) →
  entries_loop rec root src dst es v h = (h', v', CopyDone) →
  copies_more h h' (λ s t, ∃ e, e ∈ es ∧ entry_copies v src dst e s t).
Proof.
  intros Hrec. revert h. induction es as [|e es IH]; intros h; simpl.
  { intros [= <- _] s t. split; [auto|]. intros [?|(e & He & _)]; [done|by apply elem_of_nil in He]. }
  assert (∀ h1, copies_more h h1 (entry_copies v src dst e) →
    entries_loop rec root src dst es v h1 = (h', v', CopyDone) →
    copies_more h h' (λ s t, ∃ e0, e0 ∈ e :: es ∧ entry_copies v src dst e0 s t)) as Hstep.
  { intros h1 H1 E s t. rewrite (IH h1 E s t), (H1 s t). setoid_rewrite elem_of_cons. naive_solver. }
  destruct (resolve_entry root src e) as [err|[p m]] eqn:Er; [done|].
  assert (∀ s t, entry_copies v src dst e s t ↔
    ((IsDir m = false ∧ IsRegular m = true ∧ s = p ∧ t = place dst [eName e]) ∨
     (IsDir m = true ∧ ∃ ns, leads v p ns s ∧ t = place dst (eName e :: ns)))) as Hec.
  { intros s t. unfold entry_copies. rewrite Er. split; [|eauto]. intros (p' & m' & [= <- <-] & ?). done. }
  destruct (IsDir m) eqn:Em.
  - destruct (os h _); [done|]. destruct (rec _ _ _ _) as [[h1 v1] [| |]] eqn:E; [|done..].
    apply Hrec in E as [-> H1]. apply Hstep. intros s t. rewrite (H1 s t), elem_of_app, Hec.
    rewrite list_elem_of_singleton. naive_solver.
  - destruct (IsRegular m) eqn:Eg; simpl.
    + destruct (copyResolvedFile _ _ _ _ _) as [h1 [err|]] eqn:E; [done|].
      apply copyResolvedFile_copies in E. apply Hstep. intros s t. rewrite (E s t), Hec. naive_solver.
    + apply Hstep. intros s t. rewrite Hec. naive_solver.
Qed.

Lemma copyDir_copies fuel src dst v h h' v' :
  copyDir fuel root src dst v h = (h', v', CopyDone) →
  v' = v ∧ copies_more h h' (λ s t, ∃ ns, leads v src ns s ∧ t = place dst ns).
Proof.
  intros E. split; [by eapply copyDir_visited|]. revert src dst v h h' v' E.
  induction fuel as [|fuel IH]; intros src dst v h h' v'; simpl; [done|]. case_bool_decide as Hin.
  { intros [= <- _] s t. split; [auto|]. intros [?|(ns & Hl & _)]; [done|]. by inversion Hl. }
  destruct (ReadDir src) as [err|es] eqn:Er; [done|].
  destruct (entries_loop _ _ _ _ _ _ _) as [[h1 v1] r1] eqn:E. intros [= <- _ ->].
  apply entries_loop_copies in E as Hc.
  - intros s t. rewrite (Hc s t). apply or_iff_compat_l. split.
    + intros (e & He & p & m & Ep & [(Hd & Hr & -> & ->)|(Hd & ns & Hl & ->)]).
      * exists [eName e]. split; [by eapply leads_file|done].
      * exists (eName e :: ns). split; [by eapply leads_dir|done].
    + intros (ns & Hl & ->).
      inversion Hl as [? ? es' e f m ? Er' He Ep Hd Hg|? ? es' e p m ns' f ? Er' He Ep Hd Hl'];
        subst; (assert (es' = es) as -> by congruence); exists e; (split; [done|]).
      * exists s, m. split; [done|]. by left.
      * exists p, m. split; [done|]. right. eauto.
  - intros p d h2 h3 v3 E3. split; [by eapply copyDir_visited|by eapply IH].
Qed.
End leads.

(** Staging follows every link and copies exactly the files they lead to:
    on a source tree whose directories are all in a finite set, the walk ends
    although links may form cycles, and when it ends without an error the
    copies made are those of the regular files reached by a path of names that
    enters no directory twice, each at that path below the destination. *)
Theorem copyDir_spec (ReadDir : bytes → os_error + list dirent) (EvalSymlinks : bytes → os_error + bytes)
    (Stat : bytes → os_error + Z) (os : list scall → scall → option os_error)
    (root : bytes) (fuel : nat) (src dst : bytes) (dirs : gset bytes) :
  closed ReadDir EvalSymlinks Stat root dirs → src ∈ dirs → size dirs < fuel →
  match copyDir ReadDir EvalSymlinks Stat os fuel root src dst ∅ [] with
  | (h, _, CopyDone) => ∀ s t, SCopy s t ∈ h ↔
      ∃ ns, leads ReadDir EvalSymlinks Stat root ∅ src ns s ∧ t = place dst ns
  | (_, _, CopyFailed _) => True
  | (_, _, CopyNoFuel) => False
  end.
Proof.
  intros Hcl Hsrc Hf. assert (dirs ∖ ∅ = dirs) as Hd by set_solver. rewrite <- Hd in Hf.
  pose proof (copyDir_ends ReadDir EvalSymlinks Stat os root dirs fuel src dst ∅ [] Hcl Hsrc Hf) as Hends.
  destruct (copyDir _ _ _ _ _ _ _ _ _ _) as [[h v] r] eqn:E. destruct r; [|done|by apply Hends].
  apply copyDir_copies in E as [_ Hc]. intros s t. rewrite (Hc s t). split; [|auto].
  intros [Hn|?]; [by apply elem_of_nil in Hn|done].
Qed.

(** C35. With a root, staging reads only below it: for every source tree and
    whatever errors occur, [ResolveSymlinksRoot] opens no file outside the
    resolved root, also through chains of links and dot-dot in their targets,
    and writes only below the destination.  The destination is absolute, and so
    are the working directory and what links of absolute paths resolve to; the
    names in a directory are proper names. *)
Theorem ResolveSymlinksRoot_confined ReadDir EvalSymlinks Stat cwd os fuel rootDir srcDir dstDir :
  (∀ d es e, ReadDir d = inr es → e ∈ es → proper (eName e)) →
  (∀ p q, IsAbs p = true → EvalSymlinks p = inr q → IsAbs q = true) →
  (∀ w, cwd = inr w → IsAbs w = true) → IsAbs dstDir = true →
  let '(h, r) := ResolveSymlinksRoot ReadDir EvalSymlinks Stat cwd os fuel rootDir srcDir dstDir in
  h = [] ∨ ∃ absRoot realRoot, filepath_Abs cwd rootDir = inr absRoot ∧ EvalSymlinks absRoot = inr realRoot ∧
    Forall (confined realRoot dstDir) h.
Proof.
  intros Hnames Heval Hcwd Hdst. unfold ResolveSymlinksRoot.
  destruct (filepath_Abs cwd rootDir) as [e|absRoot] eqn:Er; [by left|].
  destruct (filepath_Abs cwd srcDir) as [e|absSrc] eqn:Es; [by left|].
  apply (filepath_Abs_abs cwd _ _ Hcwd) in Er as Har, Es as Has.
  destruct (EvalSymlinks absRoot) as [e|realRoot] eqn:Err; [by left|].
  destruct (EvalSymlinks absSrc) as [e|realSrc] eqn:Ers; [by left|].
  destruct (isWithin realRoot realSrc) eqn:Ew; [|by left]. apply isWithin_spec in Ew.
  unfold copy_checked. cbn [negb]. destruct (Stat realSrc) as [e|m]; [by left|].
  destruct (negb _); [by left|]. destruct (checkDstDir Stat dstDir); [by left|].
  pose proof (copyDir_confined ReadDir EvalSymlinks Stat os realRoot Hnames Heval (Heval _ _ Har Err)
    dstDir fuel realSrc dstDir ∅ [] (Heval _ _ Has Ers) Ew Hdst (within_refl dstDir) ltac:(done)) as Hc.
  destruct (copyDir _ _ _ _ _ _ _ _ _ _) as [[h v] r]. right. by exists absRoot, realRoot.
Qed.

(** ** An example *)

(** A tree in which [/r/src/up] is a link to [/r/src] itself, [/r/src/app] a
    link to [/r/app], which holds a file. *)
Definition demo_ReadDir (d : bytes) : os_error + list dirent :=
  if bool_decide (d = str "/r/src") then
    inr [mkDirent (str "up") true (inl ErrNotExist); mkDirent (str "app") true (inl ErrNotExist)]
  else if bool_decide (d = str "/r/app") then inr [mkDirent (str "a.yaml") false (inr 420%Z)]
  else inr [].
Definition demo_Eval (p : bytes) : os_error + bytes :=
  if bool_decide (p = str "/r/src/up") then inr (str "/r/src")
  else if bool_decide (p = str "/r/src/app") then inr (str "/r/app")
  else inr p.
Definition demo_Stat (p : bytes) : os_error + Z := inr (ModeDir + 493)%Z.
Definition demo_calm : list scall → scall → option os_error := λ _ _, None.

Lemma demo_names d es e : demo_ReadDir d = inr es → e ∈ es → proper (eName e).
Proof.
  unfold demo_ReadDir. repeat case_bool_decide; intros [= <-]; intros He.
  all: repeat (apply elem_of_cons in He as [->|He]; [by apply (bool_decide_unpack _); vm_compute|]).
  all: by apply elem_of_nil in He.
Qed.

Lemma demo_leads :
  leads demo_ReadDir demo_Eval demo_Stat (str "/r") ∅ (str "/r/src") [str "app"; str "a.yaml"]
    (str "/r/app/a.yaml").
Proof.
  set (app := mkDirent (str "app") true (inl ErrNotExist)).
  set (file := mkDirent (str "a.yaml") false (inr 420%Z)).
  change (str "app") with (eName app) at 1. change [str "a.yaml"] with [eName file].
  eapply (leads_dir _ _ _ _ _ _ _ app (str "/r/app") (ModeDir + 493)).
  - apply not_elem_of_empty.
  - by vm_compute.
  - right. left.
  - by vm_compute.
  - by vm_compute.
  - eapply (leads_file _ _ _ _ _ _ _ file _ 420); [|by vm_compute|left|by vm_compute..].
    rewrite elem_of_union, elem_of_singleton. intros [E|E]; [by vm_compute in E|by apply elem_of_empty in E].
Qed.

Lemma copyDir_spec_witness :
  ∃ h v, copyDir demo_ReadDir demo_Eval demo_Stat demo_calm 4 (str "/r") (str "/r/src") (str "/out") ∅ []
    = (h, v, CopyDone) ∧ SCopy (str "/r/app/a.yaml") (str "/out/app/a.yaml") ∈ h.
Proof.
  pose proof (copyDir_spec demo_ReadDir demo_Eval demo_Stat demo_calm (str "/r") 4 (str "/r/src") (str "/out")
    {[str "/r/src"; str "/r/app"]}) as Hs.
  destruct (copyDir _ _ _ _ _ _ _ _ _ _) as [[h v] r] eqn:E.
  assert (r = CopyDone) as ->.
  { change r with (h, v, r).2. rewrite <- E. by vm_compute. }
  exists h, v. split; [done|]. apply Hs.
  - intros d es e p m _ Hr He Hp Hm. revert Hp. unfold resolve_entry.
    unfold demo_ReadDir in Hr. repeat case_bool_decide; simplify_eq/=.
    + apply elem_of_cons in He as [->|[->|He]%elem_of_cons]; [..|by apply elem_of_nil in He].
      * intros Hp. vm_compute in Hp. simplify_eq. apply elem_of_union_l. by apply elem_of_singleton.
      * intros Hp. vm_compute in Hp. simplify_eq. apply elem_of_union_r. by apply elem_of_singleton.
    + apply elem_of_cons in He as [->|He]; [|by apply elem_of_nil in He].
      simpl. intros [= <- <-]. by vm_compute in Hm.
    + by apply elem_of_nil in He.
  - apply elem_of_union_l. by apply elem_of_singleton.
  - assert (size ({[str "/r/src"; str "/r/app"]} : gset bytes) = 2) as -> by by vm_compute. lia.
  - exists [str "app"; str "a.yaml"]. split; [apply demo_leads|by vm_compute].
Defined.

Lemma ResolveSymlinksRoot_confined_witness :
  let '(h, r) := ResolveSymlinksRoot demo_ReadDir demo_Eval demo_Stat (inr (str "/")) demo_calm 4
    (str "/r") (str "/r/src") (str "/out") in
  r = CopyDone ∧ (h = [] ∨ ∃ absRoot realRoot, filepath_Abs (inr (str "/")) (str "/r") = inr absRoot ∧
    demo_Eval absRoot = inr realRoot ∧ Forall (confined realRoot (str "/out")) h).
Proof.
  pose proof (ResolveSymlinksRoot_confined demo_ReadDir demo_Eval demo_Stat (inr (str "/")) demo_calm 4
    (str "/r") (str "/r/src") (str "/out") demo_names) as Hc.
  destruct (ResolveSymlinksRoot _ _ _ _ _ _ _ _ _) as [h r] eqn:E. split.
  - change r with (h, r).2. rewrite <- E. by vm_compute.
  - apply Hc.
    + intros p q Hp. unfold demo_Eval. repeat case_bool_decide; intros [= <-]; done || by vm_compute.
    + intros w [= <-]. by vm_compute.
    + by vm_compute.
Defined.
