(* ===== verification/SecureFs.v ===== *)
(** * File systems of kustomize builds ([kustomize/filesys])

    [FileSystem] is the interface of kyaml.  [fsSecure] wraps a file system on
    disk and confirms that each path is below a root before it delegates;
    [fsMemory] layers a file system in memory over another one.  Both are
    functions from file systems to file systems, so that they compose. *)

From S2P Require Import Prelude Utf8 GoPath Untar Symlinks.

(** ** The interface *)

(** [ConstraintError] and the errors it wraps; [FsError] is one of the file
    system itself.
    [src/kustomize/filesys/fs_secure.go:84-90 ConstraintError] *)
Inductive fs_error :=
  | FsError (e : os_error)
  | ConstraintError (Op Path : bytes) (Err : fs_error)
  | AbsError (path : bytes) (e : os_error)
  | EvalError (path : bytes) (e : os_error)
  | RootConstraint (path root : bytes)
  | RootPrefixed (root prefix : bytes).

(** A file handle stands for the file it was opened on. *)
Record File := mkFile { file_path : bytes }.

(** [filepath.WalkFunc] with the state it updates. *)
Abbreviation WalkFunc W := (W → bytes → FileInfo → option fs_error → W * option fs_error) (only parsing).

(** [filesys.FileSystem]: operations that read are functions of the state,
    operations that write return a new one. *)
Record FileSystem (St : Type) := mkFS {
  fs_Create : St → bytes → St * (fs_error + File);
  fs_Mkdir : St → bytes → St * option fs_error;
  fs_MkdirAll : St → bytes → St * option fs_error;
  fs_RemoveAll : St → bytes → St * option fs_error;
  fs_Open : St → bytes → fs_error + File;
  fs_IsDir : St → bytes → bool;
  fs_ReadDir : St → bytes → fs_error + list bytes;
  fs_CleanedAbs : St → bytes → fs_error + (bytes * bytes);
  fs_Exists : St → bytes → bool;
  fs_Glob : St → bytes → fs_error + list bytes;
  fs_ReadFile : St → bytes → fs_error + bytes;
  fs_WriteFile : St → bytes → bytes → St * option fs_error;
  fs_Walk : ∀ {W : Type}, St → bytes → WalkFunc W → W → W * option fs_error }.
Arguments mkFS {St}.
Arguments fs_Create {St}.
Arguments fs_Mkdir {St}.
Arguments fs_MkdirAll {St}.
Arguments fs_RemoveAll {St}.
Arguments fs_Open {St}.
Arguments fs_IsDir {St}.
Arguments fs_ReadDir {St}.
Arguments fs_CleanedAbs {St}.
Arguments fs_Exists {St}.
Arguments fs_Glob {St}.
Arguments fs_ReadFile {St}.
Arguments fs_WriteFile {St}.
Arguments fs_Walk {St} _ {W}.

(** [ConfirmedDir.HasPrefix] of kyaml: true exactly if the argument equals or
    contains the directory, as paths of a file system. *)
Class ConfirmedDir := {
  dir_HasPrefix : bytes → bytes → bool;
  dir_HasPrefix_spec : ∀ d root, IsAbs d = true → Clean d = d → IsAbs root = true → Clean root = root →
    dir_HasPrefix d root = true ↔ within root d }.

(** ** [fsSecure] *)

(** [src/kustomize/filesys/fs_secure.go:76-82 fsSecure] *)
Record fsSecure (St : Type) := mkSecure {
  sec_root : bytes; sec_unsafeFS : FileSystem St; sec_allowPrefixes : list bytes }.
Arguments mkSecure {St}.
Arguments sec_root {St}.
Arguments sec_unsafeFS {St}.
Arguments sec_allowPrefixes {St}.

(** [src/kustomize/filesys/fs_secure.go:279-286 hasOneOfPrefixes] *)
Fixpoint hasOneOfPrefixes (s : bytes) (prefixes : list bytes) : bool * bytes :=
  match prefixes with
  | [] => (false, [])
  | p :: prefixes => if HasPrefix s p then (true, p) else hasOneOfPrefixes s prefixes
  end.

(** [src/kustomize/filesys/fs_secure.go:275-277 rootConstraintErr] *)
Definition rootConstraintErr (path root : bytes) : fs_error := RootConstraint path root.

Section secure.
Context {Dirs : ConfirmedDir} {St : Type}.
(** The working directory and [filepath.EvalSymlinks] on the disk. *)
Context (cwd : os_error + bytes) (EvalSymlinks : St → bytes → os_error + bytes).
Implicit Types (s : St) (path : bytes) (fs : fsSecure St).

(** [src/kustomize/filesys/fs_secure.go:246-273 isSecurePath] *)
Definition isSecurePath (fs : FileSystem St) (s : St) (root path : bytes) (allowedPrefixes : list bytes)
    : option fs_error :=
  match filepath_Abs cwd path with
  | inl e => Some (AbsError path e)
  | inr absRoot =>
      let checked (d : bytes) :=
        if (hasOneOfPrefixes d allowedPrefixes).1 then None
        else if negb (dir_HasPrefix d root) then Some (rootConstraintErr path root) else None in
      if fs_Exists fs s absRoot then
        match EvalSymlinks s absRoot with
        | inl e => Some (EvalError path e)
        | inr evaluated => checked (if negb (fs_IsDir fs s evaluated) then filepath_Dir evaluated else evaluated)
        end
      else checked absRoot
  end.

Definition confirm fs s path : option fs_error :=
  isSecurePath (sec_unsafeFS fs) s (sec_root fs) path (sec_allowPrefixes fs).

(** [src/kustomize/filesys/fs_secure.go:98-106 fsSecure.Create] *)
Definition sec_Create fs s path : St * (fs_error + File) :=
  match confirm fs s path with
  | Some e => (s, inl (ConstraintError (str "create") path e))
  | None => fs_Create (sec_unsafeFS fs) s path
  end.
(** [src/kustomize/filesys/fs_secure.go:108-116 fsSecure.Mkdir] *)
Definition sec_Mkdir fs s path : St * option fs_error :=
  match confirm fs s path with
  | Some e => (s, Some (ConstraintError (str "mkdir") path e))
  | None => fs_Mkdir (sec_unsafeFS fs) s path
  end.
(** [src/kustomize/filesys/fs_secure.go:118-126 fsSecure.MkdirAll] *)
Definition sec_MkdirAll fs s path : St * option fs_error :=
  match confirm fs s path with
  | Some e => (s, Some (ConstraintError (str "mkdir") path e))
  | None => fs_MkdirAll (sec_unsafeFS fs) s path
  end.
(** [src/kustomize/filesys/fs_secure.go:128-136 fsSecure.RemoveAll] *)
Definition sec_RemoveAll fs s path : St * option fs_error :=
  match confirm fs s path with
  | Some e => (s, Some (ConstraintError (str "remove") path e))
  | None => fs_RemoveAll (sec_unsafeFS fs) s path
  end.
(** [src/kustomize/filesys/fs_secure.go:138-146 fsSecure.Open] *)
Definition sec_Open fs s path : fs_error + File :=
  match confirm fs s path with
  | Some e => inl (ConstraintError (str "open") path e)
  | None => fs_Open (sec_unsafeFS fs) s path
  end.
(** [src/kustomize/filesys/fs_secure.go:148-156 fsSecure.IsDir] *)
Definition sec_IsDir fs s path : bool :=
  match confirm fs s path with Some _ => false | None => fs_IsDir (sec_unsafeFS fs) s path end.
(** [src/kustomize/filesys/fs_secure.go:158-166 fsSecure.ReadDir] *)
Definition sec_ReadDir fs s path : fs_error + list bytes :=
  match confirm fs s path with
  | Some e => inl (ConstraintError (str "open") path e)
  | None => fs_ReadDir (sec_unsafeFS fs) s path
  end.
(** [src/kustomize/filesys/fs_secure.go:168-185 fsSecure.CleanedAbs] *)
Definition sec_CleanedAbs fs s path : fs_error + (bytes * bytes) :=
  match fs_CleanedAbs (sec_unsafeFS fs) s path with
  | inl e => inl e
  | inr (d, f) =>
      if (hasOneOfPrefixes d (sec_allowPrefixes fs)).1 then inr (d, f)
      else if negb (dir_HasPrefix d (sec_root fs))
      then inl (ConstraintError (str "abs") path (rootConstraintErr path (sec_root fs)))
      else inr (d, f)
  end.
(** [src/kustomize/filesys/fs_secure.go:187-195 fsSecure.Exists] *)
Definition sec_Exists fs s path : bool :=
  match confirm fs s path with Some _ => false | None => fs_Exists (sec_unsafeFS fs) s path end.
(** [src/kustomize/filesys/fs_secure.go:197-211 fsSecure.Glob] *)
Definition sec_Glob fs s (pattern : bytes) : fs_error + list bytes :=
  match fs_Glob (sec_unsafeFS fs) s pattern with
  | inl e => inl e
  | inr paths => inr (filter (λ p, confirm fs s p = None) paths)
  end.
(** [src/kustomize/filesys/fs_secure.go:213-221 fsSecure.ReadFile] *)
Definition sec_ReadFile fs s path : fs_error + bytes :=
  match confirm fs s path with
  | Some e => inl (ConstraintError (str "read") path e)
  | None => fs_ReadFile (sec_unsafeFS fs) s path
  end.
(** [src/kustomize/filesys/fs_secure.go:223-231 fsSecure.WriteFile] *)
Definition sec_WriteFile fs s path (data : bytes) : St * option fs_error :=
  match confirm fs s path with
  | Some e => (s, Some (ConstraintError (str "write") path e))
  | None => fs_WriteFile (sec_unsafeFS fs) s path data
  end.
(** [src/kustomize/filesys/fs_secure.go:233-244 fsSecure.Walk] *)
Definition sec_Walk {W} fs s path (walkFn : WalkFunc W) (w : W) : W * option fs_error :=
  fs_Walk (sec_unsafeFS fs) s path
    (λ w path info err,
       match confirm fs s path with
       | Some e => (w, Some (ConstraintError (str "walk") path e))
       | None => walkFn w path info err
       end) w.

(** The wrapper as a file system. *)
Definition secureFS fs : FileSystem St :=
  mkFS (sec_Create fs) (sec_Mkdir fs) (sec_MkdirAll fs) (sec_RemoveAll fs) (sec_Open fs) (sec_IsDir fs)
    (sec_ReadDir fs) (sec_CleanedAbs fs) (sec_Exists fs) (sec_Glob fs) (sec_ReadFile fs) (sec_WriteFile fs)
    (λ W s path walkFn w, sec_Walk fs s path walkFn w).

(** The directory that a root is confirmed as; a root that is a file has a
    name left over, which is ignored.
    [src/kustomize/filesys/fs_secure.go:34-50 MakeFsOnDiskSecure] *)
Definition MakeFsOnDiskSecure (unsafeFS : FileSystem St) (s : St) (root : bytes) (allowPrefixes : list bytes)
    : fs_error + fsSecure St :=
  match fs_CleanedAbs unsafeFS s root with
  | inl e => inl e
  | inr (cleanedAbs, _) =>
      match hasOneOfPrefixes cleanedAbs allowPrefixes with
      | (true, prefix) => inl (RootPrefixed root prefix)
      | (false, _) => inr (mkSecure cleanedAbs unsafeFS allowPrefixes)
      end
  end.

(** [src/kustomize/filesys/fs_secure.go:52-61 TmpConfirmedDirPrefix] *)
Definition TmpConfirmedDirPrefix (TempDir : bytes) (s : St) : fs_error + bytes :=
  match EvalSymlinks s TempDir with
  | inl e => inl (FsError e)
  | inr evaluated => inr (filepath_Join [evaluated; str "kustomize-"])
  end.

(** [src/kustomize/filesys/fs_secure.go:63-74 MakeFsOnDiskSecureBuild] *)
Definition MakeFsOnDiskSecureBuild (TempDir : bytes) (unsafeFS : FileSystem St) (s : St) (root : bytes)
    (allowPrefixes : list bytes) : fs_error + fsSecure St :=
  match TmpConfirmedDirPrefix TempDir s with
  | inl e => inl e
  | inr dirPrefix => MakeFsOnDiskSecure unsafeFS s root (dirPrefix :: allowPrefixes)
  end.
End secure.

(** ** [fsMemory] *)

(** [src/kustomize/filesys/fs_memory.go:103-123 mergeResults] *)
Definition mergeResults (primary secondary : fs_error + list bytes) : fs_error + list bytes :=
  match primary, secondary with
  | inl _, inl sErr => inl sErr
  | _, _ =>
      let p := match primary with inl _ => [] | inr p => p end in
      let s := match secondary with inl _ => [] | inr s => s end in
      inr (p ++ filter (λ e, e ∉ p) s)
  end.

(** [src/kustomize/filesys/fs_memory.go:37-42 fsMemory] *)
Record fsMemory (D M : Type) := mkMemory { mem_disk : FileSystem D; mem_memory : FileSystem M }.
Arguments mkMemory {D M}.
Arguments mem_disk {D M}.
Arguments mem_memory {D M}.

Section memory.
Context {D M : Type} (fs : fsMemory D M).
Implicit Types (s : D * M) (path : bytes).
Local Abbreviation disk := (mem_disk fs).
Local Abbreviation memory := (mem_memory fs).

(** [src/kustomize/filesys/fs_memory.go:46-48 fsMemory.Create] *)
Definition mem_Create s path : (D * M) * (fs_error + File) :=
  let '(m, r) := fs_Create memory s.2 path in ((s.1, m), r).
(** [src/kustomize/filesys/fs_memory.go:49-49 fsMemory.Mkdir] *)
Definition mem_Mkdir s path : (D * M) * option fs_error :=
  let '(m, r) := fs_Mkdir memory s.2 path in ((s.1, m), r).
(** [src/kustomize/filesys/fs_memory.go:50-50 fsMemory.MkdirAll] *)
Definition mem_MkdirAll s path : (D * M) * option fs_error :=
  let '(m, r) := fs_MkdirAll memory s.2 path in ((s.1, m), r).
(** [src/kustomize/filesys/fs_memory.go:51-51 fsMemory.RemoveAll] *)
Definition mem_RemoveAll s path : (D * M) * option fs_error :=
  let '(m, r) := fs_RemoveAll memory s.2 path in ((s.1, m), r).
(** [src/kustomize/filesys/fs_memory.go:52-52 fsMemory.WriteFile] *)
Definition mem_WriteFile s path (data : bytes) : (D * M) * option fs_error :=
  let '(m, r) := fs_WriteFile memory s.2 path data in ((s.1, m), r).
(** [src/kustomize/filesys/fs_memory.go:56-56 fsMemory.Exists] *)
Definition mem_Exists s path : bool := fs_Exists memory s.2 path || fs_Exists disk s.1 path.
(** [src/kustomize/filesys/fs_memory.go:57-57 fsMemory.IsDir] *)
Definition mem_IsDir s path : bool := fs_IsDir memory s.2 path || fs_IsDir disk s.1 path.
(** [src/kustomize/filesys/fs_memory.go:59-64 fsMemory.Open] *)
Definition mem_Open s path : fs_error + File :=
  if fs_Exists memory s.2 path then fs_Open memory s.2 path else fs_Open disk s.1 path.
(** [src/kustomize/filesys/fs_memory.go:66-71 fsMemory.ReadFile] *)
Definition mem_ReadFile s path : fs_error + bytes :=
  if fs_Exists memory s.2 path then fs_ReadFile memory s.2 path else fs_ReadFile disk s.1 path.
(** [src/kustomize/filesys/fs_memory.go:73-75 fsMemory.CleanedAbs] *)
Definition mem_CleanedAbs s path : fs_error + (bytes * bytes) := fs_CleanedAbs disk s.1 path.
(** [src/kustomize/filesys/fs_memory.go:77-79 fsMemory.ReadDir] *)
Definition mem_ReadDir s path : fs_error + list bytes :=
  mergeResults (fs_ReadDir memory s.2 path) (fs_ReadDir disk s.1 path).
(** [src/kustomize/filesys/fs_memory.go:81-83 fsMemory.Glob] *)
Definition mem_Glob s (pattern : bytes) : fs_error + list bytes :=
  mergeResults (fs_Glob memory s.2 pattern) (fs_Glob disk s.1 pattern).
(** [src/kustomize/filesys/fs_memory.go:85-101 fsMemory.Walk] *)
Definition mem_Walk {W} s path (walkFn : WalkFunc W) (w : W) : W * option fs_error :=
  let on_disk (visited : gset bytes) (w : W) :=
    fs_Walk disk s.1 path (λ w p info err, if decide (p ∈ visited) then (w, None) else walkFn w p info err) w in
  if fs_Exists memory s.2 path then
    let '((w, visited), err) :=
      fs_Walk memory s.2 path
        (λ '(w, visited) p info err, let '(w, r) := walkFn w p info err in ((w, {[p]} ∪ visited), r)) (w, ∅) in
    match err with Some e => (w, Some e) | None => on_disk visited w end
  else on_disk ∅ w.

(** The layers as a file system; [memory] starts empty.
    [src/kustomize/filesys/fs_memory.go:26-35 MakeFsInMemory] *)
Definition MakeFsInMemory : FileSystem (D * M) :=
  mkFS mem_Create mem_Mkdir mem_MkdirAll mem_RemoveAll mem_Open mem_IsDir mem_ReadDir mem_CleanedAbs mem_Exists
    mem_Glob mem_ReadFile mem_WriteFile (λ W s path walkFn w, mem_Walk s path walkFn w).
End memory.

(** ** What the wrapper guarantees *)

(** The operations on one path, and their results. *)
Inductive fs_op :=
  | OCreate (p : bytes) | OMkdir (p : bytes) | OMkdirAll (p : bytes) | ORemoveAll (p : bytes)
  | OOpen (p : bytes) | OIsDir (p : bytes) | OReadDir (p : bytes) | OExists (p : bytes)
  | OReadFile (p : bytes) | OWriteFile (p data : bytes).

Inductive fs_result :=
  | RFile (r : fs_error + File) | RErr (e : option fs_error) | RBool (b : bool)
  | RNames (r : fs_error + list bytes) | RData (r : fs_error + bytes).

Definition op_path (o : fs_op) : bytes :=
  match o with
  | OCreate p | OMkdir p | OMkdirAll p | ORemoveAll p | OOpen p | OIsDir p | OReadDir p | OExists p
  | OReadFile p | OWriteFile p _ => p
  end.

Definition do_op {St} (fs : FileSystem St) (s : St) (o : fs_op) : St * fs_result :=
  match o with
  | OCreate p => let '(s, r) := fs_Create fs s p in (s, RFile r)
  | OMkdir p => let '(s, r) := fs_Mkdir fs s p in (s, RErr r)
  | OMkdirAll p => let '(s, r) := fs_MkdirAll fs s p in (s, RErr r)
  | ORemoveAll p => let '(s, r) := fs_RemoveAll fs s p in (s, RErr r)
  | OOpen p => (s, RFile (fs_Open fs s p))
  | OIsDir p => (s, RBool (fs_IsDir fs s p))
  | OReadDir p => (s, RNames (fs_ReadDir fs s p))
  | OExists p => (s, RBool (fs_Exists fs s p))
  | OReadFile p => (s, RData (fs_ReadFile fs s p))
  | OWriteFile p d => let '(s, r) := fs_WriteFile fs s p d in (s, RErr r)
  end.

(** A refusal names the path, or is the answer false. *)
Definition refusal (p : bytes) (r : fs_result) : Prop :=
  match r with
  | RFile (inl (ConstraintError _ q _)) | RErr (Some (ConstraintError _ q _))
  | RNames (inl (ConstraintError _ q _)) | RData (inl (ConstraintError _ q _)) => q = p
  | RBool b => b = false
  | _ => False
  end.

Section secure_theory.
Context {Dirs : ConfirmedDir} {St : Type}.
Context (cwd : os_error + bytes) (EvalSymlinks : St → bytes → os_error + bytes).
Context (fs : fsSecure St).
Implicit Types (s : St) (p d q : bytes).
Local Abbreviation unsafe := (sec_unsafeFS fs).

(** Where the wrapper lets an operation act. *)
Definition allowed d : Prop :=
  (∃ pre, pre ∈ sec_allowPrefixes fs ∧ pre `prefix_of` d) ∨ within (sec_root fs) d.

(** The directory of a resolved path. *)
Definition real_dir s q : bytes := if fs_IsDir unsafe s q then q else filepath_Dir q.

(** What is known of a path that passes: if it exists, it resolves to a place
    in an allowed directory; if it does not, its text is below one. *)
Definition confirmed s p : Prop :=
  ∃ a, filepath_Abs cwd p = inr a ∧
    if fs_Exists unsafe s a then ∃ q, EvalSymlinks s a = inr q ∧ allowed (real_dir s q) else allowed a.

(** The working directory, resolved paths and the root are absolute and clean. *)
Definition disk_ok : Prop :=
  (∀ w, cwd = inr w → IsAbs w = true) ∧
  (∀ s a q, IsAbs a = true → EvalSymlinks s a = inr q → IsAbs q = true ∧ Clean q = q) ∧
  IsAbs (sec_root fs) = true ∧ Clean (sec_root fs) = sec_root fs.

Lemma hasOneOfPrefixes_true d l :
  (hasOneOfPrefixes d l).1 = true ↔ ∃ pre, pre ∈ l ∧ pre `prefix_of` d.
Proof.
  induction l as [|x l IH]; simpl; [split; [done|]; intros (? & ?%not_elem_of_nil & _); done|].
  unfold HasPrefix. case_bool_decide as Hx; simpl.
  - split; [intros _; exists x; split; [constructor|done]|done].
  - rewrite IH. split; intros (pre & Hin & Hpre); exists pre; set_solver.
Qed.

Lemma filepath_Abs_clean p a :
  (∀ w, cwd = inr w → IsAbs w = true) → filepath_Abs cwd p = inr a → IsAbs a = true ∧ Clean a = a.
Proof.
  intros Hcwd Ha. pose proof (filepath_Abs_abs _ _ _ Hcwd Ha) as Habs. split; [done|]. revert Ha.
  unfold filepath_Abs. destruct (IsAbs p) eqn:Ep; [intros [= <-]; by apply Clean_idemp|].
  destruct cwd as [e|w]; [done|]. intros [= <-]. unfold filepath_Join in *.
  destruct (filter _ _) as [|x l]; [done|]. rewrite Clean_IsAbs in Habs. by apply Clean_idemp.
Qed.

Lemma confirm_sound s p : disk_ok → confirm cwd EvalSymlinks fs s p = None → confirmed s p.
Proof.
  intros (Hcwd & Heval & Hra & Hrc). unfold confirm, isSecurePath, confirmed.
  destruct (filepath_Abs cwd p) as [e|a] eqn:Ea; [done|].
  destruct (filepath_Abs_clean _ _ Hcwd Ea) as [Haa Hac].
  assert (∀ d, IsAbs d = true → Clean d = d →
    (if (hasOneOfPrefixes d (sec_allowPrefixes fs)).1 then None
     else if negb (dir_HasPrefix d (sec_root fs)) then Some (rootConstraintErr p (sec_root fs)) else None) = None →
    allowed d) as Hd.
  { intros d Hda Hdc. destruct (hasOneOfPrefixes d _).1 eqn:Ep.
    - intros _. left. by apply hasOneOfPrefixes_true.
    - destruct (dir_HasPrefix d (sec_root fs)) eqn:Er; [|done]. intros _. right. by apply dir_HasPrefix_spec. }
  intros Hc. exists a. split; [done|]. destruct (fs_Exists unsafe s a); [|by apply Hd].
  destruct (EvalSymlinks s a) as [e|q] eqn:Eq; [done|]. exists q. split; [done|].
  destruct (Heval s a q Haa Eq) as [Hqa Hqc]. unfold real_dir.
  destruct (fs_IsDir unsafe s q); simpl in Hc; apply Hd; try done; by apply comps_Dir.
Qed.

(** Every operation of the secure file system either is refused, with the
    disk as it was, or is the same operation of the unsafe one on a path that
    was confirmed: an existing path resolves, through all its links, to a
    place in a directory below the root or with an allowed prefix, and a new
    path is below one by its text. *)
Theorem fsSecure_confined s (o : fs_op) s' r :
  disk_ok → do_op (secureFS cwd EvalSymlinks fs) s o = (s', r) →
  (s' = s ∧ refusal (op_path o) r) ∨ (do_op unsafe s o = (s', r) ∧ confirmed s (op_path o)).
Proof.
  intros Hok Hr. pose proof (confirm_sound s (op_path o) Hok) as Hc.
  destruct o; cbn [do_op op_path secureFS fs_Create fs_Mkdir fs_MkdirAll fs_RemoveAll fs_Open fs_IsDir
    fs_ReadDir fs_Exists fs_ReadFile fs_WriteFile] in *;
    unfold sec_Create, sec_Mkdir, sec_MkdirAll, sec_RemoveAll, sec_Open, sec_IsDir, sec_ReadDir, sec_Exists,
      sec_ReadFile, sec_WriteFile in Hr;
    destruct (confirm _ _ _ _ _) as [e|]; try (right; split; [exact Hr|by apply Hc]); left; by simplify_eq/=.
Qed.

(** Walking and globbing show confirmed paths only: whatever a callback
    collects, it collects from confirmed paths.  The law is that a walk does
    nothing with the state but call the callback. *)
Definition walk_ok (f : FileSystem St) : Prop :=
  ∀ W (I : W → Prop) s p (fn : WalkFunc W) (w : W),
    (∀ w q info err, I w → I (fn w q info err).1) → I w → I (fs_Walk f s p fn w).1.

Lemma sec_Walk_confirmed W (I : W → Prop) s p (fn : WalkFunc W) (w : W) :
  walk_ok unsafe → disk_ok →
  (∀ w q info err, confirmed s q → I w → I (fn w q info err).1) → I w →
  I (sec_Walk cwd EvalSymlinks fs s p fn w).1.
Proof.
  intros Hw Hok Hfn. apply Hw. clear w. intros w q info err Hi.
  destruct (confirm _ _ _ _ _) eqn:Ec; [done|]. by apply Hfn; [apply confirm_sound|].
Qed.

Lemma sec_Glob_confirmed s pattern ps :
  disk_ok → sec_Glob cwd EvalSymlinks fs s pattern = inr ps → Forall (confirmed s) ps.
Proof.
  intros Hok. unfold sec_Glob. destruct (fs_Glob unsafe s pattern) as [e|paths]; [done|]. intros [= <-].
  apply Forall_forall. intros q [Hq _]%list_elem_of_filter. by apply confirm_sound.
Qed.
End secure_theory.

(** ** Layers *)

(** The listing has the names of the first layer, then the names only the
    second one has; it fails only if both fail. *)
Lemma mergeResults_spec primary secondary :
  match mergeResults primary secondary with
  | inl e => (∃ e', primary = inl e') ∧ secondary = inl e
  | inr l =>
      (∀ x, x ∈ l ↔ (∃ p, primary = inr p ∧ x ∈ p) ∨ (∃ s, secondary = inr s ∧ x ∈ s)) ∧
      ((∀ p, primary = inr p → NoDup p) → (∀ s, secondary = inr s → NoDup s) → NoDup l)
  end.
Proof.
  unfold mergeResults. destruct primary as [ep|p], secondary as [es|s]; [naive_solver| | |]; split.
  - intros x. simpl. rewrite list_elem_of_filter. set_solver.
  - intros _ Hs. apply NoDup_filter. by apply Hs.
  - intros x. simpl. rewrite app_nil_r. set_solver.
  - intros Hp _. simpl. rewrite app_nil_r. by apply Hp.
  - intros x. rewrite elem_of_app, list_elem_of_filter. destruct (decide (x ∈ p)); set_solver.
  - intros Hp Hs. apply NoDup_app. split_and!; [by apply Hp| |by apply NoDup_filter, Hs].
    intros x Hx [Hn _]%list_elem_of_filter. done.
Qed.

(** A file in memory reads back what was written; nothing else is known of
    the layer. *)
Definition memory_ok {M} (f : FileSystem M) : Prop :=
  ∀ m p d m', fs_WriteFile f m p d = (m', None) → fs_Exists f m' p = true ∧ fs_ReadFile f m' p = inr d.

Definition run_ops {St} (fs : FileSystem St) (s : St) (os : list fs_op) : St := foldl (λ s o, (do_op fs s o).1) s os.

Lemma MakeFsInMemory_disk {D M} (fs : fsMemory D M) s (os : list fs_op) :
  (run_ops (MakeFsInMemory fs) s os).1 = s.1.
Proof.
  revert s. induction os as [|o os IH]; intros s; simpl; [done|]. rewrite IH.
  destruct o; simpl; unfold mem_Create, mem_Mkdir, mem_MkdirAll, mem_RemoveAll, mem_WriteFile;
    repeat case_match; simplify_eq/=; done.
Qed.

Section build.
Context {Dirs : ConfirmedDir} {D M : Type}.
Context (cwd : os_error + bytes) (EvalSymlinks : D → bytes → os_error + bytes).
Context (sec : fsSecure D) (memory : FileSystem M).
Local Abbreviation build := (MakeFsInMemory (mkMemory (secureFS cwd EvalSymlinks sec) memory)).

(** C29. The file system of a build (memory over a secure disk) after any
    operations: the disk is as it was; a file that is written successfully
    reads back as written; and every content that is read comes from memory or
    from a file on disk whose path was confirmed. *)
Theorem build_reads_confined (d : D) (m : M) (os : list fs_op) (p : bytes) :
  disk_ok cwd EvalSymlinks sec → memory_ok memory →
  let s := run_ops build (d, m) os in
  s.1 = d ∧
  (∀ data s', fs_WriteFile build s p data = (s', None) → fs_ReadFile build s' p = inr data) ∧
  (∀ data, fs_ReadFile build s p = inr data →
     fs_ReadFile memory s.2 p = inr data ∨
     (fs_ReadFile (sec_unsafeFS sec) d p = inr data ∧ confirmed cwd EvalSymlinks sec d p)).
Proof.
  intros Hok Hm s. assert (s.1 = d) as Hd by apply MakeFsInMemory_disk. split_and!; [done| |].
  - intros data s' Hw. simpl in *. unfold mem_WriteFile, mem_ReadFile in *. simpl in *.
    destruct (fs_WriteFile memory s.2 p data) as [m' [e|]] eqn:Ew; [done|]. injection Hw as <-. simpl.
    destruct (Hm _ _ _ _ Ew) as [-> ->]. done.
  - intros data. simpl. unfold mem_ReadFile. simpl. rewrite Hd.
    destruct (fs_Exists memory s.2 p); [by left|]. unfold sec_ReadFile.
    destruct (confirm _ _ _ _ _) eqn:Ec; [done|]. intros Hr. right. split; [done|]. by apply confirm_sound.
Qed.
End build.

(** ** A disk with links *)

Inductive node := NDir | NFile (data : bytes) | NLink (target : bytes).
#[global] Instance node_eq_dec : EqDecision node.
Proof. solve_decision. Defined.

Abbreviation disk_state := (gmap bytes node) (only parsing).

(** The place a path leads to, following links; [fuel] bounds the elements
    and links that are followed. *)
Fixpoint resolve (fuel : nat) (s : disk_state) (at_ todo : list bytes) : option (list bytes) :=
  match fuel, todo with
  | _, [] => Some at_
  | 0, _ => None
  | S fuel, e :: todo =>
      match s !! render true (at_ ++ [e]) with
      | None => None
      | Some (NLink t) => resolve fuel s (if IsAbs t then [] else at_) (comps t ++ todo)
      | Some _ => resolve fuel s (at_ ++ [e]) todo
      end
  end.
Definition disk_Eval (s : disk_state) (p : bytes) : os_error + bytes :=
  match resolve 100 s [] (comps p) with Some l => inr (render true l) | None => inl ErrNotExist end.

(** The place where a file is written: an existing one, or a new one in the
    directory its parent leads to. *)
Definition disk_target (s : disk_state) (p : bytes) : os_error + bytes :=
  match disk_Eval s p with
  | inr q => inr q
  | inl _ => match disk_Eval s (filepath_Dir p) with
             | inr d => inr (filepath_Join [d; default [] (last (comps p))])
             | inl e => inl e
             end
  end.
Definition disk_write (s : disk_state) (p data : bytes) : disk_state * (fs_error + bytes) :=
  match disk_target s p with
  | inl e => (s, inl (FsError e))
  | inr q => if bool_decide (s !! q = Some NDir) then (s, inl (FsError (OtherError "is a directory")))
             else (<[q := NFile data]> s, inr q)
  end.
Definition disk_isDir (s : disk_state) (p : bytes) : bool :=
  match disk_Eval s p with
  | inr q => bool_decide (q = [sep]) || bool_decide (s !! q = Some NDir)
  | inl _ => false
  end.
Definition disk_read (s : disk_state) (p : bytes) : fs_error + bytes :=
  match disk_Eval s p with
  | inr q => match s !! q with Some (NFile d) => inr d | _ => inl (FsError (OtherError "not a file")) end
  | inl e => inl (FsError e)
  end.
Definition unsupported {A} : fs_error + A := inl (FsError (OtherError "unsupported")).

Definition demo_disk_fs : FileSystem disk_state :=
  mkFS (λ s p, let '(s, r) := disk_write s p [] in (s, match r with inl e => inl e | inr q => inr (mkFile q) end))
    (λ s p, (<[p := NDir]> s, None)) (λ s p, (<[p := NDir]> s, None)) (λ s p, (delete p s, None))
    (λ s p, match disk_Eval s p with inr q => inr (mkFile q) | inl e => inl (FsError e) end)
    disk_isDir (λ s p, unsupported)
    (λ s p, match disk_Eval s p with
            | inr q => if disk_isDir s q then inr (q, []) else inr (filepath_Dir q, default [] (last (comps q)))
            | inl e => inl (FsError e)
            end)
    (λ s p, match disk_Eval s p with inr _ => true | inl _ => false end) (λ s p, unsupported) disk_read
    (λ s p d, let '(s, r) := disk_write s p d in (s, match r with inl e => Some e | inr _ => None end))
    (λ W s p fn w, fn w p (mkInfo 0 0 0) None).

#[global] Instance demo_ConfirmedDir : ConfirmedDir := {|
  dir_HasPrefix d root := bool_decide (within root d);
  dir_HasPrefix_spec d root _ _ _ _ := bool_decide_eq_true (within root d) |}.

Definition demo_disk : disk_state :=
  list_to_map [(str "/work", NDir); (str "/work/a", NFile (str "A")); (str "/work/in", NLink (str "a"));
               (str "/work/etc", NLink (str "/etc")); (str "/etc", NDir); (str "/etc/passwd", NFile (str "P"))].
Definition demo_secure : fsSecure disk_state := mkSecure (str "/work") demo_disk_fs [].
Definition demo_cwd : os_error + bytes := inr (str "/work").

(** A new file escapes the root through a link to a directory: the secure
    file system refuses to read or overwrite what is there behind the link,
    but the path of a file that does not exist is confirmed by its text only,
    and the file is created outside. *)
Theorem fsSecure_new_file_escapes :
  MakeFsOnDiskSecure demo_disk_fs demo_disk (str "/work") [] = inr demo_secure ∧
  let fs := secureFS demo_cwd disk_Eval demo_secure in
  let r := fs_WriteFile fs demo_disk (str "/work/etc/cron") (str "X") in
  r.2 = None ∧ r.1 !! str "/etc/cron" = Some (NFile (str "X")) ∧ ¬ within (str "/work") (str "/etc/cron") ∧
  refusal (str "/work/etc/passwd") (do_op fs demo_disk (OReadFile (str "/work/etc/passwd"))).2.
Proof.
  split.
  { unfold MakeFsOnDiskSecure. by assert (fs_CleanedAbs demo_disk_fs demo_disk (str "/work") = inr (str "/work", [])) as ->
      by by vm_compute. }
  intros fs r. split_and!; [by vm_compute|by vm_compute| |by vm_compute].
  apply (bool_decide_eq_false (within (str "/work") (str "/etc/cron"))). by vm_compute.
Qed.

Lemma resolve_proper fuel s at_ todo l :
  Forall proper at_ → Forall proper todo → resolve fuel s at_ todo = Some l → Forall proper l.
Proof.
  revert at_ todo. induction fuel as [|fuel IH]; intros at_ [|e todo] Ha Ht; simpl;
    [by intros [= <-]|done|by intros [= <-]|].
  inversion_clear Ht as [|?? He Ht']. destruct (s !! _) as [[| |t]|]; [| | |done].
  - apply IH; [|done]. apply Forall_app. split; [done|by constructor].
  - apply IH; [|done]. apply Forall_app. split; [done|by constructor].
  - apply IH; [by destruct (IsAbs t); [constructor|]|]. apply Forall_app. split; [apply comps_proper|done].
Qed.

Lemma demo_disk_ok : disk_ok demo_cwd disk_Eval demo_secure.
Proof.
  split_and!; [by intros w [= <-]| |done|by vm_compute].
  intros s a q _. unfold disk_Eval. destruct (resolve _ _ _ _) as [l|] eqn:E; [|done]. intros [= <-].
  apply resolve_proper in E; [|constructor|apply comps_proper].
  assert (IsAbs (render true l) = true) as Ha by (apply IsAbs_cons; by eexists).
  split; [done|]. rewrite Clean_abs by done. by rewrite comps_cons, comps_Join.
Qed.

(** Files by name. *)
Definition demo_mem_fs : FileSystem (gmap bytes bytes) :=
  mkFS (λ m p, (<[p := []]> m, inr (mkFile p))) (λ m _, (m, None)) (λ m _, (m, None)) (λ m p, (delete p m, None))
    (λ m p, inr (mkFile p)) (λ _ _, false) (λ m _, inr (elements (dom m))) (λ _ _, unsupported)
    (λ m p, bool_decide (is_Some (m !! p))) (λ m _, inr (elements (dom m)))
    (λ m p, match m !! p with Some d => inr d | None => inl (FsError ErrNotExist) end)
    (λ m p d, (<[p := d]> m, None)) (λ W m p fn w, fn w p (mkInfo 0 0 0) None).

Lemma demo_mem_ok : memory_ok demo_mem_fs.
Proof.
  intros m p d m' [= <-]. simpl. rewrite lookup_insert_eq. split; [|done]. by apply bool_decide_eq_true.
Qed.

Lemma fsSecure_confined_witness :
  let fs := secureFS demo_cwd disk_Eval demo_secure in
  let o := OReadFile (str "/work/in") in
  do_op fs demo_disk o = (demo_disk, RData (inr (str "A"))) ∧
  (demo_disk = demo_disk ∧ refusal (op_path o) (RData (inr (str "A"))) ∨
   do_op demo_disk_fs demo_disk o = (demo_disk, RData (inr (str "A"))) ∧
   confirmed demo_cwd disk_Eval demo_secure demo_disk (op_path o)).
Proof.
  intros fs o.
  assert (do_op fs demo_disk o = (demo_disk, RData (inr (str "A")))) as E.
  { unfold do_op, o. by assert (fs_ReadFile fs demo_disk (str "/work/in") = inr (str "A")) as -> by by vm_compute. }
  split; [exact E|]. apply (fsSecure_confined demo_cwd disk_Eval demo_secure); [exact demo_disk_ok|exact E].
Defined.

Lemma build_reads_confined_witness :
  let build := MakeFsInMemory (mkMemory (secureFS demo_cwd disk_Eval demo_secure) demo_mem_fs) in
  let s := run_ops build (demo_disk, ∅) [OWriteFile (str "/work/kustomization.yaml") (str "K")] in
  s.1 = demo_disk ∧
  (∀ data s', fs_WriteFile build s (str "/work/in") data = (s', None) → fs_ReadFile build s' (str "/work/in") = inr data) ∧
  (∀ data, fs_ReadFile build s (str "/work/in") = inr data →
     fs_ReadFile demo_mem_fs s.2 (str "/work/in") = inr data ∨
     (fs_ReadFile demo_disk_fs demo_disk (str "/work/in") = inr data ∧
      confirmed demo_cwd disk_Eval demo_secure demo_disk (str "/work/in"))).
Proof.
  apply (build_reads_confined demo_cwd disk_Eval demo_secure demo_mem_fs demo_disk ∅
           [OWriteFile (str "/work/kustomization.yaml") (str "K")] (str "/work/in")).
  - exact demo_disk_ok.
  - exact demo_mem_ok.
Defined.
