(* ===== verification/SsaObject.v ===== *)
(** * Server-side apply: objects, predicates and errors
    ([ssa/utils], [ssa/errors])

    Kubernetes objects are values of a third-party library: a type with the
    accessors of the class [KubeObject].  The predicates on kinds and
    metadata, the textual identifiers and the classification of errors are the
    code of this repository. *)

From S2P Require Import Prelude Utf8 GoPath GoText.

(** ** Byte-wise order of strings *)

Fixpoint bytes_ltb (a b : bytes) : bool :=
  match a, b with
  | _, [] => false
  | [], _ :: _ => true
  | c :: a, d :: b =>
      if (bval c <? bval d)%Z then true else if (bval d <? bval c)%Z then false else bytes_ltb a b
  end.

Lemma bytes_ltb_irrefl a : bytes_ltb a a = false.
Proof. induction a as [|c a IH]; simpl; [done|]. by rewrite Z.ltb_irrefl. Qed.

Lemma bytes_ltb_trans a b c : bytes_ltb a b = true → bytes_ltb b c = true → bytes_ltb a c = true.
Proof.
  revert b c. induction a as [|x a IH]; intros [|y b] [|z c]; simpl; try done.
  destruct (Z.ltb_spec (bval x) (bval y)), (Z.ltb_spec (bval y) (bval z)),
    (Z.ltb_spec (bval x) (bval z)); simpl; try done; try lia.
  - destruct (Z.ltb_spec (bval z) (bval y)); [done|lia].
  - destruct (Z.ltb_spec (bval y) (bval x)); [done|lia].
  - destruct (Z.ltb_spec (bval y) (bval x)), (Z.ltb_spec (bval z) (bval y)),
      (Z.ltb_spec (bval z) (bval x)); try done; try lia. apply IH.
Qed.

Lemma bytes_ltb_total a b : bytes_ltb a b = false → bytes_ltb b a = false → a = b.
Proof.
  revert b. induction a as [|x a IH]; intros [|y b]; simpl; try done.
  destruct (Z.ltb_spec (bval x) (bval y)), (Z.ltb_spec (bval y) (bval x)); try done.
  intros H1 H2. f_equal; [apply bval_inj; lia|by apply IH].
Qed.

(** ** Objects *)

Record GroupKind := mkGK { gk_Group : bytes; gk_Kind : bytes }.

(** [object.ObjMetadata]: what identifies an object in a cluster. *)
Record ObjMetadata := mkMeta { om_Namespace : bytes; om_Name : bytes; om_GroupKind : GroupKind }.

#[global] Instance GroupKind_eq_dec : EqDecision GroupKind.
Proof. solve_decision. Defined.
#[global] Instance ObjMetadata_eq_dec : EqDecision ObjMetadata.
Proof. solve_decision. Defined.

Abbreviation StrMap := (gmap bytes bytes) (only parsing).

(** [unstructured.Unstructured] with the accessors that are used. *)
Class KubeObject (Obj : Type) := {
  GetKind : Obj → bytes;
  GetAPIVersion : Obj → bytes;
  GetGroup : Obj → bytes;
  GetVersion : Obj → bytes;
  GetObjName : Obj → bytes;
  GetObjNamespace : Obj → bytes;
  GetUID : Obj → bytes;
  GetResourceVersion : Obj → bytes;
  GetLabels : Obj → StrMap;
  GetAnnotations : Obj → StrMap;
  SetLabels : StrMap → Obj → Obj;
  SetAnnotations : StrMap → Obj → Obj;
  GetLabels_SetLabels : ∀ l o, GetLabels (SetLabels l o) = l;
  GetLabels_SetAnnotations : ∀ l o, GetLabels (SetAnnotations l o) = GetLabels o;
  GetAnnotations_SetAnnotations : ∀ l o, GetAnnotations (SetAnnotations l o) = l;
  GetAnnotations_SetLabels : ∀ l o, GetAnnotations (SetLabels l o) = GetAnnotations o }.

(** Equality of runes under Unicode case folding, beyond ASCII. *)
Class CaseFold := { foldU : Z → Z → bool }.

Section strings.
Context `{Unicode} `{CaseFold}.

Definition rune_EqualFold (r s : Z) : bool :=
  if (r <? 128)%Z && (s <? 128)%Z then (ToLower r =? ToLower s)%Z else foldU r s.

(** [strings.EqualFold] *)
Definition strings_EqualFold (s t : bytes) : bool :=
  (length (runes s) =? length (runes t)) &&
  forallb (λ p, rune_EqualFold p.1 p.2) (zip (runes s) (runes t)).
End strings.

Section objects.
Context {Obj : Type} `{KubeObject Obj} `{Unicode} `{CaseFold}.

(** [object.UnstructuredToObjMetadata] *)
Definition ObjMeta (o : Obj) : ObjMetadata :=
  mkMeta (GetObjNamespace o) (GetObjName o) (mkGK (GetGroup o) (GetKind o)).

Definition beq (a b : bytes) : bool := bool_decide (a = b).

(** ** Kinds ([ssa/utils/is.go], [job.go]) *)

(** [src/ssa/utils/is.go:41-45 IsCRD] *)
Definition IsCRD (o : Obj) : bool :=
  beq (strings_ToLower (GetKind o)) (str "customresourcedefinition") &&
  HasPrefix (GetAPIVersion o) (str "apiextensions.k8s.io/").
(** [src/ssa/utils/is.go:47-50 IsNamespace] *)
Definition IsNamespace (o : Obj) : bool :=
  beq (strings_ToLower (GetKind o)) (str "namespace") && beq (GetAPIVersion o) (str "v1").
(** [src/ssa/utils/is.go:52-56 IsClassDefinition] *)
Definition IsClassDefinition (o : Obj) : bool := HasSuffix (GetKind o) (str "Class").
(** [src/ssa/utils/is.go:58-62 IsCustomStage] *)
Definition IsCustomStage (o : Obj) (customStageKinds : list GroupKind) : bool :=
  bool_decide (mkGK (GetGroup o) (GetKind o) ∈ customStageKinds).
(** [src/ssa/utils/is.go:64-68 IsClusterRole] *)
Definition IsClusterRole (o : Obj) : bool :=
  beq (strings_ToLower (GetKind o)) (str "clusterrole") &&
  HasPrefix (GetAPIVersion o) (str "rbac.authorization.k8s.io/").
(** [src/ssa/utils/is.go:26-39 IsClusterDefinition] *)
Definition IsClusterDefinition (o : Obj) : bool :=
  if IsCRD o then true else if IsNamespace o then true else if IsClusterRole o then true else false.
(** [src/ssa/utils/is.go:70-76 IsKubernetesObject] *)
Definition IsKubernetesObject (o : Obj) : bool :=
  negb (beq (GetObjName o) [] || beq (GetKind o) [] || beq (GetAPIVersion o) []).
(** [src/ssa/utils/is.go:78-82 IsKustomization] *)
Definition IsKustomization (o : Obj) : bool :=
  beq (strings_ToLower (GetKind o)) (str "kustomization") &&
  HasPrefix (GetAPIVersion o) (str "kustomize.config.k8s.io/").
(** [src/ssa/utils/is.go:84-87 IsSecret] *)
Definition IsSecret (o : Obj) : bool :=
  beq (strings_ToLower (GetKind o)) (str "secret") && beq (GetAPIVersion o) (str "v1").
(** [src/ssa/utils/job.go:43-47 IsJob] *)
Definition IsJob (o : Obj) : bool :=
  beq (GetKind o) (str "Job") && HasPrefix (GetAPIVersion o) (str "batch/").

(** [ttl] reads [spec.ttlSecondsAfterFinished].
    [src/ssa/utils/job.go:27-41 ExtractJobsWithTTL] *)
Definition ExtractJobsWithTTL (ttl : Obj → option Z) (objects : list Obj) : list ObjMetadata :=
  objects ≫= λ o, if negb (IsJob o) then []
                  else match ttl o with Some _ => [ObjMeta o] | None => [] end.

(** ** Metadata ([ssa/utils/meta.go]) *)

(** [src/ssa/utils/meta.go:27-57 SetCommonMetadata] *)
Definition SetCommonMetadata (labels annotations : StrMap) (objects : list Obj) : list Obj :=
  (λ o,
    let lbs := labels ∪ GetLabels o in
    let o := if 0 <? size lbs then SetLabels lbs o else o in
    let ans := annotations ∪ GetAnnotations o in
    if 0 <? size ans then SetAnnotations ans o else o) <$> objects.

(** [src/ssa/utils/meta.go:59-71 AnyInMetadata] *)
Definition AnyInMetadata (o : Obj) (metadata : StrMap) : bool :=
  let labels := GetLabels o in
  let annotations := GetAnnotations o in
  existsb (λ '(key, val),
    let l := default [] (labels !! key) in
    let a := default [] (annotations !! key) in
    (negb (beq l []) && strings_EqualFold l val) || (negb (beq a []) && strings_EqualFold a val))
    (map_to_list metadata).

(** ** Identifiers ([ssa/utils/fmt.go]) *)

(** [src/ssa/utils/fmt.go:29-38 FmtObjMetadata] *)
Definition FmtObjMetadata (m : ObjMetadata) : bytes :=
  gk_Kind (om_GroupKind m) ++ str "/" ++
  (if negb (beq (om_Namespace m) []) then om_Namespace m ++ str "/" else []) ++ om_Name m.
(** [src/ssa/utils/fmt.go:40-43 FmtUnstructured] *)
Definition FmtUnstructured (o : Obj) : bytes := FmtObjMetadata (ObjMeta o).
(** [src/ssa/utils/fmt.go:45-52 FmtUnstructuredList] *)
Definition FmtUnstructuredList (objects : list Obj) : bytes :=
  TrimSuffix (objects ≫= λ o, FmtObjMetadata (ObjMeta o) ++ str (String "010" EmptyString))
    (str (String "010" EmptyString)).
End objects.

(** [strings.SplitN(s, "/", 2)] has one part, or two.
    [src/ssa/utils/meta.go:73-92 ParseGroupKindSet] *)
Definition ParseGroupKindSet (s : bytes) : list GroupKind :=
  if beq s [] then []
  else (λ item,
    let item := strings_TrimSpace item in
    match strings_Index item (str "/") with
    | None => mkGK [] item
    | Some i => mkGK (take i item) (drop (i + 1) item)
    end) <$> strings_Split s ",".

(** ** Errors ([ssa/errors]) *)

(** What the code asks of an error of the API server. *)
Record kerr := mkErr {
  IsNotFound : bool; IsConflict : bool; IsInvalid : bool;
  ReasonForError : bytes; managerConflict : option bytes; err_msg : bytes }.

(** The white space of a regular expression's [\s]. *)
Definition regex_space (c : ascii) : bool :=
  let b := bval c in (b =? 9)%Z || (b =? 10)%Z || (b =? 12)%Z || (b =? 13)%Z || (b =? 32)%Z.

(** A match of [p\sq] somewhere in the string. *)
Fixpoint match_space (p q s : bytes) : bool :=
  (HasPrefix s p &&
   match drop (length p) s with c :: r => regex_space c && HasPrefix r q | [] => false end) ||
  match s with [] => false | _ :: s => match_space p q s end.

(** [src/ssa/errors/immutable.go:25-48 IsImmutableError] *)
Definition IsImmutableError (e : kerr) : bool :=
  IsConflict e || IsInvalid e ||
  match_space (str "is") (str "immutable") (err_msg e) ||
  match_space (str "immutable") (str "field") (err_msg e).

Definition DryRunErr_paren (reason : bytes) : bytes :=
  if negb (beq reason []) then str " (" ++ reason ++ str ")" else reason.

(** [src/ssa/errors/errors.go:48-73 DryRunErr.Error] *)
Definition DryRunErr_Error {Obj} `{KubeObject Obj} (e : kerr) (o : option Obj) : bytes :=
  match o with
  | None => err_msg e
  | Some o =>
      if IsNotFound e then
        if beq (GetObjNamespace o) []
        then FmtUnstructured o ++ str " namespace not specified: " ++ err_msg e
        else FmtUnstructured o ++ str " not found: " ++ err_msg e
      else
        let reason := match managerConflict e with Some t => t | None => ReasonForError e end in
        FmtUnstructured o ++ str " dry-run failed" ++ DryRunErr_paren reason ++ str ": " ++ err_msg e
  end.

Definition plain_error (msg : string) : kerr := mkErr false false false [] None (str msg).

Example immutable_cel :
  IsImmutableError (plain_error "spec: Invalid value: Value is immutable") = true.
Proof. by vm_compute. Qed.

Example not_immutable : IsImmutableError (plain_error "is not immutable") = false.
Proof. by vm_compute. Qed.
