(* ===== verification/SsaSort.v ===== *)
(** * Server-side apply: order of objects and change sets
    ([ssa/sort.go], [ssa/changeset.go], [ssa/manager.go])

    Objects are applied in an order by kind; ties are broken by group, kind,
    namespace and name, so that the order does not depend on the input. *)

From S2P Require Import Prelude GoStd Utf8 GoPath SsaObject.

(** ** The order ([ssa/sort.go]) *)

(** [src/ssa/sort.go:29-32 KindOrder] *)
Record KindOrder := mkKindOrder { First : list bytes; Last : list bytes }.

(** [src/ssa/sort.go:34-66 ReconcileOrder] *)
Definition ReconcileOrder : KindOrder := mkKindOrder
  (str <$> ["CustomResourceDefinition"; "Namespace"; "ClusterRole"; "ClusterClass"; "RuntimeClass";
    "PriorityClass"; "StorageClass"; "VolumeSnapshotClass"; "IngressClass"; "GatewayClass";
    "ClusterRoleBinding"; "ResourceQuota"; "ServiceAccount"; "Role"; "RoleBinding"; "ConfigMap";
    "Secret"; "Service"; "LimitRange"; "Deployment"; "StatefulSet"; "CronJob";
    "PodDisruptionBudget"]%string)
  (str <$> ["MutatingWebhookConfiguration"; "ValidatingWebhookConfiguration"]%string).

(** [src/ssa/sort.go:102-116 computeKind2index] *)
Definition computeKind2index (o : KindOrder) : gmap bytes Z :=
  let m := foldl (λ m '(i, n), <[n := (- Z.of_nat (length (First o)) + Z.of_nat i)%Z]> m) ∅
             (imap pair (First o)) in
  foldl (λ m '(i, n), <[n := (1 + Z.of_nat i)%Z]> m) m (imap pair (Last o)).

(** [src/ssa/sort.go:118-121 getIndexByKind] *)
Definition getIndexByKind (kind : bytes) : Z := default 0%Z (computeKind2index ReconcileOrder !! kind).

(** [src/ssa/sort.go:123-125 Equals] *)
Definition Equals (i j : GroupKind) : bool := beq (gk_Group i) (gk_Group j) && beq (gk_Kind i) (gk_Kind j).

(** [src/ssa/sort.go:127-137 IsLessThan] *)
Definition IsLessThan (i j : GroupKind) : bool :=
  let indexI := getIndexByKind (gk_Kind i) in
  let indexJ := getIndexByKind (gk_Kind j) in
  if negb (indexI =? indexJ)%Z then (indexI <? indexJ)%Z
  else if negb (beq (gk_Group i) (gk_Group j)) then bytes_ltb (gk_Group i) (gk_Group j)
  else bytes_ltb (gk_Kind i) (gk_Kind j).

(** [src/ssa/sort.go:90-100 less] *)
Definition less (i j : ObjMetadata) : bool :=
  if negb (Equals (om_GroupKind i) (om_GroupKind j)) then IsLessThan (om_GroupKind i) (om_GroupKind j)
  else if negb (beq (om_Namespace i) (om_Namespace j)) then bytes_ltb (om_Namespace i) (om_Namespace j)
  else bytes_ltb (om_Name i) (om_Name j).

Section sorting.
Context {Obj : Type} `{KubeObject Obj} `{SortFunc}.

(** [src/ssa/sort.go:68-78 SortableUnstructureds.Less] *)
Definition obj_less (a b : Obj) : bool := less (ObjMeta a) (ObjMeta b).

(** [sort.Sort(SortableUnstructureds(objects))] *)
Definition sort_objects (objects : list Obj) : list Obj := sort_Slice obj_less objects.
(** [sort.Sort(sort.Reverse(SortableUnstructureds(objects)))] *)
Definition sort_objects_reverse (objects : list Obj) : list Obj :=
  sort_Slice (λ a b, obj_less b a) objects.

(** [src/ssa/sort.go:80-88 SortableMetas.Less] *)
Definition sort_metas (l : list ObjMetadata) : list ObjMetadata := sort_Slice less l.
End sorting.

(** ** Change sets ([ssa/changeset.go]) *)

(** [src/ssa/changeset.go:28-50 Action] *)
Inductive Action :=
  | CreatedAction | ConfiguredAction | UnchangedAction | DeletedAction | SkippedAction | UnknownAction.

#[global] Instance Action_eq_dec : EqDecision Action.
Proof. solve_decision. Defined.

(** [src/ssa/changeset.go:30-50 Action.String] *)
Definition Action_String (a : Action) : bytes :=
  str match a with
      | CreatedAction => "created" | ConfiguredAction => "configured" | UnchangedAction => "unchanged"
      | DeletedAction => "deleted" | SkippedAction => "skipped" | UnknownAction => "unknown"
      end.

(** [src/ssa/changeset.go:111-124 ChangeSetEntry] *)
Record ChangeSetEntry := mkEntry {
  cse_ObjMetadata : ObjMetadata; cse_GroupVersion : bytes; cse_Subject : bytes; cse_Action : Action }.

(** [src/ssa/changeset.go:126-130 ChangeSetEntry.String] *)
Definition ChangeSetEntry_String (e : ChangeSetEntry) : bytes :=
  cse_Subject e ++ str " " ++ Action_String (cse_Action e).

(** A change set is the list of its entries; [Add] and [Append] append.
    [src/ssa/changeset.go:52-54 ChangeSet] *)
Definition ChangeSet : Type := list ChangeSetEntry.
(** [src/ssa/changeset.go:56-59 NewChangeSet] *)
Definition NewChangeSet : ChangeSet := [].
(** [src/ssa/changeset.go:61-64 ChangeSet.Add] *)
Definition cs_Add (c : ChangeSet) (e : ChangeSetEntry) : ChangeSet := c ++ [e].
(** [src/ssa/changeset.go:66-69 ChangeSet.Append] *)
Definition cs_Append (c : ChangeSet) (e : list ChangeSetEntry) : ChangeSet := c ++ e.

Definition newline : bytes := [Ascii.ascii_of_nat 10].

(** [src/ssa/changeset.go:71-79 ChangeSet.String] *)
Definition cs_String (c : ChangeSet) : bytes :=
  TrimSuffix (c ≫= λ e, ChangeSetEntry_String e ++ newline) newline.

(** The subjects of each action, in order.
    [src/ssa/changeset.go:81-89 ChangeSet.ToGroupedMap] *)
Definition ToGroupedMap (c : ChangeSet) (a : Action) : list bytes :=
  cse_Subject <$> filter (λ e, cse_Action e = a) c.

(** A later entry of a subject replaces an earlier one.
    [src/ssa/changeset.go:91-99 ChangeSet.ToMap] *)
Definition ToMap (c : ChangeSet) : gmap bytes Action :=
  foldl (λ m e, <[cse_Subject e := cse_Action e]> m) ∅ c.

(** [src/ssa/changeset.go:101-109 ChangeSet.ToObjMetadataSet] *)
Definition ToObjMetadataSet (c : ChangeSet) : list ObjMetadata := cse_ObjMetadata <$> c.

(** ** The manager ([ssa/manager.go], [ssa/owner.go]) *)

(** [src/ssa/owner.go:19-26 Owner] *)
Record Owner := mkOwner { owner_Field : bytes; owner_Group : bytes }.

(** [src/ssa/manager.go:30-36 ResourceManager]
    The client and the poller are the environment of the operations. *)
Record ResourceManager := mkManager { owner : Owner; concurrency : Z }.

(** [src/ssa/manager.go:38-46 NewResourceManager] *)
Definition NewResourceManager (o : Owner) : ResourceManager := mkManager o 1.

(** [src/ssa/manager.go:53-59 ResourceManager.SetConcurrency] *)
Definition SetConcurrency (m : ResourceManager) (c : Z) : ResourceManager :=
  let c := if (c <? 1)%Z then 1%Z else c in mkManager (owner m) c.

Section manager.
Context {Obj : Type} `{KubeObject Obj}.

(** [src/ssa/manager.go:61-78 ResourceManager.SetOwnerLabels] *)
Definition SetOwnerLabels (m : ResourceManager) (name namespace : bytes) (objects : list Obj) : list Obj :=
  (λ o, SetLabels (<[owner_Group (owner m) ++ str "/namespace" := namespace]>
          (<[owner_Group (owner m) ++ str "/name" := name]> (GetLabels o))) o) <$> objects.

(** [src/ssa/manager.go:80-86 ResourceManager.GetOwnerLabels] *)
Definition GetOwnerLabels (m : ResourceManager) (name namespace : bytes) : StrMap :=
  <[owner_Group (owner m) ++ str "/namespace" := namespace]>
    {[owner_Group (owner m) ++ str "/name" := name]}.

(** [src/ssa/manager.go:88-95 ResourceManager.changeSetEntry] *)
Definition changeSetEntry (o : Obj) (a : Action) : ChangeSetEntry :=
  mkEntry (ObjMeta o) (GetVersion o) (FmtUnstructured o) a.
End manager.

(** ** [less] is a strict total order *)

(** A boolean strict total order. *)
Class StrictTotal {A} (lt : A → A → bool) : Prop := {
  lt_irrefl : ∀ a, lt a a = false;
  lt_trans : ∀ a b c, lt a b = true → lt b c = true → lt a c = true;
  lt_total : ∀ a b, lt a b = false → lt b a = false → a = b }.

#[global] Instance bytes_ltb_strict : StrictTotal bytes_ltb.
Proof. split; [apply bytes_ltb_irrefl|apply bytes_ltb_trans|apply bytes_ltb_total]. Qed.

#[global] Instance Z_ltb_strict : StrictTotal Z.ltb.
Proof. split; [apply Z.ltb_irrefl|intros a b c; rewrite !Z.ltb_lt; lia|intros a b; rewrite !Z.ltb_ge; lia]. Qed.

(** Lexicographic comparison: by [f] where it differs, else by [g]. *)
Lemma lex_strict {A B C} (ltB : B → B → bool) (ltC : C → C → bool) (f : A → B) (g : A → C)
    (lt : A → A → bool) :
  StrictTotal ltB → StrictTotal ltC → (∀ a b, f a = f b → g a = g b → a = b) →
  (∀ a b, f a ≠ f b → lt a b = ltB (f a) (f b)) → (∀ a b, f a = f b → lt a b = ltC (g a) (g b)) →
  EqDecision B → StrictTotal lt.
Proof.
  intros HB HC Hinj Hne Heq Hdec. split.
  - intros a. rewrite Heq by done. apply (lt_irrefl (lt := ltC)).
  - intros a b c. destruct (decide (f a = f b)) as [E1|E1], (decide (f b = f c)) as [E2|E2].
    + rewrite !Heq by congruence. apply (lt_trans (lt := ltC)).
    + rewrite (Heq a b), (Hne b c), (Hne a c), E1 by congruence. done.
    + rewrite (Hne a b), (Heq b c), (Hne a c), E2 by congruence. done.
    + rewrite (Hne a b), (Hne b c) by done. intros H1 H2.
      pose proof (lt_trans (lt := ltB) _ _ _ H1 H2) as H3.
      destruct (decide (f a = f c)) as [E3|E3]; [|by rewrite Hne].
      by rewrite E3, (lt_irrefl (lt := ltB)) in H3.
  - intros a b. destruct (decide (f a = f b)) as [E|E].
    + rewrite !Heq by done. intros H1 H2. apply Hinj; [done|]. by apply (lt_total (lt := ltC)).
    + rewrite !Hne by done. intros H1 H2. by apply (lt_total (lt := ltB)) in H1.
Qed.

Lemma beq_spec a b : reflect (a = b) (beq a b).
Proof. unfold beq. case_bool_decide; by constructor. Qed.

(** Kinds by group and name, then by index. *)
Definition gk_ltb (i j : GroupKind) : bool :=
  if negb (beq (gk_Group i) (gk_Group j)) then bytes_ltb (gk_Group i) (gk_Group j)
  else bytes_ltb (gk_Kind i) (gk_Kind j).

#[global] Instance gk_ltb_strict : StrictTotal gk_ltb.
Proof.
  apply (lex_strict bytes_ltb bytes_ltb gk_Group gk_Kind); try apply _; unfold gk_ltb.
  - intros [] []; simpl; congruence.
  - intros a b Hab. by destruct (beq_spec (gk_Group a) (gk_Group b)).
  - intros a b Hab. by destruct (beq_spec (gk_Group a) (gk_Group b)).
Qed.

#[global] Instance IsLessThan_strict : StrictTotal IsLessThan.
Proof.
  apply (lex_strict Z.ltb gk_ltb (λ g, getIndexByKind (gk_Kind g)) (λ g, g)); try apply _; [done|..];
    unfold IsLessThan; intros a b Hab;
    by destruct (Z.eqb_spec (getIndexByKind (gk_Kind a)) (getIndexByKind (gk_Kind b))).
Qed.

Lemma Equals_spec i j : reflect (i = j) (Equals i j).
Proof.
  unfold Equals. destruct (beq_spec (gk_Group i) (gk_Group j)), (beq_spec (gk_Kind i) (gk_Kind j)); simpl;
    constructor; destruct i, j; simpl in *; congruence.
Qed.

(** Objects of one kind by namespace and name. *)
Definition key_ltb (i j : bytes * bytes) : bool :=
  if negb (beq i.1 j.1) then bytes_ltb i.1 j.1 else bytes_ltb i.2 j.2.

#[global] Instance key_ltb_strict : StrictTotal key_ltb.
Proof.
  apply (lex_strict bytes_ltb bytes_ltb fst snd); try apply _; unfold key_ltb.
  - intros [] []; simpl; congruence.
  - intros a b Hab. by destruct (beq_spec a.1 b.1).
  - intros a b Hab. by destruct (beq_spec a.1 b.1).
Qed.

#[global] Instance less_strict : StrictTotal less.
Proof.
  apply (lex_strict IsLessThan key_ltb om_GroupKind (λ m, (om_Namespace m, om_Name m))); try apply _.
  - intros [] []; simpl; congruence.
  - intros a b Hab. unfold less. by destruct (Equals_spec (om_GroupKind a) (om_GroupKind b)).
  - intros a b Hab. unfold less. by destruct (Equals_spec (om_GroupKind a) (om_GroupKind b)).
Qed.

(** ** Sorted objects *)

Definition meta_le (i j : ObjMetadata) : Prop := less j i = false.

#[global] Instance meta_le_trans : Transitive meta_le.
Proof.
  intros i j k Hij Hjk. unfold meta_le in *. destruct (less k i) eqn:E; [|done].
  destruct (less i j) eqn:E1.
  - by rewrite (lt_trans (lt := less) _ _ _ E E1) in Hjk.
  - assert (i = j) as -> by by apply (lt_total (lt := less)). congruence.
Qed.

#[global] Instance meta_le_total : Total meta_le.
Proof.
  intros i j. unfold meta_le. destruct (less j i) eqn:E; [|by left]. right.
  destruct (less i j) eqn:E1; [|done].
  pose proof (lt_trans (lt := less) _ _ _ E E1) as Hjj. by rewrite (lt_irrefl (lt := less)) in Hjj.
Qed.

Section sorted.
Context {Obj : Type} `{KubeObject Obj} `{SortFunc}.

Definition obj_le (a b : Obj) : Prop := meta_le (ObjMeta a) (ObjMeta b).

#[global] Instance obj_le_trans : Transitive obj_le.
Proof. intros a b c. apply meta_le_trans. Qed.
#[global] Instance obj_le_total : Total obj_le.
Proof. intros a b. apply meta_le_total. Qed.
#[global] Instance obj_ge_trans : Transitive (flip obj_le).
Proof. intros a b c Hab Hbc. unfold flip in *. by trans b. Qed.
#[global] Instance obj_ge_total : Total (flip obj_le).
Proof. intros a b. destruct (total obj_le a b); [by right|by left]. Qed.

Lemma sort_objects_sorted l : StronglySorted obj_le (sort_objects l).
Proof. by apply (sort_Slice_sorted _ obj_le). Qed.

Lemma sort_objects_reverse_sorted l : StronglySorted (flip obj_le) (sort_objects_reverse l).
Proof. by apply (sort_Slice_sorted _ (flip obj_le)). Qed.

(** Two lists sorted by [obj_le] with the same objects in another order have
    the same metadata. *)
Lemma sorted_metas_unique (l1 l2 : list Obj) :
  l1 ≡ₚ l2 → StronglySorted obj_le l1 → StronglySorted obj_le l2 → ObjMeta <$> l1 = ObjMeta <$> l2.
Proof.
  intros Hp H1 H2.
  assert (∀ l, StronglySorted obj_le l → StronglySorted meta_le (ObjMeta <$> l)) as Hs.
  { induction 1 as [|o l Hl IH Ho]; simpl; constructor; [done|]. by apply Forall_fmap. }
  apply (StronglySorted_unique_strong meta_le); [|by apply Hs|by apply Hs|by rewrite Hp].
  intros i j _ _ Hij Hji. by apply (lt_total (lt := less)).
Qed.
End sorted.
