(* ===== verification/Json.v ===== *)
(** * Dynamic values: Go's [any] as the JSON decoder builds it

    Maps from strings and slices nest; scalars are kept apart by their dynamic
    type, which interface comparison and type switches look at. *)

From S2P Require Import Prelude Utf8.

Inductive value :=
  | VNil
  | VBool (b : bool)
  | VInt (z : Z)
  | VFloat (repr : bytes)
  | VStr (s : bytes)
  | VList (l : list value)
  | VMap (m : gmap bytes value).

(** A [map[string]any]. *)
Abbreviation vmap := (gmap bytes value) (only parsing).

Fixpoint vsize (v : value) : nat :=
  match v with
  | VList l => S (sum_list_with vsize l)
  | VMap m => S (map_fold (λ _ v n, vsize v + n) 0 m)
  | _ => 1
  end.

Lemma vsize_elem v l : v ∈ l → vsize v < vsize (VList l).
Proof. intros Hv. simpl. induction Hv as [|w l Hv IH]; simpl; lia. Qed.

Lemma vsize_lookup (m : vmap) k v : m !! k = Some v → vsize v < vsize (VMap m).
Proof.
  intros Hk. simpl. erewrite map_fold_delete_L; [|intros; lia|exact Hk]. simpl. lia.
Qed.

(** Induction that reaches the members of slices and maps. *)
Lemma value_nested_ind (P : value → Prop) :
  P VNil → (∀ b, P (VBool b)) → (∀ z, P (VInt z)) → (∀ r, P (VFloat r)) → (∀ s, P (VStr s)) →
  (∀ l, (∀ v, v ∈ l → P v) → P (VList l)) → (∀ m, (∀ k v, m !! k = Some v → P v) → P (VMap m)) →
  ∀ v, P v.
Proof.
  intros Hn Hb Hi Hf Hs Hl Hm v. remember (vsize v) as n eqn:E. revert v E.
  induction n as [n IH] using (well_founded_induction lt_wf). intros v ->. destruct v; [done..| |].
  - apply Hl. intros w Hw. eapply IH; [by apply vsize_elem|done].
  - apply Hm. intros k w Hw. eapply IH; [by eapply vsize_lookup|done].
Qed.

(** The dynamic type of a value, as a type assertion [v.(map[string]any)]. *)
Definition as_map (v : value) : option vmap := match v with VMap m => Some m | _ => None end.

(** [a == b] on two interface values: different dynamic types are different;
    slices and maps cannot be compared, which panics. *)
Definition iface_eq (a b : value) : res bool :=
  match a, b with
  | VNil, VNil => Val true
  | VBool x, VBool y => Val (eqb x y)
  | VInt x, VInt y => Val (x =? y)%Z
  | VFloat x, VFloat y => Val (bool_decide (x = y))
  | VStr x, VStr y => Val (bool_decide (x = y))
  | VList _, VList _ | VMap _, VMap _ => Panics
  | _, _ => Val false
  end.
