(* ===== verification/SsaPatch.v ===== *)
(** * Server-side apply: JSON patches and masking
    ([ssa/patch.go], [ssa/sanitize.go], [ssa/jsondiff/mask.go])

    Patches of the managed fields of an object, and the masks that keep the
    data of secrets out of diffs.  The entries of the managed fields hold
    pointers, which struct comparison compares by address. *)

From S2P Require Import Prelude Utf8 Json SsaObject.

(** ** Managed fields *)

(** A non-nil [*metav1.FieldsV1]. *)
Record FieldsPtr := mkFields { fp_addr : nat; fp_raw : bytes }.

Inductive FieldsOperation := ApplyOperation | UpdateOperation | OtherOperation (s : bytes).
#[global] Instance FieldsOperation_eq_dec : EqDecision FieldsOperation.
Proof. solve_decision. Defined.

(** [metav1.ManagedFieldsEntry]; [mf_Time] is the address of the time. *)
Record ManagedFieldsEntry := mkMF {
  mf_Manager : bytes; mf_Operation : FieldsOperation; mf_APIVersion : bytes; mf_Time : option nat;
  mf_FieldsType : bytes; mf_FieldsV1 : option FieldsPtr; mf_Subresource : bytes }.

Definition empty_entry : ManagedFieldsEntry := mkMF [] (OtherOperation []) [] None [] None [].

(** [a == b] on entries: pointers by address. *)
Definition entry_eqb (a b : ManagedFieldsEntry) : bool :=
  beq (mf_Manager a) (mf_Manager b) && bool_decide (mf_Operation a = mf_Operation b) &&
  beq (mf_APIVersion a) (mf_APIVersion b) && bool_decide (mf_Time a = mf_Time b) &&
  beq (mf_FieldsType a) (mf_FieldsType b) &&
  bool_decide (fp_addr <$> mf_FieldsV1 a = fp_addr <$> mf_FieldsV1 b) &&
  beq (mf_Subresource a) (mf_Subresource b).

(** [src/ssa/patch.go:32-38 JSONPatch] *)
Record JSONPatch := mkPatch { jp_Operation : bytes; jp_Path : bytes; jp_Value : list ManagedFieldsEntry }.

(** [src/ssa/patch.go:30-30 managedFieldsPath] *)
Definition managedFieldsPath : bytes := str "/metadata/managedFields".
(** [src/ssa/patch.go:40-46 NewPatchRemove] *)
Definition NewPatchRemove (path : bytes) : JSONPatch := mkPatch (str "remove") path [].
(** [src/ssa/patch.go:48-55 NewPatchReplace] *)
Definition NewPatchReplace (path : bytes) (v : list ManagedFieldsEntry) : JSONPatch :=
  mkPatch (str "replace") path v.

(** [src/ssa/patch.go:57-68 FieldManager] *)
Record FieldManager := mkFM { fm_Name : bytes; fm_ExactMatch : bool; fm_OperationType : FieldsOperation }.

(** [src/ssa/patch.go:70-80 matchFieldManager] *)
Definition matchFieldManager (e : ManagedFieldsEntry) (m : FieldManager) : bool :=
  if negb (bool_decide (mf_Operation e = fm_OperationType m)) || negb (beq (mf_Subresource e) [])
  then false
  else if fm_ExactMatch m then beq (mf_Manager e) (fm_Name m)
  else HasPrefix (mf_Manager e) (fm_Name m).

Definition matches_any (managers : list FieldManager) (e : ManagedFieldsEntry) : bool :=
  existsb (matchFieldManager e) managers.

(** [src/ssa/patch.go:82-110 PatchRemoveFieldsManagers] *)
Definition PatchRemoveFieldsManagers (objEntries : list ManagedFieldsEntry)
    (managers : list FieldManager) : list JSONPatch :=
  let entries := filter (λ e, matches_any managers e = false) objEntries in
  if length entries =? length objEntries then []
  else
    let entries := if length entries =? 0 then [empty_entry] else entries in
    [NewPatchReplace managedFieldsPath entries].

(** [src/ssa/patch.go:173-211 PatchMigrateToVersion] *)
Definition PatchMigrateToVersion (objEntries : list ManagedFieldsEntry) (apiVersion : bytes)
    : list JSONPatch :=
  if length objEntries =? 0 then []
  else
    let entries := (λ e, mkMF (mf_Manager e) (mf_Operation e) apiVersion (mf_Time e) (mf_FieldsType e)
                           (mf_FieldsV1 e) (mf_Subresource e)) <$> objEntries in
    let changed := existsb (λ e, negb (beq (mf_APIVersion e) apiVersion)) objEntries in
    if negb changed then [] else [NewPatchReplace managedFieldsPath entries].

(** The path of a metadata key; only slashes are escaped.
    [src/ssa/patch.go:251-251 PatchRemoveAnnotations] *)
Definition metadata_path (field : string) (key : bytes) : bytes :=
  str "/metadata/" ++ str field ++ str "/" ++ strings_Replace key (str "/") (str "~1") None.

(** [src/ssa/patch.go:245-256 PatchRemoveAnnotations] *)
Definition PatchRemoveAnnotations (annotations : StrMap) (keys : list bytes) : list JSONPatch :=
  keys ≫= λ key, match annotations !! key with
                 | Some _ => [NewPatchRemove (metadata_path "annotations" key)]
                 | None => []
                 end.
(** [src/ssa/patch.go:258-269 PatchRemoveLabels] *)
Definition PatchRemoveLabels (labels : StrMap) (keys : list bytes) : list JSONPatch :=
  keys ≫= λ key, match labels !! key with
                 | Some _ => [NewPatchRemove (metadata_path "labels" key)]
                 | None => []
                 end.

Section replace.
(** [fieldpath.Set] with its conversions. *)
Context {FSet : Type} (FromJSON : bytes → kerr + FSet) (ToJSON : FSet → kerr + bytes)
  (Union : FSet → FSet → FSet).

(** A merge of two sets is allocated at [fresh].
    [src/ssa/patch.go:213-243 mergeManagedFieldsV1] *)
Definition mergeManagedFieldsV1 (fresh : nat) (prevField newField : option FieldsPtr)
    : kerr + option FieldsPtr :=
  match prevField, newField with
  | None, None => inr None
  | None, Some _ => inr newField
  | Some _, None => inr prevField
  | Some p, Some n =>
      match FromJSON (fp_raw p) with
      | inl e => inl e
      | inr prevSet =>
          match FromJSON (fp_raw n) with
          | inl e => inl e
          | inr newSet =>
              match ToJSON (Union prevSet newSet) with
              | inl e => inl e
              | inr raw => inr (Some (mkFields fresh raw))
              end
          end
      end
  end.

Definition with_fields (e : ManagedFieldsEntry) (f : option FieldsPtr) : ManagedFieldsEntry :=
  mkMF (mf_Manager e) (mf_Operation e) (mf_APIVersion e) (mf_Time e) (mf_FieldsType e) f (mf_Subresource e).
Definition renamed (name : bytes) (e : ManagedFieldsEntry) : ManagedFieldsEntry :=
  mkMF name ApplyOperation (mf_APIVersion e) (mf_Time e) (mf_FieldsType e) (mf_FieldsV1 e) (mf_Subresource e).

(** The previous entry of the manager: the last one.
    [src/ssa/patch.go:120-125 PatchReplaceFieldsManagers] *)
Definition own (name : bytes) (e : ManagedFieldsEntry) : bool :=
  beq (mf_Manager e) name && bool_decide (mf_Operation e = ApplyOperation).
(** [src/ssa/patch.go:120-125 PatchReplaceFieldsManagers] *)
Definition previous (name : bytes) (objEntries : list ManagedFieldsEntry) : ManagedFieldsEntry :=
  foldl (λ prev e, if own name e then e else prev) empty_entry objEntries.

(** The loop with its variables [prevManagedFields], [entries] and [edited];
    [fresh] is the next unused address.
    [src/ssa/patch.go:131-163 PatchReplaceFieldsManagers] *)
Fixpoint each_entry (managers : list FieldManager) (name : bytes) (fresh : nat)
    (es : list ManagedFieldsEntry) (prev : ManagedFieldsEntry) (entries : list ManagedFieldsEntry)
    (edited : bool) : kerr + (list ManagedFieldsEntry * ManagedFieldsEntry * bool) :=
  match es with
  | [] => inr (entries, prev, edited)
  | e :: es =>
      if entry_eqb e prev then each_entry managers name fresh es prev entries edited
      else if matches_any managers e then
        if entry_eqb prev empty_entry then
          each_entry managers name fresh es (renamed name e) entries true
        else match mergeManagedFieldsV1 fresh (mf_FieldsV1 prev) (mf_FieldsV1 e) with
             | inl err => inl err
             | inr f => each_entry managers name (S fresh) es (with_fields prev f) entries true
             end
      else each_entry managers name fresh es prev (entries ++ [e]) edited
  end.

(** [src/ssa/patch.go:112-171 PatchReplaceFieldsManagers] *)
Definition PatchReplaceFieldsManagers (fresh : nat) (objEntries : list ManagedFieldsEntry)
    (managers : list FieldManager) (name : bytes) : kerr + list JSONPatch :=
  match each_entry managers name fresh objEntries (previous name objEntries) [] false with
  | inl e => inl e
  | inr (entries, prev, edited) =>
      if negb edited then inr []
      else inr [NewPatchReplace managedFieldsPath (entries ++ [prev])]
  end.
End replace.

(** ** Masks ([ssa/sanitize.go]) *)

(** [src/ssa/sanitize.go:25-29 sanitizeMaskDefault] *)
Definition mask_default : value := VStr (str "***").
(** [src/ssa/sanitize.go:25-29 sanitizeMaskBefore] *)
Definition mask_before : value := VStr (str "*** (before)").
(** [src/ssa/sanitize.go:25-29 sanitizeMaskAfter] *)
Definition mask_after : value := VStr (str "*** (after)").

(** The loop over the keys of the old data, in any order.
    [src/ssa/sanitize.go:47-57 SanitizeUnstructuredData] *)
Fixpoint sanitize_old (keys : list bytes) (oldData newData : vmap) : res (vmap * vmap) :=
  match keys with
  | [] => Val (oldData, newData)
  | k :: keys =>
      match newData !! k with
      | Some n =>
          same ← iface_eq (default VNil (oldData !! k)) n;
          if negb same then sanitize_old keys (<[k := mask_before]> oldData) (<[k := mask_after]> newData)
          else sanitize_old keys (<[k := mask_default]> oldData) (<[k := mask_default]> newData)
      | None => sanitize_old keys (<[k := mask_default]> oldData) newData
      end
  end.

(** [src/ssa/sanitize.go:58-62 SanitizeUnstructuredData] *)
Definition sanitize_new (keys : list bytes) (oldData newData : vmap) : vmap :=
  foldl (λ m k, match oldData !! k with Some _ => m | None => <[k := mask_default]> m end) newData keys.

(** The data maps of the two objects; a missing map is empty and nothing is
    written for it.  [okeys] and [nkeys] are the orders of the two loops.
    [src/ssa/sanitize.go:31-76 SanitizeUnstructuredData] *)
Definition SanitizeUnstructuredData (okeys nkeys : list bytes) (old new : option vmap)
    : res (option vmap * option vmap) :=
  '(o, n) ← sanitize_old okeys (default ∅ old) (default ∅ new);
  let n := sanitize_new nkeys o n in
  Val ((λ _, o) <$> old, (λ _, n) <$> new).

(** ** Masks of patches ([ssa/jsondiff/mask.go]) *)

(** [src/ssa/jsondiff/mask.go:74-83 maskMap] *)
Fixpoint mask_from (keys : list bytes) (fromMap toMap : vmap) : res (vmap * vmap) :=
  match keys with
  | [] => Val (fromMap, toMap)
  | k :: keys =>
      match toMap !! k with
      | Some t =>
          same ← iface_eq (default VNil (fromMap !! k)) t;
          if negb same then mask_from keys (<[k := mask_before]> fromMap) (<[k := mask_after]> toMap)
          else mask_from keys (<[k := mask_default]> fromMap) toMap
      | None => mask_from keys (<[k := mask_default]> fromMap) toMap
      end
  end.

(** [src/ssa/jsondiff/mask.go:60-89 maskMap] *)
Definition maskMap (fkeys tkeys : list bytes) (from to : value) : res (value * value) :=
  '(f, t) ← mask_from fkeys (default ∅ (as_map from)) (default ∅ (as_map to));
  let t := sanitize_new tkeys f t in
  Val (match as_map from with Some _ => VMap f | None => from end,
       match as_map to with Some _ => VMap t | None => to end).

(** [jsondiff.Operation]; an absent value is nil. *)
Record Operation := mkOp { op_Type : bytes; op_Path : bytes; op_OldValue : value; op_Value : value }.

Definition not_nil (v : value) : bool := match v with VNil => false | _ => true end.

(** The iteration orders of the maps of the [i]-th operation are [keys i].
    [src/ssa/jsondiff/mask.go:37-55 MaskSecretPatchData] *)
Definition mask_operation (keys : list bytes * list bytes) (v : Operation) : res Operation :=
  let both := not_nil (op_OldValue v) && not_nil (op_Value v) in
  let oldMask := if both then mask_before else mask_default in
  let newMask := if both then mask_after else mask_default in
  if beq (op_Path v) (str "/data") || beq (op_Path v) (str "/stringData") then
    '(o, n) ← maskMap keys.1 keys.2 (op_OldValue v) (op_Value v); Val (mkOp (op_Type v) (op_Path v) o n)
  else if HasPrefix (op_Path v) (str "/data/") || HasPrefix (op_Path v) (str "/stringData/") then
    Val (mkOp (op_Type v) (op_Path v)
      (if not_nil (op_OldValue v) then oldMask else op_OldValue v)
      (if not_nil (op_Value v) then newMask else op_Value v))
  else Val v.

(** [src/ssa/jsondiff/mask.go:31-58 MaskSecretPatchData] *)
Fixpoint MaskSecretPatchData (keys : nat → list bytes * list bytes) (i : nat) (patch : list Operation)
    : res (list Operation) :=
  match patch with
  | [] => Val []
  | v :: patch =>
      v ← mask_operation (keys i) v;
      patch ← MaskSecretPatchData keys (S i) patch;
      Val (v :: patch)
  end.

(** ** The managed fields are taken over *)

Section replace_spec.
Context {FSet : Type} (FromJSON : bytes → kerr + FSet) (ToJSON : FSet → kerr + bytes)
  (Union : FSet → FSet → FSet).

(** [ToJSON] writes what [FromJSON] reads. *)
Definition json_ok : Prop := ∀ s, ∃ raw, ToJSON s = inr raw ∧ FromJSON raw = inr s.

(** The fields of an entry; nil has none. *)
Definition decode (f : option FieldsPtr) : option (option FSet) :=
  match f with
  | None => Some None
  | Some p => match FromJSON (fp_raw p) with inl _ => None | inr s => Some (Some s) end
  end.

Definition union_opt (a b : option FSet) : option FSet :=
  match a, b with
  | None, _ => b
  | _, None => a
  | Some a, Some b => Some (Union a b)
  end.

Definition decoded (e : ManagedFieldsEntry) (s : option FSet) : Prop := decode (mf_FieldsV1 e) = Some s.

Lemma merge_decode fresh p n sp sn :
  json_ok → decode p = Some sp → decode n = Some sn →
  ∃ f, mergeManagedFieldsV1 FromJSON ToJSON Union fresh p n = inr f ∧ decode f = Some (union_opt sp sn).
Proof.
  intros Hok Hp Hn. destruct p as [p|], n as [n|].
  - simpl in *. destruct (FromJSON (fp_raw p)) as [|s1], (FromJSON (fp_raw n)) as [|s2]; simplify_eq.
    destruct (Hok (Union s1 s2)) as (raw & -> & Hraw). eexists; split; [done|]. simpl. by rewrite Hraw.
  - exists (Some p). simplify_eq/=. by destruct (FromJSON (fp_raw p)); simplify_eq.
  - exists (Some n). by simplify_eq/=.
  - exists None. by simplify_eq/=.
Qed.

Lemma own_eqb name a b : entry_eqb a b = true → own name a = own name b.
Proof.
  unfold entry_eqb, own, beq. intros H. repeat (apply andb_true_iff in H as [H ?]).
  repeat match goal with H : bool_decide _ = true |- _ => apply bool_decide_eq_true in H end.
  match goal with E1 : mf_Manager a = _, E2 : mf_Operation a = _ |- _ => by rewrite E1, E2 end.
Qed.

Lemma entry_eqb_refl a : entry_eqb a a = true.
Proof. unfold entry_eqb, beq. by rewrite !bool_decide_true by done. Qed.

Lemma own_not_empty name p : own name p = true → entry_eqb p empty_entry = false.
Proof.
  intros Hp. destruct (entry_eqb p empty_entry) eqn:E; [|done].
  apply (own_eqb name) in E. rewrite Hp in E. unfold own in E. symmetry in E.
  apply andb_true_iff in E as [_ E]. by apply bool_decide_eq_true in E.
Qed.

Lemma previous_unique name pre p post :
  own name p = true → Forall (λ e, own name e = false) post → previous name (pre ++ p :: post) = p.
Proof.
  intros Hp Hpost. unfold previous. rewrite foldl_app. simpl. rewrite Hp.
  induction Hpost as [|e post He _ IH]; simpl; [done|]. by rewrite He.
Qed.

(** Past the manager's own entry: the matched entries are merged into it and
    the others are kept. *)
Lemma each_entry_merges managers name fresh es prev entries edited sprev ss :
  json_ok → own name prev = true → Forall (λ e, own name e = false) es →
  decoded prev sprev →
  Forall2 decoded (filter (λ e, matches_any managers e = true) es) ss →
  ∃ prev', each_entry FromJSON ToJSON Union managers name fresh es prev entries edited =
      inr (entries ++ filter (λ e, matches_any managers e = false) es, prev',
           edited || existsb (matches_any managers) es) ∧
    (∃ f, prev' = with_fields prev f) ∧ decoded prev' (foldl union_opt sprev ss).
Proof.
  intros Hok Hown Hes. revert fresh prev entries edited sprev ss Hown.
  induction Hes as [|e es He Hes IH]; intros fresh prev entries edited sprev ss Hown Hprev Hss; simpl.
  { inversion Hss; subst. exists prev. rewrite app_nil_r, orb_false_r. split_and!; [done| |done].
    by exists (mf_FieldsV1 prev); destruct prev. }
  destruct (entry_eqb e prev) eqn:Eq; [apply (own_eqb name) in Eq; congruence|].
  rewrite filter_cons in Hss. destruct (matches_any managers e) eqn:Em; simpl.
  - rewrite (own_not_empty name) by done. rewrite decide_True in Hss by done.
    inversion Hss as [|? s ? ss' He' Hss']; subst.
    destruct (merge_decode fresh _ _ _ _ Hok Hprev He') as (f & -> & Hf).
    destruct (IH (S fresh) (with_fields prev f) entries true (union_opt sprev s) ss')
      as (prev' & -> & [g ->] & Hd); [done|done|done|].
    rewrite filter_cons_False by congruence. rewrite orb_true_r. eexists; split; [done|].
    split; [by exists g|done].
  - rewrite decide_False in Hss by congruence.
    destruct (IH fresh prev (entries ++ [e]) edited sprev ss) as (prev' & -> & Hf & Hd); [done..|].
    rewrite filter_cons_True, <-app_assoc by done. eauto.
Qed.

(** Before the own entry nothing is edited when nothing matches. *)
Lemma each_entry_skips managers name fresh es rest prev entries edited :
  own name prev = true →
  Forall (λ e, own name e = false ∧ matches_any managers e = false) es →
  each_entry FromJSON ToJSON Union managers name fresh (es ++ rest) prev entries edited =
  each_entry FromJSON ToJSON Union managers name fresh rest prev (entries ++ es) edited.
Proof.
  intros Hown Hes. revert entries. induction Hes as [|e es [He Hm] Hes IH]; intros entries; simpl.
  { by rewrite app_nil_r. }
  destruct (entry_eqb e prev) eqn:Eq; [apply (own_eqb name) in Eq; congruence|].
  rewrite Hm, IH, <-app_assoc. done.
Qed.

(** Taking over the fields of other managers.  When the manager has one
    apply entry [p] and no entry before it matches, the patch replaces the
    managed fields by the entries that do not match, in their order, followed
    by [p] owning the union of its fields and the fields of every matched
    entry; there is no patch when no entry matches. *)
Theorem PatchReplaceFieldsManagers_spec (managers : list FieldManager) (name : bytes) (fresh : nat)
    (pre post : list ManagedFieldsEntry) (p : ManagedFieldsEntry) (sp : option FSet)
    (ss : list (option FSet)) :
  json_ok → own name p = true →
  Forall (λ e, own name e = false ∧ matches_any managers e = false) pre →
  Forall (λ e, own name e = false) post →
  decoded p sp →
  Forall2 decoded (filter (λ e, matches_any managers e = true) post) ss →
  if existsb (matches_any managers) post then
    ∃ f, PatchReplaceFieldsManagers FromJSON ToJSON Union fresh (pre ++ p :: post) managers name =
      inr [NewPatchReplace managedFieldsPath
             (pre ++ filter (λ e, matches_any managers e = false) post ++ [with_fields p f])] ∧
      decode f = Some (foldl union_opt sp ss)
  else PatchReplaceFieldsManagers FromJSON ToJSON Union fresh (pre ++ p :: post) managers name = inr [].
Proof.
  intros Hok Hown Hpre Hpost Hp Hss. unfold PatchReplaceFieldsManagers.
  rewrite previous_unique, each_entry_skips by done. simpl. rewrite entry_eqb_refl.
  destruct (each_entry_merges managers name fresh post p pre false sp ss) as (p' & -> & [f ->] & Hd);
    [done..|]. simpl. destruct (existsb _ post); simpl; [|done].
  exists f. split; [by rewrite <-app_assoc|done].
Qed.

(** When an entry that matches comes before the manager's own entry, the own
    entry is no longer equal to the merged one when the loop reaches it: it is
    kept beside the merged one. *)
Lemma PatchReplaceFieldsManagers_duplicates managers name fresh e p fe fp :
  json_ok → own name p = true → own name e = false →
  matches_any managers e = true → matches_any managers p = false →
  mf_FieldsV1 e = Some fe → mf_FieldsV1 p = Some fp → fp_addr fp ≠ fresh →
  is_Some (decode (Some fe)) → is_Some (decode (Some fp)) →
  ∃ f, PatchReplaceFieldsManagers FromJSON ToJSON Union fresh [e; p] managers name =
    inr [NewPatchReplace managedFieldsPath [p; with_fields p f]].
Proof.
  intros Hok Hp He Hm Hpm Hfe Hfp Hfresh [se Hse] [sp Hsp].
  unfold PatchReplaceFieldsManagers. change [e; p] with ([e] ++ p :: []).
  rewrite previous_unique by (done || constructor).
  simpl. destruct (entry_eqb e p) eqn:Eq; [apply (own_eqb name) in Eq; congruence|].
  rewrite Hm, (own_not_empty name) by done. rewrite Hfe, Hfp. simpl in *.
  destruct (FromJSON (fp_raw fp)) as [|s1], (FromJSON (fp_raw fe)) as [|s2]; simplify_eq.
  destruct (Hok (Union s1 s2)) as (raw & -> & _).
  replace (entry_eqb p (with_fields p (Some (mkFields fresh raw)))) with false.
  { rewrite Hpm. simpl. eauto. }
  unfold entry_eqb. rewrite Hfp. simpl. rewrite (bool_decide_false (Some _ = Some _)) by congruence.
  by rewrite andb_false_r.
Qed.
End replace_spec.

(** ** What the masks show *)

(** Two values that can be compared without a panic. *)
Definition comparable (a b : value) : bool :=
  match a, b with VList _, VList _ | VMap _, VMap _ => false | _, _ => true end.

Definition same_value (a b : value) : bool :=
  match iface_eq a b with Val r => r | Panics => false end.

Lemma iface_eq_comparable a b : comparable a b = true → iface_eq a b = Val (same_value a b).
Proof. unfold same_value. by destruct a, b. Qed.

(** The value shown for a key of the old and of the new data. *)
Definition masked_old (o n : option value) : option value :=
  match o, n with
  | Some a, Some b => Some (if same_value a b then mask_default else mask_before)
  | Some _, None => Some mask_default
  | None, _ => None
  end.
Definition masked_new (o n : option value) : option value :=
  match o, n with
  | Some a, Some b => Some (if same_value a b then mask_default else mask_after)
  | None, Some _ => Some mask_default
  | _, None => None
  end.

Definition comparable_maps (o n : vmap) : Prop :=
  ∀ k a b, o !! k = Some a → n !! k = Some b → comparable a b = true.

Lemma sanitize_old_spec (keys : list bytes) (o n : vmap) :
  NoDup keys → (∀ k, k ∈ keys → is_Some (o !! k)) → comparable_maps o n →
  ∃ o' n', sanitize_old keys o n = Val (o', n') ∧
    ∀ k : bytes, (k ∈ keys → o' !! k = masked_old (o !! k) (n !! k) ∧
                     n' !! k = masked_new (o !! k) (n !! k)) ∧
         (k ∉ keys → o' !! k = o !! k ∧ n' !! k = n !! k).
Proof.
  intros Hnd. revert o n. induction Hnd as [|k keys Hk Hnd IH]; intros o n Hdom Hcmp; simpl.
  { exists o, n. split; [done|]. intros k. split; [by intros ?%not_elem_of_nil|done]. }
  destruct (Hdom k) as [a Ha]; [by constructor|]. rewrite Ha. simpl.
  assert (∀ (va : value) (n1 : vmap), (∀ j, j ≠ k → n1 !! j = n !! j) →
    va = (match n !! k with Some b => if same_value a b then mask_default else mask_before
          | None => mask_default end) →
    n1 !! k = masked_new (Some a) (n !! k) →
    ∃ o' n', sanitize_old keys (<[k := va]> o) n1 = Val (o', n') ∧
      ∀ j : bytes, (j ∈ k :: keys → o' !! j = masked_old (o !! j) (n !! j) ∧
                            n' !! j = masked_new (o !! j) (n !! j)) ∧
           (j ∉ k :: keys → o' !! j = o !! j ∧ n' !! j = n !! j)) as Hstep.
  { intros va n1 Hne Hva Hn1. destruct (IH (<[k := va]> o) n1) as (o' & n' & -> & Hs).
    - intros j Hj. rewrite lookup_insert_ne by (intros ->; done). apply Hdom. by constructor.
    - intros j x y Hx Hy. destruct (decide (j = k)) as [->|Hjk].
      + rewrite lookup_insert_eq in Hx. simplify_eq. destruct (n !! k); [|done]. by case_match.
      + rewrite lookup_insert_ne in Hx by done. rewrite Hne in Hy by done. by eapply Hcmp.
    - exists o', n'. split; [done|]. intros j. destruct (decide (j = k)) as [->|Hjk].
      + destruct (Hs k) as [_ [Ho Hn]]; [done|]. rewrite Ho, Hn, lookup_insert_eq, Ha, Hn1. split; [|set_solver].
        intros _. split; [|done]. rewrite Hva. by destruct (n !! k).
      + destruct (Hs j) as [Hs1 Hs2]. rewrite lookup_insert_ne, Hne in Hs1, Hs2 by done. set_solver. }
  destruct (n !! k) as [b|] eqn:Hb.
  - rewrite (iface_eq_comparable a b) by by eapply Hcmp. simpl.
    destruct (same_value a b) eqn:Es; simpl; apply Hstep; simpl; rewrite ?Es;
      try done; try (by intros j Hj; rewrite lookup_insert_ne); by rewrite lookup_insert_eq.
  - apply Hstep; done.
Qed.

Lemma sanitize_new_spec (keys : list bytes) (o n : vmap) (k : bytes) :
  (∀ j, j ∈ keys → is_Some (n !! j)) →
  sanitize_new keys o n !! k =
  if decide (k ∈ keys) then match o !! k with Some _ => n !! k | None => Some mask_default end else n !! k.
Proof.
  revert n. induction keys as [|j keys IH]; intros n Hdom; simpl; [done|].
  assert (∀ n1 : vmap, (∀ i, i ≠ j → n1 !! i = n !! i) → is_Some (n1 !! j) →
            ∀ i, i ∈ keys → is_Some (n1 !! i)) as Hd.
  { intros n1 Hne Hj i Hi. destruct (decide (i = j)) as [->|]; [done|]. rewrite Hne by done.
    apply Hdom. by constructor. }
  destruct (o !! j) as [v|] eqn:Ho.
  - rewrite IH by (apply Hd; [done|apply Hdom; by constructor]). destruct (decide (k = j)) as [->|Hkj].
    + rewrite Ho, (decide_True (P := j ∈ j :: keys)) by by constructor. by case_decide.
    + by rewrite (decide_ext (k ∈ j :: keys) (k ∈ keys)) by (rewrite elem_of_cons; naive_solver).
  - rewrite IH by (apply Hd; [by intros; rewrite lookup_insert_ne|by rewrite lookup_insert_eq]).
    destruct (decide (k = j)) as [->|Hkj].
    + rewrite Ho, lookup_insert_eq, (decide_True (P := j ∈ j :: keys)) by by constructor. by case_decide.
    + rewrite lookup_insert_ne by done.
      by rewrite (decide_ext (k ∈ j :: keys) (k ∈ keys)) by (rewrite elem_of_cons; naive_solver).
Qed.

(** The keys of a map in some order. *)
Definition order_of (keys : list bytes) (m : vmap) : Prop := NoDup keys ∧ ∀ k : bytes, k ∈ keys ↔ is_Some (m !! k).

(** Secret data never leaves [SanitizeUnstructuredData] unmasked: for any
    two data maps and whatever order Go iterates them in, each key of the old
    and of the new data holds a mask that only says whether the key is in both
    maps and whether its values differ, and no key is added or dropped.  Shared
    keys hold values that can be compared (strings, in a Secret). *)
Theorem SanitizeUnstructuredData_masks (okeys nkeys : list bytes) (o n : vmap) :
  order_of okeys o → order_of nkeys n → comparable_maps o n →
  ∃ o' n' : vmap, SanitizeUnstructuredData okeys nkeys (Some o) (Some n) = Val (Some o', Some n') ∧
    ∀ k : bytes, o' !! k = masked_old (o !! k) (n !! k) ∧ n' !! k = masked_new (o !! k) (n !! k).
Proof.
  intros [Hnd Hok] [_ Hnk] Hcmp. unfold SanitizeUnstructuredData. simpl.
  destruct (sanitize_old_spec okeys o n) as (o' & n' & -> & Hs); [done|by intros; apply Hok|done|].
  simpl. exists o', (sanitize_new nkeys o' n'). split; [done|].
  assert (∀ k, is_Some (n' !! k) ↔ is_Some (n !! k)) as Hdom.
  { intros k. destruct (Hs k) as [H1 H2]. destruct (decide (k ∈ okeys)) as [Hk|Hk].
    - destruct (H1 Hk) as [_ ->]. apply Hok in Hk as [a ->]. destruct (n !! k); simpl; naive_solver.
    - by destruct (H2 Hk) as [_ ->]. }
  intros k. rewrite sanitize_new_spec by (intros j Hj; by apply Hdom, Hnk).
  destruct (Hs k) as [H1 H2]. destruct (decide (k ∈ okeys)) as [Hk|Hk].
  - destruct (H1 Hk) as [-> ->]. split; [done|]. apply Hok in Hk as [a ->].
    case_decide; [|done]. by destruct (n !! k).
  - destruct (H2 Hk) as [-> ->]. assert (o !! k = None) as ->.
    { apply eq_None_not_Some. by rewrite <-Hok. }
    split; [done|]. case_decide as Hkn; [apply Hnk in Hkn as [b ->]; done|].
    destruct (n !! k) as [b|] eqn:E; [|done]. destruct Hkn. apply Hnk. by eexists.
Qed.

(** The loop only writes the keys it visits. *)
Lemma mask_from_out (keys : list bytes) (f t f' t' : vmap) (k : bytes) :
  k ∉ keys → mask_from keys f t = Val (f', t') → f' !! k = f !! k ∧ t' !! k = t !! k.
Proof.
  revert f t. induction keys as [|i keys IH]; intros f t Hk Hm; simpl in Hm; [by simplify_eq|].
  apply not_elem_of_cons in Hk as [Hik Hk].
  assert (∀ x y, mask_from keys (<[i:=x]> f) (<[i:=y]> t) = Val (f', t') → f' !! k = f !! k ∧ t' !! k = t !! k).
  { intros x y [-> ->]%IH; [|done]. by rewrite !lookup_insert_ne. }
  assert (∀ x, mask_from keys (<[i:=x]> f) t = Val (f', t') → f' !! k = f !! k ∧ t' !! k = t !! k).
  { intros x [-> ->]%IH; [|done]. by rewrite !lookup_insert_ne. }
  destruct (t !! i) as [x|]; [|eauto]. destruct (iface_eq _ x) as [[]|]; simpl in Hm; eauto; done.
Qed.

Lemma mask_from_keeps (keys : list bytes) (f t f' t' : vmap) (k : bytes) (x : bytes) :
  NoDup keys → mask_from keys f t = Val (f', t') → f !! k = Some (VStr x) → t !! k = Some (VStr x) →
  is_Some (f' !! k) ∧ t' !! k = Some (VStr x).
Proof.
  intros Hnd. revert f t. induction Hnd as [|j keys Hj Hnd IH]; intros f t Hm Hf Ht; simpl in Hm.
  { simplify_eq. eauto. }
  destruct (decide (j = k)) as [->|Hjk].
  - rewrite Ht, Hf in Hm. simpl in Hm. rewrite bool_decide_true in Hm by done. simpl in Hm.
    apply mask_from_out with (k := k) in Hm as [-> ->]; [|done]. by rewrite lookup_insert_eq.
  - destruct (t !! j) as [y|]; [destruct (iface_eq _ y) as [[]|]; simpl in Hm; [..|done]|];
      apply (IH _ _ Hm); rewrite ?lookup_insert_ne by done; done.
Qed.

(** [maskMap] shows secret data: a string that both maps hold under one
    key is left as it is in the new map, in every iteration order, where
    [SanitizeUnstructuredData] writes the default mask into both. *)
Theorem maskMap_leaks (fkeys tkeys : list bytes) (f t : vmap) (k x : bytes) (f' t' : value) :
  order_of fkeys f → order_of tkeys t → f !! k = Some (VStr x) → t !! k = Some (VStr x) →
  maskMap fkeys tkeys (VMap f) (VMap t) = Val (f', t') →
  ∃ m, t' = VMap m ∧ m !! k = Some (VStr x).
Proof.
  intros [Hnd Hf] [_ Ht] Hfk Htk. unfold maskMap. simpl.
  destruct (mask_from fkeys f t) as [[f1 t1]|] eqn:Em; simpl; [|done]. intros [= <- <-].
  destruct (mask_from_keeps _ _ _ _ _ k x Hnd Em Hfk Htk) as [[y Hy] Htk1].
  eexists; split; [done|]. rewrite sanitize_new_spec.
  - rewrite Hy, Htk1. by case_decide.
  - intros j Hj. apply Ht in Hj. revert Em Hj. clear. revert f t.
    induction fkeys as [|i keys IH]; intros f t Em Hj; simpl in Em; [by simplify_eq|].
    destruct (t !! i) as [y|]; [|exact (IH _ _ Em Hj)].
    destruct (iface_eq _ y) as [[]|]; simpl in Em; [exact (IH _ _ Em Hj)| |done].
    apply (IH _ _ Em). destruct (decide (i = j)) as [->|]; [by rewrite lookup_insert_eq|].
    by rewrite lookup_insert_ne.
Qed.

(** ** Concrete inputs *)

Definition secret_map (l : list (string * string)) : vmap :=
  list_to_map ((λ '(k, v), (str k, VStr (str v))) <$> l).
Definition keys_of (m : vmap) : list bytes := (map_to_list m).*1.

Lemma keys_of_order m : order_of (keys_of m) m.
Proof.
  split; [apply NoDup_fst_map_to_list|]. intros k. unfold keys_of. rewrite list_elem_of_fmap. split.
  - intros ([j v] & -> & Hv). apply elem_of_map_to_list in Hv. by eexists.
  - intros [v Hv]. exists (k, v). by rewrite elem_of_map_to_list.
Qed.

Lemma SanitizeUnstructuredData_masks_witness :
  let o := secret_map [("user", "a"); ("pass", "b")]%string in
  let n := secret_map [("user", "a"); ("pass", "c"); ("key", "d")]%string in
  ∃ o' n' : vmap, SanitizeUnstructuredData (keys_of o) (keys_of n) (Some o) (Some n) = Val (Some o', Some n') ∧
    n' !! str "pass" = Some mask_after ∧ n' !! str "user" = Some mask_default.
Proof.
  intros o n. destruct (SanitizeUnstructuredData_masks (keys_of o) (keys_of n) o n) as (o' & n' & He & Hk).
  - apply keys_of_order.
  - apply keys_of_order.
  - intros k a b Ha Hb. apply elem_of_list_to_map_2 in Ha.
    apply list_elem_of_fmap in Ha as ([? ?] & [= _ ->] & _). by destruct b.
  - exists o', n'. split; [exact He|]. split; [rewrite (proj2 (Hk (str "pass")))|rewrite (proj2 (Hk (str "user")))];
      by vm_compute.
Defined.

Lemma maskMap_leaks_witness :
  let f := secret_map [("user", "a"); ("pass", "b")]%string in
  ∃ f' m, maskMap (keys_of f) (keys_of f) (VMap f) (VMap f) = Val (f', VMap m) ∧
    m !! str "pass" = Some (VStr (str "b")).
Proof.
  intros f. destruct (maskMap (keys_of f) (keys_of f) (VMap f) (VMap f)) as [[f' t']|] eqn:E.
  - destruct (maskMap_leaks (keys_of f) (keys_of f) f f (str "pass") (str "b") f' t') as (m & -> & Hm);
      [apply keys_of_order|apply keys_of_order|by vm_compute|by vm_compute|exact E|].
    exists f', m. split; [reflexivity|exact Hm].
  - exfalso. revert E. by vm_compute.
Defined.

(** The fields as a set of names; its JSON form is a list of them. *)
Definition demo_FromJSON (b : bytes) : kerr + bytes := inr b.
Definition demo_ToJSON (b : bytes) : kerr + bytes := inr b.

Lemma PatchReplaceFieldsManagers_spec_witness :
  let e m op f := mkMF (str m) op (str "v1") None [] (Some f) [] in
  let p := e "flux"%string ApplyOperation (mkFields 1 (str "a")) in
  let q := e "kubectl-edit"%string UpdateOperation (mkFields 2 (str "b")) in
  let r := e "hpa"%string UpdateOperation (mkFields 3 (str "c")) in
  ∃ f, PatchReplaceFieldsManagers demo_FromJSON demo_ToJSON app 9 [p; q; r]
      [mkFM (str "kubectl") false UpdateOperation] (str "flux") =
    inr [NewPatchReplace managedFieldsPath [r; with_fields p f]] ∧
    decode demo_FromJSON f = Some (Some (str "ab")).
Proof.
  intros e p q r.
  apply (PatchReplaceFieldsManagers_spec demo_FromJSON demo_ToJSON app
    [mkFM (str "kubectl") false UpdateOperation] (str "flux") 9 [] [q; r] p (Some (str "a")) [Some (str "b")]).
  - intros s. by exists s.
  - by vm_compute.
  - constructor.
  - repeat constructor.
  - by vm_compute.
  - vm_compute. repeat constructor.
Defined.
