(* ===== verification/Interaction.v ===== *)
(** * Programs that call an environment

    Code that talks to a server is a tree: it returns, or it makes a call and
    goes on with the answer.  A run is the trace of the calls with their
    answers; what the environment answers is not constrained.  Goroutines that
    share nothing but the environment interleave their calls. *)

From S2P Require Import Prelude.

Inductive prog (C R A : Type) :=
  | Ret (a : A)
  | Call (c : C) (k : R → prog C R A).
Arguments Ret {C R A} a.
Arguments Call {C R A} c k.

Section prog.
Context {C R : Type}.

Fixpoint prog_bind_def {A B} (f : A → prog C R B) (p : prog C R A) : prog C R B :=
  match p with
  | Ret a => f a
  | Call c k => Call c (λ r, prog_bind_def f (k r))
  end.

#[global] Instance prog_ret : MRet (prog C R) := λ A a, Ret a.
#[global] Instance prog_bind : MBind (prog C R) := λ A B f p, prog_bind_def f p.

Definition call (c : C) : prog C R R := Call c Ret.

(** ** Runs *)

Inductive runs {A} : prog C R A → list (C * R) → A → Prop :=
  | runs_ret a : runs (Ret a) [] a
  | runs_call c k r t a : runs (k r) t a → runs (Call c k) ((c, r) :: t) a.

(** The run against a server that answers from the history. *)
Fixpoint run {A} (server : list (C * R) → C → R) (h : list (C * R)) (p : prog C R A) : A * list (C * R) :=
  match p with
  | Ret a => (a, h)
  | Call c k => let r := server h c in run server (h ++ [(c, r)]) (k r)
  end.

Lemma run_runs {A} server h (p : prog C R A) a t :
  run server h p = (a, t) → ∃ t', t = h ++ t' ∧ runs p t' a.
Proof.
  revert h. induction p as [b|c k IH]; intros h Hr; simpl in Hr.
  - simplify_eq. exists []. rewrite app_nil_r. split; [done|constructor].
  - apply IH in Hr as (t' & -> & Hr). eexists. rewrite <-app_assoc. split; [done|]. by constructor.
Qed.

Lemma runs_ret_inv {A} (a b : A) t : runs (Ret a) t b → t = [] ∧ b = a.
Proof. by inversion 1. Qed.

Lemma runs_call_inv {A} c (k : R → prog C R A) t a :
  runs (Call c k) t a → ∃ r t', t = (c, r) :: t' ∧ runs (k r) t' a.
Proof. inversion 1; subst. eauto. Qed.

Lemma runs_bind_inv {A B} (p : prog C R A) (f : A → prog C R B) t b :
  runs (p ≫= f) t b → ∃ t1 a t2, t = t1 ++ t2 ∧ runs p t1 a ∧ runs (f a) t2 b.
Proof.
  revert t. induction p as [a|c k IH]; intros t Hr.
  - exists [], a, t. split_and!; [done|constructor|done].
  - simpl in Hr. apply runs_call_inv in Hr as (r & t' & -> & Hr).
    apply IH in Hr as (t1 & a & t2 & -> & H1 & H2). exists ((c, r) :: t1), a, t2.
    split_and!; [done|by constructor|done].
Qed.

Lemma runs_bind {A B} (p : prog C R A) (f : A → prog C R B) t1 a t2 b :
  runs p t1 a → runs (f a) t2 b → runs (p ≫= f) (t1 ++ t2) b.
Proof. induction 1; intros H2; simpl; [done|]. constructor. eauto. Qed.

(** ** Interleavings *)

(** Every goroutine runs to its end; each event carries the index of the
    goroutine that made the call. *)
Inductive par {A} : list (prog C R A) → list (nat * (C * R)) → list A → Prop :=
  | par_done l : par (Ret <$> l) [] l
  | par_step ps i c k r t l :
      ps !! i = Some (Call c k) → par (<[i := k r]> ps) t l → par ps ((i, (c, r)) :: t) l.

Definition events_of (i : nat) (t : list (nat * (C * R))) : list (C * R) :=
  (filter (λ e, e.1 = i) t).*2.

Lemma elem_of_events i t e : (i, e) ∈ t → e ∈ events_of i t.
Proof. intros Hin. apply (list_elem_of_fmap_2 snd _ (i, e)). by apply list_elem_of_filter. Qed.
Lemma events_of_elem i t e : e ∈ events_of i t → e ∈ t.*2.
Proof.
  intros ([j e'] & -> & Hin)%list_elem_of_fmap. apply list_elem_of_filter in Hin as [_ Hin].
  by apply (list_elem_of_fmap_2 snd) in Hin.
Qed.

Lemma par_length {A} (ps : list (prog C R A)) t l : par ps t l → length l = length ps.
Proof. induction 1 as [|? ? ? ? ? ? ? ? ? IH]; [by rewrite length_fmap|]. by rewrite length_insert in IH. Qed.

(** The calls of one goroutine are a run of it, and so nothing another one
    does changes what it may do. *)
Lemma par_project {A} (ps : list (prog C R A)) t l i p :
  par ps t l → ps !! i = Some p → ∃ a, l !! i = Some a ∧ runs p (events_of i t) a.
Proof.
  intros Hp. revert p. induction Hp as [l|ps j c k r t l Hj Hp IH]; intros p Hi.
  - rewrite list_lookup_fmap in Hi. destruct (l !! i) as [a|] eqn:Ha; simplify_eq/=.
    exists a. split; [done|constructor].
  - unfold events_of. rewrite filter_cons. simpl. destruct (decide (j = i)) as [->|Hji].
    + assert (i < length ps) by by eapply lookup_lt_Some.
      destruct (IH (k r)) as (a & Ha & Hr); [by rewrite list_lookup_insert_eq|].
      exists a. split; [done|]. simplify_eq. by constructor.
    + apply IH. by rewrite list_lookup_insert_ne.
Qed.

(** What can be said of every goroutine's run, for all of them. *)
Lemma par_Forall2 {A} (ps : list (prog C R A)) t l (P : prog C R A → A → Prop) :
  par ps t l → (∀ i p a, ps !! i = Some p → runs p (events_of i t) a → P p a) → Forall2 P ps l.
Proof.
  intros Hp HP. apply Forall2_same_length_lookup. split; [by rewrite (par_length _ _ _ Hp)|].
  intros i p a Hi Ha. destruct (par_project _ _ _ _ _ Hp Hi) as (a' & Ha' & Hr). simplify_eq. eauto.
Qed.

(** One goroutine runs to its end before the others go on. *)
Lemma par_run {A} (ps : list (prog C R A)) i p t a t' l :
  ps !! i = Some p → runs p t a → par (<[i := Ret a]> ps) t' l → par ps ((pair i <$> t) ++ t') l.
Proof.
  intros Hi Hr. revert ps Hi. induction Hr as [a|c k r t a Hr IH]; intros ps Hi Hp; simpl.
  - by rewrite list_insert_id in Hp.
  - eapply par_step; [done|]. apply IH.
    + rewrite list_lookup_insert_eq; [done|]. by eapply lookup_lt_Some.
    + by rewrite list_insert_insert_eq.
Qed.

Lemma par_event {A} (ps : list (prog C R A)) t l i e :
  par ps t l → (i, e) ∈ t → is_Some (ps !! i).
Proof.
  induction 1 as [|ps j c k r t l Hj Hp IH]; [by intros ?%not_elem_of_nil|].
  intros [[= -> ->]|Hin]%elem_of_cons; [by eexists|]. apply IH in Hin.
  apply lookup_lt_is_Some in Hin. apply lookup_lt_is_Some. by rewrite length_insert in Hin.
Qed.
End prog.

(** ** Properties of all calls of a program *)

Section wp.
Context {C R : Type} (law : C → R → Prop) (I : C → Prop).

(** If the answers obey [law], every call satisfies [I] and the result [Q]. *)
Fixpoint wp {A} (p : prog C R A) (Q : A → Prop) : Prop :=
  match p with
  | Ret a => Q a
  | Call c k => I c ∧ ∀ r, law c r → wp (k r) Q
  end.

Lemma wp_mono {A} (p : prog C R A) (Q Q' : A → Prop) : (∀ a, Q a → Q' a) → wp p Q → wp p Q'.
Proof. intros HQ. induction p as [a|c k IH]; cbn; [by apply HQ|]. intros [Hc Hk]. eauto. Qed.

Lemma wp_bind {A B} (p : prog C R A) (f : A → prog C R B) Q : wp p (λ a, wp (f a) Q) → wp (p ≫= f) Q.
Proof. induction p as [a|c k IH]; cbn; [done|]. intros [Hc Hk]. eauto. Qed.

Lemma wp_runs {A} (p : prog C R A) Q t a :
  wp p Q → runs p t a → Forall (λ e, law e.1 e.2) t → Q a ∧ Forall (λ e, I e.1) t.
Proof.
  intros Hw Hr. revert Hw. induction Hr as [a|c k r t a Hr IH]; cbn; intros Hw Hl; [done|].
  destruct Hw as [Hc Hk]. apply Forall_cons in Hl as [Hl Ht]. destruct (IH (Hk r Hl) Ht). split; [done|by constructor].
Qed.
End wp.
