(* ===== verification/OsProg.v ===== *)
(** * Programs over the file system, and renaming ([oci/internal/fs])

    The calls of package [os] as programs of [Interaction]: each answer holds
    the error and what the call returns; the file system answers anything.
    [RenameWithFallback] moves a file or directory, copying it when source and
    destination are on different devices. *)

From S2P Require Import Prelude Utf8 GoPath Interaction Untar.

(** ** Calls *)

(** An error as far as the code inspects it: [os.IsNotExist], and a
    [LinkError] with or without [EXDEV].  [OutOfFuel] is no error of the
    system: a tree deeper than the fuel of the model. *)
Inductive oserr := NotExist | CrossDevice | LinkErr (msg : bytes) | OtherErr (msg : bytes) | OutOfFuel.
#[global] Instance oserr_eq_dec : EqDecision oserr.
Proof. solve_decision. Defined.

Inductive oscall :=
  | PStat (p : bytes) | PLstat (p : bytes) | PReadlink (p : bytes) | PReadDir (p : bytes)
  | POpen (p : bytes)                         (* for reading *)
  | PRead (p : bytes)                         (* all that is read, up to the error *)
  | PCloseR (p : bytes)
  | PCreate (p : bytes) | PCreateTemp (dir pattern : bytes)
  | PWrite (p data : bytes) | PClose (p : bytes)
  | PChmod (p : bytes) (mode : Z) | PRename (p q : bytes) | PRemove (p : bytes) | PRemoveAll (p : bytes)
  | PMkdirAll (p : bytes) (mode : Z) | PSymlink (target p : bytes).

(** Each call reads the parts of the answer that it has. *)
Record osans := mkAns { an_err : option oserr; an_mode : Z; an_name : bytes; an_data : list bytes;
  an_entries : list (bytes * bool) }.

Abbreviation os_prog A := (prog oscall osans A) (only parsing).
Abbreviation os_event := (oscall * osans)%type (only parsing).

(** A call of which only the error is used. *)
Definition do_call (c : oscall) : os_prog (option oserr) := Call c (λ r, Ret (an_err r)).

(** Go on unless there is an error. *)
Definition unless (p k : os_prog (option oserr)) : os_prog (option oserr) :=
  p ≫= λ e, match e with Some e => Ret (Some e) | None => k end.

(** [io.Copy] of chunks into an open file; the error of the reader comes last. *)
Fixpoint write_chunks (p : bytes) (chunks : list bytes) (rerr : option oserr) : os_prog (option oserr) :=
  match chunks with
  | [] => Ret rerr
  | c :: chunks => unless (do_call (PWrite p c)) (write_chunks p chunks rerr)
  end.

(** Calls that change what is at a path. *)
Definition modifies (p : bytes) (c : oscall) : bool :=
  match c with
  | PCreate q | PWrite q _ | PChmod q _ | PRemove q | PRemoveAll q | PMkdirAll q _ | PSymlink _ q =>
      bool_decide (q = p)
  | PRename a b => bool_decide (a = p) || bool_decide (b = p)
  | _ => false
  end.

(** ** Copying ([fs.go], on Unix) *)

(** [src/oci/internal/fs/fs.go:184-193 cloneSymlink] *)
Definition cloneSymlink (sl dst : bytes) : os_prog (option oserr) :=
  Call (PReadlink sl) (λ r,
  match an_err r with
  | Some e => Ret (Some e)
  | None => do_call (PSymlink (an_name r) dst)
  end).

(** [src/oci/internal/fs/fs.go:207-215 IsSymlink] *)
Definition IsSymlink (path : bytes) : os_prog (oserr + bool) :=
  Call (PLstat path) (λ r,
  match an_err r with
  | Some e => Ret (inl e)
  | None => Ret (inr (Z.land (an_mode r) ModeSymlink =? ModeSymlink)%Z)
  end).

(** [src/oci/internal/fs/fs.go:195-205 IsDir] *)
Definition oci_IsDir (name : bytes) : os_prog bool :=
  Call (PStat name) (λ r,
  match an_err r with
  | Some _ => Ret false
  | None => Ret (IsDir (an_mode r))
  end).

(** The source is closed on every return after it was opened.
    [src/oci/internal/fs/fs.go:119-182 copyFile] *)
Definition copyFile (src dst : bytes) : os_prog (option oserr) :=
  IsSymlink src ≫= λ sym,
  match sym with
  | inl e => Ret (Some e)
  | inr true => cloneSymlink src dst
  | inr false =>
      Call (POpen src) (λ r,
      match an_err r with
      | Some e => Ret (Some e)
      | None =>
          let close e := Call (PCloseR src) (λ _, Ret e) in
          Call (PCreate dst) (λ r,
          match an_err r with
          | Some e => close (Some e)
          | None =>
              Call (PRead src) (λ r,
              write_chunks dst (an_data r) (an_err r) ≫= λ err,
              match err with
              | Some e => Call (PClose dst) (λ _, close (Some e))
              | None =>
                  Call (PClose dst) (λ r,
                  match an_err r with
                  | Some e => close (Some e)
                  | None =>
                      Call (PStat src) (λ r,
                      match an_err r with
                      | Some e => close (Some e)
                      | None => Call (PChmod dst (an_mode r)) (λ r, close (an_err r))
                      end)
                  end)
              end)
          end)
      end)
  end.

(** [src/oci/internal/fs/fs.go:99-114 CopyDir] *)
Fixpoint copy_entries (copyDir : bytes → bytes → os_prog (option oserr)) (src dst : bytes)
    (entries : list (bytes * bool)) : os_prog (option oserr) :=
  match entries with
  | [] => Ret None
  | (name, isDir) :: entries =>
      let srcPath := filepath_Join [src; name] in
      let dstPath := filepath_Join [dst; name] in
      (if isDir : bool then copyDir srcPath dstPath else copyFile srcPath dstPath) ≫= λ err,
      match err with Some e => Ret (Some e) | None => copy_entries copyDir src dst entries end
  end.

(** [fuel] bounds the depth of the tree.
    [src/oci/internal/fs/fs.go:66-117 CopyDir] *)
Fixpoint oci_CopyDir (fuel : nat) (src dst : bytes) : os_prog (option oserr) :=
  match fuel with
  | 0 => Ret (Some OutOfFuel)
  | S fuel =>
      let src := Clean src in
      let dst := Clean dst in
      Call (PLstat src) (λ fi,
      match an_err fi with
      | Some e => Ret (Some e)
      | None =>
          if negb (IsDir (an_mode fi)) then Ret (Some (OtherErr (str "source is not a directory")))
          else
            Call (PStat dst) (λ r,
            match an_err r with
            | Some NotExist =>
                unless (do_call (PMkdirAll dst (an_mode fi)))
                  (Call (PReadDir src) (λ r,
                   match an_err r with
                   | Some e => Ret (Some e)
                   | None => copy_entries (oci_CopyDir fuel) src dst (an_entries r)
                   end))
            | Some e => Ret (Some e)
            | None => Ret (Some (OtherErr (str "destination already exists")))
            end)
      end)
  end.

(** [src/oci/internal/fs/fs.go:34-59 renameByCopy] *)
Definition renameByCopy (fuel : nat) (src dst : bytes) : os_prog (option oserr) :=
  oci_IsDir src ≫= λ dir,
  unless (if dir : bool then oci_CopyDir fuel src dst else copyFile src dst) (do_call (PRemoveAll src)).

(** [src/oci/internal/fs/rename.go:16-31 renameFallback] *)
Definition renameFallback (fuel : nat) (err : oserr) (src dst : bytes) : os_prog (option oserr) :=
  match err with
  | CrossDevice => renameByCopy fuel src dst
  | _ => Ret (Some err)
  end.

(** [src/oci/internal/fs/fs.go:17-32 RenameWithFallback] *)
Definition RenameWithFallback (fuel : nat) (src dst : bytes) : os_prog (option oserr) :=
  Call (PStat src) (λ r,
  match an_err r with
  | Some e => Ret (Some e)
  | None =>
      Call (PRename src dst) (λ r,
      match an_err r with
      | None => Ret None
      | Some e => renameFallback fuel e src dst
      end)
  end).

(** ** Runs *)

Lemma runs_do_call (c : oscall) (t : list os_event) e :
  runs (do_call c) t e → ∃ r, t = [(c, r)] ∧ an_err r = e.
Proof. intros (r & t' & -> & Hr)%runs_call_inv. apply runs_ret_inv in Hr as [-> ->]. by exists r. Qed.

Lemma runs_unless p k (t : list os_event) e :
  runs (unless p k) t e →
  (∃ e', runs p t (Some e') ∧ e = Some e') ∨ (∃ t1 t2, t = t1 ++ t2 ∧ runs p t1 None ∧ runs k t2 e).
Proof.
  intros (t1 & e' & t2 & -> & H1 & H2)%runs_bind_inv. destruct e' as [e'|].
  - apply runs_ret_inv in H2 as [-> ->]. left. exists e'. by rewrite app_nil_r.
  - right. by exists t1, t2.
Qed.

Lemma runs_write_chunks p chunks rerr (t : list os_event) e :
  runs (write_chunks p chunks rerr) t e →
  Forall (λ c, ∃ d, c = PWrite p d) t.*1 ∧
  (e = None → t.*1 = PWrite p <$> chunks ∧ Forall (λ r, an_err r = None) t.*2 ∧ rerr = None).
Proof.
  revert t. induction chunks as [|c chunks IH]; intros t Hr; simpl in Hr.
  { apply runs_ret_inv in Hr as [-> ->]. split; [constructor|done]. }
  apply runs_unless in Hr as [(e' & Hr & ->)|(t1 & t2 & -> & H1 & H2)].
  - apply runs_do_call in Hr as (r & -> & Hr). split; [|done]. repeat constructor. by eexists.
  - apply runs_do_call in H1 as (r & -> & Hr). destruct (IH _ H2) as [Hall Hok]. split.
    + simpl. constructor; [by eexists|done].
    + intros ->. destruct Hok as (E & F & ->); [done|]. split_and!; [|by constructor|done].
      cbn [app fmap list_fmap fst]. by f_equal.
Qed.

(** The content that reaches a file. *)
Definition written_to (p : bytes) (t : list os_event) : list bytes :=
  omap (λ e : os_event, match e.1 with PWrite q d => if bool_decide (q = p) then Some d else None | _ => None end) t.

Lemma written_to_writes p chunks (t : list os_event) : t.*1 = PWrite p <$> chunks → written_to p t = chunks.
Proof.
  revert chunks. induction t as [|[c r] t IH]; intros [|d chunks] E; try done. simpl in E. injection E as -> E.
  unfold written_to. simpl. rewrite bool_decide_true by done. f_equal. by apply IH.
Qed.

(** A copied file: the link with its target, or the chunks that were read to
    the end, with the mode of the source. *)
Definition copied (src dst : bytes) (t : list os_event) : Prop :=
  (∃ r1 r2 r3, t = [(PLstat src, r1); (PReadlink src, r2); (PSymlink (an_name r2) dst, r3)]) ∨
  (∃ r m, (PRead src, r) ∈ t ∧ an_err r = None ∧ written_to dst t = an_data r ∧
     (PChmod dst m) ∈ t.*1 ∧ (PCreate dst) ∈ t.*1).

Ltac os_step :=
  match goal with
  | H : runs (Call _ _) _ _ |- _ =>
      let r := fresh "r" in let t := fresh "t" in apply runs_call_inv in H as (r & t & -> & H)
  | H : runs (Ret _) _ _ |- _ => apply runs_ret_inv in H as [-> ?]; simplify_eq
  | H : context [match an_err ?r with _ => _ end] |- _ => destruct (an_err r) eqn:?; try done
  end.

Lemma copyFile_complete src dst (t : list os_event) : runs (copyFile src dst) t None → copied src dst t.
Proof.
  unfold copyFile. intros (t1 & sym & t2 & -> & H1 & H2)%runs_bind_inv.
  unfold IsSymlink in H1. repeat os_step. destruct (_ =? _)%Z.
  - unfold cloneSymlink in H2. repeat os_step. apply runs_do_call in H2 as (r1 & -> & _). left. by eexists _, _, _.
  - do 5 (os_step; try (by repeat os_step)).
    apply runs_bind_inv in H2 as (t2 & err & t3 & -> & Hw & H2).
    destruct err as [e|]; [by repeat os_step|].
    apply runs_write_chunks in Hw as [_ Hw]. destruct Hw as (Ew & _ & Er); [done|].
    repeat os_step. right. exists r2, (an_mode r4). split_and!.
    + set_solver.
    + done.
    + unfold written_to. rewrite !omap_app. simpl. rewrite omap_app. cbn [omap list_omap]. simpl.
      rewrite app_nil_r. by apply written_to_writes.
    + cbn. rewrite fmap_app. cbn. set_unfold. tauto.
    + cbn. set_unfold. tauto.
Qed.

(** The runs of a rename: it fails before it does anything, the system renames
    (or refuses to), or the devices differ and the source is copied. *)
Lemma RenameWithFallback_runs fuel src dst (t : list os_event) e :
  runs (RenameWithFallback fuel src dst) t e →
  (∃ r, t = [(PStat src, r)] ∧ e = an_err r ∧ e ≠ None) ∨
  (∃ r1 r2, t = [(PStat src, r1); (PRename src dst, r2)] ∧ e = an_err r2 ∧ an_err r2 ≠ Some CrossDevice) ∨
  (∃ r1 r2 t', t = (PStat src, r1) :: (PRename src dst, r2) :: t' ∧ an_err r2 = Some CrossDevice ∧
     runs (renameByCopy fuel src dst) t' e).
Proof.
  unfold RenameWithFallback. intros Hr. os_step. destruct (an_err r) eqn:Er; [os_step; left; naive_solver|].
  os_step. destruct (an_err r0) as [e'|] eqn:Er0; [|os_step; right; left; naive_solver].
  unfold renameFallback in Hr. destruct (decide (e' = CrossDevice)) as [->|Hne].
  - right; right. by eexists _, _, _.
  - right; left. exists r, r0. rewrite Er0. destruct e'; try done; os_step; naive_solver.
Qed.

(** Nothing is lost in a move across devices: the source is removed as the
    last call, and only after all of it was copied. *)
Lemma renameByCopy_keeps fuel src dst (t : list os_event) e :
  runs (renameByCopy fuel src dst) t e → ∃ r t', t = (PStat src, r) :: t' ∧
  ((∃ e', e = Some e' ∧ (runs (oci_CopyDir fuel src dst) t' e ∨ runs (copyFile src dst) t' e)) ∨
   (∃ t1 r', t' = t1 ++ [(PRemoveAll src, r')] ∧ e = an_err r' ∧
      (runs (oci_CopyDir fuel src dst) t1 None ∨ copied src dst t1))).
Proof.
  unfold renameByCopy. intros (t1 & dir & t2 & -> & H1 & H2)%runs_bind_inv.
  assert (∃ r, t1 = [(PStat src, r)]) as (r & ->).
  { unfold oci_IsDir in H1. os_step. destruct (an_err r); os_step; by exists r. }
  exists r, t2. split; [done|]. apply runs_unless in H2 as [(e' & Hr & ->)|(t3 & t4 & -> & H3 & H4)].
  - left. exists e'. destruct dir; eauto.
  - right. apply runs_do_call in H4 as (r' & -> & <-). exists t3, r'. split_and!; [done..|].
    destruct dir; [by left|right; by apply copyFile_complete].
Qed.
