(* ===== verification/SsaIgnore.v ===== *)
(** * Server-side apply: ignore rules
    ([ssa/jsondiff/selector.go], [patch.go], [unstructured.go], and
    [removeIgnoredFields] of [ssa/manager_apply.go])

    Rules say which JSON pointers of which objects are left out of drift
    detection.  Compiled rules are a Go map keyed by the address of the compiled
    selector; its iteration order is arbitrary. *)

From S2P Require Import Prelude Utf8 Json SsaObject SsaPatch.

(** Errors are wrapped with a message; what an error is asked for stays. *)
Definition wrap (msg : bytes) (e : kerr) : kerr :=
  mkErr (IsNotFound e) (IsConflict e) (IsInvalid e) (ReasonForError e) (managerConflict e)
    (msg ++ str ": " ++ err_msg e).

(** Regular expressions and label selectors of other packages. *)
Class Matchers := {
  Regexp : Type;
  regexp_Compile : bytes → kerr + Regexp;
  MatchString : Regexp → bytes → bool;
  LSelector : Type;
  labels_Parse : bytes → kerr + LSelector;
  lsel_Matches : LSelector → StrMap → bool }.

(** [src/ssa/jsondiff/selector.go:33-65 Selector] *)
Record Selector := mkSelector {
  sel_Group : bytes; sel_Version : bytes; sel_Kind : bytes; sel_Name : bytes; sel_Namespace : bytes;
  sel_AnnotationSelector : bytes; sel_LabelSelector : bytes }.

(** [src/ssa/jsondiff/selector.go:224-229 anchorRegex] *)
Definition anchorRegex (pattern : bytes) : bytes :=
  if beq pattern [] then pattern else str "^(?:" ++ pattern ++ str ")$".

Section selectors.
Context {Obj : Type} `{KubeObject Obj} `{Matchers}.

(** [src/ssa/jsondiff/selector.go:67-78 SelectorRegex] *)
Record SelectorRegex := mkSR {
  sr_selector : Selector; groupRegex : Regexp; versionRegex : Regexp; kindRegex : Regexp;
  nameRegex : Regexp; namespaceRegex : Regexp;
  labelSelector : option LSelector; annotationSelector : option LSelector }.

Definition try_ {A B} (msg : string) (m : kerr + A) (k : A → kerr + B) : kerr + B :=
  match m with inl e => inl (wrap (str msg) e) | inr a => k a end.

(** A selector that is empty is not parsed. *)
Definition parse_selector (s : bytes) : kerr + option LSelector :=
  if beq s [] then inr None
  else match labels_Parse s with inl e => inl e | inr l => inr (Some l) end.

(** [src/ssa/jsondiff/selector.go:80-126 NewSelectorRegex] *)
Definition NewSelectorRegex (s : option Selector) : kerr + option SelectorRegex :=
  match s with
  | None => inr None
  | Some s =>
      try_ "invalid group regex" (regexp_Compile (anchorRegex (sel_Group s))) (λ g,
      try_ "invalid version regex" (regexp_Compile (anchorRegex (sel_Version s))) (λ v,
      try_ "invalid kind regex" (regexp_Compile (anchorRegex (sel_Kind s))) (λ k,
      try_ "invalid name regex" (regexp_Compile (anchorRegex (sel_Name s))) (λ n,
      try_ "invalid namespace regex" (regexp_Compile (anchorRegex (sel_Namespace s))) (λ ns,
      try_ "invalid label selector" (parse_selector (sel_LabelSelector s)) (λ l,
      try_ "invalid annotation selector" (parse_selector (sel_AnnotationSelector s)) (λ a,
      inr (Some (mkSR s g v k n ns l a)))))))))
  end.

(** [src/ssa/jsondiff/selector.go:159-183 MatchGVK] *)
Definition MatchGVK (s : option SelectorRegex) (group version kind : bytes) : bool :=
  match s with
  | None => true
  | Some s =>
      if negb (beq (sel_Group (sr_selector s)) []) && negb (MatchString (groupRegex s) group) then false
      else if negb (beq (sel_Version (sr_selector s)) []) && negb (MatchString (versionRegex s) version) then false
      else if negb (beq (sel_Kind (sr_selector s)) []) && negb (MatchString (kindRegex s) kind) then false
      else true
  end.

(** [src/ssa/jsondiff/selector.go:185-192 MatchName] *)
Definition MatchName (s : option SelectorRegex) (n : bytes) : bool :=
  match s with
  | None => true
  | Some s => if beq (sel_Name (sr_selector s)) [] then true else MatchString (nameRegex s) n
  end.

(** [src/ssa/jsondiff/selector.go:194-202 MatchNamespace] *)
Definition MatchNamespace (s : option SelectorRegex) (ns : bytes) : bool :=
  match s with
  | None => true
  | Some s => if beq (sel_Namespace (sr_selector s)) [] then true else MatchString (namespaceRegex s) ns
  end.

(** A parsed selector is there whenever the selector is not empty. *)
Definition parsed_Matches (l : option LSelector) (m : StrMap) : bool :=
  match l with Some l => lsel_Matches l m | None => false end.

(** [src/ssa/jsondiff/selector.go:204-212 MatchAnnotationSelector] *)
Definition MatchAnnotationSelector (s : option SelectorRegex) (a : StrMap) : bool :=
  match s with
  | None => true
  | Some s => if beq (sel_AnnotationSelector (sr_selector s)) [] then true
              else parsed_Matches (annotationSelector s) a
  end.

(** [src/ssa/jsondiff/selector.go:214-222 MatchLabelSelector] *)
Definition MatchLabelSelector (s : option SelectorRegex) (l : StrMap) : bool :=
  match s with
  | None => true
  | Some s => if beq (sel_LabelSelector (sr_selector s)) [] then true
              else parsed_Matches (labelSelector s) l
  end.

(** [src/ssa/jsondiff/selector.go:128-157 MatchUnstructured] *)
Definition MatchUnstructured (s : option SelectorRegex) (o : Obj) : bool :=
  match s with
  | None => true
  | Some _ =>
      if negb (MatchNamespace s (GetObjNamespace o)) then false
      else if negb (MatchName s (GetObjName o)) then false
      else if negb (MatchGVK s (GetGroup o) (GetVersion o) (GetKind o)) then false
      else if negb (MatchLabelSelector s (GetLabels o)) then false
      else if negb (MatchAnnotationSelector s (GetAnnotations o)) then false
      else true
  end.

(** ** Rules *)

(** [src/ssa/jsondiff/unstructured.go:37-45 IgnoreRule] *)
Record IgnoreRule := mkRule { rule_Paths : list bytes; rule_Selector : option Selector }.

(** The map of the compiled rules: one entry per key, which is an address or
    nil. *)
Abbreviation CompiledIgnoreRules := (list (option SelectorRegex * list bytes)) (only parsing).

Definition is_nil_key (e : option SelectorRegex * list bytes) : bool :=
  match e.1 with None => true | Some _ => false end.

(** [compiled[sr] = paths]: a compiled selector has a new address, nil is
    always the same key. *)
Definition compiled_insert (sr : option SelectorRegex) (paths : list bytes) (m : CompiledIgnoreRules)
    : CompiledIgnoreRules :=
  match sr with
  | Some _ => m ++ [(sr, paths)]
  | None => filter (λ e, is_nil_key e = false) m ++ [(None, paths)]
  end.

(** [src/ssa/jsondiff/unstructured.go:54-60 CompileIgnoreRules] *)
Fixpoint compile_loop (rules : list IgnoreRule) (compiled : CompiledIgnoreRules)
    : kerr + CompiledIgnoreRules :=
  match rules with
  | [] => inr compiled
  | rule :: rules =>
      match NewSelectorRegex (rule_Selector rule) with
      | inl e => inl (wrap (str "failed to create ignore rule selector") e)
      | inr sr => compile_loop rules (compiled_insert sr (rule_Paths rule) compiled)
      end
  end.

(** [src/ssa/jsondiff/unstructured.go:50-62 CompileIgnoreRules] *)
Definition CompileIgnoreRules (rules : list IgnoreRule) : kerr + CompiledIgnoreRules :=
  compile_loop rules [].

(** The pointers to ignore in an object, in the order of the iteration.
    [src/ssa/manager_apply.go:567-572 removeIgnoredFields] *)
Definition ignore_paths (rules : CompiledIgnoreRules) (matchObj : Obj) : list bytes :=
  rules ≫= λ '(sr, paths), if MatchUnstructured sr matchObj then paths else [].

(** ** Patches ([ssa/jsondiff/patch.go]) *)

Inductive PatchOp := OpRemove (path : bytes) | OpReplace (path : bytes) (v : value).

(** [src/ssa/jsondiff/patch.go:28-39 GenerateRemovePatch] *)
Definition GenerateRemovePatch (paths : list bytes) : list PatchOp := OpRemove <$> paths.
(** [src/ssa/jsondiff/patch.go:41-59 GenerateReplacePatch] *)
Definition GenerateReplacePatch (ops : list (bytes * value)) : list PatchOp :=
  (λ '(p, v), OpReplace p v) <$> ops.

(** [json_patch] applies a JSON patch to the encoding of the object; removing
    a path that is missing is allowed. *)
Context (json_patch : list PatchOp → Obj → kerr + Obj).

(** [src/ssa/jsondiff/patch.go:61-103 ApplyPatchToUnstructured] *)
Definition ApplyPatchToUnstructured (o : Obj) (patch : list PatchOp) : kerr + Obj :=
  if length patch =? 0 then inr o else json_patch patch o.

(** [src/ssa/manager_apply.go:563-582 removeIgnoredFields] *)
Definition removeIgnoredFields (matchObj o : Obj) (rules : CompiledIgnoreRules) : kerr + Obj :=
  let ignorePaths := ignore_paths rules matchObj in
  if 0 <? length ignorePaths then ApplyPatchToUnstructured o (GenerateRemovePatch ignorePaths) else inr o.
End selectors.

(** ** What the compiled rules ignore *)

Section compiled.
Context {Obj : Type} `{KubeObject Obj} `{Matchers}.

Abbreviation CompiledIgnoreRules := (list (option SelectorRegex * list bytes)) (only parsing).

(** The rule has a selector and the object matches it. *)
Definition rule_selects (o : Obj) (r : IgnoreRule) : bool :=
  match rule_Selector r with
  | None => false
  | Some _ => match NewSelectorRegex (rule_Selector r) with
              | inl _ => false
              | inr sr => MatchUnstructured sr o
              end
  end.

Definition no_selector (r : IgnoreRule) : bool :=
  match rule_Selector r with None => true | Some _ => false end.

(** The last rule without a selector. *)
Definition last_nil (rules : list IgnoreRule) : option IgnoreRule :=
  last (filter (λ r, no_selector r = true) rules).

Definition selected_paths (o : Obj) (rules : list IgnoreRule) : list bytes :=
  filter (λ r, rule_selects o r = true) rules ≫= rule_Paths.

(** The entries of the rules with a selector. *)
Definition selector_entries (rules : list IgnoreRule) : CompiledIgnoreRules :=
  rules ≫= λ r, match NewSelectorRegex (rule_Selector r) with
                | inr (Some sr) => [(Some sr, rule_Paths r)]
                | _ => []
                end.

Lemma NewSelectorRegex_some s sr : NewSelectorRegex (Some s) = inr sr → is_Some sr.
Proof.
  simpl. unfold try_. intros Hn.
  repeat match type of Hn with
    | match ?m with _ => _ end = _ => destruct m; try done
    end.
  simplify_eq. eauto.
Qed.

Lemma ignore_paths_selector_entries (o : Obj) rules :
  ignore_paths (selector_entries rules) o = selected_paths o rules.
Proof.
  unfold ignore_paths, selector_entries, selected_paths.
  induction rules as [|r rules IH]; [done|]. rewrite bind_cons, filter_cons, bind_app, IH.
  unfold rule_selects. destruct (rule_Selector r) as [s|] eqn:Es; [|done].
  destruct (NewSelectorRegex (Some s)) as [|sr] eqn:En; [done|].
  apply NewSelectorRegex_some in En as [x ->]. cbn [mbind list_bind]. rewrite app_nil_r.
  by destruct (MatchUnstructured (Some x) o).
Qed.

(** The map splits into the entry of nil and the other entries. *)
Lemma compile_loop_split rules m compiled :
  compile_loop rules m = inr compiled →
  filter (λ e, is_nil_key e = false) compiled =
    filter (λ e, is_nil_key e = false) m ++ selector_entries rules ∧
  filter (λ e, is_nil_key e = true) compiled =
    match last_nil rules with
    | Some r => [(None, rule_Paths r)]
    | None => filter (λ e, is_nil_key e = true) m
    end.
Proof.
  revert m. induction rules as [|r rules IH]; intros m Hc.
  { simpl in Hc. simplify_eq. by rewrite app_nil_r. }
  cbn [compile_loop] in Hc. destruct (NewSelectorRegex (rule_Selector r)) as [|sr] eqn:Esr; [done|].
  apply IH in Hc as [-> ->]. unfold last_nil, selector_entries.
  rewrite bind_cons, Esr. destruct (rule_Selector r) as [s|] eqn:Es.
  - apply NewSelectorRegex_some in Esr as [x ->]. cbn [compiled_insert].
    rewrite (filter_cons_False (λ r, no_selector r = true)) by (unfold no_selector; by rewrite Es).
    rewrite !filter_app, (filter_cons_True (λ e, is_nil_key e = false)) by done.
    rewrite (filter_cons_False (λ e, is_nil_key e = true)), !filter_nil, app_nil_r, <-app_assoc by done. done.
  - simpl in Esr. simplify_eq. cbn [compiled_insert].
    rewrite (filter_cons_True (λ r, no_selector r = true)), last_cons by (unfold no_selector; by rewrite Es).
    rewrite !filter_app, (filter_cons_False (λ e, is_nil_key e = false)) by done.
    rewrite (filter_cons_True (λ e, is_nil_key e = true)), !filter_nil, list_filter_filter_l, app_nil_r by done.
    rewrite list_filter_filter. split; [done|]. destruct (last _); [done|].
    induction m as [|e m IHm]; [done|]. rewrite filter_cons_False by (intros [? ?]; congruence). done.
Qed.

Lemma split_nil_key (m : CompiledIgnoreRules) :
  filter (λ e, is_nil_key e = true) m ++ filter (λ e, is_nil_key e = false) m ≡ₚ m.
Proof.
  rewrite <-(filter_app_complement (λ e, is_nil_key e = true) m) at 3. f_equiv.
  induction m as [|e m IH]; [done|]. rewrite !filter_cons.
  destruct (is_nil_key e) eqn:E; repeat case_decide; try congruence; by rewrite IH.
Qed.

(** What compiled rules ignore, whatever the order in which the map is
    iterated: the pointers of every rule whose selector matches the object
    and, of the rules without a selector (which should apply to every object),
    those of the last one only; they share the key nil of the map. *)
Theorem CompileIgnoreRules_paths (o : Obj) (rules : list IgnoreRule)
    (compiled order : CompiledIgnoreRules) :
  CompileIgnoreRules rules = inr compiled → order ≡ₚ compiled →
  ignore_paths order o ≡ₚ
    match last_nil rules with Some r => rule_Paths r | None => [] end ++ selected_paths o rules.
Proof.
  intros Hc Hp. apply compile_loop_split in Hc as [Hsel Hnil].
  unfold ignore_paths. rewrite Hp, <-(split_nil_key compiled), Hsel, Hnil, !bind_app.
  rewrite filter_nil. fold (ignore_paths (selector_entries rules) o).
  rewrite ignore_paths_selector_entries. simpl. f_equiv. destruct (last_nil rules); [|done].
  simpl. by rewrite app_nil_r.
Qed.
End compiled.

(** ** Concrete inputs *)

(** An object that is a name with labels and annotations. *)
Record DemoObj := mkDemo {
  demo_kind : bytes; demo_api : bytes; demo_name : bytes; demo_ns : bytes; demo_uid : bytes;
  demo_rv : bytes; demo_labels : StrMap; demo_annotations : StrMap;
  demo_map : vmap; demo_managed : list ManagedFieldsEntry }.

#[global] Program Instance DemoObj_kube : KubeObject DemoObj := {
  GetKind := demo_kind; GetAPIVersion := demo_api; GetGroup := λ _, []; GetVersion := demo_api;
  GetObjName := demo_name; GetObjNamespace := demo_ns; GetUID := demo_uid; GetResourceVersion := demo_rv;
  GetLabels := demo_labels; GetAnnotations := demo_annotations;
  SetLabels := λ l o, mkDemo (demo_kind o) (demo_api o) (demo_name o) (demo_ns o) (demo_uid o) (demo_rv o)
                        l (demo_annotations o) (demo_map o) (demo_managed o);
  SetAnnotations := λ a o, mkDemo (demo_kind o) (demo_api o) (demo_name o) (demo_ns o) (demo_uid o)
                             (demo_rv o) (demo_labels o) a (demo_map o) (demo_managed o) }.
Solve All Obligations with done.

(** Regular expressions that are literal strings, anchored. *)
#[global] Instance demo_matchers : Matchers := {
  Regexp := bytes; regexp_Compile := inr; MatchString := λ r s, beq r (anchorRegex s);
  LSelector := bytes; labels_Parse := inr; lsel_Matches := λ l m, bool_decide (is_Some (m !! l)) }.

Definition demo_obj (kind name : string) : DemoObj :=
  mkDemo (str kind) (str "v1") (str name) (str "ns") (str "u1") (str "1") ∅ ∅ ∅ [].

Definition demo_rules : list IgnoreRule :=
  [mkRule [str "/spec/a"] None;
   mkRule [str "/spec/replicas"] (Some (mkSelector [] [] (str "Deployment") [] [] [] []));
   mkRule [str "/spec/b"] None].

Definition demo_compiled : list (option SelectorRegex * list bytes) :=
  match CompileIgnoreRules demo_rules with inl _ => [] | inr c => c end.

Lemma CompileIgnoreRules_paths_witness :
  ignore_paths demo_compiled (demo_obj "Deployment" "x") ≡ₚ [str "/spec/b"; str "/spec/replicas"].
Proof.
  assert (match last_nil demo_rules with Some r => rule_Paths r | None => [] end ++
          selected_paths (demo_obj "Deployment" "x") demo_rules = [str "/spec/b"; str "/spec/replicas"]) as <-.
  { by vm_compute. }
  apply (CompileIgnoreRules_paths (demo_obj "Deployment" "x") demo_rules demo_compiled demo_compiled).
  - vm_compute. reflexivity.
  - apply Permutation_refl.
Defined.
