(* ===== verification/SsaNormalize.v ===== *)
(** * Server-side apply: normalisation of objects ([ssa/normalize/normalize.go])

    Objects of registered kinds are converted to typed ones, fixed and
    converted back. *)

From S2P Require Import Prelude Utf8 Json SsaObject SsaIgnore.

(** The parts of typed objects that the fixes look at; the rest is opaque. *)
Record Port (R : Type) := mkPort { port_rest : R; Protocol : bytes }.
Arguments mkPort {R}.
Arguments port_rest {R}.
Arguments Protocol {R}.
Record Container (R : Type) := mkContainer { container_rest : R; Ports : list (Port R) }.
Arguments mkContainer {R}.
Arguments container_rest {R}.
Arguments Ports {R}.
Record Metric (R : Type) := mkMetric { metric_rest : R; metric_Type : bytes }.
Arguments mkMetric {R}.
Arguments metric_rest {R}.
Arguments metric_Type {R}.

Inductive Typed (R : Type) :=
  | TPod (r : R) (c : list (Container R))
  | TDeployment (r : R) (c : list (Container R))
  | TStatefulSet (r : R) (c : list (Container R))
  | TDaemonSet (r : R) (c : list (Container R))
  | TReplicaSet (r : R) (c : list (Container R))
  | TJob (r : R) (c : list (Container R))
  | TCronJob (r : R) (c : list (Container R))
  | TService (r : R) (ports : list (Port R))
  | TSecret (r : R) (Data : option StrMap) (StringData : StrMap)
  | THorizontalPodAutoscaler (r : R) (metrics : list (Metric R))
  | TOther (r : R).
Arguments TPod {R}.
Arguments TDeployment {R}.
Arguments TStatefulSet {R}.
Arguments TDaemonSet {R}.
Arguments TReplicaSet {R}.
Arguments TJob {R}.
Arguments TCronJob {R}.
Arguments TService {R}.
Arguments TSecret {R}.
Arguments THorizontalPodAutoscaler {R}.
Arguments TOther {R}.

(** The scheme and the converter of the client library. *)
Class Scheme (Obj : Type) := {
  Rest : Type;
  (** [scheme.New]: whether the new object is a [metav1.Object] *)
  scheme_New : Obj → kerr + bool;
  conv_FromUnstructured : Obj → kerr + Typed Rest;
  (** the converter, on a typed object or on nil *)
  conv_ToUnstructured : option (Typed Rest) → res (kerr + Obj);
  MetricDeepEqual : Metric Rest → Metric Rest → bool;
  clear_creationTimestamp : Obj → Obj;
  remove_status : Obj → Obj }.

Section normalize.
Context {Obj : Type} `{Kube : KubeObject Obj} `{Uni : Unicode} `{Sch : Scheme Obj}.

(** When the type is not a [metav1.Object] the error that is returned is nil.
    [src/ssa/normalize/normalize.go:44-62 FromUnstructuredWithScheme] *)
Definition FromUnstructuredWithScheme (o : Obj) : kerr + option (Typed Rest) :=
  match scheme_New o with
  | inl e => inl e
  | inr ok =>
      if negb ok then inr None
      else match conv_FromUnstructured o with inl e => inl e | inr t => inr (Some t) end
  end.

(** [src/ssa/normalize/normalize.go:64-78 ToUnstructured] *)
Definition ToUnstructured (t : option (Typed Rest)) : res (kerr + Obj) := conv_ToUnstructured t.

Definition ProtocolTCP : bytes := str "TCP".

(** [src/ssa/normalize/normalize.go:208-217 normalizeServiceProtoDefault] *)
Definition normalizeServiceProtoDefault {R} (ports : list (Port R)) : list (Port R) :=
  (λ p, if length (Protocol p) =? 0 then mkPort (port_rest p) ProtocolTCP else p) <$> ports.

(** [src/ssa/normalize/normalize.go:219-229 normalizePodProtoDefault] *)
Definition normalizePodProtoDefault {R} (cs : list (Container R)) : list (Container R) :=
  (λ c, mkContainer (container_rest c)
          ((λ p, if length (Protocol p) =? 0 then mkPort (port_rest p) ProtocolTCP else p) <$> Ports c)) <$> cs.

(** [src/ssa/normalize/normalize.go:231-243 normalizeSecret] *)
Definition normalizeSecret (data : option StrMap) (stringData : StrMap) : option StrMap * StrMap :=
  if 0 <? size stringData then (Some (stringData ∪ default ∅ data), ∅) else (data, stringData).

(** [src/ssa/normalize/normalize.go:126-145 UnstructuredWithScheme] *)
Definition normalize_typed {R} (t : Typed R) : Typed R :=
  match t with
  | TPod r c => TPod r (normalizePodProtoDefault c)
  | TDeployment r c => TDeployment r (normalizePodProtoDefault c)
  | TStatefulSet r c => TStatefulSet r (normalizePodProtoDefault c)
  | TDaemonSet r c => TDaemonSet r (normalizePodProtoDefault c)
  | TReplicaSet r c => TReplicaSet r (normalizePodProtoDefault c)
  | TJob r c => TJob r (normalizePodProtoDefault c)
  | TCronJob r c => TCronJob r (normalizePodProtoDefault c)
  | TService r p => TService r (normalizeServiceProtoDefault p)
  | TSecret r d s => let '(d, s) := normalizeSecret d s in TSecret r d s
  | t => t
  end.

(** [src/ssa/normalize/normalize.go:154-165 UnstructuredWithScheme] *)
Definition clean_standard_fields (o : Obj) : Obj :=
  let o := clear_creationTimestamp o in if negb (IsCRD o) then remove_status o else o.

(** [src/ssa/normalize/normalize.go:119-166 UnstructuredWithScheme] *)
Definition UnstructuredWithScheme (o : Obj) : res (kerr + Obj) :=
  match FromUnstructuredWithScheme o with
  | inl _ => Val (inr (clean_standard_fields o))
  | inr typedObject =>
      r ← ToUnstructured (normalize_typed <$> typedObject);
      match r with
      | inl e => Val (inl e)
      | inr o => Val (inr (clean_standard_fields o))
      end
  end.

Definition is_role (o : Obj) : bool :=
  beq (GetAPIVersion o) (str "rbac.authorization.k8s.io/v1") &&
  (beq (GetKind o) (str "Role") || beq (GetKind o) (str "ClusterRole")).

(** The objects after the call and the error; the objects are changed in
    place.  [src/ssa/normalize/normalize.go:89-108 UnstructuredListWithScheme] *)
Fixpoint UnstructuredListWithScheme (objects : list Obj) : res (list Obj * option kerr) :=
  match objects with
  | [] => Val ([], None)
  | o :: objects =>
      if is_role o then
        x ← UnstructuredListWithScheme objects; Val (o :: x.1, x.2)
      else
        r ← UnstructuredWithScheme o;
        match r with
        | inl e => Val (o :: objects, Some (wrap (FmtUnstructured o ++ str " normalization error") e))
        | inr o' => x ← UnstructuredListWithScheme objects; Val (o' :: x.1, x.2)
        end
  end.

(** [src/ssa/normalize/normalize.go:183-196 DryRunUnstructured] *)
Fixpoint dedupe_metrics (ms : list (Metric Rest)) (metrics : list (Metric Rest)) : list (Metric Rest) :=
  match ms with
  | [] => metrics
  | metric :: ms =>
      let found := existsb (MetricDeepEqual metric) metrics in
      if negb found && negb (beq (metric_Type metric) []) then dedupe_metrics ms (metrics ++ [metric])
      else dedupe_metrics ms metrics
  end.

(** [src/ssa/normalize/normalize.go:168-206 DryRunUnstructured] *)
Definition DryRunUnstructured (o : Obj) : res (kerr + Obj) :=
  if beq (GetKind o) (str "HorizontalPodAutoscaler") then
    match FromUnstructuredWithScheme o with
    | inl e => Val (inl e)
    | inr typedObject =>
        ToUnstructured (match typedObject with
                        | Some (THorizontalPodAutoscaler r ms) =>
                            Some (THorizontalPodAutoscaler r (dedupe_metrics ms []))
                        | t => t
                        end)
    end
  else Val (inr o).

(** ** The fixes *)

(** The metrics of an autoscaler after the fix: each has a type, no two of
    them are equal, each was there before, and every typed metric has an equal
    one among them (equality of metrics is an equivalence). *)
Theorem dedupe_metrics_spec (ms : list (Metric Rest)) :
  (∀ a, MetricDeepEqual a a = true) →
  let out := dedupe_metrics ms [] in
  ForallOrdPairs (λ a b, MetricDeepEqual b a = false) out ∧
  (∀ a, a ∈ out → a ∈ ms ∧ metric_Type a ≠ []) ∧
  (∀ a, a ∈ ms → metric_Type a ≠ [] → ∃ b, b ∈ out ∧ MetricDeepEqual a b = true).
Proof.
  intros Hrefl.
  assert (∀ acc, ForallOrdPairs (λ a b, MetricDeepEqual b a = false) acc →
    let out := dedupe_metrics ms acc in
    ForallOrdPairs (λ a b, MetricDeepEqual b a = false) out ∧ (∀ a, a ∈ acc → a ∈ out) ∧
    (∀ a, a ∈ out → a ∈ acc ∨ (a ∈ ms ∧ metric_Type a ≠ [])) ∧
    (∀ a, a ∈ ms → metric_Type a ≠ [] → ∃ b, b ∈ out ∧ MetricDeepEqual a b = true)) as Hgen.
  { induction ms as [|x ms IH]; intros acc Hacc; simpl.
    { split_and!; [done|auto|auto|]. by intros a ?%not_elem_of_nil. }
    destruct (existsb (MetricDeepEqual x) acc) eqn:Ex; simpl.
    - destruct (IH acc Hacc) as (H1 & H2 & H3 & H4). split_and!; [done|auto|set_solver|].
      intros a [->|Ha]%elem_of_cons Ht; [|auto]. apply existsb_exists in Ex as (b & Hb & Hxb).
      exists b. split; [|done]. by apply H2, list_elem_of_In.
    - unfold beq. case_bool_decide as Ht; simpl.
      + destruct (IH acc Hacc) as (H1 & H2 & H3 & H4). split_and!; [done|auto|set_solver|].
        intros a [->|Ha]%elem_of_cons Hn; [done|auto].
      + destruct (IH (acc ++ [x])) as (H1 & H2 & H3 & H4).
        { clear IH. induction Hacc as [|y acc Hy Hacc IHa]; simpl; [by repeat constructor|].
          simpl in Ex. apply orb_false_iff in Ex as [Exy Ex]. constructor; [|by apply IHa].
          apply Forall_app. split; [done|]. by constructor. }
        split_and!; [done|set_solver|set_solver|].
        intros a [->|Ha]%elem_of_cons Hn; [|auto]. exists x. split; [|done]. apply H2. set_solver. }
  destruct (Hgen [] (FOP_nil _)) as (H1 & _ & H3 & H4). split_and!; [done| |done].
  intros a Ha. destruct (H3 a Ha) as [?%not_elem_of_nil|?]; done.
Qed.

Lemma normalizeSecret_lookup (d : option StrMap) (s : StrMap) (k : bytes) :
  default ∅ (normalizeSecret d s).1 !! k = match s !! k with Some v => Some v | None => default ∅ d !! k end ∧
  (normalizeSecret d s).2 = ∅.
Proof.
  unfold normalizeSecret. destruct (Nat.ltb_spec 0 (size s)) as [Hs|Hs]; cbn [fst snd default].
  - split; [|done]. etrans; [apply (lookup_union (M := gmap bytes) s (default ∅ d) k)|].
    by destruct (s !! k), (default ∅ d !! k).
  - assert (s = ∅) as -> by (apply map_size_empty_inv; lia). done.
Qed.

(** The fixes are idempotent. *)
Lemma normalize_typed_idemp {R} (t : Typed R) : normalize_typed (normalize_typed t) = normalize_typed t.
Proof.
  assert (∀ ps : list (Port R), normalizeServiceProtoDefault (normalizeServiceProtoDefault ps) =
            normalizeServiceProtoDefault ps) as Hp.
  { intros ps. unfold normalizeServiceProtoDefault. rewrite <-list_fmap_compose.
    apply list_fmap_ext. intros _ p _. simpl. by destruct (length (Protocol p) =? 0) eqn:E; simpl; rewrite ?E. }
  assert (∀ cs : list (Container R), normalizePodProtoDefault (normalizePodProtoDefault cs) =
            normalizePodProtoDefault cs) as Hc.
  { intros cs. unfold normalizePodProtoDefault. rewrite <-list_fmap_compose. apply list_fmap_ext.
    intros _ c _. simpl. f_equal. apply Hp. }
  destruct t; simpl; rewrite ?Hp, ?Hc; try done.
  destruct (normalizeSecret Data StringData) as [d s] eqn:E. simpl.
  assert (s = ∅) as -> by (replace s with (normalizeSecret Data StringData).2 by (by rewrite E);
    by apply (normalizeSecret_lookup Data StringData [])). done.
Qed.
End normalize.
