(* ===== verification/SsaDrift.v ===== *)
(** * Server-side apply: drift and field ownership
    ([ssa/manager_apply.go], lines 584 to 941, and [ssa/manager_diff.go])

    Ignored fields that drifted are stripped from the payload when another
    Apply manager owns them and adopted from the cluster otherwise.  Who owns a
    field is read from the managed fields, tries whose keys are [f:name] and,
    for members of lists, [k:{...}]. *)

From S2P Require Import Prelude Utf8 GoPath Json SsaObject SsaPatch SsaIgnore.

(** What the code uses of other packages: JSON pointers, JSON decoding of the
    managed fields, [unstructured.NestedSlice] and semantic equality. *)
Class Content (Obj : Type) := {
  ObjectMap : Obj → vmap;
  GetManagedFields : Obj → list ManagedFieldsEntry;
  (** [jsonpointer.New]: the error of a malformed pointer *)
  jsonpointer_New : bytes → option kerr;
  (** [ptr.Get]: nothing when a segment cannot be resolved *)
  ptr_Get : bytes → vmap → option value;
  json_Unmarshal_map : bytes → option vmap;
  NestedSlice : vmap → list bytes → option (list value);
  SemanticDeepEqual : value → value → bool;
  json_patch : list PatchOp → Obj → kerr + Obj;
  (** a copy without [metadata] and [status] *)
  without_metadata_status : Obj → Obj;
  (** [NestedSlice] descends through maps only: nothing is found below a slice. *)
  NestedSlice_maps : ∀ m p l f q, NestedSlice m p = Some l → NestedSlice m (p ++ f :: q) = None }.

Section drift.
Context {Obj : Type} `{KubeObject Obj} `{Content Obj} `{Matchers}.

(** [src/ssa/manager_apply.go:584-598 lookupJSONPointer] *)
Definition lookupJSONPointer (o : Obj) (pointer : bytes) : kerr + option value :=
  match jsonpointer_New pointer with
  | Some e => inl e
  | None => inr (ptr_Get pointer (ObjectMap o))
  end.

(** ** Managed fields as tries *)

(** [src/ssa/manager_apply.go:693-697 parsedManagedField] *)
Record parsedManagedField := mkParsed { pmf_manager : bytes; pmf_fields : vmap }.

(** [src/ssa/manager_apply.go:699-721 parseManagedFieldsApply] *)
Definition parseManagedFieldsApply (o : Obj) : list parsedManagedField :=
  GetManagedFields o ≫= λ mf,
    if negb (beq (mf_Subresource mf) []) || negb (bool_decide (mf_Operation mf = ApplyOperation)) then []
    else match mf_FieldsV1 mf with
         | None => []
         | Some f =>
             if length (fp_raw f) =? 0 then []
             else match json_Unmarshal_map (fp_raw f) with
                  | None => []
                  | Some fields => [mkParsed (mf_Manager mf) fields]
                  end
         end.

(** [src/ssa/manager_apply.go:878-894 walkFieldsV1] *)
Fixpoint walkFieldsV1 (current : vmap) (segments : list bytes) : option vmap :=
  match segments with
  | [] => Some current
  | seg :: segments =>
      match current !! seg with
      | None => None
      | Some child => match as_map child with
                      | None => None
                      | Some childMap => walkFieldsV1 childMap segments
                      end
      end
  end.

(** [src/ssa/manager_apply.go:896-919 fieldsV1Contains] *)
Fixpoint fieldsV1Contains_loop (current : vmap) (segments : list bytes) : bool :=
  match segments with
  | [] => true
  | seg :: segments =>
      match current !! seg with
      | None => false
      | Some child =>
          match segments with
          | [] => true
          | _ => match as_map child with
                 | None => false
                 | Some childMap => fieldsV1Contains_loop childMap segments
                 end
          end
      end
  end.
(** [src/ssa/manager_apply.go:896-919 fieldsV1Contains] *)
Definition fieldsV1Contains (fields : vmap) (segments : list bytes) : bool :=
  if length segments =? 0 then false else fieldsV1Contains_loop fields segments.

(** All pairs of [kv] are in the item.
    [src/ssa/manager_apply.go:868-876 matchesKKey] *)
Definition matchesKKey (item kv : vmap) : bool :=
  forallb (λ '(k, v), SemanticDeepEqual (default VNil (item !! k)) v) (map_to_list kv).

(** [src/ssa/manager_apply.go:859-866 parseKKey] *)
Definition parseKKey (kKey : bytes) : option vmap := json_Unmarshal_map (TrimPrefix kKey (str "k:")).

(** [src/ssa/manager_apply.go:844-850 collectKKeys] *)
Definition node_KKeys (parentSegments : list bytes) (entry : parsedManagedField) : list bytes :=
  match walkFieldsV1 (pmf_fields entry) parentSegments with
  | None => []
  | Some node => filter (λ key : bytes, HasPrefix key (str "k:") = true) (map_to_list node).*1
  end.

(** The keys as a set; the order in which they are listed is arbitrary.
    [src/ssa/manager_apply.go:835-857 collectKKeys] *)
Definition collectKKeys (parentSegments : list bytes) (parsed : list parsedManagedField) : gset bytes :=
  list_to_set (parsed ≫= node_KKeys parentSegments).

(** [src/ssa/manager_apply.go:823-831 resolveArrayMergeKey] *)
Definition key_matches (item : vmap) (kKey : bytes) : bool :=
  match parseKKey kKey with None => false | Some kv => matchesKKey item kv end.

(** [order] lists the keys of the set in the order of the iteration. *)
Context (order : gset bytes → list bytes).

(** A negative index is not caught by the bounds check.
    [src/ssa/manager_apply.go:795-833 resolveArrayMergeKey] *)
Definition resolveArrayMergeKey (o : Obj) (objPath : list bytes) (index : Z)
    (fieldsV1ParentSegments : list bytes) (parsed : list parsedManagedField) : res (option bytes) :=
  match NestedSlice (ObjectMap o) objPath with
  | None => Val None
  | Some arr =>
      if (Z.of_nat (length arr) <=? index)%Z then Val None
      else if (index <? 0)%Z then Panics
      else match arr !! Z.to_nat index with
           | None => Panics
           | Some v =>
               match as_map v with
               | None => Val None
               | Some item =>
                   let kKeys := order (collectKKeys fieldsV1ParentSegments parsed) in
                   Val (head (filter (λ kKey : bytes, key_matches item kKey = true) kKeys))
               end
           end
  end.

(** [~1] and [~0] are unescaped.
    [src/ssa/manager_apply.go:761-767 pointerToFieldsV1Segments] *)
Definition unescape (s : bytes) : bytes :=
  strings_Replace (strings_Replace s (str "~1") (str "/") None) (str "~0") (str "~") None.

(** [src/ssa/manager_apply.go:769-793 pointerToFieldsV1Segments] *)
Fixpoint segments_loop (o : Obj) (parsed : list parsedManagedField) (rawSegments : list bytes)
    (segments objPath : list bytes) : res (option (list bytes)) :=
  match rawSegments with
  | [] => Val (Some segments)
  | seg :: rawSegments =>
      match Atoi seg with
      | None => segments_loop o parsed rawSegments (segments ++ [str "f:" ++ seg]) (objPath ++ [seg])
      | Some idx =>
          kKey ← resolveArrayMergeKey o objPath idx segments parsed;
          match kKey with
          | None => Val None
          | Some kKey => segments_loop o parsed rawSegments (segments ++ [kKey]) (objPath ++ [seg])
          end
      end
  end.

(** [src/ssa/manager_apply.go:747-793 pointerToFieldsV1Segments] *)
Definition pointerToFieldsV1Segments (o : Obj) (pointer : bytes) (parsed : list parsedManagedField)
    : res (option (list bytes)) :=
  let raw := TrimPrefix pointer (str "/") in
  if beq raw [] then Val None
  else segments_loop o parsed (unescape <$> strings_Split raw "/") [] [].

(** [src/ssa/manager_apply.go:723-745 isFieldOwnedByOtherApplyManager] *)
Definition isFieldOwnedByOtherApplyManager (o : Obj) (pointer fluxManager : bytes)
    (parsed : list parsedManagedField) : res bool :=
  segments ← pointerToFieldsV1Segments o pointer parsed;
  match segments with
  | None => Val false
  | Some segments =>
      Val (existsb (λ entry, negb (beq (pmf_manager entry) fluxManager) &&
                             fieldsV1Contains (pmf_fields entry) segments) parsed)
  end.

(** ** Resolution of drifted paths *)

(** [src/ssa/manager_apply.go:600-622 driftEntry] *)
Inductive driftEntry := driftStrip (path : bytes) | driftAdopt (path : bytes) (v : value).

(** [src/ssa/manager_apply.go:669-687 computeDriftedPaths] *)
Definition drifted_at (existingObject dryRunObject : Obj) (path : bytes) : bool :=
  match lookupJSONPointer existingObject path, lookupJSONPointer dryRunObject path with
  | inr ev, inr dv =>
      negb (eqb (bool_decide (is_Some ev)) (bool_decide (is_Some dv))) ||
      negb (SemanticDeepEqual (default VNil ev) (default VNil dv))
  | _, _ => true
  end.

Definition existing_value (o : Obj) (path : bytes) : value :=
  match lookupJSONPointer o path with inr (Some v) => v | _ => VNil end.

(** [src/ssa/manager_apply.go:669-687 computeDriftedPaths] *)
Fixpoint drifted_paths_loop (existingObject dryRunObject : Obj) (fluxManager : bytes)
    (parsed : list parsedManagedField) (paths : list bytes) : res (list driftEntry) :=
  match paths with
  | [] => Val []
  | path :: paths =>
      if drifted_at existingObject dryRunObject path then
        other ← isFieldOwnedByOtherApplyManager existingObject path fluxManager parsed;
        rest ← drifted_paths_loop existingObject dryRunObject fluxManager parsed paths;
        Val ((if other : bool then driftStrip path
              else driftAdopt path (existing_value existingObject path)) :: rest)
      else drifted_paths_loop existingObject dryRunObject fluxManager parsed paths
  end.

(** [src/ssa/manager_apply.go:654-691 computeDriftedPaths] *)
Definition computeDriftedPaths (existingObject dryRunObject : Obj)
    (rules : list (option SelectorRegex * list bytes)) (fluxManager : bytes) : res (list driftEntry) :=
  drifted_paths_loop existingObject dryRunObject fluxManager (parseManagedFieldsApply existingObject)
    (ignore_paths rules dryRunObject).

Definition strip_paths (dr : list driftEntry) : list bytes :=
  dr ≫= λ e, match e with driftStrip p => [p] | _ => [] end.
Definition adopt_ops (dr : list driftEntry) : list (bytes * value) :=
  dr ≫= λ e, match e with driftAdopt p v => [(p, v)] | _ => [] end.

(** [src/ssa/manager_apply.go:624-652 applyDriftResult] *)
Definition applyDriftResult (target : Obj) (dr : list driftEntry) : kerr + Obj :=
  match (if 0 <? length (strip_paths dr)
         then ApplyPatchToUnstructured json_patch target (GenerateRemovePatch (strip_paths dr))
         else inr target) with
  | inl e => inl e
  | inr target =>
      if 0 <? length (adopt_ops dr)
      then ApplyPatchToUnstructured json_patch target (GenerateReplacePatch (adopt_ops dr))
      else inr target
  end.

(** ** Drift ([ssa/manager_diff.go]) *)

(** [DryRunUnstructured] of the normalize package. *)
Context (DryRunUnstructured : Obj → kerr + Obj).

(** [src/ssa/manager_diff.go:165-174 prepareObjectForDiff] *)
Definition prepareObjectForDiff (o : Obj) : Obj :=
  match DryRunUnstructured (without_metadata_status o) with inl _ => o | inr o' => o' end.

(** [src/ssa/manager_diff.go:157-163 hasObjectDrifted] *)
Definition hasObjectDrifted (existingObject dryRunObject : Obj) : bool :=
  let existingObj := prepareObjectForDiff existingObject in
  let dryRunObj := prepareObjectForDiff dryRunObject in
  negb (SemanticDeepEqual (VMap (ObjectMap dryRunObj)) (VMap (ObjectMap existingObj))).

(** Semantic equality of two maps of strings; nil and empty are equal.
    [src/ssa/manager_diff.go:140-155 hasDrifted] *)
Definition hasDrifted (existingObject dryRunObject : Obj) : bool :=
  if beq (GetResourceVersion dryRunObject) [] then true
  else if negb (bool_decide (GetLabels dryRunObject = GetLabels existingObject)) then true
  else if negb (bool_decide (GetAnnotations dryRunObject = GetAnnotations existingObject)) then true
  else hasObjectDrifted dryRunObject existingObject.

(** [compiled] is nil when there are no rules.
    [src/ssa/manager_apply.go:921-941 hasDriftedWithIgnore] *)
Definition hasDriftedWithIgnore (existingObject dryRunObject : Obj)
    (compiled : option (list (option SelectorRegex * list bytes))) : kerr + bool :=
  match compiled with
  | None => inr (hasDrifted existingObject dryRunObject)
  | Some compiled =>
      match removeIgnoredFields json_patch dryRunObject existingObject compiled with
      | inl e => inl e
      | inr existingCopy =>
          match removeIgnoredFields json_patch dryRunObject dryRunObject compiled with
          | inl e => inl e
          | inr dryRunCopy => inr (hasDrifted existingCopy dryRunCopy)
          end
      end
  end.
End drift.

(** ** Who owns a field *)

Section ownership.
Context {Obj : Type} `{KubeObject Obj} `{Content Obj} `{Matchers} (order : gset bytes → list bytes).
Implicit Types (o : Obj) (raw segs objPath : list bytes) (parsed : list parsedManagedField).

Definition numeric (s : bytes) : bool := match Atoi s with Some _ => true | None => false end.

(** The segments of a pointer, unescaped. *)
Definition pointer_segments (pointer : bytes) : list bytes :=
  unescape <$> strings_Split (TrimPrefix pointer (str "/")) "/".

Lemma resolve_found o objPath i segs parsed k :
  resolveArrayMergeKey order o objPath i segs parsed = Val (Some k) →
  is_Some (NestedSlice (ObjectMap o) objPath).
Proof. unfold resolveArrayMergeKey. destruct (NestedSlice _ _); [by eexists|done]. Qed.

(** Below a list, no further index is resolved. *)
Lemma segments_below_list o parsed raw segs p l f q s :
  NestedSlice (ObjectMap o) p = Some l →
  segments_loop order o parsed raw segs (p ++ f :: q) = Val (Some s) →
  Forall (λ x, numeric x = false) raw.
Proof.
  intros Hl. revert segs q. induction raw as [|x raw IH]; intros segs q Hs; [constructor|].
  simpl in Hs. unfold numeric. constructor.
  - destruct (Atoi x) as [i|] eqn:Ei; [|done]. unfold resolveArrayMergeKey in Hs.
    by rewrite (NestedSlice_maps _ _ _ _ _ Hl) in Hs.
  - destruct (Atoi x) as [i|].
    + unfold resolveArrayMergeKey in Hs. by rewrite (NestedSlice_maps _ _ _ _ _ Hl) in Hs.
    + rewrite <-app_assoc in Hs. by eapply IH.
Qed.

Lemma filter_numeric_nil raw : Forall (λ x, numeric x = false) raw → filter (λ x, numeric x = true) raw = [].
Proof. induction 1 as [|x raw Hx _ IH]; [done|]. by rewrite filter_cons_False by congruence. Qed.

Lemma segments_one_index o parsed raw segs objPath s :
  segments_loop order o parsed raw segs objPath = Val (Some s) →
  length (filter (λ x, numeric x = true) raw) ≤ 1.
Proof.
  revert segs objPath. induction raw as [|x raw IH]; intros segs objPath Hs; cbn [segments_loop] in Hs.
  { simpl. lia. }
  assert (numeric x = match Atoi x with Some _ => true | None => false end) as Hx by done.
  destruct (Atoi x) as [i|].
  - rewrite filter_cons_True by done.
    destruct (resolveArrayMergeKey order o objPath i segs parsed) as [[k|]|] eqn:Er; simpl in Hs; [|done..].
    apply resolve_found in Er as [l Hl].
    apply (segments_below_list _ _ _ _ _ _ _ [] _ Hl), filter_numeric_nil in Hs as ->. simpl. lia.
  - rewrite filter_cons_False by congruence. by eapply IH.
Qed.

(** Without indices the segments are the fields of the pointer. *)
Lemma segments_plain o parsed raw segs objPath :
  Forall (λ x, numeric x = false) raw →
  segments_loop order o parsed raw segs objPath = Val (Some (segs ++ ((λ x, str "f:" ++ x) <$> raw))).
Proof.
  intros Hraw. revert segs objPath. induction Hraw as [|x raw Hx _ IH]; intros segs objPath; simpl.
  { by rewrite app_nil_r. }
  unfold numeric in Hx. destruct (Atoi x); [done|]. by rewrite IH, <-app_assoc.
Qed.

Lemma pointer_plain o parsed pointer :
  Forall (λ x, numeric x = false) (pointer_segments pointer) → TrimPrefix pointer (str "/") ≠ [] →
  pointerToFieldsV1Segments order o pointer parsed =
  Val (Some ((λ x, str "f:" ++ x) <$> pointer_segments pointer)).
Proof.
  intros Hp Hne. unfold pointerToFieldsV1Segments, beq. rewrite bool_decide_false by done.
  fold (pointer_segments pointer). by rewrite segments_plain.
Qed.

(** The trie has a node at the path. *)
Definition trie_has (fields : vmap) (segs : list bytes) : Prop :=
  ∃ init x parent, segs = init ++ [x] ∧ walkFieldsV1 fields init = Some parent ∧ is_Some (parent !! x).

Lemma fieldsV1Contains_spec (fields : vmap) segs : fieldsV1Contains fields segs = true ↔ trie_has fields segs.
Proof.
  unfold fieldsV1Contains. destruct segs as [|x segs]; simpl.
  { split; [done|]. intros (init & y & parent & Hs & _). by destruct init. }
  revert x fields. induction segs as [|y segs IH]; intros x fields.
  - split.
    + intros Hc. exists [], x, fields. simpl. destruct (fields !! x); naive_solver.
    + intros (init & z & parent & Hs & Hw & [v Hv]). destruct init as [|? [|??]]; simplify_eq/=. by rewrite Hv.
  - split.
    + destruct (fields !! x) as [child|] eqn:Ex; [|done]. destruct (as_map child) as [m|] eqn:Em; [|done].
      intros Hc. apply IH in Hc as (init & z & parent & Hs & Hw & Hz).
      exists (x :: init), z, parent. simpl. rewrite Ex, Em, Hs. done.
    + intros (init & z & parent & Hs & Hw & Hz). destruct init as [|w init]; simplify_eq/=.
      destruct (fields !! w) as [child|]; [|done]. destruct (as_map child) as [m|]; [|done].
      apply IH. by exists init, z, parent.
Qed.

Lemma drifted_loop_In existing dry flux parsed (paths : list bytes) entries e :
  drifted_paths_loop order existing dry flux parsed paths = Val entries → e ∈ entries →
  ∃ p other, p ∈ paths ∧ drifted_at existing dry p = true ∧
    isFieldOwnedByOtherApplyManager order existing p flux parsed = Val other ∧
    e = if other : bool then driftStrip p else driftAdopt p (existing_value existing p).
Proof.
  revert entries. induction paths as [|p paths IH]; intros entries Hl He; simpl in Hl.
  { simplify_eq. by apply not_elem_of_nil in He. }
  destruct (drifted_at existing dry p) eqn:Ed.
  - destruct (isFieldOwnedByOtherApplyManager _ _ _ _ _) as [other|] eqn:Eo; simpl in Hl; [|done].
    destruct (drifted_paths_loop _ _ _ _ _ _) as [rest|]; simpl in Hl; [|done]. simplify_eq.
    apply elem_of_cons in He as [->|He].
    + exists p, other. split_and!; [by constructor|done..].
    + destruct (IH rest eq_refl He) as (q & b & Hq & ?). exists q, b. split; [by constructor|done].
  - destruct (IH entries Hl He) as (q & b & Hq & ?). exists q, b. split; [by constructor|done].
Qed.

(** Members of nested lists are never recognised as owned: when a drifted
    path is stripped from the payload (because another Apply manager owns the
    field), its pointer has at most one index.  With two or more indices
    (a port of a container, an environment variable) the code looks the inner
    list up by a path through the outer one, which [NestedSlice] does not
    descend, and adopts the value whoever owns it. *)
Theorem computeDriftedPaths_nested (existingObject dryRunObject : Obj)
    (rules : list (option SelectorRegex * list bytes)) (fluxManager p : bytes) (entries : list driftEntry) :
  computeDriftedPaths order existingObject dryRunObject rules fluxManager = Val entries →
  driftStrip p ∈ entries → length (filter (λ x, numeric x = true) (pointer_segments p)) ≤ 1.
Proof.
  intros Hc He. eapply drifted_loop_In in Hc as (q & other & _ & _ & Ho & Hq); [|done].
  destruct other; simplify_eq. unfold isFieldOwnedByOtherApplyManager in Ho.
  destruct (pointerToFieldsV1Segments _ _ _ _) as [[s|]|] eqn:Es; simpl in Ho; [|done..].
  unfold pointerToFieldsV1Segments in Es. destruct (beq _ []); [done|].
  by apply segments_one_index in Es.
Qed.

(** Another manager than [flux] applied the field at the pointer. *)
Definition owned_by_other (flux p : bytes) parsed : Prop :=
  ∃ entry, entry ∈ parsed ∧ pmf_manager entry ≠ flux ∧
    trie_has (pmf_fields entry) ((λ x, str "f:" ++ x) <$> pointer_segments p).

(** The resolution of a drifted ignored field, for pointers without
    indices: it is computed without a panic, it names exactly the ignored
    pointers whose values differ, strips those that another Apply manager owns
    according to the tries of the managed fields, and adopts the in-cluster
    value for the others. *)
Theorem computeDriftedPaths_spec (existingObject dryRunObject : Obj)
    (rules : list (option SelectorRegex * list bytes)) (fluxManager : bytes) :
  Forall (λ p, Forall (λ x, numeric x = false) (pointer_segments p) ∧ TrimPrefix p (str "/") ≠ [])
    (ignore_paths rules dryRunObject) →
  ∃ entries, computeDriftedPaths order existingObject dryRunObject rules fluxManager = Val entries ∧
    Forall2 (λ p e,
      let parsed := parseManagedFieldsApply existingObject in
      (owned_by_other fluxManager p parsed → e = driftStrip p) ∧
      (¬ owned_by_other fluxManager p parsed → e = driftAdopt p (existing_value existingObject p)))
      (filter (λ p, drifted_at existingObject dryRunObject p = true) (ignore_paths rules dryRunObject))
      entries.
Proof.
  unfold computeDriftedPaths. set (parsed := parseManagedFieldsApply existingObject).
  induction 1 as [|p paths [Hp Hne] _ IH]; [by exists []|]. destruct IH as (entries & He & Hf). simpl.
  rewrite filter_cons. destruct (drifted_at existingObject dryRunObject p); [|by exists entries].
  unfold isFieldOwnedByOtherApplyManager. rewrite pointer_plain by done. simpl. rewrite He. simpl.
  eexists; split; [done|]. constructor; [|done]. simpl.
  destruct (existsb _ parsed) eqn:Ex; split; try done.
  - intros []. apply existsb_exists in Ex as (entry & Hin & Hc). apply andb_true_iff in Hc as [Hm Hc].
    exists entry. apply fieldsV1Contains_spec in Hc. split_and!; [by apply list_elem_of_In| |done].
    apply negb_true_iff in Hm. by apply bool_decide_eq_false in Hm.
  - intros (entry & Hin & Hm & Hc). exfalso. apply fieldsV1Contains_spec in Hc.
    eapply not_true_iff_false; [exact Ex|]. apply existsb_exists. exists entry.
    split; [by apply list_elem_of_In|]. apply andb_true_iff. split; [|exact Hc].
    unfold beq. by rewrite bool_decide_false.
Qed.
End ownership.

(** ** Concrete inputs *)

(** Equality of values, to a depth. *)
Fixpoint demo_eq (n : nat) (a b : value) : bool :=
  match n with
  | 0 => false
  | S n =>
      match a, b with
      | VMap m1, VMap m2 =>
          (size m1 =? size m2) &&
          forallb (λ '(k, v), match m2 !! k with Some w => demo_eq n v w | None => false end) (map_to_list m1)
      | VList l1, VList l2 => (length l1 =? length l2) && forallb (λ '(v, w), demo_eq n v w) (zip l1 l2)
      | _, _ => same_value a b
      end
  end.

Fixpoint demo_get (segs : list bytes) (m : vmap) : option value :=
  match segs with
  | [] => Some (VMap m)
  | s :: segs => match m !! s with
                 | Some (VMap m') => demo_get segs m'
                 | Some v => match segs with [] => Some v | _ => None end
                 | None => None
                 end
  end.

Definition demo_slice (m : vmap) (p : list bytes) : option (list value) :=
  match demo_get p m with Some (VList l) => Some l | _ => None end.

Lemma demo_slice_maps m p l f q : demo_slice m p = Some l → demo_slice m (p ++ f :: q) = None.
Proof.
  unfold demo_slice. revert m. induction p as [|s p IH]; intros m Hp; simpl in *; [done|].
  destruct (m !! s) as [[]|]; try done; try (by destruct p); by apply IH.
Qed.

Fixpoint demo_set (segs : list bytes) (v : option value) (m : vmap) : vmap :=
  match segs with
  | [] => m
  | [s] => match v with Some v => <[s := v]> m | None => delete s m end
  | s :: segs => match m !! s with Some (VMap m') => <[s := VMap (demo_set segs v m')]> m | _ => m end
  end.

Definition demo_op (m : vmap) (op : PatchOp) : vmap :=
  match op with
  | OpRemove p => demo_set (pointer_segments p) None m
  | OpReplace p v => demo_set (pointer_segments p) (Some v) m
  end.

Definition with_map (o : DemoObj) (m : vmap) : DemoObj :=
  mkDemo (demo_kind o) (demo_api o) (demo_name o) (demo_ns o) (demo_uid o) (demo_rv o) (demo_labels o)
    (demo_annotations o) m (demo_managed o).

(** Fields are written as a path, [f:a/f:b]. *)
Definition demo_trie (raw : bytes) : option vmap :=
  Some (foldr (λ s m, {[s := VMap m]}) ∅ (strings_Split raw "/")).

#[global] Instance demo_content : Content DemoObj := {
  ObjectMap := demo_map; GetManagedFields := demo_managed; jsonpointer_New := λ _, None;
  ptr_Get := λ p m, demo_get (pointer_segments p) m; json_Unmarshal_map := demo_trie;
  NestedSlice := demo_slice; SemanticDeepEqual := demo_eq 5;
  json_patch := λ ops o, inr (with_map o (foldl demo_op (demo_map o) ops));
  without_metadata_status := λ o, with_map o (delete (str "status") (delete (str "metadata") (demo_map o)));
  NestedSlice_maps := demo_slice_maps }.

(** An object with two fields, one of which another manager applied. *)
Definition demo_drift (a b : Z) : DemoObj :=
  mkDemo (str "Deployment") (str "v1") (str "x") (str "ns") (str "u1") (str "1") ∅ ∅
    {[str "spec" := VMap (<[str "a" := VInt a]> {[str "b" := VInt b]})]}
    [mkMF (str "hpa") ApplyOperation (str "v1") None [] (Some (mkFields 1 (str "f:spec/f:a"))) []].

Definition demo_all (paths : list bytes) : list (option SelectorRegex * list bytes) := [(None, paths)].

Lemma computeDriftedPaths_spec_witness :
  computeDriftedPaths elements (demo_drift 1 2) (demo_drift 3 4)
    (demo_all [str "/spec/a"; str "/spec/b"; str "/spec/c"]) (str "flux") =
  Val [driftStrip (str "/spec/a"); driftAdopt (str "/spec/b") (VInt 2)].
Proof.
  destruct (computeDriftedPaths_spec elements (demo_drift 1 2) (demo_drift 3 4)
    (demo_all [str "/spec/a"; str "/spec/b"; str "/spec/c"]) (str "flux")) as (entries & He & _).
  - repeat (constructor; [split; [repeat constructor|done]|]). constructor.
  - rewrite He. f_equal. revert He. vm_compute. by intros [= <-].
Defined.

Lemma computeDriftedPaths_nested_witness :
  length (filter (λ x, numeric x = true) (pointer_segments (str "/spec/a"))) ≤ 1.
Proof.
  apply (computeDriftedPaths_nested elements (demo_drift 1 2) (demo_drift 3 2) (demo_all [str "/spec/a"])
    (str "flux") (str "/spec/a") [driftStrip (str "/spec/a")]).
  - by vm_compute.
  - by constructor.
Defined.
