(* ===== verification/SsaClient.v ===== *)
(** * Server-side apply: calls to the cluster

    The calls the manager makes, as programs of [Interaction]: each call
    carries the object that is sent, each answer the error and the object as
    the call leaves it.  The server answers anything. *)

From S2P Require Import Prelude Utf8 Json SsaObject SsaSort SsaPatch Interaction.

(** ** Polled statuses *)

(** [status.Status] of kstatus. *)
Inductive KStatus := InProgressStatus | FailedStatus | CurrentStatus | TerminatingStatus | NotFoundStatus | UnknownStatus.
#[global] Instance KStatus_eq_dec : EqDecision KStatus.
Proof. solve_decision. Defined.

(** [event.ResourceStatus] *)
Record ResourceStatus := mkRS { rs_Identifier : ObjMetadata; rs_Status : KStatus; rs_Error : option bytes }.

(** [collector.ResourceStatuses], in the order of an iteration. *)
Definition Statuses : Type := list (ObjMetadata * option ResourceStatus).

Inductive ctxErr := ctxCanceled | ctxDeadlineExceeded.

(** What a poll shows: the statuses at each event, those at the end, the error
    of the context at the end and the error of the collector. *)
Record poll_result := mkPoll {
  pr_snapshots : list Statuses; pr_final : Statuses; pr_ctx : option ctxErr; pr_error : option kerr }.

(** ** Calls *)

Inductive kcall (Obj : Type) :=
  (** [client.Get] of a key into an object *)
  | KGet (ns name : bytes) (into : Obj)
  (** server-side apply with [DryRunAll], [ForceOwnership] and the field owner *)
  | KDryRun (fieldOwner : bytes) (o : Obj)
  (** server-side apply with [ForceOwnership] and the field owner *)
  | KApply (fieldOwner : bytes) (o : Obj)
  (** JSON patch *)
  | KJSONPatch (fieldOwner : bytes) (o : Obj) (patch : list JSONPatch)
  | KDelete (o : Obj) (propagation : bytes)
  (** the next tick of a poll; an error when the context is done *)
  | KTick
  (** polling of a set of objects until the context is done *)
  | KPoll (set : list ObjMetadata) (interval timeout : Z).
Arguments KGet {Obj}.
Arguments KDryRun {Obj}.
Arguments KApply {Obj}.
Arguments KJSONPatch {Obj}.
Arguments KDelete {Obj}.
Arguments KTick {Obj}.
Arguments KPoll {Obj}.

(** Each call reads the parts of the answer that it has. *)
Record reply (Obj : Type) := mkReply { r_err : option kerr; r_obj : Obj; r_poll : poll_result }.
Arguments mkReply {Obj}.
Arguments r_err {Obj}.
Arguments r_obj {Obj}.
Arguments r_poll {Obj}.

Abbreviation event Obj := (kcall Obj * reply Obj)%type (only parsing).

(** Calls that change the cluster. *)
Definition is_write {Obj} (c : kcall Obj) : bool :=
  match c with KApply _ _ | KJSONPatch _ _ _ | KDelete _ _ => true | _ => false end.
Definition is_apply {Obj} (c : kcall Obj) : bool := match c with KApply _ _ => true | _ => false end.
Definition is_delete {Obj} (c : kcall Obj) : bool := match c with KDelete _ _ => true | _ => false end.

Definition writes {Obj} (t : list (event Obj)) : list (kcall Obj) :=
  filter (λ c, is_write c = true) t.*1.

(** ** Outcomes *)

(** [Unfinished] is the end of the fuel of a loop. *)
Inductive outcome (A : Type) := Done (a : A) | Failed (e : kerr) | Crashed | Unfinished.
Arguments Done {A}.
Arguments Failed {A}.
Arguments Crashed {A}.
Arguments Unfinished {A}.

Definition comp (Obj A : Type) : Type := prog (kcall Obj) (reply Obj) (outcome A).

Section comp.
Context {Obj : Type}.

(** Go on with a value; an error is returned. *)
Definition cbind {A B} (p : comp Obj A) (f : A → comp Obj B) : comp Obj B :=
  mbind (M := prog (kcall Obj) (reply Obj))
    (λ r, match r with
          | Done a => f a
          | Failed e => Ret (Failed e)
          | Crashed => Ret Crashed
          | Unfinished => Ret Unfinished
          end) p.

Definition ok {A} (a : A) : comp Obj A := Ret (Done a).
Definition fail {A} (e : kerr) : comp Obj A := Ret (Failed e).
Definition of_err {A} (r : kerr + A) : comp Obj A := match r with inl e => fail e | inr a => ok a end.
Definition of_res {A} (r : res A) : comp Obj A := match r with Val a => ok a | Panics => Ret Crashed end.

(** The error of a computation, as a value. *)
Definition catch {A} (p : comp Obj A) : comp Obj (kerr + A) :=
  mbind (M := prog (kcall Obj) (reply Obj))
    (λ r, match r with
          | Done a => ok (inr a)
          | Failed e => ok (inl e)
          | Crashed => Ret Crashed
          | Unfinished => Ret Unfinished
          end) p.

(** A call and its answer. *)
Definition request (c : kcall Obj) : comp Obj (reply Obj) := Call c (λ r, ok r).

(** [wait.PollUntilContextCancel] with [immediate]: the condition is checked
    before the first tick; [fuel] bounds the checks. *)
Fixpoint poll {S} (fuel : nat) (cond : S → comp Obj (bool * S)) (s : S) : comp Obj S :=
  match fuel with
  | 0 => Ret Unfinished
  | Datatypes.S fuel =>
      cbind (cond s) (λ '(done, s),
      if done : bool then ok s
      else cbind (request KTick) (λ r,
      match r_err r with Some e => fail e | None => poll fuel cond s end))
  end.
End comp.

Declare Scope comp_scope.
Delimit Scope comp_scope with comp.
Notation "x <- p ;; q" := (cbind p (λ x, q)) (at level 100, p at next level, right associativity) : comp_scope.

(** ** Runs of computations *)

Section comp_runs.
Context {Obj : Type}.

Lemma runs_cbind_inv {A B} (p : comp Obj A) (f : A → comp Obj B) t o :
  runs (cbind p f) t o →
  (∃ t1 a t2, t = t1 ++ t2 ∧ runs p t1 (Done a) ∧ runs (f a) t2 o) ∨
  (∃ o', runs p t o' ∧ match o' with
                       | Done _ => False
                       | Failed e => o = Failed e
                       | Crashed => o = Crashed
                       | Unfinished => o = Unfinished
                       end).
Proof.
  intros Hr. apply runs_bind_inv in Hr as (t1 & r & t2 & -> & H1 & H2).
  destruct r as [a| | |]; [left; by exists t1, a, t2|right..];
    apply runs_ret_inv in H2 as [-> ->]; rewrite app_nil_r; by eexists.
Qed.

Lemma runs_cbind_Done {A B} (p : comp Obj A) (f : A → comp Obj B) t b :
  runs (cbind p f) t (Done b) → ∃ t1 a t2, t = t1 ++ t2 ∧ runs p t1 (Done a) ∧ runs (f a) t2 (Done b).
Proof. intros [?|(o & _ & Ho)]%runs_cbind_inv; [done|]. by destruct o. Qed.

Lemma runs_request c t (o : outcome (reply Obj)) : runs (request c) t o → ∃ r, t = [(c, r)] ∧ o = Done r.
Proof. intros (r & t' & -> & [-> ->]%runs_ret_inv)%runs_call_inv. eauto. Qed.

Lemma runs_call {A} c (f : reply Obj → comp Obj A) t o :
  runs (cbind (request c) f) t o → ∃ r t', t = (c, r) :: t' ∧ runs (f r) t' o.
Proof. intros (r & t' & -> & Hr)%runs_call_inv. eauto. Qed.

Lemma runs_ok {A} (a : A) t o : runs (ok a : comp Obj A) t o → t = [] ∧ o = Done a.
Proof. apply runs_ret_inv. Qed.

(** Calls of one kind only, for every run of a computation. *)
Definition only (P : kcall Obj → Prop) {A} (p : comp Obj A) : Prop :=
  ∀ t o, runs p t o → Forall P t.*1.

Lemma only_ret P {A} (o : outcome A) : only P (Ret o : comp Obj A).
Proof. intros t o' [-> _]%runs_ret_inv. constructor. Qed.

Lemma only_cbind P {A B} (p : comp Obj A) (f : A → comp Obj B) :
  only P p → (∀ a, only P (f a)) → only P (cbind p f).
Proof.
  intros Hp Hf t o [(t1 & a & t2 & -> & H1 & H2)|(o' & H1 & _)]%runs_cbind_inv.
  - rewrite fmap_app. apply Forall_app. split; [by eapply Hp|by eapply Hf].
  - by eapply Hp.
Qed.

Lemma only_request (P : kcall Obj → Prop) c : P c → only P (request c).
Proof. intros HP t o (r & -> & _)%runs_request. by constructor. Qed.

Lemma only_poll P {S} fuel (cond : S → comp Obj (bool * S)) s :
  P KTick → (∀ s, only P (cond s)) → only P (poll fuel cond s).
Proof.
  intros Ht Hc. revert s. induction fuel as [|fuel IH]; intros s; simpl; [apply only_ret|].
  apply only_cbind; [done|]. intros [[] s']; [apply only_ret|].
  apply only_cbind; [by apply only_request|]. intros r. destruct (r_err r); [apply only_ret|done].
Qed.

(** Computations without loops. *)
Definition finishes {A} (p : comp Obj A) : Prop := ∀ t, ¬ runs p t Unfinished.

Lemma finishes_ok {A} (a : A) : finishes (ok a : comp Obj A).
Proof. by intros t [_ ?]%runs_ret_inv. Qed.
Lemma finishes_fail {A} e : finishes (fail e : comp Obj A).
Proof. by intros t [_ ?]%runs_ret_inv. Qed.
Lemma finishes_of_err {A} (x : kerr + A) : finishes (of_err x : comp Obj A).
Proof. destruct x; [apply finishes_fail|apply finishes_ok]. Qed.
Lemma finishes_of_res {A} (x : res A) : finishes (of_res x : comp Obj A).
Proof. destruct x; [apply finishes_ok|]. by intros t [_ ?]%runs_ret_inv. Qed.
Lemma finishes_request c : finishes (request c : comp Obj (reply Obj)).
Proof. by intros t (r & _ & ?)%runs_request. Qed.
Lemma finishes_cbind {A B} (p : comp Obj A) (f : A → comp Obj B) :
  finishes p → (∀ a, finishes (f a)) → finishes (cbind p f).
Proof.
  intros Hp Hf t [(t1 & a & t2 & -> & H1 & H2)|(o' & H1 & Ho)]%runs_cbind_inv; [by eapply Hf|].
  destruct o'; try done. by eapply Hp.
Qed.

Lemma only_weaken (P Q : kcall Obj → Prop) {A} (p : comp Obj A) :
  (∀ c, P c → Q c) → only P p → only Q p.
Proof. intros HPQ Hp t o Hr. eapply Forall_impl; [by eapply Hp|done]. Qed.

Lemma writes_app (t1 t2 : list (event Obj)) : writes (t1 ++ t2) = writes t1 ++ writes t2.
Proof. unfold writes. by rewrite fmap_app, filter_app. Qed.

Lemma writes_cons c (r : reply Obj) t : writes ((c, r) :: t) = (if is_write c then [c] else []) ++ writes t.
Proof. unfold writes. rewrite fmap_cons, filter_cons. simpl. by destruct (is_write c). Qed.

Lemma no_writes (t : list (event Obj)) : Forall (λ c, is_write c = false) t.*1 → writes t = [].
Proof.
  unfold writes. induction t as [|[c r] t IH]; simpl; [done|]. intros [Hc Ht]%Forall_cons.
  rewrite filter_cons_False by (simpl in *; congruence). by apply IH.
Qed.
End comp_runs.

Create HintDb calls.
#[export] Hint Resolve only_ret only_cbind only_request only_poll
  finishes_ok finishes_fail finishes_of_err finishes_of_res finishes_request finishes_cbind : calls.
#[export] Hint Extern 2 (finishes (cbind _ _)) => apply finishes_cbind; [|intros ?] : calls.
