(* ===== verification/SsaWait.v ===== *)
(** * Server-side apply: waiting ([ssa/manager_wait.go])

    [WaitForSet] watches the statuses of a set of objects and cancels the poll
    when they have settled; its verdict is computed from the last statuses. *)

From S2P Require Import Prelude Utf8 GoPath Json SsaObject SsaSort SsaPatch SsaIgnore Interaction SsaClient.

#[global] Instance GroupKind_countable : Countable GroupKind.
Proof.
  refine (inj_countable' (λ g, (gk_Group g, gk_Kind g)) (λ p, mkGK p.1 p.2) _). by intros [].
Defined.
#[global] Instance ObjMetadata_countable : Countable ObjMetadata.
Proof.
  refine (inj_countable' (λ m, (om_Namespace m, om_Name m, om_GroupKind m)) (λ p, mkMeta p.1.1 p.1.2 p.2) _).
  by intros [].
Defined.

(** [src/ssa/manager_wait.go:44-60 WaitOptions] *)
Record WaitOptions := mkWait {
  w_Interval : Z; w_Timeout : Z; w_FailFast : bool; w_JobsWithTTL : list ObjMetadata }.

Definition second : Z := 1000000000.
(** [src/ssa/manager_wait.go:62-69 DefaultWaitOptions] *)
Definition DefaultWaitOptions : WaitOptions := mkWait (5 * second) (60 * second) false [].

Definition is_ttl (opts : WaitOptions) (id : ObjMetadata) : bool := bool_decide (id ∈ w_JobsWithTTL opts).
Definition is_status (s : KStatus) (rs : ResourceStatus) : bool := bool_decide (rs_Status rs = s).

Definition LastStatus : Type := gmap ObjMetadata ResourceStatus.

(** The statuses that are there. *)
Definition present (ss : Statuses) : list ResourceStatus := omap snd ss.

(** A job with a TTL that is gone counts as current.
    [src/ssa/manager_wait.go:118-122 WaitForSetWithContext] *)
Definition effectiveStatus (opts : WaitOptions) (rs : ResourceStatus) : KStatus :=
  if is_status NotFoundStatus rs && is_ttl opts (rs_Identifier rs) then CurrentStatus else rs_Status rs.

Section wait.
Context {Obj : Type} `{KubeObject Obj}.
(** [aggregator.AggregateStatus] *)
Context (AggregateStatus : list ResourceStatus → KStatus → KStatus).

(** [src/ssa/manager_wait.go:112-127 WaitForSetWithContext] *)
Definition record_statuses (ss : Statuses) (last : LastStatus) : LastStatus :=
  foldl (λ last rs, <[rs_Identifier rs := rs]> last) last (present ss).

(** The poll is cancelled on these statuses.
    [src/ssa/manager_wait.go:129-152 WaitForSetWithContext] *)
Definition settled (opts : WaitOptions) (ss : Statuses) : bool :=
  let eff := effectiveStatus opts <$> present ss in
  let terminal := forallb (λ s, bool_decide (s = FailedStatus) || bool_decide (s = CurrentStatus)) eff in
  let failed := length (filter (λ s, s = FailedStatus) eff) in
  bool_decide (AggregateStatus (present ss) CurrentStatus = CurrentStatus) ||
  (w_FailFast opts && (0 <? failed)) || terminal.

(** The observer, at each event.
    [src/ssa/manager_wait.go:107-154 WaitForSetWithContext] *)
Definition observe (opts : WaitOptions) (st : bool * LastStatus) (ss : Statuses) : bool * LastStatus :=
  (st.1 || settled opts ss, record_statuses ss st.2).

Definition KStatus_String (s : KStatus) : bytes :=
  str match s with
      | InProgressStatus => "InProgress" | FailedStatus => "Failed" | CurrentStatus => "Current"
      | TerminatingStatus => "Terminating" | NotFoundStatus => "NotFound" | UnknownStatus => "Unknown"
      end.

(** The complaint about one object.
    [src/ssa/manager_wait.go:165-187 WaitForSetWithContext] *)
Definition wait_error (opts : WaitOptions) (deadline : bool) (last : LastStatus)
    (e : ObjMetadata * option ResourceStatus) : list bytes :=
  match e.2, last !! e.1 with
  | Some rs, Some l =>
      if is_status NotFoundStatus l && is_ttl opts e.1 then []
      else if is_status FailedStatus l || (deadline && negb (is_status CurrentStatus l))
      then [FmtObjMetadata (rs_Identifier rs) ++ str " status: '" ++ KStatus_String (rs_Status l) ++ str "'" ++
            match rs_Error rs with Some m => str ": " ++ m | None => [] end]
      else []
  | _, _ => if is_ttl opts e.1 then [] else [str "can't determine status for " ++ FmtObjMetadata e.1]
  end.

Definition ctx_error (e : ctxErr) : kerr :=
  plain_error match e with ctxCanceled => "context canceled" | ctxDeadlineExceeded => "context deadline exceeded" end.

Definition join_comma (l : list bytes) : bytes :=
  match l with [] => [] | x :: l => foldl (λ acc y, acc ++ str ", " ++ y) x l end.

(** The verdict after the poll.
    [src/ssa/manager_wait.go:156-203 WaitForSetWithContext] *)
Definition wait_verdict (opts : WaitOptions) (p : poll_result) : option kerr :=
  let '(canceledInternally, last) := foldl (observe opts) (false, ∅) (pr_snapshots p) in
  let deadline := match pr_ctx p with Some ctxDeadlineExceeded => true | _ => false end in
  let errs := pr_final p ≫= wait_error opts deadline last in
  if negb canceledInternally && match pr_ctx p with Some ctxCanceled => true | _ => false end
  then Some (ctx_error ctxCanceled)
  else if 0 <? length errs then
    Some (mkErr false false false [] None
      ((if deadline then str "timeout waiting for" else str "failed early due to stalled resources") ++
       str ": [" ++ join_comma errs ++ str "]"))
  else pr_error p.

(** [src/ssa/manager_wait.go:86-204 WaitForSetWithContext] *)
Definition WaitForSetWithContext (set : list ObjMetadata) (opts : WaitOptions) : comp Obj unit :=
  if length set =? 0 then ok tt
  else cbind (request (KPoll set (w_Interval opts) (w_Timeout opts))) (λ r,
  match wait_verdict opts (r_poll r) with Some e => fail e | None => ok tt end).

(** [src/ssa/manager_wait.go:81-84 WaitForSet] *)
Definition WaitForSet (set : list ObjMetadata) (opts : WaitOptions) : comp Obj unit :=
  WaitForSetWithContext set opts.

(** [src/ssa/manager_wait.go:71-79 Wait] *)
Definition Wait (objects : list Obj) (opts : WaitOptions) : comp Obj unit :=
  let objectsMeta := ObjMeta <$> objects in
  if length objectsMeta =? 0 then ok tt else WaitForSet objectsMeta opts.

(** ** Termination *)

(** [src/ssa/manager_wait.go:256-265 isDeleted] *)
Definition isDeleted (o : Obj) (_ : unit) : comp Obj (bool * unit) :=
  cbind (request (KGet (GetObjNamespace o) (GetObjName o) o)) (λ r,
  match r_err r with
  | Some e => if IsNotFound e then ok (true, tt) else fail e
  | None => ok (false, tt)
  end).

(** [fuel] bounds the checks of each object.
    [src/ssa/manager_wait.go:243-254 WaitForTermination] *)
Fixpoint WaitForTermination (fuel : nat) (objects : list Obj) : comp Obj unit :=
  match objects with
  | [] => ok tt
  | o :: objects =>
      cbind (catch (poll fuel (isDeleted o) tt)) (λ r,
      match r with
      | inl e => fail (wrap (FmtUnstructured o ++ str " termination timeout") e)
      | inr _ => WaitForTermination fuel objects
      end)
  end.

(** [new_object] is an object with the kind, name and namespace of the entry.
    [src/ssa/manager_wait.go:206-241 WaitForSetTermination] *)
Definition WaitForSetTermination (new_object : ObjMetadata → bytes → Obj) (fuel : nat)
    (cs : option ChangeSet) : comp Obj unit :=
  match cs with
  | None => ok tt
  | Some cs =>
      if length cs =? 0 then ok tt
      else
        let objects := (λ e, new_object (cse_ObjMetadata e) (cse_GroupVersion e)) <$>
                         filter (λ e, cse_Action e = DeletedAction) cs in
        if length objects =? 0 then ok tt else WaitForTermination fuel objects
  end.
End wait.

(** ** What a wait that succeeds shows *)

Section wait_spec.
Context {Obj : Type} `{KubeObject Obj}.
Context (AggregateStatus : list ResourceStatus → KStatus → KStatus).

(** The status that was recorded last. *)
Definition last_seen (p : poll_result) (id : ObjMetadata) : option ResourceStatus :=
  foldl (λ last ss, record_statuses ss last) ∅ (pr_snapshots p) !! id.

Lemma observe_all opts l st :
  foldl (observe AggregateStatus opts) st l =
  (st.1 || existsb (settled AggregateStatus opts) l, foldl (λ last ss, record_statuses ss last) st.2 l).
Proof.
  revert st. induction l as [|ss l IH]; intros [b last]; simpl; [by rewrite orb_false_r|].
  by rewrite IH, orb_assoc.
Qed.

Lemma wait_error_nil opts deadline last e :
  wait_error opts deadline last e = [] → is_ttl opts e.1 = false →
  is_Some e.2 ∧ ∃ l, last !! e.1 = Some l ∧ rs_Status l ≠ FailedStatus ∧
    (deadline = true → rs_Status l = CurrentStatus).
Proof.
  unfold wait_error, is_status. intros He Ht. rewrite Ht in He.
  destruct e.2 as [rs|], (last !! e.1) as [l|]; try done. rewrite andb_false_r in He. split; [by eexists|].
  exists l. split; [done|]. do 2 case_bool_decide; destruct deadline; simpl in He; done.
Qed.

(** A wait that succeeds: when [WaitForSet] reports no error, every object
    that is not a job with a TTL has a recorded status, which is not [Failed]
    and, if the deadline has passed, is [Current]; and if the poll was
    cancelled, then because the statuses seen at some event had settled. *)
Theorem wait_verdict_sound (opts : WaitOptions) (p : poll_result) :
  wait_verdict AggregateStatus opts p = None →
  (∀ id s, (id, s) ∈ pr_final p → is_ttl opts id = false →
     ∃ l, last_seen p id = Some l ∧ rs_Status l ≠ FailedStatus ∧
       (pr_ctx p = Some ctxDeadlineExceeded → rs_Status l = CurrentStatus)) ∧
  (pr_ctx p = Some ctxCanceled → ∃ ss, ss ∈ pr_snapshots p ∧ settled AggregateStatus opts ss = true).
Proof.
  unfold wait_verdict. rewrite observe_all. simpl. set (last := foldl _ ∅ (pr_snapshots p)).
  set (deadline := match pr_ctx p with Some ctxDeadlineExceeded => true | _ => false end).
  destruct (negb _ && _) eqn:Ec; [done|].
  destruct (0 <? length _) eqn:El; [done|]. intros _. split.
  - intros id s Hin Ht. apply Nat.ltb_ge in El. rewrite Nat.le_0_r, length_zero_iff_nil in El.
    assert (wait_error opts deadline last (id, s) = []) as He.
    { apply list_elem_of_split in Hin as (l1 & l2 & E). rewrite E, bind_app, bind_cons in El.
      by apply app_eq_nil in El as [_ [El _]%app_eq_nil]. }
    apply wait_error_nil in He as (_ & l & Hl & Hf & Hd); [|done]. exists l. split_and!; [done..|].
    intros E. apply Hd. unfold deadline. by rewrite E.
  - intros E. rewrite E in Ec. rewrite andb_true_r in Ec. apply negb_false_iff in Ec.
    apply existsb_exists in Ec as (ss & Hin & Hs). exists ss. by rewrite list_elem_of_In.
Qed.

(** Settled statuses, without [FailFast]. *)
Lemma settled_terminal opts ss rs :
  (∀ l, AggregateStatus l CurrentStatus = CurrentStatus ↔ Forall (λ r, rs_Status r = CurrentStatus) l) →
  w_FailFast opts = false → settled AggregateStatus opts ss = true → rs ∈ present ss →
  effectiveStatus opts rs = CurrentStatus ∨ effectiveStatus opts rs = FailedStatus.
Proof.
  intros Hagg Hff Hs Hrs. unfold settled in Hs. rewrite Hff in Hs. simpl in Hs. rewrite orb_false_r in Hs.
  apply orb_true_iff in Hs as [Hs|Hs].
  - left. apply bool_decide_eq_true, Hagg in Hs. eapply Forall_forall in Hs; [|done].
    unfold effectiveStatus, is_status. rewrite Hs. by rewrite bool_decide_false by done.
  - rewrite forallb_forall in Hs. specialize (Hs (effectiveStatus opts rs)).
    rewrite <-list_elem_of_In in Hs. specialize (Hs (list_elem_of_fmap_2 _ _ _ Hrs)).
    apply orb_true_iff in Hs as [Hs|Hs]; apply bool_decide_eq_true in Hs; auto.
Qed.

Lemma WaitForSet_only set opts :
  only (λ c, is_write c = false) (WaitForSet AggregateStatus set opts : comp Obj unit).
Proof.
  unfold WaitForSet, WaitForSetWithContext. destruct (length set =? 0); [apply only_ret|].
  apply only_cbind; [by apply only_request|]. intros r. destruct (wait_verdict _ _ _); apply only_ret.
Qed.

(** ** Termination *)

Lemma runs_catch {A} (p : comp Obj A) t o :
  runs (catch p) t o →
  ∃ o', runs p t o' ∧ o = match o' with
                          | Done a => Done (inr a)
                          | Failed e => Done (inl e)
                          | Crashed => Crashed
                          | Unfinished => Unfinished
                          end.
Proof.
  intros (t1 & o' & t2 & -> & H1 & H2)%runs_bind_inv. exists o'. 
  destruct o'; apply runs_ret_inv in H2 as [-> ->]; by rewrite app_nil_r.
Qed.

(** The last question about the object was answered with not found. *)
Definition seen_deleted (o : Obj) (t : list (event Obj)) : Prop :=
  ∃ r e, (KGet (GetObjNamespace o) (GetObjName o) o, r) ∈ t ∧ r_err r = Some e ∧ IsNotFound e = true.

Lemma poll_isDeleted fuel o t :
  runs (poll fuel (isDeleted o) tt) t (Done tt) → seen_deleted o t.
Proof.
  revert t. induction fuel as [|fuel IH]; intros t Hr; simpl in Hr; [by apply runs_ret_inv in Hr as [_ ?]|].
  apply runs_cbind_Done in Hr as (t1 & [b []] & t2 & -> & H1 & H2).
  apply runs_call in H1 as (r & t' & -> & H1). destruct (r_err r) as [e|] eqn:Er.
  - destruct (IsNotFound e) eqn:En; apply runs_ret_inv in H1 as [-> H1]; simplify_eq.
    exists r, e. split_and!; [simpl; by constructor|done..].
  - apply runs_ret_inv in H1 as [-> H1]; simplify_eq. apply runs_call in H2 as (r2 & t' & -> & H2).
    destruct (r_err r2); [by apply runs_ret_inv in H2 as [_ ?]|].
    apply IH in H2 as (r' & e' & Hin & ?). exists r', e'. split; [|done]. by do 2 constructor.
Qed.

(** [WaitForTermination] succeeds only when the server has answered, for
    every object, that it is not found. *)
Theorem WaitForTermination_sound (fuel : nat) (objects : list Obj) (t : list (event Obj)) :
  runs (WaitForTermination fuel objects) t (Done tt) → Forall (λ o, seen_deleted o t) objects.
Proof.
  revert t. induction objects as [|o objects IH]; intros t Hr; [constructor|]. cbn [WaitForTermination] in Hr.
  apply runs_cbind_Done in Hr as (t1 & r & t2 & -> & H1 & H2).
  apply runs_catch in H1 as (o' & H1 & Ho). destruct o'; simplify_eq;
    [|by apply runs_ret_inv in H2 as [_ ?]]. destruct a. constructor.
  - apply poll_isDeleted in H1 as (r & e & Hin & ?). exists r, e. split; [apply elem_of_app; by left|done].
  - eapply Forall_impl; [by apply IH|]. intros o' (r & e & Hin & ?). exists r, e.
    split; [apply elem_of_app; by right|done].
Qed.
End wait_spec.
