(* ===== verification/SsaApply.v ===== *)
(** * Server-side apply of one object
    ([ssa/manager_apply.go], lines 45 to 202 and 422 to 561)

    [Apply] reads the object in the cluster, validates the payload with a
    dry-run, cleans the metadata up and applies the object when it drifted; on
    an immutable field it deletes the object and starts again. *)

From S2P Require Import Prelude GoStd Utf8 GoPath Json SsaObject SsaSort SsaPatch SsaIgnore SsaDrift.
From S2P Require Import Interaction SsaClient.
#[local] Open Scope comp_scope.

(** [src/ssa/manager_apply.go:94-108 ApplyCleanupOptions] *)
Record ApplyCleanupOptions := mkCleanup {
  cl_Annotations : list bytes; cl_Labels : list bytes; cl_FieldManagers : list FieldManager;
  cl_Exclusions : StrMap }.

(** [src/ssa/manager_apply.go:45-92 ApplyOptions] *)
Record ApplyOptions := mkApplyOptions {
  Force : bool; ForceSelector : StrMap; ExclusionSelector : StrMap; IfNotPresentSelector : StrMap;
  WaitInterval : Z; WaitTimeout : Z; Cleanup : ApplyCleanupOptions; CustomStageKinds : list GroupKind;
  MigrateAPIVersion : bool; DriftIgnoreRules : list IgnoreRule }.

(** [src/ssa/manager_apply.go:110-118 DefaultApplyOptions] *)
Definition DefaultApplyOptions : ApplyOptions :=
  mkApplyOptions false ∅ ∅ ∅ 2000000000 60000000000 (mkCleanup [] [] [] ∅) [] false [].

(** What the operations use of other packages, together. *)
Class ApplyEnv (Obj : Type) `{KubeObject Obj, Content Obj} := {
  (** a new object of the same group, version and kind *)
  blank : Obj → Obj;
  FSet : Type;
  FromJSON : bytes → kerr + FSet;
  ToJSON : FSet → kerr + bytes;
  FUnion : FSet → FSet → FSet;
  (** the orders in which sets and maps are iterated *)
  iter_keys : gset bytes → list bytes;
  iter_rules : ∀ {R}, list (option R * list bytes) → list (option R * list bytes);
  (** the normalisation of dry-run objects *)
  NormalizeDryRun : Obj → kerr + Obj }.

Section apply.
Context {Obj : Type} `{Kube : KubeObject Obj} `{Cont : Content Obj} `{Uni : Unicode} `{Fold : CaseFold} `{Mat : Matchers}
  `{Env : !ApplyEnv Obj}.

(** The error; it unwraps to the server's error.
    [src/ssa/errors/errors.go:35-41 NewDryRunErr] *)
Definition NewDryRunErr (e : kerr) (o : Obj) : kerr :=
  mkErr (IsNotFound e) (IsConflict e) (IsInvalid e) (ReasonForError e) (managerConflict e)
    (DryRunErr_Error e (Some o)).

(** [client.Get] of the object's key into a fresh object. *)
Definition get_existing (object : Obj) : comp Obj (reply Obj) :=
  request (KGet (GetObjNamespace object) (GetObjName object) (blank object)).

(** [src/ssa/manager_apply.go:422-429 dryRunApply] *)
Definition dryRunApply (m : ResourceManager) (o : Obj) : comp Obj (reply Obj) :=
  request (KDryRun (owner_Field (owner m)) o).

(** [src/ssa/manager_apply.go:431-437 apply] *)
Definition apply (m : ResourceManager) (o : Obj) : comp Obj (option kerr) :=
  r <- request (KApply (owner_Field (owner m)) o) ;; ok (r_err r).

(** A patch was applied; the existing object after it.
    [src/ssa/manager_apply.go:439-471 migrateAPIVersion] *)
Definition migrateAPIVersion (m : ResourceManager) (existingObject : Obj) (desiredAPIVersion : bytes)
    : comp Obj (kerr + bool * Obj) :=
  let patch := PatchMigrateToVersion (GetManagedFields existingObject) desiredAPIVersion in
  if length patch =? 0 then ok (inr (false, existingObject))
  else
    r <- request (KJSONPatch (owner_Field (owner m)) existingObject patch) ;;
    match r_err r with
    | Some e => ok (inl (wrap (str "failed to migrate managed fields API version to " ++ desiredAPIVersion) e))
    | None => ok (inr (true, r_obj r))
    end.

(** An address that no entry uses. *)
Definition fresh_addr (es : list ManagedFieldsEntry) : nat :=
  S (max_list (default 0 ∘ (λ e, fp_addr <$> mf_FieldsV1 e) <$> es)).

(** [src/ssa/manager_apply.go:473-517 cleanupMetadata] *)
Definition cleanup_patches (m : ResourceManager) (o : Obj) (opts : ApplyCleanupOptions) : kerr + list JSONPatch :=
  let patches := if 0 <? length (cl_Annotations opts)
                 then PatchRemoveAnnotations (GetAnnotations o) (cl_Annotations opts) else [] in
  let patches := patches ++ (if 0 <? length (cl_Labels opts)
                             then PatchRemoveLabels (GetLabels o) (cl_Labels opts) else []) in
  if 0 <? length (cl_FieldManagers opts) then
    match PatchReplaceFieldsManagers FromJSON ToJSON FUnion (fresh_addr (GetManagedFields o))
            (GetManagedFields o) (cl_FieldManagers opts) (owner_Field (owner m)) with
    | inl e => inl e
    | inr managedFieldPatch => inr (patches ++ managedFieldPatch)
    end
  else inr patches.

(** [src/ssa/manager_apply.go:473-517 cleanupMetadata] *)
Definition cleanupMetadata (m : ResourceManager) (desiredObject o : Obj) (opts : ApplyCleanupOptions)
    : comp Obj (kerr + bool * Obj) :=
  if AnyInMetadata desiredObject (cl_Exclusions opts) || AnyInMetadata o (cl_Exclusions opts)
  then ok (inr (false, o))
  else match cleanup_patches m o opts with
       | inl e => ok (inl e)
       | inr patches =>
           if length patches =? 0 then ok (inr (false, o))
           else
             r <- request (KJSONPatch (owner_Field (owner m)) o patches) ;;
             match r_err r with Some e => ok (inl e) | None => ok (inr (true, r_obj r)) end
       end.

(** [src/ssa/manager_apply.go:519-533 shouldForceApply] *)
Definition shouldForceApply (desiredObject existingObject : Obj) (force : bool) (forceSelector : StrMap)
    (e : kerr) : bool :=
  if IsImmutableError e then
    force || AnyInMetadata desiredObject forceSelector || AnyInMetadata existingObject forceSelector
  else false.

(** [src/ssa/manager_apply.go:535-561 shouldSkipApply] *)
Definition shouldSkipApply (desiredObject existingObject : Obj) (opts : ApplyOptions) : option ChangeSetEntry :=
  let source := if negb (beq (GetUID existingObject) []) then existingObject else desiredObject in
  if AnyInMetadata desiredObject (ExclusionSelector opts) || AnyInMetadata existingObject (ExclusionSelector opts)
  then Some (changeSetEntry source SkippedAction)
  else if negb (beq (GetUID existingObject) []) && AnyInMetadata desiredObject (IfNotPresentSelector opts)
  then Some (changeSetEntry source SkippedAction)
  else None.

Definition is_not_found (e : option kerr) : bool := match e with Some e => IsNotFound e | None => false end.

(** The migration that comes before the dry-run; the existing object after it.
    [src/ssa/manager_apply.go:132-139 Apply] *)
Definition migrate (m : ResourceManager) (object existingObject : Obj) (getError : option kerr)
    (opts : ApplyOptions) : comp Obj (bool * Obj) :=
  if MigrateAPIVersion opts && match getError with None => true | Some _ => false end then
    r <- migrateAPIVersion m existingObject (GetAPIVersion object) ;;
    match r with
    | inl e => fail (wrap (FmtUnstructured existingObject ++ str " failed to migrate API version") e)
    | inr x => ok x
    end
  else ok (false, existingObject).

(** [src/ssa/manager_apply.go:154-159 Apply] *)
Definition cleanup (m : ResourceManager) (object existingObject : Obj) (patched : bool) (opts : ApplyOptions)
    : comp Obj (bool * Obj) :=
  r <- cleanupMetadata m object existingObject (Cleanup opts) ;;
  match r with
  | inl e => fail (wrap (FmtUnstructured existingObject ++ str " metadata.managedFields cleanup failed") e)
  | inr (p, o) => ok (patched || p, o)
  end.

(** [src/ssa/manager_apply.go:161-168 Apply] *)
Definition compile_rules (opts : ApplyOptions) : kerr + option (list (option SelectorRegex * list bytes)) :=
  if 0 <? length (DriftIgnoreRules opts) then
    match CompileIgnoreRules (DriftIgnoreRules opts) with inl e => inl e | inr c => inr (Some (iter_rules c)) end
  else inr None.

(** The end of [Apply]: the drifted object is applied.
    [src/ssa/manager_apply.go:181-201 Apply] *)
Definition apply_drifted (m : ResourceManager) (object existingObject dryRunObject : Obj)
    (compiled : option (list (option SelectorRegex * list bytes))) : comp Obj ChangeSetEntry :=
  appliedObject <- match compiled with
    | None => ok object
    | Some rules =>
        dr <- of_res (computeDriftedPaths iter_keys existingObject dryRunObject rules (owner_Field (owner m))) ;;
        of_err (applyDriftResult object dr)
    end ;;
  err <- apply m appliedObject ;;
  match err with
  | Some e => fail (wrap (FmtUnstructured appliedObject ++ str " apply failed") e)
  | None =>
      if beq (GetResourceVersion dryRunObject) [] then ok (changeSetEntry appliedObject CreatedAction)
      else ok (changeSetEntry appliedObject ConfiguredAction)
  end.

(** One attempt of [Apply]: an entry, or nothing when the object was deleted
    and has to be applied anew.
    [src/ssa/manager_apply.go:120-202 Apply] *)
Definition apply_attempt (m : ResourceManager) (object : Obj) (opts : ApplyOptions)
    : comp Obj (option ChangeSetEntry) :=
  g <- get_existing object ;;
  let existingObject := r_obj g in
  let getError := r_err g in
  match shouldSkipApply object existingObject opts with
  | Some skippedEntry => ok (Some skippedEntry)
  | None =>
      x <- migrate m object existingObject getError opts ;;
      let '(patched, existingObject) := x in
      d <- dryRunApply m object ;;
      let dryRunObject := r_obj d in
      match r_err d with
      | Some e =>
          if negb (is_not_found getError) &&
             shouldForceApply object existingObject (Force opts) (ForceSelector opts) e then
            r <- request (KDelete existingObject (str "Background")) ;;
            match r_err r with
            | Some e' =>
                if IsNotFound e' then ok None
                else fail (wrap (FmtUnstructured dryRunObject ++
                             str " immutable field detected, failed to delete object") e')
            | None => ok None
            end
          else fail (NewDryRunErr e dryRunObject)
      | None =>
          x <- cleanup m object existingObject patched opts ;;
          let '(patched, existingObject) := x in
          compiled <- (if negb (beq (GetResourceVersion existingObject) [])
                       then of_err (compile_rules opts) else ok None) ;;
          drifted <- of_err (hasDriftedWithIgnore NormalizeDryRun existingObject dryRunObject compiled) ;;
          if negb patched && negb drifted then ok (Some (changeSetEntry object UnchangedAction))
          else
            e <- apply_drifted m object existingObject dryRunObject compiled ;;
            ok (Some e)
      end
  end.

(** [fuel] bounds the attempts.  [src/ssa/manager_apply.go:120-202 Apply] *)
Fixpoint Apply (fuel : nat) (m : ResourceManager) (object : Obj) (opts : ApplyOptions)
    : comp Obj ChangeSetEntry :=
  match fuel with
  | 0 => Ret Unfinished
  | S fuel =>
      r <- apply_attempt m object opts ;;
      match r with Some e => ok e | None => Apply fuel m object opts end
  end.
End apply.

(** ** What an apply writes *)

Section apply_writes.
Context {Obj : Type} `{Kube : KubeObject Obj} `{Cont : Content Obj} `{Uni : Unicode} `{Fold : CaseFold} `{Mat : Matchers}
  `{Env : !ApplyEnv Obj}.
Implicit Types (m : ResourceManager) (o : Obj) (opts : ApplyOptions) (t : list (event Obj)).

Definition is_json_patch (c : kcall Obj) : bool := match c with KJSONPatch _ _ _ => true | _ => false end.

(** A step that patches the metadata of the object in the cluster, or leaves it
    alone; the object after it. *)
Definition patch_step m (patched : bool) (ex ex' : Obj) t : Prop :=
  (patched = false ∧ t = [] ∧ ex' = ex) ∨
  (patched = true ∧ ∃ ps r, t = [(KJSONPatch (owner_Field (owner m)) ex ps, r)] ∧ ps ≠ [] ∧ r_err r = None ∧ ex' = r_obj r).

Lemma patch_step_none m ex : patch_step m false ex ex [].
Proof. by left. Qed.
Lemma patch_step_call m ex ps r :
  (length ps =? 0) = false → r_err r = None → patch_step m true ex (r_obj r) [(KJSONPatch (owner_Field (owner m)) ex ps, r)].
Proof. intros Hp Hr. right. split; [done|]. exists ps, r. split_and!; [done| |done..]. by intros ->. Qed.
Hint Resolve patch_step_none patch_step_call : core.

Lemma migrateAPIVersion_patches m o v t x :
  runs (migrateAPIVersion m o v) t (Done x) → match x with inr (b, o') => patch_step m b o o' t | inl _ => True end.
Proof.
  unfold migrateAPIVersion. destruct (length _ =? 0) eqn:El; intros Hr.
  - apply runs_ok in Hr as [-> [= ->]]. auto.
  - apply runs_call in Hr as (r & t' & -> & Hr). destruct (r_err r) eqn:Er; apply runs_ok in Hr as [-> [= ->]]; auto.
Qed.

Lemma migrate_patches m o ex ge opts t b ex' :
  runs (migrate m o ex ge opts) t (Done (b, ex')) → patch_step m b ex ex' t.
Proof.
  unfold migrate. destruct (_ && _); intros Hr; [|by apply runs_ok in Hr as [-> [= -> ->]]].
  apply runs_cbind_Done in Hr as (t1 & x & t2 & -> & H1 & H2).
  apply migrateAPIVersion_patches in H1. destruct x as [e|[b' o']]; apply runs_ret_inv in H2 as [-> [=]].
  simplify_eq. by rewrite app_nil_r.
Qed.

Lemma cleanupMetadata_patches m o ex cl t x :
  runs (cleanupMetadata m o ex cl) t (Done x) → match x with inr (b, ex') => patch_step m b ex ex' t | inl _ => True end.
Proof.
  unfold cleanupMetadata. destruct (_ || _); intros Hr; [by apply runs_ok in Hr as [-> [= ->]]|].
  destruct (cleanup_patches m ex cl) as [e|ps]; [by apply runs_ok in Hr as [-> [= ->]]|].
  destruct (length ps =? 0) eqn:El; [by apply runs_ok in Hr as [-> [= ->]]|].
  apply runs_call in Hr as (r & t' & -> & Hr). destruct (r_err r) eqn:Er; apply runs_ok in Hr as [-> [= ->]]; auto.
Qed.

Lemma cleanup_patches_step m o ex b0 opts t b ex' :
  runs (cleanup m o ex b0 opts) t (Done (b, ex')) → ∃ b', b = b0 || b' ∧ patch_step m b' ex ex' t.
Proof.
  intros Hr. apply runs_cbind_Done in Hr as (t1 & x & t2 & -> & H1 & H2).
  apply cleanupMetadata_patches in H1. destruct x as [e|[b' o']]; apply runs_ret_inv in H2 as [-> [=]].
  simplify_eq. exists b'. by rewrite app_nil_r.
Qed.

(** Computations that make no call. *)
Lemma runs_of_err {A} (x : kerr + A) t a : runs (of_err x : comp Obj A) t (Done a) → t = [] ∧ x = inr a.
Proof. destruct x; intros [-> [=]]%runs_ret_inv; by subst. Qed.
Lemma runs_of_res {A} (x : res A) t a : runs (of_res x : comp Obj A) t (Done a) → t = [] ∧ x = Val a.
Proof. destruct x; intros [-> [=]]%runs_ret_inv; by subst. Qed.

(** The compiled ignore rules; none for an object that is not in the cluster. *)
Definition ignore_rules opts (ex : Obj) (compiled : option (list (option SelectorRegex * list bytes))) : Prop :=
  (if negb (beq (GetResourceVersion ex) []) then compile_rules opts else inr None) = inr compiled.

(** What is applied for the object [o]: the object itself; with ignore rules, the
    object after the drifted ignored fields were stripped or adopted. *)
Definition payload m (o ex dr : Obj) (compiled : option (list (option SelectorRegex * list bytes))) (ap : Obj) : Prop :=
  match compiled with
  | None => ap = o
  | Some rules => ∃ d, computeDriftedPaths iter_keys ex dr rules (owner_Field (owner m)) = Val d ∧ applyDriftResult o d = inr ap
  end.

Lemma apply_drifted_spec m o ex dr compiled t e :
  runs (apply_drifted m o ex dr compiled) t (Done e) →
  ∃ ap r, t = [(KApply (owner_Field (owner m)) ap, r)] ∧ r_err r = None ∧ payload m o ex dr compiled ap ∧
    e = changeSetEntry ap (if beq (GetResourceVersion dr) [] then CreatedAction else ConfiguredAction).
Proof.
  unfold apply_drifted. intros Hr. apply runs_cbind_Done in Hr as (t1 & ap & t2 & -> & H1 & H2).
  assert (t1 = [] ∧ payload m o ex dr compiled ap) as [-> Hap].
  { destruct compiled as [rules|]; [|by apply runs_ok in H1 as [-> [= ->]]].
    apply runs_cbind_Done in H1 as (t3 & x & t4 & -> & [-> ?]%runs_of_res & [-> ?]%runs_of_err). split; [done|by exists x]. }
  apply runs_cbind_Done in H2 as (t1 & err & t3 & -> & H1' & H3).
  apply runs_call in H1' as (r & t' & -> & [-> [= ->]]%runs_ok). exists ap, r.
  destruct (r_err r); [by apply runs_ret_inv in H3 as [_ ?]|].
  destruct (beq _ []); apply runs_ok in H3 as [-> [= ->]]; done.
Qed.

(** ** One attempt *)

Definition get_call o : kcall Obj := KGet (GetObjNamespace o) (GetObjName o) (blank o).

(** The object in the cluster, as far as it is known after these calls: what the
    last read or metadata patch returned. *)
Definition in_cluster t : option Obj :=
  last (omap (λ ev : event Obj, match ev.1 with KGet _ _ _ | KJSONPatch _ _ _ => Some (r_obj ev.2) | _ => None end) t).

(** The calls of an attempt before the object is applied: the object in the
    cluster is read, its metadata patched if that is asked for, and the object
    goes through a dry-run.  [ex] is the object in the cluster in the end, [d]
    the answer of the dry-run, [patched] whether there was a patch. *)
Definition prepared m o opts t (ex : Obj) (d : reply Obj) (patched : bool) : Prop :=
  ∃ g tm tc, t = (get_call o, g) :: tm ++ (KDryRun (owner_Field (owner m)) o, d) :: tc ∧
    shouldSkipApply o (r_obj g) opts = None ∧ r_err d = None ∧
    in_cluster t = Some ex ∧ (if patched then writes t ≠ [] else tm = [] ∧ tc = []) ∧
    Forall (λ ev, is_json_patch ev.1 = true ∧ r_err ev.2 = None) (tm ++ tc).

(** The calls of an attempt that ends with an entry. *)
Definition entry_calls m o opts (e : ChangeSetEntry) t : Prop :=
  match cse_Action e with
  | SkippedAction => ∃ g, t = [(get_call o, g)] ∧ shouldSkipApply o (r_obj g) opts = Some e
  | UnchangedAction => ∃ ex d compiled, prepared m o opts t ex d false ∧ ignore_rules opts ex compiled ∧
      hasDriftedWithIgnore NormalizeDryRun ex (r_obj d) compiled = inr false ∧ e = changeSetEntry o UnchangedAction
  | CreatedAction | ConfiguredAction => ∃ t' ex d compiled patched drifted ap r,
      t = t' ++ [(KApply (owner_Field (owner m)) ap, r)] ∧ r_err r = None ∧
      prepared m o opts t' ex d patched ∧ ignore_rules opts ex compiled ∧
      hasDriftedWithIgnore NormalizeDryRun ex (r_obj d) compiled = inr drifted ∧ patched || drifted = true ∧
      payload m o ex (r_obj d) compiled ap ∧
      e = changeSetEntry ap (if beq (GetResourceVersion (r_obj d)) [] then CreatedAction else ConfiguredAction)
  | _ => False
  end.

(** The calls of an attempt that deletes the object in the cluster: the dry-run
    failed on an immutable field, and the options or the objects ask for it. *)
Definition recreates m o opts t : Prop :=
  ∃ pre ex d err rd, t = pre ++ [(KDryRun (owner_Field (owner m)) o, d); (KDelete ex (str "Background"), rd)] ∧
    Forall (λ c, is_json_patch c = true) (writes pre) ∧ in_cluster pre = Some ex ∧
    r_err d = Some err ∧ shouldForceApply o ex (Force opts) (ForceSelector opts) err = true ∧
    (r_err rd = None ∨ is_not_found (r_err rd) = true).

Lemma shouldSkipApply_action o ex opts e : shouldSkipApply o ex opts = Some e → cse_Action e = SkippedAction.
Proof. unfold shouldSkipApply. repeat case_match; by intros [= <-]. Qed.

Lemma in_cluster_patch m b ex ex' t t' : in_cluster t = Some ex → patch_step m b ex ex' t' → in_cluster (t ++ t') = Some ex'.
Proof.
  intros Ht [(_ & -> & ->)|(_ & ps & r & -> & _ & _ & ->)]; [by rewrite app_nil_r|].
  unfold in_cluster. rewrite omap_app, last_app. done.
Qed.

Lemma in_cluster_dry t f o (d : reply Obj) : in_cluster (t ++ [(KDryRun f o, d)]) = in_cluster t.
Proof. unfold in_cluster. by rewrite omap_app, app_nil_r. Qed.

Lemma patch_step_calls m b ex ex' t :
  patch_step m b ex ex' t →
  Forall (λ ev : event Obj, is_json_patch ev.1 = true ∧ r_err ev.2 = None) t ∧ if b then writes t ≠ [] else t = [].
Proof. intros [(-> & -> & _)|(-> & ps & r & -> & _ & Hr & _)]; [done|]. split; [by repeat constructor|done]. Qed.

Lemma prepared_intro m o opts g tm d tc b b' ex ex' :
  shouldSkipApply o (r_obj g) opts = None → r_err d = None →
  patch_step m b (r_obj g) ex tm → patch_step m b' ex ex' tc →
  prepared m o opts ((get_call o, g) :: tm ++ (KDryRun (owner_Field (owner m)) o, d) :: tc) ex' d (b || b').
Proof.
  intros Hs Hd Hm Hc. exists g, tm, tc.
  destruct (patch_step_calls _ _ _ _ _ Hm) as [Fm Wm], (patch_step_calls _ _ _ _ _ Hc) as [Fc Wc]. split_and!; [done..| | |].
  - assert (in_cluster ([(get_call o, g)] ++ tm) = Some ex) as H1 by (by apply (in_cluster_patch m b (r_obj g))).
    rewrite <-(in_cluster_dry _ (owner_Field (owner m)) o d) in H1.
    pose proof (in_cluster_patch m b' ex ex' _ tc H1 Hc) as H2. rewrite <-!app_assoc in H2. exact H2.
  - rewrite writes_cons, writes_app, writes_cons. cbn [is_write get_call].
    rewrite !app_nil_l. destruct b, b'; cbn [orb]; subst; try done; by intros [? ?]%app_eq_nil.
  - by apply Forall_app.
Qed.

Lemma apply_attempt_spec m o opts t x :
  runs (apply_attempt m o opts) t (Done x) →
  match x with Some e => entry_calls m o opts e t | None => recreates m o opts t end.
Proof.
  unfold apply_attempt. intros Hr. apply runs_call in Hr as (g & t' & -> & Hr).
  destruct (shouldSkipApply o (r_obj g) opts) as [e|] eqn:Es.
  { apply runs_ok in Hr as [-> [= ->]]. unfold entry_calls. rewrite (shouldSkipApply_action _ _ _ _ Es). by exists g. }
  apply runs_cbind_Done in Hr as (t1 & [b ex] & t2 & -> & H1%migrate_patches & Hr).
  apply runs_call in Hr as (d & t' & -> & Hr). destruct (r_err d) as [err|] eqn:Ed.
  - destruct (negb _ && _) eqn:Ef; [|by apply runs_ret_inv in Hr as [_ ?]].
    apply andb_true_iff in Ef as [_ Ef]. apply runs_call in Hr as (rd & t2 & -> & Hr).
    assert (t2 = [] ∧ x = None ∧ (r_err rd = None ∨ is_not_found (r_err rd) = true)) as (-> & -> & Hrd).
    { destruct (r_err rd) as [e'|]; [destruct (IsNotFound e') eqn:En|]; apply runs_ret_inv in Hr as [-> ?];
        simplify_eq; auto. }
    exists ((get_call o, g) :: t1), ex, d, err, rd. split_and!; [done| |by apply (in_cluster_patch m b (r_obj g) ex [_])|done..].
    rewrite writes_cons. destruct (patch_step_calls _ _ _ _ _ H1) as [Hf _]. clear -Hf. unfold writes. cbn.
    induction Hf as [|[c r] l [Hc _] Hl IH]; [done|]. rewrite fmap_cons, filter_cons. by destruct c; try done; constructor.
  - apply runs_cbind_Done in Hr as (t2 & [b' ex'] & t3 & -> & (b2 & -> & H2)%cleanup_patches_step & Hr).
    apply runs_cbind_Done in Hr as (t4 & compiled & t5 & -> & Hc & Hr).
    assert (t4 = [] ∧ ignore_rules opts ex' compiled) as [-> Hrules].
    { unfold ignore_rules. destruct (negb _); [by apply runs_of_err in Hc|]. by apply runs_ok in Hc as [-> [= ->]]. }
    apply runs_cbind_Done in Hr as (t4 & drifted & t6 & -> & [-> Hdr]%runs_of_err & Hr).
    pose proof (prepared_intro m o opts g t1 d t2 b b2 ex ex' Es Ed H1 H2) as Hp. cbn [app].
    destruct (negb (b || b2) && negb drifted) eqn:Eb.
    + apply runs_ok in Hr as [-> [= ->]]. apply andb_true_iff in Eb as [Eb%negb_true_iff Edr%negb_true_iff].
      rewrite Eb in Hp. subst drifted. cbn. exists ex', d, compiled. by rewrite !app_nil_r.
    + apply runs_cbind_Done in Hr as (t4 & e & t5 & -> & Ha & [-> [= ->]]%runs_ok).
      apply apply_drifted_spec in Ha as (ap & r & -> & Hre & Hap & ->).
      apply andb_false_iff in Eb. rewrite !negb_false_iff in Eb.
      unfold entry_calls, changeSetEntry. cbn [cse_Action].
      destruct (beq (GetResourceVersion (r_obj d)) []) eqn:Ev;
        (eexists _, ex', d, compiled, (b || b2), drifted, ap, r; rewrite Ev; split_and!;
         [|done|exact Hp|done..|by apply orb_true_iff|done|done]; cbn; by rewrite <-app_assoc).
Qed.

(** Attempts that end with the deletion of the object. *)
Inductive recreations m o opts : list (event Obj) → Prop :=
  | recreations_nil : recreations m o opts []
  | recreations_cons t1 t2 :
      recreates m o opts t1 → recreations m o opts t2 → recreations m o opts (t1 ++ t2).


(** Excluded objects: when the labels or annotations of the object match
    the exclusion selector, [Apply] reads the object and does nothing else,
    and reports it as skipped. *)
Theorem Apply_excluded (fuel : nat) m o opts t (r : outcome ChangeSetEntry) :
  AnyInMetadata o (ExclusionSelector opts) = true →
  runs (Apply (S fuel) m o opts) t r →
  ∃ g e, t = [(KGet (GetObjNamespace o) (GetObjName o) (blank o), g)] ∧ r = Done e ∧
    cse_Action e = SkippedAction.
Proof.
  intros Hx Hr. cbn [Apply] in Hr. unfold apply_attempt in Hr.
  apply runs_cbind_inv in Hr as [(t1 & x & t2 & -> & H1 & H2)|(o' & H1 & Ho)].
  - apply runs_call in H1 as (g & t' & -> & H1). unfold shouldSkipApply in H1. rewrite Hx in H1.
    apply runs_ok in H1 as [-> [= ->]]. apply runs_ok in H2 as [-> ->]. by exists g, (changeSetEntry
      (if negb (beq (GetUID (r_obj g)) []) then r_obj g else o) SkippedAction).
  - apply runs_call in H1 as (g & t' & -> & H1). unfold shouldSkipApply in H1. rewrite Hx in H1.
    by apply runs_ok in H1 as [-> ->].
Qed.

Lemma apply_attempt_finishes m o opts : finishes (apply_attempt m o opts).
Proof.
  unfold apply_attempt, get_existing, dryRunApply, migrate, migrateAPIVersion, cleanup, cleanupMetadata,
    apply_drifted, apply.
  repeat first [apply finishes_cbind; [|intros ?] | case_match | by auto with calls].
Qed.

(** [Apply] loops only while the server makes it recreate the object: a run
    that uses up [fuel] attempts has deleted the object [fuel] times, so any
    run with fewer deletions ends with an entry or an error. *)
Theorem Apply_attempts (fuel : nat) m o opts t :
  runs (Apply fuel m o opts) t Unfinished →
  length (filter (λ c, is_delete c = true) t.*1) = fuel ∧ recreations m o opts t.
Proof.
  revert t. induction fuel as [|fuel IH]; intros t Hr; simpl in Hr.
  { apply runs_ret_inv in Hr as [-> _]. split; [done|constructor]. }
  apply runs_cbind_inv in Hr as [(t1 & x & t2 & -> & H1 & H2)|(o' & H1 & Ho)].
  - apply apply_attempt_spec in H1. destruct x; [by apply runs_ret_inv in H2 as [_ ?]|].
    apply IH in H2 as [Hl Hrec]. split; [|by constructor].
    destruct H1 as (pre & ex & d & err & rd & -> & Hpre & _).
    rewrite !fmap_app, !filter_app, !length_app, Hl.
    assert (filter (λ c, is_delete c = true) pre.*1 = []) as ->; [|done].
    revert Hpre. clear. unfold writes. induction pre as [|[c r] pre IH]; [done|]. rewrite fmap_cons, !filter_cons.
    destruct c; simpl; intros Hp; try (by apply IH); inversion Hp; subst; try done; by apply IH.
  - destruct o'; try done. by apply apply_attempt_finishes in H1.
Qed.
End apply_writes.
