(* ===== verification/SsaApplyAll.v ===== *)
(** * Server-side apply of sets of objects
    ([ssa/manager_apply.go], lines 204 to 420, [ssa/utils/cert_validation.go])

    [ApplyAll] validates every object with a dry-run, concurrently, and then
    applies those that changed one after another in the order of their kinds.
    [ApplyAllStaged] applies definitions first and waits for them. *)

From S2P Require Import Prelude GoStd Utf8 GoPath Json SsaObject SsaSort SsaPatch SsaIgnore SsaDrift.
From S2P Require Import Interaction SsaClient SsaWait SsaApply.
#[local] Open Scope comp_scope.

(** ** Bundles of certificates in definitions *)

(** The value of a character of the standard base64 alphabet. *)
Definition b64_value (c : ascii) : option Z :=
  let b := bval c in
  if in_range 65 b 90 then Some (b - 65)%Z
  else if in_range 97 b 122 then Some (b - 71)%Z
  else if in_range 48 b 57 then Some (b + 4)%Z
  else if (b =? 43)%Z then Some 62%Z
  else if (b =? 47)%Z then Some 63%Z
  else None.

Definition byte_of (z : Z) : ascii := Ascii.ascii_of_N (Z.to_N (z mod 256)).

(** Quanta of four characters; the last one may be padded. *)
Fixpoint b64_quanta (s : bytes) : option bytes :=
  match s with
  | [] => Some []
  | a :: b :: c :: d :: s' =>
      x ← b64_value a; y ← b64_value b;
      if Ascii.eqb c "=" then
        if Ascii.eqb d "=" && beq s' [] then Some [byte_of (x * 4 + y / 16)] else None
      else
        z ← b64_value c;
        if Ascii.eqb d "=" then
          if beq s' [] then Some [byte_of (x * 4 + y / 16); byte_of (y * 16 + z / 4)] else None
        else
          w ← b64_value d; rest ← b64_quanta s';
          Some (byte_of (x * 4 + y / 16) :: byte_of (y * 16 + z / 4) :: byte_of (z * 64 + w) :: rest)
  | _ => None
  end.

(** [base64.StdEncoding.DecodeString]: line breaks are skipped. *)
Definition base64_DecodeString (s : bytes) : option bytes :=
  b64_quanta (filter (λ c, ((bval c =? 10)%Z || (bval c =? 13)%Z) = false) s).

(** [spec.conversion.webhook.clientConfig.caBundle] and the TLS library. *)
Class CABundles (Obj : Type) := {
  get_caBundle : Obj → option bytes;
  remove_caBundle : Obj → Obj;
  TLSConfigFor_ok : bytes → bool }.

Section cabundle.
Context {Obj : Type} `{KubeObject Obj} `{Unicode} `{CABundles Obj}.

(** [src/ssa/utils/cert_validation.go:26-39 validateCABundle] *)
Definition validateCABundle (caBundle : bytes) : bool :=
  if length caBundle =? 0 then true else TLSConfigFor_ok caBundle.

(** [src/ssa/utils/cert_validation.go:41-59 isCRDWithInvalidCABundle] *)
Definition isCRDWithInvalidCABundle (o : Obj) : bool :=
  if negb (IsCRD o) then false
  else match get_caBundle o with
       | None => false
       | Some caBundle =>
           if beq caBundle [] then false
           else match base64_DecodeString caBundle with
                | Some decoded => negb (validateCABundle decoded)
                | None => true
                end
       end.

(** [src/ssa/utils/cert_validation.go:61-66 RemoveCABundleFromCRD] *)
Definition RemoveCABundleFromCRD (o : Obj) : Obj :=
  if isCRDWithInvalidCABundle o then remove_caBundle o else o.
End cabundle.

(** ** [ApplyAll] *)

(** What a goroutine leaves in its slots: the object to apply, the entry and
    the resolution of drifted paths. *)
Record slot (Obj : Type) := mkSlot {
  toApply : option Obj; change : ChangeSetEntry; driftResult : list driftEntry }.
Arguments mkSlot {Obj}.
Arguments toApply {Obj}.
Arguments change {Obj}.
Arguments driftResult {Obj}.

Abbreviation compiled_rules := (option (list (option SelectorRegex * list bytes))) (only parsing).

Section apply_all.
Context {Obj : Type} `{Kube : KubeObject Obj} `{Cont : Content Obj} `{Uni : Unicode} `{Fold : CaseFold}
  `{Mat : Matchers} `{Env : !ApplyEnv Obj} `{CA : CABundles Obj} `{Srt : SortFunc}.

(** The object is polled until it is gone; the last object read.
    [src/ssa/manager_apply.go:264-277 ApplyAll] *)
Definition still_exists (object existingObject : Obj) : comp Obj (bool * Obj) :=
  r <- request (KGet (GetObjNamespace object) (GetObjName object) existingObject) ;;
  match r_err r with
  | Some e => if IsNotFound e then ok (true, r_obj r) else fail e
  | None => ok (false, r_obj r)
  end.

(** The object is deleted and validated again: the existing and the dry-run
    object.  [fuel] bounds the polls.
    [src/ssa/manager_apply.go:258-285 ApplyAll] *)
Definition recreate (fuel : nat) (m : ResourceManager) (object existingObject dryRunObject : Obj)
    : comp Obj (Obj * Obj) :=
  r <- request (KDelete existingObject (str "Background")) ;;
  if match r_err r with Some e => negb (IsNotFound e) | None => false end
  then fail (wrap (FmtUnstructured dryRunObject ++ str " immutable field detected, failed to delete object")
               (default (plain_error "") (r_err r)))
  else
    w <- catch (poll fuel (still_exists object) existingObject) ;;
    match w with
    | inl e => fail (wrap (FmtUnstructured dryRunObject ++
                 str " immutable field detected, failed to wait for object to be deleted") e)
    | inr existingObject =>
        d <- dryRunApply m dryRunObject ;;
        match r_err d with
        | Some e => fail (NewDryRunErr e (r_obj d))
        | None => ok (existingObject, r_obj d)
        end
    end.

(** The slots of an object that was validated.
    [src/ssa/manager_apply.go:294-312 ApplyAll] *)
Definition decide_apply (m : ResourceManager) (object existingObject dryRunObject : Obj) (patched : bool)
    (compiled : compiled_rules) : comp Obj (slot Obj) :=
  drifted <- of_err (hasDriftedWithIgnore NormalizeDryRun existingObject dryRunObject compiled) ;;
  if patched || drifted then
    dr <- match compiled with
      | Some rules =>
          if negb (beq (GetResourceVersion existingObject) [])
          then of_res (computeDriftedPaths iter_keys existingObject dryRunObject rules (owner_Field (owner m)))
          else ok []
      | None => ok []
      end ;;
    if beq (GetResourceVersion dryRunObject) []
    then ok (mkSlot (Some object) (changeSetEntry dryRunObject CreatedAction) dr)
    else ok (mkSlot (Some object) (changeSetEntry dryRunObject ConfiguredAction) dr)
  else ok (mkSlot None (changeSetEntry dryRunObject UnchangedAction) []).

(** The goroutine of one object.
    [src/ssa/manager_apply.go:231-313 ApplyAll] *)
Definition goroutine (fuel : nat) (m : ResourceManager) (opts : ApplyOptions) (compiled : compiled_rules)
    (object : Obj) : comp Obj (slot Obj) :=
  let object := RemoveCABundleFromCRD object in
  g <- get_existing object ;;
  let existingObject := r_obj g in
  let getError := r_err g in
  match shouldSkipApply object existingObject opts with
  | Some skippedEntry => ok (mkSlot None skippedEntry [])
  | None =>
      x <- migrate m object existingObject getError opts ;;
      let '(patched, existingObject) := x in
      d <- dryRunApply m object ;;
      y <- match r_err d with
        | None => ok (existingObject, r_obj d)
        | Some e =>
            if negb (is_not_found getError) &&
               shouldForceApply object existingObject (Force opts) (ForceSelector opts) e
            then recreate fuel m object existingObject (r_obj d)
            else fail (NewDryRunErr e (r_obj d))
        end ;;
      let '(existingObject, dryRunObject) := y in
      x <- cleanup m object existingObject patched opts ;;
      let '(patched, existingObject) := x in
      decide_apply m object existingObject dryRunObject patched compiled
  end.

(** The object that is sent.
    [src/ssa/manager_apply.go:323-328 ApplyAll] *)
Definition applied_object (s : slot Obj) (object : Obj) : kerr + Obj :=
  if negb (bool_decide (cse_Action (change s) = CreatedAction)) && (0 <? length (driftResult s))
  then applyDriftResult object (driftResult s) else inr object.

(** [src/ssa/manager_apply.go:321-333 ApplyAll] *)
Fixpoint apply_slots (m : ResourceManager) (slots : list (slot Obj)) : comp Obj unit :=
  match slots with
  | [] => ok tt
  | s :: slots =>
      match toApply s with
      | None => apply_slots m slots
      | Some object =>
          appliedObject <- of_err (applied_object s object) ;;
          err <- apply m appliedObject ;;
          match err with
          | Some e => fail (wrap (FmtUnstructured appliedObject ++ str " apply failed") e)
          | None => apply_slots m slots
          end
      end
  end.

(** [src/ssa/manager_apply.go:321-338 ApplyAll] *)
Definition apply_phase (m : ResourceManager) (slots : list (slot Obj)) : comp Obj ChangeSet :=
  _ <- apply_slots m slots ;; ok (cs_Append NewChangeSet (change <$> slots)).

(** All goroutines succeeded. *)
Fixpoint all_done {A} (outs : list (outcome A)) : option (list A) :=
  match outs with
  | [] => Some []
  | Done a :: outs => l ← all_done outs; Some (a :: l)
  | _ :: _ => None
  end.

(** The group returns the outcome of a goroutine that did not succeed. *)
Definition group_error {A B} (outs : list (outcome A)) (out : outcome B) : Prop :=
  ∃ o, o ∈ outs ∧ match o with
                  | Done _ => False
                  | Failed e => out = Failed e
                  | Crashed => out = Crashed
                  | Unfinished => out = Unfinished
                  end.

(** The behaviours of [ApplyAll]: its trace and its outcome.  The goroutines
    interleave; the limit of the group only restricts their schedules.
    [src/ssa/manager_apply.go:204-339 ApplyAll] *)
Definition ApplyAll (fuel : nat) (m : ResourceManager) (objects : list Obj) (opts : ApplyOptions)
    (t : list (event Obj)) (out : outcome ChangeSet) : Prop :=
  let objects := sort_objects objects in
  match compile_rules opts with
  | inl e => t = [] ∧ out = Failed e
  | inr compiled =>
      ∃ tp outs t2, par (goroutine fuel m opts compiled <$> objects) tp outs ∧ t = tp.*2 ++ t2 ∧
        match all_done outs with
        | Some slots => runs (apply_phase m slots) t2 out
        | None => t2 = [] ∧ group_error outs out
        end
  end.

(** ** [ApplyAllStaged] *)

Context (AggregateStatus : list ResourceStatus → KStatus → KStatus).

(** The stage of an object.  [src/ssa/manager_apply.go:364-375 ApplyAllStaged] *)
Inductive Stage := defStage | classStage | customStage | resStage.
#[global] Instance Stage_eq_dec : EqDecision Stage.
Proof. solve_decision. Defined.

(** [src/ssa/manager_apply.go:364-375 ApplyAllStaged] *)
Definition stage_of (opts : ApplyOptions) (o : Obj) : Stage :=
  if IsClusterDefinition o then defStage
  else if IsClassDefinition o then classStage
  else if IsCustomStage o (CustomStageKinds opts) then customStage
  else resStage.

Definition stage (opts : ApplyOptions) (s : Stage) (objects : list Obj) : list Obj :=
  filter (λ o, stage_of opts o = s) objects.

Definition wait_options (opts : ApplyOptions) : WaitOptions :=
  mkWait (WaitInterval opts) (WaitTimeout opts) false [].

(** A stage that is applied and, with [wait], waited for: the change set after
    it and the error.  An empty stage is left out unless it is the last.
    [src/ssa/manager_apply.go:377-417 ApplyAllStaged] *)
Definition run_stage (fuel : nat) (m : ResourceManager) (opts : ApplyOptions) (objects : list Obj)
    (always wait : bool) (cs : ChangeSet) (t : list (event Obj)) (res : ChangeSet * outcome unit) : Prop :=
  if (length objects =? 0) && negb always then t = [] ∧ res = (cs, Done tt)
  else ∃ t1 t2 out, t = t1 ++ t2 ∧ ApplyAll fuel m objects opts t1 out ∧
    match out with
    | Done cs' =>
        if wait then ∃ w, runs (WaitForSet AggregateStatus (ToObjMetadataSet cs') (wait_options opts)) t2 w ∧
          res = (cs_Append cs cs', w)
        else t2 = [] ∧ res = (cs_Append cs cs', Done tt)
    | Failed e => t2 = [] ∧ res = (cs, Failed e)
    | Crashed => t2 = [] ∧ res = (cs, Crashed)
    | Unfinished => t2 = [] ∧ res = (cs, Unfinished)
    end.

(** One behaviour after another, while there is no error. *)
Definition next_stage (b : ChangeSet → list (event Obj) → ChangeSet * outcome unit → Prop)
    (a : list (event Obj) → ChangeSet * outcome unit → Prop)
    (t : list (event Obj)) (res : ChangeSet * outcome unit) : Prop :=
  ∃ t1 r t2, t = t1 ++ t2 ∧ a t1 r ∧
    match r.2 with Done _ => b r.1 t2 res | _ => t2 = [] ∧ res = r end.

(** [src/ssa/manager_apply.go:341-420 ApplyAllStaged] *)
Definition ApplyAllStaged (fuel : nat) (m : ResourceManager) (objects : list Obj) (opts : ApplyOptions)
    : list (event Obj) → ChangeSet * outcome unit → Prop :=
  let st s := stage opts s objects in
  next_stage (run_stage fuel m opts (st resStage) true false)
    (next_stage (run_stage fuel m opts (st customStage) false false)
       (next_stage (run_stage fuel m opts (st classStage) false true)
          (run_stage fuel m opts (st defStage) false true NewChangeSet))).
End apply_all.

(** ** Validation comes first *)

Section apply_all_spec.
Context {Obj : Type} `{Kube : KubeObject Obj} `{Cont : Content Obj} `{Uni : Unicode} `{Fold : CaseFold}
  `{Mat : Matchers} `{Env : !ApplyEnv Obj} `{CA : CABundles Obj} `{Srt : SortFunc}.
Implicit Types (m : ResourceManager) (o : Obj) (opts : ApplyOptions) (t : list (event Obj)).

Abbreviation not_apply := (λ c, is_apply c = false) (only parsing).

Lemma migrate_only m o ex ge opts : only not_apply (migrate m o ex ge opts).
Proof.
  unfold migrate, migrateAPIVersion.
  repeat first [apply only_cbind; [|intros ?] | apply only_ret | by apply only_request | case_match].
Qed.

Lemma cleanup_only m o ex b opts : only not_apply (cleanup m o ex b opts).
Proof.
  unfold cleanup, cleanupMetadata.
  repeat first [apply only_cbind; [|intros ?] | apply only_ret | by apply only_request | case_match].
Qed.

Lemma of_err_only P {A} (x : kerr + A) : only P (of_err x : comp Obj A).
Proof. destruct x; apply only_ret. Qed.
Lemma of_res_only P {A} (x : res A) : only P (of_res x : comp Obj A).
Proof. destruct x; apply only_ret. Qed.
Lemma only_catch P {A} (p : comp Obj A) : only P p → only P (catch p).
Proof. intros Hp t o' (o'' & H1 & _)%runs_catch. by eapply Hp. Qed.

Lemma recreate_only fuel m o ex d : only not_apply (recreate fuel m o ex d).
Proof.
  unfold recreate, dryRunApply. apply only_cbind; [by apply only_request|]. intros r.
  destruct (match r_err r with Some _ => _ | None => _ end); [apply only_ret|].
  apply only_cbind.
  - apply only_catch, only_poll; [done|]. intros s. unfold still_exists.
    apply only_cbind; [by apply only_request|]. intros r'. repeat case_match; apply only_ret.
  - intros [e|ex']; [apply only_ret|]. apply only_cbind; [by apply only_request|].
    intros r'. destruct (r_err r'); apply only_ret.
Qed.

Lemma decide_apply_only P m o ex d b c : only P (decide_apply m o ex d b c).
Proof.
  unfold decide_apply. apply only_cbind; [apply of_err_only|]. intros dr. case_match; [|apply only_ret].
  apply only_cbind; [|intros; case_match; apply only_ret].
  destruct c; [case_match; [apply of_res_only|apply only_ret]|apply only_ret].
Qed.

(** No goroutine applies an object. *)
Lemma goroutine_only fuel m opts c o : only not_apply (goroutine fuel m opts c o).
Proof.
  unfold goroutine, get_existing, dryRunApply. apply only_cbind; [by apply only_request|]. intros g.
  case_match; [apply only_ret|]. apply only_cbind; [apply migrate_only|]. intros [b ex].
  apply only_cbind; [by apply only_request|]. intros d. apply only_cbind.
  - repeat case_match; [apply recreate_only|apply only_ret..].
  - intros [ex' d']. apply only_cbind; [apply cleanup_only|]. intros [b' ex'']. apply decide_apply_only.
Qed.

(** The dry-run of the payload succeeded, or that of what a failed dry-run of
    it left. *)
Definition validated m o t : Prop :=
  ∃ p d, (KDryRun (owner_Field (owner m)) p, d) ∈ t ∧ r_err d = None ∧
    (p = o ∨ ∃ d', (KDryRun (owner_Field (owner m)) o, d') ∈ t ∧ p = r_obj d').

(** What the slots of an object say. *)
Definition slot_ok m o (s : slot Obj) t : Prop :=
  match cse_Action (change s) with
  | SkippedAction => toApply s = None
  | UnchangedAction => toApply s = None ∧ validated m (RemoveCABundleFromCRD o) t
  | CreatedAction | ConfiguredAction =>
      toApply s = Some (RemoveCABundleFromCRD o) ∧ validated m (RemoveCABundleFromCRD o) t
  | _ => False
  end.

Definition applied_action (a : Action) : Prop := a = CreatedAction ∨ a = ConfiguredAction.

Lemma decide_apply_slot m o ex d b c t s :
  runs (decide_apply m o ex d b c) t (Done s) →
  (cse_Action (change s) = UnchangedAction ∧ toApply s = None) ∨
  (applied_action (cse_Action (change s)) ∧ toApply s = Some o).
Proof.
  unfold decide_apply. intros Hr. apply runs_cbind_Done in Hr as (t1 & dr & t2 & -> & _ & Hr).
  case_match; [|apply runs_ok in Hr as [_ [= ->]]; by left].
  apply runs_cbind_Done in Hr as (t3 & x & t4 & _ & _ & Hr). right.
  case_match; apply runs_ok in Hr as [_ [= ->]]; split; unfold applied_action; simpl; auto.
Qed.

Lemma recreate_validates fuel m o ex d t x :
  runs (recreate fuel m o ex d) t (Done x) →
  ∃ d', (KDryRun (owner_Field (owner m)) d, d') ∈ t ∧ r_err d' = None.
Proof.
  unfold recreate. intros Hr. apply runs_call in Hr as (r & t' & -> & Hr).
  destruct (match r_err r with Some _ => _ | None => _ end); [by apply runs_ret_inv in Hr as [_ ?]|].
  apply runs_cbind_Done in Hr as (t1 & w & t2 & -> & _ & Hr).
  destruct w; [by apply runs_ret_inv in Hr as [_ ?]|].
  apply runs_call in Hr as (d' & t3 & -> & Hr). destruct (r_err d') eqn:E; [by apply runs_ret_inv in Hr as [_ ?]|].
  exists d'. split; [|done]. rewrite elem_of_cons, elem_of_app, elem_of_cons. auto.
Qed.

Lemma validated_incl m o t1 t2 : validated m o t1 → (∀ e, e ∈ t1 → e ∈ t2) → validated m o t2.
Proof. intros (p & d & Hin & Hd & Hp) Hi. exists p, d. split_and!; [auto|done|]. naive_solver. Qed.

Lemma validated_mid m o y t1 x t3 t2 :
  validated m o (x :: t3) → validated m o (y :: t1 ++ x :: t3 ++ t2).
Proof.
  intros Hv. apply (validated_incl m o (x :: t3)); [done|]. intros e He.
  apply elem_of_cons. right. apply elem_of_app. right. apply elem_of_cons in He as [->|He]; [by constructor|].
  constructor. apply elem_of_app. by left.
Qed.

Lemma goroutine_slot fuel m opts c o t s :
  runs (goroutine fuel m opts c o) t (Done s) → slot_ok m o s t.
Proof.
  unfold goroutine. intros Hr. apply runs_call in Hr as (g & t' & -> & Hr).
  destruct (shouldSkipApply _ _ _) as [e|] eqn:Es.
  { apply runs_ok in Hr as [-> [= ->]]. unfold slot_ok. simpl.
    by rewrite (shouldSkipApply_action _ _ _ _ Es). }
  apply runs_cbind_Done in Hr as (t1 & [b ex] & t2 & -> & _ & Hr).
  apply runs_call in Hr as (d & t' & -> & Hr).
  apply runs_cbind_Done in Hr as (t3 & [ex' d'] & t4 & -> & Hd & Hr).
  apply runs_cbind_Done in Hr as (t5 & [b' ex''] & t6 & -> & _ & Hr).
  assert (validated m (RemoveCABundleFromCRD o) ((KDryRun (owner_Field (owner m)) (RemoveCABundleFromCRD o), d) :: t3)) as Hv.
  { destruct (r_err d) as [e|] eqn:Ed.
    - destruct (negb _ && _); [|by apply runs_ret_inv in Hd as [_ ?]].
      apply recreate_validates in Hd as (d2 & Hin & Hd2). exists (r_obj d), d2. split_and!; [by constructor|done|].
      right. exists d. split; [by constructor|done].
    - eexists _, d. split_and!; [by constructor|done|by left]. }
  apply (validated_mid m (RemoveCABundleFromCRD o) (KGet (GetObjNamespace (RemoveCABundleFromCRD o)) (GetObjName (RemoveCABundleFromCRD o))
    (blank (RemoveCABundleFromCRD o)), g) t1 _ _ (t5 ++ t6)) in Hv.
  apply decide_apply_slot in Hr as [[Ha Ht]|[[Ha|Ha] Ht]]; unfold slot_ok; rewrite Ha; split; try done; exact Hv.
Qed.

(** ** The applies *)

(** The object that a slot sends. *)
Definition sends (s : slot Obj) (e : event Obj) : Prop :=
  ∃ owner_ object p, toApply s = Some object ∧ applied_object s object = inr p ∧ e.1 = KApply owner_ p ∧
    r_err e.2 = None.

Lemma apply_call m (p : Obj) t (x : outcome (option kerr)) :
  runs (apply m p) t x → ∃ r, t = [(KApply (owner_Field (owner m)) p, r)] ∧ x = Done (r_err r).
Proof. intros (r & t' & -> & [-> ->]%runs_ok)%runs_call. eauto. Qed.

Lemma apply_slots_only m slots : only (λ c, is_apply c = true) (apply_slots m slots).
Proof.
  induction slots as [|s slots IH]; simpl; [apply only_ret|]. destruct (toApply s); [|done].
  apply only_cbind; [apply of_err_only|]. intros p. apply only_cbind.
  - unfold apply. apply only_cbind; [by apply only_request|]. intros; apply only_ret.
  - intros [e|]; [apply only_ret|done].
Qed.

Lemma apply_slots_spec m slots t :
  runs (apply_slots m slots) t (Done tt) →
  Forall2 sends (filter (λ s, is_Some (toApply s)) slots) t.
Proof.
  revert t. induction slots as [|s slots IH]; intros t Hr; cbn [apply_slots] in Hr.
  { apply runs_ok in Hr as [-> _]. constructor. }
  destruct (toApply s) as [object|] eqn:Es.
  - rewrite filter_cons_True by (rewrite Es; by eexists).
    apply runs_cbind_Done in Hr as (t1 & p & t2 & -> & [-> Hp]%runs_of_err & Hr).
    apply runs_cbind_Done in Hr as (t3 & err & t4 & -> & (r & -> & [= ->])%apply_call & Hr).
    destruct (r_err r) eqn:Er; [by apply runs_ret_inv in Hr as [_ ?]|].
    simpl. constructor; [|by apply IH]. by exists (owner_Field (owner m)), object, p.
  - rewrite filter_cons_False by (rewrite Es; by intros [? ?]). by apply IH.
Qed.

(** The apply of an object: of the object itself, or of the object after its
    drifted ignored fields were stripped or adopted. *)
Definition applies m o (c : kcall Obj) : Prop :=
  ∃ p, c = KApply (owner_Field (owner m)) p ∧
    (p = RemoveCABundleFromCRD o ∨ ∃ dr, applyDriftResult (RemoveCABundleFromCRD o) dr = inr p).

(** Every call of the phase is the apply of an object, also if it fails. *)
Lemma apply_slots_applies m slots t x (objects : list Obj) :
  runs (apply_slots m slots) t x →
  Forall (λ s, ∀ ob, toApply s = Some ob → ∃ o, o ∈ objects ∧ ob = RemoveCABundleFromCRD o) slots →
  Forall (λ ev, ∃ o, o ∈ objects ∧ applies m o ev.1) t.
Proof.
  intros Hr Hs. revert t Hr. induction Hs as [|s slots Hso Hs IH]; intros t Hr; cbn [apply_slots] in Hr.
  { by apply runs_ok in Hr as [-> _]. }
  destruct (toApply s) as [ob|]; [|by apply IH]. destruct (Hso ob eq_refl) as (o & Ho & ->).
  apply runs_cbind_inv in Hr as [(t1 & p & t2 & -> & [-> Hp]%runs_of_err & Hr)|(o' & Hr & _)].
  2:{ destruct (applied_object _ _); apply runs_ret_inv in Hr as [-> _]; constructor. }
  assert (applies m o (KApply (owner_Field (owner m)) p)) as Hap.
  { exists p. split; [done|]. unfold applied_object in Hp. destruct (_ && _); [right; eauto|left; by injection Hp]. }
  apply runs_cbind_inv in Hr as [(t3 & err & t4 & -> & (r & -> & [= ->])%apply_call & Hr)|(o' & (r & -> & ->)%apply_call & Ho')];
    [|by repeat constructor; exists o].
  constructor; [by exists o|]. destruct (r_err r); [apply runs_ret_inv in Hr as [-> _]; constructor|by apply IH].
Qed.

Lemma all_done_Forall2 {A} (outs : list (outcome A)) l :
  all_done outs = Some l → Forall2 (λ x a, x = Done a) outs l.
Proof.
  revert l. induction outs as [|[a| | |] outs IH]; intros l Hl; simpl in Hl; simplify_eq; [constructor|].
  destruct (all_done outs) as [l'|]; simplify_eq/=. constructor; [done|by apply IH].
Qed.

(** The events of one goroutine are events of the group. *)
Lemma par_not_apply fuel m opts c (objects : list Obj) tp outs :
  par (goroutine fuel m opts c <$> objects) tp outs → Forall not_apply tp.*2.*1.
Proof.
  intros Hp. apply Forall_forall. intros cl Hcl.
  apply list_elem_of_fmap in Hcl as ([c' r] & -> & Hcl). apply list_elem_of_fmap in Hcl as ([i e] & Hie & Hin).
  simpl in Hie. subst e. destruct (par_event _ _ _ _ _ Hp Hin) as [p Hi].
  destruct (par_project _ _ _ _ _ Hp Hi) as (a & _ & Hr).
  rewrite list_lookup_fmap in Hi. destruct (objects !! i) as [o|]; simplify_eq/=.
  apply goroutine_only in Hr. eapply Forall_forall in Hr; [done|]. unfold events_of.
  apply list_elem_of_fmap. exists (c', r). split; [done|]. apply list_elem_of_fmap. exists (i, (c', r)).
  split; [done|]. by apply list_elem_of_filter.
Qed.

(** The slots of the goroutines, object by object. *)
Lemma par_slots fuel m opts c (objects : list Obj) tp outs slots :
  par (goroutine fuel m opts c <$> objects) tp outs → all_done outs = Some slots →
  Forall2 (λ o s, ∃ i, slot_ok m o s (events_of i tp)) objects slots.
Proof.
  intros Hp Hd. apply all_done_Forall2 in Hd.
  assert (Forall2 (λ p x, ∀ s, x = Done s → ∃ i o, p = goroutine fuel m opts c o ∧ slot_ok m o s (events_of i tp))
            (goroutine fuel m opts c <$> objects) outs) as Hs.
  { eapply par_Forall2; [done|]. intros i p a Hi Hr s ->. rewrite list_lookup_fmap in Hi.
    destruct (objects !! i) as [o|]; simplify_eq/=. exists i, o. split; [done|]. by eapply goroutine_slot. }
  apply Forall2_same_length_lookup. split.
  { apply Forall2_length in Hd, Hs. rewrite length_fmap in Hs. congruence. }
  intros i o s Ho Hi. destruct (par_project _ _ _ i (goroutine fuel m opts c o) Hp) as (a & Ha & Hr).
  { by rewrite list_lookup_fmap, Ho. }
  eapply Forall2_lookup_lr in Hd; [|done|done]. subst a. exists i. by eapply goroutine_slot.
Qed.

Lemma slots_objects m (objects : list Obj) slots (tp : list (nat * event Obj)) :
  Forall2 (λ o s, ∃ i, slot_ok m o s (events_of i tp)) (sort_objects objects) slots →
  Forall (λ s, ∀ ob, toApply s = Some ob → ∃ o, o ∈ objects ∧ ob = RemoveCABundleFromCRD o) slots.
Proof.
  intros Hs. apply Forall_lookup. intros i s Hi ob Hob. destruct (Forall2_lookup_r _ _ _ _ _ Hs Hi) as (o & Ho & k & Hok).
  exists o. split.
  - rewrite <-(sort_Slice_perm obj_less objects). by eapply list_elem_of_lookup_2.
  - unfold slot_ok in Hok. destruct (cse_Action _); naive_solver.
Qed.

Lemma apply_phase_applies m slots t out (objects : list Obj) :
  runs (apply_phase m slots) t out →
  Forall (λ s, ∀ ob, toApply s = Some ob → ∃ o, o ∈ objects ∧ ob = RemoveCABundleFromCRD o) slots →
  Forall (λ ev, ∃ o, o ∈ objects ∧ applies m o ev.1) t.
Proof.
  intros Hr Hs. apply runs_cbind_inv in Hr as [(t1 & [] & t2 & -> & H1 & [-> _]%runs_ok)|(o' & H1 & _)].
  - rewrite app_nil_r. by eapply apply_slots_applies.
  - by eapply apply_slots_applies.
Qed.

Lemma ApplyAll_phases (fuel : nat) m (objects : list Obj) opts t (out : outcome ChangeSet) :
  ApplyAll fuel m objects opts t out →
  ∃ t1 t2, t = t1 ++ t2 ∧ Forall not_apply t1.*1 ∧ Forall (λ c, is_apply c = true) t2.*1 ∧
    Forall (λ ev, ∃ o, o ∈ objects ∧ applies m o ev.1) t2 ∧
    ((t2 ≠ [] ∨ ∃ cs, out = Done cs) → ∃ slots,
       Forall2 (λ o s, slot_ok m o s t1) (sort_objects objects) slots ∧
       (∀ cs, out = Done cs → cs = change <$> slots ∧
          Forall2 sends (filter (λ s, is_Some (toApply s)) slots) t2)).
Proof.
  unfold ApplyAll. destruct (compile_rules opts) as [e|c].
  { intros [-> ->]. exists [], []. split_and!; [done|constructor..|].
    by intros [?|[cs ?]]. }
  intros (tp & outs & t2 & Hp & -> & Hrun). exists tp.*2, t2.
  pose proof (par_not_apply _ _ _ _ _ _ _ Hp) as Hna. destruct (all_done outs) as [slots|] eqn:Ed.
  - pose proof (par_slots _ _ _ _ _ _ _ _ Hp Ed) as Hs.
    assert (Forall (λ c, is_apply c = true) t2.*1) as Ha.
    { eapply only_cbind; [apply apply_slots_only|intros; apply only_ret|done]. }
    split_and!; [done..| |].
    { apply (apply_phase_applies m slots t2 out); [done|]. by eapply slots_objects. }
    intros _. exists slots. split.
    + eapply Forall2_impl; [exact Hs|]. simpl. intros o s [i Hok]. unfold slot_ok in *.
      destruct (cse_Action (change s)); try done; destruct Hok; split; try done;
        (eapply validated_incl; [done|]); intros e; apply events_of_elem.
    + intros cs ->. apply runs_cbind_Done in Hrun as (t3 & [] & t4 & -> & H1 & [-> [= ->]]%runs_ok).
      split; [done|]. rewrite app_nil_r. by apply apply_slots_spec in H1.
  - destruct Hrun as [-> Hg]. split_and!; [done|done|constructor..|].
    intros [?|[cs ->]]; [done|]. by destruct Hg as ([] & _ & ?).
Qed.

(** C15. [ApplyAll] validates before it applies, in every interleaving of its
    goroutines and for any answers of the server: no apply comes before the
    end of the validation, the applies come after it one by one, and none is
    made unless every object passed its dry-run or is skipped.  If it succeeds,
    the change set has one entry for each object in the order of [less], and
    the applies are, in that order, those of the objects whose entries say
    created or configured. *)
Theorem ApplyAll_spec (fuel : nat) m (objects : list Obj) opts t (out : outcome ChangeSet) :
  ApplyAll fuel m objects opts t out →
  ∃ t1 t2, t = t1 ++ t2 ∧ Forall not_apply t1.*1 ∧ Forall (λ c, is_apply c = true) t2.*1 ∧
    ((t2 ≠ [] ∨ ∃ cs, out = Done cs) → ∃ slots,
       Forall2 (λ o s, slot_ok m o s t1) (sort_objects objects) slots ∧
       (∀ cs, out = Done cs → cs = change <$> slots ∧
          Forall2 sends (filter (λ s, is_Some (toApply s)) slots) t2)).
Proof.
  intros (t1 & t2 & -> & H1 & H2 & _ & H3)%ApplyAll_phases. by exists t1, t2.
Qed.

(** ** Stages *)

Context (AggregateStatus : list ResourceStatus → KStatus → KStatus).

(** Each object is in exactly one stage. *)
Lemma stages_partition opts (objects : list Obj) :
  objects ≡ₚ stage opts defStage objects ++ stage opts classStage objects ++
             stage opts customStage objects ++ stage opts resStage objects.
Proof.
  induction objects as [|o objects IH]; [done|]. unfold stage in *. rewrite !filter_cons.
  destruct (stage_of opts o) eqn:E; repeat (case_decide; try congruence); rewrite IH at 1; solve_Permutation.
Qed.

(** After the calls [t], the objects have been applied and waited for. *)
Definition ready fuel m opts (objects : list Obj) t : Prop :=
  objects = [] ∨ ∃ t0 t1 t2 t3 cs, t = t0 ++ t1 ++ t2 ++ t3 ∧ ApplyAll fuel m objects opts t1 (Done cs) ∧
    runs (WaitForSet AggregateStatus (ToObjMetadataSet cs) (wait_options opts)) t2 (Done tt).

(** After the calls [t], the objects have been applied. *)
Definition finished fuel m opts (objects : list Obj) t : Prop :=
  objects = [] ∨ ∃ t0 t1 t2 cs, t = t0 ++ t1 ++ t2 ∧ ApplyAll fuel m objects opts t1 (Done cs).

(** The result has an entry for the object, and the object was applied if the
    entry says so. *)
Definition reported m o (cs : ChangeSet) t : Prop :=
  ∃ s, slot_ok m o s t ∧ change s ∈ cs ∧ (is_Some (toApply s) → ∃ ev, ev ∈ t ∧ sends s ev).

Lemma slot_ok_incl m o s t1 t2 : slot_ok m o s t1 → (∀ e, e ∈ t1 → e ∈ t2) → slot_ok m o s t2.
Proof.
  unfold slot_ok. intros Hok Hi. destruct (cse_Action (change s)); try done;
    destruct Hok; (split; [done|]); by eapply validated_incl.
Qed.

Lemma reported_mono m o cs cs' t t' : cs ⊆ cs' → t ⊆ t' → reported m o cs t → reported m o cs' t'.
Proof.
  intros Hcs Ht (s & Hok & Hin & Hs). exists s. split_and!; [by eapply slot_ok_incl|by apply Hcs|].
  intros (ev & Hev & ?)%Hs. exists ev. auto.
Qed.

Lemma ApplyAll_reported fuel m (objects : list Obj) opts t cs :
  ApplyAll fuel m objects opts t (Done cs) → length cs = length objects ∧ ∀ o, o ∈ objects → reported m o cs t.
Proof.
  intros (t1 & t2 & -> & _ & _ & _ & Hs)%ApplyAll_phases. destruct Hs as (slots & Hs & Hd); [by right; eexists|].
  destruct (Hd cs eq_refl) as [-> Hsend]. split.
  { rewrite length_fmap, <-(Forall2_length _ _ _ Hs). apply Permutation_length, sort_Slice_perm. }
  intros o Ho. rewrite <-(sort_Slice_perm obj_less objects) in Ho. apply list_elem_of_lookup in Ho as [i Hi].
  destruct (Forall2_lookup_l _ _ _ _ _ Hs Hi) as (s & Hsi & Hok). apply list_elem_of_lookup_2 in Hsi. exists s. split_and!.
  - eapply slot_ok_incl; [done|]. set_solver.
  - by apply list_elem_of_fmap_2.
  - intros Hsome. assert (s ∈ filter (λ s, is_Some (toApply s)) slots) as Hf by by apply list_elem_of_filter.
    apply list_elem_of_lookup in Hf as [k Hk]. destruct (Forall2_lookup_l _ _ _ _ _ Hsend Hk) as (ev & Hev & Hse).
    exists ev. split; [|done]. apply elem_of_app. right. by eapply list_elem_of_lookup_2.
Qed.

Lemma ApplyAll_applies fuel m (objects : list Obj) opts t out ev :
  ApplyAll fuel m objects opts t out → ev ∈ t → is_apply ev.1 = true → ∃ o, o ∈ objects ∧ applies m o ev.1.
Proof.
  intros (x & y & -> & Hx & _ & Hy & _)%ApplyAll_phases [Hin|Hin]%elem_of_app Hev.
  - rewrite Forall_fmap, Forall_forall in Hx. apply Hx in Hin. cbn in Hin. congruence.
  - rewrite Forall_forall in Hy. by apply Hy.
Qed.

Lemma WaitForSet_not_apply set (wopts : WaitOptions) t (w : outcome unit) (ev : event Obj) :
  runs (WaitForSet AggregateStatus set wopts) t w → ev ∈ t → is_apply ev.1 = false.
Proof.
  intros Hw Hin. pose proof (WaitForSet_only AggregateStatus set wopts t w Hw) as Hno.
  rewrite Forall_fmap, Forall_forall in Hno. apply Hno in Hin. by destruct ev as [[] ?].
Qed.

(** What a stage does: its applies are those of its objects, and if it succeeds
    they are reported, and waited for if that is asked for. *)
Lemma run_stage_spec fuel m opts (objects : list Obj) always wait cs t res :
  run_stage AggregateStatus fuel m opts objects always wait cs t res →
  (∀ ev, ev ∈ t → is_apply ev.1 = true → ∃ o, o ∈ objects ∧ applies m o ev.1) ∧
  (res.2 = Done tt → ∃ cs', res.1 = cs ++ cs' ∧ length cs' = length objects ∧
     (∀ o, o ∈ objects → reported m o cs' t) ∧
     (if wait then ready fuel m opts objects t else finished fuel m opts objects t)).
Proof.
  unfold run_stage. destruct (_ && _) eqn:E.
  { apply andb_true_iff in E as [E%Nat.eqb_eq%length_zero_iff_nil _]. subst objects. intros [-> ->].
    split; [by intros ev ?%not_elem_of_nil|]. intros _. exists []. rewrite app_nil_r.
    split_and!; [done..|by intros o ?%not_elem_of_nil|]. destruct wait; by left. }
  intros (t1 & t2 & out & -> & Ha & Hr).
  assert ((∃ cs', out = Done cs') ∨ t2 = [] ∧ res.2 ≠ Done tt) as [[cs' ->]|[-> Hne]]
    by (destruct out; [by left; eexists|right; by destruct Hr as [-> ->]..]).
  2:{ rewrite app_nil_r. split; [|done]. intros ev. by apply (ApplyAll_applies _ _ _ _ _ _ _ Ha). }
  destruct (ApplyAll_reported _ _ _ _ _ _ Ha) as [Hl Hrep]. split.
  - intros ev [Hin|Hin]%elem_of_app Hev; [by eapply ApplyAll_applies|]. destruct wait; [|by destruct Hr as [-> _]; apply not_elem_of_nil in Hin].
    destruct Hr as (w & Hw & _). rewrite (WaitForSet_not_apply _ _ _ _ _ Hw Hin) in Hev. done.
  - intros Hd. exists cs'. assert (res.1 = cs ++ cs') as -> by (destruct wait; naive_solver). split_and!; [done..| |].
    + intros o Ho. eapply reported_mono; [..|by apply Hrep]; set_solver.
    + destruct wait; right.
      * destruct Hr as (w & Hw & ->). cbn in Hd. subst w. exists [], t1, t2, [], cs'. by rewrite app_nil_r.
      * by exists [], t1, t2, cs'.
Qed.

(** An event of two traces is one of the first or one of the second. *)
Lemma event_of_app {A} (a b pre post : list A) e :
  a ++ b = pre ++ e :: post → (e ∈ a) ∨ e ∈ b ∧ ∃ x, pre = a ++ x ∧ b = x ++ e :: post.
Proof.
  intros E. apply app_eq_app in E as [l [[-> E]|[-> ->]]].
  - destruct l as [|y l]; [right|left].
    + cbn in E. subst b. split; [set_solver|]. exists []. by rewrite !app_nil_r.
    + injection E as -> _. set_solver.
  - right. split; [set_solver|]. by exists l.
Qed.

Lemma ready_app fuel m opts objects t t' : ready fuel m opts objects t → ready fuel m opts objects (t ++ t').
Proof.
  intros [->|(t0 & t1 & t2 & t3 & cs & -> & ?)]; [by left|right]. exists t0, t1, t2, (t3 ++ t'), cs. by rewrite <-!app_assoc.
Qed.
Lemma ready_before fuel m opts objects t t' : ready fuel m opts objects t → ready fuel m opts objects (t' ++ t).
Proof.
  intros [->|(t0 & t1 & t2 & t3 & cs & -> & ?)]; [by left|right]. exists (t' ++ t0), t1, t2, t3, cs. by rewrite <-!app_assoc.
Qed.
Lemma finished_mid fuel m opts objects t t' t'' : finished fuel m opts objects t → finished fuel m opts objects (t' ++ t ++ t'').
Proof.
  intros [->|(t0 & t1 & t2 & cs & -> & ?)]; [by left|right]. exists (t' ++ t0), t1, (t2 ++ t''), cs. by rewrite <-!app_assoc.
Qed.

Lemma next_stage_inv b a t res :
  next_stage b a t res →
  ∃ t1 r t2, t = t1 ++ t2 ∧ a t1 r ∧
    (r.2 = Done tt ∧ b r.1 t2 res ∨ r.2 ≠ Done tt ∧ t2 = [] ∧ res = r).
Proof.
  intros (t1 & r & t2 & -> & Ha & Hb). exists t1, r, t2. destruct r.2 as [[]| | |] eqn:E;
    [split_and!; [done..|by left]|destruct Hb as [-> ->]; split_and!; [done..|by right]|
     destruct Hb as [-> ->]; split_and!; [done..|by right]|destruct Hb as [-> ->]; split_and!; [done..|by right]].
Qed.

(** What may be applied after the calls [pre]: the definitions are ready before
    any other object is applied, the classes before custom kinds and other
    objects, and the custom kinds are applied before the other objects. *)
Definition barrier fuel m opts (objects : list Obj) (s : Stage) pre : Prop :=
  let st s := stage opts s objects in
  (s ≠ defStage → ready fuel m opts (st defStage) pre) ∧
  (s = customStage ∨ s = resStage → ready fuel m opts (st classStage) pre) ∧
  (s = resStage → finished fuel m opts (st customStage) pre).

Lemma stage_elem opts s (objects : list Obj) o : o ∈ stage opts s objects ↔ stage_of opts o = s ∧ o ∈ objects.
Proof. unfold stage. by rewrite list_elem_of_filter. Qed.

(** A sequence of stages: the applies are those of the objects of the stages, an
    apply of a later stage comes after a success of the earlier ones. *)
Lemma staged_barriers fuel m (objects : list Obj) opts pre ev post res :
  ApplyAllStaged AggregateStatus fuel m objects opts (pre ++ ev :: post) res → is_apply ev.1 = true →
  ∃ o, o ∈ objects ∧ applies m o ev.1 ∧ barrier fuel m opts objects (stage_of opts o) pre.
Proof.
  intros Hr Hev.
  apply next_stage_inv in Hr as (t1 & r1 & tr & E & Hr & Hl).
  apply next_stage_inv in Hr as (t2 & r2 & tu & -> & Hr & Hl2).
  apply next_stage_inv in Hr as (td & r3 & tc & -> & Hd & Hl3).
  apply run_stage_spec in Hd as [Had Hd].
  assert (∀ s, (∃ o, o ∈ stage opts s objects ∧ applies m o ev.1) → barrier fuel m opts objects s pre →
    ∃ o, o ∈ objects ∧ applies m o ev.1 ∧ barrier fuel m opts objects (stage_of opts o) pre) as Hgoal.
  { intros s (o & [<- Ho]%stage_elem & Ha) Hb. by exists o. }
  symmetry in E. rewrite <-!app_assoc in E. apply event_of_app in E as [Hin|[Hin (x & -> & E)]].
  { apply (Hgoal defStage); [by apply Had|]. unfold barrier. split_and!; [by intros []|by intros [?|?]|done]. }
  destruct Hl3 as [[E3 Hc]|(N3 & -> & ->)].
  2:{ destruct Hl2 as [[E2 _]|(_ & -> & ->)]; [done|]. destruct Hl as [[E1 _]|(_ & -> & _)]; [done|]. by apply not_elem_of_nil in Hin. }
  destruct (Hd E3) as (_ & _ & _ & _ & Hrd). apply run_stage_spec in Hc as [Hac Hc].
  apply event_of_app in E as [Hin'|[Hin' (y & -> & E)]].
  { apply (Hgoal classStage); [by apply Hac|]. split_and!; [intros _; by apply ready_app|by intros [?|?]|done]. }
  destruct Hl2 as [[E2 Hu]|(N2 & -> & ->)].
  2:{ destruct Hl as [[E1 _]|(_ & -> & _)]; [done|]. by apply not_elem_of_nil in Hin'. }
  destruct (Hc E2) as (_ & _ & _ & _ & Hrc). apply run_stage_spec in Hu as [Hau Hu].
  apply event_of_app in E as [Hin''|[Hin'' (z & -> & E)]].
  { apply (Hgoal customStage); [by apply Hau|].
    split_and!; [intros _; by apply ready_app|intros _; by apply ready_before, ready_app|done]. }
  destruct Hl as [[E1 Hl]|(_ & -> & ->)]; [|by apply not_elem_of_nil in Hin''].
  destruct (Hu E1) as (_ & _ & _ & _ & Hru). apply run_stage_spec in Hl as [Hal _]. apply (Hgoal resStage); [by apply Hal|].
  split_and!; intros _; [by apply ready_app|by apply ready_before, ready_app|].
  rewrite app_assoc. by apply finished_mid.
Qed.

(** A success of all stages. *)
Lemma staged_reported fuel m (objects : list Obj) opts t cs :
  ApplyAllStaged AggregateStatus fuel m objects opts t (cs, Done tt) →
  length cs = length objects ∧ ∀ o, o ∈ objects → reported m o cs t.
Proof.
  intros Hr. apply next_stage_inv in Hr as (t1 & r1 & tr & -> & Hr & [[E1 Hl]|(? & _ & <-)]); [|done].
  apply next_stage_inv in Hr as (t2 & r2 & tu & -> & Hr & [[E2 Hu]|(? & _ & ->)]); [|done].
  apply next_stage_inv in Hr as (td & r3 & tc & -> & Hd & [[E3 Hc]|(? & _ & ->)]); [|done].
  apply run_stage_spec in Hd as [_ Hd], Hc as [_ Hc], Hu as [_ Hu], Hl as [_ Hl].
  destruct (Hd E3) as (cs3 & R3 & L3 & P3 & _), (Hc E2) as (cs2 & R2 & L2 & P2 & _),
    (Hu E1) as (cs1 & R1 & L1 & P1 & _), (Hl eq_refl) as (cs0 & R0 & L0 & P0 & _).
  rewrite R1, R2, R3 in R0. cbn in R0. subst cs. split.
  - rewrite (Permutation_length (stages_partition opts objects)), !length_app. lia.
  - intros o Ho. rewrite (stages_partition opts objects), !elem_of_app in Ho.
    destruct Ho as [Ho|[Ho|[Ho|Ho]]]; (eapply reported_mono; [..|first [exact (P3 o Ho)|exact (P2 o Ho)|exact (P1 o Ho)|exact (P0 o Ho)]]); set_solver.
Qed.

(** C36. The order of the stages of [ApplyAllStaged], in every run: every apply is
    that of one of the objects (or of what its drifted ignored fields leave of
    it), and by the time it is made, the definitions (CRDs, namespaces, cluster
    roles) have been applied and the wait for their change set has succeeded,
    unless the object is a definition itself; for custom kinds and other objects
    the same holds of the classes; and for other objects, the custom kinds have
    been applied.  Every object is in one stage.  If it succeeds, the change set
    has one entry for each object, and the object was applied if the entry says
    created or configured. *)
Theorem ApplyAllStaged_ordered (fuel : nat) m (objects : list Obj) opts t (res : ChangeSet * outcome unit) :
  ApplyAllStaged AggregateStatus fuel m objects opts t res →
  let st s := stage opts s objects in
  objects ≡ₚ st defStage ++ st classStage ++ st customStage ++ st resStage ∧
  (∀ pre ev post, t = pre ++ ev :: post → is_apply ev.1 = true →
     ∃ o, o ∈ objects ∧ applies m o ev.1 ∧ barrier fuel m opts objects (stage_of opts o) pre) ∧
  (∀ cs, res = (cs, Done tt) → length cs = length objects ∧ ∀ o, o ∈ objects → reported m o cs t).
Proof.
  intros Hr st. split_and!; [apply stages_partition| |].
  - intros pre ev post -> Hev. by eapply staged_barriers.
  - intros cs ->. by eapply staged_reported.
Qed.
End apply_all_spec.
