(* ===== verification/SsaDelete.v ===== *)
(** * Server-side apply: deletion and diff
    ([ssa/manager_delete.go], [ssa/manager_diff.go], [ssa/sanitize.go]) *)

From S2P Require Import Prelude GoStd Utf8 GoPath Json SsaObject SsaSort SsaPatch SsaIgnore SsaDrift.
From S2P Require Import Interaction SsaClient SsaWait SsaApply SsaApplyAll.
#[local] Open Scope comp_scope.

(** [src/ssa/manager_delete.go:34-51 DeleteOptions] *)
Record DeleteOptions := mkDelete { PropagationPolicy : bytes; Inclusions : StrMap; Exclusions : StrMap }.

(** [src/ssa/manager_delete.go:53-61 DefaultDeleteOptions] *)
Definition DefaultDeleteOptions : DeleteOptions := mkDelete (str "Background") ∅ ∅.

(** [src/ssa/manager_diff.go:34-54 DiffOptions] *)
Record DiffOptions := mkDiff {
  d_Exclusions : StrMap; d_IfNotPresentSelector : StrMap; d_Force : bool; d_ForceSelector : StrMap;
  d_DriftIgnoreRules : list IgnoreRule }.

(** [src/ssa/manager_diff.go:56-61 DefaultDiffOptions] *)
Definition DefaultDiffOptions : DiffOptions := mkDiff ∅ ∅ false ∅ [].

(** Selectors of labels, and the data of secrets. *)
Class DiffEnv (Obj : Type) := {
  (** [metav1.LabelSelectorAsSelector] of match labels *)
  MatchLabels : StrMap → kerr + (StrMap → bool);
  (** [unstructured.NestedMap] at [data] *)
  NestedData : Obj → kerr + option vmap;
  (** [unstructured.SetNestedMap] at [data] *)
  SetNestedData : Obj → vmap → kerr + Obj;
  without_managedFields : Obj → Obj;
  iter_vmap : vmap → list bytes }.

Section delete.
Context {Obj : Type} `{Kube : KubeObject Obj} `{Cont : Content Obj} `{Uni : Unicode} `{Fold : CaseFold}
  `{Mat : Matchers} `{Env : !ApplyEnv Obj} `{CA : CABundles Obj} `{Srt : SortFunc} `{DE : DiffEnv Obj}.

(** [src/ssa/manager_delete.go:63-97 Delete] *)
Definition Delete (object : Obj) (opts : DeleteOptions) : comp Obj (ChangeSetEntry * option kerr) :=
  g <- get_existing object ;;
  match r_err g with
  | Some e =>
      if negb (IsNotFound e)
      then ok (changeSetEntry object UnknownAction, Some (wrap (FmtUnstructured object ++ str " query failed") e))
      else ok (changeSetEntry object DeletedAction, None)
  | None =>
      let existingObject := r_obj g in
      match MatchLabels (Inclusions opts) with
      | inl e => ok (changeSetEntry object UnknownAction,
                     Some (wrap (FmtUnstructured object ++ str " label selector failed") e))
      | inr sel =>
          if negb (sel (GetLabels existingObject)) then ok (changeSetEntry object SkippedAction, None)
          else if AnyInMetadata existingObject (Exclusions opts) then ok (changeSetEntry object SkippedAction, None)
          else
            r <- request (KDelete existingObject (PropagationPolicy opts)) ;;
            match r_err r with
            | Some e => ok (changeSetEntry object UnknownAction,
                            Some (wrap (FmtUnstructured object ++ str " delete failed") e))
            | None => ok (changeSetEntry object DeletedAction, None)
            end
      end
  end.

(** The loop with its variables [changeSet] and [errors].
    [src/ssa/manager_delete.go:104-113 DeleteAll] *)
Fixpoint delete_loop (objects : list Obj) (opts : DeleteOptions) (changeSet : ChangeSet) (errors : bytes)
    : comp Obj (ChangeSet * bytes) :=
  match objects with
  | [] => ok (changeSet, errors)
  | object :: objects =>
      x <- Delete object opts ;;
      let errors := match x.2 with Some e => errors ++ err_msg e ++ str ";" | None => errors end in
      delete_loop objects opts (cs_Add changeSet x.1) errors
  end.

(** [src/ssa/manager_delete.go:99-120 DeleteAll] *)
Definition DeleteAll (objects : list Obj) (opts : DeleteOptions) : comp Obj (ChangeSet * option kerr) :=
  x <- delete_loop (sort_objects_reverse objects) opts NewChangeSet [] ;;
  if negb (beq x.2 []) then
    ok (x.1, Some (mkErr false false false [] None (str "delete failed, errors: " ++ x.2)))
  else ok (x.1, None).

(** ** Diff *)

(** [src/ssa/sanitize.go:78-92 getUnstructuredData] *)
Definition getUnstructuredData (u : Obj) : kerr + option vmap := NestedData u.

Definition set_data (o : Obj) (d : option vmap) : kerr + Obj :=
  match d with None => inr o | Some d => SetNestedData o d end.

(** [src/ssa/sanitize.go:31-76 SanitizeUnstructuredData] *)
Definition sanitize_objects (old new : Obj) : comp Obj (Obj * Obj) :=
  match getUnstructuredData old with
  | inl e => fail (wrap (str "unable to get data from old object") e)
  | inr oldData =>
      match getUnstructuredData new with
      | inl e => fail (wrap (str "unable to get data from new object") e)
      | inr newData =>
          x <- of_res (SanitizeUnstructuredData (iter_vmap (default ∅ oldData)) (iter_vmap (default ∅ newData))
                         oldData newData) ;;
          match set_data old x.1 with
          | inl e => fail (wrap (str "masking data in old object failed") e)
          | inr old =>
              match set_data new x.2 with
              | inl e => fail (wrap (str "masking data in new object failed") e)
              | inr new => ok (old, new)
              end
          end
      end
  end.

(** [src/ssa/manager_diff.go:176-193 shouldSkipDiff] *)
Definition shouldSkipDiff (desiredObject existingObject : Obj) (opts : DiffOptions) : bool :=
  if AnyInMetadata desiredObject (d_Exclusions opts) || AnyInMetadata existingObject (d_Exclusions opts) then true
  else if negb (beq (GetUID existingObject) []) && AnyInMetadata desiredObject (d_IfNotPresentSelector opts)
  then true else false.

Definition diff_rules (opts : DiffOptions) : kerr + compiled_rules :=
  if 0 <? length (d_DriftIgnoreRules opts) then
    match CompileIgnoreRules (d_DriftIgnoreRules opts) with inl e => inl e | inr c => inr (Some (iter_rules c)) end
  else inr None.

(** The objects that are returned when there is drift.
    [src/ssa/manager_diff.go:111-135 Diff] *)
Definition diff_objects (existingObject dryRunObject : Obj) (compiled : compiled_rules) : comp Obj (Obj * Obj) :=
  let dryRunObject := without_managedFields dryRunObject in
  let existingObject := without_managedFields existingObject in
  x <- match compiled with
    | None => ok (existingObject, dryRunObject)
    | Some rules =>
        existingObject <- of_err (removeIgnoredFields json_patch dryRunObject existingObject rules) ;;
        dryRunObject <- of_err (removeIgnoredFields json_patch dryRunObject dryRunObject rules) ;;
        ok (existingObject, dryRunObject)
    end ;;
  if IsSecret x.2 then sanitize_objects x.1 x.2 else ok x.

(** [src/ssa/manager_diff.go:63-138 Diff] *)
Definition Diff (m : ResourceManager) (object : Obj) (opts : DiffOptions)
    : comp Obj (ChangeSetEntry * option (Obj * Obj)) :=
  let object := RemoveCABundleFromCRD object in
  g <- get_existing object ;;
  let existingObject := r_obj g in
  if shouldSkipDiff object existingObject opts then ok (changeSetEntry existingObject SkippedAction, None)
  else
    d <- dryRunApply m object ;;
    let dryRunObject := r_obj d in
    match r_err d with
    | Some e =>
        if shouldForceApply object existingObject (d_Force opts) (d_ForceSelector opts) e
        then ok (changeSetEntry object CreatedAction, None)
        else fail (NewDryRunErr e dryRunObject)
    | None =>
        if beq (GetResourceVersion dryRunObject) [] then ok (changeSetEntry dryRunObject CreatedAction, None)
        else
          compiled <- of_err (diff_rules opts) ;;
          drifted <- of_err (hasDriftedWithIgnore NormalizeDryRun existingObject dryRunObject compiled) ;;
          if drifted : bool then
            x <- diff_objects existingObject dryRunObject compiled ;;
            ok (changeSetEntry object ConfiguredAction, Some x)
          else ok (changeSetEntry dryRunObject UnchangedAction, None)
    end.

(** ** What deletion touches *)

(** The calls of one deletion, by its entry. *)
Definition delete_spec (opts : DeleteOptions) (o : Obj) (x : ChangeSetEntry * option kerr)
    (t : list (event Obj)) : Prop :=
  ∃ g, head t = Some (KGet (GetObjNamespace o) (GetObjName o) (blank o), g) ∧
    match cse_Action x.1 with
    | DeletedAction => x.2 = None ∧
        ((∃ e, r_err g = Some e ∧ IsNotFound e = true ∧ writes t = []) ∨
         (∃ r, t = [(KGet (GetObjNamespace o) (GetObjName o) (blank o), g);
                    (KDelete (r_obj g) (PropagationPolicy opts), r)] ∧ r_err r = None ∧
               AnyInMetadata (r_obj g) (Exclusions opts) = false))
    | SkippedAction => x.2 = None ∧ writes t = []
    | UnknownAction => is_Some x.2
    | _ => False
    end.

Lemma Delete_spec o opts t x : runs (Delete o opts) t (Done x) → delete_spec opts o x t.
Proof.
  unfold Delete. intros Hr. apply runs_call in Hr as (g & t' & -> & Hr). exists g. split; [done|].
  destruct (r_err g) as [e|] eqn:Eg.
  { destruct (IsNotFound e) eqn:En; apply runs_ok in Hr as [-> [= ->]]; simpl; eauto 10. }
  destruct (MatchLabels (Inclusions opts)) as [e|sel]; [apply runs_ok in Hr as [-> [= ->]]; simpl; eauto|].
  destruct (negb (sel _)); [by apply runs_ok in Hr as [-> [= ->]]|].
  destruct (AnyInMetadata (r_obj g) (Exclusions opts)); [by apply runs_ok in Hr as [-> [= ->]]|].
  apply runs_call in Hr as (r & t'' & -> & Hr). destruct (r_err r) eqn:Er; apply runs_ok in Hr as [-> [= ->]]; simpl.
  - by eexists.
  - split; [done|]. right. by exists r.
Qed.

Lemma Delete_done o opts t out : runs (Delete o opts) t out → ∃ x, out = Done x.
Proof.
  unfold Delete. intros Hr. apply runs_call in Hr as (g & t' & -> & Hr).
  repeat match goal with
    | H : runs (match ?m with _ => _ end) _ _ |- _ => destruct m
    | H : runs (cbind _ _) _ _ |- _ => apply runs_call in H as (r & t1 & -> & H)
    end; apply runs_ok in Hr as [_ ->]; by eexists.
Qed.

Lemma delete_loop_spec objects opts cs errs t out :
  runs (delete_loop objects opts cs errs) t out →
  ∃ xs ts, out = Done (cs ++ xs.*1, foldl (λ acc x, match x.2 with Some e => acc ++ err_msg e ++ str ";" | None => acc end) errs xs) ∧
    t = concat ts ∧ Forall3 (delete_spec opts) objects xs ts.
Proof.
  revert cs errs t. induction objects as [|o objects IH]; intros cs errs t Hr; cbn [delete_loop] in Hr.
  { apply runs_ok in Hr as [-> ->]. exists [], []. rewrite app_nil_r. split_and!; [done..|constructor]. }
  apply runs_cbind_inv in Hr as [(t1 & x & t2 & -> & H1 & H2)|(o' & H1 & Ho)].
  - apply IH in H2 as (xs & ts & -> & -> & Hs). exists (x :: xs), (t1 :: ts). unfold cs_Add.
    rewrite <-app_assoc. split_and!; [done..|]. constructor; [by apply Delete_spec|done].
  - apply Delete_done in H1 as [x ->]. done.
Qed.

Lemma errors_empty (xs : list (ChangeSetEntry * option kerr)) acc :
  foldl (λ acc x, match x.2 with Some e => acc ++ err_msg e ++ str ";" | None => acc end) acc xs = [] ↔
  acc = [] ∧ Forall (λ x, x.2 = None) xs.
Proof.
  revert acc. induction xs as [|[c [e|]] xs IH]; intros acc; simpl.
  - split; [intros ->|intros [-> _]]; auto.
  - rewrite IH. split; [intros [E _]; by destruct acc, (err_msg e)|]. intros [_ Hf]. by inversion Hf.
  - rewrite IH. split; intros [? Hf]; split; try done; [by constructor|by inversion Hf].
Qed.

(** [DeleteAll] goes through all objects in the reverse order of [less],
    whatever fails: it always returns a change set with one entry for each
    object, an object is deleted only if it was read, matches the inclusions
    and no exclusion, and it returns an error exactly when the query or the
    deletion of some object failed. *)
Theorem DeleteAll_spec (objects : list Obj) (opts : DeleteOptions) (t : list (event Obj))
    (out : outcome (ChangeSet * option kerr)) :
  runs (DeleteAll objects opts) t out →
  ∃ xs ts e, out = Done (xs.*1, e) ∧ t = concat ts ∧
    Forall3 (delete_spec opts) (sort_objects_reverse objects) xs ts ∧
    (e = None ↔ Forall (λ x, x.2 = None) xs).
Proof.
  unfold DeleteAll. intros Hr.
  apply runs_cbind_inv in Hr as [(t1 & x & t2 & -> & H1 & H2)|(o' & H1 & Ho)]; last first.
  { apply delete_loop_spec in H1 as (xs & ts & -> & _). done. }
  apply delete_loop_spec in H1 as (xs & ts & [= ->] & -> & Hs). simpl in H2.
  pose proof (errors_empty xs []) as He. exists xs, ts. unfold beq in H2. case_bool_decide as Hb; simpl in H2;
    apply runs_ok in H2 as [-> ->]; eexists; rewrite app_nil_r; split_and!; try done.
  - split; [|done]. intros _. by apply He.
  - split; [done|]. intros Hf. destruct Hb. by apply He.
Qed.

(** [Diff] never writes to the cluster. *)
Theorem Diff_only_reads (m : ResourceManager) (o : Obj) (opts : DiffOptions) (t : list (event Obj))
    (out : outcome (ChangeSetEntry * option (Obj * Obj))) :
  runs (Diff m o opts) t out → writes t = [].
Proof.
  intros Hr. apply no_writes. revert t out Hr.
  change (only (λ c, is_write c = false) (Diff m o opts)).
  unfold Diff, get_existing, dryRunApply, diff_objects, sanitize_objects.
  repeat first [apply only_cbind; [|intros ?] | apply only_ret | by apply only_request | apply of_err_only
    | apply of_res_only | case_match].
Qed.
End delete.
