(* ===== verification/SsaJsondiff.v ===== *)
(** * Server-side apply: JSON diffs
    ([ssa/jsondiff/unstructured.go], [options.go], [diff.go])

    [Unstructured] compares an object with a dry-run of it and returns a JSON
    patch; [UnstructuredList] does so for a list, with ignore rules. *)

From S2P Require Import Prelude GoStd Utf8 GoPath Json SsaObject SsaSort SsaPatch SsaIgnore SsaNormalize SsaDrift.
From S2P Require Import Interaction SsaClient SsaWait SsaApply SsaApplyAll.
#[local] Open Scope comp_scope.

(** ** Options ([options.go]) *)

(** [src/ssa/jsondiff/options.go:31-45 ResourceOptions] *)
Record ResourceOptions := mkRO {
  ro_FieldManager : bytes; ro_IgnorePaths : list bytes; ro_ExclusionSelector : StrMap;
  ro_MaskSecrets : bool; ro_Rationalize : bool }.

(** [src/ssa/jsondiff/options.go:56-65 ListOptions] *)
Record ListOptions := mkLO { lo_IgnoreRules : list IgnoreRule; lo_Graceful : bool }.

(** The options of both interfaces.
    [src/ssa/jsondiff/options.go:76-154 ResourceOption] *)
Inductive DiffOption :=
  | FieldOwner (f : bytes)
  | ExclusionSelectorOption (e : StrMap)
  | IgnorePaths (i : list bytes)
  | IgnoreRules (i : list IgnoreRule)
  | MaskSecrets (m : bool)
  | Rationalize (r : bool)
  | Graceful (f : bool).

(** [IgnoreRules] and [Graceful] are not resource options.
    [src/ssa/jsondiff/options.go:79-139 ApplyToResource] *)
Definition ApplyToResource (o : ResourceOptions) (opt : DiffOption) : ResourceOptions :=
  match opt with
  | FieldOwner f => mkRO f (ro_IgnorePaths o) (ro_ExclusionSelector o) (ro_MaskSecrets o) (ro_Rationalize o)
  | ExclusionSelectorOption e => mkRO (ro_FieldManager o) (ro_IgnorePaths o) e (ro_MaskSecrets o) (ro_Rationalize o)
  | IgnorePaths i => mkRO (ro_FieldManager o) i (ro_ExclusionSelector o) (ro_MaskSecrets o) (ro_Rationalize o)
  | MaskSecrets m => mkRO (ro_FieldManager o) (ro_IgnorePaths o) (ro_ExclusionSelector o) m (ro_Rationalize o)
  | Rationalize r => mkRO (ro_FieldManager o) (ro_IgnorePaths o) (ro_ExclusionSelector o) (ro_MaskSecrets o) r
  | IgnoreRules _ | Graceful _ => o
  end.

Definition is_resource_option (opt : DiffOption) : bool :=
  match opt with IgnoreRules _ | Graceful _ => false | _ => true end.

(** [IgnorePaths] is not a list option.
    [src/ssa/jsondiff/options.go:84-154 ApplyToList] *)
Definition ApplyToList (o : ListOptions) (opt : DiffOption) : ListOptions :=
  match opt with
  | IgnoreRules i => mkLO i (lo_Graceful o)
  | Graceful f => mkLO (lo_IgnoreRules o) f
  | _ => o
  end.

(** [src/ssa/jsondiff/options.go:47-54 ResourceOptions.ApplyOptions] *)
Definition resource_options (opts : list DiffOption) : ResourceOptions :=
  foldl ApplyToResource (mkRO [] [] ∅ false false) opts.
(** [src/ssa/jsondiff/options.go:67-74 ListOptions.ApplyOptions] *)
Definition list_options (opts : list DiffOption) : ListOptions := foldl ApplyToList (mkLO [] false) opts.

(** ** Diffs ([diff.go]) *)

(** [src/ssa/jsondiff/diff.go:25-42 DiffType] *)
Inductive DiffType := DiffTypeCreate | DiffTypeUpdate | DiffTypeExclude | DiffTypeNone.
#[global] Instance DiffType_eq_dec : EqDecision DiffType.
Proof. solve_decision. Defined.

(** [src/ssa/jsondiff/diff.go:44-62 Diff] *)
Record JDiff (Obj : Type) := mkJDiff {
  jd_Type : DiffType; jd_DesiredObject : Obj; jd_ClusterObject : option Obj; jd_Patch : list Operation }.
Arguments mkJDiff {Obj}.
Arguments jd_Type {Obj}.
Arguments jd_DesiredObject {Obj}.
Arguments jd_ClusterObject {Obj}.
Arguments jd_Patch {Obj}.

(** [src/ssa/jsondiff/diff.go:80-88 NewDiffForUnstructured] *)
Definition NewDiffForUnstructured {Obj} (desired : Obj) (cluster : option Obj) (t : DiffType)
    (p : list Operation) : JDiff Obj := mkJDiff t desired cluster p.

(** [src/ssa/jsondiff/diff.go:93-101 HasType] *)
Definition HasType {Obj} (ds : list (JDiff Obj)) (t : DiffType) : bool :=
  existsb (λ d, bool_decide (jd_Type d = t)) ds.
(** [src/ssa/jsondiff/diff.go:103-112 HasChanges] *)
Definition HasChanges {Obj} (ds : list (JDiff Obj)) : bool :=
  existsb (λ d, bool_decide (jd_Type d = DiffTypeCreate) || bool_decide (jd_Type d = DiffTypeUpdate)) ds.

(** The library that computes patches, on (parts of) objects. *)
Class JsonDiff (Obj : Type) := {
  (** [jsondiff.Compare] of the name, annotations and labels of two objects *)
  Compare_metadata : bool → Obj → Obj → kerr + list Operation;
  (** [jsondiff.Compare] of two objects *)
  Compare_objects : bool → Obj → Obj → kerr + list Operation;
  (** the orders in which the maps of the operations are iterated *)
  iter_ops : nat → list bytes * list bytes }.

Section jsondiff.
Context {Obj : Type} `{Kube : KubeObject Obj} `{Cont : Content Obj} `{Uni : Unicode} `{Fold : CaseFold}
  `{Mat : Matchers} `{Env : !ApplyEnv Obj} `{JD : JsonDiff Obj} `{Sch : Scheme Obj}.

Definition kept_operation (op : Operation) : bool :=
  beq (op_Type op) (str "replace") || beq (op_Type op) (str "add").

(** [src/ssa/jsondiff/unstructured.go:220-242 diffUnstructuredMetadata] *)
Definition diffUnstructuredMetadata (rationalize : bool) (x y : Obj) : kerr + list Operation :=
  match Compare_metadata rationalize x y with
  | inl e => inl (wrap (str "unable to compare annotations and labels of objects") e)
  | inr patch => inr (filter (λ op, kept_operation op = true) patch)
  end.

(** [src/ssa/jsondiff/unstructured.go:244-253 DiffUnstructured] *)
Definition DiffUnstructured (rationalize : bool) (x y : Obj) : kerr + list Operation :=
  match Compare_objects rationalize (without_metadata_status x) (without_metadata_status y) with
  | inl e => inl (wrap (str "unable to compare objects") e)
  | inr patch => inr patch
  end.

(** The ignored pointers are removed from both objects.
    [src/ssa/jsondiff/unstructured.go:176-186 Unstructured] *)
Definition remove_ignored (paths : list bytes) (dryRunObj filteredObj : Obj) : kerr + (Obj * Obj) :=
  if 0 <? length paths then
    let patch := GenerateRemovePatch paths in
    match ApplyPatchToUnstructured json_patch dryRunObj patch with
    | inl e => inl e
    | inr dryRunObj =>
        match ApplyPatchToUnstructured json_patch filteredObj patch with
        | inl e => inl e
        | inr filteredObj => inr (dryRunObj, filteredObj)
        end
    end
  else inr (dryRunObj, filteredObj).

(** [src/ssa/jsondiff/unstructured.go:193-217 Unstructured] *)
Definition diff_patch (o : ResourceOptions) (obj existingObj filteredObj dryRunObj : Obj) : comp Obj (JDiff Obj) :=
  metaPatch <- of_err (diffUnstructuredMetadata (ro_Rationalize o) filteredObj dryRunObj) ;;
  resPatch <- of_err (DiffUnstructured (ro_Rationalize o) filteredObj dryRunObj) ;;
  let patch := metaPatch ++ resPatch in
  if length patch =? 0 then ok (NewDiffForUnstructured obj (Some existingObj) DiffTypeNone [])
  else
    patch <- (if ro_MaskSecrets o && (beq (GetGroup obj) [] && beq (GetKind obj) (str "Secret"))
              then of_res (MaskSecretPatchData iter_ops 0 patch) else ok patch) ;;
    ok (NewDiffForUnstructured obj (Some existingObj) DiffTypeUpdate patch).

(** [src/ssa/jsondiff/unstructured.go:116-218 Unstructured] *)
Definition Unstructured (obj : Obj) (opts : list DiffOption) : comp Obj (JDiff Obj) :=
  let o := resource_options opts in
  if AnyInMetadata obj (ro_ExclusionSelector o) then ok (NewDiffForUnstructured obj None DiffTypeExclude [])
  else if existsb (λ p, beq p []) (ro_IgnorePaths o)
  then ok (NewDiffForUnstructured obj None DiffTypeExclude [])
  else
    g <- get_existing obj ;;
    let existingObj := r_obj g in
    if match r_err g with Some e => negb (IsNotFound e) | None => false end
    then fail (default (plain_error "") (r_err g))
    else if AnyInMetadata existingObj (ro_ExclusionSelector o)
    then ok (NewDiffForUnstructured obj None DiffTypeExclude [])
    else
      d <- request (KDryRun (ro_FieldManager o) obj) ;;
      let dryRunObj := r_obj d in
      match r_err d with
      | Some e => fail (NewDryRunErr e obj)
      | None =>
          if beq (GetResourceVersion dryRunObj) []
          then ok (NewDiffForUnstructured obj None DiffTypeCreate [])
          else
            n <- of_res (DryRunUnstructured dryRunObj) ;;
            dryRunObj <- of_err n ;;
            x <- of_err (remove_ignored (ro_IgnorePaths o) dryRunObj existingObj) ;;
            diff_patch o obj existingObj x.2 x.1
      end.

(** The paths of the rules that match are passed as the last option.
    [src/ssa/jsondiff/unstructured.go:95-112 UnstructuredList] *)
Fixpoint list_loop (objs : list Obj) (sm : list (option SelectorRegex * list bytes)) (resOpts : list DiffOption)
    (graceful : bool) (set : list (JDiff Obj)) (errs : list kerr) : comp Obj (list (JDiff Obj) * list kerr) :=
  match objs with
  | [] => ok (set, errs)
  | obj :: objs =>
      r <- catch (Unstructured obj (resOpts ++ [IgnorePaths (ignore_paths sm obj)])) ;;
      match r with
      | inl e => if graceful then list_loop objs sm resOpts graceful set (errs ++ [e]) else fail e
      | inr diff => list_loop objs sm resOpts graceful (set ++ [diff]) errs
      end
  end.

(** The diffs and the errors that were collected.
    [src/ssa/jsondiff/unstructured.go:64-114 UnstructuredList] *)
Definition UnstructuredList (objs : list Obj) (opts : list DiffOption) : comp Obj (list (JDiff Obj) * list kerr) :=
  let o := list_options opts in
  sm <- of_err (CompileIgnoreRules (lo_IgnoreRules o)) ;;
  list_loop objs (iter_rules sm) (filter (λ opt, is_resource_option opt = true) opts) (lo_Graceful o) [] [].

(** ** What the diffs say *)

Lemma Unstructured_only obj opts : only (λ c, is_write c = false) (Unstructured obj opts).
Proof.
  unfold Unstructured, diff_patch, get_existing.
  destruct (AnyInMetadata obj _); [apply only_ret|]. destruct (existsb _ _); [apply only_ret|].
  apply only_cbind; [by apply only_request|]. intros g.
  destruct (match r_err g with Some _ => _ | None => _ end); [apply only_ret|].
  destruct (AnyInMetadata (r_obj g) _); [apply only_ret|].
  apply only_cbind; [by apply only_request|]. intros d.
  destruct (r_err d); [apply only_ret|]. destruct (beq _ []); [apply only_ret|].
  repeat first [apply only_cbind; [|intros ?] | apply only_ret | apply of_err_only | apply of_res_only].
  destruct (length _ =? 0); [apply only_ret|]. apply only_cbind; [|intros; apply only_ret].
  destruct (_ && _); [apply of_res_only|apply only_ret].
Qed.

Lemma Unstructured_desired obj opts t d : runs (Unstructured obj opts) t (Done d) → jd_DesiredObject d = obj.
Proof.
  unfold Unstructured, diff_patch, get_existing.
  destruct (AnyInMetadata obj _); [by intros [_ [= ->]]%runs_ok|].
  destruct (existsb _ _); [by intros [_ [= ->]]%runs_ok|].
  intros Hr. apply runs_call in Hr as (g & t' & -> & Hr).
  destruct (match r_err g with Some _ => _ | None => _ end); [by apply runs_ret_inv in Hr as [_ ?]|].
  destruct (AnyInMetadata (r_obj g) _); [by apply runs_ok in Hr as [_ [= ->]]|].
  apply runs_call in Hr as (dr & t'' & -> & Hr).
  destruct (r_err dr); [by apply runs_ret_inv in Hr as [_ ?]|].
  destruct (beq _ []); [by apply runs_ok in Hr as [_ [= ->]]|].
  do 5 (apply runs_cbind_Done in Hr as (? & ? & ? & _ & _ & Hr)).
  destruct (length _ =? 0); [by apply runs_ok in Hr as [_ [= ->]]|].
  apply runs_cbind_Done in Hr as (? & ? & ? & _ & _ & Hr). by apply runs_ok in Hr as [_ [= ->]].
Qed.

Lemma list_loop_spec objs sm ro graceful set errs t set' errs' :
  runs (list_loop objs sm ro graceful set errs) t (Done (set', errs')) →
  ∃ ds es, set' = set ++ ds ∧ errs' = errs ++ es ∧ length ds + length es = length objs ∧
    (graceful = false → es = [] ∧ jd_DesiredObject <$> ds = objs) ∧ writes t = [].
Proof.
  revert set errs t. induction objs as [|obj objs IH]; intros set errs t Hr; cbn [list_loop] in Hr.
  { apply runs_ok in Hr as [-> [= -> ->]]. exists [], []. by rewrite !app_nil_r. }
  apply runs_cbind_Done in Hr as (t1 & r & t2 & -> & H1 & H2).
  apply runs_catch in H1 as (o & H1 & Ho). rewrite writes_app.
  pose proof (no_writes _ (Unstructured_only _ _ _ _ H1)) as ->.
  destruct o as [d|e| |]; simplify_eq/=.
  - apply IH in H2 as (ds & es & -> & -> & Hl & Hg & Hw). exists (d :: ds), es.
    rewrite <-app_assoc. split_and!; [done|done|simpl; lia| |done].
    intros [-> Hds]%Hg. split; [done|]. rewrite fmap_cons, Hds. f_equal. by eapply Unstructured_desired.
  - destruct graceful; [|by apply runs_ret_inv in H2 as [_ ?]].
    apply IH in H2 as (ds & es & -> & -> & Hl & Hg & Hw). exists ds, (e :: es).
    rewrite <-app_assoc. split_and!; [done|done|simpl; lia|done|done].
Qed.

(** The diff of a list never writes to the cluster and loses no object:
    when it returns, the diffs and the collected errors together are as many
    as the objects, and without [Graceful] there is no error and the diffs are
    those of the objects in their order. *)
Theorem UnstructuredList_complete (objs : list Obj) (opts : list DiffOption) (t : list (event Obj))
    (ds : list (JDiff Obj)) (es : list kerr) :
  runs (UnstructuredList objs opts) t (Done (ds, es)) →
  length ds + length es = length objs ∧ writes t = [] ∧
  (lo_Graceful (list_options opts) = false → es = [] ∧ jd_DesiredObject <$> ds = objs).
Proof.
  unfold UnstructuredList. intros Hr.
  apply runs_cbind_Done in Hr as (t1 & sm & t2 & -> & [-> _]%runs_of_err & Hr).
  apply list_loop_spec in Hr as (ds' & es' & -> & -> & Hl & Hg & Hw). done.
Qed.

(** An object that is excluded, by its metadata or by a rule for the whole
    document, is never sent to the server. *)
Theorem Unstructured_excluded (obj : Obj) (opts : list DiffOption) (t : list (event Obj))
    (out : outcome (JDiff Obj)) :
  AnyInMetadata obj (ro_ExclusionSelector (resource_options opts)) = true ∨
    [] ∈ ro_IgnorePaths (resource_options opts) →
  runs (Unstructured obj opts) t out →
  t = [] ∧ out = Done (mkJDiff DiffTypeExclude obj None []).
Proof.
  unfold Unstructured. intros Hx Hr. destruct (AnyInMetadata obj _); [by apply runs_ok in Hr as [-> ->]|].
  destruct Hx as [?|Hx]; [done|].
  assert (existsb (λ p, beq p []) (ro_IgnorePaths (resource_options opts)) = true) as E.
  { apply existsb_exists. exists []. split; [by apply list_elem_of_In|]. by apply bool_decide_eq_true. }
  rewrite E in Hr. by apply runs_ok in Hr as [-> ->].
Qed.
End jsondiff.
