(* ===== verification/SsaDemo.v ===== *)
(** * Server-side apply: concrete runs

    A server that holds one object and accepts everything, and the theorems on
    the manager at its runs. *)

From S2P Require Import Prelude GoStd Utf8 GoPath Json SsaObject SsaSort SsaPatch SsaIgnore SsaDrift.
From S2P Require Import Interaction SsaClient SsaWait SsaApply SsaApplyAll SsaDelete.

#[local] Instance demo_unicode : Unicode := ascii_only.
#[local] Instance demo_fold : CaseFold := {| foldU := Z.eqb |}.

#[local] Instance demo_env : ApplyEnv DemoObj := {|
  blank := λ o, mkDemo (demo_kind o) (demo_api o) [] [] [] [] ∅ ∅ ∅ [];
  FSet := bytes; FromJSON := demo_FromJSON; ToJSON := demo_ToJSON; FUnion := app;
  iter_keys := elements; iter_rules := λ _ l, l; NormalizeDryRun := inr |}.

#[local] Instance demo_ca : CABundles DemoObj :=
  {| get_caBundle := λ _, None; remove_caBundle := λ o, o; TLSConfigFor_ok := λ _, true |}.

#[local] Instance demo_diff : DiffEnv DemoObj := {|
  MatchLabels := λ l, inr (λ m, bool_decide (l ⊆ m)); NestedData := λ o, inr None;
  SetNestedData := λ o _, inr o; without_managedFields := λ o, o; iter_vmap := λ m, (map_to_list m).*1 |}.

(** The manager, an object and the object in the cluster. *)
Definition demo_manager : ResourceManager := NewResourceManager (mkOwner (str "flux") (str "flux.io")).
Definition demo_cluster : DemoObj := demo_drift 1 2.
Definition demo_new : DemoObj := demo_drift 3 4.

Definition demo_poll : poll_result :=
  let id := ObjMeta demo_cluster in
  let ss := [(id, Some (mkRS id CurrentStatus None))] in
  mkPoll [ss] ss (Some ctxCanceled) None.

(** The server answers a read with the object in the cluster. *)
Definition demo_server (h : list (event DemoObj)) (c : kcall DemoObj) : reply DemoObj :=
  match c with
  | KGet _ _ _ => mkReply None demo_cluster demo_poll
  | KDryRun _ o | KApply _ o | KJSONPatch _ o _ | KDelete o _ => mkReply None o demo_poll
  | _ => mkReply None demo_cluster demo_poll
  end.

Definition demo_run {A} (p : comp DemoObj A) : list (event DemoObj) := (run demo_server [] p).2.

Lemma server_runs server {A} (p : comp DemoObj A) o :
  (run server [] p).1 = o → runs p (run server [] p).2 o.
Proof.
  intros <-. destruct (run server [] p) as [a t] eqn:E. by apply run_runs in E as (t' & -> & Hr).
Qed.

Lemma demo_runs {A} (p : comp DemoObj A) o : (run demo_server [] p).1 = o → runs p (demo_run p) o.
Proof. apply server_runs. Qed.

Definition demo_apply : comp DemoObj ChangeSetEntry := Apply 1 demo_manager demo_new DefaultApplyOptions.
Definition demo_entry : ChangeSetEntry := changeSetEntry demo_new ConfiguredAction.

Lemma demo_apply_runs : runs demo_apply (demo_run demo_apply) (Done demo_entry).
Proof. apply demo_runs. by vm_compute. Qed.


(** An object whose label excludes it. *)
Definition demo_excluded : DemoObj := SetLabels {[str "ssa" := str "Ignore"]} demo_new.
Definition demo_exclusion : ApplyOptions :=
  mkApplyOptions false ∅ {[str "ssa" := str "ignore"]} ∅ 0 0 (mkCleanup [] [] [] ∅) [] false [].

Lemma Apply_excluded_witness :
  let p := Apply 1 demo_manager demo_excluded demo_exclusion in
  ∃ g e, demo_run p = [(KGet (GetObjNamespace demo_excluded) (GetObjName demo_excluded) (blank demo_excluded), g)] ∧
    (run demo_server [] p).1 = Done e ∧ cse_Action e = SkippedAction.
Proof.
  intros p. apply (Apply_excluded 0 demo_manager demo_excluded demo_exclusion (demo_run p) (run demo_server [] p).1).
  - by vm_compute.
  - by apply demo_runs.
Defined.

(** A server that always finds an immutable field. *)
Definition immutable_server (h : list (event DemoObj)) (c : kcall DemoObj) : reply DemoObj :=
  match c with
  | KDryRun _ o => mkReply (Some (plain_error "field is immutable")) o demo_poll
  | _ => demo_server h c
  end.
Definition demo_forced : ApplyOptions :=
  mkApplyOptions true ∅ ∅ ∅ 0 0 (mkCleanup [] [] [] ∅) [] false [].

Definition demo_forced_apply : comp DemoObj ChangeSetEntry := Apply 3 demo_manager demo_new demo_forced.

Lemma demo_forced_runs : runs demo_forced_apply (run immutable_server [] demo_forced_apply).2 Unfinished.
Proof. apply server_runs. by vm_compute. Qed.

Lemma Apply_attempts_witness :
  length (filter (λ c, is_delete c = true) (run immutable_server [] demo_forced_apply).2.*1) = 3.
Proof.
  exact (proj1 (Apply_attempts 3 demo_manager demo_new demo_forced _ demo_forced_runs)).
Defined.

(** ** Sets of objects *)

Definition demo_slot_of (o : DemoObj) : slot DemoObj := mkSlot (Some o) (changeSetEntry o ConfiguredAction) [].
Definition demo_slot : slot DemoObj := demo_slot_of demo_new.
Definition demo_goroutine (o : DemoObj) : comp DemoObj (slot DemoObj) :=
  goroutine 1 demo_manager DefaultApplyOptions None o.
Definition demo_phase (o : DemoObj) : comp DemoObj ChangeSet := apply_phase demo_manager [demo_slot_of o].
Definition demo_trace_of (o : DemoObj) : list (event DemoObj) := demo_run (demo_goroutine o) ++ demo_run (demo_phase o).
Definition demo_all_trace : list (event DemoObj) := demo_trace_of demo_new.

Lemma demo_ApplyAll_of o :
  (run demo_server [] (demo_goroutine o)).1 = Done (demo_slot_of o) →
  (run demo_server [] (demo_phase o)).1 = Done [change (demo_slot_of o)] →
  ApplyAll 1 demo_manager [o] DefaultApplyOptions (demo_trace_of o) (Done [change (demo_slot_of o)]).
Proof.
  intros Hg Hp. unfold ApplyAll. assert (sort_objects [o] = [o]) as -> by (by apply Permutation_singleton_r, sort_Slice_perm).
  exists (pair 0 <$> demo_run (demo_goroutine o)), [Done (demo_slot_of o)], (demo_run (demo_phase o)). split_and!.
  - rewrite <-(app_nil_r (pair 0 <$> demo_run (demo_goroutine o))).
    apply (par_run _ 0 (demo_goroutine o) _ (Done (demo_slot_of o))); [reflexivity|by apply demo_runs|].
    apply (par_done [Done (demo_slot_of o)]).
  - unfold demo_trace_of. rewrite <-list_fmap_compose. by rewrite list_fmap_id.
  - by apply demo_runs.
Qed.

Lemma demo_ApplyAll :
  ApplyAll 1 demo_manager [demo_new] DefaultApplyOptions demo_all_trace (Done [change demo_slot]).
Proof. apply demo_ApplyAll_of; by vm_compute. Qed.

Lemma ApplyAll_spec_witness :
  ∃ t1 t2, demo_all_trace = t1 ++ t2 ∧ Forall (λ c, is_apply c = false) t1.*1 ∧
    Forall (λ c, is_apply c = true) t2.*1.
Proof.
  destruct (ApplyAll_spec 1 demo_manager [demo_new] DefaultApplyOptions demo_all_trace
    (Done [change demo_slot]) demo_ApplyAll) as (t1 & t2 & E & H1 & H2 & _).
  exists t1, t2. split; [exact E|]. split; [exact H1|exact H2].
Defined.

Definition demo_agg (l : list ResourceStatus) (s : KStatus) : KStatus :=
  if forallb (is_status s) l then s else UnknownStatus.

(** A namespace and an object in it. *)
Definition demo_namespace : DemoObj :=
  mkDemo (str "Namespace") (str "v1") (str "ns") [] (str "u0") (str "1") ∅ ∅ {[str "spec" := VInt 7]} [].
Definition demo_staged_objects : list DemoObj := [demo_new; demo_namespace].

Definition demo_wait : comp DemoObj unit :=
  WaitForSet demo_agg (ToObjMetadataSet [change (demo_slot_of demo_namespace)]) (wait_options DefaultApplyOptions).
Definition demo_staged_trace : list (event DemoObj) :=
  (demo_trace_of demo_namespace ++ demo_run demo_wait) ++ demo_all_trace.
Definition demo_staged_changes : ChangeSet := [change (demo_slot_of demo_namespace); change demo_slot].

Lemma demo_staged :
  ApplyAllStaged demo_agg 1 demo_manager demo_staged_objects DefaultApplyOptions demo_staged_trace
    (demo_staged_changes, Done tt).
Proof.
  set (td := demo_trace_of demo_namespace ++ demo_run demo_wait).
  set (cs := [change (demo_slot_of demo_namespace)]).
  assert (run_stage demo_agg 1 demo_manager DefaultApplyOptions [demo_namespace] false true NewChangeSet td (cs, Done tt)) as Hd.
  { exists (demo_trace_of demo_namespace), (demo_run demo_wait), (Done cs). split_and!; [done|apply demo_ApplyAll_of; by vm_compute|].
    exists (Done tt). split; [apply demo_runs; by vm_compute|done]. }
  exists td, (cs, Done tt), demo_all_trace. split; [done|]. split.
  - exists td, (cs, Done tt), []. rewrite app_nil_r. split; [done|]. split; [|done].
    exists td, (cs, Done tt), []. by rewrite app_nil_r.
  - exists demo_all_trace, [], (Done [change demo_slot]). rewrite app_nil_r.
    split_and!; [done|exact demo_ApplyAll|done|done].
Qed.

Definition demo_before : list (event DemoObj) := removelast demo_staged_trace.
Lemma demo_staged_last : demo_staged_trace =
  demo_before ++ (KApply (str "flux") demo_new, demo_server [] (KApply (str "flux") demo_new)) :: [].
Proof. by vm_compute. Qed.

(** Two applies are made, that of the namespace first; the second comes after a
    wait. *)
Lemma ApplyAllStaged_ordered_witness :
  ∃ o, o ∈ demo_staged_objects ∧ applies demo_manager o (KApply (str "flux") demo_new) ∧
    barrier demo_agg 1 demo_manager DefaultApplyOptions demo_staged_objects (stage_of DefaultApplyOptions o) demo_before.
Proof.
  destruct (ApplyAllStaged_ordered demo_agg 1 demo_manager demo_staged_objects DefaultApplyOptions demo_staged_trace
    (demo_staged_changes, Done tt) demo_staged) as (_ & Hb & _).
  exact (Hb demo_before _ [] demo_staged_last eq_refl).
Defined.

(** ** Deletion, diff, waiting *)

Definition demo_delete : comp DemoObj (ChangeSet * option kerr) := DeleteAll [demo_new] DefaultDeleteOptions.

Lemma DeleteAll_spec_witness :
  ∃ xs ts e, (run demo_server [] demo_delete).1 = Done (xs.*1, e) ∧ demo_run demo_delete = concat ts ∧
    Forall3 (delete_spec DefaultDeleteOptions) (sort_objects_reverse [demo_new]) xs ts ∧
    (e = None ↔ Forall (λ x, x.2 = None) xs).
Proof.
  apply (DeleteAll_spec [demo_new] DefaultDeleteOptions (demo_run demo_delete) (run demo_server [] demo_delete).1).
  by apply demo_runs.
Defined.

Lemma Diff_only_reads_witness :
  let p := Diff demo_manager demo_new DefaultDiffOptions in
  (∃ x, (run demo_server [] p).1 = Done (changeSetEntry demo_new ConfiguredAction, Some x)) ∧
  writes (demo_run p) = [].
Proof.
  intros p. split.
  - exists (demo_cluster, demo_new). by vm_compute.
  - apply (Diff_only_reads demo_manager demo_new DefaultDiffOptions (demo_run p) (run demo_server [] p).1).
    by apply demo_runs.
Defined.

Lemma wait_verdict_sound_witness :
  wait_verdict demo_agg DefaultWaitOptions demo_poll = None ∧
  ∃ ss, ss ∈ pr_snapshots demo_poll ∧ settled demo_agg DefaultWaitOptions ss = true.
Proof.
  split; [by vm_compute|].
  apply (wait_verdict_sound demo_agg DefaultWaitOptions demo_poll); by vm_compute.
Defined.

(** With [FailFast], an event that comes after the cancellation can hide the
    failure that caused it: the wait succeeds and no object was ever ready. *)
Example fail_fast_race :
  let a := mkMeta (str "ns") (str "a") (mkGK [] (str "Job")) in
  let b := mkMeta (str "ns") (str "b") (mkGK [] (str "Pod")) in
  let snap sa sb := [(a, Some (mkRS a sa None)); (b, Some (mkRS b sb None))] in
  wait_verdict demo_agg (mkWait 1 1 true [])
    (mkPoll [snap FailedStatus InProgressStatus; snap InProgressStatus InProgressStatus]
       (snap InProgressStatus InProgressStatus) (Some ctxCanceled) None) = None.
Proof. by vm_compute. Qed.
