(* ===== verification/PatchHelper.v ===== *)
(** * The patch helper ([runtime/patch])

    A helper keeps the object as it was; [Patch] sends what changed: the
    conditions first, merged into the latest version of the object and sent
    with its resource version, then metadata and spec, then the rest of the
    status.  The calls to the API server are programs of [Interaction].

    Not under [src/] and so parameters: objects and their conversion to and
    from maps, the data of a merge patch, nested fields of maps, error
    aggregates and the backoff loop. *)

From S2P Require Import Prelude Utf8 Json Interaction GoStd Conditions ConditionsPatch.

(** ** Options ([options.go]) *)

(** [src/runtime/patch/options.go:30-47 HelperOptions] *)
Record HelperOptions := mkHelperOptions {
  IncludeStatusObservedGeneration : bool;
  ForceOverwriteConditions : bool;
  OwnedConditions : list string;
  FieldOwner : string }.

(** The options of the package, one constructor per type.
    [src/runtime/patch/options.go:24-28 Option] *)
Inductive PatchOption :=
  | OptForceOverwriteConditions
  | OptStatusObservedGeneration
  | OptOwnedConditions (Conditions : list string)
  | OptFieldOwner (s : string).

(** [src/runtime/patch/options.go:52-84 ApplyToHelper] *)
Definition ApplyToHelper (w : PatchOption) (i : HelperOptions) : HelperOptions :=
  match w with
  | OptForceOverwriteConditions =>
      mkHelperOptions (IncludeStatusObservedGeneration i) true (OwnedConditions i) (FieldOwner i)
  | OptStatusObservedGeneration =>
      mkHelperOptions true (ForceOverwriteConditions i) (OwnedConditions i) (FieldOwner i)
  | OptOwnedConditions l =>
      mkHelperOptions (IncludeStatusObservedGeneration i) (ForceOverwriteConditions i) l (FieldOwner i)
  | OptFieldOwner s =>
      mkHelperOptions (IncludeStatusObservedGeneration i) (ForceOverwriteConditions i) (OwnedConditions i) s
  end.

(** [src/runtime/patch/patch.go:177-181 Helper.Patch] *)
Definition patch_options (opts : list PatchOption) : HelperOptions :=
  foldl (λ o opt, ApplyToHelper opt o) (mkHelperOptions false false [] "") opts.

(** ** Unstructured objects ([utils.go]) *)

(** [src/runtime/patch/utils.go:31-40 patchType] *)
Inductive patchType := specPatch | statusPatch.
#[global] Instance patchType_eq_dec : EqDecision patchType.
Proof. solve_decision. Defined.
Definition patchType_string (p : patchType) : bytes :=
  match p with specPatch => str "spec" | statusPatch => str "status" end.

(** The part before the first dot. *)
Fixpoint before_dot (s : bytes) : bytes :=
  match s with
  | [] => []
  | c :: s => if bool_decide (c = "."%char) then [] else c :: before_dot s
  end.

(** [src/runtime/patch/utils.go:33-35 patchType.Key] *)
Definition Key (p : patchType) : bytes := before_dot (patchType_string p).

(** [src/runtime/patch/utils.go:42-48 preserveUnstructuredKeys] *)
Definition preserveUnstructuredKeys (key : bytes) : bool :=
  bool_decide (key ∈ [str "kind"; str "apiVersion"; str "metadata"]).

(** [src/runtime/patch/utils.go:50-53 unstructuredHasStatus] *)
Definition unstructuredHasStatus (u : vmap) : bool := bool_decide (is_Some (u !! str "status")).

Definition status_conditions : list bytes := [str "status"; str "conditions"].

(** The value at a path of map keys. *)
Fixpoint value_at (u : vmap) (p : list bytes) : option value :=
  match p with
  | [] => Some (VMap u)
  | [k] => u !! k
  | k :: p => match u !! k with Some (VMap u) => value_at u p | _ => None end
  end.

(** [unstructured]'s functions on nested fields. *)
Class NestedFields (E : Type) := {
  GetGeneration : vmap → Z;
  SetNestedField : vmap → value → list bytes → E + vmap;
  RemoveNestedField : vmap → list bytes → vmap;
  RemoveNestedField_at : ∀ u p, p ≠ [] → value_at (RemoveNestedField u p) p = None;
  (** only the first key's value changes, and it depends on nothing else *)
  RemoveNestedField_ne : ∀ u k p k', k' ≠ k → RemoveNestedField u (k :: p) !! k' = u !! k';
  RemoveNestedField_eq : ∀ u u' k p, u !! k = u' !! k →
    RemoveNestedField u (k :: p) !! k = RemoveNestedField u' (k :: p) !! k }.

Section copy.
Context {E : Type} `{NestedFields E}.

(** The loop over the keys, in the order of the iteration.  The values are
    shared between the two maps, so what is removed below [status] in the copy
    is removed in the input as well, once the copy has the status.
    [src/runtime/patch/utils.go:81-100 unsafeUnstructuredCopy] *)
Fixpoint shallow_loop (focus : patchType) (isConditionsSetter : bool) (keys : list bytes) (obj r : vmap)
    : vmap * vmap :=
  match keys with
  | [] => (obj, r)
  | key :: keys =>
      let r := if bool_decide (key = Key focus) || preserveUnstructuredKeys key
               then match obj !! key with Some value => <[key := value]> r | None => r end
               else r in
      if isConditionsSetter && bool_decide (focus = statusPatch) then
        let obj := if bool_decide (is_Some (r !! str "status")) then RemoveNestedField obj status_conditions
                   else obj in
        shallow_loop focus isConditionsSetter keys obj (RemoveNestedField r status_conditions)
      else shallow_loop focus isConditionsSetter keys obj r
  end.

(** The copy, and the input as the call leaves it.
    [src/runtime/patch/utils.go:70-103 unsafeUnstructuredCopy] *)
Definition unsafeUnstructuredCopy (obj : vmap) (focus : patchType) (isConditionsSetter : bool)
    : vmap * vmap :=
  shallow_loop focus isConditionsSetter (map_to_list obj).*1 obj ∅.
End copy.

(** ** Objects and the client *)

(** The errors of the package; those of the libraries and of the server are
    [E]. *)
Inductive perr (E GVK : Type) :=
  | ForeignErr (e : E)
  | UnmatchedGVK (expected got : GVK)
  | PatchDataErr (e : E)
  | UnmarshalErr (e : E)
  | ConditionConflict (c : conflict)
  | WaitTimeout
  | Aggregate (l : list (perr E GVK)).
Arguments ForeignErr {E GVK}.
Arguments UnmatchedGVK {E GVK}.
Arguments PatchDataErr {E GVK}.
Arguments UnmarshalErr {E GVK}.
Arguments ConditionConflict {E GVK}.
Arguments WaitTimeout {E GVK}.
Arguments Aggregate {E GVK}.

(** [client.Object] with what is done to it. *)
Class PatchObject (O GVK E Data : Type) := {
  (** [apiutil.GVKForObject] with the client's scheme *)
  GVKForObject : O → E + GVK;
  (** the dynamic type *)
  GoType : O → string;
  isRuntimeUnstructured : O → bool;
  isSetter : O → bool;
  isGetter : O → bool;
  DeepCopyObject : O → O;
  ObjectKey : O → string * string;
  (** [runtime.DefaultUnstructuredConverter]; [FromUnstructured] writes into an
      object, which an error leaves in some state *)
  convToUnstructured : O → E + vmap;
  convFromUnstructured : vmap → O → option E * O;
  (** [conditions.Getter] and [conditions.Setter] *)
  asObject : O → object;
  putConditions : O → list Condition → O;
  asObject_put : ∀ o l, asObject (putConditions o l) = SetConditions (asObject o) l;
  (** [client.MergeFrom(before).Data(after)] and [json.Unmarshal] of it *)
  MergeData : O → O → E + Data;
  UnmarshalData : Data → E + vmap;
  (** [apierrors.IsConflict] *)
  IsConflict : E → bool }.

(** [h.client]'s calls; a patch is the object and the one it is compared to.
    [PStatusPatch] says whether the data carries the resource version. *)
Inductive pcall (O : Type) :=
  | PGet (key : string * string) (into : O)
  | PPatch (after before : O) (fieldOwner : option string)
  | PStatusPatch (after before : O) (optimisticLock : bool) (fieldManager : string).
Arguments PGet {O}.
Arguments PPatch {O}.
Arguments PStatusPatch {O}.

(** The answer: the error and the object as the call leaves it. *)
Record preply (O E : Type) := mkPReply { p_err : option E; p_obj : O }.
Arguments mkPReply {O E}.
Arguments p_err {O E}.
Arguments p_obj {O E}.

Definition is_locked_patch {O} (c : pcall O) : bool :=
  match c with PStatusPatch _ _ true _ => true | _ => false end.

(** [wait.ExponentialBackoff]: the condition is checked up to [steps] times,
    until it holds or fails.  What the condition's closure changes is a state
    that it passes on. *)
Class ExponentialBackoff (P : Type) := {
  Backoff : ∀ {C R S : Type}, nat → (S → prog C R (res (S * (P + bool)))) → S → prog C R (res (option P));
  BackoffTimeout : P;
  Backoff_0 : ∀ C R S (f : S → prog C R (res (S * (P + bool)))) s, Backoff 0 f s = Ret (Val (Some BackoffTimeout));
  Backoff_S : ∀ C R S n (f : S → prog C R (res (S * (P + bool)))) s,
    Backoff (Datatypes.S n) f s =
    f s ≫= λ r, match r with
                | Panics => Ret Panics
                | Val (_, inl e) => Ret (Val (Some e))
                | Val (_, inr true) => Ret (Val None)
                | Val (s, inr false) => Backoff n f s
                end }.

(** [kerrors.NewAggregate]: nil errors are left out. *)
Class NewAggregate (P : Type) := {
  newAggregate : list (option P) → option P;
  newAggregate_None : ∀ l, newAggregate l = None ↔ Forall (λ e, e = None) l }.

(** ** The helper ([patch.go]) *)

(** [src/runtime/patch/patch.go:128-137 Helper] *)
Record Helper (O GVK : Type) := mkHelper {
  h_gvk : GVK;
  h_beforeObject : O;
  h_before : vmap;
  h_after : vmap;
  h_changes : gset bytes;
  h_isConditionsSetter : bool }.
Arguments mkHelper {O GVK}.
Arguments h_gvk {O GVK}.
Arguments h_beforeObject {O GVK}.
Arguments h_before {O GVK}.
Arguments h_after {O GVK}.
Arguments h_changes {O GVK}.
Arguments h_isConditionsSetter {O GVK}.

Section helper.
Context {O GVK E Data : Type} `{EqDecision GVK} `{PatchObject O GVK E Data} `{NestedFields E} `{SortFunc}.
Let err := perr E GVK.
Context `{ExponentialBackoff (perr E GVK)} `{NewAggregate (perr E GVK)}.
Let comp A := prog (pcall O) (preply O E) (res A).

(** [src/runtime/patch/utils.go:55-68 ToUnstructured] *)
Definition ToUnstructured (obj : O) : E + vmap :=
  convToUnstructured (if isRuntimeUnstructured obj then DeepCopyObject obj else obj).

(** [src/runtime/patch/patch.go:139-164 NewHelper] *)
Definition NewHelper (obj : O) : err + Helper O GVK :=
  match GVKForObject obj with
  | inl e => inl (ForeignErr e)
  | inr gvk =>
      match ToUnstructured obj with
      | inl e => inl (ForeignErr e)
      | inr u => inr (mkHelper gvk (DeepCopyObject obj) u ∅ ∅ (isSetter obj))
      end
  end.

(** [src/runtime/patch/patch.go:366-368 Helper.shouldPatch] *)
Definition shouldPatch (h : Helper O GVK) (i : string) : bool := bool_decide (str i ∈ h_changes h).

(** [src/runtime/patch/patch.go:370-392 Helper.calculateChanges] *)
Definition calculateChanges (h : Helper O GVK) (after : O) : err + gset bytes :=
  match MergeData (h_beforeObject h) after with
  | inl e => inl (PatchDataErr e)
  | inr diff =>
      match UnmarshalData diff with
      | inl e => inl (UnmarshalErr e)
      | inr patchDiff => inr (dom patchDiff)
      end
  end.

Definition with_changes (h : Helper O GVK) (changes : gset bytes) : Helper O GVK :=
  mkHelper (h_gvk h) (h_beforeObject h) (h_before h) (h_after h) changes (h_isConditionsSetter h).
Definition with_maps (h : Helper O GVK) (before after : vmap) : Helper O GVK :=
  mkHelper (h_gvk h) (h_beforeObject h) before after (h_changes h) (h_isConditionsSetter h).

(** The helper's maps as the shallow copies leave them, and the two objects.
    [src/runtime/patch/patch.go:346-364 Helper.calculatePatch] *)
Definition calculatePatch (h : Helper O GVK) (afterObj : O) (focus : patchType)
    : Helper O GVK * (err + O * O) :=
  let '(hb, before) := unsafeUnstructuredCopy (h_before h) focus (h_isConditionsSetter h) in
  let '(ha, after) := unsafeUnstructuredCopy (h_after h) focus (h_isConditionsSetter h) in
  let h := with_maps h hb ha in
  match convFromUnstructured before (DeepCopyObject (h_beforeObject h)) with
  | (Some e, _) => (h, inl (ForeignErr e))
  | (None, beforeObj) =>
      match convFromUnstructured after (DeepCopyObject afterObj) with
      | (Some e, _) => (h, inl (ForeignErr e))
      | (None, afterObj) => (h, inr (beforeObj, afterObj))
      end
  end.

(** [src/runtime/patch/patch.go:238-248 Helper.patch] *)
Definition patch (h : Helper O GVK) (obj : O) (fieldOwner : option string)
    : comp (Helper O GVK * option err) :=
  if negb (shouldPatch h "metadata") && negb (shouldPatch h "spec") then Ret (Val (h, None))
  else match calculatePatch h obj specPatch with
       | (h, inl e) => Ret (Val (h, Some e))
       | (h, inr (beforeObject, afterObject)) =>
           Call (PPatch afterObject beforeObject fieldOwner) (λ r, Ret (Val (h, ForeignErr <$> p_err r)))
       end.

(** [src/runtime/patch/patch.go:250-260 Helper.patchStatus] *)
Definition patchStatus (h : Helper O GVK) (obj : O) (fieldManager : string)
    : comp (Helper O GVK * option err) :=
  if negb (shouldPatch h "status") then Ret (Val (h, None))
  else match calculatePatch h obj statusPatch with
       | (h, inl e) => Ret (Val (h, Some e))
       | (h, inr (beforeObject, afterObject)) =>
           Call (PStatusPatch afterObject beforeObject false fieldManager)
             (λ r, Ret (Val (h, ForeignErr <$> p_err r)))
       end.

(** The function the backoff loop calls; the patch is shared by the calls, and
    [Apply] writes to it, so the next one gets it as it was left.  A failed type
    assertion leaves nil, on which the error message calls a method: that
    panics.
    [src/runtime/patch/patch.go:313-343 Helper.patchStatusConditions] *)
Definition conditions_attempt (clock : nat → nat → Z) (before : O) (key : string * string)
    (force : bool) (owned : list string) (fieldManager : string) (s : nat * Patch)
    : comp ((nat * Patch) * (err + bool)) :=
  let '(i, diff) := s in
  if negb (isSetter (DeepCopyObject before)) then Ret Panics
  else
    Call (PGet key (DeepCopyObject before)) (λ r,
    match p_err r with
    | Some e => Ret (Val (s, inl (ForeignErr e)))
    | None =>
        let latest := p_obj r in
        if negb (isSetter (DeepCopyObject latest)) then Ret Panics
        else
          let options := [WithForceOverwrite force; WithOwnedConditions owned] in
          let s := (S i, Apply_patch (clock i) diff (asObject latest) options) in
          match Apply (clock i) diff (asObject latest) options with
          | (_, Some c) => Ret (Val (s, inl (ConditionConflict c)))
          | (merged, None) =>
              Call (PStatusPatch (putConditions latest (GetConditions merged)) (DeepCopyObject latest) true fieldManager)
                (λ r, match p_err r with
                      | Some e => if IsConflict e then Ret (Val (s, inr false)) else Ret (Val (s, inl (ForeignErr e)))
                      | None => Ret (Val (s, inr true))
                      end)
          end
    end).

(** The clock gives the time of each round of each attempt.
    [src/runtime/patch/patch.go:262-344 Helper.patchStatusConditions] *)
Definition patchStatusConditions (clock : nat → nat → Z) (h : Helper O GVK) (obj : O) (force : bool)
    (owned : list string) (fieldManager : string) : comp (option err) :=
  if negb (h_isConditionsSetter h) then Ret (Val None)
  else if negb (isGetter (h_beforeObject h)) then Ret Panics
  else if negb (isGetter obj) then Ret Panics
  else
    let diff := NewPatch (asObject (h_beforeObject h)) (asObject obj) in
    if Patch_IsZero diff then Ret (Val None)
    else Backoff 5 (conditions_attempt clock (h_beforeObject h) (ObjectKey obj) force owned fieldManager) (0, diff).

(** What [Patch] does after the options are known, up to the calls: the helper,
    the object and the first error.  A nil map is the empty one.
    [src/runtime/patch/patch.go:183-208 Helper.Patch] *)
Definition prepare (h : Helper O GVK) (obj : O) (options : HelperOptions)
    : Helper O GVK * O * option err :=
  match ToUnstructured obj with
  | inl e => (with_maps h (h_before h) ∅, obj, Some (ForeignErr e))
  | inr after =>
      let h := with_maps h (h_before h) after in
      let '(h, obj, e) :=
        if unstructuredHasStatus after && IncludeStatusObservedGeneration options then
          match SetNestedField after (VInt (GetGeneration after)) [str "status"; str "observedGeneration"] with
          | inl e => (h, obj, Some (ForeignErr e))
          | inr after =>
              let '(e, obj) := convFromUnstructured after obj in
              (with_maps h (h_before h) after, obj, ForeignErr <$> e)
          end
        else (h, obj, None) in
      match e with
      | Some e => (h, obj, Some e)
      | None =>
          match calculateChanges h obj with
          | inl e => (with_changes h ∅, obj, Some e)
          | inr changes => (with_changes h changes, obj, None)
          end
      end
  end.

(** The helper and the object as the call leaves them, and the error.
    [src/runtime/patch/patch.go:166-236 Helper.Patch] *)
Definition Helper_Patch (clock : nat → nat → Z) (h : Helper O GVK) (obj : O) (opts : list PatchOption)
    : comp (Helper O GVK * O * option err) :=
  match GVKForObject obj with
  | inl e => Ret (Val (h, obj, Some (ForeignErr e)))
  | inr gvk =>
      if negb (bool_decide (gvk = h_gvk h)) then Ret (Val (h, obj, Some (UnmatchedGVK (h_gvk h) gvk)))
      else
        let options := patch_options opts in
        match prepare h obj options with
        | (h, obj, Some e) => Ret (Val (h, obj, Some e))
        | (h, obj, None) =>
            let clientOpts := if bool_decide (FieldOwner options = "") then None else Some (FieldOwner options) in
            patchStatusConditions clock h obj (ForceOverwriteConditions options) (OwnedConditions options)
              (FieldOwner options) ≫= λ r1,
            match r1 with
            | Panics => Ret Panics
            | Val e1 =>
                patch h obj clientOpts ≫= λ r2,
                match r2 with
                | Panics => Ret Panics
                | Val (h, e2) =>
                    patchStatus h obj (FieldOwner options) ≫= λ r3,
                    match r3 with
                    | Panics => Ret Panics
                    | Val (h, e3) => Ret (Val (h, obj, newAggregate [e1; e2; e3]))
                    end
                end
            end
        end
  end.

(** ** Patching in series ([serial.go]) *)

(** The state is the object before the next patch.
    [src/runtime/patch/serial.go:33-40 NewSerialPatcher] *)
Definition NewSerialPatcher (obj : O) : O := DeepCopyObject obj.

(** The patcher's object and the caller's as the call leaves them, and the
    error.
    [src/runtime/patch/serial.go:42-60 SerialPatcher.Patch] *)
Definition SerialPatcher_Patch (clock : nat → nat → Z) (beforeObject obj : O) (opts : list PatchOption)
    : comp (O * O * option err) :=
  match NewHelper beforeObject with
  | inl e => Ret (Val (beforeObject, obj, Some e))
  | inr patcher =>
      Helper_Patch clock patcher obj opts ≫= λ r,
      match r with
      | Panics => Ret Panics
      | Val (_, obj, Some e) => Ret (Val (beforeObject, obj, Some e))
      | Val (_, obj, None) => Ret (Val (DeepCopyObject obj, obj, None))
      end
  end.
End helper.
