(* ===== verification/PatchCalls.v ===== *)
(** * What the patch helper sends

    The conditions are written only by patches that carry the resource version
    of the object just read and that hold the three-way merge with it; the
    other two patches carry neither each other's fields nor conditions. *)

From S2P Require Import Prelude Utf8 Json Interaction GoStd Conditions ConditionsPatch PatchHelper.

(** ** The shallow copies *)

Section copies.
Context {E : Type} `{NestedFields E}.

Lemma shallow_loop_keys focus b keys u r k :
  k ≠ Key focus → preserveUnstructuredKeys k = false → r !! k = None →
  (shallow_loop focus b keys u r).2 !! k = None.
Proof.
  intros Hk Hp. revert u r. induction keys as [|key keys IH]; intros u r Hr; [done|]. cbn [shallow_loop].
  set (r' := if _ || _ then _ else r).
  assert (r' !! k = None) as Hr'.
  { unfold r'. case_bool_decide as Hd; [|destruct (preserveUnstructuredKeys key) eqn:Hkey]; cbn [orb]; try done.
    - destruct (u !! key); [|done]. by rewrite lookup_insert_ne by congruence.
    - destruct (u !! key); [|done]. rewrite lookup_insert_ne by congruence. done. }
  destruct b; cbn [andb]; [|by apply IH]. case_bool_decide as Hf; [|by apply IH].
  apply IH. unfold status_conditions. rewrite RemoveNestedField_ne; [done|]. by subst focus.
Qed.

Lemma shallow_loop_conditions keys u r :
  value_at r status_conditions = None →
  value_at (shallow_loop statusPatch true keys u r).2 status_conditions = None.
Proof.
  revert u r. induction keys as [|key keys IH]; intros u r Hr; [done|]. cbn [shallow_loop andb].
  rewrite bool_decide_eq_true_2 by done. apply IH. by apply RemoveNestedField_at.
Qed.

(** The copy has the focused field and the preserved ones alone. *)
Lemma unsafeUnstructuredCopy_keys u focus b k :
  k ≠ Key focus → preserveUnstructuredKeys k = false →
  (unsafeUnstructuredCopy u focus b).2 !! k = None.
Proof. intros. apply shallow_loop_keys; [done..|]. apply lookup_empty. Qed.

Lemma unsafeUnstructuredCopy_conditions u :
  value_at (unsafeUnstructuredCopy u statusPatch true).2 status_conditions = None.
Proof. by apply shallow_loop_conditions. Qed.
End copies.

(** ** Inversion of the runs *)

Section runs.
Context {O GVK E Data : Type} `{EqDecision GVK} `{PatchObject O GVK E Data} `{NestedFields E} `{SortFunc}.
Context `{ExponentialBackoff (perr E GVK)} `{NewAggregate (perr E GVK)}.
Implicit Types (h : Helper O GVK) (obj b a : O) (t : list (pcall O * preply O E)).

Lemma calculatePatch_inv h obj focus h' b a :
  calculatePatch h obj focus = (h', inr (b, a)) →
  convFromUnstructured (unsafeUnstructuredCopy (h_before h) focus (h_isConditionsSetter h)).2
    (DeepCopyObject (h_beforeObject h)) = (None, b) ∧
  convFromUnstructured (unsafeUnstructuredCopy (h_after h) focus (h_isConditionsSetter h)).2
    (DeepCopyObject obj) = (None, a).
Proof.
  unfold calculatePatch.
  destruct (unsafeUnstructuredCopy (h_before h) _ _) as [hb ub], (unsafeUnstructuredCopy (h_after h) _ _) as [ha ua].
  cbn [with_maps h_beforeObject snd]. destruct (convFromUnstructured ub _) as [[e|] b'] eqn:Eb; [done|].
  destruct (convFromUnstructured ua _) as [[e|] a'] eqn:Ea; [done|]. by intros [= _ <- <-].
Qed.

Lemma calculatePatch_keeps h obj focus :
  h_changes (calculatePatch h obj focus).1 = h_changes h ∧
  h_beforeObject (calculatePatch h obj focus).1 = h_beforeObject h ∧
  h_isConditionsSetter (calculatePatch h obj focus).1 = h_isConditionsSetter h.
Proof.
  unfold calculatePatch.
  destruct (unsafeUnstructuredCopy (h_before h) _ _) as [hb ub], (unsafeUnstructuredCopy (h_after h) _ _) as [ha ua].
  cbn [with_maps h_beforeObject]. destruct (convFromUnstructured ub _) as [[e|] b']; [done|].
  by destruct (convFromUnstructured ua _) as [[e|] a'].
Qed.

(** A step that patches one part: it sends nothing, or one patch made of the
    copies. *)
Definition sends_part h obj (focus : patchType) (changed : bool) (mk : O → O → pcall O)
    t h' (e : option (perr E GVK)) : Prop :=
  (h_changes h' = h_changes h ∧ h_beforeObject h' = h_beforeObject h ∧
   h_isConditionsSetter h' = h_isConditionsSetter h) ∧
  ((t = [] ∧ (changed = true → e ≠ None)) ∨
   ∃ b a r, calculatePatch h obj focus = (h', inr (b, a)) ∧ t = [(mk a b, r)] ∧ (e = None → p_err r = None)).

Lemma sends_part_inv h obj focus changed mk t h' e :
  runs (if negb changed then Ret (Val (h, None))
        else match calculatePatch h obj focus with
             | (h, inl e) => Ret (Val (h, Some e))
             | (h, inr (b, a)) => Call (mk a b) (λ r, Ret (Val (h, ForeignErr <$> p_err r)))
             end) t (Val (h', e)) →
  sends_part h obj focus changed mk t h' e.
Proof.
  intros Hr. pose proof (calculatePatch_keeps h obj focus) as Hkeep. unfold sends_part.
  destruct changed; cbn [negb] in Hr.
  - destruct (calculatePatch h obj focus) as [h1 [e1|[b a]]] eqn:Ec; cbn [fst] in Hkeep.
    + apply runs_ret_inv in Hr as [-> [= -> ->]]. split; [done|]. by left.
    + apply runs_call_inv in Hr as (r & t' & -> & Hr). apply runs_ret_inv in Hr as [-> [= -> ->]].
      split; [done|]. right. exists b, a, r. split_and!; [done..|]. by destruct (p_err r).
  - apply runs_ret_inv in Hr as [-> [= -> ->]]. split; [done|]. by left.
Qed.

Lemma patch_inv h obj fo t h' e :
  runs (patch h obj fo) t (Val (h', e)) →
  sends_part h obj specPatch (shouldPatch h "metadata" || shouldPatch h "spec") (λ a b, PPatch a b fo) t h' e.
Proof. intros Hr. apply sends_part_inv. unfold patch in Hr. by rewrite negb_orb. Qed.

Lemma patchStatus_inv h obj fm t h' e :
  runs (patchStatus h obj fm) t (Val (h', e)) →
  sends_part h obj statusPatch (shouldPatch h "status") (λ a b, PStatusPatch a b false fm) t h' e.
Proof. apply sends_part_inv. Qed.

Lemma patch_no_panic h obj fo t : ~ runs (patch h obj fo) t Panics.
Proof.
  unfold patch. destruct (_ && _); [by intros [_ ?]%runs_ret_inv|].
  destruct (calculatePatch _ _ _) as [h1 [e|[b a]]]; [by intros [_ ?]%runs_ret_inv|].
  intros (r & t' & -> & [_ ?]%runs_ret_inv)%runs_call_inv. done.
Qed.

Lemma patchStatus_no_panic h obj fm t : ~ runs (patchStatus h obj fm) t Panics.
Proof.
  unfold patchStatus. destruct (negb _); [by intros [_ ?]%runs_ret_inv|].
  destruct (calculatePatch _ _ _) as [h1 [e|[b a]]]; [by intros [_ ?]%runs_ret_inv|].
  intros (r & t' & -> & [_ ?]%runs_ret_inv)%runs_call_inv. done.
Qed.

(** A patch runs its three steps in order, whatever the earlier ones report;
    only the first may panic. *)
Definition patch_steps clock h obj opts t (x : res (Helper O GVK * O * option (perr E GVK))) : Prop :=
  ∃ h1 obj' t1 t', prepare h obj (patch_options opts) = (h1, obj', None) ∧ t = t1 ++ t' ∧
    let owner := FieldOwner (patch_options opts) in
    let conds := patchStatusConditions clock h1 obj' (ForceOverwriteConditions (patch_options opts))
                   (OwnedConditions (patch_options opts)) owner in
    (x = Panics ∧ t' = [] ∧ runs conds t1 Panics) ∨
    ∃ h2 h3 t2 t3 e1 e2 e3,
      t' = t2 ++ t3 ∧ runs conds t1 (Val e1) ∧
      sends_part h1 obj' specPatch (shouldPatch h1 "metadata" || shouldPatch h1 "spec")
        (λ a b, PPatch a b (if bool_decide (owner = "") then None else Some owner)) t2 h2 e2 ∧
      sends_part h2 obj' statusPatch (shouldPatch h2 "status") (λ a b, PStatusPatch a b false owner) t3 h3 e3 ∧
      x = Val (h3, obj', newAggregate [e1; e2; e3]).

Lemma Helper_Patch_inv clock h obj opts t x :
  runs (Helper_Patch clock h obj opts) t x →
  (t = [] ∧ ∃ h' obj' e, x = Val (h', obj', Some e)) ∨ patch_steps clock h obj opts t x.
Proof.
  unfold Helper_Patch. destruct (GVKForObject obj) as [e0|gvk]; [intros [-> ->]%runs_ret_inv; left; eauto|].
  case_bool_decide; cbn [negb]; [|intros [-> ->]%runs_ret_inv; left; eauto].
  destruct (prepare h obj (patch_options opts)) as [[h1 obj1] [e0|]] eqn:Ep;
    [intros [-> ->]%runs_ret_inv; left; eauto|].
  intros (t1 & r1 & t' & -> & H1' & Hr)%runs_bind_inv. right. exists h1, obj1, t1, t'. split_and!; [done..|].
  destruct r1 as [e1|]; [|apply runs_ret_inv in Hr as [-> ->]; by left]. right.
  apply runs_bind_inv in Hr as (t2 & r2 & t3 & -> & H2' & Hr).
  destruct r2 as [[h2 e2]|]; [|by destruct (patch_no_panic _ _ _ _ H2')]. apply patch_inv in H2'.
  apply runs_bind_inv in Hr as (t3' & r3 & t4 & -> & H3' & Hr).
  destruct r3 as [[h3 e3]|]; [|by destruct (patchStatus_no_panic _ _ _ _ H3')]. apply patchStatus_inv in H3'.
  apply runs_ret_inv in Hr as [-> ->]. rewrite app_nil_r. by exists h2, h3, t2, t3', e1, e2, e3.
Qed.

(** ** The conditions *)

(** One attempt: the object is read, and if it could be read and the changes
    do not conflict, the three-way merge with it is sent, to be accepted for
    that version alone. *)
Definition merge_attempt (before after : O) (key : string * string) (fm : string)
    (at_ : list (pcall O * preply O E)) : Prop :=
  (∃ r, at_ = [(PGet key (DeepCopyObject before), r)]) ∨
  ∃ r r' latest', p_err r = None ∧
    at_ = [(PGet key (DeepCopyObject before), r); (PStatusPatch latest' (DeepCopyObject (p_obj r)) true fm, r')] ∧
    three_way (asObject before) (asObject after) (asObject (p_obj r)) (asObject latest') ∧
    latest' = putConditions (p_obj r) (GetConditions (asObject latest')).

Definition accepted (at_ : list (pcall O * preply O E)) : Prop :=
  ∃ c r, last at_ = Some (c, r) ∧ is_locked_patch c = true ∧ p_err r = None.
Definition rejected (at_ : list (pcall O * preply O E)) : Prop :=
  ∃ c r e, last at_ = Some (c, r) ∧ is_locked_patch c = true ∧ p_err r = Some e ∧ IsConflict e = true.

(** The conditions that the server answers with are those it accepts. *)
Definition answers_wf t : Prop :=
  ∀ key into r, (PGet key into, r) ∈ t → p_err r = None → wf_conditions (asObject (p_obj r)).

Section conditions.
Context (before after : O).
Context (Hbefore : NoDup (types (GetConditions (asObject before)))).
Context (Hafter : NoDup (types (GetConditions (asObject after)))).
Let diff := NewPatch (asObject before) (asObject after).

(** [Apply] changes nothing but conditions. *)
Definition only_conditions (o o' : object) : Prop := o' = SetConditions o (GetConditions o').

Lemma only_conditions_Set now o c : only_conditions o (Set_obj now o c).
Proof. unfold Set_obj, Set_. repeat case_match; by destruct o. Qed.

Lemma only_conditions_apply_op now opt o op o' : apply_op now opt o op = inr o' → only_conditions o o'.
Proof.
  assert (only_conditions o o) by by destruct o.
  assert (∀ ty, only_conditions o (Delete o ty)) by done.
  pose proof (λ c, only_conditions_Set now o c) as Hs.
  destruct op; cbn [apply_op]; repeat case_match; by intros [= <-].
Qed.

Lemma only_conditions_Apply clock p o options o' e :
  Apply clock p o options = (o', e) → only_conditions o o'.
Proof.
  unfold Apply. generalize (foldl (λ c o, o c) (mkApplyOptions [] false) options) as opt.
  generalize 0 as i. revert o. induction p as [|op p IH]; intros o i opt; cbn [apply_loop].
  { intros [= <- _]. by destruct o. }
  destruct (apply_op (clock i) opt o op) as [c|o1] eqn:Ea; [intros [= <- _]; by destruct o|].
  apply only_conditions_apply_op in Ea. intros Hl. apply IH in Hl. red in Ea, Hl.
  transitivity (SetConditions o1 (GetConditions o')); [done|]. by rewrite Ea.
Qed.

Lemma read_unsent key into r : let t := [(PGet key into, r)] in ~ accepted t ∧ ~ rejected t.
Proof. unfold accepted, rejected. simpl. split; naive_solver. Qed.

Lemma sent_accepted ev l b fm r : accepted [ev; (PStatusPatch l b true fm, r)] ↔ p_err r = None.
Proof.
  split; [|by eexists _, r]. by intros (c & r' & [= <- <-] & _ & ?).
Qed.

Lemma sent_rejected ev l b fm r :
  rejected [ev; (PStatusPatch l b true fm, r)] ↔ ∃ e, p_err r = Some e ∧ IsConflict e = true.
Proof.
  split; [|intros (e & ? & ?); by eexists _, r, e]. intros (c & r' & e & [= <- <-] & _ & ? & ?). eauto.
Qed.

Lemma conditions_attempt_inv clock key force owned fm i p t x :
  Forall2 sim_op diff p →
  runs (conditions_attempt clock before key force owned fm (i, p)) t x → answers_wf t →
  (t = [] ∧ x = Panics ∨ merge_attempt before after key fm t) ∧
  match x with
  | Val (s, r) => Forall2 sim_op diff s.2 ∧ (accepted t ↔ r = inr true) ∧ (rejected t ↔ r = inr false)
  | Panics => ~ rejected t
  end.
Proof.
  unfold conditions_attempt. intros Hsim Hr Hwf.
  destruct (negb _); [apply runs_ret_inv in Hr as [-> ->]; split; [by left|unfold rejected; naive_solver]|].
  apply runs_call_inv in Hr as (r & t' & -> & Hr).
  pose proof (read_unsent key (DeepCopyObject before) r) as [Hna Hnr]. destruct (p_err r) eqn:Er.
  { apply runs_ret_inv in Hr as [-> ->]. split; [right; left; eauto|]. by split_and!. }
  destruct (negb _); [apply runs_ret_inv in Hr as [-> ->]; split; [right; left; eauto|done]|].
  cbv zeta in Hr. set (p' := Apply_patch _ _ _ _) in Hr.
  assert (Forall2 sim_op diff p') as Hp' by by apply sim_applied.
  destruct (Apply _ _ _ _) as [merged [c|]] eqn:Ea.
  { apply runs_ret_inv in Hr as [-> ->]. split; [right; left; eauto|by split_and!]. }
  assert (asObject (putConditions (p_obj r) (GetConditions merged)) = merged) as Hm.
  { rewrite asObject_put. symmetry. by eapply only_conditions_Apply. }
  eapply Apply_merges in Ea; [|exact Hbefore|exact Hafter|by eapply Hwf; [left|]|exact Hsim].
  apply runs_call_inv in Hr as (r' & t'' & -> & Hr).
  assert (t'' = [] ∧ x = Val ((S i, p'), match p_err r' with
    | Some e => if IsConflict e then inr false else inl (ForeignErr e)
    | None => inr true end)) as [-> ->].
  { destruct (p_err r') as [e|]; [destruct (IsConflict e)|]; by apply runs_ret_inv in Hr. }
  split; [|split; [done|]].
  - right. right. exists r, r', (putConditions (p_obj r) (GetConditions merged)). rewrite Hm. done.
  - rewrite sent_accepted, sent_rejected. destruct (p_err r') as [e|]; [destruct (IsConflict e) eqn:Ec|];
      split; split; try done; try (by intros (? & ? & _)); [by exists e|].
    intros (e' & [= <-] & ?). congruence.
Qed.

(** The attempts of a backoff loop: all but the last were rejected, and the
    loop ends with nil only if the last was accepted. *)
Definition attempts_of (n : nat) key fm t (x : res (option (perr E GVK))) : Prop :=
  ∃ attempts, t = concat attempts ∧ length attempts <= n ∧
    Forall (merge_attempt before after key fm) attempts ∧
    (∀ i at_, attempts !! i = Some at_ → S i < length attempts → rejected at_) ∧
    (x = Val None → ∃ at_, last attempts = Some at_ ∧ accepted at_) ∧
    (length attempts = n → Forall rejected attempts → x = Val (Some BackoffTimeout)).

Lemma attempts_of_cons n key fm t t' x :
  merge_attempt before after key fm t → rejected t → attempts_of n key fm t' x →
  attempts_of (S n) key fm (t ++ t') x.
Proof.
  intros Hm Hrej (l & -> & Hlen & Hall & Hinit & Hlast & Hto). exists (t :: l). split_and!.
  - done.
  - simpl. lia.
  - by constructor.
  - intros [|i] at_; simpl; [by intros [= <-]|]. intros Hi Hlt. apply (Hinit i); [done|lia].
  - intros Hx. destruct (Hlast Hx) as (at_ & Hl & Ha). exists at_. split; [|done]. destruct l; [done|by rewrite last_cons, Hl].
  - simpl. intros [= Hn] [_ Hf]%Forall_cons. auto.
Qed.

Lemma Backoff_attempts clock key force owned fm n i p t x :
  Forall2 sim_op diff p →
  runs (Backoff n (conditions_attempt clock before key force owned fm) (i, p)) t x → answers_wf t →
  attempts_of n key fm t x.
Proof.
  revert i p t. induction n as [|n IH]; intros i p t Hsim Hr Hwf.
  { rewrite Backoff_0 in Hr. apply runs_ret_inv in Hr as [-> ->]. exists [].
    split_and!; [done|simpl; lia|constructor|done|done|done]. }
  rewrite Backoff_S in Hr. apply runs_bind_inv in Hr as (t1 & y & t2 & -> & H1' & Hr).
  assert (answers_wf t1 ∧ answers_wf t2) as [Hwf1 Hwf2].
  { split; intros key' into r Hin; apply (Hwf key' into r), elem_of_app; auto. }
  apply conditions_attempt_inv in H1' as [Hm Hy]; [|done..].
  assert (merge_attempt before after key fm t1 → ~ rejected t1 → (x = Val None → accepted t1) →
    attempts_of (S n) key fm (t1 ++ []) x) as Hend.
  { intros Hm1 Hrej Hacc. exists [t1]. split_and!; [done|simpl; lia|by constructor| |eauto|].
    - intros j at_ Hj. apply lookup_lt_Some in Hj. simpl in *. lia.
    - intros _ Hf. by inversion Hf. }
  destruct y as [[s [e|[]]]|]; [destruct Hy as (Hs & Hacc & Hrej)..|].
  - apply runs_ret_inv in Hr as [-> ->]. apply Hend; [naive_solver..|done].
  - apply runs_ret_inv in Hr as [-> ->]. apply Hend; naive_solver.
  - destruct s as [i' p']. apply attempts_of_cons; [naive_solver..|]. by eapply IH.
  - apply runs_ret_inv in Hr as [-> ->]. destruct Hm as [[-> _]|Hm]; [|by apply Hend].
    exists []. split_and!; [done|simpl; lia|constructor|done|done|done].
Qed.
End conditions.

(** C23. The conditions are patched at most five times; each attempt reads the
    object and sends its three-way merge with the changes, to be accepted for
    the version that was read alone.  An attempt follows another only after a
    conflict, success is reported only after the server accepted the last one,
    and five conflicts end in the timeout. *)
Theorem patchStatusConditions_merges clock h obj force owned fm t x :
  NoDup (types (GetConditions (asObject (h_beforeObject h)))) →
  NoDup (types (GetConditions (asObject obj))) →
  runs (patchStatusConditions clock h obj force owned fm) t x → answers_wf t →
  (t = [] ∧ (x = Panics ∨ x = Val None ∧
     (h_isConditionsSetter h = false ∨ NewPatch (asObject (h_beforeObject h)) (asObject obj) = []))) ∨
  attempts_of (h_beforeObject h) obj 5 (ObjectKey obj) fm t x.
Proof.
  intros Hb Ha Hr Hwf. unfold patchStatusConditions in Hr.
  destruct (h_isConditionsSetter h); cbn [negb] in Hr; [|apply runs_ret_inv in Hr as [-> ->]; left; split; [done|]; tauto].
  destruct (negb _); [apply runs_ret_inv in Hr as [-> ->]; left; split; [done|]; tauto|].
  destruct (negb _); [apply runs_ret_inv in Hr as [-> ->]; left; split; [done|]; tauto|].
  destruct (Patch_IsZero _) eqn:Ez.
  - apply runs_ret_inv in Hr as [-> ->]. left. split; [done|]. right. split; [done|]. right.
    apply Nat.eqb_eq in Ez. by destruct (NewPatch _ _).
  - right. eapply Backoff_attempts; [done..| |done|done].
    apply Forall_Forall2_diag, Forall_true, sim_op_refl.
Qed.

(** Whatever is answered, the first step only reads and sends locked patches,
    and succeeds only if one was accepted. *)
Definition reads_or_locked t : Prop :=
  Forall (λ ev, (∃ key into, ev.1 = PGet key into) ∨ is_locked_patch ev.1 = true) t.
Definition one_accepted t : Prop := ∃ c r, (c, r) ∈ t ∧ is_locked_patch c = true ∧ p_err r = None.

Lemma reads_nil : reads_or_locked [].
Proof. constructor. Qed.
Lemma reads_get key into r t : reads_or_locked t → reads_or_locked ((PGet key into, r) :: t).
Proof. constructor; [left; eauto|done]. Qed.
Lemma reads_locked a b fm r t : reads_or_locked t → reads_or_locked ((PStatusPatch a b true fm, r) :: t).
Proof. constructor; [by right|done]. Qed.
Hint Resolve reads_nil reads_get reads_locked : core.

Lemma conditions_attempt_calls clock o key force owned fm s t y :
  runs (conditions_attempt clock o key force owned fm s) t y →
  reads_or_locked t ∧ ∀ s', y = Val (s', inr true) → one_accepted t.
Proof.
  destruct s as [i p]. unfold conditions_attempt.
  destruct (negb _); [by intros [-> ->]%runs_ret_inv|].
  intros (r & t' & -> & Hr)%runs_call_inv. revert Hr.
  destruct (p_err r); [intros [-> ->]%runs_ret_inv; split; [by auto|done]|].
  destruct (negb _); [intros [-> ->]%runs_ret_inv; split; [by auto|done]|]. cbv zeta.
  destruct (Apply _ _ _ _) as [m [c|]]; [intros [-> ->]%runs_ret_inv; split; [by auto|done]|].
  intros (r' & t'' & -> & Hr)%runs_call_inv.
  assert (t'' = [] ∧ ((∃ s', y = Val (s', inr true)) → p_err r' = None)) as [-> Hy].
  { destruct (p_err r') as [e|]; [destruct (IsConflict e)|]; apply runs_ret_inv in Hr as [-> ->]; naive_solver. }
  split; [by auto|]. intros s' ->. eexists _, r'. split; [by right; left|]. eauto.
Qed.

Lemma Backoff_calls clock o key force owned fm n s t x :
  runs (Backoff n (conditions_attempt clock o key force owned fm) s) t x →
  reads_or_locked t ∧ (x = Val None → one_accepted t).
Proof.
  revert s t. induction n as [|n IH]; intros s t.
  { rewrite Backoff_0. by intros [-> ->]%runs_ret_inv. }
  rewrite Backoff_S. intros (t1 & y & t2 & -> & H1' & Hr)%runs_bind_inv.
  apply conditions_attempt_calls in H1' as [Hf Ha]. unfold reads_or_locked. rewrite Forall_app.
  destruct y as [[s' [e|[]]]|].
  - by apply runs_ret_inv in Hr as [-> ->].
  - apply runs_ret_inv in Hr as [-> ->]. split; [done|]. rewrite app_nil_r. eauto.
  - destruct (IH _ _ Hr) as [Hf2 Ha2]. split; [done|]. intros (c & r & Hin & Hc)%Ha2.
    exists c, r. split; [|done]. apply elem_of_app. by right.
  - by apply runs_ret_inv in Hr as [-> ->].
Qed.

Lemma patchStatusConditions_calls clock h obj force owned fm t x :
  runs (patchStatusConditions clock h obj force owned fm) t x →
  reads_or_locked t ∧
  (x = Val None → h_isConditionsSetter h = true → NewPatch (asObject (h_beforeObject h)) (asObject obj) ≠ [] →
   one_accepted t).
Proof.
  unfold patchStatusConditions. intros Hr.
  destruct (h_isConditionsSetter h); cbn [negb] in Hr; [|by apply runs_ret_inv in Hr as [-> _]].
  do 2 (destruct (negb _); [by apply runs_ret_inv in Hr as [-> ->]|]).
  destruct (Patch_IsZero _) eqn:Ez.
  - apply runs_ret_inv in Hr as [-> _]. apply Nat.eqb_eq in Ez. split; [constructor|].
    intros _ _ Hne. by destruct (NewPatch _ _).
  - apply Backoff_calls in Hr as [Hf Ha]. split; [done|]. auto.
Qed.
End runs.

(** ** The other two patches *)

(** What the conversions and merge patches are documented to do: a field that a
    map lacks gets its zero value, conditions are omitted when there are none,
    conversion and copy keep the type, and a merge patch has nothing where the
    two objects agree. *)
Class ConversionLaws (O GVK E Data : Type) `{PatchObject O GVK E Data} := {
  from_absent : ∀ u1 u2 (o1 o2 o1' o2' : O) k v1 v2,
    GoType o1 = GoType o2 → convFromUnstructured u1 o1 = (None, o1') → convFromUnstructured u2 o2 = (None, o2') →
    u1 !! k = None → u2 !! k = None →
    convToUnstructured o1' = inr v1 → convToUnstructured o2' = inr v2 → v1 !! k = v2 !! k;
  from_no_conditions : ∀ u (o o' : O) v,
    convFromUnstructured u o = (None, o') → value_at u status_conditions = None →
    convToUnstructured o' = inr v → value_at v status_conditions = None;
  from_type : ∀ u (o o' : O) e, convFromUnstructured u o = (e, o') → GoType o' = GoType o;
  copy_type : ∀ o1 o2 : O, GoType o1 = GoType o2 → GoType (DeepCopyObject o1) = GoType (DeepCopyObject o2);
  merge_same : ∀ (b a : O) d p, MergeData b a = inr d → UnmarshalData d = inr p →
    ∃ ub ua, convToUnstructured b = inr ub ∧ convToUnstructured a = inr ua ∧
      ∀ q, q ≠ [] → value_at ub q = value_at ua q → value_at p q = None }.

Section scope.
Context {O GVK E Data : Type} `{EqDecision GVK} `{PatchObject O GVK E Data} `{NestedFields E} `{SortFunc}.
Context `{ExponentialBackoff (perr E GVK)} `{NewAggregate (perr E GVK)} `{!ConversionLaws O GVK E Data}.
Implicit Types (h : Helper O GVK) (obj b a : O) (t : list (pcall O * preply O E)).

(** The fields that the patch of a part leaves alone. *)
Lemma calculatePatch_scope h obj focus h' b a d p k :
  GoType (h_beforeObject h) = GoType obj →
  calculatePatch h obj focus = (h', inr (b, a)) → MergeData b a = inr d → UnmarshalData d = inr p →
  k ≠ Key focus → preserveUnstructuredKeys k = false → p !! k = None.
Proof.
  intros Hty [Hb Ha]%calculatePatch_inv Hd Hp Hk Hpre.
  destruct (merge_same b a d p Hd Hp) as (ub & ua & Hub & Hua & Hq).
  apply (Hq [k]); [done|]. simpl. apply copy_type in Hty.
  eapply (from_absent (O := O) _ _ _ _ _ _ k); [exact Hty|exact Hb|exact Ha| | |done|done];
    by apply unsafeUnstructuredCopy_keys.
Qed.

Lemma calculatePatch_conditions h obj h' b a d p :
  h_isConditionsSetter h = true →
  calculatePatch h obj statusPatch = (h', inr (b, a)) → MergeData b a = inr d → UnmarshalData d = inr p →
  value_at p status_conditions = None.
Proof.
  intros Hs [Hb Ha]%calculatePatch_inv Hd Hp. rewrite Hs in Hb, Ha.
  destruct (merge_same b a d p Hd Hp) as (ub & ua & Hub & Hua & Hq). apply Hq; [done|].
  rewrite (from_no_conditions _ _ _ _ Hb (unsafeUnstructuredCopy_conditions _) Hub).
  by rewrite (from_no_conditions _ _ _ _ Ha (unsafeUnstructuredCopy_conditions _) Hua).
Qed.

Lemma prepare_keeps h obj options h1 obj1 e :
  prepare h obj options = (h1, obj1, e) →
  h_beforeObject h1 = h_beforeObject h ∧ h_isConditionsSetter h1 = h_isConditionsSetter h ∧ GoType obj1 = GoType obj.
Proof.
  unfold prepare. destruct (ToUnstructured obj) as [e0|after]; [by intros [= <- <- _]|].
  destruct (_ && _); [destruct (SetNestedField _ _ _) as [e0|after']; [by intros [= <- <- _]|]|].
  - destruct (convFromUnstructured after' obj) as [e1 obj'] eqn:Ef. apply from_type in Ef.
    destruct e1; cbn [fmap option_fmap option_map]; [by intros [= <- <- _]|].
    destruct (calculateChanges _ _); by intros [= <- <- _].
  - destruct (calculateChanges _ _); by intros [= <- <- _].
Qed.

(** C25. The patch of metadata and spec carries no status, the patch of the
    status carries no spec and, for an object with conditions, no conditions:
    those are written by the locked patches alone. *)
Theorem Helper_Patch_scoped clock h obj opts t x :
  GoType (h_beforeObject h) = GoType obj →
  runs (Helper_Patch clock h obj opts) t x →
  ∀ c r, (c, r) ∈ t →
  match c with
  | PGet _ _ => True
  | PPatch a b _ => ∀ d p, MergeData b a = inr d → UnmarshalData d = inr p → p !! str "status" = None
  | PStatusPatch a b lock _ => lock = false → ∀ d p, MergeData b a = inr d → UnmarshalData d = inr p →
      p !! str "spec" = None ∧ (h_isConditionsSetter h = true → value_at p status_conditions = None)
  end.
Proof.
  intros Hty Hr c r Hin. apply Helper_Patch_inv in Hr as [[-> _]|(h1 & obj' & t1 & t' & Hp & -> & Hst)];
    [by apply elem_of_nil in Hin|].
  apply prepare_keeps in Hp as (Hb1 & Hs1 & Hty1).
  assert (GoType (h_beforeObject h1) = GoType obj') as Hty' by congruence.
  apply elem_of_app in Hin as [Hin|Hin].
  { assert ((∃ key into, c = PGet key into) ∨ is_locked_patch c = true) as Hc.
    { destruct Hst as [(_ & _ & Hr)|(? & ? & ? & ? & ? & ? & ? & _ & Hr & _)];
        apply patchStatusConditions_calls in Hr as [Hr _]; red in Hr; rewrite Forall_forall in Hr; by apply (Hr _ Hin). }
    destruct Hc as [(key & into & ->)|Hc]; [done|]. destruct c as [| |? ? []]; done. }
  destruct Hst as [(_ & -> & _)|(h2 & h3 & t2 & t3 & e1 & e2 & e3 & -> & _ & Hspec & Hstatus & _)];
    [by apply elem_of_nil in Hin|].
  destruct Hspec as [(_ & Hb2 & Hs2) Hspec], Hstatus as [_ Hstatus].
  apply elem_of_app in Hin as [Hin|Hin].
  - destruct Hspec as [[-> _]|(b & a & r' & Hc & -> & _)]; [by apply elem_of_nil in Hin|].
    apply list_elem_of_singleton in Hin as [= -> ->]. intros d p Hd Hp.
    by eapply calculatePatch_scope.
  - destruct Hstatus as [[-> _]|(b & a & r' & Hc & -> & _)]; [by apply elem_of_nil in Hin|].
    apply list_elem_of_singleton in Hin as [= -> ->]. intros _ d p Hd Hp.
    assert (GoType (h_beforeObject h2) = GoType obj') by congruence. split; [by eapply calculatePatch_scope|].
    intros Hs. eapply calculatePatch_conditions; [|done..]. congruence.
Qed.

(** ** Success *)

(** What was to be sent for an object: its fields differ from the helper's. *)
Definition all_sent h (obj : O) t : Prop :=
  (h_isConditionsSetter h = true → NewPatch (asObject (h_beforeObject h)) (asObject obj) ≠ [] →
   ∃ c r, (c, r) ∈ t ∧ is_locked_patch c = true ∧ p_err r = None) ∧
  (∀ d p, MergeData (h_beforeObject h) obj = inr d → UnmarshalData d = inr p →
   (is_Some (p !! str "metadata") ∨ is_Some (p !! str "spec") →
    ∃ a b fo r, (PPatch a b fo, r) ∈ t ∧ p_err r = None) ∧
   (is_Some (p !! str "status") → ∃ a b fm r, (PStatusPatch a b false fm, r) ∈ t ∧ p_err r = None)).

Lemma prepare_changes h obj options h1 obj1 :
  prepare h obj options = (h1, obj1, None) → calculateChanges h obj1 = inr (h_changes h1).
Proof.
  assert (∀ h' o, h_beforeObject h' = h_beforeObject h → calculateChanges h' o = calculateChanges h o) as Hsame.
  { unfold calculateChanges. by intros h' o ->. }
  unfold prepare. destruct (ToUnstructured obj) as [e0|after]; [done|].
  destruct (_ && _); [destruct (SetNestedField _ _ _) as [e0|after']; [done|]|].
  - destruct (convFromUnstructured after' obj) as [[e1|] obj']; [done|]. cbn [fmap option_fmap option_map].
    rewrite Hsame by done. destruct (calculateChanges h obj') as [|ch] eqn:Ec; [done|]. by intros [= <- <-].
  - rewrite Hsame by done. destruct (calculateChanges h obj) as [|ch] eqn:Ec; [done|]. by intros [= <- <-].
Qed.

Lemma sends_part_accepted h obj focus mk t h' :
  sends_part h obj focus true mk t h' None → ∃ a b r, (mk a b, r) ∈ t ∧ p_err r = None.
Proof.
  intros [_ [[_ Hne]|(b & a & r & _ & -> & He)]]; [by destruct Hne|].
  exists a, b, r. split; [by left|auto].
Qed.

(** A patch that reports no error sent everything, and all of it was accepted. *)
Lemma Helper_Patch_all_sent clock h obj opts t h' obj' :
  runs (Helper_Patch clock h obj opts) t (Val (h', obj', None)) → all_sent h obj' t.
Proof.
  intros [[_ (? & ? & ? & ?)]|(h1 & obj1 & t1 & t' & Hp & -> & Hst)]%Helper_Patch_inv; [done|].
  destruct Hst as [(? & _)|(h2 & h3 & t2 & t3 & e1 & e2 & e3 & -> & Hc & Hspec & Hstatus & Heq)]; [done|].
  pose proof (prepare_changes _ _ _ _ _ Hp) as Hch. apply prepare_keeps in Hp as (Hb1 & Hs1 & _).
  injection Heq as <- <- Hagg. symmetry in Hagg. apply newAggregate_None in Hagg.
  apply Forall_cons in Hagg as [-> Hagg]. apply Forall_cons in Hagg as [-> Hagg]. apply Forall_cons in Hagg as [-> _].
  apply patchStatusConditions_calls in Hc as [_ Hc]. rewrite Hs1, Hb1 in Hc.
  pose proof Hspec as [(Hch2 & _) _]. split.
  { intros Hs Hne. destruct (Hc eq_refl Hs Hne) as (c & r & Hin & Hok). exists c, r.
    split; [|done]. apply elem_of_app. by left. }
  intros d p Hd Hu. unfold calculateChanges in Hch. rewrite Hd, Hu in Hch. injection Hch as Hch.
  unfold shouldPatch in Hspec, Hstatus. rewrite Hch2 in Hstatus. rewrite <-Hch in Hspec, Hstatus. split.
  - intros Hk. rewrite <-!elem_of_dom in Hk.
    assert (bool_decide (str "metadata" ∈ dom p) || bool_decide (str "spec" ∈ dom p) = true) as Hsp.
    { apply orb_true_iff. rewrite !bool_decide_eq_true. done. }
    rewrite Hsp in Hspec. apply sends_part_accepted in Hspec as (a & b & r & Hin & Hok).
    eexists a, b, _, r. split; [|done]. apply elem_of_app. right. apply elem_of_app. left. done.
  - intros Hk%elem_of_dom. rewrite bool_decide_eq_true_2 in Hstatus by done.
    apply sends_part_accepted in Hstatus as (a & b & r & Hin & Hok).
    eexists a, b, _, r. split; [|done]. apply elem_of_app. right. apply elem_of_app. right. done.
Qed.

(** The serial patcher moves on only when everything was sent: after an
    error it keeps the object the next patch is compared to, after a success
    it keeps a copy of the caller's object, and every difference from the
    previous one was in a patch that the server accepted. *)
Theorem SerialPatcher_Patch_advances clock before obj opts t before' obj' e :
  runs (SerialPatcher_Patch clock before obj opts) t (Val (before', obj', e)) →
  match e with
  | Some _ => before' = before
  | None => before' = DeepCopyObject obj' ∧ ∃ h, NewHelper before = inr h ∧ all_sent h obj' t
  end.
Proof.
  unfold SerialPatcher_Patch. destruct (NewHelper before) as [e0|h] eqn:En.
  { by intros [_ [= -> _ ->]]%runs_ret_inv. }
  intros (t1 & [[[h' obj1] [e1|]]|] & t2 & -> & Hr & Hret)%runs_bind_inv;
    apply runs_ret_inv in Hret as [-> Heq]; [by injection Heq as -> _ ->| |done].
  injection Heq as -> -> ->. split; [done|]. exists h. split; [done|]. rewrite app_nil_r.
  by eapply Helper_Patch_all_sent.
Qed.
End scope.

(** * The patch helper on concrete objects

    Objects that are maps with a list of conditions satisfy the laws, and a
    server that rejects the first patch shows the results at work. *)

(** ** Nested fields *)

Fixpoint demo_remove (u : vmap) (p : list bytes) : vmap :=
  match p with
  | [] => u
  | [k] => delete k u
  | k :: p => match u !! k with Some (VMap m) => <[k := VMap (demo_remove m p)]> u | _ => u end
  end.

Lemma demo_remove_at u p : p ≠ [] → value_at (demo_remove u p) p = None.
Proof.
  revert u. induction p as [|k p IH]; intros u Hp; [done|]. destruct p as [|k' p]; [apply lookup_delete_eq|].
  cbn [demo_remove]. destruct (u !! k) as [[]|] eqn:E; cbn [value_at]; try by rewrite E.
  rewrite lookup_insert_eq. by apply IH.
Qed.

Lemma demo_remove_ne u k p k' : k' ≠ k → demo_remove u (k :: p) !! k' = u !! k'.
Proof.
  intros Hk. destruct p as [|? p]; [by apply lookup_delete_ne|]. cbn [demo_remove].
  destruct (u !! k) as [[]|]; try done. by apply lookup_insert_ne.
Qed.

Lemma demo_remove_eq u u' k p : u !! k = u' !! k → demo_remove u (k :: p) !! k = demo_remove u' (k :: p) !! k.
Proof.
  intros Hk. destruct p as [|? p]; [cbn [demo_remove]; by rewrite !lookup_delete_eq|]. cbn [demo_remove]. rewrite <-Hk.
  destruct (u !! k) as [[]|] eqn:E; try congruence. by rewrite !lookup_insert_eq.
Qed.

#[local] Instance demo_nested : NestedFields string := {|
  GetGeneration := λ _, 1%Z;
  SetNestedField := λ u v p, match p with [k] => inr (<[k := v]> u) | _ => inl "too deep" end;
  RemoveNestedField := demo_remove;
  RemoveNestedField_at := demo_remove_at;
  RemoveNestedField_ne := demo_remove_ne;
  RemoveNestedField_eq := demo_remove_eq |}.

(** ** Merge patches *)

(** The difference of two values, down to a depth; numbers and strings are
    compared, other scalars are not. *)
Fixpoint demo_diff (n : nat) (x y : option value) : option value :=
  match n with
  | 0 => None
  | S n =>
      match x, y with
      | Some _, None => Some VNil
      | None, Some v => Some v
      | Some (VMap m), Some (VMap m') =>
          let d := merge (demo_diff n) m m' in if size d =? 0 then None else Some (VMap d)
      | Some (VStr s), Some (VStr s') => if bool_decide (s = s') then None else Some (VStr s')
      | Some (VInt z), Some (VInt z') => if (z =? z')%Z then None else Some (VInt z')
      | _, _ => None
      end
  end.

Lemma demo_diff_nil n : demo_diff n None None = None.
Proof. by destruct n. Qed.

Lemma lookup_demo_diff (n : nat) (m m' : vmap) (k : bytes) : merge (demo_diff n) m m' !! k = demo_diff n (m !! k) (m' !! k).
Proof. rewrite lookup_merge. destruct (m !! k), (m' !! k); try done. simpl. by rewrite demo_diff_nil. Qed.

Lemma demo_diff_refl n x : demo_diff n x x = None.
Proof.
  revert x. induction n as [|n IH]; intros [[]|]; try done; cbn [demo_diff].
  - by rewrite Z.eqb_refl.
  - by rewrite bool_decide_eq_true_2.
  - replace (merge (demo_diff n) m m) with (∅ : vmap); [done|].
    apply map_eq. intros k. by rewrite lookup_demo_diff, IH, lookup_empty.
Qed.

Lemma demo_diff_same (n : nat) (m m' : vmap) (q : list bytes) :
  q ≠ [] → value_at m q = value_at m' q → value_at (merge (demo_diff n) m m') q = None.
Proof.
  revert n m m'. induction q as [|k q IH]; intros n m m' Hq Heq; [done|]. destruct q as [|k' q].
  { cbn [value_at] in *. by rewrite lookup_demo_diff, Heq, demo_diff_refl. }
  cbn [value_at] in *. rewrite lookup_demo_diff. destruct n as [|n]; [done|]. cbn [demo_diff].
  destruct (m !! k) as [[]|], (m' !! k) as [[]|]; try done; try (by destruct (bool_decide _)); try (by destruct (_ =? _)%Z).
  - cbv zeta. destruct (_ =? _); [done|]. by apply IH.
Qed.

(** ** Objects *)

Record demo := mkDemo { d_fields : vmap; d_conditions : list Condition }.

#[local] Instance demo_object : PatchObject demo string string (vmap) := {|
  GVKForObject := λ _, inr "demo/v1, Kind=Demo";
  GoType := λ _, "*demo";
  isRuntimeUnstructured := λ _, false;
  isSetter := λ _, true;
  isGetter := λ _, true;
  DeepCopyObject := λ o, o;
  ObjectKey := λ _, ("default", "app");
  convToUnstructured := λ o, inr (d_fields o);
  convFromUnstructured := λ u o, (None, mkDemo u (d_conditions o));
  asObject := λ o, mkObject "Demo" "app" 2 (d_conditions o);
  putConditions := λ o l, mkDemo (d_fields o) l;
  asObject_put := λ o l, eq_refl;
  MergeData := λ b a, inr (merge (demo_diff 3) (d_fields b) (d_fields a));
  UnmarshalData := λ d, inr d;
  IsConflict := λ e, bool_decide (e = "conflict") |}.

#[local] Instance demo_laws : ConversionLaws demo string string (vmap).
Proof.
  split.
  - intros. simplify_eq/=. congruence.
  - intros. by simplify_eq/=.
  - done.
  - done.
  - intros b a d p [= <-] [= <-]. eexists _, _. split_and!; [done..|]. intros q. apply (demo_diff_same 3).
Qed.

Fixpoint demo_backoff {C R S : Type} (n : nat) (f : S → prog C R (res (S * (perr string string + bool)))) (s : S)
    : prog C R (res (option (perr string string))) :=
  match n with
  | 0 => Ret (Val (Some WaitTimeout))
  | Datatypes.S n =>
      f s ≫= λ r, match r with
                  | Panics => Ret Panics
                  | Val (_, inl e) => Ret (Val (Some e))
                  | Val (_, inr true) => Ret (Val None)
                  | Val (s, inr false) => demo_backoff n f s
                  end
  end.
#[local] Instance demo_Backoff : ExponentialBackoff (perr string string) := {|
  Backoff := @demo_backoff; BackoffTimeout := WaitTimeout;
  Backoff_0 := λ C R S f s, eq_refl; Backoff_S := λ C R S n f s, eq_refl |}.

Definition demo_aggregate (l : list (option (perr string string))) : option (perr string string) :=
  match omap id l with [] => None | l => Some (Aggregate l) end.
Lemma demo_aggregate_None l : demo_aggregate l = None ↔ Forall (λ e, e = None) l.
Proof.
  unfold demo_aggregate. induction l as [|[e|] l IH]; simpl.
  - done.
  - rewrite Forall_cons. split; [done|]. by intros [? _].
  - rewrite Forall_cons, IH. tauto.
Qed.
#[local] Instance demo_NewAggregate : NewAggregate (perr string string) :=
  {| newAggregate := demo_aggregate; newAggregate_None := demo_aggregate_None |}.

(** ** A patch that conflicts once *)

Definition fields (revision : string) : vmap :=
  list_to_map [(str "spec", VStr (str "v1")); (str "metadata", VStr (str "app"));
    (str "status", VMap (list_to_map [(str "revision", VStr (str revision)); (str "conditions", VNil)]))].

(** What the controller read, what it wants, and what the server has. *)
Definition demo_before : demo := mkDemo (fields "a") (GetConditions patch_before).
Definition demo_after : demo := mkDemo (fields "b") (GetConditions patch_after).
Definition demo_latest : demo := mkDemo (fields "a") (GetConditions patch_latest).

Definition demo_helper : Helper demo string :=
  mkHelper "demo/v1, Kind=Demo" demo_before (fields "a") ∅ ∅ true.

(** The first patch is rejected, the others are accepted. *)
Definition demo_server (hist : list (pcall demo * preply demo string)) (c : pcall demo) : preply demo string :=
  match c with
  | PGet _ _ => mkPReply None demo_latest
  | _ => mkPReply (if length hist =? 1 then Some "conflict" else None) demo_latest
  end.

Definition demo_conditions_run :=
  run demo_server [] (patchStatusConditions (λ _ _, 5%Z) demo_helper demo_after false [] "owner").
Definition demo_patch_run :=
  run demo_server [] (Helper_Patch (λ _ _, 5%Z) demo_helper demo_after []).
Definition demo_serial_run :=
  run demo_server [] (SerialPatcher_Patch (λ _ _, 5%Z) demo_before demo_after []).

Lemma run_empty {C R A} server (p : prog C R A) : runs p (run server [] p).2 (run server [] p).1.
Proof.
  destruct (run server [] p) as [a t] eqn:E. apply run_runs in E as (t' & -> & Hr). by rewrite app_nil_l.
Qed.

Example demo_outcome : demo_conditions_run.1 = Val None ∧ length demo_conditions_run.2 = 4.
Proof. by vm_compute. Qed.
Example demo_patch_outcome : length demo_patch_run.2 = 5 ∧ length demo_serial_run.2 = 5.
Proof. by vm_compute. Qed.

Lemma run_answers {C R A} server hist (p : prog C R A) ev :
  ev ∈ (run server hist p).2 → ev ∈ hist ∨ ∃ hist', ev.2 = server hist' ev.1.
Proof.
  revert hist. induction p as [a|c k IH]; intros hist; cbn [run]; [by left|].
  intros [Hin|?]%IH; [|by right]. apply elem_of_app in Hin as [?|Hin]; [by left|].
  apply list_elem_of_singleton in Hin as ->. right. by exists hist.
Qed.

Lemma demo_answers {A} (p : prog _ _ A) : answers_wf (run demo_server [] p).2.
Proof.
  intros key into r Hin _. apply run_answers in Hin as [Hin|(hist & Hr)]; [by apply elem_of_nil in Hin|].
  cbn [snd fst demo_server] in Hr. subst r. exact patch_latest_wf.
Qed.

Lemma demo_nodup_before : NoDup (types (GetConditions (asObject demo_before))).
Proof. apply (NoDup_singleton ReadyCondition). Qed.
Lemma demo_nodup_after : NoDup (types (GetConditions (asObject demo_after))).
Proof. apply (NoDup_singleton ReadyCondition). Qed.

(** The second attempt is the accepted one. *)
Lemma patchStatusConditions_merges_witness :
  demo_conditions_run.1 = Val None ∧
  ∃ at_, merge_attempt demo_before demo_after ("default", "app") "owner" at_ ∧ accepted at_.
Proof.
  assert (demo_conditions_run.1 = Val None) as Hx by by vm_compute. split; [done|].
  destruct (patchStatusConditions_merges (λ _ _, 5%Z) demo_helper demo_after false [] "owner"
    demo_conditions_run.2 demo_conditions_run.1 demo_nodup_before demo_nodup_after
    (run_empty _ _) (demo_answers _)) as [[Ht _]|(l & _ & _ & Hm & _ & Hlast & _)].
  - assert (length demo_conditions_run.2 = 4) as Hl by by vm_compute. by rewrite Ht in Hl.
  - destruct (Hlast Hx) as (at_ & Hl & Hacc). exists at_. split; [|done].
    rewrite Forall_forall in Hm. apply Hm. apply last_Some_elem_of in Hl. done.
Defined.

(** The patch of the status, which the conditions are not part of. *)
Lemma Helper_Patch_scoped_witness :
  ∃ a b fm r, (PStatusPatch a b false fm, r) ∈ demo_patch_run.2 ∧
    ∀ d p, MergeData b a = inr d → UnmarshalData d = inr p →
      p !! str "spec" = None ∧ value_at p status_conditions = None.
Proof.
  destruct (last demo_patch_run.2) as [ev|] eqn:Hl.
  2: { assert (length demo_patch_run.2 = 5) as Hlen by by vm_compute.
       apply last_None in Hl. by rewrite Hl in Hlen. }
  assert (is_Some (last demo_patch_run.2 ≫= λ ev, match ev.1 with PStatusPatch _ _ false _ => Some tt | _ => None end)) as Hs
    by (vm_compute; eauto).
  rewrite Hl in Hs. apply last_Some_elem_of in Hl. destruct ev as [c r]. cbn in Hs.
  destruct c as [| |a b [] fm]; cbn in Hs; try by destruct Hs. exists a, b, fm, r. split; [done|]. intros d p Hd Hp.
  assert (GoType (h_beforeObject demo_helper) = GoType demo_after) as Hty by reflexivity.
  destruct (Helper_Patch_scoped (λ _ _, 5%Z) demo_helper demo_after [] demo_patch_run.2 demo_patch_run.1
    Hty (run_empty _ _) _ _ Hl eq_refl d p Hd Hp) as [H1 H2].
  split; [exact H1|]. apply H2. reflexivity.
Defined.

Lemma SerialPatcher_Patch_advances_witness :
  ∃ h, NewHelper demo_before = inr h ∧ all_sent h demo_after demo_serial_run.2.
Proof.
  assert (demo_serial_run.1 = Val (demo_after, demo_after, None)) as Hx by by vm_compute.
  pose proof (run_empty demo_server (SerialPatcher_Patch (λ _ _, 5%Z) demo_before demo_after [])) as Hr.
  fold demo_serial_run in Hr. rewrite Hx in Hr.
  exact (proj2 (SerialPatcher_Patch_advances (λ _ _, 5%Z) demo_before demo_after [] demo_serial_run.2
    demo_after demo_after None Hr)).
Defined.
