(* ===== verification/ChartMerge.v ===== *)
(** * Chart values: merging maps ([chartutil/merge.go])

    Go maps are references: [MergeMaps] copies the top level of its arguments
    and shares what it does not merge.  Maps live in a heap, so that sharing is
    visible to code that writes into the result. *)

From S2P Require Import Prelude Utf8 Json.

(** ** The heap *)

(** A map variable is a reference, or nil. *)
Definition ref : Type := option nat.
(** A value is a map or a value without maps to merge. *)
Inductive hval := HMap (l : ref) | HVal (v : value).
Abbreviation heap := (gmap nat (gmap bytes hval)) (only parsing).

Definition alloc (h : heap) (m : gmap bytes hval) : heap * nat :=
  let l := fresh (dom h) in (<[l := m]> h, l).

(** The entries of a map; nil has none. *)
Definition load (h : heap) (l : ref) : option (gmap bytes hval) := match l with Some l => h !! l | None => Some ∅ end.

(** The value that a reference stands for. *)
Inductive denotes (h : heap) : hval → value → Prop :=
  | denotes_val v : as_map v = None → denotes h (HVal v) v
  | denotes_map l m vm : load h l = Some m →
      (∀ k : bytes, option_Forall2 (denotes h) (m !! k) (vm !! k)) → denotes h (HMap l) (VMap vm).

(** ** The code *)

(** The entries of [b] are merged into [out], in any order.  [fuel] bounds the
    depth.  [src/chartutil/merge.go:28-38 MergeMaps] *)
Fixpoint merge_loop (rec : heap → ref → ref → option (heap * nat)) (entries : list (bytes * hval))
    (h : heap) (out : gmap bytes hval) : option (heap * gmap bytes hval) :=
  match entries with
  | [] => Some (h, out)
  | (k, v) :: entries =>
      match v, out !! k with
      | HMap vl, Some (HMap bl) =>
          '(h, l) ← rec h bl vl; merge_loop rec entries h (<[k := HMap (Some l)]> out)
      | _, _ => merge_loop rec entries h (<[k := v]> out)
      end
  end.

(** [src/chartutil/merge.go:19-40 MergeMaps] *)
Fixpoint MergeMaps (fuel : nat) (h : heap) (a b : ref) : option (heap * nat) :=
  match fuel with
  | 0 => None
  | S fuel =>
      ma ← load h a; mb ← load h b;
      '(h, out) ← merge_loop (MergeMaps fuel) (map_to_list mb) h ma;
      Some (alloc h out)
  end.

(** ** The specification *)

(** The merge of two values without sharing: maps are merged key by key, any
    other value of the second argument replaces the first. *)
Fixpoint merge_values (fuel : nat) (a b : value) : value :=
  match fuel with
  | 0 => b
  | S fuel =>
      match a, b with
      | VMap ma, VMap mb => VMap (union_with (λ x y, Some (merge_values fuel x y)) ma mb)
      | _, _ => b
      end
  end.

(** The depth of [b] is enough. *)
Definition merged (a b : value) : value := merge_values (vsize b) a b.

Lemma merge_values_fuel n1 n2 a b : vsize b ≤ n1 → vsize b ≤ n2 → merge_values n1 a b = merge_values n2 a b.
Proof.
  revert n2 a b. induction n1 as [|n1 IH]; intros n2 a b H1 H2.
  { destruct b; simpl in H1; lia. }
  destruct n2 as [|n2]; [destruct b; simpl in H2; lia|]. simpl.
  destruct a as [| | | | | |ma], b as [| | | | | |mb]; try done. f_equal. apply map_eq. intros k.
  rewrite !lookup_union_with. destruct (ma !! k), (mb !! k) as [y|] eqn:Ey; try done. simpl. f_equal.
  pose proof (vsize_lookup _ _ _ Ey). apply IH; lia.
Qed.

(** Key by key. *)
Lemma merged_lookup (ma mb : vmap) :
  ∃ m, merged (VMap ma) (VMap mb) = VMap m ∧
    ∀ k : bytes, m !! k = match ma !! k, mb !! k with
                  | Some x, Some y => Some (merged x y)
                  | Some x, None => Some x
                  | None, y => y
                  end.
Proof.
  unfold merged at 1. destruct (vsize (VMap mb)) as [|n] eqn:En; [by simpl in En|]. simpl.
  eexists. split; [done|]. intros k. rewrite lookup_union_with.
  destruct (ma !! k), (mb !! k) as [y|] eqn:Ey; try done. simpl. f_equal.
  pose proof (vsize_lookup _ _ _ Ey). unfold merged. apply merge_values_fuel; lia.
Qed.

Lemma merged_scalar a b : as_map b = None → merged a b = b.
Proof. unfold merged. destruct b; intros; try done; by destruct a. Qed.

Lemma merged_replaces a b : as_map a = None → merged a b = b.
Proof. unfold merged. destruct (vsize b); [done|]. by destruct a, b. Qed.

(** ** Growing heaps *)

(** Allocation leaves the maps that are there as they are. *)
Definition extends (h h' : heap) : Prop := h ⊆ h'.

Lemma alloc_extends h m h' l : alloc h m = (h', l) → extends h h' ∧ h' !! l = Some m ∧ l ∉ dom h.
Proof.
  unfold alloc. intros [= <- <-]. assert (fresh (dom h) ∉ dom h) as Hf by apply is_fresh.
  split_and!; [|by rewrite lookup_insert_eq|done]. by apply insert_subseteq, not_elem_of_dom.
Qed.

Lemma load_extends h h' l m : load h l = Some m → extends h h' → load h' l = Some m.
Proof. destruct l; [|done]. apply lookup_weaken. Qed.

Lemma extends_dom h h' l : extends h h' → l ∉ dom h' → l ∉ dom h.
Proof. intros He Hl Hin. apply Hl. by apply (subseteq_dom _ _ He). Qed.

Lemma denotes_extends h h' v x : denotes h v x → extends h h' → denotes h' v x.
Proof.
  intros Hd He. revert v Hd. induction x as [| | | | | |m IH] using value_nested_ind; intros v Hd;
    inversion Hd as [? Hv|l' m' vm Hl Hm]; subst; try (by constructor); try done.
  econstructor; [by eapply load_extends|]. intros k. specialize (Hm k). specialize (IH k).
  destruct (m !! k) as [y|]; inversion Hm; subst; constructor. by apply IH.
Qed.

Lemma option_denotes_extends h h' x y :
  option_Forall2 (denotes h) x y → extends h h' → option_Forall2 (denotes h') x y.
Proof. intros [] He; constructor. by eapply denotes_extends. Qed.

Lemma extends_trans h1 h2 h3 : extends h1 h2 → extends h2 h3 → extends h1 h3.
Proof. apply transitivity. Qed.

(** ** Refinement *)

(** What a call of [MergeMaps] on arguments that denote maps does. *)
Definition merge_ok (fuel : nat) (rec : heap → ref → ref → option (heap * nat)) : Prop :=
  ∀ h a b va vb, denotes h (HMap a) (VMap va) → denotes h (HMap b) (VMap vb) → vsize (VMap vb) ≤ fuel →
    ∃ h' l, rec h a b = Some (h', l) ∧ extends h h' ∧ (l ∉ dom h) ∧
      denotes h' (HMap (Some l)) (merged (VMap va) (VMap vb)).

Definition merge_opt (x y : option value) : option value :=
  match x, y with
  | Some x, Some y => Some (merged x y)
  | Some x, None => Some x
  | None, y => y
  end.

(** One entry: the heap and the value that is stored. *)
Lemma merge_entry (fuel : nat) (rec : heap → ref → ref → option (heap * nat)) (h : heap) (out : gmap bytes hval) (k : bytes) (v : hval) (y : value)
    (x : option value) :
  merge_ok fuel rec → denotes h v y → vsize y ≤ fuel → option_Forall2 (denotes h) (out !! k) x →
  ∃ h' w, (∀ entries, merge_loop rec ((k, v) :: entries) h out = merge_loop rec entries h' (<[k := w]> out)) ∧
    extends h h' ∧ option_Forall2 (denotes h') (Some w) (merge_opt x (Some y)).
Proof.
  intros Hrec Hv Hy Hx. simpl.
  destruct v as [vl|v0]; [destruct (out !! k) as [[bl|u]|] eqn:Eo|]; inversion Hx as [? x' Hx'|]; subst; simpl.
  - inversion Hx' as [|? ? ma ? Hma]; subst. inversion Hv as [|? ? mb ? Hmb]; subst.
    destruct (Hrec h bl vl ma mb) as (h' & l & E & He & _ & Hd); [done..|].
    exists h', (HMap (Some l)). rewrite E. split_and!; [done..|by constructor].
  - inversion Hx' as [? Hm|]; subst. exists h, (HMap vl). rewrite merged_replaces by done.
    split_and!; [done..|by constructor].
  - exists h, (HMap vl). split_and!; [done..|by constructor].
  - inversion Hv as [? Hm|]; subst. exists h, (HVal y). rewrite merged_scalar by done.
    split_and!; [done..|by constructor].
  - exists h, (HVal v0). split_and!; [done..|by constructor].
Qed.

Lemma merge_loop_spec (fuel : nat) (rec : heap → ref → ref → option (heap * nat)) (vb : vmap) (entries : list (bytes * hval)) (h : heap) (out : gmap bytes hval) (cur : vmap) :
  merge_ok fuel rec → NoDup entries.*1 →
  (∀ k v, (k, v) ∈ entries → ∃ y, vb !! k = Some y ∧ denotes h v y ∧ vsize y ≤ fuel) →
  (∀ k : bytes, option_Forall2 (denotes h) (out !! k) (cur !! k)) →
  ∃ h' out' (fin : vmap), merge_loop rec entries h out = Some (h', out') ∧ extends h h' ∧
    (∀ k : bytes, option_Forall2 (denotes h') (out' !! k) (fin !! k)) ∧
    (∀ k : bytes, fin !! k = if decide (k ∈ entries.*1) then merge_opt (cur !! k) (vb !! k) else cur !! k).
Proof.
  intros Hrec. revert h out cur. induction entries as [|[k v] entries IH]; intros h out cur Hnd Hv Hout.
  { exists h, out, cur. split_and!; [done..|]. done. }
  simpl in Hnd. apply NoDup_cons in Hnd as [Hk Hnd].
  destruct (Hv k v) as (y & Hy & Hvy & Hsz); [by constructor|].
  destruct (merge_entry fuel rec h out k v y (cur !! k)) as (h1 & w & Hstep & He1 & Hw); [done..|].
  rewrite Hstep. destruct (merge_opt (cur !! k) (Some y)) as [z|] eqn:Ez; [|by inversion Hw].
  destruct (IH h1 (<[k := w]> out) (<[k := z]> cur)) as (h2 & out' & fin & -> & He2 & Hd & Hfin); [done|..].
  { intros k' v' Hin. destruct (Hv k' v') as (y' & ? & ? & ?); [by constructor|].
    exists y'. split_and!; [done| |done]. by eapply denotes_extends. }
  { intros j. destruct (decide (j = k)) as [->|]; [by rewrite !lookup_insert_eq|].
    rewrite !lookup_insert_ne by done. by eapply option_denotes_extends. }
  exists h2, out', fin. split_and!; [done|by eapply extends_trans|done|]. intros j. rewrite Hfin.
  cbn [fmap list_fmap fst]. destruct (decide (j = k)) as [->|Hjk].
  - rewrite decide_False, decide_True, lookup_insert_eq by (done || by constructor). by rewrite Hy, Ez.
  - rewrite lookup_insert_ne by done.
    by rewrite (decide_ext (j ∈ k :: entries.*1) (j ∈ entries.*1)) by (rewrite elem_of_cons; naive_solver).
Qed.

Lemma MergeMaps_ok fuel : merge_ok fuel (MergeMaps fuel).
Proof.
  induction fuel as [|fuel IH]; intros h a b va vb Ha Hb Hsz; [simpl in Hsz; lia|].
  inversion Ha as [|? ma ? Hla Hma]; subst. inversion Hb as [|? mb ? Hlb Hmb]; subst.
  cbn [MergeMaps]. rewrite Hla. cbn [mbind option_bind]. rewrite Hlb. cbn [mbind option_bind].
  destruct (merge_loop_spec fuel (MergeMaps fuel) vb (map_to_list mb) h ma va)
    as (h' & out & fin & -> & He & Hout & Hfin); [done|apply NoDup_fst_map_to_list| |done|].
  { intros k v Hin%elem_of_map_to_list. specialize (Hmb k). rewrite Hin in Hmb.
    destruct (vb !! k) as [y|] eqn:Ey; inversion Hmb; subst. exists y. split_and!; [done..|].
    pose proof (vsize_lookup _ _ _ Ey). lia. }
  cbn [mbind option_bind]. destruct (alloc h' out) as [h2 l] eqn:Eal.
  apply alloc_extends in Eal as (He2 & Hl & Hf). exists h2, l. split_and!; [done|by eapply extends_trans|by eapply extends_dom|].
  destruct (merged_lookup va vb) as (m & -> & Hm). econstructor; [done|]. intros k.
  eapply option_denotes_extends; [|done]. replace (m !! k) with (fin !! k); [done|].
  rewrite Hfin, Hm. specialize (Hmb k). case_decide as Hk.
  - by destruct (va !! k), (vb !! k).
  - assert (mb !! k = None) as En.
    { apply eq_None_not_Some. intros [v Hv]. apply Hk. apply list_elem_of_fmap. exists (k, v).
      by rewrite elem_of_map_to_list. }
    rewrite En in Hmb. inversion Hmb. by destruct (va !! k).
Qed.

(** C27. [MergeMaps] terminates and merges by value: on maps, which may be nil, it
    returns, with fuel for the size of the second argument, a reference to a
    new map, one that was not in the heap, which denotes the merge of the two
    values (nested maps key by key, any other value of the second argument
    wins), and it writes no map that was there before.  The maps have no
    cycles, as they denote values. *)
Theorem MergeMaps_refines (fuel : nat) (h : heap) (a b : ref) (va vb : vmap) :
  denotes h (HMap a) (VMap va) → denotes h (HMap b) (VMap vb) → vsize (VMap vb) ≤ fuel →
  ∃ h' l, MergeMaps fuel h a b = Some (h', l) ∧ h ⊆ h' ∧ (l ∉ dom h) ∧
    denotes h' (HMap (Some l)) (merged (VMap va) (VMap vb)).
Proof. apply MergeMaps_ok. Qed.

(** ** Paths of a merge *)

(** The value at a path of keys. *)
Fixpoint at_path (p : list bytes) (v : value) : option value :=
  match p with
  | [] => Some v
  | k :: p => match v with VMap m => m !! k ≫= at_path p | _ => None end
  end.

(** A value of the second argument that is not a map is in the merge. *)
Lemma merged_right_wins p a b x :
  at_path p b = Some x → as_map x = None → at_path p (merged a b) = Some x.
Proof.
  revert a b. induction p as [|k p IH]; intros a b Hb Hx; simpl in Hb.
  { simplify_eq. by rewrite merged_scalar. }
  destruct b as [| | | | | |mb]; try done. destruct (mb !! k) as [y|] eqn:Ey; [|done]. simpl in Hb.
  destruct a as [| | | | | |ma]; try (by rewrite merged_replaces by done; simpl; rewrite Ey).
  destruct (merged_lookup ma mb) as (m & -> & Hm). simpl. rewrite Hm, Ey.
  destruct (ma !! k) as [z|]; simpl; [by apply IH|done].
Qed.

(** A value of the first argument stays where the second has nothing, or has a
    map on the way and nothing at its end. *)
Lemma merged_left_stays p a b x :
  at_path p a = Some x → at_path p b = None → 
  (∀ q r y, p = q ++ r → at_path q b = Some y → is_Some (as_map y)) →
  at_path p (merged a b) = Some x.
Proof.
  revert a b. induction p as [|k p IH]; intros a b Ha Hb Hmaps; [done|].
  destruct (Hmaps [] (k :: p) b eq_refl eq_refl) as [mb Emb]. destruct b as [| | | | | |mb']; try done.
  simpl in Emb. simplify_eq. destruct a as [| | | | | |ma]; try done. simpl in Ha, Hb.
  destruct (ma !! k) as [z|] eqn:Ez; [|done]. simpl in Ha.
  destruct (merged_lookup ma mb) as (m & -> & Hm). simpl. rewrite Hm, Ez.
  destruct (mb !! k) as [y|] eqn:Ey; simpl in *; [|done]. apply IH; [done..|].
  intros q r w -> Hq. apply (Hmaps (k :: q) r w); [done|]. simpl. by rewrite Ey.
Qed.

Definition demo_heap : heap :=
  <[0 := {[str "a" := HMap (Some 1)]}]> (<[1 := {[str "x" := HVal (VInt 1)]}]>
  (<[2 := {[str "a" := HMap (Some 3)]}]> {[3 := {[str "y" := HVal (VInt 2)]}]})).

Definition demo_nested (k : string) (z : Z) : vmap := {[str "a" := VMap {[str k := VInt z]}]}.

Lemma demo_denotes i j k z :
  demo_heap !! i = Some {[str "a" := HMap (Some j)]} → demo_heap !! j = Some {[str k := HVal (VInt z)]} →
  denotes demo_heap (HMap (Some i)) (VMap (demo_nested k z)).
Proof.
  intros Hi Hj. econstructor; [exact Hi|]. intros x. unfold demo_nested.
  destruct (decide (x = str "a")) as [->|]; [rewrite !lookup_singleton_eq|rewrite !lookup_singleton_ne by done; constructor].
  constructor. econstructor; [exact Hj|]. intros y.
  destruct (decide (y = str k)) as [->|]; [rewrite !lookup_singleton_eq|rewrite !lookup_singleton_ne by done; constructor].
  constructor. by constructor.
Qed.

Lemma MergeMaps_refines_witness :
  ∃ h' l, MergeMaps 9 demo_heap (Some 0) (Some 2) = Some (h', l) ∧ demo_heap ⊆ h' ∧ (l ∉ dom demo_heap) ∧
    denotes h' (HMap (Some l)) (merged (VMap (demo_nested "x" 1)) (VMap (demo_nested "y" 2))).
Proof.
  apply (MergeMaps_refines 9 demo_heap (Some 0) (Some 2) (demo_nested "x" 1) (demo_nested "y" 2)).
  - by apply (demo_denotes 0 1).
  - by apply (demo_denotes 2 3).
  - vm_compute. lia.
Defined.
