(* ===== verification/ChartSort.v ===== *)
(** * Chart values: sorted encoding and digests
    ([chartutil/sort.go], [encode.go], [digest.go])

    Values are Go maps, whose iteration order is arbitrary; they are encoded
    as slices of entries, which are sorted so that equal values have equal
    digests. *)

From S2P Require Import Prelude GoStd Utf8 Json SsaObject SsaSort.

(** [goyaml.MapSlice] and the values in it; keys are strings. *)
Inductive yval :=
  | YScalar (v : value)
  | YSeq (l : list yval)
  | YMap (ms : list (bytes * yval)).

Fixpoint ysize (y : yval) : nat :=
  match y with
  | YScalar _ => 1
  | YSeq l => S (sum_list_with ysize l)
  | YMap ms => S (sum_list_with (λ p, ysize p.2) ms)
  end.

Lemma ysize_seq y l : y ∈ l → ysize y < ysize (YSeq l).
Proof. intros Hy. simpl. induction Hy as [|z l Hy IH]; simpl; lia. Qed.
Lemma ysize_map k y ms : (k, y) ∈ ms → ysize y < ysize (YMap ms).
Proof.
  intros Hy. simpl. induction ms as [|z ms IH]; [by apply not_elem_of_nil in Hy|].
  apply elem_of_cons in Hy as [<-|Hy]; simpl; [lia|]. apply IH in Hy. lia.
Qed.

Section sort.
Context `{Srt : SortFunc}.

Definition key_less (a b : bytes * yval) : bool := bytes_ltb a.1 b.1.

(** [fuel] bounds the depth.
    [src/chartutil/sort.go:25-50 SortMapSlice] *)
Fixpoint sort_value (fuel : nat) (y : yval) : yval :=
  match fuel with
  | 0 => y
  | S fuel =>
      match y with
      | YScalar v => YScalar v
      | YSeq l => YSeq (sort_value fuel <$> l)
      | YMap ms => YMap ((λ p, (p.1, sort_value fuel p.2)) <$> sort_Slice key_less ms)
      end
  end.

(** [src/chartutil/sort.go:35-50 SortMapSlice] *)
Definition SortMapSlice (ms : list (bytes * yval)) : list (bytes * yval) :=
  match sort_value (ysize (YMap ms)) (YMap ms) with YMap ms => ms | _ => ms end.

(** A MapSlice that holds a value in some order of its maps. *)
Inductive ordered : value → yval → Prop :=
  | ordered_scalar v : match v with VMap _ | VList _ => False | _ => True end → ordered v (YScalar v)
  | ordered_seq l ys : Forall2 ordered l ys → ordered (VList l) (YSeq ys)
  | ordered_map m ms : NoDup ms.*1 → (∀ k y, (k, y) ∈ ms → ∃ v, m !! k = Some v ∧ ordered v y) →
      (∀ k : bytes, is_Some (m !! k) → k ∈ ms.*1) → ordered (VMap m) (YMap ms).

#[local] Instance key_le_trans : Transitive (λ a b : bytes * yval, bytes_ltb b.1 a.1 = false).
Proof.
  intros a b c Hab Hbc. destruct (bytes_ltb c.1 a.1) eqn:E; [|done].
  destruct (bytes_ltb a.1 b.1) eqn:E1; [by rewrite (bytes_ltb_trans _ _ _ E E1) in Hbc|].
  rewrite (bytes_ltb_total _ _ E1 Hab) in E. congruence.
Qed.
#[local] Instance key_le_total : Total (λ a b : bytes * yval, bytes_ltb b.1 a.1 = false).
Proof.
  intros a b. destruct (bytes_ltb b.1 a.1) eqn:E; [|by left]. right.
  destruct (bytes_ltb a.1 b.1) eqn:E1; [|done].
  pose proof (bytes_ltb_trans _ _ _ E E1). by rewrite bytes_ltb_irrefl in H.
Qed.

Definition keys_le (a b : bytes) : Prop := bytes_ltb b a = false.

Lemma sort_keys_sorted (ms : list (bytes * yval)) : StronglySorted keys_le (sort_Slice key_less ms).*1.
Proof.
  assert (StronglySorted (λ a b : bytes * yval, bytes_ltb b.1 a.1 = false) (sort_Slice key_less ms)) as Hs.
  { by apply sort_Slice_sorted; try apply _. }
  induction Hs as [|p l Hl IH Hp]; simpl; constructor; [done|]. by apply Forall_fmap.
Qed.

(** Sorted lists with the same distinct keys are the same. *)
Lemma same_keys (l1 l2 : list bytes) :
  NoDup l1 → NoDup l2 → (∀ k, k ∈ l1 ↔ k ∈ l2) → StronglySorted keys_le l1 → StronglySorted keys_le l2 → l1 = l2.
Proof.
  intros H1 H2 Hk Hs1 Hs2. apply (StronglySorted_unique_strong keys_le); [|done..|by apply NoDup_Permutation].
  intros a b _ _ Hab Hba. by apply bytes_ltb_total.
Qed.

Lemma sort_value_det v y1 y2 n1 n2 :
  ordered v y1 → ordered v y2 → ysize y1 ≤ n1 → ysize y2 ≤ n2 → sort_value n1 y1 = sort_value n2 y2.
Proof.
  revert y1 y2 n1 n2. induction v as [| | | | |l IH|m IH] using value_nested_ind;
    intros y1 y2 n1 n2 H1 H2 Hn1 Hn2; inversion H1 as [? Hv|? ys1 Hys1|? ms1 Hnd1 Hin1 Hall1]; subst; try done;
    inversion H2 as [? Hv2|? ys2 Hys2|? ms2 Hnd2 Hin2 Hall2]; subst; try done;
    (destruct n1 as [|n1], n2 as [|n2]; [simpl in *; lia..|]); try done.
  - cbn [sort_value]. f_equal. apply Forall2_length in Hys1 as L1, Hys2 as L2.
    apply list_eq_same_length with (length l); [by rewrite length_fmap|by rewrite length_fmap|].
    intros i x y Hi Hx Hy. apply list_lookup_fmap_Some in Hx as (x' & -> & Hx).
    apply list_lookup_fmap_Some in Hy as (y' & -> & Hy).
    destruct (lookup_lt_is_Some_2 l i Hi) as [w Hw].
    pose proof (ysize_seq x' ys1 (list_elem_of_lookup_2 _ _ _ Hx)).
    pose proof (ysize_seq y' ys2 (list_elem_of_lookup_2 _ _ _ Hy)).
    apply (IH w); [by eapply list_elem_of_lookup_2|..|lia|lia].
    + by eapply (Forall2_lookup_lr _ _ _ _ _ _ Hys1).
    + by eapply (Forall2_lookup_lr _ _ _ _ _ _ Hys2).
  - cbn [sort_value]. f_equal.
    pose proof (sort_Slice_perm key_less ms1) as P1. pose proof (sort_Slice_perm key_less ms2) as P2.
    assert ((sort_Slice key_less ms1).*1 = (sort_Slice key_less ms2).*1) as Hk.
    { apply same_keys; [by rewrite P1|by rewrite P2| |apply sort_keys_sorted..].
      intros k. rewrite P1, P2. split; intros ([k' y] & -> & Hin)%list_elem_of_fmap.
      - apply Hall2. destruct (Hin1 _ _ Hin) as (v & Hv & _). by exists v.
      - apply Hall1. destruct (Hin2 _ _ Hin) as (v & Hv & _). by exists v. }
    apply list_eq_same_length with (length (sort_Slice key_less ms1)).
    { rewrite length_fmap. rewrite <-(length_fmap fst (sort_Slice key_less ms1)), Hk. by rewrite length_fmap. }
    { by rewrite length_fmap. }
    intros i x y Hi Hx Hy. apply list_lookup_fmap_Some in Hx as ([k1 x'] & -> & Hx).
    apply list_lookup_fmap_Some in Hy as ([k2 y'] & -> & Hy). simpl.
    assert (k1 = k2) as ->.
    { assert ((sort_Slice key_less ms1).*1 !! i = Some k1) as Hk1 by by rewrite list_lookup_fmap, Hx.
      rewrite Hk, list_lookup_fmap, Hy in Hk1. by simplify_eq/=. }
    assert ((k2, x') ∈ ms1) as Hx1 by (rewrite <-P1; by eapply list_elem_of_lookup_2).
    assert ((k2, y') ∈ ms2) as Hy1 by (rewrite <-P2; by eapply list_elem_of_lookup_2).
    destruct (Hin1 _ _ Hx1) as (v & Hv & Hvx). destruct (Hin2 _ _ Hy1) as (v' & Hv' & Hvy). simplify_eq.
    pose proof (ysize_map _ _ _ Hx1). pose proof (ysize_map _ _ _ Hy1). f_equal.
    eapply (IH k2); [done..|lia|lia].
Qed.

(** Sorting makes the encoding of values deterministic: two slices that
    hold the same values, with every map in any order, at any depth, are
    sorted to the same slice, so [Encode] with [SortMapSlice] and the digests
    do not depend on the iteration order of Go maps. *)
Theorem SortMapSlice_deterministic (m : vmap) (ms1 ms2 : list (bytes * yval)) :
  ordered (VMap m) (YMap ms1) → ordered (VMap m) (YMap ms2) → SortMapSlice ms1 = SortMapSlice ms2.
Proof. intros H1 H2. unfold SortMapSlice. by rewrite (sort_value_det _ _ (YMap ms2) _ (ysize (YMap ms2)) H1 H2). Qed.

(** ** Encoding and digests *)

(** The YAML encoder and the digest algorithms of other packages: [None] when
    the values cannot be encoded. *)
Context {Digest : Type} (yaml_Encode : list (bytes * yval) → option bytes).
Context (JSONObjectToYAMLObject : vmap → list (bytes * yval)).

(** [src/chartutil/encode.go:29-43 Encode] *)
Definition Encode (data : vmap) (pe : list (list (bytes * yval) → list (bytes * yval))) : option bytes :=
  yaml_Encode (foldl (λ ms m, m ms) (JSONObjectToYAMLObject data) pe).

(** [src/chartutil/digest.go:51-59 valuesOrNil] *)
Definition valuesOrNil (values : option vmap) : option vmap :=
  match values with
  | Some m => if size m =? 0 then None else Some m
  | None => None
  end.

(** [hash] is the digest of what was written; [no_digest] is the empty string.
    [src/chartutil/digest.go:24-34 DigestValues] *)
Definition DigestValues (hash : bytes → Digest) (no_digest : Digest) (values : option vmap) : Digest :=
  match valuesOrNil values with
  | Some m => match Encode m [SortMapSlice] with None => no_digest | Some b => hash b end
  | None => hash []
  end.

(** [valid] is [digest.Validate]; the verifier compares digests.
    [src/chartutil/digest.go:36-49 VerifyValues] *)
Definition VerifyValues `{EqDecision Digest} (hash : bytes → Digest) (valid : Digest → bool) (d : Digest)
    (values : option vmap) : bool :=
  if negb (valid d) then false
  else match valuesOrNil values with
       | Some m => match Encode m [SortMapSlice] with None => false | Some b => bool_decide (hash b = d) end
       | None => bool_decide (hash [] = d)
       end.

(** The digest that was computed verifies, and only it. *)
Lemma VerifyValues_DigestValues `{EqDecision Digest} (hash : bytes → Digest) no_digest valid d values :
  valid no_digest = false →
  VerifyValues hash valid d values = true ↔ valid d = true ∧ DigestValues hash no_digest values = d.
Proof.
  intros Hno. unfold VerifyValues, DigestValues. destruct (valid d) eqn:Ed; simpl; [|naive_solver].
  destruct (valuesOrNil values) as [m|]; [destruct (Encode m _) as [b|]|].
  - rewrite bool_decide_eq_true. naive_solver.
  - split; [done|]. intros [_ <-]. congruence.
  - rewrite bool_decide_eq_true. naive_solver.
Qed.
End sort.

Lemma SortMapSlice_deterministic_witness :
  let a := (str "a", YScalar (VInt 1)) in
  let b := (str "b", YScalar (VInt 2)) in
  SortMapSlice [a; b] = SortMapSlice [b; a].
Proof.
  intros a b.
  assert (∀ ms, ms ≡ₚ [a; b] → ordered (VMap (<[str "a" := VInt 1]> {[str "b" := VInt 2]})) (YMap ms)) as Ho.
  { intros ms Hms. constructor.
    - rewrite Hms. by apply (bool_decide_unpack _).
    - intros k y. rewrite Hms. intros [[= -> ->]|[[= -> ->]|[]%not_elem_of_nil]%elem_of_cons]%elem_of_cons;
        eexists; (split; [by vm_compute|by constructor]).
    - intros k. rewrite Hms, lookup_insert_is_Some', lookup_singleton_is_Some.
      intros [<-|<-]; [by constructor|by constructor; constructor]. }
  apply (SortMapSlice_deterministic (<[str "a" := VInt 1]> {[str "b" := VInt 2]}) [a; b] [b; a]).
  - by apply Ho.
  - apply Ho. apply Permutation_swap.
Defined.
