(* ===== verification/ChartValues.v ===== *)
(** * Chart values from references ([chartutil/values.go])

    Values are read from config maps and secrets and merged in order; a
    reference with a target path writes one value into the merged map. *)

From S2P Require Import Prelude Utf8 GoPath Json SsaObject SsaSort SsaIgnore ChartMerge Interaction.

(** ** References and errors *)

(** [src/apis/meta/reference_types.go:186-232 ValuesReference] *)
Record ValuesReference := mkValuesRef {
  vr_Kind : bytes; vr_Name : bytes; vr_ValuesKey : bytes; vr_TargetPath : bytes; vr_Optional : bool;
  vr_Literal : bool }.

(** [src/apis/meta/reference_types.go:234-240 GetValuesKey] *)
Definition GetValuesKey (r : ValuesReference) : bytes :=
  if beq (vr_ValuesKey r) [] then str "values.yaml" else vr_ValuesKey r.

(** [src/chartutil/values.go:36-57 ErrValuesRefReason] *)
Inductive ErrValuesRefReason :=
  ErrResourceNotFound | ErrKeyNotFound | ErrUnsupportedRefKind | ErrValuesDataRead | ErrValueMerge | ErrUnknown.
#[global] Instance reason_eq_dec : EqDecision ErrValuesRefReason.
Proof. solve_decision. Defined.

Definition reason_Error (r : ErrValuesRefReason) : bytes :=
  str match r with
      | ErrResourceNotFound => "resource not found" | ErrKeyNotFound => "key not found"
      | ErrUnsupportedRefKind => "unsupported values reference kind"
      | ErrValuesDataRead => "failed to read values data" | ErrValueMerge => "failed to merge value"
      | ErrUnknown => "unknown error"
      end.

(** [src/chartutil/values.go:59-78 ErrValuesReference] *)
Record ErrValuesReference := mkErrRef {
  er_Reason : option ErrValuesRefReason; er_Kind : bytes; er_Namespace : bytes; er_Name : bytes;
  er_Key : bytes; er_Optional : bool; er_Err : option kerr }.

(** [types.NamespacedName.String] *)
Definition NamespacedName_String (ns name : bytes) : bytes := ns ++ str "/" ++ name.

(** A nil reason is dereferenced.
    [src/chartutil/values.go:80-107 ErrValuesReference.Error] *)
Definition ErrValuesReference_Error (e : ErrValuesReference) : res bytes :=
  let b := str "could not resolve" in
  let b := if er_Optional e then b ++ str " optional" else b in
  let b := if negb (beq (er_Kind e) []) then b ++ str " " ++ er_Kind e else b in
  let b := b ++ str " chart values reference" in
  let name := NamespacedName_String (er_Namespace e) (er_Name e) in
  let b := if negb (beq name []) then b ++ str " '" ++ name ++ str "'" else b in
  let b := if negb (beq (er_Key e) []) then b ++ str " with key '" ++ er_Key e ++ str "'" else b in
  match er_Reason e with
  | None => Panics
  | Some r =>
      let reason := reason_Error r in
      let reason := if beq reason [] && match er_Err e with None => true | _ => false end
                    then reason_Error ErrUnknown else reason in
      let reason := match er_Err e with Some err => err_msg err | None => reason end in
      Val (b ++ str ": " ++ reason)
  end.

(** [in_chain] says whether the target is in the chain of an error.
    [src/chartutil/values.go:109-123 ErrValuesReference.Is] *)
Definition ErrValuesReference_Is (in_chain : kerr → ErrValuesRefReason → bool) (e : ErrValuesReference)
    (target : ErrValuesRefReason) : bool :=
  let reason := default ErrUnknown (er_Reason e) in
  if bool_decide (reason = target) then true
  else match er_Err e with Some err => in_chain err target | None => false end.

(** [src/chartutil/values.go:130-141 NewErrValuesReference] *)
Definition NewErrValuesReference (ns name : bytes) (ref : ValuesReference) (reason : ErrValuesRefReason)
    (err : option kerr) : ErrValuesReference :=
  mkErrRef (Some reason) (vr_Kind ref) ns name (GetValuesKey ref) (vr_Optional ref) err.

(** ** Paths *)

(** [strings.Trim] with a set of ASCII characters. *)
Definition trim_left (cut : ascii → bool) : bytes → bytes :=
  fix go s := match s with c :: s' => if cut c then go s' else s | [] => [] end.
Definition strings_Trim (cut : ascii → bool) (s : bytes) : bytes :=
  reverse (trim_left cut (reverse (trim_left cut s))).

Definition single_quote : ascii := Ascii.ascii_of_nat 39.
Definition double_quote : ascii := Ascii.ascii_of_nat 34.
Definition is_quote (c : ascii) : bool := Ascii.eqb c single_quote || Ascii.eqb c double_quote.

(** The parser of Helm, which writes into a map of the heap. *)
Class Strvals := {
  ParseInto : bytes → gmap nat (gmap bytes hval) → nat → kerr + gmap nat (gmap bytes hval);
  ParseIntoString : bytes → gmap nat (gmap bytes hval) → nat → kerr + gmap nat (gmap bytes hval);
  (** [common.ReadValues] allocates a new map *)
  ReadValues : bytes → gmap nat (gmap bytes hval) → kerr + (gmap nat (gmap bytes hval) * nat) }.

Abbreviation heap := (gmap nat (gmap bytes hval)) (only parsing).

(** [src/chartutil/values.go:292-299 ReplacePathLiteralValue] *)
Definition escape_char (c : ascii) : bytes :=
  if existsb (Ascii.eqb c) ["\"; ","; "["; "]"; "{"; "}"]%char then ["\"%char; c] else [c].
(** [src/chartutil/values.go:292-300 ReplacePathLiteralValue] *)
Definition escape (v : bytes) : bytes := v ≫= escape_char.

Section paths.
Context `{Strvals}.

(** [src/chartutil/values.go:258-275 ReplacePathValue] *)
Definition ReplacePathValue (h : heap) (values : nat) (path value : bytes) : kerr + heap :=
  let isSingleQuoted := HasPrefix value [single_quote] && HasSuffix value [single_quote] in
  let isDoubleQuoted := HasPrefix value [double_quote] && HasSuffix value [double_quote] in
  if isSingleQuoted || isDoubleQuoted
  then ParseIntoString (path ++ str "=" ++ strings_Trim is_quote value) h values
  else ParseInto (path ++ str "=" ++ value) h values.

(** [src/chartutil/values.go:277-301 ReplacePathLiteralValue] *)
Definition ReplacePathLiteralValue (h : heap) (values : nat) (path value : bytes) : kerr + heap :=
  ParseIntoString (path ++ str "=" ++ escape value) h values.
End paths.

(** ** Resolution of references *)

(** The data of a config map or secret. *)
Inductive Resource := Secret (data : gmap bytes bytes) | ConfigMap (data : gmap bytes bytes).

Definition resource_data (r : Resource) : gmap bytes bytes := match r with Secret d | ConfigMap d => d end.

(** The calls: reads of resources. *)
Inductive ccall := CGet (kind ns name : bytes).
#[global] Instance ccall_eq_dec : EqDecision ccall.
Proof. solve_decision. Defined.

Inductive chart_error := ErrRef (e : ErrValuesReference) | ErrClient (e : kerr) | OutOfFuel.

Definition chart_prog (A : Type) : Type := prog ccall (kerr + Resource) (chart_error + A).

(** The resources that were read; [None] inside is a resource that is nil. *)
Abbreviation cache := (gmap bytes (option Resource)) (only parsing).

(** What the lookup of a reference gives. *)
Inductive lookup_result := Skip | Data (d : bytes) | Error (e : chart_error).

Section values.
Context `{Strvals} (namespace : bytes).

(** [src/chartutil/values.go:165-165 ChartValuesFromReferences] *)
Definition cache_index (ref : ValuesReference) : bytes :=
  vr_Kind ref ++ NamespacedName_String namespace (vr_Name ref).

Definition ref_error (ref : ValuesReference) (reason : ErrValuesRefReason) (err : option kerr) : chart_error :=
  ErrRef (NewErrValuesReference namespace (vr_Name ref) ref reason err).

(** The key of a resource that is there, or not.
    [src/chartutil/values.go:196-228 ChartValuesFromReferences] *)
Definition resource_value (ref : ValuesReference) (resource : option Resource) : lookup_result :=
  match resource with
  | None => if vr_Optional ref then Skip else Error (ref_error ref ErrResourceNotFound None)
  | Some r =>
      match resource_data r !! GetValuesKey ref with
      | None => if vr_Optional ref then Skip else Error (ref_error ref ErrKeyNotFound None)
      | Some d => Data d
      end
  end.

Definition known_kind (k : bytes) : bool := beq k (str "ConfigMap") || beq k (str "Secret").

(** The data of a reference, with the resources that were read.
    [src/chartutil/values.go:160-231 ChartValuesFromReferences] *)
Definition lookup_ref (ref : ValuesReference) (resources : cache)
    : prog ccall (kerr + Resource) (cache * lookup_result) :=
  if negb (known_kind (vr_Kind ref)) then Ret (resources, Error (ref_error ref ErrUnsupportedRefKind None))
  else
    let index := cache_index ref in
    match resources !! index with
    | Some resource => Ret (resources, resource_value ref resource)
    | None =>
        let resources := <[index := None]> resources in
        Call (CGet (vr_Kind ref) namespace (vr_Name ref)) (λ r,
        match r with
        | inl e =>
            if IsNotFound e then
              if vr_Optional ref then Ret (resources, Skip)
              else Ret (resources, Error (ref_error ref ErrResourceNotFound (Some e)))
            else Ret (resources, Error (ErrClient e))
        | inr resource => Ret (<[index := Some resource]> resources, resource_value ref (Some resource))
        end)
    end.

(** The value of a reference is merged into the result.
    [src/chartutil/values.go:233-253 ChartValuesFromReferences] *)
Definition merge_ref (fuel : nat) (values : ref) (ref : ValuesReference) (d : bytes) (h : heap) (result : nat)
    : chart_error + (heap * nat) :=
  if negb (beq (vr_TargetPath ref) []) then
    match MergeMaps fuel h (Some result) values with
    | None => inl OutOfFuel
    | Some (h, result) =>
        match (if vr_Literal ref then ReplacePathLiteralValue else ReplacePathValue) h result (vr_TargetPath ref) d with
        | inl e => inl (ref_error ref ErrValueMerge (Some e))
        | inr h => inr (h, result)
        end
    end
  else
    match ReadValues d h with
    | inl e => inl (ref_error ref ErrValuesDataRead (Some e))
    | inr (h, read) =>
        match MergeMaps fuel h (Some result) (Some read) with None => inl OutOfFuel | Some r => inr r end
    end.

(** [src/chartutil/values.go:159-255 ChartValuesFromReferences] *)
Fixpoint refs_loop (fuel : nat) (values : ref) (refs : list ValuesReference) (resources : cache) (h : heap)
    (result : nat) : chart_prog (heap * nat) :=
  match refs with
  | [] => Ret (match MergeMaps fuel h (Some result) values with None => inl OutOfFuel | Some r => inr r end)
  | ref :: refs =>
      mbind (M := prog ccall (kerr + Resource)) (λ x,
        match x.2 with
        | Skip => refs_loop fuel values refs x.1 h result
        | Error e => Ret (inl e)
        | Data d =>
            match merge_ref fuel values ref d h result with
            | inl e => Ret (inl e)
            | inr (h, result) => refs_loop fuel values refs x.1 h result
            end
        end) (lookup_ref ref resources)
  end.

(** The values are a map of the heap [h], or nil; the result is one of the heap that is
    returned.  [fuel] bounds the depth of the merges.
    [src/chartutil/values.go:148-256 ChartValuesFromReferences] *)
Definition ChartValuesFromReferences (fuel : nat) (h : heap) (values : ref) (refs : list ValuesReference)
    : chart_prog (heap * nat) :=
  let '(h, result) := alloc h ∅ in refs_loop fuel values refs ∅ h result.

(** ** Each resource is read once *)

Definition call_index (c : ccall) : bytes := match c with CGet k ns n => k ++ NamespacedName_String ns n end.

Lemma lookup_ref_reads ref resources t x :
  runs (lookup_ref ref resources) t x →
  (∀ c, c ∈ t.*1 → resources !! call_index c = None ∧ is_Some (x.1 !! call_index c)) ∧
  (∀ i, is_Some (resources !! i) → is_Some (x.1 !! i)) ∧ length t ≤ 1.
Proof.
  unfold lookup_ref. destruct (negb _).
  { intros [-> ->]%runs_ret_inv. split_and!; [by intros ? ?%not_elem_of_nil|done|simpl; lia]. }
  destruct (resources !! cache_index ref) as [r|] eqn:Ei.
  { intros [-> ->]%runs_ret_inv. split_and!; [by intros ? ?%not_elem_of_nil|done|simpl; lia]. }
  intros (r & t' & -> & Hr)%runs_call_inv.
  assert (t' = [] ∧ ∃ o, x.1 = <[cache_index ref := o]> resources) as [-> [o Ho]].
  { destruct r as [e|r]; [destruct (IsNotFound e); [destruct (vr_Optional ref)|]|];
      apply runs_ret_inv in Hr as [-> ->]; (split; [done|]); simpl; eauto.
    exists (Some r). by rewrite insert_insert_eq. }
  rewrite Ho. split_and!; [|intros i Hi; apply lookup_insert_is_Some'; auto|done].
  intros c Hc. apply list_elem_of_singleton in Hc as ->. simpl. split; [exact Ei|].
  apply lookup_insert_is_Some'. by left.
Qed.

Lemma refs_loop_reads fuel values refs resources h result t x :
  runs (refs_loop fuel values refs resources h result) t x →
  NoDup (call_index <$> t.*1) ∧ ∀ c, c ∈ t.*1 → resources !! call_index c = None.
Proof.
  revert resources h result t. induction refs as [|ref refs IH]; intros resources h result t Hr; simpl in Hr.
  { apply runs_ret_inv in Hr as [-> _]. split; [constructor|by intros ? ?%not_elem_of_nil]. }
  apply runs_bind_inv in Hr as (t1 & y & t2 & -> & H1 & H2).
  apply lookup_ref_reads in H1 as (Hnew & Hmono & Hlen).
  assert (NoDup (call_index <$> t2.*1) ∧ ∀ c, c ∈ t2.*1 → y.1 !! call_index c = None) as [Hnd Hout].
  { destruct y.2 as [|d|e].
    - by eapply IH.
    - destruct (merge_ref fuel values ref d h result) as [e|[h' r']]; [|by eapply IH].
      apply runs_ret_inv in H2 as [-> _]. split; [constructor|by intros ? ?%not_elem_of_nil].
    - apply runs_ret_inv in H2 as [-> _]. split; [constructor|by intros ? ?%not_elem_of_nil]. }
  rewrite !fmap_app. split.
  - apply NoDup_app. split_and!; [|intros i Hi1 Hi2|done].
    + destruct t1 as [|? [|]]; simpl in *; [constructor|apply NoDup_singleton|lia].
    + apply list_elem_of_fmap in Hi1 as (c1 & -> & Hc1). apply list_elem_of_fmap in Hi2 as (c2 & E & Hc2).
      apply Hnew in Hc1 as [_ [o Ho]]. apply Hout in Hc2. rewrite E in Ho. congruence.
  - intros c [Hc|Hc]%elem_of_app; [by apply Hnew|]. apply Hout in Hc. apply eq_None_not_Some.
    intros Hs%Hmono. rewrite Hc in Hs. by destruct Hs.
Qed.

(** The references act on a single version of each resource: whatever the
    references and the answers, no config map or secret is read twice. *)
Theorem ChartValues_reads_once (fuel : nat) (h : heap) (values : ref) (refs : list ValuesReference)
    (t : list (ccall * (kerr + Resource))) (x : chart_error + (heap * nat)) :
  runs (ChartValuesFromReferences fuel h values refs) t x → NoDup t.*1.
Proof.
  unfold ChartValuesFromReferences. destruct (alloc h ∅) as [h' r]. intros Hr.
  apply refs_loop_reads in Hr as [Hnd _]. by apply NoDup_fmap_1 in Hnd.
Qed.

(** ** The last merge *)

(** The parser keeps maps maps; reading allocates a new one. *)
Definition keeps_maps (f : heap → kerr + heap) : Prop :=
  ∀ h h', f h = inr h' → ∀ l m, denotes h (HMap l) (VMap m) → ∃ m', denotes h' (HMap l) (VMap m').
Definition strvals_ok : Prop :=
  (∀ s l, keeps_maps (λ h, ParseInto s h l)) ∧ (∀ s l, keeps_maps (λ h, ParseIntoString s h l)) ∧
  (∀ d h h' l, ReadValues d h = inr (h', l) → h ⊆ h' ∧ ∃ m, denotes h' (HMap (Some l)) (VMap m)).

Lemma merge_loop_mono (rec1 rec2 : heap → ref → ref → option (heap * nat)) entries h out r :
  (∀ h a b r, rec1 h a b = Some r → rec2 h a b = Some r) →
  merge_loop rec1 entries h out = Some r → merge_loop rec2 entries h out = Some r.
Proof.
  intros Hrec. revert h out. induction entries as [|[k v] entries IH]; intros h out Hr; [done|]. simpl in *.
  destruct v as [vl|v]; [|by apply IH]. destruct (out !! k) as [[bl|]|]; try (by apply IH).
  destruct (rec1 h bl vl) as [[h' l]|] eqn:E; simpl in Hr; [|done]. rewrite (Hrec _ _ _ _ E). simpl. by apply IH.
Qed.

Lemma MergeMaps_mono n m h a b r : n ≤ m → MergeMaps n h a b = Some r → MergeMaps m h a b = Some r.
Proof.
  revert m h a b r. induction n as [|n IH]; intros m h a b r Hnm Hr; [done|].
  destruct m as [|m]; [lia|]. cbn [MergeMaps] in *. destruct (load h a) as [ma|]; simpl in *; [|done].
  destruct (load h b) as [mb|]; simpl in *; [|done].
  destruct (merge_loop (MergeMaps n) _ _ _) as [[h' out]|] eqn:E; simpl in Hr; [|done].
  rewrite (merge_loop_mono _ (MergeMaps m) _ _ _ _ (λ h a b r, IH m h a b r (le_S_n _ _ Hnm)) E). done.
Qed.

(** A merge that returns denotes the merge of the values. *)
Lemma MergeMaps_denotes fuel h a b h' l va vb :
  MergeMaps fuel h a b = Some (h', l) → denotes h (HMap a) (VMap va) → denotes h (HMap b) (VMap vb) →
  h ⊆ h' ∧ denotes h' (HMap (Some l)) (merged (VMap va) (VMap vb)).
Proof.
  intros Hm Ha Hb.
  destruct (MergeMaps_ok (fuel + vsize (VMap vb)) h a b va vb) as (h2 & l2 & E & He & _ & Hd); [done|done|lia|].
  rewrite (MergeMaps_mono fuel (fuel + vsize (VMap vb)) _ _ _ _ ltac:(lia) Hm) in E. by simplify_eq.
Qed.

Definition is_map_ref (h : heap) (l : ref) : Prop := ∃ m, denotes h (HMap l) (VMap m).

Lemma is_map_ref_extends h h' l : is_map_ref h l → h ⊆ h' → is_map_ref h' l.
Proof. intros [m Hm] He. exists m. by eapply denotes_extends. Qed.

Lemma MergeMaps_is_map fuel h a b h' l x :
  MergeMaps fuel h a b = Some (h', l) → is_map_ref h a → is_map_ref h b → is_map_ref h x →
  is_map_ref h' (Some l) ∧ is_map_ref h' x.
Proof.
  intros Hm [va Ha] [vb Hb] Hx. destruct (MergeMaps_denotes _ _ _ _ _ _ _ _ Hm Ha Hb) as [He Hd].
  destruct (merged_lookup va vb) as (m & E & _). rewrite E in Hd.
  split; [by exists m|by eapply is_map_ref_extends].
Qed.

Lemma merge_ref_is_map fuel values ref d h result h' l :
  strvals_ok → merge_ref fuel values ref d h result = inr (h', l) →
  is_map_ref h (Some result) → is_map_ref h values → is_map_ref h' (Some l) ∧ is_map_ref h' values.
Proof.
  intros (Hp1 & Hp2 & Hread) Hm Hr Hv. unfold merge_ref in Hm. destruct (negb _).
  - destruct (MergeMaps fuel h (Some result) values) as [[h1 l1]|] eqn:E; [|done].
    destruct (MergeMaps_is_map _ _ _ _ _ _ values E Hr Hv Hv) as [H1 H2].
    assert (∀ f, keeps_maps f → f h1 = inr h' → is_map_ref h' (Some l1) ∧ is_map_ref h' values) as Hk.
    { intros f Hf Eq. destruct H1 as [m1 H1], H2 as [m2 H2]. split; by eapply Hf. }
    destruct (_ h1 l1 _ d) as [e|h2] eqn:E2; [done|]. simplify_eq.
    destruct (vr_Literal ref); unfold ReplacePathLiteralValue, ReplacePathValue in E2.
    + by apply (Hk _ (Hp2 _ _)) in E2.
    + destruct (_ || _); [by apply (Hk _ (Hp2 _ _)) in E2|by apply (Hk _ (Hp1 _ _)) in E2].
  - destruct (ReadValues d h) as [e|[h1 l1]] eqn:E; [done|]. apply Hread in E as [He Hl].
    destruct (MergeMaps fuel h1 (Some result) (Some l1)) as [[h2 l2]|] eqn:E2; [|done]. simplify_eq.
    eapply MergeMaps_is_map; [done|by eapply is_map_ref_extends|done|by eapply is_map_ref_extends].
Qed.

(** The values always win: whenever the resolution succeeds, each value of
    the given map that is not itself a map (as the map is after the call) is in
    the result, at its path.  This holds for references with a target path,
    too, which are documented to overwrite all: their value survives only
    where it was written into a map that the result shares with the caller's
    values. *)
Theorem ChartValues_values_win (fuel : nat) (h : heap) (values : ref) (refs : list ValuesReference)
    (t : list (ccall * (kerr + Resource))) (h' : heap) (l : nat) :
  strvals_ok → (∃ m, denotes h (HMap values) (VMap m)) →
  runs (ChartValuesFromReferences fuel h values refs) t (inr (h', l)) →
  ∃ vv out, denotes h' (HMap values) (VMap vv) ∧ denotes h' (HMap (Some l)) (VMap out) ∧
    ∀ p x, at_path p (VMap vv) = Some x → as_map x = None → at_path p (VMap out) = Some x.
Proof.
  intros Hok Hv. unfold ChartValuesFromReferences. destruct (alloc h ∅) as [h0 r0] eqn:Ea.
  apply alloc_extends in Ea as (He & Hr0 & _). assert (is_map_ref h0 (Some r0)) as Hr.
  { exists ∅. econstructor; [done|]. intros k. rewrite !lookup_empty. constructor. }
  assert (is_map_ref h0 values) as Hv0 by by eapply is_map_ref_extends.
  clear Hv He Hr0 h. revert t h0 r0 Hr Hv0. generalize (∅ : gmap bytes (option Resource)).
  induction refs as [|ref refs IH]; intros resources t h0 r0 Hr Hv0 Hrun; simpl in Hrun.
  - apply runs_ret_inv in Hrun as [_ Hm]. destruct (MergeMaps fuel h0 (Some r0) values) as [[h2 l2]|] eqn:E; [|done].
    simplify_eq. destruct Hr as [vr Hr], Hv0 as [vv Hv0].
    destruct (MergeMaps_denotes _ _ _ _ _ _ _ _ E Hr Hv0) as [He Hd].
    destruct (merged_lookup vr vv) as (out & Eo & _). rewrite Eo in Hd.
    exists vv, out. split_and!; [by eapply denotes_extends|done|]. intros p x Hp Hx. rewrite <-Eo.
    by apply merged_right_wins.
  - apply runs_bind_inv in Hrun as (t1 & y & t2 & -> & _ & H2). destruct y.2 as [|d|e].
    + exact (IH _ _ _ _ Hr Hv0 H2).
    + destruct (merge_ref fuel values ref d h0 r0) as [e|[h1 r1]] eqn:E; [by apply runs_ret_inv in H2 as [_ ?]|].
      eapply merge_ref_is_map in E as [H3 H4]; [|done..]. exact (IH _ _ _ _ H3 H4 H2).
    + by apply runs_ret_inv in H2 as [_ ?].
Qed.
End values.

(** ** Literal values *)

(** How the parser reads a value: a backslash takes the next character as it
    is; commas, brackets and braces that are not escaped are syntax. *)
Fixpoint unescape_value (s : bytes) : bytes :=
  match s with
  | c :: s' =>
      if Ascii.eqb c "\" then match s' with d :: r => d :: unescape_value r | [] => [c] end
      else c :: unescape_value s'
  | [] => []
  end.

Fixpoint has_syntax (s : bytes) : bool :=
  match s with
  | c :: s' =>
      if Ascii.eqb c "\" then match s' with _ :: r => has_syntax r | [] => false end
      else existsb (Ascii.eqb c) [","; "["; "]"; "{"; "}"]%char || has_syntax s'
  | [] => false
  end.

(** Literal values survive the parser: unescaping the escaped value gives
    the value back, and nothing in the escaped value is syntax. *)
Theorem escape_roundtrip (v : bytes) : unescape_value (escape v) = v ∧ has_syntax (escape v) = false.
Proof.
  unfold escape. induction v as [|c v [IH1 IH2]]; [done|]. rewrite bind_cons.
  revert IH1 IH2. generalize (v ≫= escape_char) as r. intros r IH1 IH2. unfold escape_char.
  destruct (existsb (Ascii.eqb c) _) eqn:Ec; cbn [app].
  - simpl. by rewrite IH1, IH2.
  - simpl in Ec. repeat (apply orb_false_iff in Ec as [? Ec]). simpl.
    repeat match goal with H : Ascii.eqb c _ = false |- _ => rewrite H; clear H end. simpl.
    by rewrite IH1, IH2.
Qed.

(** ** Concrete inputs *)

(** A parser of [key.key=value] that writes strings into maps that are there. *)
Fixpoint demo_write (h : gmap nat (gmap bytes hval)) (l : nat) (keys : list bytes) (v : bytes)
    : gmap nat (gmap bytes hval) :=
  match keys with
  | [] => h
  | [k] => match h !! l with Some m => <[l := <[k := HVal (VStr v)]> m]> h | None => h end
  | k :: keys => match h !! l ≫= (.!! k) with Some (HMap (Some l')) => demo_write h l' keys v | _ => h end
  end.

Definition demo_parse (s : bytes) (h : gmap nat (gmap bytes hval)) (l : nat) : kerr + gmap nat (gmap bytes hval) :=
  match strings_Split s "=" with
  | [p; v] => inr (demo_write h l (strings_Split p ".") v)
  | _ => inl (plain_error "syntax")
  end.

#[local] Instance demo_strvals : Strvals := {|
  ParseInto := demo_parse; ParseIntoString := demo_parse;
  ReadValues := λ d h, inr (alloc h {[str "read" := HVal (VStr d)]}) |}.

(** The caller's values: a flat value and a nested one. *)
Definition demo_values : gmap nat (gmap bytes hval) :=
  <[0 := <[str "a" := HVal (VStr (str "old"))]> {[str "m" := HMap (Some 1)]}]>
    {[1 := {[str "b" := HVal (VStr (str "old"))]}]}.

Definition demo_target (path : string) : ValuesReference :=
  mkValuesRef (str "Secret") (str "s") (str "k") (str path) false false.

Definition demo_answer (_ : list (ccall * (kerr + Resource))) (_ : ccall) : kerr + Resource :=
  inr (Secret {[str "k" := str "new"]}).

Definition demo_result (refs : list ValuesReference) : chart_error + (gmap nat (gmap bytes hval) * nat) :=
  (run demo_answer [] (ChartValuesFromReferences (str "ns") 9 demo_values (Some 0) refs)).1.

Fixpoint heap_at (h : gmap nat (gmap bytes hval)) (l : nat) (path : list string) : option value :=
  match path with
  | [] => None
  | k :: path => match h !! l ≫= (.!! str k) with
                 | Some (HMap (Some l')) => heap_at h l' path
                 | Some (HMap None) => None
                 | Some (HVal v) => Some v
                 | None => None
                 end
  end.

Definition result_at (path : list string) (x : chart_error + (gmap nat (gmap bytes hval) * nat)) : option value :=
  match x with inl _ => None | inr (h, l) => heap_at h l path end.

(** A target path at the top level is overwritten by the values ... *)
Example target_overwritten :
  result_at ["a"]%string (demo_result [demo_target "a"]) = Some (VStr (str "old")).
Proof. by vm_compute. Qed.

(** ... and a nested one survives, because it is written into the caller's map. *)
Example target_nested :
  result_at ["m"; "b"]%string (demo_result [demo_target "m.b"]) = Some (VStr (str "new")) ∧
  match demo_result [demo_target "m.b"] with
  | inl _ => None
  | inr (h, _) => result_at ["m"; "b"]%string (inr (h, 0))
  end = Some (VStr (str "new")).
Proof. by vm_compute. Qed.

Lemma demo_run_runs refs :
  ∃ t, runs (ChartValuesFromReferences (str "ns") 9 demo_values (Some 0) refs) t (demo_result refs).
Proof.
  unfold demo_result. destruct (run _ _ _) as [a t] eqn:E. apply run_runs in E as (t' & _ & Hr). by exists t'.
Qed.

Lemma ChartValues_reads_once_witness :
  ∃ t, runs (ChartValuesFromReferences (str "ns") 9 demo_values (Some 0) [demo_target "m.b"; demo_target "a"]) t
         (demo_result [demo_target "m.b"; demo_target "a"]) ∧ NoDup t.*1.
Proof.
  destruct (demo_run_runs [demo_target "m.b"; demo_target "a"]) as [t Ht]. exists t. split; [exact Ht|].
  exact (ChartValues_reads_once (str "ns") 9 demo_values (Some 0) _ t _ Ht).
Defined.

(** A value for each entry of a map, chosen one by one. *)
Lemma choose_values (P : hval → value → Prop) (m : gmap bytes hval) :
  (∀ k v, m !! k = Some v → ∃ w, P v w) → ∃ vm : vmap, ∀ k : bytes, option_Forall2 P (m !! k) (vm !! k).
Proof.
  induction m as [|k v m Hk IH] using map_ind; intros HP.
  { exists ∅. intros k. rewrite !lookup_empty. constructor. }
  destruct IH as [vm Hvm].
  { intros j w Hj. apply (HP j). by rewrite lookup_insert_ne by congruence. }
  destruct (HP k v) as [w Hw]; [by rewrite lookup_insert_eq|]. exists (<[k := w]> vm). intros j.
  destruct (decide (j = k)) as [->|]; [by rewrite !lookup_insert_eq; constructor|].
  by rewrite !lookup_insert_ne.
Qed.

Lemma write_keeps (h : gmap nat (gmap bytes hval)) l0 m0 k v :
  h !! l0 = Some m0 → ∀ x hv, denotes h hv x →
  ∃ x', denotes (<[l0 := <[k := HVal (VStr v)]> m0]> h) hv x' ∧ (is_Some (as_map x) → is_Some (as_map x')).
Proof.
  intros Hl0. induction x as [| | | | | |vm IH] using value_nested_ind; intros hv Hd;
    inversion Hd as [? Hv|lx m vm' Hl Hm]; subst; try (by eexists; split; [by constructor|]); try done.
  set (h' := <[l0 := <[k := HVal (VStr v)]> m0]> h).
  assert (∃ m', load h' lx = Some m' ∧ ∀ j w, m' !! j = Some w → ∃ y, denotes h' w y) as (m' & Hl' & Hm').
  { assert (∀ j w, m !! j = Some w → ∃ y, denotes h' w y) as Hold.
    { intros j w Hj. specialize (Hm j). rewrite Hj in Hm. destruct (vm !! j) as [y|] eqn:Ey; inversion Hm; subst.
      destruct (IH j y Ey w) as (y' & Hy' & _); [done|]. by exists y'. }
    destruct (decide (lx = Some l0)) as [->|Hne].
    - cbn in Hl. simplify_eq. exists (<[k := HVal (VStr v)]> m0). split; [by apply lookup_insert_eq|]. intros j w.
      destruct (decide (j = k)) as [->|]; [|rewrite lookup_insert_ne by done; apply Hold].
      rewrite lookup_insert_eq. intros [= <-]. exists (VStr v). by constructor.
    - exists m. split; [|done]. destruct lx as [lx|]; [|done]. cbn. unfold h'. by rewrite lookup_insert_ne by congruence. }
  destruct (choose_values (denotes h') m' Hm') as [vm' Hvm']. exists (VMap vm').
  split; [by econstructor|by eexists].
Qed.

Lemma demo_strvals_ok : strvals_ok.
Proof.
  assert (∀ keys v h l, ∀ x m, denotes h (HMap x) (VMap m) → ∃ m', denotes (demo_write h l keys v) (HMap x) (VMap m')) as Hw.
  { induction keys as [|k [|k' keys] IH]; intros v h l x m Hd; cbn [demo_write]; [by exists m| |].
    - destruct (h !! l) as [m0|] eqn:E; [|by exists m].
      destruct (write_keeps h l m0 k v E _ _ Hd) as (y & Hy & Hs). destruct Hs as [m' Hm']; [by eexists|].
      exists m'. by destruct y; simplify_eq/=.
    - destruct (h !! l ≫= (.!! k)) as [[[l'|]|]|]; [by eapply IH|by exists m..]. }
  assert (∀ s l, keeps_maps (λ h, demo_parse s h l)) as Hp.
  { intros s l h h' E x m Hd. unfold demo_parse in E. destruct (strings_Split s "=") as [|p [|v [|]]]; try done.
    injection E as <-. by eapply Hw. }
  split_and!; [exact Hp|exact Hp|]. intros d h h' l E.
  change (inr (A := kerr) (alloc h {[str "read" := HVal (VStr d)]}) = inr (h', l)) in E.
  assert (alloc h {[str "read" := HVal (VStr d)]} = (h', l)) as Ea by congruence.
  apply alloc_extends in Ea as (He & Hl & _). split; [done|].
  destruct (choose_values (denotes h') {[str "read" := HVal (VStr d)]}) as [vm Hvm].
  - intros k w [_ <-]%lookup_singleton_Some. exists (VStr d). by constructor.
  - exists vm. by econstructor.
Qed.

Lemma demo_values_map : is_map_ref demo_values (Some 0).
Proof.
  destruct (choose_values (denotes demo_values) {[str "b" := HVal (VStr (str "old"))]}) as [v1 H1].
  { intros k w [_ <-]%lookup_singleton_Some. eexists. by constructor. }
  destruct (choose_values (denotes demo_values) (<[str "a" := HVal (VStr (str "old"))]> {[str "m" := HMap (Some 1)]}))
    as [v0 H0]; [|exists v0; by econstructor].
  intros k w [[_ <-]|[_ [_ <-]%lookup_singleton_Some]]%lookup_insert_Some; [eexists; by constructor|].
  exists (VMap v1). by econstructor.
Qed.

Definition demo_final : gmap nat (gmap bytes hval) * nat :=
  match demo_result [demo_target "a"] with inl _ => (∅, 0) | inr p => p end.

Lemma demo_final_runs :
  ∃ t, runs (ChartValuesFromReferences (str "ns") 9 demo_values (Some 0) [demo_target "a"]) t (inr demo_final).
Proof.
  destruct (demo_run_runs [demo_target "a"]) as [t Ht]. exists t.
  assert (match demo_result [demo_target "a"] with inl _ => false | inr _ => true end = true) as Hok by by vm_compute.
  revert Ht Hok. unfold demo_final. generalize (demo_result [demo_target "a"]). by intros [|].
Qed.

Lemma ChartValues_values_win_witness :
  ∃ vv out, denotes demo_final.1 (HMap (Some 0)) (VMap vv) ∧ denotes demo_final.1 (HMap (Some demo_final.2)) (VMap out) ∧
    ∀ p x, at_path p (VMap vv) = Some x → as_map x = None → at_path p (VMap out) = Some x.
Proof.
  destruct demo_final_runs as [t Ht]. rewrite (surjective_pairing demo_final) in Ht.
  exact (ChartValues_values_win (str "ns") 9 demo_values (Some 0) [demo_target "a"] t demo_final.1 demo_final.2
    demo_strvals_ok demo_values_map Ht).
Defined.
