(* ===== verification/ApisMeta.v ===== *)
(** * API types: history and annotation requests; versions
    ([apis/meta/history.go], [apis/meta/annotations.go], [version/version.go]) *)

From S2P Require Import Prelude GoStd Utf8 GoPath SsaObject SsaSort.

(** ** History *)

(** [src/apis/meta/history.go:105-136 Snapshot]
    Times are instants. *)
Record Snapshot := mkSnapshot {
  sn_Digest : bytes; sn_FirstReconciled : Z; sn_LastReconciled : Z; sn_LastReconciledDuration : Z;
  sn_LastReconciledStatus : bytes; sn_TotalReconciliations : Z; sn_Metadata : StrMap }.

(** [src/apis/meta/history.go:25-28 HistoryMaxSize] *)
Definition HistoryMaxSize : nat := 5.

(** The wrap-around of a 64-bit counter. *)
Definition int64 (z : Z) : Z := ((z + 2 ^ 63) mod 2 ^ 64 - 2 ^ 63)%Z.

(** [src/apis/meta/history.go:46-53 Latest] *)
Definition Latest (h : list Snapshot) : option Snapshot := head h.

(** [src/apis/meta/history.go:37-41 Less] *)
Definition history_Less (a b : Snapshot) : bool := (sn_LastReconciled b <? sn_LastReconciled a)%Z.

(** [src/apis/meta/history.go:55-62 truncate] *)
Definition truncate (h : list Snapshot) : list Snapshot :=
  if length h <=? HistoryMaxSize then h else take HistoryMaxSize h.

Definition same_snapshot (digest status : bytes) (s : Snapshot) : bool :=
  beq (sn_Digest s) digest && beq (sn_LastReconciledStatus s) status.

(** The update of a snapshot that is there.
    [src/apis/meta/history.go:76-80 Upsert] *)
Definition touch (now duration : Z) (metadata : StrMap) (s : Snapshot) : Snapshot :=
  mkSnapshot (sn_Digest s) (sn_FirstReconciled s) now duration (sn_LastReconciledStatus s)
    (int64 (sn_TotalReconciliations s + 1)) metadata.

(** The loop: [pre] is the part of the slice that was passed.
    [src/apis/meta/history.go:74-89 Upsert] *)
Fixpoint upsert_loop (pre h : list Snapshot) (digest status : bytes) (now duration : Z) (metadata : StrMap)
    : option (list Snapshot) :=
  match h with
  | [] => None
  | s :: h =>
      if same_snapshot digest status s then Some (touch now duration metadata s :: pre ++ h)
      else upsert_loop (pre ++ [s]) h digest status now duration metadata
  end.

(** [src/apis/meta/history.go:64-103 Upsert] *)
Definition Upsert (h : list Snapshot) (digest : bytes) (timestamp duration : Z) (status : bytes)
    (metadata : StrMap) : list Snapshot :=
  truncate match upsert_loop [] h digest status timestamp duration metadata with
           | Some h => h
           | None => mkSnapshot digest timestamp timestamp duration status 1 metadata :: h
           end.

Definition snapshot_key (s : Snapshot) : bytes * bytes := (sn_Digest s, sn_LastReconciledStatus s).

(** A history as it is kept: bounded, one snapshot for a digest and a status,
    the most recent first. *)
Definition history_ok (h : list Snapshot) : Prop :=
  length h ≤ HistoryMaxSize ∧ NoDup (snapshot_key <$> h) ∧
  StronglySorted (λ a b, (sn_LastReconciled b <= sn_LastReconciled a)%Z) h.

Lemma same_snapshot_spec digest status s :
  same_snapshot digest status s = true ↔ snapshot_key s = (digest, status).
Proof.
  unfold same_snapshot, snapshot_key, beq. rewrite andb_true_iff, !bool_decide_eq_true. naive_solver.
Qed.

Lemma upsert_loop_spec pre h digest status now duration metadata :
  Forall (λ s, snapshot_key s ≠ (digest, status)) pre →
  match upsert_loop pre h digest status now duration metadata with
  | Some h' => ∃ l s r, pre ++ h = l ++ s :: r ∧ snapshot_key s = (digest, status) ∧
                        h' = touch now duration metadata s :: l ++ r
  | None => Forall (λ s, snapshot_key s ≠ (digest, status)) (pre ++ h)
  end.
Proof.
  revert pre. induction h as [|s h IH]; intros pre Hpre; simpl; [by rewrite app_nil_r|].
  destruct (same_snapshot digest status s) eqn:E.
  - apply same_snapshot_spec in E. by exists pre, s, h.
  - specialize (IH (pre ++ [s])). rewrite <-app_assoc in IH. apply IH.
    apply Forall_app. split; [done|]. constructor; [|done]. intros Hs. apply same_snapshot_spec in Hs. congruence.
Qed.

Lemma StronglySorted_del {A} (R : A → A → Prop) l x r :
  StronglySorted R (l ++ x :: r) → StronglySorted R (l ++ r).
Proof.
  induction l as [|y l IH]; simpl; intros Hs; apply StronglySorted_inv in Hs as [Hs Hy]; [done|].
  constructor; [by apply IH|]. apply Forall_app in Hy as [Hl Hr]. apply Forall_app.
  split; [done|by inversion Hr].
Qed.

Lemma StronglySorted_take {A} (R : A → A → Prop) n l : StronglySorted R l → StronglySorted R (take n l).
Proof.
  revert n. induction l as [|x l IH]; intros [|n] Hs; simpl; [constructor..|].
  apply StronglySorted_inv in Hs as [Hs Hx]. constructor; [by apply IH|]. by apply Forall_take.
Qed.

Lemma truncate_ok h :
  NoDup (snapshot_key <$> h) → StronglySorted (λ a b, (sn_LastReconciled b <= sn_LastReconciled a)%Z) h →
  history_ok (truncate h).
Proof.
  intros Hnd Hs. unfold truncate. destruct (Nat.leb_spec (length h) HistoryMaxSize) as [Hl|Hl]; [done|].
  split_and!; [rewrite length_take; lia| |by apply StronglySorted_take].
  rewrite fmap_take. by apply (sublist_NoDup _ _ Hnd), sublist_take.
Qed.

(** C39. [Upsert] keeps the history well formed: given a history with at most
    five snapshots, one for each digest and status and the most recent first,
    and a timestamp that is not older than any of them, the new history is of
    that kind, its first snapshot carries the digest, the status and the
    timestamp, and a snapshot that was there keeps its first timestamp and
    counts one reconciliation more. *)
Theorem Upsert_ok (h : list Snapshot) (digest : bytes) (now duration : Z) (status : bytes) (metadata : StrMap) :
  history_ok h → Forall (λ s, (sn_LastReconciled s <= now)%Z) h →
  let h' := Upsert h digest now duration status metadata in
  history_ok h' ∧ ∃ s, Latest h' = Some s ∧ snapshot_key s = (digest, status) ∧ sn_LastReconciled s = now ∧
    ∀ old, old ∈ h → snapshot_key old = (digest, status) →
      sn_FirstReconciled s = sn_FirstReconciled old ∧
      sn_TotalReconciliations s = int64 (sn_TotalReconciliations old + 1).
Proof.
  intros (Hlen & Hnd & Hs) Hnow. unfold Upsert.
  pose proof (upsert_loop_spec [] h digest status now duration metadata (Forall_nil_2 _)) as Hu.
  assert (∀ x l, Latest (truncate (x :: l)) = Some x) as Hhead.
  { intros x l. unfold truncate. by destruct (_ <=? _). }
  destruct (upsert_loop [] h digest status now duration metadata) as [h'|].
  - destruct Hu as (l & s & r & E & Hk & ->). simpl in E. subst h. rewrite fmap_app, fmap_cons in Hnd.
    split; [apply truncate_ok|].
    + rewrite fmap_cons, fmap_app. by rewrite <-Permutation_middle in Hnd.
    + constructor; [by eapply StronglySorted_del|]. simpl. apply Forall_app in Hnow as [Hl Hr].
      apply Forall_app. split; [done|by inversion Hr].
    + rewrite Hhead. eexists. split_and!; [done|done|done|]. intros old Hold Hko.
      assert (old = s) as ->; [|done]. rewrite <-Permutation_middle in Hnd, Hold. rewrite <-fmap_app in Hnd.
      apply NoDup_cons in Hnd as [Hnin _]. apply elem_of_cons in Hold as [->|Hold]; [done|].
      destruct Hnin. rewrite Hk, <-Hko. by apply list_elem_of_fmap_2.
  - simpl in Hu. split; [apply truncate_ok|].
    + rewrite fmap_cons. constructor; [|done]. intros (s & Es & Hin)%list_elem_of_fmap.
      eapply Forall_forall in Hu; [|done]. by rewrite <-Es in Hu.
    + by constructor.
    + rewrite Hhead. eexists. split_and!; [done..|]. intros old Hold Hko.
      eapply Forall_forall in Hu; [|done]. done.
Qed.

(** ** Annotation requests *)

(** [src/apis/meta/annotations.go:25-33 ForceRequestAnnotation] *)
Definition ForceRequestAnnotation : bytes := str "reconcile.fluxcd.io/forceAt".
Definition requestedAt : bytes := str "reconcile.fluxcd.io/requestedAt".

(** The answer and the token that was handled last.
    [src/apis/meta/annotations.go:118-143 HandleAnnotationRequest] *)
Definition HandleAnnotationRequest (annotations : StrMap) (lastHandledReconcile annotation lastHandled : bytes)
    : bool * bytes :=
  match annotations !! annotation with
  | None => (false, lastHandled)
  | Some requestAt =>
      match annotations !! requestedAt with
      | None => (false, requestAt)
      | Some reconcileAt =>
          (beq requestAt reconcileAt && (negb (beq lastHandledReconcile reconcileAt) && negb (beq lastHandled requestAt)),
           requestAt)
      end
  end.

(** [src/apis/meta/annotations.go:95-108 ShouldHandleForceRequest] *)
Definition ShouldHandleForceRequest (annotations : StrMap) (lastHandledReconcile lastHandledForce : bytes)
    : bool * bytes :=
  HandleAnnotationRequest annotations lastHandledReconcile ForceRequestAnnotation lastHandledForce.

(** [src/apis/meta/annotations.go:62-65 SetLastHandledReconcileRequest] *)
Definition SetLastHandledReconcileRequest (_ token : bytes) : bytes := token.

(** Reconciliations of an object whose annotations stay the same: what each of
    them decides.  The reconciler may record the reconcile request in between. *)
Fixpoint handle_all (annotations : StrMap) (annotation last : bytes) (handledReconcile : list bytes) : list bool :=
  match handledReconcile with
  | [] => []
  | r :: rest =>
      let '(b, last) := HandleAnnotationRequest annotations r annotation last in
      b :: handle_all annotations annotation last rest
  end.

(** A request is handled at most once: however often an object with the same
    annotations is reconciled, and whatever its status says about reconcile
    requests, only the first time can the answer be yes. *)
Theorem HandleAnnotationRequest_once (annotations : StrMap) (annotation last : bytes) (handledReconcile : list bytes) :
  Forall (λ b, b = false) (drop 1 (handle_all annotations annotation last handledReconcile)).
Proof.
  destruct handledReconcile as [|r rest]; [constructor|]. cbn [handle_all].
  destruct (HandleAnnotationRequest annotations r annotation last) as [b last'] eqn:E. cbn [drop].
  assert (annotations !! annotation = None ∨ annotations !! annotation = Some last') as Hl.
  { unfold HandleAnnotationRequest in E. destruct (annotations !! annotation); [right|by left].
    destruct (annotations !! requestedAt); by simplify_eq. }
  clear E. induction rest as [|r' rest IH]; [constructor|]. cbn [handle_all].
  unfold HandleAnnotationRequest. destruct Hl as [Hl|Hl]; rewrite Hl; [constructor; [done|]; auto|].
  destruct (annotations !! requestedAt); (constructor; [|auto]); [|done].
  unfold beq. rewrite (bool_decide_true (last' = last')) by done. by rewrite !andb_false_r.
Qed.

(** ** Versions of repositories *)

(** [src/version/version.go:57-70 repositoryBaseline] *)
Record repositoryBaseline := mkBaseline { rb_major : Z; rb_minor : Z; rb_flux2Minor : Z }.

(** [src/version/version.go:72-89 baseline] *)
Definition baseline : gmap bytes repositoryBaseline := list_to_map ((λ '(n, b), (str n, b)) <$> [
  ("flux2"%string, mkBaseline 2 7 7); ("source-controller"%string, mkBaseline 1 7 7);
  ("kustomize-controller"%string, mkBaseline 1 7 7); ("helm-controller"%string, mkBaseline 1 4 7);
  ("notification-controller"%string, mkBaseline 1 7 7); ("image-reflector-controller"%string, mkBaseline 1 0 7);
  ("image-automation-controller"%string, mkBaseline 1 0 7); ("source-watcher"%string, mkBaseline 2 0 7)]).

(** [src/version/version.go:91-98 RepoMajor] *)
Definition RepoMajor (repoName : bytes) : option Z := rb_major <$> baseline !! repoName.
(** [src/version/version.go:100-109 RepoMinorForFluxMinor] *)
Definition RepoMinorForFluxMinor (repoName : bytes) (flux2Minor : Z) : option Z :=
  cv ← baseline !! repoName; Some (int64 (int64 (flux2Minor - rb_flux2Minor cv) + rb_minor cv)).
(** [src/version/version.go:111-121 FluxMinorForRepoMinor] *)
Definition FluxMinorForRepoMinor (repoName : bytes) (repoMinor : Z) : option Z :=
  cv ← baseline !! repoName; Some (int64 (int64 (repoMinor - rb_minor cv) + rb_flux2Minor cv)).

Lemma int64_add a b : int64 (int64 a + b) = int64 (a + b).
Proof.
  unfold int64. f_equal.
  replace ((a + 2 ^ 63) mod 2 ^ 64 - 2 ^ 63 + b + 2 ^ 63)%Z with ((a + 2 ^ 63) mod 2 ^ 64 + b)%Z by lia.
  rewrite Zplus_mod_idemp_l. f_equal. lia.
Qed.

Lemma int64_id z : (- 2 ^ 63 <= z < 2 ^ 63)%Z → int64 z = z.
Proof. intros Hz. unfold int64. rewrite Z.mod_small by lia. lia. Qed.

(** The two conversions are inverse to each other, on all 64-bit integers. *)
Lemma version_roundtrip repo minor m :
  (- 2 ^ 63 <= minor < 2 ^ 63)%Z →
  (RepoMinorForFluxMinor repo minor = Some m → FluxMinorForRepoMinor repo m = Some minor) ∧
  (FluxMinorForRepoMinor repo minor = Some m → RepoMinorForFluxMinor repo m = Some minor).
Proof.
  intros Hm. unfold RepoMinorForFluxMinor, FluxMinorForRepoMinor.
  destruct (baseline !! repo) as [cv|]; simpl; [|done].
  assert (∀ a b, int64 (int64 (int64 (int64 (minor - a) + b) - b) + a) = minor) as Hab.
  { intros a b. rewrite int64_add. replace (int64 (int64 (minor - a) + b) - b + a)%Z
      with (int64 (int64 (minor - a) + b) + (a - b))%Z by lia.
    rewrite !int64_add, <-Z.add_assoc, int64_add. etrans; [|by apply int64_id]. f_equal. lia. }
  split; intros [= <-]; by rewrite Hab.
Qed.

(** [semver] of another package. *)
Class Semver := {
  Version : Type;
  NewVersion : bytes → option Version;
  LessThan : Version → Version → bool;
  Original : Version → bytes }.

Section version_sort.
Context `{Semver} `{SortFunc}.

(** [strings.SplitN(v, ".", 3)] has three parts when there are two dots.
    [src/version/version.go:27-38 ParseVersion] *)
Definition ParseVersion (v : bytes) : option Version :=
  if length (strings_Split v ".") <? 3 then None else NewVersion v.

(** [check] is the constraint, if there is one.
    [src/version/version.go:40-55 Sort] *)
Definition version_Sort (check : option (Version → bool)) (vs : list bytes) : list bytes :=
  let versions := omap (λ v, match ParseVersion v with
                             | Some pv => if match check with None => true | Some c => c pv end then Some pv else None
                             | None => None
                             end) vs in
  Original <$> sort_Slice (λ a b, LessThan b a) versions.
End version_sort.

Definition demo_snapshot : Snapshot := mkSnapshot (str "d") 1 2 0 (str "ok") 1 ∅.

Lemma Upsert_ok_witness :
  let h' := Upsert [demo_snapshot] (str "d") 7 1 (str "ok") ∅ in
  history_ok h' ∧ ∃ s, Latest h' = Some s ∧ snapshot_key s = (str "d", str "ok") ∧ sn_LastReconciled s = 7%Z ∧
    ∀ old, old ∈ [demo_snapshot] → snapshot_key old = (str "d", str "ok") →
      sn_FirstReconciled s = sn_FirstReconciled old ∧
      sn_TotalReconciliations s = int64 (sn_TotalReconciliations old + 1).
Proof.
  apply (Upsert_ok [demo_snapshot] (str "d") 7 1 (str "ok") ∅).
  - split_and!; [vm_compute; lia|apply NoDup_singleton|repeat constructor].
  - constructor; [vm_compute; congruence|constructor].
Defined.
