(* ===== verification/Sourceignore.v ===== *)
(** * Ignore patterns ([sourceignore], [sourceignore/gitignore])

    Patterns of [.sourceignore] files, scoped to the directory of the file; the
    last pattern that says something about a path decides. *)

From S2P Require Import Prelude Utf8 GoPath GoText Glob SsaObject.

(** [filepath.Match] on names without separators: [None] for a malformed
    pattern.  The law is its documentation, for ASCII names. *)
Class FilepathMatch := {
  filepath_Match : bytes → bytes → option bool;
  filepath_Match_doc : ∀ p ts name, pattern_of p ts → ascii_string name →
    ("/"%char : ascii) ∉ name → ∃ b, filepath_Match p name = Some b ∧ (b = true ↔ matches ts name) }.

(** ** Patterns ([gitignore/pattern.go]) *)

(** [src/sourceignore/gitignore/pattern.go:27-37 MatchResult] *)
Inductive MatchResult := NoMatch | Exclude | Include.
#[global] Instance MatchResult_eq_dec : EqDecision MatchResult.
Proof. solve_decision. Defined.

(** [src/sourceignore/gitignore/pattern.go:51-57 pattern] *)
Record pattern := mkPattern {
  domain : list bytes; pat : list bytes; inclusion : bool; dirOnly : bool; isGlob : bool }.

(** [strings.TrimRight(p, " ")] *)
Fixpoint drop_blanks (s : bytes) : bytes :=
  match s with c :: s' => if Ascii.eqb c " " then drop_blanks s' else s | [] => [] end.
Definition trim_blanks (s : bytes) : bytes := reverse (drop_blanks (reverse s)).

(** [src/sourceignore/gitignore/pattern.go:59-85 ParsePattern] *)
Definition ParsePattern (p : bytes) (dom : list bytes) : pattern :=
  let incl := HasPrefix p (str "!") in
  let p := if incl then drop 1 p else p in
  let p := if HasSuffix p (str "\ ") then p else trim_blanks p in
  let dir := HasSuffix p [sep] in
  let p := if dir then take (length p - 1) p else p in
  mkPattern dom (strings_Split p sep) incl dir (strings_Contains p [sep]).

Definition stars : bytes := str "**".

Section matching.
Context `{FilepathMatch}.

Definition is_nil {A} (l : list A) : bool := match l with [] => true | _ => false end.

(** [p.pattern] has at least one element, as [strings.Split] returns one.
    [src/sourceignore/gitignore/pattern.go:111-124 simpleNameMatch] *)
Fixpoint simpleNameMatch (p : pattern) (path : list bytes) (isDir : bool) : bool :=
  match path with
  | [] => false
  | name :: path =>
      match filepath_Match (default [] (head (pat p))) name with
      | None => false
      | Some false => simpleNameMatch p path isDir
      | Some true => negb (dirOnly p && negb isDir && is_nil path)
      end
  end.

(** The inner loop of a traversal: the element is looked for from the left;
    [None] is a return.
    [src/sourceignore/gitignore/pattern.go:149-161 globMatch] *)
Fixpoint traverse (pt : bytes) (path : list bytes) (matched : bool) : option (bool * list bytes) :=
  match path with
  | [] => Some (matched, [])
  | e :: path =>
      match filepath_Match pt e with
      | None => None
      | Some true => Some (true, path)
      | Some false => traverse pt path (if is_nil path then false else matched)
      end
  end.

(** The loop with its variables [path], [matched] and [canTraverse]; [None] is
    a return of false.
    [src/sourceignore/gitignore/pattern.go:129-169 globMatch] *)
Fixpoint glob_loop (pats path : list bytes) (matched canTraverse : bool) : option (bool * list bytes) :=
  match pats with
  | [] => Some (matched, path)
  | pt :: pats =>
      if beq pt [] then glob_loop pats path matched false
      else if beq pt stars then
        if is_nil pats then Some (matched, path) else glob_loop pats path matched true
      else if strings_Contains pt stars then None
      else match path with
           | [] => None
           | e :: path' =>
               if canTraverse then
                 match traverse pt path matched with
                 | None => None
                 | Some (matched, path) => glob_loop pats path matched false
                 end
               else match filepath_Match pt e with
                    | Some true => glob_loop pats path' true false
                    | _ => None
                    end
           end
  end.

(** [src/sourceignore/gitignore/pattern.go:126-174 globMatch] *)
Definition globMatch (p : pattern) (path : list bytes) (isDir : bool) : bool :=
  match glob_loop (pat p) path false false with
  | None => false
  | Some (matched, path) => matched && negb (dirOnly p && negb isDir && is_nil path)
  end.

(** [src/sourceignore/gitignore/pattern.go:87-109 pattern.Match] *)
Definition pattern_Match (p : pattern) (path : list bytes) (isDir : bool) : MatchResult :=
  if length path <=? length (domain p) then NoMatch
  else if negb (bool_decide (take (length (domain p)) path = domain p)) then NoMatch
  else
    let path := drop (length (domain p)) path in
    if isGlob p && negb (globMatch p path isDir) then NoMatch
    else if negb (isGlob p) && negb (simpleNameMatch p path isDir) then NoMatch
    else if inclusion p then Include else Exclude.

(** ** Matchers ([gitignore/matcher.go]) *)

(** The loop from the last pattern to the first, on the reversed list.
    [src/sourceignore/gitignore/matcher.go:41-49 matcher.Match] *)
Fixpoint match_from_end (rev_ps : list pattern) (path : list bytes) (isDir : bool) : bool :=
  match rev_ps with
  | [] => false
  | p :: ps => match pattern_Match p path isDir with
               | NoMatch => match_from_end ps path isDir
               | m => bool_decide (m = Exclude)
               end
  end.

(** [src/sourceignore/gitignore/matcher.go:41-49 matcher.Match] *)
Definition matcher_Match (ps : list pattern) (path : list bytes) (isDir : bool) : bool :=
  match_from_end (reverse ps) path isDir.

(** ** Pattern files ([sourceignore.go]) *)

(** [src/sourceignore/sourceignore.go:29-35 ExcludeVCS] *)
Definition ExcludeVCS : bytes := str ".git/,.gitignore,.gitmodules,.gitattributes".
(** [src/sourceignore/sourceignore.go:32-32 ExcludeExt] *)
Definition ExcludeExt : bytes := str "*.jpg,*.jpeg,*.gif,*.png,*.wmv,*.flv,*.tar.gz,*.zip".
(** [src/sourceignore/sourceignore.go:33-33 ExcludeCI] *)
Definition ExcludeCI : bytes :=
  str ".github/,.circleci/,.travis.yml,.gitlab-ci.yml,appveyor.yml,.drone.yml,cloudbuild.yaml,codeship-services.yml,codeship-steps.yml".
(** [src/sourceignore/sourceignore.go:34-34 ExcludeExtra] *)
Definition ExcludeExtra : bytes := str "**/.goreleaser.yml,**/.sops.yaml,**/.flux.yaml".

(** [src/sourceignore/sourceignore.go:53-61 VCSPatterns] *)
Definition VCSPatterns (dom : list bytes) : list pattern :=
  (λ p, ParsePattern p dom) <$> strings_Split ExcludeVCS ",".
(** [src/sourceignore/sourceignore.go:63-72 DefaultPatterns] *)
Definition DefaultPatterns (dom : list bytes) : list pattern :=
  (λ p, ParsePattern p dom) <$> strings_Split (strings_Join [ExcludeExt; ExcludeCI; ExcludeExtra] ",") ",".
(** [src/sourceignore/sourceignore.go:43-51 NewDefaultMatcher] *)
Definition NewDefaultMatcher (ps : list pattern) (dom : list bytes) : list pattern :=
  VCSPatterns dom ++ DefaultPatterns dom ++ ps.

(** The scanner's error is not asked for.
    [src/sourceignore/sourceignore.go:74-88 ReadPatterns] *)
Definition ReadPatterns (content : bytes) (dom : list bytes) : list pattern :=
  (λ s, ParsePattern s dom) <$>
    filter (λ s, negb (HasPrefix s (str "#")) && (0 <? length (strings_TrimSpace s)) = true) (scan_lines content).1.

(** A directory: its ignore file (an error, missing, or its content), the
    error of listing it, and its entries, [None] for a file. *)
Inductive dir := Dir (ignore : kerr + option bytes) (listing : option kerr) (entries : list (bytes * option dir)).

(** [src/sourceignore/sourceignore.go:90-101 ReadIgnoreFile] *)
Definition ReadIgnoreFile (f : kerr + option bytes) (dom : list bytes) : kerr + list pattern :=
  match f with
  | inl e => inl e
  | inr None => inr []
  | inr (Some content) => inr (ReadPatterns content dom)
  end.

(** [src/sourceignore/sourceignore.go:119-129 LoadIgnorePatterns] *)
Definition load_loop (rec : dir → list bytes → kerr + list pattern) (dom : list bytes)
    : list (bytes * option dir) → list pattern → kerr + list pattern :=
  fix loop es ps :=
    match es with
    | [] => inr ps
    | (name, fi) :: es =>
        match fi with
        | Some sub =>
            if negb (beq name (str ".git")) then
              match rec sub (dom ++ [name]) with
              | inl e => inl e
              | inr subps => loop es (ps ++ subps)
              end
            else loop es ps
        | None => loop es ps
        end
    end.

(** [src/sourceignore/sourceignore.go:103-131 LoadIgnorePatterns] *)
Fixpoint LoadIgnorePatterns (d : dir) (dom : list bytes) : kerr + list pattern :=
  match d with
  | Dir ignore listing entries =>
      match ReadIgnoreFile ignore dom with
      | inl e => inl e
      | inr ps =>
          match listing with
          | Some e => inl e
          | None => load_loop LoadIgnorePatterns dom entries ps
          end
      end
  end.

(** ** What the patterns say *)

(** The last pattern that speaks about a path decides: the path is ignored
    exactly if some pattern excludes it and no later pattern matches it. *)
Theorem matcher_Match_last (ps : list pattern) (path : list bytes) (isDir : bool) :
  matcher_Match ps path isDir = true ↔
  ∃ l p r, ps = l ++ p :: r ∧ pattern_Match p path isDir = Exclude ∧
    Forall (λ q, pattern_Match q path isDir = NoMatch) r.
Proof.
  unfold matcher_Match. induction ps as [|p ps IH] using rev_ind.
  { split; [done|]. intros (l & p & r & E & _). by destruct l. }
  rewrite reverse_snoc. simpl. destruct (pattern_Match p path isDir) eqn:Ep.
  - rewrite IH. split; intros (l & q & r & E & Hq & Hr).
    + exists l, q, (r ++ [p]). subst ps. rewrite <-app_assoc. split_and!; [done..|].
      apply Forall_app. split; [done|by constructor].
    + destruct r as [|x r _] using rev_ind.
      * apply app_inj_tail in E as [-> ->]. congruence.
      * exists l, q, r. rewrite app_comm_cons, app_assoc in E. apply app_inj_tail in E as [-> ->].
        apply Forall_app in Hr as [Hr _]. done.
  - split; [|done]. intros _. exists ps, p, []. split_and!; [done..|constructor].
  - split; [done|]. intros (l & q & r & E & Hq & Hr).
    destruct r as [|x r _] using rev_ind.
    + apply app_inj_tail in E as [-> ->]. congruence.
    + rewrite app_comm_cons, app_assoc in E. apply app_inj_tail in E as [-> ->].
      apply Forall_app in Hr as [_ Hr]. inversion Hr. congruence.
Qed.

(** A pattern speaks only about paths below its directory. *)
Lemma pattern_Match_domain p path isDir :
  pattern_Match p path isDir ≠ NoMatch → ∃ x rest, path = domain p ++ x :: rest.
Proof.
  unfold pattern_Match. destruct (Nat.leb_spec (length path) (length (domain p))) as [|Hl]; [done|].
  case_bool_decide as Ht; simpl; [|done]. intros _.
  rewrite <-(take_drop (length (domain p)) path), Ht.
  destruct (drop (length (domain p)) path) as [|x rest] eqn:E; [|by exists x, rest].
  apply (f_equal length) in E. rewrite length_drop in E. simpl in E. lia.
Qed.

(** ** Patterns without traversal *)

(** An element of a pattern that is matched against one name. *)
Definition plain_part (s : bytes) : Prop := s ≠ [] ∧ s ≠ stars ∧ strings_Contains s stars = false.

Lemma glob_loop_plain parts path matched :
  Forall plain_part parts →
  glob_loop parts path matched false =
  if decide (Forall2 (λ pt e, filepath_Match pt e = Some true) parts (take (length parts) path))
  then Some (if is_nil parts then matched else true, drop (length parts) path) else None.
Proof.
  intros Hp. revert path matched. induction Hp as [|pt parts (Hne & Hns & Hnc) _ IH]; intros path matched;
    cbn [glob_loop length take drop is_nil].
  { by rewrite decide_True by constructor. }
  unfold beq. rewrite !bool_decide_false, Hnc by done. destruct path as [|e path]; cbn [take drop].
  { rewrite decide_False; [done|]. inversion 1. }
  destruct (filepath_Match pt e) as [[]|] eqn:Em.
  - rewrite IH. destruct (decide (Forall2 _ parts _)) as [Hf|Hf].
    + rewrite decide_True by (by constructor). by destruct parts.
    + rewrite decide_False; [done|]. by inversion 1.
  - rewrite decide_False; [done|]. inversion 1. congruence.
  - rewrite decide_False; [done|]. inversion 1. congruence.
Qed.

(** Anchored patterns: a pattern with a separator and no [**] matches a path
    exactly if its elements match, one by one, the first names of the path,
    whatever follows; a pattern for directories does not match a file that has
    nothing following. *)
Theorem globMatch_anchored (p : pattern) (parts path : list bytes) (isDir : bool) :
  pat p = parts ∨ pat p = [] :: parts → parts ≠ [] → Forall plain_part parts →
  globMatch p path isDir = true ↔
  ∃ pre post, path = pre ++ post ∧ Forall2 (λ pt e, filepath_Match pt e = Some true) parts pre ∧
    ¬ (dirOnly p = true ∧ isDir = false ∧ post = []).
Proof.
  intros Hpat Hne Hparts. unfold globMatch.
  assert (glob_loop (pat p) path false false = glob_loop parts path false false) as -> by by destruct Hpat as [->| ->].
  rewrite glob_loop_plain by done. destruct parts as [|pt parts]; [done|].
  set (n := length (pt :: parts)). case_decide as Hf; simpl.
  - split.
    + intros Hb. exists (take n path), (drop n path). rewrite take_drop. split_and!; [done|done|].
      intros (Hd & Hi & Hn). rewrite Hd, Hi, Hn in Hb. done.
    + intros (pre & post & -> & Hpre & Hnot). apply Forall2_length in Hpre as Hl. fold n in Hl.
      rewrite Hl, drop_app_length. destruct (dirOnly p), isDir, post; try done. naive_solver.
  - split; [done|]. intros (pre & post & -> & Hpre & _). destruct Hf. apply Forall2_length in Hpre as Hl.
    fold n in Hl. by rewrite Hl, take_app_length.
Qed.

(** ** The directories of patterns *)

(** The content of the ignore file of a subdirectory, by its path. *)
Inductive ignore_at : dir → list bytes → bytes → Prop :=
  | ignore_here c listing es : ignore_at (Dir (inr (Some c)) listing es) [] c
  | ignore_below i listing es name sub path c :
      (name, Some sub) ∈ es → name ≠ str ".git" → ignore_at sub path c →
      ignore_at (Dir i listing es) (name :: path) c.

Lemma dir_nested_ind (P : dir → Prop) :
  (∀ i l es, (∀ name d, (name, Some d) ∈ es → P d) → P (Dir i l es)) → ∀ d, P d.
Proof.
  intros HP. fix IH 1. intros [i l es]. apply HP.
  assert (Forall (λ e, from_option P True e.2) es) as Hes.
  { clear -IH. induction es as [|[name fi] es IHes]; constructor; [|exact IHes].
    destruct fi as [d|]; [apply IH|exact I]. }
  clear IH. intros name d Hin. by apply (proj1 (Forall_forall _ _) Hes) in Hin.
Qed.

(** The pattern comes from a file of the tree and has its scope. *)
Definition scoped (d : dir) (dom : list bytes) (p : pattern) : Prop :=
  ∃ path c, ignore_at d path c ∧ p ∈ ReadPatterns c (dom ++ path) ∧ domain p = dom ++ path.

Lemma ReadIgnoreFile_scoped i listing es dom ps :
  ReadIgnoreFile i dom = inr ps → Forall (scoped (Dir i listing es) dom) ps.
Proof.
  unfold ReadIgnoreFile. destruct i as [e|[c|]]; intros [= <-]; [|constructor].
  apply Forall_forall. intros p Hp. exists [], c. rewrite app_nil_r.
  split_and!; [constructor|done|]. unfold ReadPatterns in Hp. by apply list_elem_of_fmap in Hp as (s & -> & _).
Qed.

Lemma load_loop_scoped d dom es ps ps' :
  (∀ name sub path c, (name, Some sub) ∈ es → name ≠ str ".git" → ignore_at sub path c → ignore_at d (name :: path) c) →
  (∀ name sub dom' qs, (name, Some sub) ∈ es → LoadIgnorePatterns sub dom' = inr qs → Forall (scoped sub dom') qs) →
  Forall (scoped d dom) ps → load_loop LoadIgnorePatterns dom es ps = inr ps' → Forall (scoped d dom) ps'.
Proof.
  revert ps. induction es as [|[name fi] es IH]; intros ps Hat Hrec Hps Hl; cbn in Hl; [by simplify_eq|].
  assert (∀ qs, Forall (scoped d dom) qs → load_loop LoadIgnorePatterns dom es qs = inr ps' →
            Forall (scoped d dom) ps') as Hnext.
  { intros qs Hqs. apply IH; [| |done].
    - intros n sub path c Hin. apply Hat. by constructor.
    - intros n sub dom' qs' Hin. apply (Hrec n). by constructor. }
  destruct fi as [sub|]; [|by eapply Hnext]. unfold beq in Hl. case_bool_decide as Hg; simpl in Hl; [by eapply Hnext|].
  destruct (LoadIgnorePatterns sub (dom ++ [name])) as [e|subps] eqn:Es; [done|].
  eapply Hnext; [|exact Hl]. apply Forall_app. split; [done|].
  apply (Hrec name) in Es; [|by constructor]. eapply Forall_impl; [exact Es|].
  intros p (path & c & Ha & Hin & Hd). exists (name :: path), c. rewrite <-app_assoc in Hin, Hd.
  split_and!; [|done|done]. apply (Hat name sub); [by constructor|done|done].
Qed.

(** Every pattern that is loaded comes from the ignore file of a directory
    that is not inside [.git], and its scope is that directory. *)
Theorem LoadIgnorePatterns_scoped (d : dir) (dom : list bytes) (ps : list pattern) :
  LoadIgnorePatterns d dom = inr ps → Forall (scoped d dom) ps.
Proof.
  revert dom ps. induction d as [ignore listing entries IH] using dir_nested_ind. intros dom ps. cbn.
  destruct (ReadIgnoreFile ignore dom) as [e|ps0] eqn:E0; [done|].
  destruct listing as [e|]; [done|]. apply load_loop_scoped.
  - intros name sub path c Hin Hn Ha. by econstructor.
  - intros name sub dom' qs Hin. by eapply IH.
  - by apply ReadIgnoreFile_scoped.
Qed.
End matching.

(** ** Concrete inputs *)

(** The matcher of [Glob] satisfies the documentation. *)
Definition glob_match (p name : bytes) : option bool :=
  match Match p name with Matched b => Some b | _ => None end.
Lemma glob_match_doc p ts name :
  pattern_of p ts → ascii_string name → ("/"%char : ascii) ∉ name →
  ∃ b, glob_match p name = Some b ∧ (b = true ↔ matches ts name).
Proof.
  intros Hp Ha _. unfold glob_match.
  destruct (Match_correct p ts name Hp) as ([E|E] & Hs & Hc); rewrite E in *; eexists; (split; [done|]); naive_solver.
Qed.
#[global] Instance glob_filepath : FilepathMatch :=
  { filepath_Match := glob_match; filepath_Match_doc := glob_match_doc }.

Definition path_of (s : string) : list bytes := strings_Split (str s) "/".

(** The traversal of [**] does not backtrack. *)
Example stars_do_not_backtrack :
  pattern_Match (ParsePattern (str "**/a/b") []) (path_of "x/a/b") false = Exclude ∧
  pattern_Match (ParsePattern (str "**/a/b") []) (path_of "a/a/b") false = NoMatch.
Proof. by vm_compute. Qed.

Lemma globMatch_anchored_witness :
  let p := ParsePattern (str "/docs/*.md") [] in
  globMatch p (path_of "docs/a.md") false = true ∧
  ∃ pre post, path_of "docs/a.md" = pre ++ post ∧
    Forall2 (λ pt e, filepath_Match pt e = Some true) [str "docs"; str "*.md"] pre ∧
    ¬ (dirOnly p = true ∧ false = false ∧ post = []).
Proof.
  intros p. split; [by vm_compute|].
  apply (globMatch_anchored p [str "docs"; str "*.md"] (path_of "docs/a.md") false).
  - by right.
  - done.
  - repeat (constructor; [split_and!; [done|done|by vm_compute]|]). constructor.
  - by vm_compute.
Defined.

Lemma LoadIgnorePatterns_scoped_witness :
  let d := Dir (inr (Some (str "*.tmp"))) None [(str "sub", Some (Dir (inr (Some (str "!keep"))) None []))] in
  ∃ ps, LoadIgnorePatterns d [] = inr ps ∧ length ps = 2 ∧ Forall (scoped d []) ps.
Proof.
  intros d. exists [ParsePattern (str "*.tmp") []; ParsePattern (str "!keep") [str "sub"]].
  split; [by vm_compute|]. split; [done|].
  apply (LoadIgnorePatterns_scoped d []). by vm_compute.
Defined.
