(* ===== verification/ArtifactStorage.v ===== *)
(** * Artifact storage ([artifact/storage], [apis/meta/artifact.go])

    Artifacts are tarballs below a base directory.  They are written to a
    temporary file next to their place and renamed, so that a reader never
    sees half of one.  Paths are joined by [SecureJoin] of a library. *)

From S2P Require Import Prelude GoStd Utf8 GoPath Interaction Untar Symlinks OsProg Sourceignore.

(** [src/apis/meta/artifact.go:23-59 Artifact] *)
Record Artifact := mkArtifact {
  art_Digest : bytes; art_Path : bytes; art_URL : bytes; art_Revision : bytes;
  art_LastUpdateTime : Z; art_Size : option Z; art_Metadata : gmap bytes bytes }.

(** [src/apis/meta/artifact.go:61-68 Artifact.HasRevision] *)
Definition HasRevision (a : option Artifact) (revision : bytes) : bool :=
  match a with None => false | Some a => bool_decide (art_Revision a = revision) end.
(** [src/apis/meta/artifact.go:70-77 Artifact.HasDigest] *)
Definition HasDigest (a : option Artifact) (digest : bytes) : bool :=
  match a with None => false | Some a => bool_decide (art_Digest a = digest) end.

(** ** Paths and names *)

(** [src/artifact/storage/storage.go:36-52 Storage] *)
Record Storage := mkStorage {
  BasePath : bytes; Hostname : bytes; ArtifactRetentionTTL : Z; ArtifactRetentionRecords : Z }.

Section storage.
Context {Uni : Unicode}.
Context (SecureJoin : bytes → bytes → os_error + bytes).
(** SHA-256 in the form of a digest. *)
Context (Digest : bytes → bytes).
Implicit Types (s : Storage) (a : Artifact).

(** [src/artifact/storage/path.go:28-39 Storage.LocalPath] *)
Definition LocalPath s a : bytes :=
  if bool_decide (art_Path a = []) then []
  else match SecureJoin (BasePath s) (art_Path a) with inl _ => [] | inr p => p end.

(** [src/artifact/storage/path.go:41-46 ArtifactDir] *)
Definition ArtifactDir (kind namespace name : bytes) : bytes :=
  filepath_Join [strings_ToLower kind; namespace; name].
(** [src/artifact/storage/path.go:48-52 ArtifactPath] *)
Definition ArtifactPath (kind namespace name filename : bytes) : bytes :=
  filepath_Join [ArtifactDir kind namespace name; filename].

(** [strings.TrimLeft(p, "/")] *)
Fixpoint trim_slashes (p : bytes) : bytes :=
  match p with c :: p' => if Ascii.eqb c sep then trim_slashes p' else p | [] => [] end.

(** [src/artifact/storage/storage.go:89-99 Storage.SetArtifactURL] *)
Definition SetArtifactURL s a : Artifact :=
  if bool_decide (art_Path a = []) then a
  else
    let host := if HasPrefix (Hostname s) (str "http://") || HasPrefix (Hostname s) (str "https://")
                then Hostname s else str "http://" ++ Hostname s in
    mkArtifact (art_Digest a) (art_Path a) (host ++ sep :: trim_slashes (art_Path a)) (art_Revision a)
      (art_LastUpdateTime a) (art_Size a) (art_Metadata a).

(** [src/artifact/storage/storage.go:78-87 Storage.NewArtifactFor] *)
Definition NewArtifactFor s (kind namespace name revision fileName : bytes) : Artifact :=
  SetArtifactURL s
    (mkArtifact [] (ArtifactPath kind namespace name fileName) [] revision 0 None ∅).

(** [src/artifact/storage/storage.go:111-118 Storage.ArtifactExist] *)
Definition ArtifactExist s a : os_prog bool :=
  Call (PLstat (LocalPath s a)) (λ r,
  match an_err r with Some _ => Ret false | None => Ret (IsRegular (an_mode r)) end).

Inductive storage_error :=
  | StorageOS (e : oserr)
  | NoDigest
  | BadDigest (d : bytes)
  | DigestMismatch (d : bytes)
  | InvalidDir (dir : bytes)
  | RemoveFailed (names : list bytes)
  | CantWalk (errs : list bytes)
  | MissingTimestamp (ts : Z).

(** [digest.Parse], and the verifier of a digest on a content, are of a
    library.
    [src/artifact/storage/storage.go:120-147 Storage.VerifyArtifact] *)
Definition VerifyArtifact (ParseDigest : bytes → bool) (Verified : bytes → bytes → bool) s a
    : os_prog (option storage_error) :=
  if bool_decide (art_Digest a = []) then Ret (Some NoDigest)
  else if negb (ParseDigest (art_Digest a)) then Ret (Some (BadDigest (art_Digest a)))
  else
    let f := LocalPath s a in
    Call (POpen f) (λ r,
    match an_err r with
    | Some e => Ret (Some (StorageOS e))
    | None =>
        Call (PRead f) (λ r,
        Call (PCloseR f) (λ _,
        match an_err r with
        | Some e => Ret (Some (StorageOS e))
        | None => if negb (Verified (art_Digest a) (concat (an_data r)))
                  then Ret (Some (DigestMismatch (art_Digest a))) else Ret None
        end))
    end).

(** ** Writing *)

(** What successive reads deliver, and the error at the end. *)
Record source := mkSource { src_chunks : list bytes; src_err : option oserr }.

(** [src/artifact/storage/archive.go:54-59 writeCounter.Write] *)
Definition writeCounter_Write (written : Z) (p : bytes) : Z := int64_wrap (written + Z.of_nat (length p)).
Definition counted (chunks : list bytes) : Z := foldl writeCounter_Write 0%Z chunks.

(** The directory and the file part of a path ([filepath.Split]). *)
Definition path_Split (p : bytes) : bytes * bytes :=
  match reverse (strings_Split p sep) with
  | [] => ([], [])
  | [file] => ([], file)
  | file :: dirs => (strings_Join (reverse dirs) sep ++ [sep], file)
  end.

Definition updated a (content : list bytes) (now : Z) : Artifact :=
  mkArtifact (Digest (concat content)) (art_Path a) (art_URL a) (art_Revision a) now (Some (counted content))
    (art_Metadata a).

(** What the writers share: a temporary file in the directory of the place, a
    body that fills it, a change of its mode (not for [Copy]), and the
    rename.  A deferred function removes the temporary file after an error. *)
Definition atomically (fuel : nat) s a (chmod : option Z) (now : Z)
    (fill : bytes → os_prog (oserr + list bytes)) : os_prog (Artifact * option oserr) :=
  let localPath := LocalPath s a in
  let '(dir, pattern) := path_Split localPath in
  Call (PCreateTemp dir pattern) (λ r,
  match an_err r with
  | Some e => Ret (a, Some e)
  | None =>
      let tf := an_name r in
      let failed e := Call (PRemove tf) (λ _, Ret (a, Some e)) in
      fill tf ≫= λ filled,
      match filled with
      | inl e => failed e
      | inr content =>
          (match chmod with Some mode => do_call (PChmod tf mode) | None => Ret None end) ≫= λ err,
          match err with
          | Some e => failed e
          | None =>
              RenameWithFallback fuel tf localPath ≫= λ err,
              match err with
              | Some e => failed e
              | None => Ret (updated a content now, None)
              end
          end
      end
  end).

(** [io.Copy] to the temporary file, the hash and the counter.
    [src/artifact/storage/filesystem.go:50-60 Storage.AtomicWriteFile] *)
Definition fill_from (rd : source) (tf : bytes) : os_prog (oserr + list bytes) :=
  write_chunks tf (src_chunks rd) (src_err rd) ≫= λ err,
  match err with
  | Some e => Call (PClose tf) (λ _, Ret (inl e))
  | None => do_call (PClose tf) ≫= λ err,
            match err with Some e => Ret (inl e) | None => Ret (inr (src_chunks rd)) end
  end.

(** [src/artifact/storage/filesystem.go:35-75 Storage.AtomicWriteFile] *)
Definition AtomicWriteFile (fuel : nat) s a (rd : source) (mode now : Z) : os_prog (Artifact * option oserr) :=
  atomically fuel s a (Some mode) now (fill_from rd).

(** [src/artifact/storage/filesystem.go:77-113 Storage.Copy] *)
Definition storage_Copy (fuel : nat) s a (rd : source) (now : Z) : os_prog (Artifact * option oserr) :=
  atomically fuel s a None now (fill_from rd).

(** [src/artifact/storage/filesystem.go:115-129 Storage.CopyFromPath] *)
Definition CopyFromPath (fuel : nat) s a (path : bytes) (now : Z) : os_prog (Artifact * option oserr) :=
  Call (POpen path) (λ r,
  match an_err r with
  | Some e => Ret (a, Some e)
  | None =>
      Call (PRead path) (λ r,
      storage_Copy fuel s a (mkSource (an_data r) (an_err r)) now ≫= λ '(a, err),
      Call (PCloseR path) (λ r,
      match err, an_err r with
      | None, Some closeErr => Ret (a, Some closeErr)
      | _, _ => Ret (a, err)
      end))
  end).

(** ** Removing *)

(** [src/artifact/storage/filesystem.go:131-135 Storage.MkdirAll] *)
Definition storage_MkdirAll s a : os_prog (option oserr) := do_call (PMkdirAll (filepath_Dir (LocalPath s a)) 448).
(** [src/artifact/storage/filesystem.go:137-140 Storage.Remove] *)
Definition storage_Remove s a : os_prog (option oserr) := do_call (PRemove (LocalPath s a)).
(** [src/artifact/storage/filesystem.go:142-152 Storage.RemoveAll] *)
Definition storage_RemoveAll s a : os_prog (bytes * option oserr) :=
  let dir := filepath_Dir (LocalPath s a) in
  Call (PStat dir) (λ r,
  let deletedDir := match an_err r with None => dir | Some _ => [] end in
  Call (PRemoveAll dir) (λ r, Ret (deletedDir, an_err r))).

(** One call of a walk function. *)
Record visit := mkVisit { v_path : bytes; v_err : option bytes; v_info : FileInfo }.

(** [src/artifact/storage/filesystem.go:160-175 Storage.RemoveAllButCurrent] *)
Fixpoint remove_visits (localPath : bytes) (vs : list visit) (deleted errors : list bytes)
    : os_prog (list bytes * list bytes) :=
  match vs with
  | [] => Ret (deleted, errors)
  | v :: vs =>
      match v_err v with
      | Some e => remove_visits localPath vs deleted (errors ++ [e])
      | None =>
          if negb (bool_decide (v_path v = localPath)) && negb (IsDir (fMode (v_info v))) &&
             negb (Z.land (fMode (v_info v)) ModeSymlink =? ModeSymlink)%Z
          then Call (PRemove (v_path v)) (λ r,
               match an_err r with
               | Some _ => remove_visits localPath vs deleted (errors ++ [default [] (last (strings_Split (v_path v) sep))])
               | None => remove_visits localPath vs (deleted ++ [v_path v]) errors
               end)
          else remove_visits localPath vs deleted errors
      end
  end.

(** [walk] gives the visits of a walk of a directory.
    [src/artifact/storage/filesystem.go:154-181 Storage.RemoveAllButCurrent] *)
Definition RemoveAllButCurrent (walk : bytes → list visit) s a : os_prog (list bytes * option storage_error) :=
  let localPath := LocalPath s a in
  remove_visits localPath (walk (filepath_Dir localPath)) [] [] ≫= λ '(deleted, errors),
  Ret (deleted, if bool_decide (errors = []) then None else Some (RemoveFailed errors)).

(** [src/artifact/storage/filesystem.go:222-242 Storage.Symlink] *)
Definition Symlink s a (linkName : bytes) : os_prog (oserr + bytes) :=
  let localPath := LocalPath s a in
  let link := filepath_Join [filepath_Dir localPath; linkName] in
  let tmpLink := link ++ str ".tmp" in
  Call (PRemove tmpLink) (λ r,
  match an_err r with
  | Some ((CrossDevice | LinkErr _ | OtherErr _ | OutOfFuel) as e) => Ret (inl e)
  | _ =>
      Call (PSymlink localPath tmpLink) (λ r,
      match an_err r with
      | Some e => Ret (inl e)
      | None =>
          Call (PRename tmpLink link) (λ r,
          match an_err r with
          | Some e => Ret (inl e)
          | None => Ret (inr (str "http://" ++ Hostname s ++ sep ::
                      filepath_Join [filepath_Dir (art_Path a); linkName]))
          end)
      end)
  end).

(** ** Archiving *)

(** [tar.Header] as [tar.FileInfoHeader] fills it. *)
Inductive typeflag := TypeReg | TypeDir.
Record header := mkHeader {
  h_Name : bytes; h_Typeflag : typeflag; h_Mode : Z; h_Size : Z; h_Uid : Z; h_Gid : Z;
  h_Uname : bytes; h_Gname : bytes; h_ModTime : option Z; h_AccessTime : option Z; h_ChangeTime : option Z }.

(** [src/artifact/storage/archive.go:39-46 DefaultFileMode] *)
Definition DefaultFileMode : Z := 384.
(** [src/artifact/storage/archive.go:42-43 DefaultDirMode] *)
Definition DefaultDirMode : Z := 488.
(** [src/artifact/storage/archive.go:44-45 DefaultExeFileMode] *)
Definition DefaultExeFileMode : Z := 448.

(** [src/artifact/storage/archive.go:211-227 setDefaultMode] *)
Definition setDefaultMode (h : header) : Z :=
  match h_Typeflag h with
  | TypeDir => DefaultDirMode
  | TypeReg => if negb (Z.land (h_Mode h) 73 =? 0)%Z then DefaultExeFileMode else DefaultFileMode
  end.

(** [src/artifact/storage/archive.go:190-209 sanitizeHeader] *)
Definition sanitizeHeader (relP : bytes) (h : header) : header :=
  mkHeader relP (h_Typeflag h) (setDefaultMode h) (h_Size h) 0 0 [] [] None None None.

(** The writers of [archive/tar] and [compress/gzip], one on the other: each
    step gives the chunks that reach the underlying writer. *)
Class TarGzip := {
  tg : Type; tg_new : tg;
  tw_WriteHeader : tg → header → tg * list bytes;
  tw_Write : tg → bytes → tg * list bytes;
  tw_Close : tg → tg * list bytes;
  gw_Close : tg → list bytes }.
Context {TG : TarGzip}.
(** [tar.FileInfoHeader] of a file or directory. *)
Context (FileInfoHeader : FileInfo → bytes → header).

(** Writing chunks to the hash, the temporary file and the counter; the
    content written so far is kept. *)
Definition emit (tf : bytes) (out : list bytes) (content : list bytes) : os_prog (oserr + list bytes) :=
  write_chunks tf out None ≫= λ err,
  match err with Some e => Ret (inl e) | None => Ret (inr (content ++ out)) end.

(** [io.Copy(tw, f)] *)
Fixpoint pack_chunks (tf : bytes) (st : tg) (chunks : list bytes) (rerr : option oserr) (content : list bytes)
    : os_prog (oserr + (tg * list bytes)) :=
  match chunks with
  | [] => Ret (match rerr with Some e => inl e | None => inr (st, content) end)
  | c :: chunks =>
      let '(st, out) := tw_Write st c in
      emit tf out content ≫= λ r,
      match r with inl e => Ret (inl e) | inr content => pack_chunks tf st chunks rerr content end
  end.

(** [src/artifact/storage/archive.go:106-155 Storage.Archive] *)
Definition pack_visit (filter_ : option (bytes → FileInfo → bool)) (dir tf : bytes) (v : visit) (st : tg)
    (content : list bytes) : os_prog (oserr + (tg * list bytes)) :=
  let p := v_path v in
  let fi := v_info v in
  match v_err v with
  | Some e => Ret (inl (OtherErr e))
  | None =>
      if negb (IsRegular (fMode fi) || IsDir (fMode fi)) then Ret (inr (st, content))
      else if match filter_ with Some f => f p fi | None => false end then Ret (inr (st, content))
      else
        let relFilePath := if IsAbs dir then Rel dir p else p in
        let '(st, out) := tw_WriteHeader st (sanitizeHeader relFilePath (FileInfoHeader fi p)) in
        emit tf out content ≫= λ r,
        match r with
        | inl e => Ret (inl e)
        | inr content =>
            if negb (IsRegular (fMode fi)) then Ret (inr (st, content))
            else
              Call (POpen p) (λ r,
              match an_err r with
              | Some e => Ret (inl e)
              | None =>
                  Call (PRead p) (λ r,
                  pack_chunks tf st (an_data r) (an_err r) content ≫= λ r,
                  match r with
                  | inl e => Call (PCloseR p) (λ _, Ret (inl e))
                  | inr (st, content) =>
                      Call (PCloseR p) (λ r,
                      match an_err r with Some e => Ret (inl e) | None => Ret (inr (st, content)) end)
                  end)
              end)
        end
  end.

(** [src/artifact/storage/archive.go:106-155 Storage.Archive] *)
Fixpoint pack_visits (filter_ : option (bytes → FileInfo → bool)) (dir tf : bytes) (vs : list visit) (st : tg)
    (content : list bytes) : os_prog (tg * (oserr + list bytes)) :=
  match vs with
  | [] => Ret (st, inr content)
  | v :: vs =>
      pack_visit filter_ dir tf v st content ≫= λ r,
      match r with
      | inl e => Ret (st, inl e)
      | inr (st, content) => pack_visits filter_ dir tf vs st content
      end
  end.

(** The closing of the writers after an error ignores their errors.
    [src/artifact/storage/archive.go:100-173 Storage.Archive] *)
Definition fill_archive (filter_ : option (bytes → FileInfo → bool)) (dir : bytes) (vs : list visit) (tf : bytes)
    : os_prog (oserr + list bytes) :=
  let close_all e := Call (PClose tf) (λ _, Ret (inl e)) in
  pack_visits filter_ dir tf vs tg_new [] ≫= λ '(st, r),
  let '(st', out) := tw_Close st in
  match r with
  | inl e => write_chunks tf out None ≫= λ _, write_chunks tf (gw_Close st') None ≫= λ _, close_all e
  | inr content =>
      emit tf out content ≫= λ r,
      match r with
      | inl e => write_chunks tf (gw_Close st') None ≫= λ _, close_all e
      | inr content =>
          emit tf (gw_Close st') content ≫= λ r,
          match r with
          | inl e => close_all e
          | inr content =>
              do_call (PClose tf) ≫= λ err,
              match err with Some e => Ret (inl e) | None => Ret (inr content) end
          end
      end
  end.

(** An error of [Stat] other than a missing file leaves no file info, and its
    use panics.
    [src/artifact/storage/archive.go:79-188 Storage.Archive] *)
Definition Archive (walk : bytes → list visit) (fuel : nat) s a (dir : bytes)
    (filter_ : option (bytes → FileInfo → bool)) (now : Z) : os_prog (res (Artifact * option storage_error)) :=
  Call (PStat dir) (λ r,
  match an_err r with
  | Some NotExist => Ret (Val (a, Some (InvalidDir dir)))
  | Some _ => Ret Panics
  | None =>
      if negb (IsDir (an_mode r)) then Ret (Val (a, Some (InvalidDir dir)))
      else
        mbind (M := prog oscall osans) (λ '(a, err), Ret (Val (a, StorageOS <$> err)))
          (atomically fuel s a (Some 384%Z) now (fill_archive filter_ dir (walk dir)))
  end).

(** [src/artifact/storage/archive.go:65-77 SourceIgnoreFilter] *)
Definition SourceIgnoreFilter `{FilepathMatch} (ps : list pattern) (dom : list bytes) (p : bytes) (fi : FileInfo) : bool :=
  let matcher := match ps with [] => NewDefaultMatcher ps dom | _ => VCSPatterns dom ++ ps end in
  matcher_Match matcher (strings_Split p sep) (IsDir (fMode fi)).
End storage.

(** ** Atomic writes *)

(** A call that changes at most the given file. *)
Definition only_touches (tf : bytes) (c : oscall) : Prop := ∀ q, q ≠ tf → modifies q c = false.

Lemma written_to_app p (t1 t2 : list os_event) : written_to p (t1 ++ t2) = written_to p t1 ++ written_to p t2.
Proof. apply omap_app. Qed.

Lemma write_chunks_ok tf chunks rerr (t : list os_event) e :
  runs (write_chunks tf chunks rerr) t e →
  Forall (only_touches tf) t.*1 ∧ (e = None → written_to tf t = chunks ∧ rerr = None).
Proof.
  intros Hr. apply runs_write_chunks in Hr as [Hall Hok]. split.
  - eapply Forall_impl; [exact Hall|]. intros c [d ->] q Hq. simpl. by apply bool_decide_false.
  - intros He. destruct (Hok He) as (E & _ & ->). split; [by apply written_to_writes|done].
Qed.

(** A body that touches only the temporary file and gives what it wrote. *)
Definition fills (fill : bytes → os_prog (oserr + list bytes)) : Prop := ∀ tf t r,
  runs (fill tf) t r → Forall (only_touches tf) t.*1 ∧ (∀ content, r = inr content → written_to tf t = content).

Lemma fill_from_fills rd : fills (fill_from rd).
Proof.
  intros tf t r (t1 & err & t2 & -> & H1 & H2)%runs_bind_inv.
  apply write_chunks_ok in H1 as [Hall Hok]. destruct err as [e|].
  - repeat os_step. split; [|done]. rewrite fmap_app. apply Forall_app. split; [done|]. by repeat constructor.
  - destruct Hok as [Hw _]; [done|]. apply runs_bind_inv in H2 as (t3 & err & t4 & -> & H3 & H4).
    apply runs_do_call in H3 as (r' & -> & <-).
    assert (t4 = [] ∧ ∀ content, r = inr content → content = src_chunks rd) as [-> Hr].
    { destruct (an_err r'); os_step; split; try done; naive_solver. }
    split.
    + rewrite fmap_app. apply Forall_app. split; [done|]. by repeat constructor.
    + intros content ->%Hr. by rewrite written_to_app, Hw, app_nil_r.
Qed.

Lemma fill_from_content rd tf (t : list os_event) content :
  runs (fill_from rd tf) t (inr content) → content = src_chunks rd ∧ src_err rd = None.
Proof.
  intros (t1 & err & t2 & -> & H1 & H2)%runs_bind_inv. apply write_chunks_ok in H1 as [_ Hok].
  destruct err as [e|]; [by repeat os_step|]. destruct Hok as [_ Herr]; [done|].
  apply runs_bind_inv in H2 as (t3 & err & t4 & -> & H3 & H4).
  apply runs_do_call in H3 as (r' & -> & <-). destruct (an_err r'); os_step. done.
Qed.

Section atomic.
Context (SecureJoin : bytes → bytes → os_error + bytes) (Digest : bytes → bytes).
Implicit Types (s : Storage) (a : Artifact).
Local Abbreviation LocalPath := (LocalPath SecureJoin).

(** What a reader of [lp] can see change during a run: the file appears
    complete, by a rename, unless the rename had to be replaced by a copy.
    [pre] is what happened before. *)
Definition appears_complete (pre : list os_event) (lp : bytes) (content : list bytes) (t : list os_event) : Prop :=
  ∀ t1 c r t2, t = t1 ++ (c, r) :: t2 → modifies lp c = true →
    (∃ tf, c = PRename tf lp ∧ written_to tf (pre ++ t1) = content) ∨
    (∃ tf r', (PRename tf lp, r') ∈ pre ++ t1 ∧ an_err r' = Some CrossDevice).

(** The outcome of a write: the artifact is updated on success only, and
    after an error the temporary file, if there is one, is removed. *)
Definition write_outcome a (t : list os_event) (content : list bytes) (now : Z) (out : Artifact * option oserr) : Prop :=
  match out.2 with
  | None => out.1 = updated Digest a content now
  | Some e => out.1 = a ∧
      ((∃ dir pat r, t = [(PCreateTemp dir pat, r)] ∧ an_err r = Some e) ∨
       ∃ dir pat r r' t', an_err r = None ∧ t = (PCreateTemp dir pat, r) :: t' ++ [(PRemove (an_name r), r')])
  end.

Lemma appears_quiet pre lp content (t : list os_event) :
  Forall (λ c, modifies lp c = false) t.*1 → appears_complete pre lp content t.
Proof.
  intros Hq t1 c r t2 -> Hm. rewrite fmap_app in Hq. apply Forall_app in Hq as [_ Hq].
  inversion Hq. simpl in *. congruence.
Qed.

Lemma appears_app pre lp content (t1 t2 : list os_event) :
  appears_complete pre lp content t1 → appears_complete (pre ++ t1) lp content t2 →
  appears_complete pre lp content (t1 ++ t2).
Proof.
  intros H1 H2 ta c r tb E Hm. apply app_eq_inv in E as [(k & -> & E)|(k & -> & E)].
  - destruct k as [|x k]; simpl in E.
    + destruct (H2 [] c r tb (eq_sym E) Hm) as [?|?]; rewrite ?app_nil_r in *; auto.
    + injection E as <- E. by apply (H1 ta c r k).
  - destruct (H2 k c r tb E Hm) as [?|?]; rewrite <-?app_assoc in *; auto.
Qed.

Lemma appears_after_cross pre lp content (t : list os_event) tf r :
  (PRename tf lp, r) ∈ pre → an_err r = Some CrossDevice → appears_complete pre lp content t.
Proof. intros Hin Hr t1 c r' t2 _ _. right. exists tf, r. set_solver. Qed.

Lemma touches_quiet lp tf (t : list os_event) :
  tf ≠ lp → Forall (only_touches tf) t.*1 → Forall (λ c, modifies lp c = false) t.*1.
Proof. intros Hne Hall. eapply Forall_impl; [exact Hall|]. intros c Hc. by apply Hc. Qed.

Lemma rename_appears fuel tf lp pre content (t : list os_event) e :
  tf ≠ lp → written_to tf pre = content → runs (RenameWithFallback fuel tf lp) t e →
  appears_complete pre lp content t.
Proof.
  intros Hne Hw Hr. apply RenameWithFallback_runs in Hr as [(r & -> & _)|[(r1 & r2 & -> & _)|(r1 & r2 & t' & -> & Hc & _)]].
  - apply appears_quiet. by repeat constructor.
  - apply (appears_app _ _ _ [_]); [apply appears_quiet; by repeat constructor|].
    intros [|? ?] c r t2 E _; [|by destruct l]. injection E as <- <- <-. left. exists tf. split; [done|].
    by rewrite app_nil_r, written_to_app, Hw, app_nil_r.
  - apply (appears_app _ _ _ [_; _]).
    + intros t1 c r t2 E Hm. destruct t1 as [|x [|y t1]]; simplify_eq/=; [|by destruct t1].
      left. exists tf. split; [done|]. by rewrite written_to_app, app_nil_r.
    + apply (appears_after_cross _ _ _ _ tf r2); [set_solver|exact Hc].
Qed.

(** The file system made the temporary files of a run anew. *)
Definition fresh_temps (lp : bytes) (t : list os_event) : Prop :=
  ∀ dir pat r, (PCreateTemp dir pat, r) ∈ t → an_name r ≠ lp.

(** The deferred removal of the temporary file. *)
Lemma failed_spec lp dir pattern a now r e (rest : list os_event) out t' content :
  an_name r ≠ lp → an_err r = None → runs (Call (PRemove (an_name r)) (λ _, Ret (a, Some e))) rest out →
  Forall (λ c, modifies lp c = false) rest.*1 ∧ out.2 ≠ None ∧
  write_outcome a ((PCreateTemp dir pattern, r) :: t' ++ rest) content now out.
Proof.
  intros Hne Er Hf. os_step. os_step. split_and!; [constructor; [|constructor]|done|].
  - simpl. by apply bool_decide_false.
  - split; [done|]. right. by eexists _, _, _, _, _.
Qed.

Lemma atomically_spec fuel s a chmod now fill (t : list os_event) out :
  fills fill → fresh_temps (LocalPath s a) t →
  runs (atomically SecureJoin Digest fuel s a chmod now fill) t out →
  (out.2 ≠ None ∧ ∀ content, appears_complete [] (LocalPath s a) content t ∧ write_outcome a t content now out) ∨
  (∃ content tf t1 t2 t3, t = t1 ++ t2 ++ t3 ∧ runs (fill tf) t2 (inr content) ∧
     appears_complete [] (LocalPath s a) content t ∧ write_outcome a t content now out).
Proof.
  intros Hfill Hfresh. unfold atomically. destruct (path_Split _) as [dir pattern]. intros Hr. os_step.
  set (lp := LocalPath s a) in *. set (tf := an_name r) in *.
  assert (tf ≠ lp) as Hne by (eapply Hfresh; constructor). clear Hfresh.
  destruct (an_err r) as [e|] eqn:Er.
  { os_step. left. split; [done|]. intros content. split; [apply appears_quiet; by repeat constructor|].
    split; [done|]. left. by eexists _, _, _. }
  apply runs_bind_inv in Hr as (tw & filled & tr & -> & Hw & Hr).
  destruct (Hfill tf tw filled Hw) as [Hquiet Hcontent]. apply (touches_quiet lp) in Hquiet; [|done].
  assert (∀ t, appears_complete [] lp t [(PCreateTemp dir pattern, r)]) as Htemp
    by (intros; apply appears_quiet; by repeat constructor).
  destruct filled as [e|content].
  { left. split; [by destruct (failed_spec lp dir pattern a now r _ _ out tw [] Hne Er Hr) as (_ & ? & _)|].
    intros content. destruct (failed_spec lp dir pattern a now r _ _ out tw content Hne Er Hr) as (Hq & _ & Ho).
    split; [|done].
    apply (appears_app _ _ _ [_]); [apply Htemp|]. apply appears_quiet. rewrite fmap_app. by apply Forall_app. }
  specialize (Hcontent content eq_refl). right. exists content, tf, [(PCreateTemp dir pattern, r)], tw.
  apply runs_bind_inv in Hr as (tc & err & tr' & -> & Hc & Hr).
  assert (Forall (λ c, modifies lp c = false) tc.*1 ∧ written_to tf tc = []) as [Hqc Hwc].
  { destruct chmod; [apply runs_do_call in Hc as (r' & -> & _)|os_step; done].
    split; [|done]. constructor; [|constructor]. by apply bool_decide_false. }
  assert (∀ t, appears_complete ([] ++ [(PCreateTemp dir pattern, r)]) lp t (tw ++ tc)) as Hpre.
  { intros u. apply appears_quiet. rewrite fmap_app. by apply Forall_app. }
  assert (written_to tf (([] ++ [(PCreateTemp dir pattern, r)]) ++ tw ++ tc) = content) as Hwpre
    by (rewrite !written_to_app, Hwc, Hcontent; cbn; by rewrite app_nil_r).
  destruct err as [e|].
  { destruct (failed_spec lp dir pattern a now r _ _ out (tw ++ tc) content Hne Er Hr) as (Hq & Hn & Ho).
    exists (tc ++ tr'). rewrite app_assoc. split_and!; [done|done| |done].
    apply (appears_app _ _ _ [_]); [apply Htemp|]. apply appears_app; [apply Hpre|by apply appears_quiet]. }
  apply runs_bind_inv in Hr as (tn & err & tz & -> & Hn & Hr).
  apply (rename_appears fuel tf lp _ _ tn err Hne Hwpre) in Hn.
  assert (∀ tz : list os_event, Forall (λ c, modifies lp c = false) tz.*1 →
    appears_complete [] lp content ((PCreateTemp dir pattern, r) :: (tw ++ tc) ++ tn ++ tz)) as Happ.
  { intros tz' Hq. apply (appears_app _ _ _ [_]); [apply Htemp|]. apply appears_app; [apply Hpre|].
    apply appears_app; [done|by apply appears_quiet]. }
  destruct err as [e|].
  - destruct (failed_spec lp dir pattern a now r _ _ out ((tw ++ tc) ++ tn) content Hne Er Hr) as (Hq & Hn' & Ho).
    rewrite <-app_assoc in Ho. exists (tc ++ tn ++ tz). rewrite (app_assoc tw).
    split_and!; [done|done|by apply Happ|done].
  - os_step. exists (tc ++ tn ++ []). rewrite (app_assoc tw). split_and!; [done|done|apply Happ; constructor|done].
Qed.

(** The temporary file was renamed to the path, unless it had to be copied. *)
Definition renamed (lp : bytes) (t : list os_event) : Prop :=
  ∃ tf r, (PRename tf lp, r) ∈ t ∧ (an_err r = None ∨ an_err r = Some CrossDevice).

Lemma rename_renames fuel tf lp (t : list os_event) : runs (RenameWithFallback fuel tf lp) t None → renamed lp t.
Proof.
  unfold RenameWithFallback. intros (r & t' & -> & Hr)%runs_call_inv. destruct (an_err r); [by apply runs_ret_inv in Hr as [_ [=]]|].
  apply runs_call_inv in Hr as (r' & t'' & -> & Hr). exists tf, r'. split; [by right; left|].
  destruct (an_err r') as [e|]; [|by left]. right. by destruct e; try (apply runs_ret_inv in Hr as [_ [=]]).
Qed.

Lemma atomically_renames fuel s a chmod now fill (t : list os_event) out :
  runs (atomically SecureJoin Digest fuel s a chmod now fill) t out → out.2 = None → renamed (LocalPath s a) t.
Proof.
  unfold atomically. destruct (path_Split _) as [dir pattern]. intros (r & t' & -> & Hr)%runs_call_inv Hn.
  destruct (an_err r); [by apply runs_ret_inv in Hr as [_ ->]|].
  assert (∀ e (t1 : list os_event), ¬ runs (Call (PRemove (an_name r)) (λ _, Ret (a, Some e))) t1 out) as Hfail.
  { intros e t1 (? & ? & _ & [_ ->]%runs_ret_inv)%runs_call_inv. done. }
  apply runs_bind_inv in Hr as (t1 & [e|content] & t2 & -> & _ & Hr); [by apply Hfail in Hr|].
  apply runs_bind_inv in Hr as (t3 & [e|] & t4 & -> & _ & Hr); [by apply Hfail in Hr|].
  apply runs_bind_inv in Hr as (t5 & [e|] & t6 & -> & Hren & Hr); [by apply Hfail in Hr|].
  apply rename_renames in Hren as (tf & r' & Hin & Hok). exists tf, r'. split; [set_solver|done].
Qed.

(** C30. Artifacts are written atomically, whatever the file system answers:
    while [AtomicWriteFile] or [Copy] run, the only change to the place of the
    artifact is a rename of a temporary file that holds all of the content
    (unless the devices differ, when the file has to be copied); on success
    that rename has been made and the artifact carries the digest and the size
    of that content; after an
    error it is as it was and the temporary file has been removed. *)
Theorem Storage_write_atomic fuel s a (rd : source) (mode now : Z) p (t : list os_event) out :
  p = AtomicWriteFile SecureJoin Digest fuel s a rd mode now ∨ p = storage_Copy SecureJoin Digest fuel s a rd now →
  fresh_temps (LocalPath s a) t → runs p t out →
  appears_complete [] (LocalPath s a) (src_chunks rd) t ∧ write_outcome a t (src_chunks rd) now out ∧
  (out.2 = None → src_err rd = None ∧ renamed (LocalPath s a) t).
Proof.
  intros Hp Hfresh Hr.
  assert (∃ chmod, runs (atomically SecureJoin Digest fuel s a chmod now (fill_from rd)) t out) as (chmod & Hr')
    by (destruct Hp as [->| ->]; by eexists). clear Hp Hr. pose proof (atomically_renames _ _ _ _ _ _ _ _ Hr') as Hren.
  apply atomically_spec in Hr' as [(Hn & Hall)|(content & tf & t1 & t2 & t3 & -> & Hf & Happ & Hout)];
    [..|apply fill_from_fills|done].
  - destruct (Hall (src_chunks rd)). split_and!; [done..|]. by intros ?.
  - apply fill_from_content in Hf as [-> Herr]. split_and!; [done..|]. intros E. split; [auto|by apply Hren].
Qed.
End atomic.

(** ** What an archive holds *)

Section archive.
Context {TG : TarGzip} (FileInfoHeader : FileInfo → bytes → header).
Context (filter_ : option (bytes → FileInfo → bool)) (dir : bytes).

(** The stream of entries, with the chunks their data came in. *)
Fixpoint data_stream (st : tg) (chunks : list bytes) : tg * list bytes :=
  match chunks with
  | [] => (st, [])
  | c :: chunks =>
      let '(st, o1) := tw_Write st c in
      let '(st, o2) := data_stream st chunks in (st, o1 ++ o2)
  end.
Fixpoint entries_stream (st : tg) (es : list (header * list bytes)) : tg * list bytes :=
  match es with
  | [] => (st, [])
  | (h, d) :: es =>
      let '(st, o1) := tw_WriteHeader st h in
      let '(st, o2) := data_stream st d in
      let '(st, o3) := entries_stream st es in (st, o1 ++ o2 ++ o3)
  end.
Definition archive_stream (es : list (header * list bytes)) : list bytes :=
  let '(st, o1) := entries_stream tg_new es in
  let '(st, o2) := tw_Close st in o1 ++ o2 ++ gw_Close st.

(** The files that are archived: regular files and directories that are not
    filtered out. *)
Definition kept (v : visit) : bool :=
  (IsRegular (fMode (v_info v)) || IsDir (fMode (v_info v))) &&
  negb (match filter_ with Some f => f (v_path v) (v_info v) | None => false end).

(** Their entries: a header without traces of the machine, and the data that
    was read. *)
Definition entry_of (t : list os_event) (v : visit) (e : header * list bytes) : Prop :=
  e.1 = sanitizeHeader (if IsAbs dir then Rel dir (v_path v) else v_path v) (FileInfoHeader (v_info v) (v_path v)) ∧
  if IsRegular (fMode (v_info v))
  then ∃ r, (PRead (v_path v), r) ∈ t ∧ an_err r = None ∧ e.2 = an_data r else e.2 = [].

Lemma emit_spec tf out content (t : list os_event) r :
  runs (emit tf out content) t r →
  Forall (only_touches tf) t.*1 ∧ (∀ c, r = inr c → c = content ++ out ∧ written_to tf t = out).
Proof.
  intros (t1 & err & t2 & -> & H1 & H2)%runs_bind_inv. apply write_chunks_ok in H1 as [Hall Hok].
  destruct err as [e|]; apply runs_ret_inv in H2 as [-> ->]; rewrite app_nil_r; (split; [done|]); [done|].
  intros c [= <-]. by destruct Hok.
Qed.

Lemma pack_chunks_spec tf st chunks rerr content (t : list os_event) r :
  runs (pack_chunks tf st chunks rerr content) t r →
  Forall (only_touches tf) t.*1 ∧
  (∀ st' c, r = inr (st', c) → rerr = None ∧ data_stream st chunks = (st', written_to tf t) ∧
     c = content ++ written_to tf t).
Proof.
  revert st content t. induction chunks as [|d chunks IH]; intros st content t Hr; cbn [pack_chunks data_stream] in *.
  { os_step. split; [constructor|]. intros st' c E. destruct rerr; simplify_eq. by rewrite app_nil_r. }
  destruct (tw_Write st d) as [st1 o1]. apply runs_bind_inv in Hr as (t1 & r1 & t2 & -> & H1 & H2).
  apply emit_spec in H1 as [Hall1 Hok1]. rewrite fmap_app. destruct r1 as [e|c1].
  { os_step. rewrite app_nil_r. split; [done|]. done. }
  destruct (Hok1 c1 eq_refl) as [-> Hw1]. apply IH in H2 as [Hall2 Hok2]. split; [by apply Forall_app|].
  intros st' c ->. destruct (Hok2 st' c eq_refl) as (-> & -> & ->).
  by rewrite written_to_app, Hw1, app_assoc.
Qed.

Lemma pack_visit_spec tf v st content (t : list os_event) r :
  runs (pack_visit FileInfoHeader filter_ dir tf v st content) t r →
  Forall (only_touches tf) t.*1 ∧
  (∀ st' c, r = inr (st', c) → c = content ++ written_to tf t ∧
     if kept v then ∃ e, entry_of t v e ∧ entries_stream st [e] = (st', written_to tf t)
     else st' = st ∧ written_to tf t = []).
Proof.
  unfold pack_visit, kept. destruct (v_err v) as [e|]; [intros Hr; os_step; split; [constructor|done]|].
  destruct (IsRegular (fMode (v_info v)) || IsDir (fMode (v_info v))) eqn:Ek; simpl.
  2: { intros Hr. os_step. split; [constructor|]. intros st' c [= <- <-]. by rewrite app_nil_r. }
  destruct (match filter_ with Some _ => _ | None => _ end); simpl.
  { intros Hr. os_step. split; [constructor|]. intros st' c [= <- <-]. by rewrite app_nil_r. }
  set (h := sanitizeHeader _ _). destruct (tw_WriteHeader st h) as [st1 o1] eqn:Eh.
  intros (t1 & r1 & t2 & -> & H1 & H2)%runs_bind_inv. apply emit_spec in H1 as [Hall1 Hok1].
  rewrite fmap_app, Forall_app. destruct r1 as [e|c1]; [os_step; by repeat split|].
  destruct (Hok1 c1 eq_refl) as [-> Hw1]. destruct (IsRegular (fMode (v_info v))) eqn:Ereg; simpl in H2.
  2: { apply runs_ret_inv in H2 as [-> ->]. rewrite app_nil_r, Hw1. split; [by repeat split|]. intros st' c [= <- <-]. split; [done|].
       exists (h, []). split; [by split; [|rewrite Ereg]|]. simpl. by rewrite Eh, app_nil_r. }
  os_step. destruct (an_err r0) eqn:?; [os_step; split; [split; [done|by repeat constructor]|done]|]. os_step.
  apply runs_bind_inv in H2 as (t3 & r3 & t4 & -> & H3 & H4).
  apply pack_chunks_spec in H3 as [Hall3 Hok3].
  assert (∃ rc, t4 = [(PCloseR (v_path v), rc)] ∧ ∀ st' c, r = inr (st', c) → r3 = inr (st', c)) as (rc & -> & Hr).
  { destruct r3 as [e|[st3 c3]]; apply runs_call_inv in H4 as (rc & t5 & -> & H4); exists rc;
      [|destruct (an_err rc)]; apply runs_ret_inv in H4 as [-> ->]; (split; [done|]); naive_solver. }
  split.
  { split; [done|]. cbn [fmap list_fmap fst]. do 2 (constructor; [done|]). rewrite fmap_app.
    apply Forall_app. split; [done|by repeat constructor]. }
  intros st' c ->%Hr. destruct (Hok3 st' c eq_refl) as (Herr & Hs & ->).
  assert (written_to tf (t1 ++ (POpen (v_path v), r0) :: (PRead (v_path v), r1) :: t3 ++ [(PCloseR (v_path v), rc)])
          = o1 ++ written_to tf t3) as ->.
  { rewrite written_to_app, Hw1. f_equal. cbn [written_to omap list_omap fst]. fold (written_to tf (t3 ++ [(PCloseR (v_path v), rc)])).
    by rewrite written_to_app, app_nil_r. }
  split; [by rewrite app_assoc|]. exists (h, an_data r1). split.
  - split; [done|]. rewrite Ereg. exists r1. split_and!; [set_solver|done|done].
  - simpl. by rewrite Eh, Hs, app_nil_r.
Qed.

Lemma entry_of_incl (t t' : list os_event) v e : (∀ x, x ∈ t → x ∈ t') → entry_of t v e → entry_of t' v e.
Proof.
  intros Hin [Hh Hd]. split; [done|]. destruct (IsRegular _); [|done].
  destruct Hd as (r & Hr & ? & ?). exists r. eauto.
Qed.

Lemma entries_incl (t t' : list os_event) vs es :
  (∀ x, x ∈ t → x ∈ t') → Forall2 (entry_of t) vs es → Forall2 (entry_of t') vs es.
Proof. intros Hin He. eapply Forall2_impl; [exact He|]. intros v e. by apply entry_of_incl. Qed.

Lemma entries_stream_cons st e es st1 o1 st2 o2 :
  entries_stream st [e] = (st1, o1) → entries_stream st1 es = (st2, o2) →
  entries_stream st (e :: es) = (st2, o1 ++ o2).
Proof.
  destruct e as [h d]. simpl. destruct (tw_WriteHeader st h) as [sa oa], (data_stream sa d) as [sb ob].
  intros [= <- <-] ->. by rewrite app_nil_r, app_assoc.
Qed.

Lemma pack_visits_spec tf vs st content (t : list os_event) st' r :
  runs (pack_visits FileInfoHeader filter_ dir tf vs st content) t (st', r) →
  Forall (only_touches tf) t.*1 ∧
  (∀ c, r = inr c → c = content ++ written_to tf t ∧
     ∃ es, Forall2 (entry_of t) (filter (λ v, kept v = true) vs) es ∧ entries_stream st es = (st', written_to tf t)).
Proof.
  revert st content t. induction vs as [|v vs IH]; intros st content t Hr; cbn [pack_visits] in Hr.
  { apply runs_ret_inv in Hr as [-> [= -> ->]]. split; [constructor|]. intros c [= <-]. rewrite app_nil_r.
    split; [done|]. exists []. by split; [constructor|]. }
  apply runs_bind_inv in Hr as (t1 & r1 & t2 & -> & H1 & H2). apply pack_visit_spec in H1 as [Hall1 Hok1].
  rewrite fmap_app, Forall_app. destruct r1 as [e|[st1 c1]].
  { apply runs_ret_inv in H2 as [-> [= -> ->]]. by repeat split. }
  destruct (Hok1 st1 c1 eq_refl) as [-> Hv]. apply IH in H2 as [Hall2 Hok2]. split; [done|]. intros c ->.
  destruct (Hok2 c eq_refl) as [-> (es & Hes & Hs)]. rewrite written_to_app, app_assoc. split; [done|].
  apply (entries_incl _ (t1 ++ t2)) in Hes; [|set_solver]. destruct (kept v) eqn:Ek.
  - destruct Hv as (e & He & Hse). exists (e :: es). rewrite filter_cons_True by done. split.
    + constructor; [|done]. eapply entry_of_incl; [|exact He]. set_solver.
    + by eapply entries_stream_cons.
  - destruct Hv as [-> Hw]. exists es. rewrite filter_cons_False by by rewrite Ek. by rewrite Hw.
Qed.

Lemma fill_archive_spec vs tf (t : list os_event) r :
  runs (fill_archive FileInfoHeader filter_ dir vs tf) t r →
  Forall (only_touches tf) t.*1 ∧
  (∀ c, r = inr c → c = written_to tf t ∧
     ∃ es, Forall2 (entry_of t) (filter (λ v, kept v = true) vs) es ∧ c = archive_stream es).
Proof.
  unfold fill_archive. intros (t1 & [st r1] & t2 & -> & H1 & H2)%runs_bind_inv.
  apply pack_visits_spec in H1 as [Hall1 Hok1]. rewrite fmap_app, Forall_app.
  destruct (tw_Close st) as [st' o2] eqn:Ec. destruct r1 as [e|c1].
  { apply runs_bind_inv in H2 as (ta & ? & tb & -> & Ha%write_chunks_ok & H2).
    apply runs_bind_inv in H2 as (tc & ? & td & -> & Hc%write_chunks_ok & H2). repeat os_step.
    rewrite !fmap_app, !Forall_app. split; [|done]. split_and!; [done|apply Ha|apply Hc|by repeat constructor]. }
  destruct (Hok1 c1 eq_refl) as [-> (es & Hes & Hs)].
  apply runs_bind_inv in H2 as (ta & ra & tb & -> & [Haa Hao]%emit_spec & H2). destruct ra as [e|ca].
  { apply runs_bind_inv in H2 as (tc & ? & td & -> & Hc%write_chunks_ok & H2). repeat os_step.
    rewrite !fmap_app, !Forall_app. split; [|done]. split_and!; [done|done|apply Hc|by repeat constructor]. }
  destruct (Hao ca eq_refl) as [-> Hwa].
  apply runs_bind_inv in H2 as (tc & rc & td & -> & [Hca Hco]%emit_spec & H2). destruct rc as [e|cc].
  { repeat os_step. rewrite !fmap_app, !Forall_app. split; [|done]. split_and!; [done|done|done|by repeat constructor]. }
  destruct (Hco cc eq_refl) as [-> Hwc].
  apply runs_bind_inv in H2 as (te & err & tf' & -> & (re & -> & <-)%runs_do_call & H2).
  assert (tf' = [] ∧ ∀ c, r = inr c → c = ([] ++ written_to tf t1 ++ o2) ++ gw_Close st') as [-> Hr].
  { destruct (an_err re); apply runs_ret_inv in H2 as [-> ->]; split; try done. intros c [= <-]. by rewrite app_assoc. }
  rewrite !fmap_app, !Forall_app. split; [split_and!; [done|done|done|by repeat constructor|constructor]|].
  intros c ->%Hr. simpl. rewrite !written_to_app, Hwa, Hwc, !app_nil_r, <-!app_assoc. split; [done|].
  exists es. split; [eapply entries_incl; [|exact Hes]; set_solver|]. unfold archive_stream. by rewrite Hs, Ec, <-?app_assoc.
Qed.
End archive.

(** What [Archive] leaves behind: it panics exactly when the directory
    cannot be examined for another reason than that it is missing; otherwise
    the artifact appears atomically, and on success its content is the archive
    of the regular files and directories of the walk that are not filtered
    out, each with the data read from it and a header that depends on its
    path, kind, size and executable bits only. *)
Theorem Archive_complete `{TarGzip} (SecureJoin : bytes → bytes → os_error + bytes) (Digest : bytes → bytes)
    (FileInfoHeader : FileInfo → bytes → header) (walk : bytes → list visit) (fuel : nat) (s : Storage) (a : Artifact)
    (dir : bytes) (filter_ : option (bytes → FileInfo → bool)) (now : Z) (t : list os_event)
    (out : res (Artifact * option storage_error)) :
  fresh_temps (LocalPath SecureJoin s a) t →
  runs (Archive SecureJoin Digest FileInfoHeader walk fuel s a dir filter_ now) t out →
  match out with
  | Panics => ∃ r e, t = [(PStat dir, r)] ∧ an_err r = Some e ∧ e ≠ NotExist
  | Val (a', err) =>
      (∃ r, t = [(PStat dir, r)] ∧ a' = a ∧ err = Some (InvalidDir dir)) ∨
      (∃ r t' content e, t = (PStat dir, r) :: t' ∧ err = StorageOS <$> e ∧
         appears_complete [] (LocalPath SecureJoin s a) content t' ∧
         write_outcome Digest a t' content now (a', e) ∧
         (e = None → ∃ es, content = archive_stream es ∧
            Forall2 (entry_of FileInfoHeader dir t) (filter (λ v, kept filter_ v = true) (walk dir)) es))
  end.
Proof.
  unfold Archive. intros Hfresh Hr. apply runs_call_inv in Hr as (r & t' & -> & Hr).
  destruct (an_err r) as [e|] eqn:Er.
  { destruct (decide (e = NotExist)) as [->|Hne].
    - apply runs_ret_inv in Hr as [-> ->]. left. by exists r.
    - assert (out = Panics ∧ t' = []) as [-> ->] by (destruct e; try done; by apply runs_ret_inv in Hr as [-> ->]).
      by exists r, e. }
  destruct (IsDir (an_mode r)); simpl in Hr; [|apply runs_ret_inv in Hr as [-> ->]; left; by exists r].
  apply runs_bind_inv in Hr as (t1 & [a' e] & t2 & -> & Ha & H2). apply runs_ret_inv in H2 as [-> ->].
  rewrite app_nil_r in *. right. exists r, t1.
  apply atomically_spec in Ha as [(Hn & Hall)|(content & tf & ta & tb & tc & -> & Hf & Happ & Hout)].
  - exists [], e. destruct (Hall []). split_and!; [done..|]. by intros ->.
  - exists content, e. split_and!; [done..|]. intros ->. apply fill_archive_spec in Hf as [_ Hok].
    destruct (Hok content eq_refl) as (_ & es & Hes & ->). exists es. split; [done|].
    eapply entries_incl; [|exact Hes]. set_solver.
  - intros tf tb r' Hf. apply fill_archive_spec in Hf as [Hall Hok]. split; [done|]. intros c Hc. by destruct (Hok c Hc).
  - intros d pat r' Hin. eapply Hfresh. by constructor.
Qed.

(** The header does not depend on the owner or the times of the file. *)
Lemma sanitizeHeader_reproducible p h h' :
  h_Typeflag h = h_Typeflag h' → h_Size h = h_Size h' → (Z.land (h_Mode h) 73 =? 0)%Z = (Z.land (h_Mode h') 73 =? 0)%Z →
  sanitizeHeader p h = sanitizeHeader p h'.
Proof. intros Et Es Em. unfold sanitizeHeader, setDefaultMode. by rewrite Et, Es, Em. Qed.

(** ** Removals *)

Lemma remove_visits_spec lp vs deleted errors (t : list os_event) out :
  runs (remove_visits lp vs deleted errors) t out →
  (∀ c, c ∈ t.*1 → ∃ v, c = PRemove (v_path v) ∧ v ∈ vs ∧ v_path v ≠ lp ∧ IsDir (fMode (v_info v)) = false) ∧
  (∀ p, p ∈ out.1 ↔ p ∈ deleted ∨ ∃ r, (PRemove p, r) ∈ t ∧ an_err r = None).
Proof.
  revert deleted errors t. induction vs as [|v vs IH]; intros deleted errors t Hr; cbn [remove_visits] in Hr.
  { apply runs_ret_inv in Hr as [-> ->]. split; [by intros c ?%not_elem_of_nil|]. set_solver. }
  assert (∀ d e, runs (remove_visits lp vs d e) t out →
    (∀ c, c ∈ t.*1 → ∃ v', c = PRemove (v_path v') ∧ v' ∈ v :: vs ∧ v_path v' ≠ lp ∧ IsDir (fMode (v_info v')) = false) ∧
    (∀ p, p ∈ out.1 ↔ p ∈ d ∨ ∃ r, (PRemove p, r) ∈ t ∧ an_err r = None)) as Hskip.
  { intros d e Hd. apply IH in Hd as [H1 H2]. split; [|done]. intros c Hc. destruct (H1 c Hc) as (v' & ? & ? & ?).
    exists v'. split_and!; try done; [by constructor|naive_solver..]. }
  destruct (v_err v); [by eapply Hskip|]. case_bool_decide as Hlp; simpl in Hr; [by eapply Hskip|].
  destruct (IsDir _) eqn:Ed; simpl in Hr; [by eapply Hskip|]. destruct (_ =? _)%Z; simpl in Hr; [by eapply Hskip|].
  clear Hskip. apply runs_call_inv in Hr as (r & t' & -> & Hr).
  assert (∃ e' d', runs (remove_visits lp vs d' e') t' out ∧
    ∀ p, p ∈ d' ↔ p ∈ deleted ∨ (p = v_path v ∧ an_err r = None)) as (e' & d' & Hr' & Hd).
  { destruct (an_err r); eexists _, _; (split; [exact Hr|]); set_solver. }
  apply IH in Hr' as [H1 H2]. split.
  - cbn [fmap list_fmap fst]. intros c [->|Hc]%elem_of_cons; [exists v; split_and!; [done|by constructor|done|done]|].
    destruct (H1 c Hc) as (v' & ? & ? & ?). exists v'. split_and!; try done; [by constructor|naive_solver..].
  - intros p. rewrite H2, Hd. setoid_rewrite elem_of_cons. naive_solver.
Qed.

Section removal.
Context (SecureJoin : bytes → bytes → os_error + bytes) (walk : bytes → list visit).
Implicit Types (s : Storage) (a : Artifact).

(** The directory of an artifact that is not the base directory itself. *)
Lemma artifact_dir_within s a :
  SecureJoin_ok SecureJoin → IsAbs (BasePath s) = true → LocalPath SecureJoin s a ≠ [] →
  comps (LocalPath SecureJoin s a) ≠ comps (BasePath s) →
  within (BasePath s) (filepath_Dir (LocalPath SecureJoin s a)).
Proof.
  intros Hsj Hb. unfold LocalPath. case_bool_decide; [done|].
  destruct (SecureJoin (BasePath s) (art_Path a)) as [e|q] eqn:Eq; [done|]. intros _ Hne.
  destruct (Hsj _ _ _ Hb Eq) as (Hqa & Hqc & [k Hk]). destruct (comps_Dir q Hqa Hqc) as (_ & _ & Hd).
  unfold within. rewrite Hd, Hk. destruct k as [|x k _] using rev_ind.
  - by rewrite app_nil_r in Hk.
  - rewrite app_assoc, removelast_last. by apply prefix_app_r.
Qed.

(** Cleaning up stays in the storage and spares the current artifact:
    [RemoveAllButCurrent] of an artifact with a path of its own makes no calls
    but removals, each of a file below the base directory that is not the
    artifact, and returns exactly the files that were removed. *)
Theorem RemoveAllButCurrent_confined s a (t : list os_event) out :
  SecureJoin_ok SecureJoin → IsAbs (BasePath s) = true → LocalPath SecureJoin s a ≠ [] →
  comps (LocalPath SecureJoin s a) ≠ comps (BasePath s) → (∀ d v, v ∈ walk d → within d (v_path v)) →
  runs (RemoveAllButCurrent SecureJoin walk s a) t out →
  (∀ c, c ∈ t.*1 → ∃ p, c = PRemove p ∧ within (BasePath s) p ∧ p ≠ LocalPath SecureJoin s a) ∧
  (∀ p, p ∈ out.1 ↔ ∃ r, (PRemove p, r) ∈ t ∧ an_err r = None).
Proof.
  intros Hsj Hb Hl Hne Hwalk. pose proof (artifact_dir_within s a Hsj Hb Hl Hne) as Hd.
  unfold RemoveAllButCurrent. intros (t1 & [deleted errors] & t2 & -> & Hr & H2)%runs_bind_inv.
  apply runs_ret_inv in H2 as [-> ->]. rewrite app_nil_r. apply remove_visits_spec in Hr as [H1 H2]. split.
  - intros c Hc. destruct (H1 c Hc) as (v & -> & Hv & Hp & _). exists (v_path v). split_and!; [done| |done].
    unfold within in *. etrans; [exact Hd|]. by apply Hwalk.
  - intros p. simpl in *. rewrite H2. set_solver.
Qed.

(** An artifact without a path, or whose path cannot be joined, is not spared
    from this: the working directory is walked, and no file is the current
    one. *)
Lemma RemoveAllButCurrent_no_path s a :
  LocalPath SecureJoin s a = [] →
  RemoveAllButCurrent SecureJoin walk s a =
  (remove_visits [] (walk dot) [] [] ≫= λ '(deleted, errors),
   Ret (deleted, if bool_decide (errors = []) then None else Some (RemoveFailed errors))).
Proof. unfold RemoveAllButCurrent. by intros ->. Qed.
End removal.

(** ** Concrete inputs *)

(** A file system without errors, with files of one chunk. *)
Definition calm_fs (h : list os_event) (c : oscall) : osans :=
  mkAns None (match c with PStat _ => ModeDir | _ => 0 end) (str "/data/.tmp") [str "x"] [].
Definition demo_storage : Storage := mkStorage (str "/data") (str "host") 0 1.
Definition demo_artifact : Artifact := mkArtifact [] (str "gitrepository/ns/app/1.tar.gz") [] (str "main") 0 None ∅.
Definition demo_digest (b : bytes) : bytes := str "sha256:" ++ b.
Definition demo_source : source := mkSource [str "ab"; str "c"] None.
Definition demo_walk (d : bytes) : list visit :=
  mkVisit d None (mkInfo 0 ModeDir 0) ::
  if IsAbs d then [mkVisit (filepath_Join [d; str "0.tar.gz"]) None (mkInfo 1 420 7)] else [].
#[global] Instance demo_targz : TarGzip := {|
  tg := unit; tg_new := tt;
  tw_WriteHeader st h := (tt, [h_Name h]); tw_Write st d := (tt, [d]);
  tw_Close st := (tt, [str "end"]); gw_Close st := [str "crc"] |}.
Definition demo_header (fi : FileInfo) (p : bytes) : header :=
  mkHeader p (if IsDir (fMode fi) then TypeDir else TypeReg) (Perm (fMode fi)) (fSize fi) 1000 1000 [] []
    (Some (fModTime fi)) None None.

Lemma calm_runs {A} (p : os_prog A) : runs p (run calm_fs [] p).2 (run calm_fs [] p).1.
Proof.
  destruct (run calm_fs [] p) as [a t] eqn:E. apply run_runs in E as (t' & -> & Hr). done.
Qed.

(** The names of temporary files are answers of the file system. *)
Lemma run_fresh {A} (p : os_prog A) h lp :
  str "/data/.tmp" ≠ lp → fresh_temps lp h → fresh_temps lp (run calm_fs h p).2.
Proof.
  intros Hne. revert h. induction p as [a|c k IH]; intros h Hh; simpl; [done|].
  apply IH. intros dir pat r [Hin|Hin]%elem_of_app; [by eapply Hh|].
  apply list_elem_of_singleton in Hin as [= <- ->]. done.
Qed.

Lemma demo_temps {A} (p : os_prog A) : fresh_temps (LocalPath lexicalJoin demo_storage demo_artifact) (run calm_fs [] p).2.
Proof. apply run_fresh; [by vm_compute|]. by intros ??? ?%not_elem_of_nil. Qed.

Lemma Storage_write_atomic_witness :
  let p := AtomicWriteFile lexicalJoin demo_digest 1 demo_storage demo_artifact demo_source 384 9 in
  let '(out, t) := run calm_fs [] p in
  let lp := LocalPath lexicalJoin demo_storage demo_artifact in
  out.2 = None ∧ appears_complete [] lp [str "ab"; str "c"] t ∧
  write_outcome demo_digest demo_artifact t [str "ab"; str "c"] 9 out ∧ (out.2 = None → src_err demo_source = None ∧ renamed lp t).
Proof.
  intros p. assert ((run calm_fs [] p).1.2 = None) as Hn by by vm_compute.
  pose proof (Storage_write_atomic lexicalJoin demo_digest 1 demo_storage demo_artifact demo_source 384 9 p
    (run calm_fs [] p).2 (run calm_fs [] p).1 (or_introl eq_refl) (demo_temps p) (calm_runs p)) as Hw.
  revert Hn Hw. destruct (run calm_fs [] p) as [out t]. intros Hn Hw. split; [exact Hn|exact Hw].
Defined.

Lemma Archive_complete_witness :
  let p := Archive lexicalJoin demo_digest demo_header demo_walk 1 demo_storage demo_artifact (str "/src") None 9 in
  ∃ a' e t, (run calm_fs [] p).1 = Val (a', e) ∧ t = (run calm_fs [] p).2 ∧ e = None ∧
    ((∃ r, t = [(PStat (str "/src"), r)] ∧ a' = demo_artifact ∧ e = Some (InvalidDir (str "/src"))) ∨
     (∃ r t' content e', t = (PStat (str "/src"), r) :: t' ∧ e = StorageOS <$> e' ∧
        appears_complete [] (LocalPath lexicalJoin demo_storage demo_artifact) content t' ∧
        write_outcome demo_digest demo_artifact t' content 9 (a', e') ∧
        (e' = None → ∃ es, content = archive_stream es ∧
           Forall2 (entry_of demo_header (str "/src") t) (filter (λ v, kept None v = true) (demo_walk (str "/src"))) es))).
Proof.
  intros p. pose proof (Archive_complete lexicalJoin demo_digest demo_header demo_walk 1 demo_storage demo_artifact
    (str "/src") None 9 (run calm_fs [] p).2 (run calm_fs [] p).1 (demo_temps p) (calm_runs p)) as Ha.
  assert (match (run calm_fs [] p).1 with Val (_, None) => True | _ => False end) as Hv by by vm_compute.
  revert Ha Hv. destruct (run calm_fs [] p) as [[[a' [e|]]|] t]; simpl; intros Ha Hv; try done.
  exists a', None, t. split_and!; [done|done|done|exact Ha].
Defined.

Lemma demo_walk_within d v : v ∈ demo_walk d → within d (v_path v).
Proof.
  unfold demo_walk. intros [->|Hv]%elem_of_cons; [apply within_refl|].
  destruct (IsAbs d) eqn:Ed; [|by apply not_elem_of_nil in Hv].
  apply list_elem_of_singleton in Hv as ->. apply within_child; [apply within_refl|done|].
  split_and!; [done|done|done|]. apply (bool_decide_unpack _). by vm_compute.
Qed.

Lemma RemoveAllButCurrent_confined_witness :
  let p := RemoveAllButCurrent lexicalJoin demo_walk demo_storage demo_artifact in
  let '(out, t) := run calm_fs [] p in
  out.1 = [str "/data/gitrepository/ns/app/0.tar.gz"] ∧
  (∀ c, c ∈ t.*1 → ∃ p, c = PRemove p ∧ within (str "/data") p ∧
     p ≠ LocalPath lexicalJoin demo_storage demo_artifact) ∧
  (∀ p, p ∈ out.1 ↔ ∃ r, (PRemove p, r) ∈ t ∧ an_err r = None).
Proof.
  intros p. assert ((run calm_fs [] p).1.1 = [str "/data/gitrepository/ns/app/0.tar.gz"]) as Hn by by vm_compute.
  assert (LocalPath lexicalJoin demo_storage demo_artifact ≠ []) as Hl by by vm_compute.
  assert (comps (LocalPath lexicalJoin demo_storage demo_artifact) ≠ comps (BasePath demo_storage)) as Hc by by vm_compute.
  pose proof (RemoveAllButCurrent_confined lexicalJoin demo_walk demo_storage demo_artifact
    (run calm_fs [] p).2 (run calm_fs [] p).1 lexicalJoin_ok eq_refl Hl Hc demo_walk_within (calm_runs p)) as Hw.
  revert Hn Hw. destruct (run calm_fs [] p) as [out t]. intros Hn Hw. split; [exact Hn|exact Hw].
Defined.
