(* ===== verification/ArtifactGC.v ===== *)
(** * Garbage collection of artifacts ([artifact/storage/gc.go])

    [GetGarbageFiles] walks the directory of an artifact and selects the files
    that have outlived their time, and then the oldest ones until enough are
    gone.  [GarbageCollect] removes them in a goroutine, against a timeout. *)

From S2P Require Import Prelude GoStd Utf8 GoPath Interaction Untar OsProg Sourceignore ArtifactStorage.

(** [src/artifact/storage/gc.go:34-34 GarbageCountLimit] *)
Definition GarbageCountLimit : Z := 1000.

(** [src/artifact/storage/gc.go:181-188 stringInSlice] *)
Fixpoint stringInSlice (a : bytes) (l : list bytes) : bool :=
  match l with [] => false | b :: l => if bool_decide (b = a) then true else stringInSlice a l end.

Definition lockExt : bytes := str ".lock".

(** [now.Sub(createdAt)] saturates. *)
Definition time_Sub (now created : Z) : Z := Z.max (- 2 ^ 63) (Z.min (2 ^ 63 - 1) (now - created)).

(** A visit of [filepath.WalkDir]: an error, or the error or answer of [Info]. *)
Record dvisit := mkDVisit { dv_path : bytes; dv_err : option bytes; dv_info : bytes + FileInfo }.

(** The variables that the walk function updates. *)
Record gc_state := mkGC {
  garbageFiles : list bytes; totalArtifactFiles : Z; gc_errors : list bytes;
  artifactFilesWithCreatedTs : gmap Z bytes; creationTimestamps : list Z }.

Section gc.
Context {Sort : SortFunc}.
Context (localPath : bytes) (now ttl : Z).

(** [src/artifact/storage/gc.go:73-80 Storage.GetGarbageFiles] *)
Definition is_artifact (path : bytes) (info : FileInfo) : bool :=
  negb (IsDir (fMode info)) && negb (Z.land (fMode info) ModeSymlink =? ModeSymlink)%Z &&
  negb (bool_decide (filepath_Ext path = lockExt)).

(** [src/artifact/storage/gc.go:66-80 Storage.GetGarbageFiles] *)
Definition gc_file (path : bytes) (info : FileInfo) (st : gc_state) : gc_state :=
  let createdAt := fModTime info in
  let expired := (ttl <? time_Sub now createdAt)%Z in
  if is_artifact path info then
    mkGC (if negb (bool_decide (path = localPath)) && expired then garbageFiles st ++ [path] else garbageFiles st)
      (totalArtifactFiles st + 1) (gc_errors st) (<[createdAt := path]> (artifactFilesWithCreatedTs st))
      (creationTimestamps st ++ [createdAt])
  else st.

(** The walk; an error that the function returns ends it.
    [src/artifact/storage/gc.go:53-83 Storage.GetGarbageFiles] *)
Fixpoint gc_walk (totalCountLimit : Z) (vs : list dvisit) (st : gc_state) : gc_state :=
  let add_error e := mkGC (garbageFiles st) (totalArtifactFiles st) (gc_errors st ++ [e])
    (artifactFilesWithCreatedTs st) (creationTimestamps st) in
  match vs with
  | [] => st
  | v :: vs =>
      match dv_err v with
      | Some e => gc_walk totalCountLimit vs (add_error e)
      | None =>
          if (totalCountLimit <=? totalArtifactFiles st)%Z then st
          else match dv_info v with
               | inl e => gc_walk totalCountLimit vs (add_error e)
               | inr info => gc_walk totalCountLimit vs (gc_file (dv_path v) info st)
               end
      end
  end.

(** [src/artifact/storage/gc.go:96-102 Storage.GetGarbageFiles] *)
Fixpoint paths_of (m : gmap Z bytes) (timestamps : list Z) : Z + list bytes :=
  match timestamps with
  | [] => inr []
  | ts :: timestamps =>
      match m !! ts with
      | None => inl ts
      | Some p => match paths_of m timestamps with inl e => inl e | inr ps => inr (p :: ps) end
      end
  end.

(** The loop with its variables [garbageFiles] and [collected].
    [src/artifact/storage/gc.go:104-123 Storage.GetGarbageFiles] *)
Fixpoint retain_loop (maxItemsToBeRetained sortedLen : Z) (someExpired : bool) (paths : list bytes)
    (garbage : list bytes) (collected : Z) : list bytes :=
  match paths with
  | [] => garbage
  | p :: paths =>
      let next := retain_loop maxItemsToBeRetained sortedLen someExpired paths in
      if negb (bool_decide (p = localPath)) && negb (bool_decide (filepath_Ext p = lockExt)) &&
         negb (stringInSlice p garbage)
      then
        let left := if someExpired then (sortedLen - collected - Z.of_nat (length garbage))%Z
                    else (sortedLen - collected)%Z in
        if (maxItemsToBeRetained <? left)%Z then next (garbage ++ [p]) (collected + 1)%Z
        else next garbage collected
      else next garbage collected
  end.

(** [visits] are those of the walk of the directory of the artifact.
    [src/artifact/storage/gc.go:36-126 Storage.GetGarbageFiles] *)
Definition GetGarbageFiles (visits : list dvisit) (totalCountLimit maxItemsToBeRetained : Z)
    : storage_error + list bytes :=
  let st := gc_walk totalCountLimit visits (mkGC [] 0 [] ∅ []) in
  if negb (bool_decide (gc_errors st = [])) then inl (CantWalk (gc_errors st))
  else if (totalArtifactFiles st - Z.of_nat (length (garbageFiles st)) <? maxItemsToBeRetained)%Z
  then inr (garbageFiles st)
  else match paths_of (artifactFilesWithCreatedTs st) (sort_Slice Z.ltb (creationTimestamps st)) with
       | inl ts => inl (MissingTimestamp ts)
       | inr sortedPaths =>
           inr (retain_loop maxItemsToBeRetained (Z.of_nat (length sortedPaths))
                  (0 <? length (garbageFiles st)) sortedPaths (garbageFiles st) 0)
       end.
End gc.

(** ** Deletion *)

(** [src/artifact/storage/gc.go:142-161 Storage.GarbageCollect] *)
Fixpoint delete_garbage (files : list bytes) (deleted : list bytes) (errors : list oserr)
    : os_prog (list bytes * list oserr) :=
  match files with
  | [] => Ret (deleted, errors)
  | file :: files =>
      Call (PRemove file) (λ r,
      let '(deleted, errors) :=
        match an_err r with Some e => (deleted, errors ++ [e]) | None => (deleted ++ [file], errors) end in
      let lockFile := file ++ lockExt in
      Call (PLstat lockFile) (λ r,
      match an_err r with
      | Some _ => delete_garbage files deleted errors
      | None =>
          Call (PRemove lockFile) (λ r,
          match an_err r with
          | Some e => delete_garbage files deleted (errors ++ [e])
          | None => delete_garbage files deleted errors
          end)
      end))
  end.

Inductive gc_error := GcStorage (e : storage_error) | GcAggregate (es : list oserr) | GcContext.

(** What the goroutine sends, on [errChan] or [delFilesChan].
    [src/artifact/storage/gc.go:136-167 Storage.GarbageCollect] *)
Definition gc_worker `{SortFunc} (localPath : bytes) (now : Z) (visits : list dvisit) (s : Storage)
    : os_prog (gc_error + list bytes) :=
  match GetGarbageFiles localPath now (ArtifactRetentionTTL s) visits GarbageCountLimit (ArtifactRetentionRecords s) with
  | inl e => Ret (inl (GcStorage e))
  | inr files =>
      delete_garbage files [] [] ≫= λ '(deleted, errors),
      Ret (if bool_decide (errors = []) then inr deleted else inl (GcAggregate errors))
  end.

(** ** The selection *)

(** The artifact files among the visits, with their times. *)
Definition artifacts (vs : list dvisit) : list (bytes * Z) :=
  omap (λ v, match dv_info v with
             | inr info => if is_artifact (dv_path v) info then Some (dv_path v, fModTime info) else None
             | inl _ => None
             end) vs.

Lemma stringInSlice_spec a l : stringInSlice a l = bool_decide (a ∈ l).
Proof.
  induction l as [|b l IH]; simpl; [done|]. rewrite IH. destruct (decide (b = a)) as [->|Hb].
  - rewrite bool_decide_true by done. symmetry. apply bool_decide_eq_true. by constructor.
  - rewrite (bool_decide_false (b = a)) by done. apply bool_decide_ext. set_solver.
Qed.

Section selection.
Context {Sort : SortFunc}.
Context (localPath : bytes) (now ttl : Z).
Implicit Types (vs : list dvisit) (st : gc_state) (fs : list (bytes * Z)).

(** What the walk keeps: everything it collects is an artifact file of the
    visits, and garbage is not the current one. *)
Record gc_ok (vs : list dvisit) (st : gc_state) : Prop := {
  gc_ok_garbage p : p ∈ garbageFiles st → p ≠ localPath ∧ p ∈ (artifacts vs).*1;
  gc_ok_map ts p : artifactFilesWithCreatedTs st !! ts = Some p → p ∈ (artifacts vs).*1 }.

Lemma gc_file_ok vs v info st :
  v ∈ vs → dv_info v = inr info → gc_ok vs st → gc_ok vs (gc_file localPath now ttl (dv_path v) info st).
Proof.
  intros Hv Hi [Hg Hm]. unfold gc_file. destruct (is_artifact _ _) eqn:Ea; [|done].
  assert (dv_path v ∈ (artifacts vs).*1) as Hin.
  { apply list_elem_of_fmap. exists (dv_path v, fModTime info). split; [done|].
    apply list_elem_of_omap. exists v. split; [done|]. by rewrite Hi, Ea. }
  split; simpl.
  - intros p. case_bool_decide as Hp; simpl; [by apply Hg|].
    destruct (ttl <? _)%Z; simpl; [|by apply Hg].
    intros [?|Hx]%elem_of_app; [by apply Hg|]. apply list_elem_of_singleton in Hx as ->. done.
  - intros ts p. destruct (decide (ts = fModTime info)) as [->|Hne].
    + rewrite lookup_insert_eq. by intros [= <-].
    + rewrite lookup_insert_ne by done. apply Hm.
Qed.

Lemma gc_walk_ok limit vs vs' st :
  (∀ v, v ∈ vs' → v ∈ vs) → gc_ok vs st → gc_ok vs (gc_walk localPath now ttl limit vs' st).
Proof.
  revert st. induction vs' as [|v vs' IH]; intros st Hin Hok; simpl; [done|].
  assert (∀ e, gc_ok vs (mkGC (garbageFiles st) (totalArtifactFiles st) (gc_errors st ++ [e])
    (artifactFilesWithCreatedTs st) (creationTimestamps st))) as Herr by (intros e; destruct Hok; by split).
  assert (∀ v', v' ∈ vs' → v' ∈ vs) by set_solver.
  destruct (dv_err v); [by apply IH|]. destruct (_ <=? _)%Z; [done|].
  destruct (dv_info v) as [e|info] eqn:Ei; [by apply IH|]. apply IH; [done|]. apply gc_file_ok; [set_solver|done|done].
Qed.

Lemma paths_of_elem (m : gmap Z bytes) tss ps p :
  paths_of m tss = inr ps → p ∈ ps → ∃ ts, m !! ts = Some p.
Proof.
  revert ps. induction tss as [|ts tss IH]; intros ps; simpl; [by intros [= <-] ?%not_elem_of_nil|].
  destruct (m !! ts) as [q|] eqn:Eq; [|done]. destruct (paths_of m tss) as [e|qs]; [done|]. intros [= <-].
  intros [->|Hp]%elem_of_cons; [by exists ts|]. by eapply IH.
Qed.

Lemma retain_loop_elem max n some paths garbage c p :
  p ∈ retain_loop localPath max n some paths garbage c → p ∈ garbage ∨ (p ∈ paths ∧ p ≠ localPath).
Proof.
  revert garbage c. induction paths as [|q paths IH]; intros garbage c; cbn [retain_loop]; [by left|].
  assert (∀ g c', p ∈ retain_loop localPath max n some paths g c' → (p ∈ g → p ∈ garbage ∨ (p = q ∧ q ≠ localPath)) →
    p ∈ garbage ∨ (p ∈ q :: paths ∧ p ≠ localPath)) as Hnext.
  { intros g c' Hp Hg. apply IH in Hp. set_solver. }
  case_bool_decide as Hq; simpl; [intros Hp; eapply Hnext; [exact Hp|by left]|].
  destruct (negb (bool_decide _) && _); [|intros Hp; eapply Hnext; [exact Hp|by left]].
  destruct (max <? _)%Z; intros Hp; (eapply Hnext; [exact Hp|]); set_solver.
Qed.

Lemma GetGarbageFiles_ok (vs : list dvisit) (limit max : Z) (g : list bytes) :
  GetGarbageFiles localPath now ttl vs limit max = inr g →
  (localPath ∉ g) ∧ (∀ p, p ∈ g → p ∈ (artifacts vs).*1).
Proof.
  unfold GetGarbageFiles. set (st := gc_walk _ _ _ _ _ _).
  assert (gc_ok vs st) as [Hg Hm].
  { apply gc_walk_ok; [done|]. split; simpl; [by intros p ?%not_elem_of_nil|]. intros ts p. by rewrite lookup_empty. }
  destruct (negb _); [done|]. destruct (_ <? _)%Z.
  { intros [= <-]. split; [intros Hl; by apply Hg in Hl as [? _]|]. intros p Hp. by apply Hg. }
  destruct (paths_of _ _) as [ts|paths] eqn:Ep; [done|]. intros [= <-].
  assert (∀ p, p ∈ retain_loop localPath max (Z.of_nat (length paths)) (0 <? length (garbageFiles st)) paths
    (garbageFiles st) 0 → p ≠ localPath ∧ p ∈ (artifacts vs).*1) as Hall.
  { intros p [Hp|[Hp Hne]]%retain_loop_elem; [by apply Hg|]. split; [done|].
    destruct (paths_of_elem _ _ _ _ Ep Hp) as (ts & Hts). by eapply Hm. }
  split; [intros Hl; by destruct (Hall _ Hl)|]. intros p Hp. by apply Hall.
Qed.

Lemma GetGarbageFiles_spares vs limit max g :
  GetGarbageFiles localPath now ttl vs limit max = inr g → localPath ∉ g.
Proof. intros Hg. by destruct (GetGarbageFiles_ok _ _ _ _ Hg). Qed.

(** Garbage collection never selects the current artifact: whatever the
    walk shows (errors, equal times, a directory over the limit), each selected
    file is one that was visited, a regular file that is no lock, and is not
    the current artifact. *)
Theorem GetGarbageFiles_safe (vs : list dvisit) (limit max : Z) (g : list bytes) :
  GetGarbageFiles localPath now ttl vs limit max = inr g →
  (localPath ∉ g) ∧ (∀ p, p ∈ g → p ∈ (artifacts vs).*1).
Proof. apply GetGarbageFiles_ok. Qed.

(** ** The exact selection *)

Definition outlived (f : bytes * Z) : bool := (ttl <? time_Sub now f.2)%Z && negb (bool_decide (f.1 = localPath)).

Definition add_ts (m : gmap Z bytes) (f : bytes * Z) : gmap Z bytes := <[f.2 := f.1]> m.

Lemma gc_walk_exact limit vs st :
  Forall (λ v, dv_err v = None ∧ ∃ info, dv_info v = inr info) vs →
  (totalArtifactFiles st + Z.of_nat (length (artifacts vs)) <= limit)%Z →
  gc_walk localPath now ttl limit vs st =
  mkGC (garbageFiles st ++ (filter (λ f, outlived f = true) (artifacts vs)).*1)
    (totalArtifactFiles st + Z.of_nat (length (artifacts vs))) (gc_errors st)
    (foldl add_ts (artifactFilesWithCreatedTs st) (artifacts vs)) (creationTimestamps st ++ (artifacts vs).*2).
Proof.
  intros Hvs. revert st. induction Hvs as [|v vs [He [info Hi]] _ IH]; intros st Hl.
  { cbn. rewrite !app_nil_r, Z.add_0_r. by destruct st. }
  cbn [gc_walk]. rewrite He. destruct (Z.leb_spec limit (totalArtifactFiles st)) as [Hs|Hs].
  { assert (artifacts (v :: vs) = []) as -> by (apply length_zero_iff_nil; lia).
    cbn. rewrite !app_nil_r, Z.add_0_r. by destruct st. }
  rewrite Hi. unfold gc_file. unfold artifacts in *. cbn [omap list_omap] in *. rewrite Hi in *.
  destruct (is_artifact (dv_path v) info); [|by apply IH].
  cbn [length] in Hl. rewrite IH by (simpl; lia). cbn [garbageFiles totalArtifactFiles gc_errors artifactFilesWithCreatedTs
    creationTimestamps foldl fmap list_fmap length fst snd]. f_equal.
  - rewrite andb_comm. destruct (outlived (dv_path v, fModTime info)) eqn:Ex.
    + rewrite filter_cons_True by done. unfold outlived in Ex. simpl in Ex. rewrite Ex.
      cbn [fmap list_fmap fst]. by rewrite <-app_assoc.
    + rewrite filter_cons_False by by rewrite Ex. unfold outlived in Ex. simpl in Ex. by rewrite Ex.
  - lia.
  - by rewrite <-app_assoc.
Qed.

Lemma add_ts_lookup fs p ts :
  NoDup fs.*2 → (p, ts) ∈ fs → foldl add_ts ∅ fs !! ts = Some p.
Proof.
  induction fs as [|[q u] fs IH] using rev_ind; [by intros _ ?%not_elem_of_nil|].
  rewrite fmap_app, foldl_snoc. intros Hnd Hin. apply NoDup_app in Hnd as (Hnd & Hd & _). unfold add_ts at 1. simpl.
  apply elem_of_app in Hin as [Hin|Hin].
  - rewrite lookup_insert_ne; [by apply IH|]. intros ->. apply (Hd ts); [|set_solver].
    apply list_elem_of_fmap. by exists (p, ts).
  - apply list_elem_of_singleton in Hin as [= -> ->]. apply lookup_insert_eq.
Qed.

Lemma paths_of_files m fs : (∀ p ts, (p, ts) ∈ fs → m !! ts = Some p) → paths_of m fs.*2 = inr fs.*1.
Proof.
  induction fs as [|[p ts] fs IH]; intros Hm; [done|]. cbn [paths_of fmap list_fmap fst snd].
  rewrite (Hm p ts) by constructor.
  rewrite IH; [done|]. intros q u Hq. apply Hm. by constructor.
Qed.

(** How many files the second step may collect. *)
Definition quota (max n e : Z) : nat :=
  Z.to_nat (if (0 <? e)%Z then (n - e - max + 1) / 2 else n - max).

Definition candidate (garbage : list bytes) (p : bytes) : bool :=
  negb (bool_decide (p = localPath)) && negb (bool_decide (filepath_Ext p = lockExt)) && negb (bool_decide (p ∈ garbage)).

Lemma quota_test (max n : Z) (g0 got : list bytes) :
  (max <? (if Nat.ltb 0 (length g0) then n - Z.of_nat (length got) - Z.of_nat (length (g0 ++ got))
           else n - Z.of_nat (length got)))%Z = (length got <? quota max n (Z.of_nat (length g0))).
Proof.
  unfold quota. rewrite length_app. destruct (Nat.ltb_spec 0 (length g0)) as [H0|H0].
  - destruct (Z.ltb_spec 0 (Z.of_nat (length g0))) as [H1|H1]; [|lia].
    pose proof (Z.div_mod (n - Z.of_nat (length g0) - max + 1) 2). pose proof (Z.mod_pos_bound (n - Z.of_nat (length g0) - max + 1) 2).
    destruct (Nat.ltb_spec (length got) (Z.to_nat ((n - Z.of_nat (length g0) - max + 1) / 2))); lia.
  - destruct (Z.ltb_spec 0 (Z.of_nat (length g0))) as [H1|H1]; [lia|].
    destruct (Nat.ltb_spec (length got) (Z.to_nat (n - max))); lia.
Qed.

Lemma retain_loop_exact max n paths (g0 got : list bytes) :
  NoDup paths → (∀ p, p ∈ got → p ∉ paths) → length got ≤ quota max n (Z.of_nat (length g0)) →
  retain_loop localPath max n (0 <? length g0) paths (g0 ++ got) (Z.of_nat (length got)) =
  g0 ++ got ++ take (quota max n (Z.of_nat (length g0)) - length got) (filter (λ p, candidate g0 p = true) paths).
Proof.
  intros Hnd. revert got. induction Hnd as [|p paths Hp Hnd IH]; intros got Hgot Hlen.
  { rewrite filter_nil, take_nil, app_nil_r. done. }
  cbn [retain_loop]. rewrite stringInSlice_spec.
  rewrite (bool_decide_ext (p ∈ g0 ++ got) (p ∈ g0)) by (rewrite elem_of_app; specialize (Hgot p); set_solver).
  fold (candidate g0 p). destruct (candidate g0 p) eqn:Ec.
  - rewrite filter_cons_True by done. rewrite quota_test.
    destruct (Nat.ltb_spec (length got) (quota max n (Z.of_nat (length g0)))) as [Hlt|Hge].
    + specialize (IH (got ++ [p])). rewrite length_app in IH. cbn [length] in IH. rewrite Nat2Z.inj_add in IH.
      rewrite (app_assoc g0 got) in IH. change (Z.of_nat 1) with 1%Z in IH.
      rewrite IH by (lia || set_solver). rewrite <-!app_assoc. do 2 f_equal.
      assert (quota max n (Z.of_nat (length g0)) - length got = S (quota max n (Z.of_nat (length g0)) - (length got + 1))) as -> by lia.
      done.
    + rewrite IH by (lia || set_solver).
      assert (quota max n (Z.of_nat (length g0)) - length got = 0) as -> by lia. by rewrite !take_0.
  - rewrite filter_cons_False by by rewrite Ec. apply IH; [set_solver|done].
Qed.

(** C33. The exact selection, for a walk without errors over at most [limit]
    files with different times and names: the expired files other than the
    current one, and, when at least [max] files are left, the oldest of those
    other than the current one, as many as [quota] says.  Without expired files
    that is the number of files over [max], so that if the current artifact is
    one of the files and [max] at least one, it and the newest others are left,
    [max] files together, even if the current one is the oldest of all (example
    [current_is_oldest]); the documentation says that the latest [max] remain.
    With expired files the loop counts each file it collects twice, and about
    half of what exceeds [max] is left, too. *)
Theorem GetGarbageFiles_exact (vs : list dvisit) (limit max : Z) :
  Forall (λ v, dv_err v = None ∧ ∃ info, dv_info v = inr info) vs →
  let fs := artifacts vs in
  (Z.of_nat (length fs) <= limit)%Z → NoDup fs.*1 → NoDup fs.*2 →
  let gone := (filter (λ f, outlived f = true) fs).*1 in
  let n := Z.of_nat (length fs) in
  let e := Z.of_nat (length gone) in
  if (n - e <? max)%Z then GetGarbageFiles localPath now ttl vs limit max = inr gone
  else ∃ sorted, sorted ≡ₚ fs ∧ StronglySorted (λ f g, (f.2 <= g.2)%Z) sorted ∧
    GetGarbageFiles localPath now ttl vs limit max =
    inr (gone ++ take (quota max n e) (filter (λ p, candidate gone p = true) sorted.*1)).
Proof.
  intros Hvs fs Hlim Hn1 Hn2 gone n e. unfold GetGarbageFiles.
  rewrite gc_walk_exact by done. cbn [gc_errors totalArtifactFiles garbageFiles artifactFilesWithCreatedTs creationTimestamps app].
  rewrite Z.add_0_l. fold fs gone n. fold e. rewrite bool_decide_true by done. simpl.
  destruct (n - e <? max)%Z; [done|].
  destruct (Permutation_map_inv (A:=bytes * Z) snd fs (sort_Slice_perm Z.ltb fs.*2)) as (sorted & Es' & Hperm).
  assert (sort_Slice Z.ltb fs.*2 = sorted.*2) as Es by exact Es'. clear Es'.
  exists sorted. split; [done|]. split.
  - pose proof (sort_Slice_sorted Z.ltb Z.le ltac:(intros x y; rewrite Z.ltb_ge; lia) fs.*2) as Hs.
    rewrite Es in Hs. clear -Hs. induction sorted as [|f l IH]; [constructor|]. inversion_clear Hs as [|?? Hl Hf].
    constructor; [by apply IH|]. apply Forall_forall. intros g Hg.
    apply (proj1 (Forall_forall _ _) Hf). by apply (list_elem_of_fmap_2 snd).
  - rewrite Es, paths_of_files.
    + rewrite length_fmap, <-(Permutation_length Hperm). fold n. f_equal. rewrite <-(app_nil_r gone) at 2. change 0%Z with (Z.of_nat (length ([] : list bytes))).
      rewrite retain_loop_exact; [by rewrite Nat.sub_0_r| |by intros p ?%not_elem_of_nil|simpl; lia].
      by rewrite <-Hperm.
    + intros p ts Hin. apply add_ts_lookup; [done|]. by rewrite Hperm.
Qed.
End selection.

(** ** The goroutine and the timeout *)

(** The caller waits on the context and two channels without buffers, the
    goroutine works and then sends. *)
Inductive gc_caller := Selecting | Returned (r : gc_error + list bytes).
Inductive gc_goroutine := Working (p : os_prog (gc_error + list bytes)) | Sending (r : gc_error + list bytes) | Exited.

Record gc_conf := mkConf { caller : gc_caller; goroutine : gc_goroutine; ctxDone : bool; gc_trace : list os_event }.

(** [src/artifact/storage/gc.go:128-179 Storage.GarbageCollect] *)
Inductive gc_step : gc_conf → gc_conf → Prop :=
  | step_call main c k r d t :
      gc_step (mkConf main (Working (Call c k)) d t) (mkConf main (Working (k r)) d (t ++ [(c, r)]))
  | step_send main r d t : gc_step (mkConf main (Working (Ret r)) d t) (mkConf main (Sending r) d t)
  | step_timeout g t : gc_step (mkConf Selecting g false t) (mkConf Selecting g true t)
  | step_done g t : gc_step (mkConf Selecting g true t) (mkConf (Returned (inl GcContext)) g true t)
  | step_receive r d t : gc_step (mkConf Selecting (Sending r) d t) (mkConf (Returned r) Exited d t).

Definition gc_start (p : os_prog (gc_error + list bytes)) : gc_conf := mkConf Selecting (Working p) false [].

(** What is left of the goroutine's program completes the trace to a run. *)
Definition rest_of (p : os_prog (gc_error + list bytes)) (c : gc_conf) : Prop :=
  match goroutine c with
  | Working q => ∀ t r, runs q t r → runs p (gc_trace c ++ t) r
  | Sending r => runs p (gc_trace c) r
  | Exited => ∃ r, caller c = Returned r ∧ runs p (gc_trace c) r
  end.

Lemma gc_step_rest p c c' : rest_of p c → gc_step c c' → rest_of p c'.
Proof.
  unfold rest_of. intros Hc Hs. destruct Hs as [main c0 k r d t|main r d t|g t|g t|r d t]; simpl in *.
  - intros t' r' Hr. rewrite <-app_assoc. apply Hc. by constructor.
  - rewrite <-(app_nil_r t). apply Hc. constructor.
  - destruct g; [done..|]. by destruct Hc as (? & ? & _).
  - destruct g; [done..|]. by destruct Hc as (? & ? & _).
  - by exists r.
Qed.

Lemma decide_exited g : g = Exited ∨ g ≠ Exited.
Proof. destruct g; auto. Qed.

Lemma rtc_preserves {A} (R : relation A) (I : A → Prop) x y :
  (∀ a b, I a → R a b → I b) → rtc R x y → I x → I y.
Proof. intros Hstep. induction 1 as [|a b c H1 _ IH]; eauto. Qed.

(** After the caller has returned the error of the context, the goroutine works on
    whatever the file system answers, then sends, and is blocked with a complete
    run behind it; it never exits. *)
Definition leaks (p : os_prog (gc_error + list bytes)) (c : gc_conf) : Prop :=
  (∀ c', rtc gc_step c c' → goroutine c' ≠ Exited) ∧
  match goroutine c with
  | Working (Call call k) =>
      ∀ a, gc_step c (mkConf (caller c) (Working (k a)) (ctxDone c) (gc_trace c ++ [(call, a)]))
  | Working (Ret r) => gc_step c (mkConf (caller c) (Sending r) (ctxDone c) (gc_trace c))
  | Sending r => runs p (gc_trace c) r ∧ ¬ ∃ c', gc_step c c'
  | Exited => False
  end.

Lemma gc_returns (p : os_prog (gc_error + list bytes)) (c : gc_conf) (r : gc_error + list bytes) :
  rtc gc_step (gc_start p) c → caller c = Returned r →
  (goroutine c = Exited ∧ runs p (gc_trace c) r) ∨ (r = inl GcContext ∧ leaks p c).
Proof.
  intros Hreach Hret.
  assert (rest_of p c ∧ (∀ r, caller c = Returned r → goroutine c ≠ Exited → r = inl GcContext)) as [Hrest Hctx].
  { revert Hreach. clear Hret. intros Hreach.
    apply (rtc_preserves gc_step (λ c, rest_of p c ∧ (∀ r, caller c = Returned r → goroutine c ≠ Exited → r = inl GcContext))
      (gc_start p) c); [|done|].
    - intros c1 c2 [H1 H2] Hs. split; [by eapply gc_step_rest|]. intros r' Hr Hne.
      destruct Hs; simpl in *; simplify_eq; eauto.
    - split; [|done]. unfold rest_of. simpl. by intros. }
  unfold rest_of in Hrest. destruct (decide_exited (goroutine c)) as [Eg|Eg].
  { left. split; [done|]. rewrite Eg in Hrest. destruct Hrest as (r' & Hr' & Hp). congruence. }
  right. split; [by apply Hctx|]. split.
  - intros c' Hs. apply (rtc_preserves gc_step (λ c, goroutine c ≠ Exited ∧ ∃ r, caller c = Returned r) c c'); [|done|eauto].
    intros c1 c2 [H1 [r1 H2]] Hstep. destruct Hstep; simplify_eq/=; eauto.
  - destruct c as [main g d t]. cbn in *. subst main. destruct g as [[r'|call k]|r'|]; [constructor|intros a; constructor| |done].
    split; [done|]. intros [c' Hs]. inversion Hs.
Qed.

(** ** Termination *)

(** How often the caller can still move. *)
Definition caller_weight (c : gc_conf) : nat :=
  match caller c, ctxDone c with Returned _, _ => 0 | Selecting, true => 1 | Selecting, false => 2 end.

Abbreviation ends := (Acc (flip gc_step)).

(** A step is one of the caller or takes the goroutine to a state from which
    every execution ends. *)
Lemma ends_caller g :
  (∀ main d t c', gc_step (mkConf main g d t) c' →
     (goroutine c' = g ∧ gc_trace c' = t ∧ caller_weight c' < caller_weight (mkConf main g d t)) ∨ ends c') →
  ∀ main d t, ends (mkConf main g d t).
Proof.
  intros Hg main d t. remember (caller_weight (mkConf main g d t)) as n eqn:En. revert main d t En.
  induction (lt_wf n) as [n _ IH]. intros main d t ->. constructor. intros c' Hs.
  destruct (Hg main d t c' Hs) as [(Eg & _ & Hw)|?]; [|done]. destruct c' as [main' g' d' t']. cbn in Eg. subst g'.
  by apply (IH _ Hw).
Qed.

Lemma gc_ends g main d t : ends (mkConf main g d t).
Proof.
  assert (∀ main d t, ends (mkConf main Exited d t)) as He.
  { apply ends_caller. intros main' d' t' c' Hs. inversion Hs; subst; left; cbn; (split_and!; [done..|]); lia. }
  assert (∀ r main d t, ends (mkConf main (Sending r) d t)) as Hsend.
  { intros r. apply ends_caller. intros main' d' t' c' Hs.
    inversion Hs; subst; [left; cbn; (split_and!; [done..|]); lia..|right; apply He]. }
  assert (∀ q main d t, ends (mkConf main (Working q) d t)) as Hwork.
  { induction q as [r|call k IH]; apply ends_caller; intros main' d' t' c' Hs; inversion Hs; subst.
    - right. apply Hsend.
    - left. cbn. split_and!; [done..|lia].
    - left. cbn. split_and!; [done..|lia].
    - right. apply IH.
    - left. cbn. split_and!; [done..|lia].
    - left. cbn. split_and!; [done..|lia]. }
  destruct g as [q|r|]; [apply Hwork|apply Hsend|apply He].
Qed.

(** The caller is never stuck. *)
Lemma gc_stuck (p : os_prog (gc_error + list bytes)) (c : gc_conf) : (¬ ∃ c', gc_step c c') → ∃ r, caller c = Returned r.
Proof.
  intros Hno. destruct c as [[|r] g d t]; [|by exists r]. exfalso. apply Hno.
  destruct d; [by eexists; apply step_done|by eexists; apply step_timeout].
Qed.

(** ** What is deleted *)

Lemma delete_garbage_runs files deleted errors (t : list os_event) deleted' errors' :
  runs (delete_garbage files deleted errors) t (deleted', errors') →
  (∃ more, errors' = errors ++ more) ∧
  (errors' = [] → deleted' = deleted ++ files ∧ Forall (λ f, ∃ a, (PRemove f, a) ∈ t ∧ an_err a = None) files) ∧
  Forall (λ f, PRemove f ∈ t.*1) files.
Proof.
  revert deleted errors t. induction files as [|f files IH]; intros deleted errors t; cbn [delete_garbage].
  { intros [-> [= -> ->]]%runs_ret_inv. split_and!; [exists []; by rewrite app_nil_r| |done]. intros ->. by rewrite app_nil_r. }
  intros (a & t' & -> & Hr)%runs_call_inv.
  set (next := match an_err a with Some e => (deleted, errors ++ [e]) | None => (deleted ++ [f], errors) end) in Hr.
  assert (∃ u t'' errs, t' = u ++ t'' ∧ runs (delete_garbage files next.1 errs) t'' (deleted', errors') ∧
    ∃ more, errs = next.2 ++ more) as (u & t'' & errs & -> & Hr' & more & ->).
  { destruct next as [d e]. apply runs_call_inv in Hr as (b & t1 & -> & Hr). cbn [fst snd]. destruct (an_err b).
    { eexists [_], t1, e. split_and!; [done..|exists []; by rewrite app_nil_r]. }
    apply runs_call_inv in Hr as (b' & t2 & -> & Hr). destruct (an_err b') as [e'|].
    - eexists [_; _], t2, (e ++ [e']). split_and!; [done..|by eexists].
    - eexists [_; _], t2, e. split_and!; [done..|exists []; by rewrite app_nil_r]. }
  apply IH in Hr' as ((more' & ->) & Hok & Hall). unfold next in *. clear next Hr.
  assert (Forall (λ f', PRemove f' ∈ ((PRemove f, a) :: u ++ t'').*1) (f :: files)) as Hrem.
  { constructor; [by left|]. apply (Forall_impl _ _ _ Hall). intros f' Hf'. set_solver. }
  destruct (an_err a) as [e|] eqn:Ea; cbn [fst snd] in *; (split_and!; [eexists; by rewrite <-!app_assoc| |done]).
  - intros E. by destruct errors.
  - intros E. destruct (Hok E) as [-> Hf]. rewrite <-app_assoc. split; [done|]. constructor; [exists a; split; [by left|done]|].
    apply (Forall_impl _ _ _ Hf). intros f' (a' & Hin & Ha'). exists a'. split; [set_solver|done].
Qed.

Lemma gc_worker_runs `{SortFunc} localPath now visits s (t : list os_event) r :
  runs (gc_worker localPath now visits s) t r →
  match GetGarbageFiles localPath now (ArtifactRetentionTTL s) visits GarbageCountLimit (ArtifactRetentionRecords s) with
  | inl e => r = inl (GcStorage e) ∧ t = []
  | inr files => Forall (λ f, PRemove f ∈ t.*1) files ∧
      ∀ deleted, r = inr deleted → deleted = files ∧ Forall (λ f, ∃ a, (PRemove f, a) ∈ t ∧ an_err a = None) files
  end.
Proof.
  unfold gc_worker. destruct (GetGarbageFiles _ _ _ _ _ _) as [e|files]; [by intros [-> ->]%runs_ret_inv|].
  intros (t1 & [d errs] & t2 & -> & (_ & Hok & Hall)%delete_garbage_runs & [-> ->]%runs_ret_inv)%runs_bind_inv.
  rewrite app_nil_r. split; [done|]. intros deleted. case_bool_decide as He; [|done]. intros [= <-].
  by destruct (Hok He) as [-> ?].
Qed.

(** Every call of a program, for any answers. *)
Fixpoint calls_ok {A} (P : oscall → Prop) (p : os_prog A) : Prop :=
  match p with Ret _ => True | Call c k => P c ∧ ∀ r, calls_ok P (k r) end.

Lemma calls_ok_bind {A B} P (p : os_prog A) (f : A → os_prog B) :
  calls_ok P p → (∀ a, calls_ok P (f a)) → calls_ok P (p ≫= f).
Proof. induction p as [a|c k IH]; intros Hp Hf; simpl in *; [done|]. destruct Hp. split; [done|]. intros r. by apply IH. Qed.

Lemma delete_garbage_calls P files deleted errors :
  (∀ f, f ∈ files → P (PRemove f) ∧ P (PLstat (f ++ lockExt)) ∧ P (PRemove (f ++ lockExt))) →
  calls_ok P (delete_garbage files deleted errors).
Proof.
  revert deleted errors. induction files as [|f files IH]; intros deleted errors HP; cbn [delete_garbage calls_ok]; [done|].
  destruct (HP f ltac:(constructor)) as (H1 & H2 & H3).
  assert (∀ d e, calls_ok P (delete_garbage files d e)) as Hn by (intros; apply IH; set_solver).
  split; [done|]. intros r. destruct (an_err r); (split; [done|]); intros r'; (destruct (an_err r'); [apply Hn|]);
    (split; [done|]); intros r''; destruct (an_err r''); apply Hn.
Qed.

Lemma Split_snoc s e c : c ∉ e →
  ∃ l x, strings_Split s c = l ++ [x] ∧ strings_Split (s ++ e) c = l ++ [x ++ e].
Proof.
  intros He. induction s as [|d s (l & x & E & E')].
  { exists [], []. split; [done|]. cbn [app]. by apply Split_id. }
  cbn [app strings_Split]. rewrite E, E'. destruct (Ascii.eqb d c).
  - by exists ([] :: l), x.
  - destruct l as [|y l]; [by exists [], (d :: x)|by exists ((d :: y) :: l), x].
Qed.

Lemma from_last_dot_app s e : from_last_dot e ≠ [] → from_last_dot (s ++ e) = from_last_dot e.
Proof. intros He. induction s as [|c s IH]; simpl; [done|]. rewrite IH. by destruct (from_last_dot e). Qed.

Lemma lock_Ext f : filepath_Ext (f ++ lockExt) = lockExt.
Proof.
  unfold filepath_Ext. destruct (Split_snoc f lockExt sep) as (l & x & _ & ->).
  { apply (bool_decide_unpack _). by vm_compute. }
  rewrite last_snoc. simpl. by apply from_last_dot_app.
Qed.

Lemma gc_worker_spares `{SortFunc} localPath now visits s :
  filepath_Ext localPath ≠ lockExt →
  calls_ok (λ c, modifies localPath c = false) (gc_worker localPath now visits s).
Proof.
  intros Hext. unfold gc_worker. destruct (GetGarbageFiles _ _ _ _ _ _) as [e|files] eqn:Eg; [done|].
  apply GetGarbageFiles_spares in Eg. apply calls_ok_bind; [|by intros []].
  apply delete_garbage_calls. intros f Hf. simpl. split_and!; [|done|]; apply bool_decide_false.
  - by intros ->.
  - intros E. apply Hext. rewrite <-E. apply lock_Ext.
Qed.

Lemma gc_step_calls P (p : os_prog (gc_error + list bytes)) c :
  calls_ok P p → rtc gc_step (gc_start p) c → Forall P (gc_trace c).*1.
Proof.
  intros Hp Hr. assert (Forall P (gc_trace c).*1 ∧ ∀ q, goroutine c = Working q → calls_ok P q) as [? _]; [|done].
  apply (rtc_preserves gc_step (λ c, Forall P (gc_trace c).*1 ∧ ∀ q, goroutine c = Working q → calls_ok P q)
    (gc_start p) c); [|done|].
  - intros c1 c2 [H1 H2] Hs. destruct Hs; simpl in *; try (split; [done|]; naive_solver).
    destruct (H2 _ eq_refl) as [Hc Hk]. split; [|naive_solver]. rewrite fmap_app. apply Forall_app. split; [done|by repeat constructor].
  - split; [constructor|]. by intros q [= <-].
Qed.

(** C34. [GarbageCollect] in every interleaving of its goroutine with the timeout,
    for a current artifact whose name does not end in [.lock].  The current
    artifact is never removed or written.  Every execution ends, and not before
    the caller has returned.  It returns the result of a complete run of the
    goroutine, which has then exited; if that is a list of files, it is the
    garbage that [GetGarbageFiles] selects, and each of its files was removed
    without an error.  Or it returns the error of the context; then the
    goroutine goes on, whatever the file system answers, until it has tried to
    remove all of the garbage, and ends blocked on its channel: it can never
    exit. *)
Theorem GarbageCollect_returns `{SortFunc} (localPath : bytes) (now : Z) (visits : list dvisit) (s : Storage)
    (c : gc_conf) :
  let p := gc_worker localPath now visits s in
  let selected := GetGarbageFiles localPath now (ArtifactRetentionTTL s) visits GarbageCountLimit (ArtifactRetentionRecords s) in
  filepath_Ext localPath ≠ lockExt → rtc gc_step (gc_start p) c →
  Forall (λ call, modifies localPath call = false) (gc_trace c).*1 ∧
  ends c ∧ ((¬ ∃ c', gc_step c c') → ∃ r, caller c = Returned r) ∧
  (∀ r, caller c = Returned r →
    (goroutine c = Exited ∧ runs p (gc_trace c) r) ∨ (r = inl GcContext ∧ leaks p c)) ∧
  (∀ deleted, caller c = Returned (inr deleted) → selected = inr deleted ∧
     Forall (λ f, ∃ a, (PRemove f, a) ∈ gc_trace c ∧ an_err a = None) deleted) ∧
  (∀ r files, goroutine c = Sending r → selected = inr files → Forall (λ f, PRemove f ∈ (gc_trace c).*1) files).
Proof.
  intros p selected Hext Hr. split_and!.
  - eapply gc_step_calls; [by apply gc_worker_spares|exact Hr].
  - destruct c. apply gc_ends.
  - apply (gc_stuck p).
  - intros r. by apply gc_returns.
  - intros deleted Hret. destruct (gc_returns p c _ Hr Hret) as [[_ Hrun]|[? _]]; [|done].
    apply gc_worker_runs in Hrun. fold selected in Hrun. destruct selected as [e|files]; [by destruct Hrun as [[=] _]|].
    destruct Hrun as [_ Hrun]. by destruct (Hrun deleted eq_refl) as [-> ?].
  - intros r files Hsend Hsel.
    assert (rest_of p c) as Hrest.
    { apply (rtc_preserves gc_step (rest_of p) (gc_start p) c); [intros; by eapply gc_step_rest|done|].
      unfold rest_of. cbn. by intros. }
    unfold rest_of in Hrest. rewrite Hsend in Hrest. apply gc_worker_runs in Hrest. fold selected in Hrest.
    rewrite Hsel in Hrest. by destruct Hrest.
Qed.

(** ** Concrete inputs *)

Definition demo_file (name : string) (ts : Z) : dvisit := mkDVisit (str name) None (inr (mkInfo 1 420 ts)).
Definition demo_dir : list dvisit :=
  [mkDVisit (str "d") None (inr (mkInfo 0 ModeDir 0));
   demo_file "d/1" 10; demo_file "d/2" 50; demo_file "d/3" 51; demo_file "d/4" 52; demo_file "d/5" 53; demo_file "d/6" 54].

(** Two artifacts are to be retained of six, one of which has expired: three
    are left, not two. *)
Example retains_too_many :
  GetGarbageFiles (str "d/6") 60 20 demo_dir 1000 2 = inr [str "d/1"; str "d/2"; str "d/3"].
Proof. by vm_compute. Qed.

(** The current artifact is the oldest of three and one file is to be retained:
    it is the current one that remains, and not the latest. *)
Example current_is_oldest :
  GetGarbageFiles (str "d/1") 60 20 [demo_file "d/1" 50; demo_file "d/2" 51; demo_file "d/3" 52] 1000 1 =
  inr [str "d/2"; str "d/3"].
Proof. by vm_compute. Qed.

(** Two files of the same time share an entry of the map, and only one of them
    is collected. *)
Example equal_times :
  GetGarbageFiles (str "d/3") 60 20 [demo_file "d/1" 50; demo_file "d/2" 50; demo_file "d/3" 51] 1000 1 =
  inr [str "d/2"].
Proof. by vm_compute. Qed.

Lemma GetGarbageFiles_safe_witness :
  let g := [str "d/1"; str "d/2"; str "d/3"] in
  GetGarbageFiles (str "d/6") 60 20 demo_dir 1000 2 = inr g ∧
  (str "d/6" ∉ g) ∧ (∀ p, p ∈ g → p ∈ (artifacts demo_dir).*1).
Proof.
  intros g. assert (GetGarbageFiles (str "d/6") 60 20 demo_dir 1000 2 = inr g) as E by by vm_compute.
  split; [exact E|]. exact (GetGarbageFiles_safe (str "d/6") 60 20 demo_dir 1000 2 g E).
Defined.

Lemma GetGarbageFiles_exact_witness :
  ∃ sorted, sorted ≡ₚ artifacts demo_dir ∧ StronglySorted (λ f g, (f.2 <= g.2)%Z) sorted ∧
    GetGarbageFiles (str "d/6") 60 20 demo_dir 1000 2 =
    inr ([str "d/1"] ++ take 2 (filter (λ p, candidate (str "d/6") [str "d/1"] p = true) sorted.*1)).
Proof.
  assert (Forall (λ v, dv_err v = None ∧ ∃ info, dv_info v = inr info) demo_dir) as Hvs
    by (repeat (constructor; [split; [done|by eexists]|]); constructor).
  assert (NoDup (artifacts demo_dir).*1) as H1 by (apply (bool_decide_unpack _); by vm_compute).
  assert (NoDup (artifacts demo_dir).*2) as H2 by (apply (bool_decide_unpack _); by vm_compute).
  exact (GetGarbageFiles_exact (str "d/6") 60 20 demo_dir 1000 2 Hvs ltac:(by vm_compute) H1 H2).
Defined.

Definition demo_gc_storage : Storage := mkStorage (str "/data") (str "host") 20 2.

Definition demo_gc_answer : osans := mkAns None 0 [] [] [].
Lemma demo_gc_first : ∃ k, gc_worker (str "d/6") 60 demo_dir demo_gc_storage = Call (PRemove (str "d/1")) k.
Proof.
  assert (GetGarbageFiles (str "d/6") 60 20 demo_dir GarbageCountLimit 2 = inr [str "d/1"; str "d/2"; str "d/3"]) as E
    by by vm_compute.
  eexists. unfold gc_worker. cbn [ArtifactRetentionTTL ArtifactRetentionRecords demo_gc_storage]. rewrite E. reflexivity.
Qed.

(** The timeout comes before the goroutine has deleted anything; it goes on, with
    the removal of the first file. *)
Lemma GarbageCollect_returns_witness :
  let p := gc_worker (str "d/6") 60 demo_dir demo_gc_storage in
  let c := mkConf (Returned (inl GcContext)) (Working p) true [] in
  ends c ∧ leaks p c ∧ ∃ c', gc_step c c' ∧ (gc_trace c').*1 = [PRemove (str "d/1")].
Proof.
  intros p c.
  assert (rtc gc_step (gc_start p) c) as Hreach.
  { eapply rtc_l; [apply step_timeout|]. eapply rtc_l; [apply step_done|]. apply rtc_refl. }
  destruct (GarbageCollect_returns (str "d/6") 60 demo_dir demo_gc_storage c ltac:(done) Hreach) as (_ & He & _ & Hret & _).
  destruct (Hret (inl GcContext) eq_refl) as [[Hx _]|[_ Hl]]; [discriminate Hx|].
  split; [exact He|]. split; [exact Hl|].
  destruct Hl as [_ Hl]. destruct (demo_gc_first) as [k Hk]. unfold c, p in Hl |- *. cbn [goroutine caller ctxDone gc_trace] in Hl.
  rewrite Hk in Hl |- *. exists (mkConf (Returned (inl GcContext)) (Working (k demo_gc_answer)) true [(PRemove (str "d/1"), demo_gc_answer)]).
  split; [exact (Hl demo_gc_answer)|reflexivity].
Defined.
