(* ===== verification/ModuleBumps.v ===== *)
(** * Releases of modules ([cmd/internal])

    The release tool finds the modules of the repository that changed since
    their last tag, the modules that have to follow them, and the tags to
    push.  The repository is what go-git shows of it; regular expressions and
    semantic versions are parameters. *)

From S2P Require Import Prelude GoStd Utf8 GoPath Interaction SsaObject ApisMeta.

(** ** Modules *)

(** [src/cmd/internal/test_modules.go:19-24 testModules] *)
Definition testModules : list bytes := [str "git/internal/e2e"; str "tests/integration"].

(** A directory of the walk with the outcome of opening its [go.mod]: an
    error, missing, or there; [None] for an error of the walk. *)
Inductive gomod_open := GoModError (e : bytes) | NoGoMod | HasGoMod.
Record walked := mkWalked { wk_path : bytes; wk_err : option bytes; wk_isDir : bool; wk_gomod : gomod_open }.

(** [src/cmd/internal/enumerate_taggable_modules.go:39-43 EnumerateTaggableModules] *)
Definition nonTaggable (path : bytes) : bool :=
  existsb (λ n, beq path n || HasPrefix path (n ++ str "/")) (str "cmd" :: testModules).

(** [src/cmd/internal/enumerate_taggable_modules.go:32-54 EnumerateTaggableModules] *)
Fixpoint taggable_walk (ws : list walked) (taggables : list bytes) : bytes + list bytes :=
  match ws with
  | [] => inr taggables
  | w :: ws =>
      match wk_err w with
      | Some e => inl e
      | None =>
          if negb (wk_isDir w) then taggable_walk ws taggables
          else if nonTaggable (wk_path w) then taggable_walk ws taggables
          else match wk_gomod w with
               | GoModError e => inl e
               | NoGoMod => taggable_walk ws taggables
               | HasGoMod => taggable_walk ws (taggables ++ [wk_path w])
               end
      end
  end.

(** [src/cmd/internal/enumerate_taggable_modules.go:27-60 EnumerateTaggableModules] *)
Definition EnumerateTaggableModules `{SortFunc} (ws : list walked) : bytes + list bytes :=
  match taggable_walk ws [] with
  | inl e => inl e
  | inr l => inr (sort_Slice bytes_ltb l)
  end.

(** [src/cmd/internal/enumerate_bumpable_modules.go:19-25 EnumerateBumpableModules] *)
Definition EnumerateBumpableModules (taggable : list bytes) : list bytes := taggable ++ testModules.

(** [src/cmd/internal/release_mode.go:19-22 releaseModeMinor] *)
Definition releaseModeMinor : bytes := str "minor".
(** [src/cmd/internal/release_mode.go:19-22 releaseModePatch] *)
Definition releaseModePatch : bytes := str "patch".

(** [src/cmd/internal/compute_module_bumps.go:255-268 releaseModeFromBranch] *)
Definition releaseModeFromBranch (branch : bytes) : bytes :=
  if negb (HasSuffix branch (str ".x")) then releaseModeMinor
  else if HasPrefix branch (str "flux/v2.") ||
          (HasPrefix branch (str "backport-") && strings_Contains branch (str "-to-flux/v2."))
  then releaseModePatch else releaseModeMinor.

(** ** Tags *)

(** [strings.LastIndex] *)
Fixpoint strings_LastIndex (s p : bytes) : option nat :=
  match s with
  | [] => if beq p [] then Some 0 else None
  | _ :: s' => match strings_LastIndex s' p with
               | Some i => Some (S i)
               | None => if HasPrefix s p then Some 0 else None
               end
  end.

(** A tag of the repository: its short name, the hash of the reference, and
    the target if it is an annotated tag. *)
Record tag_ref := mkTag { tg_name : bytes; tg_hash : bytes; tg_target : option bytes }.

(** The repository as far as it is read: the branch of HEAD (none when it is
    detached), the commits reachable from it, the tags, and for a tag the
    files that changed up to HEAD, before and after; [None] is an error. *)
Record repository := mkRepo {
  rp_branch : option bytes; rp_reachable : list bytes; rp_tags : list tag_ref;
  rp_patch : bytes → option (list (option bytes * option bytes)) }.

Inductive bump_error :=
  | EnumerateFailed (e : bytes) | NotABranch | NoPatch (tag : bytes) | BadRegexp (module : bytes)
  | InvalidReleaseMode (mode : bytes) | ReadFailed (gomod : bytes) | WriteFailed (gomod : bytes)
  | TidyFailed (module : bytes).

(** The files of the modules, by the path of the module. *)
Abbreviation gomods := (gmap bytes bytes) (only parsing).

Section bumps.
Context {Ver : Semver} {Sort : SortFunc}.
(** [IncMinor().String()], [IncPatch().String()] and the version 0.0.0. *)
Context (IncMinor IncPatch : Version → bytes) (zeroVersion : Version).
(** [regexp]: compilation, [MatchString] and [ReplaceAllString]. *)
Context (Compile : bytes → bool) (MatchString : bytes → bytes → bool) (ReplaceAll : bytes → bytes → bytes → bytes).

(** [src/cmd/internal/git_tags.go:57-83 collectLatestReachableTags] *)
Definition add_tag (reachable : list bytes) (moduleTags : gmap bytes (list Version)) (t : tag_ref)
    : gmap bytes (list Version) :=
  let targetHash := default (tg_hash t) (tg_target t) in
  if bool_decide (targetHash ∉ reachable) then moduleTags
  else match strings_LastIndex (tg_name t) (str "/v") with
       | None => moduleTags
       | Some idx =>
           match NewVersion (TrimPrefix (drop (idx + 1) (tg_name t)) (str "v")) with
           | None => moduleTags
           | Some v => let module := take idx (tg_name t) in
                       <[module := default [] (moduleTags !! module) ++ [v]]> moduleTags
           end
       end.

(** Each list has an element, as it was made by appending.  The repository is
    given with what its iterators return, so their errors do not occur.
    [src/cmd/internal/git_tags.go:30-95 collectLatestReachableTags] *)
Definition collectLatestReachableTags (repo : repository) : gmap bytes Version :=
  omap (λ versions, head (sort_Slice (λ a b, LessThan b a) versions))
    (foldl (add_tag (rp_reachable repo)) ∅ (rp_tags repo)).

(** ** Bumps *)

(** [src/cmd/internal/module_bump.go:29-36 ModuleBump] *)
Record ModuleBump := mkBump { mb_module : bytes; mb_oldVersion : bytes; mb_newVersion : bytes; mb_regex : bytes }.

(** [src/cmd/internal/module_bump.go:38-62 NewModuleBump] *)
Definition NewModuleBump (module : bytes) (latest : Version) (releaseMode : bytes) : bump_error + ModuleBump :=
  let pattern := str "github\.com/fluxcd/pkg/" ++ module ++ str " v([^\s]+)" in
  if negb (Compile pattern) then inl (BadRegexp module)
  else if beq releaseMode releaseModeMinor then inr (mkBump module (Original latest) (IncMinor latest) pattern)
  else if beq releaseMode releaseModePatch then inr (mkBump module (Original latest) (IncPatch latest) pattern)
  else inl (InvalidReleaseMode releaseMode).

(** [src/cmd/internal/module_bump.go:64-67 NewModuleBumpForNewModule] *)
Definition NewModuleBumpForNewModule (module : bytes) : bump_error + ModuleBump :=
  NewModuleBump module zeroVersion releaseModeMinor.

(** [src/cmd/internal/module_bump.go:69-76 ModuleBump.String] *)
Definition ModuleBump_String (m : ModuleBump) : bytes :=
  let from := if negb (beq (mb_oldVersion m) (str "0.0.0")) then mb_oldVersion m else str "new module" in
  mb_module m ++ str ": " ++ from ++ str " => " ++ mb_newVersion m.

(** [writable] says which files can be written; [tidy] is the command [go mod tidy] in a module: the new content of its
    file, or an error.
    [src/cmd/internal/module_bump.go:90-118 ModuleBump.apply] *)
Definition bump_apply (writable : bytes → bool) (tidy : gomods → bytes → option bytes) (m : ModuleBump) (fs : gomods) (targetModule : bytes)
    (dryRun : bool) : gomods * (bump_error + bool) :=
  match fs !! targetModule with
  | None => (fs, inl (ReadFailed targetModule))
  | Some oldContent =>
      if negb (MatchString (mb_regex m) oldContent) then (fs, inr false)
      else
        let bumpString := str "github.com/fluxcd/pkg/" ++ mb_module m ++ str " v" ++ mb_newVersion m in
        let newContent := ReplaceAll (mb_regex m) oldContent bumpString in
        if beq oldContent newContent then (fs, inr false)
        else if negb dryRun then
          if negb (writable targetModule) then (fs, inl (WriteFailed targetModule)) else
          let fs := <[targetModule := newContent]> fs in
          match tidy fs targetModule with
          | None => (fs, inl (TidyFailed targetModule))
          | Some tidied => (<[targetModule := tidied]> fs, inr true)
          end
        else (fs, inr true)
  end.

(** [src/cmd/internal/module_bump.go:84-88 ModuleBump.DryRunApply] *)
Definition DryRunApply (m : ModuleBump) (fs : gomods) (targetModule : bytes) : bump_error + bool :=
  (bump_apply (λ _, false) (λ _ _, None) m fs targetModule true).2.
(** [src/cmd/internal/module_bump.go:78-82 ModuleBump.Apply] *)
Definition bump_Apply (writable : bytes → bool) (tidy : gomods → bytes → option bytes) (m : ModuleBump) (fs : gomods)
    (targetModule : bytes) : gomods * (bump_error + bool) := bump_apply writable tidy m fs targetModule false.

(** ** Changed modules *)

(** A file of a module, unless it belongs to a module below it.
    [src/cmd/internal/compute_module_bumps.go:110-128 ComputeModuleBumps] *)
Definition fileChanged (bumpables : list bytes) (taggable : bytes) (f : option bytes) : bool :=
  let prefix := taggable ++ str "/" in
  match f with
  | None => false
  | Some path =>
      if negb (HasPrefix path prefix) then false
      else negb (existsb (λ b, HasPrefix path (b ++ str "/") && HasPrefix b prefix) bumpables)
  end.

(** [src/cmd/internal/compute_module_bumps.go:79-144 ComputeModuleBumps] *)
Fixpoint changed_modules (repo : repository) (moduleLatest : gmap bytes Version) (releaseMode : bytes)
    (bumpables taggables : list bytes) (moduleBumps : list ModuleBump) : bump_error + list ModuleBump :=
  match taggables with
  | [] => inr moduleBumps
  | taggable :: taggables =>
      let next := changed_modules repo moduleLatest releaseMode bumpables taggables in
      match moduleLatest !! taggable with
      | None =>
          match NewModuleBumpForNewModule taggable with
          | inl e => inl e
          | inr bump => next (moduleBumps ++ [bump])
          end
      | Some latest =>
          let tag := taggable ++ str "/v" ++ Original latest in
          match rp_patch repo tag with
          | None => inl (NoPatch tag)
          | Some files =>
              if existsb (λ '(from, to), fileChanged bumpables taggable from || fileChanged bumpables taggable to) files
              then match NewModuleBump taggable latest releaseMode with
                   | inl e => inl e
                   | inr bump => next (moduleBumps ++ [bump])
                   end
              else next moduleBumps
          end
      end
  end.

(** The bump of a module that must follow.
    [src/cmd/internal/compute_module_bumps.go:176-190 ComputeModuleBumps] *)
Definition follow_bump (moduleLatest : gmap bytes Version) (releaseMode targetModule : bytes) : bump_error + ModuleBump :=
  match moduleLatest !! targetModule with
  | None => NewModuleBumpForNewModule targetModule
  | Some latest => NewModuleBump targetModule latest releaseMode
  end.

(** One bump against all modules; [mine] is [targetModules[i]].
    [src/cmd/internal/compute_module_bumps.go:152-195 ComputeModuleBumps] *)
Fixpoint targets_loop (fs : gomods) (moduleLatest : gmap bytes Version) (releaseMode : bytes) (taggables : list bytes)
    (bump : ModuleBump) (bumpables : list bytes) (moduleBumps : list ModuleBump) (mine : list bytes)
    : bump_error + (list ModuleBump * list bytes) :=
  match bumpables with
  | [] => inr (moduleBumps, mine)
  | targetModule :: bumpables =>
      let next := targets_loop fs moduleLatest releaseMode taggables bump bumpables in
      if beq targetModule (mb_module bump) then next moduleBumps mine
      else match DryRunApply bump fs targetModule with
           | inl e => inl e
           | inr false => next moduleBumps mine
           | inr true =>
               let mine := mine ++ [targetModule] in
               if negb (bool_decide (targetModule ∈ taggables)) then next moduleBumps mine
               else if existsb (λ b, beq targetModule (mb_module b)) moduleBumps then next moduleBumps mine
               else match follow_bump moduleLatest releaseMode targetModule with
                    | inl e => inl e
                    | inr newBump => next (moduleBumps ++ [newBump]) mine
                    end
           end
  end.

(** The loop over [moduleBumps], which grows; [targets] has an element for
    each bump that has been dealt with.  [None] is the end of the fuel.
    [src/cmd/internal/compute_module_bumps.go:148-200 ComputeModuleBumps] *)
Fixpoint grow_loop (fuel : nat) (fs : gomods) (moduleLatest : gmap bytes Version) (releaseMode : bytes)
    (taggables bumpables : list bytes) (moduleBumps : list ModuleBump) (targets : list (list bytes))
    : option (bump_error + (list ModuleBump * list (list bytes))) :=
  match fuel with
  | 0 => None
  | S fuel =>
      match moduleBumps !! length targets with
      | None => Some (inr (moduleBumps, targets))
      | Some bump =>
          match targets_loop fs moduleLatest releaseMode taggables bump bumpables moduleBumps [] with
          | inl e => Some (inl e)
          | inr (moduleBumps, mine) =>
              grow_loop fuel fs moduleLatest releaseMode taggables bumpables moduleBumps (targets ++ [mine])
          end
      end
  end.

(** ** The order of tags *)

Inductive bump_mark := unmarked | permanentMark | temporaryMark.

Definition bump_tag (b : ModuleBump) : bytes := mb_module b ++ str "/v" ++ mb_newVersion b.

(** Which bump is that of a module: the first one. *)
Fixpoint bump_of (moduleBumps : list ModuleBump) (module : bytes) : option nat :=
  match moduleBumps with
  | [] => None
  | b :: bs => if beq (mb_module b) module then Some 0 else S <$> bump_of bs module
  end.

(** [mark] and [tagsToPush]; a cycle panics, and [inl true] is the end of the
    fuel.
    [src/cmd/internal/compute_module_bumps.go:221-242 ComputeModuleBumps] *)
Fixpoint bump_dfs (fuel : nat) (moduleBumps : list ModuleBump) (targets : list (list bytes)) (i : nat)
    (st : list bump_mark * list bytes) : bool + (list bump_mark * list bytes) :=
  match fuel with
  | 0 => inl true
  | S fuel =>
      match st.1 !! i with
      | Some permanentMark => inr st
      | Some temporaryMark | None => inl false
      | Some unmarked =>
          let visit (r : bool + (list bump_mark * list bytes)) (targetModule : bytes) :=
            match r with
            | inl e => inl e
            | inr st => match bump_of moduleBumps targetModule with
                        | Some j => bump_dfs fuel moduleBumps targets j st
                        | None => inr st
                        end
            end in
          match foldl visit (inr (<[i := temporaryMark]> st.1, st.2)) (default [] (targets !! i)) with
          | inl e => inl e
          | inr (mark, tags) =>
              inr (<[i := permanentMark]> mark, tags ++ option_list (bump_tag <$> moduleBumps !! i))
          end
      end
  end.

(** [src/cmd/internal/compute_module_bumps.go:211-245 ComputeModuleBumps] *)
Definition push_order (moduleBumps : list ModuleBump) (targets : list (list bytes)) : bool + list bytes :=
  match foldl (λ r i, match r with
                      | inl e => inl e
                      | inr st => bump_dfs (S (length moduleBumps)) moduleBumps targets i st
                      end)
          (inr (replicate (length moduleBumps) unmarked, [])) (seq 0 (length moduleBumps)) with
  | inl e => inl e
  | inr (_, tags) => inr tags
  end.

(** [src/cmd/internal/module_bumps.go:27-44 ModuleBumps] *)
Record ModuleBumps_ := mkBumps {
  bumps : list ModuleBump; targetModules : list (list bytes);
  mustBumpInternalModules : bool; tagsToPush : list bytes }.

(** A result, a panic, or the end of the fuel of a loop. *)
Inductive compute_result := Computed (m : ModuleBumps_) | ComputeError (e : bump_error) | ComputePanic | ComputeNoFuel.

(** [src/cmd/internal/compute_module_bumps.go:29-253 ComputeModuleBumps] *)
Definition ComputeModuleBumps (ws : list walked) (repo : repository) (fs : gomods) : compute_result :=
  match EnumerateTaggableModules ws with
  | inl e => ComputeError (EnumerateFailed e)
  | inr taggables =>
      let bumpables := EnumerateBumpableModules taggables in
      match rp_branch repo with
      | None => ComputeError NotABranch
      | Some currentBranch =>
          let releaseMode := releaseModeFromBranch currentBranch in
          let moduleLatest := collectLatestReachableTags repo in
          match changed_modules repo moduleLatest releaseMode bumpables taggables [] with
          | inl e => ComputeError e
          | inr moduleBumps =>
              match grow_loop (S (length taggables)) fs moduleLatest releaseMode taggables bumpables moduleBumps [] with
              | None => ComputeNoFuel
              | Some (inl e) => ComputeError e
              | Some (inr (moduleBumps, targets)) =>
                  if existsb (λ l, 0 <? length l) targets
                  then Computed (mkBumps moduleBumps targets true [])
                  else match push_order moduleBumps targets with
                       | inl true => ComputeNoFuel
                       | inl false => ComputePanic
                       | inr tags => Computed (mkBumps moduleBumps targets false tags)
                       end
              end
          end
      end
  end.

(** ** Applying and pushing *)

(** [src/cmd/internal/module_bumps.go:74-77 ModuleBumps.MustPushTags] *)
Definition MustPushTags (m : ModuleBumps_) : bool := 0 <? length (tagsToPush m).

(** The pairs of a bump and a target, in the order of the loops.
    [src/cmd/internal/module_bumps.go:62-72 ModuleBumps.ApplyInternalBumps] *)
Fixpoint apply_pairs (writable : bytes → bool) (tidy : gomods → bytes → option bytes) (l : list (ModuleBump * bytes))
    (fs : gomods) : gomods * option bump_error :=
  match l with
  | [] => (fs, None)
  | (bump, target) :: l =>
      match bump_Apply writable tidy bump fs target with
      | (fs, inl e) => (fs, Some e)
      | (fs, inr _) => apply_pairs writable tidy l fs
      end
  end.
(** [src/cmd/internal/module_bumps.go:62-72 ModuleBumps.ApplyInternalBumps] *)
Definition ApplyInternalBumps (writable : bytes → bool) (tidy : gomods → bytes → option bytes) (m : ModuleBumps_)
    (fs : gomods) : gomods * option bump_error :=
  apply_pairs writable tidy (concat (zip_with (λ b l, pair b <$> l) (bumps m) (targetModules m))) fs.

(** The commands of git, with their errors. *)
Inductive git_cmd := GitTag (tag : bytes) | GitPush (tag : bytes).

(** [src/cmd/internal/module_bumps.go:86-103 ModuleBumps.PushTags] *)
Fixpoint PushTags (tags : list bytes) : prog git_cmd (option bytes) (option bytes) :=
  match tags with
  | [] => Ret None
  | tag :: tags =>
      Call (GitTag tag) (λ e,
      match e with
      | Some e => Ret (Some e)
      | None => Call (GitPush tag) (λ e, match e with Some e => Ret (Some e) | None => PushTags tags end)
      end)
  end.
End bumps.

(** ** What the computation guarantees *)

Section bumps_theory.
Context {Ver : Semver} {Sort : SortFunc}.
Context (IncMinor IncPatch : Version → bytes) (zeroVersion : Version).
Context (Compile : bytes → bool) (MatchString : bytes → bytes → bool) (ReplaceAll : bytes → bytes → bytes → bytes).
Implicit Types (b : ModuleBump) (bs : list ModuleBump) (l taggables bumpables : list bytes) (latest : gmap bytes Version).
Local Abbreviation NewModuleBump := (NewModuleBump IncMinor IncPatch Compile).
Local Abbreviation DryRunApply := (DryRunApply MatchString ReplaceAll).
Local Abbreviation follow_bump := (follow_bump IncMinor IncPatch zeroVersion Compile).
Local Abbreviation targets_loop := (targets_loop IncMinor IncPatch zeroVersion Compile MatchString ReplaceAll).
Local Abbreviation grow_loop := (grow_loop IncMinor IncPatch zeroVersion Compile MatchString ReplaceAll).
Local Abbreviation changed_modules := (changed_modules IncMinor IncPatch zeroVersion Compile).

Lemma NewModuleBump_module m v mode b : NewModuleBump m v mode = inr b → mb_module b = m.
Proof. unfold ModuleBumps.NewModuleBump. repeat case_match; intros; by simplify_eq. Qed.

Lemma follow_bump_module latest mode m b : follow_bump latest mode m = inr b → mb_module b = m.
Proof. unfold ModuleBumps.follow_bump. case_match; [apply NewModuleBump_module|]. apply NewModuleBump_module. Qed.

(** At most one bump for a module, and only for modules that are tagged. *)
Definition bumps_ok taggables bs : Prop :=
  NoDup (mb_module <$> bs) ∧ ∀ m, m ∈ mb_module <$> bs → m ∈ taggables.

Lemma bumps_ok_length taggables bs : bumps_ok taggables bs → length bs ≤ length taggables.
Proof.
  intros [Hnd Hsub]. rewrite <-(length_fmap mb_module). by apply submseteq_length, NoDup_submseteq.
Qed.

Lemma bumps_ok_snoc taggables bs b :
  bumps_ok taggables bs → mb_module b ∈ taggables → mb_module b ∉ mb_module <$> bs → bumps_ok taggables (bs ++ [b]).
Proof.
  intros [Hnd Hsub] Ht Hn. unfold bumps_ok. rewrite fmap_app. simpl. split; [|set_solver].
  apply NoDup_app. split_and!; [done|set_solver|apply NoDup_singleton].
Qed.

(** The modules that need the new version of a bump. *)
Definition needs (fs : gomods) b (t : bytes) : bool :=
  negb (beq t (mb_module b)) && match DryRunApply b fs t with inr true => true | _ => false end.

Lemma existsb_module t bs : existsb (λ b, beq t (mb_module b)) bs = bool_decide (t ∈ mb_module <$> bs).
Proof.
  induction bs as [|b bs IH]; simpl; [done|]. rewrite IH. unfold beq.
  rewrite <-bool_decide_or. apply bool_decide_ext. set_solver.
Qed.

Lemma targets_loop_spec fs latest mode taggables b bumpables bs mine bs' mine' :
  bumps_ok taggables bs →
  targets_loop fs latest mode taggables b bumpables bs mine = inr (bs', mine') →
  bumps_ok taggables bs' ∧ bs `prefix_of` bs' ∧
  mine' = mine ++ filter (λ t, needs fs b t = true) bumpables ∧
  ∀ t, t ∈ bumpables → needs fs b t = true → t ∈ taggables → t ∈ mb_module <$> bs'.
Proof.
  revert bs mine. induction bumpables as [|t bumpables IH]; intros bs mine Hok Hr; cbn [ModuleBumps.targets_loop] in Hr.
  { injection Hr as <- <-. rewrite filter_nil, app_nil_r. split_and!; [done|done|done|by intros t ?%not_elem_of_nil]. }
  assert (∀ bs1 mine1, targets_loop fs latest mode taggables b bumpables bs1 mine1 = inr (bs', mine') →
    bumps_ok taggables bs1 → bs `prefix_of` bs1 → mine1 = mine ++ (if needs fs b t then [t] else []) →
    (needs fs b t = true → t ∈ taggables → t ∈ mb_module <$> bs1) →
    bumps_ok taggables bs' ∧ bs `prefix_of` bs' ∧
    mine' = mine ++ filter (λ t, needs fs b t = true) (t :: bumpables) ∧
    ∀ t', t' ∈ t :: bumpables → needs fs b t' = true → t' ∈ taggables → t' ∈ mb_module <$> bs') as Hnext.
  { intros bs1 mine1 H1 Hok1 Hp Hmine Ht. apply IH in H1 as (Hok' & Hp' & -> & Hc); [|done].
    split_and!; [done|by etrans| |].
    - rewrite Hmine, <-app_assoc. f_equal. destruct (needs fs b t) eqn:En.
      + by rewrite filter_cons_True.
      + by rewrite filter_cons_False by by rewrite En.
    - intros t' [->|Hin]%elem_of_cons Hn Htag; [|by apply Hc]. destruct Hp' as [k ->]. rewrite fmap_app. set_solver. }
  unfold needs in Hnext at 1 2. destruct (beq t (mb_module b)); simpl in *.
  { eapply Hnext; [exact Hr|done|done|by rewrite app_nil_r|done]. }
  destruct (DryRunApply b fs t) as [e|[]]; simpl in *; [done| |].
  2: { eapply Hnext; [exact Hr|done|done|by rewrite app_nil_r|done]. }
  case_bool_decide as Htag; simpl in Hr; [|by eapply Hnext; [exact Hr|done|done|done|]].
  rewrite existsb_module in Hr. case_bool_decide as Hin; [by eapply Hnext; [exact Hr|done|done|done|]|].
  destruct (follow_bump latest mode t) as [e|nb] eqn:Ef; [done|]. apply follow_bump_module in Ef.
  eapply Hnext; [exact Hr| |by apply prefix_app_r|done|].
  - apply bumps_ok_snoc; [done|by rewrite Ef|by rewrite Ef].
  - intros _ _. rewrite fmap_app. set_solver.
Qed.

(** The state of the outer loop: the bumps dealt with have their targets, and
    the tagged ones among these have a bump. *)
Definition grown (fs : gomods) taggables bumpables bs (targets : list (list bytes)) : Prop :=
  length targets ≤ length bs ∧
  ∀ i b l, bs !! i = Some b → targets !! i = Some l →
    l = filter (λ t, needs fs b t = true) bumpables ∧ ∀ t, t ∈ l → t ∈ taggables → t ∈ mb_module <$> bs.

Lemma grow_loop_spec fuel fs latest mode taggables bumpables bs targets :
  bumps_ok taggables bs → grown fs taggables bumpables bs targets →
  length taggables < fuel + length targets →
  match grow_loop fuel fs latest mode taggables bumpables bs targets with
  | None => False
  | Some (inl _) => True
  | Some (inr (bs', targets')) =>
      bumps_ok taggables bs' ∧ bs `prefix_of` bs' ∧ length targets' = length bs' ∧
      grown fs taggables bumpables bs' targets'
  end.
Proof.
  revert bs targets. induction fuel as [|fuel IH]; intros bs targets Hok [Hlen Hg] Hfuel; cbn [ModuleBumps.grow_loop].
  { pose proof (bumps_ok_length _ _ Hok). lia. }
  destruct (bs !! length targets) as [b|] eqn:Eb.
  2: { apply lookup_ge_None in Eb. split_and!; [done|done|lia|by split]. }
  destruct (targets_loop _ _ _ _ _ _ _ _) as [e|[bs1 mine]] eqn:Et; [done|].
  apply targets_loop_spec in Et as (Hok1 & [k ->] & -> & Hc); [|done]. apply lookup_lt_Some in Eb as Hlt.
  assert (grown fs taggables bumpables (bs ++ k) (targets ++ [[] ++ filter (λ t, needs fs b t = true) bumpables])) as Hg1.
  { split; [rewrite !length_app; simpl; lia|]. intros i b' l Hb Hl. apply lookup_app_Some in Hl as [Hl|[Hi Hl]].
    - rewrite lookup_app_l in Hb by (apply lookup_lt_Some in Hl; lia). destruct (Hg i b' l Hb Hl) as [-> Ht].
      split; [done|]. intros t Hin Htag. rewrite fmap_app. apply elem_of_app. left. by apply Ht.
    - apply list_lookup_singleton_Some in Hl as [Hi' <-]. assert (i = length targets) as -> by lia.
      rewrite lookup_app_l in Hb by lia. simplify_eq. split; [done|].
      intros t [Hn Hin]%list_elem_of_filter Htag. by apply Hc. }
  specialize (IH _ _ Hok1 Hg1 ltac:(rewrite length_app; simpl; lia)).
  destruct (grow_loop _ _ _ _ _ _ _ _) as [[e|[bs' targets']]|]; [done| |done].
  destruct IH as (? & Hp & ? & ?). split_and!; [done| |done|done]. etrans; [|exact Hp]. by apply prefix_app_r.
Qed.

(** A module that is new, or with a change of its own since its last tag. *)
Definition changed (repo : repository) latest bumpables (m : bytes) : bool :=
  match latest !! m with
  | None => true
  | Some v => match rp_patch repo (m ++ str "/v" ++ Original v) with
              | None => false
              | Some files => existsb (λ '(from, to), fileChanged bumpables m from || fileChanged bumpables m to) files
              end
  end.

Lemma changed_modules_spec repo latest mode bumpables taggables bs bs' :
  changed_modules repo latest mode bumpables taggables bs = inr bs' →
  mb_module <$> bs' = (mb_module <$> bs) ++ filter (λ m, changed repo latest bumpables m = true) taggables.
Proof.
  revert bs. induction taggables as [|m taggables IH]; intros bs; cbn [ModuleBumps.changed_modules].
  { intros [= <-]. by rewrite app_nil_r. }
  destruct (changed repo latest bumpables m) eqn:Ec.
  - rewrite filter_cons_True by done. unfold changed in Ec.
    assert (∀ b, mb_module b = m → changed_modules repo latest mode bumpables taggables (bs ++ [b]) = inr bs' →
      mb_module <$> bs' = (mb_module <$> bs) ++ m :: filter (λ m, changed repo latest bumpables m = true) taggables) as Hn.
    { intros b <- Hb. rewrite (IH _ Hb), fmap_app, <-app_assoc. done. }
    destruct (latest !! m) as [v|].
    + destruct (rp_patch repo _) as [files|]; [|done]. rewrite Ec.
      destruct (NewModuleBump m v mode) as [e|b] eqn:Eb; [done|]. apply Hn. by eapply NewModuleBump_module.
    + destruct (NewModuleBumpForNewModule _ _ _ _ m) as [e|b] eqn:Eb; [done|]. apply Hn. by eapply NewModuleBump_module.
  - rewrite filter_cons_False by by rewrite Ec. unfold changed in Ec. destruct (latest !! m) as [v|]; [|done].
    destruct (rp_patch repo _) as [files|]; [|done]. rewrite Ec. apply IH.
Qed.

(** Without targets the depth-first search appends one tag after the other. *)
Lemma push_order_plain bs (targets : list (list bytes)) :
  Forall (λ l, l = []) targets → push_order bs targets = inr (bump_tag <$> bs).
Proof.
  intros Ht. unfold push_order. set (n := length bs).
  set (step := λ (r : bool + (list bump_mark * list bytes)) i, match r with inl e => inl e | inr st => bump_dfs (S n) bs targets i st end).
  assert (∀ k, k ≤ n → foldl step (inr (replicate n unmarked, [])) (seq 0 k) =
    inr (replicate k permanentMark ++ replicate (n - k) unmarked, bump_tag <$> take k bs)) as Hk.
  { induction k as [|k IH]; intros Hk; [by rewrite Nat.sub_0_r|].
    rewrite seq_S, foldl_snoc, IH by lia. unfold step. cbn [bump_dfs fst snd]. simpl (0 + k).
    assert (n - k = S (n - S k)) as -> by lia. cbn [replicate].
    rewrite lookup_app_r by (rewrite length_replicate; lia). rewrite length_replicate, Nat.sub_diag. simpl.
    assert (default [] (targets !! k) = []) as ->.
    { destruct (targets !! k) as [l|] eqn:El; [|done]. simpl. by eapply (Forall_lookup_1 _ _ _ _ Ht El). }
    simpl. destruct (lookup_lt_is_Some_2 bs k ltac:(lia)) as [b Hb]. rewrite Hb. simpl.
    rewrite list_insert_insert_eq, insert_app_r_alt by (rewrite length_replicate; lia).
    rewrite length_replicate, Nat.sub_diag. simpl. rewrite (take_S_r _ _ _ Hb), fmap_app. do 2 f_equal.
    trans ((replicate k permanentMark ++ [permanentMark]) ++ replicate (n - S k) unmarked);
      [by rewrite <-app_assoc|by rewrite <-replicate_S_end]. }
  rewrite (Hk n ltac:(lia)). by rewrite firstn_all2 by done.
Qed.

Lemma taggable_walk_elems ws acc l :
  taggable_walk ws acc = inr l → ∃ ws', sublist ws' ws ∧ l = acc ++ (wk_path <$> ws').
Proof.
  revert acc. induction ws as [|w ws IH]; intros acc; cbn [taggable_walk].
  { intros [= <-]. exists []. split; [constructor|]. by rewrite app_nil_r. }
  assert (taggable_walk ws acc = inr l → ∃ ws', sublist ws' (w :: ws) ∧ l = acc ++ (wk_path <$> ws')) as Hskip.
  { intros (ws' & Hs & ->)%IH. exists ws'. split; [by constructor|done]. }
  destruct (wk_err w); [done|]. destruct (wk_isDir w); simpl; [|done]. destruct (nonTaggable _); [done|].
  destruct (wk_gomod w); [done..|]. intros (ws' & Hs & ->)%IH. exists (w :: ws'). split; [by constructor|].
  cbn. by rewrite <-app_assoc.
Qed.

Lemma EnumerateTaggableModules_NoDup ws l :
  NoDup (wk_path <$> ws) → EnumerateTaggableModules ws = inr l → NoDup l.
Proof.
  intros Hnd. unfold EnumerateTaggableModules. destruct (taggable_walk ws []) as [e|l'] eqn:E; [done|]. intros [= <-].
  rewrite (sort_Slice_perm bytes_ltb l'). apply taggable_walk_elems in E as (ws' & Hs & ->).
  eapply (sublist_NoDup _ (wk_path <$> ws)); [exact Hnd|by apply (fmap_sublist wk_path)].
Qed.

(** C32. The release plan, when no directory is walked twice: the growing loop
    ends and the search for an order never finds a cycle; each module has at
    most one bump; every tagged module that is new or has changed has one, and
    so has every tagged module that requires a module with a bump; the targets
    of a bump are exactly the modules whose files it changes.  Tags are pushed
    only when there is no target at all, so the depth-first search follows no
    edge and the tags come in the plain order of the bumps. *)
Theorem ComputeModuleBumps_spec (ws : list walked) (repo : repository) (fs : gomods) :
  NoDup (wk_path <$> ws) →
  match ComputeModuleBumps IncMinor IncPatch zeroVersion Compile MatchString ReplaceAll ws repo fs with
  | Computed m => ∃ taggables, EnumerateTaggableModules ws = inr taggables ∧
      let bumpables := EnumerateBumpableModules taggables in
      let latest := collectLatestReachableTags repo in
      bumps_ok taggables (bumps m) ∧
      (∀ t, t ∈ taggables → changed repo latest bumpables t = true → t ∈ mb_module <$> bumps m) ∧
      length (targetModules m) = length (bumps m) ∧ grown fs taggables bumpables (bumps m) (targetModules m) ∧
      if mustBumpInternalModules m then tagsToPush m = []
      else Forall (λ l, l = []) (targetModules m) ∧ tagsToPush m = bump_tag <$> bumps m
  | ComputeError _ => True
  | ComputePanic | ComputeNoFuel => False
  end.
Proof.
  intros Hnd. unfold ComputeModuleBumps. destruct (EnumerateTaggableModules ws) as [e|taggables] eqn:Et; [done|].
  pose proof (EnumerateTaggableModules_NoDup _ _ Hnd Et) as Htag.
  destruct (rp_branch repo) as [branch|]; [|done]. set (bumpables := EnumerateBumpableModules taggables).
  set (latest := collectLatestReachableTags repo). set (mode := releaseModeFromBranch branch).
  destruct (changed_modules repo latest mode bumpables taggables []) as [e|bs] eqn:Ec; [done|].
  apply changed_modules_spec in Ec. simpl in Ec.
  assert (bumps_ok taggables bs) as Hok.
  { unfold bumps_ok. rewrite Ec. split; [by apply NoDup_filter|]. by intros m [_ ?]%list_elem_of_filter. }
  pose proof (grow_loop_spec (S (length taggables)) fs latest mode taggables bumpables bs [] Hok) as Hgrow.
  destruct (grow_loop _ _ _ _ _ _ _ _) as [[e|[bs' targets]]|]; [done| |apply Hgrow; [by split; [simpl; lia|]|simpl; lia]].
  destruct Hgrow as (Hok' & [k ->] & Hlen & Hg); [by split; [simpl; lia|]|simpl; lia|].
  assert (∀ t, t ∈ taggables → changed repo latest bumpables t = true → t ∈ mb_module <$> bs ++ k) as Hall.
  { intros t Hin Hch. rewrite fmap_app, Ec. apply elem_of_app. left. by apply list_elem_of_filter. }
  destruct (existsb _ targets) eqn:Ex.
  { exists taggables. by split_and!. }
  assert (Forall (λ l, l = []) targets) as Hempty.
  { apply Forall_forall. intros l Hl. destruct l as [|x l]; [done|]. rewrite <-not_true_iff_false in Ex. destruct Ex.
    apply existsb_exists. exists (x :: l). split; [by apply list_elem_of_In|done]. }
  rewrite push_order_plain by done. exists taggables. by split_and!.
Qed.
End bumps_theory.

(** ** Concrete inputs *)

#[local] Instance demo_semver : Semver := {| Version := bytes; NewVersion b := Some b; LessThan := bytes_ltb; Original v := v |}.

Definition demo_walked : list walked :=
  [mkWalked (str ".") None true NoGoMod; mkWalked (str "a") None true HasGoMod; mkWalked (str "a/go.mod") None false NoGoMod;
   mkWalked (str "b") None true HasGoMod; mkWalked (str "cmd") None true HasGoMod].
Definition demo_repo : repository :=
  mkRepo (Some (str "main")) [str "c1"] [mkTag (str "a/v0.1.0") (str "t1") (Some (str "c1")); mkTag (str "b/v0.2.0") (str "c1") None]
    (λ tag, Some (if beq tag (str "a/v0.1.0") then [(None, Some (str "a/x.go"))] else [])).
Definition demo_gomods : gomods :=
  list_to_map [(str "a", []); (str "b", str "github.com/fluxcd/pkg/a v0.1.0"); (str "git/internal/e2e", []); (str "tests/integration", [])].
Definition demo_compute : compute_result :=
  ComputeModuleBumps (λ v, v ++ str "+") (λ v, v ++ str "~") (str "0.0.0") (λ _, true)
    (λ re c, strings_Contains c (str "pkg/a ") && strings_Contains re (str "pkg/a ")) (λ _ _ new, new)
    demo_walked demo_repo demo_gomods.

Lemma ComputeModuleBumps_spec_witness :
  ∃ m taggables, demo_compute = Computed m ∧ (mb_module <$> bumps m) = [str "a"; str "b"] ∧
    targetModules m = [[str "b"]; []] ∧
    EnumerateTaggableModules demo_walked = inr taggables ∧
    bumps_ok taggables (bumps m).
Proof.
  assert (match demo_compute with
          | Computed m => (mb_module <$> bumps m) = [str "a"; str "b"] ∧ targetModules m = [[str "b"]; []]
          | _ => False
          end) as E by by vm_compute.
  assert (NoDup (wk_path <$> demo_walked)) as Hnd by (apply (bool_decide_unpack _); by vm_compute).
  pose proof (ComputeModuleBumps_spec (λ v, v ++ str "+") (λ v, v ++ str "~") (str "0.0.0") (λ _, true)
    (λ re c, strings_Contains c (str "pkg/a ") && strings_Contains re (str "pkg/a ")) (λ _ _ new, new)
    demo_walked demo_repo demo_gomods Hnd) as Hs.
  change (ComputeModuleBumps _ _ _ _ _ _ demo_walked demo_repo demo_gomods) with demo_compute in Hs.
  revert E Hs. destruct demo_compute as [m| | |]; [|by intros []..]. intros [E1 E2] (taggables & Ht & Hok & _).
  exists m, taggables. by split_and!.
Defined.
