(* ===== verification/Secrets.v ===== *)
(** * Credentials in secrets ([runtime/secrets])

    Secrets are made from credentials, applied to the cluster, read back and
    converted to credentials.  TLS key pairs and certificate pools, URLs, the
    JSON encoder and the errors of the API server are parameters; log messages
    are left out.  A nil map is the empty one. *)

From S2P Require Import Prelude Utf8 GoPath GoText Interaction.

Abbreviation sdata := (gmap bytes bytes) (only parsing).

(** ** Keys ([secrets.go]) *)

(** [src/runtime/secrets/secrets.go:28-76 constants] *)
Definition KeyTLSCert := str "tls.crt".
Definition KeyTLSPrivateKey := str "tls.key".
Definition KeyCACert := str "ca.crt".
Definition LegacyKeyTLSCert := str "certFile".
Definition LegacyKeyTLSPrivateKey := str "keyFile".
Definition LegacyKeyCACert := str "caFile".
Definition KeyUsername := str "username".
Definition KeyPassword := str "password".
Definition KeyAddress := str "address".
Definition KeyBearerToken := str "bearerToken".
Definition KeyToken := str "token".
Definition KeyGitHubAppID := str "githubAppID".
Definition KeyGitHubAppInstallationOwner := str "githubAppInstallationOwner".
Definition KeyGitHubAppInstallationID := str "githubAppInstallationID".
Definition KeyGitHubAppPrivateKey := str "githubAppPrivateKey".
Definition KeyGitHubAppBaseURL := str "githubAppBaseURL".
Definition KeySSHPrivateKey := str "identity".
Definition KeySSHPublicKey := str "identity.pub".
Definition KeySSHKnownHosts := str "known_hosts".
Definition MaxProxyURLLength : Z := 2048.
Definition supportedProxySchemes : list bytes := [str "http"; str "https"; str "socks5"].

(** [corev1.SecretType] and the key of Docker's configuration. *)
Definition SecretTypeOpaque := str "Opaque".
Definition SecretTypeTLS := str "kubernetes.io/tls".
Definition SecretTypeBasicAuth := str "kubernetes.io/basic-auth".
Definition SecretTypeDockerConfigJson := str "kubernetes.io/dockerconfigjson".
Definition DockerConfigJsonKey := str ".dockerconfigjson".

(** What the package uses of [corev1.Secret]. *)
Record Secret := mkSecret {
  sec_Name : bytes; sec_Namespace : bytes;
  sec_Labels : sdata; sec_Annotations : sdata; sec_Immutable : option bool;
  sec_Type : bytes; sec_Data : sdata; sec_StringData : sdata }.

(** [types.NamespacedName] *)
Record NamespacedName := mkNN { nn_Namespace : bytes; nn_Name : bytes }.
Definition ObjectKeyFromObject (s : Secret) : NamespacedName := mkNN (sec_Namespace s) (sec_Name s).

(** ** Errors ([error.go]) *)

(** [src/runtime/secrets/error.go:50-60 TLSValidationErrorType] *)
Inductive TLSValidationErrorType := ErrMissingPrivateKey | ErrMissingCertificate | ErrNoCertificatePairOrCA.

(** The errors, by their types and messages.
    [src/runtime/secrets/error.go:32-113 errors] *)
Inductive sec_err (E : Type) :=
  | KeyNotFoundError (key : bytes)
  | TLSValidationError (t : TLSValidationErrorType)
  | SecretTLSValidationError (t : TLSValidationErrorType)
  | BasicAuthMalformedError (present missing : bytes)
  | GitHubInstallationErr
  | KeyPairErr (e : E) | SystemPoolErr (e : E) | CAParseErr
  | ProxyEmpty | ProxyTooLong | ProxyParseErr (e : E) | ProxyScheme (s : bytes)
  | RequiredErr (field : bytes) | ProxyAddressErr (e : E) | MarshalErr (e : E)
  | SOPSNoKey | SOPSAgeEmpty | SOPSGpgEmpty
  | SecretNotFound (ref : NamespacedName) | SecretGetErr (ref : NamespacedName) (e : E)
  | SANotFound (ref : NamespacedName) | SAGetErr (ref : NamespacedName) (e : E)
  | PullSecretErr (e : sec_err E)
  | ApplyGetErr (e : E) | ApplyDeleteErr (e : E) | ApplyPatchErr (e : E).
Arguments KeyNotFoundError {E}.
Arguments TLSValidationError {E}.
Arguments SecretTLSValidationError {E}.
Arguments BasicAuthMalformedError {E}.
Arguments GitHubInstallationErr {E}.
Arguments KeyPairErr {E}.
Arguments SystemPoolErr {E}.
Arguments CAParseErr {E}.
Arguments ProxyEmpty {E}.
Arguments ProxyTooLong {E}.
Arguments ProxyParseErr {E}.
Arguments ProxyScheme {E}.
Arguments RequiredErr {E}.
Arguments ProxyAddressErr {E}.
Arguments MarshalErr {E}.
Arguments SOPSNoKey {E}.
Arguments SOPSAgeEmpty {E}.
Arguments SOPSGpgEmpty {E}.
Arguments SecretNotFound {E}.
Arguments SecretGetErr {E}.
Arguments SANotFound {E}.
Arguments SAGetErr {E}.
Arguments PullSecretErr {E}.
Arguments ApplyGetErr {E}.
Arguments ApplyDeleteErr {E}.
Arguments ApplyPatchErr {E}.

(** [errors.Is(err, ErrKeyNotFound)].
    [src/runtime/secrets/error.go:42-44 KeyNotFoundError.Is] *)
Definition isKeyNotFound {E} (e : sec_err E) : bool :=
  match e with KeyNotFoundError _ => true | _ => false end.
(** [errors.As(err, &tlsErr)]; the wrapper unwraps to the error inside.
    [src/runtime/secrets/error.go:97-99 SecretTLSValidationError.Unwrap] *)
Definition asTLSValidation {E} (e : sec_err E) : option TLSValidationErrorType :=
  match e with TLSValidationError t | SecretTLSValidationError t => Some t | _ => None end.

(** ** Libraries *)

(** TLS certificates and pools, URLs and Docker's configuration. *)
Class SecretLibs (E Cert Pool URL : Type) := {
  X509KeyPair : bytes → bytes → E + Cert;
  SystemCertPool : E + Pool;
  NewCertPool : Pool;
  (** [AppendCertsFromPEM]: the pool with the certificates, if any was found *)
  AppendCertsFromPEM : Pool → bytes → option Pool;
  url_Parse : bytes → E + URL;
  url_Scheme : URL → bytes;
  url_withUser : URL → bytes → option bytes → URL;
  (** [json.MarshalIndent] of a [dockerConfig] with one server, user name,
      password and auth *)
  MarshalDockerConfig : bytes → bytes → bytes → bytes → E + bytes;
  apiIsNotFound : E → bool }.

(** [src/runtime/secrets/secrets.go:231-235 BasicAuth] *)
Record BasicAuth := mkBasicAuth { ba_Username : bytes; ba_Password : bytes }.
(** [src/runtime/secrets/secrets.go:246-252 SSHAuth] *)
Record SSHAuth := mkSSHAuth { ssh_PrivateKey : bytes; ssh_PublicKey : bytes; ssh_KnownHosts : bytes; ssh_Password : bytes }.
(** [tls.Config]: the fields the package sets. *)
Record TlsConfig (Cert Pool : Type) := mkTlsConfig { Certificates : list Cert; RootCAs : option Pool }.
Arguments mkTlsConfig {Cert Pool}.
Arguments Certificates {Cert Pool}.
Arguments RootCAs {Cert Pool}.

(** [src/runtime/secrets/secrets.go:83-91 AuthMethods] *)
Record AuthMethods (Cert Pool : Type) := mkAuthMethods {
  am_Basic : option BasicAuth; am_Bearer : bytes; am_Token : bytes; am_SSH : option SSHAuth;
  am_GitHubAppData : sdata; am_TLS : option (TlsConfig Cert Pool) }.
Arguments mkAuthMethods {Cert Pool}.
Arguments am_Basic {Cert Pool}.
Arguments am_Bearer {Cert Pool}.
Arguments am_Token {Cert Pool}.
Arguments am_SSH {Cert Pool}.
Arguments am_GitHubAppData {Cert Pool}.
Arguments am_TLS {Cert Pool}.

Section methods.
Context {Cert Pool : Type}.
Implicit Types am : AuthMethods Cert Pool.
(** [src/runtime/secrets/secrets.go:93-96 AuthMethods.HasBasicAuth] *)
Definition HasBasicAuth am : bool := bool_decide (is_Some (am_Basic am)).
(** [src/runtime/secrets/secrets.go:98-101 AuthMethods.HasBearerAuth] *)
Definition HasBearerAuth am : bool := negb (bool_decide (am_Bearer am = [])).
(** [src/runtime/secrets/secrets.go:103-106 AuthMethods.HasTokenAuth] *)
Definition HasTokenAuth am : bool := negb (bool_decide (am_Token am = [])).
(** [src/runtime/secrets/secrets.go:108-111 AuthMethods.HasSSH] *)
Definition HasSSH am : bool := bool_decide (is_Some (am_SSH am)).
(** [src/runtime/secrets/secrets.go:113-116 AuthMethods.HasGitHubAppData] *)
Definition HasGitHubAppData am : bool := 0 <? size (am_GitHubAppData am).
(** [src/runtime/secrets/secrets.go:118-121 AuthMethods.HasTLS] *)
Definition HasTLS am : bool := match am_TLS am with Some _ => true | None => false end.
End methods.

Section secrets.
Context {E Cert Pool URL : Type} `{SecretLibs E Cert Pool URL}.
Let err := sec_err E.

(** ** TLS data *)

(** [src/runtime/secrets/secrets.go:143-148 tlsCertificateData] *)
Record tlsCertificateData := mkTlsData { t_cert : bytes; t_key : bytes; t_caCert : bytes }.

(** [src/runtime/secrets/secrets.go:254-270 getSecretData] *)
Definition getSecretData (secret : Secret) (key fallbackKey : bytes) : bytes :=
  match sec_Data secret !! key with
  | Some data => data
  | None => match sec_Data secret !! fallbackKey with Some data => data | None => [] end
  end.

Definition nonempty (b : bytes) : bool := 0 <? length b.

(** [src/runtime/secrets/secrets.go:165-182 tlsCertificateData.validate] *)
Definition tls_validate (t : tlsCertificateData) : option err :=
  let hasCert := nonempty (t_cert t) in
  let hasKey := nonempty (t_key t) in
  let hasCA := nonempty (t_caCert t) in
  if negb (eqb hasCert hasKey) then
    if hasCert then Some (TLSValidationError ErrMissingPrivateKey) else Some (TLSValidationError ErrMissingCertificate)
  else if negb hasCert && negb hasCA then Some (TLSValidationError ErrNoCertificatePairOrCA)
  else None.

(** [src/runtime/secrets/secrets.go:150-163 newTLSCertificateData] *)
Definition newTLSCertificateData (secret : Secret) : err + tlsCertificateData :=
  let data := mkTlsData (getSecretData secret KeyTLSCert LegacyKeyTLSCert)
                        (getSecretData secret KeyTLSPrivateKey LegacyKeyTLSPrivateKey)
                        (getSecretData secret KeyCACert LegacyKeyCACert) in
  match tls_validate data with Some e => inl e | None => inr data end.

(** [src/runtime/secrets/secrets.go:184-186 tlsCertificateData.hasCertPair] *)
Definition hasCertPair (t : tlsCertificateData) : bool := nonempty (t_cert t) && nonempty (t_key t).
(** [src/runtime/secrets/secrets.go:188-190 tlsCertificateData.hasCA] *)
Definition hasCA (t : tlsCertificateData) : bool := nonempty (t_caCert t).

(** [src/runtime/secrets/secrets.go:192-200 tlsCertificateData.validateCertificatePairIfPresent] *)
Definition validateCertificatePairIfPresent (t : tlsCertificateData) : option err :=
  if hasCertPair t then
    match X509KeyPair (t_cert t) (t_key t) with inl e => Some (KeyPairErr e) | inr _ => None end
  else None.

(** [src/runtime/secrets/factory.go:41-52 makeSecret] *)
Definition makeSecret (name namespace secretType : bytes) (stringData : sdata) : Secret :=
  mkSecret name namespace ∅ ∅ None secretType ∅ stringData.

(** [src/runtime/secrets/secrets.go:202-229 tlsCertificateData.toSecret] *)
Definition toSecret (t : tlsCertificateData) (name namespace : bytes) : Secret :=
  let '(secretData, secretType) :=
    if hasCertPair t
    then (<[KeyTLSPrivateKey := t_key t]> (<[KeyTLSCert := t_cert t]> (∅ : sdata)), SecretTypeTLS)
    else ((∅ : sdata), SecretTypeOpaque) in
  let secretData := if hasCA t then <[KeyCACert := t_caCert t]> secretData else secretData in
  makeSecret name namespace secretType secretData.

(** ** Secrets to credentials ([converter.go]) *)

(** [src/runtime/secrets/converter.go:352-386 buildTLSConfig] *)
Definition buildTLSConfig (certData : tlsCertificateData) (useSystemCertPool : bool) : err + TlsConfig Cert Pool :=
  match (if hasCertPair certData
         then match X509KeyPair (t_cert certData) (t_key certData) with
              | inl e => inl (KeyPairErr e)
              | inr cert => inr [cert]
              end
         else inr []) with
  | inl e => inl e
  | inr certs =>
      if hasCA certData then
        match (if useSystemCertPool then SystemCertPool else inr NewCertPool) with
        | inl e => inl (SystemPoolErr e)
        | inr caCertPool =>
            match AppendCertsFromPEM caCertPool (t_caCert certData) with
            | None => inl CAParseErr
            | Some pool => inr (mkTlsConfig certs (Some pool))
            end
        end
      else inr (mkTlsConfig certs None)
  end.

(** The options of the conversion: whether the system's pool is used.
    [src/runtime/secrets/converter.go:100-130 TLSConfigFromSecret] *)
Definition TLSConfigFromSecret (secret : Secret) (useSystemCertPool : bool) : err + TlsConfig Cert Pool :=
  match newTLSCertificateData secret with
  | inl e => inl (match asTLSValidation e with Some t => SecretTLSValidationError t | None => e end)
  | inr certData => buildTLSConfig certData useSystemCertPool
  end.

(** [src/runtime/secrets/converter.go:187-192 validateProxyURLString] *)
Definition validateProxyURLString (address : bytes) : option err :=
  if (MaxProxyURLLength <? Z.of_nat (length address))%Z then Some ProxyTooLong else None.
(** [src/runtime/secrets/converter.go:194-201 validateProxyURLStruct] *)
Definition validateProxyURLStruct (u : URL) : option err :=
  if negb (bool_decide (url_Scheme u ∈ supportedProxySchemes)) then Some (ProxyScheme (url_Scheme u)) else None.

(** [src/runtime/secrets/converter.go:170-185 parseProxyURL] *)
Definition parseProxyURL (address : bytes) : err + URL :=
  match validateProxyURLString address with
  | Some e => inl e
  | None =>
      match url_Parse address with
      | inl e => inl (ProxyParseErr e)
      | inr u => match validateProxyURLStruct u with Some e => inl e | None => inr u end
      end
  end.

(** [src/runtime/secrets/converter.go:132-168 ProxyURLFromSecret] *)
Definition ProxyURLFromSecret (secret : Secret) : err + URL :=
  match sec_Data secret !! KeyAddress with
  | None => inl (KeyNotFoundError KeyAddress)
  | Some address =>
      if bool_decide (address = []) then inl ProxyEmpty
      else match parseProxyURL address with
           | inl e => inl e
           | inr proxyURL =>
               inr (match sec_Data secret !! KeyUsername, sec_Data secret !! KeyPassword with
                    | Some username, Some password => url_withUser proxyURL username (Some password)
                    | Some username, None => url_withUser proxyURL username None
                    | None, _ => proxyURL
                    end)
           end
  end.

(** [src/runtime/secrets/converter.go:203-239 BasicAuthFromSecret] *)
Definition BasicAuthFromSecret (secret : Secret) : err + BasicAuth :=
  match sec_Data secret !! KeyUsername, sec_Data secret !! KeyPassword with
  | None, None => inl (KeyNotFoundError KeyUsername)
  | Some _, None => inl (BasicAuthMalformedError KeyUsername KeyPassword)
  | None, Some _ => inl (BasicAuthMalformedError KeyPassword KeyUsername)
  | Some u, Some p => inr (mkBasicAuth u p)
  end.

(** [src/runtime/secrets/converter.go:241-252 BearerAuthFromSecret] *)
Definition BearerAuthFromSecret (secret : Secret) : err + bytes :=
  match sec_Data secret !! KeyBearerToken with
  | None => inl (KeyNotFoundError KeyBearerToken)
  | Some tokenData => inr tokenData
  end.

(** [src/runtime/secrets/converter.go:254-265 TokenAuthFromSecret] *)
Definition TokenAuthFromSecret (secret : Secret) : err + bytes :=
  match sec_Data secret !! KeyToken with
  | None => inl (KeyNotFoundError KeyToken)
  | Some tokenData => inr tokenData
  end.

(** [src/runtime/secrets/converter.go:267-297 SSHAuthFromSecret] *)
Definition SSHAuthFromSecret (secret : Secret) : err + SSHAuth :=
  match sec_Data secret !! KeySSHPrivateKey with
  | None => inl (KeyNotFoundError KeySSHPrivateKey)
  | Some privateKeyData =>
      match sec_Data secret !! KeySSHKnownHosts with
      | None => inl (KeyNotFoundError KeySSHKnownHosts)
      | Some knownHostsData =>
          inr (mkSSHAuth privateKeyData (default [] (sec_Data secret !! KeySSHPublicKey)) knownHostsData
                 (default [] (sec_Data secret !! KeyPassword)))
      end
  end.

Definition has_key (secret : Secret) (k : bytes) : bool := bool_decide (is_Some (sec_Data secret !! k)).
(** [if v, exists := secret.Data[k]; exists { data[k] = v }] *)
Definition copy_key (secret : Secret) (k : bytes) (data : sdata) : sdata :=
  match sec_Data secret !! k with Some v => <[k := v]> data | None => data end.

(** [src/runtime/secrets/converter.go:299-346 GitHubAppDataFromSecret] *)
Definition GitHubAppDataFromSecret (secret : Secret) : err + sdata :=
  let hasAppID := has_key secret KeyGitHubAppID in
  let hasInstallationOwner := has_key secret KeyGitHubAppInstallationOwner in
  let hasInstallationID := has_key secret KeyGitHubAppInstallationID in
  let hasPrivateKey := has_key secret KeyGitHubAppPrivateKey in
  if negb hasAppID && negb hasInstallationOwner && negb hasInstallationID && negb hasPrivateKey
  then inl (KeyNotFoundError KeyGitHubAppID)
  else if negb hasAppID then inl (KeyNotFoundError KeyGitHubAppID)
  else if negb hasPrivateKey then inl (KeyNotFoundError KeyGitHubAppPrivateKey)
  else if eqb hasInstallationOwner hasInstallationID then inl GitHubInstallationErr
  else
    let data := copy_key secret KeyGitHubAppPrivateKey (copy_key secret KeyGitHubAppID ∅) in
    let data := copy_key secret KeyGitHubAppInstallationOwner data in
    let data := copy_key secret KeyGitHubAppInstallationID data in
    inr (copy_key secret KeyGitHubAppBaseURL data).

(** The target after the attempt, or the error.
    [src/runtime/secrets/converter.go:388-405 trySetAuth] *)
Definition trySetAuth {T} (target : T) (r : err + T) : err + T :=
  match r with
  | inr result => inr result
  | inl e => if isKeyNotFound e then inr target
             else match asTLSValidation e with Some _ => inr target | None => inl e end
  end.

(** [src/runtime/secrets/converter.go:45-98 AuthMethodsFromSecret] *)
Definition AuthMethodsFromSecret (secret : Secret) (useSystemCertPool : bool) : err + AuthMethods Cert Pool :=
  match trySetAuth None (sum_map id Some (BasicAuthFromSecret secret)) with
  | inl e => inl e
  | inr basic =>
  match trySetAuth [] (BearerAuthFromSecret secret) with
  | inl e => inl e
  | inr bearer =>
  match trySetAuth [] (TokenAuthFromSecret secret) with
  | inl e => inl e
  | inr token =>
  match trySetAuth None (sum_map id Some (SSHAuthFromSecret secret)) with
  | inl e => inl e
  | inr ssh =>
  match trySetAuth ∅ (GitHubAppDataFromSecret secret) with
  | inl e => inl e
  | inr github =>
  match trySetAuth None (sum_map id Some (TLSConfigFromSecret secret useSystemCertPool)) with
  | inl e => inl e
  | inr tls => inr (mkAuthMethods basic bearer token ssh github tls)
  end end end end end end.

(** ** Credentials to secrets ([factory.go]) *)

(** [src/runtime/secrets/factory.go:34-39 validateRequired] *)
Definition validateRequired (value fieldName : bytes) : option err :=
  if length value =? 0 then Some (RequiredErr fieldName) else None.

(** All the checks in order, then the result. *)
Fixpoint require {T} (checks : list (option err)) (r : err + T) : err + T :=
  match checks with
  | [] => r
  | Some e :: _ => inl e
  | None :: checks => require checks r
  end.

(** An option of [MakeTLSSecret].
    [src/runtime/secrets/factory.go:54-55 TLSSecretOption] *)
Definition TLSSecretOption : Type := tlsCertificateData → tlsCertificateData.
(** [src/runtime/secrets/factory.go:57-62 WithCAData] *)
Definition WithCAData (caData : bytes) : TLSSecretOption := λ d, mkTlsData (t_cert d) (t_key d) caData.
(** [src/runtime/secrets/factory.go:64-70 WithCertKeyPair] *)
Definition WithCertKeyPair (certData keyData : bytes) : TLSSecretOption :=
  λ d, mkTlsData certData keyData (t_caCert d).

(** [src/runtime/secrets/factory.go:72-91 MakeTLSSecret] *)
Definition MakeTLSSecret (name namespace : bytes) (opts : list TLSSecretOption) : err + Secret :=
  let data := foldl (λ d o, o d) (mkTlsData [] [] []) opts in
  require [tls_validate data; validateCertificatePairIfPresent data] (inr (toSecret data name namespace)).

(** [src/runtime/secrets/factory.go:93-109 MakeBasicAuthSecret] *)
Definition MakeBasicAuthSecret (name namespace username password : bytes) : err + Secret :=
  require [validateRequired username KeyUsername; validateRequired password KeyPassword]
    (inr (makeSecret name namespace SecretTypeBasicAuth (<[KeyUsername := username]> {[KeyPassword := password]}))).

(** [if v != "" { data[k] = v }] *)
Definition put_nonempty (k v : bytes) (data : sdata) : sdata :=
  if bool_decide (v = []) then data else <[k := v]> data.

(** [src/runtime/secrets/factory.go:111-137 MakeProxySecret] *)
Definition MakeProxySecret (name namespace address username password : bytes) : err + Secret :=
  require [validateRequired address KeyAddress]
    (match url_Parse address with
     | inl e => inl (ProxyAddressErr e)
     | inr _ =>
         inr (makeSecret name namespace SecretTypeOpaque
                (put_nonempty KeyPassword password (put_nonempty KeyUsername username {[KeyAddress := address]})))
     end).

(** [src/runtime/secrets/factory.go:139-151 MakeBearerTokenSecret] *)
Definition MakeBearerTokenSecret (name namespace token : bytes) : err + Secret :=
  require [validateRequired token KeyBearerToken]
    (inr (makeSecret name namespace SecretTypeOpaque {[KeyBearerToken := token]})).

(** [src/runtime/secrets/factory.go:153-166 MakeTokenSecret] *)
Definition MakeTokenSecret (name namespace token : bytes) : err + Secret :=
  require [validateRequired token KeyToken]
    (inr (makeSecret name namespace SecretTypeOpaque {[KeyToken := token]})).

(** [src/runtime/secrets/factory.go:168-215 MakeRegistrySecret] *)
Definition MakeRegistrySecret (name namespace server username password : bytes) : err + Secret :=
  require [validateRequired server (str "server"); validateRequired username (str "username");
           validateRequired password (str "password")]
    (let cred := username ++ str ":" ++ password in
     let auth := EncodeToString cred in
     match MarshalDockerConfig server username password auth with
     | inl e => inl (MarshalErr e)
     | inr configData => inr (makeSecret name namespace SecretTypeDockerConfigJson {[DockerConfigJsonKey := configData]})
     end).

(** An option of [MakeGitHubAppSecret].
    [src/runtime/secrets/factory.go:217-218 GitHubAppOption] *)
Definition GitHubAppOption : Type := sdata → sdata.
Definition run_github_option (d : sdata) (o : GitHubAppOption) : sdata := o d.
(** [src/runtime/secrets/factory.go:220-225 WithGitHubAppInstallationOwner] *)
Definition WithGitHubAppInstallationOwner (owner : bytes) : GitHubAppOption := <[KeyGitHubAppInstallationOwner := owner]>.
(** [src/runtime/secrets/factory.go:227-232 WithGitHubAppInstallationID] *)
Definition WithGitHubAppInstallationID (id : bytes) : GitHubAppOption := <[KeyGitHubAppInstallationID := id]>.
(** [src/runtime/secrets/factory.go:234-239 WithGitHubAppBaseURL] *)
Definition WithGitHubAppBaseURL (baseURL : bytes) : GitHubAppOption := <[KeyGitHubAppBaseURL := baseURL]>.

(** [src/runtime/secrets/factory.go:241-274 MakeGitHubAppSecret] *)
Definition MakeGitHubAppSecret (name namespace appID privateKey : bytes) (opts : list GitHubAppOption) : err + Secret :=
  require [validateRequired appID KeyGitHubAppID; validateRequired privateKey KeyGitHubAppPrivateKey]
    (let data := foldl run_github_option (<[KeyGitHubAppID := appID]> {[KeyGitHubAppPrivateKey := privateKey]}) opts in
     if eqb (bool_decide (is_Some (data !! KeyGitHubAppInstallationOwner)))
            (bool_decide (is_Some (data !! KeyGitHubAppInstallationID)))
     then inl GitHubInstallationErr
     else inr (makeSecret name namespace SecretTypeOpaque data)).

(** [src/runtime/secrets/factory.go:276-302 MakeSSHSecret] *)
Definition MakeSSHSecret (name namespace privateKey publicKey knownHosts password : bytes) : err + Secret :=
  require [validateRequired privateKey KeySSHPrivateKey; validateRequired knownHosts KeySSHKnownHosts]
    (inr (makeSecret name namespace SecretTypeOpaque
      (put_nonempty KeyPassword password (put_nonempty KeySSHPublicKey publicKey
        (<[KeySSHPrivateKey := privateKey]> {[KeySSHKnownHosts := knownHosts]}))))).

(** [adler32.Checksum] *)
Definition adler_step (s : Z * Z) (c : ascii) : Z * Z :=
  let a := ((s.1 + bval c) mod 65521)%Z in (a, ((s.2 + a) mod 65521)%Z).
Definition adler32 (b : bytes) : Z := let '(a, b) := foldl adler_step (1, 0)%Z b in (b * 65536 + a)%Z.

(** [src/runtime/secrets/factory.go:316-330 MakeSOPSSecret] *)
Fixpoint sops_loop (keys : list bytes) (suffix : bytes) (empty : err) (data : sdata) : err + sdata :=
  match keys with
  | [] => inr data
  | k :: keys =>
      if bool_decide (k = []) then inl empty
      else sops_loop keys suffix empty (<[Itoa (adler32 k) ++ suffix := k]> data)
  end.
(** [src/runtime/secrets/factory.go:304-333 MakeSOPSSecret] *)
Definition MakeSOPSSecret (name namespace : bytes) (ageKeys gpgKeys : list bytes) : err + Secret :=
  if (length ageKeys =? 0) && (length gpgKeys =? 0) then inl SOPSNoKey
  else match sops_loop ageKeys (str ".agekey") SOPSAgeEmpty ∅ with
       | inl e => inl e
       | inr data =>
           match sops_loop gpgKeys (str ".asc") SOPSGpgEmpty data with
           | inl e => inl e
           | inr data => inr (makeSecret name namespace SecretTypeOpaque data)
           end
       end.

(** ** Calls to the API server *)

Inductive scall :=
  | SGet (ref : NamespacedName)
  | SGetServiceAccount (ref : NamespacedName)
  | SDelete (s : Secret)
  (** server-side apply with forced ownership *)
  | SApply (s : Secret) (fieldOwner : option bytes).
(** Each call reads its part of the answer; of a service account the names of
    its image pull secrets are used. *)
Record sreply := mkSReply { sr_err : option E; sr_secret : Secret; sr_pullSecrets : list bytes }.


(** *** Reading ([reader.go]) *)

(** [src/runtime/secrets/reader.go:97-106 getSecret] *)
Definition getSecret (ref : NamespacedName) : prog scall sreply (err + Secret) :=
  Call (SGet ref) (λ r,
    Ret match sr_err r with
        | Some e => if apiIsNotFound e then inl (SecretNotFound ref) else inl (SecretGetErr ref e)
        | None => inr (sr_secret r)
        end).

Definition with_secret {T} (ref : NamespacedName) (f : Secret → err + T) : prog scall sreply (err + T) :=
  getSecret ref ≫= λ r, Ret match r with inl e => inl e | inr secret => f secret end.
(** [src/runtime/secrets/reader.go:31-44 TLSConfigFromSecretRef] *)
Definition TLSConfigFromSecretRef (ref : NamespacedName) (useSystemCertPool : bool) : prog scall sreply (err + TlsConfig Cert Pool) :=
  with_secret ref (λ s, TLSConfigFromSecret s useSystemCertPool).
(** [src/runtime/secrets/reader.go:46-56 ProxyURLFromSecretRef] *)
Definition ProxyURLFromSecretRef (ref : NamespacedName) : prog scall sreply (err + URL) := with_secret ref ProxyURLFromSecret.
(** [src/runtime/secrets/reader.go:58-68 GitHubAppDataFromSecretRef] *)
Definition GitHubAppDataFromSecretRef (ref : NamespacedName) : prog scall sreply (err + sdata) :=
  with_secret ref GitHubAppDataFromSecret.

(** [src/runtime/secrets/reader.go:84-92 PullSecretsFromServiceAccountRef] *)
Fixpoint pull_loop (namespace : bytes) (names : list bytes) (secrets : list Secret) : prog scall sreply (err + list Secret) :=
  match names with
  | [] => Ret (inr secrets)
  | name :: names =>
      getSecret (mkNN namespace name) ≫= λ r,
      match r with
      | inl e => Ret (inl (PullSecretErr e))
      | inr secret => pull_loop namespace names (secrets ++ [secret])
      end
  end.
(** [src/runtime/secrets/reader.go:70-95 PullSecretsFromServiceAccountRef] *)
Definition PullSecretsFromServiceAccountRef (saRef : NamespacedName) : prog scall sreply (err + list Secret) :=
  Call (SGetServiceAccount saRef) (λ r,
    match sr_err r with
    | Some e => Ret (if apiIsNotFound e then inl (SANotFound saRef) else inl (SAGetErr saRef e))
    | None => pull_loop (nn_Namespace saRef) (sr_pullSecrets r) []
    end).

(** *** Applying ([applier.go]) *)

(** [src/runtime/secrets/applier.go:27-34 ApplyOptions] *)
Record ApplyOptions := mkApplyOpts {
  ao_owner : bytes; ao_labels : option sdata; ao_annotations : option sdata; ao_immutable : option bool; ao_force : bool }.
(** An option sets one field.
    [src/runtime/secrets/applier.go:36-37 ApplyOption] *)
Inductive ApplyOption :=
  | WithOwner (owner : bytes)
  | WithLabels (labels : option sdata)
  | WithAnnotations (annotations : option sdata)
  | WithImmutable (immutable : bool)
  | WithForce.
(** [src/runtime/secrets/applier.go:39-73 WithOwner] *)
Definition apply_option (o : ApplyOptions) (x : ApplyOption) : ApplyOptions :=
  match x with
  | WithOwner owner => mkApplyOpts owner (ao_labels o) (ao_annotations o) (ao_immutable o) (ao_force o)
  | WithLabels l => mkApplyOpts (ao_owner o) l (ao_annotations o) (ao_immutable o) (ao_force o)
  | WithAnnotations a => mkApplyOpts (ao_owner o) (ao_labels o) a (ao_immutable o) (ao_force o)
  | WithImmutable i => mkApplyOpts (ao_owner o) (ao_labels o) (ao_annotations o) (Some i) (ao_force o)
  | WithForce => mkApplyOpts (ao_owner o) (ao_labels o) (ao_annotations o) (ao_immutable o) true
  end.

(** The secret as it is sent.
    [src/runtime/secrets/applier.go:83-122 Apply] *)
Definition prepare_secret (o : ApplyOptions) (s : Secret) : Secret :=
  mkSecret (sec_Name s) (sec_Namespace s)
    (default ∅ (ao_labels o) ∪ sec_Labels s) (default ∅ (ao_annotations o) ∪ sec_Annotations s)
    (match ao_immutable o with Some i => Some i | None => sec_Immutable s end)
    (if bool_decide (sec_Type s = []) then SecretTypeOpaque else sec_Type s)
    (sec_StringData s ∪ sec_Data s) ∅.

(** [src/runtime/secrets/applier.go:132-135 Apply] *)
Definition must_delete (existing secret : Secret) : bool :=
  match sec_Immutable existing with Some true => true | _ => false end ||
  negb (bool_decide (sec_Type existing = sec_Type secret)).

(** The secret as the call leaves it, and the error.
    [src/runtime/secrets/applier.go:75-156 Apply] *)
Definition Secret_Apply (secret : Secret) (opts : list ApplyOption) : prog scall sreply (Secret * option err) :=
  let options := foldl apply_option (mkApplyOpts [] None None None false) opts in
  let secret := prepare_secret options secret in
  let patch : prog scall sreply (Secret * option err) :=
    Call (SApply secret (if bool_decide (ao_owner options = []) then None else Some (ao_owner options)))
      (λ r, Ret (sr_secret r, ApplyPatchErr <$> sr_err r)) in
  Call (SGet (ObjectKeyFromObject secret)) (λ r,
    match sr_err r with
    | Some e => if apiIsNotFound e then patch else Ret (secret, Some (ApplyGetErr e))
    | None =>
        if must_delete (sr_secret r) secret && ao_force options then
          Call (SDelete (sr_secret r)) (λ d,
            match sr_err d with
            | Some e => Ret (secret, Some (ApplyDeleteErr e))
            | None => patch
            end)
        else patch
    end).
End secrets.
