(* ===== verification/SecretsSpec.v ===== *)
(** * Credentials in secrets: results

    What is extracted from a secret, by the keys it has; round trips from the
    factories through an apply to the extraction; what an apply deletes and
    sends. *)

From S2P Require Import Prelude Utf8 GoPath GoText Interaction Secrets.

Section extraction.
Context {E Cert Pool URL : Type} `{SecretLibs E Cert Pool URL}.
Implicit Types s : Secret.

(** ** What a secret holds *)

Definition basic_of s : option BasicAuth :=
  match sec_Data s !! KeyUsername, sec_Data s !! KeyPassword with
  | Some u, Some p => Some (mkBasicAuth u p)
  | _, _ => None
  end.
Definition ssh_of s : option SSHAuth :=
  match sec_Data s !! KeySSHPrivateKey, sec_Data s !! KeySSHKnownHosts with
  | Some i, Some h =>
      Some (mkSSHAuth i (default [] (sec_Data s !! KeySSHPublicKey)) h (default [] (sec_Data s !! KeyPassword)))
  | _, _ => None
  end.

Definition github_keys : list bytes :=
  [KeyGitHubAppID; KeyGitHubAppPrivateKey; KeyGitHubAppInstallationOwner; KeyGitHubAppInstallationID; KeyGitHubAppBaseURL].
(** The data of the app; its ID and private key are needed. *)
Definition github_of s : sdata :=
  if has_key s KeyGitHubAppID && has_key s KeyGitHubAppPrivateKey
  then filter (λ kv, kv.1 ∈ github_keys) (sec_Data s) else ∅.
Definition tls_of s (sys : bool) : option (TlsConfig Cert Pool) :=
  match TLSConfigFromSecret s sys with inr c => Some c | inl _ => None end.

(** The errors that are reported, in their order. *)
Definition malformed s (sys : bool) : option (sec_err E) :=
  if has_key s KeyUsername && negb (has_key s KeyPassword) then Some (BasicAuthMalformedError KeyUsername KeyPassword)
  else if has_key s KeyPassword && negb (has_key s KeyUsername) then Some (BasicAuthMalformedError KeyPassword KeyUsername)
  else if has_key s KeyGitHubAppID && has_key s KeyGitHubAppPrivateKey &&
          eqb (has_key s KeyGitHubAppInstallationOwner) (has_key s KeyGitHubAppInstallationID)
       then Some GitHubInstallationErr
  else match TLSConfigFromSecret s sys with
       | inl e => match asTLSValidation e with Some _ => None | None => Some e end
       | inr _ => None
       end.

Lemma has_key_Some s k v : sec_Data s !! k = Some v → has_key s k = true.
Proof. intros Hk. unfold has_key. by rewrite Hk. Qed.
Lemma has_key_None s k : sec_Data s !! k = None → has_key s k = false.
Proof. intros Hk. unfold has_key. by rewrite Hk. Qed.

Lemma lookup_copy_key s (k : bytes) (d : sdata) (k' : bytes) :
  copy_key s k d !! k' = if bool_decide (k' = k) then (match sec_Data s !! k with Some v => Some v | None => d !! k end) else d !! k'.
Proof.
  unfold copy_key. case_bool_decide as Hk.
  - subst. destruct (sec_Data s !! k); [by rewrite lookup_insert_eq|done].
  - destruct (sec_Data s !! k); [by rewrite lookup_insert_ne|done].
Qed.

Lemma try_basic s :
  trySetAuth (E := E) None (sum_map id Some (BasicAuthFromSecret s)) =
  if has_key s KeyUsername && negb (has_key s KeyPassword) then inl (BasicAuthMalformedError KeyUsername KeyPassword)
  else if has_key s KeyPassword && negb (has_key s KeyUsername) then inl (BasicAuthMalformedError KeyPassword KeyUsername)
  else inr (basic_of s).
Proof.
  unfold BasicAuthFromSecret, basic_of, has_key.
  by destruct (sec_Data s !! KeyUsername), (sec_Data s !! KeyPassword).
Qed.

Lemma try_ssh s : trySetAuth (E := E) None (sum_map id Some (SSHAuthFromSecret s)) = inr (ssh_of s).
Proof.
  unfold SSHAuthFromSecret, ssh_of. by destruct (sec_Data s !! KeySSHPrivateKey), (sec_Data s !! KeySSHKnownHosts).
Qed.

Lemma copied_github s :
  copy_key s KeyGitHubAppBaseURL (copy_key s KeyGitHubAppInstallationID (copy_key s KeyGitHubAppInstallationOwner
    (copy_key s KeyGitHubAppPrivateKey (copy_key s KeyGitHubAppID ∅)))) =
  filter (λ kv, kv.1 ∈ github_keys) (sec_Data s).
Proof.
  apply map_eq. intros k. rewrite !lookup_copy_key, lookup_empty. apply option_eq. intros v.
  rewrite map_lookup_filter_Some. unfold github_keys. rewrite !elem_of_cons, elem_of_nil. cbn [fst].
  repeat (case_bool_decide; [subst; destruct (sec_Data s !! _); naive_solver|]). naive_solver.
Qed.

Lemma try_github s :
  trySetAuth (E := E) ∅ (GitHubAppDataFromSecret s) =
  if has_key s KeyGitHubAppID && has_key s KeyGitHubAppPrivateKey then
    if eqb (has_key s KeyGitHubAppInstallationOwner) (has_key s KeyGitHubAppInstallationID)
    then inl GitHubInstallationErr else inr (github_of s)
  else inr ∅.
Proof.
  unfold GitHubAppDataFromSecret, github_of. cbv zeta. rewrite copied_github.
  by destruct (has_key s KeyGitHubAppID), (has_key s KeyGitHubAppInstallationOwner),
    (has_key s KeyGitHubAppInstallationID), (has_key s KeyGitHubAppPrivateKey).
Qed.

Lemma try_tls s sys :
  trySetAuth (E := E) None (sum_map id Some (TLSConfigFromSecret s sys)) =
  match TLSConfigFromSecret s sys with
  | inl e => match asTLSValidation e with Some _ => inr None | None => if isKeyNotFound e then inr None else inl e end
  | inr c => inr (Some c)
  end.
Proof. by destruct (TLSConfigFromSecret s sys) as [[]|]. Qed.

Lemma TLS_not_key_error s sys e : TLSConfigFromSecret s sys = inl e → isKeyNotFound e = false.
Proof.
  unfold TLSConfigFromSecret, newTLSCertificateData, tls_validate, buildTLSConfig. cbv zeta.
  intros Ht. repeat (case_match; simplify_eq/=; try done).
Qed.

(** The methods extracted from a secret are those whose keys it has, all
    independent of each other; the only errors are a user name or password
    without the other, an app with neither or both installations, and
    certificates that do not parse. *)
Theorem AuthMethodsFromSecret_spec s sys :
  AuthMethodsFromSecret s sys =
  match malformed s sys with
  | Some e => inl e
  | None => inr (mkAuthMethods (basic_of s) (default [] (sec_Data s !! KeyBearerToken))
                   (default [] (sec_Data s !! KeyToken)) (ssh_of s) (github_of s) (tls_of s sys))
  end.
Proof.
  unfold AuthMethodsFromSecret, malformed. rewrite try_basic.
  destruct (has_key s KeyUsername && negb (has_key s KeyPassword)); [done|].
  destruct (has_key s KeyPassword && negb (has_key s KeyUsername)); [done|].
  assert (trySetAuth (E := E) [] (BearerAuthFromSecret s) = inr (default [] (sec_Data s !! KeyBearerToken))) as ->
    by (unfold BearerAuthFromSecret; by destruct (sec_Data s !! KeyBearerToken)).
  assert (trySetAuth (E := E) [] (TokenAuthFromSecret s) = inr (default [] (sec_Data s !! KeyToken))) as ->
    by (unfold TokenAuthFromSecret; by destruct (sec_Data s !! KeyToken)).
  rewrite try_ssh, try_github, try_tls. unfold tls_of.
  assert (has_key s KeyGitHubAppID && has_key s KeyGitHubAppPrivateKey = false → github_of s = ∅) as Hg
    by (unfold github_of; by intros ->).
  destruct (has_key s KeyGitHubAppID && has_key s KeyGitHubAppPrivateKey); cbn [andb].
  - destruct (eqb _ _); [done|]. destruct (TLSConfigFromSecret s sys) as [e|c] eqn:Et; [|done].
    apply TLS_not_key_error in Et. rewrite Et. by destruct (asTLSValidation e).
  - rewrite Hg by done. destruct (TLSConfigFromSecret s sys) as [e|c] eqn:Et; [|done].
    apply TLS_not_key_error in Et. rewrite Et. by destruct (asTLSValidation e).
Qed.

(** ** Round trips *)

(** The secret that an apply without options sends, which is what is stored. *)
Definition sent s : Secret := prepare_secret (mkApplyOpts [] None None None false) s.

Lemma sent_Data (name ns t : bytes) (d : sdata) : sec_Data (sent (makeSecret name ns t d)) = d.
Proof. unfold sent, prepare_secret, makeSecret. cbn [sec_Data sec_StringData]. by rewrite (right_id_L ∅ (∪)). Qed.

Lemma require_inr {T} (checks : list (option (sec_err E))) (r : sec_err E + T) x :
  require checks r = inr x → r = inr x ∧ Forall (λ c, c = None) checks.
Proof. induction checks as [|[e|] l IH]; cbn [require]; [done|done|]. intros Hr. destruct (IH Hr). by repeat constructor. Qed.

(** The options that the package has for apps. *)
Inductive github_option : GitHubAppOption → Prop :=
  | go_owner v : github_option (WithGitHubAppInstallationOwner v)
  | go_id v : github_option (WithGitHubAppInstallationID v)
  | go_url v : github_option (WithGitHubAppBaseURL v).

Lemma github_options (opts : list GitHubAppOption) (d : sdata) :
  Forall github_option opts →
  (foldl run_github_option d opts !! KeyGitHubAppID = d !! KeyGitHubAppID ∧
   foldl run_github_option d opts !! KeyGitHubAppPrivateKey = d !! KeyGitHubAppPrivateKey) ∧
  ∀ k, k ∉ github_keys → foldl run_github_option d opts !! k = d !! k.
Proof.
  intros Ho. revert d. induction Ho as [|o opts Ho Hos IH]; intros d; [done|]. cbn [foldl]. unfold run_github_option at 2 4 6.
  destruct (IH (o d)) as [[-> ->] Hother].
  assert (∀ k, (k = KeyGitHubAppID ∨ k = KeyGitHubAppPrivateKey ∨ k ∉ github_keys) → o d !! k = d !! k) as Hk.
  { intros k Hk. unfold github_keys in Hk. rewrite !not_elem_of_cons in Hk.
    destruct Ho; apply lookup_insert_ne; (destruct Hk as [->|[->|Hk]]; [done|done|naive_solver]). }
  split; [split; apply Hk; auto|]. intros k Hn. rewrite Hother by done. apply Hk. auto.
Qed.

Lemma AuthMethods_github s sys owner id :
  (∀ k, k ∉ github_keys → sec_Data s !! k = None) →
  has_key s KeyGitHubAppID = true → has_key s KeyGitHubAppPrivateKey = true →
  has_key s KeyGitHubAppInstallationOwner = owner → has_key s KeyGitHubAppInstallationID = id → eqb owner id = false →
  AuthMethodsFromSecret s sys = inr (mkAuthMethods None [] [] None (sec_Data s) None).
Proof.
  intros Hn Ha Hp Ho Hi Hne.
  assert (∀ k, bool_decide (k ∈ github_keys) = false → sec_Data s !! k = None) as Hn'
    by (intros k ?%bool_decide_eq_false; auto).
  assert (github_of s = sec_Data s) as Hg.
  { unfold github_of. rewrite Ha, Hp. cbn [andb]. apply map_filter_id. intros k v Hk. cbn [fst].
    destruct (decide (k ∈ github_keys)); [done|]. by rewrite Hn in Hk. }
  assert (∃ t, TLSConfigFromSecret s sys = inl (SecretTLSValidationError t)) as [t Ht].
  { unfold TLSConfigFromSecret, newTLSCertificateData, getSecretData. rewrite !Hn' by by vm_compute. cbn. eauto. }
  unfold AuthMethodsFromSecret, BearerAuthFromSecret, TokenAuthFromSecret.
  rewrite try_basic, try_ssh, try_github, try_tls, Ht, Ha, Hp, Ho, Hi, Hne, Hg.
  unfold basic_of, ssh_of. rewrite !(has_key_None s) by (apply Hn'; by vm_compute).
  by rewrite !Hn' by by vm_compute.
Qed.

(** A key pair and an authority as they are stored are read back. *)
Lemma newTLS_toSecret d name ns :
  tls_validate (E := E) d = None → newTLSCertificateData (E := E) (sent (toSecret d name ns)) = inr d.
Proof.
  intros Hv. assert (nonempty (t_cert d) = nonempty (t_key d)) as Heq.
  { unfold tls_validate in Hv. cbv zeta in Hv. by destruct (nonempty (t_cert d)), (nonempty (t_key d)). }
  assert (∀ b, nonempty b = false → b = []) as Hnil by by intros [].
  set (data := sec_Data (sent (toSecret d name ns))).
  assert (getSecretData (sent (toSecret d name ns)) KeyTLSCert LegacyKeyTLSCert = t_cert d ∧
    getSecretData (sent (toSecret d name ns)) KeyTLSPrivateKey LegacyKeyTLSPrivateKey = t_key d ∧
    getSecretData (sent (toSecret d name ns)) KeyCACert LegacyKeyCACert = t_caCert d) as (H1 & H2 & H3).
  { unfold getSecretData, toSecret, hasCertPair, hasCA.
    destruct (nonempty (t_cert d)) eqn:Ec, (nonempty (t_key d)) eqn:Ek; [|done|done|];
      destruct (nonempty (t_caCert d)) eqn:Ea; cbn [andb]; rewrite !sent_Data;
      rewrite ?(Hnil _ Ec), ?(Hnil _ Ek), ?(Hnil _ Ea); split_and!; by vm_compute. }
  unfold newTLSCertificateData. cbv zeta. rewrite H1, H2, H3. destruct d as [c k a]. cbn [t_cert t_key t_caCert]. by rewrite Hv.
Qed.

(** ** Secrets without other methods *)

(** The keys of the methods but TLS. *)
Definition method_keys : list bytes :=
  [KeyUsername; KeyPassword; KeyBearerToken; KeyToken; KeySSHPrivateKey; KeySSHKnownHosts; KeyGitHubAppID;
   KeyGitHubAppPrivateKey; KeyGitHubAppInstallationOwner; KeyGitHubAppInstallationID].
Definition tls_keys : list bytes :=
  [KeyTLSCert; KeyTLSPrivateKey; KeyCACert; LegacyKeyTLSCert; LegacyKeyTLSPrivateKey; LegacyKeyCACert].

Lemma absent (l : list bytes) (d : sdata) (k : bytes) :
  Forall (λ k, d !! k = None) l → bool_decide (k ∈ l) = true → d !! k = None.
Proof. rewrite Forall_forall. intros Hl ?%bool_decide_eq_true. auto. Qed.

Lemma AuthMethods_tls s sys :
  Forall (λ k, sec_Data s !! k = None) method_keys →
  AuthMethodsFromSecret s sys =
  match trySetAuth (E := E) None (sum_map id Some (TLSConfigFromSecret s sys)) with
  | inl e => inl e
  | inr x => inr (mkAuthMethods None [] [] None ∅ x)
  end.
Proof.
  intros Hn. assert (∀ k, bool_decide (k ∈ method_keys) = true → sec_Data s !! k = None) as Hk by (intros k; by apply absent).
  unfold AuthMethodsFromSecret, BearerAuthFromSecret, TokenAuthFromSecret. rewrite try_basic, try_ssh, try_github.
  unfold basic_of, ssh_of. rewrite !(has_key_None s) by (apply Hk; by vm_compute). by rewrite !Hk by by vm_compute.
Qed.

Lemma AuthMethods_none s sys :
  Forall (λ k, sec_Data s !! k = None) method_keys → Forall (λ k, sec_Data s !! k = None) tls_keys →
  AuthMethodsFromSecret s sys = inr (mkAuthMethods None [] [] None ∅ None).
Proof.
  intros Hm Ht. rewrite AuthMethods_tls by done.
  assert (∀ k, bool_decide (k ∈ tls_keys) = true → sec_Data s !! k = None) as Hk by (intros k; by apply absent).
  unfold TLSConfigFromSecret, newTLSCertificateData, getSecretData. by rewrite !Hk by by vm_compute.
Qed.

(** The errors of certificates are not errors of missing ones. *)
Lemma try_build d sys :
  trySetAuth (E := E) None (sum_map id Some (buildTLSConfig d sys)) = sum_map id Some (buildTLSConfig d sys).
Proof. unfold buildTLSConfig. by repeat case_match; simplify_eq/=. Qed.

(** ** SOPS keys *)

(** The name under which a key is stored. *)
Definition sops_name (suffix k : bytes) : bytes := Itoa (adler32 k) ++ suffix.

Lemma sops_loop_keeps (keys : list bytes) (suffix name : bytes) (empty : sec_err E) (data data' : sdata) :
  sops_loop keys suffix empty data = inr data' → Forall (λ k, sops_name suffix k ≠ name) keys → data' !! name = data !! name.
Proof.
  revert data. induction keys as [|k keys IH]; intros data; cbn [sops_loop]; [by intros [= <-]|].
  case_bool_decide; [done|]. intros Hs [Hk Hf]%Forall_cons. rewrite (IH _ Hs Hf). by apply lookup_insert_ne.
Qed.

(** Every key is stored under its checksum, unless a later key of its kind has
    the same one. *)
Lemma sops_loop_stored (keys : list bytes) (suffix : bytes) (empty : sec_err E) (data data' : sdata) pre k post :
  sops_loop keys suffix empty data = inr data' → keys = pre ++ k :: post →
  Forall (λ k', sops_name suffix k' ≠ sops_name suffix k) post → data' !! sops_name suffix k = Some k.
Proof.
  intros Hl -> Hpost. revert data Hl. induction pre as [|k' pre IH]; intros data; cbn [sops_loop app]; case_bool_decide; try done.
  - intros Hs. rewrite (sops_loop_keeps _ _ _ _ _ _ Hs Hpost). apply lookup_insert_eq.
  - apply IH.
Qed.

Definition age_suffix : bytes := str ".agekey".
Definition gpg_suffix : bytes := str ".asc".

(** No key has the name of a method, and the names of the two kinds differ. *)
Lemma sops_name_ne suffix k name : bool_decide (suffix `suffix_of` name) = false → sops_name suffix k ≠ name.
Proof. intros Hs%bool_decide_eq_false <-. apply Hs. by eexists. Qed.

Lemma sops_kinds k k' : sops_name gpg_suffix k ≠ sops_name age_suffix k'.
Proof.
  unfold sops_name, gpg_suffix, age_suffix. intros Heq. apply (f_equal last) in Heq.
  rewrite !last_app in Heq. done.
Qed.

(** The keys of a kind whose name no later one takes. *)
Definition kept (suffix : bytes) (keys : list bytes) (k : bytes) : Prop :=
  ∃ pre post, keys = pre ++ k :: post ∧ Forall (λ k', sops_name suffix k' ≠ sops_name suffix k) post.

Lemma MakeSOPS_data name ns age gpg s :
  MakeSOPSSecret (E := E) name ns age gpg = inr s →
  ∃ data, s = makeSecret name ns SecretTypeOpaque data ∧
    (∀ k, kept age_suffix age k → data !! sops_name age_suffix k = Some k) ∧
    (∀ k, kept gpg_suffix gpg k → data !! sops_name gpg_suffix k = Some k) ∧
    (∀ k, bool_decide (age_suffix `suffix_of` k) = false → bool_decide (gpg_suffix `suffix_of` k) = false → data !! k = None).
Proof.
  unfold MakeSOPSSecret. destruct (_ && _); [done|].
  destruct (sops_loop age _ _ ∅) as [e|d1] eqn:E1; [done|]. destruct (sops_loop gpg _ _ d1) as [e|d2] eqn:E2; [done|].
  intros [= <-]. exists d2. split_and!; [done|..].
  - intros k (pre & post & -> & Hp). rewrite (sops_loop_keeps _ _ _ _ _ _ E2).
    + by eapply sops_loop_stored.
    + apply Forall_true. intros k'. apply sops_kinds.
  - intros k (pre & post & -> & Hp). by eapply sops_loop_stored.
  - intros k Ha Hg. rewrite (sops_loop_keeps _ _ k _ _ _ E2), (sops_loop_keeps _ _ k _ _ _ E1); [done|..];
      apply Forall_true; intros k'; by apply sops_name_ne.
Qed.

(** ** The factories *)

Lemma roundtrip_ssh name ns key pub hosts password s sys :
  MakeSSHSecret (E := E) name ns key pub hosts password = inr s →
  SSHAuthFromSecret (E := E) (sent s) = inr (mkSSHAuth key pub hosts password) ∧
  AuthMethodsFromSecret (sent s) sys =
    if bool_decide (password = [])
    then inr (mkAuthMethods None [] [] (Some (mkSSHAuth key pub hosts [])) ∅ None)
    else inl (BasicAuthMalformedError KeyPassword KeyUsername).
Proof.
  intros [[= <-] _]%require_inr. unfold put_nonempty.
  case_bool_decide as Hp; [subst password|]; (case_bool_decide as Hq; [subst pub|]); by vm_compute.
Qed.

Lemma roundtrip_github name ns sys appID key opts s :
  Forall github_option opts → MakeGitHubAppSecret (E := E) name ns appID key opts = inr s →
  AuthMethodsFromSecret (sent s) sys = inr (mkAuthMethods None [] [] None (sec_StringData s) None) ∧
  sec_StringData s = foldl run_github_option (<[KeyGitHubAppID := appID]> {[KeyGitHubAppPrivateKey := key]}) opts ∧
  sec_StringData s !! KeyGitHubAppID = Some appID ∧ sec_StringData s !! KeyGitHubAppPrivateKey = Some key.
Proof.
  intros Ho [Hs _]%require_inr. cbv zeta in Hs.
  destruct (github_options opts (<[KeyGitHubAppID := appID]> {[KeyGitHubAppPrivateKey := key]}) Ho) as [[Ha Hk] Hn].
  set (data := foldl _ _ opts) in *. destruct (eqb _ _) eqn:Ee; [done|]. injection Hs as <-.
  rewrite lookup_insert_eq in Ha.
  rewrite lookup_insert_ne, lookup_singleton_eq in Hk by done. split; [|done].
  assert (∀ k, has_key (sent (makeSecret name ns SecretTypeOpaque data)) k = bool_decide (is_Some (data !! k))) as Hd.
  { intros k. unfold has_key. by rewrite sent_Data. }
  rewrite (AuthMethods_github _ sys (bool_decide (is_Some (data !! KeyGitHubAppInstallationOwner)))
    (bool_decide (is_Some (data !! KeyGitHubAppInstallationID)))); rewrite ?Hd, ?sent_Data; try done.
  + intros k Hnk. rewrite Hn by done. unfold github_keys in Hnk. rewrite !not_elem_of_cons in Hnk.
    rewrite lookup_insert_ne, lookup_singleton_ne by naive_solver. done.
  + by rewrite Ha.
  + by rewrite Hk.
Qed.

Lemma toSecret_methods d name ns : Forall (λ k, sec_Data (sent (toSecret d name ns)) !! k = None) method_keys.
Proof.
  unfold toSecret, hasCertPair, hasCA.
  destruct (nonempty (t_cert d)), (nonempty (t_key d)), (nonempty (t_caCert d)); cbn [andb]; rewrite ?sent_Data;
    by repeat (constructor; [by vm_compute|]).
Qed.

Lemma roundtrip_tls name ns sys opts s :
  MakeTLSSecret name ns opts = inr s →
  let built := buildTLSConfig (foldl (λ d o, o d) (mkTlsData [] [] []) opts) sys in
  TLSConfigFromSecret (sent s) sys = built ∧
  AuthMethodsFromSecret (sent s) sys = sum_map id (λ c, mkAuthMethods None [] [] None ∅ (Some c)) built.
Proof.
  intros [[= <-] Hc]%require_inr built. apply Forall_cons in Hc as [Hv _].
  assert (TLSConfigFromSecret (sent (toSecret (foldl (λ d o, o d) (mkTlsData [] [] []) opts) name ns)) sys = built) as Ht
    by (unfold TLSConfigFromSecret; by rewrite newTLS_toSecret).
  split; [done|]. rewrite AuthMethods_tls by apply toSecret_methods. rewrite Ht. unfold built. rewrite try_build.
  by destruct (buildTLSConfig _ _).
Qed.

Lemma roundtrip_proxy name ns address username password s :
  MakeProxySecret name ns address username password = inr s →
  ProxyURLFromSecret (sent s) = sum_map id (λ u : URL,
    if bool_decide (username = []) then u
    else url_withUser u username (if bool_decide (password = []) then None else Some password)) (parseProxyURL address).
Proof.
  intros [Hs Hc]%require_inr. apply Forall_cons in Hc as [Hv _]. destruct (url_Parse address) as [e|u0]; [done|]. injection Hs as <-.
  assert (address ≠ []) as Hne by (by intros ->).
  set (data := put_nonempty KeyPassword password (put_nonempty KeyUsername username {[KeyAddress := address]})).
  assert (data !! KeyAddress = Some address ∧ data !! KeyUsername = (if bool_decide (username = []) then None else Some username) ∧
    data !! KeyPassword = (if bool_decide (password = []) then None else Some password)) as (Ha & Hu & Hp).
  { unfold data, put_nonempty. by destruct (bool_decide (username = [])), (bool_decide (password = [])). }
  unfold ProxyURLFromSecret. rewrite sent_Data, Ha, Hu, Hp, bool_decide_eq_false_2 by done.
  destruct (parseProxyURL address) as [e|u]; [done|].
  by destruct (bool_decide (username = [])), (bool_decide (password = [])).
Qed.

(** C24. What each factory puts into a secret is read back from the secret that an
    apply of it stores.  For basic authentication, a bearer token, an API token,
    an app with the options of the package and TLS, [AuthMethodsFromSecret]
    returns the credentials (for TLS what the certificates build, or the error of
    building it), and no other method.  For SSH the same holds without a
    password of the private key; with one, the key pair is read back by
    [SSHAuthFromSecret], but [AuthMethodsFromSecret] rejects the secret.  For a
    proxy, [ProxyURLFromSecret] returns the address with the user and the
    password, or the error of parsing the address; a password without a user is
    dropped.  For a registry, the secret has the marshalled configuration and
    its type, and no method is extracted.  For SOPS, every key is stored under
    its checksum unless a later key of its kind has the same checksum, and no
    method is extracted. *)
Theorem Make_roundtrip name ns sys :
  (∀ u p s, MakeBasicAuthSecret (E := E) name ns u p = inr s →
     AuthMethodsFromSecret (sent s) sys = inr (mkAuthMethods (Some (mkBasicAuth u p)) [] [] None ∅ None)) ∧
  (∀ t s, MakeBearerTokenSecret (E := E) name ns t = inr s →
     AuthMethodsFromSecret (sent s) sys = inr (mkAuthMethods None t [] None ∅ None)) ∧
  (∀ t s, MakeTokenSecret (E := E) name ns t = inr s →
     AuthMethodsFromSecret (sent s) sys = inr (mkAuthMethods None [] t None ∅ None)) ∧
  (∀ key pub hosts password s, MakeSSHSecret (E := E) name ns key pub hosts password = inr s →
     SSHAuthFromSecret (E := E) (sent s) = inr (mkSSHAuth key pub hosts password) ∧
     AuthMethodsFromSecret (sent s) sys =
       if bool_decide (password = [])
       then inr (mkAuthMethods None [] [] (Some (mkSSHAuth key pub hosts [])) ∅ None)
       else inl (BasicAuthMalformedError KeyPassword KeyUsername)) ∧
  (∀ appID key opts s, Forall github_option opts → MakeGitHubAppSecret (E := E) name ns appID key opts = inr s →
     AuthMethodsFromSecret (sent s) sys = inr (mkAuthMethods None [] [] None (sec_StringData s) None) ∧
     sec_StringData s = foldl run_github_option (<[KeyGitHubAppID := appID]> {[KeyGitHubAppPrivateKey := key]}) opts ∧
     sec_StringData s !! KeyGitHubAppID = Some appID ∧ sec_StringData s !! KeyGitHubAppPrivateKey = Some key) ∧
  (∀ opts s, MakeTLSSecret name ns opts = inr s →
     let built := buildTLSConfig (foldl (λ d o, o d) (mkTlsData [] [] []) opts) sys in
     TLSConfigFromSecret (sent s) sys = built ∧
     AuthMethodsFromSecret (sent s) sys = sum_map id (λ c, mkAuthMethods None [] [] None ∅ (Some c)) built) ∧
  (∀ address username password s, MakeProxySecret name ns address username password = inr s →
     ProxyURLFromSecret (sent s) = sum_map id (λ u : URL,
       if bool_decide (username = []) then u
       else url_withUser u username (if bool_decide (password = []) then None else Some password)) (parseProxyURL address)) ∧
  (∀ server username password s, MakeRegistrySecret name ns server username password = inr s →
     (∃ config, MarshalDockerConfig server username password (EncodeToString (username ++ str ":" ++ password)) = inr config ∧
        sec_Data (sent s) = {[DockerConfigJsonKey := config]}) ∧
     sec_Type (sent s) = SecretTypeDockerConfigJson ∧
     AuthMethodsFromSecret (sent s) sys = inr (mkAuthMethods None [] [] None ∅ None)) ∧
  (∀ age gpg s, MakeSOPSSecret (E := E) name ns age gpg = inr s →
     (∀ k, kept age_suffix age k → sec_Data (sent s) !! sops_name age_suffix k = Some k) ∧
     (∀ k, kept gpg_suffix gpg k → sec_Data (sent s) !! sops_name gpg_suffix k = Some k) ∧
     AuthMethodsFromSecret (sent s) sys = inr (mkAuthMethods None [] [] None ∅ None)).
Proof.
  split_and!.
  - intros u p s [[= <-] _]%require_inr. by vm_compute.
  - intros t s [[= <-] _]%require_inr. by vm_compute.
  - intros t s [[= <-] _]%require_inr. by vm_compute.
  - intros key pub hosts password s. apply roundtrip_ssh.
  - intros appID key opts s. apply roundtrip_github.
  - intros opts s. apply roundtrip_tls.
  - intros address username password s. apply roundtrip_proxy.
  - intros server username password s [Hs _]%require_inr. cbv zeta in Hs.
    destruct (MarshalDockerConfig _ _ _ _) as [e|c] eqn:Em; [done|]. injection Hs as <-.
    split_and!; [by exists c; rewrite sent_Data|done|].
    apply AuthMethods_none; rewrite ?sent_Data; by repeat (constructor; [by vm_compute|]).
  - intros age gpg s (data & -> & Ha & Hg & Hn)%MakeSOPS_data. rewrite sent_Data. split_and!; [done..|].
    apply AuthMethods_none; rewrite ?sent_Data; repeat (constructor; [by apply Hn; vm_compute|]); constructor.
Qed.

(** A secret for SSH with the password of its private key is taken for
    malformed basic authentication: the package cannot read what it makes. *)
Theorem MakeSSH_password_rejected name ns key pub hosts password s sys :
  password ≠ [] → MakeSSHSecret (E := E) name ns key pub hosts password = inr s →
  AuthMethodsFromSecret (sent s) sys = inl (BasicAuthMalformedError KeyPassword KeyUsername) ∧
  SSHAuthFromSecret (E := E) (sent s) = inr (mkSSHAuth key pub hosts password).
Proof.
  intros Hne Hs. destruct (roundtrip_ssh name ns key pub hosts password s sys Hs) as [H1 H2].
  by rewrite bool_decide_eq_false_2 in H2.
Qed.

(** ** Apply *)

(** The calls that an apply makes: it reads, deletes the secret it read if that
    is forced and the secret is immutable or of another type, and applies. *)
Definition apply_trace (secret : Secret) (opts : list ApplyOption) (t : list (scall * sreply (E := E))) : Prop :=
  let o := foldl apply_option (mkApplyOpts [] None None None false) opts in
  let sent := prepare_secret o secret in
  let write := SApply sent (if bool_decide (ao_owner o = []) then None else Some (ao_owner o)) in
  ∃ r t', t = (SGet (ObjectKeyFromObject secret), r) :: t' ∧
    ((∃ e, sr_err r = Some e ∧ apiIsNotFound e = false ∧ t' = []) ∨
     (∃ e w, sr_err r = Some e ∧ apiIsNotFound e = true ∧ t' = [(write, w)]) ∨
     (∃ w, sr_err r = None ∧ must_delete (sr_secret r) sent && ao_force o = false ∧ t' = [(write, w)]) ∨
     (∃ d, sr_err r = None ∧ must_delete (sr_secret r) sent = true ∧ ao_force o = true ∧
        (t' = [(SDelete (sr_secret r), d)] ∧ sr_err d ≠ None ∨
         ∃ w, t' = [(SDelete (sr_secret r), d); (write, w)] ∧ sr_err d = None))).

(** An apply deletes nothing unless it is forced, and then only a secret it
    has just read that is immutable or of another type; what it sends has the
    data of both maps, and it succeeds only if that was accepted. *)
Theorem Secret_Apply_spec secret opts t s' e :
  runs (Secret_Apply secret opts) t (s', e) →
  apply_trace secret opts t ∧ (e = None → ∃ s o w, last t = Some (SApply s o, w) ∧ sr_err w = None).
Proof.
  unfold Secret_Apply, apply_trace. cbv zeta.
  set (o := foldl apply_option _ opts). set (snt := prepare_secret o secret).
  set (write := SApply snt _). intros (r & t' & -> & Hr)%runs_call_inv.
  assert (∀ u t', runs (Call write (λ r, Ret (sr_secret r, ApplyPatchErr <$> sr_err r))) t' (s', e) →
    ∃ w, t' = [(write, w)] ∧ (e = None → last (u :: t') = Some (write, w) ∧ sr_err w = None)) as Hw.
  { intros u t'' (w & t1 & -> & [-> [= -> ->]]%runs_ret_inv)%runs_call_inv. exists w. split; [done|].
    destruct (sr_err w); [done|]. by split. }
  change (ObjectKeyFromObject snt) with (ObjectKeyFromObject secret) in *.
  destruct (sr_err r) as [e0|] eqn:Er; [destruct (apiIsNotFound e0) eqn:En|destruct (_ && _) eqn:Ed].
  - destruct (Hw (SGet (ObjectKeyFromObject secret), r) _ Hr) as (w & -> & Hok). split; [|naive_solver].
    exists r. eexists. split; [done|]. right; left. eauto.
  - apply runs_ret_inv in Hr as [-> [= -> ->]]. split; [|done]. exists r, []. split; [done|]. left. eauto.
  - apply runs_call_inv in Hr as (d & t1 & -> & Hr). apply andb_true_iff in Ed as [Hm Hf].
    destruct (sr_err d) as [e1|] eqn:Edl.
    + apply runs_ret_inv in Hr as [-> [= -> ->]]. split; [|done]. exists r. eexists. split; [done|].
      do 3 right. exists d. split_and!; [done..|]. left. by rewrite Edl.
    + destruct (Hw (SDelete (sr_secret r), d) _ Hr) as (w & -> & Hok). split.
      * exists r. eexists. split; [done|]. do 3 right. exists d. split_and!; [done..|]. right. eauto.
      * intros He. destruct (Hok He) as [Hl Hn]. exists snt. eexists _, w. split; [|done]. exact Hl.
  - destruct (Hw (SGet (ObjectKeyFromObject secret), r) _ Hr) as (w & -> & Hok). split; [|naive_solver].
    exists r. eexists. split; [done|]. right; right; left. eauto.
Qed.
End extraction.

(** Two keys with one checksum: the first is lost. *)
Example sops_collision :
  adler32 (str "AGE-aca") = adler32 (str "AGE-bab") ∧
  match MakeSOPSSecret (E := string) (str "s") (str "ns") [str "AGE-aca"; str "AGE-bab"] [] with
  | inr s => size (sec_StringData s) = 1
  | inl _ => False
  end.
Proof. by vm_compute. Qed.

(** ** Examples *)

#[local] Instance demo_libs : SecretLibs string unit bytes bytes := {|
  X509KeyPair := λ _ _, inr tt; SystemCertPool := inr (str "system"); NewCertPool := [];
  AppendCertsFromPEM := λ p b, Some (p ++ b); url_Parse := λ b, inr b; url_Scheme := λ u, take 4 u;
  url_withUser := λ u _ _, u; MarshalDockerConfig := λ _ _ _ a, inr a;
  apiIsNotFound := λ e, bool_decide (e = "not found"%string) |}.

(** App data without its private key is dropped without an error. *)
Example partial_app_ignored :
  AuthMethodsFromSecret (mkSecret [] [] ∅ ∅ None SecretTypeOpaque
    (<[KeyGitHubAppID := str "1"]> {[KeyGitHubAppInstallationID := str "2"]}) ∅) false =
  inr (mkAuthMethods None [] [] None ∅ None).
Proof. by vm_compute. Qed.

Lemma Make_roundtrip_witness :
  ∃ s, MakeBasicAuthSecret (E := string) (str "auth") (str "apps") (str "u") (str "p") = inr s ∧
    AuthMethodsFromSecret (sent s) false = inr (mkAuthMethods (Some (mkBasicAuth (str "u") (str "p"))) [] [] None ∅ None).
Proof.
  eexists. split; [reflexivity|]. by apply (proj1 (Make_roundtrip (str "auth") (str "apps") false)).
Defined.

Lemma MakeSSH_password_rejected_witness :
  ∃ s, MakeSSHSecret (E := string) (str "git") (str "apps") (str "key") [] (str "hosts") (str "pass") = inr s ∧
    AuthMethodsFromSecret (sent s) false = inl (BasicAuthMalformedError KeyPassword KeyUsername).
Proof.
  eexists. split; [reflexivity|].
  by apply (MakeSSH_password_rejected (str "git") (str "apps") (str "key") [] (str "hosts") (str "pass") _ false).
Defined.

(** A forced apply over an immutable secret. *)
Definition demo_secret (i : option bool) : Secret :=
  mkSecret (str "auth") (str "apps") ∅ ∅ i SecretTypeOpaque ∅ {[KeyToken := str "t"]}.
Definition demo_api (h : list (scall * sreply (E := string))) (c : scall) : sreply (E := string) :=
  mkSReply None (demo_secret (Some true)) [].
Definition demo_apply := run demo_api [] (Secret_Apply (demo_secret None) [WithForce]).

Lemma Secret_Apply_spec_witness :
  length demo_apply.2 = 3 ∧ apply_trace (demo_secret None) [WithForce] demo_apply.2.
Proof.
  split; [by vm_compute|]. destruct demo_apply as [[s' e] t] eqn:Er. cbn [snd].
  apply run_runs in Er as (t' & -> & Hr). rewrite app_nil_l.
  exact (proj1 (Secret_Apply_spec (demo_secret None) [WithForce] t' s' e Hr)).
Defined.
