(* ===== verification/Auth.v ===== *)
(** * Credentials for cloud providers ([auth])

    [GetAccessToken], [GetArtifactRegistryCredentials], [GetGitCredentials] and
    [GetRESTConfig] fetch tokens and credentials through a provider, for the
    controller or for a service account, and keep them in one token cache under
    keys that are SHA-256 sums of their parameters.

    The code is a program over its environment ([Interaction]).  The calls are
    those to the API server and to the provider, the use of the cache, and the
    use of SHA-256: the last is a function, but it is a call here so that a run
    shows which texts were hashed.  A cache holds its lock while it creates a
    token, so [GetOrSet] is one call; its argument, the closure that creates the
    token, is a value of the type [newFunc], whose code is [run_new]. *)

From S2P Require Import Prelude CacheMetrics GoStd Lru TokenCache Utf8 GoPath GoText Sha256 Interaction.

(** ** Configuration of the process ([feature_gates.go], [controller_flags.go]) *)

(** The package variables: the feature gate and the default service accounts.
    [src/auth/controller_flags.go:39-51 defaultServiceAccount] *)
Record authConfig := mkAuthConfig {
  enableObjectLevelWorkloadIdentity : bool;
  defaultServiceAccount : bytes;
  defaultKubeConfigServiceAccount : bytes;
  defaultDecryptionServiceAccount : bytes }.

(** [src/auth/feature_gates.go:42-46 EnableObjectLevelWorkloadIdentity] *)
Definition EnableObjectLevelWorkloadIdentity (g : authConfig) : authConfig :=
  mkAuthConfig true (defaultServiceAccount g) (defaultKubeConfigServiceAccount g) (defaultDecryptionServiceAccount g).
(** [src/auth/feature_gates.go:48-52 DisableObjectLevelWorkloadIdentity] *)
Definition DisableObjectLevelWorkloadIdentity (g : authConfig) : authConfig :=
  mkAuthConfig false (defaultServiceAccount g) (defaultKubeConfigServiceAccount g) (defaultDecryptionServiceAccount g).
(** [src/auth/feature_gates.go:54-58 IsObjectLevelWorkloadIdentityEnabled] *)
Definition IsObjectLevelWorkloadIdentityEnabled (g : authConfig) : bool := enableObjectLevelWorkloadIdentity g.
(** [src/auth/controller_flags.go:57-60 SetDefaultServiceAccount] *)
Definition SetDefaultServiceAccount (g : authConfig) (sa : bytes) : authConfig :=
  mkAuthConfig (enableObjectLevelWorkloadIdentity g) sa (defaultKubeConfigServiceAccount g) (defaultDecryptionServiceAccount g).
(** [src/auth/controller_flags.go:62-65 SetDefaultKubeConfigServiceAccount] *)
Definition SetDefaultKubeConfigServiceAccount (g : authConfig) (sa : bytes) : authConfig :=
  mkAuthConfig (enableObjectLevelWorkloadIdentity g) (defaultServiceAccount g) sa (defaultDecryptionServiceAccount g).
(** [src/auth/controller_flags.go:67-70 SetDefaultDecryptionServiceAccount] *)
Definition SetDefaultDecryptionServiceAccount (g : authConfig) (sa : bytes) : authConfig :=
  mkAuthConfig (enableObjectLevelWorkloadIdentity g) (defaultServiceAccount g) (defaultKubeConfigServiceAccount g) sa.

Definition is_empty (b : bytes) : bool := bool_decide (b = []).

(** [src/auth/controller_flags.go:87-96 getDefaultServiceAccount] *)
Definition getDefaultServiceAccount (g : authConfig) : bytes :=
  if negb (is_empty (defaultServiceAccount g)) then defaultServiceAccount g else defaultKubeConfigServiceAccount g.

(** [src/auth/controller_options.go:29-36 InconsistentObjectLevelConfiguration] *)
Definition InconsistentObjectLevelConfiguration (g : authConfig) : bool :=
  negb (IsObjectLevelWorkloadIdentityEnabled g) &&
  (negb (is_empty (defaultServiceAccount g)) || negb (is_empty (defaultKubeConfigServiceAccount g))
   || negb (is_empty (defaultDecryptionServiceAccount g))).

(** ** Data *)

(** [client.ObjectKey] *)
Record ObjectKey := mkKey { k_Namespace : bytes; k_Name : bytes }.
#[global] Instance ObjectKey_eq_dec : EqDecision ObjectKey.
Proof. solve_decision. Defined.

(** Of a service account the name, the namespace and the annotations are used. *)
Record ServiceAccount := mkSA { sa_Namespace : bytes; sa_Name : bytes; sa_Annotations : gmap bytes bytes }.
Definition sa_key (sa : ServiceAccount) : ObjectKey := mkKey (sa_Namespace sa) (sa_Name sa).

(** [time.Until(t)]: the difference of the monotonic readings if both times
    have one, in the range of a duration. *)
Definition time_Until (now t : time) : Z :=
  let d := match mono t, mono now with Some a, Some b => a - b | _, _ => wall t - wall now end%Z in
  Z.max (- 2 ^ 63) (Z.min (2 ^ 63 - 1) d).

(** [src/auth/registry.go:56-62 ArtifactRegistryCredentials]
    The authenticator is third-party data. *)
Record ArtifactRegistryCredentials {Authn : Type} := mkRegistryCreds { arc_Authenticator : Authn; arc_ExpiresAt : time }.
Arguments ArtifactRegistryCredentials : clear implicits.
Arguments mkRegistryCreds {_} _ _.
(** [src/auth/git.go:59-66 GitCredentials] *)
Record GitCredentials := mkGitCreds {
  gc_BearerToken : bytes; gc_Username : bytes; gc_Password : bytes; gc_ExpiresAt : time }.
(** [src/auth/restconfig.go:55-62 RESTConfig] *)
Record RESTConfig := mkRESTConfig {
  rc_Host : bytes; rc_BearerToken : bytes; rc_CAData : bytes; rc_ExpiresAt : time }.

(** [src/auth/registry.go:64-67 ArtifactRegistryCredentials.GetDuration] *)
Definition ArtifactRegistryCredentials_GetDuration {Authn} (now : time) (a : ArtifactRegistryCredentials Authn) : Z :=
  time_Until now (arc_ExpiresAt a).
(** [src/auth/git.go:68-71 GitCredentials.GetDuration] *)
Definition GitCredentials_GetDuration (now : time) (g : GitCredentials) : Z := time_Until now (gc_ExpiresAt g).
(** [src/auth/restconfig.go:64-67 RESTConfig.GetDuration] *)
Definition RESTConfig_GetDuration (now : time) (r : RESTConfig) : Z := time_Until now (rc_ExpiresAt r).

(** What the cache holds: the dynamic types behind the interface [Token]. *)
Inductive item {T Authn : Type} :=
  | AccessToken (t : T)
  | Registry (c : ArtifactRegistryCredentials Authn)
  | Git (c : GitCredentials)
  | Cluster (c : RESTConfig).
Arguments item : clear implicits.

(** ** Options ([options.go]) *)

Section options.
Context {URL : Type}.

(** The functions that make options; each sets a field.  There is one client
    and one cache in the process.
    [src/auth/options.go:61-169 Option] *)
Inductive Option :=
  | WithClient
  | WithServiceAccountName (name : bytes)
  | WithServiceAccountNamespace (namespace : bytes)
  | WithCache (io : InvolvedObject)
  | WithAudiences (audiences : list bytes)
  | WithScopes (scopes : list bytes)
  | WithSTSRegion (stsRegion : bytes)
  | WithSTSEndpoint (stsEndpoint : bytes)
  | WithProxyURL (proxyURL : URL)
  | WithGitURL (gitURL : URL)
  | WithCAData (caData : bytes)
  | WithClusterResource (clusterResource : bytes)
  | WithClusterAddress (clusterAddress : bytes)
  | WithAllowShellOut.

(** [src/auth/options.go:32-50 Options] *)
Record authOptions := mkAuthOptions {
  o_Client : bool; o_Cache : bool;
  o_ServiceAccountName : bytes; o_ServiceAccountNamespace : bytes;
  o_InvolvedObject : InvolvedObject;
  o_Audiences : list bytes; o_Scopes : list bytes;
  o_STSRegion : bytes; o_STSEndpoint : bytes;
  o_ProxyURL : option URL; o_GitURL : option URL;
  o_CAData : bytes; o_ClusterResource : bytes; o_ClusterAddress : bytes;
  o_AllowShellOut : bool }.

Definition zeroOptions : authOptions :=
  mkAuthOptions false false [] [] (mkInvolvedObject "" "" "" "") [] [] [] [] None None [] [] [] false.

(** [src/auth/options.go:61-169 Option] *)
Definition apply_opt (o : authOptions) (x : Option) : authOptions :=
  let '(mkAuthOptions cl ca n ns io au sc re en pr gi cd cr ad sh) := o in
  match x with
  | WithClient => mkAuthOptions true ca n ns io au sc re en pr gi cd cr ad sh
  | WithServiceAccountName n => mkAuthOptions cl ca n ns io au sc re en pr gi cd cr ad sh
  | WithServiceAccountNamespace ns => mkAuthOptions cl ca n ns io au sc re en pr gi cd cr ad sh
  | WithCache io => mkAuthOptions cl true n ns io au sc re en pr gi cd cr ad sh
  | WithAudiences au => mkAuthOptions cl ca n ns io au sc re en pr gi cd cr ad sh
  | WithScopes sc => mkAuthOptions cl ca n ns io au sc re en pr gi cd cr ad sh
  | WithSTSRegion re => mkAuthOptions cl ca n ns io au sc re en pr gi cd cr ad sh
  | WithSTSEndpoint en => mkAuthOptions cl ca n ns io au sc re en pr gi cd cr ad sh
  | WithProxyURL u => mkAuthOptions cl ca n ns io au sc re en (Some u) gi cd cr ad sh
  | WithGitURL u => mkAuthOptions cl ca n ns io au sc re en pr (Some u) cd cr ad sh
  | WithCAData cd => mkAuthOptions cl ca n ns io au sc re en pr gi cd cr ad sh
  | WithClusterResource cr => mkAuthOptions cl ca n ns io au sc re en pr gi cd cr ad sh
  | WithClusterAddress ad => mkAuthOptions cl ca n ns io au sc re en pr gi cd cr ad sh
  | WithAllowShellOut => mkAuthOptions cl ca n ns io au sc re en pr gi cd cr ad true
  end.

(** [src/auth/options.go:171-176 Options.Apply] *)
Definition Apply (opts : list Option) : authOptions := foldl apply_opt zeroOptions opts.

(** [src/auth/options.go:52-59 Options.ShouldGetServiceAccountToken] *)
Definition ShouldGetServiceAccountToken (g : authConfig) (o : authOptions) : bool :=
  negb (is_empty (o_ServiceAccountNamespace o)) &&
  (negb (is_empty (o_ServiceAccountName o)) || negb (is_empty (getDefaultServiceAccount g))).
End options.
Arguments Option : clear implicits.
Arguments authOptions : clear implicits.

(** ** Providers ([provider.go] and the interfaces of the other files) *)

(** The methods that only read their arguments.  [P] is the type of the
    providers of the process, [E] that of the errors of third-party code.
    [src/auth/provider.go:25-54 Provider] *)
Class Provider (P E : Type) := {
  GetName : P → bytes;
  GetIdentity : P → ServiceAccount → E + bytes }.

(** [src/auth/registry.go:34-54 ArtifactRegistryCredentialsProvider] *)
Class ArtifactRegistryCredentialsProvider (P URL E : Type) := {
  GetAccessTokenOptionsForArtifactRepository : P → bytes → E + list (Option URL);
  ParseArtifactRepository : P → bytes → E + bytes }.

(** [src/auth/git.go:33-57 GitCredentialsProvider] *)
Class GitCredentialsProvider (P URL E : Type) := {
  GetAccessTokenOptionsForGitRepository : P → URL → E + list (Option URL);
  ParseGitRepository : P → URL → E + bytes }.

(** [src/auth/restconfig.go:34-53 RESTConfigProvider] *)
Class RESTConfigProvider (P URL E : Type) := {
  GetAccessTokenOptionsForCluster : P → list (Option URL) → E + list (list (Option URL)) }.

(** ** The closures that create tokens *)

Section code.
Context {P URL E T Authn : Type}.
Context `{!Provider P E} `{!ArtifactRegistryCredentialsProvider P URL E}.
Context `{!GitCredentialsProvider P URL E} `{!RESTConfigProvider P URL E}.
Context (URL_String : URL → bytes) (apiIsNotFound : E → bool) (g : authConfig).
Abbreviation token := (item T Authn).
Abbreviation opt := (Option URL).

(** The errors, with what they wrap. *)
Inductive aerr :=
  | ErrControllerToken (e : E)
  | ErrObjectLevelWorkloadIdentityNotEnabled
  | ErrCreateToken (sa : ObjectKey) (e : E)
  | ErrServiceAccountToken (sa : ObjectKey) (e : E)
  | ErrGetServiceAccount (key : ObjectKey) (e : E)
  | ErrDefaultServiceAccountNotFound (key : ObjectKey)
  | ErrAudience (e : E)
  | ErrIdentity (key : ObjectKey) (e : E)
  | ErrProvider (e : E)
  | ErrRegistryAccessToken (e : aerr)
  | ErrRegistryCredentials (e : E)
  | ErrGitURLRequired
  | ErrGitAccessToken (e : aerr)
  | ErrGitCredentials (e : E)
  | ErrClusterAccessToken (e : aerr).

(** The calls to the provider and to the API server that create something. *)
Inductive pcall :=
  | PNewControllerToken (p : P) (opts : list opt)
  | PCreateToken (sa : ServiceAccount) (audiences : list bytes)
  | PNewTokenForServiceAccount (p : P) (oidcToken : bytes) (sa : ServiceAccount) (opts : list opt)
  | PNewArtifactRegistryCredentials (p : P) (input : bytes) (accessToken : token) (opts : list opt)
  | PNewGitCredentials (p : P) (input : bytes) (accessToken : token) (opts : list opt)
  | PNewRESTConfig (p : P) (accessTokens : list token) (opts : list opt).
(** Each call reads its part of the answer. *)
Record preply := mkPReply {
  pr_err : option E; pr_oidcToken : bytes; pr_token : T;
  pr_registry : ArtifactRegistryCredentials Authn; pr_git : GitCredentials; pr_rest : RESTConfig }.

Definition answer {A} (wrap : E → aerr) (r : preply) (a : A) : aerr + A :=
  match pr_err r with Some e => inl (wrap e) | None => inr a end.

(** [src/auth/access_token.go:38-45 GetAccessToken] *)
Definition newControllerToken (p : P) (opts : list opt) : prog pcall preply (aerr + token) :=
  Call (PNewControllerToken p opts) (λ r, Ret (answer ErrControllerToken r (AccessToken (pr_token r)))).

(** [src/auth/access_token.go:64-91 GetAccessToken] *)
Definition newServiceAccountToken (p : P) (opts : list opt) (serviceAccount : ServiceAccount) (audiences : list bytes)
    : prog pcall preply (aerr + token) :=
  if negb (IsObjectLevelWorkloadIdentityEnabled g) then Ret (inl ErrObjectLevelWorkloadIdentityNotEnabled)
  else Call (PCreateToken serviceAccount audiences) (λ r,
    match answer (ErrCreateToken (sa_key serviceAccount)) r (pr_oidcToken r) with
    | inl e => Ret (inl e)
    | inr oidcToken =>
        Call (PNewTokenForServiceAccount p oidcToken serviceAccount opts) (λ r,
          Ret (answer (ErrServiceAccountToken (sa_key serviceAccount)) r (AccessToken (pr_token r))))
    end).

(** What a closure has captured.  [NewAccessToken] has the service account with
    its audiences and its identity, if there is one. *)
Inductive newFunc :=
  | NewAccessToken (p : P) (opts : list opt) (info : option (ServiceAccount * list bytes * bytes))
  | NewRegistryCredentials (p : P) (input : bytes) (accessToken : token) (opts : list opt)
  | NewGitCredentials (p : P) (input : bytes) (accessToken : token) (opts : list opt)
  | NewRESTConfig (p : P) (accessTokens : list token) (opts : list opt).

(** [src/auth/registry.go:105-112 GetArtifactRegistryCredentials] *)
Definition newArtifactRegistryCredentials (p : P) (input : bytes) (accessToken : token) (opts : list opt)
    : prog pcall preply (aerr + token) :=
  Call (PNewArtifactRegistryCredentials p input accessToken opts) (λ r,
    Ret (answer ErrRegistryCredentials r (Registry (pr_registry r)))).
(** [src/auth/git.go:103-110 GetGitCredentials] *)
Definition newGitCredentials (p : P) (input : bytes) (accessToken : token) (opts : list opt)
    : prog pcall preply (aerr + token) :=
  Call (PNewGitCredentials p input accessToken opts) (λ r, Ret (answer ErrGitCredentials r (Git (pr_git r)))).
(** [src/auth/restconfig.go:116-123 GetRESTConfig] *)
Definition newRESTConfig (p : P) (accessTokens : list token) (opts : list opt) : prog pcall preply (aerr + token) :=
  Call (PNewRESTConfig p accessTokens opts) (λ r, Ret (answer ErrProvider r (Cluster (pr_rest r)))).

Definition run_new (f : newFunc) : prog pcall preply (aerr + token) :=
  match f with
  | NewAccessToken p opts None => newControllerToken p opts
  | NewAccessToken p opts (Some (sa, audiences, _)) => newServiceAccountToken p opts sa audiences
  | NewRegistryCredentials p input tok opts => newArtifactRegistryCredentials p input tok opts
  | NewGitCredentials p input tok opts => newGitCredentials p input tok opts
  | NewRESTConfig p toks opts => newRESTConfig p toks opts
  end.

(** ** The calls of a request *)

Inductive acall :=
  | AGetServiceAccount (key : ObjectKey)
  | AGetAudiences (p : P) (sa : ServiceAccount)
  | ASum256 (text : bytes)
  (** without a cache *)
  | ANew (f : newFunc)
  | AGetOrSet (key : bytes) (f : newFunc) (io : InvolvedObject).
Record areply := mkAReply {
  ar_err : option E; ar_sa : ServiceAccount; ar_audiences : list bytes; ar_key : bytes; ar_token : aerr + token }.

(** Code that may return an error or panic. *)
Abbreviation action A := (prog acall areply (res (aerr + A))).
Definition eret {A} (a : A) : action A := Ret (Val (inr a)).
Definition throw {A} (e : aerr) : action A := Ret (Val (inl e)).
Definition panic {A} : action A := Ret Panics.
Definition ebind {A B} (m : action A) (f : A → action B) : action B :=
  m ≫= λ r, match r with Val (inr a) => f a | Val (inl e) => throw e | Panics => panic end.
Definition wrap_err {A} (w : aerr → aerr) (m : action A) : action A :=
  m ≫= λ r, Ret match r with Val (inl e) => Val (inl (w e)) | _ => r end.
Definition lift {A} (w : E → aerr) (r : E + A) : action A :=
  match r with inl e => throw (w e) | inr a => eret a end.
Local Notation "'let!' x ':=' m 'in' k" := (ebind m (λ x, k)) (at level 10, x pattern, m at level 100, k at level 200).

(** ** Keys *)

(** [fmt.Sprintf("label=%s", value)] *)
Definition part (lv : bytes * bytes) : bytes := lv.1 ++ "="%char :: lv.2.
Definition key_text (parts : list (bytes * bytes)) : bytes := strings_Join (part <$> parts) newline.

(** [src/auth/cache_key.go:25-29 buildCacheKey] *)
Definition buildCacheKey (parts : list (bytes * bytes)) : prog acall areply bytes :=
  Call (ASum256 (key_text parts)) (λ r, Ret (ar_key r)).

Definition comma : ascii := ","%char.
Definition when (b : bool) (l : list (bytes * bytes)) : list (bytes * bytes) := if b then l else [].

(** The parts of the key of an access token.
    [src/auth/access_token.go:166-210 buildAccessTokenCacheKey] *)
Definition access_parts (p : P) (audiences : list bytes) (providerIdentity : bytes)
    (serviceAccount : option ServiceAccount) (opts : list opt) : list (bytes * bytes) :=
  let o := Apply opts in
  let audiences := if length audiences =? 0 then o_Audiences o else audiences in
  [(str "provider", GetName p)] ++
  when (0 <? length audiences) [(str "audiences", strings_Join audiences comma)] ++
  match serviceAccount with
  | Some sa => [(str "providerIdentity", providerIdentity); (str "serviceAccountName", sa_Name sa);
                (str "serviceAccountNamespace", sa_Namespace sa)]
  | None => []
  end ++
  when (0 <? length (o_Scopes o)) [(str "scopes", strings_Join (o_Scopes o) comma)] ++
  when (negb (is_empty (o_STSRegion o))) [(str "stsRegion", o_STSRegion o)] ++
  when (negb (is_empty (o_STSEndpoint o))) [(str "stsEndpoint", o_STSEndpoint o)] ++
  match o_ProxyURL o with Some u => [(str "proxyURL", URL_String u)] | None => [] end ++
  when (negb (is_empty (o_CAData o))) [(str "caData", o_CAData o)].

(** What [getServiceAccountAndProviderInfo] returns. *)
Definition saInfo : Type := ServiceAccount * list bytes * bytes.

Definition access_key (p : P) (info : option saInfo) (opts : list opt) : list (bytes * bytes) :=
  match info with
  | Some (sa, audiences, identity) => access_parts p audiences identity (Some sa) opts
  | None => access_parts p [] [] None opts
  end.

(** [src/auth/access_token.go:166-210 buildAccessTokenCacheKey] *)
Definition buildAccessTokenCacheKey (p : P) (info : option saInfo) (opts : list opt) : prog acall areply bytes :=
  buildCacheKey (access_key p info opts).

(** ** Access tokens ([access_token.go]) *)

(** A call on a client that is nil panics.
    [src/auth/access_token.go:119-164 getServiceAccountAndProviderInfo] *)
Definition getServiceAccountAndProviderInfo (p : P) (key : ObjectKey) (opts : list opt) : action saInfo :=
  let o := Apply opts in
  let defaultSA := getDefaultServiceAccount g in
  let setDefaultSA := is_empty (k_Name key) && negb (is_empty defaultSA) in
  let key := if setDefaultSA then mkKey (k_Namespace key) defaultSA else key in
  if negb (o_Client o) then panic
  else Call (AGetServiceAccount key) (λ r,
    match ar_err r with
    | Some e => throw (if apiIsNotFound e && setDefaultSA then ErrDefaultServiceAccountNotFound key
                       else ErrGetServiceAccount key e)
    | None =>
        let serviceAccount := ar_sa r in
        let! audiences :=
          if length (o_Audiences o) =? 0 then
            Call (AGetAudiences p serviceAccount) (λ r,
              match ar_err r with Some e => throw (ErrAudience e) | None => eret (ar_audiences r) end)
          else eret (o_Audiences o) in
        let! providerIdentity := lift (ErrIdentity key) (GetIdentity p serviceAccount) in
        eret (serviceAccount, audiences, providerIdentity)
    end).

(** The block that the four functions share.
    [src/auth/access_token.go:47-62 GetAccessToken] *)
Definition serviceAccountInfo (p : P) (opts : list opt) : action (option saInfo) :=
  let o := Apply opts in
  if ShouldGetServiceAccountToken g o then
    let! info := getServiceAccountAndProviderInfo p (mkKey (o_ServiceAccountNamespace o) (o_ServiceAccountName o)) opts in
    eret (Some info)
  else eret None.

Definition of_reply (r : areply) : action token :=
  match ar_token r with inl e => throw e | inr tok => eret tok end.

(** [src/auth/access_token.go:32-117 GetAccessToken] *)
Definition GetAccessToken (p : P) (opts : list opt) : action token :=
  let o := Apply opts in
  let! info := serviceAccountInfo p opts in
  let newAccessToken := NewAccessToken p opts info in
  if negb (o_Cache o) then Call (ANew newAccessToken) of_reply
  else buildAccessTokenCacheKey p info opts ≫= λ cacheKey,
       Call (AGetOrSet cacheKey newAccessToken (o_InvolvedObject o)) of_reply.

(** ** Credentials of artifact registries ([registry.go]) *)

(** The type assertions on what the cache returns. *)
Definition as_registry (t : token) : action (ArtifactRegistryCredentials Authn) :=
  match t with Registry c => eret c | _ => panic end.
Definition as_git (t : token) : action GitCredentials := match t with Git c => eret c | _ => panic end.
Definition as_cluster (t : token) : action RESTConfig := match t with Cluster c => eret c | _ => panic end.

(** The end of [GetArtifactRegistryCredentials] and of [GetGitCredentials]: the
    credentials from [f], through the cache if there is one.
    [src/auth/registry.go:114-158 GetArtifactRegistryCredentials] *)
Definition cached_credentials (p : P) (opts accessTokenOpts : list opt) (label input : bytes) (f : newFunc) : action token :=
  let o := Apply opts in
  if negb (o_Cache o) then Call (ANew f) of_reply
  else
    let! info := serviceAccountInfo p opts in
    buildAccessTokenCacheKey p info accessTokenOpts ≫= λ accessTokenCacheKey,
    buildCacheKey [(str "accessTokenCacheKey", accessTokenCacheKey); (label, input)] ≫= λ cacheKey,
    Call (AGetOrSet cacheKey f (o_InvolvedObject o)) of_reply.

(** [src/auth/registry.go:83-159 GetArtifactRegistryCredentials] *)
Definition GetArtifactRegistryCredentials (p : P) (artifactRepository : bytes) (opts : list opt)
    : action (ArtifactRegistryCredentials Authn) :=
  let! registryInput := lift ErrProvider (ParseArtifactRepository p artifactRepository) in
  let! accessTokenOpts := lift ErrProvider (GetAccessTokenOptionsForArtifactRepository p artifactRepository) in
  let accessTokenOpts := opts ++ accessTokenOpts in
  let! accessToken := wrap_err ErrRegistryAccessToken (GetAccessToken p accessTokenOpts) in
  let! creds := cached_credentials p opts accessTokenOpts (str "artifactRepositoryCacheKey") registryInput
                  (NewRegistryCredentials p registryInput accessToken opts) in
  as_registry creds.

(** ** Git credentials ([git.go]) *)

(** [src/auth/git.go:73-154 GetGitCredentials] *)
Definition GetGitCredentials (p : P) (opts : list opt) : action GitCredentials :=
  let o := Apply opts in
  match o_GitURL o with
  | None => throw ErrGitURLRequired
  | Some gitURL =>
      let! gitInput := lift ErrProvider (ParseGitRepository p gitURL) in
      let! accessTokenOpts := lift ErrProvider (GetAccessTokenOptionsForGitRepository p gitURL) in
      let accessTokenOpts := opts ++ accessTokenOpts in
      let! accessToken := wrap_err ErrGitAccessToken (GetAccessToken p accessTokenOpts) in
      let! creds := cached_credentials p opts accessTokenOpts (str "gitRepositoryCacheKey") gitInput
                      (NewGitCredentials p gitInput accessToken opts) in
      as_git creds
  end.

(** ** Configurations of clusters ([restconfig.go]) *)

(** [src/auth/restconfig.go:106-114 GetRESTConfig] *)
Fixpoint tokens_loop (p : P) (accessTokenOpts : list (list opt)) (accessTokens : list token) : action (list token) :=
  match accessTokenOpts with
  | [] => eret accessTokens
  | opts :: rest =>
      let! token := wrap_err ErrClusterAccessToken (GetAccessToken p opts) in
      tokens_loop p rest (accessTokens ++ [token])
  end.

(** [src/auth/restconfig.go:146-150 GetRESTConfig] *)
Fixpoint keys_loop (p : P) (info : option saInfo) (i : nat) (accessTokenOpts : list (list opt))
    (cacheKeyParts : list (bytes * bytes)) : prog acall areply (list (bytes * bytes)) :=
  match accessTokenOpts with
  | [] => Ret cacheKeyParts
  | atOpts :: rest =>
      buildAccessTokenCacheKey p info atOpts ≫= λ key,
      keys_loop p info (S i) rest (cacheKeyParts ++ [(str "accessToken" ++ Itoa (Z.of_nat i) ++ str "CacheKey", key)])
  end.

(** [src/auth/restconfig.go:92-175 GetRESTConfig] *)
Definition GetRESTConfig (p : P) (opts : list opt) : action RESTConfig :=
  let o := Apply opts in
  let! accessTokenOpts := lift ErrProvider (GetAccessTokenOptionsForCluster p opts) in
  let accessTokenOpts := app opts <$> accessTokenOpts in
  let! accessTokens := tokens_loop p accessTokenOpts [] in
  let f := NewRESTConfig p accessTokens opts in
  let! tok :=
    (if negb (o_Cache o) then Call (ANew f) of_reply
     else
       let! info := serviceAccountInfo p opts in
       keys_loop p info 0 accessTokenOpts [] ≫= λ cacheKeyParts,
       buildCacheKey (cacheKeyParts ++ when (negb (is_empty (o_ClusterResource o))) [(str "cluster", o_ClusterResource o)]
                        ++ when (negb (is_empty (o_ClusterAddress o))) [(str "address", o_ClusterAddress o)]) ≫= λ cacheKey,
       Call (AGetOrSet cacheKey f (o_InvolvedObject o)) of_reply) in
  as_cluster tok.
End code.

(** ** What the providers share *)

Section shared.
Context {E : Type}.

(** [name.ParseReference] up to the registry of the reference is a parameter.
    [src/auth/registry.go:69-81 GetRegistryFromArtifactRepository] *)
Definition GetRegistryFromArtifactRepository (ParseReference : bytes → E + bytes) (artifactRepository : bytes) : E + bytes :=
  let registry := TrimSuffix artifactRepository (str "/") in
  if has_byte "/" registry then ParseReference registry else inr registry.

Inductive address_err := EmptyAddress | AddressParseErr (address : bytes) (e : E) | AddressNotHTTPS (address : bytes).

(** [src/auth/restconfig.go:69-90 ParseClusterAddress] *)
Definition ParseClusterAddress `{Unicode} (url_Parse : bytes → E + GoText.URL) (address : bytes) : address_err + bytes :=
  if is_empty address then inl EmptyAddress
  else
    let address := if negb (HasPrefix address (str "http")) then str "https://" ++ address else address in
    match url_Parse address with
    | inl e => inl (AddressParseErr address e)
    | inr u =>
        if negb (bool_decide (u_Scheme u = str "https")) then inl (AddressNotHTTPS address)
        else
          let host := u_Host u ++ (if is_empty (Port u) then str ":443" else []) in
          inr (str "https://" ++ strings_ToLower host)
    end.
End shared.
Arguments address_err : clear implicits.
