(* ===== verification/AuthKeys.v ===== *)
(** * Keys of cached credentials

    The text that is hashed for a key is a list of lines [label=value].  It
    determines the list, so that requests share a key only if they agree on
    every part, as long as no value but the last has a line break. *)

From S2P Require Import Prelude Utf8 GoPath GoText Sha256 Interaction CacheMetrics GoStd Lru TokenCache Auth.

(** ** Texts *)

(** The labels of values that may have line breaks; they come last. *)
Definition final_labels : list bytes :=
  [str "caData"; str "artifactRepositoryCacheKey"; str "gitRepositoryCacheKey"; str "address"].
Definition final (l : bytes) : bool := bool_decide (l ∈ final_labels).

Definition one_line (b : bytes) : Prop := newline ∉ b.
#[global] Instance one_line_dec b : Decision (one_line b).
Proof. apply _. Defined.

Fixpoint good (parts : list (bytes * bytes)) : Prop :=
  match parts with
  | [] => True
  | (l, v) :: parts => ("="%char ∉ l) ∧ (if final l then parts = [] else one_line v) ∧ good parts
  end.

Lemma cut_unique (c : ascii) a b x y : c ∉ a → c ∉ b → a ++ c :: x = b ++ c :: y → a = b ∧ x = y.
Proof.
  revert b. induction a as [|d a IH]; intros [|e b] Ha Hb Heq; simplify_eq/=.
  - done.
  - set_solver.
  - set_solver.
  - destruct (IH b) as [-> ->]; set_solver.
Qed.

(** The rest of a text after a part. *)
Definition rest_text (parts : list (bytes * bytes)) : bytes :=
  match parts with [] => [] | _ => newline :: key_text parts end.

Lemma key_text_cons lv parts : key_text (lv :: parts) = lv.1 ++ "="%char :: lv.2 ++ rest_text parts.
Proof.
  unfold key_text, rest_text, part. destruct parts as [|lv' parts]; cbn [fmap list_fmap strings_Join].
  - by rewrite app_nil_r.
  - by rewrite <-app_assoc.
Qed.

Lemma rest_text_inj v w l1 l2 :
  one_line v → one_line w → v ++ rest_text l1 = w ++ rest_text l2 → v = w ∧ key_text l1 = key_text l2 ∧ (l1 = [] ↔ l2 = []).
Proof.
  unfold one_line. intros Hv Hw. destruct l1 as [|a l1], l2 as [|b l2]; cbn [rest_text]; rewrite ?app_nil_r.
  - done.
  - intros ->. set_solver.
  - intros <-. set_solver.
  - by intros [-> ->]%cut_unique.
Qed.

(** A text determines its parts. *)
Lemma key_text_inj l1 l2 : good l1 → good l2 → key_text l1 = key_text l2 → l1 = l2.
Proof.
  revert l2. induction l1 as [|[l v] l1 IH]; intros [|[l' v'] l2] G1 G2; rewrite ?key_text_cons; cbn [fst snd].
  - done.
  - intros Heq. apply (f_equal length) in Heq. rewrite length_app in Heq. cbn in Heq. lia.
  - intros Heq. apply (f_equal length) in Heq. rewrite length_app in Heq. cbn in Heq. lia.
  - cbn [good] in G1, G2. destruct G1 as (Hl & Hf & G1), G2 as (Hl' & Hf' & G2).
    intros [-> Heq]%cut_unique; [|done..]. destruct (final l').
    + subst. rewrite !app_nil_r in Heq. by subst.
    + apply rest_text_inj in Heq as (-> & Ht & _); [|done..]. by rewrite (IH l2).
Qed.

(** ** Values by label *)

Fixpoint value (l : bytes) (parts : list (bytes * bytes)) : option bytes :=
  match parts with
  | [] => None
  | (l', v) :: parts => if bool_decide (l = l') then Some v else value l parts
  end.

Lemma value_app l a b : value l (a ++ b) = match value l a with Some v => Some v | None => value l b end.
Proof. induction a as [|[l' v] a IH]; cbn; [done|]. by case_bool_decide. Qed.

Lemma value_when_ne l l' v b : bool_decide (l = l') = false → value l (when b [(l', v)]) = None.
Proof. intros H. destruct b; cbn; [by rewrite H|done]. Qed.

(** Parts that are not the last. *)
Definition label_ok (l : bytes) : bool := bool_decide ("="%char ∉ l) && negb (final l).
Definition plain (parts : list (bytes * bytes)) : Prop :=
  Forall (λ lv, label_ok lv.1 = true ∧ one_line lv.2) parts.

Lemma good_plain a b : plain a → good b → good (a ++ b).
Proof.
  induction 1 as [|[l v] a [Hl Hv] Ha IH]; [done|]. cbn [fst snd] in *. intros Hb. cbn [app good].
  apply andb_true_iff in Hl as [Hl Hf]. apply bool_decide_eq_true in Hl. apply negb_true_iff in Hf.
  rewrite Hf. auto.
Qed.

Lemma plain_one l v : label_ok l = true → one_line v → plain [(l, v)].
Proof. by repeat constructor. Qed.
Lemma plain_when b parts : plain parts → plain (when b parts).
Proof. destruct b; [done|constructor]. Qed.
Lemma plain_app a b : plain a → plain b → plain (a ++ b).
Proof. apply Forall_app_2. Qed.
Lemma plain_nil : plain [].
Proof. constructor. Qed.

Lemma good_last b l v : bool_decide ("="%char ∉ l) = true → final l = true → good (when b [(l, v)]).
Proof. intros Hl%bool_decide_eq_true Hf. destruct b; cbn; [by rewrite Hf|done]. Qed.

Lemma one_line_app a b : one_line a → one_line b → one_line (a ++ b).
Proof. unfold one_line. set_solver. Qed.

Lemma one_line_join l : Forall one_line l → one_line (strings_Join l comma).
Proof.
  unfold one_line. induction 1 as [|x [|y l] Hx Hl IH]; cbn [strings_Join]; [set_solver|done|].
  rewrite not_elem_of_app, not_elem_of_cons. split_and!; [done..|exact IH].
Qed.

(** A number has no byte below the digits or above them. *)
Lemma Itoa_digits n c : (0 <= n)%Z → c ∈ Itoa n → (48 <= bval c <= 57)%Z.
Proof.
  assert (∀ d, (0 <= d < 10)%Z → c ∈ [digit d] → (48 <= bval c <= 57)%Z) as Hd.
  { intros d Hd ->%list_elem_of_singleton. unfold digit. rewrite bval_byte_of; lia. }
  unfold Itoa. generalize 20. intros fuel. revert n. induction fuel as [|fuel IH]; intros n Hn; cbn [itoa_fuel].
  { by intros ?%elem_of_nil. }
  destruct (Z.ltb_spec n 10); [by apply Hd|]. intros [Hc|Hc]%elem_of_app.
  - apply (IH (n / 10)%Z); [apply Z.div_pos; lia|done].
  - apply (Hd (n mod 10)%Z); [apply Z.mod_pos_bound; lia|done].
Qed.

(** The labels of the access tokens of a cluster. *)
Lemma label_ok_token i : label_ok (str "accessToken" ++ Itoa (Z.of_nat i) ++ str "CacheKey") = true.
Proof.
  unfold label_ok. apply andb_true_iff. split.
  - apply bool_decide_eq_true. rewrite !not_elem_of_app. split_and!; [by apply (bool_decide_unpack _)| |by apply (bool_decide_unpack _)].
    intros Hin%Itoa_digits; [|lia]. change (bval "=") with 61%Z in Hin. lia.
  - apply negb_true_iff, bool_decide_eq_false. unfold final_labels. rewrite !elem_of_cons, elem_of_nil.
    intros H. destruct_or! H; try discriminate H; done.
Qed.

Create HintDb keys.
#[export] Hint Resolve plain_one plain_when plain_app plain_nil one_line_join : keys.
