(* ===== verification/AuthRuns.v ===== *)
(** * Runs of requests for credentials

    Requests run at the same time and share one token cache.  A run is an
    interleaving of their calls; [history] says what the environment may answer:
    the API server returns the service account that was asked for, SHA-256 is
    computed, the cache behaves as [TokenCache], and a token is created by
    running its closure, whose calls to the provider may be answered in any way.
    [history] also has the log of the closures that ran, with their calls to the
    provider: a token that comes from the cache adds nothing to it. *)

From S2P Require Import Prelude CacheMetrics GoStd Lru TokenCache Utf8 GoPath GoText Sha256 Interaction Auth AuthKeys.

Section runs.
Context {P URL E T Authn : Type} `{!Inhabited T} `{!Inhabited Authn}.
Context (g : authConfig).
Abbreviation token := (item T Authn).
Abbreviation opt := (Option URL).
Abbreviation err := (aerr (E := E)).
Abbreviation acall := (acall (P := P) (URL := URL) (T := T) (Authn := Authn)).
Abbreviation areply := (areply (E := E) (T := T) (Authn := Authn)).
Abbreviation newFunc := (newFunc (P := P) (URL := URL) (T := T) (Authn := Authn)).

(** The time until a token of the provider expires, and the error interface
    values of the errors. *)
Context (T_Until : time → T → Z) (as_error : err → error).
(** What may be assumed of the service accounts in the cluster. *)
Context (sa_ok : ServiceAccount → Prop).

#[global] Instance item_inhabited : Inhabited token := populate (AccessToken inhabitant).

Definition GetDuration (now : time) (t : token) : Z :=
  match t with
  | AccessToken t => T_Until now t
  | Registry c => ArtifactRegistryCredentials_GetDuration now c
  | Git c => GitCredentials_GetDuration now c
  | Cluster c => RESTConfig_GetDuration now c
  end.

Abbreviation pcall := (pcall (P := P) (URL := URL) (T := T) (Authn := Authn)).
Abbreviation preply := (preply (E := E) (T := T) (Authn := Authn)).

(** A closure that ran, with its calls to the provider and its result. *)
Definition creation : Type := newFunc * list (pcall * preply) * (err + token).

(** The calls to the provider that a closure makes for a token. *)
Definition provider_calls (f : newFunc) (t : list (pcall * preply)) (tok : token) : Prop :=
  match f with
  | NewAccessToken p opts None => ∃ r, t = [(PNewControllerToken p opts, r)] ∧ tok = AccessToken (pr_token r)
  | NewAccessToken p opts (Some (sa, audiences, _)) => ∃ r r',
      t = [(PCreateToken sa audiences, r); (PNewTokenForServiceAccount p (pr_oidcToken r) sa opts, r')] ∧
      tok = AccessToken (pr_token r') ∧ IsObjectLevelWorkloadIdentityEnabled g = true
  | NewRegistryCredentials p input tok' opts => ∃ r,
      t = [(PNewArtifactRegistryCredentials p input tok' opts, r)] ∧ tok = Registry (pr_registry r)
  | NewGitCredentials p input tok' opts => ∃ r, t = [(PNewGitCredentials p input tok' opts, r)] ∧ tok = Git (pr_git r)
  | NewRESTConfig p toks opts => ∃ r, t = [(PNewRESTConfig p toks opts, r)] ∧ tok = Cluster (pr_rest r)
  end.

Lemma run_new_calls f t tok : runs (run_new g f) t (inr tok) → provider_calls f t tok.
Proof.
  assert (∀ (c : pcall) w (F : preply → token) t0, runs (Call c (λ r, Ret (answer w r (F r)))) t0 (inr tok) →
    ∃ r, t0 = [(c, r)] ∧ tok = F r) as Hone.
  { intros c w F t0 (r & t' & -> & [-> Hr]%runs_ret_inv)%runs_call_inv. unfold answer in Hr.
    destruct (pr_err r); simplify_eq. by exists r. }
  destruct f as [p opts [[[sa auds] i]|]|p input tok' opts|p input tok' opts|p toks opts]; cbn [run_new];
    try apply Hone.
  unfold newServiceAccountToken. destruct (IsObjectLevelWorkloadIdentityEnabled g) eqn:Hg; cbn [negb];
    [|by intros [_ [=]]%runs_ret_inv].
  intros (r & t' & -> & Hr)%runs_call_inv. unfold answer at 1 in Hr.
  destruct (pr_err r); [by apply runs_ret_inv in Hr as [_ [=]]|]. apply Hone in Hr as (r' & -> & ->). by exists r, r'.
Qed.

(** The token was created in the run, by this closure. *)
Definition created (log : list creation) (f : newFunc) (tok : token) : Prop :=
  ∃ t, (f, t, inr tok) ∈ log ∧ provider_calls f t tok.

Lemma created_mono log log' f tok : log ⊆ log' → created log f tok → created log' f tok.
Proof. intros Hl (t & Hin & Hc). exists t. split; [by apply Hl|done]. Qed.

(** ** What the environment answers *)

Definition fetched (o : err + token) : token + error :=
  match o with inl e => inr (as_error e) | inr tok => inl tok end.

(** The answer of the cache to a request: its token, or the error of the closure. *)
Definition cache_reply (o : err + token) (r : option token * bool * option error) (a : err + token) : Prop :=
  match r with
  | (Some tok, _, None) => a = inr tok
  | (_, _, Some _) => a = o
  | _ => False
  end.

(** The closure runs when the cache has no token that it can return. *)
Definition fetch_log (f : newFunc) (o : err + token) (retrieved : bool) (log : list creation) : Prop :=
  if retrieved then log = [] else ∃ t, runs (run_new g f) t o ∧ log = [(f, t, o)].

Inductive answers : TokenCache (Token := token) → acall → areply → list creation → TokenCache (Token := token) → Prop :=
  | answer_sa c key r : (ar_err r = None → sa_key (ar_sa r) = key ∧ sa_ok (ar_sa r)) → answers c (AGetServiceAccount key) r [] c
  | answer_audiences c p sa r : Forall one_line (ar_audiences r) → answers c (AGetAudiences p sa) r [] c
  | answer_sum c text r : ar_key r = hex (sha256_Sum256 text) → answers c (ASum256 text) r [] c
  | answer_new c f r t : runs (run_new g f) t (ar_token r) → answers c (ANew f) r [(f, t, ar_token r)] c
  | answer_cache c key f io r now now' o c' res log :
      TokenCache_GetOrSet (GetDuration now') c (String.string_of_list_ascii key) now now' (fetched o)
        [WithInvolvedObject (Kind io) (Name io) (Namespace io) (Operation io)] = Some (c', res) →
      fetch_log f o res.1.2 log →
      cache_reply o res (ar_token r) →
      answers c (AGetOrSet key f io) r log c'.

Inductive history : TokenCache (Token := token) → list (acall * areply) → list creation → TokenCache (Token := token) → Prop :=
  | history_nil c : history c [] [] c
  | history_cons c c' c'' q r t log log' :
      answers c q r log c' → history c' t log' c'' → history c ((q, r) :: t) (log ++ log') c''.

(** ** Where a token in the cache comes from *)

(** The tokens of the cache were created by closures that the calls [past] asked
    for under the same key. *)
Definition origin (past : list (acall * areply)) (log : list creation) (l : list (string * tokenItem (Token := token))) : Prop :=
  ∀ k ti, (k, ti) ∈ l → ∃ key f io r, (AGetOrSet key f io, r) ∈ past ∧
    k = String.string_of_list_ascii key ∧ created log f (TokenCache.token ti).

Lemma origin_mono past past' log log' l : past ⊆ past' → log ⊆ log' → origin past log l → origin past' log' l.
Proof.
  intros Hp Hl Ho k ti (key & f & io & r & Hin & Hk & Hc)%Ho. exists key, f, io, r.
  split_and!; [by apply Hp|done|by apply (created_mono log)].
Qed.

Lemma GetOrSet_origin dur c l past past' log log' key f io now now' o opts r c' res :
  lru_rep (tcache c) l → origin past log l →
  TokenCache_GetOrSet dur c (String.string_of_list_ascii key) now now' (fetched o) opts = Some (c', res) →
  fetch_log f o res.1.2 log' → cache_reply o res (ar_token r) → past' = past ++ [(AGetOrSet key f io, r)] →
  ∃ l', lru_rep (tcache c') l' ∧ origin past' (log ++ log') l' ∧
    ∀ tok, ar_token r = inr tok → ∃ f' io' r', (AGetOrSet key f' io', r') ∈ past' ∧ created (log ++ log') f' tok.
Proof.
  intros Hr Ho. unfold TokenCache_GetOrSet. cbv zeta. set (k := String.string_of_list_ascii key).
  match goal with |- context [LRU_GetIfOrSet _ _ ?cond ?fetch ?opts] =>
    destruct (GetIfOrSet_refines (tcache c) l k cond fetch opts Hr) as (c1 & -> & Hr1 & _ & _) end.
  unfold spec_GetIfOrSet in *. intros Hget Hlog Ha ->. set (past' := past ++ [(AGetOrSet key f io, r)]).
  assert (∀ l', (∀ k' ti, (k', ti) ∈ l' → (k', ti) ∈ l ∨ k' = k ∧ created (log ++ log') f (TokenCache.token ti)) →
    origin past' (log ++ log') l') as Horig.
  { intros l' Hl' k' ti [Hin|[-> Hout]]%Hl'; [|exists key, f, io, r; set_solver].
    apply (origin_mono past past' log (log ++ log') l); [set_solver..|done|done]. }
  assert (∀ tok, created (log ++ log') f tok → ∃ f' io' r', (AGetOrSet key f' io', r') ∈ past' ∧
      created (log ++ log') f' tok) as Hown by (intros tok ?; exists f, io, r; set_solver).
  assert (∀ tok t, runs (run_new g f) t (inr tok) → log' = [(f, t, inr tok)] → created (log ++ log') f tok) as Hnew.
  { intros tok t Hrun%run_new_calls ->. exists t. split; [set_solver|done]. }
  destruct (lru_find k l) as [ti|] eqn:Hf; [destruct (negb (expired ti now)) eqn:He|].
  - pose proof Hf as Hin. unfold lru_find in Hin. apply elem_of_list_to_map_2 in Hin.
    cbn in Hr1, Hget. injection Hget as <- <-. cbn in Ha, Hlog. eexists; split_and!; [exact Hr1| |].
    + apply Horig. intros k' ti' [?|[= -> ->]]%elem_of_touch; auto.
    + rewrite Ha. intros tok [= <-]. destruct (Ho _ _ Hin) as (key' & f' & io' & r' & Hp & Hk & Hout).
      assert (key = key') as <-.
      { unfold k in Hk. apply (f_equal String.list_ascii_of_string) in Hk. by rewrite !String.list_ascii_of_string_of_list_ascii in Hk. }
      exists f', io', r'. split; [set_solver|].
      apply (created_mono log); [set_solver|done].
  - destruct o as [e|tok]; cbn in Hr1, Hget; injection Hget as <- <-; cbn in Ha, Hlog;
      destruct Hlog as (t & Hrun & Hlog); (eexists; split_and!; [exact Hr1| |]).
    + apply Horig. intros k' ti' ?%elem_of_remove. auto.
    + rewrite Ha. done.
    + apply Horig. intros k' ti' [?|[= -> ->]]%elem_of_touch; [by left|]. right. split; [done|]. by apply (Hnew _ t).
    + rewrite Ha. intros tok' [= <-]. eauto.
  - destruct o as [e|tok]; cbn in Hr1, Hget; injection Hget as <- <-; cbn in Ha, Hlog;
      destruct Hlog as (t & Hrun & Hlog); (eexists; split_and!; [exact Hr1| |]).
    + apply Horig. intros k' ti' ?%elem_of_remove. auto.
    + rewrite Ha. done.
    + apply Horig. intros k' ti' [?|[= -> ->]]%elem_of_touch; [by left|]. right. split; [done|]. by apply (Hnew _ t).
    + rewrite Ha. intros tok' [= <-]. eauto.
Qed.

(** What is known of the answers of a run [ev] with the creations [log]: [J]
    holds of what is in the cache. *)
Definition law (ev : list (acall * areply)) (log : list creation) (J : bytes → newFunc → Prop) (q : acall) (r : areply) : Prop :=
  match q with
  | AGetServiceAccount key => ar_err r = None → sa_key (ar_sa r) = key ∧ sa_ok (ar_sa r)
  | AGetAudiences _ _ => Forall one_line (ar_audiences r)
  | ASum256 text => (ASum256 text, r) ∈ ev ∧ ar_key r = hex (sha256_Sum256 text)
  | ANew f => ∀ tok, ar_token r = inr tok → created log f tok
  | AGetOrSet key _ _ => ∀ tok, ar_token r = inr tok → ∃ f, J key f ∧ created log f tok
  end.

Definition asked (ev : list (acall * areply)) (key : bytes) (f : newFunc) : Prop :=
  ∃ io r, (AGetOrSet key f io, r) ∈ ev.

Lemma answers_law c l past done q r log c' past' rest :
  lru_rep (tcache c) l → origin past done l → answers c q r log c' → past' = past ++ [(q, r)] →
  ∃ l', lru_rep (tcache c') l' ∧ origin past' (done ++ log) l' ∧
    ∀ ev, past' ⊆ ev → law ev ((done ++ log) ++ rest) (asked ev) q r.
Proof.
  intros Hr Ho Ha ->.
  assert (origin (past ++ [(q, r)]) (done ++ log) l) as Hext by (by apply (origin_mono past _ done); [set_solver..|]).
  inversion Ha; subst; try (exists l; split_and!; [done..|]; intros ev Hev; cbn; try done; set_solver).
  - exists l; split_and!; [done..|]. intros ev Hev tok Htok. exists t. rewrite Htok. split; [set_solver|].
    apply run_new_calls. by rewrite <-Htok.
  - edestruct GetOrSet_origin as (l' & ? & ? & Htok); [exact Hr|exact Ho|done..|].
    exists l'. split_and!; [done..|]. intros ev Hev. cbn. intros tok (f' & io' & r' & Hin & Hout)%Htok.
    exists f'. split; [exists io', r'; by apply Hev|]. apply (created_mono (done ++ log)); [set_solver|done].
Qed.

Lemma history_laws c ev log c' past done l :
  lru_rep (tcache c) l → origin past done l → history c ev log c' →
  Forall (λ e, law (past ++ ev) (done ++ log) (asked (past ++ ev)) e.1 e.2) ev.
Proof.
  intros Hr Ho Hh. revert past done l Hr Ho.
  induction Hh as [c|c c1 c2 q r t log log' Ha Hh IH]; intros past done l Hr Ho; [constructor|].
  rewrite (cons_middle (q, r) past t), !app_assoc.
  destruct (answers_law c l past done q r log c1 _ log' Hr Ho Ha eq_refl) as (l' & Hr' & Ho' & Hlaw).
  constructor; [apply Hlaw; set_solver|]. by apply (IH _ _ l').
Qed.
End runs.
