(* ===== verification/AuthSpec.v ===== *)
(** * Credentials are not shared between tenants

    Whatever requests run at the same time over one cache, a request that names
    a service account gets tokens and credentials that were made from a token
    of this service account, for the provider and with the parameters it asked
    for. *)

From S2P Require Import Prelude CacheMetrics GoStd Lru TokenCache Utf8 GoPath GoText Sha256 Interaction Auth AuthKeys AuthRuns.

(** Opens an existential hypothesis. *)
Ltac destruct_exists := match goal with H : ex _ |- _ => destruct H end.

Local Notation "'let!' x ':=' m 'in' k" := (ebind m (λ x, k)) (at level 10, x pattern, m at level 100, k at level 200).

(** ** Laws of the providers *)

(** The options that a provider adds to those of the request. *)
Definition scoped {URL} (x : Option URL) : Prop :=
  match x with
  | WithAudiences l | WithScopes l => Forall one_line l
  | WithSTSRegion r => one_line r
  | _ => False
  end.

(** What the keys rely on: names and identities have no line breaks, and a
    provider adds audiences, scopes and regions only.  [sa_ok] and [url_ok] say
    which service accounts and URLs a provider needs for that. *)
Class ProviderLaws (P URL E : Type) `{!Provider P E} `{!ArtifactRegistryCredentialsProvider P URL E}
    `{!GitCredentialsProvider P URL E} `{!RESTConfigProvider P URL E}
    (sa_ok : ServiceAccount → Prop) (url_ok : URL → Prop) : Prop := {
  law_name p : one_line (GetName (E := E) p);
  law_identity p sa i : sa_ok sa → one_line (sa_Namespace sa) → one_line (sa_Name sa) →
    GetIdentity (E := E) p sa = inr i → one_line i;
  law_registry p r (l : list (Option URL)) : one_line r →
    GetAccessTokenOptionsForArtifactRepository (E := E) p r = inr l → Forall scoped l;
  law_git p (u : URL) l : url_ok u →
    GetAccessTokenOptionsForGitRepository (E := E) p u = inr l → Forall scoped l;
  law_cluster p (opts : list (Option URL)) l :
    Forall one_line (o_Audiences (Apply opts)) → one_line (o_ClusterResource (Apply opts)) →
    one_line (o_ClusterAddress (Apply opts)) →
    GetAccessTokenOptionsForCluster (E := E) p opts = inr l → Forall (Forall scoped) l }.

Section spec.
Context {P URL E T Authn : Type} `{!Inhabited T} `{!Inhabited Authn}.
Context `{!Provider P E} `{!ArtifactRegistryCredentialsProvider P URL E}.
Context `{!GitCredentialsProvider P URL E} `{!RESTConfigProvider P URL E}.
Context (sa_ok : ServiceAccount → Prop) (url_ok : URL → Prop) `{!ProviderLaws P URL E sa_ok url_ok}.
Context (URL_String : URL → bytes) (apiIsNotFound : E → bool) (g : authConfig).
Abbreviation token := (item T Authn).
Abbreviation opt := (Option URL).
Abbreviation err := (aerr (E := E)).
Abbreviation acall := (acall (P := P) (URL := URL) (T := T) (Authn := Authn)).
Abbreviation areply := (areply (E := E) (T := T) (Authn := Authn)).
Abbreviation newFunc := (newFunc (P := P) (URL := URL) (T := T) (Authn := Authn)).
Abbreviation GetName := (GetName (E := E)).
Abbreviation access_key := (access_key (E := E) URL_String).
Abbreviation creation := (creation (P := P) (URL := URL) (E := E) (T := T) (Authn := Authn)).

(** ** Requests *)

(** The service account whose token a request uses; none for the controller. *)
Definition tenant (o : authOptions URL) : option ObjectKey :=
  if ShouldGetServiceAccountToken g o
  then Some (mkKey (o_ServiceAccountNamespace o)
               (if is_empty (o_ServiceAccountName o) then getDefaultServiceAccount g else o_ServiceAccountName o))
  else None.

Definition info_tenant (info : option saInfo) : option ObjectKey := (λ i, sa_key i.1.1) <$> info.

(** The fields of the options that are parts of keys and not the last one have
    no line break. *)
Record clean (o : authOptions URL) : Prop := mkClean {
  clean_name : one_line (o_ServiceAccountName o);
  clean_namespace : one_line (o_ServiceAccountNamespace o);
  clean_audiences : Forall one_line (o_Audiences o);
  clean_scopes : Forall one_line (o_Scopes o);
  clean_region : one_line (o_STSRegion o);
  clean_endpoint : one_line (o_STSEndpoint o);
  clean_proxy : match o_ProxyURL o with Some u => one_line (URL_String u) | None => True end;
  clean_cluster : one_line (o_ClusterResource o);
  clean_address : one_line (o_ClusterAddress o) }.

Definition clean_info (info : option saInfo) : Prop :=
  match info with
  | Some (sa, audiences, identity) =>
      one_line (sa_Name sa) ∧ one_line (sa_Namespace sa) ∧ Forall one_line audiences ∧ one_line identity
  | None => True
  end.

(** The options of a provider leave the tenant and the rest alone. *)
Lemma apply_scoped_one o x :
  scoped x → clean o → let o' := apply_opt o x in
  clean o' ∧ tenant o' = tenant o ∧ o_Client o' = o_Client o.
Proof. intros Hx []. destruct o, x; try done; split_and!; try done; by split. Qed.

Lemma apply_scoped opts l :
  Forall scoped l → clean (Apply opts) → let o' := Apply (opts ++ l) in
  clean o' ∧ tenant o' = tenant (Apply opts) ∧ o_Client o' = o_Client (Apply opts).
Proof.
  unfold Apply. intros Hl. rewrite foldl_app. generalize (foldl apply_opt zeroOptions opts). clear opts.
  induction Hl as [|x l Hx Hl IH]; intros o Hc; cbn [foldl]; [done|].
  destruct (apply_scoped_one o x Hx Hc) as (Hc' & Ht & Hcl).
  destruct (IH _ Hc') as (? & -> & ->). done.
Qed.

(** ** The parts of a key *)

Lemma access_good p info opts : clean (Apply opts) → clean_info info → good (access_key p info opts).
Proof.
  intros [] Hi.
  assert (∀ sa auds i, Forall one_line auds → one_line i → (∀ s, sa = Some s → one_line (sa_Name s) ∧ one_line (sa_Namespace s)) →
    good (access_parts (E := E) URL_String p auds i sa opts)) as Hgen.
  { intros sa auds i Ha Hid Hsa. unfold access_parts. cbv zeta.
    assert (one_line (strings_Join (if length auds =? 0 then o_Audiences (Apply opts) else auds) comma))
      by (apply one_line_join; by destruct (_ =? 0)).
    assert (one_line (strings_Join (o_Scopes (Apply opts)) comma)) by by apply one_line_join.
    pose proof (law_name p).
    repeat (apply good_plain; [|]); [..|by apply good_last]; try (apply plain_when); auto with keys.
    - destruct sa as [s|]; [|constructor]. destruct (Hsa s eq_refl).
      repeat (apply Forall_cons; split; [by split|]). constructor.
    - destruct (o_ProxyURL (Apply opts)); auto with keys. }
  unfold Auth.access_key. destruct info as [[[sa auds] i]|]; [|apply Hgen; [constructor|apply not_elem_of_nil|done]].
  destruct Hi as (? & ? & ? & ?). apply Hgen; [done..|]. by intros s [= <-].
Qed.

Lemma access_value p info opts :
  value (str "provider") (access_key p info opts) = Some (GetName p) ∧
  value (str "serviceAccountName") (access_key p info opts) = (λ i, sa_Name i.1.1) <$> info ∧
  value (str "serviceAccountNamespace") (access_key p info opts) = (λ i, sa_Namespace i.1.1) <$> info.
Proof.
  unfold Auth.access_key, access_parts. split; [by destruct info as [[[sa auds] i]|]|].
  destruct info as [[[sa auds] i]|]; split; rewrite !value_app; rewrite !value_when_ne by done;
    try (destruct (o_ProxyURL (Apply opts))); done.
Qed.

(** Requests with the same parts have the same provider and the same tenant. *)
Lemma access_key_tenant p info opts p' info' opts' :
  access_key p info opts = access_key p' info' opts' → GetName p = GetName p' ∧ info_tenant info = info_tenant info'.
Proof.
  intros Heq. destruct (access_value p info opts) as (Hp & Hn & Hns), (access_value p' info' opts') as (Hp' & Hn' & Hns').
  rewrite Heq in Hp, Hn, Hns. rewrite Hp in Hp'. rewrite Hn in Hn'. rewrite Hns in Hns'.
  destruct info as [[[sa auds] i]|], info' as [[[sa' auds'] i']|]; simplify_eq/=; [|done].
  unfold info_tenant, sa_key. cbn. split; congruence.
Qed.

(** The keys of the access tokens of a cluster, with their labels. *)
Fixpoint number (i : nat) (ks : list bytes) : list (bytes * bytes) :=
  match ks with
  | [] => []
  | k :: ks => (str "accessToken" ++ Itoa (Z.of_nat i) ++ str "CacheKey", k) :: number (S i) ks
  end.
Definition cluster_parts (o : authOptions URL) : list (bytes * bytes) :=
  when (negb (is_empty (o_ClusterResource o))) [(str "cluster", o_ClusterResource o)]
  ++ when (negb (is_empty (o_ClusterAddress o))) [(str "address", o_ClusterAddress o)].

Lemma value_number l i ks : HasPrefix l (str "accessToken") = false → value l (number i ks) = None.
Proof.
  intros Hl. revert i. induction ks as [|k ks IH]; intros i; [done|]. cbn [number value].
  rewrite bool_decide_eq_false_2; [apply IH|]. intros ->.
  unfold HasPrefix in Hl. apply bool_decide_eq_false in Hl. apply Hl. by eexists.
Qed.

(** ** Closures and their keys *)

Section keyed.
Context (ev : list (acall * areply)).

(** No two of the texts hashed in the run have the same sum. *)
Definition no_collision : Prop :=
  ∀ s s' r r', (ASum256 s, r) ∈ ev → (ASum256 s', r') ∈ ev → ar_key r = ar_key r' → s = s'.

Definition keyed (parts : list (bytes * bytes)) (key : bytes) : Prop :=
  good parts ∧ one_line key ∧ ∃ r, (ASum256 (key_text parts), r) ∈ ev ∧ ar_key r = key.

Lemma keyed_inj parts parts' key : no_collision → keyed parts key → keyed parts' key → parts = parts'.
Proof.
  intros Hnc (Hg & _ & r & Hr & Hk) (Hg' & _ & r' & Hr' & Hk'). apply key_text_inj; [done..|].
  apply (Hnc _ _ r r'); [done..|congruence].
Qed.

(** The key of the credentials that come from an access token. *)
Definition credentials_keyed (label : bytes) (p : P) (input : bytes) (opts : list opt) (key : bytes) : Prop :=
  ∃ info opts' k, info_tenant info = tenant (Apply opts) ∧ keyed (access_key p info opts') k ∧
    keyed [(str "accessTokenCacheKey", k); (label, input)] key.
Definition cluster_keyed (p : P) (n : nat) (opts : list opt) (key : bytes) : Prop :=
  ∃ info optss ks, info_tenant info = tenant (Apply opts) ∧ n = length optss ∧
    Forall2 (λ o k, keyed (access_key p info o) k) optss ks ∧ keyed (number 0 ks ++ cluster_parts (Apply opts)) key.

(** The key under which a closure is used. *)
Definition paired (key : bytes) (f : newFunc) : Prop :=
  match f with
  | NewAccessToken p opts info => keyed (access_key p info opts) key
  | NewRegistryCredentials p input _ opts => credentials_keyed (str "artifactRepositoryCacheKey") p input opts key
  | NewGitCredentials p input _ opts => credentials_keyed (str "gitRepositoryCacheKey") p input opts key
  | NewRESTConfig p toks opts => cluster_keyed p (length toks) opts key
  end.
End keyed.

(** ** Tokens that were created in a run *)

(** The closures that ran, with their calls to the provider. *)
Context (log : list creation).
Abbreviation created := (created g log).

(** The token was created by an access token closure with these parts. *)
Definition issued_as (parts : list (bytes * bytes)) (tok : token) : Prop :=
  ∃ p opts info, created (NewAccessToken p opts info) tok ∧ access_key p info opts = parts.

(** The token was created by the provider of this name for this tenant. *)
Definition issued (name : bytes) (tn : option ObjectKey) (tok : token) : Prop :=
  ∃ p opts info, created (NewAccessToken p opts info) tok ∧ GetName p = name ∧ info_tenant info = tn.

Lemma issued_as_issued p info opts tok :
  issued_as (access_key p info opts) tok → issued (GetName p) (info_tenant info) tok.
Proof. intros (p' & opts' & info' & Ho & [Hn Ht]%access_key_tenant). exists p', opts', info'. auto. Qed.

(** Closures for credentials use tokens of their own tenant. *)
Definition granted (f : newFunc) : Prop :=
  match f with
  | NewAccessToken _ _ _ => True
  | NewRegistryCredentials p _ tok opts | NewGitCredentials p _ tok opts =>
      issued (GetName p) (tenant (Apply opts)) tok
  | NewRESTConfig p toks opts => Forall (issued (GetName p) (tenant (Apply opts))) toks
  end.

(** The keys of different kinds differ. *)
Lemma paired_kind ev key f f' : no_collision ev → paired ev key f → paired ev key f' →
  match f, f' with
  | NewAccessToken _ _ _, NewAccessToken _ _ _ | NewRegistryCredentials _ _ _ _, NewRegistryCredentials _ _ _ _
  | NewGitCredentials _ _ _ _, NewGitCredentials _ _ _ _ | NewRESTConfig _ _ _, NewRESTConfig _ _ _ => True
  | _, _ => False
  end.
Proof.
  intros Hnc.
  assert (∀ p info opts l, value (str "provider") l = None → access_key p info opts ≠ l) as Hacc.
  { intros p info opts l Hl <-. by rewrite (proj1 (access_value p info opts)) in Hl. }
  assert (∀ ks o, value (str "provider") (number 0 ks ++ cluster_parts o) = None) as Hnum.
  { intros ks o. rewrite value_app, value_number by done. unfold cluster_parts.
    by rewrite value_app, !value_when_ne by done. }
  assert (∀ ks o k l, number 0 ks ++ cluster_parts o ≠ (str "accessTokenCacheKey", k) :: l) as Hne.
  { intros ks o k l Heq. apply (f_equal hd_error) in Heq. destruct ks; [|discriminate Heq].
    unfold cluster_parts in Heq. destruct (negb _), (negb _); discriminate Heq. }
  destruct f as [p opts info|p input tok opts|p input tok opts|p toks opts],
    f' as [p' opts' info'|p' input' tok' opts'|p' input' tok' opts'|p' toks' opts'];
    cbn [paired]; try done; unfold credentials_keyed, cluster_keyed; intros H1 H2; repeat (destruct_and? || destruct_exists);
    match goal with Ha : keyed ev ?a key, Hb : keyed ev ?b key |- _ =>
      pose proof (keyed_inj ev a b key Hnc Ha Hb) as Heq end;
    first [by eapply Hacc in Heq | symmetry in Heq; by eapply Hacc in Heq | by apply Hne in Heq
          | symmetry in Heq; by apply Hne in Heq | by injection Heq].
Qed.

(** ** What a request is entitled to *)

Inductive request :=
  | RqToken (p : P) (opts : list opt)
  | RqRegistry (p : P) (artifactRepository : bytes) (opts : list opt)
  | RqGit (p : P) (opts : list opt)
  | RqCluster (p : P) (opts : list opt).

Definition opts_of (q : request) : authOptions URL :=
  match q with RqToken _ opts | RqRegistry _ _ opts | RqGit _ opts | RqCluster _ opts => Apply opts end.

Definition clean_request (q : request) : Prop :=
  clean (opts_of q) ∧
  match q with
  | RqRegistry _ repo _ => one_line repo
  | RqGit _ opts => match o_GitURL (Apply opts) with Some u => url_ok u | None => True end
  | _ => True
  end.

Definition serve (q : request) : prog acall areply (res (err + token)) :=
  match q with
  | RqToken p opts => GetAccessToken URL_String apiIsNotFound g p opts
  | RqRegistry p repo opts => let! c := GetArtifactRegistryCredentials URL_String apiIsNotFound g p repo opts in eret (Registry c)
  | RqGit p opts => let! c := GetGitCredentials URL_String apiIsNotFound g p opts in eret (Git c)
  | RqCluster p opts => let! c := GetRESTConfig URL_String apiIsNotFound g p opts in eret (Cluster c)
  end.

(** A token with all the parts of the request's key, or credentials that the
    same provider made, for the same repository or cluster, from tokens of the
    request's own tenant. *)
Definition entitled_to (q : request) (tok : token) : Prop :=
  match q with
  | RqToken p opts => ∃ info, info_tenant info = tenant (Apply opts) ∧ issued_as (access_key p info opts) tok
  | RqRegistry p repo opts => ∃ p' input tok' opts',
      ParseArtifactRepository (E := E) p repo = inr input ∧ created (NewRegistryCredentials p' input tok' opts') tok ∧
      GetName p' = GetName p ∧ issued (GetName p) (tenant (Apply opts)) tok'
  | RqGit p opts => ∃ u p' input tok' opts',
      o_GitURL (Apply opts) = Some u ∧ ParseGitRepository (E := E) p u = inr input ∧
      created (NewGitCredentials p' input tok' opts') tok ∧
      GetName p' = GetName p ∧ issued (GetName p) (tenant (Apply opts)) tok'
  | RqCluster p opts => ∃ p' toks opts',
      created (NewRESTConfig p' toks opts') tok ∧
      o_ClusterResource (Apply opts') = o_ClusterResource (Apply opts) ∧
      o_ClusterAddress (Apply opts') = o_ClusterAddress (Apply opts) ∧
      (toks ≠ [] → GetName p' = GetName p) ∧ Forall (issued (GetName p) (tenant (Apply opts))) toks
  end.

(** A request panics only without a client. *)
Definition entitled (q : request) (a : res (err + token)) : Prop :=
  match a with
  | Val (inr tok) => entitled_to q tok
  | Val (inl _) => True
  | Panics => o_Client (opts_of q) = false
  end.

(** The kind of what a closure creates. *)
Lemma created_kind f tok : created f tok →
  match f, tok with
  | NewAccessToken _ _ _, AccessToken _ | NewRegistryCredentials _ _ _ _, Registry _
  | NewGitCredentials _ _ _ _, Git _ | NewRESTConfig _ _ _, Cluster _ => True
  | _, _ => False
  end.
Proof. intros (t & _ & Hc). destruct f as [p opts [[[sa auds] i]|]| | |]; cbn in Hc; naive_solver. Qed.

(** ** The calls of a request *)

Section calls.
Context (ev : list (acall * areply)) (J : bytes → newFunc → Prop).
Hypothesis Hnc : no_collision ev.
Hypothesis Hdefault : one_line (getDefaultServiceAccount g).

(** Every closure in the cache is under its own key. *)
Definition cache_paired : Prop := ∀ key f, J key f → paired ev key f.

Definition call_ok (q : acall) : Prop :=
  match q with
  | AGetOrSet key f _ => paired ev key f ∧ (cache_paired → granted f)
  | _ => True
  end.
Abbreviation awp := (wp (law g sa_ok ev log J) call_ok).

Lemma wp_ebind {A B} (m : prog acall areply (res (err + A))) (f : A → prog acall areply (res (err + B))) Q :
  awp m (λ r, match r with Val (inr a) => awp (f a) Q | Val (inl e) => Q (Val (inl e)) | Panics => Q Panics end) →
  awp (ebind m f) Q.
Proof. intros Hm. apply wp_bind. revert Hm. apply wp_mono. by intros [[e|a]|]. Qed.

Lemma wp_wrap {A} w (m : prog acall areply (res (err + A))) Q :
  awp m (λ r, Q match r with Val (inl e) => Val (inl (w e)) | _ => r end) → awp (wrap_err w m) Q.
Proof. intros Hm. apply wp_bind. revert Hm. apply wp_mono. done. Qed.

Lemma wp_lift {A} w (r : E + A) (Q : res (err + A) → Prop) :
  (∀ a, r = inr a → Q (Val (inr a))) → (∀ e, Q (Val (inl e))) → awp (lift w r) Q.
Proof. intros Ha He. destruct r; cbn; auto. Qed.

Lemma wp_key parts Q : good parts → (∀ key, keyed ev parts key → Q key) → awp (buildCacheKey parts) Q.
Proof.
  intros Hg HQ. cbn. split; [done|]. intros r [Hin Hk]. apply HQ. split_and!; [done| |by exists r].
  rewrite Hk. apply hex_lines.
Qed.

Lemma wp_info p opts (Q : res (err + option saInfo) → Prop) :
  clean (Apply opts) →
  (∀ info, info_tenant info = tenant (Apply opts) → clean_info info → Q (Val (inr info))) →
  (∀ e, Q (Val (inl e))) → (o_Client (Apply opts) = false → Q Panics) →
  awp (serviceAccountInfo apiIsNotFound g p opts) Q.
Proof.
  intros Hc HQ He Hp. unfold serviceAccountInfo. cbv zeta. unfold tenant in HQ.
  destruct (ShouldGetServiceAccountToken g (Apply opts)) eqn:Hs; [|by apply HQ].
  apply wp_ebind. unfold getServiceAccountAndProviderInfo. cbv zeta. cbn [k_Name k_Namespace].
  set (o := Apply opts) in *. set (n := o_ServiceAccountName o) in *. set (ns := o_ServiceAccountNamespace o) in *.
  set (key := if is_empty n && negb (is_empty (getDefaultServiceAccount g)) then _ else _).
  assert (key = mkKey ns (if is_empty n then getDefaultServiceAccount g else n)) as Hkey.
  { unfold key. unfold ShouldGetServiceAccountToken in Hs. fold n in Hs.
    apply andb_true_iff in Hs as [_ Hs]. destruct (is_empty n); [cbn in Hs |- *; by rewrite Hs|done]. }
  assert (one_line (k_Namespace key) ∧ one_line (k_Name key)) as [Hlns Hln].
  { rewrite Hkey. destruct Hc. cbn. split; [done|]. by destruct (is_empty n). }
  destruct (o_Client o); cbn [negb]; [|by apply Hp]. cbn [wp call_ok law]. split; [done|]. intros r Hr.
  destruct (ar_err r) as [e|]; [apply He|]. specialize (Hr eq_refl) as [Hr Hok]. apply wp_ebind.
  assert (one_line (sa_Namespace (ar_sa r)) ∧ one_line (sa_Name (ar_sa r))) as [Hsns Hsn] by (rewrite <-Hr in Hlns, Hln; done).
  assert (∀ auds, Forall one_line auds → awp (let! i := lift (ErrIdentity key) (GetIdentity p (ar_sa r)) in eret (ar_sa r, auds, i))
    (λ r, match r with Val (inr a) => awp (eret (Some a)) Q | Val (inl e) => Q (Val (inl e)) | Panics => Q Panics end)) as Hid.
  { intros auds Ha. apply wp_ebind, wp_lift; [|apply He]. intros i Hi%law_identity; [|done..]. apply HQ; cbn.
    - by rewrite Hr, Hkey.
    - done. }
  destruct (_ =? 0).
  - cbn [wp call_ok law]. split; [done|]. intros r' Ha. destruct (ar_err r') as [e|]; [apply He|]. by apply Hid.
  - apply Hid. by destruct Hc.
Qed.

(** A token that the cache returns was created by a closure with the same key. *)
Lemma cache_access p info opts key f tok :
  keyed ev (access_key p info opts) key → paired ev key f → created f tok →
  issued_as (access_key p info opts) tok.
Proof.
  intros Hk Hf Hout.
  pose proof (paired_kind ev key (NewAccessToken p opts info) f Hnc Hk Hf) as Hkind.
  destruct f as [p' opts' info'| | |]; try done. exists p', opts', info'. split; [done|].
  by apply (keyed_inj ev _ _ key).
Qed.

(** The token that a request gets: from the cache or from its own closure. *)
Lemma wp_reply (Q : res (err + token) → Prop) (r : areply) :
  (∀ tok, ar_token r = inr tok → Q (Val (inr tok))) → (∀ e, Q (Val (inl e))) → awp (of_reply r) Q.
Proof. intros Ht He. unfold of_reply. destruct (ar_token r); cbn; auto. Qed.

Lemma wp_access p opts (Q : res (err + token) → Prop) :
  clean (Apply opts) →
  (∀ tok, (cache_paired → ∃ info, info_tenant info = tenant (Apply opts) ∧ issued_as (access_key p info opts) tok) →
     Q (Val (inr tok))) →
  (∀ e, Q (Val (inl e))) → (o_Client (Apply opts) = false → Q Panics) →
  awp (GetAccessToken URL_String apiIsNotFound g p opts) Q.
Proof.
  intros Hc HQ He Hp. unfold GetAccessToken. cbv zeta. apply wp_ebind, wp_info; [done| |done..].
  intros info Ht Hi. destruct (o_Cache (Apply opts)); cbn [negb].
  - apply wp_bind, wp_key; [by apply access_good|]. intros key Hk. cbn [wp call_ok law paired]. split; [done|].
    intros r Hr. apply wp_reply; [|done]. intros tok Htok. apply HQ. intros HJ. exists info. split; [done|].
    destruct (Hr tok Htok) as (f & Hf & Hout). by apply (cache_access p info opts key f); [|apply HJ|].
  - cbn [wp call_ok law]. split; [done|]. intros r Hr. apply wp_reply; [|done]. intros tok Htok. apply HQ.
    intros _. exists info. split; [done|]. exists p, opts, info. auto.
Qed.

(** Credentials of the closure [f], through the cache or not. *)
Lemma wp_credentials p opts opts' label input f (Q : res (err + token) → Prop) :
  clean (Apply opts) → clean (Apply opts') → good [(label, input)] →
  (∀ key, credentials_keyed ev label p input opts key → paired ev key f) → (cache_paired → granted f) →
  (∀ tok, created f tok → Q (Val (inr tok))) →
  (∀ key f' tok, paired ev key f → J key f' → created f' tok → Q (Val (inr tok))) →
  (∀ e, Q (Val (inl e))) → (o_Client (Apply opts) = false → Q Panics) →
  awp (cached_credentials URL_String apiIsNotFound g p opts opts' label input f) Q.
Proof.
  intros Hc Hc' Hl Hf Hgr Hnew Hcache He Hp. unfold cached_credentials. cbv zeta.
  destruct (o_Cache (Apply opts)); cbn [negb].
  - apply wp_ebind, wp_info; [done| |done..]. intros info Ht Hi.
    apply wp_bind, wp_key; [by apply access_good|]. intros k Hk.
    apply wp_bind, wp_key.
    { change ([(str "accessTokenCacheKey", k); (label, input)]) with ([(str "accessTokenCacheKey", k)] ++ [(label, input)]).
      apply good_plain; [|done]. apply plain_one; [done|]. apply Hk. }
    intros key Hkey. assert (paired ev key f) as Hpair by (apply Hf; by exists info, opts', k).
    cbn [wp call_ok law]. split; [by split|]. intros r Hr. apply wp_reply; [|done].
    intros tok (f' & Hf' & Hout)%Hr. by apply (Hcache key f').
  - cbn [wp call_ok law]. split; [done|]. intros r Hr. apply wp_reply; [|done]. intros tok Htok. apply Hnew. auto.
Qed.

Lemma plain_number i ks : Forall one_line ks → plain (number i ks).
Proof.
  intros Hks. revert i. induction Hks as [|k ks Hk Hks IH]; intros i; constructor; [|apply IH].
  split; [apply label_ok_token|done].
Qed.

Lemma wp_keys p info optss i parts (Q : list (bytes * bytes) → Prop) :
  clean_info info → Forall (λ o, clean (Apply o)) optss →
  (∀ ks, Forall2 (λ o k, keyed ev (access_key p info o) k) optss ks → Q (parts ++ number i ks)) →
  awp (keys_loop URL_String p info i optss parts) Q.
Proof.
  intros Hi Hc. revert i parts. induction Hc as [|o optss Hc Hcs IH]; intros i parts HQ; cbn [keys_loop].
  { specialize (HQ []). rewrite app_nil_r in HQ. by apply HQ. }
  apply wp_bind, wp_key; [by apply access_good|]. intros k Hk. apply IH. intros ks Hks.
  rewrite <-app_assoc. apply (HQ (k :: ks)). by constructor.
Qed.

(** The requests of the loop have the options of the request and those of the provider. *)
Definition variant (opts o : list opt) : Prop :=
  clean (Apply o) ∧ tenant (Apply o) = tenant (Apply opts) ∧ o_Client (Apply o) = o_Client (Apply opts).

Lemma wp_tokens p opts optss toks0 (Q : res (err + list token) → Prop) :
  Forall (variant opts) optss →
  (∀ toks, length toks = length optss → (cache_paired → Forall (issued (GetName p) (tenant (Apply opts))) toks) →
     Q (Val (inr (toks0 ++ toks)))) →
  (∀ e, Q (Val (inl e))) → (o_Client (Apply opts) = false → Q Panics) →
  awp (tokens_loop URL_String apiIsNotFound g p optss toks0) Q.
Proof.
  intros Hv. revert toks0. induction Hv as [|o optss (Hc & Ht & Hcl) Hv IH]; intros toks0 HQ He Hp; cbn [tokens_loop].
  { specialize (HQ []). rewrite app_nil_r in HQ. apply HQ; [done|]. constructor. }
  apply wp_ebind, wp_wrap, wp_access; [done| |done|rewrite Hcl; done]. intros tok Htok.
  apply IH; [|done..]. intros toks Hlen Htoks. rewrite <-app_assoc. apply (HQ (tok :: toks)); [by cbn; f_equal|].
  intros HJ. constructor; [|by apply Htoks]. destruct (Htok HJ) as (info & Hi & Hiss%issued_as_issued).
  by rewrite Hi, Ht in Hiss.
Qed.

Lemma credentials_keyed_inj label p input opts p' input' opts' key :
  credentials_keyed ev label p input opts key → credentials_keyed ev label p' input' opts' key →
  input = input' ∧ GetName p = GetName p' ∧ tenant (Apply opts) = tenant (Apply opts').
Proof.
  intros (info & o & k & Ht & Hk & Hkey) (info' & o' & k' & Ht' & Hk' & Hkey').
  pose proof (keyed_inj ev _ _ key Hnc Hkey Hkey') as [= <- <-].
  pose proof (keyed_inj ev _ _ k Hnc Hk Hk') as [Hn Hti]%access_key_tenant. split_and!; [done..|congruence].
Qed.

Lemma cluster_keyed_inj p n opts p' n' opts' key :
  cluster_keyed ev p n opts key → cluster_keyed ev p' n' opts' key →
  o_ClusterResource (Apply opts) = o_ClusterResource (Apply opts') ∧
  o_ClusterAddress (Apply opts) = o_ClusterAddress (Apply opts') ∧
  (n' = 0 ∨ GetName p = GetName p' ∧ tenant (Apply opts) = tenant (Apply opts')).
Proof.
  intros (info & os & ks & Ht & -> & Hks & Hkey) (info' & os' & ks' & Ht' & -> & Hks' & Hkey').
  pose proof (keyed_inj ev _ _ key Hnc Hkey Hkey') as Heq.
  assert (∀ l ks o, HasPrefix l (str "accessToken") = false →
    value l (number 0 ks ++ cluster_parts o) = value l (cluster_parts o)) as Hval
    by (intros l ks0 o Hl; by rewrite value_app, value_number by done).
  pose proof (f_equal (value (str "cluster")) Heq) as H1. pose proof (f_equal (value (str "address")) Heq) as H2.
  rewrite !Hval in H1, H2 by done. unfold cluster_parts in H1, H2. rewrite !value_app in H1, H2.
  rewrite !(value_when_ne (str "address") (str "cluster")) in H2 by done.
  rewrite !(value_when_ne (str "cluster") (str "address")) in H1 by done. unfold is_empty in H1, H2.
  assert (∀ l v w, value l (when (negb (bool_decide (v = []))) [(l, v)]) = value l (when (negb (bool_decide (w = []))) [(l, w)]) →
    v = w) as Hw.
  { intros l v w. destruct v, w; cbn; rewrite ?(bool_decide_eq_true_2 (l = l)) by done; congruence. }
  split_and!.
  - apply (Hw (str "cluster")). revert H1. by repeat destruct (value _ _).
  - by apply (Hw (str "address")).
  - destruct Hks' as [|o' k' os' ks' Hk' Hks']; [by left|right]. destruct Hks as [|o k os ks Hk Hks].
    { exfalso. apply (f_equal hd_error) in Heq. unfold cluster_parts in Heq. destruct (negb _), (negb _); discriminate Heq. }
    cbn [number app] in Heq. injection Heq as <- _.
    pose proof (keyed_inj ev _ _ k Hnc Hk Hk') as [Hn Hti]%access_key_tenant. split; [done|congruence].
Qed.

(** Every closure in the cache uses tokens of its own tenant. *)
Definition cache_granted : Prop := ∀ key f, J key f → granted f.

(** What the cache returns under the key of a closure, by kind. *)
Lemma cached_registry key p input (tok : token) opts f c :
  credentials_keyed ev (str "artifactRepositoryCacheKey") p input opts key → J key f → created f c →
  cache_paired → cache_granted → ∃ p' tok' opts', created (NewRegistryCredentials p' input tok' opts') c ∧
    GetName p' = GetName p ∧ issued (GetName p) (tenant (Apply opts)) tok'.
Proof.
  intros Hp Hf Hout HJ HG.
  pose proof (paired_kind ev key (NewRegistryCredentials p input tok opts) f Hnc Hp (HJ key f Hf)) as Hk. destruct f; try done.
  destruct (credentials_keyed_inj _ _ _ _ _ _ _ _ Hp (HJ key _ Hf)) as (-> & -> & ->).
  specialize (HG key _ Hf). naive_solver.
Qed.

Lemma cached_git key p input (tok : token) opts f c :
  credentials_keyed ev (str "gitRepositoryCacheKey") p input opts key → J key f → created f c →
  cache_paired → cache_granted → ∃ p' tok' opts', created (NewGitCredentials p' input tok' opts') c ∧
    GetName p' = GetName p ∧ issued (GetName p) (tenant (Apply opts)) tok'.
Proof.
  intros Hp Hf Hout HJ HG.
  pose proof (paired_kind ev key (NewGitCredentials p input tok opts) f Hnc Hp (HJ key f Hf)) as Hk. destruct f; try done.
  destruct (credentials_keyed_inj _ _ _ _ _ _ _ _ Hp (HJ key _ Hf)) as (-> & -> & ->).
  specialize (HG key _ Hf). naive_solver.
Qed.

Lemma cached_cluster key p (toks : list token) opts f c :
  cluster_keyed ev p (length toks) opts key → J key f → created f c →
  cache_paired → cache_granted → ∃ p' toks' opts', created (NewRESTConfig p' toks' opts') c ∧
    o_ClusterResource (Apply opts') = o_ClusterResource (Apply opts) ∧
    o_ClusterAddress (Apply opts') = o_ClusterAddress (Apply opts) ∧
    (toks' ≠ [] → GetName p' = GetName p) ∧ Forall (issued (GetName p) (tenant (Apply opts))) toks'.
Proof.
  intros Hp Hf Hout HJ HG.
  pose proof (paired_kind ev key (NewRESTConfig p toks opts) f Hnc Hp (HJ key f Hf)) as Hk.
  destruct f as [| | |p' toks' opts']; try done.
  destruct (cluster_keyed_inj _ _ _ _ _ _ _ Hp (HJ key _ Hf)) as (Hr & Ha & Hn).
  exists p', toks', opts'. split_and!; [done..| |].
  - intros Ht. destruct Hn as [Hn|[-> _]]; [by destruct toks'|done].
  - destruct Hn as [Hn|[-> ->]]; [|exact (HG key _ Hf)]. destruct toks'; [constructor|done].
Qed.

(** An access token with the options of the provider is one of the tenant. *)
Lemma issued_variant p opts l tok :
  Forall scoped l → clean (Apply opts) →
  (cache_paired → ∃ info, info_tenant info = tenant (Apply (opts ++ l)) ∧ issued_as (access_key p info (opts ++ l)) tok) →
  cache_paired → issued (GetName p) (tenant (Apply opts)) tok.
Proof.
  intros Hl Hc Htok HJ. destruct (apply_scoped opts l Hl Hc) as (_ & Ht & _).
  destruct (Htok HJ) as (info & Hi & His%issued_as_issued). by rewrite Hi, Ht in His.
Qed.

Lemma wp_registry p repo opts :
  clean (Apply opts) → one_line repo →
  awp (serve (RqRegistry p repo opts)) (λ a, cache_paired → cache_granted → entitled (RqRegistry p repo opts) a).
Proof.
  intros Hc Hrepo. apply wp_ebind. unfold GetArtifactRegistryCredentials. apply wp_ebind, wp_lift; [|done]. intros input Hin.
  apply wp_ebind, wp_lift; [|done]. intros l Hl%law_registry; [|done]. destruct (apply_scoped opts l Hl Hc) as (Hc' & Ht & Hcl).
  apply wp_ebind, wp_wrap, wp_access; [done| |done|by rewrite Hcl]. intros tok Htok.
  pose proof (issued_variant p opts l tok Hl Hc Htok) as Hiss.
  apply wp_ebind, wp_credentials; [done..|by apply (good_last true)|done|done| | |done|done].
  - intros c Hout. pose proof (created_kind _ _ Hout) as Hk. destruct c; try done. cbn. intros HJ _.
    exists p, input, tok, opts. auto.
  - intros key f c Hp Hf Hout. pose proof (cached_registry key p input tok opts f c Hp Hf Hout) as Hcache.
    destruct c; cbn; intros HJ HG; destruct (Hcache HJ HG) as (p' & tok' & opts' & Ho & Hn & Hi);
      try by apply created_kind in Ho. by exists p', input, tok', opts'.
Qed.

Lemma wp_git p opts :
  clean_request (RqGit p opts) →
  awp (serve (RqGit p opts)) (λ a, cache_paired → cache_granted → entitled (RqGit p opts) a).
Proof.
  intros [Hc Hurl]. cbn [opts_of] in Hc. apply wp_ebind. unfold GetGitCredentials. cbv zeta.
  destruct (o_GitURL (Apply opts)) as [u|] eqn:Hu; [|done].
  apply wp_ebind, wp_lift; [|done]. intros input Hin.
  apply wp_ebind, wp_lift; [|done]. intros l Hl%law_git; [|done]. destruct (apply_scoped opts l Hl Hc) as (Hc' & Ht & Hcl).
  apply wp_ebind, wp_wrap, wp_access; [done| |done|by rewrite Hcl]. intros tok Htok.
  pose proof (issued_variant p opts l tok Hl Hc Htok) as Hiss.
  apply wp_ebind, wp_credentials; [done..|by apply (good_last true)|done|done| | |done|done].
  - intros c Hout. pose proof (created_kind _ _ Hout) as Hk. destruct c; try done. cbn. intros HJ _.
    exists u, p, input, tok, opts. split_and!; auto.
  - intros key f c Hp Hf Hout. pose proof (cached_git key p input tok opts f c Hp Hf Hout) as Hcache.
    destruct c; cbn; intros HJ HG; destruct (Hcache HJ HG) as (p' & tok' & opts' & Ho & Hn & Hi);
      try by apply created_kind in Ho. by exists u, p', input, tok', opts'.
Qed.

Lemma wp_cluster p opts :
  clean (Apply opts) → awp (serve (RqCluster p opts)) (λ a, cache_paired → cache_granted → entitled (RqCluster p opts) a).
Proof.
  intros Hc. apply wp_ebind. unfold GetRESTConfig. cbv zeta. apply wp_ebind, wp_lift; [|done]. intros l Hl%law_cluster; [|by destruct Hc..].
  assert (Forall (variant opts) (app opts <$> l)) as Hv.
  { apply Forall_fmap. apply (Forall_impl _ _ _ Hl). intros x Hx. by apply apply_scoped. }
  apply wp_ebind, (wp_tokens p opts); [done| |done..]. intros toks Hlen Htoks. rewrite app_nil_l.
  apply wp_ebind. destruct (o_Cache (Apply opts)); cbn [negb].
  - apply wp_ebind, wp_info; [done| |done..]. intros info Ht Hi. apply wp_bind, wp_keys; [done| |].
    { apply (Forall_impl _ _ _ Hv). by intros o []. }
    intros ks Hks. rewrite app_nil_l. apply wp_bind, wp_key.
    { apply good_plain; [apply plain_number|].
      - apply Forall_forall. intros k Hk. apply list_elem_of_lookup in Hk as [i Hk].
        destruct (Forall2_lookup_r _ _ _ _ _ Hks Hk) as (o & _ & Hko). apply Hko.
      - apply good_plain; [apply plain_when, plain_one; [done|by destruct Hc]|by apply good_last]. }
    intros key Hkey. assert (cluster_keyed ev p (length toks) opts key) as Hp by (exists info, (app opts <$> l), ks; done).
    cbn [wp call_ok law paired]. split; [done|]. intros r Hr. apply wp_reply; [|done]. intros c (f & Hf & Hout)%Hr.
    pose proof (cached_cluster key p toks opts f c Hp Hf Hout) as Hcache.
    destruct c; cbn; intros HJ HG; destruct (Hcache HJ HG) as (p' & toks' & opts' & Ho & Hn & Hres);
      try by apply created_kind in Ho. by exists p', toks', opts'.
  - cbn [wp call_ok law]. split; [done|]. intros r Hr. apply wp_reply; [|done]. intros c Hout%Hr.
    pose proof (created_kind _ _ Hout) as Hk. destruct c; try done. cbn. intros HJ _. exists p, toks, opts. split_and!; auto.
Qed.

Lemma wp_request q :
  clean_request q → awp (serve q) (λ a, cache_paired → cache_granted → entitled q a).
Proof.
  intros Hq. pose proof Hq as [Hc Hx]. destruct q as [p opts|p repo opts|p opts|p opts].
  - apply wp_access; [done| |done..]. intros tok Htok HJ _. by apply Htok.
  - by apply wp_registry.
  - by apply wp_git.
  - by apply wp_cluster.
Qed.
End calls.

(** ** Isolation *)

Context (T_Until : time → T → Z) (as_error : err → error).

End spec.
