(* ===== verification/AuthDemo.v ===== *)
(** * A run of requests for credentials

    An environment that can be run: a provider whose tokens say for whom they
    were created, and the token cache.  It is a witness of the isolation
    theorem, and it shows two limits of the keys. *)

From S2P Require Import Prelude CacheMetrics GoStd Lru TokenCache Utf8 GoPath GoText Sha256 Interaction Auth AuthKeys AuthRuns AuthSpec.

(** ** A provider *)

Definition identity_key : bytes := str "identity".

#[global] Instance demo_provider : Provider unit bytes := {
  GetName _ := str "demo";
  GetIdentity _ sa := match sa_Annotations sa !! identity_key with
                      | Some i => if bool_decide (one_line i) then inr i else inl (str "invalid identity")
                      | None => inr [] end }.
#[global] Instance demo_registry : ArtifactRegistryCredentialsProvider unit bytes bytes := {
  GetAccessTokenOptionsForArtifactRepository _ _ := inr [WithScopes [str "registry"]];
  ParseArtifactRepository _ r := inr r }.
#[global] Instance demo_git : GitCredentialsProvider unit bytes bytes := {
  GetAccessTokenOptionsForGitRepository _ _ := inr [];
  ParseGitRepository _ u := inr u }.
#[global] Instance demo_cluster : RESTConfigProvider unit bytes bytes := {
  GetAccessTokenOptionsForCluster _ _ := inr [[]; [WithScopes [str "describe"]]] }.

#[global] Instance demo_laws : ProviderLaws unit bytes bytes (λ _, True) (λ _, True).
Proof.
  split.
  - intros []. by apply (bool_decide_unpack _).
  - intros [] sa i _ _ _ Hi. cbn in Hi. destruct (_ !! _) as [j|]; [|injection Hi as <-; apply not_elem_of_nil].
    case_bool_decide; by simplify_eq.
  - intros [] r l _ [= <-]. repeat constructor. by apply (bool_decide_unpack _).
  - intros [] u l _ [= <-]. constructor.
  - intros [] opts l _ _ _ [= <-]. repeat constructor. by apply (bool_decide_unpack _).
Qed.

(** ** The environment *)

Abbreviation demo_token := (item bytes bytes).
Abbreviation demo_acall := (acall (P := unit) (URL := bytes) (T := bytes) (Authn := bytes)).
Abbreviation demo_areply := (areply (E := bytes) (T := bytes) (Authn := bytes)).
Abbreviation demo_pcall := (pcall (P := unit) (URL := bytes) (T := bytes) (Authn := bytes)).
Abbreviation demo_preply := (preply (E := bytes) (T := bytes) (Authn := bytes)).
Abbreviation demo_cache := (TokenCache (Token := demo_token)).

Definition demo_gate : authConfig := mkAuthConfig true [] [] [].
Definition demo_expiry : time := mkTime (100 * second) None.
Definition demo_until (now : time) (t : bytes) : Z := (100 * second - wall now)%Z.

(** The provider: tokens and credentials carry what they were created from. *)
Definition text_of (t : demo_token) : bytes := match t with AccessToken t => t | _ => str "?" end.
Definition provider_reply (h : list (demo_pcall * demo_preply)) (q : demo_pcall) : demo_preply :=
  let mk oidc t r := mkPReply None oidc t (mkRegistryCreds r demo_expiry) (mkGitCreds [] [] r demo_expiry) (mkRESTConfig [] r [] demo_expiry) in
  match q with
  | PNewControllerToken _ _ => mk [] (str "controller") []
  | PCreateToken sa _ => mk (sa_Namespace sa ++ str "/" ++ sa_Name sa) [] []
  | PNewTokenForServiceAccount _ oidc sa _ => mk [] (oidc ++ str ":" ++ default [] (sa_Annotations sa !! identity_key)) []
  | PNewArtifactRegistryCredentials _ input tok _ => mk [] [] (input ++ str "@" ++ text_of tok)
  | PNewGitCredentials _ input tok _ => mk [] [] (input ++ str "@" ++ text_of tok)
  | PNewRESTConfig _ toks _ => mk [] [] (strings_Join (text_of <$> toks) "+")
  end.

Definition demo_outcome (f : newFunc (P := unit) (URL := bytes) (T := bytes) (Authn := bytes)) :
    aerr (E := bytes) + demo_token :=
  (run provider_reply [] (run_new demo_gate f)).1.

Definition demo_error (e : aerr (E := bytes)) : error := EOther 1 "".
Definition noon : time := mkTime 0 (Some 0%Z).

Definition demo_reply (identity : bytes) (c : demo_cache) (q : demo_acall) : option (demo_areply * demo_cache) :=
  let mk sa auds k t := mkAReply None sa auds k t in
  let no_sa := mkSA [] [] ∅ in
  match q with
  | AGetServiceAccount key =>
      Some (mk (mkSA (k_Namespace key) (k_Name key) {[identity_key := identity]}) [] [] (inr (AccessToken [])), c)
  | AGetAudiences _ _ => Some (mk no_sa [str "audience"] [] (inr (AccessToken [])), c)
  | ASum256 text => Some (mk no_sa [] (hex (sha256_Sum256 text)) (inr (AccessToken [])), c)
  | ANew f => Some (mk no_sa [] [] (demo_outcome f), c)
  | AGetOrSet key f io =>
      match TokenCache_GetOrSet (GetDuration demo_until noon) c (String.string_of_list_ascii key) noon noon
              (fetched demo_error (demo_outcome f))
              [WithInvolvedObject (Kind io) (Name io) (Namespace io) (Operation io)] with
      | Some (c', (Some tok, _, None)) => Some (mk no_sa [] [] (inr tok), c')
      | Some (c', (_, _, Some _)) => Some (mk no_sa [] [] (demo_outcome f), c')
      | _ => None
      end
  end.

Fixpoint sim {A} (identity : bytes) (c : demo_cache) (p : prog demo_acall demo_areply A)
    : option (A * list (demo_acall * demo_areply) * demo_cache) :=
  match p with
  | Ret a => Some (a, [], c)
  | Call q k =>
      '(r, c1) ← demo_reply identity c q;
      '(a, t, c2) ← sim identity c1 (k r);
      Some (a, (q, r) :: t, c2)
  end.

(** ** It is one of the environments of the theorem *)

Lemma demo_outcome_ok f : ∃ t, runs (run_new demo_gate f) t (demo_outcome f).
Proof.
  unfold demo_outcome. destruct (run provider_reply [] (run_new demo_gate f)) as [a t] eqn:E.
  apply run_runs in E as (t' & _ & Hr). by exists t'.
Qed.

Lemma demo_reply_ok identity c q r c' :
  demo_reply identity c q = Some (r, c') → ∃ log, answers demo_gate demo_until demo_error (λ _, True) c q r log c'.
Proof.
  destruct q as [key|p sa|text|f|key f io]; cbn [demo_reply]; intros Heq.
  - injection Heq as <- <-. eexists. constructor. by destruct key.
  - injection Heq as <- <-. eexists. constructor. repeat constructor. by apply (bool_decide_unpack _).
  - injection Heq as <- <-. eexists. by constructor.
  - injection Heq as <- <-. destruct (demo_outcome_ok f) as [t Ht]. eexists. by apply (answer_new _ _ _ _ _ _ _ t).
  - destruct (TokenCache_GetOrSet _ _ _ _ _ _ _) as [[c1 res]|] eqn:E; [|done].
    assert (ar_token r = (match res with (Some tok, _, None) => inr tok | _ => demo_outcome f end) ∧ c' = c1 ∧
      cache_reply (demo_outcome f) res (ar_token r)) as (_ & -> & Hr).
    { destruct res as [[[tok|] ok] [e|]]; simplify_eq/=; done. }
    destruct (demo_outcome_ok f) as [t Ht].
    exists (if res.1.2 then [] else [(f, t, demo_outcome f)]). eapply answer_cache; [exact E| |exact Hr].
    unfold fetch_log. destruct (res.1.2); [done|by exists t].
Qed.

Lemma sim_runs {A} identity c (p : prog demo_acall demo_areply A) a t c' :
  sim identity c p = Some (a, t, c') → runs p t a ∧ ∃ log, history demo_gate demo_until demo_error (λ _, True) c t log c'.
Proof.
  revert c t. induction p as [b|q k IH]; intros c t Hs; cbn [sim] in Hs.
  { injection Hs as -> <- ->. split; [constructor|]. eexists. constructor. }
  destruct (demo_reply identity c q) as [[r c1]|] eqn:Er; [|done]. cbn in Hs.
  destruct (sim identity c1 (k r)) as [[[a' t'] c2]|] eqn:Es; [|done]. injection Hs as -> <- ->.
  apply IH in Es as [Hr [log' Hh]]. apply demo_reply_ok in Er as [log Ha]. split; [by constructor|].
  exists (log ++ log'). by econstructor.
Qed.

Abbreviation demo_history := (history (P := unit) (URL := bytes) (E := bytes) (T := bytes) (Authn := bytes)
  demo_gate demo_until demo_error (λ _, True)).

Lemma history_app c t1 log1 c1 t2 log2 c2 :
  demo_history c t1 log1 c1 → demo_history c1 t2 log2 c2 → demo_history c (t1 ++ t2) (log1 ++ log2) c2.
Proof. induction 1; cbn; [done|]. intros Hh. rewrite <-app_assoc. econstructor; eauto. Qed.

(** ** Two tenants *)

Definition io : InvolvedObject := mkInvolvedObject "Kustomization" "apps" "default" "reconcile".
Definition tenant_opts (ns : string) : list (Option bytes) :=
  [WithClient; WithCache io; WithServiceAccountNamespace (str ns); WithServiceAccountName (str "default")].

(** The same service account name in two namespaces, and the first tenant again. *)
Definition demo_requests : list (request (P := unit) (URL := bytes)) :=
  [RqToken () (tenant_opts "a"); RqRegistry () (str "r") (tenant_opts "b"); RqToken () (tenant_opts "a")].

Definition demo_serve := serve (P := unit) (URL := bytes) (E := bytes) (T := bytes) (Authn := bytes) id (λ _, false) demo_gate.

(** One request after the other. *)
Fixpoint sim_all (i : nat) (c : demo_cache) (qs : list (request (P := unit) (URL := bytes)))
    : option (list (res (aerr + demo_token)) * list (nat * (demo_acall * demo_areply)) * demo_cache) :=
  match qs with
  | [] => Some ([], [], c)
  | q :: qs =>
      '(a, t, c1) ← sim (str "id") c (demo_serve q);
      '(l, t', c2) ← sim_all (S i) c1 qs;
      Some (a :: l, (pair i <$> t) ++ t', c2)
  end.

Lemma sim_all_ok i c qs l t c' (done : list (res (aerr + demo_token))) :
  sim_all i c qs = Some (l, t, c') → i = length done →
  par ((Ret <$> done) ++ (demo_serve <$> qs)) t (done ++ l) ∧ ∃ log, demo_history c t.*2 log c'.
Proof.
  revert i c l t done. induction qs as [|q qs IH]; intros i c l t done Hs Hi; cbn [sim_all] in Hs.
  { injection Hs as <- <- <-. rewrite !app_nil_r. split; [constructor|]. eexists. constructor. }
  destruct (sim (str "id") c (demo_serve q)) as [[[a t1] c1]|] eqn:E1; [|done]. cbn in Hs.
  destruct (sim_all (S i) c1 qs) as [[[l' t2] c2]|] eqn:E2; [|done]. injection Hs as <- <- <-.
  apply sim_runs in E1 as [Hr [log Hh]]. destruct (IH _ _ _ _ (done ++ [a]) E2) as [Hp [log' Hh']].
  { rewrite length_app. cbn. lia. }
  split.
  - apply (par_run _ i (demo_serve q) t1 a).
    + rewrite lookup_app_r, length_fmap, Hi, Nat.sub_diag by (rewrite length_fmap; lia). done.
    + done.
    + rewrite insert_app_r_alt, length_fmap, Hi, Nat.sub_diag by (rewrite length_fmap; lia).
      rewrite fmap_app, <-!app_assoc in Hp. exact Hp.
  - exists (log ++ log'). rewrite fmap_app. apply (history_app c _ _ c1); [|done]. by rewrite <-list_fmap_compose, list_fmap_id.
Qed.

(** The texts that a run hashes have different sums. *)
Definition sums (ev : list (demo_acall * demo_areply)) : list (bytes * bytes) :=
  omap (λ e, match e.1 with ASum256 s => Some (s, ar_key e.2) | _ => None end) ev.
Definition no_collision_b (l : list (bytes * bytes)) : bool :=
  forallb (λ x, forallb (λ y, negb (bool_decide (x.2 = y.2)) || bool_decide (x.1 = y.1)) l) l.

Lemma no_collision_b_ok ev : no_collision_b (sums ev) = true → no_collision ev.
Proof.
  intros Hb s s' r r' Hs Hs' Heq. unfold no_collision_b in Hb. rewrite forallb_forall in Hb.
  assert (∀ s r, (ASum256 s, r) ∈ ev → In (s, ar_key r) (sums ev)) as Hin.
  { intros s0 r0 H0. apply list_elem_of_In. unfold sums. apply list_elem_of_omap. eexists. split; [exact H0|done]. }
  specialize (Hb _ (Hin _ _ Hs)). rewrite forallb_forall in Hb. specialize (Hb _ (Hin _ _ Hs')). cbn in Hb.
  rewrite bool_decide_eq_true_2 in Hb by done. by apply bool_decide_eq_true in Hb.
Qed.

Definition demo_run := match NewTokenCache (Token := demo_token) 10 [] with
                       | Some (inl c0) => sim_all 0 c0 demo_requests
                       | _ => None
                       end.
Definition demo_results : list (res (aerr (E := bytes) + demo_token)) :=
  [Val (inr (AccessToken (str "a/default:id")));
   Val (inr (Registry (mkRegistryCreds (str "r@b/default:id") demo_expiry)));
   Val (inr (AccessToken (str "a/default:id")))].

Example demo_run_results : (λ x, x.1.1) <$> demo_run = Some demo_results.
Proof. by vm_compute. Qed.

Lemma demo_run_sums : (λ x, no_collision_b (sums x.1.2.*2)) <$> demo_run = Some true.
Proof. by vm_compute. Qed.

Lemma tenant_clean ns : one_line (str ns) → clean id (Apply (tenant_opts ns)).
Proof.
  intros Hns. split; cbn; try constructor; try done; try apply not_elem_of_nil. by apply (bool_decide_unpack _).
Qed.


(** ** Limits *)

(** Audiences and scopes are joined with commas: the audience [a,b] has the key
    of the audiences [a] and [b]. *)
Example audiences_ambiguous (p : unit) :
  access_key (E := bytes) id p None [WithAudiences [str "a,b"]]
  = access_key (E := bytes) id p None [WithAudiences [str "a"; str "b"]].
Proof. done. Qed.

(** The service account is read twice, for the access token and for the key of
    the credentials.  If its identity changes in between, credentials that were
    made with the old identity are stored under the key of the new one. *)
Definition changing (c : demo_cache) (h : list (demo_acall * demo_areply)) (q : demo_acall) : demo_areply :=
  let seen := existsb (λ e, match e.1 with AGetServiceAccount _ => true | _ => false end) h in
  match q, demo_reply (if seen then str "new" else str "old") c q with
  | AGetOrSet _ f _, _ => mkAReply None (mkSA [] [] ∅) [] [] (demo_outcome f)
  | _, Some (r, _) => r
  | _, None => mkAReply None (mkSA [] [] ∅) [] [] (inr (AccessToken []))
  end.

Example stale_identity (c : demo_cache) :
  let t := (run (changing c) [] (demo_serve (RqRegistry () (str "r") (tenant_opts "a")))).2 in
  let new_sa := mkSA (str "a") (str "default") {[identity_key := str "new"]} in
  let k := hex (sha256_Sum256 (key_text (access_key (E := bytes) id () (Some (new_sa, [str "audience"], str "new"))
             (tenant_opts "a" ++ [WithScopes [str "registry"]])))) in
  match last t with
  | Some (AGetOrSet key (NewRegistryCredentials _ _ tok _) _, _) =>
      tok = AccessToken (str "a/default:old") ∧
      key = hex (sha256_Sum256 (key_text [(str "accessTokenCacheKey", k); (str "artifactRepositoryCacheKey", str "r")]))
  | _ => False
  end.
Proof. vm_compute. done. Qed.
