(* ===== verification/AuthAws.v ===== *)
(** * The AWS provider ([auth/aws])

    Roles, STS endpoints, registries, clusters and repositories of AWS, and the
    calls the provider makes to the AWS SDK, which is third-party code. *)

From S2P Require Import Prelude CacheMetrics GoStd Lru TokenCache Utf8 GoPath GoText Sha256 Regexp Interaction Auth AuthKeys AuthRuns AuthSpec.

(** ** Options ([options.go]) *)

(** [src/auth/aws/options.go:26-28 stsEndpointRegex] *)
Definition stsEndpointRegex : re :=
  whole (RSeqs [lit "https://"; ROpt (RGroup 1 (RSeq (RPlus (RClass any_rune)) (lit "."))); lit "sts"; ROpt (RGroup 2 (lit "-fips"));
    ROpt (RGroup 3 (RSeq (lit ".") (RPlus (RClass (none_of "."))))); ROpt (RGroup 4 (lit ".vpce")); lit ".amazonaws.com"]).

(** [src/auth/aws/options.go:48-50 roleARNRegex] *)
Definition role_arn : re :=
  RSeqs [lit "arn:aws"; RStar (RClass (λ r, word_class r || is_rune "-" r)); lit ":iam::"; RRep 1 29 (RClass digit_class);
    lit ":role/"; RRep 1 199 (RClass any_rune)].

(** [src/auth/aws/options.go:68-70 clusterRegex] *)
Definition clusterRegex : re :=
  whole (RSeqs [lit "arn:aws"; RStar (RClass (λ r, word_class r || is_rune "-" r)); lit ":eks:";
    RGroup 1 (RRep 1 99 (RClass (none_of ":"))); lit ":"; RRep 1 29 (RClass digit_class); lit ":cluster/";
    RGroup 2 (RRep 1 199 (RClass any_rune))]).

(** [src/auth/aws/provider.go:206-212 registryRegex]
    The expression has no anchors. *)
Definition registryRegex : re :=
  RSeqs [RGroup 1 (RStar (RClass (λ r, digit_class r || is_rune "+" r))); RClass any_rune; lit "dkr"; RClass (one_of ".-"); lit "ecr";
    ROpt (lit "-fips"); lit "."; RGroup 2 (RStar (RClass (none_of "/."))); lit ".";
    RGroup 3 (RAlts (RSeq (lit "amazonaws.com") (RStar (RClass (one_of ".cn"))))
      [lit "amazonaws.eu"; lit "sc2s.sgov.gov"; lit "c2s.ic.gov"; lit "cloud.adc-e.uk"; lit "csp.hci.ic.gov"; lit "on.aws"])].

Section aws.
(** Errors of third-party code, [name.ParseReference] up to the registry of the
    reference, the environment, and [url.Parse]. *)
Context {E0 : Type} (ParseReference : bytes → E0 + bytes) (Getenv : bytes → bytes) (url_Parse : bytes → E0 + URL).

Inductive aws_err :=
  | AwsExternal (e : E0)
  | InvalidSTSEndpoint (endpoint : bytes)
  | InvalidRoleARN (arn : bytes)
  | InvalidCluster (cluster : bytes)
  | RegionNotSet | RegionRequired
  | NilCredentials
  | ParseRepository (repository : bytes) (e : E0)
  | InvalidRegistry (registry : bytes)
  | NoAuthorizationData | NilToken | NilExpiration | TokenNotBase64 | TokenFormat
  | DescribeErr (cluster : bytes) (e : E0) | CANotBase64 | PresignErr (e : E0)
  | GitURLNil | GitURLNotHTTPS | InvalidCodeCommitURL (host : bytes)
  | ParseURLErr (e : E0) | BuildRequestErr (e : E0) | SignErr (e : E0) | NotAnAwsToken.

(** [src/auth/aws/options.go:30-46 ValidateSTSEndpoint] *)
Definition ValidateSTSEndpoint (endpoint : bytes) : option aws_err :=
  if negb (MatchString stsEndpointRegex endpoint) then Some (InvalidSTSEndpoint endpoint) else None.

Definition roleKey : bytes := str "eks.amazonaws.com/role-arn".
(** [src/auth/aws/options.go:52-60 getRoleARN] *)
Definition getRoleARN (sa : ServiceAccount) : aws_err + bytes :=
  let arn := default [] (sa_Annotations sa !! roleKey) in
  if negb (MatchString (whole role_arn) arn) then inl (InvalidRoleARN arn) else inr arn.

(** [src/auth/aws/options.go:62-66 getRoleSessionName] *)
Definition getRoleSessionName (sa : ServiceAccount) (region : bytes) : bytes :=
  sa_Name sa ++ str "." ++ sa_Namespace sa ++ str "." ++ region ++ str ".fluxcd.io".

(** [src/auth/aws/options.go:72-81 parseCluster] *)
Definition parseCluster (cluster : bytes) : aws_err + bytes * bytes :=
  match FindStringSubmatch clusterRegex cluster with
  | None => inl (InvalidCluster cluster)
  | Some m => inr (m 1, m 2)
  end.

(** ** What the keys use ([provider.go]) *)

Definition publicECR : bytes := str "public.ecr.aws".

(** [src/auth/aws/provider.go:214-235 Provider.ParseArtifactRepository] *)
Definition aws_ParseArtifactRepository (artifactRepository : bytes) : aws_err + bytes :=
  match GetRegistryFromArtifactRepository ParseReference artifactRepository with
  | inl e => inl (ParseRepository artifactRepository e)
  | inr registry =>
      if bool_decide (registry = publicECR) then inr publicECR
      else match FindStringSubmatch registryRegex registry with
           | None => inl (InvalidRegistry registry)
           | Some m => inr (m 2)
           end
  end.

(** [src/auth/aws/provider.go:237-244 getECRRegionFromRegistryInput] *)
Definition getECRRegionFromRegistryInput (registryInput : bytes) : bytes :=
  if bool_decide (registryInput = publicECR) then str "us-east-1" else registryInput.

(** [src/auth/aws/provider.go:187-204 Provider.GetAccessTokenOptionsForArtifactRepository] *)
Definition aws_registry_options (artifactRepository : bytes) : aws_err + list (Option URL) :=
  match aws_ParseArtifactRepository artifactRepository with
  | inl e => inl e
  | inr input => inr [WithSTSRegion (getECRRegionFromRegistryInput input)]
  end.

(** [src/auth/aws/provider.go:315-325 Provider.GetAccessTokenOptionsForCluster] *)
Definition aws_cluster_options (opts : list (Option URL)) : aws_err + list (list (Option URL)) :=
  match parseCluster (o_ClusterResource (Apply opts)) with
  | inl e => inl e
  | inr (region, _) => inr [[WithSTSRegion region]]
  end.

(** [strings.EqualFold] with an ASCII string. *)
Definition equal_fold (s : bytes) (t : string) : bool :=
  (length (runes s) =? length (str t)) && forallb (λ x, fold_is x.2 x.1) (zip (runes s) (str t)).

(** [src/auth/aws/provider.go:413-431 getRegionFromCodeCommitURL] *)
Definition getRegionFromCodeCommitURL (gitURL : option URL) : aws_err + bytes :=
  match gitURL with
  | None => inl GitURLNil
  | Some u =>
      if negb (equal_fold (u_Scheme u) "https") then inl GitURLNotHTTPS
      else
        let h := Hostname u in
        let urlSplit := strings_Split h "." in
        if (length urlSplit <? 4)
           || negb (HasPrefix h (str "git-codecommit.") || HasPrefix h (str "git-codecommit-fips."))
           || negb (HasSuffix h (str ".amazonaws.com") || HasSuffix h (str ".amazonaws.com.cn"))
        then inl (InvalidCodeCommitURL (u_Host u))
        else inr (nth 1 urlSplit [])
  end.

Definition res_map {A B} (f : A → B) (r : aws_err + A) : aws_err + B := match r with inl e => inl e | inr a => inr (f a) end.

Inductive AwsProvider := Aws.

(** [src/auth/aws/provider.go:67-70 Provider.GetName] *)
Definition aws_name : bytes := str "aws".

#[global] Instance aws_provider : Provider AwsProvider aws_err := {
  GetName _ := aws_name;
  GetIdentity _ sa := getRoleARN sa }.
#[global] Instance aws_registry : ArtifactRegistryCredentialsProvider AwsProvider URL aws_err := {
  GetAccessTokenOptionsForArtifactRepository _ := aws_registry_options;
  ParseArtifactRepository _ := aws_ParseArtifactRepository }.
(** [src/auth/aws/provider.go:433-455 Provider.ParseGitRepository] *)
#[global] Instance aws_git : GitCredentialsProvider AwsProvider URL aws_err := {
  GetAccessTokenOptionsForGitRepository _ u := res_map (λ region, [WithSTSRegion region]) (getRegionFromCodeCommitURL (Some u));
  ParseGitRepository _ u := res_map (λ _, u_String u) (getRegionFromCodeCommitURL (Some u)) }.
#[global] Instance aws_cluster : RESTConfigProvider AwsProvider URL aws_err := {
  GetAccessTokenOptionsForCluster _ := aws_cluster_options }.

(** ** Tokens and credentials *)

(** [src/auth/aws/token.go:27-28 Credentials]
    The fields are pointers. *)
Record Credentials := mkCredentials {
  c_AccessKeyId : option bytes; c_SecretAccessKey : option bytes; c_SessionToken : option bytes; c_Expiration : option time }.

(** [src/auth/aws/token.go:30-37 newTokenFromAWSCredentials] *)
Definition newTokenFromAWSCredentials (accessKeyID secretAccessKey sessionToken : bytes) (expires : time) : Credentials :=
  mkCredentials (Some accessKeyID) (Some secretAccessKey) (Some sessionToken) (Some expires).

(** A pointer that is nil panics.
    [src/auth/aws/token.go:44-46 Credentials.provider] *)
Definition credentials_provider (c : Credentials) : res (bytes * bytes * bytes) :=
  match c_AccessKeyId c, c_SecretAccessKey c, c_SessionToken c with
  | Some k, Some s, Some t => Val (k, s, t)
  | _, _, _ => Panics
  end.

(** The calls to the SDK, with the configuration they are made with: the proxy,
    the region, the endpoint and the credentials. *)
Inductive aws_call :=
  | ALoadDefaultConfig (proxy : option URL) (region : bytes) (endpoint : option bytes)
  | ARetrieve
  | AAssumeRoleWithWebIdentity (roleARN sessionName webIdentityToken region : bytes) (endpoint : option bytes) (proxy : option URL)
  | AGetAuthorizationToken (public : bool) (region : bytes) (creds : bytes * bytes * bytes) (proxy : option URL)
  | ADescribeCluster (name region : bytes) (creds : bytes * bytes * bytes) (proxy : option URL)
  | APresignGetCallerIdentity (clusterName region : bytes) (endpoint : option bytes) (creds : bytes * bytes * bytes) (proxy : option URL)
  | ASignRequest (url host region : bytes) (creds : Credentials) (at_ : time)
  | ANow.

(** Each call reads its part of the answer: the credentials of the default chain
    and of STS, the authorization data of ECR (a list, or an optional entry for
    the public registry), the endpoint and CA of a cluster, a signed URL, the
    authorization header of a signed request, the clock. *)
Record aws_reply := mkAwsReply {
  w_err : option E0;
  w_keys : bytes * bytes * bytes * time;
  w_sts : option Credentials;
  w_private : list (option bytes * option time);
  w_public : option (option bytes * option time);
  w_endpoint : option bytes; w_ca : option bytes;
  w_url : bytes; w_header : bytes; w_now : time }.

Definition aprog (A : Type) : Type := prog aws_call aws_reply (res (aws_err + A)).
Definition afail {A} (e : aws_err) : aprog A := Ret (Val (inl e)).
Definition adone {A} (a : A) : aprog A := Ret (Val (inr a)).
Definition apanic {A} : aprog A := Ret Panics.
(** A call that may fail. *)
Definition acall_ {A} (c : aws_call) (wrap : E0 → aws_err) (k : aws_reply → aprog A) : aprog A :=
  Call c (λ r, match w_err r with Some e => afail (wrap e) | None => k r end).
(** The endpoint of the options, checked. *)
Definition with_endpoint {A} (o : authOptions URL) (k : option bytes → aprog A) : aprog A :=
  let e := o_STSEndpoint o in
  if is_empty e then k None
  else match ValidateSTSEndpoint e with Some err => afail err | None => k (Some e) end.
Definition with_provider {A} (c : Credentials) (k : bytes * bytes * bytes → aprog A) : aprog A :=
  match credentials_provider c with Val x => k x | Panics => apanic end.

(** [src/auth/aws/provider.go:72-112 Provider.NewControllerToken] *)
Definition aws_NewControllerToken (opts : list (Option URL)) : aprog Credentials :=
  let o := Apply opts in
  let stsRegion := if is_empty (o_STSRegion o) then Getenv (str "AWS_REGION") else o_STSRegion o in
  if is_empty stsRegion then afail RegionNotSet
  else with_endpoint o (λ e,
    acall_ (ALoadDefaultConfig (o_ProxyURL o) stsRegion e) AwsExternal (λ _,
    acall_ ARetrieve AwsExternal (λ r,
      let '(k, s, t, x) := w_keys r in adone (newTokenFromAWSCredentials k s t x)))).

(** [time.Time{}]: the first of January of the year 1. *)
Definition zero_time : time := mkTime (-62135596800 * second) None.

(** [src/auth/aws/provider.go:128-185 Provider.NewTokenForServiceAccount] *)
Definition aws_NewTokenForServiceAccount (oidcToken : bytes) (sa : ServiceAccount) (opts : list (Option URL)) : aprog Credentials :=
  let o := Apply opts in
  let stsRegion := o_STSRegion o in
  if is_empty stsRegion then afail RegionRequired
  else match getRoleARN sa with
  | inl e => afail e
  | inr roleARN =>
      let roleSessionName := getRoleSessionName sa stsRegion in
      with_endpoint o (λ e,
        acall_ (AAssumeRoleWithWebIdentity roleARN roleSessionName oidcToken stsRegion e (o_ProxyURL o)) AwsExternal (λ r,
          match w_sts r with
          | None => afail NilCredentials
          | Some c => adone (mkCredentials (c_AccessKeyId c) (c_SecretAccessKey c) (c_SessionToken c)
                               (Some (default zero_time (c_Expiration c))))
          end))
  end.

(** The token and the expiry of an entry of the authorization data. *)
Definition authorization (x : option (option bytes * option time)) : aws_err + bytes * time :=
  match x with
  | None => inl NoAuthorizationData
  | Some (None, _) => inl NilToken
  | Some (_, None) => inl NilExpiration
  | Some (Some t, Some e) => inr (t, e)
  end.

(** [src/auth/aws/provider.go:246-313 Provider.NewArtifactRegistryCredentials]
    The authenticator holds the user name and the password. *)
Definition aws_NewArtifactRegistryCredentials (registryInput : bytes) (accessToken : Credentials) (opts : list (Option URL))
    : aprog (ArtifactRegistryCredentials (bytes * bytes)) :=
  let o := Apply opts in
  let public := bool_decide (registryInput = publicECR) in
  with_provider accessToken (λ creds,
    acall_ (AGetAuthorizationToken public (getECRRegionFromRegistryInput registryInput) creds (o_ProxyURL o)) AwsExternal (λ r,
      match authorization (if public then w_public r else list.head (w_private r)) with
      | inl e => afail e
      | inr (token, expiresAt) =>
          match DecodeString token with
          | None => afail TokenNotBase64
          | Some b => match strings_Split b ":" with
                      | [user; password] => adone (mkRegistryCreds (user, password) expiresAt)
                      | _ => afail TokenFormat
                      end
          end
      end)).

(** [base64.RawURLEncoding] *)
Definition RawURLEncode (s : bytes) : bytes :=
  (λ c, if Ascii.eqb c "+" then "-" else if Ascii.eqb c "/" then "_" else c)%char <$> filter (λ c, c ≠ b64_pad) (EncodeToString s).

(** Of the access tokens the first is used; there is one.
    [src/auth/aws/provider.go:327-411 Provider.NewRESTConfig] *)
Definition aws_NewRESTConfig (accessTokens : list Credentials) (opts : list (Option URL)) : aprog RESTConfig :=
  Call ANow (λ r,
    let expiresAt := time_Add (w_now r) (15 * minute) in
    match accessTokens with
    | [] => apanic
    | token :: _ => with_provider token (λ creds,
        let o := Apply opts in
        match parseCluster (o_ClusterResource o) with
        | inl e => afail e
        | inr (region, clusterName) =>
            let finish host caData : aprog RESTConfig :=
              with_endpoint o (λ e,
                acall_ (APresignGetCallerIdentity clusterName region e creds (o_ProxyURL o)) PresignErr (λ r,
                  adone (mkRESTConfig host (str "k8s-aws-v1." ++ RawURLEncode (w_url r)) caData expiresAt))) in
            let host := o_ClusterAddress o in
            let caData := o_CAData o in
            if is_empty host || is_empty caData then
              acall_ (ADescribeCluster clusterName region creds (o_ProxyURL o)) (DescribeErr (o_ClusterResource o)) (λ r,
                match (if is_empty host then w_endpoint r else Some host) with
                | None => apanic
                | Some host =>
                    if is_empty caData then
                      match w_ca r with
                      | None => apanic
                      | Some data => match DecodeString data with None => afail CANotBase64 | Some ca => finish host ca end
                      end
                    else finish host caData
                end)
            else finish host caData
        end)
    end).

(** *** CodeCommit *)

(** A number with [n] digits. *)
Fixpoint padded (n : nat) (z : Z) : bytes :=
  match n with O => [] | S n => padded n (z / 10) ++ [digit (z mod 10)] end.

(** The date of a day, counted from the epoch: year, month, day. *)
Definition civil (days : Z) : Z * Z * Z :=
  (let z := days + 719468 in
   let era := z / 146097 in
   let doe := z - era * 146097 in
   let yoe := (doe - doe / 1460 + doe / 36524 - doe / 146096) / 365 in
   let doy := doe - (365 * yoe + yoe / 4 - yoe / 100) in
   let mp := (5 * doy + 2) / 153 in
   let d := doy - (153 * mp + 2) / 5 + 1 in
   let m := if mp <? 10 then mp + 3 else mp - 9 in
   (yoe + era * 400 + (if m <=? 2 then 1 else 0), m, d))%Z.

(** [t.Format("20060102T150405")] in UTC, for the years of four digits. *)
Definition FormatCanonical (t : time) : bytes :=
  let s := time_Unix t in
  let '(y, m, d) := civil (s / 86400)%Z in
  let r := (s mod 86400)%Z in
  padded 4 y ++ padded 2 m ++ padded 2 d ++ str "T" ++ padded 2 (r / 3600) ++ padded 2 ((r / 60) mod 60) ++ padded 2 (r mod 60).

Definition codeCommitSignatureValidity : Z := 15 * minute.

(** What follows the first [sep]; nothing if there is none. *)
Definition cut_after (s sep : bytes) : bytes :=
  match strings_Index s sep with Some i => drop (i + length sep) s | None => [] end.

(** The access token is of this provider or not.  [UTC] strips the monotonic
    reading of the clock.
    [src/auth/aws/provider.go:457-524 Provider.NewGitCredentials] *)
Definition aws_NewGitCredentials (gitInput : bytes) (accessToken : option Credentials) : aprog GitCredentials :=
  match url_Parse gitInput with
  | inl e => afail (ParseURLErr e)
  | inr gitURL =>
      match getRegionFromCodeCommitURL (Some gitURL), accessToken with
      | inl e, _ => afail e
      | inr _, None => afail NotAnAwsToken
      | inr region, Some creds =>
          match url_Parse (u_String gitURL) with
          | inl e => afail (BuildRequestErr e)
          | inr _ => Call ANow (λ r,
              let signingTime := mkTime (wall (w_now r)) None in
              match c_AccessKeyId creds, c_SecretAccessKey creds, c_SessionToken creds, c_Expiration creds with
              | Some k, Some _, Some st, Some x =>
                  acall_ (ASignRequest (u_String gitURL) (u_Host gitURL) region creds signingTime) SignErr (λ r,
                    let username := strings_Join [k; st] "%" in
                    let password := FormatCanonical signingTime ++ str "Z" ++ cut_after (w_header r) (str "Signature=") in
                    let expiresAt := time_Add signingTime codeCommitSignatureValidity in
                    let expiresAt := if time_After expiresAt x then x else expiresAt in
                    adone (mkGitCreds [] username password expiresAt))
              | _, _, _, _ => apanic
              end)
          end
      end
  end.

(** ** The laws of the keys *)

Lemma Split_sub s d x c : x ∈ strings_Split s d → c ∈ x → c ∈ s.
Proof.
  revert x. induction s as [|e s IH]; intros x; cbn [strings_Split].
  { intros ->%list_elem_of_singleton ?%elem_of_nil. done. }
  destruct (Ascii.eqb e d).
  - intros [->|Hx]%elem_of_cons Hc; [by apply elem_of_nil in Hc|]. right. by apply (IH x).
  - destruct (strings_Split s d) as [|y l].
    + intros ->%list_elem_of_singleton ->%list_elem_of_singleton. left.
    + intros [->|Hx]%elem_of_cons Hc; [apply elem_of_cons in Hc as [->|Hc]; [left|]|]; right.
      * by apply (IH y); [left|].
      * by apply (IH x); [right|].
Qed.

Lemma role_one_line sa arn : getRoleARN sa = inr arn → one_line arn.
Proof.
  unfold getRoleARN. destruct (MatchString (whole role_arn) _) eqn:Hm; [|done]. intros [= <-].
  apply (whole_avoids role_arn); [done..|]. by vm_compute.
Qed.

Lemma registry_one_line repo input :
  (∀ r x, ParseReference r = inr x → one_line x) → one_line repo →
  aws_ParseArtifactRepository repo = inr input → one_line input.
Proof.
  intros Href Hrepo. unfold aws_ParseArtifactRepository, GetRegistryFromArtifactRepository. cbv zeta.
  destruct (if has_byte _ _ then _ else _) as [e|registry] eqn:Hr; [done|].
  assert (one_line registry) as Hreg.
  { destruct (has_byte _ _); [by apply Href in Hr|]. injection Hr as <-. unfold TrimSuffix.
    destruct (HasSuffix _ _); [|done]. intros Hc%elem_of_take_sub. done. }
  case_bool_decide; [intros [= <-]; by apply (bool_decide_unpack _)|].
  destruct (FindStringSubmatch registryRegex registry) as [m|] eqn:Hm; [|done]. intros [= <-] Hc.
  by apply (FindStringSubmatch_sub _ _ _ _ _ Hm) in Hc.
Qed.

(** The parser of references accepts no line breaks. *)
Hypothesis ParseReference_one_line : ∀ r x, ParseReference r = inr x → one_line x.

(** What the isolation of credentials relies on holds for AWS, for every service
    account: the role of an annotation matches a pattern without line breaks. *)
#[global] Instance aws_laws : ProviderLaws AwsProvider URL aws_err (λ _, True) (λ u, one_line (u_Host u)).
Proof.
  split.
  - intros []. by apply (bool_decide_unpack _).
  - intros [] sa i _ _ _. apply role_one_line.
  - intros [] r l Hr. cbn. unfold aws_registry_options. destruct (aws_ParseArtifactRepository r) as [e|i] eqn:Hi; [done|].
    intros [= <-]. repeat constructor. cbn. unfold getECRRegionFromRegistryInput.
    case_bool_decide; [by apply (bool_decide_unpack _)|]. by apply (registry_one_line r).
  - intros [] u l Hu. cbn [GetAccessTokenOptionsForGitRepository aws_git]. unfold getRegionFromCodeCommitURL.
    destruct (negb (equal_fold _ _)); [done|]. cbv zeta. destruct (_ || _ || _); [done|]. intros [= <-].
    repeat constructor. cbn [scoped]. destruct (nth_in_or_default 1 (strings_Split (Hostname u) ".") []) as [Hin|Heq].
    + intros Hc. apply Hu, Hostname_sub. apply (Split_sub _ "." (nth 1 (strings_Split (Hostname u) ".") [])); [|done].
      by apply list_elem_of_In.
    + rewrite Heq. apply not_elem_of_nil.
  - intros [] opts l _ Hres _. cbn. unfold aws_cluster_options, parseCluster.
    destruct (FindStringSubmatch clusterRegex _) as [m|] eqn:Hm; [|done]. intros [= <-]. repeat constructor.
    cbn. intros Hc. by apply (FindStringSubmatch_sub _ _ _ _ _ Hm) in Hc.
Qed.
End aws.

Example canonical_time : FormatCanonical (mkTime (1706745599 * second) None) = str "20240131T235959".
Proof. by vm_compute. Qed.
Example canonical_leap : FormatCanonical (mkTime (951782400 * second) None) = str "20000229T000000".
Proof. by vm_compute. Qed.

(** ** Patterns *)

Definition demo_reference (r : bytes) : string + bytes := inl "no reference".

Example ecr_region :
  aws_ParseArtifactRepository demo_reference (str "012345678901.dkr.ecr.us-east-1.amazonaws.com") = inr (str "us-east-1").
Proof. by vm_compute. Qed.

(** The pattern of registries is not anchored: a host that only contains the name
    of a registry is taken for one. *)
Example ecr_lookalike :
  aws_ParseArtifactRepository demo_reference (str "012345678901.dkr.ecr.us-east-1.amazonaws.com.example.org") = inr (str "us-east-1").
Proof. by vm_compute. Qed.

Example sts_endpoint : ValidateSTSEndpoint (E0 := string) (str "https://vpce-1.sts.us-east-1.vpce.amazonaws.com") = None.
Proof. by vm_compute. Qed.

(** The dot of the pattern matches a slash: an endpoint on another host whose
    path ends like the name of an STS host is valid. *)
Example sts_lookalike : ValidateSTSEndpoint (E0 := string) (str "https://example.org/x.sts.amazonaws.com") = None.
Proof. by vm_compute. Qed.
