(* ===== verification/AuthGcp.v ===== *)
(** * The GCP provider ([auth/gcp])

    Emails, workload identity providers, registries and clusters of GCP, the
    metadata of the GKE cluster, which is loaded once, and the calls the
    provider makes to Google's libraries, which are third-party code. *)

From S2P Require Import Prelude CacheMetrics GoStd Lru TokenCache Utf8 GoPath GoText Sha256 Regexp Interaction Auth AuthKeys AuthRuns AuthSpec.

(** ** Options ([options.go]) *)

Definition name_class (r : Z) : bool := alpha_class r || digit_class r || is_rune "-" r.

(** [src/auth/gcp/options.go:26-28 serviceAccountEmailRegex] *)
Definition service_account_email : re :=
  RSeqs [RRep 1 99 (RClass name_class); lit "@"; RRep 1 99 (RClass name_class); lit ".iam.gserviceaccount.com"].

(** [src/auth/gcp/options.go:43-45 workloadIdentityProviderRegex] *)
Definition workload_identity_provider : re :=
  RSeqs [lit "projects/"; RRep 1 29 (RClass digit_class); lit "/locations/global/workloadIdentityPools/";
    RRep 1 99 (RClass (none_of "/")); lit "/providers/"; RRep 1 99 (RClass (none_of "/"))].

(** [src/auth/gcp/options.go:60-62 clusterRegex] *)
Definition gke_cluster : re :=
  RSeqs [lit "projects/"; RRep 1 199 (RClass (none_of "/")); lit "/locations/"; RRep 1 199 (RClass (none_of "/"));
    lit "/clusters/"; RRep 1 199 (RClass (none_of "/"))].

(** [src/auth/gcp/provider.go:166-171 registryRegex] *)
Definition gcp_registry_pattern : re :=
  RAlts (RSeq (ROpt (RSeq (RPlus (RClass any_rune)) (lit "."))) (lit "gcr.io"))
    [RSeq (RPlus (RClass any_rune)) (lit "-docker.pkg.dev"); lit "docker.s3nsregistry.fr"].

Section gcp.
Context {E0 : Type} (ParseReference : bytes → E0 + bytes).

Inductive gcp_err :=
  | GcpExternal (e : E0)
  | InvalidEmail (email : bytes) | InvalidWorkloadIdentityProvider (wip : bytes) | InvalidGKECluster (cluster : bytes)
  | GcpParseRepository (repository : bytes) (e : E0) | InvalidGcpRegistry (registry : bytes)
  | MetadataErr (path : bytes) (e : E0) | MetadataEmpty (path : bytes)
  | GkeTransportErr (e : E0) | GkeClientErr (e : E0) | GkeDescribeErr (cluster : bytes) (e : E0) | GkeCANotBase64
  | GcpNoGit.

(** [src/auth/gcp/options.go:30-41 getServiceAccountEmail] *)
Definition getServiceAccountEmail (sa : ServiceAccount) : gcp_err + bytes :=
  let email := default [] (sa_Annotations sa !! str "iam.gke.io/gcp-service-account") in
  if is_empty email then inr []
  else if negb (MatchString (whole service_account_email) email) then inl (InvalidEmail email)
  else inr email.

(** [src/auth/gcp/options.go:47-58 getWorkloadIdentityProviderAudience] *)
Definition getWorkloadIdentityProviderAudience (sa : ServiceAccount) : gcp_err + bytes :=
  let wip := default [] (sa_Annotations sa !! str "gcp.auth.fluxcd.io/workload-identity-provider") in
  if is_empty wip then inr []
  else if negb (MatchString (whole workload_identity_provider) wip) then inl (InvalidWorkloadIdentityProvider wip)
  else inr (str "//iam.googleapis.com/" ++ wip).

(** [src/auth/gcp/options.go:64-70 parseCluster] *)
Definition gcp_parseCluster (cluster : bytes) : option gcp_err :=
  if negb (MatchString (whole gke_cluster) cluster) then Some (InvalidGKECluster cluster) else None.

(** [src/auth/gcp/provider.go:173-188 Provider.ParseArtifactRepository] *)
Definition gcp_ParseArtifactRepository (artifactRepository : bytes) : gcp_err + bytes :=
  match GetRegistryFromArtifactRepository ParseReference artifactRepository with
  | inl e => inl (GcpParseRepository artifactRepository e)
  | inr registry =>
      if negb (MatchString (whole gcp_registry_pattern) registry) then inl (InvalidGcpRegistry registry)
      else inr (str "gcp")
  end.

Inductive GcpProvider := Gcp.

(** [src/auth/gcp/provider.go:93-100 Provider.GetIdentity] *)
#[global] Instance gcp_provider : Provider GcpProvider gcp_err := {
  GetName _ := str "gcp";
  GetIdentity _ sa := getServiceAccountEmail sa }.
(** [src/auth/gcp/provider.go:160-164 Provider.GetAccessTokenOptionsForArtifactRepository] *)
#[global] Instance gcp_registry : ArtifactRegistryCredentialsProvider GcpProvider URL gcp_err := {
  GetAccessTokenOptionsForArtifactRepository _ _ := inr [];
  ParseArtifactRepository _ := gcp_ParseArtifactRepository }.
(** The provider has no Git credentials. *)
#[global] Instance gcp_git : GitCredentialsProvider GcpProvider URL gcp_err := {
  GetAccessTokenOptionsForGitRepository _ _ := inl GcpNoGit;
  ParseGitRepository _ _ := inl GcpNoGit }.
(** [src/auth/gcp/provider.go:205-209 Provider.GetAccessTokenOptionsForCluster] *)
#[global] Instance gcp_cluster : RESTConfigProvider GcpProvider URL gcp_err := {
  GetAccessTokenOptionsForCluster _ _ := inr [[]] }.

(** ** The metadata of the cluster ([gke_metadata.go]) *)

(** [src/auth/gcp/gke_metadata.go:27-34 gkeMetadataLoader]
    The lock is held while the metadata is loaded. *)
Record gkeMetadataLoader := mkGke { gke_projectID : bytes; gke_location : bytes; gke_name : bytes; gke_loaded : bool }.
Definition gkeMetadata : gkeMetadataLoader := mkGke [] [] [] false.

(** [src/auth/gcp/token.go:25-26 Token] *)
Record gcp_token := mkGcpToken { gt_AccessToken : bytes; gt_Expiry : time }.

(** [externalaccount.Config], without the fields that are always the same. *)
Record ext_config := mkExtConfig {
  ec_Audience : bytes; ec_SubjectToken : bytes; ec_ImpersonationURL : bytes; ec_TokenInfoURL : bytes }.

Inductive gcp_call :=
  | GMetadata (path : bytes)
  | GDefaultToken (proxy : option URL)
  | GExternalToken (conf : ext_config) (proxy : option URL)
  | GTransport (proxy : option URL) | GNewService
  | GGetCluster (cluster : bytes) (token : gcp_token).
Record gcp_reply := mkGcpReply {
  g_err : option E0; g_value : bytes; g_token : gcp_token; g_endpoint : bytes; g_ca : bytes }.

Definition gprog (A : Type) : Type := prog gcp_call gcp_reply (gcp_err + A).
Definition gcall_ {A} (c : gcp_call) (wrap : E0 → gcp_err) (k : gcp_reply → gprog A) : gprog A :=
  Call c (λ r, match g_err r with Some e => Ret (inl (wrap e)) | None => k r end).

(** A value of the metadata service, not empty.
    [src/auth/gcp/gke_metadata.go:96-118 gkeMetadataLoader.load] *)
Definition metadata_value {A} (path : bytes) (k : bytes → gprog A) : gprog A :=
  gcall_ (GMetadata path) (MetadataErr path) (λ r,
    if is_empty (g_value r) then Ret (inl (MetadataEmpty path)) else k (g_value r)).

(** The loader after the call; it is unchanged after an error.
    [src/auth/gcp/gke_metadata.go:78-127 gkeMetadataLoader.load] *)
Definition gke_load (g : gkeMetadataLoader) : gprog gkeMetadataLoader :=
  if gke_loaded g then Ret (inr g)
  else metadata_value (str "project/project-id") (λ projectID,
       metadata_value (str "instance/attributes/cluster-location") (λ location,
       metadata_value (str "instance/attributes/cluster-name") (λ name,
       Ret (inr (mkGke projectID location name true))))).

(** [src/auth/gcp/gke_metadata.go:47-52 gkeMetadataLoader.workloadIdentityPool] *)
Definition pool_of (g : gkeMetadataLoader) : bytes := gke_projectID g ++ str ".svc.id.goog".
(** [src/auth/gcp/gke_metadata.go:54-62 gkeMetadataLoader.workloadIdentityProvider] *)
Definition provider_of (g : gkeMetadataLoader) : bytes :=
  str "https://container.googleapis.com/v1/projects/" ++ gke_projectID g ++ str "/locations/" ++ gke_location g
  ++ str "/clusters/" ++ gke_name g.

Definition gbind {A B} (m : gprog A) (f : A → gprog B) : gprog B :=
  prog_bind_def (λ r, match r with inl e => Ret (inl e) | inr a => f a end) m.

(** [src/auth/gcp/gke_metadata.go:38-45 gkeMetadataLoader.getAudience] *)
Definition getAudience (g : gkeMetadataLoader) : gprog (gkeMetadataLoader * bytes) :=
  gbind (gke_load g) (λ g, Ret (inr (g, str "identitynamespace:" ++ pool_of g ++ str ":" ++ provider_of g))).

(** ** Tokens ([provider.go]) *)

(** [src/auth/gcp/provider.go:53-70 Provider.NewControllerToken] *)
Definition gcp_NewControllerToken (opts : list (Option URL)) : gprog gcp_token :=
  gcall_ (GDefaultToken (o_ProxyURL (Apply opts))) GcpExternal (λ r, Ret (inr (g_token r))).

(** [src/auth/gcp/provider.go:72-91 Provider.GetAudiences] *)
Definition gcp_GetAudiences (g : gkeMetadataLoader) (sa : ServiceAccount) : gprog (gkeMetadataLoader * list bytes) :=
  match getWorkloadIdentityProviderAudience sa with
  | inl e => Ret (inl e)
  | inr audience =>
      if negb (is_empty audience) then Ret (inr (g, [audience]))
      else gbind (gke_load g) (λ g, Ret (inr (g, [pool_of g])))
  end.

(** [src/auth/gcp/provider.go:102-158 Provider.NewTokenForServiceAccount] *)
Definition gcp_NewTokenForServiceAccount (g : gkeMetadataLoader) (oidcToken : bytes) (sa : ServiceAccount) (opts : list (Option URL))
    : gprog (gkeMetadataLoader * gcp_token) :=
  match getWorkloadIdentityProviderAudience sa with
  | inl e => Ret (inl e)
  | inr audience =>
      gbind (if is_empty audience then getAudience g else Ret (inr (g, audience))) (λ '(g, audience),
        match getServiceAccountEmail sa with
        | inl e => Ret (inl e)
        | inr email =>
            let conf := if negb (is_empty email)
              then mkExtConfig audience oidcToken
                     (str "https://iamcredentials.googleapis.com/v1/projects/-/serviceAccounts/" ++ email ++ str ":generateAccessToken") []
              else mkExtConfig audience oidcToken [] (str "https://sts.googleapis.com/v1/introspect") in
            gcall_ (GExternalToken conf (o_ProxyURL (Apply opts))) GcpExternal (λ r, Ret (inr (g, g_token r)))
        end)
  end.

(** [src/auth/gcp/provider.go:190-203 Provider.NewArtifactRegistryCredentials] *)
Definition gcp_NewArtifactRegistryCredentials (t : gcp_token) : ArtifactRegistryCredentials (bytes * bytes) :=
  mkRegistryCreds (str "oauth2accesstoken", gt_AccessToken t) (gt_Expiry t).

(** One access token is asked for.
    [src/auth/gcp/provider.go:211-268 Provider.NewRESTConfig] *)
Definition gcp_NewRESTConfig (token : gcp_token) (opts : list (Option URL)) : gprog RESTConfig :=
  let o := Apply opts in
  let host := o_ClusterAddress o in
  let caData := o_CAData o in
  let finish host caData : gprog RESTConfig := Ret (inr (mkRESTConfig host (gt_AccessToken token) caData (gt_Expiry token))) in
  if is_empty host || is_empty caData then
    let cluster := o_ClusterResource o in
    match gcp_parseCluster cluster with
    | Some e => Ret (inl e)
    | None =>
        gcall_ (GTransport (o_ProxyURL o)) GkeTransportErr (λ _,
        gcall_ GNewService GkeClientErr (λ _,
        gcall_ (GGetCluster cluster token) (GkeDescribeErr cluster) (λ r,
          let host := if is_empty host then g_endpoint r else host in
          if is_empty caData then
            match DecodeString (g_ca r) with None => Ret (inl GkeCANotBase64) | Some ca => finish host ca end
          else finish host caData)))
    end
  else finish host caData.

(** ** What holds *)

Lemma email_one_line sa email : getServiceAccountEmail sa = inr email → one_line email.
Proof.
  unfold getServiceAccountEmail. cbv zeta. case_match; [intros [= <-]; apply not_elem_of_nil|].
  destruct (MatchString (whole service_account_email) _) eqn:Hm; [|done]. intros [= <-].
  apply (whole_avoids service_account_email); [done..|]. by vm_compute.
Qed.

(** What the isolation of credentials relies on, for every service account. *)
#[global] Instance gcp_laws : ProviderLaws GcpProvider URL gcp_err (λ _, True) (λ _, True).
Proof.
  split.
  - intros []. by apply (bool_decide_unpack _).
  - intros [] sa i _ _ _. apply email_one_line.
  - intros [] r l _ [= <-]. constructor.
  - done.
  - intros [] opts l _ _ _ [= <-]. repeat constructor.
Qed.

(** The metadata is loaded once: after a success no call is made again and the
    values stay. *)
Lemma gke_load_once g t g' : runs (gke_load g) t (inr g') →
  gke_loaded g' = true ∧ gke_load g' = Ret (inr g') ∧ (gke_loaded g = true → t = [] ∧ g' = g).
Proof.
  unfold gke_load, metadata_value, gcall_. destruct (gke_loaded g) eqn:Hl.
  - intros [-> [= <-]]%runs_ret_inv. rewrite Hl. done.
  - intros Hr. assert (gke_loaded g' = true) as Hg'; [|rewrite Hg'; done].
    do 3 (apply runs_call_inv in Hr as (? & ? & -> & Hr); case_match; [by apply runs_ret_inv in Hr as [_ [=]]|];
      case_match; [by apply runs_ret_inv in Hr as [_ [=]]|]).
    apply runs_ret_inv in Hr as [_ [= ->]]. done.
Qed.
End gcp.

(** The pattern of workload identity providers has classes with line breaks: the
    audience of a service account may have one, and with it its part of a key. *)
Example audience_line_break :
  let sa := mkSA (str "ns") (str "sa") {[str "gcp.auth.fluxcd.io/workload-identity-provider" :=
    str "projects/1/locations/global/workloadIdentityPools/p/providers/q" ++ [newline] ++ str "providerIdentity=x"]} in
  getWorkloadIdentityProviderAudience (E0 := string) sa =
  inr (str "//iam.googleapis.com/projects/1/locations/global/workloadIdentityPools/p/providers/q" ++ [newline] ++ str "providerIdentity=x").
Proof. by vm_compute. Qed.
