(* ===== verification/AuthAzure.v ===== *)
(** * The Azure provider ([auth/azure])

    Identities, registries and clusters of Azure, the configuration of custom
    clouds, and the calls the provider makes to the Azure SDK, which is
    third-party code. *)

From S2P Require Import Prelude CacheMetrics GoStd Lru TokenCache Utf8 GoPath GoText Sha256 Regexp Interaction Auth AuthKeys AuthRuns AuthSpec.

(** ** Options ([options.go]) *)

(** [src/auth/azure/options.go:57-59 clusterRegex] *)
Definition aks_cluster : re :=
  RSeqs [lit_fold "/subscriptions/"; RGroup 1 (RRep 36 0 (RClass (none_of "/"))); lit_fold "/resourceGroups/";
    RGroup 2 (RRep 1 199 (RClass (none_of "/"))); lit_fold "/providers/Microsoft.ContainerService/managedClusters/";
    RGroup 3 (RRep 1 199 (RClass (none_of "/")))].

(** [src/auth/azure/provider.go:166-169 registryRegex] *)
Definition acr_registry : re :=
  RSeqs [RPlus (RClass any_rune); lit "."; RGroup 1 (RAlts (lit "azurecr.io") [lit "azurecr.cn"; lit "azurecr.de"; lit "azurecr.us"])].

(** [src/auth/azure/options.go:76-86 Environment] *)
Record Environment := mkEnvironment {
  env_ContainerRegistryDNSSuffix : bytes; env_ResourceManagerEndpoint : bytes; env_TokenAudience : bytes }.

(** What is used of a [cloud.Configuration]: the audience of the container
    registry service, if it is configured, and the endpoint and audience of the
    resource manager. *)
Record cloudConf := mkCloudConf { cc_acr : option bytes; cc_armEndpoint : bytes; cc_armAudience : bytes }.

Section azure.
(** The clouds of the SDK, the environment variables, reading the environment
    file as JSON, and [url.Parse]. *)
Context {E0 : Type} `{Unicode} (ParseReference : bytes → E0 + bytes) (url_Parse : bytes → E0 + URL).
Context (AzurePublic AzureChina AzureGovernment : cloudConf).
Context (LookupEnv : bytes → option bytes) (read_environment : bytes → E0 + Environment).

Inductive azure_err :=
  | AzExternal (e : E0)
  | TenantIDNotSet | ClientIDNotSet | InvalidAKSCluster (cluster : bytes)
  | EnvironmentNotSet | EnvironmentIncomplete | SuffixNotSet
  | AzParseRepository (repository : bytes) (e : E0)
  | RegistrySuffixErr (e : azure_err) | InvalidSuffix (registry suffix : bytes) | InvalidACR (registry : bytes)
  | AksClientErr (e : E0) | AksDescribeErr (e : E0) | NoEntraID (cluster : bytes)
  | AksAddressErr (host : bytes) (e : address_err E0) | KubeconfigErr (i : nat) (e : E0)
  | KubeconfigAddressErr (host : bytes) (i : nat) (e : address_err E0)
  | NoKubeconfig (cluster : bytes) | NoMatchingKubeconfig (cluster address : bytes) (addresses : list bytes)
  | NotAnAzureToken.

(** [src/auth/azure/options.go:41-47 getTenantID] *)
Definition getTenantID (sa : ServiceAccount) : azure_err + bytes :=
  match sa_Annotations sa !! str "azure.workload.identity/tenant-id" with Some t => inr t | None => inl TenantIDNotSet end.
(** [src/auth/azure/options.go:49-55 getClientID] *)
Definition getClientID (sa : ServiceAccount) : azure_err + bytes :=
  match sa_Annotations sa !! str "azure.workload.identity/client-id" with Some t => inr t | None => inl ClientIDNotSet end.
(** [src/auth/azure/options.go:29-39 getIdentity] *)
Definition getIdentity (sa : ServiceAccount) : azure_err + bytes :=
  match getTenantID sa, getClientID sa with
  | inl e, _ => inl e
  | _, inl e => inl e
  | inr t, inr c => inr (t ++ str "/" ++ c)
  end.

(** [src/auth/azure/options.go:61-71 parseCluster] *)
Definition aks_parseCluster (cluster : bytes) : azure_err + bytes * bytes * bytes :=
  match FindStringSubmatch (whole aks_cluster) cluster with
  | None => inl (InvalidAKSCluster cluster)
  | Some m => inr (m 1, m 2, m 3)
  end.

Definition envVarAzureEnvironmentFilepath : bytes := str "AZURE_ENVIRONMENT_FILEPATH".
(** [src/auth/azure/options.go:88-92 hasEnvironmentFile] *)
Definition hasEnvironmentFile : bool := bool_decide (is_Some (LookupEnv envVarAzureEnvironmentFilepath)).
(** [src/auth/azure/options.go:94-112 getEnvironmentConfig] *)
Definition getEnvironmentConfig : azure_err + Environment :=
  let envFilePath := default [] (LookupEnv envVarAzureEnvironmentFilepath) in
  if is_empty envFilePath then inl EnvironmentNotSet
  else match read_environment envFilePath with inl e => inl (AzExternal e) | inr env => inr env end.
(** [src/auth/azure/options.go:114-134 getCloudConfigFromEnvironment] *)
Definition getCloudConfigFromEnvironment : azure_err + cloudConf :=
  match getEnvironmentConfig with
  | inl e => inl e
  | inr env =>
      if negb (is_empty (env_ResourceManagerEndpoint env)) && negb (is_empty (env_TokenAudience env))
      then inr (mkCloudConf None (env_ResourceManagerEndpoint env) (env_TokenAudience env))
      else inl EnvironmentIncomplete
  end.
(** [src/auth/azure/options.go:136-148 getContainerRegistryDNSSuffix] *)
Definition getContainerRegistryDNSSuffix : azure_err + bytes :=
  match getEnvironmentConfig with
  | inl e => inl e
  | inr env => if is_empty (env_ContainerRegistryDNSSuffix env) then inl SuffixNotSet else inr (env_ContainerRegistryDNSSuffix env)
  end.

(** ** Registries, clusters and repositories ([provider.go]) *)

(** [src/auth/azure/provider.go:129-164 Provider.GetAccessTokenOptionsForArtifactRepository] *)
Definition azure_registry_options (artifactRepository : bytes) : azure_err + list (Option URL) :=
  match GetRegistryFromArtifactRepository ParseReference artifactRepository with
  | inl e => inl (AzParseRepository artifactRepository e)
  | inr registry =>
      let conf := if hasEnvironmentFile then getCloudConfigFromEnvironment
                  else if HasSuffix registry (str ".azurecr.cn") then inr AzureChina
                  else if HasSuffix registry (str ".azurecr.us") then inr AzureGovernment
                  else inr AzurePublic in
      match conf with
      | inl e => inl e
      | inr conf =>
          let acrScope := match cc_acr conf with
                          | Some audience => audience ++ str "/.default"
                          | None => cc_armEndpoint conf ++ str "/.default"
                          end in
          inr [WithScopes [acrScope]]
      end
  end.

(** [src/auth/azure/provider.go:171-200 Provider.ParseArtifactRepository] *)
Definition azure_ParseArtifactRepository (artifactRepository : bytes) : azure_err + bytes :=
  match GetRegistryFromArtifactRepository ParseReference artifactRepository with
  | inl e => inl (AzParseRepository artifactRepository e)
  | inr registry =>
      if MatchString (whole acr_registry) registry then inr registry
      else if hasEnvironmentFile then
        match getContainerRegistryDNSSuffix with
        | inl e => inl (RegistrySuffixErr e)
        | inr registrySuffix => if HasSuffix registry registrySuffix then inr registry else inl (InvalidSuffix registry registrySuffix)
        end
      else inl (InvalidACR registry)
  end.

(** [src/auth/azure/provider.go:254-287 Provider.GetAccessTokenOptionsForCluster] *)
Definition azure_cluster_options (opts : list (Option URL)) : azure_err + list (list (Option URL)) :=
  let o := Apply opts in
  let aksTokenOpts := [WithScopes [str "6dae42f8-4368-4678-94ff-3960e28e3630/.default"]] in
  if is_empty (o_ClusterAddress o) || is_empty (o_CAData o) then
    let authorityHost := default [] (LookupEnv (str "AZURE_AUTHORITY_HOST")) in
    let conf := if hasEnvironmentFile then getCloudConfigFromEnvironment
                else if strings_Contains authorityHost (str "chinacloudapi.cn") then inr AzureChina
                else if strings_Contains authorityHost (str "microsoftonline.us") then inr AzureGovernment
                else inr AzurePublic in
    match conf with
    | inl e => inl e
    | inr conf => inr [aksTokenOpts; [WithScopes [cc_armAudience conf ++ str "/.default"]]]
    end
  else inr [aksTokenOpts].

(** [src/auth/azure/scopes.go:19-22 ScopeDevOps] *)
Definition ScopeDevOps : bytes := str "499b84ac-1321-427f-aa17-267ca6975798/.default".

Inductive AzureProvider := Azure.

(** [src/auth/azure/provider.go:48-51 Provider.GetName] *)
#[global] Instance azure_provider : Provider AzureProvider azure_err := {
  GetName _ := str "azure";
  GetIdentity _ sa := getIdentity sa }.
#[global] Instance azure_registry : ArtifactRegistryCredentialsProvider AzureProvider URL azure_err := {
  GetAccessTokenOptionsForArtifactRepository _ := azure_registry_options;
  ParseArtifactRepository _ := azure_ParseArtifactRepository }.
(** [src/auth/azure/provider.go:398-410 Provider.ParseGitRepository] *)
#[global] Instance azure_git : GitCredentialsProvider AzureProvider URL azure_err := {
  GetAccessTokenOptionsForGitRepository _ _ := inr [WithScopes [ScopeDevOps]];
  ParseGitRepository _ _ := inr (str "azure-devops") }.
#[global] Instance azure_cluster : RESTConfigProvider AzureProvider URL azure_err := {
  GetAccessTokenOptionsForCluster _ := azure_cluster_options }.

(** ** Tokens and credentials *)

(** [src/auth/azure/token.go:27-28 Token] *)
Record azure_token := mkAzureToken { az_Token : bytes; az_ExpiresOn : time }.

Inductive azure_call :=
  | ZDefaultCredential (shellOut : bool) (proxy : option URL)
  | ZClientAssertion (tenantID clientID oidcToken : bytes) (proxy : option URL)
  | ZGetToken (scopes : list bytes)
  | ZNewAuthenticationClient (endpoint : bytes) (proxy : option URL)
  | ZExchange (service : bytes) (accessToken : bytes)
  | ZNewManagedClustersClient (subscriptionID : bytes) (token : azure_token) (proxy : option URL)
  | ZGetCluster (resourceGroup clusterName : bytes)
  | ZListCredentials (resourceGroup clusterName : bytes).
(** The token; the refresh token (a pointer) with its claims, of which the expiry
    may be missing; whether a cluster has an AAD profile; the kubeconfigs with
    their hosts and CAs. *)
Record azure_reply := mkAzureReply {
  z_err : option E0; z_token : azure_token;
  z_refresh : option bytes; z_expiry : E0 + option time;
  z_aad : bool; z_kubeconfigs : list (E0 + bytes * bytes) }.

Definition zprog (A : Type) : Type := prog azure_call azure_reply (res (azure_err + A)).
Definition zfail {A} (e : azure_err) : zprog A := Ret (Val (inl e)).
Definition zdone {A} (a : A) : zprog A := Ret (Val (inr a)).
Definition zpanic {A} : zprog A := Ret Panics.
Definition zcall {A} (c : azure_call) (wrap : E0 → azure_err) (k : azure_reply → zprog A) : zprog A :=
  Call c (λ r, match z_err r with Some e => zfail (wrap e) | None => k r end).

(** [src/auth/azure/provider.go:53-81 Provider.NewControllerToken] *)
Definition azure_NewControllerToken (opts : list (Option URL)) : zprog azure_token :=
  let o := Apply opts in
  zcall (ZDefaultCredential (o_AllowShellOut o) (o_ProxyURL o)) AzExternal (λ _,
  zcall (ZGetToken (o_Scopes o)) AzExternal (λ r, zdone (z_token r))).

(** [src/auth/azure/provider.go:93-127 Provider.NewTokenForServiceAccount] *)
Definition azure_NewTokenForServiceAccount (oidcToken : bytes) (sa : ServiceAccount) (opts : list (Option URL)) : zprog azure_token :=
  let o := Apply opts in
  match getIdentity sa with
  | inl e => zfail e
  | inr identity =>
      match strings_Split identity "/" with
      | tenantID :: clientID :: _ =>
          zcall (ZClientAssertion tenantID clientID oidcToken (o_ProxyURL o)) AzExternal (λ _,
          zcall (ZGetToken (o_Scopes o)) AzExternal (λ r, zdone (z_token r)))
      | _ => zpanic
      end
  end.

(** A refresh token that is nil and an expiry that is missing panic.
    [src/auth/azure/provider.go:202-252 Provider.NewArtifactRegistryCredentials] *)
Definition azure_NewArtifactRegistryCredentials (registry : bytes) (accessToken : azure_token) (opts : list (Option URL))
    : zprog (ArtifactRegistryCredentials (bytes * bytes)) :=
  zcall (ZNewAuthenticationClient (str "https://" ++ registry) (o_ProxyURL (Apply opts))) AzExternal (λ _,
  zcall (ZExchange registry (az_Token accessToken)) AzExternal (λ r,
    match z_refresh r, z_expiry r with
    | None, _ => zpanic
    | Some _, inl e => zfail (AzExternal e)
    | Some _, inr None => zpanic
    | Some token, inr (Some expiry) => zdone (mkRegistryCreds (str "00000000-0000-0000-0000-000000000000", token) expiry)
    end)).

(** The first kubeconfig with the address, or the first one; the addresses that
    were seen.
    [src/auth/azure/provider.go:355-371 Provider.NewRESTConfig] *)
Fixpoint kubeconfig_loop (canonicalHost : bytes) (i : nat) (kcs : list (E0 + bytes * bytes)) (addresses : list bytes)
    : azure_err + option (bytes * bytes) * list bytes :=
  match kcs with
  | [] => inr (None, addresses)
  | inl e :: _ => inl (KubeconfigErr i e)
  | inr conf :: kcs =>
      let addresses := addresses ++ [str "'" ++ conf.1 ++ str "'"] in
      match ParseClusterAddress url_Parse conf.1 with
      | inl e => inl (KubeconfigAddressErr conf.1 i e)
      | inr fromAPI =>
          if is_empty canonicalHost || bool_decide (fromAPI = canonicalHost) then inr (Some conf, addresses)
          else kubeconfig_loop canonicalHost (S i) kcs addresses
      end
  end.

(** [src/auth/azure/provider.go:289-396 Provider.NewRESTConfig] *)
Definition azure_NewRESTConfig (accessTokens : list azure_token) (opts : list (Option URL)) : zprog RESTConfig :=
  match accessTokens with
  | [] => zpanic
  | aksToken :: rest =>
      let armToken := match rest with [t] => Some t | _ => None end in
      let o := Apply opts in
      let host := o_ClusterAddress o in
      let caData := o_CAData o in
      let finish host caData : zprog RESTConfig := zdone (mkRESTConfig host (az_Token aksToken) caData (az_ExpiresOn aksToken)) in
      if is_empty host || is_empty caData then
        let cluster := o_ClusterResource o in
        match aks_parseCluster cluster, armToken with
        | inl e, _ => zfail e
        | inr _, None => zpanic
        | inr (subscriptionID, resourceGroup, clusterName), Some armToken =>
            zcall (ZNewManagedClustersClient subscriptionID armToken (o_ProxyURL o)) AksClientErr (λ _,
            zcall (ZGetCluster resourceGroup clusterName) AksDescribeErr (λ r,
              if negb (z_aad r) then zfail (NoEntraID cluster)
              else
                let canonicalHost := if is_empty host then inr [] else ParseClusterAddress url_Parse host in
                match canonicalHost with
                | inl e => zfail (AksAddressErr host e)
                | inr canonicalHost =>
                    zcall (ZListCredentials resourceGroup clusterName) AzExternal (λ r,
                      match kubeconfig_loop canonicalHost 0 (z_kubeconfigs r) [] with
                      | inl e => zfail e
                      | inr (None, addresses) =>
                          zfail (if is_empty canonicalHost then NoKubeconfig cluster
                                 else NoMatchingKubeconfig cluster (o_ClusterAddress o) addresses)
                      | inr (Some conf, _) =>
                          finish (if is_empty host then conf.1 else host) (if is_empty caData then conf.2 else caData)
                      end)
                end))
        end
      else finish host caData
  end.

(** [src/auth/azure/provider.go:412-424 Provider.NewGitCredentials] *)
Definition azure_NewGitCredentials (accessToken : option azure_token) : azure_err + GitCredentials :=
  match accessToken with
  | None => inl NotAnAzureToken
  | Some token => inr (mkGitCreds (az_Token token) [] [] (az_ExpiresOn token))
  end.

(** ** What holds *)

(** Azure does not restrict the annotations it reads the identity from. *)
Definition annotations_one_line (sa : ServiceAccount) : Prop := ∀ k v, sa_Annotations sa !! k = Some v → one_line v.
Definition conf_one_line (c : cloudConf) : Prop :=
  (∀ a, cc_acr c = Some a → one_line a) ∧ one_line (cc_armEndpoint c) ∧ one_line (cc_armAudience c).

Hypothesis clouds_one_line : conf_one_line AzurePublic ∧ conf_one_line AzureChina ∧ conf_one_line AzureGovernment.
Hypothesis environment_one_line : ∀ f e, read_environment f = inr e →
  one_line (env_ResourceManagerEndpoint e) ∧ one_line (env_TokenAudience e).

Lemma environment_conf c : getCloudConfigFromEnvironment = inr c → conf_one_line c.
Proof.
  unfold getCloudConfigFromEnvironment, getEnvironmentConfig. cbv zeta. destruct (is_empty (default _ _)); [done|].
  destruct (read_environment _) as [e|env] eqn:He; [done|]. destruct (_ && _); [|done]. intros [= <-].
  apply environment_one_line in He as [H1 H2]. by split_and!.
Qed.

Lemma default_scope a : one_line a → one_line (a ++ str "/.default").
Proof. intros Ha. apply one_line_app; [done|]. by apply (bool_decide_unpack _). Qed.

(** What the isolation of credentials relies on, for service accounts whose
    annotations have no line breaks. *)
#[global] Instance azure_laws : ProviderLaws AzureProvider URL azure_err annotations_one_line (λ _, True).
Proof.
  destruct clouds_one_line as (Hpub & Hch & Hgov). split.
  - intros []. by apply (bool_decide_unpack _).
  - intros [] sa i Hsa _ _. cbn. unfold getIdentity, getTenantID, getClientID.
    destruct (sa_Annotations sa !! str "azure.workload.identity/tenant-id") as [t|] eqn:Ht; [|done].
    destruct (sa_Annotations sa !! str "azure.workload.identity/client-id") as [c|] eqn:Hc; [|done].
    intros [= <-]. apply one_line_app; [by apply (Hsa _ _ Ht)|].
    apply (one_line_app (str "/") c); [by apply (bool_decide_unpack _)|by apply (Hsa _ _ Hc)].
  - intros [] r l _. cbn. unfold azure_registry_options. destruct (GetRegistryFromArtifactRepository _ _) as [e|reg]; [done|].
    cbv zeta. destruct (if hasEnvironmentFile then _ else _) as [e|conf] eqn:Hconf; [done|]. intros [= <-].
    assert (conf_one_line conf) as (Ha & He & _).
    { destruct hasEnvironmentFile; [by apply environment_conf|]. repeat case_match; by simplify_eq. }
    repeat constructor. destruct (cc_acr conf); apply default_scope; auto.
  - intros [] u l _ [= <-]. repeat constructor. by apply (bool_decide_unpack _).
  - intros [] opts l _ _ _. cbn. unfold azure_cluster_options. cbv zeta.
    assert (one_line (str "6dae42f8-4368-4678-94ff-3960e28e3630/.default")) by by apply (bool_decide_unpack _).
    destruct (_ || _); [|intros [= <-]; repeat constructor; done].
    destruct (if hasEnvironmentFile then _ else _) as [e|conf] eqn:Hconf; [done|]. intros [= <-].
    assert (conf_one_line conf) as (_ & _ & Ha).
    { destruct hasEnvironmentFile; [by apply environment_conf|]. repeat case_match; by simplify_eq. }
    repeat constructor; [done|by apply default_scope].
Qed.

(** A kubeconfig that is chosen has the address that was asked for. *)
Lemma kubeconfig_loop_spec canonicalHost i kcs addresses conf addresses' :
  kubeconfig_loop canonicalHost i kcs addresses = inr (Some conf, addresses') →
  inr conf ∈ kcs ∧ (canonicalHost = [] ∨ ParseClusterAddress url_Parse conf.1 = inr canonicalHost).
Proof.
  revert i addresses. induction kcs as [|[e|kc] kcs IH]; intros i addresses; cbn [kubeconfig_loop]; [done..|].
  destruct (ParseClusterAddress url_Parse kc.1) as [e|h] eqn:Hh; [done|]. unfold is_empty.
  destruct (decide (canonicalHost = [])) as [->|Hne].
  - rewrite bool_decide_eq_true_2 by done. intros [= -> _]. split; [left|by left].
  - rewrite bool_decide_eq_false_2 by done. cbn [orb]. case_bool_decide as Heq.
    + subst h. intros [= -> _]. split; [left|by right].
    + intros [Hin Hc]%IH. split; [by right|done].
Qed.

Lemma runs_zcall {A} c w (k : azure_reply → zprog A) t a :
  runs (zcall c w k) t a → (∃ e, a = Val (inl e)) ∨ ∃ r t', t = (c, r) :: t' ∧ runs (k r) t' a.
Proof.
  intros (r & t' & -> & Hr)%runs_call_inv. destruct (z_err r).
  - apply runs_ret_inv in Hr as [_ ->]. left. by eexists.
  - right. by exists r, t'.
Qed.

(** What a configuration may be. *)
Definition config_ok (o : authOptions URL) (t : list (azure_call * azure_reply)) (c : RESTConfig) : Prop :=
  (o_ClusterAddress o ≠ [] → rc_Host c = o_ClusterAddress o) ∧ (o_CAData o ≠ [] → rc_CAData c = o_CAData o) ∧
  ((o_ClusterAddress o = [] ∨ o_CAData o = []) → ∃ conf rg name r, (ZListCredentials rg name, r) ∈ t ∧ inr conf ∈ z_kubeconfigs r ∧
     (o_ClusterAddress o = [] → rc_Host c = conf.1) ∧ (o_CAData o = [] → rc_CAData c = conf.2) ∧
     (o_ClusterAddress o ≠ [] → ParseClusterAddress url_Parse conf.1 = ParseClusterAddress url_Parse (o_ClusterAddress o))).

(** A canonical address is not empty. *)
Lemma ParseClusterAddress_nonempty a h : ParseClusterAddress url_Parse a = inr h → h ≠ [].
Proof. unfold ParseClusterAddress. repeat case_match; intros [= <-]; done. Qed.

Lemma is_empty_spec b : is_empty b = true ↔ b = [].
Proof. unfold is_empty. apply bool_decide_eq_true. Qed.

(** The tokens that the provider asks for are those that it uses: no panic, and
    a given address and a given CA are kept.  Without an address the host is one
    of the cluster's kubeconfigs; with an address and no CA, the CA is that of a
    kubeconfig with this address. *)
Lemma azure_NewRESTConfig_spec opts l toks t a :
  azure_cluster_options opts = inr l → length toks = length l → runs (azure_NewRESTConfig toks opts) t a →
  a ≠ Panics ∧ ∀ c, a = Val (inr c) → config_ok (Apply opts) t c.
Proof.
  unfold azure_cluster_options, azure_NewRESTConfig. cbv zeta. set (o := Apply opts).
  assert (∀ A (x : azure_err) (Q : A → Prop), (Val (inl x) : res (azure_err + A)) ≠ Panics ∧ ∀ c, Val (inl x) = Val (inr c) → Q c) as Herr by done.
  destruct (is_empty (o_ClusterAddress o) || is_empty (o_CAData o)) eqn:Hd; intros Hl Hlen Hr.
  - destruct (if hasEnvironmentFile then _ else _) as [?|conf]; simplify_eq/=.
    destruct toks as [|aks [|arm [|]]]; try done. destruct (aks_parseCluster (o_ClusterResource o)) as [e|[[sub rg] name]].
    { apply runs_ret_inv in Hr as [_ ->]. apply Herr. }
    apply runs_zcall in Hr as [[e ->]|(r1 & t1 & -> & Hr)]; [apply Herr|].
    apply runs_zcall in Hr as [[e ->]|(r2 & t2 & -> & Hr)]; [apply Herr|].
    destruct (negb (z_aad r2)). { apply runs_ret_inv in Hr as [_ ->]. apply Herr. }
    destruct (if is_empty (o_ClusterAddress o) then _ else _) as [e|ch] eqn:Hch. { apply runs_ret_inv in Hr as [_ ->]. apply Herr. }
    apply runs_zcall in Hr as [[e ->]|(r3 & t3 & -> & Hr)]; [apply Herr|].
    destruct (kubeconfig_loop ch 0 (z_kubeconfigs r3) []) as [e|[[kc|] addrs]] eqn:Hk.
    1, 3: apply runs_ret_inv in Hr as [_ ->]; apply Herr.
    apply runs_ret_inv in Hr as [-> ->]. split; [done|]. intros c [= <-]. apply kubeconfig_loop_spec in Hk as [Hin Hk].
    unfold config_ok. cbn [rc_Host rc_CAData].
    assert (∀ x y : bytes, x ≠ [] → (if is_empty x then y else x) = x) as Hne by (by intros [] y).
    assert (∀ x y : bytes, x = [] → (if is_empty x then y else x) = y) as Heq by (by intros ? y ->).
    split_and!; [by apply Hne..|]. intros _. exists kc, rg, name, r3. split_and!; [set_solver|done|by apply Heq..|].
    intros Ha. destruct (is_empty (o_ClusterAddress o)) eqn:He; [by apply is_empty_spec in He|].
    rewrite Hch. destruct Hk as [->|Hk]; [|done]. by apply ParseClusterAddress_nonempty in Hch.
  - simplify_eq/=. destruct toks as [|aks [|]]; try done. apply runs_ret_inv in Hr as [-> ->]. split; [done|].
    intros c [= <-]. apply orb_false_iff in Hd as [Ha Hc]. unfold config_ok. cbn. split_and!; [done..|].
    intros [H0|H0]; apply is_empty_spec in H0; congruence.
Qed.
End azure.

(** The names in the identifier of a cluster are compared without case. *)
Example aks_case :
  aks_parseCluster (E0 := string)
    (str "/Subscriptions/00000000-0000-0000-0000-000000000000/resourcegroups/rg/providers/microsoft.containerservice/managedclusters/c")
  = inr (str "00000000-0000-0000-0000-000000000000", str "rg", str "c").
Proof. by vm_compute. Qed.
