(* ===== verification/AuthGeneric.v ===== *)
(** * The generic provider and the choice of a provider ([auth/generic], [auth/utils])

    The generic provider uses the tokens that Kubernetes issues for service
    accounts.  [utils] chooses a provider by its name, and builds the options of
    a cluster from a ConfigMap. *)

From S2P Require Import Prelude CacheMetrics GoStd Lru TokenCache Utf8 GoPath GoText Sha256 Interaction Auth AuthKeys AuthRuns AuthSpec.

Section generic.
(** Parsing a JWT without verifying it, and reading its subject and its expiry,
    which may be missing. *)
Context {E0 : Type} `{Unicode} (url_Parse : bytes → E0 + URL).
Context (jwt_subject : bytes → E0 + (E0 + bytes)) (jwt_expiry : bytes → E0 + (E0 + option time)).

Inductive generic_err :=
  | ClientRequired | ReadTokenErr (e : E0) | ParseTokenErr (e : E0) | SubjectErr (e : E0) | InvalidSubject (sub : bytes)
  | ControllerTokenErr (sa : ObjectKey) (e : E0) | ExpirationErr (e : E0)
  | AddressRequired | GenericAddressErr (address : bytes) (e : address_err E0)
  | GenericNotSupported.

(** [src/auth/generic/token.go:23-27 Token] *)
Record generic_token := mkGenericToken { gn_Token : bytes; gn_ExpiresAt : time }.

(** An expiry that is missing is a nil pointer, of which a field is read.
    [src/auth/generic/provider.go:191-201 getExpirationFromToken] *)
Definition getExpirationFromToken (token : bytes) : res (generic_err + time) :=
  match jwt_expiry token with
  | inl e => Val (inl (ParseTokenErr e))
  | inr (inl e) => Val (inl (ExpirationErr e))
  | inr (inr None) => Panics
  | inr (inr (Some t)) => Val (inr t)
  end.

Inductive generic_call := NReadFile (path : bytes) | NCreateToken (sa : ObjectKey) (audiences : list bytes).
Record generic_reply := mkGenericReply { n_err : option E0; n_content : bytes }.

Definition with_expiry (token : bytes) : res (generic_err + generic_token) :=
  match getExpirationFromToken token with
  | Panics => Panics
  | Val (inl e) => Val (inl e)
  | Val (inr exp) => Val (inr (mkGenericToken token exp))
  end.

(** [src/auth/generic/provider.go:46-107 Provider.NewControllerToken] *)
Definition generic_NewControllerToken (opts : list (Option URL)) : prog generic_call generic_reply (res (generic_err + generic_token)) :=
  let o := Apply opts in
  if negb (o_Client o) then Ret (Val (inl ClientRequired))
  else Call (NReadFile (str "/var/run/secrets/kubernetes.io/serviceaccount/token")) (λ r,
    match n_err r, jwt_subject (n_content r) with
    | Some e, _ => Ret (Val (inl (ReadTokenErr e)))
    | None, inl e => Ret (Val (inl (ParseTokenErr e)))
    | None, inr (inl e) => Ret (Val (inl (SubjectErr e)))
    | None, inr (inr sub) =>
        match strings_Split sub ":" with
        | [_; _; namespace; name] =>
            let sa := mkKey namespace name in
            Call (NCreateToken sa (o_Audiences o)) (λ r,
              Ret match n_err r with
                  | Some e => Val (inl (ControllerTokenErr sa e))
                  | None => with_expiry (n_content r)
                  end)
        | _ => Ret (Val (inl (InvalidSubject sub)))
        end
    end).

(** [src/auth/generic/provider.go:120-133 Provider.NewTokenForServiceAccount] *)
Definition generic_NewTokenForServiceAccount (oidcToken : bytes) : res (generic_err + generic_token) := with_expiry oidcToken.

(** [src/auth/generic/provider.go:115-118 Provider.GetIdentity] *)
Definition generic_identity (sa : ServiceAccount) : bytes :=
  str "system:serviceaccount:" ++ sa_Namespace sa ++ str ":" ++ sa_Name sa.

(** [src/auth/generic/provider.go:135-148 Provider.GetAccessTokenOptionsForCluster] *)
Definition generic_cluster_options (opts : list (Option URL)) : generic_err + list (list (Option URL)) :=
  let o := Apply opts in
  let audiences := if length (o_Audiences o) =? 0 then [o_ClusterAddress o] else o_Audiences o in
  inr [[WithAudiences audiences]].

(** [src/auth/generic/provider.go:150-182 Provider.NewRESTConfig] *)
Definition generic_NewRESTConfig (token : generic_token) (opts : list (Option URL)) : generic_err + RESTConfig :=
  let o := Apply opts in
  let host := o_ClusterAddress o in
  if is_empty host then inl AddressRequired
  else match ParseClusterAddress url_Parse host with
       | inl e => inl (GenericAddressErr (o_ClusterAddress o) e)
       | inr host => inr (mkRESTConfig host (gn_Token token) (o_CAData o) (gn_ExpiresAt token))
       end.

Inductive GenericProvider := Generic.

(** [src/auth/generic/provider.go:41-44 Provider.GetName] *)
#[global] Instance generic_provider : Provider GenericProvider generic_err := {
  GetName _ := str "generic";
  GetIdentity _ sa := inr (generic_identity sa) }.
(** The provider has credentials of clusters only. *)
#[global] Instance generic_registry : ArtifactRegistryCredentialsProvider GenericProvider URL generic_err := {
  GetAccessTokenOptionsForArtifactRepository _ _ := inl GenericNotSupported;
  ParseArtifactRepository _ _ := inl GenericNotSupported }.
#[global] Instance generic_git : GitCredentialsProvider GenericProvider URL generic_err := {
  GetAccessTokenOptionsForGitRepository _ _ := inl GenericNotSupported;
  ParseGitRepository _ _ := inl GenericNotSupported }.
#[global] Instance generic_cluster : RESTConfigProvider GenericProvider URL generic_err := {
  GetAccessTokenOptionsForCluster _ := generic_cluster_options }.

#[global] Instance generic_laws : ProviderLaws GenericProvider URL generic_err (λ _, True) (λ _, True).
Proof.
  split; try done.
  - intros []. by apply (bool_decide_unpack _).
  - intros [] sa i _ Hns Hn [= <-]. unfold generic_identity. apply one_line_app; [by apply (bool_decide_unpack _)|].
    apply one_line_app; [done|]. apply (one_line_app (str ":")); [by apply (bool_decide_unpack _)|done].
  - intros [] opts l Ha _ Had [= <-]. repeat constructor. cbn. destruct (_ =? 0); [by repeat constructor|done].
Qed.

(** The token for a cluster is for its address unless audiences are given. *)
Lemma generic_audience opts :
  o_Audiences (Apply opts) = [] → ∀ l, generic_cluster_options opts = inr l →
  (λ o, o_Audiences (Apply (opts ++ o))) <$> l = [[o_ClusterAddress (Apply opts)]].
Proof.
  intros Ha l [= <-]. rewrite Ha. cbn. unfold Apply. rewrite foldl_app. cbn. by destruct (foldl _ _ _).
Qed.
End generic.

(** ** The choice of a provider ([utils/provider.go]) *)

Inductive provider_name := PAws | PAzure | PGcp | PGeneric.
Inductive interface := IRegistry | IGit | IRESTConfig.

Definition implements (p : provider_name) (i : interface) : bool :=
  match i, p with
  | IRESTConfig, _ => true
  | IRegistry, PGeneric => false
  | IRegistry, _ => true
  | IGit, (PAws | PAzure) => true
  | IGit, _ => false
  end.

Inductive by_name_err := NotImplemented (name : bytes) | NotTheInterface (name : bytes).

(** [src/auth/utils/provider.go:28-52 ProviderByName] *)
Definition ProviderByName (i : interface) (name : bytes) : by_name_err + provider_name :=
  let p := if bool_decide (name = str "aws") then Some PAws
           else if bool_decide (name = str "azure") then Some PAzure
           else if bool_decide (name = str "gcp") then Some PGcp
           else if bool_decide (name = str "generic") then Some PGeneric
           else None in
  match p with
  | None => inl (NotImplemented name)
  | Some p => if implements p i then inr p else inl (NotTheInterface name)
  end.

(** ** The options of a cluster ([utils/restconfig.go]) *)

Fixpoint audience_loop (lines : list bytes) : list bytes :=
  match lines with
  | [] => []
  | aud :: lines =>
      let aud := strings_TrimSpace aud in
      if is_empty aud then audience_loop lines else aud :: audience_loop lines
  end.

Definition opt_key (data : gmap bytes bytes) (k : bytes) (f : bytes → Option URL) : list (Option URL) :=
  match data !! k with Some v => [f v] | None => [] end.

(** [src/auth/utils/restconfig.go:93-119 GetRESTConfig] *)
Definition configmap_options (data : gmap bytes bytes) (namespace : bytes) (opts : list (Option URL)) : list (Option URL) :=
  opts ++ opt_key data (str "cluster") WithClusterResource ++ opt_key data (str "address") WithClusterAddress
  ++ opt_key data (str "ca.crt") WithCAData ++ [WithClient; WithServiceAccountNamespace namespace]
  ++ opt_key data (str "serviceAccountName") WithServiceAccountName
  ++ opt_key data (str "audiences") (λ a, WithAudiences (audience_loop (strings_Split a newline))).

Lemma Apply_app (a b : list (Option URL)) : Apply (a ++ b) = foldl apply_opt (Apply a) b.
Proof. apply foldl_app. Qed.

(** The ConfigMap cannot leave the namespace of the object: whatever its data
    and the options before it, the service account is one of this namespace. *)
Lemma configmap_namespace data namespace opts :
  let o := Apply (configmap_options data namespace opts) in
  o_ServiceAccountNamespace o = namespace ∧ o_Client o = true ∧
  (∀ n, data !! str "serviceAccountName" = Some n → o_ServiceAccountName o = n).
Proof.
  cbv zeta. unfold configmap_options. rewrite !Apply_app. generalize (Apply opts). intros o.
  unfold opt_key. repeat (rewrite ?foldl_app; cbn [foldl]).
  destruct (data !! str "cluster"), (data !! str "address"), (data !! str "ca.crt"), (data !! str "serviceAccountName"),
    (data !! str "audiences"), o; cbn; naive_solver.
Qed.
