(* ===== verification/KnownHosts.v ===== *)
(** * Known hosts ([ssh/knownhosts], [ssh/host_key.go])

    The database of host keys that is read from the text of a known_hosts file,
    the check of a server's key against it, and the collector that writes such
    lines.  Keys and their parsing, HMAC-SHA1, SHA-256 and the normalization of
    addresses are parameters. *)

From S2P Require Import Prelude Utf8 GoPath GoText.

(** ** Addresses and patterns *)

(** [src/ssh/knownhosts/knownhosts.go:37-37 addr] *)
Record addr := mkAddr { a_host : bytes; a_port : bytes }.
#[global] Instance addr_eq_dec : EqDecision addr.
Proof. solve_decision. Defined.

(** [src/ssh/knownhosts/knownhosts.go:39-45 addr.String] *)
Definition addr_String (a : addr) : bytes :=
  let h := a_host a in
  let h := if strings_Contains h (str ":") then str "[" ++ h ++ str "]" else h in
  h ++ str ":" ++ a_port a.

(** [src/ssh/knownhosts/knownhosts.go:51-54 hostPattern] *)
Record hostPattern := mkHostPattern { hp_negate : bool; hp_addr : addr }.

(** [src/ssh/knownhosts/knownhosts.go:56-63 hostPattern.String] *)
Definition hostPattern_String (p : hostPattern) : bytes :=
  (if hp_negate p then str "!" else []) ++ addr_String (hp_addr p).

(** The loop of the star: the rest of the pattern against every suffix that is
    not empty.
    [src/ssh/knownhosts/knownhosts.go:98-103 wildcardMatch] *)
Fixpoint star_loop (f : bytes → bool) (s : bytes) : bool :=
  match s with
  | [] => false
  | _ :: s' => if f s then true else star_loop f s'
  end.

(** [src/ssh/knownhosts/knownhosts.go:81-113 wildcardMatch] *)
Fixpoint wildcardMatch (pat s : bytes) : bool :=
  match pat with
  | [] => match s with [] => true | _ => false end
  | c :: pat =>
      match s with
      | [] => false
      | d :: s' =>
          if Ascii.eqb c "*" then
            match pat with [] => true | _ => star_loop (wildcardMatch pat) s end
          else if Ascii.eqb c "?" || Ascii.eqb c d then wildcardMatch pat s'
          else false
      end
  end.

(** [src/ssh/knownhosts/knownhosts.go:115-117 hostPattern.match] *)
Definition hostPattern_match (p : hostPattern) (a : addr) : bool :=
  wildcardMatch (a_host (hp_addr p)) (a_host a) && bool_decide (a_port (hp_addr p) = a_port a).

(** [src/ssh/knownhosts/knownhosts.go:68-78 hostPatterns.match] *)
Fixpoint patterns_loop (ps : list hostPattern) (a : addr) (matched : bool) : bool :=
  match ps with
  | [] => matched
  | p :: ps =>
      if negb (hostPattern_match p a) then patterns_loop ps a matched
      else if hp_negate p then false
      else patterns_loop ps a true
  end.
(** [src/ssh/knownhosts/knownhosts.go:67-79 hostPatterns.match] *)
Definition hostPatterns_match (ps : list hostPattern) (a : addr) : bool := patterns_loop ps a false.

(** ** Keys *)

(** [ssh.PublicKey], the hashes and [knownhosts.Normalize]. *)
Class Ssh (K : Type) := {
  Marshal : K → bytes;
  KeyType : K → bytes;
  ParsePublicKey : bytes → option K;
  (** what is parsed is the key that was marshalled *)
  Parse_Marshal : ∀ k, ∃ k', ParsePublicKey (Marshal k) = Some k' ∧ Marshal k' = Marshal k ∧ KeyType k' = KeyType k;
  hmac_sha1 : bytes → bytes → bytes;
  sha256 : bytes → bytes;
  Normalize : bytes → bytes;
  (** [knownhosts.HashHostname], with the salt it draws *)
  HashHostname : bytes → bytes → bytes }.

(** The errors, by what they report. *)
Inductive kh_err :=
  | MissingHost | MissingKeyType | BadBase64 | BadKey | NegationAlone | BadAddress (s : bytes)
  | HashStart | HashComponents (n : nat) | HashType (t : bytes) | TooLong.

Section db.
Context {K : Type} `{Ssh K}.

(** [src/ssh/knownhosts/knownhosts.go:132-134 keyEq] *)
Definition keyEq (a b : K) : bool := bool_decide (Marshal a = Marshal b).

(** *** Hashed hosts *)

(** [src/ssh/knownhosts/knownhosts.go:399-418 decodeHash] *)
Definition decodeHash (encoded : bytes) : kh_err + bytes * bytes * bytes :=
  match encoded with
  | "|"%char :: _ =>
      match strings_Split encoded "|" with
      | [_; hashType; salt; hash] =>
          match DecodeString salt with
          | None => inl BadBase64
          | Some salt => match DecodeString hash with
                         | None => inl BadBase64
                         | Some hash => inr (hashType, salt, hash)
                         end
          end
      | components => inl (HashComponents (length components))
      end
  | _ => inl HashStart
  end.

(** [src/ssh/knownhosts/knownhosts.go:420-426 encodeHash] *)
Definition encodeHash (typ salt hash : bytes) : bytes :=
  strings_Join [[]; typ; EncodeToString salt; EncodeToString hash] "|".

(** [src/ssh/knownhosts/knownhosts.go:428-433 hashHost] *)
Definition hashHost (hostname salt : bytes) : bytes := hmac_sha1 salt hostname.

(** [src/ssh/knownhosts/knownhosts.go:435-438 hashedHost] *)
Record hashedHost := mkHashedHost { hh_salt : bytes; hh_hash : bytes }.

(** [src/ssh/knownhosts/knownhosts.go:440-440 sha1HashType] *)
Definition sha1HashType : bytes := str "1".

(** [src/ssh/knownhosts/knownhosts.go:442-456 newHashedHost] *)
Definition newHashedHost (encoded : bytes) : kh_err + hashedHost :=
  match decodeHash encoded with
  | inl e => inl e
  | inr (typ, salt, hash) =>
      if negb (bool_decide (typ = sha1HashType)) then inl (HashType typ) else inr (mkHashedHost salt hash)
  end.

(** [src/ssh/knownhosts/knownhosts.go:458-460 hashedHost.match] *)
Definition hashedHost_match (h : hashedHost) (a : addr) : bool :=
  bool_decide (hashHost (Normalize (addr_String a)) (hh_salt h) = hh_hash h).

(** *** The database *)

(** [src/ssh/knownhosts/knownhosts.go:47-49 matcher] *)
Inductive matcher := MPatterns (ps : list hostPattern) | MHashed (h : hashedHost).
Definition matcher_match (m : matcher) (a : addr) : bool :=
  match m with MPatterns ps => hostPatterns_match ps a | MHashed h => hashedHost_match h a end.

(** [src/ssh/knownhosts/knownhosts.go:136-140 hostKey] *)
Record hostKey := mkHostKey { hk_matcher : matcher; hk_cert : bool; hk_key : K }.
(** [src/ssh/knownhosts/knownhosts.go:142-144 hostKey.match] *)
Definition hostKey_match (l : hostKey) (a : addr) : bool := matcher_match (hk_matcher l) a.

(** [src/ssh/knownhosts/knownhosts.go:119-122 inMemoryHostKeyDB] *)
Record inMemoryHostKeyDB := mkDB { hostKeys : list hostKey; revoked : gmap bytes K }.
(** [src/ssh/knownhosts/knownhosts.go:124-130 newInMemoryHostKeyDB] *)
Definition newInMemoryHostKeyDB : inMemoryHostKeyDB := mkDB [] ∅.

(** [src/ssh/knownhosts/knownhosts.go:146-160 inMemoryHostKeyDB.IsHostAuthority] *)
Fixpoint authority_loop (l : list hostKey) (remote : K) (a : addr) : bool :=
  match l with
  | [] => false
  | l :: ls => if hk_cert l && keyEq (hk_key l) remote && hostKey_match l a then true else authority_loop ls remote a
  end.
(** [src/ssh/knownhosts/knownhosts.go:146-160 inMemoryHostKeyDB.IsHostAuthority] *)
Definition IsHostAuthority (db : inMemoryHostKeyDB) (remote : K) (address : bytes) : bool :=
  match SplitHostPort address with
  | None => false
  | Some (h, p) => authority_loop (hostKeys db) remote (mkAddr h p)
  end.

(** [src/ssh/knownhosts/knownhosts.go:162-166 inMemoryHostKeyDB.IsRevoked] *)
Definition IsRevoked (db : inMemoryHostKeyDB) (key : K) : bool := bool_decide (is_Some (revoked db !! Marshal key)).

(** The algorithms, as the set whose members are returned in some order.
    [src/ssh/knownhosts/knownhosts.go:168-180 inMemoryHostKeyDB.hostKeyAlgorithms] *)
Definition hostKeyAlgorithms (db : inMemoryHostKeyDB) : gset bytes :=
  foldl (λ uniq hk, {[KeyType (hk_key hk)]} ∪ uniq) ∅ (hostKeys db).

(** *** Parsing *)

Definition markerCert : bytes := str "@cert-authority".
Definition markerRevoked : bytes := str "@revoked".

(** What is before the first blank or tab, and from it on.
    [bytes.IndexAny(line, "\t ")] *)
Fixpoint cut_blank (line : bytes) : option (bytes * bytes) :=
  match line with
  | [] => None
  | c :: line' =>
      if Ascii.eqb c "009" || Ascii.eqb c " " then Some ([], line)
      else match cut_blank line' with Some (a, b) => Some (c :: a, b) | None => None end
  end.

(** [src/ssh/knownhosts/knownhosts.go:185-192 nextWord] *)
Definition nextWord (line : bytes) : bytes * bytes :=
  match cut_blank line with
  | None => (line, [])
  | Some (w, rest) => (w, strings_TrimSpace rest)
  end.

(** [src/ssh/knownhosts/knownhosts.go:194-223 parseLine] *)
Definition parseLine (line : bytes) : kh_err + bytes * bytes * K :=
  let '(w, next) := nextWord line in
  let '(marker, line) :=
    if bool_decide (w = markerCert) || bool_decide (w = markerRevoked) then (w, next) else ([], line) in
  let '(host, line) := nextWord line in
  if length line =? 0 then inl MissingHost
  else
    let '(_, line) := nextWord line in
    if length line =? 0 then inl MissingKeyType
    else
      let '(keyBlob, _) := nextWord line in
      match DecodeString keyBlob with
      | None => inl BadBase64
      | Some keyBytes =>
          match ParsePublicKey keyBytes with
          | None => inl BadKey
          | Some key => inr (marker, host, key)
          end
      end.

(** One pattern of a list.
    [src/ssh/knownhosts/knownhosts.go:262-289 newHostnameMatcher] *)
Definition parse_pattern (p : bytes) : kh_err + hostPattern :=
  let '(negate, p) := match p with "!"%char :: p => (true, p) | _ => (false, p) end in
  match p with
  | [] => inl NegationAlone
  | "["%char :: _ =>
      match SplitHostPort p with
      | None => inl (BadAddress p)
      | Some (h, port) => inr (mkHostPattern negate (mkAddr h port))
      end
  | _ =>
      match SplitHostPort p with
      | None => inr (mkHostPattern negate (mkAddr p (str "22")))
      | Some (h, port) => inr (mkHostPattern negate (mkAddr h port))
      end
  end.

(** [src/ssh/knownhosts/knownhosts.go:255-292 newHostnameMatcher] *)
Fixpoint hostname_loop (parts : list bytes) (hps : list hostPattern) : kh_err + list hostPattern :=
  match parts with
  | [] => inr hps
  | p :: parts =>
      if length p =? 0 then hostname_loop parts hps
      else match parse_pattern p with
           | inl e => inl e
           | inr hp => hostname_loop parts (hps ++ [hp])
           end
  end.
(** [src/ssh/knownhosts/knownhosts.go:255-292 newHostnameMatcher] *)
Definition newHostnameMatcher (pattern : bytes) : kh_err + list hostPattern :=
  hostname_loop (strings_Split pattern ",") [].

(** The matcher of an entry; an empty pattern has no first byte: a panic.
    [src/ssh/knownhosts/knownhosts.go:241-249 inMemoryHostKeyDB.parseLine] *)
Definition newMatcher (pattern : bytes) : res (kh_err + matcher) :=
  match pattern with
  | [] => Panics
  | c :: _ =>
      Val (if Ascii.eqb c "|" then sum_map id MHashed (newHashedHost pattern)
           else sum_map id MPatterns (newHostnameMatcher pattern))
  end.

(** [src/ssh/knownhosts/knownhosts.go:225-253 inMemoryHostKeyDB.parseLine] *)
Definition db_parseLine (db : inMemoryHostKeyDB) (line : bytes) : res (kh_err + inMemoryHostKeyDB) :=
  match parseLine line with
  | inl e => Val (inl e)
  | inr (marker, pattern, key) =>
      if bool_decide (marker = markerRevoked)
      then Val (inr (mkDB (hostKeys db) (<[Marshal key := key]> (revoked db))))
      else
        match newMatcher pattern with
        | Panics => Panics
        | Val (inl e) => Val (inl e)
        | Val (inr m) =>
            Val (inr (mkDB (hostKeys db ++ [mkHostKey m (bool_decide (marker = markerCert)) key]) (revoked db)))
        end
  end.

(** [src/ssh/knownhosts/knownhosts.go:358-376 inMemoryHostKeyDB.Read] *)
Fixpoint read_loop (db : inMemoryHostKeyDB) (lines : list bytes) : res (kh_err + inMemoryHostKeyDB) :=
  match lines with
  | [] => Val (inr db)
  | line :: lines =>
      let line := strings_TrimSpace line in
      match line with
      | [] | "#"%char :: _ => read_loop db lines
      | _ =>
          match db_parseLine db line with
          | Panics => Panics
          | Val (inl e) => Val (inl e)
          | Val (inr db) => read_loop db lines
          end
      end
  end.
(** [src/ssh/knownhosts/knownhosts.go:358-376 inMemoryHostKeyDB.Read] *)
Definition Read (db : inMemoryHostKeyDB) (content : bytes) : res (kh_err + inMemoryHostKeyDB) :=
  let '(lines, long) := scan_lines content in
  match read_loop db lines with
  | Val (inr db) => Val (if long : bool then inl TooLong else inr db)
  | r => r
  end.

(** *** The check *)

(** [KeyErr] has the keys that are wanted, in some order. *)
Inductive check_err := RevokedErr (k : K) | AddressErr (s : bytes) | KeyErr (Want : gmap bytes K).

(** The first key of each type that matches.
    [src/ssh/knownhosts/knownhosts.go:320-356 inMemoryHostKeyDB.checkAddr] *)
Fixpoint known_loop (l : list hostKey) (a : addr) (knownKeys : gmap bytes K) : gmap bytes K :=
  match l with
  | [] => knownKeys
  | l :: ls =>
      known_loop ls a
        (if hostKey_match l a
         then match knownKeys !! KeyType (hk_key l) with
              | Some _ => knownKeys
              | None => <[KeyType (hk_key l) := hk_key l]> knownKeys
              end
         else knownKeys)
  end.

(** [src/ssh/knownhosts/knownhosts.go:320-356 inMemoryHostKeyDB.checkAddr] *)
Definition checkAddr (db : inMemoryHostKeyDB) (a : addr) (remoteKey : K) : option check_err :=
  let knownKeys := known_loop (hostKeys db) a ∅ in
  if size knownKeys =? 0 then Some (KeyErr knownKeys)
  else match knownKeys !! KeyType remoteKey with
       | None => Some (KeyErr knownKeys)
       | Some known => if negb (keyEq known remoteKey) then Some (KeyErr knownKeys) else None
       end.

(** [src/ssh/knownhosts/knownhosts.go:294-318 inMemoryHostKeyDB.check] *)
Definition check (db : inMemoryHostKeyDB) (address remote : bytes) (remoteKey : K) : option check_err :=
  match revoked db !! Marshal remoteKey with
  | Some k => Some (RevokedErr k)
  | None =>
      match SplitHostPort remote with
      | None => Some (AddressErr remote)
      | Some (host, port) =>
          if negb (bool_decide (address = [])) then
            match SplitHostPort address with
            | None => Some (AddressErr address)
            | Some (host, port) => checkAddr db (mkAddr host port) remoteKey
            end
          else checkAddr db (mkAddr host port) remoteKey
      end
  end.

(** The database behind the callbacks, and the algorithms.
    [src/ssh/knownhosts/knownhosts.go:378-397 New] *)
Definition KnownHosts_New (b : bytes) : res (kh_err + inMemoryHostKeyDB * gset bytes) :=
  match Read newInMemoryHostKeyDB b with
  | Panics => Panics
  | Val (inl e) => Val (inl e)
  | Val (inr db) => Val (inr (db, hostKeyAlgorithms db))
  end.

(** ** Keys of hosts ([known_key.go]) *)

(** [src/ssh/knownhosts/known_key.go:33-36 KnownKey] *)
Record KnownKey := mkKnownKey { kk_hosts : list bytes; kk_key : K }.

(** [ssh.ParseKnownHosts] of a line: end of file, an error, or hosts and key. *)
Context (ssh_ParseKnownHosts : bytes → option (kh_err + list bytes * K)).

(** [src/ssh/knownhosts/known_key.go:43-59 ParseKnownHosts] *)
Fixpoint known_keys_loop (lines : list bytes) (knownHosts : list KnownKey) : kh_err + list KnownKey :=
  match lines with
  | [] => inr knownHosts
  | line :: lines =>
      match ssh_ParseKnownHosts line with
      | None => known_keys_loop lines knownHosts
      | Some (inl e) => inl e
      | Some (inr (hosts, pubKey)) => known_keys_loop lines (knownHosts ++ [mkKnownKey hosts pubKey])
      end
  end.
(** [src/ssh/knownhosts/known_key.go:38-66 ParseKnownHosts] *)
Definition ParseKnownHosts (s : bytes) : kh_err + list KnownKey :=
  let '(lines, long) := scan_lines s in
  match known_keys_loop lines [] with
  | inl e => inl e
  | inr knownHosts => if long : bool then inl TooLong else inr knownHosts
  end.

(** [src/ssh/knownhosts/known_key.go:95-130 matchHashedHost] *)
Definition matchHashedHost (kh host : bytes) : kh_err + bool :=
  match kh with
  | "|"%char :: _ =>
      match strings_Split kh "|" with
      | [_; typ; salt; hash] =>
          if negb (bool_decide (typ = str "1")) then inl (HashType typ)
          else match DecodeString salt with
               | None => inl BadBase64
               | Some hkSalt =>
                   match DecodeString hash with
                   | None => inl BadBase64
                   | Some hkHash => inr (bool_decide (hmac_sha1 hkSalt host = hkHash))
                   end
               end
      | components => inl (HashComponents (length components))
      end
  | _ => inl HashStart
  end.

(** A host that is empty has no first byte: a panic.
    [src/ssh/knownhosts/known_key.go:79-93 containsHost] *)
Fixpoint containsHost (hosts : list bytes) (host : bytes) : res bool :=
  match hosts with
  | [] => Val false
  | kh :: hosts =>
      match kh with
      | [] => Panics
      | c :: _ =>
          if Ascii.eqb c "|" then
            match matchHashedHost kh host with
            | inr true => Val true
            | _ => containsHost hosts host
            end
          else if bool_decide (kh = host) then Val true
          else containsHost hosts host
      end
  end.

(** [src/ssh/knownhosts/known_key.go:68-77 KnownKey.Matches] *)
Definition Matches (k : KnownKey) (host fingerprint : bytes) : res bool :=
  match containsHost (kk_hosts k) host with
  | Panics => Panics
  | Val false => Val false
  | Val true => Val (bool_decide (sha256 (Marshal (kk_key k)) = fingerprint))
  end.

(** ** Collecting keys ([host_key.go]) *)

(** [src/ssh/host_key.go:58-63 HostKeyCollector] *)
Record HostKeyCollector := mkCollector { c_knownKeys : bytes; c_hashKeys : bool }.

(** The callback; [salt] is drawn for each call.
    [src/ssh/host_key.go:65-81 HostKeyCollector.StoreKey] *)
Definition StoreKey (c : HostKeyCollector) (salt hostname : bytes) (key : K) : HostKeyCollector :=
  let h := Normalize hostname in
  let h := if c_hashKeys c then HashHostname salt h else h in
  mkCollector (c_knownKeys c ++ h ++ str " " ++ KeyType key ++ str " " ++ EncodeToString (Marshal key) ++ [newline])
    (c_hashKeys c).

(** [src/ssh/host_key.go:83-86 HostKeyCollector.GetKnownKeys] *)
Definition GetKnownKeys (c : HostKeyCollector) : bytes := c_knownKeys c.

(** [ssh.Dial] calls the callback with the keys the server presents, and may
    fail.
    [src/ssh/host_key.go:29-56 ScanHostKey] *)
Definition ScanHostKey {E} (dial : list (bytes * bytes * K) * option E) (hashKeys : bool) : bytes * option E :=
  let '(presented, err) := dial in
  let col := foldl (λ c '(salt, hostname, key), StoreKey c salt hostname key) (mkCollector [] hashKeys) presented in
  if 0 <? length (c_knownKeys col) then (c_knownKeys col, None) else (c_knownKeys col, err).
End db.
Arguments hostKey : clear implicits.
Arguments inMemoryHostKeyDB : clear implicits.
Arguments check_err : clear implicits.
