(* ===== verification/KnownHostsSpec.v ===== *)
(** * Known hosts: what is accepted

    Wildcards against their meaning, the check of a key against the text of the
    file, and the round trip from the collector of keys to the check. *)

From S2P Require Import Prelude Utf8 GoPath GoText KnownHosts.

(** ** Wildcards *)

(** A star stands for any bytes, a question mark for one. *)
Inductive wild : bytes → bytes → Prop :=
  | wild_nil : wild [] []
  | wild_star p s1 s2 : wild p s2 → wild ("*"%char :: p) (s1 ++ s2)
  | wild_any p d s : wild p s → wild ("?"%char :: p) (d :: s)
  | wild_byte c p s : c ≠ "*"%char → wild p s → wild (c :: p) (c :: s).

(** A star at the end stands for at least one byte. *)
Fixpoint tail_nonempty (p : bytes) : bytes :=
  match p with
  | [] => []
  | c :: p => match p with
              | [] => if Ascii.eqb c "*" then ["?"; "*"]%char else [c]
              | _ => c :: tail_nonempty p
              end
  end.

Lemma wild_nil_inv s : wild [] s ↔ s = [].
Proof. split; [by inversion 1|]. intros ->. constructor. Qed.

Lemma wild_star_inv p s : wild ("*"%char :: p) s ↔ ∃ s1 s2, s = s1 ++ s2 ∧ wild p s2.
Proof. split; [inversion 1; naive_solver|]. intros (s1 & s2 & -> & Hw). by constructor. Qed.

Lemma wild_cons_inv c p s : c ≠ "*"%char →
  wild (c :: p) s ↔ ∃ d s', s = d :: s' ∧ (c = "?"%char ∨ c = d) ∧ wild p s'.
Proof.
  intros Hc. split; [inversion 1; naive_solver|].
  intros (d & s' & -> & [-> | ->] & Hw); [by apply wild_any|by apply wild_byte].
Qed.

Lemma star_loop_spec f s : star_loop f s = true ↔ ∃ s1 s2, s = s1 ++ s2 ∧ s2 ≠ [] ∧ f s2 = true.
Proof.
  induction s as [|d s IH]; cbn [star_loop].
  { split; [done|]. intros (s1 & s2 & E & Hne & _). symmetry in E. apply app_nil in E as [_ ->]. done. }
  destruct (f (d :: s)) eqn:Ef; [split; [|done]; intros _; by exists [], (d :: s)|]. rewrite IH. split.
  - intros (s1 & s2 & -> & ? & ?). by exists (d :: s1), s2.
  - intros ([|d' s1] & s2 & E & ? & ?); simplify_eq/=; [congruence|]. by exists s1, s2.
Qed.

(** C31. [wildcardMatch] decides the meaning of a pattern, in which a star at
    the end stands for at least one byte. *)
Theorem wildcardMatch_spec p s : wildcardMatch p s = true ↔ wild (tail_nonempty p) s.
Proof.
  revert s. induction p as [|c p IH]; intros s; [cbn; rewrite wild_nil_inv; by destruct s|].
  destruct p as [|c' p].
  - cbn [wildcardMatch tail_nonempty]. destruct (Ascii.eqb_spec c "*") as [->|Hc].
    + rewrite wild_cons_inv by done. setoid_rewrite wild_star_inv. setoid_rewrite wild_nil_inv.
      destruct s as [|d s]; [naive_solver|]. split; [|done]. intros _. exists d, s. split_and!; [done|by left|].
      exists s, []. by rewrite app_nil_r.
    + rewrite wild_cons_inv by done. setoid_rewrite wild_nil_inv. destruct s as [|d s]; [naive_solver|].
      destruct (Ascii.eqb_spec c "?"), (Ascii.eqb_spec c d); cbn [orb]; destruct s; naive_solver.
  - change (tail_nonempty (c :: c' :: p)) with (c :: tail_nonempty (c' :: p)).
    destruct s as [|d s].
    + split; [done|]. destruct (decide (c = "*"%char)) as [->|Hc];
        [|rewrite wild_cons_inv by done; naive_solver].
      rewrite wild_star_inv. intros (s1 & s2 & E & Hw). symmetry in E. apply app_nil in E as [-> ->].
      by apply (IH []) in Hw.
    + cbn [wildcardMatch]. fold wildcardMatch. destruct (Ascii.eqb_spec c "*") as [->|Hc].
      * change (match c' :: p with [] => true | _ => star_loop (wildcardMatch (c' :: p)) (d :: s) end)
          with (star_loop (wildcardMatch (c' :: p)) (d :: s)).
        rewrite star_loop_spec, wild_star_inv. setoid_rewrite IH. split; [naive_solver|].
        intros (s1 & s2 & -> & Hw). exists s1, s2. split_and!; [done| |done]. intros ->. by apply IH in Hw.
      * rewrite wild_cons_inv by done.
        destruct (Ascii.eqb_spec c "?"), (Ascii.eqb_spec c d); cbn [orb]; rewrite ?IH; naive_solver.
Qed.

(** A host without stars matches itself. *)
Lemma wildcardMatch_refl s : "*"%char ∉ s → wildcardMatch s s = true.
Proof.
  induction s as [|c s IH]; intros Hs; [done|]. apply not_elem_of_cons in Hs as [Hc Hs]. cbn [wildcardMatch].
  destruct (Ascii.eqb_spec c "*") as [->|]; [done|]. rewrite Ascii.eqb_refl, orb_true_r. auto.
Qed.

(** ** The text of the file *)

Section spec.
Context {K : Type} `{Ssh K}.
Implicit Types (db : inMemoryHostKeyDB K) (key k : K).

(** What a line says: marker, pattern and key. *)
Definition parsed_line (line : bytes) : option (bytes * bytes * K) :=
  let line := strings_TrimSpace line in
  match line with
  | [] | "#"%char :: _ => None
  | _ => match parseLine line with inr x => Some x | inl _ => None end
  end.
Definition parsed (lines : list bytes) : list (bytes * bytes * K) := omap parsed_line lines.

(** The entries for hosts, in the order of the file. *)
Definition entry_of (x : bytes * bytes * K) : option (hostKey K) :=
  let '(marker, pattern, key) := x in
  if bool_decide (marker = markerRevoked) then None
  else match newMatcher pattern with
       | Val (inr m) => Some (mkHostKey m (bool_decide (marker = markerCert)) key)
       | _ => None
       end.
Definition entries (lines : list bytes) : list (hostKey K) := omap entry_of (parsed lines).

Lemma read_loop_spec db lines db' :
  read_loop db lines = Val (inr db') →
  hostKeys db' = hostKeys db ++ entries lines ∧
  ∀ m, is_Some (revoked db' !! m) ↔
    is_Some (revoked db !! m) ∨ ∃ p k, (markerRevoked, p, k) ∈ parsed lines ∧ Marshal k = m.
Proof.
  revert db. induction lines as [|line lines IH]; intros db; cbn [read_loop]; cbv zeta.
  { intros [= <-]. unfold entries. cbn. rewrite app_nil_r. split; [done|]. intros m. setoid_rewrite elem_of_nil. naive_solver. }
  intros Hr.
  assert ((parsed_line line = None ∧ read_loop db lines = Val (inr db')) ∨
    ∃ x db1, parsed_line line = Some x ∧ db_parseLine db (strings_TrimSpace line) = Val (inr db1) ∧
      parseLine (strings_TrimSpace line) = inr x ∧ read_loop db1 lines = Val (inr db')) as Hcase.
  { unfold parsed_line. cbv zeta. destruct (strings_TrimSpace line) as [|c r]; [by left|].
    destruct (decide (c = "#"%char)) as [->|Hc]; [by left|]. right.
    assert (∀ {A} (x y : A), match c with "#"%char => x | _ => y end = y) as Hne.
    { clear -Hc. intros A x y. destruct c as [[] [] [] [] [] [] [] []]; first [reflexivity|by destruct Hc]. }
    rewrite Hne in *. destruct (db_parseLine db (c :: r)) as [[e|db1]|] eqn:Ed; [done| |done].
    destruct (parseLine (c :: r)) as [e|x] eqn:Ep; [unfold db_parseLine in Ed; by rewrite Ep in Ed|].
    exists x, db1. split_and!; done. }
  unfold entries, parsed in *. destruct Hcase as [[Hn Hl]|(x & db1 & Hx & Hd & Hp & Hl)]; cbn [omap list_omap].
  { rewrite Hn. by apply IH. }
  rewrite Hx. cbn [omap list_omap]. destruct (IH _ Hl) as [Hk Hrev]. rewrite Hk.
  unfold db_parseLine in Hd. rewrite Hp in Hd. destruct x as [[marker pattern] key]. cbn [entry_of].
  case_bool_decide as Hm.
  - injection Hd as <-. cbn [hostKeys revoked] in *. split; [done|]. intros m. rewrite Hrev.
    setoid_rewrite elem_of_cons. destruct (decide (m = Marshal key)) as [->|Hne].
    + rewrite lookup_insert_eq. split; [|by left; eexists]. intros _. right. exists pattern, key. subst. auto.
    + rewrite lookup_insert_ne by done. naive_solver.
  - destruct (newMatcher pattern) as [[e|mt]|]; [done| |done]. injection Hd as <-. cbn [hostKeys revoked] in *.
    rewrite <-app_assoc. split; [done|]. intros m. rewrite Hrev. setoid_rewrite elem_of_cons. naive_solver.
Qed.

(** *** The check *)

(** The first key of a type among the entries for an address. *)
Definition first_key (l : list (hostKey K)) (a : addr) (t : bytes) : option K :=
  hk_key <$> head (filter (λ e, hostKey_match e a = true ∧ KeyType (hk_key e) = t) l).

Lemma known_loop_spec l a known t :
  known_loop l a known !! t = match known !! t with Some k => Some k | None => first_key l a t end.
Proof.
  revert known. induction l as [|e l IH]; intros known; cbn [known_loop]; [by destruct (known !! t)|].
  rewrite IH. unfold first_key. destruct (hostKey_match e a) eqn:Em.
  - destruct (decide (KeyType (hk_key e) = t)) as [<-|Ht].
    + rewrite filter_cons_True by done. cbn. destruct (known !! KeyType (hk_key e)) eqn:Ek; [by rewrite Ek|].
      by rewrite lookup_insert_eq.
    + rewrite filter_cons_False by (intros [? ?]; congruence). destruct (known !! KeyType (hk_key e)); [done|].
      by rewrite lookup_insert_ne.
  - rewrite filter_cons_False by (intros [? ?]; congruence). done.
Qed.

Lemma checkAddr_None db a key :
  checkAddr db a key = None ↔ ∃ k, first_key (hostKeys db) a (KeyType key) = Some k ∧ Marshal k = Marshal key.
Proof.
  unfold checkAddr. cbv zeta. pose proof (known_loop_spec (hostKeys db) a ∅ (KeyType key)) as Hk.
  rewrite lookup_empty in Hk. rewrite <-Hk. set (known := known_loop _ _ _) in *.
  destruct (Nat.eqb_spec (size known) 0) as [Hs|Hs].
  { split; [done|]. apply map_size_empty_iff in Hs. rewrite Hs, lookup_empty. naive_solver. }
  destruct (known !! KeyType key) as [k|]; [|naive_solver]. unfold keyEq. case_bool_decide; cbn [negb]; naive_solver.
Qed.

(** The address that is looked up: the name the server was called by, or else
    its own. *)
Definition target (address remote : bytes) : option addr :=
  let '(host, port) := default ([], []) (SplitHostPort remote) in
  if bool_decide (address = []) then Some (mkAddr host port)
  else (λ hp, mkAddr hp.1 hp.2) <$> SplitHostPort address.

Lemma check_None db address remote key :
  check db address remote key = None ↔
  revoked db !! Marshal key = None ∧ is_Some (SplitHostPort remote) ∧
  ∃ a, target address remote = Some a ∧ checkAddr db a key = None.
Proof.
  unfold check, target. destruct (revoked db !! Marshal key) as [k|]; [naive_solver|].
  destruct (SplitHostPort remote) as [[host port]|]; [|split; [done|]; by intros (_ & [? ?] & _)].
  cbn [default from_option id]. case_bool_decide as Ha; cbn [negb]; [naive_solver|].
  destruct (SplitHostPort address) as [[h p]|]; cbn; naive_solver.
Qed.

(** C16. A key is accepted for a host exactly when no line of the file revokes
    it and it is the first key of its type that the file lists for the host:
    a later key of the same type is not looked at, and neither is whether the
    line is that of an authority. *)
Theorem KnownHosts_check_spec b db algos address remote key :
  KnownHosts_New b = Val (inr (db, algos)) →
  check db address remote key = None ↔
  (∀ p k, (markerRevoked, p, k) ∈ parsed (scan_lines b).1 → Marshal k ≠ Marshal key) ∧
  is_Some (SplitHostPort remote) ∧
  ∃ a k, target address remote = Some a ∧
    first_key (entries (scan_lines b).1) a (KeyType key) = Some k ∧ Marshal k = Marshal key.
Proof.
  unfold KnownHosts_New, Read. destruct (scan_lines b) as [lines long].
  destruct (read_loop newInMemoryHostKeyDB lines) as [[e|db0]|] eqn:Er; [done| |done].
  destruct long; [done|]. intros [= <- _]. apply read_loop_spec in Er as [Hk Hrev].
  rewrite check_None. setoid_rewrite checkAddr_None. rewrite Hk. cbn [newInMemoryHostKeyDB hostKeys app fst].
  assert (revoked db0 !! Marshal key = None ↔
    ∀ p k, (markerRevoked, p, k) ∈ parsed lines → Marshal k ≠ Marshal key) as ->.
  { rewrite eq_None_not_Some, Hrev. cbn [newInMemoryHostKeyDB revoked]. rewrite lookup_empty.
    split; [intros Hn p k Hin E; apply Hn; right; eauto|]. intros Hn [[? ?]|(p & k & Hin & E)]; [done|by eapply Hn]. }
  naive_solver.
Qed.

(** *** Reading does not panic *)

Lemma nextWord_nonempty c r : c ≠ " "%char → c ≠ "009"%char → (nextWord (c :: r)).1 ≠ [].
Proof.
  intros H1 H2. unfold nextWord. cbn [cut_blank].
  destruct (Ascii.eqb_spec c "009"), (Ascii.eqb_spec c " "); try done. cbn [orb].
  by destruct (cut_blank r) as [[w rest]|].
Qed.

Lemma nextWord_rest line c r : (nextWord line).2 = c :: r → c ≠ " "%char ∧ c ≠ "009"%char.
Proof. unfold nextWord. destruct (cut_blank line) as [[w rest]|]; [|done]. apply TrimSpace_head. Qed.

(** The host of a line is not empty. *)
Lemma parseLine_host c r marker host key :
  c ≠ " "%char → c ≠ "009"%char → parseLine (c :: r) = inr (marker, host, key) → host ≠ [].
Proof.
  intros H1 H2. unfold parseLine. destruct (nextWord (c :: r)) as [w next] eqn:E1.
  destruct (_ || _).
  - destruct next as [|c' r']; [done|]. pose proof (nextWord_rest (c :: r) c' r') as Hc. rewrite E1 in Hc.
    destruct (Hc eq_refl) as [H3 H4]. pose proof (nextWord_nonempty c' r' H3 H4) as Hne.
    destruct (nextWord (c' :: r')) as [host' line]. repeat case_match; intros; by simplify_eq/=.
  - pose proof (nextWord_nonempty c r H1 H2) as Hne. rewrite E1 in *. repeat case_match; intros; by simplify_eq/=.
Qed.

Lemma read_loop_no_panic db lines : read_loop db lines ≠ Panics.
Proof.
  revert db. induction lines as [|line lines IH]; intros db; cbn [read_loop]; cbv zeta; [done|].
  destruct (strings_TrimSpace line) as [|c r] eqn:Et; [done|]. apply TrimSpace_head in Et as [H1 H2].
  assert (db_parseLine db (c :: r) ≠ Panics) as Hd.
  { unfold db_parseLine. destruct (parseLine (c :: r)) as [e|[[marker host] key]] eqn:Ep; [done|].
    apply parseLine_host in Ep; [|done..]. case_bool_decide; [done|].
    destruct host as [|d host]; [done|]. cbn [newMatcher]. by destruct (if Ascii.eqb d "|" then _ else _). }
  assert (match db_parseLine db (c :: r) with
    | Panics => Panics | Val (inl e) => Val (inl e) | Val (inr db) => read_loop db lines end ≠ Panics) as Hn
    by (destruct (db_parseLine db (c :: r)) as [[|]|]; done).
  destruct (decide (c = "#"%char)) as [->|Hc]; [done|].
  clear -Hc Hn. destruct c as [[] [] [] [] [] [] [] []]; first [exact Hn|by destruct Hc].
Qed.

(** Whatever the text, there is a database or an error. *)
Lemma KnownHosts_New_total b : ∃ r, KnownHosts_New b = Val r.
Proof.
  unfold KnownHosts_New, Read. destruct (scan_lines b) as [lines long].
  pose proof (read_loop_no_panic newInMemoryHostKeyDB lines) as Hn.
  destruct (read_loop newInMemoryHostKeyDB lines) as [[e|db]|]; [by eexists| |done]. destruct long; by eexists.
Qed.

(** ** From the collector to the check *)

Lemma graphic_not_blank c : graphic c → c ≠ " "%char ∧ c ≠ "009"%char ∧ c ≠ newline ∧ c ≠ carriage_return.
Proof. intros [Hc _]. split_and!; intros ->; by vm_compute in Hc. Qed.

Lemma cut_blank_word w rest : Forall graphic w → cut_blank (w ++ " "%char :: rest) = Some (w, " "%char :: rest).
Proof.
  induction 1 as [|c w Hc Hw IH]; cbn [cut_blank app]; [done|].
  destruct (graphic_not_blank c Hc) as (H1 & H2 & _).
  destruct (Ascii.eqb_spec c "009"), (Ascii.eqb_spec c " "); try done. cbn [orb]. by rewrite IH.
Qed.

Lemma cut_blank_none w : Forall graphic w → cut_blank w = None.
Proof.
  induction 1 as [|c w Hc Hw IH]; cbn [cut_blank]; [done|]. destruct (graphic_not_blank c Hc) as (H1 & H2 & _).
  destruct (Ascii.eqb_spec c "009"), (Ascii.eqb_spec c " "); try done. cbn [orb]. by rewrite IH.
Qed.

Lemma nextWord_word w rest : Forall graphic w → tight rest → nextWord (w ++ " "%char :: rest) = (w, rest).
Proof. intros Hw Hr. unfold nextWord. by rewrite cut_blank_word, TrimSpace_blank. Qed.

Lemma nextWord_last w : Forall graphic w → nextWord w = (w, []).
Proof. intros Hw. unfold nextWord. by rewrite cut_blank_none. Qed.

(** A file of one line. *)
Lemma scan_one l :
  tight l → newline ∉ l → (Z.of_nat (length l) < MaxScanTokenSize)%Z → scan_lines (l ++ [newline]) = ([l], false).
Proof.
  intros Ht Hnl Hlen. unfold scan_lines. rewrite Split_app, Split_id by done. cbn [strings_Split app scan_parts].
  rewrite (proj2 (Z.leb_gt _ _)) by done.
  assert (drop_cr l = l) as Hcr.
  { destruct Ht as [_ (r & c & -> & Hc)]. unfold drop_cr, TrimSuffix, HasSuffix. rewrite bool_decide_eq_false_2; [done|].
    intros [r' Hr]. apply app_inj_tail in Hr as [_ ->]. by apply graphic_not_blank in Hc as (_ & _ & _ & ?). }
  rewrite Hcr. destruct Ht as [(c & r & -> & _) _]. done.
Qed.

Lemma read_one db l :
  tight l → head l ≠ Some "#"%char →
  read_loop db [l] = match db_parseLine db l with
                     | Panics => Panics | Val (inl e) => Val (inl e) | Val (inr db) => Val (inr db) end.
Proof.
  intros Ht Hh. cbn [read_loop]. cbv zeta. rewrite TrimSpace_tight by done.
  destruct Ht as [(c & r & -> & _) _]. assert (c ≠ "#"%char) as Hc by (intros ->; by apply Hh). clear Hh.
  destruct c as [[] [] [] [] [] [] [] []]; first [reflexivity|by destruct Hc].
Qed.

(** A line of a host, a type and a key. *)
Definition stored_line (h : bytes) key : bytes :=
  h ++ " "%char :: KeyType key ++ " "%char :: EncodeToString (Marshal key).

Section stored.
Context (h : bytes) (key : K).
Context (Hh : h ≠ []) (Hhg : Forall graphic h) (Hmark : h ≠ markerCert ∧ h ≠ markerRevoked).
Context (Ht : KeyType key ≠ []) (Htg : Forall graphic (KeyType key)) (Hk : Marshal key ≠ []).

Lemma blob_graphic : Forall graphic (EncodeToString (Marshal key)) ∧ EncodeToString (Marshal key) ≠ [].
Proof.
  split.
  - eapply Forall_impl; [apply Encode_graphic|]. by intros c [? _].
  - destruct (Marshal key) as [|a [|b [|c s]]]; [done|by cbn..].
Qed.

Lemma stored_tight : tight (KeyType key ++ " "%char :: EncodeToString (Marshal key)) ∧ tight (stored_line h key).
Proof.
  destruct blob_graphic as [Hb Hbn]. split.
  - change (tight (KeyType key ++ [" "%char] ++ EncodeToString (Marshal key))). apply tight_app; by apply tight_graphic.
  - unfold stored_line.
    change (tight (h ++ ([" "%char] ++ KeyType key ++ " "%char :: EncodeToString (Marshal key)))).
    apply tight_app; [by apply tight_graphic|].
    change (tight (KeyType key ++ [" "%char] ++ EncodeToString (Marshal key))). apply tight_app; by apply tight_graphic.
Qed.

Lemma parseLine_stored : ∃ k, parseLine (stored_line h key) = inr ([], h, k) ∧ Marshal k = Marshal key ∧ KeyType k = KeyType key.
Proof.
  destruct blob_graphic as [Hb Hbn]. destruct stored_tight as [Ht1 _].
  destruct (Parse_Marshal key) as (k & Hp & HM & HT). exists k. split; [|done].
  unfold parseLine, stored_line. rewrite nextWord_word by done.
  rewrite !bool_decide_eq_false_2 by naive_solver. cbn [orb]. rewrite nextWord_word by done.
  assert (∀ {A} (l : list A), l ≠ [] → (length l =? 0) = false) as Hlen by by intros A [].
  rewrite Hlen by (by destruct (KeyType key)). rewrite nextWord_word by (first [done|by apply tight_graphic]).
  rewrite Hlen by done. rewrite nextWord_last by done. by rewrite DecodeString_Encode, Hp.
Qed.

Lemma stored_no_newline : newline ∉ stored_line h key.
Proof.
  destruct blob_graphic as [Hb _]. unfold stored_line. rewrite !elem_of_app, !elem_of_cons, !elem_of_app, !elem_of_cons.
  assert (∀ l, Forall graphic l → newline ∉ l) as Hg.
  { intros l Hl Hin. rewrite Forall_forall in Hl. by destruct (graphic_not_blank _ (Hl _ Hin)) as (_ & _ & ? & _). }
  intros [Hi|[E|[Hi|[E|Hi]]]]; first [by vm_compute in E|by eapply Hg, Hi].
Qed.

(** Reading the line alone. *)
Lemma New_stored m :
  (Z.of_nat (length (stored_line h key)) < MaxScanTokenSize)%Z → head h ≠ Some "#"%char →
  newMatcher h = Val (inr m) →
  ∃ k algos, KnownHosts_New (stored_line h key ++ [newline]) = Val (inr (mkDB [mkHostKey m false k] ∅, algos)) ∧
    Marshal k = Marshal key ∧ KeyType k = KeyType key.
Proof.
  intros Hlen Hhash Hm. destruct parseLine_stored as (k & Hp & HM & HT). destruct stored_tight as [_ Htt].
  exists k. eexists. split; [|done]. unfold KnownHosts_New, Read.
  rewrite scan_one by (done || apply stored_no_newline).
  rewrite read_one; [|done|unfold stored_line; by destruct h].
  unfold db_parseLine. rewrite Hp. cbn [bool_decide]. rewrite bool_decide_eq_false_2 by done.
  rewrite Hm. cbn. reflexivity.
Qed.
End stored.

(** Hashed hosts, written and read. *)
Lemma decodeHash_encodeHash typ salt hash :
  "|"%char ∉ typ → decodeHash (encodeHash typ salt hash) = inr (typ, salt, hash).
Proof.
  intros Ht. unfold decodeHash, encodeHash.
  assert (∀ s, "|"%char ∉ EncodeToString s) as Hb.
  { intros x Hin. pose proof (Encode_graphic x) as Hg. rewrite Forall_forall in Hg. by destruct (Hg _ Hin) as (_ & ? & _). }
  rewrite Split_Join; [|done|by repeat (constructor; [first [done|apply not_elem_of_nil]|])].
  cbn [strings_Join app]. by rewrite !DecodeString_Encode.
Qed.

Lemma newMatcher_hashed salt hash :
  newMatcher (encodeHash sha1HashType salt hash) = Val (inr (MHashed (mkHashedHost salt hash))).
Proof.
  assert (∃ tl, encodeHash sha1HashType salt hash = "|"%char :: tl) as [tl E] by (eexists; reflexivity).
  rewrite E. cbn [newMatcher]. rewrite Ascii.eqb_refl, <-E. unfold newHashedHost. rewrite decodeHash_encodeHash; [done|]. apply (bool_decide_unpack _). by vm_compute.
Qed.

(** Plain hosts. *)
Definition plain_host (h : bytes) : Prop :=
  h ≠ [] ∧ Forall graphic h ∧ ∀ c, c ∈ h → c ∉ str "|,*!@#[]:".

Lemma newMatcher_plain h : plain_host h → newMatcher h = Val (inr (MPatterns [mkHostPattern false (mkAddr h (str "22"))])).
Proof.
  intros (Hne & _ & Hno). assert (∀ c, c ∈ str "|,*!@#[]:" → c ∉ h) as Hn by naive_solver.
  assert (∀ c, bool_decide (c ∈ str "|,*!@#[]:") = true → c ∉ h) as Hn' by (intros c ?%bool_decide_eq_true; auto).
  assert (newHostnameMatcher h = inr [mkHostPattern false (mkAddr h (str "22"))]) as Hm.
  { unfold newHostnameMatcher. rewrite Split_id by (by apply Hn'). destruct h as [|c h]; [done|].
    assert (SplitHostPort (c :: h) = None) as Hs by (unfold SplitHostPort; by rewrite cut_last_none by (by apply Hn')).
    assert (c ≠ "!"%char ∧ c ≠ "["%char) as [H1 H2].
    { split; intros ->; [by apply (Hn' "!"%char); [|left]|by apply (Hn' "["%char); [|left]]. }
    assert (parse_pattern (c :: h) = inr (mkHostPattern false (mkAddr (c :: h) (str "22")))) as Hp.
    { clear -H1 H2 Hs. unfold parse_pattern.
      destruct c as [[] [] [] [] [] [] [] []]; first [by destruct H1|by destruct H2|by rewrite Hs]. }
    cbn [hostname_loop length Nat.eqb]. by rewrite Hp. }
  unfold newMatcher. rewrite Hm. destruct h as [|c h]; [done|].
  destruct (Ascii.eqb_spec c "|") as [->|]; [|done]. destruct (Hn' "|"%char); [done|left].
Qed.

Lemma plain_parts host port :
  plain_host host → (∀ c, c ∈ port → c ∉ str "[]:") →
  ∀ c, c ∈ host ++ port → c ≠ ":"%char ∧ c ≠ "["%char ∧ c ≠ "]"%char.
Proof.
  intros (_ & _ & Hh) Hp c [Hc|Hc]%elem_of_app; [specialize (Hh c Hc)|specialize (Hp c Hc)];
    split_and!; intros ->; (apply Hh || apply Hp); apply (bool_decide_unpack _); by vm_compute.
Qed.

(** What the two forms of a host have in common. *)
Definition ready (h : bytes) (a : addr) : Prop :=
  ∃ m, newMatcher h = Val (inr m) ∧ matcher_match m a = true ∧
    h ≠ [] ∧ Forall graphic h ∧ (h ≠ markerCert ∧ h ≠ markerRevoked) ∧ head h ≠ Some "#"%char.

Lemma plain_ready host : plain_host host → ready host (mkAddr host (str "22")).
Proof.
  intros Hh. eexists. split; [by apply newMatcher_plain|]. destruct Hh as (Hne & Hg & Hno).
  assert (∀ c, bool_decide (c ∈ str "|,*!@#[]:") = true → c ∉ host) as Hn.
  { intros c Hc%bool_decide_eq_true Hin. by apply (Hno c). }
  split_and!; [|done..| | |].
  - unfold matcher_match, hostPatterns_match. cbn [patterns_loop]. unfold hostPattern_match. cbn [hp_addr a_host a_port hp_negate].
    rewrite wildcardMatch_refl by (by apply Hn). by rewrite bool_decide_eq_true_2.
  - intros ->. apply (Hn "@"%char); [done|]. apply (bool_decide_unpack _). by vm_compute.
  - intros ->. apply (Hn "@"%char); [done|]. apply (bool_decide_unpack _). by vm_compute.
  - intros Hhd. destruct host as [|c r]; [done|]. injection Hhd as ->. by apply (Hn "#"%char); [|left].
Qed.

Lemma hashed_ready salt host port :
  plain_host host →
  ready (encodeHash sha1HashType salt (hashHost (Normalize (host ++ ":"%char :: port)) salt)) (mkAddr host port).
Proof.
  intros (_ & _ & Hno). eexists. split; [apply newMatcher_hashed|].
  assert (":"%char ∉ host) as Hc.
  { intros Hin. apply (Hno _ Hin). apply (bool_decide_unpack _). by vm_compute. }
  split_and!; [|done| | |done|done].
  - cbn [matcher_match]. unfold hashedHost_match, addr_String, strings_Contains. cbn [a_host a_port hh_salt hh_hash].
    change (str ":") with [":"%char]. rewrite Index_absent by done. by rewrite bool_decide_eq_true_2.
  - assert (∀ x, Forall graphic (EncodeToString x)) as He.
    { intros x. eapply Forall_impl; [apply Encode_graphic|]. by intros c [? _]. }
    unfold encodeHash. cbn [strings_Join app sha1HashType str String.list_ascii_of_string].
    repeat (constructor; [by vm_compute|]). apply Forall_app. split; [done|]. constructor; [by vm_compute|done].
  - done.
Qed.

(** A key that the collector stored for a server is accepted for it when the
    file is read back, with the host in plain text (its port is 22 and
    normalization leaves the host) or hashed. *)
Theorem StoreKey_accepted hashed salt host port key remote :
  let hostname := host ++ ":"%char :: port in
  plain_host host → Forall graphic port → (∀ c, c ∈ port → c ∉ str "[]:") →
  KeyType key ≠ [] → Forall graphic (KeyType key) → Marshal key ≠ [] → is_Some (SplitHostPort remote) →
  (if hashed : bool
   then HashHostname salt (Normalize hostname) = encodeHash sha1HashType salt (hashHost (Normalize hostname) salt)
   else port = str "22" ∧ Normalize hostname = host) →
  let file := GetKnownKeys (StoreKey (mkCollector [] hashed) salt hostname key) in
  (Z.of_nat (length file) <= MaxScanTokenSize)%Z →
  ∃ db algos, KnownHosts_New file = Val (inr (db, algos)) ∧ check db hostname remote key = None.
Proof.
  intros hostname Hhost Hport Hpno Ht Htg Hk Hrem Hhash file Hlen.
  assert (SplitHostPort hostname = Some (host, port)) as Hsplit.
  { apply SplitHostPort_plain. apply plain_parts; [done|]. naive_solver. }
  set (h := if hashed then HashHostname salt (Normalize hostname) else Normalize hostname).
  assert (file = stored_line h key ++ [newline]) as Hfile.
  { unfold file, GetKnownKeys, StoreKey, stored_line. cbn [c_knownKeys c_hashKeys app]. fold h.
    rewrite <-app_assoc. cbn [app]. rewrite <-app_assoc. done. }
  assert (∃ m, newMatcher h = Val (inr m) ∧ matcher_match m (mkAddr host port) = true ∧
    h ≠ [] ∧ Forall graphic h ∧ (h ≠ markerCert ∧ h ≠ markerRevoked) ∧ head h ≠ Some "#"%char)
    as (m & Hm & Hmatch & Hne & Hg & Hmark & Hhead).
  { unfold h. destruct hashed; [rewrite Hhash; by apply hashed_ready|]. destruct Hhash as [-> ->]. by apply plain_ready. }
  rewrite Hfile in *. destruct (New_stored h key Hne Hg Hmark Ht Htg Hk m) as (k & algos & Hnew & HM & HT); [|done..|].
  { rewrite length_app in Hlen. cbn [length] in Hlen. lia. }
  eexists _, algos. split; [exact Hnew|]. apply check_None. split; [done|]. split; [done|].
  exists (mkAddr host port). split.
  { unfold target. destruct (default _ _) as [rh rp]. rewrite bool_decide_eq_false_2; [by rewrite Hsplit|].
    unfold hostname. by destruct host. }
  apply checkAddr_None. exists k. split; [|done]. unfold first_key. cbn [hostKeys].
  rewrite filter_cons_True by done. done.
Qed.
End spec.

(** ** Examples *)

(** Keys are their own encoding. *)
#[local] Instance demo_ssh : Ssh bytes.
Proof.
  refine {| Marshal := λ k, k; KeyType := λ _, str "ssh-demo"; ParsePublicKey := λ b, Some b;
    hmac_sha1 := λ k m, k ++ m; sha256 := λ b, b; Normalize := λ a, TrimSuffix a (str ":22");
    HashHostname := λ salt h, encodeHash sha1HashType salt (salt ++ h) |}.
  intros k. by exists k.
Defined.

(** A trailing star needs a byte. *)
Example star_needs_byte :
  wildcardMatch (str "git*") (str "git") = false ∧ wildcardMatch (str "git*") (str "github") = true ∧
  wildcardMatch (str "*git") (str "git") = true.
Proof. by vm_compute. Qed.

(** The key of an authority is accepted as the key of a host. *)
Definition authority_file : bytes := str "@cert-authority * ssh-demo AAEC".
Definition authority_key : bytes := default [] (DecodeString (str "AAEC")).

Lemma KnownHosts_check_spec_witness :
  ∃ db algos, KnownHosts_New authority_file = Val (inr (db, algos)) ∧
    check db (str "example.com:22") (str "10.0.0.1:22") authority_key = None.
Proof.
  assert (match KnownHosts_New authority_file with Val (inr _) => true | _ => false end = true) as Hb by by vm_compute.
  destruct (KnownHosts_New authority_file) as [[e|[db algos]]|] eqn:E; [done| |done].
  exists db, algos. split; [done|]. apply (KnownHosts_check_spec authority_file db algos); [done|]. split_and!.
  - intros p k Hin Heq. apply (list_elem_of_fmap_2 (λ x, x.1.1)) in Hin. vm_compute in Hin.
    apply list_elem_of_singleton in Hin. done.
  - eexists. by vm_compute.
  - exists (mkAddr (str "example.com") (str "22")), authority_key. split_and!; by vm_compute.
Defined.

Lemma StoreKey_accepted_witness :
  ∃ db algos,
    KnownHosts_New (GetKnownKeys (StoreKey (mkCollector [] true) (str "salt") (str "git.example:22") (str "key"))) =
      Val (inr (db, algos)) ∧
    check db (str "git.example:22") (str "10.0.0.1:22") (str "key") = None.
Proof.
  apply (StoreKey_accepted true (str "salt") (str "git.example") (str "22") (str "key") (str "10.0.0.1:22"));
    try (apply (bool_decide_unpack _); by vm_compute).
  - split_and!; [done|apply (bool_decide_unpack _); by vm_compute|].
    apply (Forall_forall (λ c, c ∉ str "|,*!@#[]:")), (bool_decide_unpack _). by vm_compute.
  - apply (Forall_forall (λ c, c ∉ str "[]:")), (bool_decide_unpack _). by vm_compute.
Defined.
