(* ===== verification/ControllerQueue.v ===== *)
(** * Interrupting a reconciliation ([runtime/controller/queue.go], [reconciler.go])

    A reconciliation registers a listener for its object.  When the object is
    enqueued again the listeners of the object are removed under a lock, and
    then each of them is sent the source of the event, on a channel with room
    for one, and its context is cancelled.  The steps of reconciliations and of
    dispatches interleave. *)

From S2P Require Import Prelude.

(** ** Data *)

(** [src/runtime/controller/queue.go:27-36 QueueEventSource] *)
Record QueueEventSource := mkSource {
  qs_Kind : string; qs_Name : string; qs_Namespace : string; qs_UID : string; qs_ResourceVersion : string }.

(** [src/runtime/controller/queue.go:41-44 QueueEventSource.Error] *)
Definition QueueEventSource_Error (q : QueueEventSource) : string :=
  qs_Kind q +:+ "/" +:+ qs_Namespace q +:+ "/" +:+ qs_Name q.

(** There is one type of event; an event is the request of an object.
    [src/runtime/controller/queue.go:73-77 queueEvent] *)
Record queueEvent := mkEvent { ev_Namespace : string; ev_Name : string }.
#[global] Instance queueEvent_eq_dec : EqDecision queueEvent.
Proof. solve_decision. Defined.
#[global] Instance queueEvent_countable : Countable queueEvent.
Proof.
  apply (inj_countable' (λ e, (ev_Namespace e, ev_Name e)) (λ x, mkEvent x.1 x.2)). by intros [].
Defined.

Definition payload : Type := QueueEventSource.
Definition listener : Type := positive.

(** A dispatch that has left the lock: the listeners it still has to serve, and
    whether the first of them was sent the payload already. *)
Record dispatcher := mkDispatcher { d_listeners : list listener; d_sent : bool; d_payload : payload }.

(** The map of listeners, the channels with what they hold, the payloads that
    the handles have received, the contexts that have ended (the reconciliation
    returned, or its parent context was cancelled) and those that a dispatch has
    cancelled, and the dispatches under way.
    [src/runtime/controller/queue.go:66-70 queueHooks] *)
Record hooks := mkHooks {
  lis : gmap queueEvent (list listener);
  chans : gmap listener (list payload);
  received : gmap listener payload;
  ended : gset listener;
  interrupted : gset listener;
  dispatchers : list dispatcher }.

(** [src/runtime/controller/queue.go:86-90 newQueueHooks] *)
Definition newQueueHooks : hooks := mkHooks ∅ ∅ ∅ ∅ ∅ [].

(** [l.ctx.Err() == nil] *)
Definition alive (h : hooks) (l : listener) : bool := bool_decide ((l ∉ ended h) ∧ (l ∉ interrupted h)).

(** ** Operations *)

(** [src/runtime/controller/queue.go:119-133 queueHooks.collectGarbage] *)
Definition collectGarbage (h : hooks) (m : gmap queueEvent (list listener)) : gmap queueEvent (list listener) :=
  omap (λ ls, match filter (λ l, alive h l = true) ls with [] => None | ls => Some ls end) m.

(** The listeners of an event. *)
Definition listeners_of (m : gmap queueEvent (list listener)) (e : queueEvent) : list listener := default [] (m !! e).

(** A new listener [l] with an empty channel.
    [src/runtime/controller/queue.go:104-117 queueHooks.registerListener] *)
Definition registerListener (h : hooks) (e : queueEvent) (l : listener) : hooks :=
  let m := collectGarbage h (lis h) in
  mkHooks (<[e := listeners_of m e ++ [l]]> m) (<[l := []]> (chans h)) (received h) (ended h) (interrupted h) (dispatchers h).

(** The part of a dispatch under the lock.
    [src/runtime/controller/queue.go:92-97 queueHooks.dispatch] *)
Definition dispatch_lock (h : hooks) (e : queueEvent) (p : payload) : hooks :=
  mkHooks (collectGarbage h (delete e (lis h))) (chans h) (received h) (ended h) (interrupted h)
    (dispatchers h ++ [mkDispatcher (listeners_of (lis h) e) false p]).

(** [l.payload <- &payload] has to wait while the channel is full. *)
Definition room (h : hooks) (l : listener) : bool :=
  match chans h !! l with Some [] => true | _ => false end.

(** A step of the loop of a dispatch: a send or the cancellation after it.
    [src/runtime/controller/queue.go:99-102 queueHooks.dispatch] *)
Definition dispatch_step (h : hooks) (i : nat) : option hooks :=
  d ← dispatchers h !! i;
  match d_listeners d with
  | [] => None
  | l :: ls =>
      if d_sent d then
        Some (mkHooks (lis h) (chans h) (received h) (ended h) ({[l]} ∪ interrupted h)
                (<[i := mkDispatcher ls false (d_payload d)]> (dispatchers h)))
      else if room h l then
        Some (mkHooks (lis h) (<[l := [d_payload d]]> (chans h)) (received h) (ended h) (interrupted h)
                (<[i := mkDispatcher (l :: ls) true (d_payload d)]> (dispatchers h)))
      else None
  end.

(** [src/runtime/controller/reconciler.go:51-59 interruptHandle.getPayload] *)
Definition getPayload (h : hooks) (l : listener) : hooks * option payload :=
  match chans h !! l with
  | Some (p :: _) => (mkHooks (lis h) (<[l := []]> (chans h)) (<[l := p]> (received h)) (ended h) (interrupted h) (dispatchers h), Some p)
  | _ => (h, received h !! l)
  end.

(** A context of no reconciliation has no handle.
    [src/runtime/controller/reconciler.go:132-150 IsObjectEnqueued] *)
Definition IsObjectEnqueued (h : hooks) (ctx : option listener) : hooks * (bool * option QueueEventSource) :=
  match ctx with
  | None => (h, (false, None))
  | Some l => match getPayload h l with
              | (h, None) => (h, (false, None))
              | (h, Some p) => (h, (true, Some p))
              end
  end.

(** The end of a reconciliation, or of its parent context.
    [src/runtime/controller/reconciler.go:70-83 reconcilerWrapper.Reconcile] *)
Definition cancel (h : hooks) (l : listener) : hooks :=
  mkHooks (lis h) (chans h) (received h) ({[l]} ∪ ended h) (interrupted h) (dispatchers h).

(** ** Runs *)

Inductive label :=
  | LRegister (e : queueEvent) (l : listener)
  | LDispatch (e : queueEvent) (p : payload)
  | LStep (i : nat)
  | LPoll (l : listener)
  | LCancel (l : listener).

Inductive qstep (h : hooks) : label → hooks → Prop :=
  | q_register e l : chans h !! l = None → qstep h (LRegister e l) (registerListener h e l)
  | q_dispatch e p : qstep h (LDispatch e p) (dispatch_lock h e p)
  | q_step i h' : dispatch_step h i = Some h' → qstep h (LStep i) h'
  | q_poll l : is_Some (chans h !! l) → qstep h (LPoll l) (getPayload h l).1
  | q_cancel l : is_Some (chans h !! l) → qstep h (LCancel l) (cancel h l).

Inductive qsteps : hooks → list label → hooks → Prop :=
  | qsteps_nil h : qsteps h [] h
  | qsteps_cons h a h' t h'' : qstep h a h' → qsteps h' t h'' → qsteps h (a :: t) h''.

(** ** The invariant *)

(** The listeners that a dispatch has not sent to. *)
Definition unsent (d : dispatcher) : list listener :=
  if d_sent d then match d_listeners d with [] => [] | _ :: ls => ls end else d_listeners d.

(** The listeners in the map and those that a dispatch has not sent to. *)
Definition in_map (h : hooks) (l : listener) : Prop := ∃ e, l ∈ listeners_of (lis h) e.
Definition to_send (h : hooks) (l : listener) : Prop := ∃ i d, dispatchers h !! i = Some d ∧ l ∈ unsent d.

(** A listener is in one place: once in the map, or once in one dispatch, and
    then its channel is empty. *)
Record queue_inv (h : hooks) : Prop := {
  inv_map_nodup e : NoDup (listeners_of (lis h) e);
  inv_map_once e e' l : l ∈ listeners_of (lis h) e → l ∈ listeners_of (lis h) e' → e = e';
  inv_unsent_nodup i d : dispatchers h !! i = Some d → NoDup (unsent d);
  inv_unsent_once i j d d' l :
    dispatchers h !! i = Some d → dispatchers h !! j = Some d' → l ∈ unsent d → l ∈ unsent d' → i = j;
  inv_apart l : in_map h l → to_send h l → False;
  inv_empty l : in_map h l ∨ to_send h l → chans h !! l = Some [] }.

Lemma listeners_of_gc h m e :
  listeners_of (collectGarbage h m) e = filter (λ l, alive h l = true) (listeners_of m e).
Proof.
  unfold listeners_of, collectGarbage. rewrite lookup_omap. destruct (m !! e) as [ls|]; [|done]. simpl.
  by destruct (filter _ ls).
Qed.

Lemma listeners_of_delete m e e' :
  listeners_of (delete e m) e' = if decide (e' = e) then [] else listeners_of m e'.
Proof.
  unfold listeners_of. case_decide as He; [subst; by rewrite lookup_delete_eq|by rewrite lookup_delete_ne].
Qed.

Lemma listeners_of_insert m e e' ls :
  listeners_of (<[e := ls]> m) e' = if decide (e' = e) then ls else listeners_of m e'.
Proof.
  unfold listeners_of. case_decide as He; [subst; by rewrite lookup_insert_eq|by rewrite lookup_insert_ne].
Qed.

Lemma elem_of_gc h m e l :
  l ∈ listeners_of (collectGarbage h m) e ↔ alive h l = true ∧ l ∈ listeners_of m e.
Proof. by rewrite listeners_of_gc, list_elem_of_filter. Qed.

Lemma elem_of_delete m e e' l : l ∈ listeners_of (delete e m) e' ↔ e' ≠ e ∧ l ∈ listeners_of m e'.
Proof.
  rewrite listeners_of_delete. case_decide as He; [|tauto].
  split; [intros []%not_elem_of_nil|tauto].
Qed.

(** The listener a registration adds is in the map, and what was there stays
    if it is alive. *)
Lemma elem_of_register h e l e' l' :
  l' ∈ listeners_of (lis (registerListener h e l)) e' ↔
  (e' = e ∧ l' = l) ∨ (alive h l' = true ∧ l' ∈ listeners_of (lis h) e').
Proof.
  unfold registerListener. cbn [lis]. rewrite listeners_of_insert. case_decide as He.
  - subst. rewrite elem_of_app, elem_of_gc, list_elem_of_singleton. tauto.
  - rewrite elem_of_gc. tauto.
Qed.

(** A state with fewer listeners to serve, whose channels are as empty. *)
Lemma queue_inv_shrink h h' :
  queue_inv h →
  (∀ e, sublist (listeners_of (lis h') e) (listeners_of (lis h) e)) →
  (∀ i d', dispatchers h' !! i = Some d' → ∃ d, dispatchers h !! i = Some d ∧ sublist (unsent d') (unsent d)) →
  (∀ l, in_map h' l ∨ to_send h' l → chans h !! l = Some [] → chans h' !! l = Some []) →
  queue_inv h'.
Proof.
  intros Hinv Hm Hd Hc.
  assert (Hm' : ∀ l, in_map h' l → in_map h l).
  { intros l [e Hl]. exists e. eapply elem_of_sublist; [exact Hl|apply Hm]. }
  assert (Hd' : ∀ l, to_send h' l → to_send h l).
  { intros l (i & d & Hi & Hl). destruct (Hd _ _ Hi) as (d0 & Hi0 & Hs).
    exists i, d0. split; [done|]. by eapply elem_of_sublist. }
  split.
  - intros e. eapply sublist_NoDup; [apply (inv_map_nodup _ Hinv)|apply Hm].
  - intros e e' l Hl Hl'. apply (inv_map_once _ Hinv _ _ l); [apply (elem_of_sublist _ _ _ Hl), Hm|apply (elem_of_sublist _ _ _ Hl'), Hm].
  - intros i d Hi. destruct (Hd _ _ Hi) as (d0 & Hi0 & Hs).
    eapply sublist_NoDup; [|exact Hs]. by eapply (inv_unsent_nodup _ Hinv).
  - intros i j d d' l Hi Hj Hl Hl'. destruct (Hd _ _ Hi) as (d0 & Hi0 & Hs). destruct (Hd _ _ Hj) as (d1 & Hj1 & Hs1).
    apply (inv_unsent_once _ Hinv _ _ _ _ l Hi0 Hj1); [exact (elem_of_sublist _ _ _ Hl Hs)|exact (elem_of_sublist _ _ _ Hl' Hs1)].
  - intros l H1 H2. eapply (inv_apart _ Hinv); eauto.
  - intros l Hl. apply Hc; [done|]. apply (inv_empty _ Hinv). destruct Hl; auto.
Qed.

Lemma queue_inv_new : queue_inv newQueueHooks.
Proof.
  assert (Hm : ∀ e, listeners_of (lis newQueueHooks) e = []) by done.
  split.
  - intros e. rewrite Hm. constructor.
  - intros e e' l Hl. rewrite Hm in Hl. by apply not_elem_of_nil in Hl.
  - done.
  - done.
  - intros l [e Hl]. rewrite Hm in Hl. by apply not_elem_of_nil in Hl.
  - intros l [[e Hl]|(i & d & Hi & _)]; [|done]. rewrite Hm in Hl. by apply not_elem_of_nil in Hl.
Qed.

(** A channel that is not made yet belongs to no listener. *)
Lemma unmade_nowhere h l : queue_inv h → chans h !! l = None → (in_map h l → False) ∧ (to_send h l → False).
Proof. intros Hinv Hl. split; intros Hp; rewrite (inv_empty _ Hinv) in Hl; auto; done. Qed.

Lemma queue_inv_register h e l :
  queue_inv h → chans h !! l = None → queue_inv (registerListener h e l).
Proof.
  intros Hinv Hl. destruct (unmade_nowhere _ _ Hinv Hl) as [Hnm Hns].
  assert (Hfresh : ∀ e, l ∉ listeners_of (lis h) e) by (intros e' He; apply Hnm; by exists e').
  assert (Hold : ∀ e' l', l' ∈ listeners_of (lis (registerListener h e l)) e' → l' = l ∧ e' = e ∨ l' ≠ l ∧ l' ∈ listeners_of (lis h) e').
  { intros e' l' [[-> ->]|[_ Hin]]%elem_of_register; [by left|right]. split; [|done]. intros ->. by eapply Hfresh. }
  split.
  - intros e'. unfold registerListener. cbn [lis]. rewrite listeners_of_insert.
    assert (Hg : ∀ e, NoDup (listeners_of (collectGarbage h (lis h)) e)).
    { intros e0. rewrite listeners_of_gc. apply NoDup_filter, (inv_map_nodup _ Hinv). }
    case_decide as He; [|done]. apply NoDup_app. split; [done|]. split; [|apply NoDup_singleton].
    intros x Hx ->%list_elem_of_singleton. apply elem_of_gc in Hx as [_ Hx]. by eapply Hfresh.
  - intros e1 e2 x H1 H2. apply Hold in H1 as [[-> ->]|[Hne H1]]; apply Hold in H2 as [[? ->]|[? H2]]; try congruence.
    by eapply (inv_map_once _ Hinv).
  - apply (inv_unsent_nodup _ Hinv).
  - apply (inv_unsent_once _ Hinv).
  - intros x [e' Hx] Hs. apply Hold in Hx as [[-> ->]|[Hne Hx]]; [by apply Hns|].
    eapply (inv_apart _ Hinv); [by exists e'|exact Hs].
  - intros x Hx. unfold registerListener. cbn [chans]. destruct (decide (x = l)) as [->|Hne]; [apply lookup_insert_eq|].
    rewrite lookup_insert_ne by done. apply (inv_empty _ Hinv).
    destruct Hx as [[e' Hx]|Hx]; [left|by right]. apply Hold in Hx as [[? _]|[_ Hx]]; [done|by exists e'].
Qed.

Lemma lock_map h e p e' l :
  l ∈ listeners_of (lis (dispatch_lock h e p)) e' ↔ alive h l = true ∧ e' ≠ e ∧ l ∈ listeners_of (lis h) e'.
Proof. unfold dispatch_lock. cbn [lis]. by rewrite elem_of_gc, elem_of_delete. Qed.

Lemma lock_dispatchers h e p i d :
  dispatchers (dispatch_lock h e p) !! i = Some d →
  dispatchers h !! i = Some d ∨ (i = length (dispatchers h) ∧ d = mkDispatcher (listeners_of (lis h) e) false p).
Proof.
  unfold dispatch_lock. cbn [dispatchers]. intros [Hi|[Hlen Hi]]%lookup_app_Some; [by left|right].
  destruct (i - length (dispatchers h)) as [|k] eqn:Hk; simplify_eq/=. split; [lia|done].
Qed.

Lemma queue_inv_lock h e p : queue_inv h → queue_inv (dispatch_lock h e p).
Proof.
  intros Hinv.
  assert (Hmap : ∀ e' l, l ∈ listeners_of (lis (dispatch_lock h e p)) e' → e' ≠ e ∧ l ∈ listeners_of (lis h) e').
  { intros e' l (_ & Hne & Hl)%lock_map. done. }
  split.
  - intros e'. unfold dispatch_lock. cbn [lis]. rewrite listeners_of_gc, listeners_of_delete. apply NoDup_filter.
    case_decide; [constructor|apply (inv_map_nodup _ Hinv)].
  - intros e1 e2 l [_ H1]%Hmap [_ H2]%Hmap. by eapply (inv_map_once _ Hinv).
  - intros i d [Hi|[-> ->]]%lock_dispatchers; [by eapply (inv_unsent_nodup _ Hinv)|apply (inv_map_nodup _ Hinv)].
  - intros i j d d' l [Hi|[-> ->]]%lock_dispatchers [Hj|[-> ->]]%lock_dispatchers H1 H2; [|exfalso|exfalso|done].
    + by eapply (inv_unsent_once _ Hinv).
    + eapply (inv_apart _ Hinv); [by exists e|by exists i, d].
    + eapply (inv_apart _ Hinv); [by exists e|by exists j, d'].
  - intros l [e' [Hne Hl]%Hmap] (i & d & [Hi|[-> ->]]%lock_dispatchers & Hd).
    + eapply (inv_apart _ Hinv); [by exists e'|by exists i, d].
    + apply Hne. eapply (inv_map_once _ Hinv); [exact Hl|exact Hd].
  - intros l Hl. unfold dispatch_lock. cbn [chans]. apply (inv_empty _ Hinv).
    destruct Hl as [[e' [_ Hl]%Hmap]|(i & d & [Hi|[-> ->]]%lock_dispatchers & Hd)].
    + left. by exists e'.
    + right. by exists i, d.
    + left. by exists e.
Qed.

(** What a step of a dispatch does. *)
Inductive served (h : hooks) (i : nat) : hooks → Prop :=
  | served_send l ls p :
      dispatchers h !! i = Some (mkDispatcher (l :: ls) false p) → chans h !! l = Some [] →
      served h i (mkHooks (lis h) (<[l := [p]]> (chans h)) (received h) (ended h) (interrupted h)
                    (<[i := mkDispatcher (l :: ls) true p]> (dispatchers h)))
  | served_cancel l ls p :
      dispatchers h !! i = Some (mkDispatcher (l :: ls) true p) →
      served h i (mkHooks (lis h) (chans h) (received h) (ended h) ({[l]} ∪ interrupted h)
                    (<[i := mkDispatcher ls false p]> (dispatchers h))).

Lemma dispatch_step_served h i h' : dispatch_step h i = Some h' → served h i h'.
Proof.
  unfold dispatch_step. intros (d & Hi & Hd)%bind_Some. destruct d as [[|l ls] [] p]; cbn in Hd; simplify_eq.
  - by apply served_cancel.
  - unfold room in Hd. destruct (chans h !! l) as [[|]|] eqn:Hl; simplify_eq. by apply served_send.
Qed.

Lemma queue_inv_served h i h' : queue_inv h → served h i h' → queue_inv h'.
Proof.
  intros Hinv [l ls p Hi Hl|l ls p Hi].
  - pose proof (inv_unsent_nodup _ Hinv _ _ Hi) as Hnd. apply NoDup_cons in Hnd as [Hnl _].
    apply (queue_inv_shrink h); [done|done| |].
    + intros j d' Hj. cbn [dispatchers] in Hj. apply list_lookup_insert_Some in Hj as [(<- & <- & _)|[_ Hj]]; [|by exists d'].
      eexists. split; [exact Hi|]. cbn. by apply sublist_cons.
    + intros x Hx Hx'. cbn [chans]. destruct (decide (x = l)) as [->|Hne]; [exfalso|by rewrite lookup_insert_ne].
      destruct Hx as [Hx|(j & d & Hj & Hx)].
      * eapply (inv_apart _ Hinv); [exact Hx|]. exists i, (mkDispatcher (l :: ls) false p). split; [done|left].
      * cbn [dispatchers] in Hj. apply list_lookup_insert_Some in Hj as [(<- & <- & _)|[Hij Hj]]; [done|].
        apply Hij. eapply (inv_unsent_once _ Hinv); [exact Hi|exact Hj|left|exact Hx].
  - apply (queue_inv_shrink h); [done|done| |done].
    intros j d' Hj. cbn [dispatchers] in Hj. apply list_lookup_insert_Some in Hj as [(<- & <- & _)|[_ Hj]]; [|by exists d'].
    eexists. split; [exact Hi|]. done.
Qed.

Lemma getPayload_lis h l :
  lis (getPayload h l).1 = lis h ∧ dispatchers (getPayload h l).1 = dispatchers h ∧
  ended (getPayload h l).1 = ended h ∧ interrupted (getPayload h l).1 = interrupted h.
Proof. unfold getPayload. by destruct (chans h !! l) as [[|p ps]|]. Qed.

Lemma queue_inv_step h a h' : qstep h a h' → queue_inv h → queue_inv h'.
Proof.
  intros [e l Hl|e p|i h1 Hi|l Hl|l Hl] Hinv.
  - by apply queue_inv_register.
  - by apply queue_inv_lock.
  - eapply queue_inv_served; [done|by apply dispatch_step_served].
  - destruct (getPayload_lis h l) as (Hm & Hd & _). apply (queue_inv_shrink h); [done|by rewrite Hm|rewrite Hd; eauto|].
    intros x _ Hx. unfold getPayload. destruct (chans h !! l) as [[|p ps]|] eqn:Hl'; try done. cbn.
    destruct (decide (x = l)) as [->|Hne]; [apply lookup_insert_eq|by rewrite lookup_insert_ne].
  - apply (queue_inv_shrink h); [done|done|eauto|done].
Qed.

(** ** What a listener hears *)

(** The event that [l] is registered for, and the payload of the first dispatch
    of this event after the registration. *)
Definition heard (l : listener) (g : option (queueEvent * option payload)) (a : label) : option (queueEvent * option payload) :=
  match a, g with
  | LRegister e l', _ => if decide (l' = l) then Some (e, None) else g
  | LDispatch e p, Some (e', None) => if decide (e = e') then Some (e', Some p) else g
  | _, _ => g
  end.

(** [l] is the one that the dispatches serve, in no dispatch. *)
Definition unserved (h : hooks) (l : listener) : Prop := ∀ i d, dispatchers h !! i = Some d → l ∉ d_listeners d.

(** The state that agrees with what [l] has heard. *)
Definition tracked (h : hooks) (l : listener) (g : option (queueEvent * option payload)) : Prop :=
  match g with
  | None => chans h !! l = None ∧ received h !! l = None ∧ (l ∉ interrupted h) ∧ unserved h l
  | Some (e, None) =>
      chans h !! l = Some [] ∧ received h !! l = None ∧ (l ∉ interrupted h) ∧ unserved h l ∧
      (∀ e', l ∈ listeners_of (lis h) e' → e' = e) ∧ (l ∈ listeners_of (lis h) e ∨ l ∈ ended h)
  | Some (_, Some p) =>
      (in_map h l → False) ∧
      (∀ i d, dispatchers h !! i = Some d → l ∈ d_listeners d → d_payload d = p) ∧
      ((chans h !! l = Some [] ∧ received h !! l = None ∧ (l ∉ interrupted h) ∧ (to_send h l ∨ l ∈ ended h) ∧
        (∀ i d, dispatchers h !! i = Some d → d_sent d = true → hd_error (d_listeners d) ≠ Some l)) ∨
       chans h !! l = Some [p] ∨ (chans h !! l = Some [] ∧ received h !! l = Some p))
  end.

Lemma alive_ended h l : l ∉ interrupted h → alive h l = true ∨ l ∈ ended h.
Proof.
  intros Hni. unfold alive. destruct (decide (l ∈ ended h)) as [He|He]; [by right|left]. by apply bool_decide_eq_true.
Qed.

Lemma tracked_register h e l' l g :
  queue_inv h → chans h !! l' = None → tracked h l g → tracked (registerListener h e l') l (heard l g (LRegister e l')).
Proof.
  intros Hinv Hl' Ht. cbn [heard]. destruct (unmade_nowhere _ _ Hinv Hl') as [Hnm _].
  assert (Hin : ∀ e', l ∈ listeners_of (lis (registerListener h e l')) e' → (e' = e ∧ l = l') ∨ l ∈ listeners_of (lis h) e').
  { intros e' [?|[_ ?]]%elem_of_register; auto. }
  destruct (decide (l' = l)) as [->|Hne].
  - assert (received h !! l = None ∧ (l ∉ interrupted h) ∧ unserved h l) as (Hr & Hi & Hu).
    { destruct g as [[e0 [p|]]|]; [|by destruct Ht as (? & _); congruence|by destruct Ht as (_ & ?)].
      destruct Ht as (_ & _ & [(? & _)|[?|[? _]]]); congruence. }
    cbn [tracked]. unfold registerListener at 1. cbn [chans]. rewrite lookup_insert_eq. split_and!; try done.
    + intros e' [[-> _]|Hm]%Hin; [done|]. destruct Hnm. by exists e'.
    + left. apply elem_of_register. by left.
  - assert (Hc : chans (registerListener h e l') !! l = chans h !! l) by (by apply lookup_insert_ne).
    destruct g as [[e0 [p|]]|]; cbn [tracked] in *; rewrite Hc.
    + destruct Ht as (Hm & Hd & Hs). split; [|by split].
      intros [e' [[_ ?]|?]%Hin]; [congruence|]. apply Hm. by exists e'.
    + destruct Ht as (H1 & H2 & H3 & H4 & H5 & H6). split_and!; try done.
      * intros e' [[_ ?]|?]%Hin; [congruence|auto].
      * destruct H6 as [H6|H6]; [|by right]. destruct (alive_ended _ _ H3) as [Ha|He]; [left|by right].
        apply elem_of_register. by right.
    + done.
Qed.

Lemma tracked_lock h e p l g :
  queue_inv h → tracked h l g → tracked (dispatch_lock h e p) l (heard l g (LDispatch e p)).
Proof.
  intros Hinv Ht.
  assert (Hm' : in_map (dispatch_lock h e p) l → in_map h l) by (intros [e' (_ & _ & Hl)%lock_map]; by exists e').
  assert (Hu : unserved h l → l ∉ listeners_of (lis h) e → unserved (dispatch_lock h e p) l).
  { intros Hu Hn i d [Hi|[-> ->]]%lock_dispatchers; [by eapply Hu|done]. }
  destruct g as [[e0 [q|]]|]; cbn [heard].
  - destruct Ht as (Hm & Hd & Hs). cbn [tracked]. split; [auto|]. split.
    + intros i d [Hi|[-> ->]]%lock_dispatchers Hl; [by eapply Hd|]. destruct Hm. by exists e.
    + destruct Hs as [(H1 & H2 & H3 & H4 & H5)|Hs]; [left|by right]. split_and!; try done.
      * destruct H4 as [(i & d & Hi & Hl)|H4]; [left|by right]. exists i, d. split; [|done]. by apply lookup_app_l_Some.
      * intros i d [Hi|[-> ->]]%lock_dispatchers; [by apply H5 with i|done].
  - destruct Ht as (H1 & H2 & H3 & H4 & H5 & H6). case_decide as He.
    + subst e0. cbn [tracked]. split_and!.
      * intros [e' (_ & Hne & Hl)%lock_map]. by apply Hne, H5.
      * intros i d [Hi|[-> ->]]%lock_dispatchers Hl; [|done]. by destruct (H4 _ _ Hi).
      * left. split_and!; try done.
        -- destruct H6 as [H6|H6]; [left|by right].
           exists (length (dispatchers h)), (mkDispatcher (listeners_of (lis h) e) false p).
           split; [|done]. unfold dispatch_lock. cbn [dispatchers]. by apply list_lookup_middle.
        -- intros i d [Hi|[-> ->]]%lock_dispatchers Hsent Hhd; [|done].
           apply (H4 _ _ Hi). destruct (d_listeners d); simplify_eq/=. left.
    + cbn [tracked]. split_and!; try done.
      * apply Hu; [done|]. intros Hl. by apply He, H5.
      * intros e' (_ & _ & Hl)%lock_map. auto.
      * destruct H6 as [H6|H6]; [|by right]. destruct (alive_ended _ _ H3) as [Ha|Ha]; [left|by right].
        apply lock_map. auto.
  - destruct Ht as (H1 & H2 & H3 & H4). destruct (unmade_nowhere _ _ Hinv H1) as [Hnm _].
    cbn [tracked]. split_and!; try done. apply Hu; [done|]. intros Hl. apply Hnm. by exists e.
Qed.

(** A dispatch that goes on serves the same listeners or fewer, with its
    payload. *)
Lemma served_dispatchers h i h' j d' :
  served h i h' → dispatchers h' !! j = Some d' →
  ∃ d, dispatchers h !! j = Some d ∧ d_payload d = d_payload d' ∧ (∀ l, l ∈ d_listeners d' → l ∈ d_listeners d).
Proof.
  intros [l ls p Hi Hl|l ls p Hi] Hj; cbn [dispatchers] in Hj;
    apply list_lookup_insert_Some in Hj as [(<- & <- & _)|[_ Hj]]; try (by exists d');
    eexists; (split; [exact Hi|]); (split; [done|]); cbn; intros x Hx; [done|by right].
Qed.

Lemma served_rest h i h' :
  served h i h' → lis h' = lis h ∧ received h' = received h ∧ ended h' = ended h.
Proof. by intros [|]. Qed.

Lemma served_unserved h i h' l : served h i h' → unserved h l → unserved h' l.
Proof. intros Hs Hu j d' Hj Hl. destruct (served_dispatchers _ _ _ _ _ Hs Hj) as (d & Hd & _ & Hin). eapply Hu; eauto. Qed.

(** A step of a dispatch that does not serve [l]. *)
Lemma served_other h i h' l :
  served h i h' →
  (∀ d, dispatchers h !! i = Some d → hd_error (d_listeners d) ≠ Some l) →
  chans h' !! l = chans h !! l ∧ (l ∈ interrupted h' ↔ l ∈ interrupted h).
Proof.
  intros [x ls p Hi Hx|x ls p Hi] Hne; specialize (Hne _ Hi); cbn in Hne; cbn [chans interrupted].
  - split; [|done]. rewrite lookup_insert_ne by congruence. done.
  - split; [done|]. rewrite elem_of_union, elem_of_singleton. split; [|tauto]. intros [->|?]; [congruence|done].
Qed.

Lemma unserved_other h i l : unserved h l → ∀ d, dispatchers h !! i = Some d → hd_error (d_listeners d) ≠ Some l.
Proof. intros Hu d Hi Hhd. apply (Hu _ _ Hi). destruct (d_listeners d); simplify_eq/=. left. Qed.

(** A listener that waits is still to be sent to, unless it is sent to now. *)
Lemma served_to_send h i h' l :
  served h i h' → (∀ d, dispatchers h !! i = Some d → d_sent d = false → hd_error (d_listeners d) ≠ Some l) →
  to_send h l → to_send h' l.
Proof.
  intros Hs Hne (j & d & Hj & Hl). destruct (decide (i = j)) as [<-|Hij].
  - destruct Hs as [x ls p Hi Hx|x ls p Hi]; rewrite Hi in Hj; simplify_eq; cbn [dispatchers]; eexists i, _;
      (split; [cbn [dispatchers]; apply list_lookup_insert_eq; by eapply lookup_lt_Some|]); [|done].
    cbn in Hl |- *. apply elem_of_cons in Hl as [->|Hl]; [|done]. by destruct (Hne _ Hi).
  - exists j, d. split; [|done]. destruct Hs; cbn [dispatchers]; by rewrite list_lookup_insert_ne.
Qed.

(** The dispatches that have sent to their first listener, after a step. *)
Lemma served_sent h i h' l :
  served h i h' → (∀ d, dispatchers h !! i = Some d → hd_error (d_listeners d) ≠ Some l) →
  (∀ j d, dispatchers h !! j = Some d → d_sent d = true → hd_error (d_listeners d) ≠ Some l) →
  ∀ j d, dispatchers h' !! j = Some d → d_sent d = true → hd_error (d_listeners d) ≠ Some l.
Proof.
  intros [x ls p Hi Hx|x ls p Hi] Hne Hold j d Hj Hsent; cbn [dispatchers] in Hj;
    apply list_lookup_insert_Some in Hj as [(<- & <- & _)|[_ Hj]].
  - apply (Hne _ Hi).
  - exact (Hold _ _ Hj Hsent).
  - done.
  - exact (Hold _ _ Hj Hsent).
Qed.

(** Serving [l] itself is a send to it, or it was sent to before. *)
Lemma served_self h i h' l :
  served h i h' →
  (∀ d, dispatchers h !! i = Some d → hd_error (d_listeners d) ≠ Some l) ∨
  (∃ d, dispatchers h !! i = Some d ∧ l ∈ d_listeners d ∧
     (chans h' !! l = Some [d_payload d] ∨
      (d_sent d = true ∧ hd_error (d_listeners d) = Some l ∧ chans h' !! l = chans h !! l))).
Proof.
  intros [x ls p Hi Hx|x ls p Hi]; (destruct (decide (x = l)) as [->|Hne]; [right|left; intros d Hd; rewrite Hi in Hd; simplify_eq/=; congruence]);
    eexists; (split; [exact Hi|]); (split; [left|]); [left|right; done].
  cbn [chans]. apply lookup_insert_eq.
Qed.

Lemma tracked_served h i h' l g : queue_inv h → served h i h' → tracked h l g → tracked h' l g.
Proof.
  intros Hinv Hs Ht. destruct (served_rest _ _ _ Hs) as (Hm & Hr & He).
  assert (Hun : unserved h l → unserved h' l ∧ chans h' !! l = chans h !! l ∧ (l ∈ interrupted h' ↔ l ∈ interrupted h)).
  { intros Hu. split; [by eapply served_unserved|]. by apply (served_other _ _ _ _ Hs), unserved_other. }
  destruct g as [[e0 [q|]]|]; cbn [tracked] in *; unfold in_map in *; rewrite Hr.
  - destruct Ht as (Hnm & Hd & Hst). rewrite Hm, He. split; [done|]. split.
    { intros j d' Hj Hl. destruct (served_dispatchers _ _ _ _ _ Hs Hj) as (d & Hd0 & <- & Hin). eauto. }
    destruct (served_self _ _ _ l Hs) as [Hne|(d & Hi & Hl & [Hc|(Hsent & Hhd & Hc)])].
    + destruct (served_other _ _ _ _ Hs Hne) as [-> Hint].
      destruct Hst as [(H1 & H2 & H3 & H4 & H5)|Hst]; [left|by right]. split_and!; try done.
      * by rewrite Hint.
      * destruct H4 as [H4|H4]; [left|by right]. eapply served_to_send; eauto.
      * by eapply served_sent.
    + rewrite (Hd _ _ Hi Hl) in Hc. auto.
    + rewrite Hc. destruct Hst as [(_ & _ & _ & _ & H5)|Hst]; [|by right]. by destruct (H5 _ _ Hi Hsent).
  - destruct Ht as (H1 & H2 & H3 & H4 & H5). destruct (Hun H4) as (Hu & -> & Hint). rewrite Hm, He, Hint. done.
  - destruct Ht as (H1 & H2 & H3 & H4). destruct (Hun H4) as (Hu & -> & Hint). rewrite Hint. done.
Qed.

Lemma tracked_poll h l' l g : is_Some (chans h !! l') → tracked h l g → tracked (getPayload h l').1 l g.
Proof.
  intros Hsome Ht. unfold getPayload. destruct (chans h !! l') as [[|p ps]|] eqn:Hl'; try done. cbn [fst].
  destruct (decide (l' = l)) as [->|Hne].
  - destruct g as [[e0 [q|]]|]; cbn [tracked chans received] in *; [|by destruct Ht as (? & _); congruence..].
    destruct Ht as (Hm & Hd & Hs). split; [done|]. split; [done|]. right. right.
    destruct Hs as [(? & _)|[Hq|[? _]]]; [congruence| |congruence].
    rewrite Hl' in Hq. simplify_eq. by rewrite !lookup_insert_eq.
  - destruct g as [[e0 [q|]]|]; cbn [tracked chans received] in *; by rewrite !lookup_insert_ne.
Qed.

Lemma tracked_cancel h l' l g : tracked h l g → tracked (cancel h l') l g.
Proof.
  intros Ht. destruct g as [[e0 [q|]]|]; cbn [tracked] in *; [|destruct Ht as (H1 & H2 & H3 & H4 & H5 & H6)|done].
  - destruct Ht as (Hm & Hd & Hs). split; [done|]. split; [done|].
    destruct Hs as [(H1 & H2 & H3 & H4 & H5)|Hs]; [left|by right]. split_and!; try done.
    destruct H4 as [H4|H4]; [by left|right]. cbn. set_solver.
  - split_and!; try done. destruct H6 as [H6|H6]; [by left|right]. cbn. set_solver.
Qed.

Lemma tracked_step h a h' l g :
  qstep h a h' → queue_inv h → tracked h l g → tracked h' l (heard l g a).
Proof.
  intros Hq Hinv Ht. destruct Hq as [e l' Hl|e p|i h1 Hi|l' Hl|l' Hl].
  - by apply tracked_register.
  - by apply tracked_lock.
  - eapply tracked_served; [done|by apply dispatch_step_served|done].
  - by apply tracked_poll.
  - by apply tracked_cancel.
Qed.

Lemma tracked_run h t h' l g :
  qsteps h t h' → queue_inv h → tracked h l g → queue_inv h' ∧ tracked h' l (foldl (heard l) g t).
Proof.
  intros Hq. revert g. induction Hq as [|h a h1 t h2 Ha _ IH]; intros g Hinv Ht; [done|].
  cbn [foldl]. apply IH; [by eapply queue_inv_step|by eapply tracked_step].
Qed.

Lemma tracked_new l : tracked newQueueHooks l None.
Proof. cbn. split_and!; done. Qed.

(** ** Runs and what is heard in them *)

(** A channel is made once. *)
Lemma qstep_made h a h' l : qstep h a h' → is_Some (chans h !! l) → is_Some (chans h' !! l).
Proof.
  intros Hq Hl. destruct Hq as [e l' Hl'|e p|i h1 Hi|l' Hl'|l' Hl']; try done.
  - cbn. rewrite lookup_insert_is_Some. destruct (decide (l' = l)); [by left|by right].
  - apply dispatch_step_served in Hi as [x ls p Hi Hx|x ls p Hi]; [|done].
    cbn. rewrite lookup_insert_is_Some. destruct (decide (x = l)); [by left|by right].
  - unfold getPayload. destruct (chans h !! l') as [[|p ps]|]; try done. cbn.
    rewrite lookup_insert_is_Some. destruct (decide (l' = l)); [by left|by right].
Qed.

Lemma made_not_registered h t h' l e : qsteps h t h' → is_Some (chans h !! l) → LRegister e l ∉ t.
Proof.
  intros Hq. induction Hq as [|h a h1 t h2 Ha _ IH]; intros Hl Hin; [by apply not_elem_of_nil in Hin|].
  apply elem_of_cons in Hin as [<-|Hin]; [|apply IH; [by eapply qstep_made|done]].
  inversion Ha as [e' l' Hn| | | |]; subst. rewrite Hn in Hl. by destruct Hl.
Qed.

Lemma qsteps_app h t1 t2 h' : qsteps h (t1 ++ t2) h' → ∃ h1, qsteps h t1 h1 ∧ qsteps h1 t2 h'.
Proof.
  revert h. induction t1 as [|a t1 IH]; intros h Hq; [exists h; split; [constructor|done]|].
  inversion Hq as [|? ? h1 ? ? Ha Hr]; subst. destruct (IH _ Hr) as (h2 & H1 & H2).
  exists h2. split; [by econstructor|done].
Qed.

(** [p] is the payload of the first dispatch of the event of [l] that follows
    the registration of [l]. *)
Definition first_dispatch (t : list label) (l : listener) (p : payload) : Prop :=
  ∃ e t1 t2 t3, t = t1 ++ LRegister e l :: t2 ++ LDispatch e p :: t3 ∧ ∀ q, LDispatch e q ∉ t2.

Lemma heard_keeps l t g :
  (∀ e, LRegister e l ∉ t) →
  (match g with Some (e, None) => ∀ q, LDispatch e q ∉ t | _ => True end) → foldl (heard l) g t = g.
Proof.
  revert g. induction t as [|a t IH]; intros g Hr Hd; [done|]. cbn [foldl].
  assert (Ha : heard l g a = g).
  { destruct a as [e l'|e p| | |]; cbn; [|destruct g as [[e' [?|]]|]; try done|by destruct g as [[? []]|]..].
    - case_decide; [|done]. subst. destruct (Hr e). left.
    - case_decide; [|done]. subst. destruct (Hd p). left. }
  rewrite Ha. apply IH; [intros e Hin; apply (Hr e); by right|].
  destruct g as [[e [?|]]|]; try done. intros q Hin. apply (Hd q). by right.
Qed.

Lemma first_dispatch_heard t h l p :
  qsteps newQueueHooks t h → first_dispatch t l p → ∃ e, foldl (heard l) None t = Some (e, Some p).
Proof.
  intros Hq (e & t1 & t2 & t3 & -> & Hno). exists e.
  apply qsteps_app in Hq as (h1 & _ & Hq). inversion Hq as [|? ? h2 ? ? Ha Hr]; subst.
  assert (Hmade : is_Some (chans h2 !! l)).
  { inversion Ha; subst. cbn. rewrite lookup_insert_eq. done. }
  assert (Hnr : ∀ e', LRegister e' l ∉ t2 ++ LDispatch e p :: t3) by (intros e'; by eapply made_not_registered).
  rewrite foldl_app. cbn [foldl]. rewrite foldl_app. cbn [heard]. rewrite decide_True by done. cbn [foldl].
  rewrite (heard_keeps l t2); [|intros e' Hin; apply (Hnr e'), elem_of_app; by left|exact Hno].
  cbn [heard]. rewrite decide_True by done. apply heard_keeps; [|done].
  intros e' Hin. apply (Hnr e'), elem_of_app. right. by right.
Qed.

Lemma heard_first t l :
  (∀ e, foldl (heard l) None t = Some (e, None) →
     ∃ t1 t2, t = t1 ++ LRegister e l :: t2 ∧ ∀ q, LDispatch e q ∉ t2) ∧
  (∀ e p, foldl (heard l) None t = Some (e, Some p) → first_dispatch t l p).
Proof.
  induction t as [|a t [IH1 IH2]] using rev_ind; [done|]. rewrite foldl_app. cbn [foldl].
  set (g := foldl (heard l) None t) in *.
  assert (Hkeep : ∀ e, g = Some (e, None) → (∀ q, a ≠ LDispatch e q) →
     ∃ t1 t2, t ++ [a] = t1 ++ LRegister e l :: t2 ∧ ∀ q, LDispatch e q ∉ t2).
  { intros e Hg Hne. destruct (IH1 _ Hg) as (t1 & t2 & Ht & Hno). exists t1, (t2 ++ [a]).
    split; [rewrite Ht; by rewrite <- app_assoc|].
    intros q [Hin|Hin%list_elem_of_singleton]%elem_of_app; [by apply (Hno q)|by apply (Hne q)]. }
  assert (Hkeep2 : ∀ e p, g = Some (e, Some p) → first_dispatch (t ++ [a]) l p).
  { intros e p Hg. destruct (IH2 _ _ Hg) as (e' & t1 & t2 & t3 & Ht & Hno). exists e', t1, t2, (t3 ++ [a]).
    split; [|done]. rewrite Ht. by rewrite <- !app_assoc, app_comm_cons, <- app_assoc. }
  split.
  - intros e He. destruct a as [e' l'|e' p'| | |]; cbn [heard] in He; try (apply Hkeep; [|done]; by destruct g as [[? []]|]).
    + case_decide as Hd; [simplify_eq; exists t, []; split; [done|intros q; apply not_elem_of_nil]|by apply Hkeep].
    + destruct g as [[e0 [?|]]|]; try done. case_decide as Hd; [done|]. apply Hkeep; [done|]. intros q ?. simplify_eq.
  - intros e p He. destruct a as [e' l'|e' p'| | |]; cbn [heard] in He; try (apply (Hkeep2 e); by destruct g as [[? []]|]).
    + case_decide as Hd; [done|by apply (Hkeep2 e)].
    + destruct g as [[e0 [?|]]|] eqn:Hg; [by apply (Hkeep2 e)| |done]. case_decide as Hd; simplify_eq.
      destruct (IH1 _ eq_refl) as (t1 & t2 & Ht & Hno). exists e, t1, t2, []. split; [|done].
      rewrite Ht. by rewrite <- app_assoc.
Qed.

Lemma tracked_result h l g :
  tracked h l g → Forall (λ d, unsent d = []) (dispatchers h) → l ∉ ended h →
  (IsObjectEnqueued h (Some l)).2 =
  match g with Some (_, Some p) => (true, Some p) | _ => (false, None) end.
Proof.
  intros Ht Hq He. rewrite Forall_lookup in Hq. unfold IsObjectEnqueued, getPayload.
  destruct g as [[e [p|]]|]; cbn [tracked] in Ht.
  - destruct Ht as (_ & _ & [(H1 & H2 & H3 & H4 & H5)|[-> |[-> ->]]]); [exfalso|done..].
    destruct H4 as [(i & d & Hi & Hl)|H4]; [|done]. rewrite (Hq _ _ Hi) in Hl. by apply not_elem_of_nil in Hl.
  - destruct Ht as (-> & -> & _). done.
  - destruct Ht as (-> & -> & _). done.
Qed.

Lemma tracked_sound h l g p :
  tracked h l g → (IsObjectEnqueued h (Some l)).2 = (true, Some p) → ∃ e, g = Some (e, Some p).
Proof.
  intros Ht. unfold IsObjectEnqueued, getPayload. destruct g as [[e [q|]]|]; cbn [tracked] in Ht.
  - intros Hp. exists e. destruct Ht as (_ & _ & [(H1 & H2 & _)|[H1|[H1 H2]]]); rewrite H1 in Hp; try rewrite H2 in Hp; by simplify_eq/=.
  - by destruct Ht as (-> & -> & _).
  - by destruct Ht as (-> & -> & _).
Qed.

Lemma tracked_interrupted h l g :
  tracked h l g → l ∈ interrupted h → ∃ p, (IsObjectEnqueued h (Some l)).2 = (true, Some p).
Proof.
  intros Ht Hi. unfold IsObjectEnqueued, getPayload. destruct g as [[e [q|]]|]; cbn [tracked] in Ht.
  - exists q. by destruct Ht as (_ & _ & [(_ & _ & ? & _)|[-> |[-> ->]]]).
  - by destruct Ht as (_ & _ & ? & _).
  - by destruct Ht as (_ & _ & ? & _).
Qed.

Lemma dispatch_never_waits h i d :
  queue_inv h → dispatchers h !! i = Some d → d_listeners d ≠ [] → is_Some (dispatch_step h i).
Proof.
  intros Hinv Hi Hne. unfold dispatch_step. rewrite Hi. cbn. destruct d as [[|l ls] [] p]; cbn in *; try done.
  unfold room. rewrite (inv_empty _ Hinv l); [done|]. right. exists i, (mkDispatcher (l :: ls) false p). split; [done|left].
Qed.

(** C21. In every interleaving of registrations, dispatches, polls and ends of
    reconciliations: a dispatch under way is never stuck at a full channel;
    [IsObjectEnqueued] answers true only with the source of the first dispatch
    for the object after the reconciliation began; when the dispatches under
    way have sent to their listeners, it does answer so for each
    reconciliation that has not ended, so no notification is lost; and it
    answers true whenever a dispatch has cancelled the interrupt context. *)
Theorem requeue_heard t h l :
  qsteps newQueueHooks t h →
  (∀ i d, dispatchers h !! i = Some d → d_listeners d ≠ [] → is_Some (dispatch_step h i)) ∧
  (∀ p, (IsObjectEnqueued h (Some l)).2 = (true, Some p) → first_dispatch t l p) ∧
  (∀ p, first_dispatch t l p → l ∉ ended h → Forall (λ d, unsent d = []) (dispatchers h) →
     (IsObjectEnqueued h (Some l)).2 = (true, Some p)) ∧
  (l ∈ interrupted h → ∃ p, (IsObjectEnqueued h (Some l)).2 = (true, Some p)).
Proof.
  intros Hq. destruct (tracked_run _ _ _ l None Hq queue_inv_new (tracked_new l)) as [Hinv Ht].
  split; [|split; [|split]].
  - intros i d. by apply dispatch_never_waits.
  - intros p Hp. destruct (tracked_sound _ _ _ _ Ht Hp) as [e Hg]. by apply (proj2 (heard_first t l) e).
  - intros p Hf He Hs. destruct (first_dispatch_heard _ _ _ _ Hq Hf) as [e Hg].
    rewrite (tracked_result _ _ _ Ht) by done. by rewrite Hg.
  - exact (tracked_interrupted _ _ _ Ht).
Qed.

(** ** An example *)

(** The events that the handler dispatches for a watched object.
    [src/runtime/controller/reconciler.go:95-112 reconcilerWrapper.EnqueueRequestsFromMapFunc] *)
Definition EnqueueRequestsFromMapFunc (objKind name namespace uid resourceVersion : string) (reqs : list (string * string)) : list label :=
  (λ r : string * string, LDispatch (mkEvent r.1 r.2) (mkSource objKind name namespace uid resourceVersion)) <$> reqs.

Definition ev1 : queueEvent := mkEvent "flux-system" "apps".
Definition src1 : payload := mkSource "GitRepository" "repo" "flux-system" "u1" "41".
Definition src2 : payload := mkSource "GitRepository" "repo" "flux-system" "u1" "42".

(** Two reconciliations of an object, one of them over; the object is enqueued
    twice. *)
Definition run1 : list label :=
  [LRegister ev1 1%positive; LRegister ev1 2%positive; LCancel 1%positive;
   LDispatch ev1 src1; LStep 0; LStep 0; LDispatch ev1 src2; LPoll 2%positive; LStep 0; LStep 0].

Definition do_label (h : hooks) (a : label) : option hooks :=
  match a with
  | LRegister e l => if chans h !! l is Some _ then None else Some (registerListener h e l)
  | LDispatch e p => Some (dispatch_lock h e p)
  | LStep i => dispatch_step h i
  | LPoll l => if chans h !! l is Some _ then Some (getPayload h l).1 else None
  | LCancel l => if chans h !! l is Some _ then Some (cancel h l) else None
  end.

Fixpoint do_labels (h : hooks) (t : list label) : option hooks :=
  match t with [] => Some h | a :: t => do_label h a ≫= λ h, do_labels h t end.

Lemma do_label_step h a h' : do_label h a = Some h' → qstep h a h'.
Proof.
  destruct a as [e l|e p|i|l|l]; cbn; intros Hd; try (destruct (chans h !! l) as [c|] eqn:Hl; simplify_eq); simplify_eq.
  - by constructor.
  - constructor.
  - by constructor.
  - constructor. by exists c.
  - constructor. by exists c.
Qed.

Lemma do_labels_steps h t h' : do_labels h t = Some h' → qsteps h t h'.
Proof.
  revert h. induction t as [|a t IH]; cbn; intros h Hd; [simplify_eq; constructor|].
  apply bind_Some in Hd as (h1 & Ha & Ht). econstructor; [by apply do_label_step|by apply IH].
Qed.

Definition state1 : hooks := default newQueueHooks (do_labels newQueueHooks run1).

Lemma requeue_heard_witness :
  qsteps newQueueHooks run1 state1 ∧ (IsObjectEnqueued state1 (Some 2%positive)).2 = (true, Some src1).
Proof.
  assert (Hq : qsteps newQueueHooks run1 state1) by (apply do_labels_steps; vm_compute; reflexivity).
  split; [exact Hq|].
  destruct (requeue_heard run1 state1 2%positive Hq) as (_ & _ & Hc & _). apply Hc.
  - exists ev1, [LRegister ev1 1%positive], [LCancel 1%positive], [LStep 0; LStep 0; LDispatch ev1 src2; LPoll 2%positive; LStep 0; LStep 0].
    split; [reflexivity|]. intros q Hin. apply list_elem_of_singleton in Hin. discriminate.
  - apply (bool_decide_unpack _). vm_compute. exact I.
  - apply (bool_decide_unpack _). vm_compute. exact I.
Defined.
