(* ===== verification/Git.v ===== *)
(** * Git commits, revisions, authentication options and signatures ([git], [git/signature])

    A revision names a commit: a pointer such as a branch, and a hash.  The
    OpenPGP and SSH libraries are parameters. *)

From S2P Require Import Prelude Utf8 GoPath GoText.

(** ** Commits and tags ([git.go]) *)

(** A hash is a slice of bytes, which may be nil.
    [src/git/git.go:35-36 Hash] *)
Definition Hash : Type := option bytes.

(** [src/git/git.go:58-61 Hash.String] *)
Definition Hash_String (h : Hash) : bytes := default [] h.

Definition HashTypeSHA1 : bytes := str "sha1".
Definition HashTypeUnknown : bytes := str "<unknown>".

(** [src/git/git.go:38-48 Hash.Algorithm] *)
Definition Algorithm (h : Hash) : bytes := if length (Hash_String h) =? 40 then HashTypeSHA1 else HashTypeUnknown.

(** [src/git/git.go:50-56 Hash.Digest] *)
Definition Digest (h : Hash) : bytes :=
  if length (Hash_String h) =? 0 then [] else Algorithm h ++ ":"%char :: Hash_String h.

(** [src/git/git.go:63-69 Signature] *)
Record Signature := mkSignature { sg_Name : bytes; sg_Email : bytes; sg_When : Z }.
Definition zeroSignature : Signature := mkSignature [] [] 0.

(** [src/git/git.go:169-183 Tag] *)
Record Tag := mkTag {
  t_Hash : Hash; t_Name : bytes; t_Author : Signature; t_Signature : bytes; t_Encoded : option bytes; t_Message : bytes }.

(** [src/git/git.go:71-91 Commit] *)
Record Commit := mkCommit {
  c_Hash : Hash; c_Reference : bytes; c_Author : Signature; c_Committer : Signature; c_Signature : bytes;
  c_Encoded : option bytes; c_Message : bytes; c_ReferencingTag : option Tag }.

(** [strings.SplitAfterN(s, "/", 3)[2]], if there are three parts. *)
Definition after_two (s : bytes) : option bytes :=
  '(_, s) ← cut_first sep s; '(_, s) ← cut_first sep s; Some s.

(** [src/git/git.go:93-102 Commit.String] *)
Definition Commit_String (c : Commit) : bytes :=
  match after_two (c_Reference c) with
  | Some short => short ++ "@"%char :: Digest (c_Hash c)
  | None => Digest (c_Hash c)
  end.

(** [src/git/git.go:104-113 Commit.AbsoluteReference] *)
Definition AbsoluteReference (c : Commit) : bytes :=
  match c_Reference c with
  | [] => Digest (c_Hash c)
  | r => r ++ "@"%char :: Digest (c_Hash c)
  end.

(** [src/git/git.go:159-167 Commit.ShortMessage] *)
Definition ShortMessage (c : Commit) : bytes :=
  let subject := default [] (hd_error (strings_Split (c_Message c) newline)) in
  let r := runes subject in
  if 50 <? length r then of_runes (take 50 r) ++ str "..." else subject.

(** [src/git/git.go:221-230 Tag.String] *)
Definition Tag_String (t : Tag) : bytes :=
  if length (Hash_String (t_Hash t)) =? 0 then t_Name t else t_Name t ++ "@"%char :: Hash_String (t_Hash t).

(** [src/git/git.go:248-256 IsConcreteCommit] *)
Definition IsConcreteCommit (c : Commit) : bool :=
  bool_decide (is_Some (c_Hash c)) && bool_decide (is_Some (c_Encoded c)).

(** [src/git/git.go:258-261 IsAnnotatedTag] *)
Definition IsAnnotatedTag (t : Tag) : bool := 0 <? length (default [] (t_Encoded t)).
(** [src/git/git.go:263-266 IsSignedTag] *)
Definition IsSignedTag (t : Tag) : bool := negb (bool_decide (t_Signature t = [])).

(** ** Revisions ([utils.go]) *)

(** [src/git/utils.go:92-112 ExtractNamedPointerFromRevision] *)
Definition ExtractNamedPointerFromRevision (rev : bytes) : bytes :=
  match cut_last "@" rev with
  | Some (p, _) => p
  | None => match cut_last sep rev with
            | Some (s, _) => if bool_decide (s = str "HEAD") then [] else s
            | None => []
            end
  end.

(** [src/git/utils.go:114-135 ExtractHashFromRevision] *)
Definition ExtractHashFromRevision (rev : bytes) : Hash :=
  match rev with
  | [] => None
  | _ => match cut_last ":" rev with
         | Some (_, h) => Some h
         | None => let ss := strings_Split rev sep in
                   if 1 <? length ss then Some (List.last ss []) else Some rev
         end
  end.

(** [src/git/utils.go:75-90 SplitRevision] *)
Definition SplitRevision (rev : bytes) : bytes * Hash :=
  (ExtractNamedPointerFromRevision rev, ExtractHashFromRevision rev).

(** [src/git/utils.go:49-73 TransformRevision] *)
Definition TransformRevision (rev : bytes) : bytes :=
  if bool_decide (rev = []) || has_byte ":" rev then rev
  else let '(p, h) := SplitRevision rev in
       if bool_decide (p = []) then Digest h else p ++ "@"%char :: Digest h.

(** [getwd] is the working directory, [SecureJoin] that of another package.
    [src/git/utils.go:27-47 SecurePath] *)
Definition SecurePath {E} (getwd : E + bytes) (SecureJoin : bytes → bytes → E + bytes) (path : bytes) : E + bytes :=
  if IsAbs path then inr (Clean path)
  else match getwd with
       | inl e => inl e
       | inr wd => SecureJoin wd path
       end.

(** ** Authentication options ([options.go]) *)

Definition DefaultRemote : bytes := str "origin".
Definition DefaultBranch : bytes := str "master".
Definition DefaultPublicKeyAuthUser : bytes := str "git".
Definition SSH : bytes := str "ssh".
Definition HTTPS : bytes := str "https".
Definition HTTP : bytes := str "http".

(** The parts of a URL that are used: of the user information the name and the
    password, if it was set. *)
Record Userinfo := mkUserinfo { ui_Username : bytes; ui_Password : option bytes }.
Record URL := mkURL { u_Scheme : bytes; u_Host : bytes; u_User : option Userinfo }.
(** The methods of a nil [Userinfo] answer with empty texts. *)
Definition User_Username (u : URL) : bytes := default [] (ui_Username <$> u_User u).
Definition User_Password (u : URL) : bytes := default [] (u_User u ≫= ui_Password).

(** [src/git/options.go:50-63 AuthOptions] *)
Record AuthOptions := mkAuthOptions {
  Transport : bytes; Host : bytes; Username : bytes; Password : bytes; BearerToken : bytes;
  Identity : bytes; KnownHosts : bytes; ClientCert : bytes; ClientKey : bytes; CAFile : bytes }.

Inductive auth_err :=
  | ErrPasswordRequiresUsername (transport : bytes)
  | ErrRequired (transport : bytes) (option : string)
  | ErrNoTransport
  | ErrUnknownTransport (transport : bytes).

Definition is_http (t : bytes) : bool := bool_decide (t = HTTPS) || bool_decide (t = HTTP).
Definition empty (b : bytes) : bool := bool_decide (b = []).

(** [src/git/options.go:73-96 AuthOptions.Validate] *)
Definition Validate (o : AuthOptions) : option auth_err :=
  if is_http (Transport o) then
    if empty (Username o) && negb (empty (Password o)) then Some (ErrPasswordRequiresUsername (Transport o)) else None
  else if bool_decide (Transport o = SSH) then
    if empty (Host o) then Some (ErrRequired (Transport o) "host")
    else if empty (Identity o) then Some (ErrRequired (Transport o) "identity")
    else if empty (KnownHosts o) then Some (ErrRequired (Transport o) "known_hosts")
    else None
  else if empty (Transport o) then Some ErrNoTransport
  else Some (ErrUnknownTransport (Transport o)).

(** [src/git/options.go:149-158 newAuthOptions] *)
Definition newAuthOptions (u : URL) : AuthOptions := mkAuthOptions (u_Scheme u) (u_Host u) [] [] [] [] [] [] [] [].

Definition data_get (data : gmap bytes bytes) (key : string) : bytes := default [] (data !! str key).

(** The options from the data of a secret that is not empty.
    [src/git/options.go:103-132 NewAuthOptions] *)
Definition options_from_data (u : URL) (data : gmap bytes bytes) (o : AuthOptions) : AuthOptions :=
  let get := data_get data in
  let caBytes := if empty (get "ca.crt") then get "caFile" else get "ca.crt" in
  if bool_decide (Transport o = SSH) then
    mkAuthOptions (Transport o) (Host o)
      (if empty (User_Username u) then DefaultPublicKeyAuthUser else User_Username u)
      (get "password") [] (get "identity") (get "known_hosts") [] [] []
  else match data !! str "bearerToken" with
       | Some token => mkAuthOptions (Transport o) (Host o) [] [] token [] [] (get "tls.crt") (get "tls.key") caBytes
       | None => mkAuthOptions (Transport o) (Host o) (get "username") (get "password") [] [] [] (get "tls.crt") (get "tls.key") caBytes
       end.

(** [src/git/options.go:98-147 NewAuthOptions] *)
Definition NewAuthOptions (u : URL) (data : gmap bytes bytes) : auth_err + AuthOptions :=
  let o := newAuthOptions u in
  let o := if bool_decide (data = ∅) then o else options_from_data u data o in
  let ssh := bool_decide (Transport o = SSH) in
  let username := if negb ssh && empty (Username o) then User_Username u else Username o in
  let password := if negb ssh && empty (Password o) then User_Password u else Password o in
  let o := mkAuthOptions (Transport o) (Host o) username password (BearerToken o) (Identity o) (KnownHosts o)
             (ClientCert o) (ClientKey o) (CAFile o) in
  match Validate o with Some e => inl e | None => inr o end.

(** ** Signatures ([signature]) *)

(** The armors. *)
Definition pgpSignaturePrefix : list bytes := [str "-----BEGIN PGP SIGNATURE-----"].
Definition sshSignaturePrefix : list bytes := [str "-----BEGIN SSH SIGNATURE-----"].
Definition x509SignaturePrefix : list bytes := [str "-----BEGIN SIGNED MESSAGE-----"].

Definition has_armor (prefixes : list bytes) (signature : bytes) : bool :=
  existsb (HasPrefix (strings_TrimSpace signature)) prefixes.

(** [src/git/signature/signature.go:59-65 IsPGPSignature] *)
Definition IsPGPSignature (signature : bytes) : bool := has_armor pgpSignaturePrefix signature.
(** [src/git/signature/signature.go:67-73 IsSSHSignature] *)
Definition IsSSHSignature (signature : bytes) : bool := has_armor sshSignaturePrefix signature.
(** [src/git/signature/signature.go:75-87 IsX509Signature] *)
Definition IsX509Signature (signature : bytes) : bool := has_armor x509SignaturePrefix signature.
(** [src/git/signature/signature.go:89-93 IsEmptySignature] *)
Definition IsEmptySignature (signature : bytes) : bool := length signature =? 0.

(** [src/git/signature/signature.go:95-113 GetSignatureType] *)
Definition GetSignatureType (signature : bytes) : bytes :=
  if IsPGPSignature signature then str "openpgp"
  else if IsSSHSignature signature then str "ssh"
  else if IsX509Signature signature then str "x509"
  else if IsEmptySignature signature then str "empty"
  else str "unknown".

(** OpenPGP, SSH signatures and SSH keys are those of other packages:
    reading of key rings, checking of a detached signature with the key that
    made it, the removal of an armor, the verification in a namespace, the
    line of an [authorized_keys] file.  [same_sentinel] is [errors.Is]. *)
Class Crypto (E : Type) := {
  KeyRing : Type;
  Entity : Type;
  ReadArmoredKeyRing : bytes → E + KeyRing;
  CheckArmoredDetachedSignature : KeyRing → bytes → bytes → E + Entity;
  KeyIdString : Entity → bytes;
  SshSig : Type;
  PublicKey : Type;
  Unarmor : bytes → E + SshSig;
  sshsig_Verify : bytes → SshSig → PublicKey → bytes → option E;
  ParseAuthorizedKey : bytes → E + PublicKey;
  FingerprintSHA256 : PublicKey → bytes;
  errors_Is : E → E → bool }.

Section signatures.
Context {E : Type} `{!Crypto E}.

(** [src/git/signature/errors.go:21-50 ErrSignatureEmpty] *)
Inductive sig_err :=
  | ErrSignatureEmpty
  | ErrPayloadEmpty
  | ErrSignatureFormat (detected : bytes)
  | ErrUnarmor (e : E)
  | ErrReadKeys (e : E)
  | ErrNoMatchingKey (causes : list E).

(** The loop over the key rings, with the first error of reading one and
    whether a signature was checked.
    [src/git/signature/gpg_signature.go:62-91 VerifyPGPSignature] *)
Fixpoint pgp_loop (signature payload : bytes) (readKeyRingError : option E) (verifyAttempted : bool) (keyRings : list bytes) : sig_err + bytes :=
  match keyRings with
  | [] => match verifyAttempted, readKeyRingError with
          | false, Some e => inl (ErrReadKeys e)
          | _, _ => inl (ErrNoMatchingKey [])
          end
  | r :: rs =>
      match ReadArmoredKeyRing r with
      | inl e => pgp_loop signature payload (match readKeyRingError with None => Some e | Some e0 => Some e0 end) verifyAttempted rs
      | inr keyring =>
          match CheckArmoredDetachedSignature keyring payload signature with
          | inr signer => inr (KeyIdString signer)
          | inl _ => pgp_loop signature payload readKeyRingError true rs
          end
      end
  end.

(** [src/git/signature/gpg_signature.go:41-92 VerifyPGPSignature] *)
Definition VerifyPGPSignature (signature payload : bytes) (keyRings : list bytes) : sig_err + bytes :=
  let signature := strings_TrimSpace signature in
  if empty signature then inl ErrSignatureEmpty
  else if empty payload then inl ErrPayloadEmpty
  else if negb (IsPGPSignature signature) then inl (ErrSignatureFormat (GetSignatureType signature))
  else pgp_loop signature payload None false keyRings.

(** [strings.Lines]: the lines with their ends; the end is trimmed below.
    [src/git/signature/ssh_signature.go:37-68 ParseAuthorizedKeys] *)
Fixpoint parse_keys_loop (lines : list bytes) (publicKeys : list PublicKey) : E + list PublicKey :=
  match lines with
  | [] => inr publicKeys
  | line :: lines =>
      let line := strings_TrimSpace line in
      if empty line || HasPrefix line (str "#") then parse_keys_loop lines publicKeys
      else match ParseAuthorizedKey line with
           | inl e => inl e
           | inr pubKey => parse_keys_loop lines (publicKeys ++ [pubKey])
           end
  end.
(** [src/git/signature/ssh_signature.go:37-68 ParseAuthorizedKeys] *)
Definition ParseAuthorizedKeys (authorizedKeys : bytes) : E + list PublicKey :=
  parse_keys_loop (strings_Split authorizedKeys newline) [].

(** [src/git/signature/ssh_signature.go:233-244 appendUniqueSentinel] *)
Definition appendUniqueSentinel (dst : list E) (err : E) : list E :=
  if existsb (λ existing, errors_Is existing err) dst then dst else dst ++ [err].

Definition SSHSignatureNamespace : bytes := str "git".

(** The loop over the keys of one input: a fingerprint, or the errors so far.
    [src/git/signature/ssh_signature.go:118-127 VerifySSHSignature] *)
Fixpoint keys_verify (payload : bytes) (sig : SshSig) (verifyErrors : list E) (keys : list PublicKey) : list E + bytes :=
  match keys with
  | [] => inl verifyErrors
  | pubKey :: keys =>
      match sshsig_Verify payload sig pubKey SSHSignatureNamespace with
      | None => inr (FingerprintSHA256 pubKey)
      | Some e => keys_verify payload sig (appendUniqueSentinel verifyErrors e) keys
      end
  end.

(** [src/git/signature/ssh_signature.go:97-140 VerifySSHSignature] *)
Fixpoint ssh_loop (payload : bytes) (sig : SshSig) (readError : option E) (verifyAttempted : bool) (verifyErrors : list E)
    (authorizedKeys : list bytes) : sig_err + bytes :=
  match authorizedKeys with
  | [] => match verifyAttempted, readError with
          | false, Some e => inl (ErrReadKeys e)
          | _, _ => inl (ErrNoMatchingKey verifyErrors)
          end
  | keys :: rest =>
      match ParseAuthorizedKeys keys with
      | inl e => ssh_loop payload sig (match readError with None => Some e | Some e0 => Some e0 end) verifyAttempted verifyErrors rest
      | inr publicKeys =>
          match keys_verify payload sig verifyErrors publicKeys with
          | inr fingerprint => inr fingerprint
          | inl verifyErrors => ssh_loop payload sig readError true verifyErrors rest
          end
      end
  end.

(** [src/git/signature/ssh_signature.go:70-140 VerifySSHSignature] *)
Definition VerifySSHSignature (signature payload : bytes) (authorizedKeys : list bytes) : sig_err + bytes :=
  let signature := strings_TrimSpace signature in
  if empty signature then inl ErrSignatureEmpty
  else if empty payload then inl ErrPayloadEmpty
  else if negb (IsSSHSignature signature) then inl (ErrSignatureFormat (GetSignatureType signature))
  else match Unarmor signature with
       | inl e => inl (ErrUnarmor e)
       | inr sig => ssh_loop payload sig None false [] authorizedKeys
       end.

(** The errors of the methods wrap these.
    [src/git/git.go:132-143 Commit.VerifyPGP] *)
Definition Commit_VerifyPGP (c : Commit) (keyRings : list bytes) : sig_err + bytes :=
  VerifyPGPSignature (c_Signature c) (default [] (c_Encoded c)) keyRings.
(** [src/git/git.go:145-157 Commit.VerifySSH] *)
Definition Commit_VerifySSH (c : Commit) (authorizedKeys : list bytes) : sig_err + bytes :=
  VerifySSHSignature (c_Signature c) (default [] (c_Encoded c)) authorizedKeys.
(** [src/git/git.go:199-208 Tag.VerifyPGP] *)
Definition Tag_VerifyPGP (t : Tag) (keyRings : list bytes) : sig_err + bytes :=
  VerifyPGPSignature (t_Signature t) (default [] (t_Encoded t)) keyRings.
(** [src/git/git.go:210-219 Tag.VerifySSH] *)
Definition Tag_VerifySSH (t : Tag) (authorizedKeys : list bytes) : sig_err + bytes :=
  VerifySSHSignature (t_Signature t) (default [] (t_Encoded t)) authorizedKeys.
End signatures.
Arguments sig_err : clear implicits.
