(* ===== verification/GitClient.v ===== *)
(** * The Git client ([git/gogit], [git/internal/build])

    The client clones, switches branches, commits and pushes through go-git.
    Its methods are programs ([Interaction]) over the calls to go-git and to the
    file system; they pass the client along.  A repository is what go-git
    returns, here any value. *)

From S2P Require Import Prelude Utf8 GoPath GoText GoStd Interaction ApisMeta KnownHosts Git.

(** ** Options of a clone and of a push ([git/repository/options.go]) *)

(** [src/git/repository/options.go:76-97 CheckoutStrategy] *)
Record CheckoutStrategy := mkStrategy {
  Branch : bytes; cs_Tag : bytes; SemVer : bytes; RefName : bytes; cs_Commit : bytes }.
(** [src/git/repository/options.go:31-58 CloneConfig] *)
Record CloneConfig := mkCloneConfig {
  strategy : CheckoutStrategy; RecurseSubmodules : bool; LastObservedCommit : bytes; ShallowClone : bool;
  SparseCheckoutDirectories : list bytes }.
(** [src/git/repository/options.go:60-74 PushConfig] *)
Record PushConfig := mkPushConfig { Refspecs : list bytes; Force : bool; Options : gmap bytes bytes }.

(** ** References of go-git *)

Definition NewBranchReferenceName (n : bytes) : bytes := str "refs/heads/" ++ n.
Definition NewTagReferenceName (n : bytes) : bytes := str "refs/tags/" ++ n.
Definition NewRemoteReferenceName (remote n : bytes) : bytes := str "refs/remotes/" ++ remote ++ sep :: n.
Definition IsBranch (r : bytes) : bool := HasPrefix r (str "refs/heads/").
Definition IsTag (r : bytes) : bool := HasPrefix r (str "refs/tags/").
Definition HEAD : bytes := str "HEAD".
Definition tagDereferenceSuffix : bytes := str "^{}".

(** A reference: its name and its hash in hexadecimal. *)
Record Reference := mkRef { r_Name : bytes; r_Hash : bytes }.

(** The objects of commits and tags that go-git returns; [EncodeWithoutSignature]
    and the reading of the result are in the field [o_Encoded]. *)
Record object {E : Type} := mkObject {
  o_Hash : bytes; o_Name : bytes; o_Author : Signature; o_Committer : Signature; o_PGPSignature : bytes;
  o_Encoded : E + bytes; o_Message : bytes }.
Arguments object : clear implicits.
Arguments mkObject {_} _ _ _ _ _ _ _.

(** ** Transport ([transport.go]) *)

(** The errors of go-git and its SSH transport, with their texts and those that
    are compared; the short form of a reference; the parsing of URLs; the use
    of the machine's own SSH agent and known hosts. *)
Class GoGit (E : Type) := {
  Error : E → bytes;
  is_ErrRepositoryNotFound : E → bool;
  is_ErrEmptyRemoteRepository : E → bool;
  is_ErrReferenceNotFound : E → bool;
  is_ErrObjectNotFound : E → bool;
  Short : bytes → bytes;
  url_Parse : bytes → E + URL;
  PublicKeys : Type;
  NewPublicKeys : bytes → bytes → bytes → E + PublicKeys;
  DefaultAuthBuilder : bytes → E + option PublicKeys }.

Section client.
Context {E K Repo Proxy Signer : Type} `{!GoGit E} `{!Ssh K}.

(** An authentication method; the callback of custom keys is the database of
    known hosts, with the algorithms of its keys.
    [src/git/gogit/transport.go:113-119 CustomPublicKeys] *)
Inductive AuthMethod :=
  | NoAuth
  | BasicAuth (username password : bytes)
  | TokenAuth (token : bytes)
  | DefaultAuth (pk : PublicKeys)
  | CustomPublicKeys (pk : PublicKeys) (callback : option (inMemoryHostKeyDB K)) (hkAlgos : gset bytes).

(** The errors, with what they wrap. *)
Inductive gerr :=
  | EGit (e : E)
  | ENoTransport
  | EUnknownTransport (t : bytes)
  | EKnownHosts (e : kh_err)
  | EParseURL (e : E)
  | EBothCredentials
  | ECredentialsInURL
  | EBasicOverHTTP
  | EBearerOverHTTP
  | ENoAuthOptions
  | EAuthMethod (e : gerr)
  | EInvalidRef (ref : bytes)
  | EList (e : E)
  | ErrRepositoryNotFound (message url : bytes)
  | EClone (url : bytes) (e : gerr)
  | EWorktree (e : E)
  | ECheckout (what : bytes) (e : E)
  | EResolveHead (what : bytes) (e : E)
  | EResolveCommit (what : bytes) (e : E)
  | EFindTag (tag : bytes) (e : E)
  | ETagObject (tag : bytes) (e : E)
  | EListTags (e : E)
  | EResolveTag (e : E)
  | ESemver (e : E)
  | ENoMatch (semverTag : bytes)
  | EResolveRef (refName : bytes)
  | EEncode (name : bytes) (e : E)
  | ErrNoGitRepository
  | ErrNoStagedFiles (head : bytes)
  | EReference (branch : bytes) (e : E)
  | ESetReference (hash : bytes) (e : E)
  | EPush (e : E)
  | EInvalidPath (path : bytes) (e : E)
  | ENilStorer
  | ENilWorktree
  | EPanic.

(** Known hosts that do not parse are an error; a line that makes their parser
    panic would end the process.
    [src/git/gogit/transport.go:31-93 transportAuth] *)
Definition transportAuth (opts : option AuthOptions) (fallbackToDefaultKnownHosts : bool) : gerr + AuthMethod :=
  match opts with
  | None => inr NoAuth
  | Some o =>
      if is_http (Transport o) then
        if negb (empty (Username o)) || negb (empty (Password o)) then inr (BasicAuth (Username o) (Password o))
        else if negb (empty (BearerToken o)) then inr (TokenAuth (BearerToken o))
        else inr NoAuth
      else if bool_decide (Transport o = SSH) then
        if empty (Identity o) && empty (KnownHosts o) && fallbackToDefaultKnownHosts then
          match DefaultAuthBuilder (Username o) with
          | inl e => inl (EGit e)
          | inr (Some pk) => inr (DefaultAuth pk)
          | inr None => inr NoAuth
          end
        else match NewPublicKeys (Username o) (Identity o) (Password o) with
             | inl e => inl (EGit e)
             | inr pk =>
                 if empty (KnownHosts o) then inr (CustomPublicKeys pk None ∅)
                 else match KnownHosts_New (KnownHosts o) with
                      | Panics => inl EPanic
                      | Val (inl e) => inl (EKnownHosts e)
                      | Val (inr (db, hkAlgos)) => inr (CustomPublicKeys pk (Some db) hkAlgos)
                      end
             end
      else if empty (Transport o) then inl ENoTransport
      else inl (EUnknownTransport (Transport o))
  end.

(** [src/git/gogit/transport.go:95-101 clientCert] *)
Definition clientCert (o : option AuthOptions) : bytes := default [] (ClientCert <$> o).
(** [src/git/gogit/transport.go:103-109 clientKey] *)
Definition clientKey (o : option AuthOptions) : bytes := default [] (ClientKey <$> o).
(** [src/git/gogit/transport.go:111-117 caBundle] *)
Definition caBundle (o : option AuthOptions) : bytes := default [] (CAFile <$> o).

(** The host key algorithms of a connection: those of the keys that are known,
    with the newer ones for RSA first, unless the process has set its own.
    [src/git/gogit/transport.go:129-155 CustomPublicKeys.ClientConfig] *)
Definition HostKeyAlgorithms (gitHostKeyAlgos hkAlgos : list bytes) : list bytes :=
  let a := if bool_decide (hkAlgos = [str "ssh-rsa"]) then [str "rsa-sha2-512"; str "rsa-sha2-256"; str "ssh-rsa"] else hkAlgos in
  match gitHostKeyAlgos with [] => a | l => l end.

(** ** The client ([client.go]) *)

(** Where git objects and the work tree are kept. *)
Inductive place := OnDisk (dir : bytes) | InMemory | Provided (id : positive).

(** [src/git/gogit/client.go:69-82 Client] *)
Record Client := mkClient {
  path : bytes; repository : option Repo; authOpts : option AuthOptions; storer : option place; worktreeFS : option place;
  credentialsOverHTTP : bool; useDefaultKnownHosts : bool; singleBranch : bool; proxy : Proxy;
  sparse : list bytes }.

Definition set_repository (g : Client) (r : Repo) : Client :=
  mkClient (path g) (Some r) (authOpts g) (storer g) (worktreeFS g) (credentialsOverHTTP g) (useDefaultKnownHosts g) (singleBranch g) (proxy g) (sparse g).
Definition set_cloned (g : Client) (r : Repo) (dirs : list bytes) : Client :=
  mkClient (path g) (Some r) (authOpts g) (storer g) (worktreeFS g) (credentialsOverHTTP g) (useDefaultKnownHosts g) (singleBranch g) (proxy g) dirs.

(** [src/git/gogit/client.go:122-208 ClientOption] *)
Inductive ClientOption :=
  | WithStorer (s : option place)
  | WithWorkTreeFS (wt : option place)
  | WithSingleBranch (b : bool)
  | WithDiskStorage
  | WithMemoryStorage
  | WithInsecureCredentialsOverHTTP
  | WithFallbackToDefaultKnownHosts
  | WithProxy (p : Proxy).

(** [src/git/gogit/client.go:122-208 ClientOption] *)
Definition apply_option (c : Client) (o : ClientOption) : Client :=
  let '(mkClient pa re au st wt cr kn si pr sp) := c in
  match o with
  | WithStorer s => mkClient pa re au s wt cr kn si pr sp
  | WithWorkTreeFS w => mkClient pa re au st w cr kn si pr sp
  | WithSingleBranch b => mkClient pa re au st wt cr kn b pr sp
  | WithDiskStorage => mkClient pa re au (Some (OnDisk (filepath_Join [pa; str ".git"]))) (Some (OnDisk pa)) cr kn si pr sp
  | WithMemoryStorage => mkClient pa re au (Some InMemory) (Some InMemory) cr kn si pr sp
  | WithInsecureCredentialsOverHTTP => mkClient pa re au st wt true kn si pr sp
  | WithFallbackToDefaultKnownHosts => mkClient pa re au st wt cr true si pr sp
  | WithProxy p => mkClient pa re au st wt cr kn si p sp
  end.

(** [noProxy] is the empty value of the options of a proxy.
    [src/git/gogit/client.go:88-120 NewClient] *)
Definition NewClient (getwd : E + bytes) (SecureJoin : bytes → bytes → E + bytes) (noProxy : Proxy)
    (p : bytes) (auth : option AuthOptions) (clientOpts : list ClientOption) : gerr + Client :=
  match SecurePath getwd SecureJoin p with
  | inl e => inl (EInvalidPath p e)
  | inr securePath =>
      let opts := match clientOpts with [] => [WithDiskStorage] | l => l end in
      let g := foldl apply_option (mkClient securePath None auth None None false false true noProxy []) opts in
      match storer g, worktreeFS g with
      | None, _ => inl ENilStorer
      | Some _, None => inl ENilWorktree
      | Some _, Some _ => inr g
      end
  end.

Inductive TagMode := NoTags | TagFollowing | AllTags.

(** The options of go-git.  The URL, the authentication and the certificates
    are those of the remote, the rest says what is fetched. *)
Record Remote := mkRemote {
  rm_URL : bytes; rm_Auth : AuthMethod; rm_ClientCert : bytes; rm_ClientKey : bytes; rm_CABundle : bytes; rm_Proxy : Proxy }.
Record CloneOptions := mkCloneOptions {
  cl_Remote : Remote; cl_ReferenceName : bytes; cl_SingleBranch : bool; cl_NoCheckout : bool; cl_Depth : nat;
  cl_RecurseSubmodules : bool; cl_Tags : TagMode }.
Inductive target := TBranch (ref : bytes) (create : bool) | THash (hash : bytes).

(** The calls.  The name of the remote is always the same. *)
Inductive gcall :=
  | GList (r : Remote)
  | GClone (storer worktree : option place) (o : CloneOptions)
  | GRemoveAll (path : bytes)
  | GInit (storer worktree : option place)
  | GCreateRemote (r : Repo) (url : bytes)
  | GCreateBranch (r : Repo) (branch merge : bytes)
  | GSetSymbolic (r : Repo) (name target : bytes)
  | GSetReference (r : Repo) (name hash : bytes)
  | GReference (r : Repo) (name : bytes)
  | GWorktree (r : Repo)
  | GCheckout (r : Repo) (t : target) (force : bool) (sparse : list bytes)
  | GHead (r : Repo)
  | GCommitObject (r : Repo) (hash : bytes)
  | GTag (r : Repo) (tag : bytes)
  | GTagObject (r : Repo) (hash : bytes)
  | GTags (r : Repo)
  | GResolveRevision (r : Repo) (revision : bytes)
  | GWriteFile (path content : bytes)
  | GStatus (r : Repo)
  | GAdd (r : Repo) (file : bytes)
  | GCommit (r : Repo) (message : bytes) (name email : bytes) (signer : option Signer)
  | GPush (r : Repo) (remote : Remote) (refspecs : list bytes) (force : bool) (options : gmap bytes bytes).

(** Each call reads its part of the answer; there is no answer with an error.
    The references of [GTags] and the files of [GStatus] come in the order of
    the iteration. *)
Record greply := mkReply {
  gr_err : option E; gr_refs : list Reference; gr_repo : Repo; gr_ref : Reference; gr_hash : bytes;
  gr_object : object E; gr_files : list bytes; gr_clean : bool }.

Abbreviation gprog := (prog gcall greply).

(** A call whose error ends the method. *)
Definition ask {A : Type} (c : gcall) (wrap : E → gerr) (k : greply → gprog (Client * (gerr + A))) (g : Client) : gprog (Client * (gerr + A)) :=
  Call c (λ r, match gr_err r with Some e => Ret (g, inl (wrap e)) | None => k r end).

Definition fail {A : Type} (g : Client) (e : gerr) : gprog (Client * (gerr + A)) := Ret (g, inl e).

(** [src/git/gogit/client.go:278-313 Client.validateUrlAndAuthOptions] *)
Definition validateUrlAndAuthOptions (g : Client) (u : bytes) : option gerr :=
  match url_Parse u with
  | inl e => Some (EParseURL e)
  | inr ru =>
      let both := match authOpts g with
                  | None => false
                  | Some o => is_http (Transport o) && negb (empty (BearerToken o)) &&
                              (negb (empty (Username o)) || negb (empty (Password o)))
                  end in
      if both then Some EBothCredentials
      else if credentialsOverHTTP g then None
      else
        let httpOrEmpty := bool_decide (u_Scheme ru = HTTP) || empty (u_Scheme ru) in
        if httpOrEmpty && bool_decide (is_Some (u_User ru)) then Some ECredentialsInURL
        else if httpOrEmpty then
          match authOpts g with
          | None => None
          | Some o => if negb (empty (Username o)) || negb (empty (Password o)) then Some EBasicOverHTTP
                      else if negb (empty (BearerToken o)) then Some EBearerOverHTTP
                      else None
          end
        else None
  end.

(** [src/git/gogit/client.go:209-248 Client.Init] *)
Definition Init (g : Client) (url branch : bytes) : gprog (Client * option gerr) :=
  match validateUrlAndAuthOptions g url with
  | Some e => Ret (g, Some e)
  | None =>
      if bool_decide (is_Some (const () <$> repository g)) then Ret (g, None)
      else Call (GInit (storer g) (worktreeFS g)) (λ r, match gr_err r with Some e => Ret (g, Some (EGit e)) | None =>
        let repo := gr_repo r in
        Call (GCreateRemote repo url) (λ r, match gr_err r with Some e => Ret (g, Some (EGit e)) | None =>
          let branchRef := NewBranchReferenceName branch in
          Call (GCreateBranch repo branch branchRef) (λ r, match gr_err r with Some e => Ret (g, Some (EGit e)) | None =>
            Call (GSetSymbolic repo HEAD branchRef) (λ r, match gr_err r with Some e => Ret (g, Some (EGit e)) | None =>
              Ret (set_repository g repo, None)
            end) end) end) end)
  end.

(** ** Building commits ([internal/build]) *)

(** [src/git/internal/build/build.go:40-68 Tag] *)
Definition build_Tag (t : option (object E)) (ref : bytes) : gerr + Tag :=
  match t with
  | None => inr (mkTag None (Short ref) zeroSignature [] None [])
  | Some t =>
      match o_Encoded t with
      | inl e => inl (EEncode (o_Name t) e)
      | inr b => inr (mkTag (Some (o_Hash t)) (o_Name t) (o_Author t) (o_PGPSignature t) (Some b) (o_Message t))
      end
  end.

(** [src/git/internal/build/build.go:70-106 CommitWithRef] *)
Definition CommitWithRef (c : object E) (t : option (object E)) (ref : bytes) : gerr + Commit :=
  match o_Encoded c with
  | inl e => inl (EEncode (o_Hash c) e)
  | inr b =>
      let cc tag := mkCommit (Some (o_Hash c)) ref (o_Author c) (o_Committer c) (o_PGPSignature c) (Some b) (o_Message c) tag in
      if IsTag ref then match build_Tag t ref with inl e => inl e | inr tg => inr (cc (Some tg)) end
      else inr (cc None)
  end.

(** ** Cloning ([clone.go]) *)

(** The loop over the references, with the fallback.
    [src/git/gogit/clone.go:531-574 filterRefs] *)
Fixpoint filter_loop (currentRef : bytes) (fallback : option Reference) (refs : list Reference) : bytes :=
  match refs with
  | [] => match fallback with
          | Some r => currentRef ++ "@"%char :: Digest (Some (r_Hash r))
          | None => []
          end
  | r :: refs =>
      if bool_decide (r_Name r = currentRef) then
        if negb (IsTag currentRef) || HasSuffix currentRef tagDereferenceSuffix
        then currentRef ++ "@"%char :: Digest (Some (r_Hash r))
        else filter_loop currentRef (Some r) refs
      else if bool_decide (r_Name r = currentRef ++ tagDereferenceSuffix)
      then currentRef ++ "@"%char :: Digest (Some (r_Hash r))
      else filter_loop currentRef fallback refs
  end.
(** [src/git/gogit/clone.go:531-574 filterRefs] *)
Definition filterRefs (refs : list Reference) (currentRef : bytes) : bytes := filter_loop currentRef None refs.

(** [src/git/gogit/clone.go:576-578 isRemoteBranchNotFoundErr] *)
Definition isRemoteBranchNotFoundErr (err : E) (ref : bytes) : bool :=
  strings_Contains (Error err) (str "couldn't find remote ref '" ++ ref ++ str "'").

Definition remote_of (g : Client) (url : bytes) (auth : AuthMethod) : Remote :=
  mkRemote url auth (clientCert (authOpts g)) (clientKey (authOpts g)) (caBundle (authOpts g)) (proxy g).

(** [src/git/gogit/clone.go:501-503 Client.getRemoteHEAD] *)
Definition getRemoteHEAD {A : Type} (g : Client) (url ref : bytes) (authMethod : AuthMethod)
    (k : bytes → gprog (Client * (gerr + A))) : gprog (Client * (gerr + A)) :=
  if HasPrefix ref (str "/") || HasSuffix ref (str "/") then fail g (EInvalidRef ref)
  else ask (GList (remote_of g url authMethod)) EList (λ r, k (filterRefs (gr_refs r) ref)) g.

Definition depth_of (opts : CloneConfig) : nat := if ShallowClone opts then 1 else 0.
Definition is_sparse (opts : CloneConfig) : bool := negb (bool_decide (SparseCheckoutDirectories opts = [])).

(** The commit without content for what was observed before. *)
Definition partialCommit (hash : Hash) (ref : bytes) : Commit :=
  mkCommit hash ref zeroSignature zeroSignature [] None [] None.

(** [src/git/gogit/clone.go:51-68 Client.cloneBranch]
    [LastObservedCommit] is compared with the short form of the remote's
    reference; [k] goes on when it differs. *)
Definition unless_observed (g : Client) (url name ref : bytes) (authMethod : AuthMethod) (opts : CloneConfig)
    (k : gprog (Client * (gerr + option Commit))) : gprog (Client * (gerr + option Commit)) :=
  let lastObserved := TransformRevision (LastObservedCommit opts) in
  if empty lastObserved then k
  else getRemoteHEAD g url ref authMethod (λ head,
    let hash := ExtractHashFromRevision head in
    let shortRef := name ++ "@"%char :: Digest hash in
    if negb (empty head) && bool_decide (shortRef = lastObserved)
    then Ret (g, inr (Some (partialCommit hash ref)))
    else k).

Definition not_found (err : E) (url : bytes) : gerr := ErrRepositoryNotFound (str "unable to clone: " ++ Error err) url.

(** The end of a clone: the commit object of HEAD becomes the commit.
    [src/git/gogit/clone.go:128-137 Client.cloneBranch] *)
Definition head_commit {A : Type} (g : Client) (repo : Repo) (what : bytes)
    (k : object E → gprog (Client * (gerr + A))) : gprog (Client * (gerr + A)) :=
  ask (GHead repo) (EResolveHead what) (λ r,
    let h := r_Hash (gr_ref r) in
    ask (GCommitObject repo h) (EResolveCommit h) (λ r, k (gr_object r)) g) g.

Definition finish (g : Client) (repo : Repo) (opts : CloneConfig) (cc : object E) (tagObj : option (object E)) (ref : bytes)
    : gprog (Client * (gerr + option Commit)) :=
  Ret (set_cloned g repo (SparseCheckoutDirectories opts),
       match CommitWithRef cc tagObj ref with inl e => inl e | inr c => inr (Some c) end).

(** [src/git/gogit/clone.go:114-126 Client.cloneBranch] *)
Definition sparse_checkout {A : Type} (g : Client) (repo : Repo) (opts : CloneConfig) (ref what : bytes)
    (k : gprog (Client * (gerr + A))) : gprog (Client * (gerr + A)) :=
  if is_sparse opts then
    ask (GWorktree repo) EWorktree (λ _,
      ask (GCheckout repo (TBranch ref false) false (SparseCheckoutDirectories opts)) (ECheckout what) (λ _, k) g) g
  else k.

(** A remote without commits is no error: a repository is initialised, and there
    is no commit.
    [src/git/gogit/clone.go:42-139 Client.cloneBranch] *)
Definition cloneBranch (g : Client) (url branch : bytes) (opts : CloneConfig) : gprog (Client * (gerr + option Commit)) :=
  match authOpts g with
  | None => fail g ENoAuthOptions
  | Some _ =>
      match transportAuth (authOpts g) (useDefaultKnownHosts g) with
      | inl e => fail g (EAuthMethod e)
      | inr authMethod =>
          let ref := NewBranchReferenceName branch in
          unless_observed g url branch ref authMethod opts
            (Call (GClone (storer g) (worktreeFS g) (mkCloneOptions (remote_of g url authMethod) ref (singleBranch g) (is_sparse opts) (depth_of opts) (RecurseSubmodules opts) NoTags)) (λ r,
               match gr_err r with
               | Some e =>
                   if is_ErrRepositoryNotFound e || isRemoteBranchNotFoundErr e ref then fail g (not_found e url)
                   else if is_ErrEmptyRemoteRepository e then
                     Call (GRemoveAll (path g)) (λ r, match gr_err r with
                       | Some e => fail g (EClone url (EGit e))
                       | None => '(g, err) ← Init g url branch;
                                 match err with None => Ret (g, inr None) | Some e => fail g (EClone url e) end
                       end)
                   else fail g (EClone url (EGit e))
               | None =>
                   let repo := gr_repo r in
                   sparse_checkout g repo opts ref branch
                     (head_commit g repo branch (λ cc, finish g repo opts cc None ref))
               end))
      end
  end.

(** A tag that is no object of its own is a lightweight tag.
    [src/git/gogit/clone.go:231-234 Client.cloneTag] *)
Definition tag_object {A : Type} (g : Client) (repo : Repo) (tag hash : bytes)
    (k : option (object E) → gprog (Client * (gerr + A))) : gprog (Client * (gerr + A)) :=
  Call (GTagObject repo hash) (λ r, match gr_err r with
    | Some e => if is_ErrObjectNotFound e then k None else fail g (ETagObject tag e)
    | None => k (Some (gr_object r))
    end).

(** [src/git/gogit/clone.go:141-239 Client.cloneTag] *)
Definition cloneTag (g : Client) (url tag : bytes) (opts : CloneConfig) : gprog (Client * (gerr + option Commit)) :=
  match authOpts g with
  | None => fail g ENoAuthOptions
  | Some _ =>
      match transportAuth (authOpts g) (useDefaultKnownHosts g) with
      | inl e => fail g (EAuthMethod e)
      | inr authMethod =>
          let ref := NewTagReferenceName tag in
          unless_observed g url tag ref authMethod opts
            (Call (GClone (storer g) (worktreeFS g) (mkCloneOptions (remote_of g url authMethod) ref (singleBranch g) (is_sparse opts) (depth_of opts) (RecurseSubmodules opts) TagFollowing)) (λ r,
               match gr_err r with
               | Some e =>
                   if is_ErrEmptyRemoteRepository e || is_ErrRepositoryNotFound e || isRemoteBranchNotFoundErr e ref
                   then fail g (not_found e url) else fail g (EClone url (EGit e))
               | None =>
                   let repo := gr_repo r in
                   sparse_checkout g repo opts ref tag
                     (head_commit g repo tag (λ cc,
                        ask (GTag repo tag) (EFindTag tag) (λ r,
                          tag_object g repo tag (r_Hash (gr_ref r)) (λ tagObj, finish g repo opts cc tagObj ref)) g))
               end))
      end
  end.

(** [plumbing.NewHash] reads a hash from its hexadecimal text; the text is
    passed here.
    [src/git/gogit/clone.go:241-308 Client.cloneCommit] *)
Definition cloneCommit (g : Client) (url commit : bytes) (opts : CloneConfig) : gprog (Client * (gerr + option Commit)) :=
  match transportAuth (authOpts g) (useDefaultKnownHosts g) with
  | inl e => fail g (EAuthMethod e)
  | inr authMethod =>
      let tagStrategy := if IsTag (RefName (strategy opts)) && negb (HasSuffix (RefName (strategy opts)) tagDereferenceSuffix)
                         then TagFollowing else NoTags in
      let '(single, ref) := if empty (Branch (strategy opts)) then (false, [])
                            else (singleBranch g, NewBranchReferenceName (Branch (strategy opts))) in
      Call (GClone (storer g) (worktreeFS g) (mkCloneOptions (remote_of g url authMethod) ref single (is_sparse opts) 0 (RecurseSubmodules opts) tagStrategy)) (λ r,
        match gr_err r with
        | Some e =>
            if is_ErrEmptyRemoteRepository e || is_ErrRepositoryNotFound e || isRemoteBranchNotFoundErr e ref
            then fail g (not_found e url) else fail g (EClone url (EGit e))
        | None =>
            let repo := gr_repo r in
            ask (GWorktree repo) EWorktree (λ _,
              ask (GCommitObject repo commit) (EResolveCommit commit) (λ r,
                let cc := gr_object r in
                ask (GCheckout repo (THash (o_Hash cc)) true (SparseCheckoutDirectories opts)) (ECheckout commit) (λ _,
                  let ref := if empty (RefName (strategy opts)) then ref else RefName (strategy opts) in
                  finish g repo opts cc None ref) g) g) g
        end)
  end.

(** ** Cloning by version and by reference *)

(** [semver] of another package. *)
Context `{!Semver} `{!SortFunc} (Equal : Version → Version → bool) (NewConstraint : bytes → E + (Version → bool)).
(** The order in which a map is iterated. *)
Context (range : gmap bytes Z → list bytes).

(** [time.Time{}], in nanoseconds. *)
Definition zero_time : Z := -62135596800000000000.

(** The loop over the tags: the time of the commit of each, by the short name.
    [src/git/gogit/clone.go:355-373 Client.cloneSemVer] *)
Fixpoint tags_loop {A : Type} (g : Client) (repo : Repo) (refs : list Reference) (tagTimestamps : gmap bytes Z)
    (k : gmap bytes Z → gprog (Client * (gerr + A))) : gprog (Client * (gerr + A)) :=
  match refs with
  | [] => k tagTimestamps
  | t :: refs =>
      ask (GResolveRevision repo (r_Name t)) EResolveTag (λ r,
        ask (GCommitObject repo (gr_hash r)) EResolveTag (λ r,
          tags_loop g repo refs (<[Short (r_Name t) := sg_When (o_Committer (gr_object r))]> tagTimestamps) k) g) g
  end.

(** [src/git/gogit/clone.go:391-404 Client.cloneSemVer] *)
Definition version_less (tagTimestamps : gmap bytes Z) (left right : Version) : bool :=
  if negb (Equal left right) then LessThan left right
  else let when v := default zero_time (tagTimestamps !! Original v) in (when left <? when right)%Z.

(** The versions of the tags that satisfy the constraint.
    [src/git/gogit/clone.go:375-385 Client.cloneSemVer] *)
Definition matchedVersions (check : Version → bool) (tags : list bytes) : list Version :=
  omap (λ tag, match ParseVersion tag with
               | Some v => if check v then Some v else None
               | None => None
               end) tags.

(** The versions are in the order of a map, so that it does not matter that the
    sort is stable.
    [src/git/gogit/clone.go:310-442 Client.cloneSemVer] *)
Definition cloneSemVer (g : Client) (url semverTag : bytes) (opts : CloneConfig) : gprog (Client * (gerr + option Commit)) :=
  match NewConstraint semverTag with
  | inl e => fail g (ESemver e)
  | inr verConstraint =>
      match transportAuth (authOpts g) (useDefaultKnownHosts g) with
      | inl e => fail g (EAuthMethod e)
      | inr authMethod =>
          Call (GClone (storer g) (worktreeFS g) (mkCloneOptions (remote_of g url authMethod) [] false (is_sparse opts) (depth_of opts) (RecurseSubmodules opts) AllTags)) (λ r,
            match gr_err r with
            | Some e => if is_ErrEmptyRemoteRepository e || is_ErrRepositoryNotFound e
                        then fail g (not_found e url) else fail g (EClone url (EGit e))
            | None =>
                let repo := gr_repo r in
                ask (GTags repo) EListTags (λ r,
                  tags_loop g repo (gr_refs r) ∅ (λ tagTimestamps,
                    match List.rev (sort_Slice (version_less tagTimestamps) (matchedVersions verConstraint (range tagTimestamps))) with
                    | [] => fail g (ENoMatch semverTag)
                    | v :: _ =>
                        let t := Original v in
                        ask (GWorktree repo) EWorktree (λ _,
                          ask (GTag repo t) (EFindTag t) (λ r,
                            let tagRef := gr_ref r in
                            ask (GCheckout repo (TBranch (r_Name tagRef) false) false (SparseCheckoutDirectories opts)) (ECheckout t) (λ _,
                              head_commit g repo t (λ cc,
                                tag_object g repo t (r_Hash tagRef) (λ tagObj, finish g repo opts cc tagObj (r_Name tagRef)))) g) g) g
                    end)) g
            end)
      end
  end.

Definition with_reference (ref : bytes) (c : Commit) : Commit :=
  mkCommit (c_Hash c) ref (c_Author c) (c_Committer c) (c_Signature c) (c_Encoded c) (c_Message c) (c_ReferencingTag c).

Definition with_reference_result (ref : bytes) (r : gerr + option Commit) : gerr + option Commit :=
  match r with inl e => inl e | inr None => inr None | inr (Some c) => inr (Some (with_reference ref c)) end.

Definition unobserved (opts : CloneConfig) : CloneConfig :=
  mkCloneConfig (strategy opts) (RecurseSubmodules opts) [] (ShallowClone opts) (SparseCheckoutDirectories opts).

(** [src/git/gogit/clone.go:444-492 Client.cloneRefName] *)
Definition cloneRefName (g : Client) (url refName : bytes) (cloneOpts : CloneConfig) : gprog (Client * (gerr + option Commit)) :=
  match authOpts g with
  | None => fail g ENoAuthOptions
  | Some _ =>
      match transportAuth (authOpts g) (useDefaultKnownHosts g) with
      | inl e => fail g (EAuthMethod e)
      | inr authMethod =>
          getRemoteHEAD g url refName authMethod (λ head,
            if empty head then fail g (EResolveRef refName)
            else
              let hash := ExtractHashFromRevision head in
              let lastObserved := TransformRevision (LastObservedCommit cloneOpts) in
              if negb (empty lastObserved) && bool_decide (head = lastObserved)
              then Ret (g, inr (Some (partialCommit hash refName)))
              else if IsBranch refName then cloneBranch g url (Short refName) (unobserved cloneOpts)
              else if IsTag refName then
                '(g, r) ← cloneTag g url (Short (TrimSuffix refName tagDereferenceSuffix)) (unobserved cloneOpts);
                Ret (g, with_reference_result refName r)
              else cloneCommit g url (Hash_String hash) cloneOpts)
      end
  end.

(** [src/git/gogit/client.go:258-276 Client.clone] *)
Definition clone (g : Client) (url : bytes) (cfg : CloneConfig) : gprog (Client * (gerr + option Commit)) :=
  let s := strategy cfg in
  if negb (empty (cs_Commit s)) then cloneCommit g url (cs_Commit s) cfg
  else if negb (empty (RefName s)) then cloneRefName g url (RefName s) cfg
  else if negb (empty (cs_Tag s)) then cloneTag g url (cs_Tag s) cfg
  else if negb (empty (SemVer s)) then cloneSemVer g url (SemVer s) cfg
  else cloneBranch g url (if empty (Branch s) then DefaultBranch else Branch s) cfg.

(** [src/git/gogit/client.go:250-256 Client.Clone] *)
Definition Clone (g : Client) (url : bytes) (cfg : CloneConfig) : gprog (Client * (gerr + option Commit)) :=
  match validateUrlAndAuthOptions g url with
  | Some e => fail g e
  | None => clone g url cfg
  end.

(** ** Working on a clone *)

(** The files in the order in which the map is iterated; each is created and
    written.
    [src/git/gogit/client.go:315-328 Client.writeFile] *)
Fixpoint write_files (g : Client) (files : list (bytes * bytes)) (k : gprog (Client * (gerr + bytes))) : gprog (Client * (gerr + bytes)) :=
  match files with
  | [] => k
  | (path, content) :: files => ask (GWriteFile path content) EGit (λ _, write_files g files k) g
  end.

(** [_, _ = wt.Add(file)] *)
Fixpoint add_files (repo : Repo) (files : list bytes) (k : gprog (Client * (gerr + bytes))) : gprog (Client * (gerr + bytes)) :=
  match files with
  | [] => k
  | f :: files => Call (GAdd repo f) (λ _, add_files repo files k)
  end.

(** [ErrNoStagedFiles] comes with the hash of HEAD.
    [src/git/gogit/client.go:330-387 Client.Commit] *)
Definition client_Commit (g : Client) (info : Commit) (signer : option Signer) (files : list (bytes * bytes)) : gprog (Client * (gerr + bytes)) :=
  match repository g with
  | None => fail g ErrNoGitRepository
  | Some repo =>
      write_files g files
        (ask (GWorktree repo) EGit (λ _,
          ask (GStatus repo) EGit (λ r,
            match gr_files r with
            | [] => ask (GHead repo) EGit (λ r, fail g (ErrNoStagedFiles (r_Hash (gr_ref r)))) g
            | changed =>
                add_files repo changed
                  (ask (GCommit repo (c_Message info) (sg_Name (c_Author info)) (sg_Email (c_Author info)) signer) EGit
                    (λ r, Ret (g, inr (gr_hash r))) g)
            end) g) g)
  end.

(** The URL of a push is that of the remote in the repository; the options of the
    push have none.
    [src/git/gogit/client.go:389-434 Client.Push] *)
Definition Push (g : Client) (cfg : PushConfig) : gprog (Client * (gerr + ())) :=
  match repository g with
  | None => fail g ErrNoGitRepository
  | Some repo =>
      match transportAuth (authOpts g) (useDefaultKnownHosts g) with
      | inl e => fail g (EAuthMethod e)
      | inr authMethod =>
          let push refspecs :=
            ask (GPush repo (remote_of g [] authMethod) refspecs (Force cfg) (Options cfg)) EPush (λ _, Ret (g, inr ())) g in
          match Refspecs cfg with
          | [] => ask (GHead repo) EGit (λ r, push [r_Name (gr_ref r) ++ ":"%char :: r_Name (gr_ref r)]) g
          | refspecs => push refspecs
          end
      end
  end.

(** A reference that may be missing.
    [src/git/gogit/client.go:472-488 Client.SwitchBranch] *)
Definition find_reference {A : Type} (g : Client) (repo : Repo) (branchName name : bytes)
    (k : option Reference → gprog (Client * (gerr + A))) : gprog (Client * (gerr + A)) :=
  Call (GReference repo name) (λ r, match gr_err r with
    | Some e => if is_ErrReferenceNotFound e then k None else fail g (EReference branchName e)
    | None => k (Some (gr_ref r))
    end).

(** [src/git/gogit/client.go:436-516 Client.SwitchBranch] *)
Definition SwitchBranch (g : Client) (branchName : bytes) : gprog (Client * (gerr + ())) :=
  match repository g with
  | None => fail g ErrNoGitRepository
  | Some repo =>
      ask (GWorktree repo) EWorktree (λ _,
        find_reference g repo branchName (NewRemoteReferenceName DefaultRemote branchName) (λ remote,
          let refName := NewBranchReferenceName branchName in
          find_reference g repo branchName refName (λ local,
            let checkout create :=
              ask (GCheckout repo (TBranch refName create) false (sparse g)) (ECheckout branchName) (λ _, Ret (g, inr ())) g in
            match remote, local with
            | Some remRef, None => ask (GSetReference repo refName (r_Hash remRef)) (ESetReference (r_Hash remRef)) (λ _, checkout false) g
            | None, None => checkout true
            | _, Some _ => checkout false
            end))) g
  end.

(** [src/git/gogit/client.go:518-531 Client.IsClean] *)
Definition IsClean (g : Client) : gprog (Client * (gerr + bool)) :=
  match repository g with
  | None => fail g ErrNoGitRepository
  | Some repo => ask (GWorktree repo) EGit (λ _, ask (GStatus repo) EGit (λ r, Ret (g, inr (gr_clean r))) g) g
  end.

(** [src/git/gogit/client.go:533-542 Client.Head] *)
Definition client_Head (g : Client) : gprog (Client * (gerr + bytes)) :=
  match repository g with
  | None => fail g ErrNoGitRepository
  | Some repo => ask (GHead repo) EGit (λ r, Ret (g, inr (r_Hash (gr_ref r)))) g
  end.
End client.
