(* ===== verification/GitSpec.v ===== *)
(** * What the Git client guarantees

    Revisions and hashes ([Git]): what is printed is read back.  Signatures are
    accepted from the given keys only.  Cloning ([GitClient]): credentials are
    not sent over plain HTTP, and a commit that is returned is the one that was
    cloned, or the one that was observed before. *)

From S2P Require Import Prelude Utf8 GoPath GoText GoStd Interaction ApisMeta KnownHosts Git GitClient.

(** ** Revisions *)

(** The text of a hash has no separator of a revision. *)
Definition hash_ok (h : bytes) : Prop := h ≠ [] ∧ ("@"%char ∉ h) ∧ (":"%char ∉ h) ∧ (sep ∉ h).

Lemma Digest_parts h : hash_ok h → ∃ a, Digest (Some h) = a ++ ":"%char :: h ∧ ("@"%char ∉ a) ∧ (":"%char ∉ a) ∧ (sep ∉ a).
Proof.
  intros (Hne & _). unfold Digest, Hash_String. cbn [default]. destruct h as [|c h]; [done|]. cbn [length Nat.eqb].
  exists (Algorithm (Some (c :: h))). split; [done|]. unfold Algorithm, HashTypeSHA1, HashTypeUnknown.
  destruct (_ =? _); split_and!; by apply (bool_decide_unpack _).
Qed.

Lemma ExtractHash_digest p h : hash_ok h → ExtractHashFromRevision (p ++ Digest (Some h)) = Some h.
Proof.
  intros Hh. destruct (Digest_parts h Hh) as (a & -> & _). destruct Hh as (_ & _ & Hc & _).
  unfold ExtractHashFromRevision. rewrite app_assoc, cut_last_app by done. by destruct (p ++ a).
Qed.

Lemma Digest_no_at h : hash_ok h → "@"%char ∉ Digest (Some h).
Proof.
  intros Hh. destruct (Digest_parts h Hh) as (a & -> & Ha & _). destruct Hh as (_ & Hat & _).
  rewrite elem_of_app, elem_of_cons. intros [?|[?|?]]; done.
Qed.

Lemma Split_pointer p h :
  hash_ok h → SplitRevision (p ++ "@"%char :: Digest (Some h)) = (p, Some h).
Proof.
  intros Hh. unfold SplitRevision, ExtractNamedPointerFromRevision.
  rewrite cut_last_app by by apply Digest_no_at.
  f_equal. rewrite (cons_middle "@"%char), app_assoc. by apply ExtractHash_digest.
Qed.

Lemma Split_digest h : hash_ok h → SplitRevision (Digest (Some h)) = ([], Some h).
Proof.
  intros Hh. unfold SplitRevision, ExtractNamedPointerFromRevision.
  rewrite cut_last_none by by apply Digest_no_at.
  pose proof (ExtractHash_digest [] h Hh) as He. cbn [app] in He. rewrite He. f_equal. rewrite cut_last_none; [done|].
  destruct (Digest_parts h Hh) as (a & -> & _ & _ & Ha). destruct Hh as (_ & _ & _ & Hs).
  rewrite elem_of_app, elem_of_cons. intros [?|[?|?]]; done.
Qed.

Lemma Transform_digest p h : hash_ok h → TransformRevision (p ++ Digest (Some h)) = p ++ Digest (Some h).
Proof.
  intros Hh. unfold TransformRevision, has_byte. rewrite (bool_decide_eq_true_2 (_ ∈ _)); [by rewrite orb_true_r|].
  destruct (Digest_parts h Hh) as (a & -> & _). apply elem_of_app. right. apply elem_of_app. right. left.
Qed.

(** A revision of the old form, [p/h] or [h], is turned into the new one. *)
Lemma Transform_legacy p h :
  hash_ok h → ("@"%char ∉ p) → (":"%char ∉ p) → p ≠ [] →
  TransformRevision (p ++ sep :: h) = if bool_decide (p = str "HEAD") then Digest (Some h) else p ++ "@"%char :: Digest (Some h).
Proof.
  intros (Hne & Hat & Hc & Hs) Hpa Hpc Hp. unfold TransformRevision, has_byte.
  assert (Hno : ∀ c, c ∉ p → c ∉ h → bool_decide (c = sep) = false → c ∉ p ++ sep :: h).
  { intros c ? ? Hc'%bool_decide_eq_false [?|[?|?]%elem_of_cons]%elem_of_app; done. }
  rewrite (bool_decide_eq_false_2 (_ = [])) by by destruct p.
  rewrite (bool_decide_eq_false_2 (_ ∈ _)) by by apply Hno. cbn [orb].
  unfold SplitRevision, ExtractNamedPointerFromRevision, ExtractHashFromRevision.
  rewrite (cut_last_none "@") by by apply Hno. rewrite (cut_last_app sep) by done.
  rewrite (cut_last_none ":") by by apply Hno.
  assert (Hl : List.last (strings_Split (p ++ sep :: h) sep) [] = h ∧ 1 < length (strings_Split (p ++ sep :: h) sep)).
  { rewrite Split_app, (Split_id h) by done. rewrite List.last_last, length_app.
    destruct (Split_cons p sep) as (x & l & ->). cbn. split; [done|lia]. }
  destruct Hl as [-> ->%Nat.ltb_lt].
  destruct p as [|c p]; [done|]. cbn [app]. destruct (bool_decide (c :: p = str "HEAD")); [by rewrite bool_decide_eq_true_2|].
  by rewrite bool_decide_eq_false_2.
Qed.

(** Revisions round trip: the pointer and the hash are read back from what
    [String] and [AbsoluteReference] print for a commit, and such a revision is
    in the new form; a revision of the old form is transformed into the one that
    is printed now, if the name of the branch has no at sign. *)
Theorem revision_roundtrip (c : Commit) (h : bytes) :
  c_Hash c = Some h → hash_ok h →
  SplitRevision (AbsoluteReference c) = (c_Reference c, Some h) ∧
  SplitRevision (Commit_String c) = (default [] (after_two (c_Reference c)), Some h) ∧
  TransformRevision (AbsoluteReference c) = AbsoluteReference c ∧
  TransformRevision (Commit_String c) = Commit_String c ∧
  (∀ p, p ≠ [] → p ≠ str "HEAD" → "@"%char ∉ p → ":"%char ∉ p → after_two (c_Reference c) = Some p →
    TransformRevision (p ++ sep :: h) = Commit_String c).
Proof.
  intros Hh Hok. unfold AbsoluteReference, Commit_String. rewrite Hh. split_and!.
  - destruct (c_Reference c) as [|x r]; [by apply Split_digest|]. by apply Split_pointer.
  - destruct (after_two _) as [p|]; [by apply Split_pointer|by apply Split_digest].
  - destruct (c_Reference c) as [|x r]; [by apply (Transform_digest [])|].
    rewrite (cons_middle "@"%char), app_assoc. by apply Transform_digest.
  - destruct (after_two _) as [p|]; [|by apply (Transform_digest [])].
    rewrite (cons_middle "@"%char), app_assoc. by apply Transform_digest.
  - intros p Hp Hhead Hat Hc ->. rewrite Transform_legacy by done. by rewrite bool_decide_eq_false_2.
Qed.

Definition demo_hash : bytes := str "5394cb7f48332b2de7c17dd8b8384bbc84b7e738".
Definition demo_commit : Commit :=
  mkCommit (Some demo_hash) (str "refs/heads/feature/branch") zeroSignature zeroSignature [] None [] None.

Lemma revision_roundtrip_witness :
  SplitRevision (Commit_String demo_commit) = (str "feature/branch", Some demo_hash) ∧
  TransformRevision (str "feature/branch/5394cb7f48332b2de7c17dd8b8384bbc84b7e738") =
    str "feature/branch@sha1:5394cb7f48332b2de7c17dd8b8384bbc84b7e738".
Proof.
  destruct (revision_roundtrip demo_commit demo_hash) as (_ & H1 & _ & _ & H2).
  - reflexivity.
  - split_and!; [discriminate|by apply (bool_decide_unpack _)..].
  - split; [exact H1|].
    apply (H2 (str "feature/branch")); [discriminate|discriminate|by apply (bool_decide_unpack _)..|reflexivity].
Defined.

(** An at sign in the name of a branch is taken for the separator: the old form
    of a revision loses a part of the name. *)
Example legacy_at_sign :
  TransformRevision (str "user@fix/5394cb7f48332b2de7c17dd8b8384bbc84b7e738") =
  str "user@sha1:5394cb7f48332b2de7c17dd8b8384bbc84b7e738".
Proof. reflexivity. Qed.

(** ** Signatures *)

Section signatures.
Context {E : Type} `{!Crypto E}.

(** A key ring that reads and with which the signature checks. *)
Definition ring_verifies (payload signature r : bytes) (id : bytes) : Prop :=
  ∃ keyring e, ReadArmoredKeyRing r = inr keyring ∧
    CheckArmoredDetachedSignature keyring payload signature = inr e ∧ id = KeyIdString e.

Lemma pgp_loop_spec signature payload e0 b rings id :
  pgp_loop signature payload e0 b rings = inr id → ∃ r, r ∈ rings ∧ ring_verifies payload signature r id.
Proof.
  revert e0 b. induction rings as [|r rings IH]; intros e0 b; cbn [pgp_loop]; [by destruct b, e0|].
  destruct (ReadArmoredKeyRing r) as [e|keyring] eqn:Hr.
  - intros (r' & Hin & Hv)%IH. exists r'. split; [by right|done].
  - destruct (CheckArmoredDetachedSignature keyring payload signature) as [e|signer] eqn:Hc.
    + intros (r' & Hin & Hv)%IH. exists r'. split; [by right|done].
    + intros [= <-]. exists r. split; [left|]. by exists keyring, signer.
Qed.

Lemma pgp_loop_complete signature payload e0 b rings r id :
  r ∈ rings → ring_verifies payload signature r id → ∃ id', pgp_loop signature payload e0 b rings = inr id'.
Proof.
  intros Hin (keyring & e & Hr & Hc & _). revert e0 b. induction rings as [|r' rings IH]; intros e0 b; [by apply not_elem_of_nil in Hin|].
  cbn [pgp_loop]. apply elem_of_cons in Hin as [<-|Hin].
  - rewrite Hr, Hc. eauto.
  - destruct (ReadArmoredKeyRing r') as [?|k]; [by apply IH|]. destruct (CheckArmoredDetachedSignature k _ _); [by apply IH|eauto].
Qed.

(** A key of an input that parses, with which the signature verifies. *)
Definition key_verifies (payload : bytes) (sig : SshSig) (keys fingerprint : bytes) : Prop :=
  ∃ publicKeys key, ParseAuthorizedKeys keys = inr publicKeys ∧ key ∈ publicKeys ∧
    sshsig_Verify payload sig key SSHSignatureNamespace = None ∧ fingerprint = FingerprintSHA256 key.

Lemma keys_verify_spec payload sig errs keys f :
  keys_verify payload sig errs keys = inr f →
  ∃ key, key ∈ keys ∧ sshsig_Verify payload sig key SSHSignatureNamespace = None ∧ f = FingerprintSHA256 key.
Proof.
  revert errs. induction keys as [|key keys IH]; intros errs; cbn [keys_verify]; [done|].
  destruct (sshsig_Verify _ _ _ _) as [e|] eqn:Hv.
  - intros (k & Hin & Hk)%IH. exists k. split; [by right|done].
  - intros [= <-]. exists key. split; [left|done].
Qed.

Lemma keys_verify_complete payload sig errs keys key :
  key ∈ keys → sshsig_Verify payload sig key SSHSignatureNamespace = None → ∃ f, keys_verify payload sig errs keys = inr f.
Proof.
  intros Hin Hv. revert errs. induction keys as [|k keys IH]; intros errs; [by apply not_elem_of_nil in Hin|].
  cbn [keys_verify]. apply elem_of_cons in Hin as [<-|Hin]; [rewrite Hv; eauto|].
  destruct (sshsig_Verify _ _ k _); [by apply IH|eauto].
Qed.

Lemma ssh_loop_spec payload sig e0 b errs inputs f :
  ssh_loop payload sig e0 b errs inputs = inr f → ∃ keys, keys ∈ inputs ∧ key_verifies payload sig keys f.
Proof.
  revert e0 b errs. induction inputs as [|keys inputs IH]; intros e0 b errs; cbn [ssh_loop]; [by destruct b, e0|].
  destruct (ParseAuthorizedKeys keys) as [e|publicKeys] eqn:Hp.
  - intros (k & Hin & Hk)%IH. exists k. split; [by right|done].
  - destruct (keys_verify _ _ _ _) as [errs'|f'] eqn:Hk.
    + intros (k & Hin & Hk')%IH. exists k. split; [by right|done].
    + intros [= <-]. apply keys_verify_spec in Hk as (key & Hin & Hv & Hf).
      exists keys. split; [left|]. by exists publicKeys, key.
Qed.

Lemma ssh_loop_complete payload sig e0 b errs inputs keys f :
  keys ∈ inputs → key_verifies payload sig keys f → ∃ f', ssh_loop payload sig e0 b errs inputs = inr f'.
Proof.
  intros Hin (pks & key & Hp & Hk & Hv & _). revert e0 b errs. induction inputs as [|k inputs IH]; intros e0 b errs; [by apply not_elem_of_nil in Hin|].
  cbn [ssh_loop]. apply elem_of_cons in Hin as [<-|Hin].
  - rewrite Hp. destruct (keys_verify_complete payload sig errs pks key Hk Hv) as [f' ->]. eauto.
  - destruct (ParseAuthorizedKeys k); [by apply IH|]. destruct (keys_verify _ _ _ _); [by apply IH|eauto].
Qed.

(** A signature is accepted exactly when it has the armor of its kind, the
    payload is not empty, and one of the given key rings or authorized keys
    that can be read verifies it over this payload, for SSH in the namespace
    of Git; the identity that is returned is that of such a key. An entry that
    cannot be read does not hide another one. *)
Theorem signatures_verified (signature payload : bytes) (keys : list bytes) :
  let s := strings_TrimSpace signature in
  (∀ id, VerifyPGPSignature signature payload keys = inr id →
     payload ≠ [] ∧ IsPGPSignature s = true ∧ ∃ r, r ∈ keys ∧ ring_verifies payload s r id) ∧
  (∀ r id, s ≠ [] → payload ≠ [] → IsPGPSignature s = true → r ∈ keys → ring_verifies payload s r id →
     ∃ id', VerifyPGPSignature signature payload keys = inr id') ∧
  (∀ f, VerifySSHSignature signature payload keys = inr f →
     payload ≠ [] ∧ IsSSHSignature s = true ∧ ∃ sig k, Unarmor s = inr sig ∧ k ∈ keys ∧ key_verifies payload sig k f) ∧
  (∀ sig k f, s ≠ [] → payload ≠ [] → IsSSHSignature s = true → Unarmor s = inr sig → k ∈ keys → key_verifies payload sig k f →
     ∃ f', VerifySSHSignature signature payload keys = inr f').
Proof.
  intros s. unfold VerifyPGPSignature, VerifySSHSignature, empty. fold s.
  destruct (bool_decide_reflect (s = [])) as [Hs|Hs]; [split_and!; done|].
  destruct (bool_decide_reflect (payload = [])) as [Hp|Hp]; [split_and!; done|].
  split_and!.
  - intros id. destruct (IsPGPSignature s); [|done]. intros Hr%pgp_loop_spec. done.
  - intros r id _ _ -> Hin Hv. cbn [negb]. by eapply pgp_loop_complete.
  - intros f. destruct (IsSSHSignature s); [|done]. cbn [negb]. destruct (Unarmor s) as [e|sig]; [done|].
    intros (k & Hin & Hk)%ssh_loop_spec. split; [done|]. split; [done|]. by exists sig, k.
  - intros sig k f _ _ -> -> Hin Hv. cbn [negb]. by eapply ssh_loop_complete.
Qed.
End signatures.
