(* ===== verification/GitCloneSpec.v ===== *)
(** * Guarantees of a clone ([git/gogit])

    In every run, whatever go-git answers: credentials are not sent over plain
    HTTP; the commit that is returned is the one that the clone has checked
    out, or a commit without content for a reference that the remote still has
    at the observed hash; by version, the greatest one is checked out. *)

From S2P Require Import Prelude Utf8 GoPath GoText GoStd Interaction ApisMeta KnownHosts Git GitClient GitSpec.

Section spec.
Context {E K Repo Proxy Signer : Type} `{!GoGit E} `{!Ssh K}.
Context `{!Semver} `{!SortFunc} (Equal : Version → Version → bool) (NewConstraint : bytes → E + (Version → bool)).
Context (range : gmap bytes Z → list bytes).
Local Abbreviation Client := (Client (Repo := Repo) (Proxy := Proxy)).
Local Abbreviation gcall := (gcall (K := K) (Repo := Repo) (Proxy := Proxy) (Signer := Signer)).
Local Abbreviation greply := (greply (E := E) (Repo := Repo)).
Local Abbreviation event := (gcall * greply)%type.
Local Abbreviation out := (Client * (gerr (E := E) + option Commit))%type.

(** ** Credentials *)

Definition no_secret (a : AuthMethod (K := K)) : Prop :=
  match a with BasicAuth _ _ | TokenAuth _ => False | _ => True end.

(** A call to the remote goes to the URL that was given, which parses; over
    plain HTTP, or without a scheme, there are no credentials in it or next to
    it. *)
Definition remote_ok (g : Client) (url : bytes) (r : Remote (K := K) (Proxy := Proxy)) : Prop :=
  rm_URL r = url ∧
  ∃ u, url_Parse url = inr u ∧
    (credentialsOverHTTP g = false → u_Scheme u = HTTP ∨ u_Scheme u = [] → u_User u = None ∧ no_secret (rm_Auth r)).

Definition guarded (g : Client) (url : bytes) (c : gcall) : Prop :=
  match c with
  | GList r => remote_ok g url r
  | GClone _ _ o => remote_ok g url (cl_Remote o)
  | _ => True
  end.

Lemma validated_remote (g : Client) (url : bytes) (auth : AuthMethod) :
  validateUrlAndAuthOptions g url = None → transportAuth (authOpts g) (useDefaultKnownHosts g) = inr auth →
  remote_ok g url (remote_of g url auth).
Proof.
  unfold validateUrlAndAuthOptions. intros Hv Ht. split; [done|].
  destruct (url_Parse url) as [e|u]; [done|]. exists u. split; [done|]. intros Hc Hs.
  rewrite Hc in Hv. destruct (match authOpts g with Some _ => _ | None => _ end); [done|].
  assert (Hhe : bool_decide (u_Scheme u = HTTP) || empty (u_Scheme u) = true).
  { unfold empty. destruct Hs as [-> | ->]; reflexivity. }
  rewrite Hhe in Hv. cbn [andb] in Hv. clear Hhe. destruct (bool_decide_reflect (is_Some (u_User u))) as [Hu|Hu]; [done|].
  split; [by apply eq_None_not_Some|]. cbn [remote_of rm_Auth].
  destruct (authOpts g) as [o|]; cbn [transportAuth] in Ht; [|by simplify_eq].
  destruct (empty (Username o)), (empty (Password o)), (empty (BearerToken o)); cbn in Hv, Ht; try done.
  repeat case_match; simplify_eq/=; done.
Qed.

(** Every call of the program is guarded. *)
Definition safe {A : Type} (g : Client) (url : bytes) (p : prog gcall greply A) : Prop :=
  wp (λ _ _, True) (guarded g url) p (λ _, True).

Section safe.
Context (g : Client) (url : bytes).
Hypothesis valid : validateUrlAndAuthOptions g url = None.

Lemma safe_call {A : Type} c (k : greply → prog gcall greply A) :
  guarded g url c → (∀ r, safe g url (k r)) → safe g url (Call c k).
Proof. intros Hc Hk. split; [done|]. intros r _. apply Hk. Qed.

Lemma safe_ask {A : Type} c wrap (k : greply → prog gcall greply (Client * (gerr + A))) g' :
  guarded g url c → (∀ r, safe g url (k r)) → safe g url (ask c wrap k g').
Proof. intros Hc Hk. apply safe_call; [done|]. intros r. destruct (gr_err r); [done|apply Hk]. Qed.

Lemma safe_head_commit {A : Type} repo what (k : object E → prog gcall greply (Client * (gerr + A))) :
  (∀ cc, safe g url (k cc)) → safe g url (head_commit g repo what k).
Proof. intros Hk. apply safe_ask; [done|]. intros r. apply safe_ask; [done|]. intros r'. apply Hk. Qed.

Lemma safe_sparse {A : Type} repo opts ref what (k : prog gcall greply (Client * (gerr + A))) :
  safe g url k → safe g url (sparse_checkout g repo opts ref what k).
Proof.
  intros Hk. unfold sparse_checkout. destruct (is_sparse opts); [|done].
  apply safe_ask; [done|]. intros r. by apply safe_ask.
Qed.

Lemma safe_tag_object {A : Type} repo tag hash (k : option (object E) → prog gcall greply (Client * (gerr + A))) :
  (∀ t, safe g url (k t)) → safe g url (tag_object g repo tag hash k).
Proof.
  intros Hk. apply safe_call; [done|]. intros r. destruct (gr_err r) as [e|]; [|apply Hk].
  destruct (is_ErrObjectNotFound e); [apply Hk|done].
Qed.

Lemma safe_getRemoteHEAD {A : Type} ref auth (k : bytes → prog gcall greply (Client * (gerr + A))) :
  transportAuth (authOpts g) (useDefaultKnownHosts g) = inr auth → (∀ h, safe g url (k h)) →
  safe g url (getRemoteHEAD g url ref auth k).
Proof.
  intros Ha Hk. unfold getRemoteHEAD. destruct (_ || _); [done|]. apply safe_ask; [|intros r; apply Hk].
  by apply validated_remote.
Qed.

Lemma safe_unless name ref auth opts (k : prog gcall greply out) :
  transportAuth (authOpts g) (useDefaultKnownHosts g) = inr auth → safe g url k →
  safe g url (unless_observed g url name ref auth opts k).
Proof.
  intros Ha Hk. unfold unless_observed. destruct (empty _); [done|]. apply safe_getRemoteHEAD; [done|].
  intros h. by destruct (_ && _).
Qed.

(** A clone with the authentication of the client. *)
Lemma safe_clone auth st wt o (k : greply → prog gcall greply out) :
  transportAuth (authOpts g) (useDefaultKnownHosts g) = inr auth → cl_Remote o = remote_of g url auth →
  (∀ r, gr_err r = None → safe g url (k r)) → (∀ r e, gr_err r = Some e → safe g url (k r)) →
  safe g url (Call (GClone st wt o) k).
Proof.
  intros Ha Ho Hk He. apply safe_call; [cbn; rewrite Ho; by apply validated_remote|].
  intros r. destruct (gr_err r) as [e|] eqn:Hr; [by eapply He|by apply Hk].
Qed.

Lemma safe_bind {A B : Type} (p : prog gcall greply A) (f : A → prog gcall greply B) :
  safe g url p → (∀ a, safe g url (f a)) → safe g url (p ≫= f).
Proof. intros Hp Hf. apply wp_bind. eapply wp_mono; [|exact Hp]. intros a _. apply Hf. Qed.

Lemma safe_Init branch : safe g url (Init g url branch).
Proof.
  unfold Init. rewrite valid. destruct (bool_decide _); [done|].
  do 4 (apply safe_call; [done|]; intros ?r; case_match; [done|]). done.
Qed.

Lemma safe_cloneBranch branch opts : safe g url (cloneBranch g url branch opts).
Proof.
  unfold cloneBranch. destruct (authOpts g) as [o|] eqn:Ho; [|done].
  destruct (transportAuth _ _) as [e|auth] eqn:Ha; [done|]. rewrite <- Ho in Ha.
  apply safe_unless; [done|]. apply (safe_clone auth); [done|done| |].
  - intros r ->. apply safe_sparse, safe_head_commit. done.
  - intros r e ->. destruct (_ || _); [done|]. destruct (is_ErrEmptyRemoteRepository e); [|done].
    apply safe_call; [done|]. intros r'. destruct (gr_err r'); [done|].
    apply safe_bind; [apply safe_Init|]. by intros [g' [e'|]].
Qed.

Lemma safe_cloneTag tag opts : safe g url (cloneTag g url tag opts).
Proof.
  unfold cloneTag. destruct (authOpts g) as [o|] eqn:Ho; [|done].
  destruct (transportAuth _ _) as [e|auth] eqn:Ha; [done|]. rewrite <- Ho in Ha.
  apply safe_unless; [done|]. apply (safe_clone auth); [done|done| |].
  - intros r ->. apply safe_sparse, safe_head_commit. intros cc. apply safe_ask; [done|]. intros r'. by apply safe_tag_object.
  - intros r e ->. by destruct (_ || _).
Qed.

Lemma safe_cloneCommit commit opts : safe g url (cloneCommit g url commit opts).
Proof.
  unfold cloneCommit. destruct (transportAuth _ _) as [e|auth] eqn:Ha; [done|].
  destruct (if empty (Branch (strategy opts)) then _ else _) as [single ref]. apply (safe_clone auth); [done|done| |].
  - intros r ->. apply safe_ask; [done|]. intros r1. apply safe_ask; [done|]. intros r2. by apply safe_ask.
  - intros r e ->. by destruct (_ || _).
Qed.

Lemma safe_tags_loop {A : Type} (repo : Repo) (refs : list Reference) (ts : gmap bytes Z) (k : gmap bytes Z → prog gcall greply (Client * (gerr + A))) :
  (∀ ts, safe g url (k ts)) → safe g url (tags_loop g repo refs ts k).
Proof.
  intros Hk. revert ts. induction refs as [|t refs IH]; intros ts; [apply Hk|].
  cbn [tags_loop]. apply safe_ask; [done|]. intros r. apply safe_ask; [done|]. intros r'. apply IH.
Qed.

Lemma safe_cloneSemVer tag opts : safe g url (cloneSemVer Equal NewConstraint range g url tag opts).
Proof.
  unfold cloneSemVer. destruct (NewConstraint tag) as [e|con]; [done|].
  destruct (transportAuth _ _) as [e|auth] eqn:Ha; [done|]. apply (safe_clone auth); [done|done| |].
  - intros r ->. apply safe_ask; [done|]. intros r1. apply safe_tags_loop. intros ts.
    destruct (List.rev _) as [|v l]; [done|]. apply safe_ask; [done|]. intros r2. apply safe_ask; [done|]. intros r3.
    apply safe_ask; [done|]. intros r4. apply safe_head_commit. intros cc. by apply safe_tag_object.
  - intros r e ->. by destruct (_ || _).
Qed.

Lemma safe_cloneRefName refName opts : safe g url (cloneRefName g url refName opts).
Proof.
  unfold cloneRefName. destruct (authOpts g) as [o|] eqn:Ho; [|done].
  destruct (transportAuth _ _) as [e|auth] eqn:Ha; [done|]. rewrite <- Ho in Ha.
  apply safe_getRemoteHEAD; [done|]. intros h. destruct (empty h); [done|]. destruct (_ && _); [done|].
  destruct (IsBranch refName); [apply safe_cloneBranch|]. destruct (IsTag refName); [|apply safe_cloneCommit].
  apply safe_bind; [apply safe_cloneTag|]. by intros [g' r].
Qed.
End safe.

(** C19. Credentials are not sent in the clear: every call of [Clone] that goes
    to a remote goes to the given URL, and, unless the client allows it, when
    this URL is of plain HTTP or has no scheme, it has no user information and
    the call has no password and no bearer token; whatever the strategy of the
    checkout and whatever the remote answers. *)
Theorem Clone_guarded (g : Client) (url : bytes) (cfg : CloneConfig) (t : list event) (o : out) :
  runs (Clone Equal NewConstraint range g url cfg) t o → Forall (λ e, guarded g url e.1) t.
Proof.
  intros Hr. unfold Clone in Hr. destruct (validateUrlAndAuthOptions g url) as [e|] eqn:Hv.
  - apply runs_ret_inv in Hr as [-> _]. constructor.
  - assert (Hs : safe g url (clone Equal NewConstraint range g url cfg)).
    { unfold clone. repeat case_match; eauto using safe_cloneCommit, safe_cloneRefName, safe_cloneTag, safe_cloneSemVer, safe_cloneBranch. }
    eapply wp_runs; [exact Hs|exact Hr|]. by apply Forall_true.
Qed.

(** ** What a clone returns *)

(** The commit of HEAD after the checkout, or one that was asked for. *)
Inductive source := FromHead | Requested (commit : bytes).

(** The content of [c] is that of the object. *)
Definition content_of (obj : object E) (c : Commit) : Prop :=
  c_Hash c = Some (o_Hash obj) ∧ c_Signature c = o_PGPSignature obj ∧ c_Message c = o_Message obj ∧
  ∃ b, o_Encoded obj = inr b ∧ c_Encoded c = Some b.

(** [c] is a commit of the repository that was cloned into the storage of the
    client, which has it now; and it is the one that is checked out. *)
Definition cloned (g g' : Client) (dirs : list bytes) (src : source) (t : list event) (c : Commit) : Prop :=
  ∃ o r h r',
    (GClone (storer g) (worktreeFS g) o, r) ∈ t ∧ gr_err r = None ∧ g' = set_cloned g (gr_repo r) dirs ∧
    (GCommitObject (gr_repo r) h, r') ∈ t ∧ gr_err r' = None ∧ content_of (gr_object r') c ∧
    match src with
    | FromHead => ∃ rh, (GHead (gr_repo r), rh) ∈ t ∧ gr_err rh = None ∧ h = r_Hash (gr_ref rh)
    | Requested commit => h = commit ∧ ∃ rc, (GCheckout (gr_repo r) (THash (o_Hash (gr_object r'))) true dirs, rc) ∈ t ∧ gr_err rc = None
    end.

(** Nothing was cloned: [c] has no content, the remote lists its reference with
    its hash, and it is what was observed before. *)
Definition observed (g g' : Client) (opts : CloneConfig) (t : list event) (c : Commit) : Prop :=
  g' = g ∧ c_Encoded c = None ∧ LastObservedCommit opts ≠ [] ∧
  ∃ rm r lr, t = [(GList rm, r)] ∧ lr ∈ gr_refs r ∧
    (r_Name lr = c_Reference c ∨ r_Name lr = c_Reference c ++ tagDereferenceSuffix) ∧
    c_Hash c = Some (r_Hash lr) ∧
    (TransformRevision (LastObservedCommit opts) = Commit_String c ∨
     TransformRevision (LastObservedCommit opts) = AbsoluteReference c).

(** The remote has no commits: the directory was removed. *)
Definition empty_remote (g : Client) (t : list event) : Prop :=
  ∃ o r e, (GClone (storer g) (worktreeFS g) o, r) ∈ t ∧ gr_err r = Some e ∧ is_ErrEmptyRemoteRepository e = true ∧
    GRemoveAll (path g) ∈ t.*1.

(** After a clone was tried: without a commit that was cloned the client is as
    it was, unless the commit cannot be encoded, or the remote is empty. *)
Definition fetched (g : Client) (dirs : list bytes) (srcs : source → Prop) (t : list event) (o : out) : Prop :=
  match o.2 with
  | inl e => o.1 = g ∨ ∃ n e', e = EEncode n e'
  | inr None => empty_remote g t
  | inr (Some c) => ∃ src, srcs src ∧ cloned g o.1 dirs src t c
  end.

Definition result_ok (g : Client) (opts : CloneConfig) (srcs : source → Prop) (t : list event) (o : out) : Prop :=
  (∃ c, o.2 = inr (Some c) ∧ observed g o.1 opts t c) ∨ fetched g (SparseCheckoutDirectories opts) srcs t o.

(** Hashes that the remote lists are proper ones. *)
Definition hashes_ok (t : list event) : Prop :=
  ∀ rm r lr, (GList rm, r) ∈ t → lr ∈ gr_refs r → hash_ok (r_Hash lr).

Lemma filterRefs_listed refs ref :
  filterRefs refs ref = [] ∨
  ∃ lr, lr ∈ refs ∧ (r_Name lr = ref ∨ r_Name lr = ref ++ tagDereferenceSuffix) ∧
    filterRefs refs ref = ref ++ "@"%char :: Digest (Some (r_Hash lr)).
Proof.
  unfold filterRefs.
  enough (∀ fb, filter_loop ref fb refs = [] ∨
    ∃ lr, (lr ∈ refs ∧ (r_Name lr = ref ∨ r_Name lr = ref ++ tagDereferenceSuffix) ∨ fb = Some lr) ∧
      filter_loop ref fb refs = ref ++ "@"%char :: Digest (Some (r_Hash lr))) as Hall.
  { destruct (Hall None) as [?|(lr & [(? & ?)|?] & ?)]; [by left|right; by exists lr|done]. }
  induction refs as [|r refs IH]; intros fb; cbn [filter_loop].
  - destruct fb as [r|]; [right; exists r; auto|by left].
  - assert (Hweak : ∀ fb', (∀ lr, fb' = Some lr → lr = r ∧ r_Name r = ref ∨ fb = Some lr) →
      filter_loop ref fb' refs = [] ∨
      ∃ lr, (lr ∈ r :: refs ∧ (r_Name lr = ref ∨ r_Name lr = ref ++ tagDereferenceSuffix) ∨ fb = Some lr) ∧
        filter_loop ref fb' refs = ref ++ "@"%char :: Digest (Some (r_Hash lr))).
    { intros fb' Hfb. destruct (IH fb') as [?|(lr & [(Hin & Hn)|Hf] & Heq)]; [by left|right; exists lr..].
      - split; [left; split; [by right|done]|done].
      - destruct (Hfb _ Hf) as [[-> Hn]|?]; [|auto]. split; [left; split; [left|by left]|done]. }
    case_bool_decide as Hn.
    + destruct (_ || _); [right; exists r; split; [left; split; [left|by left]|done]|].
      apply Hweak. intros lr [= <-]. by left.
    + case_bool_decide as Hn'; [right; exists r; split; [left; split; [left|by right]|done]|].
      apply Hweak. auto.
Qed.

Lemma runs_ask_inv {A : Type} (g g' : Client) c wrap (k : greply → prog gcall greply (Client * (gerr + A))) (t : list event) res :
  runs (ask c wrap k g) t (g', res) →
  ∃ r t', t = (c, r) :: t' ∧
    ((∃ e, gr_err r = Some e ∧ t' = [] ∧ g' = g ∧ res = inl (wrap e)) ∨ (gr_err r = None ∧ runs (k r) t' (g', res))).
Proof.
  intros (r & t' & -> & Hr)%runs_call_inv. exists r, t'. split; [done|].
  destruct (gr_err r) as [e|]; [left; exists e; apply runs_ret_inv in Hr as [-> [= -> ->]]; done|by right].
Qed.

Lemma CommitWithRef_content obj tg ref c : CommitWithRef obj tg ref = inr c → content_of obj c ∧ c_Reference c = ref.
Proof.
  unfold CommitWithRef. destruct (o_Encoded obj) as [e|b] eqn:Hb; [done|].
  intros Hc. assert (∃ tag, c = mkCommit (Some (o_Hash obj)) ref (o_Author obj) (o_Committer obj) (o_PGPSignature obj) (Some b) (o_Message obj) tag) as [tag ->].
  { destruct (IsTag ref); [destruct (build_Tag tg ref)|]; simplify_eq; eauto. }
  split; [|done]. split_and!; try done. by exists b.
Qed.

Lemma CommitWithRef_error obj tg ref e : CommitWithRef obj tg ref = inl e → ∃ n e', e = EEncode n e'.
Proof.
  unfold CommitWithRef, build_Tag. intros Hc. repeat case_match; simplify_eq; eauto.
Qed.

(** The method ended with an error that changed nothing. *)
Definition failed {A : Type} (g g' : Client) (res : gerr (E := E) + A) : Prop := g' = g ∧ ∃ e, res = inl e.

Lemma runs_fail_inv {A : Type} (g g' : Client) e (t : list event) (res : gerr + A) :
  runs (fail g e) t (g', res) → failed g g' res.
Proof. intros [-> [= -> ->]]%runs_ret_inv. split; [done|by exists e]. Qed.

Lemma ask_inv {A : Type} (g g' : Client) c wrap (k : greply → prog gcall greply (Client * (gerr + A))) (t : list event) res :
  runs (ask c wrap k g) t (g', res) →
  failed g g' res ∨ ∃ r t', t = (c, r) :: t' ∧ gr_err r = None ∧ runs (k r) t' (g', res).
Proof.
  intros (r & t' & -> & [(e & _ & _ & -> & ->)|[Hr Hk]])%runs_ask_inv; [left; split; [done|by exists (wrap e)]|right].
  by exists r, t'.
Qed.

Lemma head_commit_inv {A : Type} (g g' : Client) repo what (k : object E → prog gcall greply (Client * (gerr + A))) (t : list event) res :
  runs (head_commit g repo what k) t (g', res) →
  failed g g' res ∨
  ∃ rh r' t', t = (GHead repo, rh) :: (GCommitObject repo (r_Hash (gr_ref rh)), r') :: t' ∧
    gr_err rh = None ∧ gr_err r' = None ∧ runs (k (gr_object r')) t' (g', res).
Proof.
  intros [?|(rh & t1 & -> & Hh & Hr)]%ask_inv; [by left|].
  apply ask_inv in Hr as [?|(r' & t2 & -> & Hr' & Hk)]; [by left|right]. by exists rh, r', t2.
Qed.

Lemma sparse_inv {A : Type} (g g' : Client) repo opts ref what (k : prog gcall greply (Client * (gerr + A))) (t : list event) res :
  runs (sparse_checkout g repo opts ref what k) t (g', res) → failed g g' res ∨ ∃ t0 t', t = t0 ++ t' ∧ runs k t' (g', res).
Proof.
  unfold sparse_checkout. destruct (is_sparse opts); [|intros; right; by exists [], t].
  intros [?|(r & t1 & -> & _ & Hr)]%ask_inv; [by left|].
  apply ask_inv in Hr as [?|(r' & t2 & -> & _ & Hk)]; [by left|right]. by eexists [_; _], t2.
Qed.

Lemma tag_object_inv {A : Type} (g g' : Client) repo tag hash (k : option (object E) → prog gcall greply (Client * (gerr + A))) (t : list event) res :
  runs (tag_object g repo tag hash k) t (g', res) → failed g g' res ∨ ∃ e tg t', t = e :: t' ∧ runs (k tg) t' (g', res).
Proof.
  intros (r & t' & -> & Hr)%runs_call_inv. destruct (gr_err r) as [e|]; [|right; by eexists _, _, t'].
  destruct (is_ErrObjectNotFound e); [right; by eexists _, _, t'|left; by apply runs_fail_inv in Hr].
Qed.

Lemma cloned_finish_inv (g g' : Client) repo opts cc tg ref (t : list event) res :
  runs (finish g repo opts cc tg ref) t (g', res) →
  t = [] ∧ g' = set_cloned g repo (SparseCheckoutDirectories opts) ∧
  ((∃ n e, res = inl (EEncode n e)) ∨ ∃ c, res = inr (Some c) ∧ content_of cc c ∧ c_Reference c = ref).
Proof.
  intros [-> [= -> ->]]%runs_ret_inv. split; [done|]. split; [done|].
  destruct (CommitWithRef cc tg ref) as [e|c] eqn:Hc.
  - left. destruct (CommitWithRef_error _ _ _ _ Hc) as (n & e' & ->). by exists n, e'.
  - right. exists c. split; [done|]. by eapply CommitWithRef_content.
Qed.

Lemma failed_ok (g g' : Client) dirs srcs (t : list event) res : failed g g' res → fetched g dirs srcs t (g', res).
Proof. intros [-> [e ->]]. by left. Qed.

(** What holds of a run holds after more calls. *)
Lemma cloned_mono (g g' : Client) dirs src (t t' : list event) c : cloned g g' dirs src t c → (∀ e, e ∈ t → e ∈ t') → cloned g g' dirs src t' c.
Proof.
  intros (o & r & h & r' & H1 & H2 & H3 & H4 & H5 & H6 & H7) Hin. exists o, r, h, r'. split_and!; auto.
  destruct src; [destruct H7 as (rh & ? & ?); exists rh; auto|destruct H7 as (-> & rc & ? & ?); split; [done|exists rc; auto]].
Qed.

Lemma fetched_mono (g : Client) dirs srcs (t t' : list event) o :
  fetched g dirs srcs t o → (∀ e, e ∈ t → e ∈ t') → fetched g dirs srcs t' o.
Proof.
  destruct o as [g' [e|[c|]]]; cbn; [done| |].
  - intros (src & Hs & Hc) Hin. exists src. split; [done|]. by eapply cloned_mono.
  - intros (o & r & e & H1 & H2 & H3 & H4) Hin. exists o, r, e. split_and!; auto.
    apply list_elem_of_fmap in H4 as (ev & Hev & H4). rewrite Hev. by apply list_elem_of_fmap_2, Hin.
Qed.

(** The end of a clone whose commit is that of HEAD. *)
Lemma finish_head_ok (g g' : Client) o (r rh r' : greply) opts tg ref (t0 t : list event) res (srcs : source → Prop) :
  runs (finish g (gr_repo r) opts (gr_object r') tg ref) t (g', res) →
  gr_err r = None → gr_err rh = None → gr_err r' = None → srcs FromHead →
  (GClone (storer g) (worktreeFS g) o, r) ∈ t0 → (GHead (gr_repo r), rh) ∈ t0 →
  (GCommitObject (gr_repo r) (r_Hash (gr_ref rh)), r') ∈ t0 →
  fetched g (SparseCheckoutDirectories opts) srcs t0 (g', res).
Proof.
  intros Hf H1 H2 H3 Hs I1 I2 I3. apply cloned_finish_inv in Hf as (-> & -> & [(n & e & ->)|(c & -> & Hc & _)]); cbn.
  - right. by exists n, e.
  - exists FromHead. split; [done|]. exists o, r, (r_Hash (gr_ref rh)), r'. split_and!; try done. by exists rh.
Qed.

Lemma ExtractHash_listed ref h : hash_ok h → ExtractHashFromRevision (ref ++ "@"%char :: Digest (Some h)) = Some h.
Proof. intros Hh. rewrite (cons_middle "@"%char), app_assoc. by apply ExtractHash_digest. Qed.

Lemma getRemoteHEAD_inv {A : Type} (g g' : Client) url ref auth (k : bytes → prog gcall greply (Client * (gerr + A))) (t : list event) res :
  runs (getRemoteHEAD g url ref auth k) t (g', res) →
  failed g g' res ∨ ∃ r t', t = (GList (remote_of g url auth), r) :: t' ∧ runs (k (filterRefs (gr_refs r) ref)) t' (g', res).
Proof.
  unfold getRemoteHEAD. destruct (_ || _); [intros Hf%runs_fail_inv; by left|].
  intros [?|(r & t' & -> & _ & Hk)]%ask_inv; [by left|right]. by exists r, t'.
Qed.

(** The commit that stands for what was observed. *)
Lemma observed_partial (g : Client) opts rm r ref :
  hashes_ok [(GList rm, r)] → filterRefs (gr_refs r) ref ≠ [] → empty (TransformRevision (LastObservedCommit opts)) = false →
  (let c := partialCommit (ExtractHashFromRevision (filterRefs (gr_refs r) ref)) ref in
   TransformRevision (LastObservedCommit opts) = Commit_String c ∨ TransformRevision (LastObservedCommit opts) = AbsoluteReference c) →
  observed g g opts [(GList rm, r)] (partialCommit (ExtractHashFromRevision (filterRefs (gr_refs r) ref)) ref).
Proof.
  intros Hok Hne Hlast%bool_decide_eq_false Hobs. destruct (filterRefs_listed (gr_refs r) ref) as [?|(lr & Hin & Hn & Heq)]; [done|].
  assert (Hh : hash_ok (r_Hash lr)) by (eapply Hok; [left|done]).
  split; [done|]. split; [done|]. split; [by intros Hl; apply Hlast; rewrite Hl|]. exists rm, r, lr. split_and!; try done.
  cbn [partialCommit c_Hash]. rewrite Heq. by apply ExtractHash_listed.
Qed.

Lemma unless_inv (g g' : Client) url name ref auth opts (k : prog gcall greply out) (t : list event) res :
  runs (unless_observed g url name ref auth opts k) t (g', res) → hashes_ok t → after_two ref = Some name →
  failed g g' res ∨ (∃ c, res = inr (Some c) ∧ observed g g' opts t c) ∨ ∃ t0 t', t = t0 ++ t' ∧ runs k t' (g', res).
Proof.
  unfold unless_observed. destruct (empty _) eqn:He; [intros Hr _ _; right; right; by exists [], t|].
  intros [?|(r & t' & -> & Hr)]%getRemoteHEAD_inv Hok Hname; [by left|right].
  destruct (_ && _) eqn:Hb; [left|right; by exists [(GList (remote_of g url auth), r)], t'].
  apply andb_true_iff in Hb as [Hne%negb_true_iff%bool_decide_eq_false Heq%bool_decide_eq_true].
  apply runs_ret_inv in Hr as [-> [= -> ->]]. eexists. split; [done|]. apply observed_partial; [done|done|done|].
  left. rewrite <- Heq. unfold Commit_String. cbn [partialCommit c_Reference c_Hash]. by rewrite Hname.
Qed.

Lemma hashes_ok_app (t t' : list event) : hashes_ok (t ++ t') → hashes_ok t ∧ hashes_ok t'.
Proof. intros Hok. split; intros rm r lr Hin; apply Hok with rm, elem_of_app; auto. Qed.

Lemma observed_unobserved (g g' : Client) opts (t : list event) c :
  observed g g' (unobserved opts) t c → False.
Proof. by intros (_ & _ & Hl & _). Qed.

(** An event in a trace whose parts are known. *)
Local Ltac in_trace :=
  match goal with
  | |- _ ∈ _ ++ _ => apply elem_of_app; right; in_trace
  | |- _ ∈ _ :: _ => first [apply elem_of_cons; left; reflexivity | apply elem_of_cons; right; in_trace]
  end.

Lemma Init_error (g g' : Client) url branch (t : list event) e : runs (Init g url branch) t (g', Some e) → g' = g.
Proof.
  unfold Init. destruct (validateUrlAndAuthOptions g url) as [e0|]; [by intros [_ [=]]%runs_ret_inv|].
  destruct (bool_decide _); [by intros [_ [=]]%runs_ret_inv|]. intros Hr.
  do 4 (apply runs_call_inv in Hr as (?r & ?t & -> & Hr); case_match; [apply runs_ret_inv in Hr as [_ [=]]; done|]).
  by apply runs_ret_inv in Hr as [_ [=]].
Qed.

Lemma cloneBranch_ok (g : Client) url branch opts (t : list event) o :
  runs (cloneBranch g url branch opts) t o → hashes_ok t → result_ok g opts (eq FromHead) t o.
Proof.
  destruct o as [g' res]. unfold cloneBranch. destruct (authOpts g) as [ao|]; [|intros Hf%runs_fail_inv _; right; by apply failed_ok].
  destruct (transportAuth _ _) as [e|auth]; [intros Hf%runs_fail_inv _; right; by apply failed_ok|].
  intros Hr Hok. destruct (unless_inv _ _ _ _ _ _ _ _ _ _ Hr Hok eq_refl) as [Hf|[(c & -> & Hc)|(t0 & t1 & -> & Hr')]];
    [right; by apply failed_ok|left; by exists c|right]. clear Hr.
  apply runs_call_inv in Hr' as (r & t2 & -> & Hr). destruct (gr_err r) as [e|] eqn:He.
  - destruct (_ || _); [apply runs_fail_inv in Hr; by apply failed_ok|].
    destruct (is_ErrEmptyRemoteRepository e) eqn:Hemp; [|apply runs_fail_inv in Hr; by apply failed_ok].
    apply runs_call_inv in Hr as (r1 & t3 & -> & Hr). destruct (gr_err r1); [apply runs_fail_inv in Hr; by apply failed_ok|].
    apply runs_bind_inv in Hr as (t4 & [gi [e1|]] & t5 & -> & Hi & Hr).
    + apply Init_error in Hi as ->. apply runs_fail_inv in Hr. by apply failed_ok.
    + apply runs_ret_inv in Hr as [-> [= -> ->]]. eexists _, r, e. split_and!; [apply elem_of_app; right; left|done|done|].
      rewrite fmap_app. cbn. apply elem_of_app. right. right. left.
  - apply sparse_inv in Hr as [Hf|(t3 & t4 & -> & Hr)]; [by apply failed_ok|].
    apply head_commit_inv in Hr as [Hf|(rh & r' & t5 & -> & Hh & Hr' & Hr)]; [by apply failed_ok|].
    eapply (finish_head_ok g g' _ r rh r'); [exact Hr|done|done|done|done|in_trace..].
Qed.

Lemma cloneTag_ok (g : Client) url tag opts (t : list event) o :
  runs (cloneTag g url tag opts) t o → hashes_ok t → result_ok g opts (eq FromHead) t o.
Proof.
  destruct o as [g' res]. unfold cloneTag. destruct (authOpts g) as [ao|]; [|intros Hf%runs_fail_inv _; right; by apply failed_ok].
  destruct (transportAuth _ _) as [e|auth]; [intros Hf%runs_fail_inv _; right; by apply failed_ok|].
  intros Hr Hok. destruct (unless_inv _ _ _ _ _ _ _ _ _ _ Hr Hok eq_refl) as [Hf|[(c & -> & Hc)|(t0 & t1 & -> & Hr')]];
    [right; by apply failed_ok|left; by exists c|right]. clear Hr.
  apply runs_call_inv in Hr' as (r & t2 & -> & Hr). destruct (gr_err r) as [e|] eqn:He.
  - destruct (_ || _); apply runs_fail_inv in Hr; by apply failed_ok.
  - apply sparse_inv in Hr as [Hf|(t3 & t4 & -> & Hr)]; [by apply failed_ok|].
    apply head_commit_inv in Hr as [Hf|(rh & r' & t5 & -> & Hh & Hr' & Hr)]; [by apply failed_ok|].
    apply ask_inv in Hr as [Hf|(rt & t6 & -> & _ & Hr)]; [by apply failed_ok|].
    apply tag_object_inv in Hr as [Hf|(e & tg & t7 & -> & Hr)]; [by apply failed_ok|].
    eapply (finish_head_ok g g' _ r rh r'); [exact Hr|done|done|done|done|in_trace..].
Qed.

Lemma cloneCommit_ok (g : Client) url commit opts (t : list event) o :
  runs (cloneCommit g url commit opts) t o → fetched g (SparseCheckoutDirectories opts) (eq (Requested commit)) t o.
Proof.
  destruct o as [g' res]. unfold cloneCommit. destruct (transportAuth _ _) as [e|auth]; [intros Hf%runs_fail_inv; by apply failed_ok|].
  destruct (if empty (Branch (strategy opts)) then _ else _) as [single ref].
  intros (r & t2 & -> & Hr)%runs_call_inv. destruct (gr_err r) as [e|] eqn:He.
  - destruct (_ || _); apply runs_fail_inv in Hr; by apply failed_ok.
  - apply ask_inv in Hr as [Hf|(rw & t3 & -> & _ & Hr)]; [by apply failed_ok|].
    apply ask_inv in Hr as [Hf|(r' & t4 & -> & Hr' & Hr)]; [by apply failed_ok|].
    apply ask_inv in Hr as [Hf|(rc & t5 & -> & Hrc & Hr)]; [by apply failed_ok|].
    apply cloned_finish_inv in Hr as (-> & -> & [(n & e & ->)|(c & -> & Hc & _)]); cbn; [right; by exists n, e|].
    exists (Requested commit). split; [done|]. eexists _, r, commit, r'. split_and!; [left|done|done| |done|done| |].
    + in_trace.
    + done.
    + exists rc. split; [|done]. in_trace.
Qed.

(** ** By version *)

(** The time of a tag is that of a commit that the tag, by its name, was
    resolved to. *)
Definition tag_times (repo : Repo) (refs : list Reference) (t : list event) (times : gmap bytes Z) : Prop :=
  (∀ ref, ref ∈ refs → is_Some (times !! Short (r_Name ref))) ∧
  (∀ tag z, times !! tag = Some z → ∃ ref r1 r2, ref ∈ refs ∧ Short (r_Name ref) = tag ∧
     (GResolveRevision repo (r_Name ref), r1) ∈ t ∧ (GCommitObject repo (gr_hash r1), r2) ∈ t ∧
     z = sg_When (o_Committer (gr_object r2))).

Lemma tags_loop_inv {A : Type} (g g' : Client) (repo : Repo) (refs : list Reference) (ts : gmap bytes Z)
    (k : gmap bytes Z → prog gcall greply (Client * (gerr + A))) (t : list event) res :
  runs (tags_loop g repo refs ts k) t (g', res) →
  failed g g' res ∨ ∃ t0 t' (ts' : gmap bytes Z), t = t0 ++ t' ∧ runs (k ts') t' (g', res) ∧
    (∀ tag, is_Some (ts !! tag) → is_Some (ts' !! tag)) ∧
    (∀ ref, ref ∈ refs → is_Some (ts' !! Short (r_Name ref))) ∧
    (∀ tag z, ts' !! tag = Some z → ts !! tag = Some z ∨ ∃ ref r1 r2, ref ∈ refs ∧ Short (r_Name ref) = tag ∧
       (GResolveRevision repo (r_Name ref), r1) ∈ t0 ∧ (GCommitObject repo (gr_hash r1), r2) ∈ t0 ∧
       z = sg_When (o_Committer (gr_object r2))).
Proof.
  revert ts t. induction refs as [|ref refs IH]; intros ts t; cbn [tags_loop].
  - intros Hr. right. exists [], t, ts. split_and!; try done; [|by left].
    intros ref Hin. by apply not_elem_of_nil in Hin.
  - intros [?|(r1 & t1 & -> & _ & Hr)]%ask_inv; [by left|].
    apply ask_inv in Hr as [?|(r2 & t2 & -> & _ & Hr)]; [by left|].
    apply IH in Hr as [?|(t0 & t' & ts' & -> & Hk & H1 & H2 & H3)]; [by left|right].
    exists ((GResolveRevision repo (r_Name ref), r1) :: (GCommitObject repo (gr_hash r1), r2) :: t0), t', ts'.
    split_and!; [done|done| | |].
    + intros tag Htag. apply H1. rewrite lookup_insert_is_Some. destruct (decide (Short (r_Name ref) = tag)); [by left|by right].
    + intros ref' [->|Hin]%elem_of_cons; [|by apply H2]. apply H1. rewrite lookup_insert_eq. done.
    + intros tag z [Hz|(ref' & r1' & r2' & Hin & Hs & I1 & I2 & Hz)]%H3.
      * apply lookup_insert_Some in Hz as [[Hs Hz]|[_ Hz]]; [right|by left].
        exists ref, r1, r2. split_and!; [left|done|in_trace|in_trace|done].
      * right. exists ref', r1', r2'. split_and!; [by right|done|by do 2 right|by do 2 right|done].
Qed.

(** Either the clone failed, or the last of the sorted versions was checked out. *)
Lemma cloneSemVer_inv (g g' : Client) url tag opts (t : list event) res :
  runs (cloneSemVer Equal NewConstraint range g url tag opts) t (g', res) →
  failed g g' res ∨
  ∃ con o r rtags times v rt rh r' tg (t' : list event),
    NewConstraint tag = inr con ∧
    (GClone (storer g) (worktreeFS g) o, r) ∈ t ∧ gr_err r = None ∧
    (GTags (gr_repo r), rtags) ∈ t ∧ tag_times (gr_repo r) (gr_refs rtags) t times ∧
    hd_error (List.rev (sort_Slice (version_less Equal times) (matchedVersions con (range times)))) = Some v ∧
    (GTag (gr_repo r) (Original v), rt) ∈ t ∧
    GCheckout (gr_repo r) (TBranch (r_Name (gr_ref rt)) false) false (SparseCheckoutDirectories opts) ∈ t.*1 ∧
    (GHead (gr_repo r), rh) ∈ t ∧ gr_err rh = None ∧
    (GCommitObject (gr_repo r) (r_Hash (gr_ref rh)), r') ∈ t ∧ gr_err r' = None ∧
    runs (finish g (gr_repo r) opts (gr_object r') tg (r_Name (gr_ref rt))) t' (g', res).
Proof.
  unfold cloneSemVer. destruct (NewConstraint tag) as [e|con]; [intros Hf%runs_fail_inv; by left|].
  destruct (transportAuth _ _) as [e|auth]; [intros Hf%runs_fail_inv; by left|].
  intros (r & t1 & -> & Hr)%runs_call_inv. destruct (gr_err r) as [e|] eqn:He.
  { left. destruct (_ || _); by apply runs_fail_inv in Hr. }
  apply ask_inv in Hr as [?|(rtags & t2 & -> & _ & Hr)]; [by left|].
  apply tags_loop_inv in Hr as [?|(t3 & t4 & times & -> & Hr & _ & Ht1 & Ht2)]; [by left|].
  destruct (List.rev _) as [|v l] eqn:Hv; [left; by apply runs_fail_inv in Hr|].
  apply ask_inv in Hr as [?|(rw & t5 & -> & _ & Hr)]; [by left|].
  apply ask_inv in Hr as [?|(rt & t6 & -> & _ & Hr)]; [by left|].
  apply ask_inv in Hr as [?|(rc & t7 & -> & _ & Hr)]; [by left|].
  apply head_commit_inv in Hr as [?|(rh & r' & t8 & -> & Hh & Hr' & Hr)]; [by left|].
  apply tag_object_inv in Hr as [?|(e & tg & t9 & -> & Hr)]; [by left|right].
  eexists con, _, r, rtags, times, v, rt, rh, r', tg, t9. split_and!; try done; try in_trace.
  - split; [done|]. intros tg' z Hz. destruct (Ht2 _ _ Hz) as [Hn|(ref & r1 & r2 & Hin & Hs & I1 & I2 & ->)]; [by rewrite lookup_empty in Hn|].
    exists ref, r1, r2. split_and!; try done; right; right; apply elem_of_app; by left.
  - by rewrite Hv.
  - rewrite !fmap_cons, fmap_app, !fmap_cons. cbn [fst]. in_trace.
Qed.

Lemma cloneSemVer_ok (g : Client) url tag opts (t : list event) o :
  runs (cloneSemVer Equal NewConstraint range g url tag opts) t o → fetched g (SparseCheckoutDirectories opts) (eq FromHead) t o.
Proof.
  destruct o as [g' res]. intros [Hf|Hinv]%cloneSemVer_inv; [by apply failed_ok|].
  destruct Hinv as (con & o & r & rtags & times & v & rt & rh & r' & tg & t' & _ & I1 & Hr & _ & _ & _ & _ & _ & I2 & Hh & I3 & Hr' & Hf).
  by eapply (finish_head_ok g g' o r rh r').
Qed.

(** *** By reference *)

Lemma with_reference_ok (g : Client) dirs srcs (t : list event) g' ref res :
  fetched g dirs srcs t (g', res) → fetched g dirs srcs t (g', with_reference_result ref res).
Proof.
  destruct res as [e|[c|]]; [done| |done]. cbn. intros (src & Hs & Hc). exists src. split; [done|].
  destruct Hc as (o & r & h & r' & H1 & H2 & H3 & H4 & H5 & H6 & H7). by exists o, r, h, r'.
Qed.

Lemma result_fetched (g : Client) opts srcs (t : list event) o :
  result_ok g (unobserved opts) srcs t o → fetched g (SparseCheckoutDirectories opts) srcs t o.
Proof. intros [(c & _ & Hc)|Hf]; [by apply observed_unobserved in Hc|done]. Qed.

Lemma fetched_weaken (g : Client) dirs (P Q : source → Prop) (t : list event) o :
  fetched g dirs P t o → (∀ s, P s → Q s) → fetched g dirs Q t o.
Proof. destruct o as [g' [e|[c|]]]; cbn; [done| |done]. intros (src & Hs & Hc) HPQ. exists src. auto. Qed.

Lemma cloneRefName_ok (g : Client) url refName opts (t : list event) o :
  runs (cloneRefName g url refName opts) t o → hashes_ok t → refName ≠ [] → result_ok g opts (λ _, True) t o.
Proof.
  destruct o as [g' res]. unfold cloneRefName. destruct (authOpts g) as [ao|]; [|intros Hf%runs_fail_inv _; right; by apply failed_ok].
  destruct (transportAuth _ _) as [e|auth]; [intros Hf%runs_fail_inv _; right; by apply failed_ok|].
  intros [Hf|(r & t' & -> & Hr)]%getRemoteHEAD_inv Hok Hne; [right; by apply failed_ok|].
  destruct (empty (filterRefs (gr_refs r) refName)) eqn:He; [right; apply failed_ok; by apply runs_fail_inv in Hr|].
  apply bool_decide_eq_false in He.
  assert (Hok' : hashes_ok t' ∧ hashes_ok [(GList (remote_of g url auth), r)]) by (apply and_comm, (hashes_ok_app [(GList (remote_of g url auth), r)] t'), Hok).
  destruct Hok' as [Hok1 Hok2].
  assert (Hin : ∀ e, e ∈ t' → e ∈ (GList (remote_of g url auth), r) :: t') by (intros e ?; by right).
  destruct (_ && _) eqn:Hb.
  - apply andb_true_iff in Hb as [Hlast%negb_true_iff Heq%bool_decide_eq_true].
    apply runs_ret_inv in Hr as [-> [= -> ->]]. left. eexists. split; [done|]. apply observed_partial; [done|done|done|].
    right. destruct (filterRefs_listed (gr_refs r) refName) as [?|(lr & Hl & _ & Hf)]; [done|]. rewrite <- Heq.
    unfold AbsoluteReference. cbn [partialCommit c_Reference c_Hash]. rewrite Hf, ExtractHash_listed by (eapply Hok; [left|done]).
    by destruct refName.
  - right. destruct (IsBranch refName); [|destruct (IsTag refName)].
    + eapply fetched_weaken; [|done]. eapply fetched_mono; [|exact Hin]. apply result_fetched. by eapply cloneBranch_ok.
    + apply runs_bind_inv in Hr as (t1 & [g1 r1] & t2 & -> & Hr & Hend). apply runs_ret_inv in Hend as [-> [= -> ->]].
      rewrite app_nil_r in *. apply with_reference_ok. eapply fetched_weaken; [|done]. eapply fetched_mono; [|exact Hin].
      apply result_fetched. by eapply cloneTag_ok.
    + eapply fetched_weaken; [|done]. eapply fetched_mono; [|exact Hin]. by eapply cloneCommit_ok.
Qed.

(** C18. What [Clone] returns, in every run and for every strategy: a commit
    with content is one of the repository that was cloned into the storage of
    the client, which works on it from then on, and it is the commit that is
    checked out: that of HEAD, or the one that was asked for by its hash; a
    commit without content is returned only when nothing but the listing of
    the remote was done, the remote still has the reference at this hash, and
    this is the revision that was observed before; no commit only when the
    remote is empty; and an error leaves the client as it was, unless the
    commit could not be encoded. *)
Theorem Clone_result (g : Client) (url : bytes) (cfg : CloneConfig) (t : list event) (o : out) :
  runs (Clone Equal NewConstraint range g url cfg) t o → hashes_ok t →
  result_ok g cfg (λ src, (cs_Commit (strategy cfg) ≠ [] → src = Requested (cs_Commit (strategy cfg))) ∧
                          (cs_Commit (strategy cfg) = [] → RefName (strategy cfg) = [] → src = FromHead)) t o.
Proof.
  unfold Clone, clone, empty. destruct (validateUrlAndAuthOptions g url) as [e|].
  { destruct o. intros Hf%runs_fail_inv _. right. by apply failed_ok. }
  destruct (bool_decide_reflect (cs_Commit (strategy cfg) = [])) as [Hc|Hc]; cbn [negb].
  2: { intros Hr _. right. eapply fetched_weaken; [by apply cloneCommit_ok in Hr|]. intros src <-. done. }
  destruct (bool_decide_reflect (RefName (strategy cfg) = [])) as [Hn|Hn]; cbn [negb].
  2: { intros Hr Hok. destruct (cloneRefName_ok _ _ _ _ _ _ Hr Hok Hn) as [?|Hf]; [by left|right].
       eapply fetched_weaken; [exact Hf|]. done. }
  assert (Hhead : ∀ opts, result_ok g opts (eq FromHead) t o → result_ok g opts (λ src, (cs_Commit (strategy cfg) ≠ [] → src = Requested (cs_Commit (strategy cfg))) ∧
      (cs_Commit (strategy cfg) = [] → RefName (strategy cfg) = [] → src = FromHead)) t o).
  { intros opts [?|Hf]; [by left|right]. eapply fetched_weaken; [exact Hf|]. by intros src <-. }
  intros Hr Hok. apply Hhead. destruct (bool_decide (cs_Tag (strategy cfg) = [])); cbn [negb] in Hr; [|by eapply cloneTag_ok].
  destruct (bool_decide (SemVer (strategy cfg) = [])); cbn [negb] in Hr; [by eapply cloneBranch_ok|].
  right. by eapply cloneSemVer_ok.
Qed.

(** What [semver] promises: a total preorder, the equality it induces, and the
    text that was parsed. *)
Class SemverLaws : Prop := {
  less_asym v w : LessThan v w = true → LessThan w v = false;
  less_le_trans u v w : LessThan v u = false → LessThan w v = false → LessThan w u = false;
  Equal_less v w : Equal v w = negb (LessThan v w) && negb (LessThan w v);
  Original_parsed tag v : ParseVersion tag = Some v → Original v = tag }.

Context `{!SemverLaws}.
Hypothesis range_ok : ∀ m, range m ≡ₚ (map_to_list m).*1.

Definition tag_time (times : gmap bytes Z) (v : Version) : Z := default zero_time (times !! Original v).

(** [v] is not after [w]: smaller, or equal and not younger. *)
Definition version_le (times : gmap bytes Z) (v w : Version) : Prop :=
  LessThan w v = false ∧ (LessThan v w = false → (tag_time times v <= tag_time times w)%Z).

Lemma version_less_le times v w : version_less Equal times w v = false ↔ version_le times v w.
Proof.
  unfold version_less, version_le. rewrite Equal_less. fold (tag_time times w) (tag_time times v).
  destruct (LessThan w v) eqn:Hwv; cbn; [by intuition|].
  destruct (LessThan v w) eqn:Hvw; cbn; [by intuition|]. rewrite Z.ltb_ge. intuition.
Qed.

Lemma version_le_trans times : Transitive (version_le times).
Proof.
  intros u v w [Huv Ht] [Hvw Ht']. split; [by eapply less_le_trans|].
  intros Huw. etrans; [apply Ht|apply Ht']; by eapply less_le_trans.
Qed.

Lemma version_le_total times : Total (version_le times).
Proof.
  intros v w. unfold version_le. destruct (LessThan w v) eqn:Hwv.
  - right. split; [by apply less_asym|]. by intros Hf.
  - destruct (LessThan v w) eqn:Hvw; [by left|].
    destruct (Z.le_ge_cases (tag_time times v) (tag_time times w)); [left|right]; auto.
Qed.

Lemma last_is_greatest (times : gmap bytes Z) (l : list Version) (v : Version) :
  hd_error (List.rev (sort_Slice (version_less Equal times) l)) = Some v →
  v ∈ l ∧ ∀ w, w ∈ l → version_le times w v.
Proof.
  pose proof (sort_Slice_perm (version_less Equal times) l) as Hp.
  pose proof (sort_Slice_sorted (version_less Equal times) (version_le times)
    (Transitive0 := version_le_trans times) (Total0 := version_le_total times) (λ x y, version_less_le times x y) l) as Hs.
  destruct (sort_Slice _ l) as [|x l0 _] eqn:Hl using rev_ind; [done|]. rewrite List.rev_app_distr. cbn. intros [= ->].
  split; [rewrite <- Hp; apply elem_of_app; right; left|]. intros w Hw. rewrite <- Hp in Hw.
  apply elem_of_app in Hw as [Hw| ->%list_elem_of_singleton].
  - apply StronglySorted_app in Hs as (Hall & _ & _). apply Hall; [done|left].
  - split; [|by intros _]. destruct (LessThan v v) eqn:Hv; [|done]. by rewrite (less_asym _ _ Hv) in Hv.
Qed.

(** By version the greatest is checked out: among the tags of the clone
    that parse and satisfy the constraint no version is greater than that of
    the tag whose reference is checked out, and of those that are equal, as
    with different build metadata, it has the youngest commit. *)
Theorem cloneSemVer_latest (g g' : Client) (url tag : bytes) (opts : CloneConfig) (t : list event) (c : Commit) :
  runs (cloneSemVer Equal NewConstraint range g url tag opts) t (g', inr (Some c)) →
  ∃ con repo rtags times v rt,
    NewConstraint tag = inr con ∧ repository g' = Some repo ∧
    (GTags repo, rtags) ∈ t ∧ tag_times repo (gr_refs rtags) t times ∧
    (∃ ref, ref ∈ gr_refs rtags ∧ ParseVersion (Short (r_Name ref)) = Some v) ∧ con v = true ∧
    (∀ ref w, ref ∈ gr_refs rtags → ParseVersion (Short (r_Name ref)) = Some w → con w = true → version_le times w v) ∧
    (GTag repo (Original v), rt) ∈ t ∧ c_Reference c = r_Name (gr_ref rt) ∧
    GCheckout repo (TBranch (r_Name (gr_ref rt)) false) false (SparseCheckoutDirectories opts) ∈ t.*1.
Proof.
  intros [(_ & e & He)|Hinv]%cloneSemVer_inv; [done|].
  destruct Hinv as (con & o & r & rtags & times & v & rt & rh & r' & tg & t' & Hcon & _ & _ & Itags & Htimes & Hv & Itag & Ico & _ & _ & _ & _ & Hf).
  apply cloned_finish_inv in Hf as (_ & -> & [(n & e & He)|(c' & [= <-] & _ & Href)]); [done|].
  apply last_is_greatest in Hv as [Hin Hmax]. destruct Htimes as [Ht1 Ht2].
  assert (Hm : ∀ w, w ∈ matchedVersions con (range times) ↔ ∃ name, is_Some (times !! name) ∧ ParseVersion name = Some w ∧ con w = true).
  { intros w. unfold matchedVersions. rewrite list_elem_of_omap. split.
    - intros (name & Hn & Hw). exists name. rewrite range_ok in Hn. apply list_elem_of_fmap in Hn as ([n z] & -> & Hn%elem_of_map_to_list).
      split; [by exists z|]. cbn in Hw |- *. destruct (ParseVersion n) as [w'|]; [|done]. destruct (con w') eqn:Hc; by simplify_eq.
    - intros (name & [z Hz] & Hp & Hc). exists name. rewrite Hp, Hc. split; [|done]. rewrite range_ok.
      apply (list_elem_of_fmap_2 fst _ (name, z)). by apply elem_of_map_to_list. }
  exists con, (gr_repo r), rtags, times, v, rt. apply Hm in Hin as (name & [z Hz] & Hp & Hc). split_and!; try done.
  - destruct (Ht2 _ _ Hz) as (ref & r1 & r2 & Hin & <- & _). by exists ref.
  - intros ref w Hr Hw Hcw. apply Hmax, Hm. eauto.
Qed.
End spec.

(** * A Git server to run the client against

    The theorems of [GitCloneSpec] at concrete runs. *)

(** ** Small stand-ins for the libraries *)

(** Errors are their texts. *)
#[local] Instance demo_gogit : GoGit bytes := {|
  Error e := e;
  is_ErrRepositoryNotFound e := bool_decide (e = str "repository not found");
  is_ErrEmptyRemoteRepository e := bool_decide (e = str "remote repository is empty");
  is_ErrReferenceNotFound e := bool_decide (e = str "reference not found");
  is_ErrObjectNotFound e := bool_decide (e = str "object not found");
  Short r := TrimPrefix (TrimPrefix r (str "refs/heads/")) (str "refs/tags/");
  url_Parse u := match cut_first ":" u with
                 | Some (scheme, _) => inr (mkURL scheme [] None)
                 | None => inr (mkURL [] [] None)
                 end;
  PublicKeys := bytes;
  NewPublicKeys user pem password := inr pem;
  DefaultAuthBuilder user := inr None |}.

#[local] Instance demo_ssh : Ssh bytes.
Proof.
  refine {| Marshal k := k; KeyType k := str "ssh-ed25519"; ParsePublicKey b := Some b;
            hmac_sha1 salt host := salt ++ host; sha256 b := b; Normalize b := b; HashHostname host salt := host |}.
  intros k. by exists k.
Defined.

(** A version is as great as its first digit. *)
Definition major (v : bytes) : Z := match v with c :: _ => bval c | [] => 0 end.
#[local] Instance demo_semver : Semver := {|
  Version := bytes; NewVersion b := Some b; LessThan v w := (major v <? major w)%Z; Original v := v |}.
Definition demo_Equal (v w : bytes) : bool := (major v =? major w)%Z.
Definition demo_NewConstraint (s : bytes) : bytes + (bytes → bool) := inr (λ v, (major v <? major s)%Z).
Definition demo_range (m : gmap bytes Z) : list bytes := (map_to_list m).*1.

Lemma demo_range_ok m : demo_range m ≡ₚ (map_to_list m).*1.
Proof. reflexivity. Qed.

#[local] Instance demo_semver_laws : SemverLaws demo_Equal.
Proof.
  split; unfold demo_Equal; cbn.
  - intros v w. rewrite Z.ltb_lt, Z.ltb_ge. lia.
  - intros u v w. rewrite !Z.ltb_ge. lia.
  - intros v w. destruct (Z.eqb_spec (major v) (major w)), (Z.ltb_spec (major v) (major w)), (Z.ltb_spec (major w) (major v)); done || lia.
  - intros tag v. unfold ParseVersion. cbn. destruct (_ <=? _); [done|]. by intros [=].
Qed.

(** ** The server *)

Definition hash1 : bytes := str "1111111111111111111111111111111111111111".
Definition hash2 : bytes := str "2222222222222222222222222222222222222222".

Definition demo_object (hash : bytes) (when : Z) : object bytes :=
  mkObject hash [] zeroSignature (mkSignature [] [] when) [] (inr (str "tree")) (str "message").

Abbreviation dcall := (gcall (E := bytes) (K := bytes) (Repo := nat) (Proxy := unit) (Signer := unit)).
Abbreviation dreply := (greply (E := bytes) (Repo := nat)).

Definition ok_reply : dreply := mkReply None [] 7 (mkRef [] []) [] (demo_object [] 0) [] true.
Definition with_refs (l : list Reference) : dreply := mkReply None l 7 (mkRef [] []) [] (demo_object [] 0) [] true.
Definition with_ref (r : Reference) : dreply := mkReply None [] 7 r (r_Hash r) (demo_object (r_Hash r) 0) [] true.
Definition with_object (o : object bytes) : dreply := mkReply None [] 7 (mkRef [] []) [] o [] true.

(** A repository with a branch and three tags; the last two are of equal
    versions. *)
Definition demo_server (h : list (dcall * dreply)) (c : dcall) : dreply :=
  match c with
  | GList _ => with_refs [mkRef (str "HEAD") hash1; mkRef (str "refs/heads/main") hash1]
  | GHead _ => with_ref (mkRef (str "refs/heads/main") hash1)
  | GTags _ => with_refs [mkRef (str "refs/tags/1.0.0") hash1; mkRef (str "refs/tags/2.0.0+a") hash2; mkRef (str "refs/tags/2.0.0+b") hash1]
  | GResolveRevision _ rev => with_ref (mkRef rev (if bool_decide (rev = str "refs/tags/2.0.0+a") then hash2 else hash1))
  | GCommitObject _ hash => with_object (demo_object hash (if bool_decide (hash = hash2) then 20 else 10))
  | GTag _ tag => with_ref (mkRef (str "refs/tags/" ++ tag) hash2)
  | _ => ok_reply
  end.

Definition demo_auth : AuthOptions := mkAuthOptions HTTPS (str "example.org") (str "user") (str "secret") [] [] [] [] [] [].
Definition demo_client : Client (Repo := nat) (Proxy := unit) :=
  mkClient (str "/tmp/clone") None (Some demo_auth) (Some InMemory) (Some InMemory) false false true tt [].
Definition demo_url : bytes := str "https://example.org/repo".

Definition demo_config (s : CheckoutStrategy) (last : bytes) : CloneConfig := mkCloneConfig s false last false [].
Definition on_main : CheckoutStrategy := mkStrategy (str "main") [] [] [] [].
Definition by_version : CheckoutStrategy := mkStrategy [] [] (str "3") [] [].

Definition demo_Clone := Clone (Signer := unit) demo_Equal demo_NewConstraint demo_range demo_client demo_url.
Definition demo_run (cfg : CloneConfig) := run demo_server [] (demo_Clone cfg).

(** A clone of the branch, and one more when nothing has changed. *)
Definition run_first := demo_run (demo_config on_main []).
Definition run_again := demo_run (demo_config on_main (str "main@sha1:1111111111111111111111111111111111111111")).
Definition run_version := demo_run (demo_config by_version []).

Example first_clone :
  ∃ g c, run_first.1 = (g, inr (Some c)) ∧ repository g = Some 7 ∧ c_Hash c = Some hash1 ∧ IsConcreteCommit c = true.
Proof. eexists _, _. split; [vm_compute; reflexivity|]. vm_compute. done. Qed.

Lemma demo_clone_runs cfg : runs (demo_Clone cfg) (demo_run cfg).2 (demo_run cfg).1.
Proof.
  unfold demo_run. destruct (run demo_server [] (demo_Clone cfg)) as [o t] eqn:Hr.
  apply run_runs in Hr as (t' & -> & Hr). exact Hr.
Qed.

Lemma hashes_ok_all (t : list (dcall * dreply)) : Forall (λ e, Forall (λ lr, hash_ok (r_Hash lr)) (gr_refs e.2)) t → hashes_ok t.
Proof. intros Hall rm r lr Hin Hlr. rewrite Forall_forall in Hall. specialize (Hall _ Hin). rewrite Forall_forall in Hall. by apply Hall. Qed.

#[local] Instance hash_ok_dec h : Decision (hash_ok h).
Proof. unfold hash_ok. apply _. Defined.

Lemma first_trace :
  ∃ o r t, run_first.2 = (GClone (Some InMemory) (Some InMemory) o, r) :: t ∧ rm_Auth (cl_Remote o) = BasicAuth (str "user") (str "secret").
Proof.
  assert (match run_first.2 with
          | (GClone (Some InMemory) (Some InMemory) o, _) :: _ => rm_Auth (cl_Remote o) = BasicAuth (str "user") (str "secret")
          | _ => False
          end) as Hm by (vm_compute; reflexivity).
  destruct run_first.2 as [|[[] r] t]; try done. repeat case_match; try done. by eexists _, _, _.
Qed.

(** The password goes to a server over HTTPS. *)
Lemma Clone_guarded_witness :
  ∃ o r t, run_first.2 = (GClone (Some InMemory) (Some InMemory) o, r) :: t ∧
    rm_Auth (cl_Remote o) = BasicAuth (str "user") (str "secret") ∧ remote_ok demo_client demo_url (cl_Remote o).
Proof.
  pose proof (Clone_guarded _ _ _ _ _ _ _ _ (demo_clone_runs (demo_config on_main []))) as Hg.
  destruct first_trace as (o & r & t & Ht & Ha). exists o, r, t. split; [exact Ht|]. split; [exact Ha|].
  unfold run_first in Ht. rewrite Ht in Hg. apply Forall_cons in Hg as [Hg _]. exact Hg.
Defined.

Definition config_again : CloneConfig := demo_config on_main (str "main@sha1:1111111111111111111111111111111111111111").

Lemma again_trace :
  ∃ c r, run_again.1 = (demo_client, inr (Some c)) ∧ c_Hash c = Some hash1 ∧
    run_again.2 = [(GList (remote_of demo_client demo_url (BasicAuth (str "user") (str "secret"))), r)] ∧
    Forall (λ e, Forall (λ lr, hash_ok (r_Hash lr)) (gr_refs e.2)) run_again.2.
Proof.
  eexists _, _. split; [vm_compute; reflexivity|]. split; [vm_compute; reflexivity|]. split; [vm_compute; reflexivity|].
  apply (bool_decide_unpack _). vm_compute. exact I.
Qed.

(** The second clone is only a listing. *)
Lemma Clone_result_witness :
  ∃ c, run_again.1 = (demo_client, inr (Some c)) ∧ c_Hash c = Some hash1 ∧
    observed demo_client demo_client config_again run_again.2 c.
Proof.
  destruct again_trace as (c & r & Hres & Hh & Ht & Hok). exists c. split; [exact Hres|]. split; [exact Hh|].
  pose proof (Clone_result demo_Equal demo_NewConstraint demo_range demo_client demo_url _ _ _ (demo_clone_runs config_again)
    (hashes_ok_all _ Hok)) as Hg.
  change (demo_run config_again) with run_again in Hg. rewrite Hres, Ht in Hg. rewrite Ht. destruct Hg as [(c' & Hc & Hobs)|Hf].
  - cbn [snd fst] in Hc, Hobs. injection Hc as <-. exact Hobs.
  - exfalso. destruct Hf as (src & _ & o & r1 & h & r' & Hin & _). apply list_elem_of_singleton in Hin. discriminate.
Defined.

Lemma version_result :
  ∃ g c, run_version.1 = (g, inr (Some c)) ∧ c_Reference c = str "refs/tags/2.0.0+a".
Proof. eexists _, _. split; [vm_compute; reflexivity|vm_compute; reflexivity]. Qed.

Lemma version_clone : demo_Clone (demo_config by_version []) =
  cloneSemVer demo_Equal demo_NewConstraint demo_range demo_client demo_url (str "3") (demo_config by_version []).
Proof. reflexivity. Qed.

(** Of two equal versions the tag with the younger commit is checked out. *)
Lemma cloneSemVer_latest_witness :
  ∃ g c con repo rtags times v rt, run_version.1 = (g, inr (Some c)) ∧
    demo_NewConstraint (str "3") = inr con ∧ repository g = Some repo ∧ (GTags repo, rtags) ∈ run_version.2 ∧
    (∀ ref w, ref ∈ gr_refs rtags → ParseVersion (Short (r_Name ref)) = Some w → con w = true → version_le times w v) ∧
    (GTag repo (Original v), rt) ∈ run_version.2 ∧ c_Reference c = r_Name (gr_ref rt) ∧ c_Reference c = str "refs/tags/2.0.0+a".
Proof.
  destruct version_result as (g & c & Hres & Hc).
  pose proof (demo_clone_runs (demo_config by_version [])) as Hr. change (demo_run (demo_config by_version [])) with run_version in Hr.
  rewrite Hres, version_clone in Hr.
  destruct (cloneSemVer_latest _ _ _ demo_range_ok _ _ _ _ _ _ _ Hr)
    as (con & repo & rtags & times & v & rt & H1 & H2 & H3 & _ & _ & _ & H4 & H5 & H6 & _).
  exists g, c, con, repo, rtags, times, v, rt. split_and!; assumption.
Defined.
