(* ===== verification/KustomizeVars.v ===== *)
(** * Variable substitution in kustomizations ([kustomize/kustomize_varsub.go])

    The variables come from config maps and secrets of the cluster, in the
    order of the references, and from the kustomization itself; the text of a
    resource is evaluated with them by [EnvEval]. *)

From S2P Require Import Prelude GoStd Utf8 GoText Regexp Glob EnvScan EnvParse EnvParseTotal EnvEval EnvSpec Interaction.

(** Reading fields of unstructured objects ([K]), whose values are of type [V]
    and whose maps of type [M], as apimachinery does: an absent field is no
    error, a field of another type is one. *)
Class Unstructured (K V M E : Type) := {
  GetNamespace : K → bytes;
  NestedString : K → list bytes → E + option bytes;
  NestedBool : K → list bytes → bool;
  NestedStringSlice : K → list bytes → E + option (list bytes);
  NestedStringMap : K → list bytes → E + option (gmap bytes bytes);
  NestedSlice : K → list bytes → E + option (list V);
  as_map : V → option M;
  nil_map : M }.

Definition specField : bytes := str "spec".
Definition postBuildField : bytes := str "postBuild".
Definition substituteFromField : bytes := str "substituteFrom".
Definition substituteField : bytes := str "substitute".
Definition substituteAnnotationKey : bytes := str "kustomize.toolkit.fluxcd.io/substitute".
Definition DisabledValue : bytes := str "disabled".

(** [src/kustomize/kustomize_varsub.go:37-41 varsubRegex] *)
Definition varsubRegex : re :=
  whole (RSeq (RClass (λ r, is_rune "_" r || alpha_class r)) (RStar (RClass (λ r, is_rune "_" r || alpha_class r || digit_class r)))).

(** [src/kustomize/kustomize.go:19-33 SubstituteReference] *)
Record SubstituteReference := mkSubRef { sr_Kind : bytes; sr_Name : bytes; sr_Optional : bool }.

(** [src/kustomize/kustomize_varsub.go:52-57 SubstituteOptions] *)
Record SubstituteOptions := mkSubOptions { DryRun : bool; Strict : bool; Always : bool }.

(** [src/kustomize/kustomize_varsub.go:59-59 SubstituteOption] *)
Inductive SubstituteOption :=
  | SubstituteWithDryRun (b : bool)
  | SubstituteWithStrict (b : bool)
  | SubstituteWithAlways (b : bool).

(** [src/kustomize/kustomize_varsub.go:62-87 SubstituteWithDryRun] *)
Definition apply_sub_option (a : SubstituteOptions) (o : SubstituteOption) : SubstituteOptions :=
  match o with
  | SubstituteWithDryRun b => mkSubOptions b (Strict a) (Always a)
  | SubstituteWithStrict b => mkSubOptions (DryRun a) b (Always a)
  | SubstituteWithAlways b => mkSubOptions (DryRun a) (Strict a) b
  end.

(** [strings.ReplaceAll(v, "\n", "")] *)
Definition strip_newlines (v : bytes) : bytes := strings_Replace v [newline] [] None.

(** The data of an object over the variables so far. *)
Definition add_vars (data vars : gmap bytes bytes) : gmap bytes bytes := (strip_newlines <$> data) ∪ vars.

Section vars.
Context {K V M E Res : Type} `{!Unstructured K V M E} `{Unicode}.
(** The conversion of a map to a reference; the text, the labels and the
    annotations of a resource, its replacement from JSON; YAML to JSON. *)
Context (FromUnstructured : M → E + SubstituteReference).
Context (AsYAML : Res → E + bytes) (GetLabels GetAnnotations : Res → gmap bytes bytes) (UnmarshalJSON : Res → bytes → E + Res).
Context (YAMLToJSON : bytes → E + bytes).

(** The reading of a config map or a secret; the binary data of a secret are
    used as text. *)
Inductive vcall := VGet (kind namespace name : bytes).
Record vreply := mkVReply { vr_err : option E; vr_notFound : bool; vr_data : gmap bytes bytes }.

(** The errors; [EPanics] is a panic in the evaluation.  The name in
    [EVarName] is that of some variable. *)
Inductive verr :=
  | EUnstructured (e : E)
  | ESubstituteFrom (es : list (nat + E))
  | EGet (kind name : bytes) (e : E)
  | EVarName
  | EEnvsubst (e : evalError)
  | EYAML (e : E)
  | EUnmarshal (e : E)
  | EAsYAML (e : E)
  | EPanics.

(** The conversion of the elements of a list, which goes on after an error: the
    position of an element that is no map, and the error of the conversion.
    [src/kustomize/kustomize_varsub.go:224-238 getSubstituteFrom] *)
Fixpoint convert_all {T : Type} (from : M → E + T) (k : nat) (l : list V) (res : list T) (errs : list (nat + E)) : list T * list (nat + E) :=
  match l with
  | [] => (res, errs)
  | s :: l =>
      let '(sub, errs) := match as_map s with
                          | Some m => (m, errs)
                          | None => (nil_map, errs ++ [inl k])
                          end in
      match from sub with
      | inr x => convert_all from (S k) l (res ++ [x]) errs
      | inl e => convert_all from (S k) l res (errs ++ [inr e])
      end
  end.

(** An element that was not converted is in the list as its zero value in the
    code; with an error the list is not used.
    [src/kustomize/kustomize_varsub.go:218-244 getSubstituteFrom] *)
Definition getSubstituteFrom (kustomization : K) : verr + list SubstituteReference :=
  match NestedSlice kustomization [specField; postBuildField; substituteFromField] with
  | inl e => inl (ESubstituteFrom [inr e])
  | inr None => inr []
  | inr (Some l) => match convert_all FromUnstructured 0 l [] [] with
                    | (res, []) => inr res
                    | (_, errs) => inl (ESubstituteFrom errs)
                    end
  end.

(** [src/kustomize/kustomize_varsub.go:159-187 LoadVariables] *)
Fixpoint load_loop (namespace : bytes) (refs : list SubstituteReference) (vars : gmap bytes bytes) : prog vcall vreply (verr + gmap bytes bytes) :=
  match refs with
  | [] => Ret (inr vars)
  | r :: refs =>
      if bool_decide (sr_Kind r = str "ConfigMap") || bool_decide (sr_Kind r = str "Secret") then
        Call (VGet (sr_Kind r) namespace (sr_Name r)) (λ a,
          match vr_err a with
          | Some e => if sr_Optional r && vr_notFound a then load_loop namespace refs vars
                      else Ret (inl (EGet (sr_Kind r) (sr_Name r) e))
          | None => load_loop namespace refs (add_vars (vr_data a) vars)
          end)
      else load_loop namespace refs vars
  end.

(** [src/kustomize/kustomize_varsub.go:151-189 LoadVariables] *)
Definition LoadVariables (kustomization : K) : prog vcall vreply (verr + gmap bytes bytes) :=
  match getSubstituteFrom kustomization with
  | inl e => Ret (inl e)
  | inr refs => load_loop (GetNamespace kustomization) refs ∅
  end.

(** The lookup of a variable. *)
Definition vars_mapping (vars : gmap bytes bytes) (strict : bool) : mapping := λ s,
  if strict then (default [] (vars !! s), bool_decide (is_Some (vars !! s))) else (default [] (vars !! s), true).

(** [src/kustomize/kustomize_varsub.go:191-216 varSubstitution] *)
Definition varSubstitution (data : bytes) (vars : gmap bytes bytes) (strict : bool) : verr + bytes :=
  if negb (forallb (MatchString varsubRegex) (map_to_list vars).*1) then inl EVarName
  else match envsubst_Eval data (vars_mapping vars strict) with
       | Result output None =>
           match YAMLToJSON output with inl e => inl (EYAML e) | inr jsonData => inr jsonData end
       | Result _ (Some e) => inl (EEnvsubst e)
       | EvalPanic | EvalNoFuel => inl EPanics
       end.

Definition disabled (res : Res) : bool :=
  bool_decide (GetLabels res !! substituteAnnotationKey = Some DisabledValue) ||
  bool_decide (GetAnnotations res !! substituteAnnotationKey = Some DisabledValue).

(** What is done with the variables of the cluster.
    [src/kustomize/kustomize_varsub.go:121-147 SubstituteVariables] *)
Definition substitute_with (kustomization : K) (res : Res) (resData : bytes) (options : SubstituteOptions) (vars : gmap bytes bytes) : verr + option Res :=
  match NestedStringMap kustomization [specField; postBuildField; substituteField] with
  | inl e => inl (EUnstructured e)
  | inr substitute =>
      let vars := match substitute with Some s => add_vars s vars | None => vars end in
      if negb (bool_decide (vars = ∅)) || Always options then
        match varSubstitution resData vars (Strict options) with
        | inl e => inl e
        | inr jsonData => match UnmarshalJSON res jsonData with inl e => inl (EUnmarshal e) | inr res => inr (Some res) end
        end
      else inr (Some res)
  end.

(** [src/kustomize/kustomize_varsub.go:88-149 SubstituteVariables] *)
Definition SubstituteVariables (kustomization : K) (res : Res) (opts : list SubstituteOption) : prog vcall vreply (verr + option Res) :=
  let options := foldl apply_sub_option (mkSubOptions false false false) opts in
  match AsYAML res with
  | inl e => Ret (inl (EAsYAML e))
  | inr resData =>
      if disabled res then Ret (inr None)
      else if DryRun options then Ret (substitute_with kustomization res resData options ∅)
      else vars ← LoadVariables kustomization;
           Ret (match vars with inl e => inl e | inr vars => substitute_with kustomization res resData options vars end)
  end.

(** ** What is substituted *)

(** The data that were read, in order. *)
Definition datas (t : list (vcall * vreply)) : list (gmap bytes bytes) :=
  omap (λ e, match vr_err e.2 with None => Some (vr_data e.2) | Some _ => None end) t.

(** The last of the sources that has a variable gives its value. *)
Fixpoint last_value (k : bytes) (l : list (gmap bytes bytes)) (v : option bytes) : option bytes :=
  match l with
  | [] => v
  | d :: l => last_value k l (match d !! k with Some x => Some (strip_newlines x) | None => v end)
  end.

Lemma lookup_add_vars (data vars : gmap bytes bytes) (k : bytes) :
  add_vars data vars !! k = match data !! k with Some x => Some (strip_newlines x) | None => vars !! k end.
Proof.
  unfold add_vars. rewrite lookup_union, lookup_fmap. destruct (data !! k) as [x|]; cbn; [|by destruct (vars !! k)].
  by destruct (vars !! k).
Qed.

(** The references of the kustomization: each element of its list, converted. *)
Definition references (kustomization : K) (refs : list SubstituteReference) : Prop :=
  match NestedSlice kustomization [specField; postBuildField; substituteFromField] with
  | inl _ => False
  | inr None => refs = []
  | inr (Some l) => Forall2 (λ v r, ∃ m, as_map v = Some m ∧ FromUnstructured m = inr r) l refs
  end.

Lemma convert_all_ok {T : Type} (from : M → E + T) (k : nat) (l : list V) (acc res : list T) (errs : list (nat + E)) :
  convert_all from k l acc errs = (res, []) →
  errs = [] ∧ ∃ res', res = acc ++ res' ∧ Forall2 (λ v r, ∃ m, as_map v = Some m ∧ from m = inr r) l res'.
Proof.
  revert k acc errs. induction l as [|v l IH]; intros k acc errs; cbn [convert_all].
  { intros [= -> ->]. split; [done|]. exists []. by rewrite app_nil_r. }
  destruct (as_map v) as [m|] eqn:Hm.
  - destruct (from m) as [e|x] eqn:Hx; intros Hc; apply IH in Hc as [He (res' & -> & Hf)]; [by apply app_eq_nil in He as [_ ?]|].
    split; [done|]. exists (x :: res'). rewrite <-app_assoc. split; [done|]. constructor; [by exists m|done].
  - destruct (from nil_map); intros [He _]%IH; repeat (apply app_eq_nil in He as [He ?]); done.
Qed.

Lemma getSubstituteFrom_ok (kustomization : K) (refs : list SubstituteReference) :
  getSubstituteFrom kustomization = inr refs → references kustomization refs.
Proof.
  unfold getSubstituteFrom, references. destruct (NestedSlice _ _) as [e|[l|]]; [done| |by intros [= <-]].
  destruct (convert_all _ _ _ _ _) as [res [|? ?]] eqn:Hc; [|done]. intros [= <-].
  by apply convert_all_ok in Hc as [_ (res' & -> & Hf)].
Qed.

(** References to config maps and secrets are read, others are passed over. *)
Definition is_source (r : SubstituteReference) : Prop := sr_Kind r = str "ConfigMap" ∨ sr_Kind r = str "Secret".

(** A reference was read in the namespace; it may be missing if it is optional. *)
Definition read_in (namespace : bytes) (r : SubstituteReference) (e : vcall * vreply) : Prop :=
  e.1 = VGet (sr_Kind r) namespace (sr_Name r) ∧
  (vr_err e.2 = None ∨ is_Some (vr_err e.2) ∧ sr_Optional r = true ∧ vr_notFound e.2 = true).

(** The references that are read, in order: a failure that is not tolerated ends
    the reading. *)
Lemma load_loop_spec (namespace : bytes) (refs : list SubstituteReference) (vars vars' : gmap bytes bytes) (t : list (vcall * vreply)) :
  runs (load_loop namespace refs vars) t (inr vars') →
  (∀ k, vars' !! k = last_value k (datas t) (vars !! k)) ∧ Forall2 (read_in namespace) (filter is_source refs) t.
Proof.
  revert vars t. induction refs as [|r refs IH]; intros vars t; cbn [load_loop].
  - intros [-> [= ->]]%runs_ret_inv. by split.
  - rewrite filter_cons. unfold is_source at 1. destruct (_ || _) eqn:Hk.
    + apply orb_true_iff in Hk. rewrite !bool_decide_eq_true in Hk. rewrite decide_True by done.
      intros (a & t' & -> & Hr)%runs_call_inv. destruct (vr_err a) as [e|] eqn:He.
      * destruct (_ && _) eqn:Ho; [|by apply runs_ret_inv in Hr as [_ [=]]]. apply andb_true_iff in Ho as [Ho Hn].
        apply IH in Hr as [Hv Ht]. split; [intros k; rewrite Hv; cbn; by rewrite He|].
        constructor; [|done]. split; [done|]. right. cbn. rewrite He. split_and!; [by eexists|done|done].
      * apply IH in Hr as [Hv Ht]. split; [intros k; rewrite Hv, lookup_add_vars; cbn; by rewrite He|].
        constructor; [|done]. split; [done|by left].
    + apply orb_false_iff in Hk as [H1%bool_decide_eq_false H2%bool_decide_eq_false].
      rewrite decide_False by (by intros [?|?]). apply IH.
Qed.

(** The variables of a template that have to be set: those without a default. *)
Fixpoint required (n : Node) : list bytes :=
  match n with
  | EmptyText | TextNode _ => []
  | FuncNode param name args => (if isDefaultOp name then [] else [param]) ++ (args ≫= required)
  | ListNode ns => ns ≫= required
  end.

Lemma eval_required (m : mapping) (n : Node) (w w' p : bytes) : eval m n w = Wrote w' → p ∈ required n → (m p).2 = true.
Proof.
  revert w w'. induction n as [|v|param name ns IH|ns IH] using Node_rec'; intros w w'; cbn [eval required].
  - by intros _ ?%not_elem_of_nil.
  - by intros _ ?%not_elem_of_nil.
  - match goal with |- ?evalArgs ns [] = Wrote w' → _ =>
      enough (∀ args, evalArgs ns args = Wrote w' →
        (isDefaultOp name = false → (m param).2 = true) ∧ (p ∈ ns ≫= required → (m p).2 = true)) as Hgo
    end.
    { intros [Ha Hb]%Hgo [Hp|Hp]%elem_of_app; [|by apply Hb]. destruct (isDefaultOp name); [by apply not_elem_of_nil in Hp|].
      apply list_elem_of_singleton in Hp as ->. by apply Ha. }
    induction ns as [|n ns IHns]; intros args.
    + unfold apply_func. destruct (m param) as [v []]; cbn [negb andb snd]; [intros _; split; [done|by intros ?%not_elem_of_nil]|].
      destruct (isDefaultOp name); cbn [negb]; [intros _; split; [done|by intros ?%not_elem_of_nil]|done].
    + apply Forall_cons in IH as [IHn IH]. destruct (eval m n []) as [buf| |] eqn:Hn; [|done|done].
      intros [Ha Hb]%IHns; [|done]. split; [done|]. cbn. intros [Hp|Hp]%elem_of_app; [by eapply IHn|by apply Hb].
  - revert w. induction ns as [|n ns IHns]; intros w; [by intros _ ?%not_elem_of_nil|].
    apply Forall_cons in IH as [IHn IH]. destruct (eval m n w) as [w1| |] eqn:Hn; [|done|done].
    intros He [Hp|Hp]%elem_of_app; [by eapply IHn|by eapply IHns].
Qed.

Lemma strip_loop (n : nat) (first : bool) (s : bytes) : length s <= n → newline ∉ replace_loop n first s [newline] [].
Proof.
  revert first s. induction n as [|n IH]; intros first s Hn; cbn [replace_loop].
  - destruct s; [apply not_elem_of_nil|cbn in Hn; lia].
  - destruct (decide (newline ∈ s)) as [Hin|Hin]; [|by rewrite Index_absent].
    apply list_elem_of_split_l in Hin as (a & b & -> & Ha). rewrite Index_first by done.
    rewrite take_app_length, elem_of_app. intros [Hx|Hx]; [done|]. cbn [app] in Hx. revert Hx. apply IH.
    rewrite length_drop, length_app in *. cbn [length] in *. lia.
Qed.

(** The values have no line breaks. *)
Lemma strip_newlines_none (v : bytes) : newline ∉ strip_newlines v.
Proof. unfold strip_newlines, strings_Replace. rewrite bool_decide_eq_false_2 by done. by apply strip_loop. Qed.

Lemma last_value_app (k : bytes) (l l' : list (gmap bytes bytes)) (v : option bytes) :
  last_value k (l ++ l') v = last_value k l' (last_value k l v).
Proof. revert v. induction l as [|d l IH]; intros v; cbn; [done|apply IH]. Qed.

Lemma last_value_none (k : bytes) (l : list (gmap bytes bytes)) (x : bytes) :
  last_value k l None = Some x → newline ∉ x.
Proof.
  enough (∀ v, (∀ y, v = Some y → newline ∉ y) → last_value k l v = Some x → newline ∉ x) as Hall by (apply Hall; done).
  induction l as [|d l IH]; intros v Hv; cbn; [apply Hv|]. apply IH. intros y.
  destruct (d !! k); [|apply Hv]. intros [= <-]. apply strip_newlines_none.
Qed.

Lemma varSubstitution_inv (data : bytes) (vars : gmap bytes bytes) (strict : bool) (json : bytes) :
  varSubstitution data vars strict = inr json →
  (∀ k, is_Some (vars !! k) → MatchString varsubRegex k = true) ∧
  ∃ root out, Parse data = Ok root ∧ Execute root (vars_mapping vars strict) = Wrote out ∧ YAMLToJSON out = inr json ∧
    (strict = true → ∀ p, p ∈ required root → is_Some (vars !! p)).
Proof.
  unfold varSubstitution. destruct (forallb _ _) eqn:Hall; [|done]. cbn [negb]. unfold envsubst_Eval.
  destruct (Parse data) as [root|e| |]; [|done..]. destruct (Execute root _) as [out|q|] eqn:He; [|done..].
  destruct (YAMLToJSON out) as [e|j] eqn:Hj; [done|]. intros [= <-]. split.
  - intros k [v Hk]. rewrite forallb_forall in Hall. apply Hall.
    apply list_elem_of_In, (list_elem_of_fmap_2 fst _ (k, v)). by apply elem_of_map_to_list.
  - exists root, out. split_and!; try done. intros -> p Hp.
    apply (eval_required _ _ _ _ _ He) in Hp. by apply bool_decide_eq_true in Hp.
Qed.

(** C22. Substitution of variables, in every run that returns a resource: the
    resource was not disabled; in a dry run nothing is read, and else the config
    maps and secrets of the references are, one after the other in their order,
    in the namespace of the kustomization, where only an optional one may be
    missing; the value of a variable is that of the kustomization itself if it
    has one, and else that of the last reference whose data have it, without
    line breaks; without variables the resource is unchanged, unless the
    substitution is forced; and else all names of variables are valid, the
    result is the text of the resource evaluated with these variables, and under
    the strict option every variable that occurs without a default is set. *)
Theorem SubstituteVariables_spec (kustomization : K) (res res' : Res) (opts : list SubstituteOption) (t : list (vcall * vreply)) :
  runs (SubstituteVariables kustomization res opts) t (inr (Some res')) →
  let options := foldl apply_sub_option (mkSubOptions false false false) opts in
  disabled res = false ∧
  (if DryRun options then t = []
   else ∃ refs, references kustomization refs ∧ Forall2 (read_in (GetNamespace kustomization)) (filter is_source refs) t) ∧
  ∃ inline (vars : gmap bytes bytes),
    NestedStringMap kustomization [specField; postBuildField; substituteField] = inr inline ∧
    (∀ k, vars !! k = last_value k (datas t ++ option_list inline) None) ∧
    (∀ k v, vars !! k = Some v → newline ∉ v) ∧
    (vars = ∅ ∧ Always options = false ∧ res' = res ∨
     ∃ yaml root out json, AsYAML res = inr yaml ∧ (∀ k, is_Some (vars !! k) → MatchString varsubRegex k = true) ∧
       Parse yaml = Ok root ∧ Execute root (vars_mapping vars (Strict options)) = Wrote out ∧
       YAMLToJSON out = inr json ∧ UnmarshalJSON res json = inr res' ∧
       (Strict options = true → ∀ p, p ∈ required root → is_Some (vars !! p))).
Proof.
  intros Hr options. unfold SubstituteVariables in Hr. fold options in Hr.
  destruct (AsYAML res) as [e|yaml] eqn:Hy; [by apply runs_ret_inv in Hr as [_ [=]]|].
  destruct (disabled res); [by apply runs_ret_inv in Hr as [_ [=]]|]. split; [done|].
  assert ((if DryRun options then t = []
     else ∃ refs, references kustomization refs ∧ Forall2 (read_in (GetNamespace kustomization)) (filter is_source refs) t) ∧
    ∃ vars0 : gmap bytes bytes, substitute_with kustomization res yaml options vars0 = inr (Some res') ∧
    ∀ k, vars0 !! k = last_value k (datas t) None) as [Hdry (vars0 & Hs & Hv)].
  { destruct (DryRun options).
    - apply runs_ret_inv in Hr as [-> Hs]. split; [done|]. by exists ∅.
    - apply runs_bind_inv in Hr as (t1 & [e|vars0] & t2 & -> & Hl & Hend); apply runs_ret_inv in Hend as [-> Hs]; [done|].
      rewrite app_nil_r. unfold LoadVariables in Hl.
      destruct (getSubstituteFrom kustomization) as [e|refs] eqn:Hg; [by apply runs_ret_inv in Hl as [_ [=]]|].
      apply load_loop_spec in Hl as [Hk Hf]. apply getSubstituteFrom_ok in Hg. split; [by exists refs|].
      exists vars0. split; [done|]. intros k. by rewrite Hk. }
  split; [done|]. unfold substitute_with in Hs. destruct (NestedStringMap _ _) as [e|inline]; [done|].
  exists inline, (match inline with Some s => add_vars s vars0 | None => vars0 end).
  assert (Hk : ∀ k, match inline with Some s => add_vars s vars0 | None => vars0 end !! k = last_value k (datas t ++ option_list inline) None).
  { intros k. rewrite last_value_app, <- Hv. destruct inline as [s|]; cbn; [by rewrite lookup_add_vars|done]. }
  split_and!; [done|done| |].
  { intros k v Hkv. rewrite Hk in Hkv. by eapply last_value_none. }
  destruct (negb _ || _) eqn:Hc.
  - right. destruct (varSubstitution yaml _ _) as [e|json] eqn:Hsub; [done|].
    destruct (UnmarshalJSON res json) as [e|r] eqn:Hu; simplify_eq. apply varSubstitution_inv in Hsub as (Hn & root & out & ? & ? & ? & ?).
    by exists yaml, root, out, json.
  - left. apply orb_false_iff in Hc as [He%negb_false_iff%bool_decide_eq_true Ha]. by simplify_eq.
Qed.
End vars.

(** ** An example *)

#[local] Instance demo_unicode : Unicode := ascii_only.
#[local] Instance demo_unstructured : Unstructured unit SubstituteReference SubstituteReference unit := {|
  GetNamespace _ := str "apps"; NestedString _ _ := inr None; NestedBool _ _ := false;
  NestedStringSlice _ _ := inr None;
  NestedStringMap _ _ := inr (Some {[str "y" := str "w"]});
  NestedSlice _ _ := inr (Some [mkSubRef (str "ConfigMap") (str "a") false; mkSubRef (str "Secret") (str "b") true;
                                mkSubRef (str "Secret") (str "c") true]);
  as_map v := Some v; nil_map := mkSubRef [] [] false |}.

Definition demo_vars_server (h : list (vcall * vreply (E := unit))) (c : vcall) : vreply :=
  let '(VGet kind ns name) := c in
  if bool_decide (name = str "a") then mkVReply None false {[str "x" := str "1"; str "y" := str "z"]}
  else if bool_decide (name = str "b") then mkVReply None false {[str "x" := "2"%char :: [newline]]}
  else mkVReply (Some ()) true ∅.

Definition demo_SubstituteVariables :=
  SubstituteVariables (K := unit) (E := unit) (λ m, inr m) (λ r : bytes, inr r) (λ _, ∅) (λ _, ∅) (λ _ j, inr j) (λ y, inr y)
    () (str "${x}-${y}") [SubstituteWithStrict true].

Definition demo_vars_run := run demo_vars_server [] demo_SubstituteVariables.

Lemma demo_vars_result : demo_vars_run.1 = inr (Some (str "2-w")).
Proof. vm_compute. reflexivity. Qed.

(** The references are read in the namespace (the third is optional and missing);
    the last one that has [x] gives its value,
    and the kustomization that of [y]. *)
Lemma SubstituteVariables_spec_witness :
  demo_vars_run.2.*1 = [VGet (str "ConfigMap") (str "apps") (str "a"); VGet (str "Secret") (str "apps") (str "b");
                        VGet (str "Secret") (str "apps") (str "c")] ∧
  ∃ vars : gmap bytes bytes, vars !! str "x" = Some (str "2") ∧ vars !! str "y" = Some (str "w") ∧
    (∀ k, is_Some (vars !! k) → MatchString varsubRegex k = true).
Proof.
  assert (Hr : runs demo_SubstituteVariables demo_vars_run.2 (inr (Some (str "2-w")))).
  { rewrite <- demo_vars_result. unfold demo_vars_run. destruct (run _ _ _) as [a t] eqn:Hrun.
    apply run_runs in Hrun as (t' & -> & Hrun). exact Hrun. }
  destruct (SubstituteVariables_spec _ _ _ _ _ _ _ _ _ _ _ Hr) as (_ & Hreads & inline & vars & Hin & Hk & _ & Hcase).
  injection Hin as <-. split; [reflexivity|]. exists vars. rewrite !Hk. split; [reflexivity|]. split; [reflexivity|].
  destruct Hcase as [(He & _)|(yaml & root & out & json & _ & Hn & _)]; [|exact Hn].
  intros k [v Hv]. rewrite He in Hv. discriminate.
Defined.
