(* ===== verification/KustomizeGen.v ===== *)
(** * The kustomization generator ([kustomize/kustomize_generator.go], [filters.go])

    The generator reads the kustomization file of a directory, or makes one of
    the manifests it finds, puts the settings of the Flux object into it and
    writes it back; [CleanDirectory] undoes this.  The code is a program over
    the calls to the file system. *)

From S2P Require Import Prelude GoStd Utf8 GoPath GoText SsaObject Sourceignore Interaction KustomizeVars.

(** ** Data *)

(** [src/apis/kustomize/kustomize_types.go:23-41 Image] *)
Record Image := mkImage { im_Name : bytes; im_NewName : bytes; im_NewTag : bytes; im_Digest : bytes }.
(** [src/apis/kustomize/kustomize_types.go:43-84 Selector] *)
Record Selector := mkSelector {
  sl_Group : bytes; sl_Version : bytes; sl_Kind : bytes; sl_Namespace : bytes; sl_Name : bytes;
  sl_AnnotationSelector : bytes; sl_LabelSelector : bytes }.
(** [src/apis/kustomize/kustomize_types.go:86-97 Patch] *)
Record Patch := mkPatch { pt_Patch : bytes; pt_Target : option Selector }.
(** The operations of a patch are third-party JSON.
    [src/apis/kustomize/kustomize_types.go:125-134 JSON6902Patch] *)
Record JSON6902Patch {J : Type} := mkJSON6902 { jp_Patch : J; jp_Target : Selector }.
Arguments JSON6902Patch : clear implicits.
Arguments mkJSON6902 {_} _ _.

(** The fields of the kustomization of kustomize that the code uses; the other
    fields are in [k_rest]. *)
Record Kustomization {X : Type} := mkKus {
  Resources : list bytes; Components : list bytes; Crds : list bytes;
  Namespace : bytes; NamePrefix : bytes; NameSuffix : bytes;
  Patches : list Patch; PatchesStrategicMerge : list bytes; PatchesJson6902 : list Patch;
  Images : list Image; BuildMetadata : list bytes; k_rest : X }.
Arguments Kustomization : clear implicits.
Arguments mkKus {_} _ _ _ _ _ _ _ _ _ _ _ _.

(** [src/kustomize/kustomize_generator.go:63-64 Action] *)
Inductive Action := CreatedAction | UnchangedAction.
#[global] Instance Action_eq_dec : EqDecision Action.
Proof. solve_decision. Defined.

(** The names of kustomization files, the default first. *)
Definition recognized : list bytes := [str "kustomization.yaml"; str "kustomization.yml"; str "Kustomization"].
Definition DefaultKustomizationFileName : bytes := str "kustomization.yaml".

(** [src/kustomize/kustomize_generator.go:751-767 IsLocalRelativePath] *)
Definition IsLocalRelativePath `{Unicode} (path : bytes) : bool :=
  let remote p := (length p <? length path) && bool_decide (strings_ToLower (take (length p) path) = p) in
  if existsb remote [str "git::"; str "gh:"; str "ssh://"; str "https://"; str "http://"; str "git@"; str "github.com:"; str "github.com/"]
  then false
  else negb (IsAbs path || IsAbs (TrimPrefix (strings_ToLower path) (str "file://"))).

(** The loop of the images; an image of the same name is replaced in place.
    [src/kustomize/kustomize_generator.go:447-455 checkKustomizeImageExists] *)
Fixpoint checkKustomizeImageExists (images : list Image) (imageName : bytes) : option nat :=
  match images with
  | [] => None
  | image :: images => if bool_decide (imageName = im_Name image) then Some 0
                       else S <$> checkKustomizeImageExists images imageName
  end.

(** [src/kustomize/kustomize_generator.go:301-313 Generator.GenerateManifest] *)
Definition add_image (images : list Image) (image : Image) : list Image :=
  match checkKustomizeImageExists images (im_Name image) with
  | Some index => <[index := image]> images
  | None => images ++ [image]
  end.

(** [src/kustomize/kustomize_generator.go:616-628 adaptSelector] *)
Definition adaptSelector (selector : option Selector) : option Selector := selector.

(** ** The environment *)

Section generator.
Context {K V M E X J : Type} `{!Unstructured K V M E} `{!FilepathMatch} `{Unicode}.

(** A file or directory that a walk visits: the error it is visited with, and
    what is below it. *)
Inductive wnode := WNode (path : bytes) (err : option E) (isDir : bool) (below : list wnode).

(** [Exists], [IsDir], [ReadFile], [WriteFile] and [Walk] of the file system of
    the generator; [Lstat], [Stat], [Rename], [Remove] of the operating system;
    [KCopy] is the opening, creation and copying in [copyFile]. *)
Inductive kcall :=
  | KMakeFs (root : bytes)
  | KIgnores (dir : bytes)
  | KExists (p : bytes)
  | KIsDir (p : bytes)
  | KReadFile (p : bytes)
  | KWriteFile (p content : bytes)
  | KWalk (base : bytes)
  | KLstat (p : bytes)
  | KStat (p : bytes)
  | KCopy (src dst : bytes)
  | KRename (old new : bytes)
  | KRemove (p : bytes).
Record kreply := mkKReply { kr_err : option E; kr_bool : bool; kr_data : bytes; kr_tree : option wnode; kr_dir : dir }.
Abbreviation kprog := (prog kcall kreply).

Inductive gen_err :=
  | GErr (e : E)
  | GIgnore (e : kerr)
  | GDecode (path : bytes) (e : E)
  | GField (es : list (nat + E))
  | GComponent (component : bytes)
  | GSave (e : E) (clean : option E)
  | GWrite (e : E) (clean : option E).

(** YAML, the parsing of manifests, the conversion of the elements of lists and
    of patches, the parsing of URLs and the working directory. *)
Context (Unmarshal : bytes → E + Kustomization X) (Marshal : Kustomization X → E + bytes) (noRest : X).
Context (SliceFromBytes : bytes → option E).
Context (to_Patch : M → E + Patch) (to_JSON : M → E + bytes) (to_JSON6902 : M → E + JSON6902Patch J) (to_Image : M → E + Image).
Context (json_Marshal : J → E + bytes) (isUrl : bytes → bool) (Abs : bytes → E + bytes).

(** [src/kustomize/kustomize_generator.go:73-82 Generator] *)
Record Generator := mkGenerator { root : bytes; ignore : bytes; filter_on : bool; made : bool; kustomization : K }.
(** [src/kustomize/kustomize_generator.go:87-95 NewGenerator] *)
Definition NewGenerator (root : bytes) (k : K) : Generator := mkGenerator root [] false false k.
(** [src/kustomize/kustomize_generator.go:97-107 NewGeneratorWithIgnore] *)
Definition NewGeneratorWithIgnore (root ignore : bytes) (k : K) : Generator := mkGenerator root ignore true false k.

(** The file system is made once; one on disk without a root cannot fail.
    [src/kustomize/kustomize_generator.go:489-504 Generator.getFS] *)
Definition getFS (g : Generator) : kprog (Generator * option E) :=
  let g' := mkGenerator (root g) (ignore g) (filter_on g) true (kustomization g) in
  if made g then Ret (g, None)
  else match root g with
       | [] => Ret (g', None)
       | r => Call (KMakeFs r) (λ a, match kr_err a with Some e => Ret (g, Some e) | None => Ret (g', None) end)
       end.

(** [src/kustomize/filters.go:35-40 ignoreFileFilter] *)
Definition ignoreFileFilter (ps : list pattern) (domain : list bytes) (p : bytes) (isDir : bool) : bool :=
  matcher_Match (NewDefaultMatcher ps domain) (strings_Split p sep) isDir.

(** [src/kustomize/filters.go:99-117 shouldIgnoreFile] *)
Definition shouldIgnoreFile (filePath : bytes) (ignorePatterns : list pattern) (ignoreDomain : list bytes) : kprog bool :=
  match ignorePatterns with
  | [] => Ret false
  | _ => match Abs filePath with
         | inl _ => Ret false
         | inr absFile => Call (KLstat absFile) (λ a,
             match kr_err a with
             | Some _ => Ret false
             | None => Ret (ignoreFileFilter ignorePatterns ignoreDomain absFile (kr_bool a))
             end)
         end
  end.

(** Is there a kustomization file in the directory?
    [src/kustomize/kustomize_generator.go:511-517 Generator.findOrGenerateKustomization] *)
Fixpoint find_kfile (dir : bytes) (names : list bytes) : kprog (option bytes) :=
  match names with
  | [] => Ret None
  | n :: names =>
      let kpath := filepath_Join [dir; n] in
      Call (KExists kpath) (λ a,
        if kr_bool a then Call (KIsDir kpath) (λ b, if kr_bool b then find_kfile dir names else Ret (Some kpath))
        else find_kfile dir names)
  end.

(** The walk: [inr] has the paths so far.  A directory with a kustomization file
    is a resource and is not entered.
    [src/kustomize/kustomize_generator.go:554-614 scanManifests] *)
Definition visit (ps : list pattern) (dom : list bytes) (base : bytes) : wnode → list bytes → kprog (gen_err + list bytes) :=
  fix visit (n : wnode) (paths : list bytes) : kprog (gen_err + list bytes) :=
    let fix visit_all (l : list wnode) (paths : list bytes) : kprog (gen_err + list bytes) :=
      match l with
      | [] => Ret (inr paths)
      | n :: l => r ← visit n paths; match r with inl e => Ret (inl e) | inr paths => visit_all l paths end
      end in
    match n with
    | WNode path err isDir below =>
        match err with
        | Some e => Ret (inl (GErr e))
        | None =>
            if bool_decide (path = base) then visit_all below paths
            else if isDir then
              k ← find_kfile path recognized;
              match k with
              | Some _ => Ret (inr (paths ++ [path]))
              | None => visit_all below paths
              end
            else if negb (bool_decide (filepath_Ext path = str ".yaml") || bool_decide (filepath_Ext path = str ".yml")) then Ret (inr paths)
            else
              ignored ← shouldIgnoreFile path ps dom;
              if (ignored : bool) then Ret (inr paths)
              else Call (KReadFile path) (λ a,
                match kr_err a with
                | Some e => Ret (inl (GErr e))
                | None => match SliceFromBytes (kr_data a) with
                          | Some e => Ret (inl (GDecode path e))
                          | None => Ret (inr (paths ++ [path]))
                          end
                end)
        end
    end.

(** [src/kustomize/kustomize_generator.go:554-614 scanManifests] *)
Definition scanManifests (base : bytes) (ps : list pattern) (dom : list bytes) : kprog (gen_err + list bytes) :=
  Call (KWalk base) (λ a, match kr_err a, kr_tree a with
    | Some e, _ => Ret (inl (GErr e))
    | None, None => Ret (inr [])
    | None, Some n => visit ps dom base n []
    end).

(** ** Results with errors *)

Definition kbind {A B : Type} (p : kprog (gen_err + A)) (f : A → kprog (gen_err + B)) : kprog (gen_err + B) :=
  r ← p; match r with inl e => Ret (inl e) | inr a => f a end.
Definition kpure {A B : Type} (r : gen_err + A) (f : A → kprog (gen_err + B)) : kprog (gen_err + B) :=
  match r with inl e => Ret (inl e) | inr a => f a end.
Definition lift {A : Type} (r : E + A) : gen_err + A := match r with inl e => inl (GErr e) | inr a => inr a end.

(** ** Filters ([filters.go]) *)

(** The loop moves the elements that are kept to the front of the slice, which
    is cut there: a filter.
    [src/kustomize/filters.go:77-97 filterSlice] *)
Fixpoint filterSlice (path : bytes) (crds : bool) (filter : bytes → bool → bool) (s : list bytes) : kprog (gen_err + list bytes) :=
  match s with
  | [] => Ret (inr [])
  | res :: s =>
      if crds || negb (isUrl res) then
        let f := filepath_Join [path; res] in
        Call (KLstat f) (λ a,
          match kr_err a with
          | Some e => Ret (inl (GErr e))
          | None => if filter f (kr_bool a) then filterSlice path crds filter s
                    else kbind (filterSlice path crds filter s) (λ l, Ret (inr (res :: l)))
          end)
      else kbind (filterSlice path crds filter s) (λ l, Ret (inr (res :: l)))
  end.

Definition set_lists (ks : Kustomization X) (r c d : list bytes) : Kustomization X :=
  mkKus r c d (Namespace ks) (NamePrefix ks) (NameSuffix ks) (Patches ks) (PatchesStrategicMerge ks) (PatchesJson6902 ks)
    (Images ks) (BuildMetadata ks) (k_rest ks).

(** [src/kustomize/filters.go:42-70 filterKsWithIgnoreFiles] *)
Definition filterKsWithIgnoreFiles (ks : Kustomization X) (dirPath : bytes) (ps : list pattern) (dom : list bytes) : kprog (gen_err + Kustomization X) :=
  kpure (lift (Abs dirPath)) (λ path,
    let filter := ignoreFileFilter ps dom in
    kbind (filterSlice path false filter (Resources ks)) (λ r,
      kbind (filterSlice path false filter (Components ks)) (λ c,
        kbind (filterSlice path true filter (Crds ks)) (λ d, Ret (inr (set_lists ks r c d)))))).

(** ** Generating a kustomization *)

Definition emptyKus : Kustomization X := mkKus [] [] [] [] [] [] [] [] [] [] [] noRest.

(** The kustomization of the manifests that were found.
    [src/kustomize/kustomize_generator.go:529-547 Generator.findOrGenerateKustomization] *)
Definition generated (abs : bytes) (files : list bytes) : Kustomization X :=
  let resources := (λ file, strings_Replace file abs (str ".") (Some 1)) <$> files in
  mkKus resources [] [] (match resources with [] => str "_placeholder" | _ => [] end) [] [] [] [] [] [] [] noRest.

(** [src/kustomize/kustomize_generator.go:506-552 Generator.findOrGenerateKustomization] *)
Definition findOrGenerateKustomization (dirPath : bytes) (ps : list pattern) (dom : list bytes) : kprog (Action * (gen_err + bytes * bytes)) :=
  k ← find_kfile dirPath recognized;
  match k with
  | Some kpath => Call (KReadFile kpath) (λ a, Ret (UnchangedAction, match kr_err a with Some e => inl (GErr e) | None => inr (kr_data a, kpath) end))
  | None =>
      match Abs dirPath with
      | inl e => Ret (UnchangedAction, inl (GErr e))
      | inr abs =>
          files ← scanManifests abs ps dom;
          match files with
          | inl e => Ret (UnchangedAction, inl e)
          | inr files =>
              let kfile := filepath_Join [dirPath; DefaultKustomizationFileName] in
              Ret (CreatedAction, match Marshal (generated abs files) with inl e => inl (GErr e) | inr data => inr (data, kfile) end)
          end
      end
  end.

(** The elements of a list of the spec.
    [src/kustomize/kustomize_generator.go:331-358 Generator.getPatches] *)
Definition get_list {T : Type} (k : K) (from : M → E + T) (field : bytes) : gen_err + list T :=
  match NestedSlice k [specField; field] with
  | inl e => inl (GErr e)
  | inr None => inr []
  | inr (Some l) => match convert_all from 0 l [] [] with
                    | (res, []) => inr res
                    | (_, errs) => inl (GField errs)
                    end
  end.
(** [src/kustomize/kustomize_generator.go:331-358 Generator.getPatches] *)
Definition getPatches (k : K) : gen_err + list Patch := get_list k to_Patch (str "patches").
(** [src/kustomize/kustomize_generator.go:360-387 Generator.getPatchesStrategicMerge] *)
Definition getPatchesStrategicMerge (k : K) : gen_err + list bytes := get_list k to_JSON (str "patchesStrategicMerge").
(** [src/kustomize/kustomize_generator.go:389-416 Generator.getPatchesJson6902] *)
Definition getPatchesJson6902 (k : K) : gen_err + list (JSON6902Patch J) := get_list k to_JSON6902 (str "patchesJson6902").
(** [src/kustomize/kustomize_generator.go:418-445 Generator.getImages] *)
Definition getImages (k : K) : gen_err + list Image := get_list k to_Image (str "images").

(** [src/kustomize/kustomize_generator.go:457-464 Generator.getNestedString] *)
Definition getNestedString (k : K) (field : bytes) : gen_err + option bytes := lift (NestedString k [specField; field]).
(** [src/kustomize/kustomize_generator.go:466-473 Generator.getNestedStringSlice] *)
Definition getNestedStringSlice (k : K) (field : bytes) : gen_err + list bytes :=
  match lift (NestedStringSlice k [specField; field]) with inl e => inl e | inr o => inr (default [] o) end.

(** The components of the spec: local and relative, and left out if they are
    missing and may be.
    [src/kustomize/kustomize_generator.go:260-269 Generator.GenerateManifest] *)
Fixpoint components_loop (dirPath : bytes) (ignoreMissing : bool) (l acc : list bytes) : kprog (gen_err + list bytes) :=
  match l with
  | [] => Ret (inr acc)
  | component :: l =>
      if negb (IsLocalRelativePath component) then Ret (inl (GComponent component))
      else Call (KExists (filepath_Join [dirPath; component])) (λ a,
        if negb (kr_bool a) && ignoreMissing then components_loop dirPath ignoreMissing l acc
        else components_loop dirPath ignoreMissing l (acc ++ [component]))
  end.

(** [src/kustomize/kustomize_generator.go:285-294 Generator.GenerateManifest] *)
Fixpoint json_loop (l : list (JSON6902Patch J)) (acc : list Patch) : gen_err + list Patch :=
  match l with
  | [] => inr acc
  | p :: l => match json_Marshal (jp_Patch p) with
              | inl e => inl (GErr e)
              | inr patch => json_loop l (acc ++ [mkPatch patch (adaptSelector (Some (jp_Target p)))])
              end
  end.

(** The settings of the Flux object over those of the file.
    [src/kustomize/kustomize_generator.go:219-321 Generator.GenerateManifest] *)
Definition apply_spec (k : K) (dirPath : bytes) (kus : Kustomization X) : kprog (gen_err + Kustomization X) :=
  kpure (getNestedString k (str "targetNamespace")) (λ tg,
  kpure (getNestedString k (str "namePrefix")) (λ nprefix,
  kpure (getNestedString k (str "nameSuffix")) (λ nsuffix,
  kpure (getPatches k) (λ patches,
  kpure (getNestedStringSlice k (str "components")) (λ components,
  kbind (components_loop dirPath (NestedBool k [specField; str "ignoreMissingComponents"]) components (Components kus)) (λ components,
  kpure (getPatchesStrategicMerge k) (λ patchesSM,
  kpure (getPatchesJson6902 k) (λ patchesJSON,
  kpure (json_loop patchesJSON (PatchesJson6902 kus)) (λ patchesJson6902,
  kpure (getImages k) (λ images,
  kpure (getNestedStringSlice k (str "buildMetadata")) (λ buildMetadata,
  Ret (inr (mkKus (Resources kus) components (Crds kus)
    (default (Namespace kus) tg) (default (NamePrefix kus) nprefix) (default (NameSuffix kus) nsuffix)
    (Patches kus ++ ((λ p, mkPatch (pt_Patch p) (adaptSelector (pt_Target p))) <$> patches))
    (PatchesStrategicMerge kus ++ patchesSM) patchesJson6902 (foldl add_image (Images kus) images)
    (match buildMetadata with [] => BuildMetadata kus | l => l end) (k_rest kus)))))))))))))).

(** [src/kustomize/kustomize_generator.go:206-210 Generator.GenerateManifest] *)
Definition with_metadata (action : Action) (kus : Kustomization X) : Kustomization X :=
  if bool_decide (action = UnchangedAction) && bool_decide (Resources kus = []) then
    mkKus (Resources kus) (Components kus) (Crds kus) (Namespace kus) (NamePrefix kus) (NameSuffix kus) (Patches kus)
      (PatchesStrategicMerge kus) (PatchesJson6902 kus) (Images kus) [str "originAnnotations"] (k_rest kus)
  else kus.

(** The patterns of the ignore files and of the generator.
    [src/kustomize/kustomize_generator.go:168-188 Generator.GenerateManifest] *)
Definition ignore_patterns (g : Generator) (dirPath : bytes) : kprog (gen_err + list pattern * list bytes) :=
  if filter_on g || negb (bool_decide (ignore g = [])) then
    kpure (lift (Abs dirPath)) (λ absPath,
      let dom := strings_Split absPath sep in
      Call (KIgnores absPath) (λ a,
        match LoadIgnorePatterns (kr_dir a) dom with
        | inl e => Ret (inl (GIgnore e))
        | inr ps => Ret (inr (if bool_decide (ignore g = []) then ps else ps ++ ReadPatterns (ignore g) dom, dom))
        end))
  else Ret (inr ([], [])).

(** [src/kustomize/kustomize_generator.go:160-329 Generator.GenerateManifest] *)
Definition GenerateManifest (g : Generator) (dirPath : bytes) : kprog (Generator * Action * (gen_err + bytes * bytes)) :=
  '(g, e) ← getFS g;
  match e with
  | Some e => Ret (g, UnchangedAction, inl (GErr e))
  | None =>
      ps ← ignore_patterns g dirPath;
      match ps with
      | inl e => Ret (g, UnchangedAction, inl e)
      | inr (ps, dom) =>
          '(action, r) ← findOrGenerateKustomization dirPath ps dom;
          match r with
          | inl e => Ret (g, action, inl e)
          | inr (data, kfile) =>
              r ← kpure (lift (Unmarshal data)) (λ kus,
                    let kus := with_metadata action kus in
                    kbind (if filter_on g then filterKsWithIgnoreFiles kus dirPath ps dom else Ret (inr kus)) (λ kus,
                      kbind (apply_spec (kustomization g) dirPath kus) (λ kus,
                        Ret (match Marshal kus with inl e => inl (GErr e) | inr manifest => inr (manifest, kfile) end))));
              Ret (g, action, r)
          end
      end
  end.

(** ** Writing and cleaning up *)

(** The first name with a saved original.
    [src/kustomize/kustomize_generator.go:690-699 CleanDirectory] *)
Fixpoint find_original (dirPath : bytes) (names : list bytes) : kprog bytes :=
  match names with
  | [] => Ret []
  | file :: names =>
      let p := filepath_Join [dirPath; file ++ str ".original"] in
      Call (KStat p) (λ a, match kr_err a with None => Ret p | Some _ => find_original dirPath names end)
  end.

(** [src/kustomize/kustomize_generator.go:689-720 CleanDirectory] *)
Definition CleanDirectory (dirPath : bytes) (action : Action) : kprog (option E) :=
  originalFile ← find_original dirPath recognized;
  let kfile := if bool_decide (originalFile = []) then filepath_Join [dirPath; DefaultKustomizationFileName]
               else TrimSuffix originalFile (str ".original") in
  let finish := match action with
                | CreatedAction => Call (KRemove kfile) (λ a, Ret (kr_err a))
                | UnchangedAction => Ret None
                end in
  Call (KStat originalFile) (λ a,
    match kr_err a with
    | None => Call (KRename originalFile kfile) (λ a, match kr_err a with Some e => Ret (Some e) | None => finish end)
    | Some _ => finish
    end).

(** The option to save the original.
    [src/kustomize/kustomize_generator.go:109-121 WithSaveOriginalKustomization] *)
Definition SaveOriginal (dirPath kfile : bytes) (action : Action) : kprog (option gen_err) :=
  match action with
  | CreatedAction => Ret None
  | UnchangedAction =>
      Call (KCopy kfile (filepath_Join [dirPath; filepath_Base kfile ++ str ".original"])) (λ a,
        match kr_err a with
        | None => Ret None
        | Some e => errf ← CleanDirectory dirPath action; Ret (Some (GSave e errf))
        end)
  end.

(** There is one option, which is given or not.
    [src/kustomize/kustomize_generator.go:123-158 Generator.WriteFile] *)
Definition WriteFile (g : Generator) (dirPath : bytes) (save : bool) : kprog (Generator * Action * option gen_err) :=
  '(g, e) ← getFS g;
  match e with
  | Some e => Ret (g, UnchangedAction, Some (GErr e))
  | None =>
      '(g, action, r) ← GenerateManifest g dirPath;
      match r with
      | inl e => Ret (g, action, Some e)
      | inr (manifest, kfile) =>
          saved ← (if save then SaveOriginal dirPath kfile action else Ret None);
          match saved with
          | Some e => Ret (g, action, Some e)
          | None => Call (KWriteFile kfile manifest) (λ a,
              match kr_err a with
              | None => Ret (g, action, None)
              | Some e => errf ← CleanDirectory dirPath action; Ret (g, action, Some (GWrite e errf))
              end)
          end
      end
  end.
End generator.
