(* ===== verification/KustomizeGenSpec.v ===== *)
(** * What the generator guarantees

    The images of the Flux object win over those of the file; the filters keep
    what is not ignored; and on a file system that does what it is told,
    [CleanDirectory] restores the directory that [WriteFile] has changed. *)

From S2P Require Import Prelude GoStd Utf8 GoPath GoText SsaObject Sourceignore Interaction KustomizeVars KustomizeGen.

(** ** Images *)

Lemma image_index (images : list Image) (name : bytes) :
  match checkKustomizeImageExists images name with
  | Some i => ∃ x, images !! i = Some x ∧ im_Name x = name
  | None => name ∉ im_Name <$> images
  end.
Proof.
  induction images as [|x images IH]; cbn; [apply not_elem_of_nil|].
  case_bool_decide as Hx; [by exists x|]. destruct (checkKustomizeImageExists images name) as [i|]; cbn; [done|].
  rewrite not_elem_of_cons. done.
Qed.

Lemma add_image_names (images : list Image) (image : Image) :
  im_Name <$> add_image images image =
  if bool_decide (im_Name image ∈ im_Name <$> images) then im_Name <$> images else (im_Name <$> images) ++ [im_Name image].
Proof.
  unfold add_image. pose proof (image_index images (im_Name image)) as Hi.
  destruct (checkKustomizeImageExists images (im_Name image)) as [i|].
  - destruct Hi as (x & Hx & Hn). rewrite list_fmap_insert, list_insert_id; [|rewrite list_lookup_fmap, Hx; cbn; by rewrite Hn].
    rewrite bool_decide_eq_true_2; [done|]. apply list_elem_of_fmap. exists x. split; [done|]. by eapply list_elem_of_lookup_2.
  - rewrite bool_decide_eq_false_2 by done. by rewrite fmap_app.
Qed.

Lemma add_image_elem (images : list Image) (image x : Image) :
  NoDup (im_Name <$> images) →
  x ∈ add_image images image ↔ x = image ∨ (x ∈ images ∧ im_Name x ≠ im_Name image).
Proof.
  intros Hnd. unfold add_image. pose proof (image_index images (im_Name image)) as Hi.
  destruct (checkKustomizeImageExists images (im_Name image)) as [i|].
  - destruct Hi as (y & Hy & Hn). assert (Hlt : i < length images) by by eapply lookup_lt_Some.
    rewrite !list_elem_of_lookup. split.
    + intros [j Hj]. apply list_lookup_insert_Some in Hj as [(<- & <- & _)|[Hij Hj]]; [by left|right].
      split; [by exists j|]. intros Heq. apply Hij. eapply (NoDup_lookup (im_Name <$> images)); [done| |].
      * rewrite list_lookup_fmap, Hy. done.
      * rewrite list_lookup_fmap, Hj. cbn. congruence.
    + intros [->|([j Hj] & Hne)]; [exists i; by apply list_lookup_insert_eq|]. exists j.
      rewrite list_lookup_insert_ne; [done|]. intros ->. congruence.
  - rewrite elem_of_app, list_elem_of_singleton. split; [intros [Hx| ->]; [right|by left]|intros [->|[Hx _]]; auto].
    split; [done|]. intros Heq. apply Hi. rewrite <- Heq. by apply list_elem_of_fmap_2.
Qed.

(** The last image of a name in a list. *)
Fixpoint last_image (name : bytes) (l : list Image) : option Image :=
  match l with
  | [] => None
  | x :: l => match last_image name l with
              | Some y => Some y
              | None => if bool_decide (im_Name x = name) then Some x else None
              end
  end.

Lemma last_image_None name l : last_image name l = None ↔ name ∉ im_Name <$> l.
Proof.
  induction l as [|x l IH]; cbn; [split; [intros _; apply not_elem_of_nil|done]|].
  rewrite not_elem_of_cons. destruct (last_image name l); [split; [done|intros [_ Hl]; by apply IH in Hl]|].
  rewrite <- IH. case_bool_decide; split; [done|intros [? _]; congruence|intros _; split; [congruence|done]|done].
Qed.

(** Images of the Flux object win: after the loop there is one image for each
    name; it is the last one that the object has of that name, or the one of the
    file if it has none; and the images of the file keep their places. *)
Lemma images_merged (base images : list Image) :
  NoDup (im_Name <$> base) →
  NoDup (im_Name <$> foldl add_image base images) ∧
  (im_Name <$> base) `prefix_of` (im_Name <$> foldl add_image base images) ∧
  ∀ x, x ∈ foldl add_image base images ↔
    last_image (im_Name x) images = Some x ∨ (last_image (im_Name x) images = None ∧ x ∈ base).
Proof.
  revert base. induction images as [|i images IH]; intros base Hnd; cbn [foldl].
  - split; [done|]. split; [done|]. intros x. cbn. split; [auto|intros [?|[_ ?]]; done].
  - assert (Hnd' : NoDup (im_Name <$> add_image base i)).
    { rewrite add_image_names. case_bool_decide as Hi; [done|]. apply NoDup_app. split; [done|]. split; [|apply NoDup_singleton].
      intros n Hn ->%list_elem_of_singleton. done. }
    destruct (IH _ Hnd') as (H1 & H2 & H3). split; [done|]. split.
    { etrans; [|exact H2]. rewrite add_image_names. case_bool_decide; [done|]. by apply prefix_app_r. }
    intros x. rewrite H3, add_image_elem by done. cbn [last_image].
    destruct (last_image (im_Name x) images) as [y|] eqn:Hl; [split; [intros [?|[? _]]|intros [?|[? _]]]; auto; done|].
    case_bool_decide as Hi; split.
    + intros [?|[_ [->|[_ Hne]]]]; [done|by left|congruence].
    + intros [[= ->]|[? _]]; [|done]. right. auto.
    + intros [?|[_ [->|[Hx _]]]]; [done|congruence|auto].
    + intros [?|[_ Hx]]; [done|]. right. split; [done|]. right. split; [done|congruence].
Qed.

(** ** A file system *)

Section spec.
Context {K V M E X J : Type} `{!Unstructured K V M E} `{!FilepathMatch} `{Unicode}.
Context (Unmarshal : bytes → E + Kustomization X) (Marshal : Kustomization X → E + bytes) (noRest : X).
Context (SliceFromBytes : bytes → option E).
Context (to_Patch : M → E + Patch) (to_JSON : M → E + bytes) (to_JSON6902 : M → E + JSON6902Patch J) (to_Image : M → E + Image).
Context (json_Marshal : J → E + bytes) (isUrl : bytes → bool) (Abs : bytes → E + bytes).
Local Abbreviation kreply := (kreply (E := E)).
Local Abbreviation kprog := (prog kcall kreply).
Local Abbreviation Generator := (Generator (K := K)).
Local Abbreviation gen_err := (gen_err (E := E)).
Local Abbreviation GenerateManifest := (GenerateManifest (K := K) (V := V) Unmarshal Marshal noRest SliceFromBytes to_Patch to_JSON to_JSON6902 to_Image json_Marshal isUrl Abs).
Local Abbreviation WriteFile := (WriteFile (K := K) (V := V) Unmarshal Marshal noRest SliceFromBytes to_Patch to_JSON to_JSON6902 to_Image json_Marshal isUrl Abs).

(** Files with their contents, and directories.  What a walk and the ignore
    files say, and the error of an operation that cannot be done, are given. *)
Record FS := mkFS { files : gmap bytes bytes; dirs : gset bytes }.
Context (tree : bytes → option (wnode (E := E))) (ignores : bytes → dir) (failure : E).

(** There is nothing under the empty path. *)
Definition fs_exists (fs : FS) (p : bytes) : bool :=
  negb (bool_decide (p = [])) && (bool_decide (is_Some (files fs !! p)) || bool_decide (p ∈ dirs fs)).
Definition reply (err : option E) (b : bool) (data : bytes) : kreply := mkKReply err b data None (ignores []).
Definition ok : kreply := reply None true [].
Definition no : kreply := reply (Some failure) false [].

Definition answer (fs : FS) (c : kcall) : FS * kreply :=
  match c with
  | KMakeFs _ => (fs, ok)
  | KIgnores d => (fs, mkKReply None true [] None (ignores d))
  | KExists p => (fs, reply None (bool_decide (is_Some (files fs !! p)) || bool_decide (p ∈ dirs fs)) [])
  | KIsDir p => (fs, reply None (bool_decide (p ∈ dirs fs)) [])
  | KReadFile p => (fs, match files fs !! p with Some d => reply None true d | None => no end)
  | KWriteFile p d => if bool_decide (p ∈ dirs fs) then (fs, no) else (mkFS (<[p := d]> (files fs)) (dirs fs), ok)
  | KWalk base => (fs, mkKReply None true [] (tree base) (ignores []))
  | KLstat p | KStat p => (fs, if fs_exists fs p then reply None (bool_decide (p ∈ dirs fs)) [] else no)
  | KCopy src dst =>
      match files fs !! src with
      | Some d => if bool_decide (dst ∈ dirs fs) then (fs, no) else (mkFS (<[dst := d]> (files fs)) (dirs fs), ok)
      | None => (fs, no)
      end
  | KRename old new =>
      match files fs !! old with
      | Some d => if bool_decide (new ∈ dirs fs) then (fs, no) else (mkFS (<[new := d]> (delete old (files fs))) (dirs fs), ok)
      | None => (fs, no)
      end
  | KRemove p => if bool_decide (is_Some (files fs !! p)) then (mkFS (delete p (files fs)) (dirs fs), ok) else (fs, no)
  end.

Fixpoint exec {A : Type} (fs : FS) (p : kprog A) : A * FS :=
  match p with
  | Ret a => (a, fs)
  | Call c k => let '(fs, r) := answer fs c in exec fs (k r)
  end.

Lemma exec_bind {A B : Type} (fs : FS) (p : kprog A) (f : A → kprog B) :
  exec fs (p ≫= f) = let '(a, fs) := exec fs p in exec fs (f a).
Proof. revert fs. induction p as [a|c k IH]; intros fs; [done|]. cbn [exec]. change (Call c k ≫= f) with (Call c (λ r, k r ≫= f)). cbn [exec]. destruct (answer fs c). apply IH. Qed.

(** Calls that read. *)
Definition reads (c : kcall) : Prop :=
  match c with KWriteFile _ _ | KCopy _ _ | KRename _ _ | KRemove _ => False | _ => True end.

Lemma answer_reads (fs : FS) (c : kcall) : reads c → (answer fs c).1 = fs.
Proof. by destruct c. Qed.

(** A program that only reads: every answer is that of the same file system. *)
Definition reading {A : Type} (fs : FS) (p : kprog A) (Q : A → Prop) : Prop :=
  wp (λ c r, r = (answer fs c).2) reads p Q.

Lemma exec_reading {A : Type} (fs fs' : FS) (p : kprog A) (Q : A → Prop) a :
  reading fs p Q → exec fs p = (a, fs') → Q a ∧ fs' = fs.
Proof.
  intros Hw. induction p as [b|c k IH]; cbn [exec]; [by intros [= <- <-]|].
  destruct Hw as [Hc Hk]. pose proof (answer_reads fs c Hc) as Ha. destruct (answer fs c) as [fs1 r] eqn:Hr. cbn in Ha. subst fs1.
  by apply IH, Hk.
Qed.

Lemma reading_bind {A B : Type} (fs : FS) (p : kprog A) (f : A → kprog B) Q Q' :
  reading fs p Q → (∀ a, Q a → reading fs (f a) Q') → reading fs (p ≫= f) Q'.
Proof. intros Hp Hf. apply wp_bind. eapply wp_mono; [|exact Hp]. exact Hf. Qed.

Lemma reading_call {A : Type} (fs : FS) (c : kcall) (k : kreply → kprog A) Q :
  reads c → reading fs (k (answer fs c).2) Q → reading fs (Call c k) Q.
Proof. intros Hc Hk. split; [done|]. by intros r ->. Qed.

Lemma reading_kbind {A B : Type} (fs : FS) (p : kprog (gen_err + A)) (f : A → kprog (gen_err + B)) (Q' : gen_err + B → Prop) :
  reading fs p (λ _, True) → (∀ e, Q' (inl e)) → (∀ a, reading fs (f a) Q') → reading fs (kbind p f) Q'.
Proof. intros Hp He Hf. eapply reading_bind; [exact Hp|]. intros [e|a] _; [apply He|apply Hf]. Qed.

Lemma reading_kpure {A B : Type} (fs : FS) (r : gen_err + A) (f : A → kprog (gen_err + B)) (Q' : gen_err + B → Prop) :
  (∀ e, Q' (inl e)) → (∀ a, reading fs (f a) Q') → reading fs (kpure r f) Q'.
Proof. intros He Hf. destruct r; [apply He|apply Hf]. Qed.

(** ** Generating reads only *)

Lemma reading_find (fs : FS) (d : bytes) (names : list bytes) :
  reading fs (find_kfile d names) (λ r, match r with
    | Some p => ∃ n, n ∈ names ∧ p = filepath_Join [d; n] ∧ is_Some (files fs !! p)
    | None => ∀ n, n ∈ names → is_Some (files fs !! filepath_Join [d; n]) → filepath_Join [d; n] ∈ dirs fs
    end).
Proof.
  induction names as [|n names IH]; cbn [find_kfile].
  { intros n Hn. by apply not_elem_of_nil in Hn. }
  assert (Hnext : (is_Some (files fs !! filepath_Join [d; n]) → filepath_Join [d; n] ∈ dirs fs) →
    reading fs (find_kfile d names) (λ r, match r with
      | Some p => ∃ n', n' ∈ n :: names ∧ p = filepath_Join [d; n'] ∧ is_Some (files fs !! p)
      | None => ∀ n', n' ∈ n :: names → is_Some (files fs !! filepath_Join [d; n']) → filepath_Join [d; n'] ∈ dirs fs
      end)).
  { intros Hn. eapply wp_mono; [|exact IH]. intros [p|].
    - intros (n' & Hin & Hp). exists n'. split; [by right|done].
    - intros Hall n' [->|Hin]%elem_of_cons; [done|by apply Hall]. }
  apply reading_call; [done|]. cbn [answer snd reply kr_bool].
  destruct (bool_decide_reflect (is_Some (files fs !! filepath_Join [d; n]))) as [Hf|Hf]; cbn [orb].
  - apply reading_call; [done|]. cbn [answer snd reply kr_bool]. case_bool_decide as Hd; [by apply Hnext|].
    exists n. split; [left|done].
  - assert (Hn' : is_Some (files fs !! filepath_Join [d; n]) → filepath_Join [d; n] ∈ dirs fs) by done.
    case_bool_decide as Hd; [|by apply Hnext]. apply reading_call; [done|]. cbn [answer snd reply kr_bool].
    rewrite bool_decide_eq_true_2 by done. by apply Hnext.
Qed.

Lemma reading_ignored (fs : FS) p ps dom : reading fs (shouldIgnoreFile Abs p ps dom) (λ _, True).
Proof.
  unfold shouldIgnoreFile. destruct ps; [done|]. destruct (Abs p); [done|]. apply reading_call; [done|]. by case_match.
Qed.

(** Induction on what a walk visits. *)
Lemma wnode_nested (P : wnode (E := E) → Prop) :
  (∀ p e d below, Forall P below → P (WNode p e d below)) → ∀ n, P n.
Proof.
  intros HP. fix IH 1. intros [p e d below]. apply HP. induction below as [|n below IHb]; constructor; [apply IH|apply IHb].
Qed.

Lemma reading_visit (fs : FS) ps dom base n : ∀ paths, reading fs (visit SliceFromBytes Abs ps dom base n paths) (λ _, True).
Proof.
  induction n as [p e d below IH] using wnode_nested. intros paths. cbn [visit].
  destruct e as [e|]; [done|].
  set (visit_all := fix visit_all (l : list wnode) (paths : list bytes) {struct l} : kprog (gen_err + list bytes) :=
    match l with
    | [] => Ret (inr paths)
    | n :: l => visit SliceFromBytes Abs ps dom base n paths ≫= λ r, match r with inl e => Ret (inl e) | inr paths => visit_all l paths end
    end).
  assert (Hall : ∀ l paths, Forall (λ n, ∀ paths, reading fs (visit SliceFromBytes Abs ps dom base n paths) (λ _, True)) l →
    reading fs (visit_all l paths) (λ _, True)).
  { intros l. induction l as [|n l IHl]; intros paths' Hl; [done|]. apply Forall_cons in Hl as [Hn Hl]. cbn [visit_all].
    eapply reading_bind; [apply Hn|]. intros [e|paths'']; [done|]. intros _. by apply IHl. }
  case_bool_decide; [by apply Hall|]. destruct d.
  - eapply reading_bind; [apply reading_find|]. intros [k|] _; [done|by apply Hall].
  - destruct (negb _); [done|]. eapply reading_bind; [apply reading_ignored|]. intros [] _; [done|].
    apply reading_call; [done|]. case_match; [done|]. by case_match.
Qed.

Lemma reading_scan (fs : FS) base ps dom : reading fs (scanManifests SliceFromBytes Abs base ps dom) (λ _, True).
Proof.
  apply reading_call; [done|]. cbn [answer snd kr_err kr_tree]. destruct (tree base); [|done]. apply reading_visit.
Qed.

Lemma reading_filterSlice (fs : FS) path crds f l : reading fs (filterSlice isUrl path crds f l) (λ _, True).
Proof.
  induction l as [|x l IH]; [done|]. cbn [filterSlice].
  assert (Hk : reading fs (kbind (filterSlice isUrl path crds f l) (λ l, Ret (inr (x :: l)))) (λ _, True)) by by apply reading_kbind.
  destruct (_ || _); [|done]. apply reading_call; [done|]. case_match; [done|]. by case_match.
Qed.

Lemma reading_filterKs (fs : FS) (kus : Kustomization X) d ps dom : reading fs (filterKsWithIgnoreFiles isUrl Abs kus d ps dom) (λ _, True).
Proof.
  unfold filterKsWithIgnoreFiles. apply reading_kpure; [done|]. intros path.
  do 3 (apply reading_kbind; [apply reading_filterSlice|done|]; intros ?). done.
Qed.

Lemma reading_components (fs : FS) d b l acc : reading fs (components_loop d b l acc) (λ _, True).
Proof.
  revert acc. induction l as [|c l IH]; intros acc; [done|]. cbn [components_loop]. destruct (negb _); [done|].
  apply reading_call; [done|]. destruct (_ && _); apply IH.
Qed.

Lemma reading_apply_spec (fs : FS) (k : K) d (kus : Kustomization X) :
  reading fs (apply_spec to_Patch to_JSON to_JSON6902 to_Image json_Marshal k d kus) (λ _, True).
Proof.
  unfold apply_spec. do 5 (apply reading_kpure; [done|]; intros ?). apply reading_kbind; [apply reading_components|done|]. intros ?.
  do 5 (apply reading_kpure; [done|]; intros ?). done.
Qed.

Lemma reading_getFS (fs : FS) (g : Generator) : reading fs (getFS g) (λ _, True).
Proof.
  unfold getFS. destruct (made g); [done|]. destruct (root g); [done|]. apply reading_call; [done|]. by case_match.
Qed.

Lemma reading_ignores (fs : FS) (g : Generator) d : reading fs (ignore_patterns Abs g d) (λ _, True).
Proof.
  unfold ignore_patterns. destruct (_ || _); [|done]. apply reading_kpure; [done|]. intros p. apply reading_call; [done|]. by case_match.
Qed.

(** The kustomization file of a directory, for an action: an existing file, or
    a new one with the default name. *)
Definition kfile_of (fs : FS) (d : bytes) (action : Action) (kfile : bytes) : Prop :=
  match action with
  | UnchangedAction => ∃ n, n ∈ recognized ∧ kfile = filepath_Join [d; n] ∧ is_Some (files fs !! kfile)
  | CreatedAction => kfile = filepath_Join [d; DefaultKustomizationFileName] ∧ (is_Some (files fs !! kfile) → kfile ∈ dirs fs)
  end.

Lemma reading_findOrGenerate (fs : FS) d ps dom :
  reading fs (findOrGenerateKustomization Marshal noRest SliceFromBytes Abs d ps dom)
    (λ r, match r.2 with inl _ => True | inr (_, kfile) => kfile_of fs d r.1 kfile end).
Proof.
  unfold findOrGenerateKustomization. eapply reading_bind; [apply reading_find|]. intros [p|] Hp.
  - destruct Hp as (n & Hn & -> & Hf). apply reading_call; [done|]. cbn [answer snd]. destruct Hf as [data Hf].
    rewrite Hf. cbn. exists n. split; [done|]. split; [done|]. by exists data.
  - destruct (Abs d) as [e|abs]; [done|]. eapply reading_bind; [apply reading_scan|]. intros [e|fl] _; [done|].
    cbn. destruct (Marshal _); [done|]. split; [done|]. apply Hp. left.
Qed.

Lemma reading_generate (fs : FS) (g : Generator) d :
  reading fs (GenerateManifest g d) (λ r, match r.2 with inl _ => True | inr (_, kfile) => kfile_of fs d r.1.2 kfile end).
Proof.
  unfold KustomizeGen.GenerateManifest. eapply reading_bind; [apply reading_getFS|]. intros [g' [e|]] _; [done|].
  eapply reading_bind; [apply reading_ignores|]. intros [e|[ps dom]] _; [done|].
  eapply reading_bind; [apply reading_findOrGenerate|]. intros [action [e|[data kfile]]] Hk; [done|]. cbn [fst snd] in Hk.
  apply (reading_bind _ _ _ (λ r, match r with inl _ => True | inr (_, kf) => kf = kfile end)).
  - apply reading_kpure; [done|]. intros kus. apply reading_kbind; [|done|].
    + destruct (filter_on g'); [apply reading_filterKs|done].
    + intros kus'. apply reading_kbind; [apply reading_apply_spec|done|]. intros kus''. cbn. by destruct (Marshal kus'').
  - intros [e|[manifest kf]] Hkf; [done|]. cbn. by subst kf.
Qed.

(** ** Filters *)

(** What a filter keeps: URLs, unless they stand for custom resource
    definitions, and what is not ignored. *)
Definition kept (fs : FS) (path : bytes) (crds : bool) (f : bytes → bool → bool) (res : bytes) : bool :=
  (negb crds && isUrl res) || negb (f (filepath_Join [path; res]) (bool_decide (filepath_Join [path; res] ∈ dirs fs))).

(** The slice is filtered in place, in order; a file that is missing is an
    error. *)
Lemma filterSlice_kept (fs : FS) path crds f l :
  reading fs (filterSlice isUrl path crds f l)
    (λ r, match r with
          | inr l' => l' = filter (λ x, kept fs path crds f x = true) l
          | inl e => e = GErr failure ∧ ∃ x, x ∈ l ∧ fs_exists fs (filepath_Join [path; x]) = false
          end).
Proof.
  induction l as [|x l IH]; [done|]. cbn [filterSlice].
  set (Q := λ r : gen_err + list bytes, match r with
          | inr l' => l' = filter (λ x, kept fs path crds f x = true) (x :: l)
          | inl e => e = GErr failure ∧ ∃ y, y ∈ x :: l ∧ fs_exists fs (filepath_Join [path; y]) = false
          end).
  assert (Hkeep : kept fs path crds f x = true → reading fs (kbind (filterSlice isUrl path crds f l) (λ l, Ret (inr (x :: l)))) Q).
  { intros Hk. eapply reading_bind; [exact IH|]. intros [e|l'].
    - intros (-> & y & Hy & Hex). split; [done|]. exists y. split; [by right|done].
    - intros ->. change (x :: filter (λ x, kept fs path crds f x = true) l = filter (λ x, kept fs path crds f x = true) (x :: l)).
      by rewrite filter_cons_True. }
  assert (Hdrop : kept fs path crds f x = false → reading fs (filterSlice isUrl path crds f l) Q).
  { intros Hk. eapply wp_mono; [|exact IH]. intros [e|l'].
    - intros (-> & y & Hy & Hex). split; [done|]. exists y. split; [by right|done].
    - intros ->. unfold Q. rewrite filter_cons_False; [done|]. by rewrite Hk. }
  destruct (crds || negb (isUrl x)) eqn:Hc.
  - assert (Hu : negb crds && isUrl x = false) by (by destruct crds, (isUrl x)).
    apply reading_call; [done|]. cbn [answer snd]. destruct (fs_exists fs (filepath_Join [path; x])) eqn:Hex; cbn [reply no kr_err kr_bool].
    + destruct (f _ _) eqn:Hf; [apply Hdrop|apply Hkeep]; unfold kept; by rewrite Hu, Hf.
    + split; [done|]. exists x. split; [left|done].
  - apply Hkeep. unfold kept. by destruct crds, (isUrl x).
Qed.

(** ** Paths of a directory *)

Lemma Join_name (d : bytes) : IsAbs d = true → ∃ q, ∀ n, proper n → filepath_Join [d; n] = q ++ sep :: n.
Proof.
  intros Hd. exists (match comps d with [] => [] | l => sep :: strings_Join l sep end). intros n Hn.
  pose proof Hn as (Hne & _ & _ & Hs). destruct (filepath_Join_abs d n Hd Hne) as (Ha & Hc & Hco).
  rewrite <- Hc, (Clean_abs _ Ha), Hco, Split_id by done. rewrite walk_proper by (by constructor).
  unfold render. cbn. destruct (comps d) as [|x l] eqn:Hl; [done|]. rewrite Join_app by done. done.
Qed.

Lemma drop_seps_last (s : bytes) (x : ascii) : x ≠ sep → List.rev (drop_seps (List.rev (s ++ [x]))) = s ++ [x].
Proof.
  intros Hx. rewrite List.rev_unit. cbn [drop_seps]. destruct (Ascii.eqb_spec x sep); [done|].
  cbn [List.rev]. by rewrite List.rev_involutive.
Qed.

Lemma Base_name (q n : bytes) : proper n → filepath_Base (q ++ sep :: n) = n.
Proof.
  intros (Hne & _ & _ & Hs). unfold filepath_Base. destruct (q ++ sep :: n) as [|c r] eqn:Hq; [by destruct q|]. rewrite <- Hq.
  assert (Hd : List.rev (drop_seps (List.rev (q ++ sep :: n))) = q ++ sep :: n).
  { destruct n as [|x m _] using rev_ind; [done|]. rewrite app_comm_cons, app_assoc. apply drop_seps_last.
    intros ->. apply Hs, elem_of_app. right. left. }
  rewrite Hd, Split_app, (Split_id n), last_snoc by done. cbn. by destruct n.
Qed.

Lemma TrimSuffix_app (s p : bytes) : TrimSuffix (s ++ p) p = s.
Proof.
  unfold TrimSuffix, HasSuffix. rewrite bool_decide_eq_true_2 by by exists s.
  rewrite length_app, Nat.add_sub. by apply take_app_length.
Qed.

Definition original (n : bytes) : bytes := n ++ str ".original".

Lemma names_proper n : n ∈ recognized → proper n ∧ proper (original n).
Proof.
  intros Hn. assert (Hb : forallb (λ n, bool_decide (proper n ∧ proper (original n))) recognized = true) by (vm_compute; reflexivity).
  rewrite forallb_forall in Hb. apply list_elem_of_In, Hb in Hn. by apply bool_decide_eq_true in Hn.
Qed.

Lemma names_apart n n' : n ∈ recognized → n' ∈ recognized → original n ≠ n' ∧ (original n = original n' → n = n').
Proof.
  intros Hn Hn'. split; [|intros He; by apply app_inv_tail in He].
  assert (Hb : forallb (λ n, forallb (λ n', bool_decide (original n ≠ n')) recognized) recognized = true) by (vm_compute; reflexivity).
  rewrite forallb_forall in Hb. apply list_elem_of_In, Hb in Hn. rewrite forallb_forall in Hn.
  apply list_elem_of_In, Hn in Hn'. by apply bool_decide_eq_true in Hn'.
Qed.

(** ** Cleaning up *)

Lemma exec_find_original (fs : FS) (d n : bytes) (names : list bytes) :
  n ∈ names → (∀ n', n' ∈ names → fs_exists fs (filepath_Join [d; original n']) = bool_decide (n' = n)) →
  exec fs (find_original d names) = (filepath_Join [d; original n], fs).
Proof.
  induction names as [|x names IH]; intros Hn Hex; [by apply not_elem_of_nil in Hn|].
  cbn [find_original exec answer]. fold (original x). rewrite (Hex x) by left. case_bool_decide as Hx; [by subst x|].
  apply elem_of_cons in Hn as [->|Hn]; [done|]. apply IH; [done|]. intros n' Hn'. apply Hex. by right.
Qed.

Lemma exec_no_original (fs : FS) (d : bytes) (names : list bytes) :
  (∀ n', n' ∈ names → fs_exists fs (filepath_Join [d; original n']) = false) → exec fs (find_original d names) = ([], fs).
Proof.
  induction names as [|x names IH]; intros Hex; [done|]. cbn [find_original exec answer]. fold (original x).
  rewrite (Hex x) by left. apply IH. intros n' Hn'. apply Hex. by right.
Qed.

Lemma fs_exists_other (m : gmap bytes bytes) (ds : gset bytes) (p p' d : bytes) :
  p ≠ p' → fs_exists (mkFS (<[p' := d]> m) ds) p = fs_exists (mkFS m ds) p.
Proof. intros Hne. unfold fs_exists. cbn [files dirs]. by rewrite lookup_insert_ne. Qed.

(** What the generator has written. *)
Lemma exec_WriteFile (fs fs1 : FS) (g g' : Generator) (d : bytes) (action : Action) :
  exec fs (WriteFile g d true) = ((g', action, None), fs1) →
  ∃ kfile manifest, kfile_of fs d action kfile ∧ (kfile ∉ dirs fs) ∧
    fs1 = mkFS (<[kfile := manifest]> (match action with
                 | CreatedAction => files fs
                 | UnchangedAction => <[filepath_Join [d; original (filepath_Base kfile)] := default [] (files fs !! kfile)]> (files fs)
                 end)) (dirs fs).
Proof.
  unfold KustomizeGen.WriteFile. rewrite exec_bind. destruct (exec fs (getFS g)) as [[g1 e] fs'] eqn:Hg.
  apply (exec_reading _ _ _ _ _ (reading_getFS fs g)) in Hg as [_ ->]. destruct e as [e|]; [done|].
  rewrite exec_bind. destruct (exec fs (GenerateManifest g1 d)) as [[[g2 act] r] fs'] eqn:Hm.
  apply (exec_reading _ _ _ _ _ (reading_generate fs g1 d)) in Hm as [Hk ->]. destruct r as [e|[manifest kfile]]; [done|].
  cbn [fst snd] in Hk. rewrite exec_bind. destruct act; cbn [SaveOriginal].
  - cbn [exec answer]. case_bool_decide as Hd; cbn [ok no reply kr_err].
    + rewrite exec_bind. by destruct (exec fs _).
    + intros [= <- <- <-]. by exists kfile, manifest.
  - destruct Hk as (n & Hn & -> & [data Hf]). unfold SaveOriginal. cbn [exec answer]. rewrite Hf. fold (original (filepath_Base (filepath_Join [d; n]))).
    case_bool_decide as Hd; cbn [ok no reply kr_err].
    { rewrite exec_bind. destruct (exec fs _) as [x fs2]. by cbn. }
    cbn [exec answer dirs files]. case_bool_decide as Hd'; cbn [ok no reply kr_err].
    { rewrite exec_bind. by destruct (exec _ _). }
    intros [= <- <- <-]. exists (filepath_Join [d; n]), manifest. rewrite Hf. split; [|done].
    exists n. split; [done|]. split; [done|]. by exists data.
Qed.

(** C26. [CleanDirectory] undoes [WriteFile]: in a directory without saved
    originals, when a kustomization file was written with the option to save
    the original and without an error, cleaning up after the action that was
    returned succeeds, and every file is as before: the original is back in its
    place, or the file that was created is gone.  The directory is given by an
    absolute path, no path is both a file and a directory, and the file system
    has no symbolic links (through a link, the file it points to would be
    written and not restored). *)
Theorem CleanDirectory_restores (fs fs1 : FS) (g g' : Generator) (d : bytes) (action : Action) :
  IsAbs d = true →
  (∀ p, is_Some (files fs !! p) → p ∉ dirs fs) →
  (∀ n, n ∈ recognized → fs_exists fs (filepath_Join [d; original n]) = false) →
  exec fs (WriteFile g d true) = ((g', action, None), fs1) →
  exec fs1 (CleanDirectory d action) = (None, fs).
Proof.
  intros Hd Hdisj Horig Hw. apply exec_WriteFile in Hw as (kfile & manifest & Hk & Hkd & ->).
  destruct (Join_name d Hd) as [q Hq].
  assert (Hne : ∀ n n', n ∈ recognized → n' ∈ recognized → filepath_Join [d; original n] ≠ filepath_Join [d; n']).
  { intros n n' Hn Hn' He. destruct (names_proper n Hn) as [_ Hp], (names_proper n' Hn') as [Hp' _].
    rewrite (Hq _ Hp), (Hq _ Hp') in He. apply app_inv_head in He. injection He as He. by apply (names_apart n n'). }
  unfold CleanDirectory. rewrite exec_bind. destruct action; cbn [kfile_of] in Hk.
  - destruct Hk as [-> Hnone]. assert (Hf : files fs !! filepath_Join [d; DefaultKustomizationFileName] = None).
    { apply eq_None_not_Some. auto. }
    rewrite exec_no_original.
    2: { intros n Hn. rewrite fs_exists_other; [exact (Horig n Hn)|]. apply Hne; [done|left]. }
    rewrite bool_decide_eq_true_2 by done. cbn [exec answer files dirs]. unfold fs_exists. cbn [files].
    rewrite (bool_decide_eq_true_2 ([] = [])) by done. cbn [negb andb no reply kr_err exec answer files dirs].
    rewrite lookup_insert_eq, bool_decide_eq_true_2 by done. cbn [exec ok reply kr_err].
    rewrite delete_insert_id by done. by destruct fs.
  - destruct Hk as (n & Hn & -> & [data Hf]). destruct (names_proper n Hn) as [Hp Hpo].
    assert (Hb : filepath_Base (filepath_Join [d; n]) = n) by (rewrite (Hq _ Hp); by apply Base_name). rewrite Hb, Hf. cbn [default]. unfold id.
    set (kf := filepath_Join [d; n]) in *. set (orig := filepath_Join [d; original n]).
    assert (Hok : kf ≠ orig) by (intros He; by apply (Hne n n)).
    assert (Hone : orig ≠ []) by (unfold orig; rewrite (Hq _ Hpo); by destruct q).
    assert (Htrim : TrimSuffix orig (str ".original") = kf).
    { unfold orig, kf. rewrite (Hq _ Hpo), (Hq _ Hp). unfold original. rewrite app_comm_cons, app_assoc. apply TrimSuffix_app. }
    pose proof (Horig n Hn) as Ho. fold orig in Ho. unfold fs_exists in Ho. rewrite bool_decide_eq_false_2 in Ho by done. cbn [negb andb] in Ho.
    apply orb_false_iff in Ho as [Ho%bool_decide_eq_false Hod%bool_decide_eq_false]. apply eq_None_not_Some in Ho.
    assert (Hex : fs_exists (mkFS (<[kf := manifest]> (<[orig := data]> (files fs))) (dirs fs)) orig = true).
    { unfold fs_exists. cbn [files]. rewrite bool_decide_eq_false_2 by done. rewrite lookup_insert_ne, lookup_insert_eq by done. done. }
    rewrite (exec_find_original _ d n); [|done|].
    2: { intros n' Hn'. case_bool_decide as Hnn; [by subst n'|]. unfold kf.
         rewrite fs_exists_other by by apply Hne. rewrite fs_exists_other; [exact (Horig n' Hn')|].
         unfold orig. destruct (names_proper n' Hn') as [_ Hp']. rewrite (Hq _ Hpo), (Hq _ Hp'). intros He.
         apply app_inv_head in He. injection He as He. by apply Hnn, (names_apart n' n). }
    fold orig. rewrite bool_decide_eq_false_2 by done. rewrite Htrim. cbn [exec answer]. rewrite Hex. cbn [reply kr_err exec answer files dirs].
    rewrite lookup_insert_ne, lookup_insert_eq by done. rewrite bool_decide_eq_false_2 by done. cbn [exec ok reply kr_err].
    f_equal. destruct fs as [m ds]. cbn [files dirs] in *. f_equal.
    rewrite delete_insert_ne, delete_insert_id by done. rewrite insert_insert_eq. by apply insert_id.
Qed.
End spec.

(** ** Examples *)

#[local] Instance demo_gen_unicode : Unicode := ascii_only.
#[local] Instance demo_gen_object : Unstructured unit unit unit unit := {|
  GetNamespace _ := []; NestedString _ f := inr (if bool_decide (f = [specField; str "targetNamespace"]) then Some (str "apps") else None);
  NestedBool _ _ := false; NestedStringSlice _ _ := inr None; NestedStringMap _ _ := inr None; NestedSlice _ _ := inr None;
  as_map _ := Some (); nil_map := () |}.

(** A kustomization is its text; the namespace is written in front. *)
Definition demo_Unmarshal (b : bytes) : unit + Kustomization bytes := inr (mkKus [str "a.yaml"] [] [] [] [] [] [] [] [] [] [] b).
Definition demo_Marshal (k : Kustomization bytes) : unit + bytes := inr (Namespace k ++ k_rest k).
Definition demo_WriteFile :=
  WriteFile (K := unit) (V := unit) (M := unit) (J := unit) demo_Unmarshal demo_Marshal [] (λ _, None) (λ _, inl ()) (λ _, inl ()) (λ _, inl ())
    (λ _, inl ()) (λ _, inl ()) (λ _, false) (λ d, inr d) (NewGenerator [] ()) (str "/repo") true.
Definition demo_tree (base : bytes) : option (wnode (E := unit)) := None.
Definition demo_ignores (d : bytes) : dir := Dir (inr None) None [].
Definition demo_exec {A : Type} : FS → prog kcall kreply A → A * FS := exec demo_tree demo_ignores ().

Definition demo_fs : FS := mkFS {[str "/repo/kustomization.yml" := str "resources"; str "/repo/a.yaml" := str "a"]} {[str "/repo"]}.

Lemma demo_written :
  (demo_exec demo_fs demo_WriteFile).1.1.2 = UnchangedAction ∧ (demo_exec demo_fs demo_WriteFile).1.2 = None ∧
  files (demo_exec demo_fs demo_WriteFile).2 !! str "/repo/kustomization.yml" = Some (str "appsresources").
Proof. by vm_compute. Qed.

Lemma CleanDirectory_restores_witness :
  (demo_exec (demo_exec demo_fs demo_WriteFile).2 (CleanDirectory (str "/repo") UnchangedAction)) = (None, demo_fs).
Proof.
  destruct demo_written as (Ha & He & _). unfold demo_exec in *. destruct (exec _ _ _ demo_fs demo_WriteFile) as [[[g' act] e] fs1] eqn:Hw.
  cbn [fst snd] in *. subst act e.
  eapply (CleanDirectory_restores (K := unit) (V := unit)); [| | |exact Hw].
  - reflexivity.
  - intros p [v Hv] Hp. cbn [demo_fs dirs] in Hp. apply elem_of_singleton in Hp. subst p. vm_compute in Hv. discriminate.
  - intros n Hn. apply elem_of_cons in Hn as [->|Hn]; [by vm_compute|]. apply elem_of_cons in Hn as [->|Hn]; [by vm_compute|].
    apply list_elem_of_singleton in Hn as ->. by vm_compute.
Defined.

(** A saved original that is left over is lost: for a file that was created, it
    is moved over it and removed with it. *)
Example leftover_original_lost :
  let fs := mkFS {[str "/repo/kustomization.yaml.original" := str "mine"]} {[str "/repo"]} in
  let written := demo_exec fs demo_WriteFile in
  written.1.1.2 = CreatedAction ∧ written.1.2 = None ∧
  let cleaned := demo_exec written.2 (CleanDirectory (str "/repo") CreatedAction) in
  cleaned.1 = None ∧ files cleaned.2 = ∅.
Proof. by vm_compute. Qed.
