(* ===== verification/HttpFetch.v ===== *)
(** * Downloads of archives ([http/fetch]) and the pool of transports ([http/transport])

    [FetchWithContext] as a program over the calls it makes: the HTTP request,
    the file the archive is stored in, and the extraction, which is [Untar] of
    component [tar].  What the server and the file system answer is arbitrary,
    except that a file holds what was written to it.  Then nothing is extracted
    or reported as fetched but bytes that have the expected digest. *)

From S2P Require Import Prelude GoStd Utf8 GoPath Untar Interaction Sha256.

(** ** Calls *)

Inductive fcall :=
  | HNewRequest (url : bytes)
  | HDo (url : bytes)                        (* with the retries of the client *)
  | HCloseBody
  | HCreateTemp (dir pattern : bytes)
  | HOpenFile (p : bytes) (mode : Z)         (* O_RDWR|O_CREATE|O_EXCL *)
  | HWrite (p data : bytes)
  | HSeek (p : bytes)                        (* to the start *)
  | HRead (p : bytes)                        (* to the end *)
  | HUntar (p dir : bytes) (opts : list (tarOpts → tarOpts))
  | HCloseFile (p : bytes)
  | HRemove (p : bytes).

(** Each call reads the parts of the answer that it has: the response with its
    body, as the chunks that reads of it return and the error they end in; the
    name of the temporary file; what was read; what the extraction did. *)
Record fanswer := mkFans {
  f_err : option bytes; f_code : Z; f_status : bytes; f_body : list bytes; f_body_err : option bytes;
  f_name : bytes; f_data : bytes; f_calls : list Untar.call; f_untar : untar_error + option os_error }.

Abbreviation fetch_prog A := (prog fcall fanswer A) (only parsing).
Abbreviation ftrace := (list (fcall * fanswer)) (only parsing).

(** ** Errors *)

Inductive verify_error :=
  | EmptyDigest
  | BadDigestFormat (dig e : bytes)
  | ReadBack (e : bytes)
  | DigestMismatch (dig : bytes).

Inductive fetch_error :=
  | UrlError (e : bytes)
  | RequestError (e : bytes)
  | DownloadError (e : bytes)
  (** [src/http/fetch/archive_fetcher.go:60-61 ErrFileNotFound] *)
  | ErrFileNotFound
  | StatusError (url status : bytes)
  | TempFileError (e : bytes)
  | TargetFileError (e : bytes)
  | TooLarge (n max : Z)
  | StoreError (e : bytes)
  | SeekError (e : bytes)
  | VerifyError (e : verify_error)
  | SeekAgainError (e : bytes)
  | ExtractError (e : untar_error + os_error)
  | CloseError (e : bytes)
  | Joined (e : fetch_error) (close : bytes).

(** ** The fetcher and its options *)

(** The logger that is passed: none, a [logr.Logger], or another one. *)
Inductive flogger := NoLogger | LogrLogger | OtherLogger.
(** The logger of the HTTP client; [ErrorOnly] wraps a [logr.Logger]. *)
Inductive clogger := CNone | ErrorOnly | COther.

(** The methods of a leveled logger, and the lines a wrapped logger writes:
    errors, at the level of information.
    [src/http/fetch/logger.go:30-50 errorLogger] *)
Inductive log_level := LError | LInfo | LDebug | LWarn.
Definition errorLogger (l : log_level) (msg : bytes) : list (log_level * bytes) :=
  match l with LError => [(LInfo, msg)] | LInfo | LDebug | LWarn => [] end.

Record HttpClient := mkHttpClient { RetryWaitMin : Z; RetryWaitMax : Z; RetryMax : Z; hc_Logger : clogger }.

(** [src/http/fetch/archive_fetcher.go:43-55 ArchiveFetcher] *)
Record ArchiveFetcher := mkFetcher {
  af_retries : Z; af_maxDownloadSize : Z; af_fileMode : Z;
  af_untarOpts : option (list (tarOpts → tarOpts));
  af_hostnameOverwrite : bytes; af_filename : bytes; af_logger : flogger; af_client : HttpClient }.

Abbreviation FetchOption := (ArchiveFetcher → ArchiveFetcher) (only parsing).

(** [src/http/fetch/archive_fetcher.go:63-68 WithRetries] *)
Definition WithRetries (n : Z) : FetchOption := λ a,
  mkFetcher n (af_maxDownloadSize a) (af_fileMode a) (af_untarOpts a) (af_hostnameOverwrite a) (af_filename a)
    (af_logger a) (af_client a).
(** [src/http/fetch/archive_fetcher.go:70-75 WithMaxDownloadSize] *)
Definition WithMaxDownloadSize (n : Z) : FetchOption := λ a,
  mkFetcher (af_retries a) n (af_fileMode a) (af_untarOpts a) (af_hostnameOverwrite a) (af_filename a)
    (af_logger a) (af_client a).
(** The options are a copy of the arguments, and so not nil.
    [src/http/fetch/archive_fetcher.go:77-82 WithUntar] *)
Definition WithUntar (opts : list (tarOpts → tarOpts)) : FetchOption := λ a,
  mkFetcher (af_retries a) (af_maxDownloadSize a) (af_fileMode a) (Some opts) (af_hostnameOverwrite a)
    (af_filename a) (af_logger a) (af_client a).
(** [src/http/fetch/archive_fetcher.go:84-89 WithHostnameOverwrite] *)
Definition WithHostnameOverwrite (h : bytes) : FetchOption := λ a,
  mkFetcher (af_retries a) (af_maxDownloadSize a) (af_fileMode a) (af_untarOpts a) h (af_filename a)
    (af_logger a) (af_client a).
(** [src/http/fetch/archive_fetcher.go:91-99 WithLogger] *)
Definition fetch_WithLogger (l : flogger) : FetchOption := λ a,
  mkFetcher (af_retries a) (af_maxDownloadSize a) (af_fileMode a) (af_untarOpts a) (af_hostnameOverwrite a)
    (af_filename a) l (af_client a).
(** [src/http/fetch/archive_fetcher.go:101-106 WithFileName] *)
Definition WithFileName (n : bytes) : FetchOption := λ a,
  mkFetcher (af_retries a) (af_maxDownloadSize a) (af_fileMode a) (af_untarOpts a) (af_hostnameOverwrite a) n
    (af_logger a) (af_client a).
(** [src/http/fetch/archive_fetcher.go:108-114 WithFileMode] *)
Definition WithFileMode (m : Z) : FetchOption := λ a,
  mkFetcher (af_retries a) (af_maxDownloadSize a) m (af_untarOpts a) (af_hostnameOverwrite a) (af_filename a)
    (af_logger a) (af_client a).

Definition no_client : HttpClient := mkHttpClient 0 0 0 CNone.

(** [src/http/fetch/archive_fetcher.go:116-138 New] *)
Definition fetch_New (opts : list (ArchiveFetcher → ArchiveFetcher)) : ArchiveFetcher :=
  let a := foldl (λ a opt, opt a) (mkFetcher 0 0 384 None [] [] NoLogger no_client) opts in
  let client := mkHttpClient 5000000000 30000000000 (af_retries a)
    (match af_logger a with LogrLogger => ErrorOnly | NoLogger => CNone | OtherLogger => COther end) in
  mkFetcher (af_retries a) (af_maxDownloadSize a) (af_fileMode a) (af_untarOpts a) (af_hostnameOverwrite a)
    (af_filename a) (af_logger a) client.

(** [src/http/fetch/archive_fetcher.go:147-158 NewArchiveFetcherWithLogger] *)
Definition NewArchiveFetcherWithLogger (retries maxDownloadSize maxUntarSize : Z) (hostnameOverwrite : bytes)
    (logger : flogger) : ArchiveFetcher :=
  fetch_New [WithRetries retries; WithMaxDownloadSize maxDownloadSize; WithHostnameOverwrite hostnameOverwrite;
    fetch_WithLogger logger; WithUntar [WithMaxUntarSize maxUntarSize]].

(** [src/http/fetch/archive_fetcher.go:140-145 NewArchiveFetcher] *)
Definition NewArchiveFetcher (retries maxDownloadSize maxUntarSize : Z) (hostnameOverwrite : bytes) : ArchiveFetcher :=
  NewArchiveFetcherWithLogger retries maxDownloadSize maxUntarSize hostnameOverwrite NoLogger.

(** ** Fetching *)

(** [io.Copy] of the body into the file up to a limit ([io.LimitReader]): the
    error, and what is left of the body.  Without a limit the body is copied to
    its end.  A read of no bytes is not written.
    [src/http/fetch/archive_fetcher.go:236-236 FetchWithContext] *)
Fixpoint copy_body (p : bytes) (limit : option Z) (body : list bytes) (berr : option bytes) :
    fetch_prog (option bytes * list bytes) :=
  if match limit with Some n => (n <=? 0)%Z | None => false end then Ret (None, body)
  else
    match body with
    | [] => Ret (berr, [])
    | [] :: body => copy_body p limit body berr
    | c :: body =>
        let k := match limit with Some n => Z.to_nat n | None => length c end in
        let rest := match drop k c with [] => body | r => r :: body end in
        Call (HWrite p (take k c)) (λ a,
        match f_err a with
        | Some e => Ret (Some e, rest)
        | None =>
            if k <? length c then Ret (None, rest)
            else copy_body p ((λ n, n - Z.of_nat (length c))%Z <$> limit) body berr
        end)
    end.

Definition total_length (body : list bytes) : Z := Z.of_nat (length (concat body)).

(** [src/http/fetch/archive_fetcher.go:229-246 FetchWithContext] *)
Definition store (r : ArchiveFetcher) (p : bytes) (resp : fanswer) : fetch_prog (option fetch_error) :=
  if (0 <? af_maxDownloadSize r)%Z then
    copy_body p (Some (af_maxDownloadSize r)) (f_body resp) (f_body_err resp) ≫= λ copied : option bytes * list bytes,
    let '(err, rest) := copied in
    if (0 <? total_length rest)%Z then Ret (Some (TooLarge (total_length rest) (af_maxDownloadSize r)))
    else Ret (StoreError <$> err)
  else
    copy_body p None (f_body resp) (f_body_err resp) ≫= λ copied : option bytes * list bytes, Ret (StoreError <$> copied.1).

Section fetch.
(** [net/url] as far as the host of a URL is replaced. *)
Context {U : Type} (url_Parse : bytes → bytes + U) (SetHost : bytes → U → U) (url_String : U → bytes).
(** [go-digest]: the format of a digest, and the verifier of a digest. *)
Context (digest_Parse : bytes → option bytes) (Verified : bytes → bytes → bool).

(** The digest that is checked: SHA-256 if it names no algorithm. *)
Definition full_digest (dig : bytes) : bytes :=
  if strings_Contains dig (str ":") then dig else str "sha256:" ++ dig.

(** [src/http/fetch/archive_fetcher.go:278-303 verifyDigest] *)
Definition verifyDigest (dig p : bytes) : fetch_prog (option verify_error) :=
  if bool_decide (dig = []) then Ret (Some EmptyDigest)
  else
    let dig := full_digest dig in
    match digest_Parse dig with
    | Some e => Ret (Some (BadDigestFormat dig e))
    | None =>
        Call (HRead p) (λ a,
        match f_err a with
        | Some e => Ret (Some (ReadBack e))
        | None => Ret (if Verified dig (f_data a) then None else Some (DigestMismatch dig))
        end)
    end.

Definition untar_result (r : untar_error + option os_error) : option (untar_error + os_error) :=
  match r with inl e => Some (inl e) | inr (Some e) => Some (inr e) | inr None => None end.

(** [src/http/fetch/archive_fetcher.go:248-276 FetchWithContext] *)
Definition process (r : ArchiveFetcher) (p dig dir : bytes) : fetch_prog (option fetch_error) :=
  Call (HSeek p) (λ a,
  match f_err a with
  | Some e => Ret (Some (SeekError e))
  | None =>
      verifyDigest dig p ≫= λ v,
      match v with
      | Some e => Ret (Some (VerifyError e))
      | None =>
          match af_untarOpts r with
          | None => Ret None
          | Some opts =>
              Call (HSeek p) (λ a,
              match f_err a with
              | Some e => Ret (Some (SeekAgainError e))
              | None => Call (HUntar p dir (opts ++ [WithSkipSymlinks])) (λ a, Ret (ExtractError <$> untar_result (f_untar a)))
              end)
          end
      end
  end).

(** What happens with the open file, up to and with its closing.
    [src/http/fetch/archive_fetcher.go:217-276 FetchWithContext] *)
Definition with_file (r : ArchiveFetcher) (p dig dir : bytes) (resp : fanswer) : fetch_prog (option fetch_error) :=
  (store r p resp ≫= λ e, match e with Some e => Ret (Some e) | None => process r p dig dir end) ≫= λ err,
  Call (HCloseFile p) (λ a,
  match f_err a with
  | None => Ret err
  | Some ce => Ret (Some (match err with Some e => Joined e ce | None => CloseError ce end))
  end).

(** The file that keeps an archive which is not extracted.
    [src/http/fetch/archive_fetcher.go:206-210 FetchWithContext] *)
Definition target_path (r : ArchiveFetcher) (archiveURL dir : bytes) : bytes :=
  filepath_Join [dir; if bool_decide (af_filename r = []) then filepath_Base archiveURL else af_filename r].

(** [src/http/fetch/archive_fetcher.go:190-276 FetchWithContext] *)
Definition handle_response (r : ArchiveFetcher) (archiveURL dig dir : bytes) (resp : fanswer) :
    fetch_prog (option fetch_error) :=
  if negb (f_code resp =? 200)%Z then
    Ret (Some (if (f_code resp =? 404)%Z then ErrFileNotFound else StatusError archiveURL (f_status resp)))
  else
    match af_untarOpts r with
    | Some _ =>
        Call (HCreateTemp [] (str "fetch.*.tmp")) (λ a,
        match f_err a with
        | Some e => Ret (Some (TempFileError e))
        | None =>
            with_file r (f_name a) dig dir resp ≫= λ err,
            Call (HRemove (f_name a)) (λ _, Ret err)
        end)
    | None =>
        let p := target_path r archiveURL dir in
        Call (HOpenFile p (af_fileMode r)) (λ a,
        match f_err a with
        | Some e => Ret (Some (TargetFileError e))
        | None => with_file r p dig dir resp
        end)
    end.

(** [src/http/fetch/archive_fetcher.go:170-177 FetchWithContext] *)
Definition overwrite_host (r : ArchiveFetcher) (archiveURL : bytes) : bytes + bytes :=
  if bool_decide (af_hostnameOverwrite r = []) then inr archiveURL
  else match url_Parse archiveURL with
       | inl e => inl e
       | inr u => inr (url_String (SetHost (af_hostnameOverwrite r) u))
       end.

(** [src/http/fetch/archive_fetcher.go:168-276 FetchWithContext] *)
Definition FetchWithContext (r : ArchiveFetcher) (archiveURL dig dir : bytes) : fetch_prog (option fetch_error) :=
  match overwrite_host r archiveURL with
  | inl e => Ret (Some (UrlError e))
  | inr archiveURL =>
      Call (HNewRequest archiveURL) (λ a,
      match f_err a with
      | Some e => Ret (Some (RequestError e))
      | None =>
          Call (HDo archiveURL) (λ resp,
          match f_err resp with
          | Some e => Ret (Some (DownloadError e))
          | None =>
              handle_response r archiveURL dig dir resp ≫= λ err,
              Call HCloseBody (λ _, Ret err)
          end)
      end)
  end.

(** [src/http/fetch/archive_fetcher.go:160-166 Fetch] *)
Definition Fetch (r : ArchiveFetcher) (archiveURL dig dir : bytes) : fetch_prog (option fetch_error) :=
  FetchWithContext r archiveURL dig dir.
End fetch.

(** ** The file of the archive *)

(** The bytes that a trace has put into a file. *)
Definition event_bytes (p : bytes) (ev : fcall * fanswer) : bytes :=
  match ev with
  | (HWrite q d, a) => if bool_decide (q = p) then match f_err a with None => d | Some _ => [] end else []
  | _ => []
  end.
Definition stored (p : bytes) (t : ftrace) : bytes := t ≫= event_bytes p.

Lemma stored_app p (t1 t2 : ftrace) : stored p (t1 ++ t2) = stored p t1 ++ stored p t2.
Proof. apply bind_app. Qed.

Definition is_write (p : bytes) (ev : fcall * fanswer) : Prop := match ev.1 with HWrite q _ => q = p | _ => False end.

Lemma stored_other p q (t : ftrace) : Forall (is_write p) t → q ≠ p → stored q t = [].
Proof.
  induction 1 as [|[[] a] t Hw _ IH]; intros Hq; cbn in *; try done. subst.
  rewrite bool_decide_false by done. by apply IH.
Qed.

Lemma copy_body_spec p limit body berr (t : ftrace) err rest :
  runs (copy_body p limit body berr) t (err, rest) →
  Forall (is_write p) t ∧
  (∀ n, limit = Some n → (Z.of_nat (length (stored p t)) <= Z.max 0 n)%Z) ∧
  (err = None → concat body = stored p t ++ concat rest ∧ (limit = None → rest = [])).
Proof.
  revert limit t. induction body as [|c body IH]; intros limit t Hr.
  - cbn in Hr. destruct (match limit with Some _ => _ | None => false end);
      apply runs_ret_inv in Hr as [-> [= -> ->]]; (split_and!; [constructor|cbn; lia|done]).
  - cbn [copy_body] in Hr. destruct limit as [n|].
    + destruct (Z.leb_spec n 0) as [Hn|Hn].
      { apply runs_ret_inv in Hr as [-> [= -> ->]]. split_and!; [constructor|cbn; lia|done]. }
      destruct c as [|x c]; [by apply IH in Hr|]. remember (x :: c) as l eqn:El. clear El.
      apply runs_call_inv in Hr as (a & t' & -> & Hr).
      assert (concat (match drop (Z.to_nat n) l with [] => body | r => r :: body end) = drop (Z.to_nat n) l ++ concat body)
        as Erest by (by destruct (drop (Z.to_nat n) l)).
      destruct (f_err a) as [e|] eqn:Ea.
      { apply runs_ret_inv in Hr as [-> [= -> ->]].
        split_and!; [by repeat constructor| |done]. intros m [= <-]. cbn. rewrite bool_decide_true, Ea by done. cbn. lia. }
      destruct (Nat.ltb_spec (Z.to_nat n) (length l)) as [Hl|Hl].
      { apply runs_ret_inv in Hr as [-> [= -> ->]].
        split_and!; [by repeat constructor|intros m [= <-]|intros _; split; [|done]]; cbn;
          rewrite bool_decide_true, Ea, app_nil_r by done.
        - rewrite length_take. lia.
        - by rewrite Erest, app_assoc, take_drop. }
      apply IH in Hr as (Hw & Hb & He). split_and!; [by constructor|intros m [= <-]|intros E; split; [|done]];
        cbn; rewrite bool_decide_true, Ea, take_ge by (done || lia).
      * specialize (Hb _ eq_refl). fold (stored p t'). rewrite length_app. lia.
      * fold (stored p t'). destruct (He E) as [-> _]. by rewrite app_assoc.
    + destruct c as [|x c]; [by apply IH in Hr|]. remember (x :: c) as l eqn:El. clear El.
      apply runs_call_inv in Hr as (a & t' & -> & Hr). rewrite drop_all, Nat.ltb_irrefl, take_ge in * by done.
      destruct (f_err a) as [e|] eqn:Ea.
      { apply runs_ret_inv in Hr as [-> [= -> ->]]. by split_and!; [repeat constructor|..]. }
      apply IH in Hr as (Hw & _ & He). split_and!; [by constructor|done|intros E].
      destruct (He E) as [Eb Hn]. split; [|auto]. cbn. rewrite bool_decide_true, Ea, Eb by done.
      fold (stored p t'). by rewrite app_assoc.
Qed.

Lemma store_spec r p resp (t : ftrace) e :
  runs (store r p resp) t e →
  Forall (is_write p) t ∧
  ((0 < af_maxDownloadSize r)%Z → (Z.of_nat (length (stored p t)) <= af_maxDownloadSize r)%Z) ∧
  (e = None → stored p t = concat (f_body resp)).
Proof.
  unfold store. destruct (Z.ltb_spec 0 (af_maxDownloadSize r)) as [Hm|Hm];
    intros (t1 & [err rest] & t2 & -> & (Hw & Hb & He)%copy_body_spec & Hr)%runs_bind_inv.
  - assert (t2 = [] ∧ (e = None → err = None ∧ concat rest = [])) as [-> Hn].
    { unfold total_length in Hr. destruct (Z.ltb_spec 0 (Z.of_nat (length (concat rest)))) as [Hl|Hl];
        apply runs_ret_inv in Hr as [-> ->]; split; try done.
      intros E. split; [by destruct err|]. apply length_zero_iff_nil. lia. }
    rewrite app_nil_r. split_and!; [done|intros _; specialize (Hb _ eq_refl); lia|].
    intros E. destruct (Hn E) as [-> Hrest]. destruct (He eq_refl) as [-> _]. by rewrite Hrest, app_nil_r.
  - apply runs_ret_inv in Hr as [-> ->]. rewrite app_nil_r. split_and!; [done|lia|].
    destruct err; [done|]. intros _. destruct (He eq_refl) as [-> ->]; [|done]. by rewrite app_nil_r.
Qed.

(** ** The offset of the file *)

(** What the open file [p] holds, and what lies behind its offset: a write is
    made at the end, a seek goes to the start, reading goes to the end. *)
Definition handle_step (p : bytes) (h : bytes * bytes) (ev : fcall * fanswer) : bytes * bytes :=
  let all := h.1 ++ event_bytes p ev in
  match ev.1 with
  | HSeek q => if bool_decide (q = p) && bool_decide (f_err ev.2 = None) then (all, all) else (all, h.2)
  | HWrite q _ | HRead q | HUntar q _ _ => if bool_decide (q = p) then (all, []) else (all, h.2)
  | _ => (all, h.2)
  end.

Definition handle (p : bytes) (t : ftrace) : bytes * bytes := foldl (handle_step p) ([], []) t.

(** What the next read of the file returns. *)
Definition unread (p : bytes) (t : ftrace) : bytes := (handle p t).2.

Lemma handle_stored p (t : ftrace) : (handle p t).1 = stored p t.
Proof.
  assert (∀ h, (foldl (handle_step p) h t).1 = h.1 ++ stored p t) as Hgen; [|apply Hgen].
  induction t as [|ev t IH]; intros h; [by rewrite app_nil_r|]. cbn [foldl]. rewrite IH.
  assert ((handle_step p h ev).1 = h.1 ++ event_bytes p ev) as -> by (unfold handle_step; by repeat case_match).
  unfold stored. cbn. by rewrite app_assoc.
Qed.

(** After a seek to the start, all of the file is read. *)
Lemma unread_seek p (t : ftrace) a : f_err a = None → unread p (t ++ [(HSeek p, a)]) = stored p t.
Proof.
  intros Ha. unfold unread, handle. rewrite foldl_app. cbn. fold (handle p t). rewrite !bool_decide_true by done. cbn.
  by rewrite handle_stored, app_nil_r.
Qed.

(** ** What is extracted and what is kept *)

Section fetch_spec.
Context (digest_Parse : bytes → option bytes) (Verified : bytes → bytes → bool).

Definition no_write (ev : fcall * fanswer) : Prop := match ev.1 with HWrite _ _ => False | _ => True end.
Definition no_untar (ev : fcall * fanswer) : Prop := match ev.1 with HUntar _ _ _ => False | _ => True end.

Definition no_file (ev : fcall * fanswer) : Prop := match ev.1 with HWrite _ _ | HCreateTemp _ _ => False | _ => True end.

Lemma no_file_no_write t : Forall no_file t → Forall no_write t.
Proof. intros Hf. eapply Forall_impl; [exact Hf|]. by intros [[] a]. Qed.

Lemma stored_none q (t : ftrace) : Forall no_write t → stored q t = [].
Proof. induction 1 as [|[[] a] t Hw _ IH]; cbn in *; done. Qed.

(** What was read back has the digest. *)
Definition checked_read (dig p : bytes) (a : fanswer) : Prop :=
  dig ≠ [] ∧ digest_Parse (full_digest dig) = None ∧ f_err a = None ∧ Verified (full_digest dig) (f_data a) = true.

Lemma verifyDigest_spec dig p (t : ftrace) v :
  runs (verifyDigest digest_Parse Verified dig p) t v →
  (t = [] ∨ ∃ a, t = [(HRead p, a)]) ∧ (v = None → ∃ a, t = [(HRead p, a)] ∧ checked_read dig p a).
Proof.
  unfold verifyDigest, checked_read. case_bool_decide; [by intros [-> ->]%runs_ret_inv; split; [left|]|].
  destruct (digest_Parse _) eqn:Ep; [by intros [-> ->]%runs_ret_inv; split; [left|]|].
  intros (a & t' & -> & Hr)%runs_call_inv. destruct (f_err a) eqn:Ea;
    apply runs_ret_inv in Hr as [-> ->]; (split; [by eauto|]); [done|].
  destruct (Verified _ _) eqn:Ev; [|done]. intros _. eexists; split; [done|]. by split_and!.
Qed.

Lemma process_spec r p dig dir (t : ftrace) e :
  runs (process digest_Parse Verified r p dig dir) t e →
  Forall no_file t ∧
  ((Forall no_untar t ∧ (e = None → af_untarOpts r = None ∧
      ∃ s a, t = [(HSeek p, s); (HRead p, a)] ∧ f_err s = None ∧ checked_read dig p a)) ∨
   (∃ s1 a s2 u opts, t = [(HSeek p, s1); (HRead p, a); (HSeek p, s2); (HUntar p dir (opts ++ [WithSkipSymlinks]), u)] ∧
      f_err s1 = None ∧ f_err s2 = None ∧ checked_read dig p a ∧
      af_untarOpts r = Some opts ∧ e = ExtractError <$> untar_result (f_untar u))).
Proof.
  unfold process. intros (s & t' & -> & Hr)%runs_call_inv. destruct (f_err s) eqn:Hs.
  { apply runs_ret_inv in Hr as [-> ->]. split; [by repeat constructor|]. left. split; [by repeat constructor|done]. }
  apply runs_bind_inv in Hr as (t1 & v & t2 & -> & [Ht1 Hv]%verifyDigest_spec & Hr).
  destruct v as [v|].
  { apply runs_ret_inv in Hr as [-> ->]. destruct Ht1 as [->|[a ->]];
      (split; [by repeat constructor|left; split; [by repeat constructor|done]]). }
  destruct (Hv eq_refl) as (a & -> & Ha). destruct (af_untarOpts r) as [opts|].
  2:{ apply runs_ret_inv in Hr as [-> ->]. split; [by repeat constructor|left; split; [by repeat constructor|]].
      intros _. split; [done|]. by exists s, a. }
  apply runs_call_inv in Hr as (s2 & t' & -> & Hr). destruct (f_err s2) eqn:Hs2.
  { apply runs_ret_inv in Hr as [-> ->]. split; [by repeat constructor|left; split; [by repeat constructor|done]]. }
  apply runs_call_inv in Hr as (u & t'' & -> & [-> ->]%runs_ret_inv). split; [by repeat constructor|right].
  by exists s, a, s2, u, opts.
Qed.

(** A read returns what lies behind the offset of the file, and [Untar] extracts
    that; [decode] is the meaning of the bytes as an archive. *)
Context (decode : bytes → input) (cwd : os_error + bytes) (SecureJoin : bytes → bytes → os_error + bytes).
Context (darwin : bool) (t0 : Z).

Definition disk_law (t : ftrace) : Prop := ∀ t1 c a t2, t = t1 ++ (c, a) :: t2 →
  match c with
  | HRead p => f_err a = None → f_data a = unread p t1
  | HUntar p dir opts =>
      ∃ os, (f_calls a, f_untar a) = Untar os cwd SecureJoin darwin t0 (decode (unread p t1)) dir opts []
  | _ => True
  end.

Lemma law_read (t : ftrace) x p a y : disk_law t → t = x ++ (HRead p, a) :: y → f_err a = None → f_data a = unread p x.
Proof. intros Hl ->. by apply (Hl x (HRead p) a y). Qed.

Lemma law_untar (t : ftrace) x p dir opts u y : disk_law t → t = x ++ (HUntar p dir opts, u) :: y →
  ∃ os, (f_calls u, f_untar u) = Untar os cwd SecureJoin darwin t0 (decode (unread p x)) dir opts [].
Proof. intros Hl ->. by apply (Hl x (HUntar p dir opts) u y). Qed.

(** A body with the digest, extracted into the directory without links. *)
Definition extracted (r : ArchiveFetcher) (dig dir body d : bytes) (opts : list (tarOpts → tarOpts))
    (u : fanswer) : Prop :=
  Verified (full_digest dig) body = true ∧ dig ≠ [] ∧ d = dir ∧
  (∃ o, af_untarOpts r = Some o ∧ opts = o ++ [WithSkipSymlinks]) ∧
  ∃ os, (f_calls u, f_untar u) = Untar os cwd SecureJoin darwin t0 (decode body) dir opts [].

(** A body with the digest, extracted unless it is only kept. *)
Definition accepted (r : ArchiveFetcher) (p dig dir body : bytes) (t : ftrace) : Prop :=
  dig ≠ [] ∧ Verified (full_digest dig) body = true ∧
  (af_untarOpts r = None ∨ ∃ opts u, (HUntar p dir opts, u) ∈ t ∧ f_untar u = inr None).

Lemma untar_result_None x : untar_result x = None → x = inr None.
Proof. by destruct x as [|[]]. Qed.

Lemma process_law r p dig dir (ta tp tb : ftrace) e :
  runs (process digest_Parse Verified r p dig dir) tp e → disk_law (ta ++ tp ++ tb) →
  Forall no_file tp ∧
  (∀ q d opts u, (HUntar q d opts, u) ∈ tp → extracted r dig dir (stored p ta) d opts u) ∧
  (e = None → accepted r p dig dir (stored p ta) tp).
Proof.
  intros [Hnw Hp]%process_spec Hl. split; [done|].
  destruct Hp as [[Hn He]|(s1 & a & s2 & u' & o & -> & Hs1 & Hs2 & (Hd & _ & Hae & Hv) & Ho & ->)].
  - split; [intros q d opts u Hin; rewrite Forall_forall in Hn; by apply Hn in Hin|].
    intros E. destruct (He E) as (Ho & s & a & -> & Hs & Hd & _ & Hae & Hv).
    rewrite (law_read _ (ta ++ [(HSeek p, s)]) p a tb Hl), unread_seek in Hv; [|done|by rewrite <-app_assoc|done].
    split_and!; [done..|by left].
  - rewrite (law_read _ (ta ++ [(HSeek p, s1)]) p a ([(HSeek p, s2); (HUntar p dir (o ++ [WithSkipSymlinks]), u')] ++ tb) Hl),
      unread_seek in Hv; [|done|by rewrite <-app_assoc|done].
    destruct (law_untar _ ((ta ++ [(HSeek p, s1); (HRead p, a)]) ++ [(HSeek p, s2)]) p dir (o ++ [WithSkipSymlinks]) u' tb Hl)
      as [os Hos]; [by rewrite <-!app_assoc|].
    rewrite unread_seek, stored_app, (stored_none p [_; _]), app_nil_r in Hos by (done || by repeat constructor).
    split.
    + intros q d opts u Hin. rewrite !elem_of_cons in Hin.
      destruct Hin as [Hin|[Hin|[Hin|[Hin|[]%not_elem_of_nil]]]]; simplify_eq; try done.
      split_and!; [done..|by exists o|by exists os].
    + intros E. split_and!; [done..|right]. eexists _, u'. split; [by do 3 right; left|].
      destruct (untar_result (f_untar u')) eqn:Eu; [done|]. by apply untar_result_None.
Qed.

Lemma with_file_spec r p dig dir resp (ta t tb : ftrace) e :
  runs (with_file digest_Parse Verified r p dig dir resp) t e →
  disk_law (ta ++ t ++ tb) → (∀ q, stored q ta = []) →
  (∀ q, q ≠ p → stored q t = []) ∧ (∀ d pat a, (HCreateTemp d pat, a) ∉ t) ∧
  ((0 < af_maxDownloadSize r)%Z → (Z.of_nat (length (stored p t)) <= af_maxDownloadSize r)%Z) ∧
  (∀ q d opts u, (HUntar q d opts, u) ∈ t → extracted r dig dir (concat (f_body resp)) d opts u) ∧
  (e = None → stored p t = concat (f_body resp) ∧ accepted r p dig dir (concat (f_body resp)) t).
Proof.
  unfold with_file. intros (tx & err & ty & -> & Ha & Hb)%runs_bind_inv Hl H1.
  apply runs_call_inv in Hb as (c & t' & -> & Hb).
  assert (t' = [] ∧ (e = None → err = None)) as [-> He].
  { destruct (f_err c); apply runs_ret_inv in Hb as [-> ->]; split; done. }
  apply runs_bind_inv in Ha as (ts & es & tp & -> & (Hw & Hmax & Hstored)%store_spec & Hp).
  assert (Forall no_file tp ∧ (∀ q d opts u, (HUntar q d opts, u) ∈ tp → extracted r dig dir (concat (f_body resp)) d opts u) ∧
    (err = None → es = None ∧ accepted r p dig dir (concat (f_body resp)) tp)) as (Hnw & Hx & Hacc).
  { destruct es as [es|]; [apply runs_ret_inv in Hp as [-> ->]; split_and!; [constructor|by intros * ?%not_elem_of_nil|done]|].
    apply (process_law _ _ _ _ (ta ++ ts) _ ([(HCloseFile p, c)] ++ tb)) in Hp as (Hnw & Hx & Hacc);
      [|revert Hl; by rewrite <-!app_assoc].
    rewrite stored_app, H1, Hstored in Hx, Hacc by done. auto. }
  assert (∀ q, stored q ((ts ++ tp) ++ [(HCloseFile p, c)]) = stored q ts) as Eq.
  { intros q. by rewrite !stored_app, (stored_none q tp), !app_nil_r by by apply no_file_no_write. }
  split_and!.
  - intros q Hq. rewrite Eq. by apply (stored_other p).
  - intros d pat a [[Hin|Hin]%elem_of_app|Hin]%elem_of_app; [..|by apply list_elem_of_singleton in Hin];
      rewrite Forall_forall in Hw, Hnw; [by apply Hw in Hin|by apply Hnw in Hin].
  - intros Hm. rewrite Eq. auto.
  - intros q d opts u [[Hin|Hin]%elem_of_app|Hin]%elem_of_app; [|by eauto|by apply list_elem_of_singleton in Hin].
    rewrite Forall_forall in Hw. by apply Hw in Hin.
  - intros E. destruct (Hacc (He E)) as (-> & Hd & Hv & Hu). rewrite Eq, Hstored by done. split; [done|].
    split_and!; [done..|]. destruct Hu as [?|(opts & u & Hin & ?)]; [by left|right]. exists opts, u. set_solver.
Qed.

(** What a response may lead to. *)
Definition good_response (r : ArchiveFetcher) (url dig dir : bytes) (resp : fanswer) (t : ftrace)
    (e : option fetch_error) : Prop :=
  (∀ q, (0 < af_maxDownloadSize r)%Z → (Z.of_nat (length (stored q t)) <= af_maxDownloadSize r)%Z) ∧
  (∀ q d opts u, (HUntar q d opts, u) ∈ t →
     f_code resp = 200%Z ∧ extracted r dig dir (concat (f_body resp)) d opts u) ∧
  (e = None → f_code resp = 200%Z ∧ ∃ p, stored p t = concat (f_body resp) ∧
     accepted r p dig dir (concat (f_body resp)) t ∧ (af_untarOpts r = None → p = target_path r url dir)).

(** Events that neither write nor extract. *)
Definition quiet (ev : fcall * fanswer) : Prop := match ev.1 with HWrite _ _ | HUntar _ _ _ => False | _ => True end.

Lemma quiet_no_write t : Forall quiet t → Forall no_write t.
Proof. intros Hf. eapply Forall_impl; [exact Hf|]. by intros [[] a]. Qed.

Lemma good_quiet r url dig dir resp (t : ftrace) e : Forall quiet t → good_response r url dig dir resp t (Some e).
Proof.
  intros Hq. split_and!; [..|done].
  - intros q Hm. rewrite (stored_none q t) by by apply quiet_no_write. cbn. lia.
  - intros q d opts u Hin. rewrite Forall_forall in Hq. by apply Hq in Hin.
Qed.

Lemma good_mono r url dig dir resp (ta t tb : ftrace) e :
  Forall quiet ta → Forall quiet tb →
  good_response r url dig dir resp t e → good_response r url dig dir resp (ta ++ t ++ tb) e.
Proof.
  intros Ha Hb (Hm & Hu & He).
  assert (∀ q, stored q (ta ++ t ++ tb) = stored q t) as Hs.
  { intros q. by rewrite !stored_app, (stored_none q ta), (stored_none q tb), app_nil_r by by apply quiet_no_write. }
  rewrite Forall_forall in Ha, Hb. split_and!.
  - intros q. rewrite Hs. apply Hm.
  - intros q d opts u [Hx|[Hx|Hx]%elem_of_app]%elem_of_app; [by apply Ha in Hx|by eauto|by apply Hb in Hx].
  - intros E. destruct (He E) as (Hc & p & Hp & (Hd & Hv & Hx) & Htgt). split; [done|]. exists p. rewrite Hs.
    split_and!; [done| |done]. split_and!; [done..|]. destruct Hx as [?|(opts & u & ? & ?)]; [by left|right].
    exists opts, u. set_solver.
Qed.

Lemma good_file r url p dig dir resp (ta t tb : ftrace) e :
  runs (with_file digest_Parse Verified r p dig dir resp) t e → disk_law (ta ++ t ++ tb) → (∀ q, stored q ta = []) →
  f_code resp = 200%Z → (af_untarOpts r = None → p = target_path r url dir) → good_response r url dig dir resp t e.
Proof.
  intros Hr Hl H1 Hc Hp. destruct (with_file_spec _ _ _ _ _ _ _ _ _ Hr Hl H1) as (Hq & _ & Hm & Hu & He). split_and!.
  - intros q Hmax. destruct (decide (q = p)) as [->|Hne]; [by apply Hm|]. rewrite Hq by done. cbn. lia.
  - intros q d opts u Hin. split; [done|]. by apply (Hu q).
  - intros E. destruct (He E). eauto 10.
Qed.

Lemma handle_response_spec r url dig dir resp (ta t tb : ftrace) e :
  runs (handle_response digest_Parse Verified r url dig dir resp) t e →
  disk_law (ta ++ t ++ tb) → (∀ q, stored q ta = []) →
  good_response r url dig dir resp t e ∧
  (∀ d pat a, (HCreateTemp d pat, a) ∈ t → f_err a = None → ∃ b, (HRemove (f_name a), b) ∈ t).
Proof.
  unfold handle_response. destruct (Z.eqb_spec (f_code resp) 200) as [Hc|Hc]; cbn [negb].
  2:{ intros [-> ->]%runs_ret_inv _ _. split; [by apply good_quiet|by intros * ?%not_elem_of_nil]. }
  destruct (af_untarOpts r) as [o|] eqn:Ho; intros (a & t' & -> & Hr)%runs_call_inv Hl H1.
  - destruct (f_err a) as [e'|] eqn:Ea.
    { apply runs_ret_inv in Hr as [-> ->]. split; [apply good_quiet; by repeat constructor|].
      intros d pat a' [= -> -> ->]%list_elem_of_singleton. congruence. }
    apply runs_bind_inv in Hr as (tf & err & tr & -> & Hf & Hr).
    apply runs_call_inv in Hr as (rm & t'' & -> & [-> ->]%runs_ret_inv).
    set (tmp := (HCreateTemp [] (str "fetch.*.tmp"), a)) in *.
    assert (disk_law ((ta ++ [tmp]) ++ tf ++ ((HRemove (f_name a), rm) :: tb))) as Hl'
      by (revert Hl; cbn; by rewrite <-?app_assoc).
    assert (∀ q, stored q (ta ++ [tmp]) = []) as H1' by (intros q; by rewrite stored_app, H1).
    split.
    + apply (good_mono _ _ _ _ _ [tmp] tf [_]); [by repeat constructor..|].
      eapply good_file; [done..|]. by rewrite Ho.
    + destruct (with_file_spec _ _ _ _ _ _ _ _ _ Hf Hl' H1') as (_ & Htmp & _).
      intros d pat a' [[= -> -> ->]|[Hin|Hin]%elem_of_app]%elem_of_cons ?;
        [|by apply Htmp in Hin|by apply list_elem_of_singleton in Hin].
      exists rm. right. apply elem_of_app. right. left.
  - destruct (f_err a) as [e'|] eqn:Ea.
    { apply runs_ret_inv in Hr as [-> ->]. split; [apply good_quiet; by repeat constructor|].
      by intros d pat a' ?%list_elem_of_singleton. }
    set (opened := (HOpenFile (target_path r url dir) (af_fileMode r), a)) in *.
    assert (disk_law ((ta ++ [opened]) ++ t' ++ tb)) as Hl' by (revert Hl; cbn; by rewrite <-?app_assoc).
    assert (∀ q, stored q (ta ++ [opened]) = []) as H1' by (intros q; by rewrite stored_app, H1).
    destruct (with_file_spec _ _ _ _ _ _ _ _ _ Hr Hl' H1') as (_ & Htmp & _). split.
    + rewrite <-(app_nil_r t'). apply (good_mono _ _ _ _ _ [opened] t' []); [by repeat constructor|constructor|].
      by eapply good_file.
    + intros d pat a' [?|Hin]%elem_of_cons; [done|by apply Htmp in Hin].
Qed.

Context {U : Type} (url_Parse : bytes → bytes + U) (SetHost : bytes → U → U) (url_String : U → bytes).

Lemma FetchWithContext_cases r url dig dir (t : ftrace) e :
  runs (FetchWithContext url_Parse SetHost url_String digest_Parse Verified r url dig dir) t e →
  (Forall no_file t ∧ Forall quiet t ∧ e ≠ None) ∨
  ∃ url' q resp th err b, overwrite_host url_Parse SetHost url_String r url = inr url' ∧
    t = [(HNewRequest url', q); (HDo url', resp)] ++ th ++ [(HCloseBody, b)] ∧
    runs (handle_response digest_Parse Verified r url' dig dir resp) th err ∧ e = err.
Proof.
  unfold FetchWithContext. destruct (overwrite_host _ _ _ r url) as [eu|url'].
  { intros [-> ->]%runs_ret_inv. by left. }
  intros (q & t' & -> & Hr)%runs_call_inv. destruct (f_err q).
  { apply runs_ret_inv in Hr as [-> ->]. left. split_and!; [by repeat constructor..|done]. }
  apply runs_call_inv in Hr as (resp & t'' & -> & Hr). destruct (f_err resp).
  { apply runs_ret_inv in Hr as [-> ->]. left. split_and!; [by repeat constructor..|done]. }
  apply runs_bind_inv in Hr as (th & err & tb & -> & Hh & Hr).
  apply runs_call_inv in Hr as (b & t3 & -> & [-> ->]%runs_ret_inv). right. by exists url', q, resp, th, err, b.
Qed.

Lemma skip_symlinks o : skipSymlinks (options_of (o ++ [WithSkipSymlinks])) = true.
Proof. unfold options_of, applyOpts. by rewrite foldl_app. Qed.
End fetch_spec.

(** ** The theorem *)

(** C13. A fetch accepts nothing but what it was asked for.  Whatever the server
    sends and however the calls fail, an archive is extracted only if the whole
    body of a response with status 200 has the expected digest, and it is then
    that body which is extracted (the file is read from its start), with links
    skipped.  The extraction keeps to the target directory as [Untar] does: files
    below it (or, for an entry whose name cleans to a bare dot-dot, its parent),
    directories below it or on the way to it.  No more than the maximal download
    size is ever stored.  A fetch without an error has verified the body, and has
    extracted it or holds it in the target file.  The temporary file is removed
    on every path.  The hypotheses are those of the extraction (a working
    directory, if there is one, is absolute, and [SecureJoin] returns a path
    below its first argument) and a disk that returns what was written, from the
    offset of the file. *)
Theorem Fetch_verified {U : Type} (url_Parse : bytes → bytes + U) (SetHost : bytes → U → U) (url_String : U → bytes)
    (digest_Parse : bytes → option bytes) (Verified : bytes → bytes → bool) (decode : bytes → input)
    (cwd : os_error + bytes) (SecureJoin : bytes → bytes → os_error + bytes) (darwin : bool) (t0 : Z)
    (r : ArchiveFetcher) (url dig dir : bytes) (t : list (fcall * fanswer)) (e : option fetch_error) :
  SecureJoin_ok SecureJoin → (∀ w, cwd = inr w → IsAbs w = true) →
  runs (FetchWithContext url_Parse SetHost url_String digest_Parse Verified r url dig dir) t e →
  disk_law decode cwd SecureJoin darwin t0 t →
  (∀ q, (0 < af_maxDownloadSize r)%Z → (Z.of_nat (length (stored q t)) <= af_maxDownloadSize r)%Z) ∧
  (∀ q d opts u, (HUntar q d opts, u) ∈ t →
     ∃ url' resp, (HDo url', resp) ∈ t ∧ f_code resp = 200%Z ∧
       Verified (full_digest dig) (concat (f_body resp)) = true ∧ d = dir ∧ skipSymlinks (options_of opts) = true ∧
       match untar_dir cwd SecureJoin dir with
       | inl _ => f_calls u = []
       | inr d' => Forall (contained d' (fName <$> read_entries opts (decode (concat (f_body resp))))) (f_calls u)
       end) ∧
  (e = None → ∃ url' resp p, overwrite_host url_Parse SetHost url_String r url = inr url' ∧
     (HDo url', resp) ∈ t ∧ f_code resp = 200%Z ∧ dig ≠ [] ∧
     Verified (full_digest dig) (concat (f_body resp)) = true ∧ stored p t = concat (f_body resp) ∧
     (af_untarOpts r = None ∧ p = target_path r url' dir ∨
      ∃ opts u, (HUntar p dir opts, u) ∈ t ∧ f_untar u = inr None)) ∧
  (∀ d pat a, (HCreateTemp d pat, a) ∈ t → f_err a = None → ∃ b, (HRemove (f_name a), b) ∈ t).
Proof.
  intros Hsj Hcwd Hr Hl.
  apply FetchWithContext_cases in Hr as [(Hf & Hq & He)|(url' & q & resp & th & err & b & Hurl & -> & Hh & ->)].
  { destruct e as [e|]; [|done].
    destruct (good_quiet Verified decode cwd SecureJoin darwin t0 r url dig dir (mkFans None 0 [] [] None [] [] [] (inr None)) t e Hq)
      as (Hm & _ & _).
    rewrite Forall_forall in Hq, Hf. split_and!; [done|intros ? ? ? ? Hin; by apply Hq in Hin|done|].
    intros ? ? ? Hin; by apply Hf in Hin. }
  edestruct handle_response_spec as [Hg Htmp]; [exact Hh|exact Hl|done|].
  assert (good_response Verified decode cwd SecureJoin darwin t0 r url' dig dir resp
    ([(HNewRequest url', q); (HDo url', resp)] ++ th ++ [(HCloseBody, b)]) err) as (Hm & Hu & He)
    by (apply good_mono; [by repeat constructor..|done]).
  split_and!; [done|..].
  - intros p d opts u Hin. destruct (Hu p d opts u Hin) as (Hc & Hv & _ & -> & (o & _ & ->) & os & Hos).
    exists url', resp. split_and!; [by right; left|done..|apply skip_symlinks|].
    pose proof (Untar_calls_contained os cwd SecureJoin darwin t0 (decode (concat (f_body resp))) dir
      (o ++ [WithSkipSymlinks]) Hsj Hcwd) as Hcont. rewrite <-Hos in Hcont. cbn [fst] in Hcont.
    destruct (untar_dir cwd SecureJoin dir); [done|]. by destruct Hcont as (_ & _ & ?).
  - intros E. destruct (He E) as (Hc & p & Hs & (Hd & Hv & Hx) & Htgt). exists url', resp, p.
    split_and!; [done|by right; left|done..|]. destruct Hx as [Hx|Hx]; [left; auto|by right].
  - intros d pat a Hin Ha. assert ((HCreateTemp d pat, a) ∈ th) as Hin'.
    { apply elem_of_app in Hin as [Hin|[Hin|Hin]%elem_of_app]; [|done|by apply list_elem_of_singleton in Hin].
      rewrite !elem_of_cons, elem_of_nil in Hin. by destruct Hin as [?|[?|[]]]. }
    destruct (Htmp d pat a Hin' Ha) as [c Hc]. exists c. set_solver.
Qed.

(** ** Examples *)

Definition demo_body : bytes := str "archive".
Definition demo_decode (b : bytes) : input :=
  if bool_decide (b = demo_body) then demo_input [demo_file "a/b.txt" "hello"]
  else mkInput (mkTarball [] None) (inl (OtherError "not gzip")).

Definition sha_Verified (dig b : bytes) : bool := bool_decide (dig = str "sha256:" ++ hex (sha256_Sum256 b)).
Definition sha_Parse (dig : bytes) : option bytes :=
  if HasPrefix dig (str "sha256:") && (length dig =? 71) then None else Some (str "invalid checksum digest format").

Definition quiet_answer : fanswer := mkFans None 0 [] [] None [] [] [] (inr None).
Definition error_answer (e : bytes) : fanswer := mkFans (Some e) 0 [] [] None [] [] [] (inr None).

(** A server that sends a body, and a disk where the paths of [existing] exist
    and writes fail if it is full. *)
Definition demo_fetch_server (body : list bytes) (existing : list bytes) (full : bool) (h : list (fcall * fanswer)) (c : fcall) : fanswer :=
  match c with
  | HDo _ => mkFans None 200 (str "200 OK") body None [] [] [] (inr None)
  | HCreateTemp _ _ => mkFans None 0 [] [] None (str "/tmp/fetch.1.tmp") [] [] (inr None)
  | HOpenFile p _ => if bool_decide (p ∈ existing) then error_answer (str "file exists") else quiet_answer
  | HWrite _ _ => if full then error_answer (str "no space left on device") else quiet_answer
  | HRead p => mkFans None 0 [] [] None [] (unread p h) [] (inr None)
  | HUntar p dir opts =>
      let '(calls, res) := Untar calm_os (inr (str "/work")) lexicalJoin false 9 (demo_decode (unread p h)) dir opts [] in
      mkFans None 0 [] [] None [] [] calls res
  | _ => quiet_answer
  end.

Lemma run_in_order {C R A : Type} (server : list (C * R) → C → R) (p : prog C R A) h a t :
  run server h p = (a, h ++ t) → ∀ t1 c r t2, t = t1 ++ (c, r) :: t2 → r = server (h ++ t1) c.
Proof.
  revert h t. induction p as [b|c k IH]; intros h t Hr t1 c' r t2 ->; cbn in Hr.
  - injection Hr as _ E. rewrite <-(app_nil_r h) in E at 1. apply app_inv_head in E. by destruct t1.
  - destruct (run_runs _ _ _ _ _ Hr) as (t' & E & _). rewrite <-app_assoc in E. apply app_inv_head in E.
    destruct t1 as [|x t1]; cbn in E; simplify_eq; [by rewrite app_nil_r|].
    assert (run server (h ++ [(c, server h c)]) (k (server h c)) = (a, (h ++ [(c, server h c)]) ++ t1 ++ (c', r) :: t2)) as Hk
      by (rewrite <-app_assoc; exact Hr).
    rewrite (IH _ _ _ Hk _ _ _ _ eq_refl). by rewrite <-app_assoc.
Qed.

Lemma demo_fetch_law body existing full (p : prog fcall fanswer (option fetch_error)) a t :
  run (demo_fetch_server body existing full) [] p = (a, t) →
  disk_law demo_decode (inr (str "/work")) lexicalJoin false 9 t.
Proof.
  intros Hr t1 c r t2 E. pose proof (run_in_order _ p [] a t Hr _ _ _ _ E) as ->. cbn [app].
  destruct c as [| | | | | | | |p0 dir opts| |]; try done. exists calm_os. unfold demo_fetch_server.
  by destruct (Untar _ _ _ _ _ _ _ _ _) as [calls res].
Qed.

Definition demo_fetch (r : ArchiveFetcher) (url : string) (dig : bytes) (body : list bytes) (existing : list bytes) (full : bool) :=
  run (demo_fetch_server body existing full) []
    (FetchWithContext (U := bytes) inr (λ h u, h ++ u) id sha_Parse sha_Verified r (str url) dig (str "/data")).

Definition demo_digest_of (b : bytes) : bytes := hex (sha256_Sum256 b).
Definition demo_fetcher : ArchiveFetcher := NewArchiveFetcher 3 100 1000 (str "localhost").

Lemma demo_fetch_ok :
  (demo_fetch demo_fetcher "/a.tgz" (demo_digest_of demo_body) [str "arch"; str "ive"] [] false).1 = None ∧
  existsb (λ ev : fcall * fanswer, 0 <? length (f_calls ev.2))
    (demo_fetch demo_fetcher "/a.tgz" (demo_digest_of demo_body) [str "arch"; str "ive"] [] false).2 = true.
Proof. split; by vm_compute. Qed.

Lemma demo_cwd (w : bytes) : (inr (str "/work") : os_error + bytes) = inr w → IsAbs w = true.
Proof. by intros [= <-]. Qed.

Lemma Fetch_verified_witness :
  ∃ resp p, f_code resp = 200%Z ∧ sha_Verified (full_digest (demo_digest_of demo_body)) (concat (f_body resp)) = true ∧
    stored p (demo_fetch demo_fetcher "/a.tgz" (demo_digest_of demo_body) [str "arch"; str "ive"] [] false).2
      = concat (f_body resp).
Proof.
  destruct demo_fetch_ok as [Hn _].
  destruct (demo_fetch demo_fetcher "/a.tgz" (demo_digest_of demo_body) [str "arch"; str "ive"] [] false) as [e t] eqn:E.
  pose proof (demo_fetch_law _ _ _ _ _ _ E) as Hl.
  destruct (run_runs _ _ _ _ _ E) as (t' & Et & Hr). cbn [app] in Et. subst t'. cbn [fst] in Hn. subst e.
  destruct (Fetch_verified _ _ _ _ _ demo_decode (inr (str "/work")) lexicalJoin false 9 demo_fetcher _ _ _ t None
    lexicalJoin_ok demo_cwd Hr Hl) as (_ & _ & Hok & _).
  destruct (Hok eq_refl) as (url' & resp & p & _ & _ & Hc & _ & Hv & Hs & _). exists resp, p. exact (conj Hc (conj Hv Hs)).
Defined.

(** An archive that is kept and not extracted is written to its place before
    its digest is checked, and stays there if the check fails; the next attempt
    fails because the file exists. *)
Example rejected_archive_kept :
  let r := fetch_New [] in
  let dig := demo_digest_of demo_body in
  let '(e, t) := demo_fetch r "/a.tgz" dig [str "forged"] [] false in
  e = Some (VerifyError (DigestMismatch (full_digest dig))) ∧
  stored (str "/data/a.tgz") t = str "forged" ∧
  Forall (λ ev : fcall * fanswer, match ev.1 with HRemove _ => False | _ => True end) t ∧
  (demo_fetch r "/a.tgz" dig [demo_body] [str "/data/a.tgz"] false).1 = Some (TargetFileError (str "file exists")).
Proof. vm_compute. split_and!; [done..| |done]. by repeat constructor. Qed.

(** With a limit, a write that fails leaves bytes unread, and the error says
    that the archive is too large. *)
Example full_disk_reported_as_size :
  (demo_fetch demo_fetcher "/a.tgz" (demo_digest_of demo_body) [str "arch"; str "ive"] [] true).1 = Some (TooLarge 3 100).
Proof. by vm_compute. Qed.

(** * The pool of HTTP transports ([http/transport])

    Transports are objects on a heap, and the pool holds pointers to those that
    are idle.  [sync.Pool] returns any of them, drops any of them, and makes a
    new one if it returns none. *)

Section pool.
Context {TLS : Type}.

(** The only field that is changed.  A transport is made with the defaults of
    the pool.  [src/http/transport/transport.go:54-79 pool] *)
Record Transport := mkTransport { TLSClientConfig : option TLS }.

(** The transports, the idle ones, and the next free address. *)
Record state := mkState { transports : gmap nat Transport; idle : list nat; next : nat }.

Definition pool_init : state := mkState ∅ [] 0.

(** [sync.Pool.Get]: the chosen idle transport, or a new one. *)
Definition pool_Get (choice : option nat) (s : state) : state * nat :=
  match choice ≫= λ i, idle s !! i with
  | Some t => (mkState (transports s) (delete (default 0 choice) (idle s)) (next s), t)
  | None => (mkState (<[next s := mkTransport None]> (transports s)) (idle s) (S (next s)), next s)
  end.

(** [src/http/transport/transport.go:81-90 NewOrIdle] *)
Definition NewOrIdle (tls : option TLS) (choice : option nat) (s : state) : state * nat :=
  let '(s, t) := pool_Get choice s in
  (mkState (<[t := mkTransport tls]> (transports s)) (idle s) (next s), t).

(** [false] is the error of a nil transport.
    [src/http/transport/transport.go:92-103 Release] *)
Definition Release (t : option nat) (s : state) : state * bool :=
  match t with
  | None => (s, false)
  | Some t => (mkState (<[t := mkTransport None]> (transports s)) (t :: idle s) (next s), true)
  end.

(** ** Use of the pool *)

(** Clients take transports and release those they hold, once; the garbage
    collector drops idle ones.  [held] are the transports in use, with the
    configuration they were asked for. *)
Inductive pool_step : state * gmap nat (option TLS) → state * gmap nat (option TLS) → Prop :=
  | step_new s held tls choice s' t :
      NewOrIdle tls choice s = (s', t) → pool_step (s, held) (s', <[t := tls]> held)
  | step_release s held t s' b :
      is_Some (held !! t) → Release (Some t) s = (s', b) → pool_step (s, held) (s', delete t held)
  | step_collect s held i : pool_step (s, held) (mkState (transports s) (delete i (idle s)) (next s), held).

Definition pool_ok (s : state) (held : gmap nat (option TLS)) : Prop :=
  NoDup (idle s) ∧
  (∀ t, t ∈ idle s → transports s !! t = Some (mkTransport None) ∧ held !! t = None ∧ t < next s) ∧
  (∀ t tls, held !! t = Some tls → transports s !! t = Some (mkTransport tls) ∧ t < next s).

Lemma pool_ok_step s held s' held' : pool_ok s held → pool_step (s, held) (s', held') → pool_ok s' held'.
Proof.
  intros (Hnd & Hidle & Hheld) Hstep. inversion Hstep as [? ? tls choice ? t Hnew|? ? t ? b [tls Ht] Hrel|? ? i]; subst.
  - unfold NewOrIdle, pool_Get in Hnew. destruct (choice ≫= _) as [u|] eqn:Ec; injection Hnew as <- <-; unfold pool_ok; cbn [transports idle next].
    + destruct choice as [i|]; [cbn in Ec|done]. cbn [default id].
      assert (u ∈ idle s) as Hu by by eapply list_elem_of_lookup_2.
      assert ((u ∉ delete i (idle s)) ∧ NoDup (delete i (idle s)) ∧ ∀ x, x ∈ delete i (idle s) → x ∈ idle s) as (Hnu & Hnd' & Hsub).
      { rewrite (delete_Permutation _ _ _ Ec) in Hnd. apply NoDup_cons in Hnd as [Hni Hnd']. unfold id in *.
        split_and!; [done..|]. intros x Hx. rewrite (delete_Permutation _ _ _ Ec). by right. }
      split_and!; [done|..].
      * intros t Ht. assert (t ≠ u) by (by intros ->). rewrite !lookup_insert_ne by done. by apply Hidle, Hsub.
      * intros t x [[<- <-]|[Hne Hx]]%lookup_insert_Some.
        -- rewrite lookup_insert_eq. split; [done|]. by apply Hidle.
        -- rewrite lookup_insert_ne by done. by apply Hheld.
    + split_and!; [done|..].
      * intros t Ht. destruct (Hidle t Ht) as (? & ? & ?). assert (t ≠ next s) by lia. rewrite !lookup_insert_ne by done.
        split_and!; [done..|lia].
      * intros t x [[<- <-]|[Hne Hx]]%lookup_insert_Some; [by rewrite lookup_insert_eq; split; [|lia]|].
        destruct (Hheld t x Hx) as [? ?]. rewrite !lookup_insert_ne by done. split; [done|lia].
  - injection Hrel as <- <-. destruct (Hheld t tls Ht) as [Htr Hlt]. unfold pool_ok. cbn [transports idle next]. split_and!.
    + apply NoDup_cons. split; [|done]. intros Hin. apply Hidle in Hin as (_ & ? & _). congruence.
    + intros u [->|Hu]%elem_of_cons; [by rewrite lookup_insert_eq, lookup_delete_eq|].
      destruct (Hidle u Hu) as (? & Hun & ?). assert (u ≠ t) by congruence. by rewrite lookup_insert_ne, lookup_delete_ne.
    + intros u x [Hne Hx]%lookup_delete_Some. rewrite lookup_insert_ne by done. by apply Hheld.
  - assert (delete i (idle s) `sublist_of` idle s) as Hsub by apply sublist_delete.
    unfold pool_ok. cbn [transports idle next]. split_and!; [by eapply sublist_NoDup| |done].
    intros t Ht. apply Hidle. by eapply elem_of_sublist.
Qed.

(** In every use of the pool by clients that release what they hold once, idle
    transports have no TLS configuration, and each client's transport has the
    configuration it asked for and is no other client's. *)
Theorem pool_isolated s held :
  rtc pool_step (pool_init, ∅) (s, held) →
  (∀ t, t ∈ idle s → transports s !! t = Some (mkTransport None)) ∧
  (∀ t tls, held !! t = Some tls → transports s !! t = Some (mkTransport tls) ∧ t ∉ idle s).
Proof.
  intros Hrtc. assert (pool_ok s held) as (_ & Hidle & Hheld).
  { remember (pool_init, ∅) as a eqn:Ea. remember (s, held) as b eqn:Eb.
    assert (pool_ok a.1 a.2) as Hok.
    { subst a. split_and!; [apply NoDup_nil_2|by intros t ?%not_elem_of_nil|]. intros t tls Ht. cbn in Ht. by rewrite lookup_empty in Ht. }
    clear Ea. change (pool_ok (s, held).1 (s, held).2). rewrite <-Eb. clear Eb.
    induction Hrtc as [|[s1 h1] [s2 h2] z Hstep _ IH]; [done|]. apply IH. by eapply pool_ok_step. }
  split; [by intros t (? & _ & _)%Hidle|]. intros t tls Ht. split; [by apply Hheld|].
  intros (_ & Hn & _)%Hidle. congruence.
Qed.
End pool.

(** A transport that is released twice is handed to two clients, and the second
    changes the configuration of the first. *)
Example double_release :
  let '(s, t) := NewOrIdle (Some "strict"%string) None pool_init in
  let '(s, _) := Release (Some t) s in
  let '(s, _) := Release (Some t) s in
  let '(s, a) := NewOrIdle (Some "strict"%string) (Some 0) s in
  let '(s, b) := NewOrIdle (Some "insecure"%string) (Some 0) s in
  a = b ∧ transports s !! a = Some (mkTransport (Some "insecure"%string)).
Proof. by vm_compute. Qed.
