(* ===== verification/GithubApp.v ===== *)
(** * GitHub App authentication ([auth/githubapp])

    The client that exchanges a signed assertion for an installation token: its
    options and their validation, the assertion, the calls on the GitHub API as
    a program, and the key under which tokens are cached.  Keys are SHA-256 sums
    of a comma-separated text; the text determines the identity of the client as
    long as the owner and the URL have no comma. *)

From S2P Require Import Prelude GoStd Utf8 GoPath Sha256 Interaction CacheMetrics Lru TokenCache Auth AuthKeys Secrets.

(** ** Numbers *)

(** [strconv.ParseUint] in base ten: the loop stops with a range error as soon
    as the value leaves 64 bits. *)
Inductive uint_result := UVal (n : Z) | USyntax | URange.
Fixpoint ParseUint_loop (n : Z) (s : bytes) : uint_result :=
  match s with
  | [] => UVal n
  | c :: s =>
      if negb (in_range 48 (bval c) 57) then USyntax
      else if (2 ^ 64 <=? n * 10 + (bval c - 48))%Z then URange
      else ParseUint_loop (n * 10 + (bval c - 48)) s
  end.
Definition ParseUint (s : bytes) : uint_result := match s with [] => USyntax | _ => ParseUint_loop 0 s end.

(** [strconv.ParseInt(s, 10, 64)], the value without the error: zero for a text
    that is no number, and the nearest bound for a number out of range. *)
Definition ParseInt (s : bytes) : Z :=
  let '(neg, ds) := match s with
                    | c :: r => if bool_decide (c = "-"%char) then (true, r)
                                else if bool_decide (c = "+"%char) then (false, r) else (false, s)
                    | [] => (false, s)
                    end in
  match ParseUint ds with
  | USyntax => 0
  | URange => if neg : bool then - 2 ^ 63 else 2 ^ 63 - 1
  | UVal n => if neg : bool then Z.max (- n) (- 2 ^ 63) else Z.min n (2 ^ 63 - 1)
  end%Z.

(** [strconv.FormatInt] and the verb [%d] of a 64-bit integer. *)
Definition FormatInt (n : Z) : bytes := if (n <? 0)%Z then "-"%char :: Itoa (- n) else Itoa n.

(** ** The client and its options *)

(** [src/auth/githubapp/client.go:39-47 KeyAppID] *)
Definition KeyAppID : bytes := KeyGitHubAppID.
(** [src/auth/githubapp/client.go:39-47 KeyAppInstallationOwner] *)
Definition KeyAppInstallationOwner : bytes := KeyGitHubAppInstallationOwner.
(** [src/auth/githubapp/client.go:39-47 KeyAppInstallationID] *)
Definition KeyAppInstallationID : bytes := KeyGitHubAppInstallationID.
(** [src/auth/githubapp/client.go:39-47 KeyAppPrivateKey] *)
Definition KeyAppPrivateKey : bytes := KeyGitHubAppPrivateKey.
(** [src/auth/githubapp/client.go:39-47 KeyAppBaseURL] *)
Definition KeyAppBaseURL : bytes := KeyGitHubAppBaseURL.
(** [src/auth/githubapp/client.go:39-47 AccessTokenUsername] *)
Definition AccessTokenUsername : bytes := str "x-access-token".

Section client.
(** TLS configurations, proxy URLs and RSA keys are of other packages, as are
    the parsing of a key, the signing of an assertion and the parsing of URLs. *)
Context {TLS Proxy RSA E : Type}.

(** The cache is passed to [GetToken]; [c_cached] says that there is one.
    [src/auth/githubapp/client.go:49-66 Client] *)
Record Client := mkClient {
  c_appID : Z; c_installationOwner : bytes; c_installationID : Z; c_privateKey : bytes; c_rsaKey : option RSA;
  c_apiURL : bytes; c_proxyURL : option Proxy; c_cached : bool;
  c_kind : bytes; c_name : bytes; c_namespace : bytes; c_operation : bytes;
  c_tlsConfig : option TLS; c_reflectSlug : bool }.

Definition no_options : Client := mkClient 0 [] 0 [] None [] None false [] [] [] [] None false.

(** The HTTP transport: the configuration for TLS, and the proxy for both
    schemes; without one, the proxies of the environment are used. *)
Record Transport := mkTransport { tr_tls : option TLS; tr_proxy : option Proxy }.

Inductive gh_error :=
  | NoAppID
  | NoInstallation
  | BothInstallations
  | NoPrivateKey
  | KeyParseError (e : E)
  | SignError (e : E)
  | ApiURLError (e : E)
  | AppInfoError (e : E)
  | InstallationError (org user : E)
  | CreateTokenError (e : E).

(** [src/auth/githubapp/client.go:121-126 WithTLSConfig] *)
Definition gh_WithTLSConfig (tls : option TLS) (p : Client) : Client :=
  mkClient (c_appID p) (c_installationOwner p) (c_installationID p) (c_privateKey p) (c_rsaKey p) (c_apiURL p)
    (c_proxyURL p) (c_cached p) (c_kind p) (c_name p) (c_namespace p) (c_operation p) tls (c_reflectSlug p).

(** A number that cannot be read is zero, and one out of range the nearest bound.
    [src/auth/githubapp/client.go:128-148 WithAppData] *)
Definition WithAppData (appData : sdata) (p : Client) : Client :=
  let get {A : Type} (k : bytes) (f : bytes → A) (old : A) : A := match appData !! k with Some v => f v | None => old end in
  mkClient (get KeyAppID ParseInt (c_appID p)) (get KeyAppInstallationOwner id (c_installationOwner p))
    (get KeyAppInstallationID ParseInt (c_installationID p)) (get KeyAppPrivateKey id (c_privateKey p)) (c_rsaKey p)
    (get KeyAppBaseURL id (c_apiURL p)) (c_proxyURL p) (c_cached p) (c_kind p) (c_name p) (c_namespace p)
    (c_operation p) (c_tlsConfig p) (c_reflectSlug p).

(** [src/auth/githubapp/client.go:150-155 WithProxyURL] *)
Definition gh_WithProxyURL (url : option Proxy) (p : Client) : Client :=
  mkClient (c_appID p) (c_installationOwner p) (c_installationID p) (c_privateKey p) (c_rsaKey p) (c_apiURL p)
    url (c_cached p) (c_kind p) (c_name p) (c_namespace p) (c_operation p) (c_tlsConfig p) (c_reflectSlug p).

(** [src/auth/githubapp/client.go:157-167 WithCache] *)
Definition gh_WithCache (cached : bool) (kind name namespace operation : bytes) (p : Client) : Client :=
  mkClient (c_appID p) (c_installationOwner p) (c_installationID p) (c_privateKey p) (c_rsaKey p) (c_apiURL p)
    (c_proxyURL p) cached kind name namespace operation (c_tlsConfig p) (c_reflectSlug p).

(** [src/auth/githubapp/client.go:169-174 WithAppSlugReflection] *)
Definition WithAppSlugReflection (p : Client) : Client :=
  mkClient (c_appID p) (c_installationOwner p) (c_installationID p) (c_privateKey p) (c_rsaKey p) (c_apiURL p)
    (c_proxyURL p) (c_cached p) (c_kind p) (c_name p) (c_namespace p) (c_operation p) (c_tlsConfig p) true.

Context (ParseRSAPrivateKeyFromPEM : bytes → E + RSA).

(** [src/auth/githubapp/client.go:71-119 New] *)
Definition gh_New (opts : list (Client → Client)) : gh_error + Client * Transport :=
  let p := foldl (λ p opt, opt p) no_options opts in
  let transport := mkTransport (c_tlsConfig p) (c_proxyURL p) in
  if (c_appID p =? 0)%Z then inl NoAppID
  else if bool_decide (c_installationOwner p = []) && (c_installationID p =? 0)%Z then inl NoInstallation
  else if negb (bool_decide (c_installationOwner p = [])) && negb (c_installationID p =? 0)%Z then inl BothInstallations
  else if bool_decide (c_privateKey p = []) then inl NoPrivateKey
  else match ParseRSAPrivateKeyFromPEM (c_privateKey p) with
       | inl e => inl (KeyParseError e)
       | inr k =>
           inr (mkClient (c_appID p) (c_installationOwner p) (c_installationID p) (c_privateKey p) (Some k) (c_apiURL p)
                  (c_proxyURL p) (c_cached p) (c_kind p) (c_name p) (c_namespace p) (c_operation p) (c_tlsConfig p)
                  (c_reflectSlug p), transport)
       end.

(** ** Tokens *)

(** [src/auth/githubapp/client.go:176-181 AppToken] *)
Record AppToken := mkAppToken { at_Token : bytes; at_Slug : bytes; at_ExpiresAt : Z }.

(** The time to the expiry; the clock is an argument.
    [src/auth/githubapp/client.go:183-186 AppToken.GetDuration] *)
Definition AppToken_GetDuration (now : Z) (t : AppToken) : Z :=
  Z.max (- 2 ^ 63) (Z.min (2 ^ 63 - 1) (at_ExpiresAt t - now)).

(** The registered claims of the assertion, in seconds. *)
Record Claims := mkClaims { IssuedAt : Z; ClaimExpiresAt : Z; Issuer : bytes }.

(** [src/auth/githubapp/client.go:216-226 createJWT] *)
Definition jwt_claims (p : Client) (now : Z) : Claims :=
  let now := (now / second * second)%Z in
  let iat := (now + - 30 * second)%Z in
  let exp := (iat + 2 * 60 * second)%Z in
  mkClaims (iat / second) (exp / second) (FormatInt (c_appID p)).

Context (SignedString : Claims → option RSA → E + bytes).
(** [src/auth/githubapp/client.go:216-230 createJWT] *)
Definition createJWT (p : Client) (now : Z) : gh_error + bytes :=
  match SignedString (jwt_claims p now) (c_rsaKey p) with inl e => inl (SignError e) | inr s => inr s end.

(** *** Calls on the GitHub API *)

(** A client of the API: the assertion it authenticates with, and its base URL
    if it is not the public one. *)
Record GhClient := mkGhClient { gh_auth : bytes; gh_base : option bytes }.

Inductive gcall :=
  | GGetApp (c : GhClient)
  | GFindOrg (c : GhClient) (owner : bytes)
  | GFindUser (c : GhClient) (owner : bytes)
  | GCreateToken (c : GhClient) (installation : Z).

Record ganswer := mkGans { g_err : option E; g_slug : bytes; g_id : Z; g_token : bytes; g_expires : Z }.

Abbreviation gprog A := (prog gcall ganswer A) (only parsing).

(** [src/auth/githubapp/client.go:282-307 getInstallationID] *)
Definition getInstallationID (p : Client) (gh : GhClient) : gprog (gh_error + Z) :=
  if negb (c_installationID p =? 0)%Z then Ret (inr (c_installationID p))
  else
    Call (GFindOrg gh (c_installationOwner p)) (λ a,
    match g_err a with
    | None => Ret (inr (g_id a))
    | Some org =>
        Call (GFindUser gh (c_installationOwner p)) (λ b,
        match g_err b with
        | None => Ret (inr (g_id b))
        | Some user => Ret (inl (InstallationError org user))
        end)
    end).

Context (url_Parse : bytes → option E).

(** [src/auth/githubapp/client.go:239-253 createInstallationToken] *)
Definition github_client (p : Client) (jwt : bytes) : gh_error + GhClient :=
  if bool_decide (c_apiURL p = []) then inr (mkGhClient jwt None)
  else
    let apiURL := if HasSuffix (c_apiURL p) (str "/") then c_apiURL p else c_apiURL p ++ str "/" in
    match url_Parse apiURL with
    | Some e => inl (ApiURLError e)
    | None => inr (mkGhClient jwt (Some apiURL))
    end.

(** [src/auth/githubapp/client.go:265-280 createInstallationToken] *)
Definition installation_token (p : Client) (gh : GhClient) (slug : bytes) : gprog (gh_error + AppToken) :=
  getInstallationID p gh ≫= λ i,
  match i with
  | inl e => Ret (inl e)
  | inr installationID =>
      Call (GCreateToken gh installationID) (λ a,
      match g_err a with
      | Some e => Ret (inl (CreateTokenError e))
      | None => Ret (inr (mkAppToken (g_token a) slug (g_expires a)))
      end)
  end.

(** [src/auth/githubapp/client.go:232-280 createInstallationToken] *)
Definition createInstallationToken (p : Client) (now : Z) : gprog (gh_error + AppToken) :=
  match createJWT p now with
  | inl e => Ret (inl e)
  | inr jwt =>
      match github_client p jwt with
      | inl e => Ret (inl e)
      | inr gh =>
          if c_reflectSlug p then
            Call (GGetApp gh) (λ a,
            match g_err a with
            | Some e => Ret (inl (AppInfoError e))
            | None => installation_token p gh (g_slug a)
            end)
          else installation_token p gh []
      end
  end.

(** *** The cache *)

Definition print_bool (b : bool) : bytes := if b then str "true" else str "false".

(** The text of a key, and the key.
    [src/auth/githubapp/client.go:323-332 buildCacheKey] *)
Definition gh_key_text (p : Client) : bytes :=
  strings_Join
    [KeyAppID ++ str "=" ++ FormatInt (c_appID p);
     KeyAppInstallationOwner ++ str "=" ++ c_installationOwner p;
     KeyAppInstallationID ++ str "=" ++ FormatInt (c_installationID p);
     KeyAppBaseURL ++ str "=" ++ c_apiURL p;
     KeyAppPrivateKey ++ str "=" ++ c_privateKey p;
     str "reflectSlug=" ++ print_bool (c_reflectSlug p)] ",".
(** [src/auth/githubapp/client.go:323-335 buildCacheKey] *)
Definition gh_buildCacheKey (p : Client) : bytes := hex (sha256_Sum256 (gh_key_text p)).

Definition to_string (b : bytes) : string := String.string_of_list_ascii b.

#[global] Instance AppToken_inhabited : Inhabited AppToken := populate (mkAppToken [] [] 0).

(** Events are recorded if the involved object is known.
    [src/auth/githubapp/client.go:204-207 GetToken] *)
Definition cache_options (p : Client) : list Options :=
  if bool_decide (c_kind p ≠ []) && bool_decide (c_name p ≠ []) && bool_decide (c_namespace p ≠ [])
     && bool_decide (c_operation p ≠ [])
  then [WithInvolvedObject (to_string (c_kind p)) (to_string (c_name p)) (to_string (c_namespace p)) (to_string (c_operation p))]
  else [].

Context (as_error : gh_error → error).

(** [created] is what [createInstallationToken] returns if it is called, [clock]
    the time at which the duration of a new token is computed; the outcome is
    the cache and the result, [None] if the cache panics.
    [src/auth/githubapp/client.go:188-214 GetToken] *)
Definition GetToken (p : Client) (cache : option (TokenCache (Token := AppToken))) (now now' : time) (clock : Z)
    (created : gh_error + AppToken) : option (option (TokenCache (Token := AppToken)) * (option AppToken * option error)) :=
  match cache with
  | None => Some (None, match created with inl e => (None, Some (as_error e)) | inr t => (Some t, None) end)
  | Some tc =>
      '(tc, (tok, _, err)) ← TokenCache_GetOrSet (AppToken_GetDuration clock) tc (to_string (gh_buildCacheKey p)) now now'
          (match created with inl e => inr (as_error e) | inr t => inl t end) (cache_options p);
      Some (Some tc, match err with Some e => (None, Some e) | None => (tok, None) end)
  end.

(** The user name and the password for Git; [created] is what the client would
    create.
    [src/auth/githubapp/client.go:309-321 GetCredentials] *)
Definition gh_GetCredentials (opts : list (Client → Client)) (cache : option (TokenCache (Token := AppToken)))
    (now now' : time) (clock : Z) (created : Client → gh_error + AppToken) :
    option (option (TokenCache (Token := AppToken)) * (error + bytes * bytes)) :=
  match gh_New opts with
  | inl e => Some (cache, inl (as_error e))
  | inr (client, _) =>
      '(cache', (tok, err)) ← GetToken client (if c_cached client then cache else None) now now' clock (created client);
      match err, tok with
      | Some e, _ => Some (cache', inl e)
      | None, Some t => Some (cache', inr (AccessTokenUsername, at_Token t))
      | None, None => None
      end
  end.
End client.

Arguments Client : clear implicits.

(** ** Texts of numbers *)

Lemma digits_value_snoc a s v d : digits_value a s = Some v → (0 <= d < 10)%Z → digits_value a (s ++ [digit d]) = Some (v * 10 + d)%Z.
Proof.
  revert a. induction s as [|c s IH]; intros a Hv Hd; cbn [digits_value app] in *.
  - injection Hv as <-. unfold digit. rewrite bval_byte_of by lia. unfold in_range.
    rewrite (proj2 (Z.leb_le 48 (48 + d))), (proj2 (Z.leb_le (48 + d) 57)) by lia. cbn. do 2 f_equal. lia.
  - destruct (in_range 48 (bval c) 57); [|done]. by apply IH.
Qed.

Lemma itoa_value fuel n : (0 <= n < 10 ^ Z.of_nat fuel)%Z → fuel ≠ 0 → digits_value 0 (itoa_fuel fuel n) = Some n.
Proof.
  revert n. induction fuel as [|fuel IH]; intros n Hn Hf; [done|]. cbn [itoa_fuel].
  destruct (Z.ltb_spec n 10) as [Hl|Hl].
  { apply (digits_value_snoc 0 [] 0 n eq_refl). lia. }
  assert (fuel ≠ 0) by (intros ->; cbn in Hn; lia).
  rewrite (digits_value_snoc 0 _ (n / 10) (n mod 10)).
  - f_equal. rewrite (Z.div_mod n 10) at 3 by lia. lia.
  - apply IH; [|done]. rewrite Nat2Z.inj_succ, Z.pow_succ_r in Hn by lia.
    split; [apply Z.div_pos; lia|apply Z.div_lt_upper_bound; lia].
  - apply Z.mod_pos_bound. lia.
Qed.

Lemma Itoa_inj n m : (0 <= n < 10 ^ 20)%Z → (0 <= m < 10 ^ 20)%Z → Itoa n = Itoa m → n = m.
Proof.
  intros Hn Hm E. pose proof (itoa_value 20 n Hn ltac:(done)) as H1. pose proof (itoa_value 20 m Hm ltac:(done)) as H2.
  unfold Itoa in E. rewrite E in H1. congruence.
Qed.

Definition int64 (n : Z) : Prop := (- 2 ^ 63 <= n < 2 ^ 63)%Z.

Lemma FormatInt_inj n m : int64 n → int64 m → FormatInt n = FormatInt m → n = m.
Proof.
  unfold int64, FormatInt. intros Hn Hm.
  assert (∀ k l, (0 <= k)%Z → Itoa k = "-"%char :: l → False) as Hdash.
  { intros k l Hk E. assert ("-"%char ∈ Itoa k) as Hin by (rewrite E; left). apply Itoa_digits in Hin; [|done].
    change (bval "-") with 45%Z in Hin. lia. }
  destruct (Z.ltb_spec n 0), (Z.ltb_spec m 0); intros E.
  - injection E as E. apply Itoa_inj in E; lia.
  - symmetry in E. by apply Hdash in E.
  - by apply Hdash in E.
  - apply Itoa_inj in E; lia.
Qed.

Lemma FormatInt_no_comma n : ","%char ∉ FormatInt n.
Proof.
  unfold FormatInt. destruct (Z.ltb_spec n 0); [rewrite not_elem_of_cons; split; [done|]|]; intros Hin%Itoa_digits; try lia;
    change (bval ",") with 44%Z in Hin; lia.
Qed.

(** ** Keys *)

Section keys.
Context {TLS Proxy RSA : Type}.
Abbreviation client := (Client TLS Proxy RSA) (only parsing).

(** What a token is for. *)
Definition same_identity (p q : client) : Prop :=
  c_appID p = c_appID q ∧ c_installationOwner p = c_installationOwner q ∧ c_installationID p = c_installationID q ∧
  c_apiURL p = c_apiURL q ∧ c_privateKey p = c_privateKey q ∧ c_reflectSlug p = c_reflectSlug q.

(** The owner and the URL, which users choose, have no comma. *)
Definition comma_free (p : client) : Prop :=
  int64 (c_appID p) ∧ int64 (c_installationID p) ∧ (","%char ∉ c_installationOwner p) ∧ (","%char ∉ c_apiURL p).

Lemma slug_inj (a b : bytes) (x y : bool) :
  a ++ ","%char :: str "reflectSlug=" ++ print_bool x = b ++ ","%char :: str "reflectSlug=" ++ print_bool y → a = b ∧ x = y.
Proof.
  destruct x, y; intros E; [by apply app_inv_tail in E| | |by apply app_inv_tail in E];
    apply (f_equal reverse) in E; rewrite !reverse_app in E; discriminate E.
Qed.

Lemma part_inj (l v w x y : bytes) : (","%char ∉ v) → (","%char ∉ w) →
  l ++ str "=" ++ v ++ ","%char :: x = l ++ str "=" ++ w ++ ","%char :: y → v = w ∧ x = y.
Proof. intros Hv Hw E. apply app_inv_head, app_inv_head in E. by apply cut_unique in E. Qed.

Lemma gh_key_text_inj (p q : client) : comma_free p → comma_free q → gh_key_text p = gh_key_text q → same_identity p q.
Proof.
  intros (Hpa & Hpi & Hpo & Hpu) (Hqa & Hqi & Hqo & Hqu). unfold gh_key_text. cbn [strings_Join]. rewrite <-!app_assoc.
  intros [E1%FormatInt_inj E]%part_inj; [|done..|apply FormatInt_no_comma|apply FormatInt_no_comma].
  apply part_inj in E as [E2 E]; [|done..].
  apply part_inj in E as [E3%FormatInt_inj E]; [|done..|apply FormatInt_no_comma|apply FormatInt_no_comma].
  apply part_inj in E as [E4 E]; [|done..]. apply app_inv_head, app_inv_head in E. apply slug_inj in E as [E5 E6].
  by split_and!.
Qed.
End keys.

(** ** The tokens of a cache *)

Lemma to_string_inj a b : to_string a = to_string b → a = b.
Proof.
  unfold to_string. intros E. apply (f_equal String.list_ascii_of_string) in E.
  by rewrite !String.list_ascii_of_string_of_list_ascii in E.
Qed.

Section isolation.
Context {TLS Proxy RSA E : Type} (as_error : gh_error (E := E) → error).
Abbreviation client := (Client TLS Proxy RSA) (only parsing).

(** A call of [GetToken]: the client, the clocks, and what it would create. *)
Record request := mkRequest { q_client : client; q_now : time; q_now' : time; q_clock : Z; q_created : gh_error (E := E) + AppToken }.

Fixpoint gh_run (c : option (TokenCache (Token := AppToken))) (qs : list request) : option (list (option AppToken * option error)) :=
  match qs with
  | [] => Some []
  | q :: qs =>
      '(c, r) ← GetToken as_error (q_client q) c (q_now q) (q_now' q) (q_clock q) (q_created q);
      rs ← gh_run c qs;
      Some (r :: rs)
  end.

(** Every stored token was created for a client with its key. *)
Definition gh_provenance (past : list request) (l : list (string * tokenItem (Token := AppToken))) : Prop :=
  ∀ k ti, (k, ti) ∈ l → ∃ q, q ∈ past ∧ k = to_string (gh_buildCacheKey (q_client q)) ∧ q_created q = inr (token ti).

Lemma GetToken_sound c l past q :
  lru_rep (tcache c) l → gh_provenance past l →
  ∃ c' l' tok err, GetToken as_error (q_client q) (Some c) (q_now q) (q_now' q) (q_clock q) (q_created q)
      = Some (Some c', (tok, err)) ∧
    lru_rep (tcache c') l' ∧ gh_provenance (past ++ [q]) l' ∧
    match tok with
    | Some t => err = None ∧ ∃ q0, q0 ∈ past ++ [q] ∧ q_created q0 = inr t ∧
        gh_buildCacheKey (q_client q0) = gh_buildCacheKey (q_client q)
    | None => ∃ e, q_created q = inl e ∧ err = Some (as_error e)
    end.
Proof.
  intros Hr Hp. unfold GetToken, TokenCache_GetOrSet. cbn [mbind option_bind].
  match goal with |- context [LRU_GetIfOrSet _ ?k ?cond ?fetch ?opts] =>
    destruct (GetIfOrSet_refines (tcache c) l k cond fetch opts Hr) as (c1 & E1 & Hr1 & _ & _); rewrite E1 end.
  clear E1. unfold spec_GetIfOrSet in *. cbn [mbind option_bind] in *.
  set (key := to_string (gh_buildCacheKey (q_client q))) in *.
  assert (∀ l', (∀ k ti, (k, ti) ∈ l' → (k, ti) ∈ l ∨ k = key ∧ q_created q = inr (token ti)) →
    gh_provenance (past ++ [q]) l') as Hprov.
  { intros l' Hl' k ti [Hin|[-> Hc]]%Hl'; [destruct (Hp k ti Hin) as (q0 & ? & ? & ?); exists q0|exists q]; set_solver. }
  destruct (lru_find key l) as [ti|] eqn:Hf; [destruct (negb (expired ti (q_now q))) eqn:He|].
  { assert ((key, ti) ∈ l) as Hin by (unfold lru_find in Hf; by apply elem_of_list_to_map_2 in Hf).
    eexists _, _, _, _; split_and!; [done|exact Hr1| |].
    - apply Hprov. intros k ti' [?|[= -> ->]]%elem_of_touch; auto.
    - cbn. split; [done|]. destruct (Hp _ _ Hin) as (q0 & ? & Hk & ?). exists q0. apply to_string_inj in Hk. set_solver. }
  all: destruct (q_created q) as [e|t] eqn:Hq; cbn in *; (eexists _, _, _, _; split_and!; [done|exact Hr1| |]);
    [apply Hprov; intros k ti' ?%elem_of_remove; auto|cbn; by exists e
    |apply Hprov; intros k ti' [?|[= -> ->]]%elem_of_touch; auto|split; [done|]; exists q; set_solver].
Qed.

(** The keys that the requests use have no collision. *)
Definition keys_distinct (qs : list request) : Prop := ∀ q q', q ∈ qs → q' ∈ qs →
  gh_buildCacheKey (q_client q) = gh_buildCacheKey (q_client q') → gh_key_text (q_client q) = gh_key_text (q_client q').

(** What a result may be: the error of the client's own request, or a token that
    it or an earlier request has created for the same identity. *)
Definition own_result (past : list request) (q : request) (r : option AppToken * option error) : Prop :=
  match r with
  | (Some t, None) => ∃ q0, q0 ∈ past ++ [q] ∧ q_created q0 = inr t ∧ same_identity (q_client q0) (q_client q)
  | (None, Some err) => ∃ e, q_created q = inl e ∧ err = as_error e
  | _ => False
  end.

Lemma gh_run_own c l past qs :
  lru_rep (tcache c) l → gh_provenance past l → keys_distinct (past ++ qs) →
  (∀ q, q ∈ past ++ qs → comma_free (q_client q)) →
  ∃ rs, gh_run (Some c) qs = Some rs ∧ length rs = length qs ∧
    ∀ i q r, qs !! i = Some q → rs !! i = Some r → own_result (past ++ take i qs) q r.
Proof.
  revert c l past. induction qs as [|q qs IH]; intros c l past Hr Hp Hk Hc; [by exists []|].
  destruct (GetToken_sound c l past q Hr Hp) as (c' & l' & tok & err & E1 & Hr' & Hp' & Hres).
  cbn [gh_run]. rewrite E1. cbn.
  destruct (IH c' l' (past ++ [q]) Hr' Hp') as (rs & -> & Hlen & Hall); [by rewrite <-app_assoc..|].
  eexists. split_and!; [done|cbn; congruence|]. intros [|i] q' r Hq Hrs; simplify_eq/=.
  - rewrite app_nil_r. destruct tok as [t|]; [|destruct Hres as (e & -> & ->); cbn; by exists e].
    destruct Hres as (-> & q0 & Hin & Hcr & Hkey). exists q0. split_and!; [done..|].
    assert (∀ x, x ∈ past ++ [q'] → x ∈ past ++ q' :: qs) as Hsub by (intros x; set_solver).
    assert (q' ∈ past ++ [q']) as Hq' by set_solver.
    apply gh_key_text_inj; [auto..|]. apply Hk; auto.
  - specialize (Hall i q' r Hq Hrs). by rewrite <-app_assoc in Hall.
Qed.
End isolation.

(** C17. Installation tokens are not shared between identities.  In every sequence
    of calls on one cache, by clients whose owner and URL have no comma and
    whose keys do not collide, the cache does not panic and each call returns
    either its own error, or a token that this or an earlier call has created
    for a client with the same application, installation, server, private key
    and setting of the slug. *)
Theorem github_tokens_isolated {TLS Proxy RSA E : Type} (as_error : gh_error (E := E) → error) (cap : Z)
    (opts : list Options) (c : TokenCache (Token := AppToken)) (qs : list (request (TLS := TLS) (Proxy := Proxy) (RSA := RSA) (E := E))) :
  NewTokenCache cap opts = Some (inl c) → keys_distinct qs → (∀ q, q ∈ qs → comma_free (q_client q)) →
  ∃ rs, gh_run as_error (Some c) qs = Some rs ∧ length rs = length qs ∧
    ∀ i q r, qs !! i = Some q → rs !! i = Some r → own_result as_error (take i qs) q r.
Proof.
  intros [Hr _]%NewTokenCache_rep Hk Hc. apply (gh_run_own as_error c [] [] qs); [done| |done..].
  by intros k ti ?%not_elem_of_nil.
Qed.

(** ** Calls *)

Section calls.
Context {TLS Proxy RSA E : Type} (SignedString : Claims → option RSA → E + bytes) (url_Parse : bytes → option E).
Abbreviation client := (Client TLS Proxy RSA) (only parsing).

Definition caller (c : gcall) : GhClient :=
  match c with GGetApp g | GFindOrg g _ | GFindUser g _ | GCreateToken g _ => g end.

(** The installation that a token is created for is the configured one, or one
    that the server has named for the configured owner. *)
Definition right_installation (p : client) (gh : GhClient) (t : list (gcall * ganswer (E := E))) (i : Z) : Prop :=
  if (c_installationID p =? 0)%Z
  then ∃ a, g_err a = None ∧ g_id a = i ∧
         ((GFindOrg gh (c_installationOwner p), a) ∈ t ∨ (GFindUser gh (c_installationOwner p), a) ∈ t)
  else i = c_installationID p.

Lemma getInstallationID_spec (p : client) gh t r :
  runs (getInstallationID (E := E) p gh) t r →
  Forall (λ ev, caller ev.1 = gh) t ∧ match r with inr i => right_installation p gh t i | inl _ => True end.
Proof.
  unfold getInstallationID, right_installation. destruct (Z.eqb_spec (c_installationID p) 0); cbn [negb].
  2:{ intros [-> ->]%runs_ret_inv. by split. }
  intros (a & t' & -> & Hr)%runs_call_inv. destruct (g_err a) eqn:Ea.
  2:{ apply runs_ret_inv in Hr as [-> ->]. split; [by repeat constructor|]. exists a. set_solver. }
  apply runs_call_inv in Hr as (b & t'' & -> & Hr). destruct (g_err b) eqn:Eb;
    apply runs_ret_inv in Hr as [-> ->]; (split; [by repeat constructor|]); [done|]. exists b. set_solver.
Qed.

(** Whoever answers, the client speaks only as its application, to its server,
    and a token it returns was created for its installation. *)
Theorem createInstallationToken_spec (p : client) now t r :
  runs (createInstallationToken SignedString url_Parse p now) t r →
  ∀ tok, r = inr tok → ∃ gh jwt i a, SignedString (jwt_claims p now) (c_rsaKey p) = inr jwt ∧ gh_auth gh = jwt ∧
    (gh_base gh = None ↔ c_apiURL p = []) ∧ Forall (λ ev, caller ev.1 = gh) t ∧
    (GCreateToken gh i, a) ∈ t ∧ right_installation p gh t i ∧ g_err a = None ∧
    at_Token tok = g_token a ∧ at_ExpiresAt tok = g_expires a.
Proof.
  unfold createInstallationToken, createJWT. destruct (SignedString _ _) as [e|jwt] eqn:Es.
  { intros [-> ->]%runs_ret_inv tok [=]. }
  destruct (github_client url_Parse p jwt) as [e|gh] eqn:Eg; [intros [-> ->]%runs_ret_inv tok [=]|].
  assert (gh_auth gh = jwt ∧ (gh_base gh = None ↔ c_apiURL p = [])) as [Ha Hb].
  { unfold github_client in Eg. case_bool_decide; [by simplify_eq|]. destruct (url_Parse _); [done|]. by simplify_eq. }
  assert (∀ slug t0, runs (installation_token p gh slug) t0 r → ∀ tok, r = inr tok →
    ∃ i a, Forall (λ ev, caller ev.1 = gh) t0 ∧ (GCreateToken gh i, a) ∈ t0 ∧ right_installation p gh t0 i ∧
      g_err a = None ∧ at_Token tok = g_token a ∧ at_ExpiresAt tok = g_expires a) as Hinst.
  { intros slug t0 (t1 & i & t2 & -> & [Hc Hi]%getInstallationID_spec & Hr)%runs_bind_inv tok ->.
    destruct i as [e|i]; [by apply runs_ret_inv in Hr as [_ [=]]|].
    apply runs_call_inv in Hr as (a & t' & -> & Hr). destruct (g_err a) eqn:Ee; apply runs_ret_inv in Hr as [-> Hr]; simplify_eq.
    exists i, a. split_and!; [by rewrite Forall_app; repeat constructor|set_solver| |done..].
    unfold right_installation in *. case_match; [|done]. destruct Hi as (b & ? & ? & ?). exists b. set_solver. }
  destruct (c_reflectSlug p).
  - intros (s & t' & -> & Hr)%runs_call_inv tok ->. destruct (g_err s); [by apply runs_ret_inv in Hr as [_ [=]]|].
    destruct (Hinst _ _ Hr tok eq_refl) as (i & a & Hf & Hin & Hri & ? & ? & ?). exists gh, jwt, i, a.
    assert (right_installation p gh ((GGetApp gh, s) :: t') i).
    { unfold right_installation in *. case_match; [|done]. destruct Hri as (b & ? & ? & ?). exists b. set_solver. }
    split_and!; try done; [apply Hb..|by constructor|by right].
  - intros Hr tok ->. destruct (Hinst _ _ Hr tok eq_refl) as (i & a & ? & ? & ? & ? & ? & ?). by exists gh, jwt, i, a.
Qed.
End calls.

(** An assertion is valid from half a minute before it is made, and for two
    minutes. *)
Lemma jwt_lifetime {TLS Proxy RSA : Type} (p : Client TLS Proxy RSA) now :
  (IssuedAt (jwt_claims p now) = now / second - 30 ∧ ClaimExpiresAt (jwt_claims p now) = now / second + 90)%Z.
Proof.
  unfold jwt_claims. cbn [IssuedAt ClaimExpiresAt]. set (n := (now / second)%Z).
  replace (n * second + -30 * second)%Z with ((n - 30) * second)%Z by lia.
  replace ((n - 30) * second + 2 * 60 * second)%Z with ((n + 90) * second)%Z by lia.
  by rewrite !Z.div_mul.
Qed.

(** ** Examples *)

Definition demo_data (id owner inst url : string) (key : bytes) : sdata :=
  <[KeyAppID := str id]> (<[KeyAppInstallationOwner := str owner]> (<[KeyAppInstallationID := str inst]>
    (<[KeyAppBaseURL := str url]> (<[KeyAppPrivateKey := key]> ∅)))).

Definition demo_client (data : sdata) : gh_error (E := unit) + Client unit unit unit * Transport :=
  gh_New (λ _, inr tt) [WithAppData data].

(** Identifiers that cannot be read are not always found by [New]: one out of
    range becomes the largest number, and one that is no number counts as absent
    next to an owner. *)
Example app_ids_not_checked :
  (∃ c, demo_client (demo_data "99999999999999999999" "" "7" "" (str "key")) = inr c ∧ c_appID c.1 = (2 ^ 63 - 1)%Z) ∧
  (∃ c, demo_client (demo_data "1" "org" "7x" "" (str "key")) = inr c ∧ c_installationID c.1 = 0%Z).
Proof. split; eexists; (split; [by vm_compute|by vm_compute]). Qed.

(** Clients of different servers and keys share a key of the cache if a URL has
    a comma. *)
Example github_keys_ambiguous :
  match demo_client (demo_data "1" "" "7" "u" (str "a,githubAppPrivateKey=b")),
        demo_client (demo_data "1" "" "7" "u,githubAppPrivateKey=a" (str "b")) with
  | inr (p, _), inr (q, _) => gh_buildCacheKey p = gh_buildCacheKey q ∧ c_apiURL p ≠ c_apiURL q
  | _, _ => False
  end.
Proof. vm_compute. by split. Qed.

Definition demo_app (inst : Z) : Client unit unit unit :=
  mkClient 1 [] inst (str "key") (Some tt) [] None true [] [] [] [] None false.
Definition demo_request (inst now : Z) (tok : string) : request (TLS := unit) (Proxy := unit) (RSA := unit) (E := unit) :=
  mkRequest (demo_app inst) (demo_time now) (demo_time now) now (inr (mkAppToken (str tok) [] (3600 * second))).
Definition demo_requests := [demo_request 7 1 "a"; demo_request 8 2 "b"; demo_request 7 3 "c"].

Lemma demo_keys_differ : gh_buildCacheKey (demo_app 7) ≠ gh_buildCacheKey (demo_app 8).
Proof. apply (bool_decide_unpack _); vm_compute; exact I. Qed.

Lemma demo_requests_ok :
  keys_distinct demo_requests ∧ (∀ q, q ∈ demo_requests → comma_free (q_client q)) ∧
  ∃ c, NewTokenCache (Token := AppToken) 10 [] = Some (inl c) ∧
    gh_run (λ _, EOther 1 "error") (Some c) demo_requests
    = Some [(Some (mkAppToken (str "a") [] (3600 * second)), None); (Some (mkAppToken (str "b") [] (3600 * second)), None);
            (Some (mkAppToken (str "a") [] (3600 * second)), None)].
Proof.
  split_and!.
  - intros q q'. unfold demo_requests. rewrite !elem_of_cons, !elem_of_nil. intros Hq Hq'.
    destruct Hq as [->|[->|[->|[]]]], Hq' as [->|[->|[->|[]]]];
      intros Hk; [reflexivity|destruct (demo_keys_differ Hk)|reflexivity|destruct (demo_keys_differ (eq_sym Hk))|reflexivity
      |destruct (demo_keys_differ (eq_sym Hk))|reflexivity|destruct (demo_keys_differ Hk)|reflexivity].
  - intros q. unfold demo_requests. rewrite !elem_of_cons, !elem_of_nil. intros Hq.
    destruct Hq as [->|[->|[->|[]]]]; (split_and!; try (apply (bool_decide_unpack _); vm_compute; exact I)).
  - eexists. split; [by vm_compute|]. by vm_compute.
Qed.

Lemma github_tokens_isolated_witness : ∃ q0, q0 ∈ demo_requests ∧
  q_created q0 = inr (mkAppToken (str "a") [] (3600 * second)) ∧ same_identity (q_client q0) (demo_app 7).
Proof.
  destruct demo_requests_ok as (Hk & Hc & c & Hnew & Hrun).
  destruct (github_tokens_isolated (λ _, EOther 1 "error") 10 [] c demo_requests Hnew Hk Hc) as (rs & Hrs & _ & Hall).
  assert (rs = [(Some (mkAppToken (str "a") [] (3600 * second)), None); (Some (mkAppToken (str "b") [] (3600 * second)), None);
            (Some (mkAppToken (str "a") [] (3600 * second)), None)]) as -> by congruence.
  exact (Hall 2 (demo_request 7 3 "c") _ eq_refl eq_refl).
Defined.
