(* ===== verification/RuntimeHelpers.v ===== *)
(** * Small helpers of the runtime

    Access control between namespaces ([runtime/acl]), the predicate for
    requested reconciliations ([runtime/predicates]), the errors of controllers
    ([runtime/errors]), the merge of maps ([runtime/transform]) and the jitter of
    intervals ([runtime/jitter]), whose arithmetic is that of 64-bit floating
    point numbers; then the recorder of events ([runtime/events]). *)

From Stdlib Require Import SpecFloat.
From S2P Require Import Prelude GoStd Utf8 Interaction Secrets Reconcile ChartMerge.

(** ** Access control *)

(** [src/apis/acl/acl_types.go:28-36 NamespaceSelector] *)
Record NamespaceSelector := mkNsSelector { MatchLabels : gmap bytes bytes }.
(** [src/apis/acl/acl_types.go:19-26 AccessFrom] *)
Record AccessFrom := mkAccessFrom { NamespaceSelectors : list NamespaceSelector }.

(** A denial, or an error of the API or of a selector.
    [src/runtime/acl/acl.go:32-33 AccessDeniedError] *)
Inductive acl_error (E : Type) :=
  | MissingACL (ref : NamespacedName)
  | LabelsMismatch (ref : NamespacedName) (namespace : bytes)
  | AclError (e : E).
Arguments MissingACL {E}.
Arguments LabelsMismatch {E}.
Arguments AclError {E}.

(** [src/runtime/acl/acl.go:43-48 IsAccessDenied] *)
Definition IsAccessDenied {E : Type} (e : acl_error E) : bool :=
  match e with MissingACL _ | LabelsMismatch _ _ => true | AclError _ => false end.

Section acl.
Context {E : Type}.
(** [metav1.LabelSelectorAsSelector] of labels to match: an error, or the
    matcher. *)
Context (AsSelector : gmap bytes bytes → E + (gmap bytes bytes → bool)).

(** The labels of a namespace are read from the API. *)
Inductive ns_call := GetNamespace (name : bytes).
Abbreviation ns_prog A := (prog ns_call (E + gmap bytes bytes) A) (only parsing).

(** [src/runtime/acl/acl.go:84-93 HasAccessToRef] *)
Fixpoint match_selectors (sels : list NamespaceSelector) (labels : gmap bytes bytes) : E + bool :=
  match sels with
  | [] => inr false
  | s :: sels =>
      match AsSelector (MatchLabels s) with
      | inl e => inl e
      | inr m => if m labels then inr true else match_selectors sels labels
      end
  end.

(** [src/runtime/acl/acl.go:61-97 HasAccessToRef] *)
Definition HasAccessToRef (namespace : bytes) (ref : NamespacedName) (acl : option AccessFrom) :
    ns_prog (option (acl_error E)) :=
  if bool_decide (nn_Namespace ref = []) || bool_decide (namespace = nn_Namespace ref) then Ret None
  else match acl with
       | None => Ret (Some (MissingACL ref))
       | Some acl =>
           Call (GetNamespace namespace) (λ r,
           match r with
           | inl e => Ret (Some (AclError e))
           | inr labels =>
               match match_selectors (NamespaceSelectors acl) labels with
               | inl e => Ret (Some (AclError e))
               | inr true => Ret None
               | inr false => Ret (Some (LabelsMismatch ref namespace))
               end
           end)
       end.

(** A matcher of labels accepts the sets that contain them. *)
Definition AsSelector_ok : Prop := ∀ ls m, AsSelector ls = inr m → ∀ labels, m labels = true ↔ ls ⊆ labels.

Lemma match_selectors_true sels labels :
  AsSelector_ok → match_selectors sels labels = inr true → Exists (λ s, MatchLabels s ⊆ labels) sels.
Proof.
  intros Hok. induction sels as [|s sels IH]; cbn; [done|].
  destruct (AsSelector (MatchLabels s)) as [e|m] eqn:Es; [done|].
  destruct (m labels) eqn:Em; [intros _; left; by apply (Hok _ _ Es)|]. intros ?. right. auto.
Qed.

Lemma match_selectors_false sels labels :
  AsSelector_ok → match_selectors sels labels = inr false → Forall (λ s, ¬ MatchLabels s ⊆ labels) sels.
Proof.
  intros Hok. induction sels as [|s sels IH]; cbn; [constructor|].
  destruct (AsSelector (MatchLabels s)) as [e|m] eqn:Es; [done|].
  destruct (m labels) eqn:Em; [done|]. constructor; [|auto]. intros Hs. apply (Hok _ _ Es) in Hs. congruence.
Qed.

(** Access across namespaces is granted only by the ACL of the referenced object,
    to a namespace that has all the labels of one of its selectors; and it is
    denied for the labels only if they match none of them. *)
Theorem HasAccessToRef_spec namespace ref acl t e :
  AsSelector_ok → runs (HasAccessToRef namespace ref acl) t e →
  (e = None → nn_Namespace ref = [] ∨ namespace = nn_Namespace ref ∨
     ∃ a labels, acl = Some a ∧ t = [(GetNamespace namespace, inr labels)] ∧
       Exists (λ s, MatchLabels s ⊆ labels) (NamespaceSelectors a)) ∧
  (∀ d, e = Some d → IsAccessDenied d = true → namespace ≠ nn_Namespace ref ∧
     (acl = None ∨ ∃ a labels, acl = Some a ∧ t = [(GetNamespace namespace, inr labels)] ∧
       Forall (λ s, ¬ MatchLabels s ⊆ labels) (NamespaceSelectors a))).
Proof.
  intros Hok. unfold HasAccessToRef. destruct (bool_decide (nn_Namespace ref = [])) eqn:E1; cbn [orb].
  { apply bool_decide_eq_true in E1. intros [-> ->]%runs_ret_inv. by split; [left|]. }
  destruct (bool_decide (namespace = nn_Namespace ref)) eqn:E2; cbn [orb].
  { apply bool_decide_eq_true in E2. intros [-> ->]%runs_ret_inv. split; [by right; left|done]. }
  apply bool_decide_eq_false in E2. destruct acl as [a|].
  2:{ intros [-> ->]%runs_ret_inv. split; [done|]. intros d [= <-] _. auto. }
  intros ([x|labels] & t' & -> & Hr)%runs_call_inv.
  { apply runs_ret_inv in Hr as [-> ->]. split; [done|]. by intros d [= <-]. }
  destruct (match_selectors _ labels) as [x|[]] eqn:Em; apply runs_ret_inv in Hr as [-> ->].
  - split; [done|]. by intros d [= <-].
  - split; [|done]. intros _. do 2 right. exists a, labels. split_and!; [done..|by apply match_selectors_true].
  - split; [done|]. intros d [= <-] _. split; [done|right]. exists a, labels. split_and!; [done..|by apply match_selectors_false].
Qed.
End acl.

(** ** Requested reconciliations *)

(** The annotations of the old and of the new object, if there is one.
    [src/runtime/predicates/reconcile_requested.go:39-52 ReconcileRequestedPredicate.Update] *)
Definition ReconcileRequested_Update (old new : option (gmap string string)) : bool :=
  match old, new with
  | Some old, Some new =>
      match ReconcileAnnotationValue new with
      | Some val => match ReconcileAnnotationValue old with
                    | Some valOld => negb (bool_decide (val = valOld))
                    | None => true
                    end
      | None => false
      end
  | _, _ => false
  end.

(** An update passes if and only if it requests a reconciliation anew. *)
Lemma ReconcileRequested_Update_spec old new :
  ReconcileRequested_Update old new = true ↔
  ∃ o n v, old = Some o ∧ new = Some n ∧ n !! ReconcileRequestAnnotation = Some v ∧ o !! ReconcileRequestAnnotation ≠ Some v.
Proof.
  unfold ReconcileRequested_Update, ReconcileAnnotationValue. destruct old as [o|], new as [n|]; try (split; [done|naive_solver]).
  destruct (n !! _) as [v|] eqn:En; [|split; [done|naive_solver]].
  destruct (o !! _) as [w|] eqn:Eo.
  - rewrite negb_true_iff, bool_decide_eq_false. split; [intros ?; exists o, n, v; split_and!; congruence|].
    intros (o' & n' & v' & ? & ? & ? & ?). congruence.
  - split; [|done]. intros _. exists o, n, v. by rewrite Eo.
Qed.

(** ** Merging maps *)

(** [runtime/transform] has the same function as [chartutil].
    [src/runtime/transform/transform.go:19-40 MergeMaps] *)
Definition transform_MergeMaps : nat → heap → ref → ref → option (heap * nat) := MergeMaps.

(** ** Errors *)

Definition nn_String (n : NamespacedName) : bytes := nn_Namespace n ++ str "/" ++ nn_Name n.

(** Errors carry the text of the error they wrap.
    [src/runtime/errors/errors.go:25-63 ReconciliationError] *)
Inductive runtime_error :=
  | Plain (text : bytes)
  | ReconciliationError (kind : bytes) (n : NamespacedName) (err : runtime_error)
  | ResourceNotReadyError (kind : bytes) (n : NamespacedName) (err : runtime_error)
  | ResourceNotFoundError (kind : bytes) (n : NamespacedName) (err : runtime_error)
  | GarbageCollectionError (kind : bytes) (n : NamespacedName) (err : runtime_error).

(** [src/runtime/errors/errors.go:33-67 ReconciliationError.Error] *)
Fixpoint runtime_Error (e : runtime_error) : bytes :=
  match e with
  | Plain t => t
  | ReconciliationError k n e => k ++ str " '" ++ nn_String n ++ str "' reconciliation failed: " ++ runtime_Error e
  | ResourceNotReadyError k n _ => k ++ str " resource '" ++ nn_String n ++ str "' is not ready"
  | ResourceNotFoundError k n _ => k ++ str " resource '" ++ nn_String n ++ str "' could not be found"
  | GarbageCollectionError k n e => str "failed to garbage collect " ++ k ++ str " '" ++ nn_String n ++ str "': " ++ runtime_Error e
  end.

(** A resource that is not found does not unwrap.
    [src/runtime/errors/errors.go:37-55 ReconciliationError.Unwrap] *)
Definition runtime_Unwrap (e : runtime_error) : option runtime_error :=
  match e with
  | ReconciliationError _ _ e | ResourceNotReadyError _ _ e | GarbageCollectionError _ _ e => Some e
  | Plain _ | ResourceNotFoundError _ _ _ => None
  end.

(** ** Jitter *)

(** 64-bit floating point numbers, rounded to nearest even. *)
Abbreviation f64 := spec_float (only parsing).
Definition f_add : f64 → f64 → f64 := SFadd 53 1024.
Definition f_sub : f64 → f64 → f64 := SFsub 53 1024.
Definition f_mul : f64 → f64 → f64 := SFmul 53 1024.
Definition f_div : f64 → f64 → f64 := SFdiv 53 1024.
(** [float64(z)] of an integer. *)
Definition f_of_Z (z : Z) : f64 := binary_normalize 53 1024 z 0 false.
(** The conversion of a number to an integer, which truncates; out of range it
    is left to the implementation, and [None]. *)
Definition f_to_int64 (f : f64) : option Z :=
  match f with
  | S754_zero _ => Some 0%Z
  | S754_finite s m e =>
      let v := if (0 <=? e)%Z then Z.shiftl (Z.pos m) e else Z.shiftr (Z.pos m) (- e) in
      let v := if s then (- v)%Z else v in
      if in_range (- 2 ^ 63) v (2 ^ 63 - 1) then Some v else None
  | S754_infinity _ | S754_nan => None
  end.

(** A jitter reads a random number in [0, 1) and changes a duration. *)
Definition Duration : Type := f64 → Z → option Z.

(** [src/runtime/jitter/jitter.go:28-32 NoJitter] *)
Definition NoJitter : Duration := λ _ d, Some d.

(** [src/runtime/jitter/jitter.go:34-52 Percent] *)
Definition Percent (p : f64) : Duration :=
  if SFleb p (f_of_Z 0) || SFleb (f_of_Z 1) p then NoJitter
  else λ random d,
    let randomP := f_mul p (f_sub (f_mul (f_of_Z 2) random) (f_of_Z 1)) in
    f_to_int64 (f_mul (f_of_Z d) (f_add (f_of_Z 1) randomP)).

(** The global jitter, and whether it was set ([sync.Once]).
    [src/runtime/jitter/interval.go:34-39 globalIntervalJitter] *)
Record jitter_state := mkJitter { globalIntervalJitter : Duration; jitter_done : bool }.
Definition jitter_init : jitter_state := mkJitter NoJitter false.

(** [src/runtime/jitter/interval.go:41-47 SetGlobalIntervalJitter] *)
Definition SetGlobalIntervalJitter (p : f64) (s : jitter_state) : jitter_state :=
  if jitter_done s then s else mkJitter (Percent p) true.

(** A result of a reconciliation. *)
Record ctrl_Result := mkResult { Requeue : bool; RequeueAfter : Z }.
Definition Result_IsZero (r : ctrl_Result) : bool := negb (Requeue r) && (RequeueAfter r =? 0)%Z.

(** [src/runtime/jitter/interval.go:49-60 JitteredRequeueInterval] *)
Definition JitteredRequeueInterval (s : jitter_state) (random : f64) (r : ctrl_Result) : option ctrl_Result :=
  if negb (Result_IsZero r) && (0 <? RequeueAfter r)%Z then
    mkResult (Requeue r) <$> globalIntervalJitter s random (RequeueAfter r)
  else Some r.

(** [src/runtime/jitter/interval.go:62-69 JitteredIntervalDuration] *)
Definition JitteredIntervalDuration (s : jitter_state) (random : f64) (d : Z) : option Z := globalIntervalJitter s random d.

(** The percentage is an 8-bit number; [true] is an error.
    [src/runtime/jitter/interval.go:120-130 IntervalOptions.SetGlobalJitter] *)
Definition SetGlobalJitter (percentage : Z) (s : jitter_state) : jitter_state * bool :=
  if (100 <=? percentage)%Z then (s, true)
  else if (0 <? percentage)%Z && (percentage <? 100)%Z
       then (SetGlobalIntervalJitter (f_div (f_of_Z percentage) (f_of_Z 100)) s, false)
       else (s, false).

(** In a sequence of settings the first percentage between 1 and 99 decides. *)
Lemma SetGlobalJitter_first (ps : list Z) :
  globalIntervalJitter (foldl (λ s p, (SetGlobalJitter p s).1) jitter_init ps) =
  match list_find (λ p, (0 < p < 100)%Z) ps with
  | Some (_, p) => Percent (f_div (f_of_Z p) (f_of_Z 100))
  | None => NoJitter
  end.
Proof.
  assert (∀ s ps, jitter_done s = true → foldl (λ s p, (SetGlobalJitter p s).1) s ps = s) as Hdone.
  { intros s l Hs. induction l as [|p l IH]; cbn [foldl]; [done|]. rewrite <-IH at 2. f_equal.
    unfold SetGlobalJitter, SetGlobalIntervalJitter. rewrite Hs. by repeat case_match. }
  unfold jitter_init. induction ps as [|p ps IH]; cbn [foldl list_find]; [done|].
  destruct (decide (0 < p < 100)%Z) as [Hp|Hp].
  - unfold SetGlobalJitter at 2. rewrite (proj2 (Z.leb_gt 100 p)), (proj2 (Z.ltb_lt 0 p)), (proj2 (Z.ltb_lt p 100)) by lia.
    cbn [andb fst]. unfold SetGlobalIntervalJitter. cbn [jitter_done]. by rewrite Hdone.
  - assert ((SetGlobalJitter p (mkJitter NoJitter false)).1 = mkJitter NoJitter false) as ->.
    { unfold SetGlobalJitter. destruct (Z.leb_spec 100 p); [done|].
      destruct (Z.ltb_spec 0 p); [|done]. lia. }
    rewrite IH. destruct (list_find _ ps) as [[i q]|]; done.
Qed.

Definition minute_ns : Z := 60000000000.
Definition f_half : f64 := f_div (f_of_Z 1) (f_of_Z 2).

(** Ten percent of a minute: six seconds less at the lowest random number, none
    in the middle. *)
Example jitter_ten_percent :
  let j := Percent (f_div (f_of_Z 10) (f_of_Z 100)) in
  j (f_of_Z 0) minute_ns = Some 54000000000%Z ∧ j f_half minute_ns = Some minute_ns.
Proof. split; by vm_compute. Qed.

(** * Events ([runtime/events], [apis/event])

    An event of a controller goes to the Kubernetes recorder and, unless it is a
    trace, to a webhook.  Logging, the recorder, the host name, the clock, the
    encoding and the HTTP client are calls; a dereference of a missing object
    reference is a panic. *)

(** ** The event API *)

(** [src/apis/event/v1beta1/event.go:24-25 Group] *)
Definition Group : bytes := str "event.toolkit.fluxcd.io".
(** [src/apis/event/v1beta1/event.go:27-38 EventSeverityTrace] *)
Definition EventSeverityTrace : bytes := str "trace".
(** [src/apis/event/v1beta1/event.go:27-38 EventSeverityInfo] *)
Definition EventSeverityInfo : bytes := str "info".
(** [src/apis/event/v1beta1/event.go:27-38 EventSeverityError] *)
Definition EventSeverityError : bytes := str "error".
(** [src/apis/event/v1beta1/event.go:40-41 EventTypeTrace] *)
Definition EventTypeTrace : bytes := str "Trace".
(** The types of [k8s.io/api/core/v1]. *)
Definition EventTypeWarning : bytes := str "Warning".
Definition EventTypeNormal : bytes := str "Normal".

(** [src/apis/event/v1beta1/metadata.go:19-46 MetaRevisionKey] *)
Definition MetaRevisionKey : bytes := str "revision".
(** [src/apis/event/v1beta1/metadata.go:19-46 MetaOriginRevisionKey] *)
Definition MetaOriginRevisionKey : bytes := str "originRevision".
(** [src/apis/event/v1beta1/metadata.go:19-46 MetaCommitKey] *)
Definition MetaCommitKey : bytes := str "commit".

Record ObjectReference := mkObjRef { or_Kind : bytes; or_Name : bytes; or_Namespace : bytes }.

(** A nil map has no entries.
    [src/apis/event/v1beta1/event.go:43-80 Event] *)
Record Event := mkEvent {
  ev_InvolvedObject : ObjectReference; ev_Severity : bytes; ev_Timestamp : Z; ev_Message : bytes; ev_Reason : bytes;
  ev_Metadata : option (gmap bytes bytes); ev_ReportingController : bytes; ev_ReportingInstance : bytes }.

Definition meta_lookup (m : option (gmap bytes bytes)) (k : bytes) : option bytes := m ≫= lookup k.

(** [src/apis/event/v1beta1/event.go:82-85 Event.HasReason] *)
Definition HasReason (ev : Event) (reason : bytes) : bool := bool_decide (ev_Reason ev = reason).
(** [src/apis/event/v1beta1/event.go:87-93 Event.HasMetadata] *)
Definition HasMetadata (ev : Event) (key val : bytes) : bool :=
  match meta_lookup (ev_Metadata ev) key with Some v => bool_decide (v = val) | None => false end.
(** [src/apis/event/v1beta1/event.go:95-108 Event.GetRevision] *)
Definition GetRevision (ev : Event) : option bytes :=
  match meta_lookup (ev_Metadata ev) MetaCommitKey with
  | Some r => Some r
  | None => match meta_lookup (ev_Metadata ev) MetaOriginRevisionKey with
            | Some r => Some r
            | None => meta_lookup (ev_Metadata ev) MetaRevisionKey
            end
  end.

(** ** The recorder *)

(** [src/runtime/events/recorder.go:44-80 Recorder] *)
Record Recorder := mkRecorder { r_Webhook : bytes; r_ReportingController : bytes; r_hasClient : bool }.

(** [url_Parse] is [url.Parse], the error or none.
    [src/runtime/events/recorder.go:109-134 NewRecorderForScheme] *)
Definition NewRecorderForScheme {E : Type} (url_Parse : bytes → option E) (webhook reportingController : bytes) : E + Recorder :=
  match (if bool_decide (webhook = []) then None else url_Parse webhook) with
  | Some e => inl e
  | None => inr (mkRecorder webhook reportingController true)
  end.
(** The manager provides the scheme and the Kubernetes recorder.
    [src/runtime/events/recorder.go:84-107 NewRecorder] *)
Definition NewRecorder {E : Type} (url_Parse : bytes → option E) (webhook reportingController : bytes) : E + Recorder :=
  NewRecorderForScheme url_Parse webhook reportingController.

(** [src/runtime/events/recorder.go:143-148 responseIsEventDuplicated] *)
Definition responseIsEventDuplicated (status : Z) : bool := (status =? 429)%Z.

(** [policy] is [retryablehttp.ErrorPropagatedRetryPolicy].
    [src/runtime/events/recorder.go:136-141 checkRetry] *)
Definition checkRetry {E : Type} (policy : option Z → option E → bool * option E) (resp : option Z) (err : option E) :
    bool * option E :=
  if match resp with Some status => responseIsEventDuplicated status | None => false end then (false, None)
  else policy resp err.

(** [src/runtime/events/recorder.go:273-284 eventTypeToSeverity] *)
Definition eventTypeToSeverity (eventType : bytes) : bytes :=
  if bool_decide (eventType = EventTypeWarning) then EventSeverityError
  else if bool_decide (eventType = EventTypeTrace) then EventSeverityTrace
  else EventSeverityInfo.

Inductive ecall :=
  | EGetReference
  | ELogError (msg : bytes) | ELogInfo (msg : bytes)
  | EKube (annotations : option (gmap bytes bytes)) (eventtype reason message : bytes)
  | EHostname | ENow
  | EMarshal (ev : Event)
  | EPost (url : bytes) (body : bytes).

Record eanswer := mkEans { e_err : bool; e_ref : ObjectReference; e_text : bytes; e_time : Z }.

Abbreviation eprog A := (prog ecall eanswer A) (only parsing).

(** The annotations of the event: those of the object that are meant for events
    override those of the caller.  A map is made when it is needed.
    [src/runtime/events/recorder.go:173-184 AnnotatedEventf] *)
Definition event_annotations (input object : option (gmap bytes bytes)) : option (gmap bytes bytes) :=
  let own := filter (λ kv, HasPrefix kv.1 (Group ++ str "/") = true) (default ∅ object) in
  if bool_decide (own = ∅) then input else Some (own ∪ default ∅ input).

Definition log_error (msg : string) : eprog (res unit) := Call (ELogError (str msg)) (λ _, Ret (Val tt)).

(** Posting to the webhook; every failure is logged.
    [src/runtime/events/recorder.go:218-271 AnnotatedEventf] *)
Definition post_event (r : Recorder) (ref : ObjectReference) (annotations : option (gmap bytes bytes))
    (severity reason message : bytes) : eprog (res unit) :=
  if negb (r_hasClient r) then log_error "unable to record event"
  else if bool_decide (or_Kind ref = []) then log_error "unable to record event"
  else if bool_decide (or_Name ref = []) then log_error "unable to record event"
  else if bool_decide (or_Namespace ref = []) then log_error "unable to record event"
  else
    Call EHostname (λ h,
    if e_err h then log_error "failed to get hostname"
    else
      Call ENow (λ now,
      let event := mkEvent ref severity (e_time now) message reason annotations (r_ReportingController r) (e_text h) in
      Call (EMarshal event) (λ body,
      if e_err body then log_error "failed to marshal object into json"
      else
        Call (EPost (r_Webhook r) (e_text body)) (λ a,
        if e_err a then log_error "unable to record event" else Ret (Val tt))))).

(** [objAnnotations] are the annotations of the object if it has the method,
    [trace] says that trace logs are enabled, [message] is the formatted message.
    [src/runtime/events/recorder.go:160-271 AnnotatedEventf] *)
Definition AnnotatedEventf (r : Recorder) (trace : bool) (objAnnotations inputAnnotations : option (gmap bytes bytes))
    (eventtype reason message : bytes) : eprog (res unit) :=
  Call EGetReference (λ ref,
  let annotations := event_annotations inputAnnotations objAnnotations in
  if e_err ref then Call (ELogError (str "failed to get object reference")) (λ _, Ret Panics)
  else
    let rest :=
      let severity := eventTypeToSeverity eventtype in
      if bool_decide (severity = EventSeverityTrace) then
        Call (EKube annotations EventTypeNormal reason message) (λ _, Ret (Val tt))
      else
        Call (EKube annotations eventtype reason message) (λ _,
        if bool_decide (r_Webhook r = []) then Ret (Val tt)
        else post_event r (e_ref ref) annotations severity reason message) in
    if trace then
      Call (if bool_decide (eventtype = EventTypeWarning) then ELogError message else ELogInfo message) (λ _, rest)
    else rest).

(** [src/runtime/events/recorder.go:150-153 Event] *)
Definition Recorder_Event (r : Recorder) (trace : bool) (objAnnotations : option (gmap bytes bytes))
    (eventtype reason message : bytes) : eprog (res unit) :=
  AnnotatedEventf r trace objAnnotations None eventtype reason message.

(** [src/runtime/events/recorder.go:155-158 Eventf] *)
Definition Recorder_Eventf (r : Recorder) (trace : bool) (objAnnotations : option (gmap bytes bytes))
    (eventtype reason message : bytes) : eprog (res unit) :=
  AnnotatedEventf r trace objAnnotations None eventtype reason message.

(** ** What is recorded *)

Lemma event_annotations_lookup input object k :
  meta_lookup (event_annotations input object) k =
  match meta_lookup object k with
  | Some v => if HasPrefix k (Group ++ str "/") then Some v else meta_lookup input k
  | None => meta_lookup input k
  end.
Proof.
  unfold event_annotations, meta_lookup. generalize (Group ++ str "/"). intros pre.
  set (own := filter (λ kv : bytes * bytes, HasPrefix kv.1 pre = true) (default ∅ object)).
  assert (own !! k = match (object ≫= lookup k) with
                     | Some v => if HasPrefix k pre then Some v else None | None => None end) as Hown.
  { unfold own. destruct object as [m|]; cbn [default mbind option_bind]; [|by rewrite map_filter_empty, lookup_empty].
    unfold id. rewrite map_lookup_filter. destruct (m !! k) as [v|]; cbn; [|done].
    case_guard as Hp; cbn; [by rewrite Hp|]. by destruct (HasPrefix k pre). }
  case_bool_decide as He.
  - rewrite He, lookup_empty in Hown. repeat case_match; congruence.
  - cbn. rewrite lookup_union, Hown. destruct input as [m|]; cbn; unfold id; rewrite ?lookup_empty;
      repeat case_match; by rewrite ?union_Some_l, ?(left_id_L None union), ?(right_id_L None union).
Qed.

(** An event reaches the webhook as it was recorded. *)
Definition posted (r : Recorder) (objA inA : option (gmap bytes bytes)) (eventtype reason message : bytes) (ev : Event) : Prop :=
  r_Webhook r ≠ [] ∧ eventtype ≠ EventTypeTrace ∧ ev_Severity ev = eventTypeToSeverity eventtype ∧
  ev_Message ev = message ∧ ev_Reason ev = reason ∧ ev_ReportingController ev = r_ReportingController r ∧
  ev_Metadata ev = event_annotations inA objA ∧
  or_Kind (ev_InvolvedObject ev) ≠ [] ∧ or_Name (ev_InvolvedObject ev) ≠ [] ∧ or_Namespace (ev_InvolvedObject ev) ≠ [].

Ltac event_runs :=
  repeat match goal with
  | H : runs (Call _ _) _ _ |- _ => apply runs_call_inv in H as (? & ? & -> & H)
  | H : runs (Ret _) _ _ |- _ => apply runs_ret_inv in H as [-> ->]
  | H : runs (if ?b then _ else _) _ _ |- _ => destruct b eqn:?
  end.

(** The events of the Kubernetes recorder in a trace. *)
Definition kube_events (t : list (ecall * eanswer)) : list (option (gmap bytes bytes) * bytes * bytes * bytes) :=
  omap (λ e, match e.1 with EKube a ty rs m => Some (a, ty, rs, m) | _ => None end) t.

Lemma severity_trace ty : eventTypeToSeverity ty = EventSeverityTrace ↔ ty = EventTypeTrace.
Proof.
  unfold eventTypeToSeverity. split; [|by intros ->]. do 2 (case_bool_decide; [by (intros [=] || auto)|]). by intros [=].
Qed.

Lemma post_event_spec r ref ann sev reason message t o :
  runs (post_event r ref ann sev reason message) t o →
  o = Val tt ∧ kube_events t = [] ∧ (EGetReference ∉ t.*1) ∧
  (∀ ev a, (EMarshal ev, a) ∈ t → ev_Severity ev = sev ∧ ev_Message ev = message ∧ ev_Reason ev = reason ∧
     ev_ReportingController ev = r_ReportingController r ∧ ev_Metadata ev = ann ∧ ev_InvolvedObject ev = ref ∧
     or_Kind ref ≠ [] ∧ or_Name ref ≠ [] ∧ or_Namespace ref ≠ []) ∧
  (∀ url body a, (EPost url body, a) ∈ t → url = r_Webhook r ∧ ∃ ev m, (EMarshal ev, m) ∈ t ∧ e_err m = false ∧ body = e_text m).
Proof.
  unfold post_event, log_error. intros Hr. event_runs; cbn [negb] in *;
    repeat match goal with H : bool_decide _ = false |- _ => apply bool_decide_eq_false in H end;
    (split_and!; [done|done|cbn; rewrite ?not_elem_of_cons; by split_and!; [..|apply not_elem_of_nil]|..]);
    intros *; rewrite ?elem_of_cons, ?elem_of_nil; intros Hin; destruct_or! Hin; simplify_eq; try done; try by split_and!.
  all: split; [done|]; eexists _, _; split_and!; [do 2 right; left; done|done|done].
Qed.

(** What is sent once the object has a reference. *)
Definition sends (r : Recorder) (ref : ObjectReference) (ann : option (gmap bytes bytes)) (eventtype reason message : bytes) :
    prog ecall eanswer (res unit) :=
  if bool_decide (eventTypeToSeverity eventtype = EventSeverityTrace) then
    Call (EKube ann EventTypeNormal reason message) (λ _, Ret (Val tt))
  else
    Call (EKube ann eventtype reason message) (λ _,
    if bool_decide (r_Webhook r = []) then Ret (Val tt)
    else post_event r ref ann (eventTypeToSeverity eventtype) reason message).

Definition is_log (ev : ecall * eanswer) : Prop := ∃ m, ev.1 = ELogError m ∨ ev.1 = ELogInfo m.

Lemma AnnotatedEventf_cases r trace objA inA eventtype reason message t o :
  runs (AnnotatedEventf r trace objA inA eventtype reason message) t o →
  ∃ ref t1 t2, t = (EGetReference, ref) :: t1 ++ t2 ∧ Forall is_log t1 ∧
    if e_err ref then t2 = [] ∧ o = Panics
    else runs (sends r (e_ref ref) (event_annotations inA objA) eventtype reason message) t2 o.
Proof.
  unfold AnnotatedEventf. intros (ref & t' & -> & Hr)%runs_call_inv. exists ref. destruct (e_err ref) eqn:Er.
  { event_runs. eexists [_], []. split_and!; [done| |done..]. constructor; [|constructor]. eexists. by left. }
  destruct trace; [|by exists [], t'].
  apply runs_call_inv in Hr as (a & t2 & -> & Hr). eexists [_], t2. split_and!; [done| |done].
  constructor; [|constructor]. exists message. destruct (bool_decide (eventtype = EventTypeWarning)); auto.
Qed.

(** Recording an event panics if and only if the object has no reference.
    Otherwise the Kubernetes recorder gets the event exactly once, as a normal
    event if it is a trace.  A trace never reaches the webhook; any other event
    that does was encoded as it was recorded, with the annotations of the object
    that are meant for events. *)
Theorem AnnotatedEventf_spec r trace objA inA eventtype reason message t o :
  runs (AnnotatedEventf r trace objA inA eventtype reason message) t o →
  (o = Panics ↔ ∃ a, (EGetReference, a) ∈ t ∧ e_err a = true) ∧
  (o = Val tt → kube_events t =
     [(event_annotations inA objA, if bool_decide (eventtype = EventTypeTrace) then EventTypeNormal else eventtype, reason, message)]) ∧
  (∀ ev a, (EMarshal ev, a) ∈ t → posted r objA inA eventtype reason message ev) ∧
  (∀ url body a, (EPost url body, a) ∈ t → url = r_Webhook r ∧ ∃ ev m, (EMarshal ev, m) ∈ t ∧ e_err m = false ∧ body = e_text m).
Proof.
  intros (ref & t1 & t2 & -> & Hlog & Hr2)%AnnotatedEventf_cases.
  assert (∀ c a, (c, a) ∈ t1 → ∃ m, c = ELogError m ∨ c = ELogInfo m) as Hl1.
  { intros c a Hin. rewrite Forall_forall in Hlog. by apply Hlog in Hin. }
  assert (kube_events t1 = []) as Hk1.
  { unfold kube_events. clear Hl1. induction Hlog as [|[c a] t1 [m [E|E]] _ IH]; cbn in *; subst; done. }
  destruct (e_err ref) eqn:Er.
  { destruct Hr2 as [-> ->]. rewrite app_nil_r. split_and!.
    - split; [intros _; exists ref; split; [left|done]|done].
    - done.
    - by intros ev a [?|(m & [?|?])%Hl1]%elem_of_cons.
    - by intros u b a [?|(m & [?|?])%Hl1]%elem_of_cons. }
  unfold sends in Hr2. rewrite (bool_decide_ext _ _ (severity_trace eventtype)) in Hr2.
  assert (∀ c a, (c, a) ∈ (EGetReference, ref) :: t1 ++ t2 →
    match c with EMarshal _ | EPost _ _ => (c, a) ∈ t2 | _ => True end) as Hin.
  { intros c a [?|[(m & [-> | ->])%Hl1|?]%elem_of_app]%elem_of_cons; simplify_eq; [done..|]. by destruct c. }
  assert (∀ x, kube_events t2 = x → kube_events ((EGetReference, ref) :: t1 ++ t2) = x) as Hk.
  { intros x <-. unfold kube_events in *. cbn. by rewrite omap_app, Hk1. }
  assert ((∃ a, (EGetReference, a) ∈ (EGetReference, ref) :: t1 ++ t2 ∧ e_err a = true) →
    ∃ a, (EGetReference, a) ∈ t2) as Hg.
  { intros (a & Ha & He). apply elem_of_cons in Ha as [[= ->]|[(m & [?|?])%Hl1|?]%elem_of_app]; [congruence|done..|eauto]. }
  case_bool_decide.
  - event_runs. split_and!; [|intros _; by apply Hk|intros ev b Hb%Hin|intros u b c Hb%Hin];
      [|by apply list_elem_of_singleton in Hb..].
    split; [done|]. intros (a & Ha%list_elem_of_singleton)%Hg. done.
  - apply runs_call_inv in Hr2 as (a & t3 & -> & Hr). case_bool_decide as Hw.
    + event_runs. split_and!; [|intros _; by apply Hk|intros ev b Hb%Hin|intros u b c Hb%Hin];
        [|by apply list_elem_of_singleton in Hb..].
      split; [done|]. intros (b & Hb%list_elem_of_singleton)%Hg. done.
    + apply post_event_spec in Hr as (-> & Hk3 & Hg3 & Hm & Hp). split_and!.
      * split; [done|]. intros (b & [?|Hb]%elem_of_cons)%Hg; [done|]. destruct Hg3. by apply (list_elem_of_fmap_2 fst) in Hb.
      * intros _. apply Hk. unfold kube_events in *. cbn. by rewrite Hk3.
      * intros ev b [?|Hb]%Hin%elem_of_cons; [done|]. apply Hm in Hb as (? & ? & ? & ? & ? & Ei & ? & ? & ?).
        unfold posted. rewrite Ei. by split_and!.
      * intros u body c [?|Hb]%Hin%elem_of_cons; [done|]. apply Hp in Hb as (? & ev & m & ? & ? & ?).
        split; [done|]. exists ev, m. set_solver.
Qed.

(** An object without a reference is logged, and then the recorder panics. *)
Example unknown_object_panics :
  run (λ _ _, mkEans true (mkObjRef [] [] []) [] 0) []
    (Recorder_Event (mkRecorder (str "http://nc") (str "c") true) false None EventTypeNormal (str "r") (str "m"))
  = (Panics, [(EGetReference, mkEans true (mkObjRef [] [] []) [] 0);
              (ELogError (str "failed to get object reference"), mkEans true (mkObjRef [] [] []) [] 0)]).
Proof. by vm_compute. Qed.

(** The webhook is not told of cluster-scoped objects. *)
Example cluster_scoped_not_posted :
  ((run (λ _ _, mkEans false (mkObjRef (str "Node") (str "n") []) [] 0) []
    (Recorder_Event (mkRecorder (str "http://nc") (str "c") true) false None EventTypeNormal (str "r") (str "m"))).2).*1
  = [EGetReference; EKube None EventTypeNormal (str "r") (str "m"); ELogError (str "unable to record event")].
Proof. by vm_compute. Qed.
