(* ===== verification/MaskToken.v ===== *)
(** * Masking of tokens in texts ([masktoken])

    [MaskTokenFromString] replaces matches of the quoted token followed by a
    star, which is applied to the last character of the token alone.  So the
    token without its last character is masked too, and every place of a text is
    a match of a token of one character. *)

From S2P Require Import Prelude Utf8 Regexp.

(** ** [regexp]: replacing all matches *)

(** The leftmost match in a text: what is before it, the match, what is after. *)
Fixpoint find_split (total : nat) (r : re) (s : list (Z * bytes)) :
    option (list (Z * bytes) * list (Z * bytes) * list (Z * bytes)) :=
  match mtch total r s ∅ (λ s' _, Some s') with
  | Some s' => Some ([], take (length s - length s') s, s')
  | None => match s with
            | [] => None
            | c :: s => match find_split total r s with
                        | Some (pre, m, rest) => Some (c :: pre, m, rest)
                        | None => None
                        end
            end
  end.

(** [Regexp.ReplaceAllString] with a replacement that has no [$].  [start] says
    that the search is at the start of the text, [skipped] is the text between
    the last match and the place of the search.  An empty match right after a
    match is not replaced, and after an empty match the search goes on one rune
    later.  Each round moves on, so the runes and one more bound the rounds. *)
Fixpoint replace_all (fuel : nat) (total : nat) (r : re) (repl : bytes) (start : bool) (skipped : bytes)
    (s : list (Z * bytes)) : bytes :=
  match fuel with
  | O => skipped ++ unchunk s
  | S fuel =>
      match find_split total r s with
      | None => skipped ++ unchunk s
      | Some (pre, m, rest) =>
          let before := skipped ++ unchunk pre in
          let out := before ++
            (if negb (bool_decide (before ++ unchunk m = [])) || (start && bool_decide (pre = [])) then repl else []) in
          match pre, m with
          | [], [] => match s with
                      | [] => out
                      | c :: s => out ++ replace_all fuel total r repl false c.2 s
                      end
          | _, _ => out ++ replace_all fuel total r repl false [] rest
          end
      end
  end.

Definition ReplaceAllString (r : re) (src repl : bytes) : bytes :=
  replace_all (2 * length (chunks src) + 2) (length (chunks src)) r repl true [] (chunks src).

(** ** The code *)

(** A text without invalid encodings. *)
Definition valid_chunk (c : Z * bytes) : bool := negb ((c.1 =? RuneError)%Z && (length c.2 =? 1)).
Definition ValidString (s : bytes) : bool := forallb valid_chunk (chunks s).

(** Runes matched literally, with a star on the last one. *)
Fixpoint star_last (rs : list Z) : re :=
  match rs with
  | [] => REps
  | [r] => RStar (RClass (Z.eqb r))
  | r :: rs => RSeq (RClass (Z.eqb r)) (star_last rs)
  end.
(** The expression that [regexp.Compile] reads from the quoted token and a star,
    which applies to the last character; a token that is not valid UTF-8 is
    refused.  [src/masktoken/masktoken.go:33-36 MaskTokenFromString] *)
Definition compile_token (token : bytes) : option re :=
  if ValidString token then Some (star_last (chunks token).*1) else None.

Definition stars : bytes := str "*****".

(** [None] is the error of [regexp.Compile].
    [src/masktoken/masktoken.go:24-41 MaskTokenFromString] *)
Definition MaskTokenFromString (log token : bytes) : option bytes :=
  if bool_decide (token = []) then Some log
  else re ← compile_token token; Some (ReplaceAllString re log stars).

(** ** Examples *)

Example mask_exact :
  MaskTokenFromString (str "with token 8h0387hdyehbwwa45!") (str "8h0387hdyehbwwa45") = Some (str "with token *****!").
Proof. by vm_compute. Qed.

(** The token without its last character is masked too. *)
Example mask_prefix : MaskTokenFromString (str "no abcd, but abc") (str "abcd") = Some (str "no *****, but *****").
Proof. by vm_compute. Qed.

(** A token of one character masks every place of the text. *)
Example mask_one_character : MaskTokenFromString (str "xyx") (str "x") = Some (str "*****y*****").
Proof. by vm_compute. Qed.
Example mask_one_absent : MaskTokenFromString (str "ab") (str "x") = Some (str "*****a*****b*****").
Proof. by vm_compute. Qed.

(** ** Runes in texts *)

Lemma chunks_fuel_enough n s : length s <= n → chunks_fuel n s = chunks s.
Proof.
  unfold chunks. assert (∀ n m s, length s <= n → length s <= m → chunks_fuel n s = chunks_fuel m s) as H; [|intros; by apply H].
  clear. induction n as [|n IH]; intros [|m] [|d s] Hn Hm; cbn in Hn, Hm; try lia; try done.
  cbn [chunks_fuel]. pose proof (DecodeRune_cases (d :: s)) as Hd. destruct (DecodeRune (d :: s)) as [r w].
  assert (1 <= w) as Hw by (destruct Hd as [[_ [= _ ->]]|(_ & _ & ? & _)]; cbn in *; lia).
  f_equal. apply IH; rewrite length_drop; cbn; lia.
Qed.

Lemma chunks_step d s : let '(r, n) := DecodeRune (d :: s) in
  chunks (d :: s) = (r, take n (d :: s)) :: chunks (drop n (d :: s)) ∧ 1 <= n <= length (d :: s).
Proof.
  pose proof (DecodeRune_cases (d :: s)) as Hd. destruct (DecodeRune (d :: s)) as [r w] eqn:E.
  assert (1 <= w <= length (d :: s)) as Hw by (destruct Hd as [[_ [= _ ->]]|(_ & _ & ? & _)]; cbn in *; lia).
  split; [|done]. unfold chunks at 1. cbn [length chunks_fuel]. rewrite E. f_equal. apply chunks_fuel_enough.
  rewrite length_drop. cbn. lia.
Qed.

Lemma unchunk_app x y : unchunk (x ++ y) = unchunk x ++ unchunk y.
Proof. apply bind_app. Qed.

(** The rest of a text is read as it was. *)
Lemma chunks_rest s x y : chunks s = x ++ y → y = chunks (unchunk y).
Proof.
  revert s. induction x as [|c x IH]; intros s E; cbn [app] in E; [by rewrite <-E, unchunk_chunks|].
  destruct s as [|d s]; [done|]. pose proof (chunks_step d s) as Hs. destruct (DecodeRune (d :: s)) as [r n].
  destruct Hs as [Hs _]. rewrite Hs in E. injection E as _ E. by apply IH in E.
Qed.

Definition continuation (c : ascii) : Prop := (128 <= bval c < 192)%Z.

Lemma DecodeRune_tail d s : Forall continuation (take (pred (DecodeRune (d :: s)).2) s).
Proof.
  cbn [DecodeRune]. unfold continuation, in_range, cont, in_range, first_byte.
  repeat case_match; cbn [snd pred take]; simplify_eq; rewrite ?take_0; repeat constructor; lia.
Qed.

Lemma chunk_shape s c : c ∈ chunks s → ∃ d cs, c.2 = d :: cs ∧ Forall continuation cs.
Proof.
  remember (length s) as n eqn:Hn. revert s Hn. induction n as [n IH] using lt_wf_ind. intros [|d s] Hn Hc; [by apply not_elem_of_nil in Hc|].
  pose proof (chunks_step d s) as Hs. pose proof (DecodeRune_tail d s) as Ht. destruct (DecodeRune (d :: s)) as [r w].
  destruct Hs as [Hs Hw]. rewrite Hs in Hc. apply elem_of_cons in Hc as [->|Hc].
  - destruct w as [|w]; [lia|]. exists d, (take w s). split; [done|exact Ht].
  - eapply (IH (length (drop w (d :: s)))); [rewrite length_drop; lia|done|done].
Qed.

(** A rune that is not an error is read alike whatever follows. *)
Lemma DecodeRune_extend d s b : (let '(r, n) := DecodeRune (d :: s) in negb ((r =? RuneError)%Z && (n =? 1))) = true →
  DecodeRune ((d :: s) ++ b) = DecodeRune (d :: s).
Proof.
  cbn [DecodeRune app]. destruct (bval d <? 128)%Z; [done|].
  destruct (first_byte (bval d)) as [[[k lo] hi]|]; [|done].
  destruct k as [|[|[|[|[|]]]]]; try done; destruct s as [|c1 [|c2 [|c3 s]]]; done.
Qed.

Lemma valid_first d t : ValidString (d :: t) = true → ¬ continuation d.
Proof.
  unfold ValidString. pose proof (chunks_step d t) as Hs. destruct (DecodeRune (d :: t)) as [r n] eqn:Ed.
  destruct Hs as [-> _]. cbn [forallb]. intros [Hv _]%andb_true_iff [Hl Hu]. cbn [DecodeRune] in Ed.
  rewrite (proj2 (Z.ltb_ge _ _) Hl) in Ed. unfold first_byte in Ed. rewrite (proj2 (Z.ltb_lt _ 194)) in Ed by lia.
  injection Ed as <- <-. done.
Qed.

Lemma chunks_app t b : ValidString t = true → chunks (t ++ b) = chunks t ++ chunks b.
Proof.
  remember (length t) as n eqn:Hn. revert t Hn. induction n as [n IH] using lt_wf_ind. intros [|d t] Hn Hv; [done|].
  pose proof (chunks_step d t) as Hs. pose proof (chunks_step d (t ++ b)) as Hs'. pose proof (DecodeRune_extend d t b) as Ha.
  change (d :: t ++ b) with ((d :: t) ++ b) in Hs'. unfold ValidString in Hv.
  destruct (DecodeRune (d :: t)) as [r w]. destruct Hs as [Hs Hw]. rewrite Hs in Hv |- *. cbn [forallb] in Hv.
  apply andb_true_iff in Hv as [Hv1 Hv]. unfold valid_chunk in Hv1. cbn [fst snd] in Hv1. rewrite length_take_le in Hv1 by lia.
  rewrite Ha in Hs' by done. destruct Hs' as [-> _]. rewrite take_app_le, drop_app_le by lia. cbn [app]. f_equal.
  apply (IH (length (drop w (d :: t)))); [rewrite length_drop; lia|done|done].
Qed.

(** ** Matches *)

Lemma find_split_spec total r s :
  match find_split total r s with
  | None => ∀ x y, s = x ++ y → ∀ s2, ¬ rel total r y s2
  | Some (pre, m, rest) => s = pre ++ m ++ rest ∧ rel total r (m ++ rest) rest ∧
      ∀ x c y, pre = x ++ c :: y → ∀ s2, ¬ rel total r ((c :: y) ++ m ++ rest) s2
  end.
Proof.
  assert (∀ s, mtch total r s ∅ (λ s' _, Some s') = None → ∀ s2, ¬ rel total r s s2) as Hnone.
  { intros s' E s2 Hr. destruct (mtch_complete total r s' s2 ∅ (λ s' _, Some s') Hr) as [x Hx]; [by eexists|congruence]. }
  induction s as [|c s IH]; cbn [find_split]; destruct (mtch total r _ ∅ _) as [s'|] eqn:Em.
  - apply mtch_sound in Em as (s1 & gs & Hr & [= ->]). pose proof (rel_suffix _ _ _ _ Hr) as Hs.
    apply suffix_nil_inv in Hs as ->. split_and!; [done..|]. by intros [].
  - intros x y E. symmetry in E. apply app_eq_nil in E as [-> ->]. by apply Hnone.
  - apply mtch_sound in Em as (s1 & gs & Hr & [= ->]). destruct (rel_suffix _ _ _ _ Hr) as [k Hk].
    rewrite Hk in Hr |- *. rewrite length_app, Nat.add_sub, take_app_length. split_and!; [done..|]. by intros [].
  - destruct (find_split total r s) as [[[pre m] rest]|].
    + destruct IH as (-> & Hr & Hn). split_and!; [done..|]. intros [|d x] e y E; cbn in E; simplify_eq; [by apply Hnone|by eapply Hn].
    + intros [|d x] y E; cbn in E; simplify_eq; [by apply Hnone|by eapply IH].
Qed.

Lemma star_last_found total rs cs s : cs.*1 = rs → ∃ s2, rel total (star_last rs) (cs ++ s) s2.
Proof.
  intros <-. induction cs as [|[r b] cs IH]; cbn [fmap list_fmap fst star_last app]; [eexists; constructor|].
  destruct cs as [|c cs]; cbn [fmap list_fmap]; [eexists; constructor|].
  destruct IH as [s2 Hr]. exists s2. econstructor; [constructor; by rewrite Z.eqb_refl|done].
Qed.

Lemma star_last_consumes total r r' rs s s2 : rel total (star_last (r :: r' :: rs)) s s2 → length s2 < length s.
Proof.
  cbn [star_last]. intros Hr. inversion Hr as [| |? ? ? s1 ? H1 H2| | | | | | |]; subst.
  inversion H1; subst. apply rel_length in H2. cbn. lia.
Qed.

(** ** Occurrences *)

Definition occurs (t s : bytes) : Prop := ∃ a b, s = a ++ t ++ b.

(** A text that starts with no continuation byte occurs at runes only. *)
Lemma occurs_at_rune d t pre a b :
  (∀ c, c ∈ pre → ∃ e cs, c.2 = e :: cs ∧ Forall continuation cs) → ¬ continuation d →
  unchunk pre = a ++ (d :: t) ++ b → ∃ x y, pre = x ++ y ∧ unchunk y = (d :: t) ++ b.
Proof.
  intros Hs Hd. revert a. induction pre as [|c pre IH]; intros a E.
  { symmetry in E. apply app_eq_nil in E as [_ [=]]. }
  destruct a as [|a0 a]; [by exists [], (c :: pre)|].
  destruct (Hs c) as (e & cs & Hc & Hcs); [by left|]. unfold unchunk in E. cbn [mbind list_bind] in E. rewrite Hc in E.
  cbn [app] in E. injection E as _ E. fold (unchunk pre) in E.
  apply app_eq_inv in E as [(k & Ek & E)|(k & -> & E)].
  - destruct k as [|k0 k].
    + cbn in E. destruct (IH (λ c Hc, Hs c (list_elem_of_further _ _ _ Hc)) []) as (x & y & -> & Hy); [by rewrite <-E|].
      by exists (c :: x), y.
    + cbn in E. injection E as <- _. destruct Hd. rewrite Ek, Forall_app, Forall_cons in Hcs. tauto.
  - destruct (IH (λ c Hc, Hs c (list_elem_of_further _ _ _ Hc)) k E) as (x & y & -> & Hy). by exists (c :: x), y.
Qed.

(** An occurrence around a star has a star. *)
Lemma occurs_split t a b : t ≠ [] → ("*"%char ∉ t) → occurs t (a ++ stars ++ b) → occurs t a ∨ occurs t b.
Proof.
  intros Ht Hstar (x & y & E). apply app_eq_inv in E as [(k & -> & E)|(k & -> & E)].
  - apply app_eq_inv in E as [(l & -> & E)|(l & -> & E)]; [|left; by exists x, l].
    destruct l as [|c l]; [left; exists x, []; by rewrite !app_nil_r|]. injection E as <- _. set_solver.
  - apply app_eq_inv in E as [(l & El & E)|(l & -> & E)]; [|right; by exists l, y].
    destruct l as [|c l]; [right; by exists [], y|]. destruct t as [|d t]; [done|]. injection E as <- _.
    assert (d ∈ stars) as Hd by (rewrite El; set_solver). unfold stars in Hd. cbn in Hd.
    rewrite !elem_of_cons, elem_of_nil in Hd. destruct_or! Hd; try done; subst; set_solver.
Qed.

(** A token does not occur where its expression does not match. *)
Lemma no_occurrence total token log x pre post :
  ValidString token = true → token ≠ [] → chunks log = x ++ pre ++ post →
  (∀ y c z, pre = y ++ c :: z → ∀ s2, ¬ rel total (star_last (chunks token).*1) ((c :: z) ++ post) s2) →
  ¬ occurs token (unchunk pre).
Proof.
  intros Hv Ht Hlog Hno (a & b & E). destruct token as [|d t]; [done|].
  assert (∀ c, c ∈ pre → ∃ e cs, c.2 = e :: cs ∧ Forall continuation cs) as Hs.
  { intros c Hc. apply (chunk_shape log). rewrite Hlog. set_solver. }
  destruct (occurs_at_rune d t pre a b Hs (valid_first d t Hv) E) as (y & z & -> & Hz).
  destruct z as [|c z]; [done|].
  assert ((c :: z) ++ post = chunks ((d :: t) ++ b ++ unchunk post)) as Hc.
  { rewrite (app_assoc (d :: t)), <-Hz. rewrite <-unchunk_app. apply (chunks_rest log (x ++ y)). by rewrite Hlog, <-!app_assoc. }
  destruct (star_last_found total (chunks (d :: t)).*1 (chunks (d :: t)) (chunks (b ++ unchunk post)) eq_refl) as [s2 Hr].
  apply (Hno y c z eq_refl s2). by rewrite Hc, chunks_app.
Qed.

Lemma replace_all_clean fuel total token log x start s :
  ValidString token = true → 2 <= length (chunks token) → ("*"%char ∉ token) →
  chunks log = x ++ s → length s < fuel →
  ¬ occurs token (replace_all fuel total (star_last (chunks token).*1) stars start [] s).
Proof.
  intros Hv Hlen Hstar. assert (token ≠ []) as Ht by (intros ->; cbn in Hlen; lia).
  revert x start s. induction fuel as [|fuel IH]; intros x start s Hlog Hf; [lia|].
  cbn [replace_all]. pose proof (find_split_spec total (star_last (chunks token).*1) s) as Hfind.
  destruct (find_split _ _ s) as [[[pre m] rest]|].
  - destruct Hfind as (-> & Hr & Hno).
    assert (m ≠ []) as Hm.
    { intros ->. destruct (chunks token) as [|[r1 b1] [|[r2 b2] cs]]; cbn in Hlen; try lia.
      apply star_last_consumes in Hr. cbn in Hr. lia. }
    assert (unchunk m ≠ []) as Hum.
    { destruct m as [|c m]; [done|]. destruct (chunk_shape log c) as (e & cs & Hc & _); [rewrite Hlog; set_solver|].
      unfold unchunk. cbn. by rewrite Hc. }
    assert (negb (bool_decide (([] ++ unchunk pre) ++ unchunk m = [])) = true) as ->.
    { apply negb_true_iff, bool_decide_eq_false. by intros [_ ?]%app_eq_nil. }
    cbn [orb app]. destruct m as [|c m]; [done|].
    assert (¬ occurs token ((unchunk pre ++ stars) ++ replace_all fuel total (star_last (chunks token).*1) stars false [] rest)) as Hgoal.
    { rewrite <-app_assoc. intros [Ho|Ho]%occurs_split; [| |done..].
      - revert Ho. apply (no_occurrence total token log x pre ((c :: m) ++ rest)); [done..|]. exact Hno.
      - revert Ho. apply (IH (x ++ pre ++ c :: m)); [by rewrite Hlog, <-!app_assoc|].
        rewrite !length_app in Hf. cbn in Hf. lia. }
    by destruct pre.
  - cbn [app]. apply (no_occurrence total token log x s []); [done..|by rewrite app_nil_r|].
    intros y c z -> s2. rewrite app_nil_r. by apply (Hfind y).
Qed.

(** C28. A masked text does not hold the token.  For a token of at least two
    characters, in valid UTF-8 and without an asterisk, masking succeeds and the
    token occurs nowhere in the result, whatever the text is. *)
Theorem MaskToken_masks log token :
  ValidString token = true → 2 <= length (chunks token) → ("*"%char ∉ token) →
  ∃ out, MaskTokenFromString log token = Some out ∧ ∀ a b, out ≠ a ++ token ++ b.
Proof.
  intros Hv Hlen Hstar. unfold MaskTokenFromString, compile_token. rewrite Hv.
  rewrite bool_decide_false by (intros ->; cbn in Hlen; lia). eexists. split; [done|].
  intros a b E. apply (replace_all_clean (2 * length (chunks log) + 2) (length (chunks log)) token log [] true (chunks log) Hv Hlen Hstar eq_refl);
    [lia|]. by exists a, b.
Qed.

Lemma MaskToken_masks_witness : ∃ out,
  MaskTokenFromString (str "abcd and abcabcd") (str "abcd") = Some out ∧ ∀ a b, out ≠ a ++ str "abcd" ++ b.
Proof. apply MaskToken_masks; [reflexivity|vm_compute; lia|]. apply (bool_decide_unpack _). vm_compute. exact I. Defined.
