(* ===== verification/LockedFile.v ===== *)
(** * Locked files ([lockedfile])

    Files whose contents change under locks of the operating system.  The
    operations are programs over the calls on one file; the file and its locks
    are a state that processes and goroutines share, and calls of several of them
    interleave as they come.  A write may fail after any part of its data.  Locks
    are advisory: that every access to the content happens under one is proved,
    not assumed. *)

From S2P Require Import Prelude Utf8 Interaction.

(** ** Calls *)

(** [src/lockedfile/filelock/filelock_unix.go:15-20 lockType] *)
Inductive lockType := LOCK_SH | LOCK_EX | LOCK_UN.

Inductive lerr := EINTR | ErrClosed | LErr (msg : bytes).

Inductive lcall :=
  | LOpen (write create : bool) (perm : Z)
  | LFlock (lt : lockType)
  | LTruncate (size : nat)
  | LStat
  | LReadAll
  | LWriteAt (data : bytes) (off : nat)
  | LClose.

(** The error, what was read, and whether the file is regular. *)
Record lans := mkLans { l_err : option lerr; l_data : bytes; l_regular : bool }.

Abbreviation lprog A := (prog lcall lans A) (only parsing).

(** ** Locks ([filelock]) *)

(** [fuel] bounds the interruptions by signals.
    [src/lockedfile/filelock/filelock_unix.go:22-37 lock] *)
Fixpoint filelock_lock (fuel : nat) (lt : lockType) : lprog (option lerr) :=
  Call (LFlock lt) (λ r,
  match l_err r with
  | Some EINTR => match fuel with O => Ret (Some EINTR) | S fuel => filelock_lock fuel lt end
  | Some e => Ret (Some e)
  | None => Ret None
  end).

(** [src/lockedfile/filelock/filelock.go:30-43 Lock] *)
Definition filelock_Lock (fuel : nat) : lprog (option lerr) := filelock_lock fuel LOCK_EX.
(** [src/lockedfile/filelock/filelock.go:45-56 RLock] *)
Definition filelock_RLock (fuel : nat) : lprog (option lerr) := filelock_lock fuel LOCK_SH.
(** [src/lockedfile/filelock/filelock_unix.go:39-41 unlock] *)
Definition filelock_Unlock (fuel : nat) : lprog (option lerr) := filelock_lock fuel LOCK_UN.

(** ** Files *)

(** The flags that matter: opened for writing, created, truncated. *)
Record flags := mkFlags { O_WRITE : bool; O_CREATE : bool; O_TRUNC : bool }.

(** The file is truncated after it is locked.
    [src/lockedfile/lockedfile_filelock.go:16-53 openFile] *)
Definition openFile (fuel : nat) (flag : flags) (perm : Z) : lprog (option lerr) :=
  Call (LOpen (O_WRITE flag) (O_CREATE flag) perm) (λ r,
  match l_err r with
  | Some e => Ret (Some e)
  | None =>
      (if O_WRITE flag then filelock_Lock fuel else filelock_RLock fuel) ≫= λ err,
      match err with
      | Some e => Call LClose (λ _, Ret (Some e))
      | None =>
          if O_TRUNC flag then
            Call (LTruncate 0) (λ r,
            match l_err r with
            | None => Ret None
            | Some e =>
                Call LStat (λ fi,
                if match l_err fi with Some _ => true | None => l_regular fi end
                then filelock_Unlock fuel ≫= λ _, Call LClose (λ _, Ret (Some e))
                else Ret None)
            end)
          else Ret None
      end
  end).

(** [src/lockedfile/lockedfile_filelock.go:55-65 closeFile] *)
Definition closeFile (fuel : nat) : lprog (option lerr) :=
  filelock_Unlock fuel ≫= λ err,
  Call LClose (λ r, Ret (match err with Some e => Some e | None => l_err r end)).

(** [src/lockedfile/lockedfile.go:34-57 OpenFile] *)
Definition OpenFile (fuel : nat) (flag : flags) (perm : Z) : lprog (option lerr) := openFile fuel flag perm.
(** [src/lockedfile/lockedfile.go:59-62 Open] *)
Definition Open (fuel : nat) : lprog (option lerr) := OpenFile fuel (mkFlags false false false) 0.
(** [src/lockedfile/lockedfile.go:64-67 Create] *)
Definition Create (fuel : nat) : lprog (option lerr) := OpenFile fuel (mkFlags true true true) 438.
(** [src/lockedfile/lockedfile.go:69-76 Edit] *)
Definition Edit (fuel : nat) : lprog (option lerr) := OpenFile fuel (mkFlags true true false) 438.

(** Closing twice is an error, and unlocks once; the result has the new value of
    the field [closed].
    [src/lockedfile/lockedfile.go:78-95 File.Close] *)
Definition Close (fuel : nat) (closed : bool) : lprog (bool * option lerr) :=
  if closed then Ret (true, Some ErrClosed)
  else closeFile fuel ≫= λ err, Ret (true, err).

(** The deferred [f.Close()], whose error is dropped. *)
Definition closing {A : Type} (fuel : nat) (a : A) : lprog A := Close fuel false ≫= λ _, Ret a.

(** [src/lockedfile/lockedfile.go:97-106 Read] *)
Definition Read (fuel : nat) : lprog (lerr + bytes) :=
  Open fuel ≫= λ err,
  match err with
  | Some e => Ret (inl e)
  | None => Call LReadAll (λ r, closing fuel (match l_err r with Some e => inl e | None => inr (l_data r) end))
  end.

(** [io.Copy]: chunks at the position of the file, and the error they end in. *)
Fixpoint copy_chunks (chunks : list bytes) (rerr : option lerr) (pos : nat) : lprog (option lerr) :=
  match chunks with
  | [] => Ret rerr
  | c :: chunks =>
      Call (LWriteAt c pos) (λ r,
      match l_err r with Some e => Ret (Some e) | None => copy_chunks chunks rerr (pos + length c) end)
  end.

Definition done (err : option lerr) : lerr + bytes := match err with Some e => inl e | None => inr [] end.

(** [src/lockedfile/lockedfile.go:108-121 Write] *)
Definition Write (fuel : nat) (chunks : list bytes) (rerr : option lerr) (perm : Z) : lprog (lerr + bytes) :=
  OpenFile fuel (mkFlags true true true) perm ≫= λ err,
  match err with
  | Some e => Ret (inl e)
  | None =>
      copy_chunks chunks rerr 0 ≫= λ err,
      Close fuel false ≫= λ closed,
      Ret (done (match err with Some e => Some e | None => closed.2 end))
  end.

(** A best effort to restore the old content; its own errors are dropped.
    [src/lockedfile/lockedfile.go:158-166 Transform] *)
Definition roll_back (old : bytes) (e : lerr) : lprog (lerr + bytes) :=
  Call (LWriteAt old 0) (λ r,
  match l_err r with
  | Some _ => Ret (inl e)
  | None => Call (LTruncate (length old)) (λ _, Ret (inl e))
  end).

(** [src/lockedfile/lockedfile.go:158-186 Transform] *)
Definition overwrite_file (old new : bytes) : lprog (lerr + bytes) :=
  if length old <=? length new then
    Call (LWriteAt (take (length old) new) 0) (λ r,
    match l_err r with Some e => roll_back old e | None => Ret (inr []) end)
  else
    Call (LWriteAt new 0) (λ r,
    match l_err r with
    | Some e => roll_back old e
    | None => Call (LTruncate (length new)) (λ r,
              match l_err r with Some e => roll_back old e | None => Ret (inr []) end)
    end).

(** [src/lockedfile/lockedfile.go:137-186 Transform] *)
Definition transform_file (t : bytes → lerr + bytes) : lprog (lerr + bytes) :=
  Call LReadAll (λ r,
  match l_err r with
  | Some e => Ret (inl e)
  | None =>
      let old := l_data r in
      match t old with
      | inl e => Ret (inl e)
      | inr new =>
          if length old <? length new then
            Call (LWriteAt (drop (length old) new) (length old)) (λ r,
            match l_err r with
            | Some e => Call (LTruncate (length old)) (λ _, Ret (inl e))
            | None => overwrite_file old new
            end)
          else overwrite_file old new
      end
  end).

(** [src/lockedfile/lockedfile.go:123-186 Transform] *)
Definition Transform (fuel : nat) (t : bytes → lerr + bytes) : lprog (lerr + bytes) :=
  Edit fuel ≫= λ err,
  match err with
  | Some e => Ret (inl e)
  | None => transform_file t ≫= λ res, closing fuel res
  end.

(** A mutex locks a file of its own; an empty path is a panic.
    [src/lockedfile/mutex.go:41-67 Mutex.Lock] *)
Definition Mutex_Lock (fuel : nat) (path : bytes) : lprog (res (option lerr)) :=
  if bool_decide (path = []) then Ret Panics
  else OpenFile fuel (mkFlags true true false) 438 ≫= λ err, Ret (Val err).
(** [src/lockedfile/mutex.go:29-35 MutexAt] *)
Definition MutexAt (path : bytes) : res bytes := if bool_decide (path = []) then Panics else Val path.

(** * Serializability of locked files

    Any number of processes run the operations of [LockedFile] on one file, and
    their calls interleave in any way the operating system allows.  [safe] says
    of one program that it touches the content only under its lock, and what it
    may do to it; [safe_serializable] that safe programs are serializable.  Then
    each operation is safe. *)

(** ** The operating system *)

(** Writing at an offset, after a gap of zeros if it is beyond the end. *)
Definition zeros (n : nat) : bytes := repeat (Ascii.ascii_of_nat 0) n.
Definition put (c data : bytes) (off : nat) : bytes :=
  match data with
  | [] => c
  | _ => take off (c ++ zeros (off - length c)) ++ data ++ drop (off + length data) c
  end.
Definition resize (n : nat) (c : bytes) : bytes := take n c ++ zeros (n - length c).

(** The content of the file and its locks: one writer, or readers. *)
Record world := mkWorld { w_content : bytes; w_ex : option nat; w_sh : gset nat }.

Definition release (i : nat) (w : world) : world :=
  mkWorld (w_content w) (if bool_decide (w_ex w = Some i) then None else w_ex w) (w_sh w ∖ {[i]}).
Definition set_content (c : bytes) (w : world) : world := mkWorld c (w_ex w) (w_sh w).

(** What a call of process [i] may answer, and do.  A lock that is refused waits,
    or fails; a write that fails has written any part of its data; closing the
    file releases its lock, also when it reports an error. *)
Inductive os_step (i : nat) (w : world) : lcall → lans → world → Prop :=
  | os_open wr cr perm r : os_step i w (LOpen wr cr perm) r w
  | os_stat r : os_step i w LStat r w
  | os_lock_fail lt r : l_err r ≠ None → os_step i w (LFlock lt) r w
  | os_lock_ex r : l_err r = None → w_ex w = None → w_sh w = ∅ →
      os_step i w (LFlock LOCK_EX) r (mkWorld (w_content w) (Some i) ∅)
  | os_lock_sh r : l_err r = None → w_ex w = None →
      os_step i w (LFlock LOCK_SH) r (mkWorld (w_content w) None ({[i]} ∪ w_sh w))
  | os_unlock r : l_err r = None → os_step i w (LFlock LOCK_UN) r (release i w)
  | os_close r : os_step i w LClose r (release i w)
  | os_read r : (l_err r = None → l_data r = w_content w) → os_step i w LReadAll r w
  | os_write d off r : l_err r = None → os_step i w (LWriteAt d off) r (set_content (put (w_content w) d off) w)
  | os_write_fail d off r j : l_err r ≠ None →
      os_step i w (LWriteAt d off) r (set_content (put (w_content w) (take j d) off) w)
  | os_truncate n r : l_err r = None → os_step i w (LTruncate n) r (set_content (resize n (w_content w)) w)
  | os_truncate_fail n r : l_err r ≠ None → os_step i w (LTruncate n) r w.

(** ** Sessions *)

(** The content a process found, the one it left, and how many of its writes and
    truncations failed. *)
Definition session : Type := bytes * bytes * nat.

Inductive phase := Out | Rd (c : bytes) | In (c0 c : bytes) (nf : nat) | Fin (s : session).

Definition ok (r : lans) : bool := match l_err r with None => true | Some _ => false end.

(** A program that touches the content only under a lock, has at most one
    session, and ends in a phase and with a result that [Q] allows. *)
Fixpoint safe {A : Type} (Q : phase → A → Prop) (ph : phase) (p : prog lcall lans A) : Prop :=
  match p with
  | Ret a => Q ph a
  | Call c k => ∀ r,
      match c with
      | LOpen _ _ _ | LStat => safe Q ph (k r)
      | LFlock LOCK_EX =>
          ph = Out ∧ (if ok r then ∀ c, safe Q (In c c 0) (k r) else safe Q Out (k r))
      | LFlock LOCK_SH =>
          ph = Out ∧ (if ok r then ∀ c, safe Q (Rd c) (k r) else safe Q Out (k r))
      | LFlock LOCK_UN =>
          if ok r then match ph with
                       | Rd c => safe Q (Fin (c, c, 0)) (k r)
                       | In c0 c nf => safe Q (Fin (c0, c, nf)) (k r)
                       | _ => safe Q ph (k r)
                       end
          else safe Q ph (k r)
      | LClose => match ph with
                  | Rd c => safe Q (Fin (c, c, 0)) (k r)
                  | In c0 c nf => safe Q (Fin (c0, c, nf)) (k r)
                  | _ => safe Q ph (k r)
                  end
      | LReadAll => match ph with
                    | Rd c | In _ c _ => (l_err r = None → l_data r = c) → safe Q ph (k r)
                    | _ => False
                    end
      | LWriteAt d off => match ph with
                          | In c0 c nf => if ok r then safe Q (In c0 (put c d off) nf) (k r)
                                          else ∀ j, safe Q (In c0 (put c (take j d) off) (S nf)) (k r)
                          | _ => False
                          end
      | LTruncate n => match ph with
                       | In c0 c nf => safe Q (if ok r then In c0 (resize n c) nf else In c0 c (S nf)) (k r)
                       | _ => False
                       end
      end
  end.

(** A program that has finished holds no lock. *)
Definition finished {A : Type} (Post : option session → A → Prop) (ph : phase) (a : A) : Prop :=
  match ph with Out => Post None a | Fin s => Post (Some s) a | _ => False end.

Section system.
Context {A : Type}.
Abbreviation proc := (prog lcall lans A) (only parsing).

(** One call of one process. *)
Inductive sys_step : list (prog lcall lans A) * world → list (prog lcall lans A) * world → Prop :=
  | sys_call ps i c k r w w' : ps !! i = Some (Call c k) → os_step i w c r w' → sys_step (ps, w) (<[i := k r]> ps, w').

(** ** Serializability *)

(** Sessions one after the other, from a content to a content. *)
Fixpoint chain (c : bytes) (log : list (nat * session)) (c' : bytes) : Prop :=
  match log with
  | [] => c' = c
  | (_, (c0, c1, _)) :: log => c0 = c ∧ chain c1 log c'
  end.

Lemma sessions_snoc c log c0 i c1 nf : chain c log c0 → chain c (log ++ [(i, (c0, c1, nf))]) c1.
Proof. revert c. induction log as [|[j [[a b] n]] log IH]; intros c; cbn; [by intros ->|]. intros [-> ?]. auto. Qed.

Definition holds (w : world) (committed : bytes) (i : nat) (ph : phase) : Prop :=
  match ph with
  | Out | Fin _ => w_ex w ≠ Some i ∧ (i ∉ w_sh w)
  | Rd c => w_ex w = None ∧ i ∈ w_sh w ∧ w_content w = c
  | In c0 c _ => w_ex w = Some i ∧ (i ∉ w_sh w) ∧ w_content w = c ∧ committed = c0
  end.

Definition logged (log : list (nat * session)) (i : nat) (ph : phase) : Prop :=
  match ph with Fin s => (i, s) ∈ log | _ => i ∉ log.*1 end.

Record inv (Post : nat → option session → A → Prop) (c : bytes) (ps : list (prog lcall lans A)) (w : world)
    (phs : list phase) (log : list (nat * session)) (committed : bytes) : Prop := {
  inv_length : length phs = length ps;
  inv_safe : ∀ i p ph, ps !! i = Some p → phs !! i = Some ph → safe (finished (Post i)) ph p;
  inv_holds : ∀ i ph, phs !! i = Some ph → holds w committed i ph;
  inv_logged : ∀ i ph, phs !! i = Some ph → logged log i ph;
  inv_locks : w_ex w = None ∨ w_sh w = ∅;
  inv_holder : ∀ i, w_ex w = Some i → i < length phs;
  inv_free : w_ex w = None → w_content w = committed;
  inv_chain : chain c log committed;
  inv_once : NoDup log.*1 }.

(** The step of process [i] keeps what is known of the others. *)
Lemma inv_upd Post c ps w phs log committed i p' ph ph' w' log' committed' :
  inv Post c ps w phs log committed → phs !! i = Some ph → safe (finished (Post i)) ph' p' →
  holds w' committed' i ph' → (∀ j phj, j ≠ i → holds w committed j phj → holds w' committed' j phj) →
  logged log' i ph' → (∀ j phj, j ≠ i → logged log j phj → logged log' j phj) →
  w_ex w' = None ∨ w_sh w' = ∅ → (∀ j, w_ex w' = Some j → j < length phs) →
  (w_ex w' = None → w_content w' = committed') → chain c log' committed' → NoDup log'.*1 →
  inv Post c (<[i := p']> ps) w' (<[i := ph']> phs) log' committed'.
Proof.
  intros [Hlen Hsafe Hholds Hlogged Hlocks Hholder Hfree Hchain Honce] Hi Hs Hh Hhj Hl Hlj Hlo Hho Hfr Hch Hon.
  assert (i < length phs) as Hlt by by eapply lookup_lt_Some.
  assert (∀ j phj, <[i:=ph']> phs !! j = Some phj → (j = i ∧ phj = ph') ∨ (j ≠ i ∧ phs !! j = Some phj)) as Hcase.
  { intros j phj Hj. destruct (decide (j = i)) as [->|Hne]; [left|right].
    - rewrite list_lookup_insert_eq in Hj by done. by simplify_eq.
    - by rewrite list_lookup_insert_ne in Hj. }
  split; try done; rewrite ?length_insert; try done.
  - intros j p phj Hp [[-> ->]|[Hne Hj]]%Hcase.
    + rewrite list_lookup_insert_eq in Hp by lia. by simplify_eq.
    + rewrite list_lookup_insert_ne in Hp by done. eauto.
  - intros j phj [[-> ->]|[Hne Hj]]%Hcase; eauto.
  - intros j phj [[-> ->]|[Hne Hj]]%Hcase; eauto.
Qed.

(** A step that leaves the log and the committed content as they are. *)
Lemma inv_move Post c ps w phs log committed i p' ph ph' w' :
  inv Post c ps w phs log committed → phs !! i = Some ph → safe (finished (Post i)) ph' p' →
  holds w' committed i ph' → (∀ j phj, j ≠ i → holds w committed j phj → holds w' committed j phj) →
  (logged log i ph → logged log i ph') → w_ex w' = None ∨ w_sh w' = ∅ →
  (∀ j, w_ex w' = Some j → w_ex w = Some j ∨ j = i) → (w_ex w' = None → w_content w' = committed) →
  inv Post c (<[i := p']> ps) w' (<[i := ph']> phs) log committed.
Proof.
  intros Hinv Hi Hs Hh Hhj Hl Hlo Hho Hfr. eapply inv_upd; try done; [| |by eapply inv_chain|by eapply inv_once].
  - apply Hl. by eapply inv_logged.
  - intros j [Hj| ->]%Hho; [by eapply inv_holder|by eapply lookup_lt_Some].
Qed.

(** The end of a session. *)
Lemma inv_finish Post c ps w phs log committed i p' ph c1 nf w' :
  inv Post c ps w phs log committed → phs !! i = Some ph → (∀ s, ph ≠ Fin s) →
  safe (finished (Post i)) (Fin (committed, c1, nf)) p' →
  holds w' c1 i (Fin (committed, c1, nf)) → (∀ j phj, j ≠ i → holds w committed j phj → holds w' c1 j phj) →
  w_ex w' = None → w_content w' = c1 →
  inv Post c (<[i := p']> ps) w' (<[i := Fin (committed, c1, nf)]> phs) (log ++ [(i, (committed, c1, nf))]) c1.
Proof.
  intros Hinv Hi Hph Hs Hh Hhj Hex Hc. pose proof (inv_logged _ _ _ _ _ _ _ Hinv i ph Hi) as Hl.
  assert (i ∉ log.*1) as Hni by (destruct ph; [done..|by destruct (Hph s)]).
  eapply inv_upd; try done.
  - cbn. set_solver.
  - intros j [|?|? ? ?|s] Hne; cbn; rewrite ?fmap_app; set_solver.
  - by left.
  - by rewrite Hex.
  - apply sessions_snoc. by eapply inv_chain.
  - rewrite fmap_app. apply NoDup_app. split_and!; [by eapply inv_once|set_solver|cbn; apply NoDup_singleton].
Qed.

Lemma ok_true r : l_err r = None → ok r = true.
Proof. unfold ok. by intros ->. Qed.
Lemma ok_false r : l_err r ≠ None → ok r = false.
Proof. unfold ok. by destruct (l_err r). Qed.

Lemma release_others i w j phj committed :
  j ≠ i → holds w committed j phj → holds (release i w) committed j phj.
Proof.
  intros Hne. unfold release. destruct phj; cbn; case_bool_decide as He; intros Hh;
    repeat match goal with H : _ ∧ _ |- _ => destruct H end; split_and?; try done; try set_solver; congruence.
Qed.

Lemma release_id w i : w_ex w ≠ Some i → i ∉ w_sh w → release i w = w.
Proof.
  intros He Hs. unfold release. rewrite bool_decide_false by done. destruct w as [x e sh]. cbn in *. f_equal. set_solver.
Qed.

(** Releasing the lock ends the session of a process that has it, and does
    nothing otherwise. *)
Definition released (ph : phase) : phase :=
  match ph with Rd c => Fin (c, c, 0) | In c0 c nf => Fin (c0, c, nf) | _ => ph end.

Lemma inv_release Post c ps w phs log committed i p' ph :
  inv Post c ps w phs log committed → phs !! i = Some ph → safe (finished (Post i)) (released ph) p' →
  ∃ log' committed', inv Post c (<[i := p']> ps) (release i w) (<[i := released ph]> phs) log' committed'.
Proof.
  intros Hinv Hi Hs. pose proof (inv_holds _ _ _ _ _ _ _ Hinv i ph Hi) as Hh.
  destruct ph as [|x|c0 x nf|s]; cbn [released] in *.
  1,4: (exists log, committed; destruct Hh as [He Hn]; rewrite release_id by done;
    by eapply inv_move; eauto using inv_locks, inv_free).
  - destruct Hh as (He & Hin & Hc). assert (committed = x) as -> by (rewrite <-Hc; symmetry; by eapply inv_free).
    eexists _, _. eapply inv_finish; try done.
    + cbn. case_bool_decide; [congruence|]. set_solver.
    + intros j phj Hne. by apply release_others.
    + cbn. by case_bool_decide.
  - destruct Hh as (He & Hin & Hc & <-). eexists _, _. eapply inv_finish; try done.
    + cbn. rewrite bool_decide_true by done. set_solver.
    + intros j phj Hne Hj. apply (release_others i) in Hj; [|done]. destruct phj; try done.
      cbn in Hj. rewrite bool_decide_true in Hj by done. by destruct Hj.
    + cbn. by rewrite bool_decide_true.
Qed.

(** The writer changes the content. *)
Lemma inv_write Post c ps w phs log committed i p' c0 y nf x nf' :
  inv Post c ps w phs log committed → phs !! i = Some (In c0 y nf) → safe (finished (Post i)) (In c0 x nf') p' →
  inv Post c (<[i := p']> ps) (set_content x w) (<[i := In c0 x nf']> phs) log committed.
Proof.
  intros Hinv Hi Hs. destruct (inv_holds _ _ _ _ _ _ _ Hinv i _ Hi) as (He & Hin & Hc & Hcom).
  eapply inv_move; eauto.
  - done.
  - intros j [|z|z1 z2 z3|s] Hne; cbn; [done| | |done]; rewrite He; [by intros [? _]|intros [? _]; congruence].
  - cbn. by destruct (inv_locks _ _ _ _ _ _ _ Hinv); [left|right].
  - cbn. by rewrite He.
Qed.

Lemma inv_lock_ex Post c ps w phs log committed i p' :
  inv Post c ps w phs log committed → phs !! i = Some Out → w_ex w = None → w_sh w = ∅ →
  (∀ x, safe (finished (Post i)) (In x x 0) p') →
  inv Post c (<[i := p']> ps) (mkWorld (w_content w) (Some i) ∅) (<[i := In (w_content w) (w_content w) 0]> phs) log committed.
Proof.
  intros Hinv Hi He Hsh Hs. eapply (inv_move _ _ _ _ _ _ _ _ _ Out); [done..| | |done| | |done].
  - cbn. split_and!; [done|set_solver|done|]. symmetry. by eapply inv_free.
  - intros j [|z|z1 z2 z3|s] Hne; cbn; [|rewrite Hsh; set_solver|rewrite He; by intros [? _]|];
      (intros _; split; [congruence|set_solver]).
  - by right.
  - intros j [= <-]. by right.
Qed.

Lemma inv_lock_sh Post c ps w phs log committed i p' :
  inv Post c ps w phs log committed → phs !! i = Some Out → w_ex w = None → (∀ x, safe (finished (Post i)) (Rd x) p') →
  inv Post c (<[i := p']> ps) (mkWorld (w_content w) None ({[i]} ∪ w_sh w)) (<[i := Rd (w_content w)]> phs) log committed.
Proof.
  intros Hinv Hi He Hs. eapply (inv_move _ _ _ _ _ _ _ _ _ Out); [done..| | |done| | |].
  - cbn. split_and!; [done|set_solver|done].
  - intros j [|z|z1 z2 z3|s] Hne; cbn; rewrite He; [set_solver|set_solver|by intros [? _]|set_solver].
  - by left.
  - by intros j [=].
  - intros _. exact (inv_free _ _ _ _ _ _ _ Hinv He).
Qed.

Lemma inv_stay Post c ps w phs log committed i p' ph :
  inv Post c ps w phs log committed → phs !! i = Some ph → safe (finished (Post i)) ph p' →
  inv Post c (<[i := p']> ps) w (<[i := ph]> phs) log committed.
Proof. intros Hinv Hi Hs. eapply inv_move; eauto using inv_locks, inv_free, inv_holds. Qed.

Lemma inv_step Post c ps w phs log committed ps' w' :
  inv Post c ps w phs log committed → sys_step (ps, w) (ps', w') →
  ∃ phs' log' committed', inv Post c ps' w' phs' log' committed'.
Proof.
  intros Hinv Hstep. inversion Hstep as [? i call k r ? ? Hp Hos]; subst.
  assert (∃ ph, phs !! i = Some ph) as [ph Hi].
  { apply lookup_lt_is_Some. rewrite (inv_length _ _ _ _ _ _ _ Hinv). by eapply lookup_lt_Some. }
  pose proof (inv_safe _ _ _ _ _ _ _ Hinv i _ ph Hp Hi) as Hs.
  pose proof (inv_holds _ _ _ _ _ _ _ Hinv i ph Hi) as Hh.
  assert (safe (finished (Post i)) ph (k r) → ∃ phs' log' committed', inv Post c (<[i:=k r]> ps) w phs' log' committed') as Hstay.
  { intros Hs'. by eexists _, _, _; eapply inv_stay. }
  assert (safe (finished (Post i)) (released ph) (k r) → ∃ phs' log' committed', inv Post c (<[i:=k r]> ps) (release i w) phs' log' committed') as Hrel.
  { intros Hs'. destruct (inv_release _ _ _ _ _ _ _ i (k r) ph Hinv Hi Hs') as (log' & c' & ?). by eexists _, _, _. }
  cbn [safe] in Hs. specialize (Hs r).
  destruct Hos as [wr cr perm r|r|lt r Hr|r Hr He Hsh|r Hr He|r Hr|r|r Hd|d off r Hr|d off r j Hr|n r Hr|n r Hr];
    rewrite ?(ok_true r), ?(ok_false r) in Hs by done; auto.
  - destruct lt; [destruct Hs as [-> Hs]..|]; auto.
  - destruct Hs as [-> Hs]. by eexists _, _, _; eapply inv_lock_ex.
  - destruct Hs as [-> Hs]. by eexists _, _, _; eapply inv_lock_sh.
  - apply Hrel. by destruct ph.
  - apply Hrel. by destruct ph.
  - apply Hstay. destruct ph; try done; apply Hs; intros E; rewrite Hd by done; cbn in Hh; destruct_and! Hh; done.
  - destruct ph as [| |c0 y nf|]; try done. destruct Hh as (_ & _ & -> & _). eexists _, _, _. eapply inv_write; [exact Hinv|exact Hi|]. apply Hs.
  - destruct ph as [| |c0 y nf|]; try done. destruct Hh as (_ & _ & -> & _). eexists _, _, _. eapply inv_write; [exact Hinv|exact Hi|]. apply Hs.
  - destruct ph as [| |c0 y nf|]; try done. destruct Hh as (_ & _ & -> & _). eexists _, _, _. eapply inv_write; [exact Hinv|exact Hi|]. apply Hs.
  - destruct ph as [| |c0 y nf|]; try done. destruct Hh as (_ & _ & Hc & _).
    pose proof (inv_write _ _ _ _ _ _ _ _ (k r) c0 y nf y (S nf) Hinv Hi Hs) as Hw.
    eexists _, _, _. destruct w as [wc we ws]; cbn in *. subst. exact Hw.
Qed.

Theorem safe_serializable (Post : nat → option session → A → Prop) (ps ps' : list (prog lcall lans A)) c w :
  (∀ i p, ps !! i = Some p → safe (finished (Post i)) Out p) →
  rtc sys_step (ps, mkWorld c None ∅) (ps', w) →
  ∃ log committed, chain c log committed ∧ NoDup log.*1 ∧
    ((∀ i p, ps' !! i = Some p → ∃ a, p = Ret a) → w_content w = committed) ∧
    ∀ i a, ps' !! i = Some (Ret a) → (i ∉ log.*1) ∧ Post i None a ∨ ∃ s, (i, s) ∈ log ∧ Post i (Some s) a.
Proof.
  intros Hsafe Hrtc.
  assert (∃ phs log committed, inv Post c ps' w phs log committed) as (phs & log & committed & Hinv).
  { remember (ps, mkWorld c None ∅) as s eqn:Es. remember (ps', w) as s' eqn:Es'.
    assert (∃ phs log committed, inv Post c s.1 s.2 phs log committed) as Hinit.
    { subst. exists (replicate (length ps) Out), [], c. split; cbn; try done; try apply NoDup_nil_2; try by left.
      - by rewrite length_replicate.
      - intros i p ph Hp Hph. apply lookup_replicate in Hph as [-> _]. by apply Hsafe.
      - intros i ph Hph. apply lookup_replicate in Hph as [-> _]. cbn. set_solver.
      - intros i ph Hph. apply lookup_replicate in Hph as [-> _]. cbn. set_solver. }
    clear Es. revert Hinit. change ps' with (ps', w).1 at 1. change w with (ps', w).2 at 2. rewrite <-Es'. clear Es'.
    induction Hrtc as [s|[ps1 w1] [ps2 w2] s Hstep _ IH]; intros (phs & log & com & Hinv); [by eauto|].
    apply IH. by eapply inv_step. }
  assert (∀ i a, ps' !! i = Some (Ret a) → ∃ ph, phs !! i = Some ph ∧ finished (Post i) ph a) as Hfin.
  { intros i a Hp. assert (i < length phs) as Hlt by (rewrite (inv_length _ _ _ _ _ _ _ Hinv); by eapply lookup_lt_Some).
    apply lookup_lt_is_Some in Hlt as [ph Hph]. exists ph. split; [done|]. exact (inv_safe _ _ _ _ _ _ _ Hinv i _ ph Hp Hph). }
  exists log, committed. split_and!; [by eapply inv_chain|by eapply inv_once| |].
  - intros Hall. eapply inv_free; [done|]. destruct (w_ex w) as [i|] eqn:He; [exfalso|done].
    pose proof (inv_holder _ _ _ _ _ _ _ Hinv i He) as Hlt. rewrite (inv_length _ _ _ _ _ _ _ Hinv) in Hlt.
    apply lookup_lt_is_Some in Hlt as [p Hp]. destruct (Hall i p Hp) as [a ->]. destruct (Hfin i a Hp) as (ph & Hph & Hf).
    pose proof (inv_holds _ _ _ _ _ _ _ Hinv i ph Hph) as Hh. destruct ph; cbn in Hf, Hh; try done; by destruct Hh.
  - intros i a Hp. destruct (Hfin i a Hp) as (ph & Hph & Hf). pose proof (inv_logged _ _ _ _ _ _ _ Hinv i ph Hph) as Hl.
    destruct ph as [| | |s]; cbn in Hf, Hl; try done; [by left|right; by exists s].
Qed.
End system.

(** ** The operations *)

(** A call leads to the same cases before and after a change of the program. *)
Ltac safe_call Hs IH :=
  match goal with |- context [match ?c with LOpen _ _ _ => _ | _ => _ end] => destruct c as [| [] | | | | |] end;
  repeat match goal with
  | H : _ ∧ _ |- _ => destruct H as [-> H]; split; [done|]
  | |- context [match ?ph with Out => _ | _ => _ end] => destruct ph; try done
  | |- context [if ?b then _ else _] => destruct b
  | |- safe _ _ _ => by apply IH
  | |- _ → _ => let Hd := fresh in intros Hd; by apply IH, Hs
  | |- ∀ _, _ => intros ?
  end.

Lemma safe_mono {A : Type} (Q Q' : phase → A → Prop) ph p :
  (∀ ph a, Q ph a → Q' ph a) → safe Q ph p → safe Q' ph p.
Proof.
  intros HQ. revert ph. induction p as [a|c k IH]; intros ph; cbn [safe]; [apply HQ|]. intros Hs r. specialize (Hs r).
  safe_call Hs IH.
Qed.

Lemma safe_then {A B : Type} (Q : phase → B → Prop) ph (p : prog lcall lans A) f :
  safe (λ ph a, safe Q ph (f a)) ph p → safe Q ph (p ≫= f).
Proof.
  revert ph. induction p as [a|c k IH]; intros ph; [done|]. cbn. intros Hs r. specialize (Hs r).
  safe_call Hs IH.
Qed.

(** Go through a bind with what is known of its first program. *)
Lemma safe_seq {A B : Type} (Q' : phase → A → Prop) (Q : phase → B → Prop) ph (p : prog lcall lans A) f :
  safe Q' ph p → (∀ ph a, Q' ph a → safe Q ph (f a)) → safe Q ph (p ≫= f).
Proof. intros Hp Hf. apply safe_then. by eapply safe_mono. Qed.

Lemma safe_lock fuel lt : lt ≠ LOCK_UN →
  safe (λ ph e, match e with
                | None => ∃ c, ph = match lt with LOCK_EX => In c c 0 | _ => Rd c end
                | Some _ => ph = Out end) Out (filelock_lock fuel lt).
Proof.
  intros Hlt. induction fuel as [|fuel IH]; cbn [filelock_lock safe]; intros r; unfold ok;
    destruct lt; try done; (split; [done|]); destruct (l_err r) as [[]|]; cbn; eauto.
Qed.

Lemma safe_unlock fuel ph0 : safe (λ ph _, ph = released ph0 ∨ ph = ph0) ph0 (filelock_Unlock fuel).
Proof.
  unfold filelock_Unlock. induction fuel as [|fuel IH]; cbn [filelock_lock safe]; intros r; unfold ok;
    destruct (l_err r) as [[]|]; cbn [safe]; auto; destruct ph0; cbn [safe]; auto.
Qed.

Lemma safe_closeFile fuel ph0 : safe (λ ph _, ph = released ph0) ph0 (closeFile fuel).
Proof.
  unfold closeFile. eapply safe_seq; [apply safe_unlock|]. intros ph e Hph r. destruct Hph as [-> | ->]; by destruct ph0.
Qed.

Lemma safe_closing {A : Type} (Q : phase → A → Prop) fuel ph0 a : Q (released ph0) a → safe Q ph0 (closing fuel a).
Proof.
  intros HQ. unfold closing, Close. apply safe_then. eapply safe_seq; [apply safe_closeFile|]. by intros ph e ->.
Qed.

(** What is known after the file was opened for writing. *)
Definition opened (trunc : bool) (ph : phase) (e : option lerr) : Prop :=
  match e with
  | None => ∃ c, ph = (if trunc then In c [] 0 else In c c 0) ∨ (trunc = true ∧ ph = In c c 1)
  | Some _ => ph = Out ∨ ∃ c, ph = Fin (c, c, 1)
  end.

Lemma safe_open_write fuel create trunc perm :
  safe (opened trunc) Out (OpenFile fuel (mkFlags true create trunc) perm).
Proof.
  unfold OpenFile, openFile. cbn [O_WRITE O_CREATE O_TRUNC]. intros r0. destruct (l_err r0); [by left|].
  eapply safe_seq; [by apply (safe_lock fuel LOCK_EX)|]. intros ph [e|]; [intros -> r; by left|]. intros [c ->].
  destruct trunc; [|by exists c; left]. intros r. unfold ok. destruct (l_err r) as [e|]; cbn [safe].
  2:{ exists c. left. by destruct c. }
  intros fi. destruct (match l_err fi with Some _ => true | None => l_regular fi end); [|exists c; by right].
  eapply safe_seq; [apply safe_unlock|]. intros ph x [-> | ->] r'; right; by exists c.
Qed.

Lemma safe_open_read fuel : safe (λ ph e, match e with None => ∃ c, ph = Rd c | Some _ => ph = Out end) Out (Open fuel).
Proof.
  unfold Open, OpenFile, openFile. cbn [O_WRITE O_CREATE O_TRUNC]. intros r0. destruct (l_err r0); [done|].
  eapply safe_seq; [by apply (safe_lock fuel LOCK_SH)|]. intros ph [e|]; [by intros -> r|]. intros [c ->]. by exists c.
Qed.

(** *** Contents *)

Lemma put_end c d : put c d (length c) = c ++ d.
Proof.
  destruct d as [|x d]; cbn [put]; [by rewrite app_nil_r|]. rewrite Nat.sub_diag, app_nil_r, take_ge by done.
  rewrite drop_ge by lia. by rewrite app_nil_r.
Qed.

Lemma put_start c d : put c d 0 = d ++ drop (length d) c.
Proof. by destruct d. Qed.

Lemma resize_prefix a b : resize (length a) (a ++ b) = a.
Proof.
  unfold resize. rewrite take_app_length, length_app. replace (length a - (length a + length b)) with 0 by lia. apply app_nil_r.
Qed.

(** *** What the operations promise *)

Definition read_post (s : option session) (a : lerr + bytes) : Prop :=
  match s, a with
  | None, inr _ => False
  | Some s, inr d => s = (d, d, 0)
  | Some (c0, c, _), inl _ => c = c0
  | None, inl _ => True
  end.

Definition write_post (chunks : list bytes) (s : option session) (a : lerr + bytes) : Prop :=
  match s, a with
  | None, inr _ => False
  | Some (c0, c, nf), inr _ => nf = 0 → c = concat chunks
  | _, inl _ => True
  end.

(** A transformation that succeeds has stored what [t] makes of the content it
    found; one that fails has left that content, if at most one write failed. *)
Definition transform_post (t : bytes → lerr + bytes) (s : option session) (a : lerr + bytes) : Prop :=
  match s, a with
  | None, inr _ => False
  | Some (c0, c, nf), inr _ => t c0 = inr c ∧ nf = 0
  | Some (c0, c, nf), inl _ => nf <= 1 → c = c0
  | None, inl _ => True
  end.

Lemma Read_safe fuel : safe (finished read_post) Out (Read fuel).
Proof.
  unfold Read. eapply safe_seq; [apply safe_open_read|]. intros ph [e|]; [by intros ->|]. intros [c ->] r Hd.
  apply safe_closing. cbn. destruct (l_err r); [done|]. by rewrite Hd.
Qed.

Lemma copy_chunks_safe chunks rerr c0 c nf pos past :
  (nf = 0 → c = past) → pos = length past →
  safe (λ ph e, ∃ c nf, ph = In c0 c nf ∧ (e = None → nf = 0 → c = past ++ concat chunks)) (In c0 c nf) (copy_chunks chunks rerr pos).
Proof.
  revert c nf pos past. induction chunks as [|d chunks IH]; intros c nf pos past Hc Hpos; cbn [copy_chunks].
  { exists c, nf. split; [done|]. intros _ Hn. cbn. rewrite app_nil_r. auto. }
  intros r. unfold ok. destruct (l_err r) as [e|]; cbn [safe].
  - intros j. eexists _, _. by split.
  - eapply safe_mono; [|apply (IH _ _ _ (past ++ d))].
    + intros ph e (c' & nf' & -> & He). exists c', nf'. split; [done|]. intros E Hn. rewrite (He E Hn). by rewrite <-app_assoc.
    + intros Hn. rewrite (Hc Hn), Hpos. by rewrite put_end.
    + rewrite length_app. lia.
Qed.

Lemma Write_safe fuel chunks rerr perm : safe (finished (write_post chunks)) Out (Write fuel chunks rerr perm).
Proof.
  unfold Write. eapply safe_seq; [apply safe_open_write|]. intros ph [e|]; [intros [-> |[c ->]]; done|].
  intros [c Hph]. assert (∃ x nf, ph = In c x nf ∧ (nf = 0 → x = [])) as (x & nf & -> & Hx).
  { destruct Hph as [-> |[_ ->]]; [by exists [], 0|by exists c, 1]. }
  eapply safe_seq; [by apply (copy_chunks_safe _ _ c x nf 0 [])|]. intros ph e (y & nf' & -> & He).
  apply (safe_seq (λ ph _, ph = Fin (c, y, nf'))).
  { unfold Close. eapply safe_seq; [apply safe_closeFile|]. by intros ph e' ->. }
  intros ph closed ->. cbn. destruct e as [e|]; [done|]. destruct (closed.2); cbn; auto.
Qed.

(** The content in the middle of a transformation, and its result. *)
Definition transformed (t : bytes → lerr + bytes) (c0 : bytes) (ph : phase) (a : lerr + bytes) : Prop :=
  ∃ c nf, ph = In c0 c nf ∧ transform_post t (Some (c0, c, nf)) a.

Lemma roll_back_safe t c0 x nf e : 1 <= nf → safe (transformed t c0) (In c0 x nf) (roll_back c0 e).
Proof.
  intros Hn r. unfold ok. destruct (l_err r); cbn [safe].
  - intros j. eexists _, _. split; [done|]. cbn. lia.
  - intros r'. destruct (ok r'); eexists _, _; (split; [done|]); cbn; [|lia]. intros _. by rewrite put_start, resize_prefix.
Qed.

Lemma overwrite_safe t c0 new x :
  t c0 = inr new → x = (if length c0 <? length new then c0 ++ drop (length c0) new else c0) →
  safe (transformed t c0) (In c0 x 0) (overwrite_file c0 new).
Proof.
  intros Ht Hx. unfold overwrite_file. destruct (Nat.leb_spec (length c0) (length new)) as [Hl|Hl].
  - intros r. unfold ok. destruct (l_err r); [intros j; apply roll_back_safe; lia|]. eexists _, _. split; [done|]. cbn. split; [|done].
    rewrite put_start, length_take_le by lia. rewrite Ht. f_equal. subst x.
    destruct (Nat.ltb_spec (length c0) (length new)) as [Hlt|Hge].
    + by rewrite drop_app_length, take_drop.
    + rewrite drop_all, app_nil_r, take_ge by lia. done.
  - rewrite (proj2 (Nat.ltb_ge _ _)) in Hx by lia. subst x. intros r. unfold ok. destruct (l_err r); [intros j; apply roll_back_safe; lia|].
    intros r'. unfold ok. destruct (l_err r'); cbn [safe]; [apply roll_back_safe; lia|]. eexists _, _. split; [done|]. cbn.
    by rewrite put_start, resize_prefix.
Qed.

Lemma transform_file_safe t c : safe (transformed t c) (In c c 0) (transform_file t).
Proof.
  intros r Hd. destruct (l_err r) as [e|].
  { exists c, 0. by split; [|intros _]. }
  cbn zeta. rewrite Hd by done. destruct (t c) as [e|new] eqn:Ht; [cbn; exists c, 0; split; [done|by intros _]|].
  destruct (Nat.ltb_spec (length c) (length new)) as [Hl|Hl].
  - intros r'. unfold ok. destruct (l_err r') as [e|]; cbn [safe].
    + intros j r2. destruct (ok r2); eexists _, _; (split; [done|]); cbn; [|lia]. intros _. rewrite put_end. by rewrite resize_prefix.
    + apply overwrite_safe; [done|]. rewrite (proj2 (Nat.ltb_lt _ _)) by done. apply put_end.
  - apply overwrite_safe; [done|]. by rewrite (proj2 (Nat.ltb_ge _ _)) by lia.
Qed.

Lemma Transform_safe fuel t : safe (finished (transform_post t)) Out (Transform fuel t).
Proof.
  unfold Transform, Edit. eapply safe_seq; [apply safe_open_write|]. intros ph [e|].
  { intros [-> |[c ->]]; cbn; [done|]. by intros _. }
  intros [c [-> |[[=] _]]]. eapply safe_seq; [apply transform_file_safe|]. intros ph a (x & nf & -> & Hp). by apply safe_closing.
Qed.

(** ** The theorem *)

Inductive op :=
  | OpRead
  | OpWrite (chunks : list bytes) (rerr : option lerr) (perm : Z)
  | OpTransform (t : bytes → lerr + bytes).

Definition op_prog (fuel : nat) (o : op) : prog lcall lans (lerr + bytes) :=
  match o with
  | OpRead => Read fuel
  | OpWrite chunks rerr perm => Write fuel chunks rerr perm
  | OpTransform t => Transform fuel t
  end.

Definition op_post (o : op) : option session → lerr + bytes → Prop :=
  match o with
  | OpRead => read_post
  | OpWrite chunks _ _ => write_post chunks
  | OpTransform t => transform_post t
  end.

(** C10. Operations on a locked file are serializable.  However the calls of any
    number of processes interleave, the sessions in which they held the lock can
    be put one after the other, each beginning with the content the one before it
    left: a read returns the content of its session, a write that succeeds has
    left its data, a transformation that succeeds has stored what its function
    makes of the content it found, and one that fails has left that content if
    no more than one of its writes failed.  When all have returned, the file
    holds what the last session left. *)
Theorem lockedfile_serializable (fuel : nat) (ops : list op) (c : bytes) (ps : list (prog lcall lans (lerr + bytes))) (w : world) :
  rtc sys_step (op_prog fuel <$> ops, mkWorld c None ∅) (ps, w) →
  ∃ log committed, chain c log committed ∧ NoDup log.*1 ∧
    ((∀ i p, ps !! i = Some p → ∃ a, p = Ret a) → w_content w = committed) ∧
    ∀ i o a, ops !! i = Some o → ps !! i = Some (Ret a) →
      (i ∉ log.*1) ∧ op_post o None a ∨ ∃ s, (i, s) ∈ log ∧ op_post o (Some s) a.
Proof.
  intros Hrtc. edestruct (safe_serializable (λ i s a, ∀ o, ops !! i = Some o → op_post o s a)) with (2 := Hrtc)
    as (log & committed & Hch & Hnd & Hend & Hres).
  { intros i p Hp. rewrite list_lookup_fmap in Hp. destruct (ops !! i) as [o|] eqn:Ho; [|done]. cbn in Hp. injection Hp as <-.
    eapply (safe_mono (finished (op_post o))).
    - intros ph a Hf. destruct ph; cbn in *; try done; intros o' [= <-]; done.
    - destruct o; [apply Read_safe|apply Write_safe|apply Transform_safe]. }
  exists log, committed. split_and!; [done..|]. intros i o a Ho Ha.
  destruct (Hres i a Ha) as [[Hn Hp]|(s & Hin & Hp)]; [left; by auto|right; by eauto].
Qed.

(** ** Runs *)

(** A choice of what the operating system does; [j] is the part of a failing
    write. *)
Definition os_apply (i : nat) (w : world) (c : lcall) (r : lans) (j : nat) : option world :=
  match c with
  | LOpen _ _ _ | LStat => Some w
  | LFlock lt =>
      match l_err r, lt with
      | Some _, _ => Some w
      | None, LOCK_UN => Some (release i w)
      | None, LOCK_EX => if bool_decide (w_ex w = None) && bool_decide (w_sh w = ∅) then Some (mkWorld (w_content w) (Some i) ∅) else None
      | None, LOCK_SH => if bool_decide (w_ex w = None) then Some (mkWorld (w_content w) None ({[i]} ∪ w_sh w)) else None
      end
  | LClose => Some (release i w)
  | LReadAll => if negb (ok r) || bool_decide (l_data r = w_content w) then Some w else None
  | LWriteAt d off => Some (set_content (put (w_content w) (if ok r then d else take j d) off) w)
  | LTruncate n => Some (if ok r then set_content (resize n (w_content w)) w else w)
  end.

Lemma os_apply_step i w c r j w' : os_apply i w c r j = Some w' → os_step i w c r w'.
Proof.
  unfold os_apply, ok. destruct c as [|lt| | | | |]; try (intros [= <-]; constructor).
  - destruct (l_err r) eqn:Er; [intros [= <-]; constructor; congruence|].
    destruct lt; repeat case_bool_decide; intros [= <-]; by constructor.
  - destruct (l_err r) eqn:Er; intros [= <-]; constructor; congruence.
  - destruct (l_err r) eqn:Er; cbn; [intros [= <-]; constructor; congruence|].
    case_bool_decide; intros [= <-]. by constructor.
  - destruct (l_err r) eqn:Er; intros [= <-]; [apply os_write_fail|constructor]; congruence.
Qed.

Fixpoint play {A : Type} (sched : list (nat * lans * nat)) (s : list (prog lcall lans A) * world) :
    option (list (prog lcall lans A) * world) :=
  match sched with
  | [] => Some s
  | (i, r, j) :: sched =>
      match s.1 !! i with
      | Some (Call c k) => w ← os_apply i s.2 c r j; play sched (<[i := k r]> s.1, w)
      | _ => None
      end
  end.

Lemma play_rtc {A : Type} sched (s s' : list (prog lcall lans A) * world) : play sched s = Some s' → rtc sys_step s s'.
Proof.
  revert s. induction sched as [|[[i r] j] sched IH]; intros [ps w]; cbn; [intros [= ->]; done|].
  destruct (ps !! i) as [[a|c k]|] eqn:Hi; [done| |done]. destruct (os_apply i w c r j) as [w'|] eqn:Ha; [|done]. cbn.
  intros Hp. eapply rtc_l; [|by apply IH]. econstructor; [done|]. by eapply os_apply_step.
Qed.

Definition fine : lans := mkLans None [] true.
Definition reads (s : string) : lans := mkLans None (str s) true.
Definition fails (s : string) : lans := mkLans (Some (LErr (str s))) [] true.
Definition append (s : string) : op := OpTransform (λ c, inr (c ++ str s)).

(** Two processes open the file; the first locks it, is interrupted once on the
    way, and the second waits for it. *)
Definition two_appends : list (nat * lans * nat) :=
  [(0, fine, 0); (1, fine, 0); (0, mkLans (Some EINTR) [] true, 0); (0, fine, 0); (0, reads "x", 0); (0, fine, 0); (0, fine, 0);
   (0, fine, 0); (1, fine, 0); (0, fine, 0); (1, reads "xa", 0); (1, fine, 0); (1, fine, 0); (1, fine, 0); (1, fine, 0)].

Lemma two_appends_run :
  play two_appends (op_prog 3 <$> [append "a"; append "b"], mkWorld (str "x") None ∅)
  = Some ([Ret (inr []); Ret (inr [])], mkWorld (str "xab") None ∅).
Proof. by vm_compute. Qed.

Lemma lockedfile_serializable_witness : ∃ log,
  chain (str "x") log (str "xab") ∧ NoDup log.*1 ∧ ∃ s, (1, s) ∈ log ∧ transform_post (λ c, inr (c ++ str "b")) (Some s) (inr []).
Proof.
  destruct (lockedfile_serializable 3 [append "a"; append "b"] (str "x") _ _ (play_rtc _ _ _ two_appends_run))
    as (log & committed & Hch & Hnd & Hend & Hres).
  exists log. split; [|split; [exact Hnd|]].
  - rewrite <-Hend in Hch; [exact Hch|]. intros [|[|i]] p Hp; simplify_eq/=; by eexists.
  - destruct (Hres 1 (append "b") (inr []) eq_refl eq_refl) as [[_ []]|Hs]. exact Hs.
Defined.

(** If the restoring fails too, a part of the old content is lost. *)
Example failed_restore :
  play [(0, fine, 0); (0, fine, 0); (0, reads "old", 0); (0, fails "disk", 1); (0, fails "disk", 0); (0, fine, 0); (0, fine, 0)]
    (op_prog 0 <$> [OpTransform (λ _, inr (str "new"))], mkWorld (str "old") None ∅)
  = Some ([Ret (inl (LErr (str "disk")))], mkWorld (str "nld") None ∅).
Proof. by vm_compute. Qed.
